(* ===== verification/_CoqProject ===== *)
-Q . S2P
Prelude.v
Futures.v
FuturesCost.v
FuturesSafety.v
FuturesSpec.v
Locks.v
Sync.v
Clock.v
ClockSpec.v
Limiter.v
Events.v
Scheduler.v
SchedulerInv.v
SchedulerSteps.v
SchedulerSpec.v
Links.v
Sockets.v
SocketsInv.v
SocketsSteps.v
SocketsSpec.v
Mpsc.v
Collect.v
HttpCodec.v
Pipe.v
Encoders.v
HttpProxy.v
HttpText.v
HttpTextSpec.v
HttpTextWitness.v
Decoders.v
DecodersLaws.v
DecodersSpec.v
Receive.v
DecodersWitness.v
TimeSeries.v
TimeSeriesSpec.v
Statistics.v
HttpConnection.v
HttpConnectionSpec.v
Routing.v
RoutingSpec.v
HttpResponse.v
HttpServe.v
HttpServeSpec.v
StateMachine.v
HttpServer.v
Sequence.v
Metrics.v
Loop.v
Ownership.v
Descriptors.v
Io.v
IoSpec.v
Subprocess.v
SubprocessSpec.v
SocketIo.v
Reap.v
Jwt.v
JwtSpec.v
Authenticators.v
JwtWitness.v
SslUtilities.v
TlsSocket.v
TlsSocketSpec.v
EventLoop.v
Libevent.v
Libev.v
Pollers.v
TlsAccept.v
TlsConfig.v
TlsConfigSpec.v
Digits.v
MemoryProfiler.v
MemoryProfilerSpec.v
Pid.v
Grpc.v
Dispatch.v
HttpClient.v
Initialize.v
