(* ===== verification/Prelude.v ===== *)
(** * A verification library for libprocess

    libprocess is an actor library: _processes_ (actors) own an event queue and
    are run by a pool of worker threads; they talk by events and by _futures_,
    and the same futures are what every asynchronous service of the library (locks,
    queues, timers, rate limiters, pipes) hands to its callers.

    ** The parts and how they interact

    - A _future_ ([include/process/future.hpp]) is a shared block with a result
      and vectors of callbacks.  Completing it runs the callbacks; [then],
      [recover], [after], [select] and [Promise::associate] build futures out of
      futures by registering callbacks on one and completing another.
    - The _process manager_ ([src/process.cpp]) delivers events to the queues of
      the processes ([src/event_queue.hpp]), puts processes on the run queue
      ([src/run_queue.hpp]) whose semaphore ([src/semaphore.hpp]) wakes workers,
      resumes processes, and cleans them up when they terminate.
    - The _socket manager_ ([src/process.cpp], [src/socket_manager.hpp]) records
      which process linked to which and tells the linkers when one exits (the
      cleanup of the process manager calls it), and keeps the connections: which
      socket serves which address, what waits to be sent on it, and which
      _HTTP proxy_ ([src/http_proxy.cpp]) answers its requests.
    - The _clock_ ([src/clock.cpp]) keeps the timers; [Future::after] and the
      delayed dispatches of the _rate limiter_ ([include/process/limiter.hpp])
      are timers.
    - Locks, queues, latches, [collect] and [await] and HTTP pipes are clients of
      futures: each guards its own data with a spin lock and completes promises
      after it has released that lock (the discard handler of [Queue::get] excepted).
      [Loop], [Sequence] and [StateMachine] order asynchronous work with them.
    - _HTTP_ comes in at a connection: the loop that receives decodes requests
      ([src/decoder.hpp]); the process manager either parses a message of a peer or
      finds the process and its endpoint, behind the firewall and the authenticators
      ([src/process.cpp], [src/authenticator_manager.cpp]); the HTTP proxy sends the
      responses.  [src/http.cpp] also has a client connection, and a server of its own
      ([serve], [Server]) that is made of loops, a queue and a state machine.
    - _Metrics_ ([include/process/metrics], [src/metrics]) are counters, gauges and
      timers with histories ([timeseries.hpp]) and their statistics ([statistics.hpp]).
    - _Ownership_ ([owned.hpp], [shared.hpp]) is passed around with pointers that can be
      shared and upgraded again.
    - The _operating system_ is reached through [src/io.cpp] and [src/socket.cpp], loops
      that wait in [io::poll]; the event loops over libevent and libev
      ([src/posix/libevent], [src/posix/libev]) answer the polls and run the timers of the
      clock.  _Subprocesses_ ([src/subprocess.cpp], [src/posix/subprocess.hpp]) are started
      with pipes and reaped by a process ([src/reap.cpp]).
    - _Security_: sockets with TLS ([src/posix/libevent/libevent_ssl_socket.cpp]), keys and
      certificates ([src/ssl/utilities.cpp]), the configuration of OpenSSL and the
      verification of peers ([src/openssl.cpp]), tokens ([src/jwt.cpp]) and the two
      authenticators that the authentication manager calls.
    - _Callers_ reach processes by their names ([pid.hpp], [src/pid.cpp]) with [dispatch],
      [defer], [async], [run], [delay] and executors, and HTTP servers with the helpers of
      [src/http.cpp]; gRPC calls go through a runtime ([src/grpc.cpp]) with a process and a
      thread.  A _memory profiler_ ([src/memory_profiler.cpp]) is one of the processes that
      [process::initialize] spawns when the first thread needs the library.

    ** Where each part is modelled

    - [Prelude.v] (this file): [Try], the outcome of a failed [CHECK]
      ([checked]), closures of step relations and their invariant rule, generic
      lemmas, hint databases and tactics.
    - [Futures.v]: [Future] and [Promise].  The heap of [Data] blocks, one
      definition per member function, each the critical section it runs under
      [data->lock] together with the operations its thread performs next; stored
      closures are data ([cb]).  [step] runs one operation, [run] a stack of them,
      and a pool of stacks interleaves the threads.  A completed block keeps its vectors
      of callbacks until the operation that clears them.
      [FuturesCost.v] accounts for work and calls, [FuturesSafety.v] holds the
      interleaving invariants, [FuturesSpec.v] the properties and
      concrete stores.
    - [Locks.v]: [Mutex] and [ReadWriteLock].  [Sync.v]: [Queue], [CountDownLatch]
      and [Once].
    - [Clock.v], [ClockSpec.v]: timers, ticks, pausing, advancing and cancelling,
      the delays that the clock asks of the event loop, and [Timeout].  [Limiter.v]: the rate limiter's process.
    - [Events.v]: event kinds, the event queue, the semaphore and the run queue.
      [Scheduler.v]: [ProcessManager::use], [deliver], [enqueue], [resume],
      [cleanup], [spawn], [terminate], [wait], [finalize] and the worker loop.  A
      thread is a stack of frames and a step performs one access of shared memory,
      so all interleavings of the source's atomic accesses are executions.
      [SchedulerInv.v] states the invariant, [SchedulerSteps.v] proves that every
      frame preserves it, [SchedulerSpec.v] draws the consequences.
    - [Links.v]: the three maps of links, [SocketManager::link] (the recording of
      the link) and both [SocketManager::exited].
    - [Mpsc.v]: the lock-free queue of [src/mpsc_linked_queue.hpp].
    - [Collect.v]: the processes behind [collect] and [await].
    - [HttpCodec.v]: [http::encode] and [http::decode].  [Pipe.v]: [http::Pipe].
    - [Sockets.v]: the sockets of the socket manager, every member function of
      [SocketManager], and the activities that hold a socket: pending connects,
      [internal::receive], [ignore_recv_data], [internal::send], [HttpProxy].
      [SocketsInv.v] states the invariant, a global part and one local to each
      descriptor, [SocketsSteps.v] proves that every operation preserves it,
      [SocketsSpec.v] draws the consequences.
    - [Encoders.v]: encoders behind one interface (a type class with its laws, and
      the instances [DataEncoder] and [FileEncoder]), the loop of
      [internal::_send], [MessageEncoder::encode] and chunked bodies.
    - [HttpProxy.v]: the process that answers the requests of one connection.
    - [HttpText.v]: statuses, headers, URLs, queries, path patterns, negotiation and
      challenges ([http.cpp], [http.hpp]); [HttpTextSpec.v] has the properties,
      [HttpTextWitness.v] an implementation of the string functions of stout with a
      proof of the laws that are assumed of them.
    - [Decoders.v]: the four decoders of [decoder.hpp] as instances of one class, driven
      by the callbacks of the parser; [DecodersLaws.v] what a message is,
      [DecodersSpec.v] the properties, [Receive.v] the loop [internal::receive].
    - [HttpConnection.v]: [ConnectionProcess] and the encoding of requests;
      [HttpConnectionSpec.v] has the properties.
    - [Routing.v]: [ProcessManager::handle], [parse], [ProcessBase::route], [provide],
      [consume] and [_consume], [FirewallRule] and [AuthenticatorManagerProcess];
      [RoutingSpec.v] has the properties.
    - [HttpResponse.v]: [HttpResponseEncoder].  [HttpServe.v]: [send], [sendfile],
      [stream], [receive] and [serve] of [http.cpp], a step per completion of a future
      that one of the two loops waits for; [HttpServeSpec.v] has the properties.
      [HttpServer.v]: [ServerProcess], on the machine of [StateMachine.v].
    - [Sequence.v]: [SequenceProcess].  [Loop.v]: [internal::Loop], its result and the
      threads that run and discard it.
    - [TimeSeries.v], [TimeSeriesSpec.v], [Statistics.v], [Metrics.v]: time series,
      statistics, the metrics and their registry.
    - [Ownership.v]: [Owned] and [Shared], with the two steps of their atomic operations.
    - [Descriptors.v]: the table of descriptors and the system calls on it, which may fail
      (class [Descriptors]).  [Io.v], [IoSpec.v]: [io::read], [write] and [redirect].
      [Subprocess.v], [SubprocessSpec.v]: [subprocess] in the parent and in the child.
      [SocketIo.v]: creating, accepting and connecting sockets, and the loops that send
      and receive.  [Reap.v]: the reaper.
    - [EventLoop.v]: the interface of [io::poll] (a class of event loops with its laws);
      [Libevent.v] and [Libev.v]: its two implementations, with the queues of functions;
      [Pollers.v]: what holds of both.
    - [Jwt.v], [JwtSpec.v]: tokens.  [Authenticators.v]: the interface [Authenticator] and
      its instances for passwords and for tokens.  [SslUtilities.v]: keys and certificates,
      in a monad that keeps the objects of OpenSSL.
    - [TlsSocket.v], [TlsSocketSpec.v]: the requests, functions and callbacks of a TLS
      socket.  [TlsAccept.v]: connections from the listener to the queue of [accept].
    - [TlsConfig.v], [TlsConfigSpec.v]: the flags and the context of OpenSSL, and the
      verification of a peer before and after the handshake.
    - [Digits.v]: decimal numbers in strings.  [MemoryProfiler.v], [MemoryProfilerSpec.v]: the
      memory profiler, its runs, timers and files.  [Pid.v]: names of processes
      ([UPID], [inet::Address], [ID::generate]), over an interface of addresses.
    - [Dispatch.v]: functions that are dispatched, deferred, delayed or run
      asynchronously, and their futures.  [Grpc.v]: the runtime for gRPC calls.
    - [HttpClient.v]: [http::connect(url)], [createRequest], [get],
      [post], [requestDelete].
    - [Initialize.v]: [process::initialize] by many threads, [finalize]
      and [reinitialize].
    - The theorems are applied to concrete inputs at the end of the file that has them, or
      in a file named [...Witness.v].

    ** What the theorems show

    - Futures: a completed future never changes; the result always matches the
      state; every closure runs at most once; every operation terminates, under every
      interleaving too, and leaves no callback in a completed future; callbacks run in
      registration order; [then], [recover], [after], [select],
      [undiscardable] and chains of associations have the outcome of a functional
      specification ([outcome]), whether the continuation was registered before or
      after completion.
    - Process manager: under every interleaving no [CHECK] fails, a process has one
      owner, no wakeup is lost, events are served in the order of their enqueueing,
      nobody touches a process after it finished, and queued processes have enough
      semaphore units for a worker to come.  While [finalize] joins the workers, processes
      that become runnable are dropped; where that matters the theorems say so.  Filters of
      events must not drop terminate events.
    - Clock and limiter: a tick expires exactly the due timers, no pending timer is
      without a delay of the event loop that ends in time, a cancelled timer is gone; permits are spaced by the rate and
      waiters are served.
    - Locks, queues, pipes, latches: mutual exclusion, first-in first-out service,
      one trigger, with the promises they complete.
    - Links: the maps stay consistent, and an exit tells exactly the linkers, once.
    - The lock-free queue refines a FIFO and never touches a deleted node.
    - The codec round-trips, and decoding fails on exactly the malformed strings.
    - Sockets: no [CHECK] fails, a descriptor has at most one writer, queued messages
      have one and go out in order (also over reconnects and downgrades), remote links
      are watched by a socket whose loss tells the linkers, [finalize] leaves nothing.
    - Encoders: [_send] writes exactly the bytes, however the socket splits them;
      chunked bodies decode to what was written.
    - HTTP proxy: responses go out in the order of the requests unless a request
      arrives while a stream is being sent with nothing waiting behind it; that case
      is shown to interleave responses or to fail a [CHECK].
    - Decoders and receiving: requests are handed over in order, however the input is
      split, with every body in its pipe; no [CHECK] of the streaming decoders fails
      unless the parser stops early, which is shown to abort; no body is left open.
    - Client connections: no [CHECK] fails, responses go to requests in order, and no
      promise is left pending after the connection ended.
    - Routing: what is delivered has passed the firewall and is consumed without a
      failing [CHECK]; the longest prefix finds the endpoint; handlers behind a realm
      see only principals that were authenticated and authorized; messages round-trip;
      a disabled endpoint can be reached with another spelling of its path.
    - Servers: answers in order, no use of a deleted request, everything is deleted at
      the end; a response announces its length; a server that has stopped is idle.
    - Loops compute the recursion that their comments give; discards are passed on when
      the loop has an execution context and can be lost when it has none.  Sequences
      run one callback at a time, in order.
    - Time series stay within their capacity (of four or more), statistics are ordered,
      counters count, snapshots hold exactly what is ready.
    - Text: queries and URLs round-trip, paths match their patterns, negotiation follows
      its rules of precedence.
    - Ownership: what an [Owned] pointer gives access to is alive and exclusive, and every
      object is deleted once.
    - Input and output: every descriptor has one owner whichever calls fail, reads, writes
      and redirects transfer everything, in order; a receive returns fewer than twice the
      bytes asked for.
    - Subprocesses: the parent keeps only its ends of the pipes, the program of the child
      finds its streams and the white list and nothing else; the cases in which it does not
      are theorems too.  The reaper answers every caller once.
    - Event loops: a poll is answered once, with events that happened, discarded only on
      request; the loops become idle, and then every poll that is not answered is watched.
    - Tokens and authenticators: the comparison of signatures is equality, an accepted
      token is genuine and unexpired, no algorithm is taken for another, tokens round-trip;
      exactly the right passwords authenticate, also through the authentication manager;
      what authenticators return is well formed.
    - TLS: the objects of OpenSSL are freed once on every path of [utilities.cpp]; requests of
      a socket are answered once, data is received in order, sends that are answered were
      written, and no [CHECK] fails when the socket is used as it is meant to be (the uses
      that abort, such as two connects at once, are examples); an
      accepted connection has its resources, and what a failed one leaves open is exact.
      The context has what the flags say and nothing of an earlier one; [verify] succeeds
      exactly for the peers that a declarative description admits, and a client that
      verifies servers talks to the peer.  That a certificate leaks and that a NUL in a common
      name is accepted are theorems too.
    - Dispatched functions: they run in their process only, whoever calls them; a future is
      pending exactly while the call is in the queue of a live process, or follows a future
      that is pending, or was abandoned; [async] runs once.
    - gRPC: no [CHECK] fails, every call is in one place and is answered with what was
      reported, and a runtime that is asked to terminate does, within the work it has.
    - Names (of IPv4 addresses) round-trip, are parsed exactly when they have their form, are totally ordered,
      and generated names are unique.
    - Memory profiler: downloads are of the run that was asked for, runs end, and the stop
      endpoint aborts in exactly one situation.
    - HTTP client: the helpers send what [createRequest] builds; a parsed URL can be connected
      to; a process cannot be verified by its hostname over https.
    - Initialization: one thread initializes, in an order in which nothing is missing, and
      whoever has returned finds the core of the library, before it is finalized.

    ** Bounds, fuel and numbers

    [run] takes fuel because callbacks register and run further callbacks.  The
    weight of the stack and of the closures stored in the heap is enough
    ([FuturesSpec.run_terminates]); statements use [execute], which runs with that
    weight, and not a chosen number.  The other models are relations or structural
    recursions; the schedules that the witnesses of the process manager play are
    explicit lists of thread numbers.  The loops of [_send] and of
    [SocketManager::finalize] take fuel too; their theorems show that the number of
    bytes and the number of sockets are enough.  So does the search for an endpoint: the
    length of the name is enough, since every step shortens it; and the loop that makes a
    time series sparse: every turn removes a value; and the loop of [SocketImpl::send],
    for which the number of bytes is enough when the system keeps taking some.  Times and durations are integers of
    nanoseconds, and the largest duration, at which [Timeout::in] saturates, is an
    argument.  Indexes of time series and the values of counters are machine integers; a
    [double] is an exact rational, so that rounding is not part of the theorems.

    ** What is assumed of code outside the repository

    The string functions of stout ([Stout], [StoutLaws]), the functions on paths
    ([PathOps]), the HTTP parser and what it does at the end of the input ([callback],
    [AtEof]), the URL parser, the compression library, the date and the parsing of numbers
    ([ResponseEnv]), the splitting of strings ([SplitLaws]), base64, JSON, the primitives of
    OpenSSL ([Base64], [Json], [OpenSSL], [SslConstants]), the flags of libevent
    and libev ([EventFlags], [LibevFlags]), the failures of system calls ([Descriptors]), the handshake of TLS
    ([Handshake]), the addresses of the network ([IpAddresses]) and the scaling of a
    duration ([Scaling]) are classes of operations; each law states a sentence of their
    documentation, and the witnesses instantiate all of them with concrete functions.

    ** What is not modelled, and why

    Memory is sequentially consistent: the models interleave atomic accesses and do
    not weaken them to acquire and release.  Blocking of a thread in
    [Future::await] and [Latch::await] and the reclamation of [Data] blocks by
    reference counts are left out; a future is a location that stays valid.  Code
    of the user ([initialize], [serve], callbacks) is a list of calls into the
    library.  While a linker is notified, the source keeps it alive with the socket
    manager's mutex; the process manager's model gives the notification a reference.
    libevent and OpenSSL are what their documentation says: a write callback comes after
    the output was drained, the end of a handshake is reported while there is one, and a
    callback is not called after its buffer was freed.  A TLS socket that sends a file
    writes the contents that the file had.
    The completion queue of gRPC gives every operation that was started one tag, with
    [ok], and ends after it was shut down and is empty.  What jemalloc, [jeprof] and the file
    system do for the memory profiler are arguments of its steps.
    Of conditional code the branches for POSIX, for TLS and for a recent OpenSSL are
    modelled.  [ProcessManager::settle] is a loop of the tests that waits until the modelled
    queues are empty; the timers of the event loops only call the modelled clock; printing of
    times, help texts, mime types, the CPU profiler and the adapters for protobuf are tables
    or calls of libraries; the code for Windows and the test libraries are not part of what
    runs on the modelled platform; the helpers of stout are not part of this repository.
    The file systems and sockets that [HttpServe.v] uses are arguments: what a file is, and
    how a send ends. *)

(** ** Shared vocabulary

    The error type of fallible code,
    closures of step relations, generic facts on lists and options, the hint
    databases and the tactics used by the component files. *)

From stdpp Require Export base list gmap strings.
From Stdlib Require Export ZArith Lia.

Declare Scope proc_scope.
Delimit Scope proc_scope with proc.

(** ** Outcomes of fallible code

    [Try<T>] of stout: a value or an error message.  [Abort] is what a failed
    [CHECK] or [ABORT] does to the operating system process. *)
Inductive Try (A : Type) : Type :=
| Some_ (a : A)
| Error (message : string).
Arguments Some_ {A} a.
Arguments Error {A} message.

Inductive checked (A : Type) : Type :=
| Returns (a : A)
| Abort (message : string).
Arguments Returns {A} a.
Arguments Abort {A} message.

Definition try_bind {A B} (t : Try A) (f : A -> Try B) : Try B :=
  match t with
  | Some_ a => f a
  | Error e => Error e
  end.

Notation "'let!' x ':=' t 'in' k" := (try_bind t (fun x => k))
  (at level 200, x pattern, t at level 100, k at level 200,
   right associativity) : proc_scope.

Definition isSome_ {A} (t : Try A) : bool :=
  match t with Some_ _ => true | Error _ => false end.

(** ** Reflexive transitive closure of a step relation *)
Section Closure.
Context {S : Type} (R : S -> S -> Prop).

Inductive steps : S -> S -> Prop :=
| steps_refl s : steps s s
| steps_cons s1 s2 s3 : R s1 s2 -> steps s2 s3 -> steps s1 s3.

Lemma steps_one s1 s2 : R s1 s2 -> steps s1 s2.
Proof. intros; eapply steps_cons; eauto using steps_refl. Qed.

Lemma steps_trans s1 s2 s3 : steps s1 s2 -> steps s2 s3 -> steps s1 s3.
Proof. induction 1; eauto using steps_cons. Qed.

(** Invariants are proved on one step and lifted here. *)
Lemma steps_invariant (P : S -> Prop) s1 s2 :
  (forall a b, P a -> R a b -> P b) -> steps s1 s2 -> P s1 -> P s2.
Proof. intros HP; induction 1; eauto. Qed.

(** The same for a preorder between the two ends of a run. *)
Lemma steps_preorder (Q : S -> S -> Prop) `{!PreOrder Q} s1 s2 :
  (forall a b, R a b -> Q a b) -> steps s1 s2 -> Q s1 s2.
Proof. intros HQ; induction 1; [reflexivity|]. etrans; eauto. Qed.
End Closure.

Create HintDb proc discriminated.
#[export] Hint Constructors steps : proc.
#[export] Hint Resolve steps_one steps_trans : proc.

(** ** Tactics *)

(** Case analysis on every [match] and [if] of the goal or of a hypothesis. *)
Ltac crack :=
  repeat match goal with
  | H : context [match ?x with _ => _ end] |- _ => destruct x eqn:?; simplify_eq/=
  | |- context [match ?x with _ => _ end] => destruct x eqn:?; simplify_eq/=
  end.

(** Close a goal by case analysis, congruence and linear arithmetic. *)
Ltac crush := intros; simplify_eq/=; crack; try done; try congruence; try lia; eauto.

(** Case analysis on one [decide] or boolean test, remembering the outcome. *)
Ltac bool_cases :=
  repeat match goal with
  | H : _ && _ = true |- _ => apply andb_true_iff in H as [? ?]
  | H : _ || _ = false |- _ => apply orb_false_iff in H as [? ?]
  | H : negb _ = true |- _ => apply negb_true_iff in H
  | H : negb _ = false |- _ => apply negb_false_iff in H
  | H : (_ =? _)%Z = true |- _ => apply Z.eqb_eq in H
  | H : (_ =? _)%Z = false |- _ => apply Z.eqb_neq in H
  | H : (_ <? _)%Z = true |- _ => apply Z.ltb_lt in H
  | H : (_ <? _)%Z = false |- _ => apply Z.ltb_ge in H
  | H : (_ <=? _)%Z = true |- _ => apply Z.leb_le in H
  | H : (_ <=? _)%Z = false |- _ => apply Z.leb_gt in H
  | H : (_ =? _) = true |- _ => apply Nat.eqb_eq in H
  | H : (_ =? _) = false |- _ => apply Nat.eqb_neq in H
  | H : (_ <? _) = true |- _ => apply Nat.ltb_lt in H
  | H : (_ <? _) = false |- _ => apply Nat.ltb_ge in H
  | H : (_ <=? _) = true |- _ => apply Nat.leb_le in H
  | H : (_ <=? _) = false |- _ => apply Nat.leb_gt in H
  | H : bool_decide _ = true |- _ => apply bool_decide_eq_true in H
  | H : bool_decide _ = false |- _ => apply bool_decide_eq_false in H
  end.

(** ** Lists *)

Fixpoint sum_list_by {A} (f : A -> nat) (l : list A) : nat :=
  match l with
  | [] => 0
  | x :: l => f x + sum_list_by f l
  end.

Lemma sum_list_by_app {A} (f : A -> nat) l1 l2 :
  sum_list_by f (l1 ++ l2) = sum_list_by f l1 + sum_list_by f l2.
Proof. induction l1; simpl; lia. Qed.

Lemma sum_list_by_map {A B} (g : A -> B) (f : B -> nat) l :
  sum_list_by f (map g l) = sum_list_by (fun x => f (g x)) l.
Proof. induction l; simpl; lia. Qed.

Lemma sum_list_by_ext {A} (f g : A -> nat) l :
  (forall x, f x = g x) -> sum_list_by f l = sum_list_by g l.
Proof. intros H; induction l; simpl; rewrite ?H; lia. Qed.

#[export] Hint Rewrite @sum_list_by_app @sum_list_by_map : proc.

(** Sum of a measure over the values of a finite map. *)
Section SumMap.
Context {K : Type} `{Countable K} {A : Type} (f : A -> nat).

Definition sum_map (m : gmap K A) : nat :=
  sum_list_by (fun kv => f kv.2) (map_to_list m).

Lemma sum_map_insert_new m k x :
  m !! k = None -> sum_map (<[k := x]> m) = f x + sum_map m.
Proof.
  intros Hk. unfold sum_map.
  assert (Hp : map_to_list (<[k:=x]> m) ≡ₚ (k, x) :: map_to_list m)
    by (by apply map_to_list_insert).
  revert Hp. generalize (map_to_list (<[k:=x]> m)), (map_to_list m).
  intros l1 l2 Hp.
  assert (Hs : sum_list_by (fun kv => f kv.2) l1
               = sum_list_by (fun kv => f kv.2) ((k, x) :: l2)).
  { induction Hp; simpl in *; lia. }
  simpl in Hs. lia.
Qed.

Lemma sum_map_insert m k x y :
  m !! k = Some x -> sum_map (<[k := y]> m) + f x = sum_map m + f y.
Proof.
  intros Hk. rewrite <- (insert_delete_id m k x Hk) at 2.
  rewrite <- insert_delete_eq.
  rewrite !sum_map_insert_new by apply lookup_delete_eq. lia.
Qed.

Lemma sum_map_empty : sum_map ∅ = 0.
Proof. unfold sum_map. by rewrite map_to_list_empty. Qed.
End SumMap.

Lemma Forall_insert_lookup {A} (P : A -> Prop) (l : list A) i x :
  Forall P l -> P x -> Forall P (<[i := x]> l).
Proof. intros; by apply Forall_insert. Qed.
#[export] Hint Resolve Forall_insert_lookup : proc.

Section Filter.
Context {A : Type} (P : A -> Prop) `{forall x, Decision (P x)}.

Lemma filter_all l : Forall P l -> filter P l = l.
Proof. induction 1; [done|]. rewrite filter_cons_True by done. by f_equal. Qed.

Lemma filter_none l : Forall (fun x => ~ P x) l -> filter P l = [].
Proof. induction 1; [done|]. by rewrite filter_cons_False. Qed.
End Filter.
