(* ===== verification/Futures.v ===== *)
(** Futures and promises ([include/process/future.hpp]).

    A future is a shared reference to a [Data] block, so the model has a heap
    of [Data] blocks and a future or a promise is a location of that heap; two
    futures are equal when their locations are ([operator==]).  The closures
    the library stores in the six callback vectors are values of the inductive
    type [cb] with the arguments the source binds to them.  A source function
    is a [Definition] that performs the critical section the function runs
    under [data->lock] and returns the operations the thread performs next, in
    program order; [step] executes one operation and [run] a whole stack of
    them, so callbacks nest depth first as they do in the source.  Running
    several stacks against one store interleaves the critical sections of
    several threads. *)

From S2P Require Import Prelude.

(** ** Data *)

Notation loc := nat (only parsing).

(** [Future<T>::State]. *)
Inductive State := PENDING | READY | FAILED | DISCARDED.

#[export] Instance State_eq_dec : EqDecision State.
Proof. solve_decision. Defined.

(** Values a future can hold; futures of futures hold a location. *)
Inductive val :=
| VNothing
| VInt (z : Z)
| VString (s : string)
| VFuture (l : loc)
| VList (vs : list val).

(** [Result<T>]: none, some or error. *)
Inductive Result :=
| RNone
| RSome (v : val)
| RError (message : string).

(** The argument a callback is invoked with: nothing, the value ([onReady]),
    the failure message ([onFailed]) or the future itself ([onAny]). *)
Inductive arg :=
| ANone
| AVal (v : val)
| AErr (message : string)
| AFut (l : loc).

(** What a continuation passed to [then], [recover], [repair] or [after]
    returns: an existing future, or a value or [Failure] that is converted to
    a fresh future. *)
Inductive returned :=
| ReturnsFuture (l : loc)
| ReturnsValue (v : val)
| ReturnsFailure (message : string).

(** Operations a thread performs, and the closures it registers. *)
Inductive op :=
| OFutureSet (l : loc) (v : val)
| OFutureFail (l : loc) (message : string)
| OFutureDiscard (l : loc)
| OFutureAbandon (l : loc) (propagating : bool)
| OOnAbandoned (l : loc) (c : cb)
| OOnDiscard (l : loc) (c : cb)
| OOnReady (l : loc) (c : cb)
| OOnFailed (l : loc) (c : cb)
| OOnDiscarded (l : loc) (c : cb)
| OOnAny (l : loc) (c : cb)
| OAwait (l : loc) (latch : nat)
| OClear (l : loc)
| OPromiseSet (p : loc) (v : val)
| OPromiseFail (p : loc) (message : string)
| OPromiseDiscard (p : loc)
| OPromiseAssociate (p l : loc)
| OPromiseDestroy (p : loc)
| ODiscardStatic (l : loc)
| OAssociateReturned (p : loc) (r : returned)
| OResetDiscard (p : loc)
| OThenf (l : loc) (name : nat) (effects : list op) (f : val -> returned)
| OThen (l : loc) (name : nat) (effects : list op) (f : val -> val)
| ORecover (l : loc) (name : nat) (effects : list op) (f : loc -> returned)
| ORepair (l : loc) (name : nat) (effects : list op) (f : loc -> returned)
| OAfter (l : loc) (duration : Z) (name : nat) (effects : list op)
    (f : loc -> returned)
| OExpired (name : nat) (effects : list op) (f : loc -> returned)
    (latch : nat) (p : loc) (timer : nat) (l : loc)
| OTimerFires (timer : nat)
| OUndiscardable (l : loc)
| OSelect (ls : list loc)
| OCall (name : nat) (a : arg)
| OInvoke (c : cb) (a : arg)
with cb :=
| User (name : nat) (body : list op)
| DiscardWeak (l : loc)
| Discarded (l : loc)
| Abandon (l : loc) (propagating : bool)
| SetTo (l : loc)
| FailTo (l : loc)
| Thenf (name : nat) (effects : list op) (f : val -> returned) (p : loc)
| Then (name : nat) (effects : list op) (f : val -> val) (p : loc)
| Recover (name : nat) (effects : list op) (f : loc -> returned) (p l : loc)
| RecoverAbandoned (name : nat) (effects : list op) (f : loc -> returned)
    (p l : loc)
| Repair (name : nat) (effects : list op) (f : loc -> returned) (p : loc)
| After (latch : nat) (p : loc) (timer : nat)
| Associate (p : loc)
| Select (p : loc)
| Awaited (latch : nat).

(** [Future<T>::Data]. *)
Record Data := mkData {
  state : State;
  discard : bool;
  associated : bool;
  abandoned : bool;
  result : Result;
  onAbandonedCallbacks : list cb;
  onDiscardCallbacks : list cb;
  onReadyCallbacks : list cb;
  onFailedCallbacks : list cb;
  onDiscardedCallbacks : list cb;
  onAnyCallbacks : list cb;
}.

(** [Future<T>::Data::Data()]. *)
Definition Data_Data : Data :=
  mkData PENDING false false false RNone [] [] [] [] [] [].

(** [Future<T>::Data::clearAllCallbacks()]. *)
Definition Data_clearAllCallbacks (d : Data) : Data :=
  mkData (state d) (discard d) (associated d) (abandoned d) (result d)
    [] [] [] [] [] [].

(** Assignments to single fields of a [Data] block. *)
Definition set_discard (b : bool) (d : Data) : Data :=
  mkData (state d) b (associated d) (abandoned d) (result d)
    (onAbandonedCallbacks d) (onDiscardCallbacks d) (onReadyCallbacks d)
    (onFailedCallbacks d) (onDiscardedCallbacks d) (onAnyCallbacks d).
Definition set_associated (d : Data) : Data :=
  mkData (state d) (discard d) true (abandoned d) (result d)
    (onAbandonedCallbacks d) (onDiscardCallbacks d) (onReadyCallbacks d)
    (onFailedCallbacks d) (onDiscardedCallbacks d) (onAnyCallbacks d).
Definition set_abandoned (b : bool) (d : Data) : Data :=
  mkData (state d) (discard d) (associated d) b (result d)
    (onAbandonedCallbacks d) (onDiscardCallbacks d) (onReadyCallbacks d)
    (onFailedCallbacks d) (onDiscardedCallbacks d) (onAnyCallbacks d).
Definition set_onAbandoned (cs : list cb) (d : Data) : Data :=
  mkData (state d) (discard d) (associated d) (abandoned d) (result d)
    cs (onDiscardCallbacks d) (onReadyCallbacks d)
    (onFailedCallbacks d) (onDiscardedCallbacks d) (onAnyCallbacks d).
Definition set_onDiscard (cs : list cb) (d : Data) : Data :=
  mkData (state d) (discard d) (associated d) (abandoned d) (result d)
    (onAbandonedCallbacks d) cs (onReadyCallbacks d)
    (onFailedCallbacks d) (onDiscardedCallbacks d) (onAnyCallbacks d).
Definition set_onReady (cs : list cb) (d : Data) : Data :=
  mkData (state d) (discard d) (associated d) (abandoned d) (result d)
    (onAbandonedCallbacks d) (onDiscardCallbacks d) cs
    (onFailedCallbacks d) (onDiscardedCallbacks d) (onAnyCallbacks d).
Definition set_onFailed (cs : list cb) (d : Data) : Data :=
  mkData (state d) (discard d) (associated d) (abandoned d) (result d)
    (onAbandonedCallbacks d) (onDiscardCallbacks d) (onReadyCallbacks d)
    cs (onDiscardedCallbacks d) (onAnyCallbacks d).
Definition set_onDiscarded (cs : list cb) (d : Data) : Data :=
  mkData (state d) (discard d) (associated d) (abandoned d) (result d)
    (onAbandonedCallbacks d) (onDiscardCallbacks d) (onReadyCallbacks d)
    (onFailedCallbacks d) cs (onAnyCallbacks d).
Definition set_onAny (cs : list cb) (d : Data) : Data :=
  mkData (state d) (discard d) (associated d) (abandoned d) (result d)
    (onAbandonedCallbacks d) (onDiscardCallbacks d) (onReadyCallbacks d)
    (onFailedCallbacks d) (onDiscardedCallbacks d) cs.

(** The transition of [state] and [result] out of [PENDING]. *)
Definition complete (st : State) (r : Result) (d : Data) : Data :=
  mkData st (discard d) (associated d) (abandoned d) r
    (onAbandonedCallbacks d) (onDiscardCallbacks d) (onReadyCallbacks d)
    (onFailedCallbacks d) (onDiscardedCallbacks d) (onAnyCallbacks d).

(** What an execution leaves behind: calls of user closures, in order, and
    the timers created and cancelled. *)
Inductive event :=
| Called (name : nat) (a : arg)
| TimerCreated (timer : nat) (duration : Z)
| TimerCancelled (timer : nat).

(** The store: the heap of [Data] blocks, the latches ([triggered]), the
    [Option<Timer>] cells of [Future::after], the timers armed with the clock,
    the events so far, and the message of a failed [CHECK]. *)
Record store := mkStore {
  heap : gmap nat Data;
  next : nat;
  latches : gmap nat bool;
  timers : gmap nat bool;
  armed : gmap nat op;
  log : list event;
  fatal : option string;
}.

Definition empty_store : store := mkStore ∅ 0 ∅ ∅ ∅ [] None.

Definition put (l : loc) (d : Data) (s : store) : store :=
  mkStore (<[l := d]> (heap s)) (next s) (latches s) (timers s) (armed s)
    (log s) (fatal s).
Definition emit (e : event) (s : store) : store :=
  mkStore (heap s) (next s) (latches s) (timers s) (armed s)
    (log s ++ [e]) (fatal s).
Definition check_failed (m : string) (s : store) : store :=
  mkStore (heap s) (next s) (latches s) (timers s) (armed s) (log s) (Some m).
Definition put_latch (n : nat) (b : bool) (s : store) : store :=
  mkStore (heap s) (next s) (<[n := b]> (latches s)) (timers s) (armed s)
    (log s) (fatal s).
Definition put_timer (n : nat) (b : bool) (s : store) : store :=
  mkStore (heap s) (next s) (latches s) (<[n := b]> (timers s)) (armed s)
    (log s) (fatal s).
Definition arm (n : nat) (o : op) (s : store) : store :=
  mkStore (heap s) (next s) (latches s) (timers s) (<[n := o]> (armed s))
    (log s) (fatal s).
Definition disarm (n : nat) (s : store) : store :=
  mkStore (heap s) (next s) (latches s) (timers s) (delete n (armed s))
    (log s) (fatal s).
Definition bump (s : store) : store :=
  mkStore (heap s) (S (next s)) (latches s) (timers s) (armed s)
    (log s) (fatal s).

(** Allocation of a [Data] block. *)
Definition alloc (d : Data) (s : store) : loc * store :=
  (next s, bump (put (next s) d s)).

(** [Promise<T>::Promise()]: the default [Future()] marks itself abandoned and
    the promise unsets that. *)
Definition Future_Future : Data := set_abandoned true Data_Data.
Definition Promise_Promise : Data := set_abandoned false Future_Future.

(** [Future(const T&)] and [Future(const Failure&)]. *)
Definition Future_value (v : val) : Data := complete READY (RSome v) Data_Data.
Definition Future_failure (m : string) : Data :=
  complete FAILED (RError m) Data_Data.

(** ** Observers *)

Definition isPending (d : Data) : bool :=
  match state d with PENDING => true | _ => false end.
Definition isReady (d : Data) : bool :=
  match state d with READY => true | _ => false end.
Definition isDiscarded (d : Data) : bool :=
  match state d with DISCARDED => true | _ => false end.
Definition isFailed (d : Data) : bool :=
  match state d with FAILED => true | _ => false end.
Definition isAbandoned (d : Data) : bool := abandoned d.
Definition hasDiscard (d : Data) : bool := discard d.

(** [Future<T>::get()] once [await()] has returned. *)
Definition Future_get (d : Data) : checked val :=
  if isPending d then Abort "Future was in PENDING after await()"
  else if negb (isReady d) && isFailed d then
    Abort "Future::get() but state == FAILED"
  else if negb (isReady d) && isDiscarded d then
    Abort "Future::get() but state == DISCARDED"
  else match result d with
       | RSome v => Returns v
       | _ => Abort "data->result.isSome()"
       end.

(** [Future<T>::failure()]. *)
Definition Future_failureMessage (d : Data) : checked string :=
  if negb (isFailed d) then Abort "Future::failure() but state != FAILED"
  else match result d with
       | RError m => Returns m
       | _ => Abort "CHECK_ERROR(data->result)"
       end.

(** [Future(const Try<T>&)]. *)
Definition Future_try (t : Try val) : Data :=
  match t with
  | Some_ v => Future_value v
  | Error m => Future_failure m
  end.

(** [operator<<]. *)
Definition Future_show (d : Data) : string :=
  let suffix := if discard d then " (with discard)" else "" in
  match state d with
  | PENDING =>
      if abandoned d then "Abandoned" +:+ suffix else "Pending" +:+ suffix
  | READY => "Ready" +:+ suffix
  | FAILED =>
      "Failed" +:+ suffix +:+ ": " +:+
      match Future_failureMessage d with Returns m => m | Abort m => m end
  | DISCARDED => "Discarded" +:+ suffix
  end.

(** [internal::run]: invoke the callbacks in the order they were added. *)
Definition internal_run (cs : list cb) (a : arg) : list op :=
  map (fun c => OInvoke c a) cs.

(** ** Transitions of a future *)

(** Every operation: the boolean the source returns, the store after its
    critical section, and the operations the thread performs next. *)
Notation outcome := (bool * (store * list op))%type.

Definition nothing (s : store) : outcome := (false, (s, [])).

(** [Future<T>::_set].  The critical section only changes the state and the
    result; the callbacks are then run from the vectors, which stay in the block
    until [clearAllCallbacks] ([OClear]).  Nothing adds to the vectors of a block
    that has left [PENDING] ([completed_vectors_stable]), so what is run is what
    was registered when the state changed. *)
Definition Future_set (l : loc) (v : val) (s : store) : outcome :=
  match heap s !! l with
  | Some d =>
      if isPending d then
        (true,
         (put l (complete READY (RSome v) d) s,
          internal_run (onReadyCallbacks d) (AVal v) ++
          internal_run (onAnyCallbacks d) (AFut l) ++ [OClear l]))
      else nothing s
  | None => nothing s
  end.

(** [Future<T>::fail]. *)
Definition Future_fail (l : loc) (m : string) (s : store) : outcome :=
  match heap s !! l with
  | Some d =>
      if isPending d then
        (true,
         (put l (complete FAILED (RError m) d) s,
          internal_run (onFailedCallbacks d) (AErr m) ++
          internal_run (onAnyCallbacks d) (AFut l) ++ [OClear l]))
      else nothing s
  | None => nothing s
  end.

(** [static bool Promise<T>::discard(Future<T>)]. *)
Definition Promise_discard_future (l : loc) (s : store) : outcome :=
  match heap s !! l with
  | Some d =>
      if isPending d then
        (true,
         (put l (complete DISCARDED (result d) d) s,
          internal_run (onDiscardedCallbacks d) ANone ++
          internal_run (onAnyCallbacks d) (AFut l) ++ [OClear l]))
      else nothing s
  | None => nothing s
  end.

(** [Future<T>::discard()]: request a discard. *)
Definition Future_discard (l : loc) (s : store) : outcome :=
  match heap s !! l with
  | Some d =>
      if negb (discard d) && isPending d then
        (true,
         (put l (set_onDiscard [] (set_discard true d)) s,
          internal_run (onDiscardCallbacks d) ANone))
      else nothing s
  | None => nothing s
  end.

(** [Future<T>::abandon(bool propagating)]. *)
Definition Future_abandon (l : loc) (propagating : bool) (s : store) : outcome :=
  match heap s !! l with
  | Some d =>
      if negb (abandoned d) && isPending d &&
         (negb (associated d) || propagating) then
        (true,
         (put l (set_onAbandoned [] (set_abandoned true d)) s,
          internal_run (onAbandonedCallbacks d) ANone))
      else nothing s
  | None => nothing s
  end.

(** ** Registration of callbacks *)

Definition Future_onAbandoned (l : loc) (c : cb) (s : store) : store * list op :=
  match heap s !! l with
  | Some d =>
      if abandoned d then (s, [OInvoke c ANone])
      else if isPending d then
        (put l (set_onAbandoned (onAbandonedCallbacks d ++ [c]) d) s, [])
      else (s, [])
  | None => (s, [])
  end.

Definition Future_onDiscard (l : loc) (c : cb) (s : store) : store * list op :=
  match heap s !! l with
  | Some d =>
      if discard d then (s, [OInvoke c ANone])
      else if isPending d then
        (put l (set_onDiscard (onDiscardCallbacks d ++ [c]) d) s, [])
      else (s, [])
  | None => (s, [])
  end.

Definition Future_onReady (l : loc) (c : cb) (s : store) : store * list op :=
  match heap s !! l with
  | Some d =>
      if isReady d then
        match result d with
        | RSome v => (s, [OInvoke c (AVal v)])
        | _ => (check_failed "Result::get() but state != SOME" s, [])
        end
      else if isPending d then
        (put l (set_onReady (onReadyCallbacks d ++ [c]) d) s, [])
      else (s, [])
  | None => (s, [])
  end.

Definition Future_onFailed (l : loc) (c : cb) (s : store) : store * list op :=
  match heap s !! l with
  | Some d =>
      if isFailed d then
        match result d with
        | RError m => (s, [OInvoke c (AErr m)])
        | _ => (check_failed "Result::error() but state != ERROR" s, [])
        end
      else if isPending d then
        (put l (set_onFailed (onFailedCallbacks d ++ [c]) d) s, [])
      else (s, [])
  | None => (s, [])
  end.

Definition Future_onDiscarded (l : loc) (c : cb) (s : store) : store * list op :=
  match heap s !! l with
  | Some d =>
      if isDiscarded d then (s, [OInvoke c ANone])
      else if isPending d then
        (put l (set_onDiscarded (onDiscardedCallbacks d ++ [c]) d) s, [])
      else (s, [])
  | None => (s, [])
  end.

Definition Future_onAny (l : loc) (c : cb) (s : store) : store * list op :=
  match heap s !! l with
  | Some d =>
      if isPending d then
        (put l (set_onAny (onAnyCallbacks d ++ [c]) d) s, [])
      else (s, [OInvoke c (AFut l)])
  | None => (s, [])
  end.

(** The critical section of [Future<T>::await]; [true] when the caller then
    blocks on the latch. *)
Definition Future_await (l : loc) (latch : nat) (s : store) : outcome :=
  match heap s !! l with
  | Some d =>
      if isPending d then
        (true, (put l (set_onAny (onAnyCallbacks d ++ [Awaited latch]) d) s, []))
      else nothing s
  | None => nothing s
  end.

(** ** Promises *)

(** [Promise<T>::_set], [fail] and [discard] test [associated] and hand over
    to the future. *)
Definition Promise_set (p : loc) (v : val) (s : store) : store * list op :=
  match heap s !! p with
  | Some d => if negb (associated d) then (s, [OFutureSet p v]) else (s, [])
  | None => (s, [])
  end.

Definition Promise_fail (p : loc) (m : string) (s : store) : store * list op :=
  match heap s !! p with
  | Some d => if negb (associated d) then (s, [OFutureFail p m]) else (s, [])
  | None => (s, [])
  end.

Definition Promise_discard (p : loc) (s : store) : store * list op :=
  match heap s !! p with
  | Some d => if negb (associated d) then (s, [ODiscardStatic p]) else (s, [])
  | None => (s, [])
  end.

(** [Promise<T>::associate]. *)
Definition Promise_associate (p l : loc) (s : store) : outcome :=
  match heap s !! p with
  | Some d =>
      if isPending d && negb (associated d) then
        (true,
         (put p (set_associated d) s,
          [OOnDiscard p (DiscardWeak l);
           OOnReady l (SetTo p);
           OOnFailed l (FailTo p);
           OOnDiscarded l (Discarded p);
           OOnAbandoned l (Abandon p true)]))
      else nothing s
  | None => nothing s
  end.

(** [Promise<T>::~Promise]. *)
Definition Promise_destroy (p : loc) : list op := [OFutureAbandon p false].

(** [promise->associate(f(...))]: the returned value or [Failure] is first
    converted to a future. *)
Definition associate_returned (p : loc) (r : returned) (s : store)
    : store * list op :=
  match r with
  | ReturnsFuture l => (s, [OPromiseAssociate p l])
  | ReturnsValue v =>
      let '(l, s) := alloc (Future_value v) s in (s, [OPromiseAssociate p l])
  | ReturnsFailure m =>
      let '(l, s) := alloc (Future_failure m) s in (s, [OPromiseAssociate p l])
  end.

(** [promise->set(f(...))] in [Future::recover]: the overload for a value, for a
    future, or for a future made from a [Failure]. *)
Definition set_returned (p : loc) (r : returned) : op :=
  match r with
  | ReturnsValue v => OPromiseSet p v
  | ReturnsFuture _ | ReturnsFailure _ => OAssociateReturned p r
  end.

(** ** Continuations *)

(** [internal::thenf]. *)
Definition internal_thenf (name : nat) (effects : list op)
    (f : val -> returned) (p l : loc) (s : store) : store * list op :=
  match heap s !! l with
  | Some d =>
      if isReady d then
        if hasDiscard d then (s, [OPromiseDiscard p])
        else match Future_get d with
             | Returns v =>
                 (s, OCall name (AVal v) :: effects ++ [OAssociateReturned p (f v)])
             | Abort m => (check_failed m s, [])
             end
      else if isFailed d then
        match Future_failureMessage d with
        | Returns m => (s, [OPromiseFail p m])
        | Abort m => (check_failed m s, [])
        end
      else if isDiscarded d then (s, [OPromiseDiscard p])
      else (s, [])
  | None => (s, [])
  end.

(** [internal::then]. *)
Definition internal_then (name : nat) (effects : list op)
    (f : val -> val) (p l : loc) (s : store) : store * list op :=
  match heap s !! l with
  | Some d =>
      if isReady d then
        if hasDiscard d then (s, [OPromiseDiscard p])
        else match Future_get d with
             | Returns v =>
                 (s, OCall name (AVal v) :: effects ++ [OPromiseSet p (f v)])
             | Abort m => (check_failed m s, [])
             end
      else if isFailed d then
        match Future_failureMessage d with
        | Returns m => (s, [OPromiseFail p m])
        | Abort m => (check_failed m s, [])
        end
      else if isDiscarded d then (s, [OPromiseDiscard p])
      else (s, [])
  | None => (s, [])
  end.

(** [internal::repair]. *)
Definition internal_repair (name : nat) (effects : list op)
    (f : loc -> returned) (p l : loc) (s : store) : store * list op :=
  match heap s !! l with
  | Some d =>
      if isPending d then (check_failed "CHECK(!future.isPending())" s, [])
      else if isFailed d then
        (s, OCall name (AFut l) :: effects ++ [OAssociateReturned p (f l)])
      else (s, [OPromiseAssociate p l])
  | None => (s, [])
  end.

(** The lambda [Future::recover] passes to [onAny]: [set] on a [Future<T>] is
    [associate]. *)
Definition recover_onAny (name : nat) (effects : list op)
    (f : loc -> returned) (p l : loc) (s : store) : store * list op :=
  match heap s !! l with
  | Some d =>
      if isDiscarded d || isFailed d then
        (s, OResetDiscard p :: OCall name (AFut l) ::
            effects ++ [set_returned p (f l)])
      else (s, [OPromiseAssociate p l])
  | None => (s, [])
  end.

(** The lambda [Future::recover] passes to [onAbandoned]. *)
Definition recover_onAbandoned (name : nat) (effects : list op)
    (f : loc -> returned) (p l : loc) : list op :=
  OResetDiscard p :: OCall name (AFut l) ::
    effects ++ [set_returned p (f l)].

(** [synchronized (lock) { data->discard = false; }]. *)
Definition reset_discard (p : loc) (s : store) : store :=
  match heap s !! p with
  | Some d => put p (set_discard false d) s
  | None => s
  end.

(** [Latch::trigger()]: a compare-and-exchange on [triggered]. *)
Definition Latch_trigger (n : nat) (s : store) : bool * store :=
  match latches s !! n with
  | Some false => (true, put_latch n true s)
  | _ => (false, s)
  end.

(** [internal::expired]. *)
Definition internal_expired (name : nat) (effects : list op)
    (f : loc -> returned) (latch : nat) (p : loc) (timer : nat) (l : loc)
    (s : store) : store * list op :=
  match Latch_trigger latch s with
  | (true, s) =>
      (put_timer timer false s,
       OCall name (AFut l) :: effects ++ [OAssociateReturned p (f l)])
  | (false, s) => (s, [])
  end.

(** [internal::after]. *)
Definition internal_after (latch : nat) (p : loc) (timer : nat) (l : loc)
    (s : store) : store * list op :=
  match heap s !! l with
  | Some d =>
      if isPending d then (check_failed "CHECK(!future.isPending())" s, [])
      else match Latch_trigger latch s with
           | (true, s) =>
               match timers s !! timer with
               | Some true =>
                   (put_timer timer false
                      (emit (TimerCancelled timer) (disarm timer s)),
                    [OPromiseAssociate p l])
               | _ => (check_failed "CHECK_SOME(*timer)" s, [])
               end
           | (false, s) => (s, [])
           end
  | None => (s, [])
  end.

(** [internal::select]. *)
Definition internal_select (l p : loc) (s : store) : store * list op :=
  match heap s !! p, heap s !! l with
  | Some dp, Some dl =>
      if isFailed dp then
        (check_failed "assert(!promise->future().isFailed())" s, [])
      else if isPending dp then
        if isReady dl then (s, [OPromiseSet p (VFuture l)]) else (s, [])
      else (s, [])
  | _, _ => (s, [])
  end.

(** [internal::discard(WeakFuture<T>)]: a no-op when the reference expired. *)
Definition internal_discard (l : loc) (s : store) : list op :=
  match heap s !! l with
  | Some _ => [OFutureDiscard l]
  | None => []
  end.

(** ** Combinators *)

Definition Future_thenf (l : loc) (name : nat) (effects : list op)
    (f : val -> returned) (s : store) : loc * (store * list op) :=
  let '(p, s) := alloc Promise_Promise s in
  (p, (s, [OOnAny l (Thenf name effects f p);
           OOnAbandoned l (Abandon p false);
           OOnDiscard p (DiscardWeak l)])).

Definition Future_then (l : loc) (name : nat) (effects : list op)
    (f : val -> val) (s : store) : loc * (store * list op) :=
  let '(p, s) := alloc Promise_Promise s in
  (p, (s, [OOnAny l (Then name effects f p);
           OOnAbandoned l (Abandon p false);
           OOnDiscard p (DiscardWeak l)])).

Definition Future_recover (l : loc) (name : nat) (effects : list op)
    (f : loc -> returned) (s : store) : loc * (store * list op) :=
  let '(p, s) := alloc Promise_Promise s in
  (p, (s, [OOnAny l (Recover name effects f p l);
           OOnAbandoned l (RecoverAbandoned name effects f p l);
           OOnDiscard p (DiscardWeak l)])).

Definition Future_repair (l : loc) (name : nat) (effects : list op)
    (f : loc -> returned) (s : store) : loc * (store * list op) :=
  let '(p, s) := alloc Promise_Promise s in
  (p, (s, [OOnAny l (Repair name effects f p);
           OOnAbandoned l (Abandon p false);
           OOnDiscard p (DiscardWeak l)])).

(** [Future<T>::after]: a latch, a promise and a timer cell are created and
    the timer is armed before the callbacks are registered. *)
Definition Future_after (l : loc) (duration : Z) (name : nat)
    (effects : list op) (f : loc -> returned) (s : store)
    : loc * (store * list op) :=
  let latch := next s in
  let s := put_latch latch false (bump s) in
  let '(p, s) := alloc Promise_Promise s in
  let timer := next s in
  let s := bump s in
  let s := arm timer (OExpired name effects f latch p timer l) s in
  let s := put_timer timer true (emit (TimerCreated timer duration) s) in
  (p, (s, [OOnAny l (After latch p timer);
           OOnAbandoned l (Abandon p false);
           OOnDiscard p (DiscardWeak l)])).

Definition undiscardable (l : loc) (s : store) : loc * (store * list op) :=
  let '(p, s) := alloc Promise_Promise s in
  (p, (s, [OOnAny l (Associate p)])).

Definition select (ls : list loc) (s : store) : loc * (store * list op) :=
  let '(p, s) := alloc Promise_Promise s in
  (p, (s, OOnDiscard p (Discarded p) :: map (fun l => OOnAny l (Select p)) ls)).

(** [discard(const Futures&)] and the helpers on sets of promises. *)
Definition discard_all (ls : list loc) : list op := map OFutureDiscard ls.
Definition setPromises (ps : list loc) (v : val) : list op :=
  flat_map (fun p => [OPromiseSet p v; OPromiseDestroy p]) ps.
Definition failPromises (ps : list loc) (m : string) : list op :=
  flat_map (fun p => [OPromiseFail p m; OPromiseDestroy p]) ps.
Definition discardPromises (ps : list loc) : list op :=
  flat_map (fun p => [OPromiseDiscard p; OPromiseDestroy p]) ps.

(** [discardPromises(promises, future)]: the remaining set and the work. *)
Fixpoint discardPromise (ps : list loc) (l : loc) : list loc * list op :=
  match ps with
  | [] => ([], [])
  | p :: ps =>
      if decide (p = l) then (ps, [OPromiseDiscard p; OPromiseDestroy p])
      else let '(ps', ops) := discardPromise ps l in (p :: ps', ops)
  end.

(** The clock runs the thunk of an armed timer once. *)
Definition timer_fires (timer : nat) (s : store) : store * list op :=
  match armed s !! timer with
  | Some o => (disarm timer s, [o])
  | None => (s, [])
  end.

(** ** Execution *)

(** Invocation of a registered closure. *)
Definition invoke (c : cb) (a : arg) (s : store) : store * list op :=
  match c, a with
  | User name body, _ => (s, OCall name a :: body)
  | DiscardWeak l, _ => (s, internal_discard l s)
  | Discarded l, _ => (s, [ODiscardStatic l])
  | Abandon l propagating, _ => (s, [OFutureAbandon l propagating])
  | SetTo l, AVal v => (s, [OFutureSet l v])
  | FailTo l, AErr m => (s, [OFutureFail l m])
  | Thenf name effects f p, AFut l => internal_thenf name effects f p l s
  | Then name effects f p, AFut l => internal_then name effects f p l s
  | Recover name effects f p l, _ => recover_onAny name effects f p l s
  | RecoverAbandoned name effects f p l, _ =>
      (s, recover_onAbandoned name effects f p l)
  | Repair name effects f p, AFut l => internal_repair name effects f p l s
  | After latch p timer, AFut l => internal_after latch p timer l s
  | Associate p, AFut l => (s, [OPromiseAssociate p l])
  | Select p, AFut l => internal_select l p s
  | Awaited latch, _ => ((Latch_trigger latch s).2, [])
  | _, _ => (s, [])
  end.

(** One operation: its critical section and what the thread does next. *)
Definition step (o : op) (s : store) : store * list op :=
  match o with
  | OFutureSet l v => (Future_set l v s).2
  | OFutureFail l m => (Future_fail l m s).2
  | OFutureDiscard l => (Future_discard l s).2
  | OFutureAbandon l propagating => (Future_abandon l propagating s).2
  | OOnAbandoned l c => Future_onAbandoned l c s
  | OOnDiscard l c => Future_onDiscard l c s
  | OOnReady l c => Future_onReady l c s
  | OOnFailed l c => Future_onFailed l c s
  | OOnDiscarded l c => Future_onDiscarded l c s
  | OOnAny l c => Future_onAny l c s
  | OAwait l latch => (Future_await l latch s).2
  | OClear l =>
      match heap s !! l with
      | Some d => (put l (Data_clearAllCallbacks d) s, [])
      | None => (s, [])
      end
  | OPromiseSet p v => Promise_set p v s
  | OPromiseFail p m => Promise_fail p m s
  | OPromiseDiscard p => Promise_discard p s
  | OPromiseAssociate p l => (Promise_associate p l s).2
  | OPromiseDestroy p => (s, Promise_destroy p)
  | ODiscardStatic l => (Promise_discard_future l s).2
  | OAssociateReturned p r => associate_returned p r s
  | OResetDiscard p => (reset_discard p s, [])
  | OThenf l name effects f => (Future_thenf l name effects f s).2
  | OThen l name effects f => (Future_then l name effects f s).2
  | ORecover l name effects f => (Future_recover l name effects f s).2
  | ORepair l name effects f => (Future_repair l name effects f s).2
  | OAfter l duration name effects f =>
      (Future_after l duration name effects f s).2
  | OExpired name effects f latch p timer l =>
      internal_expired name effects f latch p timer l s
  | OTimerFires timer => timer_fires timer s
  | OUndiscardable l => (undiscardable l s).2
  | OSelect ls => (select ls s).2
  | OCall name a => (emit (Called name a) s, [])
  | OInvoke c a => invoke c a s
  end.

(** A thread's stack of operations, run to completion. *)
Fixpoint run (fuel : nat) (ops : list op) (s : store) : option store :=
  match ops with
  | [] => Some s
  | o :: rest =>
      match fuel with
      | O => None
      | S fuel => let '(s', new) := step o s in run fuel (new ++ rest) s'
      end
  end.

(** Threads: any of them performs its next operation. *)
Definition config : Type := store * list (list op).

Inductive cstep : config -> config -> Prop :=
| cstep_thread s ths i o rest :
    ths !! i = Some (o :: rest) ->
    cstep (s, ths)
          ((step o s).1, <[i := (step o s).2 ++ rest]> ths).
