(* ===== verification/FuturesCost.v ===== *)
(** Cost accounting for future operations: termination and at-most-once calls.

    Every closure is finite and invoked at most once.  Both facts follow from
    one accounting argument: give every operation [tick] units for its own work
    and [charge name] units for each call of the user closure [name] it can
    still lead to.  Executing an operation moves or spends units and never
    creates any, wherever they are kept: on the stacks, in the callback vectors
    of the heap, in the thunks armed with the clock, or in the log of calls
    made.  With [tick := 1] and no charges this bounds the number of
    operations; with [tick := 0] and a charge on one name it bounds the number
    of calls of that closure. *)

From S2P Require Import Prelude Futures.

(** ** Weights *)

Section Cost.
Context (tick : nat) (charge : nat -> nat).

Fixpoint op_weight (o : op) : nat :=
  match o with
  | OFutureSet _ _ | OFutureFail _ _ | ODiscardStatic _ => 2 * tick
  | OFutureDiscard _ | OFutureAbandon _ _ => tick
  | OOnAbandoned _ c | OOnDiscard _ c | OOnReady _ c | OOnFailed _ c
  | OOnDiscarded _ c | OOnAny _ c => tick + cb_weight c
  | OAwait _ _ => 2 * tick
  | OClear _ => tick
  | OPromiseSet _ _ | OPromiseFail _ _ | OPromiseDiscard _ => 3 * tick
  | OPromiseAssociate _ _ => 19 * tick
  | OPromiseDestroy _ => 2 * tick
  | OAssociateReturned _ _ => 20 * tick
  | OResetDiscard _ => tick
  | OThenf _ name effects _ =>
      30 * tick + charge name + sum_list_by op_weight effects
  | OThen _ name effects _ =>
      30 * tick + charge name + sum_list_by op_weight effects
  | ORecover _ name effects _ =>
      52 * tick + 2 * charge name + 2 * sum_list_by op_weight effects
  | ORepair _ name effects _ =>
      30 * tick + charge name + sum_list_by op_weight effects
  | OAfter _ _ name effects _ =>
      50 * tick + charge name + sum_list_by op_weight effects
  | OExpired name effects _ _ _ _ _ =>
      22 * tick + charge name + sum_list_by op_weight effects
  | OTimerFires _ => tick
  | OUndiscardable _ => 22 * tick
  | OSelect ls => 5 * tick + length ls * (5 * tick)
  | OCall name _ => tick + charge name
  | OInvoke c _ => cb_weight c
  end
with cb_weight (c : cb) : nat :=
  match c with
  | User name body => 2 * tick + charge name + sum_list_by op_weight body
  | DiscardWeak _ => 2 * tick
  | Discarded _ => 3 * tick
  | Abandon _ _ => 2 * tick
  | SetTo _ => 3 * tick
  | FailTo _ => 3 * tick
  | Thenf name effects _ _ =>
      22 * tick + charge name + sum_list_by op_weight effects
  | Then name effects _ _ =>
      22 * tick + charge name + sum_list_by op_weight effects
  | Recover name effects _ _ _ =>
      23 * tick + charge name + sum_list_by op_weight effects
  | RecoverAbandoned name effects _ _ _ =>
      23 * tick + charge name + sum_list_by op_weight effects
  | Repair name effects _ _ =>
      22 * tick + charge name + sum_list_by op_weight effects
  | After _ _ _ => 20 * tick
  | Associate _ => 20 * tick
  | Select _ => 4 * tick
  | Awaited _ => tick
  end.

Notation ops_weight := (sum_list_by op_weight).
Notation cbs_weight := (sum_list_by cb_weight).

(** The callbacks of a block are paid for while it is pending; when it completes
    they are on the stack of the thread that completed it, and what is left in
    the vectors is never run again. *)
Definition data_weight (d : Data) : nat :=
  match state d with
  | PENDING =>
      cbs_weight (onAbandonedCallbacks d) + cbs_weight (onDiscardCallbacks d) +
      cbs_weight (onReadyCallbacks d) + cbs_weight (onFailedCallbacks d) +
      cbs_weight (onDiscardedCallbacks d) + cbs_weight (onAnyCallbacks d)
  | READY | FAILED | DISCARDED => 0
  end.

(** Calls already made keep the charge they were paid with. *)
Definition event_weight (e : event) : nat :=
  match e with
  | Called name _ => charge name
  | TimerCreated _ _ | TimerCancelled _ => 0
  end.

Definition store_weight (s : store) : nat :=
  sum_map data_weight (heap s) + sum_map op_weight (armed s) +
  sum_list_by event_weight (log s).

Lemma ops_weight_run cs a : ops_weight (internal_run cs a) = cbs_weight cs.
Proof. unfold internal_run. by rewrite sum_list_by_map. Qed.

Lemma set_returned_weight p r : op_weight (set_returned p r) <= 20 * tick.
Proof. destruct r; simpl; lia. Qed.

Lemma sum_map_insert_le {A} (f : A -> nat) (m : gmap nat A) k x :
  sum_map f (<[k := x]> m) <= f x + sum_map f m.
Proof.
  destruct (m !! k) as [y|] eqn:Hk.
  - pose proof (sum_map_insert f m k y x Hk); lia.
  - by rewrite sum_map_insert_new.
Qed.

Lemma sum_map_delete {A} (f : A -> nat) (m : gmap nat A) k x :
  m !! k = Some x -> sum_map f m = f x + sum_map f (delete k m).
Proof.
  intros Hk. rewrite <- (insert_delete_id m k x Hk) at 1.
  rewrite <- insert_delete_eq, delete_delete_eq.
  by rewrite sum_map_insert_new by apply lookup_delete_eq.
Qed.

Lemma put_weight l d d' s :
  heap s !! l = Some d ->
  store_weight (put l d' s) + data_weight d = store_weight s + data_weight d'.
Proof.
  intros Hl. unfold store_weight; simpl.
  pose proof (sum_map_insert data_weight (heap s) l d d' Hl). lia.
Qed.

Lemma alloc_weight d s :
  store_weight (alloc d s).2 <= store_weight s + data_weight d.
Proof.
  unfold alloc, store_weight; simpl.
  pose proof (sum_map_insert_le data_weight (heap s) (next s) d). lia.
Qed.

Lemma disarm_weight n s : store_weight (disarm n s) <= store_weight s.
Proof.
  unfold store_weight; simpl. destruct (armed s !! n) as [o|] eqn:Hn.
  - pose proof (sum_map_delete op_weight (armed s) n o Hn). lia.
  - by rewrite delete_id.
Qed.

Lemma check_failed_weight m s : store_weight (check_failed m s) = store_weight s.
Proof. done. Qed.
Lemma emit_weight e s :
  store_weight (emit e s) = store_weight s + event_weight e.
Proof. unfold store_weight; simpl. rewrite sum_list_by_app; simpl; lia. Qed.
Lemma put_timer_weight n b s : store_weight (put_timer n b s) = store_weight s.
Proof. done. Qed.
Hint Rewrite check_failed_weight emit_weight put_timer_weight : proc.

(** Weigh every [put] of the goal, then finish by linear arithmetic. *)
Ltac weigh_puts :=
  repeat match goal with
  | H : heap ?s !! ?l = Some ?d |- context [store_weight (put ?l ?d' ?s)] =>
      pose proof (put_weight l d d' s H);
      generalize dependent (store_weight (put l d' s)); intros
  end.

Ltac weigh :=
  simpl in *; autorewrite with proc in *; rewrite ?ops_weight_run in *;
  weigh_puts; unfold data_weight, isPending in *; simpl in *;
  repeat match goal with
  | H : context [state ?d] |- _ => destruct (state d); simpl in *; simplify_eq
  end;
  rewrite ?sum_list_by_app in *; simpl in *; try lia.

(** The weight an operation leaves, against the weight it had. *)
Definition lighter (r : store * list op) (w : nat) (s : store) : Prop :=
  store_weight r.1 + ops_weight r.2 + tick <= w + store_weight s.

Ltac weigh_cases :=
  unfold lighter, nothing in *;
  repeat match goal with
  | |- context [match ?x with _ => _ end] => destruct x eqn:?; simplify_eq/=
  end; weigh.

Implicit Types (l p : nat) (s : store).

Lemma Future_set_lighter l v s : lighter (Future_set l v s).2 (2 * tick) s.
Proof. unfold Future_set; weigh_cases. Qed.

Lemma Future_fail_lighter l m s : lighter (Future_fail l m s).2 (2 * tick) s.
Proof. unfold Future_fail; weigh_cases. Qed.

Lemma Promise_discard_future_lighter l s :
  lighter (Promise_discard_future l s).2 (2 * tick) s.
Proof. unfold Promise_discard_future; weigh_cases. Qed.

Lemma Future_discard_lighter l s : lighter (Future_discard l s).2 tick s.
Proof. unfold Future_discard; weigh_cases. Qed.

Lemma Future_abandon_lighter l b s : lighter (Future_abandon l b s).2 tick s.
Proof. unfold Future_abandon; weigh_cases. Qed.

Lemma registration_lighter l c s :
  lighter (Future_onAbandoned l c s) (tick + cb_weight c) s /\
  lighter (Future_onDiscard l c s) (tick + cb_weight c) s /\
  lighter (Future_onReady l c s) (tick + cb_weight c) s /\
  lighter (Future_onFailed l c s) (tick + cb_weight c) s /\
  lighter (Future_onDiscarded l c s) (tick + cb_weight c) s /\
  lighter (Future_onAny l c s) (tick + cb_weight c) s.
Proof.
  unfold Future_onAbandoned, Future_onDiscard, Future_onReady,
    Future_onFailed, Future_onDiscarded, Future_onAny.
  split_and!; weigh_cases.
Qed.

Lemma Future_await_lighter l n s : lighter (Future_await l n s).2 (2 * tick) s.
Proof. unfold Future_await; weigh_cases. Qed.

Lemma Promise_associate_lighter p l s :
  lighter (Promise_associate p l s).2 (19 * tick) s.
Proof. unfold Promise_associate; weigh_cases. Qed.

Lemma associate_returned_lighter p r s :
  lighter (associate_returned p r s) (20 * tick) s.
Proof.
  unfold lighter, associate_returned. destruct r; simpl; [lia| |].
  - pose proof (alloc_weight (Future_value v) s).
    unfold data_weight in *; simpl in *; lia.
  - pose proof (alloc_weight (Future_failure message) s).
    unfold data_weight in *; simpl in *; lia.
Qed.

Lemma trigger_weight n s : store_weight (Latch_trigger n s).2 = store_weight s.
Proof. unfold Latch_trigger; by crack. Qed.

Lemma internal_after_lighter n p t l s :
  lighter (internal_after n p t l s) (20 * tick) s.
Proof.
  unfold lighter, internal_after.
  pose proof (trigger_weight n s) as Ht.
  destruct (heap s !! l); [|simpl; lia].
  destruct (isPending d); [unfold store_weight; simpl; lia|].
  destruct (Latch_trigger n s) as [[] s']; simpl in *; [|lia].
  destruct (timers s' !! t) as [[]|]; simpl in *;
    [pose proof (disarm_weight t s')| |]; unfold store_weight in *; simpl in *;
    rewrite ?sum_list_by_app; simpl; lia.
Qed.

Lemma internal_expired_lighter name eff f n p t l s :
  lighter (internal_expired name eff f n p t l s) (22 * tick + charge name + ops_weight eff) s.
Proof.
  unfold lighter, internal_expired.
  pose proof (trigger_weight n s) as Ht.
  destruct (Latch_trigger n s) as [[] s']; simpl in *; [|lia].
  autorewrite with proc; simpl. unfold store_weight in *; simpl in *; lia.
Qed.

Lemma invoke_lighter c a s : lighter (invoke c a s) (cb_weight c) s.
Proof.
  destruct c; simpl; try (unfold lighter; simpl; lia).
  all: try (destruct a; try (unfold lighter; simpl; lia)).
  all: unfold internal_discard, internal_thenf, internal_then,
         recover_onAny, recover_onAbandoned, internal_repair, internal_select.
  all: try apply internal_after_lighter.
  all: try (pose proof (set_returned_weight p (f l))).
  all: try (unfold lighter; simpl; rewrite trigger_weight; lia).
  all: weigh_cases.
  all: unfold store_weight in *; simpl in *; lia.
Qed.

Lemma timer_fires_lighter t s : lighter (timer_fires t s) tick s.
Proof.
  unfold lighter, timer_fires. destruct (armed s !! t) eqn:Ht; simpl; [|lia].
  pose proof (sum_map_delete op_weight (armed s) t o Ht).
  unfold store_weight; simpl; lia.
Qed.

Lemma select_weight p ls :
  ops_weight (map (fun l => OOnAny l (Select p)) ls) = length ls * (5 * tick).
Proof. induction ls; simpl in *; lia. Qed.

Lemma combinators_lighter l name eff s :
  (forall f, lighter (Future_thenf l name eff f s).2 (30 * tick + charge name + ops_weight eff) s) /\
  (forall f, lighter (Future_then l name eff f s).2 (30 * tick + charge name + ops_weight eff) s) /\
  (forall f, lighter (Future_recover l name eff f s).2 (52 * tick + 2 * charge name + 2 * ops_weight eff) s) /\
  (forall f, lighter (Future_repair l name eff f s).2 (30 * tick + charge name + ops_weight eff) s) /\
  lighter (undiscardable l s).2 (22 * tick) s /\
  (forall ls, lighter (select ls s).2 (5 * tick + length ls * (5 * tick)) s).
Proof.
  pose proof (alloc_weight Promise_Promise s).
  unfold lighter, Future_thenf, Future_then, Future_recover, Future_repair,
    undiscardable, select in *.
  destruct (alloc Promise_Promise s) as [p s']; simpl in *.
  change (data_weight Promise_Promise) with 0 in *.
  split_and!; intros; rewrite ?select_weight; lia.
Qed.

Lemma Future_after_lighter l dur name eff f s :
  lighter (Future_after l dur name eff f s).2 (50 * tick + charge name + ops_weight eff) s.
Proof.
  unfold lighter, Future_after, store_weight; simpl.
  pose proof (sum_map_insert_le data_weight (heap s) (S (next s)) Promise_Promise).
  match goal with |- context [sum_map op_weight (<[?k := ?o]> ?m)] =>
    pose proof (sum_map_insert_le op_weight m k o) end.
  change (data_weight Promise_Promise) with 0 in *; simpl in *.
  rewrite ?sum_list_by_app; simpl; lia.
Qed.

(** One operation spends its tick and creates no weight. *)
Lemma step_lighter o s : lighter (step o s) (op_weight o) s.
Proof.
  destruct o; cbn [step op_weight].
  - apply Future_set_lighter.
  - apply Future_fail_lighter.
  - apply Future_discard_lighter.
  - apply Future_abandon_lighter.
  - apply registration_lighter.
  - apply registration_lighter.
  - apply registration_lighter.
  - apply registration_lighter.
  - apply registration_lighter.
  - apply registration_lighter.
  - apply Future_await_lighter.
  - weigh_cases.
  - unfold Promise_set; weigh_cases.
  - unfold Promise_fail; weigh_cases.
  - unfold Promise_discard; weigh_cases.
  - apply Promise_associate_lighter.
  - unfold Promise_destroy; weigh_cases.
  - apply Promise_discard_future_lighter.
  - apply associate_returned_lighter.
  - unfold reset_discard; weigh_cases.
  - apply (combinators_lighter l name effects s).
  - apply (combinators_lighter l name effects s).
  - apply (combinators_lighter l name effects s).
  - apply (combinators_lighter l name effects s).
  - apply Future_after_lighter.
  - apply internal_expired_lighter.
  - apply timer_fires_lighter.
  - apply (combinators_lighter l 0 [] s).
  - apply (combinators_lighter 0 0 [] s).
  - weigh_cases.
  - apply invoke_lighter.
Qed.


End Cost.

(** ** Termination: one tick per operation *)

Definition no_charge (name : nat) : nat := 0.
Notation fuel_for ops s :=
  (store_weight 1 no_charge s + sum_list_by (op_weight 1 no_charge) ops)
  (only parsing).


Lemma run_enough fuel ops s :
  fuel_for ops s <= fuel -> is_Some (run fuel ops s).
Proof.
  revert ops s. induction fuel as [|fuel IH]; intros [|o rest] s Hw; simpl; eauto.
  - pose proof (step_lighter 1 no_charge o s) as Hl. unfold lighter in Hl. simpl in Hw. lia.
  - pose proof (step_lighter 1 no_charge o s) as Hl. unfold lighter in Hl.
    destruct (step o s) as [s' new]; simpl in *.
    apply IH. autorewrite with proc. lia.
Qed.

(** More fuel does not change the result. *)
Lemma run_mono fuel fuel' ops s s' :
  run fuel ops s = Some s' -> fuel <= fuel' -> run fuel' ops s = Some s'.
Proof.
  revert fuel' ops s. induction fuel as [|fuel IH]; intros [|fuel'] [|o rest] s;
    simpl; intros; try done; try lia.
  destruct (step o s). eapply IH; eauto. lia.
Qed.

(** The store an operation stack ends in, with the fuel its weight gives. *)
Definition execute (ops : list op) (s : store) : store :=
  match run (fuel_for ops s) ops s with
  | Some s' => s'
  | None => s
  end.

Lemma execute_run ops s :
  run (fuel_for ops s) ops s = Some (execute ops s).
Proof.
  unfold execute. destruct (run_enough _ ops s (Nat.le_refl _)) as [s' Hs].
  by rewrite Hs.
Qed.

Lemma execute_nil s : execute [] s = s.
Proof. unfold execute. by destruct (_ + _). Qed.

(** The result does not depend on how much fuel was given. *)
Lemma run_execute fuel ops s s' : run fuel ops s = Some s' -> execute ops s = s'.
Proof.
  intros H. pose proof (execute_run ops s) as He.
  apply (run_mono _ (fuel + fuel_for ops s)) in H; [|lia].
  apply (run_mono _ (fuel + fuel_for ops s)) in He; [|lia].
  congruence.
Qed.

Lemma execute_cons o rest s :
  execute (o :: rest) s = execute ((step o s).2 ++ rest) (step o s).1.
Proof.
  symmetry. pose proof (execute_run (o :: rest) s) as H.
  destruct (fuel_for (o :: rest) s) as [|n] eqn:E; [done|].
  simpl in H. destruct (step o s) as [s' new]; simpl. by eapply run_execute.
Qed.

Lemma execute_app ops1 ops2 s :
  execute (ops1 ++ ops2) s = execute ops2 (execute ops1 s).
Proof.
  remember (fuel_for ops1 s) as n eqn:Hn.
  assert (Hle : fuel_for ops1 s <= n) by lia. clear Hn.
  revert ops1 s Hle. induction n as [|n IH]; intros [|o rest] s Hle.
  - by rewrite execute_nil.
  - pose proof (step_lighter 1 no_charge o s) as Hl. unfold lighter in Hl. simpl in Hle. lia.
  - by rewrite execute_nil.
  - simpl. rewrite !execute_cons, app_assoc. apply IH.
    pose proof (step_lighter 1 no_charge o s) as Hl. unfold lighter in Hl.
    simpl in Hle. autorewrite with proc. lia.
Qed.

(** ** Calls: one charge per call of a closure *)

(** How often the closure [name] was called. *)
Definition calls (name : nat) (es : list event) : nat :=
  sum_list_by (event_weight (fun n => if decide (n = name) then 1 else 0)) es.

(** How often the closure [name] can still be called: its occurrences on the
    stacks, in the callback vectors and in armed thunks. *)
Definition owed_ops (name : nat) (ops : list op) : nat :=
  sum_list_by (op_weight 0 (fun n => if decide (n = name) then 1 else 0)) ops.
Definition owed_store (name : nat) (s : store) : nat :=
  sum_map (data_weight 0 (fun n => if decide (n = name) then 1 else 0)) (heap s) +
  sum_map (op_weight 0 (fun n => if decide (n = name) then 1 else 0)) (armed s).

Lemma step_calls name o s :
  calls name (log (step o s).1) + owed_store name (step o s).1 +
  owed_ops name (step o s).2
  <= calls name (log s) + owed_store name s + owed_ops name [o].
Proof.
  pose proof (step_lighter 0 (fun n => if decide (n = name) then 1 else 0) o s)
    as H.
  unfold lighter, store_weight in H. unfold calls, owed_store, owed_ops.
  simpl in *. lia.
Qed.
