(* ===== verification/FuturesSafety.v ===== *)
(** Safety of futures under any interleaving of threads.

    Every operation changes the heap in one of three ways ([heap_change]): not
    at all, one [Data] block along [data_step], or by allocating a block.  The
    invariant of [Data] ("None / Some / Error" against the state), the
    stability of completed futures and the accounting of callbacks are proved
    on one operation and lifted to all interleavings. *)

From S2P Require Import Prelude Futures FuturesCost.

(** ** Well-formed data *)

(** The comment on [Data::result]: none while pending or discarded, some when
    ready, an error when failed. *)
Definition wf_data (d : Data) : Prop :=
  match state d with
  | PENDING | DISCARDED => result d = RNone
  | READY => exists v, result d = RSome v
  | FAILED => exists m, result d = RError m
  end.

Definition wf_store (s : store) : Prop :=
  (forall l, is_Some (heap s !! l) -> l < next s) /\
  (forall l d, heap s !! l = Some d -> wf_data d).

(** The ways one [Data] block may change. *)
Record data_step (d d' : Data) : Prop := {
  ds_stable : state d <> PENDING -> state d' = state d /\ result d' = result d;
  ds_associated : associated d = true -> associated d' = true;
  ds_abandoned : abandoned d = true -> abandoned d' = true;
  ds_wf : wf_data d -> wf_data d';
}.

Inductive heap_change (s s' : store) : Prop :=
| change_none :
    heap s' = heap s -> next s <= next s' -> heap_change s s'
| change_put l d d' :
    heap s !! l = Some d -> data_step d d' ->
    heap s' = <[l := d']> (heap s) -> next s' = next s -> heap_change s s'
| change_alloc l d :
    next s <= l < next s' -> wf_data d ->
    heap s' = <[l := d]> (heap s) -> heap_change s s'.

Lemma change_refl s : heap_change s s.
Proof. apply change_none; lia || done. Qed.
#[export] Hint Resolve change_refl : proc.

Lemma isPending_true d : isPending d = true -> state d = PENDING.
Proof. unfold isPending; by destruct (state d). Qed.
Lemma isPending_false d : isPending d = false -> state d <> PENDING.
Proof. unfold isPending; by destruct (state d). Qed.
#[export] Hint Resolve isPending_true isPending_false : proc.

Lemma data_step_flags d d' :
  state d' = state d -> result d' = result d ->
  (associated d = true -> associated d' = true) ->
  (abandoned d = true -> abandoned d' = true) -> data_step d d'.
Proof.
  intros Hs Hr Ha Hb. split; [naive_solver|done|done|].
  unfold wf_data. by rewrite Hs, Hr.
Qed.

Lemma data_step_complete d d' :
  isPending d = true -> wf_data d' \/ (wf_data d -> wf_data d') ->
  associated d' = associated d -> abandoned d' = abandoned d -> data_step d d'.
Proof.
  intros Hp%isPending_true Hw Ha Hb.
  split; [done|congruence|congruence|naive_solver].
Qed.

Lemma change_put_flags s l d d' :
  heap s !! l = Some d -> state d' = state d -> result d' = result d ->
  (associated d = true -> associated d' = true) ->
  (abandoned d = true -> abandoned d' = true) ->
  heap_change s (put l d' s).
Proof. intros. eapply change_put; eauto using data_step_flags. Qed.

Lemma change_put_complete s l d d' :
  heap s !! l = Some d -> isPending d = true ->
  wf_data d' \/ (wf_data d -> wf_data d') ->
  associated d' = associated d -> abandoned d' = abandoned d ->
  heap_change s (put l d' s).
Proof. intros. eapply change_put; eauto using data_step_complete. Qed.

(** Close a goal [heap_change s (put l d' s)]. *)
Ltac change_flags :=
  simpl; eauto with proc;
  try (eapply change_put_flags; eauto; done).

Ltac change_cases :=
  unfold nothing in *;
  repeat match goal with
  | |- context [match ?x with _ => _ end] => destruct x eqn:?; simplify_eq/=
  end; change_flags.

Lemma transitions_change l s :
  (forall v, heap_change s (Future_set l v s).2.1) /\
  (forall m, heap_change s (Future_fail l m s).2.1) /\
  heap_change s (Promise_discard_future l s).2.1 /\
  heap_change s (Future_discard l s).2.1 /\
  (forall b, heap_change s (Future_abandon l b s).2.1).
Proof.
  unfold Future_set, Future_fail, Promise_discard_future, Future_discard,
    Future_abandon.
  split_and!; intros; change_cases.
  - eapply change_put_complete; eauto. left. by exists v.
  - eapply change_put_complete; eauto. left. by exists m.
  - eapply change_put_complete; eauto. right.
    apply isPending_true in Heqb. unfold wf_data; simpl. by rewrite Heqb.
Qed.

Lemma registration_change l c s :
  heap_change s (Future_onAbandoned l c s).1 /\
  heap_change s (Future_onDiscard l c s).1 /\
  heap_change s (Future_onReady l c s).1 /\
  heap_change s (Future_onFailed l c s).1 /\
  heap_change s (Future_onDiscarded l c s).1 /\
  heap_change s (Future_onAny l c s).1 /\
  (forall n, heap_change s (Future_await l n s).2.1).
Proof.
  unfold Future_onAbandoned, Future_onDiscard, Future_onReady, Future_onFailed,
    Future_onDiscarded, Future_onAny, Future_await.
  split_and!; intros; change_cases; by apply change_none.
Qed.

Lemma promise_change p s :
  (forall v, heap_change s (Promise_set p v s).1) /\
  (forall m, heap_change s (Promise_fail p m s).1) /\
  heap_change s (Promise_discard p s).1 /\
  (forall l, heap_change s (Promise_associate p l s).2.1) /\
  heap_change s (reset_discard p s).
Proof.
  unfold Promise_set, Promise_fail, Promise_discard, Promise_associate,
    reset_discard.
  split_and!; intros; change_cases.
Qed.

Lemma alloc_change d s : wf_data d -> heap_change s (alloc d s).2.
Proof. intros. eapply (change_alloc _ _ (next s)); simpl; eauto. Qed.

Lemma wf_Promise : wf_data Promise_Promise.
Proof. done. Qed.
Lemma wf_Future_value v : wf_data (Future_value v).
Proof. by exists v. Qed.
Lemma wf_Future_failure m : wf_data (Future_failure m).
Proof. by exists m. Qed.
#[export] Hint Resolve alloc_change wf_Promise wf_Future_value
  wf_Future_failure : proc.

Lemma associate_returned_change p r s :
  heap_change s (associate_returned p r s).1.
Proof.
  unfold associate_returned. destruct r; simpl; auto with proc.
  - apply (alloc_change (Future_value v)); auto with proc.
  - apply (alloc_change (Future_failure message)); auto with proc.
Qed.

Lemma Latch_trigger_heap n s :
  heap (Latch_trigger n s).2 = heap s /\ next (Latch_trigger n s).2 = next s.
Proof. unfold Latch_trigger; by crack. Qed.

Lemma latch_change n s s' :
  heap s' = heap (Latch_trigger n s).2 -> next s' = next (Latch_trigger n s).2 ->
  heap_change s s'.
Proof.
  destruct (Latch_trigger_heap n s) as [-> ->]. intros. apply change_none; lia || done.
Qed.

Lemma invoke_change c a s : heap_change s (invoke c a s).1.
Proof.
  destruct c; simpl; auto with proc; try (destruct a; simpl; auto with proc).
  all: unfold internal_thenf, internal_then, recover_onAny, internal_repair,
         internal_after, internal_select; change_cases.
  all: try (by apply change_none).
  all: try (by apply (latch_change latch)).
  all: match goal with H : Latch_trigger ?n ?s = (_, ?s') |- _ =>
         apply (latch_change n); rewrite H; done end.
Qed.

Lemma combinators_change l name eff s :
  (forall f, heap_change s (Future_thenf l name eff f s).2.1) /\
  (forall f, heap_change s (Future_then l name eff f s).2.1) /\
  (forall f, heap_change s (Future_recover l name eff f s).2.1) /\
  (forall f, heap_change s (Future_repair l name eff f s).2.1) /\
  heap_change s (undiscardable l s).2.1 /\
  (forall ls, heap_change s (select ls s).2.1).
Proof.
  split_and!; intros; apply (alloc_change Promise_Promise); auto with proc.
Qed.

Lemma Future_after_change l dur name eff f s :
  heap_change s (Future_after l dur name eff f s).2.1.
Proof.
  apply (change_alloc _ _ (S (next s)) Promise_Promise); simpl; auto with proc lia.
Qed.

Lemma step_change o s : heap_change s (step o s).1.
Proof.
  destruct o; cbn [step];
    try apply transitions_change; try apply registration_change;
    try apply promise_change; try apply associate_returned_change;
    try apply Future_after_change; try apply invoke_change; simpl; auto with proc.
  - exact (Awaited latch).
  - destruct (heap s !! l) eqn:?; simpl; change_flags.
  - apply (combinators_change l name effects s).
  - apply (combinators_change l name effects s).
  - apply (combinators_change l name effects s).
  - apply (combinators_change l name effects s).
  - unfold internal_expired. destruct (Latch_trigger latch s) as [[] s'] eqn:E;
      apply (latch_change latch); rewrite E; done.
  - unfold timer_fires. crack; by apply change_none.
  - apply (combinators_change l 0 [] s).
  - apply (combinators_change 0 0 [] s).
  - by apply change_none.
Qed.

(** ** The invariant and the order between stores *)

Lemma change_wf s s' : heap_change s s' -> wf_store s -> wf_store s'.
Proof.
  intros Hc [Hn Hd]. split.
  - intros l Hl. destruct Hc as [E ?|k d d' Hk ? E En|k d ? ? E];
      rewrite E in Hl.
    + specialize (Hn _ Hl); lia.
    + rewrite En. destruct (decide (k = l)) as [->|]; eauto.
      rewrite lookup_insert_ne in Hl by done. eauto.
    + destruct (decide (k = l)) as [->|]; [lia|].
      rewrite lookup_insert_ne in Hl by done. specialize (Hn _ Hl); lia.
  - intros l d0 Hl. destruct Hc as [E ?|k d d' Hk Hds E En|k d ? ? E];
      rewrite E in Hl; eauto.
    + apply lookup_insert_Some in Hl as [[-> <-]|[? ?]]; eauto.
      eapply ds_wf; eauto.
    + apply lookup_insert_Some in Hl as [[-> <-]|[? ?]]; eauto.
Qed.

(** [evolves s s']: every future of [s] still exists in [s'], a completed one
    has the same state and result, and the flags [associated] and [abandoned]
    are never unset. *)
Definition block_evolves (d d' : Data) : Prop :=
  (state d <> PENDING -> state d' = state d /\ result d' = result d) /\
  (associated d = true -> associated d' = true) /\
  (abandoned d = true -> abandoned d' = true).

Definition evolves (s s' : store) : Prop :=
  forall l d, heap s !! l = Some d ->
  exists d', heap s' !! l = Some d' /\ block_evolves d d'.

#[export] Instance block_evolves_preorder : PreOrder block_evolves.
Proof.
  split; [by intros d; repeat split; auto|].
  intros d1 d2 d3 (H1 & H2 & H3) (K1 & K2 & K3). split_and!; auto.
  intros Hp. destruct (H1 Hp) as [Hs Hr]. rewrite <- Hs in Hp.
  destruct (K1 Hp). split; congruence.
Qed.

#[export] Instance evolves_preorder : PreOrder evolves.
Proof.
  split; [intros s l d Hd; exists d; by split|].
  intros s1 s2 s3 H12 H23 l d Hd. destruct (H12 _ _ Hd) as (d2 & Hd2 & ?).
  destruct (H23 _ _ Hd2) as (d3 & ? & ?). exists d3. split; [done|by etrans].
Qed.

Lemma change_evolves s s' : wf_store s -> heap_change s s' -> evolves s s'.
Proof.
  intros [Hn _] Hc l d Hl.
  destruct Hc as [E ?|k dk d' Hk Hds E En|k dk ? ? E].
  - rewrite E. exists d. split; [done|reflexivity].
  - destruct (decide (k = l)) as [->|].
    + exists d'. rewrite E, lookup_insert_eq. split; [done|].
      simplify_eq. destruct Hds. by repeat split; auto; apply ds_stable0.
    + exists d. rewrite E, lookup_insert_ne by done. split; [done|reflexivity].
  - exists d. rewrite E, lookup_insert_ne; [split; [done|reflexivity]|].
    intros ->. assert (l < next s) by eauto. lia.
Qed.

Lemma step_wf o s : wf_store s -> wf_store (step o s).1.
Proof. eauto using change_wf, step_change. Qed.
#[export] Hint Resolve step_wf : proc.

Lemma wf_empty : wf_store empty_store.
Proof. split; [intros l []|intros l d]; done. Qed.

(** ** Interleavings *)

Lemma cstep_wf c c' : wf_store c.1 -> cstep c c' -> wf_store c'.1.
Proof. intros Hw H; revert Hw; destruct H; simpl; eauto with proc. Qed.

Lemma csteps_wf c c' : steps cstep c c' -> wf_store c.1 -> wf_store c'.1.
Proof.
  apply (steps_invariant cstep (fun c => wf_store c.1)). eauto using cstep_wf.
Qed.

Lemma csteps_evolves c c' :
  steps cstep c c' -> wf_store c.1 -> evolves c.1 c'.1.
Proof.
  induction 1 as [|c1 c2 c3 H12 H23 IH]; intros Hw; [reflexivity|].
  etrans; [|eauto using cstep_wf]. clear -H12 Hw. revert Hw; destruct H12; simpl.
  eauto using change_evolves, step_change.
Qed.

(** A single thread run to completion is such an interleaving. *)
Lemma run_csteps fuel ops s s' :
  run fuel ops s = Some s' -> steps cstep (s, [ops]) (s', [[]]).
Proof.
  revert ops s. induction fuel as [|fuel IH]; intros [|o rest] s H; simplify_eq/=;
    try apply steps_refl.
  destruct (step o s) as [s1 new] eqn:E.
  eapply steps_cons; [|by apply IH].
  pose proof (cstep_thread s [o :: rest] 0 o rest eq_refl) as Hc.
  by rewrite E in Hc.
Qed.

Lemma execute_csteps ops s : steps cstep (s, [ops]) (execute ops s, [[]]).
Proof. eapply run_csteps, execute_run. Qed.

Lemma execute_wf ops s : wf_store s -> wf_store (execute ops s).
Proof. intros. by apply (csteps_wf _ _ (execute_csteps ops s)). Qed.

Lemma execute_evolves ops s : wf_store s -> evolves s (execute ops s).
Proof. intros. by apply (csteps_evolves _ _ (execute_csteps ops s)). Qed.

(** The calls of a closure made so far and still possible never grow. *)
Definition owed_threads (name : nat) (ths : list (list op)) : nat :=
  sum_list_by (owed_ops name) ths.

Lemma owed_threads_insert name (ths : list (list op)) i ops ops' :
  ths !! i = Some ops ->
  owed_threads name (<[i := ops']> ths) + owed_ops name ops =
  owed_threads name ths + owed_ops name ops'.
Proof.
  unfold owed_threads. revert i.
  induction ths as [|t ths IH]; intros [|i] H; simplify_eq/=.
  - lia.
  - specialize (IH _ H). lia.
Qed.

Lemma cstep_calls name c c' :
  cstep c c' ->
  calls name (log c'.1) + owed_store name c'.1 + owed_threads name c'.2
  <= calls name (log c.1) + owed_store name c.1 + owed_threads name c.2.
Proof.
  intros [s ths i o rest Hi]; simpl.
  pose proof (step_calls name o s) as H.
  pose proof (owed_threads_insert name ths i _ ((step o s).2 ++ rest) Hi) as H1.
  unfold owed_ops in *. rewrite sum_list_by_app in H1. simpl in *. lia.
Qed.

Lemma csteps_calls name c c' :
  steps cstep c c' ->
  calls name (log c'.1) + owed_store name c'.1 + owed_threads name c'.2
  <= calls name (log c.1) + owed_store name c.1 + owed_threads name c.2.
Proof.
  induction 1 as [|c1 c2 c3 H12 H23 IH]; [done|].
  pose proof (cstep_calls name _ _ H12). lia.
Qed.

(** ** What stays in the vectors *)

Definition callbacks (d : Data) : list (list cb) :=
  [onAbandonedCallbacks d; onDiscardCallbacks d; onReadyCallbacks d;
   onFailedCallbacks d; onDiscardedCallbacks d; onAnyCallbacks d].

(** No closure, and so no reference a closure holds, is left in the block. *)
Definition cleared (d : Data) : Prop := callbacks d = [[]; []; []; []; []; []].

(** The completed blocks after one operation: cleared, or completed by it and the
    thread is going to clear them, or they are as they were. *)
Definition leaves_tidy (s : store) (r : store * list op) : Prop :=
  forall l d', heap r.1 !! l = Some d' -> state d' <> PENDING ->
  cleared d' \/
  exists d, heap s !! l = Some d /\
    ((state d = PENDING /\ OClear l ∈ r.2) \/
     (state d <> PENDING /\ callbacks d' = callbacks d)).

Lemma tidy_same s r : heap r.1 = heap s -> leaves_tidy s r.
Proof. intros E l d' Hl Hs. rewrite E in Hl. right. exists d'. split; [done|]. by right. Qed.

Lemma tidy_put s r k d d' :
  heap s !! k = Some d -> heap r.1 = <[k := d']> (heap s) ->
  state d' = PENDING \/ cleared d' \/ (state d = PENDING /\ OClear k ∈ r.2) \/
    (state d <> PENDING /\ callbacks d' = callbacks d) ->
  leaves_tidy s r.
Proof.
  intros Hk E Hd l x Hl Hs. rewrite E in Hl.
  apply lookup_insert_Some in Hl as [[<- <-]|[? Hl]]; [|right; exists x; split; [done|by right]].
  destruct Hd as [?|[?|[?|?]]]; eauto 6; done.
Qed.

Lemma tidy_alloc s r k d :
  heap r.1 = <[k := d]> (heap s) -> cleared d -> leaves_tidy s r.
Proof.
  intros E Hd l x Hl Hs. rewrite E in Hl.
  apply lookup_insert_Some in Hl as [[<- <-]|[? Hl]]; [by left|right; exists x; split; [done|by right]].
Qed.

(** The vectors of a pending block stay in a pending block, those of a completed
    one are not touched. *)
Lemma keeps_pending d d' (P : Prop) :
  isPending d = true -> state d' = state d -> state d' = PENDING \/ P.
Proof. intros ?%isPending_true ->. by left. Qed.

Lemma keeps_vectors d d' (P Q : Prop) :
  state d' = state d -> callbacks d' = callbacks d ->
  state d' = PENDING \/ P \/ Q \/ (state d <> PENDING /\ callbacks d' = callbacks d).
Proof. intros -> ->. destruct (state d); auto 6. Qed.

Ltac tidy_block :=
  first
  [ by apply tidy_same
  | by eapply tidy_alloc
  | eapply tidy_put; [eassumption|reflexivity|];
    first [ by eapply keeps_pending | by apply keeps_vectors
          | by right; left
          | right; right; left; split; [by apply isPending_true|simpl; set_solver] ] ].

Ltac tidy_cases :=
  unfold nothing in *;
  repeat match goal with
  | |- context [match ?x with _ => _ end] => destruct x eqn:?; simplify_eq/=
  end; try tidy_block.

Lemma latch_tidy n s r : heap r.1 = heap (Latch_trigger n s).2 -> leaves_tidy s r.
Proof. destruct (Latch_trigger_heap n s) as [-> _]. apply tidy_same. Qed.

Lemma invoke_tidy c a s : leaves_tidy s (invoke c a s).
Proof.
  destruct c; simpl; try tidy_block; try (destruct a; simpl; try tidy_block).
  all: unfold internal_thenf, internal_then, recover_onAny, internal_repair,
         internal_after, internal_select; tidy_cases.
  all: try (by apply (latch_tidy latch)).
  all: match goal with H : Latch_trigger ?n ?s = (_, ?s') |- _ =>
         apply (latch_tidy n); rewrite H; done end.
Qed.

Lemma step_tidy o s : leaves_tidy s (step o s).
Proof.
  destruct o; cbn [step]; try apply invoke_tidy.
  all: unfold Future_set, Future_fail, Promise_discard_future, Future_discard,
    Future_abandon, Future_onAbandoned, Future_onDiscard, Future_onReady,
    Future_onFailed, Future_onDiscarded, Future_onAny, Future_await, Promise_set,
    Promise_fail, Promise_discard, Promise_associate, associate_returned,
    reset_discard, timer_fires, internal_expired; tidy_cases.
  1-2: bool_cases; tidy_block.
  all: match goal with H : Latch_trigger ?n ?s = (_, ?s') |- _ =>
         apply (latch_tidy n); rewrite H; done end.
Qed.

(** The vectors of a completed block change only by being cleared: what a thread
    runs after its critical section is what was registered at that moment. *)
Lemma completed_vectors_stable o s l d :
  wf_store s -> heap s !! l = Some d -> state d <> PENDING ->
  exists d', heap (step o s).1 !! l = Some d' /\ (cleared d' \/ callbacks d' = callbacks d).
Proof.
  intros Hw Hl Hs.
  destruct (change_evolves _ _ Hw (step_change o s) _ _ Hl) as (d' & Hl' & Hev & _).
  exists d'. split; [done|]. destruct (Hev Hs) as [Es _].
  assert (Hs' : state d' <> PENDING) by congruence.
  destruct (step_tidy o s l d' Hl' Hs') as [?|(d0 & Hd0 & Hcase)]; [by left|].
  assert (d0 = d) as -> by congruence. destruct Hcase as [[? _]|[_ ?]]; [done|by right].
Qed.

(** A completed block is cleared or a thread is going to clear it. *)
Definition tidy_config (c : config) : Prop :=
  forall l d, heap c.1 !! l = Some d -> state d <> PENDING ->
  cleared d \/ exists i ops, c.2 !! i = Some ops /\ OClear l ∈ ops.

Lemma cstep_tidy c c' : tidy_config c -> cstep c c' -> tidy_config c'.
Proof.
  intros Ht Hc. destruct Hc as [s ths i o rest Hi]. intros l d' Hl Hs; simpl in *.
  assert (Hlen : i < length ths) by eauto using lookup_lt_Some.
  destruct (step_tidy o s l d' Hl Hs) as [?|(d & Hd & [[_ Hn]|[Hsd Hcb]])]; [by left| |].
  - right. exists i, ((step o s).2 ++ rest).
    rewrite list_lookup_insert_eq by done. set_solver.
  - destruct (Ht l d Hd Hsd) as [Hcl|(j & ops & Hj & Hin)].
    { left. unfold cleared in *. congruence. }
    destruct (decide (j = i)) as [->|Hne]; simpl in *; simplify_eq.
    + apply elem_of_cons in Hin as [<-|Hin].
      * left. simpl in Hl. rewrite Hd in Hl; simpl in Hl.
        rewrite lookup_insert_eq in Hl. by simplify_eq.
      * right. exists i, ((step o s).2 ++ rest).
        rewrite list_lookup_insert_eq by done. set_solver.
    + right. exists j, ops. by rewrite list_lookup_insert_ne by done.
Qed.

Lemma csteps_tidy c c' : steps cstep c c' -> tidy_config c -> tidy_config c'.
Proof.
  apply (steps_invariant cstep tidy_config). eauto using cstep_tidy.
Qed.

(** A store in which nothing is left to be cleared. *)
Definition tidy (s : store) : Prop :=
  forall l d, heap s !! l = Some d -> state d <> PENDING -> cleared d.

Lemma tidy_start s ths : tidy s -> tidy_config (s, ths).
Proof. intros Ht l d Hl Hs. left. eauto. Qed.

Lemma tidy_end s ths : tidy_config (s, ths) -> Forall (fun ops => ops = []) ths -> tidy s.
Proof.
  intros Ht Hn l d Hl Hs. destruct (Ht l d Hl Hs) as [?|(i & ops & Hi & Hin)]; [done|].
  rewrite Forall_lookup in Hn. specialize (Hn _ _ Hi). subst. by apply not_elem_of_nil in Hin.
Qed.

(** ** Every interleaving ends *)

Definition threads_weight (ths : list (list op)) : nat :=
  sum_list_by (sum_list_by (op_weight 1 no_charge)) ths.

Lemma threads_weight_insert (ths : list (list op)) i ops ops' :
  ths !! i = Some ops ->
  threads_weight (<[i := ops']> ths) + sum_list_by (op_weight 1 no_charge) ops =
  threads_weight ths + sum_list_by (op_weight 1 no_charge) ops'.
Proof.
  unfold threads_weight. revert i.
  induction ths as [|t ths IH]; intros [|i] H; simplify_eq/=; [lia|].
  specialize (IH _ H). lia.
Qed.

(** What is left to do in a configuration. *)
Definition config_weight (c : config) : nat := store_weight 1 no_charge c.1 + threads_weight c.2.

Lemma cstep_lighter c c' : cstep c c' -> config_weight c' < config_weight c.
Proof.
  intros [s ths i o rest Hi]; unfold config_weight; simpl.
  pose proof (step_lighter 1 no_charge o s) as H. unfold lighter in H.
  pose proof (threads_weight_insert ths i _ ((step o s).2 ++ rest) Hi) as H1.
  rewrite sum_list_by_app in H1. simpl in *. lia.
Qed.

