(* ===== verification/FuturesSpec.v ===== *)
(** What futures and promises promise: the properties of [future.hpp]. *)

From S2P Require Import Prelude Futures FuturesCost FuturesSafety.

(** ** Symbolic execution *)

(** [at_ s l P]: the block at [l] exists and satisfies [P]. *)
Definition at_ (s : store) (l : nat) (P : Data -> Prop) : Prop :=
  exists d, heap s !! l = Some d /\ P d.

Ltac lookup_step :=
  match goal with
  | |- context [(<[?k := _]> _ : gmap nat _) !! ?k] =>
      rewrite (lookup_insert_eq _ k)
  | |- context [(<[?k := _]> _ : gmap nat _) !! ?l] =>
      rewrite (lookup_insert_ne _ k l) by lia
  | |- context [(delete ?k _ : gmap nat _) !! ?k] =>
      rewrite (lookup_delete_eq _ k)
  | H : heap ?s !! ?l = _ |- context [heap ?s !! ?l] => rewrite H
  end.

(** One operation on the goal's [execute (o :: rest) s]. *)
Ltac exec1 :=
  rewrite execute_cons; cbn [step invoke fst snd app];
  unfold Future_set, Future_fail, Promise_discard_future, Future_discard,
    Future_abandon, Future_onAbandoned, Future_onDiscard, Future_onReady,
    Future_onFailed, Future_onDiscarded, Future_onAny, Promise_set,
    Promise_fail, Promise_discard, Promise_associate, Promise_destroy,
    associate_returned, internal_thenf, internal_then, internal_repair,
    recover_onAny, recover_onAbandoned, reset_discard, internal_expired,
    internal_after, internal_select, internal_discard, Future_thenf,
    Future_then, Future_recover, Future_repair, undiscardable, Future_get,
    Future_failureMessage, timer_fires, Latch_trigger, nothing, alloc,
    isPending, isReady, isFailed, isDiscarded, hasDiscard;
  cbn -[lookup insert delete];
  repeat (lookup_step; cbn -[lookup insert delete]);
  repeat match goal with
  | H : state ?d = _ |- context [state ?d] => rewrite H
  | H : result ?d = _ |- context [result ?d] => rewrite H
  | H : discard ?d = _ |- context [discard ?d] => rewrite H
  | H : abandoned ?d = _ |- context [abandoned ?d] => rewrite H
  | H : associated ?d = _ |- context [associated ?d] => rewrite H
  | H : onReadyCallbacks ?d = _ |- context [onReadyCallbacks ?d] => rewrite H
  | H : onFailedCallbacks ?d = _ |- context [onFailedCallbacks ?d] => rewrite H
  | H : onDiscardedCallbacks ?d = _ |- context [onDiscardedCallbacks ?d] =>
      rewrite H
  | H : onAnyCallbacks ?d = _ |- context [onAnyCallbacks ?d] => rewrite H
  end; cbn -[lookup insert delete].

Ltac exec :=
  rewrite <- ?execute_app; cbn [app]; repeat exec1; rewrite ?execute_nil.

(** The block at [p] has reached the state [st] with the result [r]. *)
Definition settled (s : store) (p : nat) (st : State) (r : Result) : Prop :=
  at_ s p (fun d => state d = st /\ result d = r).

Ltac settle :=
  eexists; split; [cbn -[lookup insert delete]; repeat lookup_step; reflexivity|];
  cbn; auto.

(** A pending promise on whose completion nobody waits yet. *)
Definition unclaimed (d : Data) : Prop :=
  state d = PENDING /\ associated d = false /\ discard d = false /\
  onReadyCallbacks d = [] /\ onFailedCallbacks d = [] /\
  onDiscardedCallbacks d = [] /\ onAnyCallbacks d = [].

(** ** Specification of [then]

    What the future returned by [then] ends as, as a function of the completed
    future and of the continuation alone. *)
Definition outcome_of (s : store) (r : returned) : option (State * Result) :=
  match r with
  | ReturnsValue v => Some (READY, RSome v)
  | ReturnsFailure m => Some (FAILED, RError m)
  | ReturnsFuture l =>
      match heap s !! l with
      | Some d => if isPending d then None else Some (state d, result d)
      | None => None
      end
  end.

Definition then_outcome (s : store) (d : Data) (f : val -> returned)
    : option (State * Result) :=
  match state d, result d with
  | READY, RSome v =>
      if discard d then Some (DISCARDED, RNone) else outcome_of s (f v)
  | FAILED, RError m => Some (FAILED, RError m)
  | DISCARDED, _ => Some (DISCARDED, RNone)
  | _, _ => None
  end.

(** What [recover] ends as: failed and discarded futures are handed to the
    continuation, a ready one is passed on. *)
Definition recover_outcome (s : store) (l : nat) (d : Data)
    (f : nat -> returned) : option (State * Result) :=
  match state d with
  | FAILED | DISCARDED => outcome_of s (f l)
  | READY => Some (READY, result d)
  | PENDING => None
  end.

(** The value or message a well-formed completed block holds. *)
Ltac wf_result Hw :=
  lazymatch type of Hw with
  | exists _, _ => destruct Hw as [? Hw]
  | _ => idtac
  end.

(** Associating a promise with a completed future copies its outcome. *)
Lemma associate_completed s p dp l d :
  wf_store s -> heap s !! p = Some dp -> unclaimed dp -> p <> l ->
  heap s !! l = Some d -> state d <> PENDING ->
  settled (execute [OPromiseAssociate p l] s) p (state d) (result d).
Proof.
  intros [Hn Hd] Hp (Hps & Hpa & Hpd & Hpr & Hpf & Hpx & Hpy) Hne Hl Hs.
  pose proof (Hd _ _ Hl) as Hw. pose proof (Hd _ _ Hp) as Hwp.
  unfold wf_data in Hw, Hwp. rewrite Hps in Hwp. exec1. exec1.
  destruct (state d) eqn:E; [done|..]; wf_result Hw;
    destruct (abandoned d) eqn:?, (abandoned dp) eqn:?; exec; settle;
    split; congruence.
Qed.

(** What is settled stays settled, whatever runs next. *)
Lemma settled_execute ops s p st r :
  wf_store s -> st <> PENDING -> settled s p st r ->
  settled (execute ops s) p st r.
Proof.
  intros Hw Hst (d & Hd & <- & <-).
  destruct (execute_evolves ops s Hw _ _ Hd) as (d' & Hd' & Hev & _).
  exists d'. split; [done|]. by apply Hev.
Qed.

(** Associating with what a continuation returned. *)
Lemma associate_returned_settles s p dp r st res :
  wf_store s -> heap s !! p = Some dp -> unclaimed dp ->
  outcome_of s r = Some (st, res) ->
  settled (execute [OAssociateReturned p r] s) p st res.
Proof.
  intros Hwf Hp Hu Ho. pose proof Hwf as [Hn Hd]. assert (p < next s) by eauto.
  pose proof (step_wf (OAssociateReturned p r) s Hwf) as Hwf1.
  rewrite execute_cons. destruct r as [l|v|m]; simpl in *; simplify_eq.
  - destruct (heap s !! l) as [d|] eqn:Hl; [|done].
    destruct (isPending d) eqn:Hpd; simplify_eq.
    eapply associate_completed; eauto with proc.
    intros ->. destruct Hu as [Hu _]. apply isPending_false in Hpd. congruence.
  - apply (associate_completed _ p dp (next s) (Future_value v)); auto; try lia;
      simpl; by rewrite ?lookup_insert_eq, ?lookup_insert_ne by lia.
  - apply (associate_completed _ p dp (next s) (Future_failure m)); auto; try lia;
      simpl; by rewrite ?lookup_insert_eq, ?lookup_insert_ne by lia.
Qed.

Lemma outcome_of_completed s r st res :
  wf_store s -> outcome_of s r = Some (st, res) -> st <> PENDING.
Proof.
  intros Hwf. destruct r as [l|v|m]; simpl; intros; simplify_eq; try done.
  destruct (heap s !! l) as [d|]; [|done].
  destruct (isPending d) eqn:Hp; simplify_eq. by apply isPending_false.
Qed.

(** An outcome is a fact about completed futures, so it persists. *)
Lemma outcome_of_evolves s s' r o :
  evolves s s' -> outcome_of s r = Some o -> outcome_of s' r = Some o.
Proof.
  intros He. destruct r as [l|v|m]; simpl; auto.
  destruct (heap s !! l) as [d|] eqn:Hl; [|done].
  destruct (isPending d) eqn:Hp; [done|]. apply isPending_false in Hp.
  destruct (He _ _ Hl) as (d' & -> & Hev & _). destruct (Hev Hp) as [Es Er].
  destruct (isPending d') eqn:Hp'; [|by rewrite Es, Er].
  apply isPending_true in Hp'. congruence.
Qed.

Lemma alloc_evolves d s : wf_store s -> wf_data d -> evolves s (alloc d s).2.
Proof. intros. apply change_evolves; eauto with proc. Qed.

Lemma emit_evolves e s : evolves s (emit e s).
Proof. intros l d Hd. exists d. split; [done|reflexivity]. Qed.

(** The part of a continuation shared by [then], [recover], [repair] and
    [after]: the closure is called, then its result decides the promise. *)
Lemma continuation_settles s p dp name a r rest st res :
  wf_store s -> heap s !! p = Some dp -> unclaimed dp ->
  outcome_of s r = Some (st, res) ->
  settled (execute (OCall name a :: OAssociateReturned p r :: rest) s) p st res.
Proof.
  intros Hwf Hp Hu Ho.
  rewrite execute_cons; simpl.
  assert (wf_store (emit (Called name a) s)) by apply (step_wf (OCall name a) s Hwf).
  change (OAssociateReturned p r :: rest) with ([OAssociateReturned p r] ++ rest).
  rewrite execute_app. apply settled_execute; eauto using execute_wf,
    outcome_of_completed. by eapply associate_returned_settles.
Qed.

(** The continuation of [recover] resets the discard request first. *)
Lemma recover_continuation_settles s p dp name a r rest st res :
  wf_store s -> heap s !! p = Some dp -> unclaimed dp ->
  outcome_of s r = Some (st, res) ->
  settled (execute
    (OResetDiscard p :: OCall name a :: set_returned p r :: rest) s) p st res.
Proof.
  intros Hwf Hp Hu Ho.
  pose proof (execute_wf [OResetDiscard p; OCall name a] s Hwf) as Hwf1.
  pose proof (execute_evolves [OResetDiscard p; OCall name a] s Hwf) as Hev.
  change (OResetDiscard p :: OCall name a :: set_returned p r :: rest)
    with ([OResetDiscard p; OCall name a] ++ [set_returned p r] ++ rest).
  rewrite !execute_app.
  assert (Hb : at_ (execute [OResetDiscard p; OCall name a] s) p unclaimed).
  { exec. eexists; split; [apply lookup_insert_eq|].
    unfold unclaimed in *; simpl; naive_solver. }
  destruct Hb as (dp1 & Hp1 & Hu1).
  pose proof (outcome_of_evolves _ _ _ _ Hev Ho) as Ho1.
  apply settled_execute; eauto using execute_wf, outcome_of_completed.
  destruct r as [l|v|m]; cbn [set_returned];
    try (by eapply associate_returned_settles).
  simpl in Ho1; simplify_eq. destruct Hu1 as (? & ? & ? & ? & ? & ? & ?).
  generalize dependent (execute [OResetDiscard p; OCall name a] s).
  intros s1 Hwf1 Hev Hp1. exec. settle.
Qed.

(** [then] on a completed future. *)
Lemma thenf_completed s l d name f st r :
  wf_store s -> heap s !! l = Some d -> then_outcome s d f = Some (st, r) ->
  settled (execute [OThenf l name [] f] s) (next s) st r.
Proof.
  intros Hwf Hl Ho. pose proof Hwf as [Hn Hd]. assert (l < next s) by eauto.
  pose proof (Hd _ _ Hl) as Hw. unfold wf_data in Hw. unfold then_outcome in Ho.
  destruct (state d) eqn:E; wf_result Hw; simplify_eq/=;
    destruct (discard d) eqn:?; simplify_eq/=;
    try (rewrite Hw in Ho; simplify_eq/=).
  all: try (destruct (abandoned d) eqn:?; exec; settle; fail).
  do 3 exec1. eapply continuation_settles.
  - by apply (step_wf (OThenf l name [] f) s).
  - cbn -[lookup insert]. by rewrite lookup_insert_eq.
  - by repeat split.
  - eapply outcome_of_evolves, Ho. by apply (alloc_evolves Promise_Promise).
Qed.

(** ** Completion invokes the callbacks in order *)

(** Callbacks run one after the other, each to its end, in the order they were
    registered. *)
Definition run_callbacks (cs : list cb) (a : arg) (s : store) : store :=
  foldl (fun s c => execute [OInvoke c a] s) s cs.

Lemma execute_internal_run cs a rest s :
  execute (internal_run cs a ++ rest) s = execute rest (run_callbacks cs a s).
Proof.
  revert s. induction cs as [|c cs IH]; intros s; simpl; [done|].
  change (OInvoke c a :: internal_run cs a ++ rest)
    with ([OInvoke c a] ++ (internal_run cs a ++ rest)).
  by rewrite execute_app, IH.
Qed.

Lemma run_user_callbacks ns a s :
  run_callbacks (map (fun n => User n []) ns) a s =
  foldl (fun s n => emit (Called n a) s) s ns.
Proof.
  revert s. induction ns as [|n ns IH]; intros s; simpl; [done|].
  rewrite IH. f_equal. by exec.
Qed.

Lemma log_emits ns a s :
  log (foldl (fun s n => emit (Called n a) s) s ns) =
  log s ++ map (fun n => Called n a) ns.
Proof.
  revert s. induction ns as [|n ns IH]; intros s; simpl; [by rewrite app_nil_r|].
  rewrite IH; simpl. by rewrite <- app_assoc.
Qed.

Lemma heap_emits ns a s :
  heap (foldl (fun s n => emit (Called n a) s) s ns) = heap s.
Proof. revert s. induction ns as [|n ns IH]; intros s; simpl; [done|]. by rewrite IH. Qed.

(** ** Chains of associated futures *)

(** The blocks of a chain [p0; p1; ...; pn] built by associating each promise
    with the future before it. *)
Fixpoint chained (s : store) (ps : list nat) : Prop :=
  match ps with
  | [] => True
  | p :: ps' =>
      at_ s p (fun d =>
        state d = PENDING /\ onAnyCallbacks d = [] /\
        onReadyCallbacks d = match ps' with q :: _ => [SetTo q] | [] => [] end /\
        onFailedCallbacks d = match ps' with q :: _ => [FailTo q] | [] => [] end) /\
      p ∉ ps' /\ chained s ps'
  end.

Lemma chained_frame s s' ps :
  (forall p, p ∈ ps -> heap s' !! p = heap s !! p) ->
  chained s ps -> chained s' ps.
Proof.
  induction ps as [|p ps IH]; intros Hf; simpl; [done|].
  intros ((d & Hd & HP) & Hnin & Hc). split_and!; [|done|].
  - exists d. rewrite Hf by left. done.
  - apply IH; [|done]. intros. apply Hf. by right.
Qed.

Lemma chain_set v p ps s :
  wf_store s -> chained s (p :: ps) ->
  Forall (fun q => settled (execute [OFutureSet p v] s) q READY (RSome v)) (p :: ps).
Proof.
  revert p s. induction ps as [|q ps IH]; intros p s Hwf Hc;
    destruct Hc as ((d & Hd & Hs & Ha & Hr & _) & Hnin & Hc).
  - constructor; [|done]. exec. settle.
  - rewrite execute_cons; simpl.
    pose proof (step_wf (OFutureSet p v) s Hwf) as Hwf1. simpl in Hwf1.
    unfold Future_set in *; rewrite Hd in *. unfold isPending in *;
      rewrite Hs, Ha, Hr in *; simpl in *.
    set (s1 := put p _ s) in *.
    change (OInvoke (SetTo q) (AVal v) :: [OClear p])
      with ([OInvoke (SetTo q) (AVal v)] ++ [OClear p]).
    rewrite execute_app, (execute_cons (OInvoke _ _)); simpl.
    pose proof (execute_wf [OFutureSet q v] s1 Hwf1) as Hwf2.
    constructor.
    + apply settled_execute; [done..|]. apply settled_execute; [done..|].
      eexists; split; [apply lookup_insert_eq|done].
    + eapply Forall_impl; [apply (IH q s1 Hwf1)|intros x ?; by apply settled_execute].
      apply (chained_frame s s1 (q :: ps)); [|exact Hc]. intros x Hx. simpl.
      apply lookup_insert_ne. intros ->. by apply Hnin.
Qed.

Lemma chain_fail m p ps s :
  wf_store s -> chained s (p :: ps) ->
  Forall (fun q => settled (execute [OFutureFail p m] s) q FAILED (RError m)) (p :: ps).
Proof.
  revert p s. induction ps as [|q ps IH]; intros p s Hwf Hc;
    destruct Hc as ((d & Hd & Hs & Ha & _ & Hr) & Hnin & Hc).
  - constructor; [|done]. exec. settle.
  - rewrite execute_cons; simpl.
    pose proof (step_wf (OFutureFail p m) s Hwf) as Hwf1. simpl in Hwf1.
    unfold Future_fail in *; rewrite Hd in *. unfold isPending in *;
      rewrite Hs, Ha, Hr in *; simpl in *.
    set (s1 := put p _ s) in *.
    change (OInvoke (FailTo q) (AErr m) :: [OClear p])
      with ([OInvoke (FailTo q) (AErr m)] ++ [OClear p]).
    rewrite execute_app, (execute_cons (OInvoke _ _)); simpl.
    pose proof (execute_wf [OFutureFail q m] s1 Hwf1) as Hwf2.
    constructor.
    + apply settled_execute; [done..|]. apply settled_execute; [done..|].
      eexists; split; [apply lookup_insert_eq|done].
    + eapply Forall_impl; [apply (IH q s1 Hwf1)|intros x ?; by apply settled_execute].
      apply (chained_frame s s1 (q :: ps)); [|exact Hc]. intros x Hx. simpl.
      apply lookup_insert_ne. intros ->. by apply Hnin.
Qed.

(** [associate_all [p0; p1; ...]]: each promise is associated with the future
    before it. *)
Fixpoint associate_all (ps : list nat) : list op :=
  match ps with
  | [] => []
  | p :: ps' =>
      match ps' with
      | [] => []
      | q :: _ => associate_all ps' ++ [OPromiseAssociate q p]
      end
  end.

(** What [associate] leaves in two blocks nobody else has registered with. *)
Lemma associate_link s q p dq :
  heap s !! q = Some dq -> state dq = PENDING -> associated dq = false ->
  discard dq = false -> heap s !! p = Some Promise_Promise -> p <> q ->
  let s' := execute [OPromiseAssociate q p] s in
  (exists dq', heap s' !! q = Some dq' /\ state dq' = PENDING /\
     onAnyCallbacks dq' = onAnyCallbacks dq /\
     onReadyCallbacks dq' = onReadyCallbacks dq /\
     onFailedCallbacks dq' = onFailedCallbacks dq) /\
  (exists dp', heap s' !! p = Some dp' /\ state dp' = PENDING /\
     associated dp' = false /\ discard dp' = false /\
     onAnyCallbacks dp' = [] /\ onReadyCallbacks dp' = [SetTo q] /\
     onFailedCallbacks dp' = [FailTo q]) /\
  (forall x, x <> p -> x <> q -> heap s' !! x = heap s !! x).
Proof.
  intros Hq Hs Ha Hdi Hp Hne. simpl. exec.
  split_and!; [settle|settle; by split_and!|].
  intros x ? ?. cbn -[lookup insert]. by rewrite !lookup_insert_ne by done.
Qed.

Lemma associate_all_chained ps s :
  NoDup ps -> (forall p, p ∈ ps -> heap s !! p = Some Promise_Promise) ->
  let s' := execute (associate_all ps) s in
  chained s' ps /\
  match ps with
  | [] => True
  | p :: _ => at_ s' p (fun d => associated d = false /\ discard d = false)
  end /\
  (forall x, x ∉ ps -> heap s' !! x = heap s !! x).
Proof.
  induction ps as [|p ps IH]; intros Hnd Hq.
  { rewrite execute_nil. done. }
  apply NoDup_cons in Hnd as [Hnin Hnd].
  destruct ps as [|q ps].
  { simpl. rewrite execute_nil. split_and!; try done.
    - eexists; split; [apply Hq; by left|done].
    - eexists; split; [apply Hq; by left|done]. }
  change (associate_all (p :: q :: ps))
    with (associate_all (q :: ps) ++ [OPromiseAssociate q p]).
  rewrite execute_app.
  destruct IH as (Hc & (dq & Hdq & Has & Hdi) & Hf);
    [done|intros x Hx; apply Hq; by right|].
  set (s1 := execute (associate_all (q :: ps)) s) in *.
  assert (Hp1 : heap s1 !! p = Some Promise_Promise)
    by (rewrite Hf by done; apply Hq; by left).
  destruct Hc as ((dq' & Hdq' & Hsq & Haq & Hrq & Hfq) & Hqn & Hc).
  assert (dq' = dq) as -> by congruence.
  assert (Hne : p <> q) by (intros ->; apply Hnin; by left).
  destruct (associate_link s1 q p dq) as
    ((dq2 & Hq2 & ? & ? & ? & ?) & (dp2 & Hp2 & ? & ? & ? & ? & ? & ?) & Hf2);
    [done..|].
  split; [|split].
  - split; [by exists dp2|]. split; [done|]. split.
    { exists dq2. split_and!; congruence. }
    split; [done|]. eapply chained_frame, Hc. intros x Hx. apply Hf2; intros ->.
    + apply Hnin. by right.
    + done.
  - by exists dp2.
  - intros x Hx. rewrite Hf2; [apply Hf| |].
    + intros ?. apply Hx. by right.
    + intros ->. apply Hx. by left.
    + intros ->. apply Hx. right. by left.
Qed.

(** ** Properties *)

(** C9: every operation on futures and promises returns and leaves nothing behind:
    whatever callbacks are registered anywhere in the store, running a stack of
    operations (with all the callbacks it triggers, recursively) ends within as
    many steps as the weight of stack and store, and any run that ends gives that
    same store; threads that are interleaved in any way make at most as many steps
    as their weight; and when all of them have ended no completed future holds a
    callback, if none did at the start. *)
Theorem run_terminates s :
  (forall ops,
     run (store_weight 1 no_charge s + sum_list_by (op_weight 1 no_charge) ops)
         ops s = Some (execute ops s) /\
     forall fuel s', run fuel ops s = Some s' -> s' = execute ops s) /\
  (forall ths n c, nsteps cstep n (s, ths) c -> n <= config_weight (s, ths)) /\
  (forall ths s' ths', tidy s -> steps cstep (s, ths) (s', ths') ->
     Forall (fun ops => ops = []) ths' -> tidy s').
Proof.
  split_and!.
  - intros ops. split; [apply execute_run|]. intros fuel s' H. symmetry.
    by eapply run_execute.
  - intros ths n c H. revert H. generalize (s, ths). intros c0 H.
    induction H as [|n c1 c2 c3 H12 _ IH]; [lia|]. pose proof (cstep_lighter _ _ H12). lia.
  - intros ths s' ths' Ht Hst He. eapply tidy_end, He.
    eapply csteps_tidy; [exact Hst|]. by apply tidy_start.
Qed.

(** C4: a completed future never changes: under every interleaving of any
    number of threads a future that has left [PENDING] keeps its state and its
    result, so [READY], [FAILED] and [DISCARDED] are final. *)
Theorem completed_stable s ths s' ths' l d :
  wf_store s -> steps cstep (s, ths) (s', ths') ->
  heap s !! l = Some d -> state d <> PENDING ->
  settled s' l (state d) (result d).
Proof.
  intros Hw Hst Hl Hs.
  destruct (csteps_evolves _ _ Hst Hw _ _ Hl) as (d' & Hd' & Hev & _).
  exists d'. split; [done|]. by apply Hev.
Qed.

(** The invariant of [Data::result] holds in every state any program
    reaches from the empty store: no result while pending or discarded, a value
    when ready, an error message when failed. *)
Theorem result_matches_state ths s' ths' l d :
  steps cstep (empty_store, ths) (s', ths') -> heap s' !! l = Some d ->
  match state d with
  | PENDING | DISCARDED => result d = RNone
  | READY => exists v, result d = RSome v
  | FAILED => exists m, result d = RError m
  end.
Proof.
  intros Hst Hl. destruct (csteps_wf _ _ Hst wf_empty) as [_ Hd].
  exact (Hd _ _ Hl).
Qed.

(** C10: a callback is called at most once: if a closure occurs once, in what the
    threads have to do, in an armed timer or among the callbacks of a pending
    future, and has not been called, no interleaving of the threads calls it twice,
    although the vectors keep it until all callbacks of its future have run. *)
Theorem callback_at_most_once name s ths s' ths' :
  calls name (log s) + owed_store name s + owed_threads name ths <= 1 ->
  steps cstep (s, ths) (s', ths') ->
  calls name (log s') <= 1.
Proof.
  intros Ho Hst. pose proof (csteps_calls name _ _ Hst). simpl in *. lia.
Qed.

(** [Future::set] on a pending future stores the value and then runs the
    [onReady] callbacks followed by the [onAny] callbacks, each to completion
    and in registration order, before it drops all callbacks. *)
Theorem set_runs_callbacks_in_order l d v s :
  heap s !! l = Some d -> state d = PENDING ->
  let s1 := put l (complete READY (RSome v) d) s in
  execute [OFutureSet l v] s =
  execute [OClear l]
    (run_callbacks (onAnyCallbacks d) (AFut l)
       (run_callbacks (onReadyCallbacks d) (AVal v) s1)).
Proof.
  intros Hl Hs s1. rewrite execute_cons; simpl. unfold Future_set.
  rewrite Hl. unfold isPending; rewrite Hs; simpl.
  rewrite app_nil_r. by rewrite !execute_internal_run.
Qed.

(** User callbacks observe completion in order: with plain user callbacks
    registered, setting a pending future logs exactly the [onReady] callbacks
    with the value and then the [onAny] callbacks with the future, and no
    [onFailed], [onDiscarded] or [onAbandoned] callback. *)
Theorem set_log l d v rs ns s :
  heap s !! l = Some d -> state d = PENDING ->
  onReadyCallbacks d = map (fun n => User n []) rs ->
  onAnyCallbacks d = map (fun n => User n []) ns ->
  log (execute [OFutureSet l v] s) =
  log s ++ map (fun n => Called n (AVal v)) rs
        ++ map (fun n => Called n (AFut l)) ns.
Proof.
  intros Hl Hs Hr Ha. rewrite execute_cons; simpl. unfold Future_set.
  rewrite Hl. unfold isPending; rewrite Hs; simpl.
  rewrite app_nil_r, !execute_internal_run, Hr, Ha, !run_user_callbacks.
  rewrite execute_cons; simpl. rewrite !heap_emits; simpl.
  rewrite lookup_insert_eq; simpl. rewrite execute_nil; simpl.
  by rewrite !log_emits, <- app_assoc.
Qed.

(** C11: [then] implements its specification [then_outcome] on every completed
    future: the continuation's result when it is ready, discarded when a
    discard was requested on it, and the failure or discard passed on. *)
Theorem then_refines_outcome s l d name f st r :
  wf_store s -> heap s !! l = Some d -> then_outcome s d f = Some (st, r) ->
  settled (execute [OThenf l name [] f] s) (next s) st r.
Proof. apply thenf_completed. Qed.

(** It does not matter whether [then] is called before or after the future
    is set: the returned future ends with the same outcome. *)
Theorem then_timing_irrelevant s l v name f st r :
  wf_store s -> heap s !! l = Some Promise_Promise ->
  outcome_of s (f v) = Some (st, r) ->
  settled (execute [OThenf l name [] f; OFutureSet l v] s) (next s) st r /\
  settled (execute [OFutureSet l v; OThenf l name [] f] s) (next s) st r.
Proof.
  intros Hwf Hl Ho. pose proof Hwf as [Hn Hd]. assert (l < next s) by eauto.
  split.
  - pose proof (execute_wf [OThenf l name [] f] s Hwf) as Hwf1.
    pose proof (execute_evolves [OThenf l name [] f] s Hwf) as Hev.
    change [OThenf l name [] f; OFutureSet l v]
      with ([OThenf l name [] f] ++ [OFutureSet l v]).
    rewrite execute_app. revert Hwf1 Hev.
    replace (execute [OThenf l name [] f] s) with
      (put (next s) (set_onDiscard [DiscardWeak l] Promise_Promise)
         (put l (set_onAbandoned [Abandon (next s) false]
                   (set_onAny [Thenf name [] f (next s)] Promise_Promise))
            (put l (set_onAny [Thenf name [] f (next s)] Promise_Promise)
               (bump (put (next s) Promise_Promise s))))) by (by exec).
    set (s1 := put (next s) _ _). intros Hwf1 Hev.
    pose proof (step_wf (OFutureSet l v) s1 Hwf1) as Hwf2.
    pose proof (change_evolves _ _ Hwf1 (step_change (OFutureSet l v) s1)) as Hev2.
    rewrite execute_cons. revert Hwf2 Hev2. cbn [step]. unfold Future_set.
    replace (heap s1 !! l) with (Some (set_onAbandoned [Abandon (next s) false]
      (set_onAny [Thenf name [] f (next s)] Promise_Promise)))
      by (unfold s1; cbn -[lookup insert]; by repeat lookup_step).
    cbn -[lookup insert s1]. intros Hwf2 Hev2. exec1.
    apply (continuation_settles _ _
      (set_onDiscard [DiscardWeak l] Promise_Promise)); [done| |by repeat split|].
    + cbn -[lookup insert]. by repeat lookup_step.
    + eapply outcome_of_evolves; [|exact Ho]. by etrans.
  - change [OFutureSet l v; OThenf l name [] f]
      with ([OFutureSet l v] ++ [OThenf l name [] f]).
    rewrite execute_app.
    pose proof (execute_wf [OFutureSet l v] s Hwf) as Hwf1.
    pose proof (execute_evolves [OFutureSet l v] s Hwf) as Hev.
    assert (Hnx : next (execute [OFutureSet l v] s) = next s) by (by exec).
    assert (Hb : at_ (execute [OFutureSet l v] s) l (fun d =>
      state d = READY /\ result d = RSome v /\ discard d = false))
      by (exec; settle).
    destruct Hb as (d & Hb & Hs & Hr & Hdi). rewrite <- Hnx.
    eapply thenf_completed; eauto.
    unfold then_outcome. rewrite Hs, Hr, Hdi. by eapply outcome_of_evolves.
Qed.

(** [then] enforces discards: when the returned future is discarded before
    the original one is set, the request is propagated to the original, the
    continuation is never called, and the returned future ends [DISCARDED]. *)
Theorem then_enforces_discard s l v name f :
  wf_store s -> heap s !! l = Some Promise_Promise ->
  let s1 := execute [OThenf l name [] f; OFutureDiscard (next s)] s in
  let s2 := execute [OFutureSet l v] s1 in
  at_ s1 l (fun d => discard d = true /\ state d = PENDING) /\
  settled s2 l READY (RSome v) /\
  settled s2 (next s) DISCARDED RNone /\
  log s2 = log s.
Proof.
  intros [Hn Hd] Hl s1 s2. assert (l < next s) by eauto.
  unfold s2, s1. split_and!; [exec; settle..|]. by exec.
Qed.

(** The same request stops at [undiscardable]: discarding the future it
    returns leaves the block of the original future exactly as it was. *)
Theorem undiscardable_blocks_discard s l d :
  wf_store s -> heap s !! l = Some d -> state d = PENDING ->
  let s1 := execute [OUndiscardable l] s in
  let s2 := execute [OFutureDiscard (next s)] s1 in
  at_ s2 (next s) (fun d' => discard d' = true) /\
  heap s2 !! l = heap s1 !! l /\
  at_ s2 l (fun d' => discard d' = discard d).
Proof.
  intros [Hn Hd] Hl Hs s1 s2. assert (l < next s) by eauto.
  unfold s2, s1. split_and!; exec.
  - settle.
  - cbn -[lookup insert]. by repeat lookup_step.
  - settle.
Qed.

(** Association propagates completion: in a chain of promises, each
    associated with the future before it, setting the first makes all of them
    ready with that value, and failing it fails all of them with that
    message. *)
Theorem association_chain s p ps v m :
  wf_store s -> NoDup (p :: ps) ->
  (forall q, q ∈ p :: ps -> heap s !! q = Some Promise_Promise) ->
  Forall (fun q => settled
      (execute (associate_all (p :: ps) ++ [OFutureSet p v]) s) q READY (RSome v))
    (p :: ps) /\
  Forall (fun q => settled
      (execute (associate_all (p :: ps) ++ [OFutureFail p m]) s) q FAILED (RError m))
    (p :: ps).
Proof.
  intros Hwf Hnd Hq. rewrite !execute_app.
  destruct (associate_all_chained (p :: ps) s Hnd Hq) as [Hc _].
  split; [apply chain_set|apply chain_fail]; auto using execute_wf.
Qed.

(** Once associated, a promise no longer completes its future: [set],
    [fail] and [discard] on the promise leave the store unchanged, and so does
    destroying it; only the associated future decides. *)
Theorem associated_promise_is_inert s p d v m :
  heap s !! p = Some d -> associated d = true ->
  execute [OPromiseSet p v] s = s /\
  execute [OPromiseFail p m] s = s /\
  execute [OPromiseDiscard p] s = s /\
  execute [OPromiseDestroy p] s = s.
Proof.
  intros Hp Ha. split_and!; exec; try done.
  rewrite andb_false_r; simpl. apply execute_nil.
Qed.

(** [recover] implements [recover_outcome] on every completed future that
    nobody abandoned: a failed or discarded future is replaced by what the
    continuation returns, a ready one is passed on without calling it. *)
Theorem recover_refines_outcome s l d name f st r :
  wf_store s -> heap s !! l = Some d -> abandoned d = false ->
  recover_outcome s l d f = Some (st, r) ->
  settled (execute [ORecover l name [] f] s) (next s) st r /\
  (state d = READY -> log (execute [ORecover l name [] f] s) = log s).
Proof.
  intros Hwf Hl Hab Ho. pose proof Hwf as [Hn Hd]. assert (l < next s) by eauto.
  pose proof (Hd _ _ Hl) as Hw. unfold wf_data in Hw. unfold recover_outcome in Ho.
  destruct (state d) eqn:E; wf_result Hw; simplify_eq/=.
  - split; [|intros _]; exec; [settle; split; congruence|done].
  - split; [|done]. do 3 exec1.
    apply (recover_continuation_settles _ _ Promise_Promise).
    + by apply (step_wf (ORecover l name [] f) s).
    + cbn -[lookup insert]. by repeat lookup_step.
    + by repeat split.
    + eapply outcome_of_evolves, Ho. by apply (alloc_evolves Promise_Promise).
  - split; [|done]. do 3 exec1.
    apply (recover_continuation_settles _ _ Promise_Promise).
    + by apply (step_wf (ORecover l name [] f) s).
    + cbn -[lookup insert]. by repeat lookup_step.
    + by repeat split.
    + eapply outcome_of_evolves, Ho. by apply (alloc_evolves Promise_Promise).
Qed.

(** A timeout and a completion race for the latch of [Future::after]: if the
    timer expires first the continuation decides the returned future and a later
    completion changes nothing; if the future completes first the timer is
    cancelled, the continuation is never called, and the returned future gets
    the future's value.  No [CHECK] fails either way. *)
Theorem after_race s l v dur name w :
  wf_store s -> heap s !! l = Some Promise_Promise -> fatal s = None ->
  let p := S (next s) in
  let timer := S (S (next s)) in
  let setup := OAfter l dur name [] (fun _ => ReturnsValue w) in
  let expired := execute [setup; OTimerFires timer; OFutureSet l v] s in
  let completed := execute [setup; OFutureSet l v; OTimerFires timer] s in
  (settled expired p READY (RSome w) /\ fatal expired = None /\
   log expired = log s ++ [TimerCreated timer dur; Called name (AFut l)]) /\
  (settled completed p READY (RSome v) /\ fatal completed = None /\
   log completed = log s ++ [TimerCreated timer dur; TimerCancelled timer]).
Proof.
  intros [Hn Hd] Hl Hf p timer setup expired completed.
  assert (l < next s) by eauto. unfold expired, completed, setup, timer, p.
  split; split_and!; exec; try done; try settle.
  all: simpl; by rewrite <- !app_assoc.
Qed.

(** [select] returns the first future that becomes ready: with two pending
    futures, completing the second with a failure leaves the result pending,
    and setting the first then makes the result ready with that future, which
    a later discard request does not change. *)
Theorem select_first_ready s l1 l2 v m :
  wf_store s -> l1 <> l2 ->
  heap s !! l1 = Some Promise_Promise -> heap s !! l2 = Some Promise_Promise ->
  let p := next s in
  let failed := execute [OSelect [l1; l2]; OFutureFail l2 m] s in
  let ready := execute [OSelect [l1; l2]; OFutureFail l2 m; OFutureSet l1 v;
                        OFutureDiscard p] s in
  settled failed p PENDING RNone /\ settled ready p READY (RSome (VFuture l1)).
Proof.
  intros [Hn Hd] Hne H1 H2 p failed ready. unfold failed, ready, p.
  assert (l1 < next s) by eauto. assert (l2 < next s) by eauto.
  split; exec; settle.
Qed.

(** Concrete instances of the properties of futures: small stores on which
    their hypotheses hold. *)

(** A store with [n] fresh promises at the locations [0 .. n-1]. *)
Fixpoint promises (n : nat) : store :=
  match n with
  | O => empty_store
  | S n => (alloc Promise_Promise (promises n)).2
  end.

Lemma promises_wf n : wf_store (promises n).
Proof.
  induction n as [|n IH]; [exact wf_empty|].
  eapply change_wf; [|exact IH]. apply alloc_change, wf_Promise.
Qed.

(** One promise, already set to [v]. *)
Definition ready_store (v : val) : store := execute [OFutureSet 0 v] (promises 1).

Lemma ready_store_wf v : wf_store (ready_store v).
Proof. apply execute_wf, promises_wf. Qed.

Lemma completed_stable_witness :
  settled (execute [OFutureFail 0 "late"; OFutureDiscard 0] (ready_store VNothing))
    0 READY (RSome VNothing).
Proof.
  apply (completed_stable (ready_store VNothing)
    [[OFutureFail 0 "late"; OFutureDiscard 0]] _ [[]] 0
    (Data_clearAllCallbacks (Future_value VNothing))).
  - apply ready_store_wf.
  - apply execute_csteps.
  - reflexivity.
  - discriminate.
Defined.

Lemma result_matches_state_witness :
  match state (Future_value VNothing) with
  | PENDING | DISCARDED => result (Future_value VNothing) = RNone
  | READY => exists v, result (Future_value VNothing) = RSome v
  | FAILED => exists m, result (Future_value VNothing) = RError m
  end.
Proof.
  apply (result_matches_state
    [[OUndiscardable 7; OAssociateReturned 0 (ReturnsValue VNothing)]]
    (execute [OUndiscardable 7; OAssociateReturned 0 (ReturnsValue VNothing)]
       empty_store) [[]] 1).
  - apply execute_csteps.
  - reflexivity.
Defined.

Lemma callback_at_most_once_witness :
  calls 9 (log (execute [OOnReady 0 (User 9 []); OFutureSet 0 VNothing;
                         OFutureSet 0 VNothing] (promises 1))) <= 1.
Proof.
  apply (callback_at_most_once 9 (promises 1)
    [[OOnReady 0 (User 9 []); OFutureSet 0 VNothing; OFutureSet 0 VNothing]]
    _ [[]]).
  - vm_compute. lia.
  - apply execute_csteps.
Defined.

Lemma set_runs_callbacks_in_order_witness :
  execute [OFutureSet 0 VNothing] (promises 1) =
  execute [OClear 0]
    (run_callbacks [] (AFut 0) (run_callbacks [] (AVal VNothing)
       (put 0 (complete READY (RSome VNothing) Promise_Promise) (promises 1)))).
Proof.
  apply (set_runs_callbacks_in_order 0 Promise_Promise VNothing (promises 1));
    reflexivity.
Defined.

Lemma set_log_witness :
  log (execute [OFutureSet 0 (VInt 5)]
    (execute [OOnReady 0 (User 1 []); OOnAny 0 (User 3 []); OOnReady 0 (User 2 [])]
       (promises 1))) =
  [Called 1 (AVal (VInt 5)); Called 2 (AVal (VInt 5)); Called 3 (AFut 0)].
Proof.
  apply (set_log 0 (set_onReady [User 1 []; User 2 []]
    (set_onAny [User 3 []] Promise_Promise)) (VInt 5) [1; 2] [3]); reflexivity.
Defined.

Lemma then_refines_outcome_witness :
  settled (execute [OThenf 0 4 [] (fun v => ReturnsValue (VList [v]))]
    (ready_store (VInt 1))) 1 READY (RSome (VList [VInt 1])).
Proof.
  apply (then_refines_outcome (ready_store (VInt 1)) 0
    (Data_clearAllCallbacks (Future_value (VInt 1)))).
  - apply ready_store_wf.
  - reflexivity.
  - reflexivity.
Defined.

Lemma then_timing_irrelevant_witness :
  settled (execute [OThenf 0 4 [] (fun v => ReturnsFailure "no");
                    OFutureSet 0 VNothing] (promises 1)) 1 FAILED (RError "no") /\
  settled (execute [OFutureSet 0 VNothing;
                    OThenf 0 4 [] (fun v => ReturnsFailure "no")] (promises 1))
    1 FAILED (RError "no").
Proof.
  apply (then_timing_irrelevant (promises 1) 0 VNothing 4
    (fun _ => ReturnsFailure "no") FAILED (RError "no")).
  - apply promises_wf.
  - reflexivity.
  - reflexivity.
Defined.

Lemma then_enforces_discard_witness :
  settled (execute [OFutureSet 0 VNothing]
    (execute [OThenf 0 4 [] ReturnsValue; OFutureDiscard 1] (promises 1)))
    1 DISCARDED RNone.
Proof.
  apply (then_enforces_discard (promises 1) 0 VNothing 4 ReturnsValue).
  - apply promises_wf.
  - reflexivity.
Defined.

Lemma undiscardable_blocks_discard_witness :
  at_ (execute [OFutureDiscard 1] (execute [OUndiscardable 0] (promises 1))) 0
    (fun d' => discard d' = false).
Proof.
  apply (undiscardable_blocks_discard (promises 1) 0 Promise_Promise).
  - apply promises_wf.
  - reflexivity.
  - reflexivity.
Defined.

Lemma association_chain_witness :
  Forall (fun q => settled (execute (associate_all [2; 0; 1] ++
    [OFutureSet 2 (VInt 7)]) (promises 3)) q READY (RSome (VInt 7))) [2; 0; 1].
Proof.
  apply (association_chain (promises 3) 2 [0; 1] (VInt 7) "").
  - apply promises_wf.
  - repeat constructor; set_solver.
  - intros q Hq. assert (q = 2 \/ q = 0 \/ q = 1) as [->|[->| ->]] by set_solver;
      reflexivity.
Defined.

Lemma associated_promise_is_inert_witness :
  let s := put 0 (set_associated Promise_Promise) (promises 1) in
  execute [OPromiseSet 0 VNothing] s = s.
Proof.
  exact (proj1 (associated_promise_is_inert
    (put 0 (set_associated Promise_Promise) (promises 1)) 0
    (set_associated Promise_Promise) VNothing "" eq_refl eq_refl)).
Defined.

Lemma recover_refines_outcome_witness :
  settled (execute [ORecover 0 4 [] (fun _ => ReturnsValue (VInt 3))]
    (execute [OFutureFail 0 "boom"] (promises 1))) 1 READY (RSome (VInt 3)).
Proof.
  apply (recover_refines_outcome (execute [OFutureFail 0 "boom"] (promises 1)) 0
    (Data_clearAllCallbacks (Future_failure "boom")) 4 (fun _ => ReturnsValue (VInt 3))).
  - apply execute_wf, promises_wf.
  - reflexivity.
  - reflexivity.
  - reflexivity.
Defined.

Lemma after_race_witness :
  settled (execute [OAfter 0 10 4 [] (fun _ => ReturnsValue (VInt 3));
                    OTimerFires 3; OFutureSet 0 VNothing] (promises 1))
    2 READY (RSome (VInt 3)).
Proof.
  apply (after_race (promises 1) 0 VNothing 10 4 (VInt 3)).
  - apply promises_wf.
  - reflexivity.
  - reflexivity.
Defined.

Lemma select_first_ready_witness :
  settled (execute [OSelect [0; 1]; OFutureFail 1 "x"; OFutureSet 0 VNothing;
                    OFutureDiscard 2] (promises 2)) 2 READY (RSome (VFuture 0)).
Proof.
  apply (select_first_ready (promises 2) 0 1 VNothing "x").
  - apply promises_wf.
  - discriminate.
  - reflexivity.
  - reflexivity.
Defined.
