(* ===== verification/Locks.v ===== *)
(** Asynchronous locks: [mutex.hpp] and [rwlock.hpp].

    A lock keeps promises of waiters; acquiring either grants at once (the
    returned future is ready) or enqueues a fresh promise.  Each operation is
    the critical section under [data->lock]; the promises it satisfies after
    the critical section are returned as operations on futures. *)

From S2P Require Import Prelude Futures.

Module Mutex.

(** [Mutex::Data]: [locked] and the queue of waiters. *)
Record Mutex := mkMutex { locked : bool; waiters : list nat }.

Definition Mutex_init : Mutex := mkMutex false [].

(** [Mutex::lock]: [p] is the promise created for a waiter; the result says
    whether the returned future is ready at once. *)
Definition lock (p : nat) (m : Mutex) : Mutex * bool :=
  if negb (locked m) then (mkMutex true (waiters m), true)
  else (mkMutex (locked m) (waiters m ++ [p]), false).

(** [Mutex::unlock]: the front waiter, if any, is set outside the critical
    section. *)
Definition unlock (m : Mutex) : Mutex * list op :=
  match waiters m with
  | p :: ps => (mkMutex (locked m) ps, [OPromiseSet p VNothing])
  | [] => (mkMutex false [], [])
  end.

(** Executions: requests carry the promise made for them; [granted] lists the
    requests that own or owned the lock, in the order of the grants. *)
Inductive request := Lock (p : nat) | Unlock.

Record trace := mkTrace {
  mutex : Mutex;
  requested : list nat;
  granted : list nat;
  released : nat;
}.

Definition start : trace := mkTrace Mutex_init [] [] 0.

(** The requests whose promises the operations complete. *)
Definition satisfied (ops : list op) : list nat :=
  flat_map (fun o => match o with OPromiseSet p _ => [p] | _ => [] end) ops.

Definition perform (t : trace) (r : request) : trace :=
  match r with
  | Lock p =>
      let '(m, now) := lock p (mutex t) in
      mkTrace m (requested t ++ [p])
        (if now : bool then granted t ++ [p] else granted t) (released t)
  | Unlock =>
      let '(m, ops) := unlock (mutex t) in
      mkTrace m (requested t) (granted t ++ satisfied ops) (S (released t))
  end.

(** Only the owner unlocks. *)
Definition allowed (t : trace) (r : request) : bool :=
  match r with Lock _ => true | Unlock => locked (mutex t) end.

Fixpoint disciplined (t : trace) (rs : list request) : bool :=
  match rs with
  | [] => true
  | r :: rs => allowed t r && disciplined (perform t r) rs
  end.

Definition execution (rs : list request) : trace := foldl perform start rs.

(** Grants happen in request order, and the number of grants not yet released
    is one when the mutex is locked and zero otherwise. *)
Definition inv (t : trace) : Prop :=
  requested t = granted t ++ waiters (mutex t) /\
  length (granted t) = released t + (if locked (mutex t) then 1 else 0) /\
  (locked (mutex t) = false -> waiters (mutex t) = []).

Lemma inv_start : inv start.
Proof. by repeat split. Qed.

Lemma mutex_perform_inv t r : inv t -> allowed t r = true -> inv (perform t r).
Proof.
  destruct t as [[[] ws] req gr rel]; unfold inv, perform, lock, unlock; simpl;
    intros (Hq & Hc & Hw) Ha; destruct r as [p|]; simpl in *; try done.
  - split_and!; [|lia|done]. by rewrite Hq, app_assoc.
  - destruct ws as [|p ws]; simpl.
    + rewrite !app_nil_r in *. split_and!; [done|lia|done].
    + rewrite length_app; simpl. split_and!; [|lia|done].
      by rewrite Hq, <- app_assoc.
  - rewrite Hw in * by done. rewrite !app_nil_r in *. rewrite length_app; simpl.
    split_and!; [by rewrite Hq|lia|done].
Qed.

Lemma execution_inv rs t :
  inv t -> disciplined t rs = true -> inv (foldl perform t rs).
Proof.
  revert t. induction rs as [|r rs IH]; intros t Ht; simpl; [done|].
  intros [Ha Hd]%andb_true_iff. apply IH; [by apply mutex_perform_inv|done].
Qed.

(** [Mutex] is a FIFO mutual-exclusion lock: in every execution in which
    only the owner unlocks, at most one grant is outstanding, it is outstanding
    exactly when the mutex is locked, grants happen in request order, and nobody
    waits for an unlocked mutex. *)
Theorem mutex_exclusion_fifo rs :
  disciplined start rs = true ->
  let t := execution rs in
  length (granted t) - released t <= 1 /\
  (locked (mutex t) = true <-> length (granted t) = S (released t)) /\
  requested t = granted t ++ waiters (mutex t) /\
  (waiters (mutex t) <> [] -> locked (mutex t) = true).
Proof.
  intros Hd t. destruct (execution_inv rs start inv_start Hd) as (Hq & Hc & Hw).
  fold (execution rs) in *. fold t in Hq, Hc, Hw.
  destruct (locked (mutex t)) eqn:E; split_and!; try lia; try done.
  all: naive_solver lia.
Qed.

Lemma mutex_exclusion_fifo_witness :
  requested (execution [Lock 4; Lock 7; Unlock; Lock 5]) =
  granted (execution [Lock 4; Lock 7; Unlock; Lock 5]) ++ [5].
Proof. apply (mutex_exclusion_fifo [Lock 4; Lock 7; Unlock; Lock 5]). reflexivity. Defined.

End Mutex.

Module ReadWriteLock.

Inductive type := READ | WRITE.
Record Waiter := mkWaiter { kind : type; promise : nat }.

(** [ReadWriteLock::Data]. *)
Record ReadWriteLock := mkLock {
  read_locked : nat;
  write_locked : bool;
  waiters : list Waiter;
}.

Definition ReadWriteLock_init : ReadWriteLock := mkLock 0 false [].

Definition is_read (w : Waiter) : bool :=
  match kind w with READ => true | WRITE => false end.

(** [write_lock] and [read_lock]. *)
Definition write_lock (p : nat) (l : ReadWriteLock) : ReadWriteLock * bool :=
  if negb (write_locked l) && (read_locked l =? 0) then
    (mkLock (read_locked l) true (waiters l), true)
  else (mkLock (read_locked l) (write_locked l)
          (waiters l ++ [mkWaiter WRITE p]), false).

Definition read_lock (p : nat) (l : ReadWriteLock) : ReadWriteLock * bool :=
  if negb (write_locked l) && bool_decide (waiters l = []) then
    (mkLock (S (read_locked l)) (write_locked l) (waiters l), true)
  else (mkLock (read_locked l) (write_locked l)
          (waiters l ++ [mkWaiter READ p]), false).

(** Dequeue the group of readers at the front. *)
Fixpoint dequeue_readers (ws : list Waiter) : list Waiter * list Waiter :=
  match ws with
  | w :: ws' =>
      if is_read w then
        let '(unblocked, rest) := dequeue_readers ws' in (w :: unblocked, rest)
      else ([], ws)
  | [] => ([], [])
  end.

(** Satisfy the unblocked waiters after the critical section. *)
Definition set_waiters (ws : list Waiter) : list op :=
  map (fun w => OPromiseSet (promise w) VNothing) ws.

Definition write_unlock (l : ReadWriteLock) : checked (ReadWriteLock * list op) :=
  if negb (write_locked l) then Abort "CHECK(data->write_locked)"
  else if negb (read_locked l =? 0) then Abort "CHECK_EQ(data->read_locked, 0u)"
  else match waiters l with
       | [] => Returns (mkLock (read_locked l) false [], [])
       | w :: ws =>
           match kind w with
           | READ =>
               let '(unblocked, rest) := dequeue_readers (waiters l) in
               Returns (mkLock (length unblocked) false rest,
                        set_waiters unblocked)
           | WRITE =>
               Returns (mkLock (read_locked l) true ws, set_waiters [w])
           end
       end.

Definition read_unlock (l : ReadWriteLock) : checked (ReadWriteLock * list op) :=
  if write_locked l then Abort "CHECK(!data->write_locked)"
  else match read_locked l with
       | O => Abort "CHECK_GT(data->read_locked, 0u)"
       | S n =>
           match n, waiters l with
           | O, w :: ws =>
               if is_read w then
                 Abort "CHECK_EQ(data->waiters.front().type, Waiter::WRITE)"
               else Returns (mkLock 0 true ws, set_waiters [w])
           | _, _ => Returns (mkLock n (write_locked l) (waiters l), [])
           end
       end.

(** ** Executions *)

(** A request for the lock, with the promise of its future, or the release of what
    the request with that promise was granted. *)
Inductive request :=
| WriteLock (p : nat) | WriteUnlock (p : nat) | ReadLock (p : nat) | ReadUnlock (p : nat).

(** The lock with its clients: who asked for what, what was granted, and who holds it
    for reading and for writing. *)
Record trace := mkTrace {
  rwlock : ReadWriteLock;
  requested : list Waiter;
  granted : list Waiter;
  readers : list nat;
  writers : list nat;
}.

Definition start : trace := mkTrace ReadWriteLock_init [] [] [] [].

Definition reads (ws : list Waiter) : list nat := map promise (filter (fun w => is_read w = true) ws).
Definition writes (ws : list Waiter) : list nat := map promise (filter (fun w => is_read w = false) ws).

(** Futures that are ready: their clients hold what they asked for. *)
Definition grant (ws : list Waiter) (l : ReadWriteLock) (req : list Waiter) (t : trace) : trace :=
  mkTrace l req (granted t ++ ws) (readers t ++ reads ws) (writers t ++ writes ws).

Definition satisfied (ops : list op) : list nat :=
  flat_map (fun o => match o with OPromiseSet p _ => [p] | _ => [] end) ops.

Definition acquire (t : trace) (w : Waiter) (r : ReadWriteLock * bool) : trace :=
  grant (if r.2 then [w] else []) r.1 (requested t ++ [w]) t.

(** The waiters whose promises were set. *)
Definition release (t : trace) (c : checked (ReadWriteLock * list op)) : checked trace :=
  match c with
  | Returns (l, ops) =>
      Returns (grant (filter (fun w => promise w ∈ satisfied ops) (waiters (rwlock t))) l (requested t) t)
  | Abort m => Abort m
  end.

Fixpoint remove_one (p : nat) (l : list nat) : list nat :=
  match l with
  | [] => []
  | q :: l => if decide (p = q) then l else q :: remove_one p l
  end.

Definition leave_read (p : nat) (t : trace) : trace :=
  mkTrace (rwlock t) (requested t) (granted t) (remove_one p (readers t)) (writers t).
Definition leave_write (p : nat) (t : trace) : trace :=
  mkTrace (rwlock t) (requested t) (granted t) (readers t) (remove_one p (writers t)).

Definition perform (t : trace) (r : request) : checked trace :=
  match r with
  | WriteLock p => Returns (acquire t (mkWaiter WRITE p) (write_lock p (rwlock t)))
  | ReadLock p => Returns (acquire t (mkWaiter READ p) (read_lock p (rwlock t)))
  | WriteUnlock p => release (leave_write p t) (write_unlock (rwlock t))
  | ReadUnlock p => release (leave_read p t) (read_unlock (rwlock t))
  end.

(** Every request has a promise of its own, and clients release what they hold: a
    writer unlocks for writing, a reader for reading. *)
Definition allowed (t : trace) (r : request) : Prop :=
  match r with
  | WriteLock p | ReadLock p => p ∉ map promise (requested t)
  | WriteUnlock p => p ∈ writers t
  | ReadUnlock p => p ∈ readers t
  end.

Inductive reachable : trace -> Prop :=
| reachable_start : reachable start
| reachable_perform t r t' :
    reachable t -> allowed t r -> perform t r = Returns t' -> reachable t'.

(** The counters say who holds the lock; the states are those of the comment in
    [Data]: unlocked, read locked with at most a writer waiting first, or write
    locked. *)
Record inv (t : trace) : Prop := {
  in_readers : read_locked (rwlock t) = length (readers t);
  in_writers : length (writers t) = if write_locked (rwlock t) then 1 else 0;
  in_exclusive : write_locked (rwlock t) = true -> readers t = [];
  in_waiters : waiters (rwlock t) <> [] -> write_locked (rwlock t) = true \/ readers t <> [];
  in_first : readers t <> [] -> forall w ws, waiters (rwlock t) = w :: ws -> is_read w = false;
  in_order : requested t = granted t ++ waiters (rwlock t);
  in_fresh : NoDup (map promise (requested t));
}.

Lemma remove_one_length p l : p ∈ l -> length l = S (length (remove_one p l)).
Proof.
  induction l as [|q l IH]; simpl; intros Hp; [by apply not_elem_of_nil in Hp|].
  destruct (decide (p = q)); [done|]. apply elem_of_cons in Hp as [?|Hp]; [done|].
  simpl. by rewrite (IH Hp).
Qed.

(** The promises that are set are those of the waiters that were dequeued. *)
Lemma filter_dequeued u rest :
  NoDup (map promise (u ++ rest)) ->
  filter (fun w => promise w ∈ map promise u) (u ++ rest) = u.
Proof.
  rewrite map_app, filter_app. intros (_ & Hd & _)%NoDup_app.
  rewrite (filter_all _ u), (filter_none _ rest), ?app_nil_r; [done| |].
  - apply Forall_forall. intros w Hw Hin. apply (Hd _ Hin). by apply list_elem_of_fmap_2.
  - apply Forall_forall. intros w Hw. by apply list_elem_of_fmap_2.
Qed.

Lemma dequeue_readers_split ws :
  let '(u, rest) := dequeue_readers ws in
  ws = u ++ rest /\ Forall (fun w => is_read w = true) u /\
  (forall w ws', rest = w :: ws' -> is_read w = false).
Proof.
  induction ws as [|w ws IH]; simpl; [done|].
  destruct (is_read w) eqn:Hw.
  - destruct (dequeue_readers ws) as [u rest]. destruct IH as (-> & Hu & Hr).
    split_and!; [done|by constructor|done].
  - split_and!; [done|done|]. intros w' ws' [= <- <-]. done.
Qed.

Lemma satisfied_set ws : satisfied (set_waiters ws) = map promise ws.
Proof. induction ws as [|w ws IH]; simpl; [done|]. by rewrite <- IH. Qed.

(** A request that is granted at once, and one that waits. *)
Lemma acquire_granted t w l :
  inv t -> promise w ∉ map promise (requested t) -> waiters l = [] -> waiters (rwlock t) = [] ->
  write_locked (rwlock t) = false -> (is_read w = false -> readers t = []) ->
  read_locked l = read_locked (rwlock t) + (if is_read w then 1 else 0) ->
  write_locked l = negb (is_read w) ->
  inv (acquire t w (l, true)).
Proof.
  intros [] Hp Hl Hw Hwr Hrd Hr Hwl. rewrite Hw, app_nil_r, Hwr in *.
  unfold acquire, grant. split; simpl; rewrite ?Hl, ?Hr, ?Hwl; try done.
  - rewrite in_readers0, length_app. unfold reads. rewrite filter_cons. by destruct (is_read w).
  - rewrite length_app, in_writers0. unfold writes. rewrite filter_cons. by destruct (is_read w).
  - unfold reads. rewrite filter_cons. destruct (is_read w); [done|]. intros _. by rewrite Hrd.
  - by rewrite app_nil_r, in_order0.
  - rewrite map_app. apply NoDup_app. split_and!; [done| |apply NoDup_singleton].
    intros x Hx ->%list_elem_of_singleton. done.
Qed.

Lemma acquire_waits t w l :
  inv t -> promise w ∉ map promise (requested t) ->
  l = mkLock (read_locked (rwlock t)) (write_locked (rwlock t)) (waiters (rwlock t) ++ [w]) ->
  write_locked (rwlock t) = true \/ readers t <> [] ->
  (is_read w = true -> write_locked (rwlock t) = true \/ waiters (rwlock t) <> []) ->
  inv (acquire t w (l, false)).
Proof.
  intros [] Hp -> Hh Hw. unfold acquire, grant, reads, writes. split; simpl; rewrite ?app_nil_r; try done.
  - intros Hr w0 ws He. destruct (waiters (rwlock t)) as [|w1 ws1]; simplify_eq/=; [|eauto].
    destruct (is_read w0); [|done]. destruct Hw as [Hw|Hw]; [done| |done].
    by rewrite in_exclusive0 in Hr.
  - by rewrite in_order0, app_assoc.
  - rewrite map_app. apply NoDup_app. split_and!; [done| |apply NoDup_singleton].
    intros x Hx ->%list_elem_of_singleton. done.
Qed.

Lemma write_lock_inv t p :
  inv t -> p ∉ map promise (requested t) ->
  inv (acquire t (mkWaiter WRITE p) (write_lock p (rwlock t))).
Proof.
  intros Hi Hp. pose proof Hi as []. unfold write_lock.
  destruct (negb _ && _) eqn:E; bool_cases.
  - assert (Hrd : readers t = []).
    { destruct (readers t); [done|]. simpl in *. lia. }
    assert (Hw : waiters (rwlock t) = []).
    { destruct (waiters (rwlock t)); [done|]. destruct in_waiters0; congruence. }
    apply acquire_granted; simpl; auto.
  - apply acquire_waits; auto. apply andb_false_iff in E as [E|E]; bool_cases; [by left|].
    right. intros Hrd. rewrite Hrd in in_readers0. done.
Qed.

Lemma read_lock_inv t p :
  inv t -> p ∉ map promise (requested t) ->
  inv (acquire t (mkWaiter READ p) (read_lock p (rwlock t))).
Proof.
  intros Hi Hp. pose proof Hi as []. unfold read_lock.
  destruct (negb _ && _) eqn:E; bool_cases.
  - apply acquire_granted; simpl; auto; try done; lia.
  - apply andb_false_iff in E as [E|E]; bool_cases; (apply acquire_waits; auto).
Qed.

Lemma reads_all u : Forall (fun w => is_read w = true) u -> reads u = map promise u /\ writes u = [].
Proof.
  induction 1 as [|w u Hw _ [IH1 IH2]]; [done|]. unfold reads, writes in *.
  rewrite !filter_cons. rewrite Hw; simpl. by rewrite IH1, IH2.
Qed.

(** Waiters are dequeued from the front. *)
Lemma release_dequeues t l u rest :
  NoDup (map promise (requested t)) -> requested t = granted t ++ waiters (rwlock t) ->
  waiters (rwlock t) = u ++ rest ->
  release t (Returns (l, set_waiters u)) = Returns (grant u l (requested t) t).
Proof.
  intros Hn Ho Hw. unfold release. rewrite satisfied_set, Hw, filter_dequeued; [done|].
  rewrite Ho, map_app, Hw in Hn. by apply NoDup_app in Hn as (_ & _ & ?).
Qed.

Lemma write_unlock_inv t p :
  inv t -> p ∈ writers t ->
  exists t', release (leave_write p t) (write_unlock (rwlock t)) = Returns t' /\ inv t'.
Proof.
  intros [] Hp. pose proof (remove_one_length p _ Hp) as Hlen.
  destruct (write_locked (rwlock t)) eqn:Hwr; [|lia]. specialize (in_exclusive0 eq_refl).
  rewrite in_exclusive0 in *. simpl in in_readers0.
  assert (Hnil : remove_one p (writers t) = []) by (destruct (remove_one _ _); [done|simpl in *; lia]).
  unfold write_unlock. rewrite Hwr, in_readers0. simpl.
  destruct (waiters (rwlock t)) as [|[k q] ws] eqn:Hws.
  - eexists; split; [apply (release_dequeues (leave_write p t) _ [] []); simpl; by rewrite ?Hws|].
    split; simpl; rewrite ?Hnil, ?in_exclusive0; try done. by rewrite in_order0, !app_nil_r.
  - destruct k; simpl.
    + pose proof (dequeue_readers_split ws) as Hs.
      destruct (dequeue_readers ws) as [u rest]. destruct Hs as (-> & Hu & Hr).
      eexists; split; [apply (release_dequeues (leave_write p t) _ (mkWaiter READ q :: u) rest);
        [done|simpl; by rewrite Hws|simpl; by rewrite Hws]|].
      destruct (reads_all (mkWaiter READ q :: u)) as [E1 E2]; [by constructor|].
      split; simpl; rewrite ?Hnil, ?in_exclusive0, ?E1, ?E2; simpl; try done.
      * by rewrite length_map.
      * by right.
      * by rewrite in_order0, <- app_assoc.
    + eexists; split; [apply (release_dequeues (leave_write p t) _ [mkWaiter WRITE q] ws);
        [done|simpl; by rewrite Hws|simpl; by rewrite Hws]|].
      split; simpl; rewrite ?Hnil, ?in_exclusive0; try done; [by left|].
      by rewrite in_order0, <- app_assoc.
Qed.

Lemma read_unlock_inv t p :
  inv t -> p ∈ readers t ->
  exists t', release (leave_read p t) (read_unlock (rwlock t)) = Returns t' /\ inv t'.
Proof.
  intros [] Hp. pose proof (remove_one_length p _ Hp) as Hlen.
  assert (Hne : readers t <> []) by (intros E; rewrite E in Hp; by apply not_elem_of_nil in Hp).
  destruct (write_locked (rwlock t)) eqn:Hwr; [by rewrite in_exclusive0 in Hne|].
  assert (Hwn : writers t = []) by (destruct (writers t); done).
  unfold read_unlock. rewrite Hwr, in_readers0, Hlen.
  destruct (remove_one p (readers t)) as [|x l] eqn:Hl; simpl.
  - destruct (waiters (rwlock t)) as [|w ws] eqn:Hws.
    + eexists; split; [apply (release_dequeues (leave_read p t) _ [] []); simpl; by rewrite ?Hws|].
      split; simpl; rewrite ?Hl, ?Hwn; try done. by rewrite in_order0, !app_nil_r.
    + rewrite (in_first0 Hne w ws eq_refl).
      eexists; split; [apply (release_dequeues (leave_read p t) _ [w] ws);
        [done|simpl; by rewrite Hws|simpl; by rewrite Hws]|].
      pose proof (in_first0 Hne w ws eq_refl) as Hw.
      split; simpl; rewrite ?Hl, ?Hwn; unfold reads, writes; rewrite ?filter_cons, ?Hw; simpl; try done.
      * by left.
      * by rewrite in_order0, <- app_assoc.
  - eexists; split; [by apply (release_dequeues (leave_read p t) _ [] (waiters (rwlock t)))|].
    split; simpl; rewrite ?Hl, ?Hwn, ?app_nil_r; try done.
    + by right.
    + intros _. by apply in_first0.
Qed.

Lemma rw_perform_inv t r :
  inv t -> allowed t r -> exists t', perform t r = Returns t' /\ inv t'.
Proof.
  intros Hi Ha. destruct r as [p|p|p|p]; simpl in *.
  - eexists; split; [done|]. by apply write_lock_inv.
  - by apply write_unlock_inv.
  - eexists; split; [done|]. by apply read_lock_inv.
  - by apply read_unlock_inv.
Qed.

Lemma rw_reachable_inv t : reachable t -> inv t.
Proof.
  induction 1 as [|t r t' Hr IH Ha Hp]; [by split; try apply NoDup_nil_2|].
  destruct (rw_perform_inv t r IH Ha) as (t2 & Hp2 & Hi). congruence.
Qed.

(** C12: [ReadWriteLock] allows concurrent reads and exclusive writes, and no
    [CHECK] in it fails: in every state reachable by clients that release only what
    they hold, the counters are the numbers of clients that hold the lock for reading
    and for writing, there is at most one writer and then no reader, nobody waits for
    a free lock, while there are readers the first waiter is a writer (so writers do
    not starve), requests are granted in the order they were made, and every allowed
    request is performed without aborting. *)
Theorem rwlock_safe t r :
  reachable t -> allowed t r ->
  read_locked (rwlock t) = length (readers t) /\
  length (writers t) = (if write_locked (rwlock t) then 1 else 0) /\
  (writers t <> [] -> readers t = []) /\
  (waiters (rwlock t) <> [] -> writers t <> [] \/ readers t <> []) /\
  (readers t <> [] -> forall w ws, waiters (rwlock t) = w :: ws -> kind w = WRITE) /\
  requested t = granted t ++ waiters (rwlock t) /\
  exists t', perform t r = Returns t'.
Proof.
  intros Hr Ha. pose proof (rw_reachable_inv t Hr) as Hi.
  destruct (rw_perform_inv t r Hi Ha) as (t' & Hp & _). destruct Hi.
  split_and!; eauto.
  - intros Hw. apply in_exclusive0. destruct (write_locked (rwlock t)); [done|].
    by destruct (writers t).
  - intros Hw. destruct (in_waiters0 Hw) as [Hl|?]; [left|by right].
    rewrite Hl in in_writers0. by destruct (writers t).
  - intros Hrd w ws Hw. specialize (in_first0 Hrd w ws Hw).
    unfold is_read in in_first0. by destruct (kind w).
Qed.

(** A reader, a writer that waits and a reader that waits behind it: the reader
    releases the lock. *)
Definition queued : trace :=
  mkTrace (mkLock 1 false [mkWaiter WRITE 2; mkWaiter READ 3])
    [mkWaiter READ 1; mkWaiter WRITE 2; mkWaiter READ 3] [mkWaiter READ 1] [1] [].

Lemma rwlock_safe_witness :
  read_locked (rwlock queued) = length (readers queued) /\
  exists t', perform queued (ReadUnlock 1) = Returns t'.
Proof.
  assert (Hr : reachable queued).
  { apply (reachable_perform
      (mkTrace (mkLock 1 false [mkWaiter WRITE 2]) [mkWaiter READ 1; mkWaiter WRITE 2]
         [mkWaiter READ 1] [1] []) (ReadLock 3)); [|simpl; set_solver|reflexivity].
    apply (reachable_perform (mkTrace (mkLock 1 false []) [mkWaiter READ 1] [mkWaiter READ 1] [1] [])
      (WriteLock 2)); [|simpl; set_solver|reflexivity].
    apply (reachable_perform start (ReadLock 1)); [|simpl; set_solver|reflexivity].
    apply reachable_start. }
  destruct (rwlock_safe queued (ReadUnlock 1) Hr) as (H1 & _ & _ & _ & _ & _ & H2);
    [simpl; set_solver|by split].
Defined.

End ReadWriteLock.
