(* ===== verification/Sync.v ===== *)
(** Queues, latches and one-time initialisation: [queue.hpp], [count_down_latch.hpp]
    and [once.hpp]. *)

From S2P Require Import Prelude Futures.

Module Queue.

(** [Queue<T>::Data]. *)
Record Queue := mkQueue { promises : list nat; elements : list val }.

Definition Queue_init : Queue := mkQueue [] [].

(** [Queue::put]: the element is stored, or given to the first waiter after the
    critical section. *)
Definition put (t : val) (q : Queue) : Queue * list op :=
  match promises q with
  | [] => (mkQueue [] (elements q ++ [t]), [])
  | p :: ps => (mkQueue ps (elements q), [OPromiseSet p t])
  end.

(** [Queue::get]: the value of the returned future when an element was
    available; otherwise the fresh promise [p] waits. *)
Definition get (p : nat) (q : Queue) : Queue * option val :=
  match elements q with
  | [] => (mkQueue (promises q ++ [p]) [], None)
  | t :: ts => (mkQueue (promises q) ts, Some t)
  end.

(** The [onDiscard] handler: the promise of the discarded future, if it still
    waits, is discarded and removed. *)
Fixpoint remove_first (p : nat) (ps : list nat) : list nat :=
  match ps with
  | [] => []
  | p' :: ps => if decide (p' = p) then ps else p' :: remove_first p ps
  end.

Definition on_discard (p : nat) (q : Queue) : Queue * list op :=
  if bool_decide (p ∈ promises q) then
    (mkQueue (remove_first p (promises q)) (elements q), [OPromiseDiscard p])
  else (q, []).

Definition size (q : Queue) : nat := length (elements q).

(** ** Executions *)

Inductive request := Put (t : val) | Get (p : nat) | Discard (p : nat).

(** [inputs]: the elements put; [asked]: the getters that did not give up;
    [delivered]: who got what, in the order of delivery. *)
Record trace := mkTrace {
  queue : Queue;
  inputs : list val;
  asked : list nat;
  delivered : list (nat * val);
}.

Definition start : trace := mkTrace Queue_init [] [] [].

Definition deliveries (ops : list op) : list (nat * val) :=
  flat_map (fun o => match o with OPromiseSet p v => [(p, v)] | _ => [] end) ops.

Definition perform (t : trace) (r : request) : trace :=
  match r with
  | Put v =>
      let '(q, ops) := put v (queue t) in
      mkTrace q (inputs t ++ [v]) (asked t) (delivered t ++ deliveries ops)
  | Get p =>
      match get p (queue t) with
      | (q, Some v) =>
          mkTrace q (inputs t) (asked t ++ [p]) (delivered t ++ [(p, v)])
      | (q, None) => mkTrace q (inputs t) (asked t ++ [p]) (delivered t)
      end
  | Discard p =>
      let '(q, ops) := on_discard p (queue t) in
      mkTrace q (inputs t)
        (match ops with [] => asked t | _ => remove_first p (asked t) end)
        (delivered t)
  end.

(** Every [get] makes a fresh promise. *)
Definition fresh (t : trace) (r : request) : Prop :=
  match r with Get p => p ∉ asked t | _ => True end.

Inductive reachable : trace -> Prop :=
| reachable_start : reachable start
| reachable_perform t r :
    reachable t -> fresh t r -> reachable (perform t r).

(** Elements and waiters never coexist; elements leave in the order they came,
    and getters are served in the order they asked. *)
Definition inv (t : trace) : Prop :=
  (promises (queue t) = [] \/ elements (queue t) = []) /\
  inputs t = map snd (delivered t) ++ elements (queue t) /\
  asked t = map fst (delivered t) ++ promises (queue t) /\
  NoDup (asked t).

Lemma remove_first_app p l1 l2 :
  p ∉ l1 -> remove_first p (l1 ++ l2) = l1 ++ remove_first p l2.
Proof.
  induction l1 as [|x l1 IH]; intros Hp; simpl; [done|].
  rewrite decide_False by set_solver. rewrite IH by set_solver. done.
Qed.

Lemma remove_first_sublist p l : remove_first p l `sublist_of` l.
Proof.
  induction l as [|x l IH]; simpl; [done|].
  case_decide; [by apply sublist_cons|by apply sublist_skip].
Qed.

Lemma put_inv t v : inv t -> inv (perform t (Put v)).
Proof.
  destruct t as [[ps es] ins ask del]; unfold inv; simpl.
  intros (Hx & -> & -> & Hn). destruct ps as [|p ps]; simpl in *.
  - rewrite !app_nil_r in *. split_and!; auto. by rewrite app_assoc.
  - destruct Hx as [?| ->]; [done|]. rewrite !map_app, !app_nil_r; simpl.
    split_and!; auto; by rewrite <- app_assoc.
Qed.

Lemma get_inv t p : inv t -> p ∉ asked t -> inv (perform t (Get p)).
Proof.
  destruct t as [[ps es] ins ask del]; unfold inv; simpl.
  intros (Hx & -> & -> & Hn) Hp.
  assert (Hn' : NoDup ((map fst del ++ ps) ++ [p])).
  { apply NoDup_app. split_and!; [done|set_solver|apply NoDup_singleton]. }
  destruct es as [|v es]; simpl in *.
  - rewrite !app_nil_r. split_and!; auto. by rewrite app_assoc.
  - destruct Hx as [->|?]; [|done]. rewrite !map_app, !app_nil_r in *; simpl.
    split_and!; auto. by rewrite <- app_assoc.
Qed.

Lemma discard_inv t p : inv t -> inv (perform t (Discard p)).
Proof.
  destruct t as [[ps es] ins ask del]; unfold inv; simpl.
  intros (Hx & -> & -> & Hn). unfold on_discard; simpl.
  destruct (bool_decide (p ∈ ps)) eqn:E; bool_cases; simpl; [|done].
  assert (Hd : p ∉ map fst del) by (apply NoDup_app in Hn; set_solver).
  rewrite remove_first_app by done. split_and!; auto.
  - destruct Hx as [->| ->]; [by left|by right].
  - eapply sublist_NoDup; [exact Hn|].
    apply sublist_app; [done|apply remove_first_sublist].
Qed.

Lemma queue_reachable_inv t : reachable t -> inv t.
Proof.
  induction 1 as [|t [v|p|p] Hr IH Hf].
  - split_and!; simpl; auto. constructor.
  - by apply put_inv.
  - by apply get_inv.
  - by apply discard_inv.
Qed.

(** [Queue] is a FIFO queue for elements and for getters: what was put is
    what was delivered, in that order, followed by the stored elements; getters
    that did not discard are served in the order they asked, each at most once;
    and an element is never stored while a getter waits. *)
Theorem queue_fifo t :
  reachable t ->
  inputs t = map snd (delivered t) ++ elements (queue t) /\
  asked t = map fst (delivered t) ++ promises (queue t) /\
  NoDup (map fst (delivered t)) /\
  (promises (queue t) <> [] -> size (queue t) = 0).
Proof.
  intros Hr. destruct (queue_reachable_inv t Hr) as (Hx & Hi & Ha & Hn).
  split_and!; [done|done| |].
  - rewrite Ha in Hn. by apply NoDup_app in Hn as [? _].
  - unfold size. destruct Hx as [?| ->]; done.
Qed.

Lemma queue_fifo_witness :
  let t := foldl perform start
    [Get 1; Get 2; Get 3; Discard 2; Put (VInt 10); Put (VInt 20); Put (VInt 30)] in
  inputs t = map snd [(1, VInt 10); (3, VInt 20)] ++ [VInt 30].
Proof.
  intros t. apply (queue_fifo t). unfold t. cbn [foldl].
  repeat (apply (reachable_perform _ (Put _)); [|done]).
  apply (reachable_perform _ (Discard 2)); [|done].
  apply (reachable_perform _ (Get 3)); [|apply not_elem_of_nil || (simpl; set_solver)].
  apply (reachable_perform _ (Get 2)); [|apply not_elem_of_nil || (simpl; set_solver)].
  apply (reachable_perform _ (Get 1)); [|apply not_elem_of_nil || (simpl; set_solver)].
  apply reachable_start.
Defined.

End Queue.

Module CountDownLatch.

(** Threads in [decrement]: before the load, in the loop with [expected], or
    returned. *)
Inductive thread := Enter | Loop (expected : nat) | Return.

(** The counter, and how often the promise was set. *)
Record latch := mkLatch { count : nat; sets : nat }.

(** One atomic access of [CountDownLatch::decrement]: the load, the loop test,
    or the compare-and-exchange (which reloads [expected] when it fails). *)
Definition decrement (t : thread) (l : latch) : latch * thread :=
  match t with
  | Enter => (l, Loop (count l))
  | Loop expected =>
      if 0 <? expected then
        if count l =? expected then
          (mkLatch (expected - 1)
             (if expected =? 1 then S (sets l) else sets l), Return)
        else (l, Loop (count l))
      else (l, Return)
  | Return => (l, Return)
  end.

Inductive step : latch * list thread -> latch * list thread -> Prop :=
| step_thread l ts i t :
    ts !! i = Some t -> t <> Return ->
    step (l, ts) ((decrement t l).1, <[i := (decrement t l).2]> ts).

Lemma decrement_cases t l :
  (decrement t l).1 = l \/
  (0 < count l /\
   (decrement t l).1 =
     mkLatch (count l - 1) (if count l =? 1 then S (sets l) else sets l)).
Proof.
  destruct t as [|e|]; simpl; auto.
  destruct (0 <? e) eqn:E1; [|auto]. destruct (count l =? e) eqn:E2; [|auto].
  bool_cases; subst. right. simpl. split; [lia|done].
Qed.

(** The promise has been set once iff the counter went from [n > 0] to 0. *)
Definition counted (n : nat) (c : latch * list thread) : Prop :=
  count c.1 <= n /\
  sets c.1 = (if (count c.1 =? 0) && (0 <? n) then 1 else 0).

Lemma step_counted n c c' : counted n c -> step c c' -> counted n c'.
Proof.
  intros Hi Hs. revert Hi. destruct Hs as [l1 ts1 i t Ht Hne].
  unfold counted; simpl. intros [Hc Hs].
  destruct (decrement_cases t l1) as [->|[Hp ->]]; [done|]. simpl.
  split; [lia|]. rewrite Hs.
  destruct (count l1 =? 1) eqn:E1, (count l1 =? 0) eqn:E2,
    (count l1 - 1 =? 0) eqn:E3, (0 <? n) eqn:E4; bool_cases; simpl; lia.
Qed.

(** A [CountDownLatch] triggers exactly once, when the counter reaches zero,
    and never goes below zero, however the concurrent compare-and-exchange loops
    of [decrement] interleave. *)
Theorem count_down_triggers_once n ts l ts' :
  steps step (mkLatch n 0, ts) (l, ts') ->
  count l <= n /\ sets l = (if (count l =? 0) && (0 <? n) then 1 else 0).
Proof.
  intros Hst. apply (steps_invariant step (counted n)) in Hst; [done| |].
  - apply step_counted.
  - unfold counted; simpl. split; [lia|]. by destruct n.
Qed.

Lemma count_down_triggers_once_witness :
  count (mkLatch 0 1) <= 1 /\ sets (mkLatch 0 1) = 1.
Proof.
  apply (count_down_triggers_once 1 [Enter; Enter] (mkLatch 0 1)
    [Return; Loop 1]).
  eapply steps_cons; [apply (step_thread _ _ 0 Enter); done|].
  eapply steps_cons; [apply (step_thread _ _ 1 Enter); done|].
  eapply steps_cons; [apply (step_thread _ _ 0 (Loop 1)); done|].
  apply steps_refl.
Defined.

End CountDownLatch.

Module Once.

(** [Once]: one thread performs the task, the others block until it is done.
    A thread is entering [once()], blocked in [synchronized_wait], performing
    the task, or has seen it done. *)
Record Once := mkOnce { started : bool; finished : bool }.
Definition Once_init : Once := mkOnce false false.

Inductive thread := Enter | Blocked | Performing | Done.

(** [once()]: [None] while the thread has to wait, [Some result] when it
    returns [result]. *)
Definition once (o : Once) : Once * option bool :=
  if started o then
    if finished o then (o, Some true) else (o, None)
  else (mkOnce true (finished o), Some false).

Definition done (o : Once) : Once :=
  if started o && negb (finished o) then mkOnce (started o) true else o.

Inductive step : Once * list thread -> Once * list thread -> Prop :=
| step_once o ts i t :
    ts !! i = Some t -> t = Enter \/ t = Blocked ->
    step (o, ts)
      ((once o).1, <[i := match (once o).2 with
                          | Some true => Done
                          | Some false => Performing
                          | None => Blocked end]> ts)
| step_done o ts i :
    ts !! i = Some Performing -> step (o, ts) (done o, <[i := Done]> ts).

(** How many threads perform the task now. *)
Definition performing (ts : list thread) : nat :=
  sum_list_by (fun t => match t with Performing => 1 | _ => 0 end) ts.

Lemma performing_insert (ts : list thread) i t t' :
  ts !! i = Some t ->
  performing (<[i := t']> ts) + match t with Performing => 1 | _ => 0 end =
  performing ts + match t' with Performing => 1 | _ => 0 end.
Proof.
  unfold performing. revert i. induction ts as [|x ts IH]; intros [|i] H;
    simplify_eq/=; [lia|]. specialize (IH _ H). lia.
Qed.

(** One performer between the start and [done()], none before and after. *)
Definition inv (c : Once * list thread) : Prop :=
  (finished c.1 = true -> started c.1 = true) /\
  performing c.2 = (if started c.1 && negb (finished c.1) then 1 else 0) /\
  (forall i, c.2 !! i = Some Done -> finished c.1 = true).

Lemma once_step_inv c c' : inv c -> step c c' -> inv c'.
Proof.
  intros Hi Hs. revert Hi. destruct Hs as [o ts i t Hi Ht|o ts i Hi];
    unfold inv; simpl; intros (H1 & H2 & H3).
  - unfold once. destruct o as [[] []]; simpl in *;
      try (by specialize (H1 eq_refl)); split_and!; try done.
    all: try (intros j [(_ & ? & _)|[_ Hj]]%list_lookup_insert_Some;
              [done|by eapply H3]).
    all: match goal with |- performing (<[_:=?t']> _) = _ =>
      pose proof (performing_insert ts i t t' Hi) as Hp;
      destruct Ht as [->| ->]; simpl in *; lia end.
  - pose proof (performing_insert ts i Performing Done Hi) as Hp.
    unfold done. destruct o as [[] []]; simpl in *; try lia;
      split_and!; try done; lia.
Qed.

(** [Once]: under every interleaving at most one thread performs the task,
    and a thread for which [once()] returns true returns only after [done()]. *)
Theorem once_performed_once n o ts :
  steps step (Once_init, replicate n Enter) (o, ts) ->
  performing ts <= 1 /\ (forall i, ts !! i = Some Done -> finished o = true).
Proof.
  intros Hst.
  assert (Hi : inv (o, ts)).
  { apply (steps_invariant step inv) in Hst; [done|apply once_step_inv|].
    split_and!; simpl.
    - discriminate.
    - unfold performing. clear. by induction n.
    - intros i [? _]%lookup_replicate. discriminate. }
  destruct Hi as (_ & Hp & Hd). split; [|done]. simpl in Hp.
  rewrite Hp. destruct (_ && _); lia.
Qed.

Lemma once_performed_once_witness : performing [Performing; Blocked] <= 1.
Proof.
  apply (once_performed_once 2 (mkOnce true false) [Performing; Blocked]).
  eapply steps_cons; [apply (step_once _ _ 0 Enter); auto|].
  eapply steps_cons; [apply (step_once _ _ 1 Enter); auto|].
  apply steps_refl.
Defined.

End Once.
