(* ===== verification/Clock.v ===== *)
(** The clock and its timers: [clock.cpp], [timer.hpp], [timeout.hpp].

    Times and durations are integers (nanoseconds).  The event loop is outside
    this component: its current time is an argument [t] of the operations, and
    the delays it was asked for ([EventLoop::delay]) are kept in [loop], each with
    the time of the event loop at which it elapses (the time of the call and the
    relative delay together) and the argument of [tick] bound to it. *)

From S2P Require Import Prelude.
From Stdlib Require Import Sorted.

Local Open Scope Z_scope.

(** [Timer]: equality is equality of ids. *)
Record Timer := mkTimer { id : nat; timeout : Z; creator : nat; thunk : nat }.

(** [map<Time, list<Timer>>], sorted by time. *)
Definition timer_map : Type := list (Z * list Timer).

(** [timers[time].push_back(timer)]. *)
Fixpoint push_back (t : Timer) (m : timer_map) : timer_map :=
  match m with
  | [] => [(timeout t, [t])]
  | (k, ts) :: m' =>
      if timeout t <? k then (timeout t, [t]) :: m
      else if timeout t =? k then (k, ts ++ [t]) :: m'
      else (k, ts) :: push_back t m'
  end.

Definition count (time : Z) (m : timer_map) : bool :=
  existsb (fun kv => kv.1 =? time) m.

(** [timers[time].remove(timer)], and the erasure of an empty list. *)
Fixpoint remove (t : Timer) (m : timer_map) : timer_map :=
  match m with
  | [] => []
  | (k, ts) :: m' =>
      if k =? timeout t then
        match filter (fun t' => id t' <> id t) ts with
        | [] => m'
        | ts' => (k, ts') :: m'
        end
      else (k, ts) :: remove t m'
  end.

(** [set<Time>] of scheduled ticks, sorted. *)
Fixpoint insert_tick (x : Z) (s : list Z) : list Z :=
  match s with
  | [] => [x]
  | y :: s' =>
      if x <? y then x :: s else if x =? y then s else y :: insert_tick x s'
  end.

(** The state of [namespace clock]. *)
Record Clock := mkClock {
  timers : timer_map;
  currents : gmap nat Z;
  initial : Z;
  current : Z;
  advanced : Z;
  paused : bool;
  settling : bool;
  ticks : list Z;
  loop : list (Z * Z);
  next_id : nat;
}.

Definition Clock_init : Clock := mkClock [] ∅ 0 0 0 false false [] [] 1.

Definition with_timers (m : timer_map) (c : Clock) : Clock :=
  mkClock m (currents c) (initial c) (current c) (advanced c) (paused c)
    (settling c) (ticks c) (loop c) (next_id c).
Definition with_ticks (tk : list Z) (lp : list (Z * Z)) (c : Clock) : Clock :=
  mkClock (timers c) (currents c) (initial c) (current c) (advanced c) (paused c)
    (settling c) tk lp (next_id c).
Definition with_settling (b : bool) (c : Clock) : Clock :=
  mkClock (timers c) (currents c) (initial c) (current c) (advanced c) (paused c)
    b (ticks c) (loop c) (next_id c).
Definition with_currents (m : gmap nat Z) (c : Clock) : Clock :=
  mkClock (timers c) m (initial c) (current c) (advanced c) (paused c)
    (settling c) (ticks c) (loop c) (next_id c).

(** [Clock::now(nullptr)]: the paused time, or the event loop's time [t] with
    what was advanced while paused ([Time::create]). *)
Definition now_global (t : Z) (c : Clock) : Z :=
  if paused c then current c else t + advanced c.

(** [Clock::now(process)]: a process without a time of its own starts at the
    initial time of the pause. *)
Definition now_process (t : Z) (p : nat) (c : Clock) : Z * Clock :=
  if paused c then
    match currents c !! p with
    | Some x => (x, c)
    | None => (initial c, with_currents (<[p := initial c]> (currents c)) c)
    end
  else (t + advanced c, c).

(** [Clock::now()]: the running process, if there is one. *)
Definition now (t : Z) (running : option nat) (c : Clock) : Z * Clock :=
  match running with
  | Some p => now_process t p c
  | None => (now_global t c, c)
  end.

(** [clock::next]. *)
Definition next (t : Z) (c : Clock) : option Z :=
  match timers c with
  | (first, _) :: _ =>
      if paused c && (now_global t c <? first) then None else Some first
  | [] => None
  end.

(** [clock::scheduleTick]: the delay is relative to the global clock, and negative if
    the timer has expired. *)
Definition scheduleTick (t : Z) (c : Clock) : Clock :=
  match next t c with
  | Some n =>
      if match ticks c with [] => true | x :: _ => n <? x end then
        let delay := n - now_global t c in
        with_ticks (insert_tick n (ticks c)) ((t + delay, n) :: loop c) c
      else c
  | None => c
  end.

(** The timers that time out at [now], in order, and the rest. *)
Fixpoint expire (now : Z) (m : timer_map) : list Timer * timer_map :=
  match m with
  | (k, ts) :: m' =>
      if now <? k then ([], m)
      else let '(ex, rest) := expire now m' in (ts ++ ex, rest)
  | [] => ([], [])
  end.

(** The first critical section of [clock::tick]: the expired timers, which are
    then handed to the callback outside of it. *)
Definition tick (t time : Z) (c : Clock) : checked (list Timer * Clock) :=
  let now := now_global t c in
  let '(timedout, rest) := expire now (timers c) in
  let any := match timers c with (k, _) :: _ => k <=? now | [] => false end in
  let c := if paused c && any then with_settling true c else c in
  let c := with_timers rest c in
  if match rest with [] => true | (k, _) :: _ => now <? k end then
    let c := with_ticks (filter (fun x => x <> time) (ticks c)) (loop c) c in
    Returns (timedout, scheduleTick t c)
  else Abort "CHECK(timers->empty() || (timers->begin()->first > now))".

(** No timer is left that expires before the paused time. *)
Definition none_due (c : Clock) : bool :=
  match timers c with [] => true | (k, _) :: _ => current c <? k end.

(** The second critical section of [clock::tick], after the callback. *)
Definition tick_settle (c : Clock) : Clock :=
  if paused c && none_due c then with_settling false c else c.

(** [Clock::finalize]. *)
Definition finalize (c : Clock) : checked Clock :=
  if paused c then Abort "Clock must not be paused when finalizing"
  else Returns (with_timers [] c).

(** [Timeout::in]: saturates instead of overflowing. *)
Definition Timeout_in (now duration max : Z) : Z :=
  if now <? max - duration then now + duration else max.
Definition Timeout_remaining (timeout now : Z) : Z :=
  if 0 <? timeout - now then timeout - now else 0.
Definition Timeout_expired (timeout now : Z) : bool := timeout <=? now.

(** [Clock::timer]. *)
Definition timer (max t : Z) (running : option nat) (duration : Z) (thunk : nat)
    (c : Clock) : Timer * Clock :=
  let '(n, c) := now t running c in
  let tm := mkTimer (next_id c) (Timeout_in n duration max)
              (default 0%nat running) thunk in
  let c := mkClock (timers c) (currents c) (initial c) (current c) (advanced c)
             (paused c) (settling c) (ticks c) (loop c) (S (next_id c)) in
  if match timers c with [] => true | (k, _) :: _ => timeout tm <? k end then
    (tm, scheduleTick t (with_timers (push_back tm (timers c)) c))
  else (tm, with_timers (push_back tm (timers c)) c).

(** [Clock::cancel]. *)
Definition cancel (tm : Timer) (c : Clock) : bool * Clock :=
  if count (timeout tm) (timers c) then
    (true, with_timers (remove tm (timers c)) c)
  else (false, c).

(** [Clock::pause] and [Clock::resume]. *)
Definition pause (t : Z) (running : option nat) (c : Clock) : Clock :=
  if negb (paused c) then
    let n := (now t running c).1 in
    mkClock (timers c) (currents c) n n (advanced c) true (settling c) []
      (loop c) (next_id c)
  else c.

Definition resume (t : Z) (c : Clock) : Clock :=
  if paused c then
    scheduleTick t
      (mkClock (timers c) ∅ (initial c) (current c) (advanced c) false false
         (ticks c) (loop c) (next_id c))
  else c.

(** [Clock::advance]. *)
Definition advance (t duration : Z) (c : Clock) : Clock :=
  if paused c then
    scheduleTick t
      (mkClock (timers c) (currents c) (initial c) (current c + duration)
         (advanced c + duration) (paused c) (settling c) (ticks c) (loop c)
         (next_id c))
  else c.

Definition advance_process (t : Z) (p : nat) (duration : Z) (c : Clock) : Clock :=
  if paused c then
    let '(n, c) := now_process t p c in
    with_currents (<[p := n + duration]> (currents c)) c
  else c.

(** [Clock::update]. *)
Definition update (t time : Z) (c : Clock) : Clock :=
  if paused c && (current c <? time) then
    scheduleTick t
      (mkClock (timers c) (currents c) (initial c) time
         (advanced c + (time - current c)) (paused c) (settling c) (ticks c)
         (loop c) (next_id c))
  else c.

Inductive Update := SAFE | FORCE.

Definition update_process (t : Z) (p : nat) (time : Z) (u : Update) (c : Clock)
    : Clock :=
  if paused c then
    let '(n, c) := now_process t p c in
    if (n <? time) || match u with FORCE => true | SAFE => false end then
      with_currents (<[p := time]> (currents c)) c
    else c
  else c.

(** [Clock::order]. *)
Definition order (t : Z) (from to : nat) (c : Clock) : Clock :=
  let '(n, c) := now_process t from c in update_process t to n SAFE c.

(** [Clock::settled]. *)
Definition settled (c : Clock) : checked bool :=
  if negb (paused c) then Abort "CHECK(clock::paused)"
  else if settling c then Returns false else Returns (none_due c).
