(* ===== verification/ClockSpec.v ===== *)
(** Properties of the clock: ticks expire exactly the due timers, and no
    pending timer is ever left without a tick. *)

From S2P Require Import Prelude Clock.
From Stdlib Require Import Sorted.

Local Open Scope Z_scope.

(** ** Well-formed timer maps *)

(** All timers, in the order of the map. *)
Definition pending (m : timer_map) : list Timer := flat_map snd m.

(** Keys ascend, no list is empty, and every timer is under its timeout. *)
Definition wf_timers (m : timer_map) : Prop :=
  StronglySorted Z.lt (map fst m) /\
  Forall (fun kv => kv.2 <> [] /\ Forall (fun t => timeout t = kv.1) kv.2) m.

Lemma wf_timers_cons k ts m :
  wf_timers ((k, ts) :: m) <->
  (ts <> [] /\ Forall (fun t => timeout t = k) ts) /\
  Forall (fun kv => k < kv.1) m /\ wf_timers m.
Proof.
  unfold wf_timers; simpl. split.
  - intros [Hs Hf]. apply Forall_cons in Hf as [? ?].
    apply StronglySorted_inv in Hs as [? Hk]. 
    apply (proj1 (List.Forall_map fst (Z.lt k) m)) in Hk. tauto.
  - intros (? & Hk & Hs & Hf). split; constructor; auto.
    by apply List.Forall_map.
Qed.

(** Every pending timer is due no earlier than the first key. *)
Lemma first_is_least k ts m t :
  wf_timers ((k, ts) :: m) -> t ∈ pending ((k, ts) :: m) -> k <= timeout t.
Proof.
  intros ([_ Hts] & Hlt & Hs & Hf)%wf_timers_cons. simpl.
  intros [Ht|Ht]%elem_of_app.
  - rewrite Forall_forall in Hts. by rewrite (Hts _ Ht).
  - apply list_elem_of_In, in_flat_map in Ht as ([k' ts'] & Hk' & Ht).
    apply list_elem_of_In in Hk', Ht.
    rewrite Forall_forall in Hlt, Hf. specialize (Hlt _ Hk').
    destruct (Hf _ Hk') as [_ Hf']. rewrite Forall_forall in Hf'.
    simpl in *. rewrite (Hf' _ Ht). lia.
Qed.

Lemma push_back_keys t m b :
  b < timeout t -> Forall (fun kv => b < kv.1) m ->
  Forall (fun kv => b < kv.1) (push_back t m).
Proof.
  intros Hb. induction m as [|[k ts] m IH]; intros Hm; simpl.
  - by repeat constructor.
  - inversion Hm; subst. destruct (timeout t <? k); [by constructor|].
    destruct (timeout t =? k); by constructor; auto.
Qed.

Lemma push_back_wf t m : wf_timers m -> wf_timers (push_back t m).
Proof.
  induction m as [|[k ts] m IH]; simpl; intros Hw.
  - apply wf_timers_cons. split_and!; try done. by repeat constructor.
  - pose proof Hw as ((Hne & Hts) & Hlt & Hm)%wf_timers_cons.
    destruct (timeout t <? k) eqn:E1; [|destruct (timeout t =? k) eqn:E2];
      bool_cases; apply wf_timers_cons.
    + split_and!; try done; [by repeat constructor|].
      constructor; [simpl; lia|]. eapply Forall_impl; [exact Hlt|].
      simpl; intros; lia.
    + split_and!; auto; [by destruct ts|].
      apply Forall_app; split; [done|by repeat constructor].
    + split_and!; auto. apply push_back_keys; [lia|done].
Qed.

Lemma push_back_pending t m :
  pending (push_back t m) ≡ₚ t :: pending m.
Proof.
  induction m as [|[k ts] m IH]; simpl; [done|].
  destruct (timeout t <? k); [done|]. destruct (timeout t =? k); simpl.
  - rewrite <- app_assoc. simpl. by rewrite Permutation_middle.
  - rewrite IH. by rewrite Permutation_middle.
Qed.

Lemma remove_keys t m b :
  Forall (fun kv : Z * list Timer => b < kv.1) m ->
  Forall (fun kv => b < kv.1) (remove t m).
Proof.
  induction m as [|[k ts] m IH]; intros Hm; simpl; [done|].
  inversion Hm; subst. destruct (k =? timeout t); [|by constructor; auto].
  destruct (filter _ ts); [done|by constructor].
Qed.

Lemma remove_wf t m : wf_timers m -> wf_timers (remove t m).
Proof.
  induction m as [|[k ts] m IH]; simpl; intros Hw; [done|].
  pose proof Hw as ((Hne & Hts) & Hlt & Hm)%wf_timers_cons.
  destruct (k =? timeout t).
  - destruct (filter _ ts) as [|t' ts'] eqn:Ef; [done|].
    apply wf_timers_cons. split_and!; auto. rewrite <- Ef.
    rewrite Forall_forall in *. intros x [_ Hx]%list_elem_of_filter. auto.
  - apply wf_timers_cons. split_and!; auto using remove_keys.
Qed.

Lemma pending_in k m t :
  Forall (fun kv => k < kv.1) m -> wf_timers m -> t ∈ pending m -> k < timeout t.
Proof.
  intros Hlt [Hs Hf] Ht.
  apply list_elem_of_In, in_flat_map in Ht as ([k' ts'] & Hk' & Ht).
  apply list_elem_of_In in Hk', Ht. rewrite Forall_forall in Hlt, Hf.
  destruct (Hf _ Hk') as [_ Hf']. rewrite Forall_forall in Hf'.
  specialize (Hlt _ Hk'). simpl in *. rewrite (Hf' _ Ht). done.
Qed.

(** [cancel] removes the timer with that id under that timeout and no other. *)
Lemma remove_pending t m t' :
  wf_timers m ->
  t' ∈ pending (remove t m) <->
  t' ∈ pending m /\ ~ (timeout t' = timeout t /\ id t' = id t).
Proof.
  induction m as [|[k ts] m IH]; simpl; intros Hw; [set_solver|].
  pose proof Hw as ((Hne & Hts) & Hlt & Hm)%wf_timers_cons.
  rewrite Forall_forall in Hts.
  assert (Hin : t' ∈ pending m -> k < timeout t') by (by apply pending_in).
  destruct (k =? timeout t) eqn:E; bool_cases; subst.
  - assert (Hf : t' ∈ filter (fun x => id x <> id t) ts <->
                 t' ∈ ts /\ ~ (timeout t' = timeout t /\ id t' = id t)).
    { rewrite list_elem_of_filter. split; [naive_solver|].
      intros [Hi Hn]. split; [|done]. intros ?. apply Hn. by rewrite Hts. }
    rewrite elem_of_app.
    destruct (filter _ ts) as [|x xs]; simpl; rewrite ?elem_of_app.
    + assert (t' ∈ pending m -> ~ (timeout t' = timeout t /\ id t' = id t))
        by (intros H%Hin; lia). set_solver.
    + assert (t' ∈ pending m -> ~ (timeout t' = timeout t /\ id t' = id t))
        by (intros H%Hin; lia).
      rewrite app_comm_cons, elem_of_app, Hf. tauto.
  - simpl. rewrite !elem_of_app, IH by done.
    assert (t' ∈ ts -> ~ (timeout t' = timeout t /\ id t' = id t))
      by (intros Ht; rewrite (Hts _ Ht); naive_solver). tauto.
Qed.

(** ** Expiry *)

Lemma expire_spec now m :
  wf_timers m ->
  let '(ex, rest) := expire now m in
  ex = filter (fun t => timeout t <= now) (pending m) /\
  pending rest = filter (fun t => now < timeout t) (pending m) /\
  wf_timers rest /\
  match rest with [] => True | (k, _) :: _ => now < k end.
Proof.
  induction m as [|[k ts] m IH]; simpl; intros Hw; [done|].
  pose proof Hw as ((Hne & Hts) & Hlt & Hm)%wf_timers_cons.
  destruct (now <? k) eqn:E; bool_cases.
  - assert (Hall : Forall (fun t => now < timeout t) (pending ((k, ts) :: m))).
    { apply Forall_forall. intros t Ht. pose proof (first_is_least _ _ _ _ Hw Ht). lia. }
    simpl in Hall. split_and!; try done.
    + symmetry. apply filter_none. eapply Forall_impl; [exact Hall|].
      simpl. intros; lia.
    + symmetry. by apply filter_all.
  - destruct (expire now m) as [ex rest]. destruct (IH Hm) as (-> & Hp & ? & ?).
    rewrite !filter_app, Hp. split_and!; try done.
    + f_equal. symmetry. apply filter_all. eapply Forall_impl; [exact Hts|].
      simpl; intros; lia.
    + replace (filter _ ts) with (@nil Timer); [done|].
      symmetry. apply filter_none. eapply Forall_impl; [exact Hts|].
      simpl; intros; lia.
Qed.

(** ** Scheduling *)

(** A delay that has elapsed at the time [T] of the event loop or, while the clock is
    running, will have when the clock shows [k]. *)
Definition soon (T : Z) (c : Clock) (k d : Z) : Prop :=
  d <= if paused c then T else Z.max T (k - advanced c).

(** The first timer needs a tick: it is due, or the clock is running. *)
Definition due (c : Clock) (k : Z) : Prop :=
  match timers c with
  | (k', _) :: _ => k' = k /\ (paused c = true -> k <= current c)
  | [] => False
  end.

Definition covered (T : Z) (c : Clock) : Prop :=
  forall k, due c k -> exists d x, (d, x) ∈ loop c /\ soon T c k d.

(** Every scheduled tick is a delay of the event loop that elapses in time. *)
Definition scheduled (T : Z) (c : Clock) : Prop :=
  forall x, x ∈ ticks c -> exists d, (d, x) ∈ loop c /\ soon T c x d.

Definition inv (T : Z) (c : Clock) : Prop :=
  wf_timers (timers c) /\ scheduled T c /\ covered T c.

Lemma soon_later T t c k d : T <= t -> soon T c k d -> soon t c k d.
Proof. unfold soon. destruct (paused c); lia. Qed.

Lemma inv_later T t c : T <= t -> inv T c -> inv t c.
Proof.
  intros Ht (Hw & Hs & Hc). split_and!; [done| |].
  - intros x Hx. destruct (Hs x Hx) as (d & ? & ?). eauto using soon_later.
  - intros k Hk. destruct (Hc k Hk) as (d & x & ? & ?). eauto 6 using soon_later.
Qed.

Lemma insert_tick_elem x y s : y ∈ insert_tick x s -> y = x \/ y ∈ s.
Proof.
  induction s as [|z s IH]; simpl; [set_solver|].
  destruct (x <? z); [set_solver|]. destruct (x =? z); [set_solver|].
  intros [->|Hy]%elem_of_cons; [set_solver|]. apply IH in Hy. set_solver.
Qed.

Lemma scheduleTick_fields t c :
  timers (scheduleTick t c) = timers c /\ paused (scheduleTick t c) = paused c /\
  current (scheduleTick t c) = current c /\ settling (scheduleTick t c) = settling c /\
  advanced (scheduleTick t c) = advanced c.
Proof. unfold scheduleTick. crack; done. Qed.

(** The tick for the first timer: a new delay, or one for an earlier tick. *)
Lemma scheduleTick_first t c k ts m :
  timers c = (k, ts) :: m -> (paused c = true -> k <= current c) ->
  exists x, x ∈ ticks (scheduleTick t c) /\ x <= k.
Proof.
  intros Hm Hp. unfold scheduleTick, next, now_global. rewrite Hm.
  assert (paused c && ((if paused c then current c else t + advanced c) <? k) = false) as ->.
  { destruct (paused c); [|done]. specialize (Hp eq_refl). simpl. by apply Z.ltb_ge. }
  assert (Hin : k ∈ insert_tick k (ticks c)).
  { induction (ticks c) as [|y s IH]; simpl; [set_solver|].
    destruct (k <? y); [set_solver|]. destruct (k =? y) eqn:E; bool_cases; set_solver. }
  destruct (ticks c) as [|x tk] eqn:Etk; [simpl; exists k; split; [by left|lia]|].
  destruct (k <? x) eqn:E; bool_cases; simpl in *; [exists k; split; [rewrite ?Etk; exact Hin|lia]|].
  exists x. rewrite Etk. split; [by left|lia].
Qed.

Lemma scheduleTick_scheduled t c : scheduled t c -> scheduled t (scheduleTick t c).
Proof.
  intros Hs. destruct (scheduleTick_fields t c) as (_ & E2 & _ & _ & E5).
  intros x Hx. unfold soon. rewrite E2, E5. fold (soon t c x).
  revert Hx. unfold scheduleTick, next, now_global.
  destruct (timers c) as [|[k ts] m]; [apply Hs|].
  destruct (paused c && _) eqn:Ep; [apply Hs|].
  destruct (match ticks c with [] => true | y :: _ => k <? y end); [|apply Hs].
  simpl. intros [->|Hx]%insert_tick_elem.
  - eexists; split; [by left|]. unfold soon. destruct (paused c); simpl in *; bool_cases; lia.
  - destruct (Hs x Hx) as (d & ? & ?). exists d. split; [by right|done].
Qed.

(** After [scheduleTick] every due timer is covered by a delay that elapses in time. *)
Lemma scheduleTick_inv t c :
  wf_timers (timers c) -> scheduled t c -> inv t (scheduleTick t c).
Proof.
  intros Hw Hs. pose proof (scheduleTick_scheduled t c Hs) as Hs'.
  destruct (scheduleTick_fields t c) as (E1 & E2 & E3 & _ & _).
  split_and!; [by rewrite E1|done|]. intros k Hd. unfold due in Hd. rewrite E1, E2, E3 in Hd.
  destruct (timers c) as [|[k' ts] m] eqn:Em; [done|]. destruct Hd as [-> Hp].
  destruct (scheduleTick_first t c k ts m Em Hp) as (x & Hx & Hle).
  destruct (Hs' x Hx) as (d & Hd & Hso). exists d, x. split; [done|].
  unfold soon in *. destruct (paused _); lia.
Qed.

(** One occurrence of an elapsed delay leaves the event loop. *)
Fixpoint deliver (x : Z * Z) (l : list (Z * Z)) : list (Z * Z) :=
  match l with
  | [] => []
  | y :: l => if decide (x = y) then l else y :: deliver x l
  end.

Lemma deliver_other x y l : y ∈ l -> y <> x -> y ∈ deliver x l.
Proof.
  induction l as [|z l IH]; simpl; [done|]. intros Hy Hne.
  destruct (decide (x = z)); set_solver.
Qed.

Definition deliver_tick (e : Z * Z) (c : Clock) : Clock :=
  with_ticks (ticks c) (deliver e (loop c)) c.

(** Everything that can happen to the clock at the time [t] of the event loop. *)
Inductive clock_step (t : Z) : Clock -> Clock -> Prop :=
| step_tick e ex c c' :
    e ∈ loop c -> tick t e.2 (deliver_tick e c) = Returns (ex, c') ->
    clock_step t c c'
| step_settle c : clock_step t c (tick_settle c)
| step_timer max running duration th c :
    clock_step t c (timer max t running duration th c).2
| step_cancel tm c : clock_step t c (cancel tm c).2
| step_pause running c : clock_step t c (pause t running c)
| step_resume c : clock_step t c (resume t c)
| step_advance d c : clock_step t c (advance t d c)
| step_advance_process p d c : clock_step t c (advance_process t p d c)
| step_update time c : clock_step t c (update t time c)
| step_update_process p time u c : clock_step t c (update_process t p time u c)
| step_order from to c : clock_step t c (order t from to c)
| step_finalize c c' : finalize c = Returns c' -> clock_step t c c'.

(** The clock with the time of the event loop, which passes between the steps. *)
Inductive timed_step : Z * Clock -> Z * Clock -> Prop :=
| timed T t c c' : T <= t -> clock_step t c c' -> timed_step (T, c) (t, c').

(** Two clocks that differ in nothing the invariant looks at. *)
Definition same (c c' : Clock) : Prop :=
  timers c' = timers c /\ ticks c' = ticks c /\ loop c' = loop c /\
  paused c' = paused c /\ current c' = current c /\ advanced c' = advanced c.

Lemma same_inv T c c' : same c c' -> inv T c -> inv T c'.
Proof.
  intros (E1 & E2 & E3 & E4 & E5 & E6). unfold inv, scheduled, covered, due, soon.
  by rewrite E1, E2, E3, E4, E5, E6.
Qed.

Lemma now_process_same t p c : same c (now_process t p c).2.
Proof. unfold now_process, same. by crack. Qed.

Lemma update_process_same t p time u c : same c (update_process t p time u c).
Proof.
  unfold update_process. pose proof (now_process_same t p c) as Hn.
  destruct (paused c); [|done]. destruct (now_process t p c) as [n c'].
  by destruct ((n <? time) || _).
Qed.

Lemma same_trans c1 c2 c3 : same c1 c2 -> same c2 c3 -> same c1 c3.
Proof. unfold same. intros (?&?&?&?&?&?) (?&?&?&?&?&?). split_and!; congruence. Qed.

Lemma now_same t running c : same c (now t running c).2.
Proof. destruct running; simpl; [apply now_process_same|done]. Qed.

Lemma timer_inv max t running d th c : inv t c -> inv t (timer max t running d th c).2.
Proof.
  intros Hi. unfold timer. pose proof (now_same t running c) as Hn.
  destruct (now t running c) as [n c1]. simpl in Hn.
  apply (same_inv _ _ _ Hn) in Hi. clear Hn c. cbv zeta.
  generalize (mkTimer (next_id c1) (Timeout_in n d max) (default 0%nat running) th).
  intros tm. destruct Hi as (Hw & Ht & Hc). simpl.
  destruct (match timers c1 with [] => true | (k, _) :: _ => timeout tm <? k end)
    eqn:E; simpl.
  - apply scheduleTick_inv; simpl; [by apply push_back_wf|done].
  - split_and!; simpl; [by apply push_back_wf|done|].
    intros k. unfold due; simpl. intros Hd. apply Hc. unfold due.
    destruct (timers c1) as [|[k' ts] m]; [done|]. bool_cases. simpl in Hd.
    destruct (timeout tm <? k') eqn:E1; bool_cases; [lia|].
    by destruct (timeout tm =? k').
Qed.

Lemma cancel_inv T tm c : inv T c -> inv T (cancel tm c).2.
Proof.
  intros (Hw & Ht & Hc). unfold cancel.
  destruct (count _ _); simpl; [|done].
  split_and!; simpl; [by apply remove_wf|done|].
  intros k Hd. destruct (timers c) as [|[k0 ts] m] eqn:Em; [done|].
  unfold due in Hd; simpl in Hd.
  assert (Hk : k0 <= k /\ (paused c = true -> k <= current c)).
  { pose proof Hw as (_ & Hlt & _)%wf_timers_cons.
    destruct (k0 =? timeout tm) eqn:E; [|destruct Hd; split; [lia|auto]].
    destruct (filter _ ts); [|destruct Hd; split; [lia|auto]].
    destruct m as [|[k1 ts1] m]; [done|]. destruct Hd as [-> Hp].
    apply Forall_cons in Hlt as [? _]. simpl in *. split; [lia|auto]. }
  destruct (Hc k0) as (d & x & Hx & Hle).
  - unfold due. rewrite Em. split; [done|]. intros Hp.
    destruct Hk as [? Hk]. specialize (Hk Hp). lia.
  - exists d, x. split; [done|]. unfold soon in *. simpl. destruct (paused c); lia.
Qed.

Lemma tick_inv t e ex c c' :
  inv t c -> tick t e.2 (deliver_tick e c) = Returns (ex, c') -> inv t c'.
Proof.
  intros (Hw & Hs & Hc). unfold tick; simpl.
  set (n := now_global t _).
  pose proof (expire_spec n (timers c) Hw) as Hx.
  destruct (expire n (timers c)) as [ex' rest]. destruct Hx as (_ & _ & Hwr & _).
  destruct (match rest with [] => true | (k, _) :: _ => n <? k end); [|done].
  intros [= _ <-]. apply scheduleTick_inv; simpl; [done|].
  intros x [Hne Hx]%list_elem_of_filter.
  assert (Hx' : x ∈ ticks c) by (by destruct (paused c && _)).
  destruct (Hs x Hx') as (d & Hd & Hso). exists d. split.
  - assert (Hin : (d, x) ∈ deliver e (loop c)).
    { apply deliver_other; [done|]. intros <-. done. }
    by destruct (paused c && _).
  - unfold soon in *. simpl. by destruct (paused c && _).
Qed.

Lemma pause_inv t running c : inv t c -> inv t (pause t running c).
Proof.
  intros (Hw & Hs & Hc). unfold pause. destruct (paused c) eqn:Ep; simpl; [by split_and!|].
  split_and!; simpl; [done|by intros x Hx; apply not_elem_of_nil in Hx|].
  intros k Hd. destruct (Hc k) as (d & x & Hx & Hso).
  - unfold due in *; simpl in *. rewrite Ep. destruct (timers c) as [|[? ?] ?]; [done|]. by destruct Hd.
  - exists d, x. split; [done|]. unfold soon in *; simpl in *. rewrite Ep in Hso.
    assert (k <= t + advanced c); [|lia].
    assert (Hn : (now t running c).1 = t + advanced c)
      by (destruct running; simpl; unfold now_process, now_global; by rewrite Ep).
    unfold due in Hd; simpl in Hd. destruct (timers c) as [|[? ?] ?]; [done|].
    destruct Hd as [_ Hd]. rewrite <- Hn. by apply Hd.
Qed.

(** Leaving the pause, or moving the paused clock: the scheduled ticks fire at once. *)
Lemma moved_inv t c c' :
  paused c = true -> inv t c -> timers c' = timers c -> ticks c' = ticks c -> loop c' = loop c ->
  inv t (scheduleTick t c').
Proof.
  intros Hp (Hw & Hs & _) E1 E2 E3. apply scheduleTick_inv; [by rewrite E1|].
  intros x Hx. rewrite E2 in Hx. destruct (Hs x Hx) as (d & ? & Hso). exists d. rewrite E3.
  split; [done|]. unfold soon in *. rewrite Hp in Hso. destruct (paused c'); lia.
Qed.

Lemma clock_step_inv t c c' : inv t c -> clock_step t c c' -> inv t c'.
Proof.
  intros Hi Hs. destruct Hs.
  - by eapply tick_inv.
  - unfold tick_settle. destruct (_ && _); [|done].
    by eapply same_inv; [|exact Hi].
  - by apply timer_inv.
  - by apply cancel_inv.
  - by apply pause_inv.
  - unfold resume. destruct (paused c) eqn:Ep; [by apply (moved_inv t c)|done].
  - unfold advance. destruct (paused c) eqn:Ep; [by apply (moved_inv t c)|done].
  - unfold advance_process. destruct (paused c); [|done].
    pose proof (now_process_same t p c) as Hn. destruct (now_process t p c).
    eapply same_inv; [|exact Hi]. eapply same_trans; [exact Hn|done].
  - unfold update. destruct (paused c) eqn:Ep; simpl; [|done].
    destruct (current c <? time); [by apply (moved_inv t c)|done].
  - eapply same_inv; [apply update_process_same|exact Hi].
  - unfold order. pose proof (now_process_same t from c) as Hn.
    destruct (now_process t from c).
    eapply same_inv; [|exact Hi]. eapply same_trans; [exact Hn|].
    apply update_process_same.
  - unfold finalize in *. destruct (paused c); simplify_eq.
    destruct Hi as (Hw & Hs & Hc).
    split_and!; simpl; [by repeat constructor|done|by intros k []].
Qed.

Lemma inv_init T : inv T Clock_init.
Proof.
  split_and!; simpl; [by repeat constructor| |by intros k []].
  intros x Hx. by apply not_elem_of_nil in Hx.
Qed.

Lemma timed_inv T0 T c : steps timed_step (T0, Clock_init) (T, c) -> inv T c.
Proof.
  intros Hst. change (inv (T, c).1 (T, c).2).
  apply (steps_invariant timed_step (fun x => inv x.1 x.2)) in Hst; [done| |apply inv_init].
  intros a b Hi Hs. revert Hi. destruct Hs as [T1 t c1 c2 Ht Hs]. simpl. intros Hi. apply (clock_step_inv t c1); [by apply (inv_later T1)|done].
Qed.

(** ** Properties *)

(** C15: a tick expires exactly the timers that are due: [clock::tick] hands over
    the timers whose timeout is not after the current time, earliest first and in
    insertion order within one timeout, keeps all the others, and its [CHECK]
    never fails.  When the clock is running, every timer that is kept then has a tick
    scheduled no later than its timeout. *)
Theorem tick_expires_exactly_due t time c :
  wf_timers (timers c) ->
  exists c',
    tick t time c =
      Returns (filter (fun tm => timeout tm <= now_global t c) (pending (timers c)), c') /\
    pending (timers c') =
      filter (fun tm => now_global t c < timeout tm) (pending (timers c)) /\
    wf_timers (timers c') /\
    (paused c = false -> forall tm, tm ∈ pending (timers c') ->
       exists x, x ∈ ticks c' /\ x <= timeout tm).
Proof.
  intros Hw. unfold tick. set (n := now_global t c).
  pose proof (expire_spec n (timers c) Hw) as Hx.
  destruct (expire n (timers c)) as [ex rest]. destruct Hx as (-> & Hp & Hwr & Hk).
  assert (Hb : match rest with [] => true | (k, _) :: _ => n <? k end = true)
    by (destruct rest as [|[k ts] m]; [done|by apply Z.ltb_lt]).
  rewrite Hb. eexists. split; [reflexivity|].
  match goal with |- context [scheduleTick t ?c1] => set (c0 := c1) end.
  assert (Ht : timers c0 = rest) by (unfold c0; by destruct (paused c && _)).
  assert (Hpa : paused c0 = paused c) by (unfold c0; by destruct (paused c && _)).
  destruct (scheduleTick_fields t c0) as [-> _]. rewrite Ht. split_and!; [done|done|].
  intros Hrun tm Htm. destruct rest as [|[k ts] m]; [by apply not_elem_of_nil in Htm|].
  destruct (scheduleTick_first t c0 k ts m) as (x & Hx & Hle); [done|congruence|].
  exists x. pose proof (first_is_least _ _ _ _ Hwr Htm). split; [done|lia].
Qed.

Lemma tick_expires_exactly_due_witness :
  exists c', tick 7 5 (mkClock [(5, [mkTimer 1 5 0 0; mkTimer 2 5 0 0]);
                                (9, [mkTimer 3 9 0 0])] ∅ 0 0 0 false false [5] [] 4)
    = Returns ([mkTimer 1 5 0 0; mkTimer 2 5 0 0], c') /\
    exists x, x ∈ ticks c' /\ x <= 9.
Proof.
  destruct (tick_expires_exactly_due 7 5
    (mkClock [(5, [mkTimer 1 5 0 0; mkTimer 2 5 0 0]);
              (9, [mkTimer 3 9 0 0])] ∅ 0 0 0 false false [5] [] 4))
    as (c' & Hc & Hp & _ & Ht).
  - split; repeat constructor; simpl; try lia; discriminate.
  - exists c'. split; [exact Hc|]. apply (Ht eq_refl (mkTimer 3 9 0 0)).
    rewrite Hp. vm_compute. left.
Defined.

(** C16: no timer is forgotten or late: in every state the clock can reach, through any
    sequence of timer creations, cancellations, ticks, pauses, resumes and advances
    while the time [T] of the event loop passes, each pending timer has a delay of the
    event loop outstanding that elapses no later than the clock shows the timeout of the
    timer (that is at the time [timeout - advanced] of the event loop, or it has elapsed
    already); and while the clock is paused, a timer that is due has a delay that has
    elapsed already, so it fires at once. *)
Theorem no_timer_without_tick T0 T c tm :
  steps timed_step (T0, Clock_init) (T, c) -> tm ∈ pending (timers c) ->
  (paused c = false -> exists d x, (d, x) ∈ loop c /\ d <= Z.max T (timeout tm - advanced c)) /\
  (paused c = true -> timeout tm <= current c -> exists d x, (d, x) ∈ loop c /\ d <= T).
Proof.
  intros (Hw & _ & Hc)%timed_inv Ht.
  destruct (timers c) as [|[k ts] m] eqn:Em; [by apply not_elem_of_nil in Ht|].
  pose proof (first_is_least _ _ _ _ Hw Ht).
  split; [intros Hp|intros Hp Hdue]; destruct (Hc k) as (d & x & Hx & Hso);
    unfold due, soon in *; rewrite ?Em, ?Hp in *; try (split; [done|]);
    try done; try lia; exists d, x; (split; [done|lia]).
Qed.

(** A timer of 5 created at time 0; the clock is paused at 1 and advanced by 4: the timer
    is due, and a delay has elapsed, although the one for the timer itself elapses at 5. *)
Definition advanced_clock : Clock :=
  advance 1 4 (pause 1 None (timer 100 0 None 5 0 Clock_init).2).

Lemma no_timer_without_tick_witness :
  timeout (mkTimer 1 5 0 0) <= current advanced_clock /\
  exists d x, (d, x) ∈ loop advanced_clock /\ d <= 1.
Proof.
  split; [vm_compute; discriminate|].
  destruct (no_timer_without_tick 0 1 advanced_clock (mkTimer 1 5 0 0)) as [_ H].
  - eapply steps_cons; [apply (timed 0 0); [lia|apply step_timer]|].
    eapply steps_cons; [apply (timed 0 1); [lia|apply (step_pause _ None)]|].
    eapply steps_cons; [apply (timed 1 1); [lia|apply (step_advance _ 4)]|apply steps_refl].
  - vm_compute. left.
  - apply H; [reflexivity|vm_compute; discriminate].
Defined.

(** [Clock::cancel] removes exactly the given timer, but the boolean it
    returns only says that some timer with the same timeout is pending: it is
    false exactly when no pending timer has that timeout. *)
Theorem cancel_removes_timer tm c tm' :
  wf_timers (timers c) ->
  (tm' ∈ pending (timers (cancel tm c).2) <->
   tm' ∈ pending (timers c) /\ ~ (timeout tm' = timeout tm /\ id tm' = id tm)) /\
  ((cancel tm c).1 = true <->
   exists tm'', tm'' ∈ pending (timers c) /\ timeout tm'' = timeout tm).
Proof.
  intros Hw. unfold cancel. destruct (count _ _) eqn:E; unfold count in E; simpl.
  - split; [by apply remove_pending|]. split; [intros _|done].
    apply existsb_exists in E as ([k ts] & Hk%list_elem_of_In & Ek).
    bool_cases. destruct Hw as [_ Hf]. rewrite Forall_forall in Hf.
    destruct (Hf _ Hk) as [Hne Hts]. simpl in *. destruct ts as [|x ts]; [done|].
    exists x. split; [|apply Forall_cons in Hts as [? _]; congruence].
    apply list_elem_of_In, in_flat_map. exists (k, x :: ts).
    split; [by apply list_elem_of_In|by left].
  - assert (Hn : forall x, x ∈ pending (timers c) -> timeout x <> timeout tm).
    { intros x Hx Ex. apply list_elem_of_In, in_flat_map in Hx as ([k ts] & Hk & Hx).
      assert (existsb (fun kv => kv.1 =? timeout tm) (timers c) = true); [|congruence].
      apply existsb_exists. exists (k, ts). split; [done|].
      destruct Hw as [_ Hf]. rewrite Forall_forall in Hf.
      apply list_elem_of_In in Hk, Hx. destruct (Hf _ Hk) as [_ Hts].
      rewrite Forall_forall in Hts. specialize (Hts _ Hx). simpl in *.
      apply Z.eqb_eq. congruence. }
    split; [naive_solver|]. split; [done|]. intros (x & Hx & Ex). by apply Hn in Ex.
Qed.

Lemma cancel_removes_timer_witness :
  let c := mkClock [(5, [mkTimer 2 5 0 0])] ∅ 0 0 0 false false [] [] 3 in
  (cancel (mkTimer 1 5 0 0) c).1 = true.
Proof.
  intros c. apply (cancel_removes_timer (mkTimer 1 5 0 0) c (mkTimer 2 5 0 0)).
  - split; repeat constructor; discriminate.
  - exists (mkTimer 2 5 0 0). split; [left|reflexivity].
Defined.

(** [Timeout::in] never exceeds the largest representable time and adds the
    duration whenever the sum fits; a timeout reports as expired exactly when
    nothing remains of it. *)
Theorem timeout_in_saturates now duration max :
  Timeout_in now duration max = Z.min (now + duration) max /\
  Timeout_in now duration max <= max /\
  (forall n, Timeout_expired (Timeout_in now duration max) n = true <->
             Timeout_remaining (Timeout_in now duration max) n = 0).
Proof.
  unfold Timeout_in, Timeout_expired, Timeout_remaining.
  destruct (now <? max - duration) eqn:E; bool_cases; split_and!; try lia;
    intros n; destruct (0 <? _) eqn:E2; bool_cases; rewrite Z.leb_le; lia.
Qed.
