(* ===== verification/Limiter.v ===== *)
(** The rate limiter of [limiter.hpp].

    The limiter process keeps the time of the next permit and the promises of
    the callers that wait.  Its handlers run in the process, one at a time; the
    delayed dispatches of [_acquire] it asks for are returned, and the trace
    semantics below delivers each of them no earlier than its delay. *)

From S2P Require Import Prelude Futures Clock.

Local Open Scope Z_scope.

(** [RateLimiterProcess]; [interval] stands for [Seconds(1) / permitsPerSecond]. *)
Record Limiter := mkLimiter { interval : Z; limit : Z; promises : list nat }.

(** What a handler asks the outside to do: complete promises, and deliver
    [_acquire] after a delay. *)
Record effects := mkEffects { ops : list op; delay : option Z }.

(** [acquire]: [p] is the promise of a caller that has to wait; [true] when the
    permit is granted at once. *)
Definition acquire (now : Z) (p : nat) (l : Limiter) : bool * Limiter * effects :=
  match promises l with
  | _ :: _ =>
      (false, mkLimiter (interval l) (limit l) (promises l ++ [p]),
       mkEffects [] None)
  | [] =>
      if 0 <? Timeout_remaining (limit l) now then
        (false, mkLimiter (interval l) (limit l) (promises l ++ [p]),
         mkEffects [] (Some (Timeout_remaining (limit l) now)))
      else
        (true, mkLimiter (interval l) (now + interval l) (promises l),
         mkEffects [] None)
  end.

(** The loop of [_acquire]: drop promises whose future is discarded until one is
    found that is not; the granted promise, the rest, and the work done. *)
Fixpoint pop_discarded (discarded : nat -> bool) (ps : list nat)
    : option nat * list nat * list op :=
  match ps with
  | [] => (None, [], [])
  | p :: ps =>
      if negb (discarded p) then
        (Some p, ps, [OPromiseSet p VNothing; OPromiseDestroy p])
      else
        let '(g, rest, os) := pop_discarded discarded ps in
        (g, rest, OPromiseDestroy p :: os)
  end.

Definition _acquire (now : Z) (discarded : nat -> bool) (l : Limiter)
    : checked (option nat * Limiter * effects) :=
  match promises l with
  | [] => Abort "CHECK(!promises.empty())"
  | _ =>
      let '(g, rest, os) := pop_discarded discarded (promises l) in
      let lim := match g with Some _ => now + interval l | None => limit l end in
      Returns (g, mkLimiter (interval l) lim rest,
        mkEffects os
          (match rest with
           | [] => None
           | _ => Some (Timeout_remaining lim now)
           end))
  end.

(** [discard(future)]: the promises are not removed, only discarded. *)
Definition discard_future (f : nat) (l : Limiter) : list op :=
  flat_map (fun p => if decide (p = f) then [OPromiseDiscard p] else [])
    (promises l).

(** [finalize]. *)
Definition finalize_limiter (l : Limiter) : Limiter * list op :=
  (mkLimiter (interval l) (limit l) [],
   flat_map (fun p => [OPromiseDiscard p; OPromiseDestroy p]) (promises l)).

(** ** Executions *)

(** The time, the limiter, the outstanding delayed dispatches of [_acquire]
    (times before which they are not delivered) and the times of the grants,
    latest first. *)
Record world := mkWorld {
  time : Z;
  limiter : Limiter;
  delayed : list Z;
  grants : list Z;
}.

Definition later (w : world) (e : effects) : list Z :=
  match delay e with Some d => [time w + d] | None => [] end.

Inductive step : world -> world -> Prop :=
| step_time w t :
    time w <= t -> step w (mkWorld t (limiter w) (delayed w) (grants w))
| step_acquire w p b l e :
    acquire (time w) p (limiter w) = (b, l, e) ->
    step w (mkWorld (time w) l (later w e ++ delayed w)
              (if b : bool then time w :: grants w else grants w))
| step__acquire w d ds discarded g l e :
    delayed w = d :: ds -> d <= time w ->
    _acquire (time w) discarded (limiter w) = Returns (g, l, e) ->
    step w (mkWorld (time w) l (later w e ++ ds)
              (match g with Some _ => time w :: grants w | None => grants w end)).

Definition init (t i : Z) : world := mkWorld t (mkLimiter i t []) [] [].

(** Consecutive grants are at least [i] apart. *)
Fixpoint spaced (i : Z) (ts : list Z) : Prop :=
  match ts with
  | t :: ((t' :: _) as ts') => t' + i <= t /\ spaced i ts'
  | _ => True
  end.

(** A promise waits exactly when one dispatch of [_acquire] is outstanding, due
    no earlier than the next permit; permits are at least one interval after the
    last grant. *)
Definition inv (i : Z) (w : world) : Prop :=
  interval (limiter w) = i /\ spaced i (grants w) /\
  (match grants w with t :: _ => t + i <= limit (limiter w) | [] => True end) /\
  match promises (limiter w) with
  | [] => delayed w = []
  | _ => exists d, delayed w = [d] /\ limit (limiter w) <= d
  end.

Lemma remaining_spec lim now :
  Timeout_remaining lim now = Z.max (lim - now) 0.
Proof. unfold Timeout_remaining. destruct (0 <? _) eqn:E; bool_cases; lia. Qed.

Lemma spaced_cons i t ts :
  spaced i ts -> match ts with t' :: _ => t' + i <= t | [] => True end ->
  spaced i (t :: ts).
Proof. destruct ts; simpl; auto. Qed.

Lemma pop_discarded_rest discarded ps g rest os :
  pop_discarded discarded ps = (g, rest, os) -> g = None -> rest = [].
Proof.
  revert g rest os. induction ps as [|p ps IH]; simpl; intros g rest os H Hg;
    [by simplify_eq|].
  destruct (negb (discarded p)); [by simplify_eq|].
  destruct (pop_discarded discarded ps) as [[g' rest'] os'] eqn:E.
  simplify_eq. by eapply IH.
Qed.

Lemma acquire_inv i w p b l e :
  inv i w -> acquire (time w) p (limiter w) = (b, l, e) ->
  inv i (mkWorld (time w) l (later w e ++ delayed w)
           (if b then time w :: grants w else grants w)).
Proof.
  intros (Hi & Hs & Hg & Hd). unfold acquire.
  destruct (limiter w) as [iv lim [|q ps]]; simpl in *; intros He.
  - rewrite Hd. destruct (0 <? Timeout_remaining lim (time w)) eqn:E;
      simplify_eq/=; bool_cases; rewrite remaining_spec in E.
    + split_and!; simpl; auto.
      eexists; split; [done|]. rewrite remaining_spec. lia.
    + split_and!; simpl; auto; [|lia].
      apply spaced_cons; [done|]. destruct (grants w); [done|lia].
  - simplify_eq/=. split_and!; simpl; auto.
Qed.

Lemma _acquire_inv i w d ds discarded g l e :
  inv i w -> delayed w = d :: ds -> d <= time w ->
  _acquire (time w) discarded (limiter w) = Returns (g, l, e) ->
  inv i (mkWorld (time w) l (later w e ++ ds)
           (match g with Some _ => time w :: grants w | None => grants w end)).
Proof.
  intros (Hi & Hs & Hg & Hd) Hdel Hle. unfold _acquire.
  destruct (limiter w) as [iv lim ps]; simpl in *.
  destruct ps as [|q ps]; [congruence|].
  destruct Hd as (d' & Hd' & Hlim). rewrite Hd' in Hdel. simplify_eq.
  destruct (pop_discarded discarded (q :: ps)) as [[g' rest] os] eqn:Ep.
  intros He. simplify_eq. unfold later; simpl. rewrite app_nil_r.
  destruct g as [p|].
  - split_and!; simpl; auto; [|lia|].
    + apply spaced_cons; [done|]. destruct (grants w); [done|lia].
    + destruct rest; [done|]. eexists; split; [done|]. rewrite remaining_spec. lia.
  - apply pop_discarded_rest in Ep as ->; [|done]. by split_and!.
Qed.

Lemma limiter_step_inv i w w' : inv i w -> step w w' -> inv i w'.
Proof.
  intros Hi Hs. destruct Hs as [w t Ht|w p b l e He|w d ds disc g l e Hd Hle He].
  - exact Hi.
  - by eapply acquire_inv.
  - by eapply _acquire_inv.
Qed.

Lemma limiter_reach_inv t i w : steps step (init t i) w -> inv i w.
Proof.
  intros Hst. apply (steps_invariant step (inv i)) in Hst; [done|apply limiter_step_inv|].
  by split_and!.
Qed.

(** The rate limiter never exceeds its rate: however calls of [acquire],
    discards and delayed dispatches interleave with the passing of time, any two
    consecutive permits are at least one interval apart. *)
Theorem permits_are_spaced t i w :
  steps step (init t i) w -> spaced i (grants w).
Proof. intros Hst. by destruct (limiter_reach_inv _ _ _ Hst) as (_ & Hs & _). Qed.

Lemma permits_are_spaced_witness : spaced 10 [15; 5].
Proof.
  apply (permits_are_spaced 5 10 (mkWorld 15 (mkLimiter 10 25 []) [] [15; 5])).
  eapply steps_cons; [by apply (step_acquire _ 1%nat)|].
  eapply steps_cons; [by apply (step_acquire _ 2%nat)|].
  eapply steps_cons; [apply (step_time _ 15); simpl; lia|].
  eapply steps_cons; [eapply (step__acquire _ 15 [] (fun _ => false)); done|].
  apply steps_refl.
Defined.

(** A waiting caller is always served: whenever promises wait exactly one
    dispatch of [_acquire] is outstanding; when it is delivered it runs without
    aborting and grants the first waiting promise whose future is not
    discarded. *)
Theorem waiting_callers_are_served t i w p ps discarded :
  steps step (init t i) w -> promises (limiter w) = p :: ps ->
  (exists d, delayed w = [d]) /\
  exists g l e, _acquire (time w) discarded (limiter w) = Returns (g, l, e) /\
    g = head (filter (fun q => discarded q = false) (p :: ps)).
Proof.
  intros Hst Hp. destruct (limiter_reach_inv _ _ _ Hst) as (_ & _ & _ & Hd).
  rewrite Hp in Hd. split; [naive_solver|]. unfold _acquire. rewrite Hp.
  assert (Hg : forall qs, (pop_discarded discarded qs).1.1 =
    head (filter (fun q => discarded q = false) qs)).
  { induction qs as [|q qs IH]; simpl; [done|].
    destruct (discarded q) eqn:E; simpl.
    - rewrite filter_cons_False by congruence.
      by destruct (pop_discarded discarded qs) as [[? ?] ?].
    - by rewrite filter_cons_True. }
  specialize (Hg (p :: ps)).
  destruct (pop_discarded discarded (p :: ps)) as [[g rest] os].
  do 3 eexists. split; [reflexivity|done].
Qed.

Lemma waiting_callers_are_served_witness :
  exists g l e, _acquire 5 (fun q => (q =? 2)%nat) (mkLimiter 10 15 [2; 3]%nat)
    = Returns (g, l, e) /\ g = Some 3%nat.
Proof.
  apply (waiting_callers_are_served 5 10
    (mkWorld 5 (mkLimiter 10 15 [2; 3]%nat) [15] [5]) 2 [3%nat]).
  - eapply steps_cons; [by apply (step_acquire _ 1%nat)|].
    eapply steps_cons; [by apply (step_acquire _ 2%nat)|].
    eapply steps_cons; [by apply (step_acquire _ 3%nat)|].
    apply steps_refl.
  - reflexivity.
Defined.
