(* ===== verification/Events.v ===== *)
(** Events and the queues of the process manager: [event.hpp],
    [event_queue.hpp] (the default, locking implementation), [run_queue.hpp] and
    the decommissionable semaphore of [semaphore.hpp]. *)

From S2P Require Import Prelude.

(** ** Events

    The payload of an event (message, function, request, pid) is a number that
    identifies it; only the kind of event and the [inject] flag matter to the
    process manager. *)
Inductive Event :=
| MessageEvent (message : nat)
| DispatchEvent (f : nat)
| HttpEvent (request : nat)
| ExitedEvent (pid : nat)
| TerminateEvent (inject : bool).

#[export] Instance Event_eq_dec : EqDecision Event.
Proof. solve_decision. Defined.

(** [event->is<TerminateEvent>()]. *)
Definition is_terminate (e : Event) : bool :=
  match e with TerminateEvent _ => true | _ => false end.

(** [event->is<TerminateEvent>() && event->as<TerminateEvent>().inject]. *)
Definition injects (e : Event) : bool :=
  match e with TerminateEvent inject => inject | _ => false end.

(** ** [EventQueue] *)
Record EventQueue := mkEventQueue { events : list Event; comissioned : bool }.

Definition EventQueue_init : EventQueue := mkEventQueue [] true.

(** [Producer::enqueue]: [false] when the queue is decommissioned. *)
Definition events_enqueue (e : Event) (q : EventQueue) : bool * EventQueue :=
  if comissioned q then (true, mkEventQueue (events q ++ [e]) (comissioned q))
  else (false, q).

(** [Consumer::dequeue]: the consumer must have seen the queue not empty. *)
Definition events_dequeue (q : EventQueue) : checked (Event * EventQueue) :=
  match events q with
  | e :: es => Returns (e, mkEventQueue es (comissioned q))
  | [] => Abort "CHECK_NOTNULL(event)"
  end.

Definition events_empty (q : EventQueue) : bool :=
  match events q with [] => true | _ => false end.

(** [Consumer::decomission]: the events it deletes, and the queue left. *)
Definition events_decomission (q : EventQueue) : list Event * EventQueue :=
  (events q, mkEventQueue [] false).

(** [Consumer::count<T>]. *)
Definition events_count (kind : Event -> bool) (q : EventQueue) : nat :=
  length (filter (fun e => kind e = true) (events q)).

(** ** [DecomissionableKernelSemaphore]

    [value] is the kernel semaphore's count: [sem_post] increments it, [sem_wait]
    waits until it is positive and decrements it. *)
Record Semaphore := mkSemaphore { value : nat; waiters : nat; serving : bool }.

Definition Semaphore_init : Semaphore := mkSemaphore 0 0 true.

Definition signal (s : Semaphore) : Semaphore :=
  mkSemaphore (S (value s)) (waiters s) (serving s).

(** [KernelSemaphore::wait]; [None] while the caller has to wait. *)
Definition kernel_wait (s : Semaphore) : option Semaphore :=
  match value s with
  | 0 => None
  | S n => Some (mkSemaphore n (waiters s) (serving s))
  end.

Definition waiters_add (s : Semaphore) : Semaphore :=
  mkSemaphore (value s) (S (waiters s)) (serving s).
Definition waiters_sub (s : Semaphore) : Semaphore :=
  mkSemaphore (value s) (pred (waiters s)) (serving s).

(** [decomission]: the store, then one signal for every waiter. *)
Definition semaphore_close (s : Semaphore) : Semaphore :=
  mkSemaphore (value s) (waiters s) false.
Definition semaphore_flush (s : Semaphore) : Semaphore :=
  Nat.iter (waiters s) signal s.

Lemma signals_value n s : value (Nat.iter n signal s) = n + value s.
Proof. induction n; simpl; lia. Qed.

(** ** [RunQueue] *)
Record RunQueue := mkRunQueue {
  runnable : list nat;
  epoch : nat;
  semaphore : Semaphore;
}.

Definition RunQueue_init : RunQueue := mkRunQueue [] 0 Semaphore_init.

(** [extract]: the first occurrence of the process. *)
Fixpoint erase_first (p : nat) (l : list nat) : bool * list nat :=
  match l with
  | [] => (false, [])
  | q :: l =>
      if decide (p = q) then (true, l)
      else let '(b, l') := erase_first p l in (b, q :: l')
  end.

Definition runq_extract (p : nat) (r : RunQueue) : bool * RunQueue :=
  let '(b, l) := erase_first p (runnable r) in
  (b, mkRunQueue l (epoch r) (semaphore r)).

(** [enqueue] in its three steps: the list under the mutex, the epoch, and the
    semaphore. *)
Definition runq_push (p : nat) (r : RunQueue) : RunQueue :=
  mkRunQueue (runnable r ++ [p]) (epoch r) (semaphore r).
Definition runq_epoch (r : RunQueue) : RunQueue :=
  mkRunQueue (runnable r) (S (epoch r)) (semaphore r).
Definition runq_semaphore (f : Semaphore -> Semaphore) (r : RunQueue) : RunQueue :=
  mkRunQueue (runnable r) (epoch r) (f (semaphore r)).

(** [dequeue]: [nullptr] on an empty queue. *)
Definition runq_dequeue (r : RunQueue) : option nat * RunQueue :=
  match runnable r with
  | [] => (None, r)
  | p :: l => (Some p, mkRunQueue l (epoch r) (semaphore r))
  end.

Definition runq_empty (r : RunQueue) : bool :=
  match runnable r with [] => true | _ => false end.

(** How often a process is in the run queue. *)
Definition one (p q : nat) : nat := if decide (p = q) then 1 else 0.
Definition occurs (p : nat) (r : RunQueue) : nat := sum_list_by (one p) (runnable r).

Lemma one_refl p : one p p = 1.
Proof. unfold one. by rewrite decide_True. Qed.
Lemma one_ne p q : p <> q -> one p q = 0.
Proof. intros. unfold one. by rewrite decide_False. Qed.

Lemma erase_first_occurs p q l b l' :
  erase_first p l = (b, l') ->
  sum_list_by (one q) l = sum_list_by (one q) l' + (if b then one q p else 0) /\
  length l' <= length l.
Proof.
  revert b l'. induction l as [|r l IH]; simpl; intros b l' He; [by simplify_eq|].
  destruct (decide (p = r)) as [->|Hne]; [simplify_eq; lia|].
  destruct (erase_first p l) as [b'' l''] eqn:E. simplify_eq/=.
  destruct (IH b l'' eq_refl) as [H1 H2]. lia.
Qed.

Lemma runq_extract_occurs p q r b r' :
  runq_extract p r = (b, r') ->
  occurs q r = occurs q r' + (if b then one q p else 0) /\
  length (runnable r') <= length (runnable r) /\ semaphore r' = semaphore r.
Proof.
  unfold runq_extract, occurs. destruct (erase_first p (runnable r)) as [b' l] eqn:E.
  intros; simplify_eq/=. destruct (erase_first_occurs p q _ _ _ E). auto.
Qed.
