(* ===== verification/Scheduler.v ===== *)
(** The process manager of [process.cpp]: spawning, delivery, the run queue, the
    worker threads, [resume], [cleanup], [terminate], [wait] and [finalize].

    Every thread is a stack of frames; one step runs the top frame up to its next
    access of shared memory (an atomic, a critical section, a queue).  Frames are
    the points of the functions between two such accesses, so every interleaving
    of the source's atomic accesses is an execution of the model.  Code of the
    user (the body of [initialize] and [serve]) is a list of calls into the
    library chosen by the environment.

    [socket_manager->exited] is the component of Links.v: its mutex keeps a linked
    process from being destroyed while it is notified, here the notification holds
    a reference. *)

From S2P Require Import Prelude Clock Events.

(** ** Data *)

Inductive State := BOTTOM | BLOCKED | READY | TERMINATING.

#[export] Instance State_eq_dec : EqDecision State.
Proof. solve_decision. Defined.

(** [ProcessBase].  [reference] says that the shared reference of the process is
    set, [references] counts the live [ProcessReference]s, [weak] that
    [pid.reference] was set by [spawn].  [gate] is open or not.  The last four
    fields are history: whether the library is done with the object (destroyed, if
    it is managed), and the events accepted, taken from the queue and served. *)
Record ProcessBase := mkProcess {
  pid_id : nat;
  state : State;
  termination : bool;
  queue : EventQueue;
  manage : bool;
  reference : bool;
  references : nat;
  weak : bool;
  gate : bool;
  finished : bool;
  accepted : list Event;
  taken : list Event;
  served : list Event;
}.

Definition ProcessBase_init (id : nat) : ProcessBase :=
  mkProcess id BOTTOM false EventQueue_init false true 0 false false false [] [] [].

Definition with_state x p := mkProcess (pid_id p) x (termination p) (queue p)
  (manage p) (reference p) (references p) (weak p) (gate p) (finished p)
  (accepted p) (taken p) (served p).
Definition with_termination x p := mkProcess (pid_id p) (state p) x (queue p)
  (manage p) (reference p) (references p) (weak p) (gate p) (finished p)
  (accepted p) (taken p) (served p).
Definition with_manage x p := mkProcess (pid_id p) (state p) (termination p)
  (queue p) x (reference p) (references p) (weak p) (gate p) (finished p)
  (accepted p) (taken p) (served p).
Definition with_reference x p := mkProcess (pid_id p) (state p) (termination p)
  (queue p) (manage p) x (references p) (weak p) (gate p) (finished p)
  (accepted p) (taken p) (served p).
Definition with_references x p := mkProcess (pid_id p) (state p) (termination p)
  (queue p) (manage p) (reference p) x (weak p) (gate p) (finished p)
  (accepted p) (taken p) (served p).
Definition with_weak x p := mkProcess (pid_id p) (state p) (termination p)
  (queue p) (manage p) (reference p) (references p) x (gate p) (finished p)
  (accepted p) (taken p) (served p).
Definition with_gate x p := mkProcess (pid_id p) (state p) (termination p)
  (queue p) (manage p) (reference p) (references p) (weak p) x (finished p)
  (accepted p) (taken p) (served p).
Definition with_finished x p := mkProcess (pid_id p) (state p) (termination p)
  (queue p) (manage p) (reference p) (references p) (weak p) (gate p) x
  (accepted p) (taken p) (served p).
Definition accept q e p := mkProcess (pid_id p) (state p) (termination p) q
  (manage p) (reference p) (references p) (weak p) (gate p) (finished p)
  (accepted p ++ [e]) (taken p) (served p).
Definition take_events q es p := mkProcess (pid_id p) (state p) (termination p) q
  (manage p) (reference p) (references p) (weak p) (gate p) (finished p)
  (accepted p) (taken p ++ es) (served p).
Definition serve e p := mkProcess (pid_id p) (state p) (termination p) (queue p)
  (manage p) (reference p) (references p) (weak p) (gate p) (finished p)
  (accepted p) (taken p) (served p ++ [e]).

(** [UPID]: the id, whether the address is the local one, and the weak reference. *)
Record UPID := mkUPID { id : nat; local : bool; pid_reference : option nat }.

(** The [ProcessManager] with the processes it knows.  [processes_mutex] is held
    across steps only by [cleanup], for the process named here. *)
Record System := mkSystem {
  procs : gmap nat ProcessBase;
  processes : gmap nat nat;
  processes_mutex : option nat;
  runq : RunQueue;
  finalizing : bool;
  joining_threads : bool;
  running : Z;
  clock : Clock;
}.

Definition System_init : System :=
  mkSystem ∅ ∅ None RunQueue_init false false 0 Clock_init.

Definition set_procs x s := mkSystem x (processes s) (processes_mutex s) (runq s)
  (finalizing s) (joining_threads s) (running s) (clock s).
Definition set_processes x s := mkSystem (procs s) x (processes_mutex s) (runq s)
  (finalizing s) (joining_threads s) (running s) (clock s).
Definition set_mutex x s := mkSystem (procs s) (processes s) x (runq s)
  (finalizing s) (joining_threads s) (running s) (clock s).
Definition set_runq x s := mkSystem (procs s) (processes s) (processes_mutex s) x
  (finalizing s) (joining_threads s) (running s) (clock s).
Definition set_finalizing x s := mkSystem (procs s) (processes s)
  (processes_mutex s) (runq s) x (joining_threads s) (running s) (clock s).
Definition set_joining x s := mkSystem (procs s) (processes s) (processes_mutex s)
  (runq s) (finalizing s) x (running s) (clock s).
Definition add_running d s := mkSystem (procs s) (processes s) (processes_mutex s)
  (runq s) (finalizing s) (joining_threads s) (running s + d)%Z (clock s).
Definition set_clock x s := mkSystem (procs s) (processes s) (processes_mutex s)
  (runq s) (finalizing s) (joining_threads s) (running s) x.

Definition put (p : nat) (pr : ProcessBase) (s : System) : System :=
  set_procs (<[p := pr]> (procs s)) s.

(** ** Frames *)

(** The lambda of [init_threads], with [dequeue] and the semaphore's [wait];
    [signaled] says that the thread took a unit of the semaphore. *)
Inductive worker_pc :=
| WStart | WLoop | WWaiters | WComissioned | WSemaphore
| WWoken (signaled : bool) | WRunning (signaled : bool) | WDequeue (signaled : bool)
| WJoining.

Inductive resume_pc :=
| RLoad | RInitialize | RInitialized | RReference
| REmpty | RDequeue | RBlock | RRecheck | RTryReady
| RTermination (e : Event) | RPurge (e : Event)
| RFilter (terminate : bool) (e : Event) | RServe (e : Event)
| RServed (terminate : bool) | RLeave (terminate : bool)
| RCleanup | RDelete.

Inductive cleanup_pc := CState | CDecomission | CReset | CExpire | CGate.

Inductive enqueue_pc :=
| ELoad (e : Event) | EProduce (e : Event) | ETermination | EReload | ECas.

Inductive spawn_pc := SCheck | SInsert | SManage | SFail.

Inductive frame :=
| Worker (pc : worker_pc)
| Resume (p : nat) (pc : resume_pc)
| Cleanup (p : nat) (pc : cleanup_pc)
| Deliver (pid : UPID) (sender : option nat) (e : Event)
| DeliverTo (p : nat) (sender : option nat) (e : Event)
| Enqueue (p : nat) (pc : enqueue_pc)
| ManagerEnqueue (p : nat) (holds : option nat)
| RunqPush (p : nat) (holds : option nat)
| RunqEpoch (holds : option nat)
| RunqSignal (holds : option nat)
| Release (p : nat)
| New (id : nat) (m : bool) (creator : option nat)
| Spawn (p : nat) (m : bool) (pc : spawn_pc)
| Terminate (pid : UPID) (inject : bool) (sender : option nat)
| TerminateClock (p : nat) (inject : bool) (sender : option nat)
| Wait (pid : UPID)
| WaitState (p : nat)
| WaitExtract (p : nat)
| WaitDonated
| WaitGate (p : nat)
| Finalize
| FinalizePick
| FinalizeJoin
| FinalizeDecomission
| FinalizeSignal.

(** What the environment decides in a step: the time of the event loop, the
    installed filter, the calls made by user code, the processes linked to the one
    that exits, and the pid of the help process. *)
Record env := mkEnv {
  time : Z;
  filtered : nat -> Event -> bool;
  calls : list frame;
  linkers : list nat;
  help : UPID;
}.

Inductive outcome :=
| Blocks
| Goes (s : System) (fs : list frame)
| Aborts (message : string).

(** Look at a process the frame has a pointer to. *)
Definition with_process (p : nat) (s : System) (k : ProcessBase -> outcome)
    : outcome :=
  match procs s !! p with
  | Some pr => k pr
  | None => Aborts "access to an unknown process"
  end.

(** ** The functions *)

(** A new [ProcessReference], and its destruction. *)
Definition acquire (p : nat) (pr : ProcessBase) (s : System) : System :=
  put p (with_references (S (references pr)) pr) s.
Definition release (p : nat) (pr : ProcessBase) (s : System) : System :=
  put p (with_references (pred (references pr)) pr) s.

(** [use]: through the weak reference, or through the map of processes, under the
    mutex. *)
Inductive used := Found (p : nat) (pr : ProcessBase) | Missing | Busy.

Definition use (pid : UPID) (s : System) : used :=
  match
    match pid_reference pid with
    | Some p =>
        match procs s !! p with
        | Some pr =>
            if weak pr && (reference pr || (0 <? references pr)) then Some (p, pr)
            else None
        | None => None
        end
    | None => None
    end
  with
  | Some (p, pr) => Found p pr
  | None =>
      if local pid then
        match processes_mutex s with
        | Some _ => Busy
        | None =>
            match processes s !! id pid with
            | Some p =>
                match procs s !! p with
                | Some pr => Found p pr
                | None => Missing
                end
            | None => Missing
            end
        end
      else Missing
  end.

(** Use a pid, continue with a reference. *)
Definition with_use (pid : UPID) (s : System) (found : nat -> list frame)
    (missing : list frame) : outcome :=
  match use pid s with
  | Found p pr => Goes (acquire p pr s) (found p)
  | Missing => Goes s missing
  | Busy => Blocks
  end.

(** The clock of a process follows the one that acts on it, when the clock is
    paused. *)
Definition order_clock (e : env) (p : nat) (sender : option nat) (u : Update)
    (s : System) : System :=
  if paused (clock s) then
    let '(t, c) := now (time e) sender (clock s) in
    set_clock (update_process (time e) p t u c) s
  else s.

(** [ProcessBase::enqueue], called with a reference. *)
Definition enqueue_step (p : nat) (pc : enqueue_pc) (s : System) : outcome :=
  with_process p s (fun pr =>
  match pc with
  | ELoad e =>
      match state pr with
      | TERMINATING => Goes s [Release p]
      | _ => Goes s [Enqueue p (EProduce e)]
      end
  | EProduce e =>
      let '(enqueued, q) := events_enqueue e (queue pr) in
      if enqueued : bool then
        Goes (put p (accept q e pr) s)
          [Enqueue p (if injects e then ETermination else EReload)]
      else Goes s [Release p]
  | ETermination => Goes (put p (with_termination true pr) s) [Enqueue p EReload]
  | EReload =>
      match state pr with
      | BLOCKED => Goes s [Enqueue p ECas]
      | _ => Goes s [Release p]
      end
  | ECas =>
      match state pr with
      | BLOCKED => Goes (put p (with_state READY pr) s) [ManagerEnqueue p (Some p)]
      | _ => Goes s [Release p]
      end
  end).

Definition releases (holds : option nat) : list frame :=
  match holds with Some p => [Release p] | None => [] end.

(** [ProcessManager::enqueue] and [RunQueue::enqueue]. *)
Definition manager_enqueue (p : nat) (holds : option nat) (s : System) : outcome :=
  if joining_threads s then Goes s (releases holds) else Goes s [RunqPush p holds].

Definition runq_enqueue (f : frame) (s : System) : outcome :=
  match f with
  | RunqPush p holds => Goes (set_runq (runq_push p (runq s)) s) [RunqEpoch holds]
  | RunqEpoch holds => Goes (set_runq (runq_epoch (runq s)) s) [RunqSignal holds]
  | RunqSignal holds =>
      Goes (set_runq (runq_semaphore signal (runq s)) s) (releases holds)
  | _ => Blocks
  end.

(** [resume]. *)
Definition resume_step (e : env) (p : nat) (pc : resume_pc) (s : System) : outcome :=
  with_process p s (fun pr =>
  match pc with
  | RLoad =>
      match state pr with
      | BOTTOM => Goes s [Resume p RInitialize]
      | READY => Goes s [Resume p RReference]
      | _ => Aborts "CHECK(state == BOTTOM || state == READY)"
      end
  | RInitialize => Goes s (calls e ++ [Resume p RInitialized])
  | RInitialized => Goes (put p (with_state READY pr) s) [Resume p RReference]
  | RReference =>
      if reference pr then Goes (acquire p pr s) [Resume p REmpty]
      else Aborts "no reference to the resumed process"
  | REmpty =>
      if negb (events_empty (queue pr)) then Goes s [Resume p RDequeue]
      else Goes s [Resume p RBlock]
  | RDequeue =>
      match events_dequeue (queue pr) with
      | Returns (ev, q) => Goes (put p (take_events q [ev] pr) s) [Resume p (RTermination ev)]
      | Abort m => Aborts m
      end
  | RBlock => Goes (put p (with_state BLOCKED pr) s) [Resume p RRecheck]
  | RRecheck =>
      if negb (events_empty (queue pr)) then Goes s [Resume p RTryReady]
      else Goes s [Resume p (RLeave false)]
  | RTryReady =>
      match state pr with
      | BLOCKED => Goes (put p (with_state READY pr) s) [Resume p REmpty]
      | _ => Goes s [Resume p (RLeave false)]
      end
  | RTermination ev =>
      if termination pr then Goes s [Resume p (RPurge ev)]
      else Goes s [Resume p (RFilter false ev)]
  | RPurge ev =>
      if negb (is_terminate ev) then
        match events_dequeue (queue pr) with
        | Returns (ev', q) => Goes (put p (take_events q [ev'] pr) s) [Resume p (RPurge ev')]
        | Abort m => Aborts m
        end
      else Goes s [Resume p (RFilter true ev)]
  | RFilter terminate ev =>
      if filtered e p ev then
        Goes s [Resume p (if terminate then RLeave true else REmpty)]
      else Goes s [Resume p (RServe ev)]
  | RServe ev =>
      Goes (put p (serve ev pr) s) (calls e ++ [Resume p (RServed (is_terminate ev))])
  | RServed terminate => Goes s [Resume p (if terminate then RLeave true else REmpty)]
  | RLeave terminate =>
      Goes (release p pr s) (if terminate then [Resume p RCleanup] else [])
  | RCleanup => Goes s [Cleanup p CState]
  | RDelete =>
      if manage pr && negb (match state pr with BOTTOM | TERMINATING => true
                            | _ => false end)
      then Aborts "CHECK(state == BOTTOM || state == TERMINATING)"
      else Goes (put p (with_finished true pr) s) []
  end).

(** [cleanup], which returns to [resume]. *)
Definition cleanup_step (e : env) (p : nat) (pc : cleanup_pc) (s : System) : outcome :=
  with_process p s (fun pr =>
  match pc with
  | CState =>
      match state pr with
      | READY => Goes (put p (with_state TERMINATING pr) s) [Cleanup p CDecomission]
      | _ => Aborts "CHECK(state == READY)"
      end
  | CDecomission =>
      let '(es, q) := events_decomission (queue pr) in
      Goes (put p (take_events q es pr) s)
        [Deliver (help e) (Some p) (DispatchEvent (pid_id pr)); Cleanup p CReset]
  | CReset =>
      match processes_mutex s with
      | Some _ => Blocks
      | None =>
          if weak pr then
            Goes (set_mutex (Some p) (put p (with_reference false pr) s))
              [Cleanup p CExpire]
          else Aborts "CHECK_SOME(process->pid.reference)"
      end
  | CExpire =>
      if reference pr || (0 <? references pr) then Blocks
      else
        Goes (set_processes (delete (pid_id pr) (processes s)) s)
          (map (fun l => Deliver (mkUPID 0 false (Some l)) (Some p)
                           (ExitedEvent (pid_id pr))) (linkers e)
           ++ [Cleanup p CGate])
  | CGate =>
      Goes (set_mutex None (put p (with_gate true pr) s)) [Resume p RDelete]
  end).

(** [spawn], on a process object that no other call spawns. *)
Definition spawn_step (p : nat) (m : bool) (pc : spawn_pc) (s : System) : outcome :=
  with_process p s (fun pr =>
  match pc with
  | SCheck =>
      if finalizing s then Goes s [Spawn p m SFail]
      else if decide (state pr <> BOTTOM) then Goes s [Spawn p m SFail]
      else Goes s [Spawn p m SInsert]
  | SInsert =>
      match processes_mutex s with
      | Some _ => Blocks
      | None =>
          match processes s !! pid_id pr with
          | Some _ => Goes s [Spawn p m SFail]
          | None =>
              Goes (set_processes (<[pid_id pr := p]> (processes s))
                     (put p (with_weak true pr) s)) [Spawn p m SManage]
          end
      end
  | SManage =>
      Goes (put p (if m then with_manage true pr else pr) s) [ManagerEnqueue p None]
  | SFail =>
      if m && negb (match state pr with BOTTOM | TERMINATING => true | _ => false end)
      then Aborts "CHECK(state == BOTTOM || state == TERMINATING)"
      else Goes (put p (with_finished true pr) s) []
  end).

(** [ProcessBase::ProcessBase], on a fresh object. *)
Definition new_process (e : env) (i : nat) (m : bool) (creator : option nat)
    (s : System) : outcome :=
  let p := fresh (dom (procs s)) in
  Goes (order_clock e p creator FORCE (put p (ProcessBase_init i) s))
    [Spawn p m SCheck].

(** [wait]. *)
Definition wait_step (f : frame) (s : System) : outcome :=
  match f with
  | Wait pid => with_use pid s (fun p => [WaitState p]) []
  | WaitState p =>
      with_process p s (fun pr =>
      match state pr with
      | BOTTOM | READY => Goes (add_running 1 s) [WaitExtract p]
      | _ => Goes s [Release p; WaitGate p]
      end)
  | WaitExtract p =>
      let '(extracted, r) := runq_extract p (runq s) in
      if extracted : bool then
        Goes (set_runq r s) [Release p; Resume p RLoad; WaitDonated; WaitGate p]
      else Goes (add_running (-1) s) [Release p; WaitGate p]
  | WaitDonated => Goes (add_running (-1) s) []
  | WaitGate p =>
      match procs s !! p with
      | Some pr => if gate pr then Goes s [] else Blocks
      | None => Blocks
      end
  | _ => Blocks
  end.

(** The worker threads: [init_threads] and [dequeue]. *)
Definition worker_step (pc : worker_pc) (s : System) : outcome :=
  match pc with
  | WStart => Goes (add_running 1 s) [Worker WLoop]
  | WLoop => Goes (add_running (-1) s) [Worker WWaiters]
  | WWaiters =>
      Goes (set_runq (runq_semaphore waiters_add (runq s)) s) [Worker WComissioned]
  | WComissioned =>
      if serving (semaphore (runq s)) then Goes s [Worker WSemaphore]
      else Goes s [Worker (WWoken false)]
  | WSemaphore =>
      match kernel_wait (semaphore (runq s)) with
      | Some sem =>
          Goes (set_runq (runq_semaphore (fun _ => sem) (runq s)) s)
            [Worker (WWoken true)]
      | None => Blocks
      end
  | WWoken b =>
      Goes (set_runq (runq_semaphore waiters_sub (runq s)) s) [Worker (WRunning b)]
  | WRunning b => Goes (add_running 1 s) [Worker (WDequeue b)]
  | WDequeue b =>
      match runq_dequeue (runq s) with
      | (Some p, r) => Goes (set_runq r s) [Resume p RLoad; Worker WLoop]
      | (None, r) => Goes (set_runq r s) [Worker WJoining]
      end
  | WJoining =>
      if joining_threads s then Goes (add_running (-1) s) []
      else Goes s [Worker WLoop]
  end.

(** [terminate]: with a reference, the clock, then [deliver]. *)
Definition terminate_step (e : env) (f : frame) (s : System) : outcome :=
  match f with
  | Terminate pid inject sender =>
      with_use pid s (fun p => [TerminateClock p inject sender]) []
  | TerminateClock p inject sender =>
      Goes (order_clock e p sender SAFE s) [DeliverTo p sender (TerminateEvent inject)]
  | _ => Blocks
  end.

(** [deliver] and [_deliver]. *)
Definition deliver_step (e : env) (f : frame) (s : System) : outcome :=
  match f with
  | Deliver pid sender ev => with_use pid s (fun p => [DeliverTo p sender ev]) []
  | DeliverTo p sender ev => Goes (order_clock e p sender SAFE s) [Enqueue p (ELoad ev)]
  | _ => Blocks
  end.

(** [finalize], up to the joining of the threads. *)
Definition finalize_step (f : frame) (s : System) : outcome :=
  match f with
  | Finalize => Goes (set_finalizing true s) [FinalizePick]
  | FinalizePick =>
      match processes_mutex s with
      | Some _ => Blocks
      | None =>
          match map_to_list (processes s) with
          | [] => Goes s [FinalizeJoin]
          | (i, p) :: _ =>
              let pid := mkUPID i true (Some p) in
              Goes s [Terminate pid false None; Wait pid; FinalizePick]
          end
      end
  | FinalizeJoin => Goes (set_joining true s) [FinalizeDecomission]
  | FinalizeDecomission =>
      Goes (set_runq (runq_semaphore semaphore_close (runq s)) s) [FinalizeSignal]
  | FinalizeSignal =>
      Goes (set_runq (runq_semaphore semaphore_flush (runq s)) s) []
  | _ => Blocks
  end.

Definition advance_frame (e : env) (f : frame) (s : System) : outcome :=
  match f with
  | Worker pc => worker_step pc s
  | Resume p pc => resume_step e p pc s
  | Cleanup p pc => cleanup_step e p pc s
  | Deliver _ _ _ | DeliverTo _ _ _ => deliver_step e f s
  | Enqueue p pc => enqueue_step p pc s
  | ManagerEnqueue p holds => manager_enqueue p holds s
  | RunqPush _ _ | RunqEpoch _ | RunqSignal _ => runq_enqueue f s
  | Release p => with_process p s (fun pr => Goes (release p pr s) [])
  | New i m creator => new_process e i m creator s
  | Spawn p m pc => spawn_step p m pc s
  | Terminate _ _ _ | TerminateClock _ _ _ => terminate_step e f s
  | Wait _ | WaitState _ | WaitExtract _ | WaitDonated | WaitGate _ => wait_step f s
  | Finalize | FinalizePick | FinalizeJoin | FinalizeDecomission | FinalizeSignal =>
      finalize_step f s
  end.

(** ** Executions *)

(** The calls user code can make. *)
Definition user (f : frame) : bool :=
  match f with
  | Deliver _ _ _ | New _ _ _ | Terminate _ _ _ | Wait _ | Finalize => true
  | _ => false
  end.

(** User code makes only such calls, and filters do not drop terminate events. *)
Definition ok_env (e : env) : Prop :=
  forallb user (calls e) = true /\ forall p i, filtered e p (TerminateEvent i) = false.

Definition config : Type := System * list (list frame).

Inductive sched : config -> config -> Prop :=
| sched_step e i f k s s' fs ts :
    ts !! i = Some (f :: k) -> ok_env e ->
    advance_frame e f s = Goes s' fs ->
    sched (s, ts) (s', <[i := fs ++ k]> ts).

(** Any number of user threads and worker threads. *)
Definition started (ts : list (list frame)) : Prop :=
  Forall (fun t => t = [Worker WStart] \/ forallb user t = true) ts.

Definition reachable (c : config) : Prop :=
  exists ts, started ts /\ steps sched (System_init, ts) c.
