(* ===== verification/SchedulerInv.v ===== *)
(** The invariant of the process manager.

    Every process that the library has to run is owned exactly once: by the frame
    that runs, cleans up or enqueues it, or by its place in the run queue; nobody
    owns a BLOCKED process.  Frames that own a process rely on its state ([ok]);
    frames that do not own it change it only in ways the owner does not notice. *)

From S2P Require Import Prelude Clock Events Scheduler.

(** ** Who has what *)

(** The frames of [resume] that own the process they run. *)
Definition owns (pc : resume_pc) : bool :=
  match pc with RRecheck | RTryReady | RLeave false => false | _ => true end.

Definition token (q : nat) (f : frame) : nat :=
  match f with
  | Resume p pc => if owns pc then one q p else 0
  | Cleanup p _ | ManagerEnqueue p _ | RunqPush p _ | Spawn p _ _ => one q p
  | _ => 0
  end.

(** The frames that hold a [ProcessReference]. *)
Definition holding (pc : resume_pc) : bool :=
  match pc with
  | RLoad | RInitialize | RInitialized | RReference | RCleanup | RDelete => false
  | _ => true
  end.

Definition held (q : nat) (h : option nat) : nat :=
  match h with Some p => one q p | None => 0 end.

Definition refs (q : nat) (f : frame) : nat :=
  match f with
  | Resume p pc => if holding pc then one q p else 0
  | DeliverTo p _ _ | Enqueue p _ | Release p | TerminateClock p _ _
  | WaitState p | WaitExtract p => one q p
  | ManagerEnqueue _ h | RunqPush _ h | RunqEpoch h | RunqSignal h => held q h
  | _ => 0
  end.

(** The frames that are about to look whether a BLOCKED process must be woken. *)
Definition wakes (q : nat) (f : frame) : nat :=
  match f with
  | Enqueue p (ETermination | EReload | ECas) => one q p
  | Resume p (RRecheck | RTryReady) => one q p
  | _ => 0
  end.

(** The frames about to set the termination flag. *)
Definition flags (q : nat) (f : frame) : nat :=
  match f with Enqueue p ETermination => one q p | _ => 0 end.

(** The frames in which the process is going to terminate. *)
Definition terms (q : nat) (f : frame) : nat :=
  match f with
  | Resume p (RTermination e | RPurge e | RFilter _ e | RServe e) =>
      if is_terminate e then one q p else 0
  | Resume p (RServed t | RLeave t) => if t then one q p else 0
  | Resume p RCleanup | Cleanup p CState => one q p
  | _ => 0
  end.

(** The threads that will look at the run queue without waiting, and those that
    still have to signal. *)
Definition wakeups (f : frame) : nat :=
  match f with
  | Worker (WWoken b | WRunning b | WDequeue b) => if b then 1 else 0
  | RunqEpoch _ | RunqSignal _ => 1
  | _ => 0
  end.

(** ** What the owner relies on *)

Definition has_terminate (es : list Event) : bool := existsb is_terminate es.

(** The process is in the map and references to it can be had. *)
Definition live (s : System) (p : nat) (pr : ProcessBase) : Prop :=
  reference pr = true /\ weak pr = true /\ processes s !! pid_id pr = Some p /\
  processes_mutex s <> Some p.

(** No reference to the process exists or can be had. *)
Definition sealed (s : System) (p : nat) (pr : ProcessBase) : Prop :=
  references pr = 0 /\ (weak pr = false \/ reference pr = false) /\
  processes s !! pid_id pr <> Some p.

Definition closed (pr : ProcessBase) : Prop := comissioned (queue pr) = false.

(** The event the owner has taken last, and has not served. *)
Definition in_hand (pr : ProcessBase) (e : Event) : Prop :=
  exists l, taken pr = l ++ [e] /\ sublist (served pr) l.

Definition ok_resume (s : System) (p : nat) (pr : ProcessBase) (pc : resume_pc)
    : Prop :=
  match pc with
  | RLoad => live s p pr /\ (state pr = BOTTOM \/ state pr = READY)
  | RInitialize | RInitialized => live s p pr /\ state pr = BOTTOM
  | RDequeue => live s p pr /\ state pr = READY /\ events (queue pr) <> []
  | RTermination e | RServe e => live s p pr /\ state pr = READY /\ in_hand pr e
  | RPurge e =>
      live s p pr /\ state pr = READY /\ in_hand pr e /\
      (is_terminate e = true \/ has_terminate (events (queue pr)) = true)
  | RFilter t e =>
      live s p pr /\ state pr = READY /\ in_hand pr e /\
      (t = true -> is_terminate e = true)
  | RDelete =>
      state pr = TERMINATING /\ sealed s p pr /\ closed pr /\
      processes_mutex s <> Some p
  | RRecheck | RTryReady | RLeave false => True
  | _ => live s p pr /\ state pr = READY
  end.

Definition ok_cleanup (s : System) (p : nat) (pr : ProcessBase) (pc : cleanup_pc)
    : Prop :=
  match pc with
  | CState => live s p pr /\ state pr = READY
  | CDecomission => live s p pr /\ state pr = TERMINATING
  | CReset => live s p pr /\ state pr = TERMINATING /\ closed pr
  | CExpire =>
      state pr = TERMINATING /\ closed pr /\ reference pr = false /\
      weak pr = true /\ processes_mutex s = Some p /\
      processes s !! pid_id pr = Some p
  | CGate =>
      state pr = TERMINATING /\ closed pr /\ sealed s p pr /\
      processes_mutex s = Some p
  end.

Definition ok_spawn (s : System) (p : nat) (pr : ProcessBase) (pc : spawn_pc) : Prop :=
  state pr = BOTTOM /\ processes_mutex s <> Some p /\
  match pc with
  | SManage => live s p pr
  | _ => weak pr = false /\ reference pr = true /\ sealed s p pr
  end.

Definition ok (s : System) (f : frame) : Prop :=
  match f with
  | Resume p pc => exists pr, procs s !! p = Some pr /\ ok_resume s p pr pc
  | Cleanup p pc => exists pr, procs s !! p = Some pr /\ ok_cleanup s p pr pc
  | ManagerEnqueue p _ | RunqPush p _ =>
      exists pr, procs s !! p = Some pr /\ live s p pr /\
        (state pr = BOTTOM \/ state pr = READY)
  | Spawn p _ pc => exists pr, procs s !! p = Some pr /\ ok_spawn s p pr pc
  | _ => True
  end.

(** ** The invariant *)

Definition owners (pr : ProcessBase) : nat :=
  if finished pr then 0 else if decide (state pr = BLOCKED) then 0 else 1.

Definition total (m : frame -> nat) (fs : list frame) : nat := sum_list_by m fs.

Record pinv (s : System) (fs : list frame) (p : nat) (pr : ProcessBase) : Prop := {
  pi_token : total (token p) fs + occurs p (runq s) = owners pr;
  pi_refs : references pr = total (refs p) fs;
  pi_wakes : state pr = BLOCKED -> events (queue pr) <> [] -> 0 < total (wakes p) fs;
  pi_terms :
    termination pr = true \/ 0 < total (flags p) fs ->
    state pr = TERMINATING \/ has_terminate (events (queue pr)) = true \/
    0 < total (terms p) fs;
  pi_fifo : accepted pr = taken pr ++ events (queue pr);
  pi_served : sublist (served pr) (taken pr);
  pi_queued : 0 < occurs p (runq s) ->
    live s p pr /\ (state pr = BOTTOM \/ state pr = READY);
  pi_blocked : state pr = BLOCKED -> live s p pr /\ finished pr = false;
  pi_finished : finished pr = true ->
    sealed s p pr /\ processes_mutex s <> Some p /\ (weak pr = true -> closed pr);
  pi_mapped : processes s !! pid_id pr = Some p ->
    weak pr = true /\ (reference pr = true \/ processes_mutex s = Some p);
  pi_closed : closed pr -> events (queue pr) = [];
  pi_unspawned : weak pr = false -> references pr = 0 /\ events (queue pr) = [];
}.

Record core (s : System) (fs : list frame) : Prop := {
  co_process : forall p pr, procs s !! p = Some pr -> pinv s fs p pr;
  co_none : forall p, procs s !! p = None ->
    total (token p) fs + total (refs p) fs + occurs p (runq s) = 0 /\
    processes_mutex s <> Some p;
  co_map : forall i p, processes s !! i = Some p ->
    exists pr, procs s !! p = Some pr /\ pid_id pr = i;
  co_wakeups : length (runnable (runq s)) <=
    value (semaphore (runq s)) + total wakeups fs;
  co_ok : Forall (ok s) fs;
}.

(** A process that [ProcessManager::enqueue] dropped because the threads are being
    joined: nobody runs it any more.  The invariant accounts for it as if the call
    had not returned. *)
Definition dropped (f : frame) : Prop := exists p, f = ManagerEnqueue p None.

Definition inv (s : System) (fs : list frame) : Prop :=
  exists lost, core s (fs ++ lost) /\ Forall dropped lost /\
    (joining_threads s = false -> lost = []).

(** ** Totals *)

Lemma total_app m l1 l2 : total m (l1 ++ l2) = total m l1 + total m l2.
Proof. apply sum_list_by_app. Qed.

#[export] Instance total_perm m : Proper ((≡ₚ) ==> eq) (total m).
Proof. unfold total. induction 1; simpl; lia. Qed.

Lemma total_zero m fs : (forall f, f ∈ fs -> m f = 0) -> total m fs = 0.
Proof.
  unfold total. induction fs as [|f fs IH]; intros H; [done|]. simpl.
  rewrite (H f) by set_solver. rewrite IH; [done|set_solver].
Qed.

Lemma total_elem m fs f : f ∈ fs -> m f <= total m fs.
Proof.
  unfold total. induction fs; intros H; [set_solver|]. apply elem_of_cons in H as [->|H];
    simpl; [lia|]. specialize (IHfs H). lia.
Qed.

Lemma total_le m m' fs : (forall f, m f <= m' f) -> total m fs <= total m' fs.
Proof. unfold total. intros H. induction fs; simpl; [lia|]. specialize (H a). lia. Qed.

(** User calls have nothing and rely on nothing. *)
Definition neutral (f : frame) : Prop :=
  (forall q, token q f = 0 /\ refs q f = 0 /\ wakes q f = 0 /\ flags q f = 0 /\
     terms q f = 0) /\ wakeups f = 0 /\ forall s, ok s f.

Lemma user_neutral f : user f = true -> neutral f.
Proof. destruct f; intros; try done; repeat split. Qed.

Lemma one_le p q : one p q <= 1.
Proof. unfold one. destruct (decide _); lia. Qed.

Lemma wakes_refs q f : wakes q f <= refs q f.
Proof. destruct f as [|? []|? []| | |? []| | | | | | |? ? []| | | | | | | | | | | |]; simpl; lia. Qed.

Lemma flags_refs q f : flags q f <= refs q f.
Proof. destruct f as [| | | | |? []| | | | | | | | | | | | | | | | | | |]; simpl; lia. Qed.

Lemma terms_token q f : terms q f <= token q f.
Proof.
  destruct f as [|? []|? []| | | | | | | | | | | | | | | | | | | | | |]; simpl;
    repeat case_match; simplify_eq/=; try lia; done.
Qed.

(** ** Steps that the owner of a process does not notice *)

Record quiet (s s' : System) (p : nat) (pr pr' : ProcessBase) : Prop := {
  qu_state : state pr' = state pr;
  qu_id : pid_id pr' = pid_id pr;
  qu_reference : reference pr' = reference pr;
  qu_weak : weak pr' = weak pr;
  qu_closed : comissioned (queue pr') = comissioned (queue pr);
  qu_events : exists l, events (queue pr') = events (queue pr) ++ l;
  qu_taken : taken pr' = taken pr;
  qu_served : served pr' = served pr;
  qu_refs : sealed s p pr -> references pr' = references pr;
  qu_map : processes s' !! pid_id pr = Some p <-> processes s !! pid_id pr = Some p;
  qu_mutex : processes_mutex s' = Some p <-> processes_mutex s = Some p;
}.

Lemma quiet_live s s' p pr pr' :
  quiet s s' p pr pr' -> live s p pr -> live s' p pr'.
Proof.
  intros [] (? & ? & ? & Hm). unfold live. rewrite qu_id0.
  split_and!; try congruence; [by apply qu_map0|by rewrite qu_mutex0].
Qed.

Lemma quiet_sealed s s' p pr pr' :
  quiet s s' p pr pr' -> sealed s p pr -> sealed s' p pr'.
Proof.
  intros [] Hs. pose proof Hs as (? & ? & ?). unfold sealed.
  rewrite qu_refs0, qu_weak0, qu_reference0, qu_id0 by done. by rewrite qu_map0.
Qed.

Lemma quiet_ok_resume s s' p pr pr' pc :
  quiet s s' p pr pr' -> ok_resume s p pr pc -> ok_resume s' p pr' pc.
Proof.
  intros Hq. pose proof (quiet_live _ _ _ _ _ Hq). pose proof (quiet_sealed _ _ _ _ _ Hq).
  destruct Hq as [? ? ? ? ? [l Hl] ? ? ? ? ?].
  destruct pc as [| | | | | | | | | |e| | |[]|[]| |]; simpl; unfold closed in *;
    unfold in_hand in *;
    rewrite ?qu_state0, ?qu_closed0, ?qu_mutex0, ?qu_taken0, ?qu_served0, ?Hl;
    try (by intuition auto).
  - intros (? & ? & ?). split_and!; auto. by destruct (events (queue pr)).
  - intros (? & ? & ? & [?|He]); split_and!; auto. right. unfold has_terminate in *.
    rewrite existsb_app, He. done.
Qed.

Lemma quiet_ok s s' p pr pr' g :
  procs s !! p = Some pr -> procs s' !! p = Some pr' -> quiet s s' p pr pr' ->
  0 < token p g -> ok s g -> ok s' g.
Proof.
  intros Hp Hp' Hq Ht.
  assert (Hone : forall q, 0 < one p q -> q = p).
  { intros q. unfold one. destruct (decide (p = q)); [done|lia]. }
  destruct g as [|q pc|q pc| | | |q ?|q ?| | | | |q ? pc| | | | | | | | | | | |]; simpl in *;
    try lia.
  - destruct (owns pc); [|lia]. apply Hone in Ht as ->. intros (? & ? & ?). simplify_eq.
    eauto using quiet_ok_resume.
  - apply Hone in Ht as ->. intros (? & ? & Hok). simplify_eq. exists pr'. split; [done|].
    pose proof (quiet_live _ _ _ _ _ Hq). pose proof (quiet_sealed _ _ _ _ _ Hq).
    destruct Hq. destruct pc; simpl in *; unfold closed in *;
      rewrite ?qu_state0, ?qu_closed0, ?qu_reference0, ?qu_weak0, ?qu_mutex0, ?qu_id0,
        ?qu_map0; intuition auto.
  - apply Hone in Ht as ->. intros (? & ? & ? & ?). simplify_eq. exists pr'.
    rewrite (qu_state _ _ _ _ _ Hq). eauto using quiet_live.
  - apply Hone in Ht as ->. intros (? & ? & ? & ?). simplify_eq. exists pr'.
    rewrite (qu_state _ _ _ _ _ Hq). eauto using quiet_live.
  - apply Hone in Ht as ->. intros (? & ? & ? & ? & ?). simplify_eq. exists pr'.
    pose proof (quiet_live _ _ _ _ _ Hq). pose proof (quiet_sealed _ _ _ _ _ Hq).
    destruct Hq. unfold ok_spawn. rewrite qu_state0. rewrite qu_mutex0. split_and!; auto.
    destruct pc; rewrite ?qu_weak0, ?qu_reference0; intuition auto.
Qed.

(** A frame without a token needs at most that its process exists. *)
Definition grows (s s' : System) : Prop :=
  forall q, is_Some (procs s !! q) -> is_Some (procs s' !! q).

Lemma unowned_ok s s' g :
  grows s s' -> (forall q, token q g = 0) -> ok s g -> ok s' g.
Proof.
  intros Hg Ht.
  destruct g as [|q pc|q pc| | | |q ?|q ?| | | | |q ? pc| | | | | | | | | | | |]; simpl in *;
    try done; specialize (Ht q); rewrite ?one_refl in Ht; try done.
  intros (pr & Hpr & Hok). destruct (Hg q) as [pr' Hpr']; [eauto|].
  exists pr'. split; [done|]. by destruct pc as [| | | | | | | | | | | | |[]|[]| |].
Qed.

Lemma token_cases g : (forall q, token q g = 0) \/ exists q, 0 < token q g.
Proof.
  destruct g as [|q pc|q pc| | | |q ?|q ?| | | | |q ? pc| | | | | | | | | | | |];
    simpl; auto; try (right; exists q; rewrite one_refl; lia).
  destruct (owns pc); [right; exists q; rewrite one_refl; lia|by left].
Qed.

Lemma owner_exists s q g : 0 < token q g -> ok s g -> is_Some (procs s !! q).
Proof.
  intros Ht Hg.
  destruct g as [|p pc|p pc| | | |p ?|p ?| | | | |p ? pc| | | | | | | | | | | |];
    simpl in *; try lia; destruct Hg as (pr & Hpr & _); exists pr;
    try (destruct (owns pc); [|lia]);
    unfold one in Ht; destruct (decide (q = p)); try lia; congruence.
Qed.

(** The processes a step does not touch. *)
Record far (s s' : System) (f : frame) (fs : list frame) (q : nat) : Prop := {
  fa_procs : procs s' !! q = procs s !! q;
  fa_map : forall i, processes s' !! i = Some q <-> processes s !! i = Some q;
  fa_mutex : processes_mutex s' = Some q <-> processes_mutex s = Some q;
  fa_occurs : occurs q (runq s') = occurs q (runq s);
  fa_token : total (token q) fs = token q f;
  fa_refs : total (refs q) fs = refs q f;
  fa_wakes : total (wakes q) fs = wakes q f;
  fa_flags : total (flags q) fs = flags q f;
  fa_terms : total (terms q) fs = terms q f;
}.

Lemma far_live s s' f fs q pr : far s s' f fs q -> live s q pr -> live s' q pr.
Proof.
  intros [] (? & ? & ? & ?). unfold live. rewrite fa_map0, fa_mutex0. auto.
Qed.

Lemma far_sealed s s' f fs q pr : far s s' f fs q -> sealed s q pr -> sealed s' q pr.
Proof. intros [] (? & ? & ?). unfold sealed. rewrite fa_map0. auto. Qed.

Lemma far_pinv s s' f fs rest q pr :
  far s s' f fs q -> pinv s (f :: rest) q pr -> pinv s' (fs ++ rest) q pr.
Proof.
  intros Hf Hi. pose proof (fun pr => far_live _ _ _ _ _ pr Hf) as Hl.
  pose proof (fun pr => far_sealed _ _ _ _ _ pr Hf) as Hs.
  destruct Hf, Hi. unfold total in *. simpl in *.
  split; unfold total; rewrite ?sum_list_by_app, ?fa_occurs0, ?fa_token0, ?fa_refs0,
    ?fa_wakes0, ?fa_flags0, ?fa_terms0; auto.
  - intros Ho. destruct (pi_queued0 Ho). auto.
  - intros Hb. destruct (pi_blocked0 Hb). auto.
  - intros Hb. destruct (pi_finished0 Hb) as (? & ? & ?). split_and!; auto.
    by rewrite fa_mutex0.
  - rewrite fa_map0, fa_mutex0. done.
Qed.

Lemma far_quiet s s' f fs q pr : far s s' f fs q -> quiet s s' q pr pr.
Proof. intros []. split; auto. exists []. by rewrite app_nil_r. Qed.

(** ** One step, process by process *)

(** The frames other than the one that steps, given the effect on the process [p]
    it is about: its owner, if it is another frame, does not notice. *)
Lemma rest_ok s s' f fs rest p pr pr' :
  core s (f :: rest) -> procs s !! p = Some pr -> procs s' !! p = Some pr' ->
  (forall q, q <> p -> far s s' f fs q) ->
  (token p f = 0 -> state pr <> BLOCKED -> finished pr = false ->
   quiet s s' p pr pr') ->
  Forall (ok s') rest.
Proof.
  intros Hc Hp Hp' Hfar Hq. pose proof (co_ok _ _ Hc) as Hok.
  apply Forall_cons in Hok as [_ Hok].
  assert (Hgr : grows s s').
  { intros q Hs. destruct (decide (q = p)) as [->|Hne]; [by rewrite Hp'|].
    by rewrite (fa_procs _ _ _ _ _ (Hfar q Hne)). }
  apply Forall_forall. intros g Hg. rewrite Forall_forall in Hok. specialize (Hok g Hg).
  destruct (token_cases g) as [Hz|[q Hq']]; [by eapply unowned_ok|].
  destruct (decide (q = p)) as [->|Hne].
  - pose proof (pi_token _ _ _ _ (co_process _ _ Hc p pr Hp)) as Ht.
    unfold total in Ht. simpl in Ht.
    assert (token p g <= total (token p) rest) by (by apply total_elem).
    unfold total in *. unfold owners in Ht.
    destruct (finished pr) eqn:?; [lia|].
    destruct (decide (state pr = BLOCKED)); [lia|].
    eapply (quiet_ok s s' p pr pr'); auto. apply Hq; [lia|done|done].
  - destruct (procs s !! q) as [prq|] eqn:E.
    + eapply (quiet_ok s s' q prq prq); [done| |by eapply far_quiet, Hfar|done|done].
      by rewrite (fa_procs _ _ _ _ _ (Hfar q Hne)).
    + destruct (owner_exists s q g Hq' Hok). congruence.
Qed.

Lemma core_step s s' f fs rest p pr pr' :
  core s (f :: rest) -> procs s !! p = Some pr -> procs s' !! p = Some pr' ->
  (forall q, q <> p -> far s s' f fs q) ->
  (token p f = 0 -> state pr <> BLOCKED -> finished pr = false ->
   quiet s s' p pr pr') ->
  pid_id pr' = pid_id pr ->
  (forall i, processes s' !! i = Some p -> pid_id pr = i) ->
  pinv s' (fs ++ rest) p pr' ->
  Forall (ok s') fs ->
  length (runnable (runq s')) + value (semaphore (runq s)) + wakeups f <=
    length (runnable (runq s)) + value (semaphore (runq s')) + total wakeups fs
  \/ length (runnable (runq s')) = 0 ->
  core s' (fs ++ rest).
Proof.
  intros Hc Hp Hp' Hfar Hq Hid Hmap Hpi Hok Hw. split.
  - intros q prq Hq'. destruct (decide (q = p)) as [->|Hne]; [by simplify_eq|].
    eapply far_pinv; [by apply Hfar|]. apply (co_process _ _ Hc).
    by rewrite <- (fa_procs _ _ _ _ _ (Hfar q Hne)).
  - intros q Hq'. destruct (decide (q = p)) as [->|Hne]; [congruence|].
    destruct (Hfar q Hne) as [H1 H2 H3 H4 H5 H6 ? ? ?]. rewrite H1 in Hq'.
    destruct (co_none _ _ Hc q Hq') as [Hz Hm]. unfold total in *. simpl in Hz.
    rewrite !sum_list_by_app, H4, H5, H6, H3. split; [lia|done].
  - intros i q Hi. destruct (decide (q = p)) as [->|Hne].
    { exists pr'. split; [done|]. rewrite Hid. by apply Hmap. }
    pose proof (Hfar q Hne) as Hf. rewrite (fa_map _ _ _ _ _ Hf) in Hi.
    rewrite (fa_procs _ _ _ _ _ Hf). by apply (co_map _ _ Hc).
  - pose proof (co_wakeups _ _ Hc) as Hwu. rewrite total_app. unfold total in *.
    simpl in Hwu. lia.
  - apply Forall_app. split; [done|]. by eapply rest_ok.
Qed.

(** Steps that concern no process. *)
Lemma core_still s s' f fs rest :
  core s (f :: rest) -> procs s' = procs s -> (forall q, far s s' f fs q) ->
  Forall (ok s') fs ->
  length (runnable (runq s')) + value (semaphore (runq s)) + wakeups f <=
    length (runnable (runq s)) + value (semaphore (runq s')) + total wakeups fs
  \/ length (runnable (runq s')) = 0 ->
  core s' (fs ++ rest).
Proof.
  intros Hc Hps Hfar Hok Hw. split.
  - intros q pr Hq. rewrite Hps in Hq. eapply far_pinv; [done|]. by apply (co_process _ _ Hc).
  - intros q Hq. rewrite Hps in Hq. destruct (co_none _ _ Hc q Hq) as [Hz Hm].
    destruct (Hfar q) as [? ? H3 H4 H5 H6 ? ? ?]. unfold total in *. simpl in Hz.
    rewrite !sum_list_by_app, H4, H5, H6, H3. split; [lia|done].
  - intros i q Hi. rewrite Hps. apply (co_map _ _ Hc). by rewrite <- (fa_map _ _ _ _ _ (Hfar q)).
  - pose proof (co_wakeups _ _ Hc). rewrite total_app. unfold total in *. simpl in *. lia.
  - apply Forall_app. split; [done|]. pose proof (co_ok _ _ Hc) as Hr.
    apply Forall_cons in Hr as [_ Hr]. eapply Forall_impl; [exact Hr|]. intros g Hg.
    assert (Hgr : grows s s') by (intros q; by rewrite Hps).
    destruct (token_cases g) as [Hz|[q Hq']]; [by eapply unowned_ok|].
    destruct (owner_exists s q g Hq' Hg) as [pr Hpr].
    eapply (quiet_ok s s' q pr pr); [done|by rewrite Hps|by eapply far_quiet|done|done].
Qed.

(** The invariant does not depend on which thread a frame belongs to. *)
Lemma core_perm s fs fs' : fs ≡ₚ fs' -> core s fs -> core s fs'.
Proof.
  intros Hp []. split; auto.
  - intros p pr Hq. destruct (co_process0 p pr Hq). split; rewrite <- ?Hp; auto.
  - intros p Hq. rewrite <- Hp. auto.
  - by rewrite <- Hp.
  - by rewrite <- Hp.
Qed.
