(* ===== verification/SchedulerSteps.v ===== *)
(** Every step of the process manager preserves its invariant, and no step of a
    configuration that satisfies it fails a [CHECK]. *)

From S2P Require Import Prelude Clock Events Scheduler SchedulerInv.

(** The counts of a frame and of what replaces it agree for process [q]. *)
Definition balanced (f : frame) (fs : list frame) (q : nat) : Prop :=
  total (token q) fs = token q f /\ total (refs q) fs = refs q f /\
  total (wakes q) fs = wakes q f /\ total (flags q) fs = flags q f /\
  total (terms q) fs = terms q f.

Lemma core_put s f fs rest p pr pr' :
  core s (f :: rest) -> procs s !! p = Some pr ->
  (forall q, q <> p -> balanced f fs q) ->
  (token p f = 0 -> state pr <> BLOCKED -> finished pr = false ->
   quiet s (put p pr' s) p pr pr') ->
  pid_id pr' = pid_id pr ->
  pinv (put p pr' s) (fs ++ rest) p pr' ->
  Forall (ok (put p pr' s)) fs -> wakeups f <= total wakeups fs ->
  core (put p pr' s) (fs ++ rest).
Proof.
  intros Hc Hp Hb Hq Hid Hpi Hok Hw.
  eapply core_step; eauto; simpl.
  - apply lookup_insert_eq.
  - intros q Hne. destruct (Hb q Hne) as (? & ? & ? & ? & ?).
    split; auto; simpl. by rewrite lookup_insert_ne.
  - intros i Hi. destruct (co_map _ _ Hc i p Hi) as (? & ? & ?). congruence.
  - left. lia.
Qed.

(** Steps that only read the process. *)
Lemma core_read s f fs rest p pr :
  core s (f :: rest) -> procs s !! p = Some pr ->
  (forall q, q <> p -> balanced f fs q) ->
  pinv s (fs ++ rest) p pr ->
  Forall (ok s) fs -> wakeups f <= total wakeups fs ->
  core s (fs ++ rest).
Proof.
  intros Hc Hp Hb Hpi Hok Hw. eapply core_step; eauto; simpl.
  - intros q Hne. destruct (Hb q Hne) as (? & ? & ? & ? & ?). by split.
  - intros. split; auto. exists []. by rewrite app_nil_r.
  - intros i Hi. destruct (co_map _ _ Hc i p Hi) as (? & ? & ?). congruence.
  - left. lia.
Qed.

Ltac counts :=
  unfold balanced, total in *; simpl in *;
  rewrite ?one_refl in *;
  repeat match goal with
  | Hne : ?q <> ?p |- context [one ?q ?p] => rewrite (one_ne q p Hne)
  end; try lia.

(** The invariant of the process and what its frame relies on, in context. *)
Lemma core_frame s f rest p pr :
  core s (f :: rest) -> procs s !! p = Some pr ->
  pinv s (f :: rest) p pr /\ ok s f.
Proof.
  intros Hc Hp. split; [by apply (co_process _ _ Hc)|].
  pose proof (co_ok _ _ Hc) as Hf. by apply Forall_cons in Hf as [? _].
Qed.

Lemma pinv_unowned s f rest p pr :
  pinv s (f :: rest) p pr -> token p f = 0 -> state pr <> BLOCKED ->
  finished pr = false -> owners pr = 1.
Proof.
  intros _ _ Hb Hf. unfold owners. rewrite Hf. by rewrite decide_False.
Qed.

Lemma has_terminate_app es es' :
  has_terminate (es ++ es') = has_terminate es || has_terminate es'.
Proof. apply existsb_app. Qed.

(** Reading steps, when the counts of [p] itself are unchanged or settled by
    arithmetic. *)
Ltac balance := intros; counts; split_and!; counts; repeat (case_match; counts).

Ltac oks :=
  repeat (first [apply Forall_nil_2 | apply Forall_cons_2]); simpl; try done;
  try (eexists; split; [first [eassumption | apply lookup_insert_eq]|]; simpl).

Ltac reads :=
  eapply core_read;
  [ eassumption | eassumption | balance
  | | oks | counts ].

Ltac writes :=
  eapply core_put;
  [ eassumption | eassumption | balance
  | | reflexivity | | oks | counts ].

(** ** [ProcessBase::enqueue] *)

Lemma enqueue_produce_core p e s rest pr q :
  core s (Enqueue p (EProduce e) :: rest) -> procs s !! p = Some pr ->
  events_enqueue e (queue pr) = (true, q) ->
  core (put p (accept q e pr) s)
    ([Enqueue p (if injects e then ETermination else EReload)] ++ rest).
Proof.
  intros Hc Hp He. unfold events_enqueue in He.
  destruct (comissioned (queue pr)) eqn:Hcm; simplify_eq.
  destruct (core_frame _ _ _ _ _ Hc Hp) as [Hi _].
  eapply core_put; eauto.
  - intros. counts. destruct (injects e); counts; split_and!; counts.
  - intros. split; simpl; auto. by exists [e].
  - destruct Hi. split; unfold closed in *; simpl in *; auto.
    + intros. destruct (injects e); counts.
    + intros Hf. rewrite has_terminate_app. simpl.
      destruct (injects e) eqn:Hj; counts.
      * destruct e as [| | | |[]]; try done. rewrite !orb_true_r. auto.
      * destruct (pi_terms Hf) as [|[->|]]; auto.
    + rewrite pi_fifo. by rewrite app_assoc.
    + intros Hf. destruct (pi_finished Hf) as (? & ? & Hw). split_and!; auto.
      intros Hw'. specialize (Hw Hw'). congruence.
    + done.
    + intros Hw. destruct (pi_unspawned Hw). unfold total in *. simpl in *.
      rewrite one_refl in *. lia.
  - repeat constructor.
Qed.

Lemma enqueue_cas_core p s rest pr :
  core s (Enqueue p ECas :: rest) -> procs s !! p = Some pr ->
  state pr = BLOCKED ->
  core (put p (with_state READY pr) s) ([ManagerEnqueue p (Some p)] ++ rest).
Proof.
  intros Hc Hp Hb. destruct (core_frame _ _ _ _ _ Hc Hp) as [Hi _].
  destruct (pi_blocked _ _ _ _ Hi Hb) as [Hl Hf].
  eapply core_put; eauto.
  - intros. counts; split_and!; counts.
  - done.
  - destruct Hi. split; unfold closed, owners in *; simpl in *; auto; try done; counts.
    + rewrite Hf, Hb in *. simpl in *. counts.
    + rewrite Hb in pi_terms. intros Hx. destruct (pi_terms Hx) as [|]; [done|auto].
  - repeat constructor. exists (with_state READY pr). simpl.
    rewrite lookup_insert_eq. auto.
Qed.

Lemma enqueue_step_core p pc s rest s' fs :
  core s (Enqueue p pc :: rest) -> enqueue_step p pc s = Goes s' fs ->
  core s' (fs ++ rest).
Proof.
  intros Hc. unfold enqueue_step, with_process.
  destruct (procs s !! p) as [pr|] eqn:Hp; [|done].
  destruct (core_frame _ _ _ _ _ Hc Hp) as [Hi _].
  destruct pc as [e|e| | |].
  - assert (forall fs, fs = [Release p] \/ fs = [Enqueue p (EProduce e)] ->
      core s (fs ++ rest)).
    { intros fs0 [-> | ->]; reads; destruct Hi; split; counts; auto. }
    destruct (state pr); intros; simplify_eq; auto.
  - destruct (events_enqueue e (queue pr)) as [[] q] eqn:He; intros; simplify_eq.
    + by eapply enqueue_produce_core.
    + reads. destruct Hi; split; counts; auto.
  - intros; simplify_eq. writes.
    + intros. split; simpl; auto. exists []. by rewrite app_nil_r.
    + destruct Hi; split; simpl in *; counts; auto.
      intros _. apply pi_terms. right. lia.
  - destruct (state pr) eqn:Hs; intros; simplify_eq; reads; destruct Hi; split;
      counts; auto; congruence.
  - destruct (state pr) eqn:Hs; intros; simplify_eq.
    2: by eapply enqueue_cas_core.
    all: reads; destruct Hi; split; counts; auto; congruence.
Qed.

(** ** [ProcessManager::resume] *)

(** Calls of user code can be added at any point. *)
Lemma core_calls s cs fs rest :
  forallb user cs = true -> core s (fs ++ rest) -> core s ((cs ++ fs) ++ rest).
Proof.
  intros Hu. induction cs as [|f cs IH]; simpl in *; [done|].
  apply andb_true_iff in Hu as [Hf Hu]. intros Hc. specialize (IH Hu Hc).
  destruct (user_neutral f Hf) as (Hn & Hw & Hok). destruct IH. split; auto.
  - intros q pr Hq. destruct (Hn q) as (H1 & H2 & H3 & H4 & H5).
    destruct (co_process q pr Hq).
    split; unfold total in *; simpl; rewrite ?H1, ?H2, ?H3, ?H4, ?H5; auto.
  - intros q Hq. destruct (Hn q) as (H1 & H2 & _).
    unfold total in *; simpl; rewrite ?H1, ?H2. by apply co_none.
  - unfold total in *; simpl. lia.
Qed.

Ltac owned :=
  let H := fresh in intros H; simpl in H; rewrite one_refl in H; discriminate.

(** The invariant of the process that steps, up to what is specific. *)
Ltac settle Hi :=
  destruct Hi; split; unfold owners, closed in *; simpl in *; counts; auto; try done.

(** The owner of a process that is neither finished nor BLOCKED is not queued. *)
Lemma owner_alone s f rest p pr :
  pinv s (f :: rest) p pr -> token p f = 1 ->
  total (token p) rest = 0 /\ occurs p (runq s) = 0 /\ finished pr = false /\
  state pr <> BLOCKED.
Proof.
  intros Hi Ht. pose proof (pi_token _ _ _ _ Hi) as H. unfold total, owners in *.
  simpl in H. rewrite Ht in H. destruct (finished pr); [lia|].
  destruct (decide (state pr = BLOCKED)); [lia|]. split_and!; auto; lia.
Qed.

Ltac alone Hi :=
  let H := fresh in
  pose proof (owner_alone _ _ _ _ _ Hi (one_refl _)) as H;
  destruct H as (Halone & Hoccurs & Hunfinished & Hunblocked).

Section Resume.
Context (s : System) (rest : list frame) (p : nat) (pr : ProcessBase).
Context (Hp : procs s !! p = Some pr).

Lemma resume_load_core :
  core s (Resume p RLoad :: rest) ->
  (state pr = BOTTOM -> core s ([Resume p RInitialize] ++ rest)) /\
  (state pr = READY -> core s ([Resume p RReference] ++ rest)).
Proof using Hp.
  intros Hc. destruct (core_frame _ _ _ _ _ Hc Hp) as [Hi (? & ? & Hl & Hst)].
  simplify_eq. split; intros Hs; reads; auto; settle Hi.
Qed.

Lemma resume_initialize_core :
  core s (Resume p RInitialize :: rest) -> core s ([Resume p RInitialized] ++ rest).
Proof using Hp.
  intros Hc. destruct (core_frame _ _ _ _ _ Hc Hp) as [Hi (? & ? & Hok)].
  simplify_eq. reads; auto; settle Hi.
Qed.

Lemma resume_initialized_core :
  core s (Resume p RInitialized :: rest) ->
  core (put p (with_state READY pr) s) ([Resume p RReference] ++ rest).
Proof using Hp.
  intros Hc. destruct (core_frame _ _ _ _ _ Hc Hp) as [Hi (? & ? & Hl & Hst)].
  simplify_eq. alone Hi. writes; [owned| |done].
  settle Hi; rewrite Hst, ?Hunfinished in *; auto.
  intros Hx. destruct (pi_terms Hx) as [|]; [done|auto].
Qed.

Lemma resume_reference_core :
  core s (Resume p RReference :: rest) ->
  core (acquire p pr s) ([Resume p REmpty] ++ rest).
Proof using Hp.
  intros Hc. destruct (core_frame _ _ _ _ _ Hc Hp) as [Hi (? & ? & Hl & Hst)].
  simplify_eq. alone Hi. unfold acquire. writes; [owned| |done]. destruct Hl as (? & ? & _).
  settle Hi; congruence.
Qed.

Lemma resume_empty_core :
  core s (Resume p REmpty :: rest) ->
  core s ([Resume p (if negb (events_empty (queue pr)) then RDequeue else RBlock)] ++ rest).
Proof using Hp.
  intros Hc. destruct (core_frame _ _ _ _ _ Hc Hp) as [Hi (? & ? & Hl & Hst)].
  simplify_eq. unfold events_empty.
  destruct (events (queue pr)) as [|ev evs] eqn:He; cbn [negb]; reads; auto; try settle Hi.
  by rewrite He.
Qed.

(** Taking an event from the queue, in the loop or while purging. *)
Lemma resume_take_core f pc ev q :
  core s (f :: rest) -> token p f = 1 -> refs p f = 1 -> wakes p f = 0 ->
  flags p f = 0 -> wakeups f = 0 ->
  (forall q, q <> p -> balanced f [Resume p pc] q) ->
  owns pc = true -> holding pc = true ->
  total (wakes p) [Resume p pc] = 0 ->
  (terms p f = 0 /\ terms p (Resume p pc) = if is_terminate ev then 1 else 0) ->
  events_dequeue (queue pr) = Returns (ev, q) ->
  ok (put p (take_events q [ev] pr) s) (Resume p pc) ->
  core (put p (take_events q [ev] pr) s) ([Resume p pc] ++ rest).
Proof using Hp.
  intros Hc Ht Hr Hw Hfl Hwu Hb Ho Hh Hw' [Hte Hte'] Hd Hok.
  destruct (core_frame _ _ _ _ _ Hc Hp) as [Hi _].
  destruct (owner_alone _ _ _ _ _ Hi Ht) as (Hal & Hoc & Huf & Hub).
  unfold events_dequeue in Hd. destruct (events (queue pr)) as [|e0 es] eqn:He; [done|].
  simplify_eq. eapply core_put; [done|done|done|congruence|done| |by apply Forall_singleton|counts].
  destruct Hi. unfold total in *. simpl in Hw'.
  split; unfold owners, closed, total in *; cbn [sum_list_by app]; simpl in *;
    rewrite ?Ho, ?Hh, ?one_refl, ?Hte', ?Hoc, ?Huf in *; auto; try done; try lia.
  - intros Hx. destruct pi_terms as [|[Htm|]]; [|auto| |right; right; lia].
    + destruct Hx; auto. right. lia.
    + rewrite He in Htm. simpl in Htm. destruct (is_terminate ev); simpl in Htm;
        [right; right; lia|auto].
  - rewrite pi_fifo, He, <- app_assoc. done.
  - by apply sublist_inserts_r.
  - intros Hcl. rewrite (pi_closed Hcl) in He. done.
  - intros Hun. destruct (pi_unspawned Hun) as [_ Hev]. congruence.
Qed.

Lemma resume_block_core :
  core s (Resume p RBlock :: rest) ->
  core (put p (with_state BLOCKED pr) s) ([Resume p RRecheck] ++ rest).
Proof using Hp.
  intros Hc. destruct (core_frame _ _ _ _ _ Hc Hp) as [Hi (? & ? & Hl & Hst)].
  simplify_eq. alone Hi. writes; [owned| |done].
  settle Hi; rewrite Hst, ?Hunfinished in *; auto; try lia.
  intros Hx. destruct (pi_terms Hx) as [|]; [done|auto].
Qed.

Lemma resume_recheck_core :
  core s (Resume p RRecheck :: rest) ->
  (events (queue pr) <> [] -> core s ([Resume p RTryReady] ++ rest)) /\
  (events (queue pr) = [] -> core s ([Resume p (RLeave false)] ++ rest)).
Proof using Hp.
  intros Hc. destruct (core_frame _ _ _ _ _ Hc Hp) as [Hi _].
  split; intros He; reads; settle Hi.
Qed.

Lemma resume_try_ready_core :
  core s (Resume p RTryReady :: rest) ->
  (state pr = BLOCKED -> core (put p (with_state READY pr) s) ([Resume p REmpty] ++ rest)) /\
  (state pr <> BLOCKED -> core s ([Resume p (RLeave false)] ++ rest)).
Proof using Hp.
  intros Hc. destruct (core_frame _ _ _ _ _ Hc Hp) as [Hi _]. split; intros Hs.
  - destruct (pi_blocked _ _ _ _ Hi Hs) as [Hl Hf]. writes; [done| |done].
    settle Hi; rewrite Hs, ?Hf in *; auto; try done.
    + simpl in *. lia.
    + intros Hx. destruct (pi_terms Hx) as [|]; [done|auto].
  - reads; settle Hi.
Qed.

Lemma resume_termination_core ev :
  core s (Resume p (RTermination ev) :: rest) ->
  core s ([Resume p (if termination pr then RPurge ev else RFilter false ev)] ++ rest).
Proof using Hp.
  intros Hc. destruct (core_frame _ _ _ _ _ Hc Hp) as [Hi (? & ? & Hl & Hst & Hh)].
  simplify_eq. alone Hi. pose proof (total_le _ _ rest (terms_token p)).
  destruct (termination pr) eqn:Ht; reads; auto; [settle Hi| |settle Hi|]; [|split_and!; auto; done].
  split_and!; auto. destruct (is_terminate ev) eqn:Hev; auto. right.
  destruct (pi_terms _ _ _ _ Hi (or_introl Ht)) as [|[|Hx]]; [congruence|done|].
  unfold total in *. simpl in Hx. rewrite Hev in Hx. lia.
Qed.

Lemma resume_purged_core ev :
  is_terminate ev = true -> core s (Resume p (RPurge ev) :: rest) ->
  core s ([Resume p (RFilter true ev)] ++ rest).
Proof using Hp.
  intros Hev Hc. destruct (core_frame _ _ _ _ _ Hc Hp) as [Hi (? & ? & Hl & Hst & ? & _)].
  simplify_eq. reads; auto; settle Hi.
Qed.

Lemma resume_filter_core t ev :
  core s (Resume p (RFilter t ev) :: rest) ->
  core s ([Resume p (RServe ev)] ++ rest) /\
  (is_terminate ev = false ->
   core s ([Resume p (if t then RLeave true else REmpty)] ++ rest)).
Proof using Hp.
  intros Hc. destruct (core_frame _ _ _ _ _ Hc Hp) as [Hi (? & ? & Hl & Hst & Hh & Ht)].
  simplify_eq. split; [reads; auto; settle Hi|]. intros Hev.
  destruct t; [specialize (Ht eq_refl); congruence|]. reads; auto.
  destruct Hi. split; counts; auto. rewrite Hev in *. auto.
Qed.

Lemma resume_serve_core ev :
  core s (Resume p (RServe ev) :: rest) ->
  core (put p (serve ev pr) s) ([Resume p (RServed (is_terminate ev))] ++ rest).
Proof using Hp.
  intros Hc. destruct (core_frame _ _ _ _ _ Hc Hp) as [Hi (? & ? & Hl & Hst & Hh)].
  simplify_eq. destruct Hh as (l & Hl' & Hsub). writes; [owned| |done]. settle Hi.
  rewrite Hl'. by apply sublist_app.
Qed.

Lemma resume_served_core t :
  core s (Resume p (RServed t) :: rest) ->
  core s ([Resume p (if t then RLeave true else REmpty)] ++ rest).
Proof using Hp.
  intros Hc. destruct (core_frame _ _ _ _ _ Hc Hp) as [Hi (? & ? & Hl & Hst)].
  simplify_eq. destruct t; reads; auto; settle Hi.
Qed.

Lemma resume_leave_core t :
  core s (Resume p (RLeave t) :: rest) ->
  core (release p pr s) ((if t then [Resume p RCleanup] else []) ++ rest).
Proof using Hp.
  intros Hc. destruct (core_frame _ _ _ _ _ Hc Hp) as [Hi (? & ? & Hok)].
  simplify_eq. unfold release. destruct t.
  - destruct Hok as [Hl ?]. alone Hi. writes; [owned| |done]. destruct Hl as (? & ? & _).
    settle Hi; congruence.
  - writes.
    + intros _ Hb Hf. split; simpl; auto; [exists []; by rewrite app_nil_r|].
      intros (Hz & _). rewrite Hz. done.
    + settle Hi.
      * intros Hf. destruct (pi_finished Hf) as ((Hz & ? & ?) & ? & ?).
        split_and!; auto. split; simpl; [lia|auto].
      * intros Hw. destruct (pi_unspawned Hw). lia.
Qed.

Lemma resume_cleanup_core :
  core s (Resume p RCleanup :: rest) -> core s ([Cleanup p CState] ++ rest).
Proof using Hp.
  intros Hc. destruct (core_frame _ _ _ _ _ Hc Hp) as [Hi (? & ? & Hl & Hst)].
  simplify_eq. reads; auto; settle Hi.
Qed.

Lemma resume_delete_core :
  core s (Resume p RDelete :: rest) ->
  core (put p (with_finished true pr) s) ([] ++ rest).
Proof using Hp.
  intros Hc. destruct (core_frame _ _ _ _ _ Hc Hp) as [Hi (? & ? & Hst & Hse & Hcl & Hm)].
  simplify_eq. alone Hi. writes; [owned|]. settle Hi; try congruence; try lia.
Qed.
End Resume.

Lemma resume_step_core e p pc s rest s' fs :
  ok_env e -> core s (Resume p pc :: rest) -> resume_step e p pc s = Goes s' fs ->
  core s' (fs ++ rest).
Proof.
  intros [Hcalls Hfil] Hc. unfold resume_step, with_process.
  destruct (procs s !! p) as [pr|] eqn:Hp; [|done].
  destruct pc as [| | | | | | | | |ev|ev|t ev|ev|t|t| |].
  - destruct (resume_load_core _ _ _ _ Hp Hc).
    destruct (state pr); intros; simplify_eq; auto.
  - intros; simplify_eq. apply core_calls; [done|]. by eapply resume_initialize_core.
  - intros; simplify_eq. by apply resume_initialized_core.
  - destruct (reference pr); intros; simplify_eq. by apply resume_reference_core.
  - pose proof (resume_empty_core _ _ _ _ Hp Hc) as H.
    destruct (negb _); intros; by simplify_eq.
  - destruct (events_dequeue (queue pr)) as [[ev q]|] eqn:Hd; intros; simplify_eq.
    eapply resume_take_core; eauto; simpl; try (by rewrite ?one_refl).
    + balance.
    + destruct (core_frame _ _ _ _ _ Hc Hp) as [Hi (? & ? & ? & ? & _)]. simplify_eq.
      eexists; split; [apply lookup_insert_eq|]. split_and!; try done.
      eexists; split; [reflexivity|]. apply Hi.
  - intros; simplify_eq. by apply resume_block_core.
  - destruct (resume_recheck_core _ _ _ _ Hp Hc) as [H1 H2]. unfold events_empty.
    destruct (events (queue pr)); intros; simplify_eq/=; auto.
  - destruct (resume_try_ready_core _ _ _ _ Hp Hc) as [H1 H2].
    destruct (state pr); intros; simplify_eq; auto.
  - pose proof (resume_termination_core _ _ _ _ Hp _ Hc) as H.
    destruct (termination pr); intros; by simplify_eq.
  - destruct (is_terminate ev) eqn:Hev; cbn [negb].
    { intros; simplify_eq. by eapply resume_purged_core. }
    destruct (events_dequeue (queue pr)) as [[ev' q]|] eqn:Hd; intros; simplify_eq.
    eapply resume_take_core; eauto; simpl; try (by rewrite ?one_refl, ?Hev).
    + balance.
    + destruct (core_frame _ _ _ _ _ Hc Hp) as [Hi (? & ? & ? & ? & _ & Ht)]. simplify_eq.
      eexists; split; [apply lookup_insert_eq|]. simpl. split_and!; auto.
      { eexists; split; [reflexivity|]. apply Hi. }
      unfold events_dequeue in Hd. destruct (events (queue pr)) as [|e0 es]; [done|].
      simplify_eq. destruct Ht as [|Ht]; [congruence|]. simpl in *.
      apply orb_true_iff in Ht. tauto.
  - destruct (resume_filter_core _ _ _ _ Hp _ _ Hc) as [H1 H2].
    destruct (filtered e p ev) eqn:Hf; intros; simplify_eq; [|done].
    apply H2. destruct ev; try done. by rewrite Hfil in Hf.
  - intros; simplify_eq. apply core_calls; [done|]. by eapply resume_serve_core.
  - intros; simplify_eq. by eapply resume_served_core.
  - intros; simplify_eq. by eapply resume_leave_core.
  - intros; simplify_eq. by eapply resume_cleanup_core.
  - destruct (manage pr && _); intros; simplify_eq. by eapply resume_delete_core.
Qed.

(** ** [ProcessManager::cleanup] *)
Section Cleanup.
Context (s : System) (rest : list frame) (p : nat) (pr : ProcessBase).
Context (Hp : procs s !! p = Some pr).

Lemma cleanup_state_core :
  core s (Cleanup p CState :: rest) ->
  core (put p (with_state TERMINATING pr) s) ([Cleanup p CDecomission] ++ rest).
Proof using Hp.
  intros Hc. destruct (core_frame _ _ _ _ _ Hc Hp) as [Hi (? & ? & Hl & Hst)].
  simplify_eq. alone Hi. writes; [owned| |done].
  settle Hi; rewrite Hst, ?Hunfinished in *; auto; try lia.
Qed.

Lemma cleanup_decomission_core :
  core s (Cleanup p CDecomission :: rest) ->
  core (put p (take_events (mkEventQueue [] false) (events (queue pr)) pr) s)
    ([Cleanup p CReset] ++ rest).
Proof using Hp.
  intros Hc. destruct (core_frame _ _ _ _ _ Hc Hp) as [Hi (? & ? & Hl & Hst)].
  simplify_eq. alone Hi. writes; [owned| |done].
  settle Hi; rewrite ?Hst, ?Hunfinished, ?Hoccurs in *; auto; try lia; try congruence.
  - by rewrite app_nil_r.
  - by apply sublist_inserts_r.
  - intros Hw. by destruct (pi_unspawned Hw).
Qed.

Lemma cleanup_reset_core :
  processes_mutex s = None -> core s (Cleanup p CReset :: rest) ->
  core (set_mutex (Some p) (put p (with_reference false pr) s))
    ([Cleanup p CExpire] ++ rest).
Proof using Hp.
  intros Hm Hc. destruct (core_frame _ _ _ _ _ Hc Hp) as [Hi (? & ? & Hl & Hst & Hcl)].
  simplify_eq. alone Hi. destruct Hl as (Hre & Hwk & Hmp & _).
  eapply core_step; [done|done|apply lookup_insert_eq| | |done| | | |]; simpl.
  - intros q Hne. split; simpl; counts; auto.
    + by rewrite lookup_insert_ne.
    + rewrite Hm. split; congruence.
  - owned.
  - intros i Hx. destruct (co_map _ _ Hc i p Hx) as (? & ? & ?). congruence.
  - settle Hi; rewrite ?Hst, ?Hunfinished, ?Hoccurs in *; auto; try lia; try congruence.
  - oks. unfold closed in *. simpl. auto 10.
  - left. counts.
Qed.

Lemma cleanup_expire_core :
  reference pr = false -> references pr = 0 -> core s (Cleanup p CExpire :: rest) ->
  core (set_processes (delete (pid_id pr) (processes s)) s) ([Cleanup p CGate] ++ rest).
Proof using Hp.
  intros Hre Hz Hc.
  destruct (core_frame _ _ _ _ _ Hc Hp) as [Hi (? & ? & Hst & Hcl & _ & Hwk & Hm & Hmp)].
  simplify_eq. alone Hi.
  eapply core_step; [done|done|done| | |done| | | |]; simpl.
  - intros q Hne. split; simpl; counts; auto. intros i.
    destruct (decide (i = pid_id pr)) as [->|]; [|by rewrite lookup_delete_ne].
    rewrite lookup_delete_eq, Hmp. split; congruence.
  - owned.
  - intros i Hx. apply lookup_delete_Some in Hx as [? Hx].
    destruct (co_map _ _ Hc i p Hx) as (? & ? & ?). congruence.
  - settle Hi; rewrite ?Hst, ?Hunfinished, ?Hoccurs in *; auto; try lia; try congruence.
  - oks. unfold closed, sealed in *. simpl. rewrite lookup_delete_eq. auto 10.
  - left. counts.
Qed.

Lemma cleanup_gate_core :
  core s (Cleanup p CGate :: rest) ->
  core (set_mutex None (put p (with_gate true pr) s)) ([Resume p RDelete] ++ rest).
Proof using Hp.
  intros Hc. destruct (core_frame _ _ _ _ _ Hc Hp) as [Hi (? & ? & Hst & Hcl & Hse & Hm)].
  simplify_eq. alone Hi.
  eapply core_step; [done|done|apply lookup_insert_eq| | |done| | | |]; simpl.
  - intros q Hne. split; simpl; counts; auto.
    + by rewrite lookup_insert_ne.
    + rewrite Hm. split; congruence.
  - owned.
  - intros i Hx. destruct (co_map _ _ Hc i p Hx) as (? & ? & ?). congruence.
  - destruct Hse as (? & ? & Hnm).
    settle Hi; rewrite ?Hst, ?Hunfinished, ?Hoccurs in *; auto; try lia; try congruence.
  - oks. unfold closed, sealed in *. simpl. auto 10.
  - left. counts.
Qed.
End Cleanup.

Lemma linkers_user (p i : nat) ls :
  forallb user (map (fun l => Deliver (mkUPID 0 false (Some l)) (Some p)
    (ExitedEvent i)) ls) = true.
Proof. by induction ls. Qed.

Lemma cleanup_step_core e p pc s rest s' fs :
  core s (Cleanup p pc :: rest) -> cleanup_step e p pc s = Goes s' fs ->
  core s' (fs ++ rest).
Proof.
  intros Hc. unfold cleanup_step, with_process.
  destruct (procs s !! p) as [pr|] eqn:Hp; [|done]. destruct pc.
  - destruct (state pr) eqn:Hs; intros; simplify_eq. by apply cleanup_state_core.
  - intros; simplify_eq/=. apply (core_calls _ [_] [_]); [done|].
    by apply cleanup_decomission_core.
  - destruct (processes_mutex s) eqn:Hm; [done|].
    destruct (weak pr); intros; simplify_eq. by apply cleanup_reset_core.
  - destruct (reference pr) eqn:Hr; [done|]. simpl.
    destruct (references pr) eqn:Hz; [|done]. cbn. intros; simplify_eq.
    apply core_calls; [apply linkers_user|]. by apply cleanup_expire_core.
  - intros; simplify_eq. by apply cleanup_gate_core.
Qed.

(** ** Taking and giving back references *)

Lemma use_found s fs pid p pr :
  core s fs -> use pid s = Found p pr ->
  procs s !! p = Some pr /\ ~ sealed s p pr.
Proof.
  intros Hc. unfold use, sealed.
  destruct (pid_reference pid) as [w|].
  - destruct (procs s !! w) as [prw|] eqn:Hw.
    + destruct (weak prw && (reference prw || (0 <? references prw))) eqn:E.
      { intros; simplify_eq. split; [done|]. intros (Hz & Hx & _). rewrite Hz in E.
        destruct Hx as [Hx|Hx]; rewrite Hx in E; simpl in E; [done|].
        by rewrite andb_false_r in E. }
      intros Hu. crack. destruct (co_map _ _ Hc _ _ Heqo0) as (? & ? & ?).
      simplify_eq. split; [done|]. intros (_ & _ & Hx). apply Hx. congruence.
    + intros Hu. crack. destruct (co_map _ _ Hc _ _ Heqo0) as (? & ? & ?).
      simplify_eq. split; [done|]. intros (_ & _ & Hx). apply Hx. congruence.
  - intros Hu. crack. destruct (co_map _ _ Hc _ _ Heqo0) as (? & ? & ?).
    simplify_eq. split; [done|]. intros (_ & _ & Hx). apply Hx. congruence.
Qed.

(** A frame that has nothing but a reference to [p]. *)
Definition carries (p : nat) (f : frame) : Prop :=
  refs p f = 1 /\ (forall q, q <> p -> refs q f = 0) /\
  (forall q, token q f = 0 /\ wakes q f = 0 /\ flags q f = 0 /\ terms q f = 0) /\
  wakeups f = 0 /\ forall s, ok s f.

Ltac carry :=
  repeat split; intros; simpl; rewrite ?one_refl, ?one_ne by done; done.

(** A step that changes nothing and keeps the counts. *)
Lemma core_same s f fs rest :
  core s (f :: rest) -> (forall q, balanced f fs q) -> wakeups f <= total wakeups fs ->
  Forall (ok s) fs -> core s (fs ++ rest).
Proof.
  intros Hc Hb Hw Hok. eapply core_still; eauto; [|lia].
  intros q. destruct (Hb q) as (? & ? & ? & ? & ?). by split.
Qed.

Lemma neutral_balanced f : neutral f -> forall q, balanced f [] q.
Proof. intros (Hn & _) q. destruct (Hn q) as (? & ? & ? & ? & ?). by repeat split. Qed.

Lemma core_drop s f rest : neutral f -> core s (f :: rest) -> core s rest.
Proof.
  intros Hn Hc. apply (core_same s f [] rest Hc); auto using neutral_balanced.
  destruct Hn as (_ & -> & _). lia.
Qed.

(** A frame that has nothing takes a reference and goes on with it. *)
Lemma with_use_core s f rest pid g s' fs :
  neutral f -> (forall p, carries p (g p)) -> core s (f :: rest) ->
  with_use pid s (fun p => [g p]) [] = Goes s' fs -> core s' (fs ++ rest).
Proof.
  intros Hn Hg Hc. unfold with_use. destruct (use pid s) as [p pr| |] eqn:Hu; [| |done].
  2: { intros; simplify_eq. by eapply core_drop. }
  destruct (use_found _ _ _ _ _ Hc Hu) as [Hp Hns]. intros; simplify_eq.
  destruct (Hg p) as (Hr & Hrq & Hq & Hw & Hok). destruct Hn as (Hn & Hwf & _).
  unfold acquire. eapply core_put; [done|done| | |done| |by apply Forall_singleton|].
  - intros q Hne. destruct (Hn q) as (? & ? & ? & ? & ?).
    destruct (Hq q) as (? & ? & ? & ?). specialize (Hrq q Hne).
    unfold balanced, total. simpl. lia.
  - intros _ _ _. split; simpl; auto; [exists []; by rewrite app_nil_r|done].
  - pose proof (co_process _ _ Hc p pr Hp) as Hi. destruct (Hn p) as (H1 & H2 & H3 & H4 & H5).
    destruct (Hq p) as (E1 & E2 & E3 & E4). destruct Hi.
    split; unfold owners, total in *; simpl in *;
      rewrite ?H1, ?H2, ?H3, ?H4, ?H5, ?E1, ?E2, ?E3, ?E4, ?Hr in *; auto.
    + intros Hf. by destruct (pi_finished Hf).
    + intros Hw'. destruct (pi_unspawned Hw') as [Hz _]. destruct Hns. split_and!; auto.
      intros Hm. destruct (pi_mapped Hm). congruence.
  - unfold total. simpl. lia.
Qed.

Lemma release_core s rest p s' fs :
  core s (Release p :: rest) ->
  with_process p s (fun pr => Goes (release p pr s) []) = Goes s' fs ->
  core s' (fs ++ rest).
Proof.
  intros Hc. unfold with_process. destruct (procs s !! p) as [pr|] eqn:Hp; [|done].
  intros; simplify_eq. destruct (core_frame _ _ _ _ _ Hc Hp) as [Hi _].
  unfold release. writes.
  - intros. split; simpl; auto; [exists []; by rewrite app_nil_r|].
    intros (Hz & _). by rewrite Hz.
  - settle Hi.
    + intros Hf. destruct (pi_finished Hf) as ((Hz & ? & ?) & ? & ?).
      split_and!; auto. split; simpl; [lia|auto].
    + intros Hw. destruct (pi_unspawned Hw). lia.
Qed.

(** ** Steps on the rest of the system *)

(** Only the clock, the flags, the counters or the semaphore change. *)
Definition aside (s s' : System) : Prop :=
  procs s' = procs s /\ processes s' = processes s /\
  processes_mutex s' = processes_mutex s /\ runnable (runq s') = runnable (runq s).

Lemma aside_live s s' p pr : aside s s' -> live s p pr -> live s' p pr.
Proof. unfold live. intros (_ & -> & -> & _). done. Qed.

Lemma core_aside s s' f fs rest :
  core s (f :: rest) -> aside s s' -> (forall q, balanced f fs q) ->
  value (semaphore (runq s)) + wakeups f <=
    value (semaphore (runq s')) + total wakeups fs
  \/ runnable (runq s) = [] ->
  Forall (ok s') fs -> core s' (fs ++ rest).
Proof.
  intros Hc (H1 & H2 & H3 & H4) Hb Hw Hok.
  eapply core_still; eauto;
    [|rewrite H4; destruct Hw as [Hw|Hw]; [lia|right; by rewrite Hw]].
  intros q. destruct (Hb q) as (? & ? & ? & ? & ?). split; auto.
  - by rewrite H1.
  - by rewrite H2.
  - by rewrite H3.
  - unfold occurs. by rewrite H4.
Qed.

Lemma order_clock_aside e p sender u s :
  aside s (order_clock e p sender u s) /\ runq (order_clock e p sender u s) = runq s.
Proof. unfold order_clock. destruct (paused (clock s)); [|by repeat split]. by destruct (now _ _ _). Qed.

Lemma order_clock_core e p sender u s f g rest :
  core s (f :: rest) -> carries p f -> carries p g ->
  core (order_clock e p sender u s) ([g] ++ rest).
Proof.
  intros Hc (Hr & Hrq & Hq & Hw & _) (Hr' & Hrq' & Hq' & Hw' & Hok).
  destruct (order_clock_aside e p sender u s) as [Ha Hrn].
  eapply core_aside; [done|done| | |by apply Forall_singleton].
  - intros q. destruct (Hq q) as (? & ? & ? & ?), (Hq' q) as (? & ? & ? & ?).
    assert (refs q f = refs q g).
    { destruct (decide (q = p)) as [->|Hne]; [lia|]. rewrite Hrq, Hrq'; done. }
    unfold balanced, total. simpl. lia.
  - rewrite Hrn. unfold total. simpl. lia.
Qed.

Lemma deliver_step_core e f s rest s' fs :
  core s (f :: rest) -> deliver_step e f s = Goes s' fs -> core s' (fs ++ rest).
Proof.
  intros Hc. destruct f; try done; simpl.
  - apply with_use_core with (f := Deliver pid sender e0); [by apply user_neutral| |done].
    intros; carry.
  - intros; simplify_eq. eapply order_clock_core; [done|carry|carry].
Qed.

Lemma terminate_step_core e f s rest s' fs :
  core s (f :: rest) -> terminate_step e f s = Goes s' fs -> core s' (fs ++ rest).
Proof.
  intros Hc. destruct f; try done; simpl.
  - apply with_use_core with (f := Terminate pid inject sender);
      [by apply user_neutral| |done]. intros; carry.
  - intros; simplify_eq. eapply order_clock_core; [done|carry|carry].
Qed.

Lemma finalize_step_core f s rest s' fs :
  core s (f :: rest) -> finalize_step f s = Goes s' fs -> core s' (fs ++ rest).
Proof.
  intros Hc. destruct f; try done; simpl.
  - intros; simplify_eq. eapply core_aside; [done|by repeat split|by repeat split|unfold total; simpl; lia|].
    by repeat constructor.
  - destruct (processes_mutex s); [done|]. destruct (map_to_list (processes s)) as [|[i p] l];
      intros; simplify_eq; (eapply core_same; [done|by repeat split|done|by repeat constructor]).
  - intros; simplify_eq. eapply core_aside; [done|by repeat split|by repeat split|unfold total; simpl; lia|].
    by repeat constructor.
  - intros; simplify_eq. eapply core_aside; [done|by repeat split|by repeat split|unfold total; simpl; lia|].
    by repeat constructor.
  - intros; simplify_eq. eapply core_aside; [done| |by repeat split| |by repeat constructor].
    + repeat split.
    + left. simpl. unfold semaphore_flush. rewrite signals_value. lia.
Qed.

(** ** The run queue *)

Lemma occurs_push p q r : occurs q (runq_push p r) = occurs q r + one q p.
Proof. unfold occurs, runq_push. simpl. rewrite sum_list_by_app. simpl. lia. Qed.

Lemma runq_push_core p h s rest :
  core s (RunqPush p h :: rest) ->
  core (set_runq (runq_push p (runq s)) s) ([RunqEpoch h] ++ rest).
Proof.
  intros Hc. pose proof (co_ok _ _ Hc) as Hok.
  apply Forall_cons in Hok as [(pr & Hp & Hl & Hs) _].
  pose proof (co_process _ _ Hc p pr Hp) as Hi.
  eapply core_step; [done|done|done| | |done| | | |]; simpl.
  - intros q Hne. split; simpl; auto; try (counts; done).
    rewrite occurs_push, one_ne by done. lia.
  - owned.
  - intros i Hx. destruct (co_map _ _ Hc i p Hx) as (? & ? & ?). congruence.
  - destruct Hi. split; unfold total in *; simpl in *; auto.
    rewrite occurs_push, one_refl in *. lia.
  - by repeat constructor.
  - left. rewrite length_app. unfold total. simpl. lia.
Qed.

Lemma runq_enqueue_core f s rest s' fs :
  core s (f :: rest) -> runq_enqueue f s = Goes s' fs -> core s' (fs ++ rest).
Proof.
  intros Hc. destruct f as [| | | | | | |p h|h|h| | | | | | | | | | | | | | |]; try done; simpl;
    intros; simplify_eq.
  - by apply runq_push_core.
  - eapply core_aside; [done|by repeat split| |unfold total; simpl; lia|by repeat constructor].
    intros q. unfold balanced, total. simpl. lia.
  - eapply core_aside; [done|by repeat split| | |].
    + intros q. unfold balanced, total. destruct h; simpl; lia.
    + unfold total. simpl. lia.
    + destruct h; by repeat constructor.
Qed.

Lemma manager_enqueue_core p h s rest s' fs :
  joining_threads s = false -> core s (ManagerEnqueue p h :: rest) ->
  manager_enqueue p h s = Goes s' fs -> core s' (fs ++ rest).
Proof.
  intros Hj Hc. unfold manager_enqueue. rewrite Hj. intros; simplify_eq.
  eapply core_same; [done| |done|].
  - intros q. unfold balanced, total. simpl. lia.
  - pose proof (co_ok _ _ Hc) as Hok. apply Forall_cons in Hok as [Hok _].
    by apply Forall_singleton.
Qed.

(** While the threads are joined the process is dropped. *)
Lemma manager_enqueue_dropped p h s rest s' fs :
  joining_threads s = true -> core s (ManagerEnqueue p h :: rest) ->
  manager_enqueue p h s = Goes s' fs -> core s' ((fs ++ [ManagerEnqueue p None]) ++ rest).
Proof.
  intros Hj Hc. unfold manager_enqueue. rewrite Hj. intros; simplify_eq.
  pose proof (co_ok _ _ Hc) as Hok. apply Forall_cons in Hok as [Hok _].
  eapply core_same; [done| |destruct h; simpl; lia|].
  - intros q. unfold balanced, total. destruct h; simpl; lia.
  - destruct h; repeat constructor; done.
Qed.

(** The run queue gives up an occurrence of [p]: a worker takes it, or [wait]
    extracts it. *)
Lemma runq_take_core s f gs rest p r :
  core s (f :: rest) -> (forall q, token q f = 0) ->
  (forall q, balanced f gs q) ->
  (forall q, occurs q (runq s) = occurs q r + one q p) ->
  length (runnable r) + value (semaphore (runq s)) + wakeups f <=
    length (runnable (runq s)) + value (semaphore r) + total wakeups gs ->
  Forall (fun g => forall s, ok s g) gs ->
  core (set_runq r s) ((Resume p RLoad :: gs) ++ rest).
Proof.
  intros Hc Ht Hb Ho Hw Hok.
  destruct (procs s !! p) as [pr|] eqn:Hp.
  2: { destruct (co_none _ _ Hc p Hp) as [Hz _]. specialize (Ho p).
       rewrite one_refl in Ho. lia. }
  pose proof (co_process _ _ Hc p pr Hp) as Hi.
  assert (Hq : live s p pr /\ (state pr = BOTTOM \/ state pr = READY)).
  { apply (pi_queued _ _ _ _ Hi). rewrite Ho, one_refl. lia. }
  eapply core_step; [done|done|done| | |done| | | |]; simpl.
  - intros q Hne. destruct (Hb q) as (? & ? & ? & ? & ?).
    split; unfold total in *; simpl; rewrite ?one_ne by done; auto.
    rewrite Ho, one_ne by done. lia.
  - intros _ _ _. split; auto. exists []. by rewrite app_nil_r.
  - intros i Hx. destruct (co_map _ _ Hc i p Hx) as (? & ? & ?). congruence.
  - destruct (Hb p) as (B1 & B2 & B3 & B4 & B5). specialize (Ho p). rewrite one_refl in Ho.
    destruct Hi. unfold total in *.
    split; unfold total; simpl in *; rewrite ?sum_list_by_app, ?one_refl,
      ?B1, ?B2, ?B3, ?B4, ?B5; auto.
    lia.
  - apply Forall_cons_2; [by eexists|]. eapply Forall_impl; [done|]. simpl; auto.
  - left. unfold total in *. simpl. lia.
Qed.

Lemma wait_step_core f s rest s' fs :
  core s (f :: rest) -> wait_step f s = Goes s' fs -> core s' (fs ++ rest).
Proof.
  intros Hc. destruct f as [| | | | | | | | | | | | | | |pid|p|p| |p| | | | |]; try done; simpl.
  - apply with_use_core with (f := Wait pid); [by apply user_neutral| |done].
    intros; carry.
  - unfold with_process. destruct (procs s !! p) as [pr|]; [|done].
    destruct (state pr); intros; simplify_eq;
      (eapply core_aside; [done|by repeat split| |unfold total; simpl; lia|by repeat constructor]);
      intros q; unfold balanced, total; simpl; lia.
  - destruct (runq_extract p (runq s)) as [b r] eqn:He. destruct b; intros; simplify_eq.
    + eapply core_perm; [|eapply (runq_take_core s _ [Release p; WaitDonated; WaitGate p])].
      * simpl. apply Permutation_swap.
      * done.
      * done.
      * intros q. unfold balanced, total. simpl. lia.
      * intros q. by destruct (runq_extract_occurs p q _ _ _ He).
      * destruct (runq_extract_occurs p p _ _ _ He) as (_ & ? & ->). unfold total. simpl. lia.
      * by repeat constructor.
    + eapply core_aside; [done|by repeat split| |unfold total; simpl; lia|by repeat constructor];
      intros q; unfold balanced, total; simpl; lia.
  - intros; simplify_eq. eapply core_aside; [done|by repeat split|by repeat split|unfold total; simpl; lia|].
    by repeat constructor.
  - unfold with_process. destruct (procs s !! p) as [pr|]; [|done].
    destruct (gate pr); intros; simplify_eq.
    eapply core_same; [done|by repeat split|done|by repeat constructor].
Qed.

(** ** The worker threads *)

Ltac counters :=
  eapply core_aside; [done|by repeat split|by repeat split|unfold total; simpl; lia|];
  by repeat constructor.

Lemma worker_step_core pc s rest s' fs :
  core s (Worker pc :: rest) -> worker_step pc s = Goes s' fs -> core s' (fs ++ rest).
Proof.
  intros Hc. destruct pc as [| | | | |b|b|b|]; simpl.
  - intros; simplify_eq. counters.
  - intros; simplify_eq. counters.
  - intros; simplify_eq. counters.
  - destruct (serving (semaphore (runq s))); intros; simplify_eq; counters.
  - unfold kernel_wait. destruct (value (semaphore (runq s))) eqn:Hv; intros; simplify_eq.
    counters.
  - intros; simplify_eq. counters.
  - intros; simplify_eq. counters.
  - unfold runq_dequeue. destruct (runnable (runq s)) as [|p l] eqn:Hr; intros; simplify_eq.
    + eapply core_aside; [done|by repeat split|by repeat split|by right|].
      by repeat constructor.
    + eapply (runq_take_core s _ [Worker WLoop]); [done|done|by repeat split| | |].
      * intros q. unfold occurs. rewrite Hr. simpl. lia.
      * rewrite Hr. unfold total. simpl. destruct b; lia.
      * by repeat constructor.
  - destruct (joining_threads s); intros; simplify_eq; counters.
Qed.

(** ** [ProcessManager::spawn] *)
Section Spawn.
Context (s : System) (rest : list frame) (p : nat) (pr : ProcessBase) (m : bool).
Context (Hp : procs s !! p = Some pr).

Lemma spawn_pc_core pc pc' :
  (pc' = SInsert \/ pc' = SFail) -> pc <> SManage ->
  core s (Spawn p m pc :: rest) -> core s ([Spawn p m pc'] ++ rest).
Proof using Hp.
  intros Hpc' Hpc Hc. destruct (core_frame _ _ _ _ _ Hc Hp) as [Hi (? & ? & Hok)].
  simplify_eq. destruct Hok as (? & ? & Hok). reads; [settle Hi|].
  destruct pc, Hpc' as [-> | ->]; try done; split_and!; done.
Qed.

Lemma spawn_insert_core :
  processes_mutex s = None -> processes s !! pid_id pr = None ->
  core s (Spawn p m SInsert :: rest) ->
  core (set_processes (<[pid_id pr := p]> (processes s)) (put p (with_weak true pr) s))
    ([Spawn p m SManage] ++ rest).
Proof using Hp.
  intros Hm Hn Hc. destruct (core_frame _ _ _ _ _ Hc Hp) as [Hi (? & ? & Hst & Hmx & Hwk & Hre & Hse)].
  simplify_eq. alone Hi.
  eapply core_step; [done|done|apply lookup_insert_eq| | |done| | | |]; simpl.
  - intros q Hne. split; simpl; counts; auto.
    + by rewrite lookup_insert_ne.
    + intros i. destruct (decide (i = pid_id pr)) as [->|]; [|by rewrite lookup_insert_ne].
      rewrite lookup_insert_eq, Hn. split; congruence.
  - owned.
  - intros i Hx. destruct (decide (i = pid_id pr)) as [->|]; [done|].
    rewrite lookup_insert_ne in Hx by done.
    destruct (co_map _ _ Hc i p Hx) as (? & ? & ?). congruence.
  - settle Hi; rewrite ?Hst, ?Hunfinished, ?Hoccurs in *; auto; try lia; try congruence.
  - oks. unfold ok_spawn, live. simpl. rewrite lookup_insert_eq. rewrite Hm. auto 10.
  - left. counts.
Qed.

Lemma spawn_manage_core :
  core s (Spawn p m SManage :: rest) ->
  core (put p (if m then with_manage true pr else pr) s) ([ManagerEnqueue p None] ++ rest).
Proof using Hp.
  intros Hc. destruct (core_frame _ _ _ _ _ Hc Hp) as [Hi (? & ? & Hst & Hmx & Hl)].
  simplify_eq. alone Hi. destruct m; (writes; [owned|settle Hi|auto]).
Qed.

Lemma spawn_fail_core :
  core s (Spawn p m SFail :: rest) ->
  core (put p (with_finished true pr) s) ([] ++ rest).
Proof using Hp.
  intros Hc. destruct (core_frame _ _ _ _ _ Hc Hp) as [Hi (? & ? & Hst & Hmx & Hwk & Hre & Hse)].
  simplify_eq. alone Hi. writes; [owned|].
  settle Hi; try congruence; try lia. intros _. split_and!; auto; congruence.
Qed.
End Spawn.

Lemma spawn_step_core p m pc s rest s' fs :
  core s (Spawn p m pc :: rest) -> spawn_step p m pc s = Goes s' fs ->
  core s' (fs ++ rest).
Proof.
  intros Hc. unfold spawn_step, with_process.
  destruct (procs s !! p) as [pr|] eqn:Hp; [|done]. destruct pc.
  - destruct (finalizing s); [|destruct (decide (state pr <> BOTTOM))]; intros; simplify_eq;
      eapply spawn_pc_core; eauto; done.
  - destruct (processes_mutex s) eqn:Hm; [done|].
    destruct (processes s !! pid_id pr) eqn:Hn; intros; simplify_eq.
    + eapply spawn_pc_core; eauto; done.
    + by apply spawn_insert_core.
  - intros; simplify_eq. by apply spawn_manage_core.
  - destruct (m && _); intros; simplify_eq. by eapply spawn_fail_core.
Qed.

(** A new process object: nothing refers to it. *)
Lemma core_new s f m rest p i :
  core s (f :: rest) -> neutral f -> procs s !! p = None ->
  core (put p (ProcessBase_init i) s) ([Spawn p m SCheck] ++ rest).
Proof.
  intros Hc Hn Hp. destruct (core_drop _ _ _ Hn Hc) as [Hpr Hno Hmap Hwk Hok].
  destruct (Hno p Hp) as [Hz Hm].
  assert (Hlow : forall m, (forall f, m f <= refs p f) \/ (forall f, m f <= token p f) ->
    total m rest = 0).
  { intros m0 [Hle|Hle]; pose proof (total_le _ _ rest Hle); lia. }
  assert (Hnm : processes s !! i <> Some p).
  { intros Hx. destruct (Hmap i p Hx) as (? & ? & _). congruence. }
  split; simpl.
  - intros q pr Hq. destruct (decide (q = p)) as [->|Hne].
    + rewrite lookup_insert_eq in Hq. simplify_eq.
      split; unfold owners, total in *; simpl; rewrite ?one_refl; try done; try lia.
      * intros [?|Hx]; [done|].
        rewrite (Hlow (flags p)) in Hx by (left; apply flags_refs). lia.
    + rewrite lookup_insert_ne in Hq by done. destruct (Hpr q pr Hq).
      split; unfold total in *; simpl; rewrite ?one_ne by done; auto.
  - intros q Hq. destruct (decide (q = p)) as [->|Hne].
    { by rewrite lookup_insert_eq in Hq. }
    rewrite lookup_insert_ne in Hq by done. unfold total in *. simpl.
    rewrite one_ne by done. by apply Hno.
  - intros j q Hq. destruct (Hmap j q Hq) as (pr & ? & ?).
    exists pr. rewrite lookup_insert_ne; [done|congruence].
  - unfold total in *. simpl. done.
  - apply Forall_cons_2.
    { oks. repeat split; auto. }
    apply Forall_forall. intros g Hg. rewrite Forall_forall in Hok. specialize (Hok g Hg).
    destruct (token_cases g) as [Hg0|[q Hq]].
    { eapply unowned_ok; [|done|done]. intros q Hs. simpl.
      destruct (decide (q = p)) as [->|]; [by rewrite lookup_insert_eq|].
      by rewrite lookup_insert_ne. }
    destruct (owner_exists s q g Hq Hok) as [pr Hpr'].
    eapply (quiet_ok s _ q pr pr); [done| | |done|done].
    + simpl. rewrite lookup_insert_ne; [done|congruence].
    + split; simpl; auto. exists []. by rewrite app_nil_r.
Qed.

Lemma new_process_core e i m creator s rest s' fs :
  core s (New i m creator :: rest) -> new_process e i m creator s = Goes s' fs ->
  core s' (fs ++ rest).
Proof.
  intros Hc. unfold new_process. intros; simplify_eq.
  assert (Hf : procs s !! fresh (dom (procs s)) = None)
    by (apply not_elem_of_dom, is_fresh).
  pose proof (core_new s _ m rest _ i Hc (user_neutral (New i m creator) eq_refl) Hf) as Hn.
  destruct (order_clock_aside e (fresh (dom (procs s))) creator FORCE
    (put (fresh (dom (procs s))) (ProcessBase_init i) s)) as [Ha Hr].
  pose proof (co_ok _ _ Hn) as Hok. apply Forall_cons in Hok as [Hok _].
  eapply core_aside; [exact Hn|done| | |].
  - intros q. unfold balanced, total. simpl. lia.
  - left. rewrite Hr. unfold total. simpl. lia.
  - apply Forall_singleton. destruct Ha as (H1 & H2 & H3 & _).
    destruct Hok as (pr & Hp & Hok). exists pr. rewrite H1. split; [done|].
    unfold ok_spawn, sealed in *. by rewrite H2, H3.
Qed.

(** ** All steps *)

(** Every step but the dropping of a process. *)
Lemma advance_kept e f s rest s' fs :
  ok_env e -> (forall p h, f <> ManagerEnqueue p h) \/ joining_threads s = false ->
  core s (f :: rest) -> advance_frame e f s = Goes s' fs -> core s' (fs ++ rest).
Proof.
  intros He Hj Hc. destruct f; cbn [advance_frame].
  - by apply worker_step_core.
  - by apply resume_step_core.
  - by apply cleanup_step_core.
  - by apply deliver_step_core.
  - by apply deliver_step_core.
  - by apply enqueue_step_core.
  - destruct Hj as [Hj|Hj]; [by destruct (Hj p holds)|]. by apply manager_enqueue_core.
  - by apply runq_enqueue_core.
  - by apply runq_enqueue_core.
  - by apply runq_enqueue_core.
  - by apply release_core.
  - by apply new_process_core.
  - by apply spawn_step_core.
  - by apply terminate_step_core.
  - by apply terminate_step_core.
  - by apply wait_step_core.
  - by apply wait_step_core.
  - by apply wait_step_core.
  - by apply wait_step_core.
  - by apply wait_step_core.
  - by apply finalize_step_core.
  - by apply finalize_step_core.
  - by apply finalize_step_core.
  - by apply finalize_step_core.
  - by apply finalize_step_core.
Qed.

Lemma advance_core e f s rest s' fs :
  ok_env e -> core s (f :: rest) -> advance_frame e f s = Goes s' fs ->
  exists lost, core s' ((fs ++ lost) ++ rest) /\ Forall dropped lost /\
    (joining_threads s = false -> lost = []).
Proof.
  intros He Hc Ha. destruct (joining_threads s) eqn:Hj.
  2: { exists []. rewrite app_nil_r. split; [|split; [by apply Forall_nil_2|done]]. (eapply advance_kept; [done|by right|done|done]). }
  destruct f as [| | | | | |p h| | | | | | | | | | | | | | | | | |].
  7: { exists [ManagerEnqueue p None]. split_and!; [|repeat constructor; by eexists|done].
       by eapply manager_enqueue_dropped. }
  all: exists []; rewrite app_nil_r; (split; [|split; [by apply Forall_nil_2|done]]);
    refine (advance_kept _ _ _ _ _ _ He _ Hc Ha); left; discriminate.
Qed.

(** Once the threads are joining they stay so. *)
Lemma joining_monotone e f s s' fs :
  advance_frame e f s = Goes s' fs -> joining_threads s' = false ->
  joining_threads s = false.
Proof.
  intros Ha Hj. destruct (joining_threads s) eqn:E; [|done].
  assert (Hoc : forall p x u s0, joining_threads s0 = true ->
    joining_threads (order_clock e p x u s0) = true).
  { intros p x u s0 H. unfold order_clock. destruct (paused _); [|done]. by destruct (now _ _ _). }
  unfold advance_frame, worker_step, resume_step, cleanup_step, deliver_step, enqueue_step,
    manager_enqueue, runq_enqueue, new_process, spawn_step, terminate_step, wait_step,
    finalize_step, with_process, with_use in Ha.
  repeat case_match; simplify_eq/=; try congruence.
  all: match type of Hj with joining_threads (order_clock ?e ?p ?x ?u ?s0) = false =>
    rewrite (Hoc p x u s0) in Hj; done end.
Qed.
