(* ===== verification/SchedulerSpec.v ===== *)
(** What the process manager guarantees, in every configuration reachable by any
    number of user and worker threads, under every interleaving of their atomic
    accesses, also while [finalize] joins the worker threads. *)

From S2P Require Import Prelude Clock Events Scheduler SchedulerInv SchedulerSteps.

(** ** Reachable configurations satisfy the invariant *)

Lemma frames_split (ts : list (list frame)) i f k fs :
  ts !! i = Some (f :: k) ->
  exists rest, concat ts ≡ₚ f :: rest /\ concat (<[i := fs ++ k]> ts) ≡ₚ fs ++ rest.
Proof.
  intros Hi. exists (k ++ concat (take i ts) ++ concat (drop (S i) ts)).
  pose proof (take_drop_middle _ _ _ Hi) as He. split.
  - rewrite <- He at 1. rewrite concat_app. simpl.
    rewrite (Permutation_app_comm (concat (take i ts))). simpl.
    rewrite <- app_assoc. f_equiv. f_equiv. apply Permutation_app_comm.
  - rewrite insert_take_drop by (by eapply lookup_lt_Some).
    rewrite concat_app. simpl. rewrite (Permutation_app_comm (concat (take i ts))).
    rewrite <- !app_assoc. do 2 f_equiv. apply Permutation_app_comm.
Qed.

Lemma sched_inv c c' :
  inv c.1 (concat c.2) -> sched c c' -> inv c'.1 (concat c'.2).
Proof.
  intros (lost & Hc & Hd & Hj) Hs. destruct Hs as [e i f k s s' fs ts Hlk He Ha]. simpl in *.
  destruct (frames_split ts i f k fs Hlk) as (rest & Hold & Hnew).
  destruct (advance_core e f s (rest ++ lost) s' fs He) as (more & Hc' & Hd' & Hj'); [|done|].
  { eapply core_perm; [|exact Hc]. by rewrite Hold. }
  exists (more ++ lost). split_and!.
  - eapply core_perm; [|exact Hc']. rewrite Hnew, <- !app_assoc. f_equiv.
    rewrite !app_assoc. f_equiv. apply Permutation_app_comm.
  - by apply Forall_app.
  - intros Hs'. pose proof (joining_monotone _ _ _ _ _ Ha Hs') as Hs0.
    by rewrite Hj, Hj' by done.
Qed.

Lemma started_core ts : started ts -> core System_init (concat ts).
Proof.
  intros Hst.
  assert (Hn : Forall neutral (concat ts)).
  { apply Forall_concat. eapply Forall_impl; [done|]. simpl. intros t [->|Ht].
    - repeat constructor.
    - apply Forall_forall. intros f Hf. apply user_neutral.
      rewrite forallb_forall in Ht. by apply Ht, list_elem_of_In. }
  assert (Hz : forall m, (forall f, neutral f -> m f = 0) -> total m (concat ts) = 0).
  { intros m Hm. apply total_zero. intros f Hf. rewrite Forall_forall in Hn. auto. }
  split; simpl; try done.
  - intros p _. rewrite !Hz; [done| |];
      intros f (Hf & _); by destruct (Hf p) as (? & ? & _).
  - lia.
  - eapply Forall_impl; [done|]. intros f (_ & _ & Hok). apply Hok.
Qed.

Lemma reachable_inv s ts : reachable (s, ts) -> inv s (concat ts).
Proof.
  intros (ts0 & Hst & Hr).
  apply (steps_invariant sched (fun c => inv c.1 (concat c.2))) in Hr; [done| |].
  - intros a b. apply sched_inv.
  - exists []. rewrite app_nil_r. split_and!; [by apply started_core|by apply Forall_nil_2|done].
Qed.

(** The frame a thread runs next, with the rest. *)
Lemma reachable_frame s ts i f k :
  reachable (s, ts) -> ts !! i = Some (f :: k) -> exists rest, core s (f :: rest).
Proof.
  intros Hr Hi. destruct (frames_split ts i f k [] Hi) as (rest & Hold & _).
  destruct (reachable_inv _ _ Hr) as (lost & Hc & _).
  exists (rest ++ lost). eapply core_perm; [|exact Hc]. by rewrite Hold.
Qed.

(** Dropped processes hold no references and wake nobody. *)
Lemma dropped_total m fs lost :
  (forall p, m (ManagerEnqueue p None) = 0) -> Forall dropped lost ->
  total m (fs ++ lost) = total m fs.
Proof.
  intros Hm Hd. rewrite total_app, (total_zero m lost); [lia|].
  intros f Hf. rewrite Forall_forall in Hd. destruct (Hd f Hf) as [p ->]. apply Hm.
Qed.

(** The owner of a process, or none if the process was dropped. *)
Definition owned_or_dropped (s : System) (ts : list (list frame)) (p : nat)
    (pr : ProcessBase) : Prop :=
  total (token p) (concat ts) + occurs p (runq s) = owners pr \/
  joining_threads s = true /\ (state pr = BOTTOM \/ state pr = READY) /\
    finished pr = false /\ total (token p) (concat ts) + occurs p (runq s) = 0.

Lemma reachable_owned s ts p pr :
  reachable (s, ts) -> procs s !! p = Some pr -> owned_or_dropped s ts p pr.
Proof.
  intros Hr Hp. destruct (reachable_inv _ _ Hr) as (lost & Hc & Hd & Hj).
  pose proof (co_process _ _ Hc p pr Hp) as Hi. pose proof (pi_token _ _ _ _ Hi) as Ht.
  rewrite total_app in Ht. destruct (total (token p) lost) as [|n] eqn:Hl; [left; lia|].
  right. assert (Hx : exists f, f ∈ lost /\ 0 < token p f).
  { clear -Hl. induction lost as [|f lost IH]; [done|]. unfold total in *. simpl in Hl.
    destruct (token p f) eqn:E; [|exists f; split; [left|lia]].
    destruct IH as (g & ? & ?); [done|]. exists g. split; [by right|done]. }
  destruct Hx as (f & Hf & Hft). rewrite Forall_forall in Hd. destruct (Hd f Hf) as [q ->].
  assert (q = p) as ->.
  { simpl in Hft. unfold one in Hft. destruct (decide (p = q)); [done|lia]. }
  pose proof (co_ok _ _ Hc) as Hok. rewrite Forall_forall in Hok.
  destruct (Hok (ManagerEnqueue p None)) as (pr' & ? & _ & Hst); [set_solver|]. simplify_eq.
  split_and!; [|done| |].
  - destruct (joining_threads s); [done|]. rewrite (Hj eq_refl) in Hf. by apply not_elem_of_nil in Hf.
  - unfold owners in Ht. destruct (finished pr); [lia|done].
  - unfold owners in Ht. repeat case_match; lia.
Qed.

(** A frame that owns a process or holds a reference to it. *)
Definition touches (p : nat) (f : frame) : bool :=
  (0 <? token p f) || (0 <? refs p f).

Lemma touched_exists s f rest p :
  core s (f :: rest) -> touches p f = true ->
  exists pr, procs s !! p = Some pr /\ finished pr = false.
Proof.
  intros Hc Ht. destruct (procs s !! p) as [pr|] eqn:Hp.
  - exists pr. split; [done|]. destruct (core_frame _ _ _ _ _ Hc Hp) as [Hi _].
    destruct (finished pr) eqn:Hf; [|done].
    destruct (pi_finished _ _ _ _ Hi Hf) as ((Hz & _) & _).
    pose proof (pi_token _ _ _ _ Hi) as H1. pose proof (pi_refs _ _ _ _ Hi) as H2.
    unfold owners in H1. rewrite Hf in H1. rewrite Hz in H2. unfold total in *. simpl in *.
    unfold touches in Ht. apply orb_true_iff in Ht as [Ht|Ht]; bool_cases; lia.
  - destruct (co_none _ _ Hc p Hp) as [Hz _]. unfold total in Hz. simpl in Hz.
    unfold touches in Ht. apply orb_true_iff in Ht as [Ht|Ht]; bool_cases; lia.
Qed.

(** ** [CHECK]s *)

Lemma resume_safe e p pc s rest m :
  core s (Resume p pc :: rest) -> resume_step e p pc s <> Aborts m.
Proof.
  intros Hc. pose proof (co_ok _ _ Hc) as Hok. apply Forall_cons in Hok as [Hok _].
  destruct Hok as (pr & Hp & Hok). unfold resume_step, with_process. rewrite Hp.
  destruct pc as [| | | | | | | | |ev|ev|t ev|ev|t|t| |]; simpl in *; try done;
    try (by repeat case_match).
  - destruct Hok as [_ [-> | ->]]; done.
  - destruct Hok as [(-> & _) _]. done.
  - unfold events_dequeue. destruct Hok as (_ & _ & He). by destruct (events (queue pr)).
  - destruct Hok as (_ & _ & _ & He). destruct (is_terminate ev); [done|]. simpl.
    unfold events_dequeue. destruct He as [|He]; [done|]. by destruct (events (queue pr)).
  - destruct Hok as (-> & _). rewrite andb_false_r. done.
Qed.

Lemma advance_safe e f s rest m :
  core s (f :: rest) -> advance_frame e f s <> Aborts m.
Proof.
  intros Hc. pose proof (co_ok _ _ Hc) as Hok. apply Forall_cons in Hok as [Hok _].
  destruct f as [pc|p pc|p pc|? ? ?|p ? ?|p pc|p h|p h|h|h|p|? ? ?|p ? pc|? ? ?|p ? ?|?|p|p| |p| | | | |];
    cbn [advance_frame]; try done.
  - destruct pc; simpl; repeat case_match; done.
  - by eapply resume_safe.
  - destruct Hok as (pr & Hp & Hok). unfold cleanup_step, with_process. rewrite Hp.
    destruct pc; simpl in *; try (by repeat case_match).
    + by destruct Hok as (_ & ->).
    + destruct Hok as ((_ & -> & _) & _). by case_match.
  - simpl. unfold with_use. by case_match.
  - destruct (touched_exists _ _ _ p Hc) as (pr & Hp & _).
    { unfold touches. simpl. by rewrite one_refl. }
    unfold enqueue_step, with_process. rewrite Hp. destruct pc; repeat case_match; done.
  - unfold manager_enqueue. by case_match.
  - destruct (touched_exists _ _ _ p Hc) as (pr & Hp & _).
    { unfold touches. simpl. by rewrite one_refl. }
    unfold with_process. by rewrite Hp.
  - destruct Hok as (pr & Hp & Hst & Hok). unfold spawn_step, with_process. rewrite Hp, Hst.
    rewrite andb_false_r. destruct pc; repeat case_match; done.
  - simpl. unfold with_use. by case_match.
  - simpl. unfold with_use. by case_match.
  - destruct (touched_exists _ _ _ p Hc) as (pr & Hp & _).
    { unfold touches. simpl. by rewrite one_refl. }
    simpl. unfold with_process. rewrite Hp. by case_match.
  - simpl. by repeat case_match.
  - simpl. by repeat case_match.
  - simpl. by repeat case_match.
Qed.

(** ** Running a schedule

    A turn names the thread that steps and the calls made by user code, if the
    step runs user code. *)
Definition plain (cs : list frame) : env :=
  mkEnv 0 (fun _ _ => false) cs [] (mkUPID 0 false None).

Definition turn (c : config) (x : nat * list frame) : option config :=
  match c.2 !! x.1 with
  | Some (f :: k) =>
      if forallb user x.2 then
        match advance_frame (plain x.2) f c.1 with
        | Goes s fs => Some (s, <[x.1 := fs ++ k]> c.2)
        | _ => None
        end
      else None
  | _ => None
  end.

Fixpoint play (c : config) (xs : list (nat * list frame)) : option config :=
  match xs with
  | [] => Some c
  | x :: xs => match turn c x with Some c' => play c' xs | None => None end
  end.

Lemma play_steps c xs c' : play c xs = Some c' -> steps sched c c'.
Proof.
  revert c. induction xs as [|x xs IH]; simpl; intros c Hp; [simplify_eq; constructor|].
  destruct (turn c x) as [c1|] eqn:Ht; [|done]. apply steps_cons with c1; [|by apply IH].
  unfold turn in Ht. destruct c as [s ts]. simpl in *.
  destruct (ts !! x.1) as [[|f k]|] eqn:Hi; [done| |done].
  destruct (forallb user x.2) eqn:Hu; [|done].
  destruct (advance_frame (plain x.2) f s) as [|s' fs|] eqn:Ha; simplify_eq.
  eapply sched_step; [done| |done]. by split.
Qed.

(** A user thread spawns process 0 (id 7), sends it an event and terminates it
    while one worker serves it. *)
Definition program : list (list frame) :=
  [[Worker WStart];
   [New 7 true None; Deliver (mkUPID 7 true None) None (MessageEvent 1);
    Terminate (mkUPID 7 true None) true None]].

Definition turns (i n : nat) : list (nat * list frame) := repeat (i, []) n.

Definition after (n1 n2 : nat) : option config :=
  play (System_init, program) (turns 1 n1 ++ turns 0 n2).

Lemma program_started : started program.
Proof. apply Forall_cons_2; [by left|]. apply Forall_singleton. by right. Qed.

Lemma after_reachable n1 n2 c : after n1 n2 = Some c -> reachable c.
Proof. intros H. exists program. split; [apply program_started|by eapply play_steps]. Qed.

(** ** The guarantees *)

(** C1: no [CHECK] of the process manager fails: whatever the threads did before,
    also while [finalize] joins the workers, the next step of any thread is not one
    of the aborts of [resume] (a process that is neither BOTTOM nor READY, an empty
    event queue, no event to purge), [cleanup] (a process that is not READY, a pid
    without reference), [spawn] or the destructor, and never dereferences an unknown
    process.  The filter of the event loop, if one is installed, must not drop
    terminate events ([ok_env], part of [reachable]). *)
Theorem no_check_fails s ts i f k e m :
  reachable (s, ts) -> ts !! i = Some (f :: k) -> advance_frame e f s <> Aborts m.
Proof.
  intros Hr Hi. destruct (reachable_frame _ _ _ _ _ Hr Hi) as [rest Hc].
  by eapply advance_safe.
Qed.

(** C2: a process is run by one thread at a time, and forgotten only when the library
    shuts down: every process that the library is not done with is owned exactly once,
    by a thread that runs it, cleans it up or is enqueueing it, or by its place in the
    run queue, unless it is BLOCKED, when nobody owns it.  The one exception are
    processes that became runnable after [finalize] started to join the threads
    ([joining_threads]): [enqueue] drops them, and they stay BOTTOM or READY without
    an owner.  Filters do not drop terminate events ([ok_env]). *)
Theorem one_owner s ts p pr :
  reachable (s, ts) -> procs s !! p = Some pr ->
  total (token p) (concat ts) + occurs p (runq s) =
    (if finished pr then 0 else if decide (state pr = BLOCKED) then 0 else 1) \/
  joining_threads s = true /\ (state pr = BOTTOM \/ state pr = READY) /\
    finished pr = false /\ total (token p) (concat ts) + occurs p (runq s) = 0.
Proof. apply reachable_owned. Qed.

(** C3: no wake-up is lost before the shutdown: a process with an event in its queue is
    owned, or some thread is about to look whether it has to be put into the run queue,
    or the threads are being joined and it was dropped when it became runnable.  So
    when every thread is a worker waiting for work and the threads are not being
    joined, the process is in the run queue.  Filters do not drop terminate events
    ([ok_env]). *)
Theorem no_lost_wakeup s ts p pr :
  reachable (s, ts) -> procs s !! p = Some pr ->
  finished pr = false -> events (queue pr) <> [] ->
  (total (token p) (concat ts) + occurs p (runq s) = 1 \/
   0 < total (wakes p) (concat ts) \/
   joining_threads s = true /\ (state pr = BOTTOM \/ state pr = READY)) /\
  (joining_threads s = false -> (forall f, f ∈ concat ts -> f = Worker WSemaphore) ->
   p ∈ runnable (runq s)).
Proof.
  intros Hr Hp Hf He. destruct (reachable_inv _ _ Hr) as (lost & Hc & Hd & _).
  pose proof (pi_wakes _ _ _ _ (co_process _ _ Hc p pr Hp)) as Hw.
  rewrite (dropped_total (wakes p)) in Hw by done.
  assert (Hor : total (token p) (concat ts) + occurs p (runq s) = 1 \/
    0 < total (wakes p) (concat ts) \/
    joining_threads s = true /\ (state pr = BOTTOM \/ state pr = READY)).
  { destruct (reachable_owned s ts p pr Hr Hp) as [Ht|(Hj & Hst & _)]; [|auto].
    unfold owners in Ht. rewrite Hf in Ht. destruct (decide (state pr = BLOCKED)); auto. }
  split; [done|]. intros Hj Hall.
  assert (Hz : forall m, m (Worker WSemaphore) = 0 -> total m (concat ts) = 0).
  { intros m Hm. apply total_zero. intros f Hfr. by rewrite (Hall f Hfr). }
  rewrite (Hz (token p)), (Hz (wakes p)) in Hor by done.
  assert (Hoc : 0 < occurs p (runq s)).
  { destruct Hor as [?|[?|[? _]]]; [lia|lia|congruence]. }
  revert Hoc. unfold occurs. clear.
  induction (runnable (runq s)) as [|q l IH]; simpl; [lia|].
  unfold one. destruct (decide (p = q)) as [->|]; set_solver.
Qed.

(** C5: the events a process accepted are taken from its queue in the order in
    which they were accepted, and served in that order, each at most once, also while
    [finalize] joins the threads.  Filters do not drop terminate events ([ok_env]). *)
Theorem events_served_in_order s ts p pr :
  reachable (s, ts) -> procs s !! p = Some pr ->
  accepted pr = taken pr ++ events (queue pr) /\ sublist (served pr) (accepted pr).
Proof.
  intros Hr Hp. destruct (reachable_inv _ _ Hr) as (lost & Hc & _).
  destruct (co_process _ _ Hc p pr Hp) as [_ _ _ _ Ha Hs _ _ _ _ _ _].
  split; [done|]. rewrite Ha. by apply sublist_inserts_r.
Qed.

(** C6: a process is not used after the library is done with it (when a managed
    process has been destroyed): a frame that owns a process or holds a reference
    to it has a process that is not finished; a finished process has no references
    and is not in the map of processes, and none of its events is left in the queue.
    Filters do not drop terminate events ([ok_env]). *)
Theorem no_use_after_finish s ts p :
  reachable (s, ts) ->
  (forall f, f ∈ concat ts -> touches p f = true ->
   exists pr, procs s !! p = Some pr /\ finished pr = false) /\
  (forall pr, procs s !! p = Some pr -> finished pr = true ->
   references pr = 0 /\ (forall i, processes s !! i <> Some p) /\
   events (queue pr) = []).
Proof.
  intros Hr. destruct (reachable_inv _ _ Hr) as (lost & Hc & _). split.
  - intros f Hf Ht. apply list_elem_of_split in Hf as (l1 & l2 & Hl).
    eapply (touched_exists s f ((l1 ++ l2) ++ lost)); [|done]. eapply core_perm; [|exact Hc].
    rewrite Hl. rewrite <- (Permutation_middle l1 l2 f). done.
  - intros pr Hp Hf. pose proof (co_process _ _ Hc p pr Hp) as Hi.
    destruct (pi_finished _ _ _ _ Hi Hf) as ((Hz & _ & Hm) & _ & Hcl). split_and!; auto.
    + intros i Hx. destruct (co_map _ _ Hc i p Hx) as (? & ? & ?). congruence.
    + destruct (weak pr) eqn:Hw; [by apply (pi_closed _ _ _ _ Hi), Hcl|].
      by destruct (pi_unspawned _ _ _ _ Hi Hw).
Qed.

(** A process in the run queue always has a wake-up of its own: the run queue is
    never longer than the value of the semaphore, the threads woken up for it and
    the enqueues that still have to signal, together. *)
Theorem run_queue_has_wakeups s ts :
  reachable (s, ts) ->
  length (runnable (runq s)) <=
    value (semaphore (runq s)) + total wakeups (concat ts).
Proof.
  intros Hr. destruct (reachable_inv _ _ Hr) as (lost & Hc & Hd & _).
  pose proof (co_wakeups _ _ Hc) as Hw. by rewrite dropped_total in Hw.
Qed.

(** Two workers; the first is about to look at the queue again after it stored
    BLOCKED when an event arrives and the second worker takes over. *)
Definition race : list (list frame) :=
  [[Worker WStart]; [Worker WStart];
   [New 7 true None; Deliver (mkUPID 7 true None) None (MessageEvent 1)]].

Definition race_schedule : list (nat * list frame) :=
  turns 2 8 ++ turns 0 14 ++ turns 2 11 ++ turns 1 11.

Lemma race_started : started race.
Proof.
  do 2 (apply Forall_cons_2; [by left|]). apply Forall_singleton. by right.
Qed.

(** [resume] does not keep the single-consumer contract of the event queue: a
    thread can call [consumer.empty()], after it stored BLOCKED, while another
    thread that already resumed the process dequeues from the same queue.  (The
    locking queue tolerates this; [MpscLinkedQueue::empty] reads the node that
    [dequeue] deletes.) *)
Theorem recheck_overlaps_dequeue :
  exists s ts, reachable (s, ts) /\
    ts !! 0 = Some [Resume 0 RRecheck; Worker WLoop] /\
    ts !! 1 = Some [Resume 0 RDequeue; Worker WLoop].
Proof.
  assert (H : exists c, play (System_init, race) race_schedule = Some c /\
    c.2 !! 0 = Some [Resume 0 RRecheck; Worker WLoop] /\
    c.2 !! 1 = Some [Resume 0 RDequeue; Worker WLoop]).
  { eexists; split; [vm_compute; reflexivity|]. split; reflexivity. }
  destruct H as ([s ts] & Hp & H0 & H1). exists s, ts. split; [|exact (conj H0 H1)].
  exists race. split; [exact race_started|exact (play_steps _ _ _ Hp)].
Qed.

(** ** Witnesses *)

Definition config_of (n1 n2 : nat) : config := default (System_init, []) (after n1 n2).

Definition proc_of (n1 n2 : nat) : ProcessBase :=
  default (ProcessBase_init 0) (procs (config_of n1 n2).1 !! 0).

Lemma config_of_reachable n1 n2 :
  after n1 n2 <> None -> reachable ((config_of n1 n2).1, (config_of n1 n2).2).
Proof.
  unfold config_of. intros Ha. destruct (after n1 n2) as [[s ts]|] eqn:E; [|done].
  by apply (after_reachable n1 n2).
Qed.

Lemma no_check_fails_witness :
  advance_frame (plain []) (Resume 0 (RPurge (MessageEvent 1))) (config_of 22 15).1
    <> Aborts "CHECK_NOTNULL(event)".
Proof.
  apply (no_check_fails _ (config_of 22 15).2 0 _ [Worker WLoop]).
  - apply config_of_reachable. vm_compute. discriminate.
  - vm_compute. reflexivity.
Defined.

Lemma one_owner_witness :
  total (token 0) (concat (config_of 22 19).2) + occurs 0 (runq (config_of 22 19).1) = 1.
Proof.
  destruct (one_owner (config_of 22 19).1 (config_of 22 19).2 0 (proc_of 22 19)) as [H|[H _]].
  - apply config_of_reachable. vm_compute. discriminate.
  - vm_compute. reflexivity.
  - exact H.
  - vm_compute in H. discriminate.
Defined.

(** A thread spawns a process while another finalizes: the process passed the check of
    [spawn], the map was empty when [finalize] looked, and then the threads are joined.
    The process is dropped: it is in the map, BOTTOM, and nobody will run it. *)
Example spawned_while_joining :
  exists s pr, play (System_init, [[New 7 true None]; [Finalize]])
    (turns 0 2 ++ turns 1 3 ++ turns 0 3) = Some (s, [[]; [FinalizeDecomission]]) /\
  procs s !! 0 = Some pr /\ state pr = BOTTOM /\ processes s !! 7 = Some 0 /\
  occurs 0 (runq s) = 0 /\ joining_threads s = true.
Proof. do 2 eexists. split; [vm_compute; reflexivity|]. repeat split; reflexivity. Qed.

Lemma no_lost_wakeup_witness :
  total (token 0) (concat (config_of 13 4).2) + occurs 0 (runq (config_of 13 4).1) = 1 \/
  0 < total (wakes 0) (concat (config_of 13 4).2).
Proof.
  destruct (no_lost_wakeup (config_of 13 4).1 (config_of 13 4).2 0 (proc_of 13 4))
    as [[H|[H|[H _]]] _].
  - apply config_of_reachable. vm_compute. discriminate.
  - vm_compute. reflexivity.
  - vm_compute. reflexivity.
  - vm_compute. discriminate.
  - left. exact H.
  - right. exact H.
  - vm_compute in H. discriminate.
Defined.

Lemma events_served_in_order_witness :
  accepted (proc_of 22 28) = [MessageEvent 1; TerminateEvent true] /\
  sublist (served (proc_of 22 28)) (accepted (proc_of 22 28)).
Proof.
  split; [vm_compute; reflexivity|].
  apply (events_served_in_order (config_of 22 28).1 (config_of 22 28).2 0).
  - apply config_of_reachable. vm_compute. discriminate.
  - vm_compute. reflexivity.
Defined.

Lemma no_use_after_finish_witness :
  finished (proc_of 22 29) = true /\ references (proc_of 22 29) = 0.
Proof.
  split; [vm_compute; reflexivity|].
  apply (no_use_after_finish (config_of 22 29).1 (config_of 22 29).2 0).
  - apply config_of_reachable. vm_compute. discriminate.
  - vm_compute. reflexivity.
  - vm_compute. reflexivity.
Defined.

Lemma run_queue_has_wakeups_witness :
  length (runnable (runq (config_of 13 4).1)) = 1 /\
  length (runnable (runq (config_of 13 4).1)) <=
    value (semaphore (runq (config_of 13 4).1)) + total wakeups (concat (config_of 13 4).2).
Proof.
  split; [vm_compute; reflexivity|]. apply run_queue_has_wakeups.
  - apply config_of_reachable. vm_compute. discriminate.
Defined.
