(* ===== verification/Links.v ===== *)
(** The links of the socket manager ([SocketManager::link], the part that records
    the link, and both [exited] of [process.cpp]): who is told when a process or the
    peer at an address goes away. *)

From S2P Require Import Prelude.

(** A [UPID] as far as links are concerned: address and id. *)
Definition UPID : Type := nat * nat.
Definition address (u : UPID) : nat := u.1.

Section Links.
(** [__address__], the address of this library instance. *)
Context (self : nat).

(** ** Maps of sets

    [hashmap<K, hashset<A>>] whose entries are erased when they become empty. *)
Section Multimap.
Context {K A : Type} `{Countable K} `{Countable A}.

(** [m[k].insert(x)]. *)
Definition insert_in (k : K) (x : A) (m : gmap K (gset A)) : gmap K (gset A) :=
  <[k := {[x]} ∪ default ∅ (m !! k)]> m.

(** [m[k].erase(x); if (m[k].empty()) m.erase(k)]. *)
Definition erase_in (k : K) (x : A) (m : gmap K (gset A)) : gmap K (gset A) :=
  let rest := default ∅ (m !! k) ∖ {[x]} in
  if decide (rest = ∅) then delete k m else <[k := rest]> m.

Definition related (m : gmap K (gset A)) (k : K) (x : A) : Prop :=
  exists s, m !! k = Some s /\ x ∈ s.

Definition no_empty (m : gmap K (gset A)) : Prop := forall k s, m !! k = Some s -> s <> ∅.

Lemma related_default m k x : related m k x <-> x ∈ default ∅ (m !! k).
Proof.
  unfold related. destruct (m !! k) as [s|]; simpl; [|set_solver].
  split; [intros (? & ? & ?); by simplify_eq|eauto].
Qed.

Lemma related_insert_in m k x k' y :
  related (insert_in k x m) k' y <-> (k = k' /\ x = y) \/ related m k' y.
Proof.
  rewrite !related_default. unfold insert_in. destruct (decide (k = k')) as [<-|Hne].
  - rewrite lookup_insert_eq. set_solver.
  - rewrite lookup_insert_ne by done. set_solver.
Qed.

Lemma related_erase_in m k x k' y :
  related (erase_in k x m) k' y <-> related m k' y /\ ~ (k = k' /\ x = y).
Proof.
  rewrite !related_default. unfold erase_in.
  destruct (decide (k = k')) as [<-|Hne].
  - destruct (decide _) as [He|He].
    + rewrite lookup_delete_eq. set_solver.
    + rewrite lookup_insert_eq. set_solver.
  - destruct (decide _); [rewrite lookup_delete_ne|rewrite lookup_insert_ne]; try done;
      set_solver.
Qed.

Lemma related_delete m k k' y :
  related (delete k m) k' y <-> related m k' y /\ k <> k'.
Proof.
  rewrite !related_default. destruct (decide (k = k')) as [<-|Hne].
  - rewrite lookup_delete_eq. set_solver.
  - rewrite lookup_delete_ne by done. set_solver.
Qed.

Lemma no_empty_insert_in m k x : no_empty m -> no_empty (insert_in k x m).
Proof.
  intros Hm k' s. unfold insert_in. destruct (decide (k = k')) as [<-|Hne].
  - rewrite lookup_insert_eq. intros ?; simplify_eq. set_solver.
  - rewrite lookup_insert_ne by done. apply Hm.
Qed.

Lemma no_empty_erase_in m k x : no_empty m -> no_empty (erase_in k x m).
Proof.
  intros Hm k' s. unfold erase_in. destruct (decide (k = k')) as [<-|Hne].
  - destruct (decide _); [by rewrite lookup_delete_eq|].
    rewrite lookup_insert_eq. intros ?; by simplify_eq.
  - destruct (decide _); [rewrite lookup_delete_ne by done|rewrite lookup_insert_ne by done];
      apply Hm.
Qed.

Lemma no_empty_delete m k : no_empty m -> no_empty (delete k m).
Proof. intros Hm k' s. rewrite lookup_delete_Some. intros [_ ?]. by eapply Hm. Qed.

Lemma no_empty_related m k : no_empty m -> is_Some (m !! k) -> exists x, related m k x.
Proof.
  intros Hm [s Hs]. destruct (set_choose_L s) as [x Hx]; [by eapply Hm|].
  exists x, s. done.
Qed.
End Multimap.

(** ** The state and its operations *)
Record links := mkLinks {
  linkers : gmap UPID (gset nat);
  linkees : gmap nat (gset UPID);
  remotes : gmap nat (gset UPID);
}.

Definition links_init : links := mkLinks ∅ ∅ ∅.

(** The end of the critical section of [SocketManager::link]. *)
Definition link (process : nat) (to : UPID) (l : links) : links :=
  mkLinks (insert_in to process (linkers l)) (insert_in process to (linkees l))
    (if decide (address to <> self) then insert_in (address to) to (remotes l)
     else remotes l).

Definition contains {K A} `{Countable K} (m : gmap K A) (k : K) : bool :=
  bool_decide (is_Some (m !! k)).

(** Deliveries of exited events: to the linker, about the linkee. *)
Definition delivery : Type := nat * UPID.

Definition bind {A B} (c : checked A) (f : A -> checked B) : checked B :=
  match c with Returns a => f a | Abort m => Abort m end.

(** The loop over the linkers of a linkee, common to both [exited]: deliver, and
    remove the linkee from the linker. *)
Fixpoint notify (guard : nat -> bool) (linkee : UPID) (ps : list nat) (l : links)
    : checked (links * list delivery) :=
  match ps with
  | [] => Returns (l, [])
  | p :: ps =>
      if negb (guard p) then Abort "Process linked with itself"
      else if negb (contains (linkees l) p) then Abort "CHECK(linkees.contains(linker))"
      else
        bind (notify guard linkee ps
                (mkLinks (linkers l) (erase_in p linkee (linkees l)) (remotes l)))
          (fun '(l', ds) => Returns (l', (p, linkee) :: ds))
  end.

(** The loop of [exited(address)] over the linkees at the address. *)
Fixpoint notify_all (us : list UPID) (l : links) : checked (links * list delivery) :=
  match us with
  | [] => Returns (l, [])
  | u :: us =>
      match linkers l !! u with
      | None => Abort "CHECK(linkers.contains(linkee))"
      | Some ps =>
          bind (notify (fun _ => true) u (elements ps) l) (fun '(l1, ds) =>
          bind (notify_all us (mkLinks (delete u (linkers l1)) (linkees l1) (remotes l1)))
            (fun '(l2, ds') => Returns (l2, ds ++ ds')))
      end
  end.

Definition exited_address (a : nat) (l : links) : checked (links * list delivery) :=
  match remotes l !! a with
  | None => Returns (l, [])
  | Some us =>
      bind (notify_all (elements us) l) (fun '(l', ds) =>
      Returns (mkLinks (linkers l') (linkees l') (delete a (remotes l')), ds))
  end.

(** The loop of [exited(process)] over what the process had linked to. *)
Fixpoint unlink_all (p : nat) (us : list UPID) (l : links) : checked links :=
  match us with
  | [] => Returns l
  | u :: us =>
      if negb (contains (linkers l) u) then Abort "CHECK(linkers.contains(linkee))"
      else
        let lk := erase_in u p (linkers l) in
        if negb (contains lk u) && bool_decide (address u <> self) then
          if negb (contains (remotes l) (address u))
          then Abort "CHECK(remotes.contains(address))"
          else unlink_all p us
                 (mkLinks lk (linkees l) (erase_in (address u) u (remotes l)))
        else unlink_all p us (mkLinks lk (linkees l) (remotes l))
  end.

Definition unlink_process (p : nat) (l : links) : checked links :=
  match linkees l !! p with
  | None => Returns l
  | Some us =>
      bind (unlink_all p (elements us) l) (fun l' =>
      Returns (mkLinks (linkers l') (delete p (linkees l')) (remotes l')))
  end.

Definition exited_process (p : nat) (pid : UPID) (l : links)
    : checked (links * list delivery) :=
  bind (unlink_process p l)
    (fun l =>
     match linkers l !! pid with
     | None => Returns (l, [])
     | Some ps =>
         bind (notify (fun q => bool_decide (q <> p)) pid (elements ps) l)
           (fun '(l', ds) =>
            Returns (mkLinks (delete pid (linkers l')) (linkees l') (remotes l'), ds))
     end).

(** ** The invariant *)

Definition remotes_ok (l : links) : Prop :=
  forall a u, related (remotes l) a u <->
    address u = a /\ a <> self /\ exists p, related (linkers l) u p.

Record wf (l : links) : Prop := {
  wf_linkers : no_empty (linkers l);
  wf_linkees : no_empty (linkees l);
  wf_remotes : no_empty (remotes l);
  wf_both : forall u p, related (linkers l) u p <-> related (linkees l) p u;
  wf_addresses : remotes_ok l;
}.

Lemma contains_related {K A} `{Countable K} `{Countable A} (m : gmap K (gset A)) k x :
  related m k x -> contains m k = true.
Proof. intros (s & Hs & _). apply bool_decide_eq_true. by exists s. Qed.

Lemma notify_spec guard u ps l :
  NoDup ps -> no_empty (linkees l) ->
  (forall p, p ∈ ps -> guard p = true /\ related (linkees l) p u) ->
  exists l', notify guard u ps l = Returns (l', map (fun p => (p, u)) ps) /\
    linkers l' = linkers l /\ remotes l' = remotes l /\ no_empty (linkees l') /\
    forall q v, related (linkees l') q v <->
      related (linkees l) q v /\ ~ (v = u /\ q ∈ ps).
Proof.
  revert l. induction ps as [|p ps IH]; simpl; intros l Hnd Hne Hps.
  - exists l. split_and!; auto. set_solver.
  - apply NoDup_cons in Hnd as [Hp Hnd]. destruct (Hps p) as [-> Hrel]; [by left|].
    rewrite (contains_related _ _ _ Hrel). simpl.
    destruct (IH (mkLinks (linkers l) (erase_in p u (linkees l)) (remotes l)))
      as (l' & -> & ? & ? & ? & Hr); auto.
    + by apply no_empty_erase_in.
    + intros q Hq. destruct (Hps q) as [? ?]; [by right|]. split; [done|].
      apply related_erase_in. split; [done|]. intros [-> _]. done.
    + simpl in *. exists l'. split_and!; auto. intros q v. rewrite Hr, related_erase_in.
      clear -Hp. set_solver.
Qed.

(** Removing one linker of [u] from the addresses. *)
Lemma erase_linker_remotes p u l :
  no_empty (linkers l) -> remotes_ok l -> related (linkers l) u p ->
  let lk := erase_in u p (linkers l) in
  (contains lk u = true \/ address u = self ->
   remotes_ok (mkLinks lk (linkees l) (remotes l))) /\
  (contains lk u = false ->
   remotes_ok (mkLinks lk (linkees l) (erase_in (address u) u (remotes l)))).
Proof.
  intros Hne Hro Hrel lk.
  assert (Hother : forall v q, v <> u -> related lk v q <-> related (linkers l) v q).
  { intros v q Hv. unfold lk. rewrite related_erase_in. clear -Hv. set_solver. }
  split.
  - intros Hc a v. simpl. rewrite (Hro a v). destruct (decide (v = u)) as [->|Hv].
    + destruct Hc as [Hc|Hc]; [|split; intros (<- & ? & _); congruence].
      destruct (no_empty_related lk u) as [q Hq];
        [by apply no_empty_erase_in|by apply bool_decide_eq_true in Hc|].
      split; intros (? & ? & _); eauto.
    + by setoid_rewrite (Hother v _ Hv).
  - intros Hc a v. simpl. rewrite related_erase_in, (Hro a v).
    destruct (decide (v = u)) as [->|Hv].
    + split; [by intros [(<- & _) []]|]. intros (_ & _ & q & Hq).
      apply contains_related in Hq. congruence.
    + setoid_rewrite (Hother v _ Hv). clear -Hv. set_solver.
Qed.

Lemma unlink_all_spec p us l :
  NoDup us -> no_empty (linkers l) -> no_empty (remotes l) -> remotes_ok l ->
  (forall u, u ∈ us -> related (linkers l) u p) ->
  exists l', unlink_all p us l = Returns l' /\ linkees l' = linkees l /\
    no_empty (linkers l') /\ no_empty (remotes l') /\ remotes_ok l' /\
    forall v q, related (linkers l') v q <->
      related (linkers l) v q /\ ~ (q = p /\ v ∈ us).
Proof.
  revert l. induction us as [|u us IH]; simpl; intros l Hnd Hne Hnr Hro Hus.
  - exists l. split_and!; auto. set_solver.
  - apply NoDup_cons in Hnd as [Hu Hnd]. pose proof (Hus u ltac:(by left)) as Hrel.
    rewrite (contains_related _ _ _ Hrel). simpl.
    destruct (erase_linker_remotes p u l Hne Hro Hrel) as [Hkeep Hdrop].
    set (lk := erase_in u p (linkers l)) in *.
    assert (Hgo : forall rm, no_empty rm -> remotes_ok (mkLinks lk (linkees l) rm) ->
      exists l', unlink_all p us (mkLinks lk (linkees l) rm) = Returns l' /\
        linkees l' = linkees l /\ no_empty (linkers l') /\ no_empty (remotes l') /\
        remotes_ok l' /\ forall v q, related (linkers l') v q <->
          related (linkers l) v q /\ ~ (q = p /\ v ∈ u :: us)).
    { intros rm Hrm Hok.
      destruct (IH (mkLinks lk (linkees l) rm)) as (l' & -> & ? & ? & ? & ? & Hr); auto.
      - by apply no_empty_erase_in.
      - intros v Hv. apply related_erase_in. split; [apply Hus; by right|].
        intros [-> _]. done.
      - exists l'. split_and!; auto. intros v q. rewrite Hr. simpl. unfold lk.
        rewrite related_erase_in. clear -Hu. set_solver. }
    destruct (contains lk u) eqn:Hc; simpl; [by apply Hgo; auto|].
    case_bool_decide as Ha; [|apply Hgo; auto; apply Hkeep; right; by destruct (decide (address u = self))].
    rewrite (contains_related (remotes l) (address u) u) by (apply Hro; eauto).
    simpl. apply Hgo; [by apply no_empty_erase_in|auto].
Qed.

Lemma notify_all_spec us l :
  NoDup us -> no_empty (linkers l) -> no_empty (linkees l) ->
  (forall u p, related (linkers l) u p <-> related (linkees l) p u) ->
  (forall u, u ∈ us -> exists p, related (linkers l) u p) ->
  exists l' ds, notify_all us l = Returns (l', ds) /\ remotes l' = remotes l /\
    no_empty (linkers l') /\ no_empty (linkees l') /\
    (forall u p, related (linkers l') u p <-> related (linkees l') p u) /\
    (forall u p, related (linkers l') u p <-> related (linkers l) u p /\ u ∉ us) /\
    NoDup ds /\ (forall p u, (p, u) ∈ ds <-> u ∈ us /\ related (linkers l) u p).
Proof.
  revert l. induction us as [|u us IH]; simpl; intros l Hnd Hne Hne' Hboth Hus.
  - exists l, []. split_and!; auto; [set_solver|constructor|set_solver].
  - apply NoDup_cons in Hnd as [Hu Hnd]. destruct (Hus u) as [p0 (ps & Hps & _)]; [by left|].
    rewrite Hps. assert (Hin : forall p, related (linkers l) u p <-> p ∈ ps).
    { intros p. rewrite related_default, Hps. done. }
    destruct (notify_spec (fun _ => true) u (elements ps) l) as (l1 & -> & Hl1 & Hr1 & Hn1 & Hrel1);
      [apply NoDup_elements|done| |].
    { intros p Hp. split; [done|]. apply Hboth, Hin. by apply elem_of_elements. }
    simpl. destruct (IH (mkLinks (delete u (linkers l1)) (linkees l1) (remotes l1)))
      as (l2 & ds & -> & ? & ? & ? & ? & Hrel2 & Hds & Hin2); simpl; auto.
    + apply no_empty_delete. by rewrite Hl1.
    + intros v p. rewrite related_delete, Hl1, Hrel1, Hboth, elem_of_elements, <- Hin, Hboth.
      clear. destruct (decide (v = u)); naive_solver.
    + intros v Hv. destruct (Hus v) as [p Hp]; [by right|]. exists p.
      rewrite related_delete, Hl1. split; [done|]. by intros ->.
    + exists l2, (map (fun p => (p, u)) (elements ps) ++ ds). simpl in *.
      rewrite Hl1 in *. split_and!; auto; [congruence| | |].
      * intros v p. rewrite Hrel2, related_delete. clear. set_solver.
      * apply NoDup_app. split_and!; [|intros [p v] Hp Hd|done].
        { apply NoDup_fmap_2; [by intros ???; simplify_eq|apply NoDup_elements]. }
        apply Hin2 in Hd as [Hd _]. apply list_elem_of_fmap in Hp as (? & ? & _).
        simplify_eq. done.
      * intros p v. rewrite elem_of_app, list_elem_of_fmap, Hin2, related_delete, elem_of_cons.
        setoid_rewrite elem_of_elements. setoid_rewrite <- Hin. clear -Hu.
        split; [naive_solver|]. intros [[->|Hv] Hr]; [left; eauto|right]. split_and!; auto.
        by intros ->.
Qed.

Lemma link_wf p u l : wf l -> wf (link p u l).
Proof.
  intros [Hk He Hr Hb Ha]. split; simpl.
  - by apply no_empty_insert_in.
  - by apply no_empty_insert_in.
  - destruct (decide _); [by apply no_empty_insert_in|done].
  - intros v q. rewrite !related_insert_in, Hb. clear. naive_solver.
  - intros a v. simpl. setoid_rewrite related_insert_in.
    destruct (decide (address u <> self)) as [Hs|Hs].
    + rewrite related_insert_in, (Ha a v). clear -Hs. naive_solver.
    + rewrite (Ha a v). split; [naive_solver|].
      intros (<- & Hx & q & [[-> _]|Hq]); [done|eauto].
Qed.

(** The first half of [exited(process)]: the process links to nothing any more. *)
Lemma unlink_process_spec p l :
  wf l ->
  exists l1, unlink_process p l = Returns l1 /\ wf l1 /\
    forall u q, related (linkers l1) u q <-> related (linkers l) u q /\ q <> p.
Proof.
  intros [Hk He Hr Hb Ha]. unfold unlink_process.
  destruct (linkees l !! p) as [us|] eqn:Hp.
  - assert (Hin : forall u, related (linkers l) u p <-> u ∈ us).
    { intros u. rewrite Hb, related_default, Hp. done. }
    destruct (unlink_all_spec p (elements us) l) as (l1 & -> & Hl & ? & ? & Hro & Hrel); auto.
    { apply NoDup_elements. }
    { intros u Hu. apply Hin. by apply elem_of_elements. }
    assert (Hrel' : forall u q, related (linkers l1) u q <-> related (linkers l) u q /\ q <> p).
    { intros u q. rewrite Hrel, elem_of_elements, <- Hin. clear. naive_solver. }
    eexists; split; [reflexivity|]. split; [split; simpl; auto|done].
    + rewrite Hl. by apply no_empty_delete.
    + intros u q. rewrite Hrel', related_delete, Hl, Hb. clear. naive_solver.
  - exists l. split_and!; [done|by split|]. intros u q. split; [|by intros [? _]].
    intros Hq. split; [done|]. intros ->. apply Hb in Hq as (? & Hq & _). congruence.
Qed.

(** What [exited(process)] does to the links and whom it tells. *)
Lemma exited_process_spec p pid l :
  wf l -> address pid = self ->
  exists l' ds, exited_process p pid l = Returns (l', ds) /\ wf l' /\ NoDup ds /\
    (forall q u, (q, u) ∈ ds <-> u = pid /\ q <> p /\ related (linkers l) pid q) /\
    (forall u q, related (linkers l') u q <-> related (linkers l) u q /\ q <> p /\ u <> pid).
Proof.
  intros [Hk He Hr Hb Ha] Hself. unfold exited_process.
  destruct (unlink_process_spec p l) as (l1 & -> & [Hk1 He1 Hr1 Hb1 Ha1] & Hrel1);
    [by split|].
  simpl. destruct (linkers l1 !! pid) as [ps|] eqn:Hpid.
  - assert (Hin : forall q, related (linkers l1) pid q <-> q ∈ ps).
    { intros q. rewrite related_default, Hpid. done. }
    destruct (notify_spec (fun q => bool_decide (q <> p)) pid (elements ps) l1)
      as (l2 & -> & Hl2 & Hm2 & Hn2 & Hrel2); [apply NoDup_elements|done| |].
    { intros q Hq. apply elem_of_elements, Hin in Hq. split; [|by apply Hb1].
      apply bool_decide_eq_true. by apply Hrel1 in Hq as [_ ?]. }
    simpl. rewrite Hl2, Hm2. do 2 eexists; split; [reflexivity|]. split_and!.
    + split; simpl; auto; [by apply no_empty_delete| |].
      * intros u q. rewrite related_delete, Hrel2, Hb1, elem_of_elements, <- Hin, Hb1.
        clear. destruct (decide (u = pid)); naive_solver.
      * intros a u. rewrite (Ha1 a u). simpl. setoid_rewrite related_delete.
        split; [|naive_solver]. intros (<- & Hs & q & Hq). split_and!; auto.
        exists q. split; [done|]. congruence.
    + apply NoDup_fmap_2; [by intros ???; simplify_eq|apply NoDup_elements].
    + intros q u. rewrite list_elem_of_fmap. setoid_rewrite elem_of_elements.
      setoid_rewrite <- Hin. setoid_rewrite Hrel1. clear. naive_solver.
    + intros u q. simpl. rewrite related_delete, Hrel1. clear. naive_solver.
  - assert (Hno : forall q, ~ related (linkers l1) pid q)
      by (intros q (? & ? & _); congruence).
    exists l1, []. split_and!; auto; [by split|constructor| |].
    + intros q u. split; [by intros ?%not_elem_of_nil|]. intros (-> & ? & ?).
      destruct (Hno q). by apply Hrel1.
    + intros u q. rewrite Hrel1. split; [|naive_solver]. intros [? ?]. split_and!; auto.
      intros ->. destruct (Hno q). by apply Hrel1.
Qed.

(** The same for [exited(address)]. *)
Lemma exited_address_spec a l :
  wf l ->
  exists l' ds, exited_address a l = Returns (l', ds) /\ wf l' /\ NoDup ds /\
    (forall q u, (q, u) ∈ ds <->
       address u = a /\ a <> self /\ related (linkers l) u q) /\
    (forall u q, related (linkers l') u q <->
       related (linkers l) u q /\ ~ (address u = a /\ a <> self)).
Proof.
  intros [Hk He Hr Hb Ha]. unfold exited_address.
  destruct (remotes l !! a) as [us|] eqn:Hus.
  - assert (Hin : forall u, u ∈ us <->
      address u = a /\ a <> self /\ exists p, related (linkers l) u p).
    { intros u. rewrite <- (Ha a u), related_default, Hus. done. }
    destruct (notify_all_spec (elements us) l)
      as (l1 & ds & -> & Hr1 & Hk1 & He1 & Hb1 & Hrel & Hnd & Hds); auto.
    { apply NoDup_elements. }
    { intros u Hu. apply elem_of_elements, Hin in Hu as (_ & _ & ?). done. }
    simpl. do 2 eexists; split; [reflexivity|].
    assert (Hrel' : forall u q, related (linkers l1) u q <->
      related (linkers l) u q /\ ~ (address u = a /\ a <> self)).
    { intros u q. rewrite Hrel, elem_of_elements, Hin. clear. naive_solver. }
    split_and!; auto.
    + split; simpl; auto; [rewrite Hr1; by apply no_empty_delete|].
      intros b u. simpl. rewrite related_delete, Hr1, (Ha b u).
      setoid_rewrite Hrel'. clear. naive_solver.
    + intros q u. rewrite Hds, elem_of_elements, Hin. clear. naive_solver.
  - assert (Hno : forall u q, address u = a -> a <> self -> ~ related (linkers l) u q).
    { intros u q Hu Hs Hq. assert (Hx : related (remotes l) a u) by (apply Ha; eauto).
      destruct Hx as (? & ? & _). congruence. }
    exists l, []. split_and!; auto; [by split|constructor| |].
    + intros q u. split; [by intros ?%not_elem_of_nil|]. intros (? & ? & ?). by destruct (Hno u q).
    + intros u q. split; [|naive_solver]. intros Hq. split; [done|]. intros [? ?].
      by destruct (Hno u q).
Qed.

(** ** Sequences of operations *)
Inductive operation :=
| Link (process : nat) (to : UPID)
| ExitedAddress (a : nat)
| ExitedProcess (process : nat) (id : nat).

Definition perform (o : operation) (l : links) : checked (links * list delivery) :=
  match o with
  | Link p u => Returns (link p u l, [])
  | ExitedAddress a => exited_address a l
  | ExitedProcess p i => exited_process p (self, i) l
  end.

Fixpoint run (os : list operation) (l : links) : checked (links * list delivery) :=
  match os with
  | [] => Returns (l, [])
  | o :: os =>
      bind (perform o l) (fun '(l1, ds) =>
      bind (run os l1) (fun '(l2, ds') => Returns (l2, ds ++ ds')))
  end.

Lemma perform_wf o l :
  wf l -> exists l' ds, perform o l = Returns (l', ds) /\ wf l'.
Proof.
  intros Hl. destruct o as [p u|a|p i]; simpl.
  - eauto using link_wf.
  - destruct (exited_address_spec a l Hl) as (l' & ds & ? & ? & _). eauto.
  - destruct (exited_process_spec p (self, i) l Hl eq_refl) as (l' & ds & ? & ? & _). eauto.
Qed.

Lemma run_wf os l : wf l -> exists l' ds, run os l = Returns (l', ds) /\ wf l'.
Proof.
  revert l. induction os as [|o os IH]; simpl; intros l Hl; [eauto|].
  destruct (perform_wf o l Hl) as (l1 & ds & -> & H1). simpl.
  destruct (IH l1 H1) as (l2 & ds' & -> & H2). simpl. eauto.
Qed.

Lemma wf_init : wf links_init.
Proof.
  split; simpl; try done.
  - intros u p. rewrite !related_default. by rewrite !lookup_empty.
  - intros a u. simpl. setoid_rewrite related_default. rewrite !lookup_empty. simpl. set_solver.
Qed.

(** The three maps of the socket manager's links stay consistent and no [CHECK]
    on them fails: after any sequence of links, exits of processes and losses of
    peers, a process is among the linkers of a pid exactly when the pid is among its
    linkees, the remote addresses list exactly the remote pids that have a linker,
    and no empty entry is kept. *)
Theorem links_consistent os :
  exists l ds, run os links_init = Returns (l, ds) /\
    (forall u p, related (linkers l) u p <-> related (linkees l) p u) /\
    (forall a u, related (remotes l) a u <->
       address u = a /\ a <> self /\ exists p, related (linkers l) u p) /\
    no_empty (linkers l) /\ no_empty (linkees l) /\ no_empty (remotes l).
Proof.
  destruct (run_wf os links_init wf_init) as (l & ds & Hr & []).
  exists l, ds. by split_and!.
Qed.

(** When a process exits, each process linked to it, and nobody else, is told
    exactly once, and no link from or to it is left; when the peer at an address is
    lost, each process linked to a pid at that address is told exactly once for each
    such pid, and the links to the address, and no others, are gone. *)
Theorem exited_tells_exactly_the_linkers os l ds :
  run os links_init = Returns (l, ds) ->
  (forall p i, exists l' ds', exited_process p (self, i) l = Returns (l', ds') /\
     NoDup ds' /\
     (forall q u, (q, u) ∈ ds' <->
        u = (self, i) /\ q <> p /\ related (linkers l) (self, i) q) /\
     (forall u q, related (linkers l') u q <->
        related (linkers l) u q /\ q <> p /\ u <> (self, i))) /\
  (forall a, exists l' ds', exited_address a l = Returns (l', ds') /\ NoDup ds' /\
     (forall q u, (q, u) ∈ ds' <->
        address u = a /\ a <> self /\ related (linkers l) u q) /\
     (forall u q, related (linkers l') u q <->
        related (linkers l) u q /\ ~ (address u = a /\ a <> self))).
Proof.
  intros Hr. destruct (run_wf os links_init wf_init) as (l0 & ds0 & Hr0 & Hw).
  assert (l0 = l) as -> by congruence. split.
  - intros p i. destruct (exited_process_spec p (self, i) l Hw eq_refl)
      as (l' & ds' & ? & ? & ?). eauto.
  - intros a. destruct (exited_address_spec a l Hw) as (l' & ds' & ? & ? & ?). eauto.
Qed.
End Links.

(** Process 1 and 2 link to the remote pid 5 at address 9, which is lost. *)
Lemma exited_tells_exactly_the_linkers_witness :
  exists l' ds, exited_address 9 (link 0 2 (9, 5) (link 0 1 (9, 5) links_init))
    = Returns (l', ds) /\ NoDup ds.
Proof.
  destruct (exited_tells_exactly_the_linkers 0 [Link 1 (9, 5); Link 2 (9, 5)]
    (link 0 2 (9, 5) (link 0 1 (9, 5) links_init)) [] eq_refl) as [_ H].
  destruct (H 9) as (l' & ds & He & Hn & _). exists l', ds. split; assumption.
Defined.
