(* ===== verification/Sockets.v ===== *)
(** The sockets of the socket manager: [SocketManager] of [socket_manager.hpp] and
    [process.cpp], every member function, and the asynchronous activities
    ([internal::send], [internal::receive], connects, HTTP proxies) that call it.

    A socket is its descriptor.  Every member function runs under the manager's
    mutex; it is a function on the manager that returns what it asks for
    ([effect]) in program order, or aborts where a [CHECK] fails.  [Socket::create]
    belongs to the operating system: its result is an argument. *)

From S2P Require Import Prelude Links.

(** ** Data *)

(** An [Encoder] is identified by the message or response it encodes. *)
Notation encoder := nat (only parsing).

(** What to do once a socket is connected: [link_connect], or [send_connect] with
    the message it carries. *)
Inductive on_connected :=
| LinkTo (to : UPID)
| SendTo (a : nat) (message : encoder).

Definition peer (k : on_connected) : nat :=
  match k with LinkTo to => address to | SendTo a _ => a end.

Record SocketManager := mkSM {
  link_maps : links;
  sockets : gset nat;
  dispose : gset nat;
  addresses : gmap nat nat;
  temps : gmap nat nat;
  persists : gmap nat nat;
  outgoing : gmap nat (list encoder);
  proxies : gmap nat nat;
}.

Definition SocketManager_init : SocketManager := mkSM links_init ∅ ∅ ∅ ∅ ∅ ∅ ∅.

Inductive effect :=
| Deliver (d : delivery)               (* deliver(linker, new ExitedEvent(linkee)) *)
| Connect (s : nat) (k : on_connected) (* connectSocket(...).onAny(...) *)
| Recv (s : nat)                       (* recv(...).onAny(ignore_recv_data) *)
| Send (e : encoder) (s : nat)         (* internal::send(encoder, socket) *)
| Shutdown (s : nat)
| Spawn (s p : nat)                    (* spawn(new HttpProxy(socket), true) *)
| Terminate (p : nat).

(** [map.emplace(k, v)] keeps an entry that is there; [map[k]] makes an empty one. *)
Definition emplace {K A} `{Countable K} (k : K) (v : A) (m : gmap K A) : gmap K A :=
  match m !! k with Some _ => m | None => <[k := v]> m end.

(** [map2[to] = map[from]; map.erase(from)], when there is such an entry. *)
Definition rekey {A} (from to : nat) (m : gmap nat A) : gmap nat A :=
  match m !! from with Some x => delete from (<[to := x]> m) | None => m end.

Definition redirect (a from to : nat) (m : gmap nat nat) : gmap nat nat :=
  if decide (m !! a = Some from) then <[a := to]> m else m.

Definition check (b : bool) {A} (message : string) (k : checked A) : checked A :=
  if b then k else Abort message.

Section Sockets.
Context (self : nat).

(** ** Operations *)

Definition accepted (s : nat) (sm : SocketManager) : checked SocketManager :=
  check (bool_decide (s ∉ sockets sm)) "CHECK(sockets.count(socket) == 0)" $
  Returns (mkSM (link_maps sm) ({[s]} ∪ sockets sm) (dispose sm) (addresses sm)
             (temps sm) (persists sm) (outgoing sm) (proxies sm)).

(** The part of [close] that cleans up after a socket used for remote
    communication. *)
Definition close_address (s : nat) (sm : SocketManager)
    : checked (SocketManager * list delivery) :=
  match addresses sm !! s with
  | None => Returns (sm, [])
  | Some a =>
      let forget l ts ps :=
        mkSM l (sockets sm) (dispose sm) (delete s (addresses sm)) ts ps (outgoing sm)
          (proxies sm) in
      if decide (persists sm !! a = Some s) then
        bind (exited_address a (link_maps sm)) (fun '(l, ds) =>
        Returns (forget l (temps sm) (delete a (persists sm)), ds))
      else if decide (temps sm !! a = Some s) then
        Returns (forget (link_maps sm) (delete a (temps sm)) (persists sm), [])
      else Returns (forget (link_maps sm) (temps sm) (persists sm), [])
  end.

Definition terminate_proxy (p : option nat) : list effect :=
  match p with Some p => [Terminate p] | None => [] end.

Definition close (s : nat) (sm : SocketManager)
    : checked (SocketManager * list effect) :=
  if decide (s ∈ sockets sm) then
    bind (close_address s sm) (fun '(sm1, ds) =>
    Returns (mkSM (link_maps sm1) (sockets sm1 ∖ {[s]}) (dispose sm1 ∖ {[s]})
               (addresses sm1) (temps sm1) (persists sm1) (delete s (outgoing sm1))
               (delete s (proxies sm1)),
             map Deliver ds ++ Shutdown s :: terminate_proxy (proxies sm !! s)))
  else Returns (sm, []).

Definition swap_implementing_socket (from to : nat) (sm : SocketManager)
    : checked SocketManager :=
  check (bool_decide (from ∈ sockets sm)) "CHECK(sockets.count(from_fd) > 0)" $
  check (bool_decide (to ∉ sockets sm)) "CHECK(sockets.count(to_fd) == 0)" $
  match addresses sm !! from with
  | None => Abort "CHECK_SOME(address)"
  | Some a =>
      let persistent := bool_decide (persists sm !! a = Some from) in
      Returns (mkSM (link_maps sm) ({[to]} ∪ (sockets sm ∖ {[from]}))
        (if decide (from ∈ dispose sm) then ({[to]} ∪ dispose sm) ∖ {[from]}
         else dispose sm)
        (delete from (emplace to a (addresses sm)))
        (if persistent then temps sm else redirect a from to (temps sm))
        (redirect a from to (persists sm))
        (delete from (<[to := default [] (outgoing sm !! from)]> (outgoing sm)))
        (rekey from to (proxies sm)))
  end.

Definition with_links (l : links) (sm : SocketManager) : SocketManager :=
  mkSM l (sockets sm) (dispose sm) (addresses sm) (temps sm) (persists sm)
    (outgoing sm) (proxies sm).

(** [SocketManager::link]; [created] is the result of [Socket::create]. *)
Definition link_remote (process : nat) (to : UPID) (reconnect : bool)
    (created : option nat) (sm : SocketManager)
    : checked (SocketManager * list effect) :=
  let a := address to in
  let record sm := with_links (link self process to (link_maps sm)) sm in
  if decide (a = self) then Returns (record sm, [])
  else match persists sm !! a, created with
  | None, None => Returns (sm, [Deliver (process, to)])
  | None, Some s =>
      check (bool_decide (s ∉ sockets sm)) "CHECK(sockets.count(s) == 0)" $
      Returns (record (mkSM (link_maps sm) ({[s]} ∪ sockets sm) (dispose sm)
                         (emplace s a (addresses sm)) (temps sm)
                         (emplace a s (persists sm)) (emplace s [] (outgoing sm))
                         (proxies sm)),
               [Connect s (LinkTo to)])
  | Some existing, _ =>
      if negb reconnect then Returns (record sm, [])
      else match created with
      | None => Returns (sm, [Deliver (process, to)])
      | Some s =>
          check (bool_decide (existing ∈ sockets sm)) "sockets.at: out of range" $
          bind (swap_implementing_socket existing s sm) (fun sm1 =>
          Returns (record sm1, [Shutdown existing; Connect s (LinkTo to)]))
      end
  end.

(** [link_connect] for a failed or discarded future; [downgrade] is
    [attempt_downgrade]. *)
Definition link_connect_failed (s : nat) (to : UPID) (downgrade : bool)
    (created : option nat) (sm : SocketManager)
    : checked (SocketManager * list effect) :=
  if downgrade then
    if decide (s ∉ sockets sm) then Returns (sm, [])
    else match created with
    | None => close s sm
    | Some s' =>
        bind (swap_implementing_socket s s' sm) (fun sm1 =>
        Returns (sm1, [Connect s' (LinkTo to)]))
    end
  else close s sm.

(** The critical section of [link_connect] for a connected socket; [true] when
    the function goes on to call [next]. *)
Definition link_connected (s : nat) (sm : SocketManager) : bool * list effect :=
  if decide (s ∉ sockets sm) then (false, []) else (true, [Recv s]).

Definition get_persistent_socket (to : UPID) (sm : SocketManager) : option nat :=
  persists sm !! address to.

(** [proxy]: [p] is the proxy it allocates when there is none. *)
Definition proxy (s p : nat) (sm : SocketManager)
    : SocketManager * option nat * list effect :=
  if decide (s ∈ sockets sm) then
    match proxies sm !! s with
    | Some q => (sm, Some q, [])
    | None =>
        (mkSM (link_maps sm) (sockets sm) (dispose sm) (addresses sm) (temps sm)
           (persists sm) (outgoing sm) (<[s := p]> (proxies sm)),
         Some p, [Spawn s p])
    end
  else (sm, None, []).

Definition unproxy (s : nat) (sm : SocketManager) : SocketManager :=
  mkSM (link_maps sm) (sockets sm) (dispose sm) (addresses sm) (temps sm)
    (persists sm) (outgoing sm) (delete s (proxies sm)).

Definition with_outgoing (d : gset nat) (o : gmap nat (list encoder))
    (sm : SocketManager) : SocketManager :=
  mkSM (link_maps sm) (sockets sm) d (addresses sm) (temps sm) (persists sm) o
    (proxies sm).

(** [send(Encoder*, bool, const Socket&)]. *)
Definition send_encoder (e : encoder) (persist : bool) (s : nat) (sm : SocketManager)
    : SocketManager * list effect :=
  if decide (s ∈ sockets sm) then
    let d := if persist then dispose sm else {[s]} ∪ dispose sm in
    match outgoing sm !! s with
    | Some q => (with_outgoing d (<[s := q ++ [e]]> (outgoing sm)) sm, [])
    | None => (with_outgoing d (<[s := []]> (outgoing sm)) sm, [Send e s])
    end
  else (sm, []).

(** Whether [send(const Response&, const Request&, const Socket&)] keeps the
    connection: [connection] is the response's header. *)
Definition response_persists (keepAlive : bool) (connection : option string) : bool :=
  match connection with
  | Some c => if String.eqb c "close" then false else keepAlive
  | None => keepAlive
  end.

Definition send_response (e : encoder) (keepAlive : bool) (connection : option string)
    (s : nat) (sm : SocketManager) : SocketManager * list effect :=
  send_encoder e (response_persists keepAlive connection) s sm.

(** [send_connect] for a failed or discarded future. *)
Definition send_connect_failed (s a : nat) (message : encoder) (downgrade : bool)
    (created : option nat) (sm : SocketManager)
    : checked (SocketManager * list effect) :=
  if downgrade then
    match created with
    | None => close s sm
    | Some s' =>
        bind (swap_implementing_socket s s' sm) (fun sm1 =>
        Returns (sm1, [Connect s' (SendTo a message)]))
    end
  else close s sm.

(** [send_connect] for a connected socket. *)
Definition send_connected (s : nat) (message : encoder) : list effect :=
  [Recv s; Send message s].

(** [send(Message&&, kind)]. *)
Definition send_message (a : nat) (message : encoder) (created : option nat)
    (sm : SocketManager) : checked (SocketManager * list effect) :=
  let use s d :=
    check (bool_decide (s ∈ sockets sm)) "CHECK(sockets.count(s) > 0)" $
    match outgoing sm !! s with
    | Some q => Returns (with_outgoing d (<[s := q ++ [message]]> (outgoing sm)) sm, [])
    | None => Returns (with_outgoing d (<[s := []]> (outgoing sm)) sm, [Send message s])
    end in
  match persists sm !! a, temps sm !! a with
  | Some s, _ => use s (dispose sm)
  | None, Some s => use s ({[s]} ∪ dispose sm)
  | None, None =>
      match created with
      | None => Returns (sm, [])
      | Some s =>
          check (bool_decide (s ∉ sockets sm)) "CHECK(sockets.count(s) == 0)" $
          Returns (mkSM (link_maps sm) ({[s]} ∪ sockets sm) ({[s]} ∪ dispose sm)
                     (emplace s a (addresses sm)) (emplace a s (temps sm))
                     (persists sm) (emplace s [] (outgoing sm)) (proxies sm),
                   [Connect s (SendTo a message)])
      end
  end.

(** The part of [next] for a socket without further messages. *)
Definition next_dispose (s : nat) (sm : SocketManager)
    : checked (SocketManager * list effect) :=
  let dispose_with addrs ts :=
    Returns (mkSM (link_maps sm) (sockets sm ∖ {[s]}) (dispose sm ∖ {[s]}) addrs ts
               (persists sm) (delete s (outgoing sm)) (delete s (proxies sm)),
             Shutdown s :: terminate_proxy (proxies sm !! s)) in
  if decide (s ∈ dispose sm) then
    match addresses sm !! s with
    | Some a =>
        check (bool_decide (temps sm !! a = Some s)) "CHECK(temps[address] == s)" $
        dispose_with (delete s (addresses sm)) (delete a (temps sm))
    | None => dispose_with (addresses sm) (temps sm)
    end
  else Returns (with_outgoing (dispose sm) (delete s (outgoing sm)) sm, []).

Definition next (s : nat) (sm : SocketManager)
    : checked (SocketManager * option encoder * list effect) :=
  if decide (s ∈ sockets sm) then
    match outgoing sm !! s with
    | None => Abort "CHECK(outgoing.count(s) > 0)"
    | Some (e :: q) =>
        Returns (with_outgoing (dispose sm) (<[s := q]> (outgoing sm)) sm, Some e, [])
    | Some [] => bind (next_dispose s sm) (fun '(sm1, es) => Returns (sm1, None, es))
    end
  else Returns (sm, None, []).

(** The loop of [finalize] closes one socket after the other; [fuel] bounds it. *)
Fixpoint finalize_loop (fuel : nat) (sm : SocketManager)
    : checked (SocketManager * list effect) :=
  match fuel, elements (sockets sm) with
  | S fuel, s :: _ =>
      bind (close s sm) (fun '(sm1, es) =>
      bind (finalize_loop fuel sm1) (fun '(sm2, es') => Returns (sm2, es ++ es')))
  | _, _ => Returns (sm, [])
  end.

(** [finalize]; [server] tells whether the server socket [__s__] is still there. *)
Definition finalize (server : bool) (sm : SocketManager)
    : checked (SocketManager * list effect) :=
  check (negb server) "CHECK(__s__ == nullptr)" $
  finalize_loop (size (sockets sm)) sm.
End Sockets.

(** ** Activities

    Everything that holds a reference to a socket and calls the manager later.  A
    descriptor is not used for another socket while an activity holds it: the last
    reference closes it. *)
Inductive activity :=
| Connecting (s : nat) (k : on_connected)
| Ignoring (s : nat)             (* the recv of ignore_recv_data *)
| Serving (s : nat)              (* the loop of internal::receive *)
| Writing (s : nat) (e : encoder)   (* _send *)
| Fetching (s : nat)             (* about to call next *)
| Proxying (s p : nat).          (* the process HttpProxy p *)

Definition socket_of (a : activity) : nat :=
  match a with
  | Connecting s _ | Ignoring s | Serving s | Writing s _ | Fetching s
  | Proxying s _ => s
  end.

(** The manager, the activities, and per socket what was assigned to it and what
    was started on it, in order. *)
Record world := mkWorld {
  manager : SocketManager;
  activities : list activity;
  assigned : gmap nat (list encoder);
  started : gmap nat (list encoder);
}.

Definition world_init : world := mkWorld SocketManager_init [] ∅ ∅.

Definition logged (m : gmap nat (list encoder)) (s : nat) : list encoder :=
  default [] (m !! s).
Definition log (s : nat) (e : encoder) (m : gmap nat (list encoder))
    : gmap nat (list encoder) :=
  <[s := logged m s ++ [e]]> m.

Definition effect_activity (e : effect) : option activity :=
  match e with
  | Connect s k => Some (Connecting s k)
  | Recv s => Some (Ignoring s)
  | Send e s => Some (Writing s e)
  | Spawn s p => Some (Proxying s p)
  | Deliver _ | Shutdown _ | Terminate _ => None
  end.

(** A socket that is to be connected takes over [leftover]. *)
Definition assign (leftover : list encoder) (es : list effect)
    (m : gmap nat (list encoder)) : gmap nat (list encoder) :=
  foldl (fun m e => match e with Connect s _ => <[s := leftover]> m | _ => m end) m es.
Definition start (es : list effect) (m : gmap nat (list encoder))
    : gmap nat (list encoder) :=
  foldl (fun m e => match e with
                    | Connect s _ => <[s := []]> m
                    | Send e s => log s e m
                    | _ => m
                    end) m es.

(** What was assigned to a socket and not started on it. *)
Definition undelivered (w : world) (s : nat) : list encoder :=
  drop (length (logged (started w) s)) (logged (assigned w) s).

(** The world after an operation that leaves the activities [rest]. *)
Definition after (w : world) (rest : list activity) (leftover : list encoder)
    (c : checked (SocketManager * list effect)) : checked world :=
  bind c (fun '(sm, es) =>
  Returns (mkWorld sm (omap effect_activity es ++ rest)
             (assign leftover es (assigned w)) (start es (started w)))).

Definition fresh (w : world) (s : nat) : bool :=
  bool_decide (s ∉ sockets (manager w)) &&
  bool_decide (Forall (fun a => socket_of a <> s) (activities w)).

Definition fresh_created (w : world) (created : option nat) : bool :=
  match created with Some s => fresh w s | None => true end.

(** The socket that [send_message] gives the message to, if it exists already. *)
Definition carrier (a : nat) (sm : SocketManager) : option nat :=
  match persists sm !! a with Some s => Some s | None => temps sm !! a end.

Inductive outcome := Succeeds | Fails (downgrade : bool) (created : option nat).

Inductive request :=
| Accept (s : nat)
| LinkRemote (process : nat) (to : UPID) (reconnect : bool) (created : option nat)
| SendMessage (a : nat) (message : encoder) (created : option nat)
| SendResponse (e : encoder) (keepAlive : bool) (connection : option string) (s : nat)
| SendEncoder (e : encoder) (persist : bool) (s : nat)
| Proxy (s p : nat)
| ExitedProcess_ (process id : nat)
| Advance (i : nat) (o : outcome).

Definition proxied (w : world) (s : nat) : bool :=
  existsb (fun a => match a with Proxying s' _ => Nat.eqb s s' | _ => false end)
    (activities w).
Definition served (w : world) (s : nat) : bool :=
  existsb (fun a => match a with Serving s' => Nat.eqb s s' | _ => false end)
    (activities w).

Section World.
Context (self : nat).

(** One activity goes on. *)
Definition advance (a : activity) (rest : list activity) (o : outcome) (w : world)
    : checked world :=
  let sm := manager w in
  match a, o with
  | Connecting s (LinkTo to), Succeeds =>
      let '(continues, es) := link_connected s sm in
      after w ((if continues then [Fetching s] else []) ++ rest) [] (Returns (sm, es))
  | Connecting s (LinkTo to), Fails downgrade created =>
      after w rest (undelivered w s) (link_connect_failed s to downgrade created sm)
  | Connecting s (SendTo a m), Succeeds =>
      after w rest [] (Returns (sm, send_connected s m))
  | Connecting s (SendTo a m), Fails downgrade created =>
      after w rest (undelivered w s) (send_connect_failed s a m downgrade created sm)
  | (Ignoring _ | Serving _), Succeeds => Returns w
  | (Ignoring s | Serving s | Writing s _), Fails _ _ => after w rest [] (close s sm)
  | Writing s _, Succeeds => after w (Fetching s :: rest) [] (Returns (sm, []))
  | Fetching s, _ =>
      after w rest [] (bind (next s sm) (fun '(sm1, e, es) =>
        Returns (sm1, es ++ match e with Some e => [Send e s] | None => [] end)))
  | Proxying s _, _ => after w rest [] (Returns (unproxy s sm, []))
  end.

Definition perform (r : request) (w : world) : option (checked world) :=
  let sm := manager w in
  let acts := activities w in
  let when (b : bool) c := if b then Some c else None in
  let assigning s e := mkWorld sm acts
    (if decide (s ∈ sockets sm) then log s e (assigned w) else assigned w)
    (started w) in
  match r with
  | Accept s =>
      when (fresh w s) (bind (accepted s sm) (fun sm1 =>
        Returns (mkWorld sm1 (Serving s :: acts) (<[s := []]> (assigned w))
                   (<[s := []]> (started w)))))
  | LinkRemote process to reconnect created =>
      when (fresh_created w created)
        (after w acts
           (match persists sm !! address to with
            | Some existing => undelivered w existing
            | None => []
            end)
           (link_remote self process to reconnect created sm))
  | SendMessage a m created =>
      when (fresh_created w created)
        (after (match carrier a sm with Some s => assigning s m | None => w end)
           acts [m] (send_message a m created sm))
  | SendResponse e keepAlive connection s =>
      when (proxied w s)
        (after (assigning s e) acts []
           (Returns (send_response e keepAlive connection s sm)))
  | SendEncoder e persist s =>
      when (proxied w s)
        (after (assigning s e) acts [] (Returns (send_encoder e persist s sm)))
  | Proxy s p =>
      when (served w s)
        (let '(sm1, _, es) := proxy s p sm in after w acts [] (Returns (sm1, es)))
  | ExitedProcess_ process id =>
      Some (after w acts [] (bind (exited_process self process (self, id) (link_maps sm))
        (fun '(l, ds) => Returns (with_links l sm, map Deliver ds))))
  | Advance i o =>
      match acts !! i with
      | Some a =>
          when (match o with Fails _ created => fresh_created w created | _ => true end)
            (advance a (delete i acts) o w)
      | None => None
      end
  end.

Inductive reachable : world -> Prop :=
| reachable_init : reachable world_init
| reachable_step r w w' :
    reachable w -> perform r w = Some (Returns w') -> reachable w'.

(** Runs a list of requests. *)
Fixpoint run_requests (rs : list request) (w : world) : option world :=
  match rs with
  | [] => Some w
  | r :: rs =>
      match perform r w with
      | Some (Returns w') => run_requests rs w'
      | _ => None
      end
  end.

Lemma run_requests_reachable rs w w' :
  reachable w -> run_requests rs w = Some w' -> reachable w'.
Proof.
  revert w. induction rs as [|r rs IH]; simpl; intros w Hw H; [by simplify_eq|].
  destruct (perform r w) as [[w1|]|] eqn:E; simplify_eq. eauto using reachable_step.
Qed.
End World.
