(* ===== verification/SocketsInv.v ===== *)
(** The invariant of the socket manager.

    It has a global part, on the maps between addresses and sockets and on the
    links ([maps_ok]), and a part that is local to each descriptor: what the
    manager knows of the socket against the activities that hold it ([local_ok]).
    Every operation changes one or two descriptors. *)

From S2P Require Import Prelude Links Sockets.

(** ** The local view of one descriptor *)
Record local := mkLocal {
  present : bool;
  disposed : bool;
  addr : option nat;
  queue : option (list nat);
  prox : option nat;
}.

Definition nowhere : local := mkLocal false false None None None.

Definition mview (sm : SocketManager) (s : nat) : local :=
  mkLocal (bool_decide (s ∈ sockets sm)) (bool_decide (s ∈ dispose sm))
    (addresses sm !! s) (outgoing sm !! s) (proxies sm !! s).

Definition on (s : nat) (l : list activity) : list activity :=
  filter (fun a => socket_of a = s) l.

Definition is_sender (a : activity) : nat :=
  match a with Connecting _ _ | Writing _ _ | Fetching _ => 1 | _ => 0 end.
Definition is_receiver (a : activity) : nat :=
  match a with Ignoring _ | Serving _ => 1 | _ => 0 end.
Definition is_connecting (a : activity) : nat :=
  match a with Connecting _ _ => 1 | _ => 0 end.
Definition is_inbound (a : activity) : nat :=
  match a with Serving _ | Proxying _ _ => 1 | _ => 0 end.
Definition carried (a : activity) : option nat :=
  match a with Connecting _ (SendTo _ m) => Some m | _ => None end.

Notation senders := (sum_list_by is_sender).
Notation receivers := (sum_list_by is_receiver).
Notation connects := (sum_list_by is_connecting).
Notation inbounds := (sum_list_by is_inbound).
Notation waiting := (omap carried).

(** The state of a descriptor against the activities [l] that hold it, and what
    was assigned to it and started on it. *)
Record local_ok (v : local) (assigned started : list nat) (l : list activity) : Prop := {
  l_one : senders l <= 1;
  l_connecting : forall s k, Connecting s k ∈ l ->
    receivers l = 0 /\ (present v = true -> addr v = Some (peer k)) /\
    match k with
    | SendTo _ _ => present v = true /\ disposed v = true
    | LinkTo _ => True
    end;
  l_inbound : 0 < inbounds l -> addr v = None;
  l_proxied : forall p, prox v = Some p -> exists s, Proxying s p ∈ l;
  l_absent : present v = false -> v = nowhere;
  l_queued : present v = true ->
    senders l = match queue v with Some _ => 1 | None => 0 end;
  l_disposed : disposed v = true -> queue v <> None;
  l_watched : present v = true -> 0 < connects l + receivers l;
  l_fifo : present v = true ->
    assigned = started ++ waiting l ++ default [] (queue v);
}.

Lemma connects_senders l : connects l <= senders l.
Proof. induction l as [|[] l IH]; simpl; lia. Qed.

Lemma waiting_connects l : length (waiting l) <= connects l.
Proof. induction l as [|[? []| | | | |] l IH]; csimpl; lia. Qed.

Lemma connecting_counted s k l : Connecting s k ∈ l -> 0 < connects l.
Proof.
  induction l as [|y l IH]; [by intros ?%not_elem_of_nil|].
  intros [<-|H]%elem_of_cons; simpl; [lia|]. apply IH in H. lia.
Qed.

Lemma connects_0 s k l : connects l = 0 -> Connecting s k ∉ l.
Proof. intros H H'. apply connecting_counted in H'. lia. Qed.

Lemma sum_list_by_perm {A} (f : A -> nat) l1 l2 :
  l1 ≡ₚ l2 -> sum_list_by f l1 = sum_list_by f l2.
Proof. induction 1; simpl; lia. Qed.

Lemma short_perm {A} (l1 l2 : list A) : length l1 <= 1 -> l1 ≡ₚ l2 -> l1 = l2.
Proof.
  destruct l1 as [|x [|]]; simpl; intros H Hp; [| |lia].
  - by apply Permutation_nil_l in Hp.
  - by apply Permutation_singleton_l in Hp.
Qed.

#[global] Instance local_ok_perm v a s : Proper ((≡ₚ) ==> iff) (local_ok v a s).
Proof.
  assert (forall l1 l2, l1 ≡ₚ l2 -> local_ok v a s l1 -> local_ok v a s l2) as H.
  { intros l1 l2 Hp [H1 H2 H3 H4 H5 H6 H7 H8 H9].
    assert (Hs : forall f, sum_list_by f l2 = sum_list_by f l1)
      by (intros f; symmetry; by apply sum_list_by_perm).
    split; rewrite ?Hs; auto.
    - intros s' k. rewrite <- Hp. apply H2.
    - intros p Hx. setoid_rewrite <- Hp. by apply H4.
    - intros Hpr. rewrite (H9 Hpr). do 2 f_equal. apply short_perm; [|by rewrite Hp].
      pose proof (waiting_connects l1). pose proof (connects_senders l1). lia. }
  intros l1 l2 Hp. split; apply H; [done|by symmetry].
Qed.

(** A forgotten descriptor: whatever still holds it is harmless. *)
Lemma nowhere_ok a s l :
  senders l <= 1 ->
  (forall s k, Connecting s k ∈ l -> receivers l = 0 /\ waiting l = []) ->
  local_ok nowhere a s l.
Proof.
  intros H1 H2. split; simpl; auto; try done.
  intros s' k Hk. destruct (H2 s' k Hk) as [Hr Hw]. split_and!; auto; [done|].
  destruct k as [to|b m]; [done|]. exfalso.
  assert (m ∈ waiting l) as Hm by (apply list_elem_of_omap; by exists (Connecting s' (SendTo b m))).
  rewrite Hw in Hm. by apply not_elem_of_nil in Hm.
Qed.

Lemma no_connects_no_waiting l : connects l = 0 -> waiting l = [].
Proof.
  intros H. pose proof (waiting_connects l). destruct (waiting l); simpl in *; [done|lia].
Qed.

(** Closing a socket from one of the activities that hold it. *)
Lemma local_close v a s x l a' s' :
  local_ok v a s (x :: l) -> is_sender x + is_receiver x = 1 ->
  local_ok nowhere a' s' l.
Proof.
  intros [H1 H2 _ _ _ _ _ _ _] Hx. simpl in *.
  assert (connects l = 0) as Hc.
  { destruct (decide (connects l = 0)) as [|Hne]; [done|]. exfalso.
    assert (exists t k, Connecting t k ∈ l) as (t & k & Hin).
    { clear -Hne. induction l as [|y l IH]; simpl in *; [done|].
      destruct y; simpl in *; try (destruct IH as (t & k & ?); [lia|];
        exists t, k; by right).
      eexists _, _; by left. }
    destruct (H2 t k) as [Hr _]; [by right|].
    pose proof (connects_senders l). lia. }
  apply nowhere_ok; [lia|]. intros t k Hin. by destruct (connects_0 t k l Hc).
Qed.

(** ** The global part *)
Record maps_ok (self : nat) (sm : SocketManager) : Prop := {
  m_links : wf self (link_maps sm);
  m_watched : forall u p, related (linkers (link_maps sm)) u p ->
    address u <> self -> is_Some (persists sm !! address u);
  m_addresses : forall s a, addresses sm !! s = Some a ->
    persists sm !! a = Some s \/ temps sm !! a = Some s;
  m_persists : forall a s, persists sm !! a = Some s ->
    addresses sm !! s = Some a /\ s ∉ dispose sm;
  m_temps : forall a s, temps sm !! a = Some s ->
    addresses sm !! s = Some a /\ s ∈ dispose sm;
}.

Definition inv (self : nat) (w : world) : Prop :=
  maps_ok self (manager w) /\
  forall s, local_ok (mview (manager w) s) (logged (assigned w) s)
              (logged (started w) s) (on s (activities w)).

Lemma on_perm s l1 l2 : l1 ≡ₚ l2 -> on s l1 ≡ₚ on s l2.
Proof. intros H. unfold on. by rewrite H. Qed.

Lemma on_app s l1 l2 : on s (l1 ++ l2) = on s l1 ++ on s l2.
Proof. apply filter_app. Qed.

Lemma on_cons_eq s x l : socket_of x = s -> on s (x :: l) = x :: on s l.
Proof. intros. unfold on. by rewrite filter_cons_True. Qed.

Lemma on_cons_ne s x l : socket_of x <> s -> on s (x :: l) = on s l.
Proof. intros. unfold on. by rewrite filter_cons_False. Qed.

(** An operation that replaces the activities [old] by [new] preserves the
    invariant if it does so for every descriptor. *)
Lemma inv_step self w sm' old new rest asg' str' :
  inv self w -> activities w ≡ₚ old ++ rest -> maps_ok self sm' ->
  (forall s, local_ok (mview (manager w) s) (logged (assigned w) s)
               (logged (started w) s) (on s old ++ on s rest) ->
             local_ok (mview sm' s) (logged asg' s) (logged str' s)
               (on s new ++ on s rest)) ->
  inv self (mkWorld sm' (new ++ rest) asg' str').
Proof.
  intros [Hm Hl] Hp Hm' Hstep. split; [done|]. intros s. simpl. rewrite on_app.
  apply Hstep. rewrite <- on_app. by rewrite <- (on_perm s _ _ Hp).
Qed.
