(* ===== verification/SocketsSteps.v ===== *)
(** What every operation of the socket manager does to its maps and to the view of
    each descriptor, and that every step of an activity preserves the invariant. *)

From S2P Require Import Prelude Links Sockets SocketsInv.

(** ** Effects that start no activity *)
Definition quiet (es : list effect) : Prop := Forall (fun e => effect_activity e = None) es.

Lemma quiet_after w rest leftover sm es :
  quiet es ->
  after w rest leftover (Returns (sm, es))
  = Returns (mkWorld sm rest (assigned w) (started w)).
Proof.
  intros Hq. unfold after. simpl.
  assert (omap effect_activity es = []) as ->.
  { induction Hq as [|e es He _ IH]; csimpl; [done|]. by rewrite He. }
  assert (forall m, assign leftover es m = m /\ start es m = m) as Hg.
  { induction Hq as [|e es He _ IH]; [done|]. intros m. destruct e; simpl in *; try done;
      apply IH. }
  by destruct (Hg (assigned w)) as [-> _], (Hg (started w)) as [_ ->].
Qed.

Lemma quiet_close ds s p : quiet (map Deliver ds ++ Shutdown s :: terminate_proxy p).
Proof.
  apply Forall_app. split.
  - induction ds; constructor; auto.
  - by destruct p; repeat constructor.
Qed.

Lemma quiet_deliver ds : quiet (map Deliver ds).
Proof. induction ds; constructor; auto. Qed.

(** ** Ghost logs *)
Lemma logged_eq m s x : logged (<[s := x]> m) s = x.
Proof. unfold logged. by rewrite lookup_insert_eq. Qed.
Lemma logged_ne m s t x : s <> t -> logged (<[s := x]> m) t = logged m t.
Proof. intros. unfold logged. by rewrite lookup_insert_ne. Qed.
Lemma log_eq m s e : logged (log s e m) s = logged m s ++ [e].
Proof. apply logged_eq. Qed.
Lemma log_ne m s t e : s <> t -> logged (log s e m) t = logged m t.
Proof. apply logged_ne. Qed.

Section Steps.
Context (self : nat).
Notation maps_ok := (maps_ok self).
Notation inv := (inv self).

(** [sm'] differs from [sm] on descriptor [s] only. *)
Definition updates (sm sm' : SocketManager) (s : nat) (v : local) : Prop :=
  mview sm' s = v /\ forall t, t <> s -> mview sm' t = mview sm t.

Lemma mview_inj sm s v :
  mview sm s = v <->
  (present v = true <-> s ∈ sockets sm) /\ (disposed v = true <-> s ∈ dispose sm) /\
  addr v = addresses sm !! s /\ queue v = outgoing sm !! s /\ prox v = proxies sm !! s.
Proof.
  destruct v as [p d a q x]. unfold mview. simpl. split.
  - intros ?; simplify_eq. by rewrite !bool_decide_eq_true.
  - intros (Hp & Hd & -> & -> & ->). f_equal.
    + destruct p; [apply bool_decide_eq_true|apply bool_decide_eq_false]; naive_solver.
    + destruct d; [apply bool_decide_eq_true|apply bool_decide_eq_false]; naive_solver.
Qed.

Lemma mview_same sm sm' t :
  (t ∈ sockets sm' <-> t ∈ sockets sm) -> (t ∈ dispose sm' <-> t ∈ dispose sm) ->
  addresses sm' !! t = addresses sm !! t -> outgoing sm' !! t = outgoing sm !! t ->
  proxies sm' !! t = proxies sm !! t -> mview sm' t = mview sm t.
Proof.
  intros H1 H2 H3 H4 H5. unfold mview. f_equal; auto; by apply bool_decide_ext.
Qed.

(** Forgetting one socket keeps the maps in order. *)
Lemma maps_ok_forget sm s l' socks ps ts og px :
  maps_ok sm -> wf self l' ->
  (forall u p, related (linkers l') u p -> address u <> self ->
     is_Some (ps !! address u)) ->
  (forall a t, ps !! a = Some t <-> persists sm !! a = Some t /\ t <> s) ->
  (forall a t, ts !! a = Some t <-> temps sm !! a = Some t /\ t <> s) ->
  maps_ok (mkSM l' socks (dispose sm ∖ {[s]}) (delete s (addresses sm)) ts ps og px).
Proof.
  intros [_ _ Ha Hp Ht] Hwf Hw Hps Hts. split; simpl; auto.
  - intros t a. rewrite lookup_delete_Some. intros [Hne Hta]. rewrite Hps, Hts.
    destruct (Ha t a Hta); naive_solver.
  - intros a t [H Hne]%Hps. destruct (Hp a t H). rewrite lookup_delete_ne by done.
    set_solver.
  - intros a t [H Hne]%Hts. destruct (Ht a t H). rewrite lookup_delete_ne by done.
    set_solver.
Qed.

(** No address leads to a socket without an address. *)
Lemma unmapped sm s :
  maps_ok sm -> addresses sm !! s = None ->
  (forall a, persists sm !! a <> Some s) /\ (forall a, temps sm !! a <> Some s).
Proof.
  intros [_ _ _ Hp Ht] H. split; intros a Ha; [apply Hp in Ha|apply Ht in Ha];
    destruct Ha; congruence.
Qed.

(** Erasing the entry of [a] erases exactly the entry that leads to [s]. *)
Lemma erase_entry (m : gmap nat nat) a s :
  m !! a = Some s -> (forall b, m !! b = Some s -> b = a) ->
  forall b t, delete a m !! b = Some t <-> m !! b = Some t /\ t <> s.
Proof.
  intros Ha Hu b t. rewrite lookup_delete_Some. split.
  - intros [Hne Hb]. split; [done|]. intros ->. naive_solver.
  - intros [Hb Hne]. split; [|done]. intros <-. congruence.
Qed.

Lemma keep_entries (m : gmap nat nat) s :
  (forall b, m !! b <> Some s) -> forall b t, m !! b = Some t <-> m !! b = Some t /\ t <> s.
Proof. intros H b t. split; [|by intros []]. intros Hb. split; [done|]. intros ->. by eapply H. Qed.

Lemma persists_unique sm s a b :
  maps_ok sm -> persists sm !! a = Some s -> persists sm !! b = Some s -> b = a.
Proof. intros [_ _ _ Hp _] Ha Hb. apply Hp in Ha as [? _], Hb as [? _]. congruence. Qed.

Lemma temps_unique sm s a b :
  maps_ok sm -> temps sm !! a = Some s -> temps sm !! b = Some s -> b = a.
Proof. intros [_ _ _ _ Ht] Ha Hb. apply Ht in Ha as [? _], Hb as [? _]. congruence. Qed.

Lemma persists_not_temps sm s a b :
  maps_ok sm -> persists sm !! a = Some s -> temps sm !! b <> Some s.
Proof. intros [_ _ _ Hp Ht] Ha Hb. apply Hp in Ha as [? ?]. apply Ht in Hb as [? ?]. done. Qed.

(** Losing the peer at [a] removes the links that only its socket watched. *)
Lemma exited_watched sm a s l' :
  maps_ok sm -> persists sm !! a = Some s ->
  (forall u q, related (linkers l') u q <->
     related (linkers (link_maps sm)) u q /\ ~ (address u = a /\ a <> self)) ->
  forall u p, related (linkers l') u p -> address u <> self ->
    is_Some (delete a (persists sm) !! address u).
Proof.
  intros Hm Ha Hl u p [Hr Hn]%Hl Hu. rewrite lookup_delete_ne.
  - by eapply m_watched.
  - intros ->. apply Hn. done.
Qed.

(** ** [close], [next] and [swap_implementing_socket] *)

Lemma close_address_spec sm s :
  maps_ok sm ->
  exists l' ts ps ds,
    close_address s sm = Returns (mkSM l' (sockets sm) (dispose sm)
      (delete s (addresses sm)) ts ps (outgoing sm) (proxies sm), ds) /\
    wf self l' /\
    (forall u p, related (linkers l') u p -> address u <> self ->
       is_Some (ps !! address u)) /\
    (forall a t, ps !! a = Some t <-> persists sm !! a = Some t /\ t <> s) /\
    (forall a t, ts !! a = Some t <-> temps sm !! a = Some t /\ t <> s).
Proof.
  intros Hm. pose proof Hm as [Hl Hw Ha _ _]. unfold close_address.
  destruct (addresses sm !! s) as [a|] eqn:Hs.
  - destruct (decide (persists sm !! a = Some s)) as [Hp|Hp].
    + destruct (exited_address_spec self a _ Hl) as (l' & ds & -> & Hwf & _ & _ & Hr).
      simpl. do 4 eexists. split; [done|]. split_and!; auto.
      * by eapply exited_watched.
      * apply erase_entry; eauto using persists_unique.
      * apply keep_entries. intros b. by eapply persists_not_temps.
    + destruct (Ha s a Hs) as [|Ht]; [done|]. rewrite decide_True by done.
      do 4 eexists. split; [done|]. split_and!; auto.
      * apply keep_entries. intros b Hb. by eapply persists_not_temps.
      * apply erase_entry; eauto using temps_unique.
  - destruct (unmapped sm s Hm Hs) as [H1 H2].
    exists (link_maps sm), (temps sm), (persists sm), []. split.
    + rewrite delete_id by done. by destruct sm.
    + split_and!; auto using keep_entries.
Qed.

Lemma close_spec sm s :
  maps_ok sm -> (present (mview sm s) = false -> mview sm s = nowhere) ->
  exists sm' es, close s sm = Returns (sm', es) /\ quiet es /\ maps_ok sm' /\
    updates sm sm' s nowhere.
Proof.
  intros Hm Hab. unfold close. destruct (decide (s ∈ sockets sm)) as [Hs|Hs].
  - destruct (close_address_spec sm s Hm) as (l' & ts & ps & ds & -> & Hwf & Hw & Hps & Hts).
    simpl. do 2 eexists. split; [done|]. split_and!.
    + apply quiet_close.
    + by apply maps_ok_forget.
    + split.
      * apply mview_inj. simpl. rewrite !lookup_delete_eq. set_solver.
      * intros t Ht. apply mview_same; simpl; rewrite ?lookup_delete_ne by done; set_solver.
  - exists sm, []. split_and!; [done|constructor|done|split; [|done]].
    apply Hab. by apply bool_decide_eq_false.
Qed.

Lemma with_outgoing_ok sm o : maps_ok sm -> maps_ok (with_outgoing (dispose sm) o sm).
Proof. by intros []. Qed.

(** [next] for a socket without messages. *)
Lemma next_dispose_spec sm s :
  maps_ok sm -> s ∈ sockets sm ->
  exists sm' es, next_dispose s sm = Returns (sm', es) /\ quiet es /\ maps_ok sm' /\
    updates sm sm' s
      (if decide (s ∈ dispose sm) then nowhere
       else mkLocal true false (addresses sm !! s) None (proxies sm !! s)).
Proof.
  intros Hm Hs. pose proof Hm as [Hl Hw Ha Hp Ht]. unfold next_dispose.
  destruct (decide (s ∈ dispose sm)) as [Hd|Hd].
  - assert (Hnp : forall a, persists sm !! a <> Some s) by (intros a [_ ?]%Hp; done).
    assert (Hq : quiet (Shutdown s :: terminate_proxy (proxies sm !! s)))
      by apply (quiet_close []).
    destruct (addresses sm !! s) as [a|] eqn:Hsa.
    + destruct (Ha s a Hsa) as [Hx|Hx]; [by destruct (Hnp a)|].
      rewrite bool_decide_eq_true_2 by done. simpl. do 2 eexists.
      split; [done|]. split_and!; auto; [|split].
      * apply maps_ok_forget; auto using keep_entries.
        apply erase_entry; eauto using temps_unique.
      * apply mview_inj. simpl. rewrite !lookup_delete_eq. set_solver.
      * intros t Hne. apply mview_same; simpl; rewrite ?lookup_delete_ne by done; set_solver.
    + destruct (unmapped sm s Hm Hsa) as [_ H2]. do 2 eexists.
      split; [done|]. split_and!; auto; [|split].
      * rewrite <- (delete_id (addresses sm) s) by done.
        apply maps_ok_forget; auto using keep_entries.
      * apply mview_inj. simpl. rewrite !lookup_delete_eq. set_solver.
      * intros t Hne. apply mview_same; simpl; rewrite ?lookup_delete_ne by done; set_solver.
  - do 2 eexists. split; [done|]. split_and!; [constructor|by apply with_outgoing_ok|split].
    + apply mview_inj. simpl. rewrite lookup_delete_eq. set_solver.
    + intros t Hne. apply mview_same; simpl; rewrite ?lookup_delete_ne by done; set_solver.
Qed.

(** Redirecting the entry that leads to [from]. *)
Lemma redirect_Some m a from to b t :
  (forall b, m !! b = Some from -> b = a) -> from <> to ->
  redirect a from to m !! b = Some t <->
  (m !! b = Some t /\ t <> from) \/ (m !! b = Some from /\ t = to).
Proof.
  intros Hu Hne. unfold redirect. destruct (decide (m !! a = Some from)) as [Ha|Ha].
  - destruct (decide (b = a)) as [->|Hb].
    + rewrite lookup_insert_eq, Ha. naive_solver.
    + rewrite lookup_insert_ne by done. naive_solver.
  - split; [|intros [[? _]|[H ->]]; [done|by rewrite (Hu b H) in H]].
    intros Hb. left. split; [done|]. intros ->. by rewrite (Hu b Hb) in Hb.
Qed.

Lemma redirect_is_Some m a from to b :
  is_Some (m !! b) -> is_Some (redirect a from to m !! b).
Proof.
  unfold redirect. destruct (decide _); [|done]. destruct (decide (b = a)) as [->|].
  - by rewrite lookup_insert_eq.
  - by rewrite lookup_insert_ne.
Qed.

Lemma swap_addresses_Some sm from to a s b :
  addresses sm !! to = None -> from <> to ->
  delete from (emplace to a (addresses sm)) !! s = Some b <->
  (s = to /\ b = a) \/ (s <> to /\ s <> from /\ addresses sm !! s = Some b).
Proof.
  intros Hto Hne. unfold emplace. rewrite Hto, lookup_delete_Some.
  destruct (decide (s = to)) as [->|Hs].
  - rewrite lookup_insert_eq. naive_solver.
  - rewrite lookup_insert_ne by done. naive_solver.
Qed.

Definition swapped_dispose (from to : nat) (d : gset nat) : gset nat :=
  if decide (from ∈ d) then ({[to]} ∪ d) ∖ {[from]} else d.

Lemma swapped_dispose_spec from to d :
  from <> to -> to ∉ d ->
  from ∉ swapped_dispose from to d /\
  (to ∈ swapped_dispose from to d <-> from ∈ d) /\
  (forall t, t <> from -> t <> to -> t ∈ swapped_dispose from to d <-> t ∈ d).
Proof. intros Hne Hto. unfold swapped_dispose. destruct (decide _); set_solver. Qed.

(** What [swap_implementing_socket] computes. *)
Lemma swap_eq sm from to a :
  maps_ok sm -> from ∈ sockets sm -> to ∉ sockets sm -> addresses sm !! from = Some a ->
  swap_implementing_socket from to sm = Returns
    (mkSM (link_maps sm) ({[to]} ∪ (sockets sm ∖ {[from]}))
       (swapped_dispose from to (dispose sm))
       (delete from (emplace to a (addresses sm)))
       (redirect a from to (temps sm)) (redirect a from to (persists sm))
       (delete from (<[to := default [] (outgoing sm !! from)]> (outgoing sm)))
       (rekey from to (proxies sm))).
Proof.
  intros Hm Hf Ht Ha. unfold swap_implementing_socket.
  rewrite !bool_decide_eq_true_2 by done. simpl. rewrite Ha. unfold check.
  do 2 f_equal. case_bool_decide as Hp; [|done].
  unfold redirect. rewrite decide_False; [done|]. by eapply persists_not_temps.
Qed.

Lemma maps_ok_swap sm from to a socks og px :
  maps_ok sm -> addresses sm !! from = Some a -> addresses sm !! to = None ->
  from <> to -> to ∉ dispose sm ->
  maps_ok (mkSM (link_maps sm) socks (swapped_dispose from to (dispose sm))
    (delete from (emplace to a (addresses sm))) (redirect a from to (temps sm))
    (redirect a from to (persists sm)) og px).
Proof.
  intros Hm Hfa Hta Hne Htd. pose proof Hm as [Hl Hw Ha Hp Ht].
  destruct (swapped_dispose_spec from to (dispose sm) Hne Htd) as (Hd1 & Hd2 & Hd3).
  destruct (unmapped sm to Hm Hta) as [Hup Hut].
  assert (Hpu : forall b, persists sm !! b = Some from -> b = a).
  { intros b [? _]%Hp. congruence. }
  assert (Htu : forall b, temps sm !! b = Some from -> b = a).
  { intros b [? _]%Ht. congruence. }
  split; simpl; auto.
  - intros u p Hu Hself. eapply redirect_is_Some; eauto.
  - intros s b. rewrite swap_addresses_Some, !redirect_Some by done.
    intros [[-> ->]|(Hs1 & Hs2 & Hsb)].
    + destruct (Ha from a Hfa); naive_solver.
    + destruct (Ha s b Hsb); naive_solver.
  - intros b t. rewrite redirect_Some, swap_addresses_Some by done.
    intros [[Hb Hn]|[Hb ->]].
    + assert (t <> to) by (intros ->; by destruct (Hup b)). destruct (Hp b t Hb).
      rewrite Hd3; naive_solver.
    + destruct (Hp b from Hb). rewrite Hd2. naive_solver.
  - intros b t. rewrite redirect_Some, swap_addresses_Some by done.
    intros [[Hb Hn]|[Hb ->]].
    + assert (t <> to) by (intros ->; by destruct (Hut b)). destruct (Ht b t Hb).
      rewrite Hd3; naive_solver.
    + destruct (Ht b from Hb). rewrite Hd2. naive_solver.
Qed.

Definition taken_over (v : local) : local :=
  mkLocal true (disposed v) (addr v) (Some (default [] (queue v))) (prox v).

Lemma rekey_lookup {A} from to (m : gmap nat A) t :
  from <> to -> m !! to = None ->
  rekey from to m !! t =
  if decide (t = from) then None else if decide (t = to) then m !! from else m !! t.
Proof.
  intros Hne Hto. unfold rekey. destruct (m !! from) as [x|] eqn:Hf.
  - destruct (decide (t = from)) as [->|Hf']; [by rewrite lookup_delete_eq|].
    rewrite lookup_delete_ne by done. destruct (decide (t = to)) as [->|].
    + by rewrite lookup_insert_eq.
    + by rewrite lookup_insert_ne.
  - destruct (decide (t = from)) as [->|]; [done|].
    destruct (decide (t = to)) as [->|]; [done|done].
Qed.

Lemma swap_spec sm from to a :
  maps_ok sm -> from ∈ sockets sm -> addresses sm !! from = Some a ->
  mview sm to = nowhere ->
  exists sm', swap_implementing_socket from to sm = Returns sm' /\ maps_ok sm' /\
    link_maps sm' = link_maps sm /\
    (forall b, is_Some (persists sm !! b) -> is_Some (persists sm' !! b)) /\
    mview sm' from = nowhere /\ mview sm' to = taken_over (mview sm from) /\
    forall t, t <> from -> t <> to -> mview sm' t = mview sm t.
Proof.
  intros Hm Hf Ha Hto. apply mview_inj in Hto as (Hts & Htd & Hta & Hto & Htp).
  simpl in *. assert (to ∉ sockets sm) by naive_solver.
  assert (to ∉ dispose sm) as Hd by naive_solver.
  assert (from <> to) as Hne by congruence.
  destruct (swapped_dispose_spec from to (dispose sm) Hne Hd) as (Hd1 & Hd2 & Hd3).
  eexists. split; [by apply swap_eq|]. split_and!; [by apply maps_ok_swap|done| | | |].
  - intros b. simpl. apply redirect_is_Some.
  - apply mview_inj. simpl. rewrite !lookup_delete_eq, rekey_lookup by done.
    rewrite decide_True by done. set_solver.
  - apply mview_inj. simpl. rewrite !lookup_delete_ne, lookup_insert_eq by done.
    unfold emplace. rewrite <- Hta, lookup_insert_eq, Ha, rekey_lookup by done.
    rewrite decide_False, decide_True by done. rewrite bool_decide_eq_true. set_solver.
  - intros t H1 H2. apply mview_same; simpl.
    + set_solver.
    + by apply Hd3.
    + unfold emplace. rewrite <- Hta. by rewrite lookup_delete_ne, lookup_insert_ne.
    + by rewrite lookup_delete_ne, lookup_insert_ne.
    + rewrite rekey_lookup by done. by rewrite !decide_False.
Qed.

(** ** Steps of the world *)

Lemma inv_local w s :
  inv w -> local_ok (mview (manager w) s) (logged (assigned w) s)
             (logged (started w) s) (on s (activities w)).
Proof. intros [_ H]. apply H. Qed.

Lemma inv_absent w s :
  inv w -> present (mview (manager w) s) = false -> mview (manager w) s = nowhere.
Proof. intros Hi. by apply (inv_local w s Hi). Qed.

Lemma fresh_spec w s :
  inv w -> fresh w s = true ->
  mview (manager w) s = nowhere /\ on s (activities w) = [].
Proof.
  intros Hi [Hs Ha]%andb_true_iff. apply bool_decide_eq_true in Hs, Ha. split.
  - apply inv_absent; [done|]. by apply bool_decide_eq_false.
  - apply filter_none. done.
Qed.

(** Replacing activities of one descriptor [s]. *)
Lemma inv_step1 w sm' s v old new rest asg' str' :
  inv w -> activities w ≡ₚ old ++ rest -> maps_ok sm' ->
  updates (manager w) sm' s v ->
  Forall (fun a => socket_of a = s) old -> Forall (fun a => socket_of a = s) new ->
  (forall t, t <> s -> logged asg' t = logged (assigned w) t /\
                       logged str' t = logged (started w) t) ->
  (local_ok (mview (manager w) s) (logged (assigned w) s) (logged (started w) s)
     (old ++ on s rest) ->
   local_ok v (logged asg' s) (logged str' s) (new ++ on s rest)) ->
  inv (mkWorld sm' (new ++ rest) asg' str').
Proof.
  intros Hi Hp Hm [Hv Hother] Hold Hnew Hlog Hlocal.
  apply (inv_step self w sm' old new rest); auto. intros t Ht.
  destruct (decide (t = s)) as [->|Hne].
  - unfold on at 1. rewrite filter_all by done. rewrite Hv. apply Hlocal.
    unfold on at 1 in Ht. by rewrite filter_all in Ht by done.
  - assert (Hnone : forall l, Forall (fun a => socket_of a = s) l -> on t l = []).
    { intros l Hl. apply filter_none. eapply Forall_impl; [exact Hl|]. naive_solver. }
    rewrite (Hnone new), (Hnone old) in * by done. destruct (Hlog t Hne) as [-> ->].
    by rewrite Hother.
Qed.

Lemma close_step w x rest leftover :
  inv w -> activities w ≡ₚ x :: rest -> is_sender x + is_receiver x = 1 ->
  exists w', after w rest leftover (close (socket_of x) (manager w)) = Returns w' /\ inv w'.
Proof.
  intros Hi Hp Hx.
  destruct (close_spec (manager w) (socket_of x)) as (sm' & es & -> & Hq & Hm & Hu).
  { apply Hi. }
  { by apply inv_absent. }
  rewrite quiet_after by done. eexists; split; [done|].
  apply (inv_step1 w sm' (socket_of x) nowhere [x] [] rest); auto.
  intros Hl. by eapply local_close.
Qed.

(** What a disconnected socket leaves to its successor. *)
Lemma undelivered_spec w s :
  inv w -> s ∈ sockets (manager w) ->
  undelivered w s
  = waiting (on s (activities w)) ++ default [] (outgoing (manager w) !! s).
Proof.
  intros Hi Hs. destruct (inv_local w s Hi) as [_ _ _ _ _ _ _ _ Hf].
  unfold undelivered. rewrite Hf by (by apply bool_decide_eq_true).
  by rewrite drop_app_length.
Qed.

Lemma outbound_no_proxy w s a :
  inv w -> addresses (manager w) !! s = Some a -> proxies (manager w) !! s = None.
Proof.
  intros Hi Ha. destruct (proxies (manager w) !! s) as [p|] eqn:Hp; [|done].
  destruct (inv_local w s Hi) as [_ _ Hin Hpr _ _ _ _ _]. simpl in *.
  destruct (Hpr p Hp) as [t Ht]. rewrite Hin in Ha; [done|].
  clear -Ht. induction (on s (activities w)) as [|y l IH]; [by apply not_elem_of_nil in Ht|].
  apply elem_of_cons in Ht as [<-|Ht]; simpl; [lia|]. apply IH in Ht. lia.
Qed.

Lemma swap_inv w sm' old rest from to k :
  inv w -> activities w ≡ₚ old ++ rest -> maps_ok sm' ->
  mview sm' from = nowhere -> mview sm' to = taken_over (mview (manager w) from) ->
  (forall t, t <> from -> t <> to -> mview sm' t = mview (manager w) t) ->
  fresh w to = true -> from ∈ sockets (manager w) ->
  addresses (manager w) !! from = Some (peer k) ->
  Forall (fun a => socket_of a = from) old ->
  (forall a s, local_ok nowhere a s (on from rest)) ->
  waiting (on from (activities w)) = waiting [Connecting to k] ->
  (match k with SendTo _ _ => from ∈ dispose (manager w) | LinkTo _ => True end) ->
  inv (mkWorld sm' (Connecting to k :: rest) (<[to := undelivered w from]> (assigned w))
         (<[to := []]> (started w))).
Proof.
  intros Hi Hp Hm Hfrom Hto Hother Hfresh Hf Ha Hold Hrest Hwait Hk.
  destruct (fresh_spec w to Hi Hfresh) as [Hv Hnone].
  assert (from <> to) as Hne.
  { intros ->. apply mview_inj in Hv as (Hx & _). simpl in Hx. naive_solver. }
  apply (inv_step self w sm' old [Connecting to k] rest); auto. intros t Ht.
  destruct (decide (t = to)) as [->|Ht1]; [|destruct (decide (t = from)) as [->|Ht2]].
  - rewrite Hto, !logged_eq, on_cons_eq by done.
    pose proof (on_perm to _ _ Hp) as Hpt. rewrite Hnone, on_app in Hpt.
    apply Permutation_nil_l in Hpt. symmetry in Hpt. apply app_nil in Hpt as [_ ->]. simpl.
    rewrite undelivered_spec, Hwait by done.
    split; simpl; try done; try lia; [|by rewrite (outbound_no_proxy w from _ Hi Ha)].
    intros s k' Heq%list_elem_of_singleton. simplify_eq. split_and!; auto.
    destruct k; [done|]. split; [done|]. by apply bool_decide_eq_true.
  - rewrite Hfrom, !logged_ne by done. rewrite on_cons_ne by done. apply Hrest.
  - rewrite Hother, !logged_ne, on_cons_ne by done.
    assert (on t old = []) as Hn; [|by rewrite Hn in Ht].
    apply filter_none. eapply Forall_impl; [exact Hold|]. simpl. congruence.
Qed.

Lemma on_held w x rest :
  activities w ≡ₚ x :: rest ->
  on (socket_of x) (activities w) ≡ₚ x :: on (socket_of x) rest.
Proof. intros Hp. rewrite (on_perm _ _ _ Hp). by rewrite on_cons_eq. Qed.

Lemma local_held w x rest :
  inv w -> activities w ≡ₚ x :: rest ->
  local_ok (mview (manager w) (socket_of x)) (logged (assigned w) (socket_of x))
    (logged (started w) (socket_of x)) (x :: on (socket_of x) rest).
Proof. intros Hi Hp. rewrite <- (on_held w x rest Hp). by apply inv_local. Qed.

(** The socket of a pending connect has no other sender. *)
Lemma connecting_alone w s k rest :
  inv w -> activities w ≡ₚ Connecting s k :: rest ->
  connects (on s rest) = 0 /\ waiting (on s (activities w)) = waiting [Connecting s k].
Proof.
  intros Hi Hp. pose proof (local_held _ _ _ Hi Hp) as Hl. simpl in Hl.
  destruct Hl as [H1 _ _ _ _ _ _ _ _]. simpl in H1.
  pose proof (connects_senders (on s rest)).
  assert (connects (on s rest) = 0) as Hc by lia. split; [done|].
  symmetry. apply short_perm.
  - pose proof (waiting_connects [Connecting s k]). simpl in *. lia.
  - rewrite (on_held _ _ _ Hp). csimpl. by rewrite (no_connects_no_waiting _ Hc).
Qed.

Lemma downgrade_step w s k s' rest :
  inv w -> activities w ≡ₚ Connecting s k :: rest ->
  s ∈ sockets (manager w) -> fresh w s' = true ->
  exists w', after w rest (undelivered w s)
    (bind (swap_implementing_socket s s' (manager w)) (fun sm1 =>
     Returns (sm1, [Connect s' k]))) = Returns w' /\ inv w'.
Proof.
  intros Hi Hp Hs Hf. pose proof (local_held _ _ _ Hi Hp) as Hl. simpl in Hl.
  destruct (connecting_alone w s k rest Hi Hp) as [Hc Hw].
  pose proof (l_connecting _ _ _ _ Hl s k ltac:(by left)) as (_ & Haddr & Hk).
  simpl in Haddr. rewrite bool_decide_eq_true in Haddr.
  destruct (fresh_spec w s' Hi Hf) as [Hv _].
  destruct (swap_spec (manager w) s s' (peer k)) as (sm' & -> & Hm & _ & _ & V1 & V2 & V3);
    auto; [apply Hi|].
  eexists. split; [reflexivity|]. simpl.
  apply (swap_inv w sm' [Connecting s k] rest s s' k); auto.
  - intros a b. by eapply local_close.
  - destruct k; [done|]. simpl in Hk. rewrite !bool_decide_eq_true in Hk. apply Hk.
Qed.

Lemma link_connect_failed_step w s to rest downgrade created :
  inv w -> activities w ≡ₚ Connecting s (LinkTo to) :: rest ->
  fresh_created w created = true ->
  exists w', after w rest (undelivered w s)
    (link_connect_failed s to downgrade created (manager w)) = Returns w' /\ inv w'.
Proof.
  intros Hi Hp Hf. unfold link_connect_failed.
  destruct downgrade; [|by apply (close_step w (Connecting s (LinkTo to)))].
  destruct (decide (s ∉ sockets (manager w))) as [Hs|Hs%dec_stable].
  - rewrite quiet_after by constructor. eexists. split; [done|].
    apply (inv_step1 w _ s nowhere [Connecting s (LinkTo to)] [] rest); auto; [apply Hi| |].
    + split; [|done]. apply inv_absent; [done|]. by apply bool_decide_eq_false.
    + intros Hl. by eapply local_close.
  - destruct created as [s'|]; [|by apply (close_step w (Connecting s (LinkTo to)))].
    by apply downgrade_step.
Qed.

Lemma send_connect_failed_step w s a m rest downgrade created :
  inv w -> activities w ≡ₚ Connecting s (SendTo a m) :: rest ->
  fresh_created w created = true ->
  exists w', after w rest (undelivered w s)
    (send_connect_failed s a m downgrade created (manager w)) = Returns w' /\ inv w'.
Proof.
  intros Hi Hp Hf. unfold send_connect_failed.
  destruct downgrade; [|by apply (close_step w (Connecting s (SendTo a m)))].
  destruct created as [s'|]; [|by apply (close_step w (Connecting s (SendTo a m)))].
  apply downgrade_step; auto. pose proof (local_held _ _ _ Hi Hp) as Hl. simpl in Hl.
  pose proof (l_connecting _ _ _ _ Hl s _ ltac:(by left)) as (_ & _ & Hk & _).
  by apply bool_decide_eq_true in Hk.
Qed.

(** Recording a link to a watched address. *)
Lemma maps_ok_link sm process to :
  maps_ok sm -> (address to <> self -> is_Some (persists sm !! address to)) ->
  maps_ok (with_links (link self process to (link_maps sm)) sm).
Proof.
  intros [Hl Hw Ha Hp Ht] Hto. split; simpl; auto using link_wf.
  intros u p [[<- _]|Hr]%related_insert_in Hu; eauto.
Qed.

Lemma with_links_view l sm t : mview (with_links l sm) t = mview sm t.
Proof. done. Qed.

Lemma inv_with_links w l :
  inv w -> maps_ok (with_links l (manager w)) ->
  inv (mkWorld (with_links l (manager w)) (activities w) (assigned w) (started w)).
Proof. intros [_ Hl] Hm. split; [done|]. exact Hl. Qed.

(** A new socket to an address without one. *)
Lemma maps_ok_new sm s a ps ts d og px l socks :
  maps_ok sm -> wf self l -> addresses sm !! s = None -> s ∉ dispose sm ->
  (forall u p, related (linkers l) u p -> address u <> self -> is_Some (ps !! address u)) ->
  (persists sm !! a = None /\ ps = <[a := s]> (persists sm) /\ ts = temps sm /\
     d = dispose sm \/
   temps sm !! a = None /\ ps = persists sm /\ ts = <[a := s]> (temps sm) /\
     d = {[s]} ∪ dispose sm) ->
  maps_ok (mkSM l socks d (emplace s a (addresses sm)) ts ps og px).
Proof.
  intros Hm Hl Hsa Hsd Hw Hcase. pose proof Hm as [_ _ Ha Hp Ht].
  destruct (unmapped sm s Hm Hsa) as [Hup Hut].
  unfold emplace. rewrite Hsa. split; simpl; auto.
  - intros t b. rewrite lookup_insert_Some. intros [[<- <-]|[Hne Htb]].
    + destruct Hcase as [(? & -> & _)|(? & _ & -> & _)]; rewrite lookup_insert_eq; auto.
    + pose proof (Ha t b Htb).
      destruct Hcase as [(? & -> & -> & _)|(? & -> & -> & _)];
        rewrite lookup_insert_Some; naive_solver.
  - intros b t Hb. destruct Hcase as [(Hn & -> & -> & ->)|(Hn & -> & -> & ->)].
    + apply lookup_insert_Some in Hb as [[<- <-]|[Hne Hb]]; [by rewrite lookup_insert_eq|].
      destruct (Hp b t Hb). rewrite lookup_insert_ne by congruence. done.
    + destruct (Hp b t Hb). rewrite lookup_insert_ne by congruence. split; [done|].
      assert (t <> s) by congruence. set_solver.
  - intros b t Hb. destruct Hcase as [(Hn & -> & -> & ->)|(Hn & -> & -> & ->)].
    + destruct (Ht b t Hb). rewrite lookup_insert_ne by congruence. done.
    + apply lookup_insert_Some in Hb as [[<- <-]|[Hne Hb]];
        [rewrite lookup_insert_eq; set_solver|].
      destruct (Ht b t Hb). rewrite lookup_insert_ne by congruence. set_solver.
Qed.

Lemma inv_same w : inv w ->
  inv (mkWorld (manager w) (activities w) (assigned w) (started w)).
Proof. by destruct w. Qed.

Lemma nowhere_fields sm s :
  mview sm s = nowhere ->
  s ∉ sockets sm /\ s ∉ dispose sm /\ addresses sm !! s = None /\
  outgoing sm !! s = None /\ proxies sm !! s = None.
Proof. intros (H1 & H2 & H3 & H4 & H5)%mview_inj. simpl in *. naive_solver. Qed.

Lemma emplace_None {K A} `{Countable K} (k : K) (v : A) (m : gmap K A) :
  m !! k = None -> emplace k v m = <[k := v]> m.
Proof. intros H'. unfold emplace. by rewrite H'. Qed.

(** A descriptor that has just been created and is being connected. *)
Definition connecting_view (k : on_connected) : local :=
  mkLocal true (match k with SendTo _ _ => true | LinkTo _ => false end)
    (Some (peer k)) (Some []) None.

Lemma connecting_view_ok s k a :
  a = waiting [Connecting s k] -> local_ok (connecting_view k) a [] [Connecting s k].
Proof.
  intros ->. split; simpl; try done; try lia.
  - intros t k' Heq%list_elem_of_singleton. simplify_eq. destruct k; naive_solver.
  - intros _. destruct k; done.
Qed.

(** A created socket is connected. *)
Lemma created_step w sm' s k :
  inv w -> fresh w s = true -> maps_ok sm' ->
  updates (manager w) sm' s (connecting_view k) ->
  inv (mkWorld sm' (Connecting s k :: activities w)
         (<[s := waiting [Connecting s k]]> (assigned w)) (<[s := []]> (started w))).
Proof.
  intros Hi Hf Hm Hu. destruct (fresh_spec w s Hi Hf) as [_ Hnone].
  apply (inv_step1 w sm' s (connecting_view k) [] [Connecting s k] (activities w)); auto.
  - intros t Ht. by rewrite !logged_ne.
  - intros _. rewrite !logged_eq, Hnone. by apply connecting_view_ok.
Qed.

Lemma link_remote_new_step w process to s :
  inv w -> fresh w s = true -> address to <> self ->
  persists (manager w) !! address to = None ->
  exists w', after w (activities w) []
    (link_remote self process to false (Some s) (manager w)) = Returns w' /\ inv w'.
Proof.
  intros Hi Hf Hself Hp. unfold link_remote. rewrite decide_False by done. rewrite Hp.
  destruct (fresh_spec w s Hi Hf) as [(Hs & Hd & Ha & Ho & Hx)%nowhere_fields _].
  rewrite bool_decide_eq_true_2 by done. simpl. eexists. split; [reflexivity|].
  destruct (Hi) as [Hm _]. pose proof Hm as [Hl Hw _ _ _].
  apply (created_step w _ s (LinkTo to)); auto.
  - rewrite (emplace_None (address to)) by done. apply maps_ok_new; auto using link_wf; simpl.
    intros u p [[<- _]|Hr]%related_insert_in Hu; [by rewrite lookup_insert_eq|].
    apply lookup_insert_is_Some'. right. by eapply Hw.
  - rewrite !emplace_None by done. split.
    + apply mview_inj. simpl. rewrite !lookup_insert_eq. set_solver.
    + intros t Ht. apply mview_same; simpl; rewrite ?lookup_insert_ne by done; set_solver.
Qed.

Lemma reconnect_step w process to existing s :
  inv w -> fresh w s = true -> address to <> self ->
  persists (manager w) !! address to = Some existing ->
  exists w', after w (activities w) (undelivered w existing)
    (link_remote self process to true (Some s) (manager w)) = Returns w' /\ inv w'.
Proof.
  intros Hi Hf Hself Hp. unfold link_remote. rewrite decide_False by done. rewrite Hp.
  destruct (fresh_spec w s Hi Hf) as [Hv _]. pose proof Hi as [Hm _].
  destruct (m_persists _ _ Hm _ _ Hp) as [Ha Hd].
  pose proof (inv_local w existing Hi) as Hl.
  assert (existing ∈ sockets (manager w)) as He.
  { destruct (decide (existing ∈ sockets (manager w))) as [|Hn]; [done|].
    apply (bool_decide_eq_false_2 _), (l_absent _ _ _ _ Hl) in Hn.
    apply nowhere_fields in Hn as (_ & _ & Hn & _). congruence. }
  rewrite bool_decide_eq_true_2 by done. simpl.
  destruct (swap_spec (manager w) existing s (address to))
    as (sm' & -> & Hm' & Hlm & Hps & V1 & V2 & V3); auto.
  eexists. split; [reflexivity|]. simpl.
  assert (Hno : forall t k, Connecting t k ∈ on existing (activities w) ->
    receivers (on existing (activities w)) = 0 /\ carried (Connecting t k) = None).
  { intros t k Hin. destruct (l_connecting _ _ _ _ Hl t k Hin) as (? & _ & Hk).
    split; [done|]. destruct k; [done|]. destruct Hk as [_ Hk]. by apply bool_decide_eq_true in Hk. }
  assert (waiting (on existing (activities w)) = []) as Hwait.
  { destruct (waiting (on existing (activities w))) as [|m l] eqn:Ew; [done|]. exfalso.
    assert (m ∈ waiting (on existing (activities w))) as Hin by (rewrite Ew; by left).
    apply list_elem_of_omap in Hin as (x & Hx & Hc). destruct x as [t k| | | | |]; try done.
    destruct (Hno t k Hx). congruence. }
  apply (swap_inv w _ [] (activities w) existing s (LinkTo to)); auto.
  - apply maps_ok_link; [done|]. intros _. apply Hps. rewrite Hp. done.
  - intros a b. apply nowhere_ok; [apply Hl|]. intros t k Hin. by destruct (Hno t k Hin).
Qed.

Lemma link_remote_step w process to reconnect created :
  inv w -> fresh_created w created = true ->
  exists w', after w (activities w)
    (match persists (manager w) !! address to with
     | Some existing => undelivered w existing
     | None => []
     end) (link_remote self process to reconnect created (manager w)) = Returns w' /\ inv w'.
Proof.
  intros Hi Hf. pose proof Hi as [Hm _].
  destruct (decide (address to = self)) as [Hself|Hself].
  { unfold link_remote. rewrite decide_True by done. rewrite quiet_after by constructor.
    eexists; split; [done|]. apply inv_with_links; [done|]. apply maps_ok_link; [done|]. by intros []. }
  assert (Hfail : exists w', after w (activities w)
    (match persists (manager w) !! address to with
     | Some existing => undelivered w existing | None => [] end)
    (Returns (manager w, [Deliver (process, to)])) = Returns w' /\ inv w').
  { rewrite quiet_after by by repeat constructor. eexists; split; [done|].
    by apply inv_same. }
  destruct (persists (manager w) !! address to) as [existing|] eqn:Hp.
  - destruct reconnect, created as [s|]; [by apply reconnect_step| | |];
      unfold link_remote; rewrite decide_False by done; rewrite Hp; simpl; auto.
    all: eexists; split; [done|].
    all: apply inv_with_links; [done|]; apply maps_ok_link; [done|]; by rewrite Hp.
  - destruct created as [s|].
    + destruct (link_remote_new_step w process to s) as (w' & Hw & Hi'); auto.
      exists w'. split; [|done]. rewrite <- Hw. unfold link_remote.
      rewrite !decide_False by done. by rewrite Hp.
    + unfold link_remote. rewrite decide_False by done. by rewrite Hp.
Qed.

(** ** Sending *)

(** Giving [e] to a socket the manager knows: it is queued behind the sender, or a
    sender is started. *)
Definition given (e : nat) (s : nat) (sm : SocketManager) (d : gset nat)
    : SocketManager * list effect :=
  match outgoing sm !! s with
  | Some q => (with_outgoing d (<[s := q ++ [e]]> (outgoing sm)) sm, [])
  | None => (with_outgoing d (<[s := []]> (outgoing sm)) sm, [Send e s])
  end.

Lemma local_queued d d' a q p asg str l e :
  local_ok (mkLocal true d a (Some q) p) asg str l -> (d = true -> d' = true) ->
  local_ok (mkLocal true d' a (Some (q ++ [e])) p) (asg ++ [e]) str l.
Proof.
  intros [H1 H2 H3 H4 H5 H6 H7 H8 H9] Hd. simpl in *. split; simpl; auto; try done.
  - intros t k Hin. destruct (H2 t k Hin) as (? & ? & Hk). split_and!; auto.
    destruct k; naive_solver.
  - intros _. rewrite H9 by done. by rewrite <- !(assoc_L (++)).
Qed.

Lemma local_started d d' a p asg str l s e :
  local_ok (mkLocal true d a None p) asg str l ->
  local_ok (mkLocal true d' a (Some []) p) (asg ++ [e]) (str ++ [e]) (Writing s e :: l).
Proof.
  intros [H1 H2 H3 H4 H5 H6 H7 H8 H9]. simpl in *. specialize (H6 eq_refl).
  pose proof (connects_senders l) as Hcs. assert (connects l = 0) as Hc by lia.
  split; csimpl; try done; try lia; auto.
  - intros t k [|Hin]%elem_of_cons; [done|]. by destruct (connects_0 t k _ Hc).
  - intros q Hq. destruct (H4 q Hq) as [t Ht]. exists t. by right.
  - intros _. rewrite (H9 eq_refl), (no_connects_no_waiting _ Hc). by rewrite !app_nil_r.
Qed.

Lemma given_view w s d q :
  s ∈ sockets (manager w) ->
  (forall t, t <> s -> t ∈ d <-> t ∈ dispose (manager w)) ->
  updates (manager w) (with_outgoing d (<[s := q]> (outgoing (manager w))) (manager w)) s
    (mkLocal true (bool_decide (s ∈ d)) (addresses (manager w) !! s) (Some q)
       (proxies (manager w) !! s)).
Proof.
  intros Hs Hd. split.
  - unfold mview. simpl. by rewrite bool_decide_eq_true_2, lookup_insert_eq.
  - intros t Ht. apply mview_same; simpl; rewrite ?lookup_insert_ne by done; auto.
Qed.

Lemma given_step w e s d :
  inv w -> s ∈ sockets (manager w) ->
  (forall o, maps_ok (with_outgoing d o (manager w))) ->
  (forall t, t <> s -> t ∈ d <-> t ∈ dispose (manager w)) ->
  (s ∈ dispose (manager w) -> s ∈ d) ->
  exists w', after (mkWorld (manager w) (activities w) (log s e (assigned w)) (started w))
    (activities w) [] (Returns (given e s (manager w) d)) = Returns w' /\ inv w'.
Proof.
  intros Hi Hs Hm Hd Hsd. unfold given.
  assert (Hsd' : bool_decide (s ∈ dispose (manager w)) = true -> bool_decide (s ∈ d) = true)
    by (rewrite !bool_decide_eq_true; done).
  destruct (outgoing (manager w) !! s) as [q|] eqn:Ho.
  - rewrite quiet_after by constructor. simpl. eexists; split; [done|].
    apply (inv_step1 w _ s _ [] [] (activities w) _ _ Hi (Permutation_refl _) (Hm _)
      (given_view w s d (q ++ [e]) Hs Hd)); auto.
    + intros t Ht. by rewrite log_ne.
    + simpl. rewrite log_eq. unfold mview. rewrite Ho, bool_decide_eq_true_2 by done.
      intros Hl. by eapply local_queued.
  - eexists; split; [reflexivity|]. simpl.
    apply (inv_step1 w _ s _ [] [Writing s e] (activities w) _ _ Hi (Permutation_refl _) (Hm _)
      (given_view w s d [] Hs Hd)); auto.
    + intros t Ht. by rewrite !log_ne.
    + simpl. rewrite !log_eq. unfold mview. rewrite Ho, bool_decide_eq_true_2 by done.
      apply local_started.
Qed.

Lemma send_encoder_step w e persist s :
  inv w -> addresses (manager w) !! s = None ->
  exists w', after (mkWorld (manager w) (activities w)
      (if decide (s ∈ sockets (manager w)) then log s e (assigned w) else assigned w)
      (started w)) (activities w) []
    (Returns (send_encoder e persist s (manager w))) = Returns w' /\ inv w'.
Proof.
  intros Hi Ha. unfold send_encoder. destruct (decide (s ∈ sockets (manager w))) as [Hs|Hs].
  - set (d := if persist then dispose (manager w) else {[s]} ∪ dispose (manager w)).
    apply (given_step w e s d); auto; unfold d; destruct persist; try set_solver.
    + intros o. apply with_outgoing_ok, Hi.
    + intros o. pose proof Hi as [Hm _]. destruct (unmapped _ s Hm Ha) as [Hup _].
      destruct Hm as [Hl Hw Hx Hp Ht]. split; simpl; auto.
      * intros a t Hat. destruct (Hp a t Hat). split; [done|].
        assert (t <> s) by (intros ->; by destruct (Hup a)). set_solver.
      * intros a t Hat. destruct (Ht a t Hat). set_solver.
  - rewrite quiet_after by constructor. eexists; split; [done|]. exact (inv_same w Hi).
Qed.

Lemma carrier_spec w a s :
  inv w -> carrier a (manager w) = Some s ->
  s ∈ sockets (manager w) /\ addresses (manager w) !! s = Some a.
Proof.
  intros Hi Hc. pose proof Hi as [Hm _].
  assert (addresses (manager w) !! s = Some a) as Ha.
  { unfold carrier in Hc. destruct (persists (manager w) !! a) as [s'|] eqn:Hp; simplify_eq.
    - by apply (m_persists _ _ Hm).
    - by apply (m_temps _ _ Hm). }
  split; [|done]. destruct (decide (s ∈ sockets (manager w))) as [|Hn]; [done|].
  apply (bool_decide_eq_false_2 _), (inv_absent w s Hi), nowhere_fields in Hn.
  destruct Hn as (_ & _ & Hn & _). congruence.
Qed.

Lemma send_message_step w a m created :
  inv w -> fresh_created w created = true ->
  exists w', after (match carrier a (manager w) with
      | Some s => mkWorld (manager w) (activities w)
          (if decide (s ∈ sockets (manager w)) then log s m (assigned w) else assigned w)
          (started w)
      | None => w
      end) (activities w) [m] (send_message a m created (manager w)) = Returns w' /\ inv w'.
Proof.
  intros Hi Hf. pose proof Hi as [Hm _]. unfold send_message.
  destruct (carrier a (manager w)) as [s|] eqn:Hc.
  - destruct (carrier_spec w a s Hi Hc) as [Hs Ha]. rewrite decide_True by done.
    assert (Hgo : forall d, (forall t, t <> s -> t ∈ d <-> t ∈ dispose (manager w)) ->
      (s ∈ d <-> s ∈ dispose (manager w)) ->
      exists w', after (mkWorld (manager w) (activities w) (log s m (assigned w)) (started w))
        (activities w) [] (Returns (given m s (manager w) d)) = Returns w' /\ inv w').
    { intros d Hd Hsd. assert (d = dispose (manager w)) as ->.
      { apply set_eq. intros t. destruct (decide (t = s)) as [->|]; auto. }
      apply given_step; auto. intros o. by apply with_outgoing_ok. }
    unfold carrier in Hc. destruct (persists (manager w) !! a) as [s'|] eqn:Hp; simplify_eq.
    + rewrite bool_decide_eq_true_2 by done. simpl.
      destruct (Hgo (dispose (manager w))) as (w' & Hw & Hi'); auto.
      exists w'. split; [|done]. rewrite <- Hw. unfold given. by destruct (outgoing _ !! s).
    + rewrite Hc. rewrite bool_decide_eq_true_2 by done. simpl.
      destruct (m_temps _ _ Hm a s Hc) as [_ Hd].
      destruct (Hgo ({[s]} ∪ dispose (manager w))) as (w' & Hw & Hi'); [set_solver..|].
      exists w'. split; [|done]. rewrite <- Hw. unfold given. by destruct (outgoing _ !! s).
  - unfold carrier in Hc. destruct (persists (manager w) !! a) as [|] eqn:Hp; [done|].
    rewrite Hc. destruct created as [s|].
    + destruct (fresh_spec w s Hi Hf) as [(Hs & Hd & Ha & Ho & Hx)%nowhere_fields _].
      rewrite bool_decide_eq_true_2 by done. simpl. eexists. split; [reflexivity|].
      apply (created_step w _ s (SendTo a m)); auto.
      * rewrite (emplace_None a) by done. apply maps_ok_new; auto; [apply Hm|apply Hm].
      * rewrite !emplace_None by done. split.
        -- apply mview_inj. simpl. rewrite !lookup_insert_eq. set_solver.
        -- intros t Ht. apply mview_same; simpl; rewrite ?lookup_insert_ne by done; set_solver.
    + rewrite quiet_after by constructor. eexists; split; [done|]. exact (inv_same w Hi).
Qed.

(** ** The senders *)

Lemma local_next d a e q p asg str l s :
  local_ok (mkLocal true d a (Some (e :: q)) p) asg str (Fetching s :: l) ->
  local_ok (mkLocal true d a (Some q) p) asg (str ++ [e]) (Writing s e :: l).
Proof.
  intros [H1 H2 H3 H4 H5 H6 H7 H8 H9]. csimpl in *.
  pose proof (connects_senders l). assert (connects l = 0) as Hc by lia.
  split; csimpl; auto; try done.
  - intros t k [|Hin]%elem_of_cons; [done|]. by destruct (connects_0 t k _ Hc).
  - intros x Hx. destruct (H4 x Hx) as (t & [|Ht]%elem_of_cons); [done|].
    exists t. by right.
  - intros _. rewrite (H9 eq_refl), (no_connects_no_waiting _ Hc). simpl.
    by rewrite <- (assoc_L (++)).
Qed.

(** The sender stops. *)
Lemma local_idle a p asg str l s :
  local_ok (mkLocal true false a (Some []) p) asg str (Fetching s :: l) ->
  local_ok (mkLocal true false a None p) asg str l.
Proof.
  intros [H1 H2 H3 H4 H5 H6 H7 H8 H9]. csimpl in *.
  pose proof (connects_senders l). assert (connects l = 0) as Hc by lia.
  split; csimpl; auto; try done; try lia.
  - intros t k Hin. by destruct (connects_0 t k _ Hc).
  - intros x Hx. destruct (H4 x Hx) as (t & [|Ht]%elem_of_cons); [done|]. by exists t.
Qed.

Lemma next_step w s rest :
  inv w -> activities w ≡ₚ Fetching s :: rest ->
  exists w', after w rest [] (bind (next s (manager w)) (fun '(sm1, e, es) =>
    Returns (sm1, es ++ match e with Some e => [Send e s] | None => [] end)))
    = Returns w' /\ inv w'.
Proof.
  intros Hi Hp. pose proof (local_held _ _ _ Hi Hp) as Hl. simpl in Hl.
  pose proof Hi as [Hm _].
  unfold next. destruct (decide (s ∈ sockets (manager w))) as [Hs|Hs].
  - pose proof (l_queued _ _ _ _ Hl (bool_decide_eq_true_2 _ Hs)) as Hq. simpl in Hq.
    destruct (outgoing (manager w) !! s) as [[|e q]|] eqn:Ho; [| |lia].
    + destruct (next_dispose_spec (manager w) s Hm Hs) as (sm' & es & -> & Hes & Hm' & Hu).
      cbn [bind]. rewrite app_nil_r, quiet_after by done. eexists; split; [done|].
      apply (inv_step1 w sm' s _ [Fetching s] [] rest _ _ Hi Hp Hm' Hu); auto.
      simpl. intros Hl'. destruct (decide (s ∈ dispose (manager w))) as [Hd|Hd].
      * by eapply local_close.
      * eapply (local_idle _ _ _ _ _ s). unfold mview in Hl'.
        by rewrite Ho, bool_decide_eq_true_2, bool_decide_eq_false_2 in Hl' by done.
    + simpl. eexists; split; [reflexivity|]. simpl.
      apply (inv_step1 w _ s _ [Fetching s] [Writing s e] rest _ _ Hi Hp
        (with_outgoing_ok _ _ Hm) (given_view w s _ q Hs (fun t _ => iff_refl _))); auto.
      * intros t Ht. by rewrite log_ne.
      * simpl. rewrite log_eq. intros Hl'. apply (local_next _ _ e). unfold mview in Hl'.
        by rewrite Ho, bool_decide_eq_true_2 in Hl' by done.
  - simpl. eexists; split; [reflexivity|]. simpl.
    apply (inv_step1 w _ s nowhere [Fetching s] [] rest); auto.
    + split; [|done]. apply inv_absent; [done|]. by apply bool_decide_eq_false.
    + intros Hl'. by eapply local_close.
Qed.

(** An activity becomes another one that counts as a sender of the same socket. *)
Lemma sent_step w s e rest :
  inv w -> activities w ≡ₚ Writing s e :: rest ->
  inv (mkWorld (manager w) (Fetching s :: rest) (assigned w) (started w)).
Proof.
  intros Hi Hp.
  apply (inv_step1 w (manager w) s _ [Writing s e] [Fetching s] rest _ _ Hi Hp
    (proj1 Hi) (conj eq_refl (fun _ _ => eq_refl))); auto.
  intros [H1 H2 H3 H4 H5 H6 H7 H8 H9]. csimpl in *. split; csimpl; auto.
  - intros t k [|Hin]%elem_of_cons; [done|]. eapply H2. by right.
  - intros x Hx. destruct (H4 x Hx) as (t & [|Ht]%elem_of_cons); [done|].
    exists t. by right.
Qed.

(** A connected socket: the activities that follow the connect. *)
Lemma local_connected v asg str l s k x :
  local_ok v asg str (Connecting s k :: l) ->
  present v = true -> is_sender x = 1 -> is_connecting x = 0 -> carried x = None ->
  is_inbound x = 0 -> is_receiver x = 0 ->
  local_ok v asg (str ++ waiting [Connecting s k]) (x :: Ignoring s :: l).
Proof.
  intros [H1 H2 H3 H4 H5 H6 H7 H8 H9] Hv Hx Hx2 Hx3 Hx4 Hx5.
  pose proof (connects_senders l). simpl in H1.
  assert (connects l = 0) as Hc by lia. csimpl in *.
  split; csimpl; rewrite ?Hx, ?Hx2, ?Hx3, ?Hx4, ?Hx5; auto; try lia.
  - intros t k' [Heq|[Heq|Hin]%elem_of_cons]%elem_of_cons; [by subst x|done|].
    by destruct (connects_0 t k' _ Hc).
  - intros p Hpr. destruct (H4 p Hpr) as (t & [|Ht]%elem_of_cons); [done|].
    exists t. by do 2 right.
  - intros _. rewrite (H9 Hv), (no_connects_no_waiting _ Hc). destruct (carried _); simpl;
      rewrite <- ?(assoc_L (++)); done.
Qed.

Lemma link_connected_step w s to rest :
  inv w -> activities w ≡ₚ Connecting s (LinkTo to) :: rest ->
  exists w', (let '(continues, es) := link_connected s (manager w) in
    after w ((if continues then [Fetching s] else []) ++ rest) []
      (Returns (manager w, es))) = Returns w' /\ inv w'.
Proof.
  intros Hi Hp. unfold link_connected.
  destruct (decide (s ∉ sockets (manager w))) as [Hs|Hs%dec_stable].
  - eexists; split; [reflexivity|]. simpl.
    apply (inv_step1 w _ s nowhere [Connecting s (LinkTo to)] [] rest); auto; [apply Hi| |].
    + split; [|done]. apply inv_absent; [done|]. by apply bool_decide_eq_false.
    + intros Hl. by eapply local_close.
  - eexists; split; [reflexivity|]. simpl.
    apply (inv_step1 w _ s _ [Connecting s (LinkTo to)] [Ignoring s; Fetching s] rest _ _
      Hi Hp (proj1 Hi) (conj eq_refl (fun _ _ => eq_refl))); auto.
    simpl. intros Hl. rewrite (Permutation_swap (Fetching s)).
    rewrite <- (app_nil_r (logged (started w) s)).
    apply (local_connected _ _ _ _ _ (LinkTo to) (Fetching s)); auto.
    by apply bool_decide_eq_true.
Qed.

Lemma send_connected_step w s a m rest :
  inv w -> activities w ≡ₚ Connecting s (SendTo a m) :: rest ->
  exists w', after w rest [] (Returns (manager w, send_connected s m)) = Returns w' /\ inv w'.
Proof.
  intros Hi Hp. eexists; split; [reflexivity|]. simpl.
  pose proof (local_held _ _ _ Hi Hp) as Hl. simpl in Hl.
  destruct (l_connecting _ _ _ _ Hl s _ ltac:(by left)) as (_ & _ & Hs & _).
  apply (inv_step1 w _ s _ [Connecting s (SendTo a m)] [Ignoring s; Writing s m] rest _ _
    Hi Hp (proj1 Hi) (conj eq_refl (fun _ _ => eq_refl))); auto.
  - intros t Ht. by rewrite log_ne.
  - intros _. simpl. rewrite (Permutation_swap (Writing s m)), log_eq.
    apply (local_connected _ _ _ _ _ (SendTo a m) (Writing s m)); auto.
Qed.

(** ** Inbound sockets and proxies *)

Lemma accept_step w s :
  inv w -> fresh w s = true ->
  exists w', bind (accepted s (manager w)) (fun sm1 =>
    Returns (mkWorld sm1 (Serving s :: activities w) (<[s := []]> (assigned w))
               (<[s := []]> (started w)))) = Returns w' /\ inv w'.
Proof.
  intros Hi Hf. destruct (fresh_spec w s Hi Hf) as [Hv Hnone].
  destruct (nowhere_fields _ _ Hv) as (Hs & Hd & Ha & Ho & Hx).
  unfold accepted. rewrite bool_decide_eq_true_2 by done. simpl.
  eexists; split; [reflexivity|].
  apply (inv_step1 w _ s (mkLocal true false None None None) [] [Serving s]); auto.
  - destruct Hi as [[] _]. by split.
  - split.
    + apply mview_inj. simpl. set_solver.
    + intros t Ht. apply mview_same; simpl; set_solver.
  - intros t Ht. by rewrite !logged_ne.
  - intros _. rewrite !logged_eq, Hnone. simpl.
    split; csimpl; try done; try lia. by intros t k Heq%list_elem_of_singleton.
Qed.

Lemma inbound_unaddressed w s x :
  inv w -> x ∈ activities w -> socket_of x = s -> is_inbound x = 1 ->
  addresses (manager w) !! s = None.
Proof.
  intros Hi Hin Hs Hx. apply (l_inbound _ _ _ _ (inv_local w s Hi)).
  assert (x ∈ on s (activities w)) as Ho by (by apply list_elem_of_filter).
  clear -Ho Hx. induction (on s (activities w)) as [|y l IH]; [by apply not_elem_of_nil in Ho|].
  apply elem_of_cons in Ho as [<-|Ho]; simpl; [lia|]. apply IH in Ho. lia.
Qed.

Lemma proxied_unaddressed w s :
  inv w -> proxied w s = true -> addresses (manager w) !! s = None.
Proof.
  intros Hi (x & Hin & Hx)%existsb_exists. apply list_elem_of_In in Hin.
  destruct x; try done. apply Nat.eqb_eq in Hx as <-. by eapply inbound_unaddressed.
Qed.

Lemma served_unaddressed w s :
  inv w -> served w s = true -> addresses (manager w) !! s = None.
Proof.
  intros Hi (x & Hin & Hx)%existsb_exists. apply list_elem_of_In in Hin.
  destruct x; try done. apply Nat.eqb_eq in Hx as <-. by eapply inbound_unaddressed.
Qed.

Lemma proxy_step w s p :
  inv w -> served w s = true ->
  exists w', (let '(sm1, _, es) := proxy s p (manager w) in
    after w (activities w) [] (Returns (sm1, es))) = Returns w' /\ inv w'.
Proof.
  intros Hi Hserved. pose proof (served_unaddressed w s Hi Hserved) as Ha. unfold proxy.
  destruct (decide (s ∈ sockets (manager w))) as [Hs|Hs].
  - destruct (proxies (manager w) !! s) as [q|] eqn:Hq.
    + eexists; split; [reflexivity|]. exact (inv_same w Hi).
    + eexists; split; [reflexivity|]. simpl.
      apply (inv_step1 w _ s (mkLocal true (bool_decide (s ∈ dispose (manager w))) None
        (outgoing (manager w) !! s) (Some p)) [] [Proxying s p] (activities w)); auto.
      * destruct Hi as [[] _]. by split.
      * split.
        -- apply mview_inj. simpl. rewrite lookup_insert_eq, bool_decide_eq_true. set_solver.
        -- intros t Ht. apply mview_same; simpl; rewrite ?lookup_insert_ne by done; set_solver.
      * unfold mview. rewrite Ha, Hq, bool_decide_eq_true_2 by done. simpl.
        intros [H1 H2 H3 H4 H5 H6 H7 H8 H9]. csimpl in *. split; csimpl; auto; try done.
        -- intros t k [|Hin]%elem_of_cons; [done|]. eauto.
        -- intros x Hx. simplify_eq. exists s. by left.
  - eexists; split; [reflexivity|]. exact (inv_same w Hi).
Qed.

Lemma unproxy_step w s p rest :
  inv w -> activities w ≡ₚ Proxying s p :: rest ->
  inv (mkWorld (unproxy s (manager w)) rest (assigned w) (started w)).
Proof.
  intros Hi Hp.
  apply (inv_step1 w _ s (mkLocal (bool_decide (s ∈ sockets (manager w)))
    (bool_decide (s ∈ dispose (manager w))) (addresses (manager w) !! s)
    (outgoing (manager w) !! s) None) [Proxying s p] [] rest); auto.
  - destruct Hi as [[] _]. by split.
  - split.
    + apply mview_inj. simpl. by rewrite lookup_delete_eq, !bool_decide_eq_true.
    + intros t Ht. apply mview_same; simpl; rewrite ?lookup_delete_ne by done; set_solver.
  - intros [H1 H2 H3 H4 H5 H6 H7 H8 H9]. csimpl in *.
    split; csimpl; auto; try done.
    + intros t k Hin. apply (H2 t k). by right.
    + intros Hpr. specialize (H5 Hpr). unfold mview in H5. unfold nowhere in *. congruence.
Qed.

Lemma exited_process_step w process id :
  inv w ->
  exists w', after w (activities w) []
    (bind (exited_process self process (self, id) (link_maps (manager w)))
      (fun '(l, ds) => Returns (with_links l (manager w), map Deliver ds)))
    = Returns w' /\ inv w'.
Proof.
  intros Hi. pose proof Hi as [Hm _].
  destruct (exited_process_spec self process (self, id) _ (m_links _ _ Hm) eq_refl)
    as (l' & ds & -> & Hwf & _ & _ & Hr).
  cbn [bind]. rewrite quiet_after by apply quiet_deliver. eexists; split; [done|].
  apply inv_with_links; [done|]. destruct Hm as [Hl Hw Ha Hp Ht]. split; simpl; auto.
  intros u p (Hu & _)%Hr. eauto.
Qed.

(** Every activity goes on without failing a [CHECK], whatever happened to it. *)
Lemma advance_step w a rest o :
  inv w -> activities w ≡ₚ a :: rest ->
  match o with Fails _ created => fresh_created w created | Succeeds => true end = true ->
  exists w', advance a rest o w = Returns w' /\ inv w'.
Proof.
  intros Hi Hp Ho. destruct a as [s [to|b m]|s|s|s e|s|s p], o as [|downgrade created]; simpl.
  - by eapply link_connected_step.
  - by apply link_connect_failed_step.
  - by eapply send_connected_step.
  - by apply send_connect_failed_step.
  - eauto.
  - by apply (close_step w (Ignoring s)).
  - eauto.
  - by apply (close_step w (Serving s)).
  - eexists; split; [reflexivity|]. by eapply sent_step.
  - by apply (close_step w (Writing s e)).
  - by apply next_step.
  - by apply next_step.
  - eexists; split; [reflexivity|]. by eapply unproxy_step.
  - eexists; split; [reflexivity|]. by eapply unproxy_step.
Qed.

Lemma perform_step r w c :
  inv w -> perform self r w = Some c -> exists w', c = Returns w' /\ inv w'.
Proof.
  intros Hi Hr. assert (Hgo : forall d, (exists w', d = Returns w' /\ inv w') ->
    Some d = Some c -> exists w', c = Returns w' /\ inv w') by (by intros; simplify_eq).
  destruct r as [s|process to reconnect created|a m created|e keep conn s|e persist s
                |s p|process id|i o]; simpl in Hr.
  - destruct (fresh w s) eqn:Hf; [|done]. eapply Hgo, Hr. by apply accept_step.
  - destruct (fresh_created w created) eqn:Hf; [|done]. eapply Hgo, Hr.
    by apply link_remote_step.
  - destruct (fresh_created w created) eqn:Hf; [|done]. eapply Hgo, Hr.
    by apply send_message_step.
  - destruct (proxied w s) eqn:Hf; [|done]. eapply Hgo, Hr.
    apply send_encoder_step; [done|]. by apply proxied_unaddressed.
  - destruct (proxied w s) eqn:Hf; [|done]. eapply Hgo, Hr.
    apply send_encoder_step; [done|]. by apply proxied_unaddressed.
  - destruct (served w s) eqn:Hf; [|done]. eapply Hgo, Hr. by apply proxy_step.
  - eapply Hgo, Hr. by apply exited_process_step.
  - destruct (activities w !! i) as [a|] eqn:Ha; [|done].
    destruct (match o with Fails _ created => _ | _ => _ end) eqn:Ho; [|done].
    eapply Hgo, Hr. apply advance_step; [done| |by destruct o].
    by apply delete_Permutation.
Qed.

Lemma sockets_inv_init : inv world_init.
Proof.
  split.
  - split; simpl; try done; [apply wf_init|]. intros u p. by rewrite related_default.
  - intros s. split; simpl; try done; try lia. intros t k Hin.
    by apply not_elem_of_nil in Hin.
Qed.

Lemma sockets_inv w : reachable self w -> inv w.
Proof.
  induction 1 as [|r w w' _ IH Hr]; [apply sockets_inv_init|].
  destruct (perform_step r w _ IH Hr) as (w1 & ? & ?). by simplify_eq.
Qed.
End Steps.
