(* ===== verification/SocketsSpec.v ===== *)
(** What the socket manager guarantees, in every world its clients, the network and
    the operating system can lead it to. *)

From S2P Require Import Prelude Links Sockets SocketsInv SocketsSteps.

Section Spec.
Context (self : nat).

Lemma present_true sm s : s ∈ sockets sm -> present (mview sm s) = true.
Proof. intros. by apply bool_decide_eq_true. Qed.

Lemma disposed_true sm s : s ∈ dispose sm -> disposed (mview sm s) = true.
Proof. intros. by apply bool_decide_eq_true. Qed.

(** Whatever the manager keeps about a descriptor is about a socket it knows. *)
Lemma known w s :
  inv self w ->
  s ∈ dispose (manager w) \/ is_Some (addresses (manager w) !! s) \/
  is_Some (outgoing (manager w) !! s) \/ is_Some (proxies (manager w) !! s) ->
  s ∈ sockets (manager w).
Proof.
  intros Hi Hs. destruct (decide (s ∈ sockets (manager w))) as [|Hn]; [done|].
  apply (bool_decide_eq_false_2 _), (inv_absent self w s Hi), nowhere_fields in Hn.
  destruct Hn as (_ & Hd & Ha & Ho & Hp). rewrite Ha, Ho, Hp in Hs.
  destruct Hs as [?|[[]|[[]|[]]]]; done.
Qed.

(** Closing the socket of a persistent link tells the linkers of its address. *)
Lemma close_tells sm a s :
  maps_ok self sm -> s ∈ sockets sm -> persists sm !! a = Some s ->
  exists sm' es, close s sm = Returns (sm', es) /\
    forall p u, Deliver (p, u) ∈ es <->
      address u = a /\ a <> self /\ related (linkers (link_maps sm)) u p.
Proof.
  intros Hm Hs Hp. destruct (m_persists _ _ Hm _ _ Hp) as [Ha _].
  unfold close, close_address. rewrite decide_True by done. rewrite Ha, decide_True by done.
  destruct (exited_address_spec self a _ (m_links _ _ Hm)) as (l' & ds & -> & _ & _ & Hds & _).
  simpl. do 2 eexists. split; [done|]. intros p u. rewrite <- Hds, elem_of_app. split.
  - intros [(d & Hd & Hin)%list_elem_of_fmap|[|Hin]%elem_of_cons]; simplify_eq; [done|].
    by destruct (proxies sm !! s); simpl in Hin; [apply list_elem_of_singleton in Hin
                                                 |apply not_elem_of_nil in Hin].
  - intros Hin. left. apply list_elem_of_fmap. eauto.
Qed.

Lemma updates_sockets sm sm' s :
  updates sm sm' s nowhere -> sockets sm' = sockets sm ∖ {[s]}.
Proof.
  intros [Hs Ho]. apply set_eq. intros t. rewrite elem_of_difference, elem_of_singleton.
  destruct (decide (t = s)) as [->|Ht].
  - apply nowhere_fields in Hs as [? _]. naive_solver.
  - pose proof (f_equal present (Ho t Ht)) as Hp. simpl in Hp.
    rewrite <- (bool_decide_eq_true (t ∈ sockets sm')), Hp, bool_decide_eq_true. naive_solver.
Qed.

Lemma finalize_loop_spec fuel sm :
  maps_ok self sm -> (forall s, present (mview sm s) = false -> mview sm s = nowhere) ->
  size (sockets sm) <= fuel ->
  exists sm' es, finalize_loop fuel sm = Returns (sm', es) /\ maps_ok self sm' /\
    forall s, mview sm' s = nowhere.
Proof.
  revert sm. induction fuel as [|fuel IH]; intros sm Hm Hab Hsize; simpl.
  - exists sm, []. split_and!; auto. intros s. apply Hab, bool_decide_eq_false.
    assert (sockets sm ≡ ∅) by (apply size_empty_iff; lia). set_solver.
  - destruct (elements (sockets sm)) as [|s l] eqn:He.
    + exists sm, []. split_and!; auto. intros s. apply Hab, bool_decide_eq_false.
      apply elements_empty_inv in He. set_solver.
    + destruct (close_spec self sm s Hm (Hab s)) as (sm1 & es & -> & _ & Hm1 & Hu). simpl.
      pose proof (updates_sockets sm sm1 s Hu) as Hs1.
      destruct (IH sm1) as (sm2 & es' & -> & Hm2 & Hv); simpl; eauto.
      * intros t Ht. destruct (decide (t = s)) as [->|Hne]; [apply Hu|].
        destruct Hu as [_ Hu]. rewrite Hu by done. apply Hab. by rewrite <- Hu.
      * assert (s ∈ sockets sm).
        { apply elem_of_elements. rewrite He. by left. }
        rewrite Hs1, size_difference, size_singleton by set_solver. lia.
Qed.

(** ** Properties *)

(** C7: no [CHECK] of the socket manager fails: whatever sequence of accepts, links,
    reconnects, sends, exits, connection results, TLS downgrades, read and write
    errors led here, every enabled request and every completion of a pending
    operation returns. *)
Theorem sockets_no_check_fails r w c :
  reachable self w -> perform self r w = Some c -> exists w', c = Returns w'.
Proof.
  intros Hw Hr. destruct (perform_step self r w c) as (w' & ? & _); eauto using sockets_inv.
Qed.

(** C8: at most one activity ever writes to a descriptor, also after the manager has
    forgotten it; a socket the manager knows has an outgoing queue exactly while
    there is such an activity, so no queued message is left without a sender; and a
    socket marked for disposal has one. *)
Theorem one_sender_per_socket w s :
  reachable self w ->
  let writers := sum_list_by is_sender (on s (activities w)) in
  writers <= 1 /\
  (s ∈ sockets (manager w) -> is_Some (outgoing (manager w) !! s) <-> writers = 1) /\
  (is_Some (outgoing (manager w) !! s) -> s ∈ sockets (manager w)) /\
  (s ∈ dispose (manager w) -> s ∈ sockets (manager w) /\ writers = 1).
Proof.
  intros Hw%sockets_inv writers. pose proof (inv_local self w s Hw) as [H1 _ _ _ _ H6 H7 _ _].
  assert (Hq : s ∈ sockets (manager w) ->
    is_Some (outgoing (manager w) !! s) <-> writers = 1).
  { intros Hs. specialize (H6 (present_true _ _ Hs)). simpl in H6. unfold writers.
    rewrite H6. destruct (outgoing (manager w) !! s); split; intros; try done; eauto. }
  split_and!; auto.
  - intros Ho. apply (known w s Hw). auto.
  - intros Hd. assert (s ∈ sockets (manager w)) as Hs by (apply (known w s Hw); auto).
    split; [done|]. apply Hq; [done|]. specialize (H7 (disposed_true _ _ Hd)). simpl in H7.
    by destruct (outgoing (manager w) !! s).
Qed.

(** C13: messages and responses given to a socket go out in the order in which they
    were given: what was assigned to it is what was started on it, followed by the
    message that waits for the connect and the outgoing queue, nothing skipped and
    nothing twice; when a socket replaces another one (reconnect, downgrade) it takes
    over exactly what was not started. *)
Theorem messages_go_out_in_order w s :
  reachable self w -> s ∈ sockets (manager w) ->
  logged (assigned w) s = logged (started w) s ++ undelivered w s /\
  undelivered w s
  = omap carried (on s (activities w)) ++ default [] (outgoing (manager w) !! s).
Proof.
  intros Hw%sockets_inv Hs. pose proof (undelivered_spec self w s Hw Hs) as Hu.
  split; [|done]. pose proof (inv_local self w s Hw) as Hl.
  by rewrite Hu, (l_fifo _ _ _ _ Hl (present_true _ _ Hs)).
Qed.

(** No remote link is forgotten: while a process is linked to a remote pid there
    is a persistent socket to its address, some pending connect or receive watches
    that socket, and when that ends and closes the socket the process is told that
    the pid exited. *)
Theorem remote_links_are_watched w u p :
  reachable self w -> related (linkers (link_maps (manager w))) u p -> address u <> self ->
  exists s, persists (manager w) !! address u = Some s /\ s ∈ sockets (manager w) /\
    0 < sum_list_by is_connecting (on s (activities w))
        + sum_list_by is_receiver (on s (activities w)) /\
    exists sm' es, close s (manager w) = Returns (sm', es) /\ Deliver (p, u) ∈ es.
Proof.
  intros Hw%sockets_inv Hr Hu. pose proof Hw as [Hm _].
  destruct (m_watched _ _ Hm u p Hr Hu) as [s Hs]. exists s. split; [done|].
  destruct (m_persists _ _ Hm _ _ Hs) as [Ha _].
  assert (s ∈ sockets (manager w)) as Hin by (apply (known w s Hw); eauto).
  split_and!; [done| |].
  - apply (l_watched _ _ _ _ (inv_local self w s Hw)). by apply present_true.
  - destruct (close_tells _ _ _ Hm Hin Hs) as (sm' & es & Hc & Hd). exists sm', es.
    split; [done|]. by apply Hd.
Qed.

(** The pointers to HTTP proxies do not dangle: a proxy the manager still refers
    to has not finished, and belongs to a socket that is open and inbound. *)
Theorem proxies_are_alive w s p :
  reachable self w -> proxies (manager w) !! s = Some p ->
  Proxying s p ∈ activities w /\ s ∈ sockets (manager w) /\
  addresses (manager w) !! s = None.
Proof.
  intros Hw%sockets_inv Hp. pose proof (inv_local self w s Hw) as Hl.
  destruct (l_proxied _ _ _ _ Hl p Hp) as [t [Ht Hin]%list_elem_of_filter]. simpl in Ht.
  subst t. split_and!; [done|apply (known w s Hw); eauto|].
  by eapply (inbound_unaddressed self w s (Proxying s p)).
Qed.

(** Once the server socket is closed, [finalize] ends and leaves nothing behind: no socket, no queue, no address, no
    proxy and no link to a remote process. *)
Theorem finalize_closes_everything w :
  reachable self w ->
  exists sm' es, finalize false (manager w) = Returns (sm', es) /\
    sockets sm' = ∅ /\ dispose sm' = ∅ /\ addresses sm' = ∅ /\ temps sm' = ∅ /\
    persists sm' = ∅ /\ outgoing sm' = ∅ /\ proxies sm' = ∅ /\
    forall u p, related (linkers (link_maps sm')) u p -> address u = self.
Proof.
  intros Hw%sockets_inv. pose proof Hw as [Hm _].
  destruct (finalize_loop_spec (size (sockets (manager w))) (manager w))
    as (sm' & es & Hf & Hm' & Hv); auto.
  { intros s. by apply (inv_absent self). }
  exists sm', es. split; [done|].
  assert (Hn : forall s, s ∉ sockets sm' /\ s ∉ dispose sm' /\ addresses sm' !! s = None /\
    outgoing sm' !! s = None /\ proxies sm' !! s = None) by (intros s; by apply nowhere_fields).
  assert (persists sm' = ∅) as Hp.
  { apply map_empty. intros a. destruct (persists sm' !! a) as [s|] eqn:E; [|done].
    apply (m_persists _ _ Hm') in E as [E _]. destruct (Hn s) as (_ & _ & ? & _). congruence. }
  split_and!; try (apply map_empty; intros s; apply Hn); try done.
  - apply set_eq. set_solver.
  - apply set_eq. set_solver.
  - apply map_empty. intros a. destruct (temps sm' !! a) as [s|] eqn:E; [|done].
    apply (m_temps _ _ Hm') in E as [E _]. destruct (Hn s) as (_ & _ & ? & _). congruence.
  - intros u p Hr. destruct (decide (address u = self)) as [|Hu]; [done|].
    destruct (m_watched _ _ Hm' u p Hr Hu) as [s Hs]. by rewrite Hp in Hs.
Qed.
End Spec.

(** ** A busy manager

    A response is being written on the inbound socket 5 and another one is queued,
    process 7 links to the pid 3 at address 9 over socket 6, which is being connected
    and has a message queued, and a message to address 8 waits for socket 10. *)
Definition busy_script : list request :=
  [Accept 5; Proxy 5 100; SendResponse 1 true None 5; SendEncoder 2 true 5;
   LinkRemote 7 (9, 3) false (Some 6); SendMessage 9 11 None; SendMessage 8 12 (Some 10)].

Definition busy : world := default world_init (run_requests 0 busy_script world_init).

Lemma busy_reachable : reachable 0 busy.
Proof.
  apply (run_requests_reachable 0 busy_script world_init busy).
  - constructor.
  - vm_compute. reflexivity.
Qed.

Lemma sockets_no_check_fails_witness :
  exists w', perform 0 (Advance 0 (Fails true (Some 12))) busy = Some (Returns w').
Proof.
  destruct (perform 0 (Advance 0 (Fails true (Some 12))) busy) as [c|] eqn:E.
  - destruct (sockets_no_check_fails 0 _ _ c busy_reachable E) as [w' ->].
    exists w'. reflexivity.
  - vm_compute in E. discriminate E.
Defined.

Lemma one_sender_per_socket_witness :
  is_Some (outgoing (manager busy) !! 5) /\
  sum_list_by is_sender (on 5 (activities busy)) = 1.
Proof.
  assert (H : is_Some (outgoing (manager busy) !! 5)) by (vm_compute; eauto).
  split; [exact H|].
  destruct (one_sender_per_socket 0 busy 5 busy_reachable) as (_ & H1 & H2 & _).
  apply H1; [apply H2; exact H|exact H].
Defined.

Lemma messages_go_out_in_order_witness :
  logged (assigned busy) 5 = [1; 2] /\ logged (started busy) 5 = [1] /\
  undelivered busy 5 = [2].
Proof.
  assert (H : 5 ∈ sockets (manager busy))
    by (apply (bool_decide_unpack _); vm_compute; exact I).
  destruct (messages_go_out_in_order 0 busy 5 busy_reachable H) as [_ Hu].
  split; [|split]; [vm_compute; reflexivity..|]. rewrite Hu. vm_compute. reflexivity.
Defined.

Lemma remote_links_are_watched_witness :
  exists s, persists (manager busy) !! 9 = Some s /\ s ∈ sockets (manager busy).
Proof.
  destruct (remote_links_are_watched 0 busy (9, 3) 7 busy_reachable) as (s & Hs & Hi & _).
  - apply related_default. apply (bool_decide_unpack _). vm_compute. exact I.
  - vm_compute. discriminate.
  - exists s. split; [exact Hs|exact Hi].
Defined.

Lemma proxies_are_alive_witness : Proxying 5 100 ∈ activities busy.
Proof.
  apply (proxies_are_alive 0 busy 5 100 busy_reachable). vm_compute. reflexivity.
Defined.

Lemma finalize_closes_everything_witness :
  exists sm' es, finalize false (manager busy) = Returns (sm', es) /\ sockets sm' = ∅.
Proof.
  destruct (finalize_closes_everything 0 busy busy_reachable) as (sm' & es & Hf & Hs & _).
  exists sm', es. split; [exact Hf|exact Hs].
Defined.
