(* ===== verification/Mpsc.v ===== *)
(** The lock-free queue of [mpsc_linked_queue.hpp]: any number of producers, one
    consumer, one access of shared memory per step (sequentially consistent).

    Nodes live in a heap from which [dequeue] deletes them; an access to a node
    that is not there is reported as an abort. *)

From S2P Require Import Prelude.

(** [Node]; [None] stands for [nullptr]. *)
Record Node := mkNode { element : option nat; next : option nat }.

(** [MpscLinkedQueue]; the last two fields are history: the elements in the order
    of the exchanges of [head], and the elements dequeued. *)
Record MpscLinkedQueue := mkQueue {
  nodes : gmap nat Node;
  head : nat;
  tail : nat;
  exchanged : list nat;
  dequeued : list nat;
}.

Definition MpscLinkedQueue_init : MpscLinkedQueue :=
  mkQueue {[ 0 := mkNode None None ]} 0 0 [] [].

Definition nxt (q : MpscLinkedQueue) (a : nat) : option nat := nodes q !! a ≫= next.

(** Follow a pointer. *)
Definition deref {A} (q : MpscLinkedQueue) (a : nat) (k : Node -> checked A)
    : checked A :=
  match nodes q !! a with Some nd => k nd | None => Abort "use after delete" end.

Definition store_next (a : nat) (nd : Node) (b : option nat) (q : MpscLinkedQueue)
    : MpscLinkedQueue :=
  mkQueue (<[a := mkNode (element nd) b]> (nodes q)) (head q) (tail q) (exchanged q)
    (dequeued q).

(** [enqueue]: allocate a node and exchange [head], then link the old head. *)
Inductive producer := PEnqueue (e : nat) | PLink (oldhead newNode : nat) | PDone.

Definition enqueue (pc : producer) (q : MpscLinkedQueue)
    : checked (MpscLinkedQueue * producer) :=
  match pc with
  | PEnqueue e =>
      let n := fresh (dom (nodes q)) in
      Returns (mkQueue (<[n := mkNode (Some e) None]> (nodes q)) n (tail q)
                 (exchanged q ++ [e]) (dequeued q), PLink (head q) n)
  | PLink a n => deref q a (fun nd => Returns (store_next a nd (Some n) q, PDone))
  | PDone => Returns (q, PDone)
  end.

(** [dequeue] and [empty]; the consumer is done at [CReturn] and [EReturn]. *)
Inductive consumer :=
| CNext (currentTail : nat) | CHead (currentTail : nat) | CSpin (currentTail : nat)
| CUnlink (currentTail nextTail : nat) | CTake (currentTail nextTail : nat)
| CReturn (element : option nat)
| ENext | EHead | EReturn (b : bool).

Definition dequeue (pc : consumer) (q : MpscLinkedQueue)
    : checked (MpscLinkedQueue * consumer) :=
  match pc with
  | CNext t =>
      deref q t (fun nd =>
        Returns (q, match next nd with Some n => CUnlink t n | None => CHead t end))
  | CHead t => Returns (q, if decide (head q = tail q) then CReturn None else CSpin t)
  | CSpin t =>
      deref q t (fun nd =>
        Returns (q, match next nd with Some n => CUnlink t n | None => CSpin t end))
  | CUnlink t n => deref q t (fun nd => Returns (store_next t nd None q, CTake t n))
  | CTake t n =>
      deref q n (fun nd =>
        Returns (mkQueue (delete t (<[n := mkNode None (next nd)]> (nodes q)))
                   (head q) n (exchanged q)
                   (dequeued q ++ match element nd with Some e => [e] | None => [] end),
                 CReturn (element nd)))
  | _ => Returns (q, pc)
  end.

Definition empty_step (pc : consumer) (q : MpscLinkedQueue)
    : checked (MpscLinkedQueue * consumer) :=
  match pc with
  | ENext =>
      deref q (tail q) (fun nd =>
        Returns (q, match next nd with Some _ => EReturn false | None => EHead end))
  | EHead => Returns (q, EReturn (bool_decide (head q = tail q)))
  | _ => Returns (q, pc)
  end.

Definition consume (pc : consumer) (q : MpscLinkedQueue)
    : checked (MpscLinkedQueue * consumer) :=
  match pc with
  | ENext | EHead => empty_step pc q
  | _ => dequeue pc q
  end.

(** ** Executions: producers come and go, the consumer calls at will. *)
Definition config : Type := MpscLinkedQueue * list producer * consumer.

Inductive mpsc : config -> config -> Prop :=
| mpsc_new q ps c e : mpsc (q, ps, c) (q, ps ++ [PEnqueue e], c)
| mpsc_produce q ps c i pc q' pc' :
    ps !! i = Some pc -> enqueue pc q = Returns (q', pc') ->
    mpsc (q, ps, c) (q', <[i := pc']> ps, c)
| mpsc_consume q ps c q' c' :
    consume c q = Returns (q', c') -> mpsc (q, ps, c) (q', ps, c')
| mpsc_dequeue q ps r : mpsc (q, ps, CReturn r) (q, ps, CNext (tail q))
| mpsc_empty q ps r : mpsc (q, ps, CReturn r) (q, ps, ENext)
| mpsc_dequeue' q ps b : mpsc (q, ps, EReturn b) (q, ps, CNext (tail q))
| mpsc_empty' q ps b : mpsc (q, ps, EReturn b) (q, ps, ENext).

Definition start : config := (MpscLinkedQueue_init, [], EReturn true).

(** ** The chain of nodes from [tail] to [head] *)

Definition adj (a b : nat) (l : list nat) : Prop :=
  exists l1 l2, l = l1 ++ a :: b :: l2.

Lemma adj_cons a b x l : adj a b l -> adj a b (x :: l).
Proof. intros (l1 & l2 & ->). by exists (x :: l1), l2. Qed.

Lemma adj_inv a b x l : adj a b (x :: l) ->
  (a = x /\ exists l', l = b :: l') \/ adj a b l.
Proof.
  intros ([|y l1] & l2 & He); simplify_eq/=; [left; eauto|]. right. by exists l1, l2.
Qed.

Lemma adj_elem a b l : adj a b l -> a ∈ l /\ b ∈ l.
Proof. intros (l1 & l2 & ->). set_solver. Qed.

Lemma adj_functional a b b' l : NoDup l -> adj a b l -> adj a b' l -> b = b'.
Proof.
  induction l as [|x l IH]; intros Hn Ha Hb.
  { by destruct Ha as ([] & ? & ?). }
  apply NoDup_cons in Hn as [Hx Hn].
  apply adj_inv in Ha as [[-> [l' ->]]|Ha]; apply adj_inv in Hb as [[? [l'' ?]]|Hb];
    simplify_eq; auto.
  - by destruct Hx; apply adj_elem in Hb as [? _].
  - by destruct Hx; apply adj_elem in Ha as [? _].
Qed.

Lemma adj_snoc a b l n : adj a b (l ++ [n]) -> adj a b l \/ (b = n /\ last l = Some a).
Proof.
  intros (l1 & l2 & He). destruct (decide (l2 = [])) as [->|Hne].
  - right. assert (He' : l ++ [n] = (l1 ++ [a]) ++ [b]) by (by rewrite He, <- app_assoc).
    apply app_inj_tail in He' as [-> ->]. by rewrite last_snoc.
  - left. destruct (exists_last Hne) as (l3 & x & ->). exists l1, l3.
    change (a :: b :: l3 ++ [x]) with ((a :: b :: l3) ++ [x]) in He.
    rewrite app_assoc in He. by apply app_inj_tail in He as [-> _].
Qed.

Lemma adj_extend l a n : last l = Some a -> adj a n (l ++ [n]).
Proof.
  intros Hl. apply last_Some in Hl as [l' ->]. exists l', []. by rewrite <- app_assoc.
Qed.

Lemma adj_last l a b : NoDup l -> last l = Some a -> ~ adj a b l.
Proof.
  intros Hn Hl (l1 & l2 & ->).
  change (a :: b :: l2) with ([a] ++ b :: l2) in *. rewrite app_assoc, last_app_cons in Hl.
  apply last_Some_elem_of in Hl. apply NoDup_app in Hn as (_ & _ & Hn).
  simpl in Hn. apply NoDup_cons in Hn as [Hn _]. done.
Qed.

(** ** The invariant *)

Definition consumer_ok (q : MpscLinkedQueue) (ps : list producer) (ns : list nat)
    (c : consumer) : Prop :=
  match c with
  | CNext t | CHead t => t = tail q
  | CSpin t => t = tail q /\ ns <> []
  | CUnlink t n => t = tail q /\ nxt q t = Some n
  | CTake t n =>
      t = tail q /\ nxt q t = None /\ (exists ns', ns = n :: ns') /\
      forall i b, ps !! i <> Some (PLink t b)
  | _ => True
  end.

(** [ns] are the nodes after [tail], with the elements [es]. *)
Record chained (q : MpscLinkedQueue) (ps : list producer) (c : consumer)
    (ns es : list nat) : Prop := {
  ch_head : last (tail q :: ns) = Some (head q);
  ch_nodup : NoDup (tail q :: ns);
  ch_nodes : forall a, is_Some (nodes q !! a) <-> a ∈ tail q :: ns;
  ch_elements : map (fun a => nodes q !! a ≫= element) ns = map Some es;
  ch_history : exchanged q = dequeued q ++ es;
  ch_link : forall i a b, ps !! i = Some (PLink a b) ->
    nxt q a = None /\ adj a b (tail q :: ns);
  ch_unique : forall i j a b b', ps !! i = Some (PLink a b) ->
    ps !! j = Some (PLink a b') -> i = j;
  ch_adj : forall a b, adj a b (tail q :: ns) ->
    nxt q a = Some b \/ (exists i, ps !! i = Some (PLink a b)) \/ c = CTake a b;
  ch_next : forall a b, nxt q a = Some b -> adj a b (tail q :: ns);
  ch_consumer : consumer_ok q ps ns c;
}.

Definition inv (x : config) : Prop := exists ns es, chained x.1.1 x.1.2 x.2 ns es.

Lemma nxt_insert q a nd b h t ex de :
  nxt (mkQueue (<[a := nd]> (nodes q)) h t ex de) b =
    if decide (a = b) then next nd else nxt q b.
Proof.
  unfold nxt. simpl. destruct (decide (a = b)) as [->|];
    [by rewrite lookup_insert_eq|by rewrite lookup_insert_ne].
Qed.

(** The pending links after one producer has moved on. *)
Lemma links_insert (ps : list producer) i x pc j a b :
  ps !! i = Some x -> <[i := pc]> ps !! j = Some (PLink a b) ->
  (j = i /\ pc = PLink a b) \/ (j <> i /\ ps !! j = Some (PLink a b)).
Proof.
  intros Hi Hj. destruct (decide (j = i)) as [->|].
  - rewrite list_lookup_insert_eq in Hj by (by eapply lookup_lt_Some).
    simplify_eq. auto.
  - rewrite list_lookup_insert_ne in Hj by done. auto.
Qed.

Lemma adj_weaken a b l n : adj a b l -> adj a b (l ++ [n]).
Proof. intros (l1 & l2 & ->). exists l1, (l2 ++ [n]). by rewrite <- app_assoc. Qed.

(** A new node has no successor and changes none. *)
Lemma nxt_new q n e a h t x d :
  nodes q !! n = None ->
  nxt (mkQueue (<[n := mkNode (Some e) None]> (nodes q)) h t x d) a = nxt q a.
Proof.
  intros Hn. rewrite nxt_insert. destruct (decide (n = a)) as [<-|]; [|done].
  unfold nxt. by rewrite Hn.
Qed.

(** Exchanging [head]. *)
Lemma exchange_inv q ps c i e q' pc' :
  inv (q, ps, c) -> ps !! i = Some (PEnqueue e) ->
  enqueue (PEnqueue e) q = Returns (q', pc') -> inv (q', <[i := pc']> ps, c).
Proof.
  intros (ns & es & H) Hi He. simpl in *. simplify_eq.
  set (n := fresh (dom (nodes q))). destruct H; simpl in *.
  assert (Hn : nodes q !! n = None) by (apply not_elem_of_dom, is_fresh).
  assert (Hfr : n ∉ tail q :: ns).
  { intros Hx. apply ch_nodes0 in Hx as [? Hx]. congruence. }
  assert (Hlast : forall b, ~ adj (head q) b (tail q :: ns)) by (intros; by apply adj_last).
  assert (Hh : head q ∈ tail q :: ns) by (by apply last_Some_elem_of in ch_head0).
  assert (Hnx : nxt q (head q) = None).
  { destruct (nxt q (head q)) eqn:E; [|done]. by apply ch_next0, Hlast in E. }
  assert (Hold : forall a, a ∈ tail q :: ns -> n <> a) by (intros a Ha ->; done).
  assert (Hps : forall j a b, <[i := PLink (head q) n]> ps !! j = Some (PLink a b) ->
    (j = i /\ a = head q /\ b = n) \/ ps !! j = Some (PLink a b)).
  { intros j a b Hj. destruct (links_insert _ _ _ _ _ _ _ Hi Hj) as [[-> ?]|[_ ?]];
      simplify_eq; auto. }
  exists (ns ++ [n]), (es ++ [e]).
  assert (Happ : tail q :: ns ++ [n] = (tail q :: ns) ++ [n]) by done.
  split; simpl; rewrite ?Happ.
  - apply last_snoc.
  - apply NoDup_app. split_and!; [done|set_solver|apply NoDup_singleton].
  - intros a. rewrite lookup_insert_is_Some, ch_nodes0. set_solver.
  - rewrite !map_app. simpl. rewrite lookup_insert_eq. f_equal. rewrite <- ch_elements0.
    apply map_ext_in. intros a Ha. rewrite lookup_insert_ne; [done|].
    apply Hold. right. by apply list_elem_of_In.
  - by rewrite ch_history0, app_assoc.
  - intros j a b Hj. rewrite nxt_new, ?Happ by done. apply Hps in Hj as [(-> & -> & ->)|Hj].
    + split; [done|]. by apply adj_extend.
    + destruct (ch_link0 _ _ _ Hj). auto using adj_weaken.
  - intros j k a b b' Hj Hk. apply Hps in Hj as [(-> & -> & ->)|Hj];
      apply Hps in Hk as [(-> & ? & ->)|Hk]; simplify_eq; auto.
    + by destruct (ch_link0 _ _ _ Hk) as [_ Ha]; apply Hlast in Ha.
    + by destruct (ch_link0 _ _ _ Hj) as [_ Ha]; apply Hlast in Ha.
    + by eapply ch_unique0.
  - intros a b Ha. rewrite nxt_new by done. rewrite ?Happ in Ha.
    apply adj_snoc in Ha as [Ha|[-> Hl]].
    + destruct (ch_adj0 a b Ha) as [|[[j Hj]|]]; auto. right; left. exists j.
      rewrite list_lookup_insert_ne; [done|]. intros ->. congruence.
    + rewrite ch_head0 in Hl. simplify_eq. right; left. exists i.
      apply list_lookup_insert_eq. by eapply lookup_lt_Some.
  - intros a b. rewrite nxt_new, ?Happ by done. auto using adj_weaken.
  - destruct c as [t|t|t|t m|t m| | | |]; simpl in *; rewrite ?nxt_new by done; auto.
    + destruct ch_consumer0. split; [done|]. by destruct ns.
    + destruct ch_consumer0 as (-> & ? & [ns' ->] & Hno). split_and!; auto.
      { by exists (ns' ++ [n]). }
      intros j b Hj. apply Hps in Hj as [(_ & Heq & _)|Hj]; [|by eapply Hno].
      simpl in ch_head0. apply NoDup_cons in ch_nodup0 as [Hx _]. destruct Hx.
      rewrite Heq. by apply last_Some_elem_of in ch_head0.
Qed.

(** Linking the old head. *)
Lemma link_inv q ps c i a n q' pc' :
  inv (q, ps, c) -> ps !! i = Some (PLink a n) ->
  enqueue (PLink a n) q = Returns (q', pc') -> inv (q', <[i := pc']> ps, c).
Proof.
  intros (ns & es & H) Hi He. simpl in *. destruct H. simpl in *.
  destruct (ch_link0 _ _ _ Hi) as [Hnx Hadj]. destruct (adj_elem _ _ _ Hadj) as [Ha _].
  assert (Hnd : is_Some (nodes q !! a)) by (by apply ch_nodes0).
  destruct Hnd as [nd Hnd]. unfold deref in He. rewrite Hnd in He. simplify_eq.
  assert (Hps : forall j x y, <[i := PDone]> ps !! j = Some (PLink x y) ->
    j <> i /\ ps !! j = Some (PLink x y)).
  { intros j x y Hj. by destruct (links_insert _ _ _ _ _ _ _ Hi Hj) as [[_ ?]|]. }
  exists ns, es. split; simpl; auto.
  - intros x. rewrite lookup_insert_is_Some, <- ch_nodes0.
    destruct (decide (a = x)) as [->|]; [rewrite Hnd|]; naive_solver.
  - rewrite <- ch_elements0. apply map_ext_in. intros x _.
    destruct (decide (a = x)) as [->|];
      [by rewrite lookup_insert_eq, Hnd|by rewrite lookup_insert_ne].
  - intros j x y Hj. apply Hps in Hj as [Hne Hj].
    unfold store_next. rewrite nxt_insert. destruct (decide (a = x)) as [->|]; [|by eapply ch_link0].
    destruct Hne. by eapply ch_unique0.
  - intros j k x y y' Hj Hk. apply Hps in Hj as [_ Hj]. apply Hps in Hk as [_ Hk].
    by eapply ch_unique0.
  - intros x y Hxy. unfold store_next. rewrite nxt_insert. destruct (decide (a = x)) as [->|].
    + left. simpl. f_equal. by eapply adj_functional.
    + destruct (ch_adj0 x y Hxy) as [|[[j Hj]|]]; auto. right; left. exists j.
      rewrite list_lookup_insert_ne; [done|]. intros ->. congruence.
  - intros x y. unfold store_next. rewrite nxt_insert.
    destruct (decide (a = x)) as [->|]; [|apply ch_next0]. simpl. intros; by simplify_eq.
  - assert (Ht : forall t, nxt q t <> None \/ (forall k b, ps !! k <> Some (PLink t b)) ->
      nxt (store_next a nd (Some n) q) t = nxt q t).
    { intros t Hx. unfold store_next. rewrite nxt_insert.
      destruct (decide (a = t)) as [->|]; [|done]. destruct Hx as [|Hx]; [done|].
      by destruct (Hx i n). }
    destruct c as [t|t|t|t m|t m| | | |]; simpl in *; auto.
    + destruct ch_consumer0 as [-> Hm]. rewrite Ht; [done|]. left. by rewrite Hm.
    + destruct ch_consumer0 as (-> & Hm & ? & Hno). rewrite Ht by auto. split_and!; auto.
      intros k b Hk. apply Hps in Hk as [_ Hk]. by eapply Hno.
Qed.

(** The steps of the consumer that change nothing. *)
Lemma consumer_inv q ps c c' :
  inv (q, ps, c) -> (forall a b, c <> CTake a b) ->
  (forall ns es, chained q ps c ns es -> consumer_ok q ps ns c') -> inv (q, ps, c').
Proof.
  intros (ns & es & H) Hc Hok. exists ns, es. specialize (Hok ns es H).
  destruct H; simpl in *. split; auto. intros a b Hab.
  destruct (ch_adj0 a b Hab) as [|[|Hx]]; auto. by destruct (Hc a b).
Qed.

(** The consumer reads an existing tail. *)
Lemma tail_exists q ps c ns es : chained q ps c ns es -> is_Some (nodes q !! tail q).
Proof. intros H. apply (ch_nodes _ _ _ _ _ H). by left. Qed.

Lemma unlink_inv q ps t n q' c' :
  inv (q, ps, CUnlink t n) -> consume (CUnlink t n) q = Returns (q', c') ->
  inv (q', ps, c').
Proof.
  intros (ns & es & H) He. pose proof (tail_exists _ _ _ _ _ H) as [nd Hnd].
  destruct H. simpl in *. destruct ch_consumer0 as [-> Hnx]. unfold deref in He.
  rewrite Hnd in He. simplify_eq. pose proof (ch_next0 _ _ Hnx) as Hadj.
  assert (Hns : exists ns', ns = n :: ns').
  { apply adj_inv in Hadj as [[_ ?]|Hx]; [done|]. apply NoDup_cons in ch_nodup0 as [Hd _].
    by apply adj_elem in Hx as [? _]. }
  exists ns, es. split; simpl; auto.
  - intros x. rewrite lookup_insert_is_Some, <- ch_nodes0.
    destruct (decide (tail q = x)) as [<-|]; [rewrite Hnd|]; naive_solver.
  - rewrite <- ch_elements0. apply map_ext_in. intros x _.
    destruct (decide (tail q = x)) as [<-|];
      [by rewrite lookup_insert_eq, Hnd|by rewrite lookup_insert_ne].
  - intros j a b Hj. destruct (ch_link0 _ _ _ Hj) as [Ha ?]. split; [|done].
    unfold store_next. rewrite nxt_insert. by destruct (decide _).
  - intros a b Hab. unfold store_next. rewrite nxt_insert.
    destruct (decide (tail q = a)) as [<-|].
    + right; right. f_equal. by eapply adj_functional.
    + destruct (ch_adj0 a b Hab) as [|[|]]; auto. done.
  - intros a b. unfold store_next. rewrite nxt_insert.
    destruct (decide (tail q = a)); [done|apply ch_next0].
  - split_and!; auto.
    + unfold store_next. rewrite nxt_insert. by rewrite decide_True.
    + intros i b Hi. destruct (ch_link0 _ _ _ Hi). congruence.
Qed.

Lemma take_inv q ps t n q' c' :
  inv (q, ps, CTake t n) -> consume (CTake t n) q = Returns (q', c') ->
  inv (q', ps, c') /\ exists e, c' = CReturn (Some e).
Proof.
  intros (ns & es & H) He. destruct H. simpl in *.
  destruct ch_consumer0 as (-> & Hnx & [ns' ->] & Hno).
  destruct es as [|e es]; simplify_eq/=.
  unfold deref in He. destruct (nodes q !! n) as [nd|] eqn:Hnd; [|done]. simpl in *.
  simplify_eq. rewrite H. split; [|eauto].
  apply NoDup_cons in ch_nodup0 as [Ht Hnd'].
  assert (Htn : tail q <> n) by (intros Hx; rewrite Hx in Ht; set_solver).
  set (q1 := mkQueue _ _ _ _ _).
  assert (Hlk : forall a, tail q <> a -> nxt q1 a = nxt q a).
  { intros a Ha. unfold nxt, q1. simpl. rewrite lookup_delete_ne by done.
    destruct (decide (n = a)) as [<-|]; [by rewrite lookup_insert_eq, Hnd|].
    by rewrite lookup_insert_ne. }
  assert (Hadjt : forall a b, adj a b (n :: ns') -> tail q <> a).
  { intros a b Hab Hx. apply adj_elem in Hab as [? _]. by rewrite Hx in Ht. }
  exists ns', es. split; simpl; auto.
  - intros a. destruct (decide (tail q = a)) as [<-|Hne].
    { rewrite lookup_delete_eq. split; [by intros [] |done]. }
    rewrite lookup_delete_ne, lookup_insert_is_Some by done.
    rewrite ch_nodes0, !elem_of_cons. clear -Hne.
    destruct (decide (n = a)) as [->|]; intuition congruence.
  - rewrite <- H0. apply map_ext_in. intros a Ha. apply list_elem_of_In in Ha.
    rewrite lookup_delete_ne by (intros Hx; rewrite Hx in Ht; apply Ht; by right).
    rewrite lookup_insert_ne; [done|].
    apply NoDup_cons in Hnd' as [? _]. by intros ->.
  - by rewrite ch_history0, <- app_assoc.
  - intros i a b Hi. destruct (ch_link0 _ _ _ Hi) as [Ha Hab].
    apply adj_inv in Hab as [[-> _]|Hab]; [by destruct (Hno i b)|].
    rewrite Hlk by (by eapply Hadjt). done.
  - intros a b Hab. rewrite Hlk by (by eapply Hadjt).
    destruct (ch_adj0 a b (adj_cons _ _ _ _ Hab)) as [|[|Hx]]; auto. simplify_eq.
    by apply adj_elem in Hab as [? _].
  - intros a b Ha. destruct (decide (tail q = a)) as [<-|Hne].
    { unfold nxt, q1 in Ha. simpl in Ha. by rewrite lookup_delete_eq in Ha. }
    rewrite Hlk in Ha by done. by apply ch_next0, adj_inv in Ha as [[-> _]|].
Qed.

Lemma dequeue_read_inv q ps c q' c' :
  inv (q, ps, c) -> (forall a b, c <> CTake a b /\ c <> CUnlink a b) ->
  consume c q = Returns (q', c') -> inv (q', ps, c').
Proof.
  intros Hi Hc He. assert (Hne : forall a b, c <> CTake a b) by (intros; apply Hc).
  assert (q' = q) as ->.
  { destruct c as [t|t|t|t m|t m| | | |]; simpl in He; unfold deref in He;
      repeat case_match; simplify_eq; try done; by destruct (Hc t m). }
  apply (consumer_inv q ps c c' Hi Hne). intros ns es H.
  pose proof (ch_consumer _ _ _ _ _ H) as Hok. pose proof (ch_head _ _ _ _ _ H) as Hh.
  destruct c as [t|t|t|t m|t m| | | |]; simpl in *; unfold deref, nxt in *;
    repeat case_match; simplify_eq; simpl; auto; try (by destruct (Hc t m)).
  - split; [done|]. unfold nxt. by match goal with H : nodes q !! _ = _ |- _ => rewrite H end.
  - split; [done|]. intros ->. by simplify_eq/=.
  - destruct Hok as [-> _]. split; [done|]. unfold nxt.
    by match goal with H : nodes q !! _ = _ |- _ => rewrite H end.
Qed.

Lemma mpsc_inv x y : inv x -> mpsc x y -> inv y.
Proof.
  intros Hi Hs. destruct Hs as [q ps c e|q ps c i pc q' pc' Hl He|q ps c q' c' He| | | |].
  - destruct Hi as (ns & es & []). exists ns, es. simpl in *.
    assert (Hps : forall j a b, (ps ++ [PEnqueue e]) !! j = Some (PLink a b) ->
      ps !! j = Some (PLink a b)).
    { intros j a b Hj. apply lookup_app_Some in Hj as [|[_ Hj]]; [done|].
      by apply list_lookup_singleton_Some in Hj as [_ ?]. }
    split; simpl; eauto.
    + intros a b Hab. destruct (ch_adj0 a b Hab) as [|[[j Hj]|]]; auto.
      right; left. exists j. by apply lookup_app_l_Some.
    + destruct c; simpl in *; auto. destruct ch_consumer0 as (? & ? & ? & Hno).
      split_and!; auto. intros j b Hj. by eapply Hno, Hps.
  - destruct pc as [e|a n|]; [by eapply exchange_inv|by eapply link_inv|].
    simplify_eq/=. by rewrite list_insert_id.
  - destruct c; try (by eapply dequeue_read_inv).
    + by eapply unlink_inv.
    + by eapply take_inv in He as [? _].
  - eapply consumer_inv; [done|done|]. by intros.
  - eapply consumer_inv; [done|done|]. by intros.
  - eapply consumer_inv; [done|done|]. by intros.
  - eapply consumer_inv; [done|done|]. by intros.
Qed.

Lemma mpsc_reach_inv q ps c : steps mpsc start (q, ps, c) -> inv (q, ps, c).
Proof.
  intros Hr. apply (steps_invariant mpsc inv) in Hr; [done|apply mpsc_inv|].
  exists [], []. split; simpl; try done.
  - apply NoDup_singleton.
  - intros a. destruct (decide (a = 0)) as [->|Hne].
    + rewrite lookup_singleton_eq. split; [intros _; by left|by eexists].
    + rewrite lookup_singleton_ne by done. split; [by intros []|].
      intros Ha. by apply list_elem_of_singleton in Ha.
  - intros a b Ha. by destruct Ha as ([|? []] & ? & ?).
  - intros a b. unfold nxt. simpl. destruct (decide (a = 0)) as [->|Hne].
    + by rewrite lookup_singleton_eq.
    + by rewrite lookup_singleton_ne.
Qed.

(** C17: the lock-free queue is first-in first-out in the order in which producers
    exchange [head]: the elements dequeued so far are a prefix of the elements
    enqueued; [dequeue] returns [nullptr], and [empty] true, only when every element
    whose producer exchanged [head] has been dequeued. *)
Theorem mpsc_fifo q ps c :
  steps mpsc start (q, ps, c) ->
  dequeued q `prefix_of` exchanged q /\
  (forall t q', c = CHead t -> consume c q = Returns (q', CReturn None) ->
   dequeued q = exchanged q) /\
  (forall q', c = EHead -> consume c q = Returns (q', EReturn true) ->
   dequeued q = exchanged q).
Proof.
  intros Hr. destruct (mpsc_reach_inv _ _ _ Hr) as (ns & es & H).
  destruct H as [Hh Hnd _ Hel Hhi _ _ _ _ _]. simpl in *.
  assert (Hem : head q = tail q -> dequeued q = exchanged q).
  { intros He. rewrite He in Hh. destruct ns as [|n ns].
    - destruct es; [|done]. by rewrite Hhi, app_nil_r.
    - apply NoDup_cons in Hnd as [Hx _]. destruct Hx.
      rewrite last_cons_cons in Hh. by apply last_Some_elem_of in Hh. }
  split_and!.
  - by exists es.
  - intros t q' -> Hc. simpl in Hc. destruct (decide (head q = tail q)); [auto|done].
  - intros q' -> Hc. simpl in Hc. apply Hem. simplify_eq. by bool_cases.
Qed.

(** No producer and not the consumer ever follows a pointer to a deleted node,
    the queue holds no node but those between [tail] and [head], and a dequeue that
    found a next node returns an element: the [CHECK_NOTNULL] holds. *)
Theorem mpsc_memory_safe q ps c m :
  steps mpsc start (q, ps, c) ->
  (forall i pc, ps !! i = Some pc -> enqueue pc q <> Abort m) /\
  consume c q <> Abort m /\
  size (nodes q) = S (length (exchanged q) - length (dequeued q)) /\
  (forall t n q' c', c = CTake t n -> consume c q = Returns (q', c') ->
   exists e, c' = CReturn (Some e)).
Proof.
  intros Hr. pose proof (mpsc_reach_inv _ _ _ Hr) as Hi. pose proof Hi as (ns & es & H).
  simpl in *. pose proof (tail_exists _ _ _ _ _ H) as [nd Hnd]. destruct H.
  split_and!.
  - intros i [e|a n|] Hl; simpl; try done. destruct (ch_link0 _ _ _ Hl) as [_ Ha].
    apply adj_elem in Ha as [Ha _]. apply ch_nodes0 in Ha as [? Ha]. unfold deref. by rewrite Ha.
  - destruct c as [t|t|t|t n|t n| | | |]; simpl in *; unfold deref; try done.
    + subst. by rewrite Hnd.
    + destruct ch_consumer0 as [-> _]. by rewrite Hnd.
    + destruct ch_consumer0 as [-> _]. by rewrite Hnd.
    + destruct ch_consumer0 as (-> & _ & [ns' ->] & _).
      assert (is_Some (nodes q !! n)) as [? Hn] by (apply ch_nodes0; right; by left).
      by rewrite Hn.
    + by rewrite Hnd.
  - rewrite ch_history0, length_app. rewrite <- size_dom.
    assert (Hd : dom (nodes q) = list_to_set (tail q :: ns)).
    { apply set_eq. intros a. rewrite elem_of_dom, ch_nodes0. by rewrite elem_of_list_to_set. }
    rewrite Hd, size_list_to_set by done. simpl.
    assert (Hl : length ns = length es) by (apply (f_equal length) in ch_elements0;
      by rewrite !length_map in ch_elements0). lia.
  - intros t n q' c' -> Hc. by eapply take_inv in Hc as [_ ?].
Qed.

(** A producer enqueues 7 and the consumer dequeues it. *)
Lemma mpsc_run :
  steps mpsc start
    (mkQueue {[ 1 := mkNode None None ]} 1 1 [7] [7], [PDone], CReturn (Some 7)).
Proof.
  eapply steps_cons; [apply (mpsc_new _ _ _ 7)|].
  eapply steps_cons; [by apply (mpsc_produce _ _ _ 0 (PEnqueue 7))|].
  eapply steps_cons; [by apply (mpsc_produce _ _ _ 0 (PLink 0 1))|].
  eapply steps_cons; [apply mpsc_dequeue'|].
  eapply steps_cons; [by apply mpsc_consume|].
  eapply steps_cons; [by apply mpsc_consume|].
  eapply steps_cons; [by apply mpsc_consume|].
  apply steps_refl.
Qed.

Lemma mpsc_fifo_witness : [7] `prefix_of` [7].
Proof. apply (mpsc_fifo _ _ _ mpsc_run). Defined.

Lemma mpsc_memory_safe_witness :
  size (nodes (mkQueue {[ 1 := mkNode None None ]} 1 1 [7] [7])) = 1.
Proof. apply (mpsc_memory_safe _ _ _ EmptyString mpsc_run). Defined.
