(* ===== verification/Collect.v ===== *)
(** [collect] and [await] of [collect.hpp].

    Each call spawns a process that registers, with [defer], handlers on the
    futures; the handlers run in that process one at a time, in the order in which
    their events arrive.  A handler reads the futures from the store and returns
    the operations it performs on the promise.  [terminate] injects a terminate
    event: the events that still wait are purged, so a terminated process handles
    nothing more (Scheduler.v), and its destructor deletes the promise. *)

From S2P Require Import Prelude Futures FuturesSafety.

(** [CollectProcess] and [AwaitProcess] keep the same data. *)
Record Collect := mkCollect {
  futures : list nat;
  promise : nat;
  ready : nat;
  terminated : bool;
}.

Definition terminate (c : Collect) : Collect :=
  mkCollect (futures c) (promise c) (ready c) true.
Definition count_ready (c : Collect) : Collect :=
  mkCollect (futures c) (promise c) (S (ready c)) (terminated c).

(** The events the deferred callbacks dispatch to the process. *)
Inductive event := Waited (l : nat) | DiscardRequested | WasAbandoned.

(** [initialize]: the registrations; [name] identifies the deferred closure of each
    event. *)
Definition initialize (name : event -> nat) (c : Collect) : list op :=
  OOnDiscard (promise c) (User (name DiscardRequested) []) ::
  flat_map (fun l => [OOnAny l (User (name (Waited l)) []);
                      OOnAbandoned l (User (name WasAbandoned) [])]) (futures c).

(** [discarded]: first the futures, then the promise. *)
Definition discarded (c : Collect) : Collect * list op :=
  (terminate c, map OFutureDiscard (futures c) ++ [OPromiseDiscard (promise c)]).

(** The destructor. *)
Definition destroy (c : Collect) : list op := [OPromiseDestroy (promise c)].

(** The values of all futures, in their order. *)
Fixpoint get_all (s : store) (ls : list nat) : checked (list val) :=
  match ls with
  | [] => Returns []
  | l :: ls =>
      match heap s !! l with
      | None => Abort "no such future"
      | Some d =>
          match Future_get d, get_all s ls with
          | Returns v, Returns vs => Returns (v :: vs)
          | Abort m, _ | _, Abort m => Abort m
          end
      end
  end.

(** [CollectProcess::waited]. *)
Definition collect_waited (s : store) (l : nat) (c : Collect)
    : checked (Collect * list op) :=
  match heap s !! l with
  | None => Abort "no such future"
  | Some d =>
      if isFailed d then
        match Future_failureMessage d with
        | Returns m =>
            Returns (terminate c, [OPromiseFail (promise c) ("Collect failed: " +:+ m)])
        | Abort m => Abort m
        end
      else if isDiscarded d then
        Returns (terminate c, [OPromiseFail (promise c) "Collect failed: future discarded"])
      else if negb (isReady d) then Abort "CHECK_READY(future)"
      else
        let c := count_ready c in
        if ready c =? length (futures c) then
          match get_all s (futures c) with
          | Returns vs => Returns (terminate c, [OPromiseSet (promise c) (VList vs)])
          | Abort m => Abort m
          end
        else Returns (c, [])
  end.

(** [AwaitProcess::waited]. *)
Definition await_waited (s : store) (l : nat) (c : Collect)
    : checked (Collect * list op) :=
  match heap s !! l with
  | None => Abort "no such future"
  | Some d =>
      if isPending d then Abort "CHECK(!future.isPending())"
      else
        let c := count_ready c in
        if ready c =? length (futures c) then
          Returns (terminate c,
            [OPromiseSet (promise c) (VList (map VFuture (futures c)))])
        else Returns (c, [])
  end.

(** One event, with either [waited]. *)
Definition handle (waited : store -> nat -> Collect -> checked (Collect * list op))
    (s : store) (e : event) (c : Collect) : checked (Collect * list op) :=
  if terminated c then Returns (c, [])
  else
    match e with
    | Waited l => waited s l c
    | DiscardRequested => Returns (discarded c)
    | WasAbandoned => Returns (terminate c, [])
    end.

Fixpoint handle_all (waited : store -> nat -> Collect -> checked (Collect * list op))
    (s : store) (es : list event) (c : Collect) : checked (Collect * list op) :=
  match es with
  | [] => Returns (c, [])
  | e :: es =>
      match handle waited s e c with
      | Returns (c1, os) =>
          match handle_all waited s es c1 with
          | Returns (c2, os') => Returns (c2, os ++ os')
          | Abort m => Abort m
          end
      | Abort m => Abort m
      end
  end.

(** [collect(futures)] and [await(futures)]: an immediate result, or the process that
    is spawned for the promise [p]. *)
Definition collect (ls : list nat) (p : nat) : val + Collect :=
  match ls with [] => inl (VList []) | _ => inr (mkCollect ls p 0 false) end.
Definition await (ls : list nat) (p : nat) : val + Collect :=
  match ls with [] => inl (VList []) | _ => inr (mkCollect ls p 0 false) end.

(** ** Properties *)

Section Handling.
Context (waited : store -> nat -> Collect -> checked (Collect * list op)).

Lemma handle_all_terminated s es c :
  terminated c = true -> handle_all waited s es c = Returns (c, []).
Proof.
  intros Ht. induction es as [|e es IH]; simpl; [done|].
  unfold handle. rewrite Ht. by rewrite IH.
Qed.

(** Events that only count, then one that terminates. *)
Lemma handle_all_counts s (counts : nat -> Prop) ls es c :
  (forall l c, counts l -> terminated c = false ->
     S (ready c) < length (futures c) -> waited s l c = Returns (count_ready c, [])) ->
  Forall counts ls -> terminated c = false ->
  ready c + length ls < length (futures c) ->
  handle_all waited s (map Waited ls ++ es) c =
    handle_all waited s es
      (mkCollect (futures c) (promise c) (ready c + length ls) false).
Proof.
  intros Hw. revert c. induction ls as [|l ls IH]; simpl; intros c Hls Ht Hlen.
  - destruct c; simpl in *. by rewrite Nat.add_0_r, Ht.
  - apply Forall_cons in Hls as [Hl Hls]. unfold handle. rewrite Ht.
    rewrite Hw by (auto; lia). rewrite IH by (simpl; auto; lia). simpl.
    rewrite Nat.add_succ_r. by destruct (handle_all _ _ _ _) as [[??]|].
Qed.
End Handling.

Definition is_ready (s : store) (l : nat) : Prop :=
  exists d v, heap s !! l = Some d /\ state d = READY /\ result d = RSome v.

(** The message a future that is not ready makes [collect] fail with. *)
Definition complaint (s : store) (l : nat) (m : string) : Prop :=
  exists d, heap s !! l = Some d /\
    ((state d = FAILED /\ exists e, result d = RError e /\ m = "Collect failed: " +:+ e) \/
     (state d = DISCARDED /\ m = "Collect failed: future discarded")).

Definition value_of (s : store) (l : nat) (v : val) : Prop :=
  exists d, heap s !! l = Some d /\ result d = RSome v.

Lemma get_all_ready s ls :
  Forall (is_ready s) ls ->
  exists vs, get_all s ls = Returns vs /\ Forall2 (value_of s) ls vs.
Proof.
  induction 1 as [|l ls (d & v & Hl & Hs & Hr) _ (vs & Hvs & Hf)]; simpl.
  - exists []. by split.
  - exists (v :: vs). rewrite Hl, Hvs. unfold Future_get, isPending, isReady. rewrite Hs, Hr.
    simpl. split; [done|]. constructor; [|done]. by exists d.
Qed.

Lemma collect_counts s l c :
  is_ready s l -> terminated c = false -> S (ready c) < length (futures c) ->
  collect_waited s l c = Returns (count_ready c, []).
Proof.
  intros (d & v & Hl & Hs & Hr) Ht Hlen. unfold collect_waited. rewrite Hl.
  unfold isFailed, isDiscarded, isReady. rewrite Hs. cbn [negb]. cbv zeta.
  by rewrite (proj2 (Nat.eqb_neq _ _)) by (simpl; lia).
Qed.

Lemma collect_complains s l c m :
  complaint s l m ->
  collect_waited s l c = Returns (terminate c, [OPromiseFail (promise c) m]).
Proof.
  intros (d & Hl & [(Hs & e & He & ->)|(Hs & ->)]); unfold collect_waited; rewrite Hl;
    unfold Future_failureMessage, isFailed, isDiscarded; rewrite Hs; simpl; by rewrite ?He.
Qed.

(** A list of futures that have all completed is ready, or has a first one that is
    not. *)
Lemma ready_or_complaint s ls :
  Forall (fun l => is_ready s l \/ exists m, complaint s l m) ls ->
  Forall (is_ready s) ls \/
  exists l1 l l2 m, ls = l1 ++ l :: l2 /\ Forall (is_ready s) l1 /\ complaint s l m.
Proof.
  induction 1 as [|l ls [Hr|[m Hm]] _ IH]; [by left| |].
  - destruct IH as [IH|(l1 & x & l2 & m & -> & ? & ?)]; [left; by constructor|].
    right. exists (l :: l1), x, l2, m. split_and!; auto.
  - right. by exists [], l, ls, m.
Qed.

Lemma map_permutation_inv (evs : list event) ls :
  evs ≡ₚ map Waited ls -> exists ls', evs = map Waited ls' /\ ls' ≡ₚ ls.
Proof. intros Hp. apply Permutation_map_inv in Hp as (ls' & -> & Hp). by exists ls'. Qed.

(** [collect] yields all values in the order of its arguments, whatever the order
    in which the futures complete; if some did not become ready, it fails with the
    message of the first of them to be waited for.  In either case it performs exactly
    one operation on its promise. *)
Theorem collect_outcome s ls p c evs :
  collect ls p = inr c ->
  Forall (fun l => is_ready s l \/ exists m, complaint s l m) ls ->
  evs ≡ₚ map Waited ls ->
  exists c', terminated c' = true /\
    ((exists vs, Forall2 (value_of s) ls vs /\
        handle_all collect_waited s evs c = Returns (c', [OPromiseSet p (VList vs)])) \/
     (exists l1 l l2 m, evs = map Waited (l1 ++ l :: l2) /\ Forall (is_ready s) l1 /\
        complaint s l m /\
        handle_all collect_waited s evs c = Returns (c', [OPromiseFail p m]))).
Proof.
  intros Hc Hall Hp. destruct ls as [|l0 ls0]; [done|]. simplify_eq/=.
  set (ls := l0 :: ls0) in *. apply (map_permutation_inv evs ls) in Hp as (ls' & -> & Hp).
  assert (Hlen : length ls' = length ls) by (by rewrite Hp).
  assert (Hall' : Forall (fun l => is_ready s l \/ exists m, complaint s l m) ls')
    by (by rewrite Hp).
  destruct (ready_or_complaint s ls' Hall') as [Hr|(l1 & l & l2 & m & -> & H1 & Hm)].
  - destruct (get_all_ready s ls) as (vs & Hvs & Hf); [by rewrite <- Hp|].
    destruct (exists_last (l := ls')) as (l1 & l & ->); [by destruct ls'|].
    apply Forall_app in Hr as [H1 Hl]. apply Forall_singleton in Hl as (d & v & Hd & Hs & _).
    eexists; split; [|left; exists vs; split; [done|]]; cycle 1.
    + rewrite map_app, (handle_all_counts _ s (is_ready s));
        [|by apply collect_counts|done|done|rewrite length_app in Hlen; simpl in *; lia].
      cbn [handle_all map terminated handle futures promise ready].
      unfold collect_waited. rewrite Hd.
      unfold isFailed, isDiscarded, isReady. rewrite Hs. cbn [negb]. cbv zeta.
      rewrite length_app in Hlen. simpl in Hlen.
      rewrite (proj2 (Nat.eqb_eq _ _)) by (simpl; lia).
      cbn [count_ready futures]. rewrite Hvs. done.
    + done.
  - eexists; split; [|right; exists l1, l, l2, m; split_and!; [done|done|done|]]; cycle 1.
    + rewrite map_app, (handle_all_counts _ s (is_ready s));
        [|by apply collect_counts|done|done|rewrite length_app in Hlen; simpl in *; lia].
      simpl. unfold handle. rewrite (collect_complains s l _ m Hm). simpl.
      rewrite handle_all_terminated by done. done.
    + done.
Qed.

(** [await] waits for every future, whatever becomes of them, and then yields all
    of them in the order of its arguments; it never fails. *)
Theorem await_outcome s ls p c evs :
  await ls p = inr c ->
  Forall (fun l => exists d, heap s !! l = Some d /\ state d <> PENDING) ls ->
  evs ≡ₚ map Waited ls ->
  (exists c', terminated c' = true /\ handle_all await_waited s evs c =
     Returns (c', [OPromiseSet p (VList (map VFuture ls))])) /\
  (forall evs' ev, evs = evs' ++ [ev] ->
   exists c', terminated c' = false /\ handle_all await_waited s evs' c = Returns (c', [])).
Proof.
  intros Hc Hall Hp. destruct ls as [|l0 ls0]; [done|]. simplify_eq/=.
  set (ls := l0 :: ls0) in *. apply (map_permutation_inv evs ls) in Hp as (ls' & -> & Hp).
  assert (Hlen : length ls' = length ls) by (by rewrite Hp).
  set (done_ := fun l => exists d, heap s !! l = Some d /\ state d <> PENDING) in *.
  assert (Hall' : Forall done_ ls') by (by rewrite Hp).
  assert (Hw : forall l c, done_ l -> terminated c = false ->
    S (ready c) < length (futures c) -> await_waited s l c = Returns (count_ready c, [])).
  { intros l c (d & Hd & Hs) Ht Hx. unfold await_waited. rewrite Hd. unfold isPending.
    destruct (state d); try done; cbv zeta;
      by rewrite (proj2 (Nat.eqb_neq _ _)) by (simpl; lia). }
  destruct (exists_last (l := ls')) as (l1 & l & ->); [by destruct ls'|].
  rewrite length_app in Hlen. simpl in Hlen.
  apply Forall_app in Hall' as [H1 Hl]. apply Forall_singleton in Hl as (d & Hd & Hs).
  rewrite map_app. split.
  - eexists; split; cycle 1.
    + rewrite (handle_all_counts _ s done_) by (auto; simpl; lia).
      cbn [handle_all map terminated handle futures promise ready].
      unfold await_waited. rewrite Hd. unfold isPending.
      destruct (state d); try done; cbv zeta;
        rewrite (proj2 (Nat.eqb_eq _ _)) by (simpl; lia); done.
    + done.
  - intros evs' ev He. apply app_inj_tail in He as [<- _].
    rewrite <- (app_nil_r (map Waited l1)).
    rewrite (handle_all_counts _ s done_) by (auto; simpl; lia). simpl.
    eexists; split; [|reflexivity]. done.
Qed.

(** Futures 0 and 1 completed, in that order of waiting or the other. *)
Definition two (d0 d1 : Data) : store :=
  mkStore {[ 0 := d0; 1 := d1 ]} 2 ∅ ∅ ∅ [] None.

Lemma collect_outcome_witness :
  exists c', terminated c' = true /\
    ((exists vs, Forall2 (value_of (two (Future_value (VInt 5)) (Future_value (VInt 6))))
        [0; 1] vs /\
      handle_all collect_waited (two (Future_value (VInt 5)) (Future_value (VInt 6)))
        [Waited 1; Waited 0] (mkCollect [0; 1] 2 0 false)
        = Returns (c', [OPromiseSet 2 (VList vs)])) \/
     (exists l1 l l2 m, [Waited 1; Waited 0] = map Waited (l1 ++ l :: l2) /\
        Forall (is_ready (two (Future_value (VInt 5)) (Future_value (VInt 6)))) l1 /\
        complaint (two (Future_value (VInt 5)) (Future_value (VInt 6))) l m /\
        handle_all collect_waited (two (Future_value (VInt 5)) (Future_value (VInt 6)))
          [Waited 1; Waited 0] (mkCollect [0; 1] 2 0 false)
          = Returns (c', [OPromiseFail 2 m]))).
Proof.
  apply (collect_outcome _ [0; 1] 2); [reflexivity| |apply Permutation_swap].
  repeat (apply Forall_cons_2; [left; do 2 eexists; split; [reflexivity|split; reflexivity]|]).
  apply Forall_nil_2.
Defined.

Lemma await_outcome_witness :
  exists c', terminated c' = true /\
    handle_all await_waited (two (Future_value (VInt 5)) (Future_failure "x"))
      [Waited 1; Waited 0] (mkCollect [0; 1] 2 0 false)
    = Returns (c', [OPromiseSet 2 (VList [VFuture 0; VFuture 1])]).
Proof.
  apply (await_outcome _ [0; 1] 2); [reflexivity| |apply Permutation_swap].
  repeat (apply Forall_cons_2; [eexists; split; [reflexivity|discriminate]|]).
  apply Forall_nil_2.
Defined.
