(* ===== verification/HttpCodec.v ===== *)
(** Percent encoding of [http.cpp]: [http::encode] and [http::decode] on strings of
    bytes. *)

From Stdlib Require Import Ascii String.
From S2P Require Import Prelude.

Local Open Scope string_scope.
Local Open Scope nat_scope.

Definition code (c : ascii) : nat := nat_of_ascii c.

Definition mem (c : ascii) (s : string) : bool :=
  existsb (Ascii.eqb c) (list_ascii_of_string s).

(** ** [http::encode] *)

(** The reserved and unsafe characters of the [switch]; 34 is the double quote. *)
Definition reserved (c : ascii) : bool :=
  mem c "$&+,/:;=?@ <>#%{}|\^~[]`" || (code c =? 34).

(** A digit of [std::hex << std::uppercase]. *)
Definition hex_digit (n : nat) : ascii :=
  ascii_of_nat (if n <? 10 then 48 + n else 55 + n).

Definition escape (c : ascii) : string :=
  String "%" (String (hex_digit (code c / 16)) (String (hex_digit (code c mod 16)) "")).

Definition encode_char (additional : string) (c : ascii) : string :=
  if reserved c then escape c
  else if (code c <? 32) || (127 <? code c) || mem c additional then escape c
  else String c "".

Fixpoint encode (additional s : string) : string :=
  match s with
  | "" => ""
  | String c s => encode_char additional c +:+ encode additional s
  end.

(** ** [http::decode] *)

Definition in_range (lo hi : nat) (c : ascii) : bool := (lo <=? code c) && (code c <=? hi).

Definition isxdigit (c : ascii) : bool :=
  in_range 48 57 c || in_range 97 102 c || in_range 65 70 c.

(** What [std::hex >> l] reads for one hexadecimal digit. *)
Definition hex_value (c : ascii) : nat :=
  if in_range 48 57 c then code c - 48
  else if in_range 97 102 c then code c - 87
  else code c - 55.

Definition malformed {A} (whole rest : string) : Try A :=
  Error ("Malformed % escape in '" +:+ whole +:+ "': '" +:+ substring 0 3 rest +:+ "'").

Fixpoint decode_from (whole s : string) : Try string :=
  match s with
  | "" => Some_ ""
  | String c s1 =>
      if negb (Ascii.eqb c "%") then
        match decode_from whole s1 with
        | Some_ out => Some_ (String (if Ascii.eqb c "+" then " "%char else c) out)
        | Error m => Error m
        end
      else
        match s1 with
        | String h (String l s2) =>
            if isxdigit h && isxdigit l then
              match decode_from whole s2 with
              | Some_ out =>
                  Some_ (String (ascii_of_nat (16 * hex_value h + hex_value l)) out)
              | Error m => Error m
              end
            else malformed whole s
        | _ => malformed whole s
        end
  end.

Definition decode (s : string) : Try string := decode_from s s.

(** ** Round trip *)

Lemma ascii_all (P : ascii -> bool) :
  forallb P (map ascii_of_nat (seq 0 256)) = true -> forall c, P c = true.
Proof.
  intros H c. rewrite forallb_forall in H. apply H, in_map_iff.
  exists (nat_of_ascii c). split; [apply ascii_nat_embedding|].
  apply in_seq. pose proof (nat_ascii_bounded c). lia.
Qed.

(** An escape is read back, as a table over the 256 characters. *)
Lemma escape_digits c :
  isxdigit (hex_digit (code c / 16)) && isxdigit (hex_digit (code c mod 16)) &&
  Ascii.eqb (ascii_of_nat (16 * hex_value (hex_digit (code c / 16)) +
                           hex_value (hex_digit (code c mod 16)))) c = true.
Proof. revert c. apply ascii_all. vm_compute. reflexivity. Qed.

Lemma plain_char c :
  reserved c = false -> Ascii.eqb c "%" = false /\ Ascii.eqb c "+" = false.
Proof.
  intros Hr. assert (H : reserved c || (negb (Ascii.eqb c "%") && negb (Ascii.eqb c "+")) = true).
  { clear. revert c. apply ascii_all. vm_compute. reflexivity. }
  rewrite Hr in H. simpl in H. apply andb_true_iff in H as [H1 H2]. by bool_cases.
Qed.

Lemma decode_escape whole c s :
  decode_from whole (escape c +:+ s) =
    match decode_from whole s with Some_ out => Some_ (String c out) | Error m => Error m end.
Proof.
  pose proof (escape_digits c) as H. bool_cases. apply Ascii.eqb_eq in H0.
  change (escape c +:+ s) with
    (String "%" (String (hex_digit (code c / 16)) (String (hex_digit (code c mod 16)) s))).
  cbn [decode_from]. change (negb (Ascii.eqb "%" "%")) with false. cbv iota.
  rewrite H, H1. cbn [andb]. by rewrite H0.
Qed.

Lemma decode_encode_char whole additional c s :
  decode_from whole (encode_char additional c +:+ s) =
    match decode_from whole s with Some_ out => Some_ (String c out) | Error m => Error m end.
Proof.
  unfold encode_char. destruct (reserved c) eqn:Hr; [apply decode_escape|].
  destruct (_ || _ || _); [apply decode_escape|].
  destruct (plain_char c Hr) as [H1 H2]. simpl. by rewrite H1, H2.
Qed.

Lemma decode_from_encode whole additional s :
  decode_from whole (encode additional s) = Some_ s.
Proof.
  induction s as [|c s IH]; [done|]. cbn [encode]. by rewrite decode_encode_char, IH.
Qed.

(** Decoding undoes encoding, for every byte string and every set of additional
    characters to escape. *)
Theorem codec_roundtrip additional s : decode (encode additional s) = Some_ s.
Proof. apply decode_from_encode. Qed.

(** The characters that may appear in an encoded string. *)
Definition url_char (additional : string) (c : ascii) : bool :=
  Ascii.eqb c "%" || isxdigit c ||
  (negb (reserved c) && (32 <=? code c) && (code c <=? 127) && negb (mem c additional)).

(** An encoded string contains no reserved, unsafe, control, non-ASCII or additional
    character, but for the percent signs and the hexadecimal digits of its escapes. *)
Theorem encode_alphabet additional s :
  forallb (url_char additional) (list_ascii_of_string (encode additional s)) = true.
Proof.
  assert (Happ : forall s1 s2, list_ascii_of_string (s1 +:+ s2) =
    (list_ascii_of_string s1 ++ list_ascii_of_string s2)%list).
  { induction s1; intros; simpl; [done|]. by rewrite IHs1. }
  assert (Hesc : forall c, forallb (url_char additional) (list_ascii_of_string (escape c)) = true).
  { intros c. pose proof (escape_digits c) as H. bool_cases.
    change (list_ascii_of_string (escape c)) with
      ["%"%char; hex_digit (code c / 16); hex_digit (code c mod 16)].
    cbn [forallb]. unfold url_char at 2 3. rewrite H, H1, !orb_true_r. done. }
  induction s as [|c s IH]; [done|]. cbn [encode]. rewrite Happ, forallb_app, IH, andb_true_r.
  unfold encode_char. destruct (reserved c) eqn:Hr; [apply Hesc|].
  destruct (code c <? 32) eqn:H1; [apply Hesc|]. destruct (127 <? code c) eqn:H2; [apply Hesc|].
  destruct (mem c additional) eqn:H3; [apply Hesc|]. bool_cases. simpl. rewrite andb_true_r.
  unfold url_char. rewrite Hr, H3. rewrite (proj2 (Nat.leb_le _ _)) by done.
  rewrite (proj2 (Nat.leb_le (code c) 127)) by done. by rewrite !orb_true_r.
Qed.

(** Every percent sign starts a complete escape. *)
Fixpoint well_escaped (s : string) : bool :=
  match s with
  | "" => true
  | String c s1 =>
      if negb (Ascii.eqb c "%") then well_escaped s1
      else match s1 with
           | String h (String l s2) => isxdigit h && isxdigit l && well_escaped s2
           | _ => false
           end
  end.

(** Decoding fails exactly on strings with a percent sign that does not start a
    complete escape. *)
Theorem decode_fails_iff s : isSome_ (decode s) = well_escaped s.
Proof.
  unfold decode. generalize s at 1. intros whole.
  assert (H : forall n s, String.length s <= n ->
    isSome_ (decode_from whole s) = well_escaped s).
  { induction n as [|n IH]; intros t Ht; destruct t as [|c t]; simpl in Ht; try lia; try done.
    cbn [decode_from well_escaped]. destruct (negb (Ascii.eqb c "%")).
    - rewrite <- (IH t) by lia. by destruct (decode_from whole t).
    - destruct t as [|h [|l t]]; try done. destruct (isxdigit h && isxdigit l); [|done].
      simpl in Ht. simpl. rewrite <- (IH t) by lia. by destruct (decode_from whole t). }
  by apply (H (String.length s)).
Qed.
