(* ===== verification/Pipe.v ===== *)
(** The in-memory pipe of [http.hpp] and [http.cpp]: [Pipe::Reader] and
    [Pipe::Writer].  Every operation is one critical section; the promises it
    completes after the critical section are returned as future operations. *)

From S2P Require Import Prelude Futures.

Inductive ReadEnd := ReaderOpen | ReaderClosed.
Inductive WriteEnd := WriterOpen | WriterClosed | WriterFailed.

(** [Pipe::Data]; promises are locations, [readerClosure] too. *)
Record Pipe := mkPipe {
  readEnd : ReadEnd;
  writeEnd : WriteEnd;
  reads : list nat;
  writes : list string;
  readerClosure : nat;
  failure : option string;
}.

Definition Pipe_init (closure : nat) : Pipe :=
  mkPipe ReaderOpen WriterOpen [] [] closure None.

(** What [read] returns: a completed future, or the future of the promise [p]. *)
Inductive reading := Data_ (s : string) | Failed (m : string) | Pending.

Definition read (p : nat) (d : Pipe) : checked (Pipe * reading) :=
  match readEnd d with
  | ReaderClosed => Returns (d, Failed "closed")
  | ReaderOpen =>
      match writes d with
      | s :: ws =>
          Returns (mkPipe (readEnd d) (writeEnd d) (reads d) ws (readerClosure d)
                     (failure d), Data_ s)
      | [] =>
          match writeEnd d with
          | WriterClosed => Returns (d, Data_ "")
          | WriterFailed =>
              match failure d with
              | Some m => Returns (d, Failed m)
              | None => Abort "CHECK_SOME(data->failure)"
              end
          | WriterOpen =>
              Returns (mkPipe (readEnd d) (writeEnd d) (reads d ++ [p]) (writes d)
                         (readerClosure d) (failure d), Pending)
          end
      end
  end.

(** [Reader::close]. *)
Definition close_reader (d : Pipe) : bool * Pipe * list op :=
  match readEnd d with
  | ReaderOpen =>
      (true,
       mkPipe ReaderClosed (writeEnd d) [] [] (readerClosure d) (failure d),
       (map (fun p => OPromiseFail p "closed") (reads d) ++
        [match writeEnd d with
         | WriterOpen => OPromiseSet (readerClosure d) VNothing
         | _ => OPromiseDiscard (readerClosure d)
         end])%list)
  | ReaderClosed => (false, d, [])
  end.

(** [Writer::write]. *)
Definition write (s : string) (d : Pipe) : bool * Pipe * list op :=
  match writeEnd d, readEnd d with
  | WriterOpen, ReaderOpen =>
      if decide (s = "") then (true, d, [])
      else
        match reads d with
        | [] =>
            (true, mkPipe (readEnd d) (writeEnd d) [] (writes d ++ [s])
                     (readerClosure d) (failure d), [])
        | p :: ps =>
            (true, mkPipe (readEnd d) (writeEnd d) ps (writes d) (readerClosure d)
                     (failure d), [OPromiseSet p (VString s)])
        end
  | _, _ => (false, d, [])
  end.

(** [Writer::close]. *)
Definition close_writer (d : Pipe) : bool * Pipe * list op :=
  match writeEnd d with
  | WriterOpen =>
      (true, mkPipe (readEnd d) WriterClosed [] (writes d) (readerClosure d) (failure d),
       map (fun p => OPromiseSet p (VString "")) (reads d))
  | _ => (false, d, [])
  end.

(** [Writer::fail]. *)
Definition fail_writer (m : string) (d : Pipe) : bool * Pipe * list op :=
  match writeEnd d with
  | WriterOpen =>
      (true, mkPipe (readEnd d) WriterFailed [] (writes d) (readerClosure d) (Some m),
       map (fun p => OPromiseFail p m) (reads d))
  | _ => (false, d, [])
  end.

(** ** Executions *)

Inductive request :=
| Read (p : nat) | CloseReader | Write (s : string) | CloseWriter | Fail (m : string).

(** The pipe, the data accepted from writers, the data delivered to readers, both in
    order, and the read promises created and completed. *)
Record trace := mkTrace {
  pipe : Pipe;
  wrote : list string;
  got : list string;
  asked : list nat;
  answered : list nat;
}.

Definition start (closure : nat) : trace := mkTrace (Pipe_init closure) [] [] [] [].

(** The read promises completed by operations, and the data they carry. *)
Definition answers (os : list op) : list nat :=
  omap (fun o => match o with
    | OPromiseSet p (VString _) | OPromiseFail p _ => Some p
    | _ => None end) os.
Definition data (os : list op) : list string :=
  omap (fun o => match o with
    | OPromiseSet _ (VString s) => if decide (s = "") then None else Some s
    | _ => None end) os.

Definition perform (t : trace) (r : request) : checked trace :=
  let after (x : bool * Pipe * list op) (w : list string) : checked trace :=
    let '(_, d, os) := x in
    Returns (mkTrace d (wrote t ++ w) (got t ++ data os) (asked t)
      (answered t ++ answers os)) in
  match r with
  | Read p =>
      match read p (pipe t) with
      | Returns (d, Data_ s) =>
          Returns (mkTrace d (wrote t)
            (got t ++ if decide (s = "") then [] else [s]) (asked t) (answered t))
      | Returns (d, Failed _) => Returns (mkTrace d (wrote t) (got t) (asked t) (answered t))
      | Returns (d, Pending) =>
          Returns (mkTrace d (wrote t) (got t) (asked t ++ [p]) (answered t))
      | Abort m => Abort m
      end
  | CloseReader => after (close_reader (pipe t)) []
  | Write s =>
      after (write s (pipe t))
        (match writeEnd (pipe t), readEnd (pipe t) with
         | WriterOpen, ReaderOpen => if decide (s = "") then [] else [s]
         | _, _ => []
         end)
  | CloseWriter => after (close_writer (pipe t)) []
  | Fail m => after (fail_writer m (pipe t)) []
  end.

Fixpoint execution (rs : list request) (t : trace) : checked trace :=
  match rs with
  | [] => Returns t
  | r :: rs =>
      match perform t r with Returns t' => execution rs t' | Abort m => Abort m end
  end.

(** ** The invariant *)
Definition inv (t : trace) : Prop :=
  let d := pipe t in
  (exists lost, wrote t = got t ++ writes d ++ lost /\
     (readEnd d = ReaderOpen -> lost = [])) /\
  asked t = answered t ++ reads d /\
  Forall (fun s => s <> "") (writes d) /\
  (writes d <> [] -> reads d = []) /\
  (readEnd d = ReaderClosed -> reads d = [] /\ writes d = []) /\
  (writeEnd d <> WriterOpen -> reads d = []) /\
  (writeEnd d = WriterFailed -> is_Some (failure d)).

Lemma omap_const {A B C} (f : A -> C) (g : C -> option B) (l : list A) (h : A -> option B) :
  (forall x, g (f x) = h x) -> omap g (map f l) = omap h l.
Proof. intros H. induction l as [|x l IH]; [done|]. simpl. rewrite H. destruct (h x); [f_equal|]; apply IH. Qed.

Lemma omap_some {A} (l : list A) : omap Some l = l.
Proof. induction l as [|x l IH]; [done|]. simpl. f_equal. apply IH. Qed.

Lemma omap_none {A B} (l : list A) : omap (fun _ => @None B) l = [].
Proof. by induction l. Qed.

Ltac settle :=
  split_and!; simpl; rewrite ?app_nil_r; eauto; try done; try (by rewrite <- !app_assoc).

Lemma read_inv t p t' : inv t -> perform t (Read p) = Returns t' -> inv t'.
Proof.
  intros ((lost & Hw & Hlost) & Ha & Hne & Hex & Hrc & Hwc & Hf). simpl. unfold read.
  destruct t as [[re we rs ws cl fl] w g a an]; simpl in *.
  destruct re; intros; simplify_eq/=.
  2: { settle. }
  specialize (Hlost eq_refl). subst lost. destruct ws as [|s ws]; simpl in *.
  - destruct we; simplify_eq/=.
    + settle. exists []. by rewrite !app_nil_r.
    + settle. exists []. by rewrite !app_nil_r.
    + destruct fl; simplify_eq/=. settle. exists []. by rewrite !app_nil_r.
  - apply Forall_cons in Hne as [Hs Hne]. destruct (decide (s = "")); [done|]; simplify_eq/=.
    settle. exists []. by rewrite !app_nil_r, <- app_assoc.
Qed.

Lemma closing_inv t r t' :
  match r with CloseReader | CloseWriter | Fail _ => True | _ => False end ->
  inv t -> perform t r = Returns t' -> inv t'.
Proof.
  intros Hr ((lost & Hw & Hlost) & Ha & Hne & Hex & Hrc & Hwc & Hf).
  destruct t as [[re we rs ws cl fl] w g a an]; simpl in *.
  assert (Hsome : forall (f : nat -> op), (forall p, match f p with
      | OPromiseSet p0 (VString _) | OPromiseFail p0 _ => Some p0 | _ => None end = Some p) ->
      forall l, answers (map f l) = l).
  { intros f Hx l. unfold answers. rewrite (omap_const f _ l Some Hx). apply omap_some. }
  assert (Hnone : forall (f : nat -> op), (forall p, match f p with
      | OPromiseSet _ (VString s) => if decide (s = "") then None else Some s
      | _ => None end = None) -> forall l, data (map f l) = []).
  { intros f Hx l. unfold data. rewrite (omap_const f _ l (fun _ => None) Hx). apply omap_none. }
  destruct r as [p| |s| |m]; try done; simpl.
  - unfold close_reader. simpl. destruct re; intros; simplify_eq/=.
    + unfold answers, data in *. rewrite !omap_app, Hsome, Hnone by done.
      split_and!; simpl; auto.
      * exists ws. split; [|done]. rewrite (Hlost eq_refl), !app_nil_r.
        by destruct we; rewrite ?app_nil_r.
      * by destruct we; simpl; rewrite !app_nil_r.
    + settle.
  - unfold close_writer. simpl. destruct we; intros; simplify_eq/=.
    + rewrite Hsome, Hnone by done. rewrite !app_nil_r.
      split_and!; simpl; rewrite ?app_nil_r; eauto; try done. naive_solver.
    + settle.
    + settle.
  - unfold fail_writer. simpl. destruct we; intros; simplify_eq/=.
    + rewrite Hsome, Hnone by done. rewrite !app_nil_r.
      split_and!; simpl; rewrite ?app_nil_r; eauto; try done. naive_solver.
    + settle.
    + settle.
Qed.

Lemma write_inv t s t' : inv t -> perform t (Write s) = Returns t' -> inv t'.
Proof.
  intros ((lost & Hw & Hlost) & Ha & Hne & Hex & Hrc & Hwc & Hf).
  destruct t as [[re we rs ws cl fl] w g a an]; simpl in *. unfold write. simpl.
  destruct we, re; intros; simplify_eq/=;
    try (split_and!; simpl; rewrite ?app_nil_r; eauto; fail).
  specialize (Hlost eq_refl). subst lost.
  destruct (decide (s = "")) as [->|Hs]; simplify_eq/=.
  { settle. exists []. by rewrite !app_nil_r. }
  destruct rs as [|p ps]; simplify_eq/=.
  - settle.
    + exists []. by rewrite !app_nil_r, <- app_assoc.
    + apply Forall_app. split; [done|]. by apply Forall_singleton.
  - assert (ws = []) as -> by (destruct ws; [done|by discriminate Hex]).
    destruct (decide (s = "")); [done|].
    settle. exists []. by rewrite !app_nil_r.
Qed.

Lemma pipe_execution_inv rs t :
  inv t -> exists t', execution rs t = Returns t' /\ inv t'.
Proof.
  revert t. induction rs as [|r rs IH]; intros t Hi; simpl; [eauto|].
  assert (exists t', perform t r = Returns t') as [t' Ht].
  { destruct r; simpl; try (destruct (_ : bool * Pipe * list op) as [[??]?]; eauto; fail).
    unfold read. destruct Hi as (_ & _ & _ & _ & _ & _ & Hf).
    repeat case_match; simplify_eq; eauto. by destruct Hf. }
  rewrite Ht. apply IH.
  destruct r; [by eapply read_inv| |by eapply write_inv| |]; (eapply closing_inv; [| |exact Ht]; done).
Qed.

Lemma pipe_inv_start closure : inv (start closure).
Proof. split_and!; simpl; auto; try done. by exists []. Qed.

(** A pipe delivers what was written, in order and without loss while the reader is
    open: whatever the sequence of operations, no [CHECK] fails, the data read so far
    followed by the data still in the pipe is the data accepted from the writer, and
    reads are answered in the order in which they were made; a read waits only while
    the pipe is empty and both ends are open, so closing or failing the writer leaves
    no read unanswered. *)
Theorem pipe_delivers_in_order closure rs :
  exists t, execution rs (start closure) = Returns t /\
    (exists lost, wrote t = got t ++ writes (pipe t) ++ lost /\
       (readEnd (pipe t) = ReaderOpen -> lost = [])) /\
    asked t = answered t ++ reads (pipe t) /\
    (reads (pipe t) <> [] -> writes (pipe t) = [] /\ readEnd (pipe t) = ReaderOpen /\
       writeEnd (pipe t) = WriterOpen).
Proof.
  destruct (pipe_execution_inv rs (start closure) (pipe_inv_start closure)) as (t & Hr & Hi).
  exists t. destruct Hi as (Hw & Ha & _ & Hex & Hrc & Hwc & _). split_and!; auto.
  intros Hne. destruct (writes (pipe t)) eqn:E1; [|by destruct Hne; apply Hex].
  destruct (readEnd (pipe t)) eqn:E2; [|by destruct Hne; apply Hrc].
  split_and!; auto. destruct (writeEnd (pipe t)); auto; by destruct Hne; apply Hwc.
Qed.
