(* ===== verification/Encoders.v ===== *)
(** Encoders and the loop that sends them: [encoder.hpp] ([Encoder], [DataEncoder],
    [FileEncoder], [MessageEncoder]) and [internal::_send] of [process.cpp].

    Data are lists of bytes.  The socket is outside: how many bytes each call of
    [send] or [sendfile] takes is a parameter. *)

From Stdlib Require Import Ascii Hexadecimal HexadecimalString HexadecimalNat.
From S2P Require Import Prelude.

Notation bytes := (list ascii) (only parsing).
Definition bytes_of (s : string) : bytes := String.list_ascii_of_string s.
Definition CRLF : bytes := ["013"; "010"]%char.

(** ** The interface of encoders

    [content] is everything the encoder stands for, [position] how much of it was
    handed out; [enc_next] returns the offset and the length of the piece to send. *)
Class Encoder (E : Type) := {
  content : E -> bytes;
  position : E -> nat;
  enc_next : E -> nat * nat * E;
  enc_backup : nat -> E -> E;
  enc_remaining : E -> nat;
}.

Class EncoderLaws (E : Type) `{Encoder E} := {
  next_piece e o n e' : enc_next e = (o, n, e') -> position e <= length (content e) ->
    o = position e /\ n = length (content e) - position e /\
    content e' = content e /\ position e' = length (content e);
  backup_moves k e : k <= position e ->
    content (enc_backup k e) = content e /\ position (enc_backup k e) = position e - k;
  remaining_rest e : position e <= length (content e) ->
    enc_remaining e = length (content e) - position e;
}.

(** [DataEncoder]. *)
Record DataEncoder := mkData { data : bytes; data_index : nat }.

Definition DataEncoder_next (d : DataEncoder) : nat * nat * DataEncoder :=
  (data_index d, length (data d) - data_index d, mkData (data d) (length (data d))).
Definition DataEncoder_backup (n : nat) (d : DataEncoder) : DataEncoder :=
  if n <=? data_index d then mkData (data d) (data_index d - n) else d.
Definition DataEncoder_remaining (d : DataEncoder) : nat :=
  length (data d) - data_index d.

#[global] Instance data_encoder : Encoder DataEncoder := {
  content := data; position := data_index; enc_next := DataEncoder_next;
  enc_backup := DataEncoder_backup; enc_remaining := DataEncoder_remaining }.

#[global] Instance data_encoder_laws : EncoderLaws DataEncoder.
Proof.
  split; simpl.
  - intros e o n e'. unfold DataEncoder_next. intros. by simplify_eq/=.
  - intros k e Hk. unfold DataEncoder_backup. by rewrite (proj2 (Nat.leb_le _ _) Hk).
  - done.
Qed.

(** [FileEncoder]: the file has [file_size] bytes, of which [file] is the content. *)
Record FileEncoder := mkFile { file : bytes; file_index : nat }.
Definition file_size (f : FileEncoder) : nat := length (file f).

Definition FileEncoder_next (f : FileEncoder) : nat * nat * FileEncoder :=
  (file_index f, file_size f - file_index f, mkFile (file f) (file_size f)).
Definition FileEncoder_backup (n : nat) (f : FileEncoder) : FileEncoder :=
  if n <=? file_index f then mkFile (file f) (file_index f - n) else f.
Definition FileEncoder_remaining (f : FileEncoder) : nat := file_size f - file_index f.

#[global] Instance file_encoder : Encoder FileEncoder := {
  content := file; position := file_index; enc_next := FileEncoder_next;
  enc_backup := FileEncoder_backup; enc_remaining := FileEncoder_remaining }.

#[global] Instance file_encoder_laws : EncoderLaws FileEncoder.
Proof.
  split; simpl.
  - intros e o n e'. unfold FileEncoder_next. intros. by simplify_eq/=.
  - intros k e Hk. unfold FileEncoder_backup. by rewrite (proj2 (Nat.leb_le _ _) Hk).
  - done.
Qed.

(** ** The loop of [_send] *)
Inductive send_result := SendDone | SendFailed | SendMore.

Section Send.
Context {E : Type} `{EncoderLaws E}.

(** How many of [n] bytes the [i]-th call takes, or a failure. *)
Context (transmit : nat -> nat -> option nat).

(** [_send]: the bytes that went out, and whether the encoder was sent completely,
    the socket failed, or ([SendMore]) the [fuel] calls were not enough. *)
Fixpoint _send (fuel i : nat) (e : E) : bytes * send_result :=
  match fuel with
  | 0 => ([], SendMore)
  | S fuel =>
      let '(offset, size, e1) := enc_next e in
      match transmit i size with
      | None => ([], SendFailed)
      | Some sent =>
          let out := take sent (drop offset (content e)) in
          let e2 := enc_backup (size - sent) e1 in
          if Nat.eqb (enc_remaining e2) 0 then (out, SendDone)
          else let '(more, r) := _send fuel (S i) e2 in (out ++ more, r)
      end
  end.

(** A socket never takes more than it is given, and takes something if it can. *)
Definition takes_at_most : Prop :=
  forall i n k, transmit i n = Some k -> k <= n.
Definition makes_progress : Prop :=
  forall i n, 0 < n -> exists k, transmit i n = Some k /\ 0 < k.

Context (Hmost : takes_at_most).

(** One round of the loop. *)
Lemma send_round i e o n e1 k :
  position e <= length (content e) -> enc_next e = (o, n, e1) -> transmit i n = Some k ->
  let e2 := enc_backup (n - k) e1 in
  content e2 = content e /\ position e2 = position e + k /\
  position e2 <= length (content e) /\ n = length (content e) - position e /\
  o = position e /\ enc_remaining e2 = length (content e) - position e2.
Proof.
  intros Hp He Hk e2. pose proof (Hmost _ _ _ Hk).
  destruct (next_piece e o n e1 He Hp) as (-> & Hn & Hc & Hq).
  destruct (backup_moves (n - k) e1) as [Hc2 Hp2]; [lia|].
  assert (position e2 = position e + k) by (unfold e2; lia).
  assert (content e2 = content e) as Hce by (unfold e2; congruence).
  split_and!; auto; try lia. rewrite remaining_rest; rewrite Hce; lia.
Qed.

Lemma take_drop_app (b : bytes) p k q :
  k <= length b - p -> take k (drop p b) ++ take q (drop (p + k) b) = take (k + q) (drop p b).
Proof.
  intros Hk. rewrite <- (take_drop k (drop p b)) at 2. rewrite take_app, length_take, length_drop.
  rewrite drop_drop. rewrite (take_ge (take k (drop p b)) (k + q))
    by (rewrite length_take, length_drop; lia).
  f_equal. f_equal. lia.
Qed.

(** What went out is always a piece of the content that starts at the position. *)
Lemma send_prefix fuel : forall i e,
  position e <= length (content e) ->
  exists q, (_send fuel i e).1 = take q (drop (position e) (content e)) /\
    q <= length (content e) - position e /\
    ((_send fuel i e).2 = SendDone -> q = length (content e) - position e).
Proof.
  induction fuel as [|fuel IH]; simpl; intros i e Hp; [exists 0; split_and!; [done|lia|done]|].
  destruct (enc_next e) as [[o n] e1] eqn:He.
  destruct (transmit i n) as [k|] eqn:Hk; [|exists 0; split_and!; [done|lia|done]].
  destruct (send_round i e o n e1 k Hp He Hk) as (Hc & Hp2 & Hle & Hn & -> & Hr).
  pose proof (Hmost _ _ _ Hk). set (e2 := enc_backup (n - k) e1) in *.
  destruct (Nat.eqb (enc_remaining e2) 0) eqn:Hz.
  - apply Nat.eqb_eq in Hz. exists k. split_and!; [done|lia|]. intros _. lia.
  - destruct (IH (S i) e2) as (q & Hout & Hq & Hdone); [by rewrite Hc|].
    destruct (_send fuel (S i) e2) as [more r]. simpl in *.
    exists (k + q). rewrite Hout, Hc, Hp2. rewrite Hc in *. split_and!; [|lia|].
    + apply take_drop_app. lia.
    + intros Hd. specialize (Hdone Hd). lia.
Qed.

(** With progress the loop ends. *)
Lemma send_ends fuel : makes_progress -> forall i e,
  position e < length (content e) -> length (content e) - position e <= fuel ->
  (_send fuel i e).2 = SendDone.
Proof.
  intros Hprog. induction fuel as [|fuel IH]; simpl; intros i e Hp Hf; [lia|].
  destruct (enc_next e) as [[o n] e1] eqn:He.
  destruct (next_piece e o n e1 He) as (_ & Hn & _); [lia|].
  destruct (Hprog i n) as (k & Hk & Hpos); [lia|]. rewrite Hk.
  destruct (send_round i e o n e1 k) as (Hc & Hp2 & Hle & _ & _ & Hr); auto; [lia|].
  set (e2 := enc_backup (n - k) e1) in *.
  destruct (Nat.eqb (enc_remaining e2) 0) eqn:Hz; [done|]. apply Nat.eqb_neq in Hz.
  specialize (IH (S i) e2). destruct (_send fuel (S i) e2) as [more r]. simpl in *.
  apply IH; rewrite Hc; lia.
Qed.

End Send.

(** [_send] writes an encoder's bytes exactly: however the socket splits them, what
    went out is a prefix of what was left to send, without gap or repetition; if the
    socket keeps accepting data the loop ends, after at most as many calls as there
    are bytes, with everything sent. *)
Theorem send_writes_everything {E : Type} `{EncoderLaws E} transmit (e : E) :
  takes_at_most transmit -> position e < length (content e) ->
  (forall fuel i, (_send transmit fuel i e).1 `prefix_of` drop (position e) (content e)) /\
  (makes_progress transmit ->
   _send transmit (length (content e)) 0 e = (drop (position e) (content e), SendDone)).
Proof.
  intros Hmost Hp. split.
  - intros fuel i. destruct (send_prefix transmit Hmost fuel i e) as (q & -> & _); [lia|].
    exists (drop q (drop (position e) (content e))). by rewrite take_drop.
  - intros Hprog.
    pose proof (send_ends transmit Hmost (length (content e)) Hprog 0 e Hp ltac:(lia)) as Hd.
    destruct (send_prefix transmit Hmost (length (content e)) 0 e) as (q & Ho & _ & Hq); [lia|].
    destruct (_send transmit (length (content e)) 0 e) as [out r]. simpl in *.
    subst. f_equal. rewrite Hq by done. apply take_ge. rewrite length_drop. lia.
Qed.

Lemma send_writes_everything_witness :
  _send (fun _ n => Some (Nat.min n 2)) 5 0 (mkData (bytes_of "hello") 0)
  = (bytes_of "hello", SendDone).
Proof.
  destruct (send_writes_everything (fun _ n => Some (Nat.min n 2))
              (mkData (bytes_of "hello") 0)) as [_ H].
  - intros i n k Hk. injection Hk as <-. lia.
  - simpl. lia.
  - apply H. intros i n Hn. exists (Nat.min n 2). split; [reflexivity|lia].
Defined.

(** ** Chunked bodies *)

(** [out << std::hex << n]. *)
Definition hex (n : nat) : bytes :=
  bytes_of (NilEmpty.string_of_uint (Nat.to_hex_uint n)).

(** A chunk and the end of a body, as [MessageEncoder::encode] and
    [HttpProxy::stream] write them. *)
Definition chunk (b : bytes) : bytes := hex (length b) ++ CRLF ++ b ++ CRLF.
Definition last_chunk : bytes := bytes_of "0" ++ CRLF ++ CRLF.

(** The decoder of the chunked transfer coding (RFC 7230, section 4.1, without
    extensions and trailers), the reference for what was written. *)
Fixpoint split_line (b : bytes) : option (bytes * bytes) :=
  match b with
  | [] => None
  | c :: b' =>
      if bool_decide (CRLF `prefix_of` b) then Some ([], drop 2 b)
      else match split_line b' with
      | Some (l, r) => Some (c :: l, r)
      | None => None
      end
  end.

Definition parse_hex (l : bytes) : option nat :=
  match l with
  | [] => None
  | _ => option_map Nat.of_hex_uint (NilEmpty.uint_of_string (String.string_of_list_ascii l))
  end.

Fixpoint dechunk (fuel : nat) (b : bytes) : option bytes :=
  match fuel, split_line b with
  | S fuel, Some (l, rest) =>
      match parse_hex l with
      | None => None
      | Some 0 => if bool_decide (rest = CRLF) then Some [] else None
      | Some n =>
          if bool_decide (n <= length rest) && bool_decide (CRLF `prefix_of` drop n rest)
          then option_map (app (take n rest)) (dechunk fuel (drop (n + 2) rest))
          else None
      end
  | _, _ => None
  end.

Lemma hex_parse n : parse_hex (hex n) = Some n.
Proof.
  unfold parse_hex, hex, bytes_of.
  destruct (String.list_ascii_of_string _) as [|c l] eqn:E.
  - exfalso. destruct (Nat.to_hex_uint n) eqn:Hn; simpl in E; try done.
    pose proof (Unsigned.of_to n) as Hof. rewrite Hn in Hof. simpl in Hof. by subst n.
  - rewrite <- E, String.string_of_list_ascii_of_string, NilEmpty.usu. simpl.
    by rewrite Unsigned.of_to.
Qed.

(** Hexadecimal digits contain no carriage return. *)
Lemma hex_no_cr n : "013"%char ∉ hex n.
Proof.
  unfold hex. induction (Nat.to_hex_uint n); simpl;
    rewrite ?not_elem_of_cons; split_and?; try done; apply not_elem_of_nil.
Qed.

Lemma split_line_app l rest : "013"%char ∉ l -> split_line (l ++ CRLF ++ rest) = Some (l, rest).
Proof.
  induction l as [|c l IH]; intros Hl.
  - change ([] ++ CRLF ++ rest) with ("013"%char :: "010"%char :: rest). cbn [split_line].
    rewrite bool_decide_eq_true_2; [done|]. by exists rest.
  - apply not_elem_of_cons in Hl as [Hc Hl].
    change ((c :: l) ++ CRLF ++ rest) with (c :: (l ++ CRLF ++ rest)). cbn [split_line].
    rewrite bool_decide_eq_false_2.
    + by rewrite (IH Hl).
    + intros [k Hk]. by simplify_list_eq.
Qed.

Lemma dechunk_chunk fuel b rest :
  b <> [] -> dechunk (S fuel) (chunk b ++ rest) = option_map (app b) (dechunk fuel rest).
Proof.
  intros Hb. unfold chunk. rewrite <- !(assoc_L (++)). cbn [dechunk].
  rewrite split_line_app by apply hex_no_cr. rewrite hex_parse.
  destruct (length b) as [|n] eqn:Hn; [by destruct b|].
  rewrite bool_decide_eq_true_2 by (rewrite length_app; lia).
  rewrite drop_app_length' by done. rewrite bool_decide_eq_true_2 by (by exists rest).
  simpl andb. cbv iota. rewrite take_app_length' by done. f_equal. f_equal.
  replace (S n + 2) with (length (b ++ CRLF)) by (rewrite length_app; simpl; lia).
  rewrite (assoc_L (++)). by rewrite drop_app_length.
Qed.

(** ** [MessageEncoder::encode]

    [from] is the printed sender. *)
Record Message := mkMessage { name : bytes; from : bytes; to_id : bytes; body : bytes }.

Definition MessageEncoder_head (m : Message) : bytes :=
  bytes_of "POST " ++ (if decide (to_id m = []) then [] else bytes_of "/" ++ to_id m)
  ++ bytes_of "/" ++ name m ++ bytes_of " HTTP/1.1" ++ CRLF
  ++ bytes_of "User-Agent: libprocess/" ++ from m ++ CRLF
  ++ bytes_of "Libprocess-From: " ++ from m ++ CRLF
  ++ bytes_of "Connection: Keep-Alive" ++ CRLF
  ++ bytes_of "Host: " ++ CRLF.

Definition MessageEncoder_encode (m : Message) : bytes :=
  MessageEncoder_head m ++
  (if decide (0 < length (body m)) then
     bytes_of "Transfer-Encoding: chunked" ++ CRLF ++ CRLF
     ++ hex (length (body m)) ++ CRLF ++ body m ++ CRLF ++ bytes_of "0" ++ CRLF ++ CRLF
   else CRLF).

Lemma dechunk_chunks pieces :
  Forall (fun b => b <> []) pieces ->
  dechunk (S (length pieces)) (concat (map chunk pieces) ++ last_chunk)
  = Some (concat pieces).
Proof.
  induction 1 as [|b pieces Hb _ IH]; [done|].
  cbn [map concat length]. rewrite <- (assoc_L (++)), dechunk_chunk by done.
  by rewrite IH.
Qed.

(** The chunked bodies that the library writes decode to what was written: for
    any sequence of non-empty pieces, their chunks followed by the last chunk are one
    well-formed body whose content is the pieces in order; and the body of an encoded
    message decodes to the message's body. *)
Theorem chunked_roundtrip pieces m :
  Forall (fun b => b <> []) pieces -> body m <> [] ->
  dechunk (S (length pieces)) (concat (map chunk pieces) ++ last_chunk)
  = Some (concat pieces) /\
  exists b, MessageEncoder_encode m
    = MessageEncoder_head m ++ bytes_of "Transfer-Encoding: chunked" ++ CRLF ++ CRLF ++ b /\
    dechunk 2 b = Some (body m).
Proof.
  intros Hp Hb. split; [by apply dechunk_chunks|].
  exists (concat (map chunk [body m]) ++ last_chunk). split.
  - unfold MessageEncoder_encode. rewrite decide_True by (destruct (body m); simpl; [done|lia]).
    unfold chunk, last_chunk. cbn [map concat]. rewrite app_nil_r.
    by rewrite <- !(assoc_L (++)).
  - change 2 with (S (length [body m])). rewrite dechunk_chunks by auto.
    simpl. by rewrite app_nil_r.
Qed.

Lemma chunked_roundtrip_witness :
  dechunk 3 (concat (map chunk [bytes_of "a"; bytes_of "bc"]) ++ last_chunk)
  = Some (bytes_of "abc").
Proof.
  apply (chunked_roundtrip [bytes_of "a"; bytes_of "bc"]
           (mkMessage (bytes_of "n") (bytes_of "f") (bytes_of "t") (bytes_of "b"))).
  - repeat constructor; discriminate.
  - discriminate.
Defined.
