(* ===== verification/HttpProxy.v ===== *)
(** The process that answers the requests of one connection: [http_proxy.hpp],
    [http_proxy.cpp].

    Handlers run in the process, one at a time.  A handler returns what it asks for
    ([effect]) in program order: responses to send, futures to wait for ([onAny] with
    [defer]), reads of the pipe that is being streamed.  The outcome of opening the
    file of a [PATH] response is an argument. *)

From stdpp Require Import pretty.
From S2P Require Import Prelude Encoders.

(** ** Data *)
Record Request := mkRequest { request_id : nat; keepAlive : bool }.

Inductive response_type := NONE | BODY | PATH | PIPE.

Record Response := mkResponse {
  status : string;
  type : response_type;
  headers : gmap string string;
  body : string;
  path : string;
  reader : option nat;
}.

(** [Response(body, code)]. *)
Definition BodyResponse (status body : string) : Response :=
  mkResponse status BODY
    (<["Content-Type" := "text/plain; charset=utf-8"]>
       (<["Content-Length" := pretty (String.length body)]> ∅)) body "" None.

Definition InternalServerError (body : string) : Response :=
  BodyResponse "500 Internal Server Error" body.
Definition InternalServerError_default : Response :=
  InternalServerError "500 Internal Server Error.".
Definition NotFound : Response := BodyResponse "404 Not Found" "404 Not Found.".

(** A completed future. *)
Inductive outcome (A : Type) :=
| Ready (a : A)
| Failed (m : string)
| Discarded.
Arguments Ready {A} a.
Arguments Failed {A} m.
Arguments Discarded {A}.

(** What opening and examining the file of a response gives: no such file, another
    error of [open], or a descriptor for which [stat] fails, which is a directory, or
    which is a file of some size. *)
Inductive opened :=
| Missing
| OpenError
| StatError (fd : nat)
| Directory (fd : nat)
| File (fd size : nat).

Record Item := mkItem { request : Request; future : nat }.

Record HttpProxy := mkProxy { items : list Item; pipe : option nat }.

Definition HttpProxy_init : HttpProxy := mkProxy [] None.

(** The ways in which the proxy uses [SocketManager::send]. *)
Inductive sending :=
| SendResponse (r : Response)
| SendHead (r : Response) (persist : bool)
| SendFile (fd size : nat) (persist : bool)
| SendData (b : list Ascii.ascii) (persist : bool).

Inductive effect :=
| Send (r : Request) (s : sending)
| Wait (f : nat)
| Read (reader : nat) (r : Request)
| CloseReader (reader : nat)
| Discard (f : nat)
| Unproxy.

(** ** Handlers *)

Definition next (p : HttpProxy) : list effect :=
  match items p with
  | [] => []
  | i :: _ => [Wait (future i)]
  end.

Definition handle (f : nat) (r : Request) (p : HttpProxy) : HttpProxy * list effect :=
  let p' := mkProxy (items p ++ [mkItem r f]) (pipe p) in
  (p', if Nat.eqb (length (items p')) 1 then next p' else []).

(** [enqueue]: [f] is the future that is ready with the response. *)
Definition enqueue (f : nat) (r : Request) (p : HttpProxy) : HttpProxy * list effect :=
  handle f r p.

Definition set_header (k v : string) (r : Response) : Response :=
  mkResponse (status r) (type r) (<[k := v]> (headers r)) (body r) (path r) (reader r).
Definition clear_body (r : Response) : Response :=
  mkResponse (status r) (type r) (headers r) "" (path r) (reader r).

(** The case of [process] for a response that is a file. *)
Definition process_path (o : opened) (response : Response) (r : Request) : list effect :=
  let response := clear_body response in
  match o with
  | Missing => [Send r (SendResponse NotFound)]
  | OpenError => [Send r (SendResponse InternalServerError_default)]
  | StatError _ => [Send r (SendResponse InternalServerError_default)]
  | Directory _ => [Send r (SendResponse NotFound)]
  | File fd size =>
      let response := set_header "Content-Length" (pretty size) response in
      if Nat.eqb size 0 then [Send r (SendResponse response)]
      else [Send r (SendHead response true); Send r (SendFile fd size (keepAlive r))]
  end.

(** [process]; [true] when the next response may be processed. *)
Definition process (o : outcome Response) (files : opened) (r : Request) (p : HttpProxy)
    : checked (bool * HttpProxy * list effect) :=
  match o with
  | Failed m => Returns (true, p, [Send r (SendResponse (InternalServerError m))])
  | Discarded =>
      Returns (true, p, [Send r (SendResponse (InternalServerError "discarded future"))])
  | Ready response =>
      match type response with
      | PATH => Returns (true, p, process_path files response r)
      | PIPE =>
          let response :=
            set_header "Transfer-Encoding" "chunked" (clear_body response) in
          match reader response with
          | None => Abort "CHECK_SOME(response.reader)"
          | Some rd =>
              Returns (false, mkProxy (items p) (Some rd),
                       [Send r (SendHead response true); Read rd r])
          end
      | NONE | BODY => Returns (true, p, [Send r (SendResponse response)])
      end
  end.

Definition waited (f : nat) (o : outcome Response) (files : opened) (p : HttpProxy)
    : checked (HttpProxy * list effect) :=
  match items p with
  | [] => Abort "CHECK(items.size() > 0)"
  | item :: _ =>
      if negb (Nat.eqb f (future item)) then Abort "CHECK(future == item->future)"
      else match process o files (request item) p with
      | Abort m => Abort m
      | Returns (processed, p1, es) =>
          let p2 := mkProxy (tail (items p1)) (pipe p1) in
          Returns (p2, es ++ if processed then next p2 else [])
      end
  end.

Definition stream (r : Request) (chunk_ : outcome (list Ascii.ascii)) (p : HttpProxy)
    : checked (HttpProxy * list effect) :=
  match pipe p with
  | None => Abort "CHECK_SOME(pipe)"
  | Some rd =>
      let p' := mkProxy (items p) None in
      let finished := CloseReader rd :: next p' in
      match chunk_ with
      | Ready [] => Returns (p', Send r (SendData last_chunk (keepAlive r)) :: finished)
      | Ready b => Returns (p, [Read rd r; Send r (SendData (chunk b) true)])
      | Failed _ | Discarded =>
          Returns (p', Send r (SendResponse InternalServerError_default) :: finished)
      end
  end.

(** [finalize]: [ready] tells the reader of a future that is ready with a stream. *)
Definition finalize_proxy (ready : nat -> option nat) (p : HttpProxy)
    : HttpProxy * list effect :=
  (HttpProxy_init,
   (match pipe p with Some rd => [CloseReader rd] | None => [] end)
   ++ concat (map (fun i => Discard (future i) ::
        match ready (future i) with Some rd => [CloseReader rd] | None => [] end) (items p))
   ++ [Unproxy]).

(** The descriptor of the file, and whether an encoder (which closes it) takes it. *)
Definition descriptor (o : opened) : option nat :=
  match o with
  | Missing | OpenError => None
  | StatError fd | Directory fd | File fd _ => Some fd
  end.
Definition hands_over (fd : nat) (es : list effect) : bool :=
  existsb (fun e => match e with Send _ (SendFile fd' _ _) => Nat.eqb fd fd' | _ => false end) es.

(** The descriptor of an opened file is given to an encoder exactly when the file is
    not empty; in the other cases nothing closes it. *)
Theorem descriptor_kept_open o response r fd :
  descriptor o = Some fd ->
  hands_over fd (process_path o response r) = true <-> exists n, o = File fd (S n).
Proof.
  intros Ho. destruct o as [| |fd'|fd'|fd' [|n]]; simplify_eq/=.
  1-3: split; [done|by intros (n & ?)].
  rewrite Nat.eqb_refl. split; eauto.
Qed.

(** ** Executions

    The callbacks that are registered and have not run, the requests in the order in
    which they were handled, and what was sent for which request. *)
Record world := mkWorld {
  proxy : HttpProxy;
  waits : list nat;
  reads : list Request;
  handled : list Request;
  sent : list (Request * sending);
}.

Definition start : world := mkWorld HttpProxy_init [] [] [] [].

Inductive event :=
| Handle (f : nat) (r : Request)
| Waited (i : nat) (o : outcome Response) (files : opened)
| Stream (i : nat) (b : outcome (list Ascii.ascii)).

Definition waits_of (es : list effect) : list nat :=
  omap (fun e => match e with Wait f => Some f | _ => None end) es.
Definition reads_of (es : list effect) : list Request :=
  omap (fun e => match e with Read _ r => Some r | _ => None end) es.
Definition sent_of (es : list effect) : list (Request * sending) :=
  omap (fun e => match e with Send r s => Some (r, s) | _ => None end) es.

Definition after (w : world) (ws : list nat) (rs : list Request) (c : checked (HttpProxy * list effect))
    : checked world :=
  match c with
  | Abort m => Abort m
  | Returns (p, es) =>
      Returns (mkWorld p (ws ++ waits_of es) (rs ++ reads_of es) (handled w)
                 (sent w ++ sent_of es))
  end.

Definition perform (e : event) (w : world) : option (checked world) :=
  match e with
  | Handle f r =>
      Some (after (mkWorld (proxy w) (waits w) (reads w) (handled w ++ [r]) (sent w))
              (waits w) (reads w) (Returns (handle f r (proxy w))))
  | Waited i o files =>
      match waits w !! i with
      | Some f => Some (after w (delete i (waits w)) (reads w) (waited f o files (proxy w)))
      | None => None
      end
  | Stream i b =>
      match reads w !! i with
      | Some r => Some (after w (waits w) (delete i (reads w)) (stream r b (proxy w)))
      | None => None
      end
  end.

(** Executions in which no request arrives while a stream is being sent and no other
    request waits behind it, and streamed responses have a reader. *)
Definition orderly (e : event) (w : world) : Prop :=
  match e with
  | Handle _ _ => pipe (proxy w) = None \/ items (proxy w) <> []
  | Waited _ (Ready response) _ => type response = PIPE -> reader response <> None
  | _ => True
  end.

Inductive reachable : world -> Prop :=
| reachable_start : reachable start
| reachable_step e w w' :
    reachable w -> orderly e w -> perform e w = Some (Returns w') -> reachable w'.

Fixpoint run_events (es : list event) (w : world) : option (checked world) :=
  match es with
  | [] => Some (Returns w)
  | e :: es =>
      match perform e w with
      | Some (Returns w') => run_events es w'
      | r => r
      end
  end.

Fixpoint all_orderly (es : list event) (w : world) : Prop :=
  match es with
  | [] => True
  | e :: es =>
      orderly e w /\
      match perform e w with Some (Returns w') => all_orderly es w' | _ => True end
  end.

Lemma run_events_reachable es w w' :
  reachable w -> all_orderly es w -> run_events es w = Some (Returns w') -> reachable w'.
Proof.
  revert w. induction es as [|e es IH]; simpl; intros w Hw Ho H; [by simplify_eq|].
  destruct Ho as [Ho Hes]. destruct (perform e w) as [[w1|]|] eqn:E; simplify_eq.
  eauto using reachable_step.
Qed.

(** ** The invariant *)

(** Everything sent for one request. *)
Definition group : Type := Request * list sending.
Definition expand (g : group) : list (Request * sending) := map (pair g.1) g.2.

(** What was sent are complete answers, in the order of the requests; [now] is the
    request that is being streamed. *)
Definition answered (w : world) (now : option Request) : Prop :=
  exists gs : list group,
    sent w = concat (map expand gs) /\ Forall (fun g => g.2 <> []) gs /\
    handled w = map fst gs ++ map request (items (proxy w)) /\
    forall r, now = Some r -> exists gs' ss, gs = gs' ++ [(r, ss)].

Definition inv (w : world) : Prop :=
  match pipe (proxy w) with
  | None =>
      reads w = [] /\ waits w = waits_of (next (proxy w)) /\ answered w None
  | Some _ => exists r, reads w = [r] /\ waits w = [] /\ answered w (Some r)
  end.

Lemma waits_of_app es es' : waits_of (es ++ es') = waits_of es ++ waits_of es'.
Proof. apply omap_app. Qed.
Lemma reads_of_app es es' : reads_of (es ++ es') = reads_of es ++ reads_of es'.
Proof. apply omap_app. Qed.
Lemma sent_of_app es es' : sent_of (es ++ es') = sent_of es ++ sent_of es'.
Proof. apply omap_app. Qed.

Lemma next_only_waits p : reads_of (next p) = [] /\ sent_of (next p) = [].
Proof. unfold next. by destruct (items p). Qed.

(** A response is sent, and possibly a stream is begun, for the request given. *)
Lemma process_spec o files r p :
  (match o with Ready response => type response = PIPE -> reader response <> None
   | _ => True end) ->
  exists b p1 es ss, process o files r p = Returns (b, p1, es) /\ items p1 = items p /\
    waits_of es = [] /\ sent_of es = map (pair r) ss /\ ss <> [] /\
    if b then p1 = p /\ reads_of es = [] else is_Some (pipe p1) /\ reads_of es = [r].
Proof.
  intros Ho. destruct o as [resp|m|]; simpl.
  - destruct (type resp) eqn:Ht.
    + eexists true, p, _, [_]. by split_and!.
    + eexists true, p, _, [_]. by split_and!.
    + unfold process_path. destruct files as [| |fd|fd|fd [|n]]; simpl.
      1-5: eexists true, p, _, [_]; by split_and!.
      eexists true, p, _, [_; _]. by split_and!.
    + destruct (reader resp) as [rd|]; [|by destruct (Ho eq_refl)].
      eexists false, _, _, [_]. by split_and!.
  - eexists true, p, _, [_]. by split_and!.
  - eexists true, p, _, [_]. by split_and!.
Qed.

(** The request at the front is answered. *)
Lemma answered_pop w p2 r f rest ws rs ss now :
  answered w None -> items (proxy w) = mkItem r f :: rest -> items p2 = rest ->
  ss <> [] -> now = None \/ now = Some r ->
  answered (mkWorld p2 ws rs (handled w) (sent w ++ map (pair r) ss)) now.
Proof.
  intros (gs & Hs & Hne & Hh & _) Hi Hp Hss Hnow. exists (gs ++ [(r, ss)]). simpl.
  rewrite Hs, Hh, Hi, Hp, !map_app, concat_app. simpl. rewrite app_nil_r.
  split_and!; [done| |by rewrite <- (assoc_L (++))|].
  - apply Forall_app. auto.
  - intros r' Hr. exists gs, ss. by destruct Hnow; simplify_eq.
Qed.

(** More is sent for the request that is being streamed. *)
Lemma answered_more w p2 r ws rs s now :
  answered w (Some r) -> items p2 = items (proxy w) -> now = None \/ now = Some r ->
  answered (mkWorld p2 ws rs (handled w) (sent w ++ [(r, s)])) now.
Proof.
  intros (gs & Hs & Hne & Hh & Hnow) Hp Hn. destruct (Hnow r eq_refl) as (gs' & ss & ->).
  exists (gs' ++ [(r, ss ++ [s])]). simpl.
  rewrite Hs, Hh, Hp, !map_app, !concat_app. simpl. unfold expand. simpl.
  rewrite map_app, !app_nil_r. apply Forall_app in Hne as [Hne _].
  split_and!; [by rewrite <- (assoc_L (++))| |done|].
  - apply Forall_app. split; [done|]. constructor; [|done]. simpl. by destruct ss.
  - intros r' ->. exists gs', (ss ++ [s]). by destruct Hn; simplify_eq.
Qed.

Lemma handle_inv w f r :
  inv w -> (pipe (proxy w) = None \/ items (proxy w) <> []) ->
  exists w', perform (Handle f r) w = Some (Returns w') /\ inv w'.
Proof.
  intros Hi Ho. eexists; split; [reflexivity|]. unfold inv in *. simpl.
  assert (Hans : forall now, answered w now -> forall ws rs es,
    answered (mkWorld (mkProxy (items (proxy w) ++ [mkItem r f]) (pipe (proxy w))) ws rs
      (handled w ++ [r]) (sent w ++ sent_of (if Nat.eqb (length (items (proxy w) ++ [mkItem r f])) 1
                     then next (mkProxy (items (proxy w) ++ [mkItem r f]) es) else []))) now).
  { intros now (gs & Hs & Hne & Hh & Hnow) ws rs es. exists gs. simpl.
    rewrite map_app, Hh, (assoc_L (++)). split_and!; auto.
    destruct (Nat.eqb _ 1); [rewrite (proj2 (next_only_waits _))|]; by rewrite app_nil_r. }
  destruct (pipe (proxy w)) as [rd|].
  - destruct Ho as [|Ho]; [done|]. destruct Hi as (r0 & -> & -> & Ha). exists r0.
    assert (Nat.eqb (length (items (proxy w) ++ [mkItem r f])) 1 = false) as Hl.
    { rewrite length_app. destruct (items (proxy w)); [done|]. simpl. apply Nat.eqb_neq. lia. }
    specialize (Hans _ Ha). rewrite Hl in *. split_and!; auto. by apply (Hans _ _ None).
  - destruct Hi as (-> & -> & Ha). specialize (Hans _ Ha).
    destruct (items (proxy w)) as [|i l] eqn:Hit; simpl in *.
    + unfold next at 1. rewrite Hit. split_and!; auto. by apply (Hans _ _ None).
    + rewrite length_app in *. simpl in *.
      replace (length l + 1) with (S (length l)) in * by lia. unfold next. rewrite Hit.
      split_and!; auto. by apply (Hans _ _ None).
Qed.

Lemma waited_inv w i o files f :
  inv w -> orderly (Waited i o files) w -> waits w !! i = Some f ->
  exists w', perform (Waited i o files) w = Some (Returns w') /\ inv w'.
Proof.
  intros Hi Ho Hf. simpl. rewrite Hf. unfold inv in Hi.
  destruct (pipe (proxy w)) as [rd|] eqn:Hpipe.
  { destruct Hi as (r & _ & Hw & _). rewrite Hw in Hf. done. }
  destruct Hi as (Hr & Hw & Ha). unfold next in Hw.
  destruct (items (proxy w)) as [|[r g] rest] eqn:Hit; rewrite Hw in *; [done|].
  destruct i as [|i]; [|done]. simpl in Hf. simplify_eq. unfold waited. rewrite Hit. simpl.
  rewrite Nat.eqb_refl. simpl.
  destruct (process_spec o files r (proxy w) Ho)
    as (b & p1 & es & ss & -> & Hp1 & Hwe & Hse & Hss & Hb).
  eexists; split; [reflexivity|]. rewrite Hp1, Hit, waits_of_app, reads_of_app, sent_of_app.
  rewrite Hwe, Hse, Hr. unfold inv. simpl. destruct b; simpl.
  - destruct Hb as [-> ->]. rewrite Hpipe. destruct (next_only_waits (mkProxy rest None)) as [-> ->].
    rewrite !app_nil_r. split_and!; auto. by eapply answered_pop; eauto.
  - destruct Hb as [[rd Hrd] ->]. rewrite Hrd, ?app_nil_r. exists r. split_and!; auto.
    by eapply answered_pop; eauto.
Qed.

Lemma stream_inv w i b r :
  inv w -> reads w !! i = Some r ->
  exists w', perform (Stream i b) w = Some (Returns w') /\ inv w'.
Proof.
  intros Hi Hf. simpl. rewrite Hf. unfold inv in Hi.
  destruct (pipe (proxy w)) as [rd|] eqn:Hpipe; [|destruct Hi as (Hr & _); by rewrite Hr in Hf].
  destruct Hi as (r0 & Hr & Hw & Ha). rewrite Hr, Hw in *.
  destruct i as [|i]; [|done]. simpl in Hf. simplify_eq. unfold stream. rewrite Hpipe.
  destruct (next_only_waits (mkProxy (items (proxy w)) None)) as [Hn1 Hn2].
  assert (Hfin : forall s, inv (mkWorld (mkProxy (items (proxy w)) None)
    (waits_of (next (mkProxy (items (proxy w)) None)))
    (reads_of (next (mkProxy (items (proxy w)) None))) (handled w)
    (sent w ++ (r, s) :: sent_of (next (mkProxy (items (proxy w)) None))))).
  { intros s. unfold inv. simpl. rewrite Hn1, Hn2. split_and!; auto.
    by eapply answered_more; eauto. }
  destruct b as [[|c b]|m|]; (eexists; split; [reflexivity|]); simpl; try apply Hfin.
  unfold inv. simpl. rewrite Hpipe. exists r. split_and!; auto.
  by eapply answered_more; eauto.
Qed.

Lemma perform_inv e w c :
  inv w -> orderly e w -> perform e w = Some c -> exists w', c = Returns w' /\ inv w'.
Proof.
  intros Hi Ho Hc. assert (exists w', perform e w = Some (Returns w') /\ inv w') as (w' & H & Hw).
  { destruct e as [f r|i o files|i b].
    - by apply handle_inv.
    - destruct (waits w !! i) as [f|] eqn:Hf; [by eapply waited_inv|]. simpl in Hc.
      by rewrite Hf in Hc.
    - destruct (reads w !! i) as [r|] eqn:Hf; [by eapply stream_inv|]. simpl in Hc.
      by rewrite Hf in Hc. }
  exists w'. split; [congruence|done].
Qed.

Lemma proxy_inv_start : inv start.
Proof. unfold inv. simpl. split_and!; auto. exists []. by split_and!. Qed.

Lemma proxy_inv w : reachable w -> inv w.
Proof.
  induction 1 as [|e w w' _ IH Ho Hp]; [apply proxy_inv_start|].
  destruct (perform_inv e w _ IH Ho Hp) as (w1 & ? & ?). by simplify_eq.
Qed.

(** ** Properties *)

(** C14: the proxy answers requests in their order: what was sent are the answers to
    the requests, one after the other in the order in which the requests were handled,
    never interleaved, and the requests not yet answered are exactly the items that
    wait; and no [CHECK] fails.  This holds for executions in which no request arrives
    while a stream is being sent with nothing waiting behind it, and in which every response
    of type [PIPE] that a handler gives carries a reader ([CHECK_SOME(response.reader)] is
    about exactly this); see [orderly]. *)
Theorem proxy_answers_in_order w :
  reachable w ->
  (exists gs : list group, sent w = concat (map expand gs) /\
     Forall (fun g => g.2 <> []) gs /\
     handled w = map fst gs ++ map request (items (proxy w))) /\
  (forall e c, orderly e w -> perform e w = Some c -> exists w', c = Returns w').
Proof.
  intros Hw%proxy_inv. split.
  - unfold inv in Hw. destruct (pipe (proxy w)).
    + destruct Hw as (r & _ & _ & gs & ? & ? & ? & _). eauto.
    + destruct Hw as (_ & _ & gs & ? & ? & ? & _). eauto.
  - intros e c Ho Hc. destruct (perform_inv e w c Hw Ho Hc) as (w' & ? & _). eauto.
Qed.

Definition get (i : nat) : Request := mkRequest i true.
Definition streamed : Response := mkResponse "200 OK" PIPE ∅ "" "" (Some 7).
Definition ok : Response := BodyResponse "200 OK" "done".

(** Three requests of which the first is streamed. *)
Definition three : list event :=
  [Handle 0 (get 0); Handle 1 (get 1); Waited 0 (Ready streamed) Missing;
   Handle 2 (get 2); Stream 0 (Ready []); Waited 0 (Ready ok) Missing].
Definition three_world : world :=
  match run_events three start with Some (Returns w) => w | _ => start end.

Lemma three_reachable : reachable three_world.
Proof.
  apply (run_events_reachable three start).
  - constructor.
  - simpl. split_and!; try done; by (left + right).
  - vm_compute. reflexivity.
Qed.

Lemma proxy_answers_in_order_witness :
  map fst (sent three_world) = [get 0; get 0; get 1] /\
  handled three_world = [get 0; get 1; get 2] /\
  exists gs : list group, sent three_world = concat (map expand gs).
Proof.
  split; [vm_compute; reflexivity|]. split; [vm_compute; reflexivity|].
  destruct (proxy_answers_in_order three_world three_reachable) as [(gs & Hs & _) _].
  exists gs. exact Hs.
Defined.

(** The proxy does not keep pipelined requests apart from a stream: when a request
    arrives while a response is being streamed and nothing waits behind it, its
    response is written between the chunks of the stream, and when the stream ends
    first the proxy waits twice for the same response and then fails its [CHECK]. *)
Theorem pipelined_request_breaks_stream :
  (exists w, run_events [Handle 0 (get 0); Waited 0 (Ready streamed) Missing;
      Handle 1 (get 1); Waited 0 (Ready ok) Missing; Stream 0 (Ready [])] start
    = Some (Returns w) /\ map fst (sent w) = [get 0; get 1; get 0]) /\
  run_events [Handle 0 (get 0); Waited 0 (Ready streamed) Missing; Handle 1 (get 1);
      Stream 0 (Ready []); Waited 0 (Ready ok) Missing; Waited 0 (Ready ok) Missing] start
  = Some (Abort "CHECK(items.size() > 0)").
Proof.
  split; [|vm_compute; reflexivity]. eexists. split; [vm_compute; reflexivity|reflexivity].
Qed.
