(* ===== verification/HttpText.v ===== *)
(** Text of HTTP messages in [http.cpp] and [http.hpp]: statuses, URLs, query
    strings, path patterns, content negotiation and authentication challenges.

    The string functions of stout are not part of this repository.  They are the
    operations of the class [Stout]; what the theorems rely on are the laws of
    [StoutLaws], each a sentence of their documentation. *)

From Stdlib Require Import Ascii String.
From stdpp Require Import pretty.
From S2P Require Import Prelude HttpCodec.

Local Open Scope string_scope.
Local Open Scope nat_scope.

(** ** The string functions of stout *)

(** Some character of [delims] occurs in [s]. *)
Definition occurs_in (delims s : string) : bool :=
  existsb (fun c => mem c delims) (list_ascii_of_string s).

(** The tokens of [ts] with [sep] between them. *)
Fixpoint joined (sep : string) (ts : list string) : string :=
  match ts with
  | [] => ""
  | [t] => t
  | t :: ts => t +:+ sep +:+ joined sep ts
  end.

Class Stout := {
  tokenize : string -> string -> list string;
  tokenize_max : string -> string -> nat -> list string;
  split : string -> string -> list string;
  split_max : string -> string -> nat -> list string;
  join : string -> list string -> string;
  lower : string -> string;
  remove : string -> string -> string;
  remove_prefix : string -> string -> string;
  remove_suffix : string -> string -> string;
  startsWith : string -> string -> bool;
  endsWith : string -> string -> bool;
  trim : string -> string -> string;
  trim_prefix : string -> string -> string;
  trim_suffix : string -> string -> string;
  pairs : string -> string -> string -> gmap string (list string);
  numify_uint16 : string -> Try nat;
  (** [numify<double>], and whether the number is positive. *)
  numify_positive : string -> Try bool;
  (** The order in which a [hashmap] is iterated. *)
  iterate {V : Type} : gmap string V -> list (string * V);
}.

Class StoutLaws `{Stout} := {
  (** Splits at every delimiter and leaves out empty tokens. *)
  tokenize_joined delims sep ts :
    mem sep delims = true ->
    Forall (fun t => t <> "" /\ occurs_in delims t = false) ts ->
    tokenize (joined (String sep "") ts) delims = ts;
  tokenize_only_delims delims s :
    forallb (fun c => mem c delims) (list_ascii_of_string s) = true ->
    tokenize s delims = [];
  tokenize_first delims sep t s :
    mem sep delims = true -> t <> "" -> occurs_in delims t = false ->
    (s = "" \/ exists c s', s = String c s' /\ mem c delims = true) ->
    tokenize (String sep t +:+ s) delims = t :: tokenize s delims;
  tokenize_tokens delims s :
    Forall (fun t => t <> "" /\ occurs_in delims t = false) (tokenize s delims);
  (** Splits at the first delimiter; empty tokens are kept. *)
  split_first sep k v :
    mem sep k = false ->
    split_max (k +:+ String sep v) (String sep "") 2 = [k; v];
  split_none sep k :
    mem sep k = false -> split_max k (String sep "") 2 = [k];
  (** Removes the substring from the given end, if it is there. *)
  remove_suffix_there s t : remove_suffix (s +:+ t) t = s;
  remove_suffix_empty t : remove_suffix "" t = "";
  remove_prefix_there s t : remove_prefix (t +:+ s) t = s;
  (** Removes all the characters at the given end. *)
  trim_prefix_slash s : trim_prefix (String "/" s) "/" = trim_prefix s "/";
  trim_prefix_none s : (forall s', s <> String "/" s') -> trim_prefix s "/" = s;
  trim_suffix_slash s : trim_suffix (s +:+ "/") "/" = trim_suffix s "/";
  trim_suffix_none s : (forall s', s <> s' +:+ "/") -> trim_suffix s "/" = s;
  (** Parses a decimal number that fits. *)
  numify_pretty (n : nat) : n < 65536 -> numify_uint16 (pretty n) = Some_ n;
  (** A [hashmap] is iterated over each entry once. *)
  iterate_entries {V : Type} (m : gmap string V) : iterate m ≡ₚ map_to_list m;
}.

(** ** Statuses *)

Definition statuses : list (nat * string) :=
  [(100, "100 Continue"); (101, "101 Switching Protocols"); (200, "200 OK");
   (201, "201 Created"); (202, "202 Accepted");
   (203, "203 Non-Authoritative Information"); (204, "204 No Content");
   (205, "205 Reset Content"); (206, "206 Partial Content");
   (300, "300 Multiple Choices"); (301, "301 Moved Permanently"); (302, "302 Found");
   (303, "303 See Other"); (304, "304 Not Modified"); (305, "305 Use Proxy");
   (307, "307 Temporary Redirect"); (400, "400 Bad Request"); (401, "401 Unauthorized");
   (402, "402 Payment Required"); (403, "403 Forbidden"); (404, "404 Not Found");
   (405, "405 Method Not Allowed"); (406, "406 Not Acceptable");
   (407, "407 Proxy Authentication Required"); (408, "408 Request Time-out");
   (409, "409 Conflict"); (410, "410 Gone"); (411, "411 Length Required");
   (412, "412 Precondition Failed"); (413, "413 Request Entity Too Large");
   (414, "414 Request-URI Too Large"); (415, "415 Unsupported Media Type");
   (416, "416 Requested range not satisfiable"); (417, "417 Expectation Failed");
   (500, "500 Internal Server Error"); (501, "501 Not Implemented");
   (502, "502 Bad Gateway"); (503, "503 Service Unavailable");
   (504, "504 Gateway Time-out"); (505, "505 HTTP Version not supported")].

Definition find_status (code : nat) : option (nat * string) :=
  List.find (fun sd => Nat.eqb sd.1 code) statuses.

Definition Status_string (code : nat) : string :=
  match find_status code with
  | Some sd => sd.2
  | None => pretty code
  end.

Definition isValidStatus (code : nat) : bool := bool_decide (is_Some (find_status code)).

(** ** Headers: a map whose keys are compared without case. *)

Definition tolower (c : ascii) : ascii :=
  if in_range 65 90 c then ascii_of_nat (code c + 32) else c.
Fixpoint fold_case (s : string) : string :=
  match s with "" => "" | String c s => String (tolower c) (fold_case s) end.

Definition CaseInsensitiveEqual (l r : string) : bool :=
  String.eqb (fold_case l) (fold_case r).

(** The entries by their folded keys, with the spelling that was inserted first. *)
Definition Headers : Type := gmap string (string * string).
Definition header_set (k v : string) (h : Headers) : Headers :=
  <[fold_case k := (from_option fst k (h !! fold_case k), v)]> h.
Definition header_get (k : string) (h : Headers) : option string := snd <$> h !! fold_case k.

Section Text.
Context `{Stout}.

(** ** URLs *)

Record URL := mkURL {
  scheme : option string;
  domain : option string;
  ip : option string;
  port : option nat;
  url_path : string;
  url_query : gmap string string;
  fragment : option string;
}.

Definition defaultPort (scheme : string) : option nat :=
  if String.eqb scheme "http" then Some 80
  else if String.eqb scheme "https" then Some 443
  else None.

(** [s.substr(n)]. *)
Definition substr (n : nat) (s : string) : string := substring n (String.length s - n) s.

(** The part of [URL::parse] behind the scheme: host, port and path.  Reading
    [tokens[0]] of an empty vector is not defined. *)
Definition parse_authority (scheme host path : string) : checked (Try URL) :=
  if String.eqb host "" then Returns (Error "Host not found in url") else
  match tokenize host ":" with
  | [] => Abort "tokens[0]"
  | t0 :: rest =>
      if String.eqb t0 "" then Returns (Error "Host not found in url") else
      let build p := Returns (Some_ (mkURL (Some scheme) (Some t0) None (Some p) path ∅ None)) in
      match rest with
      | _ :: _ :: _ => Returns (Error "Found multiple ports in url")
      | [t1] =>
          match numify_uint16 t1 with
          | Error m => Returns (Error ("Failed to parse port: " +:+ m))
          | Some_ p => build p
          end
      | [] =>
          match defaultPort scheme with
          | None => Returns (Error "Unable to determine port from url")
          | Some p => build p
          end
      end
  end.

Definition URL_parse (urlString : string) : checked (Try URL) :=
  match index 0 "://" urlString with
  | None => Returns (Error "Missing scheme in url string")
  | Some schemePos =>
      let scheme := lower (substring 0 schemePos urlString) in
      let urlPath := substr (schemePos + 3) urlString in
      match index 0 "/" urlPath with
      | Some 0 => Returns (Error "Host not found in url")
      | Some pathPos =>
          parse_authority scheme (substring 0 pathPos urlPath) (substr pathPos urlPath)
      | None => parse_authority scheme urlPath "/"
      end
  end.

Definition isAbsolute (u : URL) : bool := bool_decide (is_Some (scheme u)).

(** ** Query strings *)

Definition query_decode_token (token : string) (result : gmap string string)
    : Try (gmap string string) :=
  match split_max token "=" 2 with
  | [] => Some_ result
  | k :: rest =>
      match decode k with
      | Error m => Error m
      | Some_ key =>
          match rest with
          | [v] =>
              match decode v with
              | Error m => Error m
              | Some_ value => Some_ (<[key := value]> result)
              end
          | [] => Some_ (<[key := ""]> result)
          | _ => Some_ result
          end
      end
  end.

Fixpoint query_decode_tokens (tokens : list string) (result : gmap string string)
    : Try (gmap string string) :=
  match tokens with
  | [] => Some_ result
  | t :: ts =>
      match query_decode_token t result with
      | Error m => Error m
      | Some_ r => query_decode_tokens ts r
      end
  end.

Definition query_decode (query : string) : Try (gmap string string) :=
  query_decode_tokens (tokenize query ";&") ∅.

(** One entry of [query::encode], without the separator. *)
Definition encode_entry (kv : string * string) : string :=
  encode "" kv.1 +:+ (if String.eqb kv.2 "" then "" else "=" +:+ encode "" kv.2).

Fixpoint encode_entries (kvs : list (string * string)) : string :=
  match kvs with
  | [] => ""
  | kv :: kvs => encode_entry kv +:+ "&" +:+ encode_entries kvs
  end.

Definition query_encode (query : gmap string string) : string :=
  remove_suffix (encode_entries (iterate query)) "&".

(** [operator<<] of [URL]. *)
Definition URL_print (u : URL) : string :=
  (match scheme u with Some s => s +:+ "://" | None => "" end) +:+
  (match domain u, ip u with Some d, _ => d | None, Some i => i | None, None => "" end) +:+
  (match port u with Some p => ":" +:+ pretty p | None => "" end) +:+
  "/" +:+ remove_prefix (url_path u) "/" +:+
  (if decide (url_query u = ∅) then "" else "?" +:+ query_encode (url_query u)) +:+
  (match fragment u with Some f => "#" +:+ f | None => "" end).

(** ** Path patterns: [path::parse]. *)

(** The variable that a key of a pattern names, if it is one. *)
Definition variable (key : string) : option string :=
  if startsWith key "{" && endsWith key "}"
  then Some (remove_suffix (remove_prefix key "{") "}")
  else None.

Fixpoint path_match (keys segments : list string) (result : gmap string string)
    : Try (gmap string string) :=
  match segments, keys with
  | [], _ => Some_ result
  | _ :: _, [] => Error ("Not expecting suffix '" +:+ join "/" segments +:+ "'")
  | s :: ss, k :: ks =>
      match variable k with
      | Some v => path_match ks ss (<[v := s]> result)
      | None =>
          if String.eqb k s then path_match ks ss (<[k := s]> result)
          else Error ("Expecting '" +:+ k +:+ "' not '" +:+ s +:+ "'")
      end
  end.

Definition path_parse (pattern path : string) : Try (gmap string string) :=
  path_match (tokenize pattern "/") (tokenize path "/") ∅.

(** ** Content negotiation *)

(** The weight of an entry that names the candidate: acceptable unless a well-formed
    [q] says 0. *)
Definition q_accepts (entry : string) : bool :=
  match pairs entry ";" "=" !! "q" with
  | Some [q] => match numify_positive q with Some_ b => b | Error _ => false end
  | _ => true
  end.

(** The inner loop over the accepted entries; [None] when none names the candidate. *)
Fixpoint accepts_loop (candidate : string) (entries : list string) : option bool :=
  match entries with
  | [] => None
  | e :: es =>
      match tokenize e ";" with
      | [] => accepts_loop candidate es
      | t :: _ =>
          if String.eqb (lower t) (lower candidate) then Some (q_accepts e)
          else accepts_loop candidate es
      end
  end.

(** The loop over the candidates. *)
Fixpoint accepts_candidates (candidates entries : list string) : bool :=
  match candidates with
  | [] => false
  | c :: cs =>
      match accepts_loop c entries with
      | Some b => b
      | None => accepts_candidates cs entries
      end
  end.

Definition squeeze (s : string) : string :=
  remove (remove (remove s " ") (String "009" "")) (String "010" "").

Definition acceptsEncoding (h : Headers) (encoding : string) : bool :=
  match header_get "Accept-Encoding" h with
  | None => false
  | Some accept =>
      if String.eqb accept "" then false
      else accepts_candidates [encoding; "*"] (tokenize (squeeze accept) ",")
  end.

Definition acceptsMediaType (name : option string) (mediaType : string) : bool :=
  match tokenize mediaType "/" with
  | [type; _] =>
      match name with
      | None => true
      | Some accept =>
          accepts_candidates [mediaType; type +:+ "/*"; "*/*"]
            (tokenize (squeeze accept) ",")
      end
  | _ => false
  end.

(** ** Challenges: [WWWAuthenticate::create]. *)
Record WWWAuthenticate := mkWWWAuthenticate {
  authScheme : string;
  authParam : gmap string string;
}.

Fixpoint auth_params (whole : string) (tokens : list string) (result : gmap string string)
    : Try (gmap string string) :=
  match tokens with
  | [] => Some_ result
  | t :: ts =>
      match split t "=" with
      | [k; v] => auth_params whole ts (<[k := trim v (String "034" "")]> result)
      | _ => Error ("Unexpected auth-param format: '" +:+ t +:+ "' in '" +:+ whole +:+ "'")
      end
  end.

Definition WWWAuthenticate_create (value : string) : Try WWWAuthenticate :=
  match tokenize_max value " " 2 with
  | [t0; t1] =>
      match auth_params t1 (split t1 ",") ∅ with
      | Error m => Error m
      | Some_ params =>
          match params !! "realm" with
          | None => Error ("Unexpected auth-param '" +:+ t1 +:+ "': 'realm' is not defined")
          | Some _ => Some_ (mkWWWAuthenticate t0 params)
          end
      end
  | _ => Error ("Unexpected WWW-Authenticate header format: '" +:+ value +:+ "'")
  end.
End Text.
