(* ===== verification/HttpTextSpec.v ===== *)
(** Properties of the text of HTTP messages: round trips of queries and URLs, the
    matching of paths, content negotiation. *)

From Stdlib Require Import Ascii String.
From stdpp Require Import pretty.
From S2P Require Import Prelude HttpCodec HttpText.

Local Open Scope string_scope.
Local Open Scope nat_scope.

(** ** Strings *)

Lemma append_nil_r s : s +:+ "" = s.
Proof. induction s as [|c s IH]; [done|]. change (String c (s +:+ "") = String c s). by rewrite IH. Qed.

Lemma append_assoc s t u : (s +:+ t) +:+ u = s +:+ t +:+ u.
Proof.
  induction s as [|c s IH]; [done|].
  change (String c ((s +:+ t) +:+ u) = String c (s +:+ t +:+ u)). by rewrite IH.
Qed.

Lemma chars_append s t :
  list_ascii_of_string (s +:+ t) = (list_ascii_of_string s ++ list_ascii_of_string t)%list.
Proof.
  induction s as [|c s IH]; [done|].
  change (c :: list_ascii_of_string (s +:+ t) =
          (c :: list_ascii_of_string s ++ list_ascii_of_string t)%list). by rewrite IH.
Qed.

Lemma mem_append c s t : mem c (s +:+ t) = mem c s || mem c t.
Proof. unfold mem. by rewrite chars_append, existsb_app. Qed.

Lemma occurs_in_append d s t : occurs_in d (s +:+ t) = occurs_in d s || occurs_in d t.
Proof. unfold occurs_in. by rewrite chars_append, existsb_app. Qed.

Lemma length_append s t : String.length (s +:+ t) = String.length s + String.length t.
Proof.
  induction s as [|c s IH]; [done|].
  change (S (String.length (s +:+ t)) = S (String.length s) + String.length t). lia.
Qed.

Lemma substring_prefix s t : substring 0 (String.length s) (s +:+ t) = s.
Proof.
  induction s as [|c s IH]; [by destruct t|].
  change (String c (substring 0 (String.length s) (s +:+ t)) = String c s). by rewrite IH.
Qed.

Lemma substring_all s : substring 0 (String.length s) s = s.
Proof. rewrite <- (append_nil_r s) at 2. apply substring_prefix. Qed.

Lemma substr_append s t : substr (String.length s) (s +:+ t) = t.
Proof.
  unfold substr. rewrite length_append. replace (_ + _ - _) with (String.length t) by lia.
  induction s as [|c s IH]; [apply substring_all|]. apply IH.
Qed.

(** The first character [c] is found where it is. *)
Lemma index_char c s t :
  mem c s = false -> index 0 (String c "") (s +:+ String c t) = Some (String.length s).
Proof.
  induction s as [|d s IH]; intros Hm.
  - simpl. destruct (ascii_dec c c); [|done]. by destruct t.
  - unfold mem in Hm. simpl in Hm. apply orb_false_iff in Hm as [Hd Hm].
    change (String d s +:+ String c t) with (String d (s +:+ String c t)).
    change (String.length (String d s)) with (S (String.length s)).
    cbn [index String.prefix]. destruct (ascii_dec c d) as [->|_]; [by rewrite Ascii.eqb_refl in Hd|].
    by rewrite (IH Hm).
Qed.

Lemma index_no_char c s : mem c s = false -> index 0 (String c "") s = None.
Proof.
  induction s as [|d s IH]; intros Hm; [done|].
  unfold mem in Hm. simpl in Hm. apply orb_false_iff in Hm as [Hd Hm].
  cbn [index String.prefix]. destruct (ascii_dec c d) as [->|_]; [by rewrite Ascii.eqb_refl in Hd|].
  by rewrite (IH Hm).
Qed.

(** A separator is found after text without its first character. *)
Lemma index_separator c rest s t :
  mem c s = false ->
  index 0 (String c rest) (s +:+ String c rest +:+ t) = Some (String.length s).
Proof.
  assert (Hpre : forall u, String.prefix u (u +:+ t) = true).
  { induction u as [|x u IH]; [by destruct t|].
    change (String.prefix (String x u) (String x (u +:+ t)) = true). cbn [String.prefix].
    by destruct (ascii_dec x x). }
  induction s as [|d s IH]; intros Hm.
  - change ("" +:+ String c rest +:+ t) with (String c (rest +:+ t)). cbn [index].
    change (String c (rest +:+ t)) with (String c rest +:+ t). by rewrite Hpre.
  - unfold mem in Hm. simpl in Hm. apply orb_false_iff in Hm as [Hd Hm].
    change (String d s +:+ String c rest +:+ t) with (String d (s +:+ String c rest +:+ t)).
    cbn [index String.prefix]. destruct (ascii_dec c d) as [->|_]; [by rewrite Ascii.eqb_refl in Hd|].
    by rewrite (IH Hm).
Qed.

(** ** Decimal numbers *)

Definition is_digit (c : ascii) : bool := in_range 48 57 c.

Lemma pretty_go_digits x s :
  forallb is_digit (list_ascii_of_string s) = true ->
  forallb is_digit (list_ascii_of_string (pretty_N_go x s)) = true.
Proof.
  revert s. induction (N.lt_wf_0 x) as [x _ IH]; intros s Hs.
  destruct (decide (x = 0)%N) as [->|Hx]; [by rewrite pretty_N_go_0|].
  rewrite pretty_N_go_step by lia. apply IH; [apply N.div_lt; lia|].
  cbn [list_ascii_of_string forallb]. rewrite Hs, andb_true_r.
  pose proof (N.mod_lt x 10 ltac:(done)). unfold pretty_N_char.
  by repeat case_match.
Qed.

Lemma pretty_digits (n : nat) :
  forallb is_digit (list_ascii_of_string (pretty n)) = true.
Proof.
  unfold pretty, pretty_nat, pretty, pretty_N. destruct (decide _); [done|].
  by apply pretty_go_digits.
Qed.

Lemma pretty_nonempty (n : nat) : pretty n <> "".
Proof.
  intros Hn. assert (Hi : pretty n = pretty (n + 1 - 1)) by (f_equal; lia).
  unfold pretty, pretty_nat, pretty, pretty_N in Hn.
  destruct (decide (N.of_nat n = 0)%N) as [|Hx]; [done|].
  rewrite pretty_N_go_step in Hn by lia. revert Hn. generalize (N.of_nat n `div` 10)%N.
  intros x Hn. assert (Hgo : forall y s, s <> "" -> pretty_N_go y s <> "").
  { intros y. induction (N.lt_wf_0 y) as [y _ IH]; intros s Hs.
    destruct (decide (y = 0)%N) as [->|Hy]; [by rewrite pretty_N_go_0|].
    rewrite pretty_N_go_step by lia. apply IH; [apply N.div_lt; lia|done]. }
  by apply Hgo in Hn.
Qed.

Lemma digits_no_char c s :
  forallb is_digit (list_ascii_of_string s) = true -> is_digit c = false ->
  mem c s = false.
Proof.
  intros Hs Hc. destruct (mem c s) eqn:E; [|done]. unfold mem in E.
  apply existsb_exists in E as (d & Hd & ->%Ascii.eqb_eq).
  rewrite forallb_forall in Hs. apply Hs in Hd. congruence.
Qed.

(** ** Queries *)

(** An encoded string contains none of the separators of a query. *)
Lemma encode_no_separator c s :
  mem c "&;=/:" = true -> mem c (encode "" s) = false.
Proof.
  intros Hc. pose proof (encode_alphabet "" s) as Ha. rewrite forallb_forall in Ha.
  destruct (mem c (encode "" s)) eqn:E; [|done]. unfold mem in E.
  apply existsb_exists in E as (d & Hd & ->%Ascii.eqb_eq).
  apply Ha in Hd. exfalso. revert Hd. apply not_true_iff_false.
  assert (H : negb (mem d "&;=/:") || negb (url_char "" d) = true).
  { clear. revert d. apply ascii_all. vm_compute. reflexivity. }
  rewrite Hc in H. by apply negb_true_iff in H.
Qed.

Lemma occurs_in_false d s :
  (forall c, mem c d = true -> mem c s = false) -> occurs_in d s = false.
Proof.
  intros H. destruct (occurs_in d s) eqn:E; [|done]. unfold occurs_in in E.
  apply existsb_exists in E as (c & Hc & Hd). rewrite <- (H c Hd). unfold mem. symmetry.
  apply existsb_exists. exists c. split; [done|apply Ascii.eqb_refl].
Qed.

Lemma encode_empty s : encode "" s = "" <-> s = "".
Proof.
  split; [|by intros ->]. destruct s as [|c s]; [done|]. cbn [encode]. unfold encode_char.
  destruct (reserved c); [done|]. by destruct (_ || _ || _).
Qed.

(** ** Headers *)

Lemma header_get_set k v (h : Headers) : header_get k (header_set k v h) = Some v.
Proof.
  unfold header_get, header_set, Headers in *. by rewrite lookup_insert_eq.
Qed.

Lemma header_get_set_ne k k' v (h : Headers) :
  String.eqb (fold_case k) (fold_case k') = false ->
  header_get k' (header_set k v h) = header_get k' h.
Proof.
  intros Hk%String.eqb_neq. unfold header_get, header_set. f_equal. by apply lookup_insert_ne.
Qed.

(** The entries are found by their spelling. *)
Definition spelled (h : Headers) : Prop := forall k e, h !! k = Some e -> fold_case e.1 = k.

Lemma spelled_empty : spelled ∅.
Proof. intros k e. unfold Headers. by rewrite lookup_empty. Qed.

Lemma spelled_set k v h : spelled h -> spelled (header_set k v h).
Proof.
  intros Hh k' e. unfold header_set, spelled, Headers in *. destruct (decide (fold_case k = k')) as [<-|Hne].
  - rewrite lookup_insert_eq. intros [= <-]. cbn.
    destruct (h !! fold_case k) as [e|] eqn:He; [|done]. by apply Hh.
  - rewrite lookup_insert_ne by done. apply Hh.
Qed.

Section Spec.
Context `{StoutLaws}.

Lemma encode_entry_plain kv : kv <> ("", "") ->
  encode_entry kv <> "" /\ occurs_in ";&" (encode_entry kv) = false.
Proof.
  destruct kv as [k v]. intros Hne. unfold encode_entry. simpl fst. simpl snd.
  assert (Hk : forall s, occurs_in ";&" (encode "" s) = false).
  { intros s. apply occurs_in_false. intros c Hc. apply encode_no_separator.
    assert (Hx : negb (mem c ";&") || mem c "&;=/:" = true)
      by (clear; revert c; apply ascii_all; vm_compute; reflexivity).
    by rewrite Hc in Hx. }
  destruct (String.eqb v "") eqn:Ev.
  - apply String.eqb_eq in Ev as ->. rewrite append_nil_r. split; [|apply Hk].
    intros Hx. apply (proj1 (encode_empty k)) in Hx. by subst.
  - split; [by destruct (encode "" k)|]. rewrite !occurs_in_append, !Hk. done.
Qed.

Lemma decode_entry k v r :
  query_decode_token (encode_entry (k, v)) r = Some_ (<[k := v]> r).
Proof.
  unfold query_decode_token, encode_entry. simpl fst. simpl snd.
  assert (Hk : mem "=" (encode "" k) = false) by (by apply encode_no_separator).
  destruct (String.eqb v "") eqn:Ev.
  - apply String.eqb_eq in Ev as ->. rewrite append_nil_r, split_none by done.
    unfold decode. by rewrite decode_from_encode.
  - change ("=" +:+ encode "" v) with (String "=" (encode "" v)).
    rewrite split_first by done. unfold decode. by rewrite !decode_from_encode.
Qed.

Lemma decode_entries kvs r :
  query_decode_tokens (map encode_entry kvs) r
  = Some_ (foldl (fun r kv => <[kv.1 := kv.2]> r) r kvs).
Proof.
  revert r. induction kvs as [|[k v] kvs IH]; intros r; [done|].
  cbn [map query_decode_tokens]. by rewrite decode_entry, IH.
Qed.

Lemma encode_entries_joined kvs : kvs <> [] ->
  encode_entries kvs = joined "&" (map encode_entry kvs) +:+ "&".
Proof.
  induction kvs as [|kv [|kv' kvs] IH]; intros Hne; [done| |].
  - simpl. by rewrite append_nil_r.
  - cbn [encode_entries map joined]. cbn [encode_entries map joined] in IH.
    rewrite IH by done. by rewrite !append_assoc.
Qed.

Lemma foldl_insert_map (kvs : list (string * string)) m :
  kvs ≡ₚ map_to_list m -> foldl (fun r kv => <[kv.1 := kv.2]> r) ∅ kvs = m.
Proof.
  intros Hp. transitivity (list_to_map (reverse kvs) : gmap string string).
  - clear Hp. rewrite <- (reverse_involutive kvs) at 1.
    induction (reverse kvs) as [|[k v] l IH]; [done|].
    rewrite reverse_cons, foldl_app. simpl. by rewrite IH.
  - rewrite <- (list_to_map_to_list m). apply list_to_map_proper.
    + rewrite reverse_Permutation, Hp. apply NoDup_fst_map_to_list.
    + by rewrite reverse_Permutation.
Qed.

(** A query survives encoding and decoding, whatever characters its keys and values
    contain and in whatever order the map is iterated; the one entry that is lost is
    the empty key with the empty value. *)
Theorem query_roundtrip m :
  m !! "" <> Some "" -> query_decode (query_encode m) = Some_ m.
Proof.
  intros Hm. unfold query_decode, query_encode. pose proof (iterate_entries m) as Hp.
  destruct (decide (iterate m = [])) as [He|He].
  - rewrite He in *. apply Permutation_nil_l in Hp. symmetry in Hp.
    apply map_to_list_empty_iff in Hp as ->. simpl.
    rewrite remove_suffix_empty, tokenize_only_delims by done. done.
  - rewrite encode_entries_joined by done. rewrite remove_suffix_there.
    rewrite (tokenize_joined ";&" "&").
    + rewrite decode_entries. f_equal. by apply foldl_insert_map.
    + done.
    + apply Forall_forall. intros t Ht. apply list_elem_of_fmap in Ht as ([k v] & -> & Hkv).
      apply encode_entry_plain. intros [= -> ->]. apply Hm.
      apply elem_of_map_to_list. by rewrite <- Hp.
Qed.

(** The entry that is lost. *)
Theorem query_loses_empty_entry : query_decode (query_encode {[ "" := "" ]}) = Some_ ∅.
Proof.
  unfold query_decode, query_encode. pose proof (iterate_entries {[ "" := "" ]}) as Hp.
  rewrite map_to_list_singleton in Hp. apply Permutation_singleton_r in Hp as ->.
  change (encode_entries [("", "")]) with ("" +:+ "&").
  by rewrite remove_suffix_there, tokenize_only_delims.
Qed.


(** ** URLs *)

Lemma parse_authority_roundtrip s h p path :
  h <> "" -> mem ":" h = false -> p < 65536 ->
  parse_authority s (h +:+ ":" +:+ pretty p) path
  = Returns (Some_ (mkURL (Some s) (Some h) None (Some p) path ∅ None)).
Proof.
  intros Hh Hc Hp. unfold parse_authority.
  destruct (String.eqb (h +:+ ":" +:+ pretty p) "") eqn:E.
  { apply String.eqb_eq in E. by destruct h. }
  assert (Hsingle : forall t, mem ":" t = false -> occurs_in ":" t = false).
  { intros t Ht. apply occurs_in_false. intros c Hcc. unfold mem in Hcc. simpl in Hcc.
    rewrite orb_false_r in Hcc. by apply Ascii.eqb_eq in Hcc as ->. }
  pose proof (tokenize_joined ":" ":" [h; pretty p] eq_refl) as Ht. cbn [joined] in Ht.
  rewrite Ht.
  - destruct (String.eqb h "") eqn:Eh; [by apply String.eqb_eq in Eh|].
    by rewrite numify_pretty.
  - repeat constructor; auto; [apply pretty_nonempty|].
    apply Hsingle, digits_no_char; [apply pretty_digits|done].
Qed.

(** A printed URL parses back to itself: scheme, host, port and path are found
    again, for every scheme in lower case without colon, every host without colon and
    slash, every 16-bit port and every path. *)
Theorem url_roundtrip s h p path :
  lower s = s -> mem ":" s = false -> h <> "" -> mem ":" h = false -> mem "/" h = false ->
  p < 65536 ->
  let u := mkURL (Some s) (Some h) None (Some p) ("/" +:+ path) ∅ None in
  URL_parse (URL_print u) = Returns (Some_ u).
Proof.
  intros Hs Hsc Hh Hhc Hhs Hp u. unfold URL_print, u.
  cbn [scheme domain ip port url_path url_query fragment].
  rewrite decide_True by done. rewrite remove_prefix_there, !append_nil_r.
  set (host := h +:+ ":" +:+ pretty p).
  assert (Hslash : mem "/" host = false).
  { unfold host. rewrite !mem_append, Hhs.
    by rewrite (digits_no_char "/" (pretty p)) by (done || apply pretty_digits). }
  replace ((s +:+ "://") +:+ h +:+ (":" +:+ pretty p) +:+ "/" +:+ path)
    with (s +:+ "://" +:+ host +:+ String "/" path)
    by (unfold host; by rewrite !append_assoc).
  unfold URL_parse. rewrite index_separator by done.
  rewrite substring_prefix, Hs.
  replace (String.length s + 3) with (String.length (s +:+ "://"))
    by (by rewrite length_append).
  rewrite <- append_assoc, substr_append.
  rewrite index_char by done.
  destruct (String.length host) as [|n] eqn:Hn.
  { unfold host in Hn. rewrite length_append in Hn. destruct h; [done|]. simpl in Hn. lia. }
  rewrite <- Hn, substring_prefix, substr_append. by apply parse_authority_roundtrip.
Qed.

(** [URL::parse] reads the first token of an empty vector when the host consists of
    colons only. *)
Theorem url_parse_colons s :
  mem ":" s = false -> URL_parse (s +:+ "://:") = Abort "tokens[0]".
Proof.
  intros Hs. change (s +:+ "://:") with (s +:+ "://" +:+ ":"). unfold URL_parse.
  rewrite (index_separator ":" "//" s ":") by done.
  rewrite substring_prefix.
  replace (String.length s + 3) with (String.length (s +:+ "://"))
    by (by rewrite length_append).
  rewrite <- append_assoc, substr_append.
  simpl index. cbv iota. unfold parse_authority. simpl String.eqb. cbv iota.
  by rewrite tokenize_only_delims.
Qed.

(** ** Paths *)

(** A key admits a segment. *)
Definition admits (k s : string) : Prop := is_Some (variable k) \/ k = s.
Definition binding (k s : string) : string * string := (default k (variable k), s).

(** A path matches a pattern exactly when it has no more segments than the pattern
    and every segment is equal to the key at its place or the key is a variable; then
    the result binds the variables and the fixed keys to their segments, a later one
    replacing an earlier one of the same name. *)
Theorem path_parse_matches pattern path :
  let keys := tokenize pattern "/" in
  let segments := tokenize path "/" in
  (isSome_ (path_parse pattern path) = true <->
   length segments <= length keys /\ Forall2 admits (take (length segments) keys) segments) /\
  (forall m, path_parse pattern path = Some_ m ->
   m = foldl (fun r kv => <[kv.1 := kv.2]> r) ∅ (zip_with binding keys segments)).
Proof.
  intros keys segments. unfold path_parse. fold keys segments. generalize keys segments.
  generalize (∅ : gmap string string). clear keys segments. intros r keys. revert r.
  induction keys as [|k ks IH]; intros r segs; destruct segs as [|s ss];
    cbn [path_match length take zip_with foldl].
  - split; [split; [split; [lia|constructor]|done]|]. by intros m [= ->].
  - split; [split; [done|intros [? _]; lia]|done].
  - split; [split; [split; [lia|constructor]|done]|]. by intros m [= ->].
  - change (binding k s) with (default k (variable k), s). cbn [fst snd].
    destruct (variable k) as [v|] eqn:Hv; cbn [default from_option id].
    + destruct (IH (<[v := s]> r) ss) as [IH1 IH2]. split; [|exact IH2].
      rewrite IH1. split; intros [Hl Hf]; split; try lia.
      * constructor; [left; by rewrite Hv|done].
      * by inversion Hf.
    + destruct (String.eqb k s) eqn:E.
      * apply String.eqb_eq in E as ->. destruct (IH (<[s := s]> r) ss) as [IH1 IH2].
        split; [|exact IH2]. rewrite IH1. split; intros [Hl Hf]; split; try lia.
        -- constructor; [by right|done].
        -- by inversion Hf.
      * split; [|done]. split; [done|]. intros [_ Hf]. inversion Hf as [|? ? ? ? [[? Hx]|Hx]].
        -- congruence.
        -- subst. by rewrite String.eqb_refl in E.
Qed.

(** ** Content negotiation *)

(** An entry of the header names a candidate. *)
Definition names (c e : string) : bool :=
  match tokenize e ";" with [] => false | t :: _ => String.eqb (lower t) (lower c) end.

(** [e] is the first of [es] that names [c]. *)
Definition first_naming (c e : string) (es : list string) : Prop :=
  exists before after, es = (before ++ e :: after)%list /\ names c e = true /\
    Forall (fun x => names c x = false) before.

(** [e] decides: it is the first entry for the first candidate that is named at all. *)
Definition decides (cs es : list string) (e : string) : Prop :=
  exists better c worse, cs = (better ++ c :: worse)%list /\ first_naming c e es /\
    Forall (fun b => Forall (fun x => names b x = false) es) better.

Lemma accepts_loop_None c es :
  accepts_loop c es = None <-> Forall (fun x => names c x = false) es.
Proof.
  induction es as [|e es IH]; [by split; [constructor|]|].
  rewrite Forall_cons. cbn [accepts_loop]. unfold names at 1.
  destruct (tokenize e ";") as [|t ts]; [tauto|].
  destruct (String.eqb (lower t) (lower c)); [|tauto]. split; [done|by intros [? _]].
Qed.

Lemma accepts_loop_Some c es b :
  accepts_loop c es = Some b <-> exists e, first_naming c e es /\ q_accepts e = b.
Proof.
  induction es as [|e es IH].
  { split; [done|]. intros (e & (bf & af & Hx & _) & _). by destruct bf. }
  assert (Hskip : names c e = false ->
    (exists e', first_naming c e' es /\ q_accepts e' = b) <->
    (exists e', first_naming c e' (e :: es) /\ q_accepts e' = b)).
  { intros Hn. split; intros (e' & (bf & af & Hx & Hy & Hz) & Hq); exists e'; split; [|done| |done].
    - exists (e :: bf), af. subst. repeat split; auto.
    - destruct bf as [|e0 bf]; simplify_eq/=; [congruence|].
      exists bf, af. apply Forall_cons in Hz as [_ Hz]. auto. }
  cbn [accepts_loop]. destruct (names c e) eqn:Hn.
  - pose proof Hn as Hn'. unfold names in Hn. destruct (tokenize e ";") as [|t ts]; [done|].
    rewrite Hn. split.
    + intros [= <-]. exists e. split; [|done]. exists [], es. auto.
    + intros (e' & (bf & af & Hx & Hy & Hz) & Hq). destruct bf as [|e0 bf]; simplify_eq/=; [done|].
      apply Forall_cons in Hz as [Hz _]. congruence.
  - rewrite <- Hskip, <- IH by done. unfold names in Hn.
    destruct (tokenize e ";") as [|t ts]; [done|]. by rewrite Hn.
Qed.

Lemma accepts_candidates_decides cs es :
  accepts_candidates cs es = true <-> exists e, decides cs es e /\ q_accepts e = true.
Proof.
  induction cs as [|c cs IH].
  { split; [done|]. intros (e & (bf & c & wo & Hx & _) & _). by destruct bf. }
  cbn [accepts_candidates]. destruct (accepts_loop c es) as [b|] eqn:Hl.
  - split.
    + intros ->. apply (proj1 (accepts_loop_Some _ _ _)) in Hl as (e & Hf & Hq).
      exists e. split; [|done]. exists [], c, cs. auto.
    + intros (e & (bf & c' & wo & Hx & Hf & Hz) & Hq). destruct bf as [|b0 bf]; simplify_eq/=.
      * assert (accepts_loop c' es = Some true) by (apply accepts_loop_Some; eauto). congruence.
      * apply Forall_cons in Hz as [Hz _]. apply (proj2 (accepts_loop_None _ _)) in Hz. congruence.
  - apply (proj1 (accepts_loop_None _ _)) in Hl. rewrite IH.
    split; intros (e & (bf & c' & wo & Hx & Hf & Hz) & Hq); exists e; split; [|done| |done].
    + exists (c :: bf), c', wo. subst. auto.
    + destruct bf as [|b0 bf]; simplify_eq/=.
      * destruct Hf as (b1 & a1 & -> & Hy & _). rewrite Forall_app, Forall_cons in Hl.
        destruct Hl as (_ & Hl & _). congruence.
      * apply Forall_cons in Hz as [_ Hz]. exists bf, c', wo. auto.
Qed.

(** Content negotiation follows the precedence of RFC 2616: the first entry for the
    encoding itself decides, then the first entry for [*]; for a media type the entries for
    [type/subtype], then [type/*], then [*/*]; the entry that decides accepts unless it
    has a weight that is not positive.  A missing [Accept-Encoding] accepts no encoding, a
    missing [Accept] every well-formed media type. *)
Theorem negotiation_precedence h enc name type sub mediaType :
  (acceptsEncoding h enc = true <->
   exists accept e, header_get "Accept-Encoding" h = Some accept /\ accept <> "" /\
     decides [enc; "*"] (tokenize (squeeze accept) ",") e /\ q_accepts e = true) /\
  (tokenize mediaType "/" = [type; sub] ->
   (acceptsMediaType name mediaType = true <->
    forall accept, name = Some accept -> exists e,
      decides [mediaType; type +:+ "/*"; "*/*"] (tokenize (squeeze accept) ",") e /\
      q_accepts e = true)).
Proof.
  split.
  - unfold acceptsEncoding. destruct (header_get _ h) as [accept|]; [|naive_solver].
    destruct (String.eqb_spec accept "") as [->|Hne]; [naive_solver|].
    rewrite accepts_candidates_decides. naive_solver.
  - intros Ht. unfold acceptsMediaType. rewrite Ht. destruct name as [accept|]; [|naive_solver].
    rewrite accepts_candidates_decides. naive_solver.
Qed.

(** "identity" is refused when neither it nor [*] is listed, though the rules that
    [acceptsEncoding] quotes always accept it then. *)
Theorem identity_must_be_listed h accept :
  header_get "Accept-Encoding" h = Some accept ->
  Forall (fun e => names "identity" e = false /\ names "*" e = false)
    (tokenize (squeeze accept) ",") ->
  acceptsEncoding h "identity" = false.
Proof.
  intros Ha Hf. unfold acceptsEncoding. rewrite Ha. destruct (String.eqb accept ""); [done|].
  apply Forall_and in Hf as [H1 H2]. cbn [accepts_candidates].
  apply (proj2 (accepts_loop_None _ _)) in H1 as ->.
  by apply (proj2 (accepts_loop_None _ _)) in H2 as ->.
Qed.
End Spec.
