(* ===== verification/HttpTextWitness.v ===== *)
(** A concrete implementation of the string functions of stout that satisfies the laws
    of [StoutLaws], and the theorems of [HttpTextSpec] at concrete inputs. *)

From Stdlib Require Import Ascii String.
From stdpp Require Import pretty.
From S2P Require Import Prelude HttpCodec HttpText HttpTextSpec.

Local Open Scope string_scope.
Local Open Scope nat_scope.

(** ** The implementation *)

(** The pieces of [s] between the characters of [delims], empty ones included. *)
Fixpoint pieces (s delims : string) : list string :=
  match s with
  | "" => [""]
  | String c s =>
      if mem c delims then "" :: pieces s delims
      else match pieces s delims with
           | [] => [String c ""]
           | p :: ps => String c p :: ps
           end
  end.
Definition nonempty (s : string) : bool := negb (String.eqb s "").
Definition tokens (s delims : string) : list string := List.filter nonempty (pieces s delims).

(** At most [n] pieces. *)
Fixpoint pieces_max (s delims : string) (n : nat) : list string :=
  match s, n with
  | "", _ => [""]
  | _, 0 | _, 1 => [s]
  | String c s, S n' =>
      if mem c delims then "" :: pieces_max s delims n'
      else match pieces_max s delims n with
           | [] => [String c ""]
           | p :: ps => String c p :: ps
           end
  end.

Fixpoint strip_prefix (s t : string) : option string :=
  match t, s with
  | "", _ => Some s
  | String c t, String d s => if Ascii.eqb c d then strip_prefix s t else None
  | String _ _, "" => None
  end.
Definition reversed (s : string) : string :=
  string_of_list_ascii (reverse (list_ascii_of_string s)).

Fixpoint strip (s d : string) : string :=
  match s with
  | "" => ""
  | String c s' => if mem c d then strip s' d else s
  end.

Definition pairs_of (s d1 d2 : string) : gmap string (list string) :=
  foldl (fun m t => match tokens t d2 with
                    | [k; v] => <[k := (default [] (m !! k) ++ [v])%list]> m
                    | _ => m
                    end) ∅ (tokens s d1).

Definition positive_number (s : string) : Try bool :=
  if nonempty s && forallb (fun c => in_range 48 57 c || mem c ".") (list_ascii_of_string s)
  then Some_ (existsb (fun c => in_range 49 57 c) (list_ascii_of_string s))
  else Error "Failed to convert".

Definition port_number (s : string) : Try nat :=
  match List.find (fun n => String.eqb (pretty n) s) (seq 0 65536) with
  | Some n => Some_ n
  | None => Error "Failed to convert"
  end.

#[local] Instance stout : Stout := {
  tokenize := tokens;
  tokenize_max s d n := List.filter nonempty (pieces_max s d n);
  split := pieces;
  split_max := pieces_max;
  join := joined;
  lower := fold_case;
  remove s t := string_of_list_ascii
    (List.filter (fun c => negb (mem c t)) (list_ascii_of_string s));
  remove_prefix s t := default s (strip_prefix s t);
  remove_suffix s t := from_option reversed s (strip_prefix (reversed s) (reversed t));
  startsWith s t := bool_decide (is_Some (strip_prefix s t));
  endsWith s t := bool_decide (is_Some (strip_prefix (reversed s) (reversed t)));
  trim s t := string_of_list_ascii
    (List.filter (fun c => negb (mem c t)) (list_ascii_of_string s));
  trim_prefix := strip;
  trim_suffix s d := reversed (strip (reversed s) d);
  pairs := pairs_of;
  numify_uint16 := port_number;
  numify_positive := positive_number;
  iterate V m := map_to_list m;
}.

(** ** Its laws *)

Lemma occurs_in_cons c s d : occurs_in d (String c s) = mem c d || occurs_in d s.
Proof. done. Qed.

Lemma pieces_plain s d : occurs_in d s = false -> pieces s d = [s].
Proof.
  induction s as [|c s IH]; [done|]. rewrite occurs_in_cons. intros [Hc Hs]%orb_false_iff.
  cbn [pieces]. by rewrite Hc, IH.
Qed.

Lemma pieces_sep s c t d :
  occurs_in d s = false -> mem c d = true -> pieces (s +:+ String c t) d = s :: pieces t d.
Proof.
  intros Hs Hc. induction s as [|x s IH].
  - change ("" +:+ String c t) with (String c t). cbn [pieces]. by rewrite Hc.
  - rewrite occurs_in_cons in Hs. apply orb_false_iff in Hs as [Hx Hs].
    change (String x s +:+ String c t) with (String x (s +:+ String c t)).
    cbn [pieces]. by rewrite Hx, IH.
Qed.

Lemma pieces_max_plain s d n : occurs_in d s = false -> pieces_max s d (S (S n)) = [s].
Proof.
  induction s as [|c s IH]; [done|]. rewrite occurs_in_cons. intros [Hc Hs]%orb_false_iff.
  cbn [pieces_max]. by rewrite Hc, IH.
Qed.

Lemma occurs_in_char c s : mem c s = false -> occurs_in (String c "") s = false.
Proof.
  intros Hm. apply occurs_in_false. intros x Hx. unfold mem in Hx. simpl in Hx.
  rewrite orb_false_r in Hx. by apply Ascii.eqb_eq in Hx as ->.
Qed.

Lemma strip_prefix_append t s : strip_prefix (t +:+ s) t = Some s.
Proof.
  induction t as [|c t IH]; [by destruct s|].
  change (String c t +:+ s) with (String c (t +:+ s)). cbn [strip_prefix].
  by rewrite Ascii.eqb_refl.
Qed.

Lemma string_of_app l k :
  string_of_list_ascii (l ++ k)%list = string_of_list_ascii l +:+ string_of_list_ascii k.
Proof.
  induction l as [|c l IH]; [done|]. cbn [app string_of_list_ascii]. by rewrite IH.
Qed.

Lemma reversed_append s t : reversed (s +:+ t) = reversed t +:+ reversed s.
Proof. unfold reversed. by rewrite chars_append, reverse_app, string_of_app. Qed.

Lemma reversed_involutive s : reversed (reversed s) = s.
Proof.
  unfold reversed. rewrite list_ascii_of_string_of_list_ascii, reverse_involutive.
  apply string_of_list_ascii_of_string.
Qed.

Lemma tokens_joined d sep ts :
  mem sep d = true -> Forall (fun t => t <> "" /\ occurs_in d t = false) ts ->
  tokens (joined (String sep "") ts) d = ts.
Proof.
  intros Hsep Hts. unfold tokens.
  assert (Hne : forall t, t <> "" -> nonempty t = true)
    by (intros t Ht; by apply negb_true_iff, String.eqb_neq).
  induction Hts as [|t ts [Ht Hd] Hts IH]; [done|]. destruct ts as [|t' ts].
  - cbn [joined]. rewrite pieces_plain by done. cbn [List.filter]. by rewrite Hne.
  - change (joined (String sep "") (t :: t' :: ts))
      with (t +:+ String sep (joined (String sep "") (t' :: ts))).
    rewrite pieces_sep by done. cbn [List.filter]. by rewrite Hne, IH.
Qed.

Lemma tokens_only_delims d s :
  forallb (fun c => mem c d) (list_ascii_of_string s) = true -> tokens s d = [].
Proof.
  unfold tokens. induction s as [|c s IH]; [done|].
  cbn [list_ascii_of_string forallb pieces]. intros [Hc Hs]%andb_true_iff.
  rewrite Hc. cbn. by apply IH.
Qed.

Lemma pieces_max_first sep k v :
  mem sep k = false -> pieces_max (k +:+ String sep v) (String sep "") 2 = [k; v].
Proof.
  intros Hk%occurs_in_char. induction k as [|c k IH].
  - change ("" +:+ String sep v) with (String sep v). cbn [pieces_max].
    unfold mem. simpl. rewrite Ascii.eqb_refl. by destruct v.
  - rewrite occurs_in_cons in Hk. apply orb_false_iff in Hk as [Hc Hk].
    change (String c k +:+ String sep v) with (String c (k +:+ String sep v)).
    cbn [pieces_max]. by rewrite Hc, IH.
Qed.

Lemma port_number_pretty (n : nat) : n < 65536 -> port_number (pretty n) = Some_ n.
Proof.
  intros Hn. unfold port_number.
  destruct (List.find _ _) as [m|] eqn:Hf.
  - apply find_some in Hf as [_ Hm]. apply String.eqb_eq in Hm. by apply (inj pretty) in Hm as ->.
  - eapply find_none in Hf; [|apply in_seq; split; [apply Nat.le_0_l|exact Hn]].
    by rewrite String.eqb_refl in Hf.
Qed.

Lemma tokens_first d sep t s :
  mem sep d = true -> t <> "" -> occurs_in d t = false ->
  (s = "" \/ exists c s', s = String c s' /\ mem c d = true) ->
  tokens (String sep t +:+ s) d = t :: tokens s d.
Proof.
  intros Hsep Ht Hd Hs. unfold tokens.
  change (String sep t +:+ s) with (String sep (t +:+ s)). cbn [pieces]. rewrite Hsep.
  cbn [List.filter nonempty String.eqb negb].
  assert (Hne : nonempty t = true) by (by apply negb_true_iff, String.eqb_neq).
  destruct Hs as [->|(c & s' & -> & Hc)].
  - rewrite append_nil_r, pieces_plain by done. cbn [List.filter]. by rewrite Hne.
  - rewrite pieces_sep by done. cbn [List.filter pieces]. by rewrite Hne, Hc.
Qed.

Lemma tokens_tokens d s : Forall (fun t => t <> "" /\ occurs_in d t = false) (tokens s d).
Proof.
  unfold tokens. assert (Hp : Forall (fun t => occurs_in d t = false) (pieces s d)).
  { induction s as [|c s IH]; [by repeat constructor|]. cbn [pieces].
    destruct (mem c d) eqn:Hc; [by constructor|]. destruct (pieces s d) as [|p ps].
    - constructor; [|done]. by rewrite occurs_in_cons, Hc.
    - apply Forall_cons in IH as [Hp Hps]. constructor; [|done]. by rewrite occurs_in_cons, Hc. }
  induction Hp as [|p ps Hp Hps IH]; [done|]. cbn [List.filter].
  destruct (nonempty p) eqn:Hn; [|done]. constructor; [|done]. split; [|done].
  apply negb_true_iff in Hn. by apply String.eqb_neq.
Qed.

Lemma reversed_slash s : reversed (s +:+ "/") = String "/" (reversed s).
Proof. by rewrite reversed_append. Qed.

#[local] Instance stout_laws : StoutLaws.
Proof.
  split.
  - exact tokens_joined.
  - exact tokens_only_delims.
  - exact tokens_first.
  - intros d s. apply tokens_tokens.
  - exact pieces_max_first.
  - intros sep k Hk. by apply pieces_max_plain, occurs_in_char.
  - intros s t. simpl. rewrite reversed_append, strip_prefix_append. apply reversed_involutive.
  - intros t. simpl. by destruct (reversed t).
  - intros s t. simpl. by rewrite strip_prefix_append.
  - done.
  - intros s Hs. simpl. destruct s as [|c s]; [done|]. cbn [strip].
    destruct (mem c "/") eqn:Hc; [|done]. unfold mem in Hc. simpl in Hc. rewrite orb_false_r in Hc.
    apply Ascii.eqb_eq in Hc as ->. by destruct (Hs s).
  - intros s. simpl. by rewrite reversed_slash.
  - intros s Hs. simpl. destruct (reversed s) as [|c r] eqn:Hr.
    { apply (f_equal reversed) in Hr. rewrite reversed_involutive in Hr. by rewrite Hr. }
    cbn [strip]. destruct (mem c "/") eqn:Hc; [|by rewrite <- Hr, reversed_involutive].
    unfold mem in Hc. simpl in Hc. rewrite orb_false_r in Hc. apply Ascii.eqb_eq in Hc as ->.
    destruct (Hs (reversed r)). rewrite <- (reversed_involutive s), Hr. apply (reversed_append "/" r).
  - exact port_number_pretty.
  - done.
Qed.

(** ** The theorems at concrete inputs *)

Lemma query_roundtrip_witness :
  query_decode (query_encode {[ "a b" := "1&2"; "" := "x"; "c" := "" ]})
  = Some_ {[ "a b" := "1&2"; "" := "x"; "c" := "" ]}.
Proof. apply (query_roundtrip {[ "a b" := "1&2"; "" := "x"; "c" := "" ]}). by vm_compute. Defined.

Lemma url_roundtrip_witness :
  URL_parse (URL_print (mkURL (Some "https") (Some "example.com") None (Some 8080)
                          "/a/b" ∅ None))
  = Returns (Some_ (mkURL (Some "https") (Some "example.com") None (Some 8080)
                      "/a/b" ∅ None)).
Proof. apply (url_roundtrip "https" "example.com" 8080 "a/b"); try done. by apply Nat.ltb_lt; vm_compute. Defined.

Lemma url_parse_colons_witness : URL_parse "http://:" = Abort "tokens[0]".
Proof. apply (url_parse_colons "http"). reflexivity. Defined.

Lemma path_parse_matches_witness :
  isSome_ (path_parse "/books/{isbn}/chapters/{chapter}" "/books/0304827484/chapters/3")
  = true.
Proof.
  apply (path_parse_matches "/books/{isbn}/chapters/{chapter}" "/books/0304827484/chapters/3").
  split; [vm_compute; lia|]. vm_compute.
  repeat (apply Forall2_cons; split; [|]);
    [by right|by left; eexists|by right|by left; eexists|constructor].
Defined.

Lemma negotiation_precedence_witness :
  acceptsMediaType (Some "text/*, application/json;q=0") "text/plain" = true.
Proof.
  apply (negotiation_precedence ∅ "gzip" (Some "text/*, application/json;q=0")
           "text" "plain" "text/plain"); [by vm_compute|].
  intros accept [= <-]. exists "text/*". split; [|by vm_compute].
  exists ["text/plain"], "text/*", ["*/*"]. split; [done|]. split.
  - exists [], ["application/json;q=0"]. split; [by vm_compute|]. split; [by vm_compute|].
    constructor.
  - repeat constructor; by vm_compute.
Defined.
