(* ===== verification/Decoders.v ===== *)
(** The HTTP decoders of [decoder.hpp]: [DataDecoder], [ResponseDecoder],
    [StreamingResponseDecoder] and [StreamingRequestDecoder].

    A decoder is the set of callbacks it gives to the HTTP parser.  The parser and the
    compression library are not part of this repository: what the parser does with the
    bytes of one call of [decode] is an argument ([chunk]: the callbacks it makes and
    how it ends), and the URL parser and the decompressors are classes.  A streaming
    decoder writes bodies to pipes; it records which requests it makes of which pipe. *)

From Stdlib Require Import Ascii String.
From S2P Require Import Prelude HttpCodec HttpText Pipe.

Local Open Scope string_scope.
Local Open Scope nat_scope.

(** ** Messages *)

Inductive body_type := NONE | BODY | PATH | PIPE.

Record Request := mkRequest {
  method : string;
  url : URL;
  req_headers : Headers;
  keepAlive : bool;
  req_type : body_type;
  req_body : string;
  req_reader : option nat;
}.
Definition URL_init : URL := mkURL None None None None "" ∅ None.
Definition Request_init : Request := mkRequest "" URL_init ∅ false BODY "" None.

Record Response := mkResponse {
  status : string;
  res_code : nat;
  res_headers : Headers;
  res_type : body_type;
  res_body : string;
  res_path : string;
  res_reader : option nat;
}.
Definition Response_init : Response := mkResponse "" 0 ∅ NONE "" "" None.

Definition set_req_headers (h : Headers) (r : Request) : Request :=
  mkRequest (method r) (url r) h (keepAlive r) (req_type r) (req_body r) (req_reader r).
Definition set_req_body (b : string) (r : Request) : Request :=
  mkRequest (method r) (url r) (req_headers r) (keepAlive r) (req_type r) b (req_reader r).
Definition set_req_url (u : URL) (r : Request) : Request :=
  mkRequest (method r) u (req_headers r) (keepAlive r) (req_type r) (req_body r) (req_reader r).
Definition set_req_line (m : string) (k : bool) (r : Request) : Request :=
  mkRequest m (url r) (req_headers r) k (req_type r) (req_body r) (req_reader r).
Definition set_req_type (t : body_type) (r : Request) : Request :=
  mkRequest (method r) (url r) (req_headers r) (keepAlive r) t (req_body r) (req_reader r).
Definition set_req_reader (p : nat) (r : Request) : Request :=
  mkRequest (method r) (url r) (req_headers r) (keepAlive r) (req_type r) (req_body r) (Some p).
Definition set_res_headers (h : Headers) (r : Response) : Response :=
  mkResponse (status r) (res_code r) h (res_type r) (res_body r) (res_path r) (res_reader r).
Definition set_res_body (b : string) (r : Response) : Response :=
  mkResponse (status r) (res_code r) (res_headers r) (res_type r) b (res_path r) (res_reader r).
Definition set_res_status (c : nat) (r : Response) : Response :=
  mkResponse (Status_string c) c (res_headers r) (res_type r) (res_body r) (res_path r)
    (res_reader r).
Definition set_res_type (t : body_type) (r : Response) : Response :=
  mkResponse (status r) (res_code r) (res_headers r) t (res_body r) (res_path r) (res_reader r).
Definition set_res_reader (p : nat) (r : Response) : Response :=
  mkResponse (status r) (res_code r) (res_headers r) (res_type r) (res_body r) (res_path r)
    (Some p).

(** ** The parser *)

(** The fields of the parser that the callbacks read. *)
Record http_parser := mkParser {
  method_str : string;
  should_keep_alive : bool;
  status_code : nat;
}.

Inductive callback :=
| on_message_begin
| on_url (data : string)
| on_status (data : string)
| on_header_field (data : string)
| on_header_value (data : string)
| on_headers_complete (p : http_parser)
| on_chunk_header
| on_body (data : string)
| on_chunk_complete
| on_message_complete (p : http_parser).

(** How the parser ends when no callback fails: it consumed all bytes; it stopped early
    without an error (after a message that asks for another protocol); or it found an
    error itself. *)
Inductive verdict := Consumed | Stopped | Malformed.

(** One call of [http_parser_execute].  When a callback fails, or failed in an earlier
    call, [parsed_anyway] tells whether the count returned is nevertheless the length
    (the failing callback was made at the last byte, or there were no bytes). *)
Record chunk := mkChunk {
  callbacks : list callback;
  ending : verdict;
  parsed_anyway : bool;
}.

(** [http_parser_parse_url]: [None] when the result is not 0. *)
Record url_fields := mkUrlFields {
  UF_PATH : option string;
  UF_FRAGMENT : option string;
  UF_QUERY : option string;
}.
Class UrlParser := { http_parser_parse_url : string -> option url_fields }.

(** [gzip::decompress] and [gzip::Decompressor]. *)
Class Gzip := {
  gzip_decompress : string -> Try string;
  Decompressor : Type;
  new_Decompressor : Decompressor;
  decompress : string -> Decompressor -> Decompressor * Try string;
  finished : Decompressor -> bool;
}.

(** ** What every decoder offers to the parser and to its caller *)

(** A callback returns whether it succeeded. *)
Class Decoder (D Out : Type) := {
  call : callback -> D -> checked (D * bool);
  (** The branch of [decode] for [parsed != length]. *)
  not_parsed : D -> D;
  (** The end of [decode]: the finished messages, which are handed out. *)
  collect : D -> D * list Out;
  failed : D -> bool;
}.

Section Driver.
Context `{Decoder D Out}.

(** The callbacks in order, up to the first that fails.  [on_headers_complete] is
    different: a result of 1 tells the parser that there is no body, and it goes on to
    [on_message_complete], which then fails too ([refused_headers_end]). *)
Fixpoint execute (cs : list callback) (d : D) : checked (D * bool) :=
  match cs with
  | [] => Returns (d, true)
  | c :: cs =>
      match call c d with
      | Abort m => Abort m
      | Returns (d, true) => execute cs d
      | Returns (d, false) =>
          match c with
          | on_headers_complete p =>
              match call (on_message_complete p) d with
              | Abort m => Abort m
              | Returns (d, _) => Returns (d, false)
              end
          | _ => Returns (d, false)
          end
      end
  end.

(** A decoder with its parser; a parser in error makes no more callbacks. *)
Record running := mkRunning { decoder : D; errno : bool }.

Definition http_parser_execute (c : chunk) (s : running) : checked (running * bool) :=
  if errno s then Returns (s, parsed_anyway c)
  else
    match execute (callbacks c) (decoder s) with
    | Abort m => Abort m
    | Returns (d, false) => Returns (mkRunning d true, parsed_anyway c)
    | Returns (d, true) =>
        match ending c with
        | Consumed => Returns (mkRunning d false, true)
        | Stopped => Returns (mkRunning d false, false)
        | Malformed => Returns (mkRunning d true, false)
        end
    end.

Definition decode (c : chunk) (s : running) : checked (running * list Out) :=
  match http_parser_execute c s with
  | Abort m => Abort m
  | Returns (s, parsed) =>
      let d := if parsed then decoder s else not_parsed (decoder s) in
      let '(d, out) := collect d in
      Returns (mkRunning d (errno s), out)
  end.

(** Successive calls of [decode] and all that they return. *)
Fixpoint decode_all (cs : list chunk) (s : running) : checked (running * list Out) :=
  match cs with
  | [] => Returns (s, [])
  | c :: cs =>
      match decode c s with
      | Abort m => Abort m
      | Returns (s, out) =>
          match decode_all cs s with
          | Abort m => Abort m
          | Returns (s, out') => Returns (s, (out ++ out')%list)
          end
      end
  end.
End Driver.
Arguments running D : clear implicits.
Arguments mkRunning {D} _ _.

(** ** Collecting headers *)

Inductive header_state := HEADER_FIELD | HEADER_VALUE.

Record Collector := mkCollector {
  header : header_state;
  field : string;
  value : string;
}.
Definition Collector_init : Collector := mkCollector HEADER_FIELD "" "".

Definition collect_field (data : string) (x : Collector * Headers) : Collector * Headers :=
  let '(c, h) := x in
  match header c with
  | HEADER_FIELD => (mkCollector HEADER_FIELD (field c +:+ data) (value c), h)
  | HEADER_VALUE =>
      (mkCollector HEADER_FIELD data "", header_set (field c) (value c) h)
  end.

Definition collect_value (data : string) (x : Collector * Headers) : Collector * Headers :=
  let '(c, h) := x in (mkCollector HEADER_VALUE (field c) (value c +:+ data), h).

(** The final header; [header] keeps its value. *)
Definition collect_last (x : Collector * Headers) : Collector * Headers :=
  let '(c, h) := x in (mkCollector (header c) "" "", header_set (field c) (value c) h).

(** ** Parts that the decoders have in common *)
Section Decoders.
Context `{Stout, UrlParser, Gzip}.

(** The URL and its query; [false] when one of them is malformed. *)
Definition parse_target (raw query : string) (u : URL) : URL * string * bool :=
  match http_parser_parse_url raw with
  | None => (u, query, false)
  | Some f =>
      let q := default query (UF_QUERY f) in
      let path := default (url_path u) (UF_PATH f) in
      let fragment := match UF_FRAGMENT f with Some x => Some x | None => fragment u end in
      match query_decode q with
      | Error _ =>
          (mkURL (scheme u) (domain u) (ip u) (port u) path (url_query u) fragment, q, false)
      | Some_ m => (mkURL (scheme u) (domain u) (ip u) (port u) path m fragment, q, true)
      end
  end.

Definition gzipped (h : Headers) : bool :=
  match header_get "Content-Encoding" h with
  | Some e => String.eqb e "gzip"
  | None => false
  end.

Definition char_max : nat := 127.

(** The body without its compression, with the header that is set for it; [None] when
    it cannot be decompressed. *)
Definition inflate (h : Headers) (b : string) : checked (option (Headers * string)) :=
  if gzipped h then
    match gzip_decompress b with
    | Error _ => Returns None
    | Some_ b =>
        if String.length b <=? char_max then
          Returns (Some (header_set "Content-Length"
                           (String (ascii_of_nat (String.length b)) "") h, b))
        else Abort "CHECK_LE(body.length(), numeric_limits<char>::max())"
    end
  else Returns (Some (h, b)).

(** ** [DataDecoder] *)
Record DataDecoder := mkDataDecoder {
  dd_failure : bool;
  dd_header : Collector;
  dd_query : string;
  dd_url : string;
  dd_request : option Request;
  dd_requests : list Request;
}.
Definition DataDecoder_init : DataDecoder :=
  mkDataDecoder false Collector_init "" "" None [].

Definition dd_on_message_begin (d : DataDecoder) : checked (DataDecoder * bool) :=
  if dd_failure d then Abort "CHECK(!decoder->failure)"
  else match dd_request d with
       | Some _ => Abort "CHECK(decoder->request == nullptr)"
       | None =>
           Returns (mkDataDecoder false Collector_init "" "" (Some Request_init)
                      (dd_requests d), true)
       end.

(** [CHECK_NOTNULL(decoder->request)] and an update of the request. *)
Definition dd_with (f : Request -> DataDecoder) (d : DataDecoder) : checked (DataDecoder * bool) :=
  match dd_request d with
  | None => Abort "CHECK_NOTNULL(decoder->request)"
  | Some r => Returns (f r, true)
  end.
Definition dd_keep (d : DataDecoder) (x : Collector * Headers) (r : Request) : DataDecoder :=
  mkDataDecoder (dd_failure d) x.1 (dd_query d) (dd_url d)
    (Some (set_req_headers x.2 r)) (dd_requests d).

Definition dd_on_url (data : string) (d : DataDecoder) : checked (DataDecoder * bool) :=
  dd_with (fun r => mkDataDecoder (dd_failure d) (dd_header d) (dd_query d)
                      (dd_url d +:+ data) (Some r) (dd_requests d)) d.
Definition dd_on_header_field (data : string) (d : DataDecoder) : checked (DataDecoder * bool) :=
  dd_with (fun r => dd_keep d (collect_field data (dd_header d, req_headers r)) r) d.
Definition dd_on_header_value (data : string) (d : DataDecoder) : checked (DataDecoder * bool) :=
  dd_with (fun r => dd_keep d (collect_value data (dd_header d, req_headers r)) r) d.
Definition dd_on_headers_complete (p : http_parser) (d : DataDecoder)
    : checked (DataDecoder * bool) :=
  dd_with (fun r => dd_keep d (collect_last (dd_header d, req_headers r))
                      (set_req_line (method_str p) (should_keep_alive p) r)) d.
Definition dd_on_body (data : string) (d : DataDecoder) : checked (DataDecoder * bool) :=
  dd_with (fun r => mkDataDecoder (dd_failure d) (dd_header d) (dd_query d) (dd_url d)
                      (Some (set_req_body (req_body r +:+ data) r)) (dd_requests d)) d.

Definition dd_on_message_complete (d : DataDecoder) : checked (DataDecoder * bool) :=
  match dd_request d with
  | None => Abort "CHECK_NOTNULL(decoder->request)"
  | Some r =>
      let '(u, query, ok) := parse_target (dd_url d) (dd_query d) (url r) in
      let r := set_req_url u r in
      let failed := Returns (mkDataDecoder true (dd_header d) query (dd_url d) (Some r)
                               (dd_requests d), false) in
      if ok then
        match inflate (req_headers r) (req_body r) with
        | Abort m => Abort m
        | Returns None => failed
        | Returns (Some (h, b)) =>
            Returns (mkDataDecoder (dd_failure d) (dd_header d) query (dd_url d) None
                       (dd_requests d ++ [set_req_body b (set_req_headers h r)])%list, true)
        end
      else failed
  end.

Definition dd_call (c : callback) (d : DataDecoder) : checked (DataDecoder * bool) :=
  match c with
  | on_message_begin => dd_on_message_begin d
  | on_url s => dd_on_url s d
  | on_header_field s => dd_on_header_field s d
  | on_header_value s => dd_on_header_value s d
  | on_headers_complete p => dd_on_headers_complete p d
  | on_body s => dd_on_body s d
  | on_message_complete _ => dd_on_message_complete d
  | on_status _ | on_chunk_header | on_chunk_complete => Returns (d, true)
  end.

#[global] Instance DataDecoder_Decoder : Decoder DataDecoder Request := {
  call := dd_call;
  not_parsed d := mkDataDecoder true (dd_header d) (dd_query d) (dd_url d) (dd_request d)
                    (dd_requests d);
  collect d := (mkDataDecoder (dd_failure d) (dd_header d) (dd_query d) (dd_url d)
                  (dd_request d) [], dd_requests d);
  failed := dd_failure;
}.

(** ** [ResponseDecoder] *)
Record ResponseDecoder := mkResponseDecoder {
  rd_failure : bool;
  rd_header : Collector;
  rd_response : option Response;
  rd_responses : list Response;
}.
Definition ResponseDecoder_init : ResponseDecoder :=
  mkResponseDecoder false Collector_init None [].

Definition rd_on_message_begin (d : ResponseDecoder) : checked (ResponseDecoder * bool) :=
  if rd_failure d then Abort "CHECK(!decoder->failure)"
  else match rd_response d with
       | Some _ => Abort "CHECK(decoder->response == nullptr)"
       | None =>
           Returns (mkResponseDecoder false Collector_init
                      (Some (set_res_type BODY Response_init)) (rd_responses d), true)
       end.

Definition rd_with (f : Response -> Collector * Response) (d : ResponseDecoder)
    : checked (ResponseDecoder * bool) :=
  match rd_response d with
  | None => Abort "CHECK_NOTNULL(decoder->response)"
  | Some r =>
      let '(c, r) := f r in
      Returns (mkResponseDecoder (rd_failure d) c (Some r) (rd_responses d), true)
  end.
Definition rd_keep (x : Collector * Headers) (r : Response) : Collector * Response :=
  (x.1, set_res_headers x.2 r).

Definition rd_on_header_field (data : string) (d : ResponseDecoder)
    : checked (ResponseDecoder * bool) :=
  rd_with (fun r => rd_keep (collect_field data (rd_header d, res_headers r)) r) d.
Definition rd_on_header_value (data : string) (d : ResponseDecoder)
    : checked (ResponseDecoder * bool) :=
  rd_with (fun r => rd_keep (collect_value data (rd_header d, res_headers r)) r) d.
Definition rd_on_headers_complete (d : ResponseDecoder) : checked (ResponseDecoder * bool) :=
  rd_with (fun r => rd_keep (collect_last (rd_header d, res_headers r)) r) d.
Definition rd_on_body (data : string) (d : ResponseDecoder) : checked (ResponseDecoder * bool) :=
  rd_with (fun r => (rd_header d, set_res_body (res_body r +:+ data) r)) d.

Definition rd_on_message_complete (p : http_parser) (d : ResponseDecoder)
    : checked (ResponseDecoder * bool) :=
  match rd_response d with
  | None => Abort "CHECK_NOTNULL(decoder->response)"
  | Some r =>
      let failed r := Returns (mkResponseDecoder true (rd_header d) (Some r)
                                 (rd_responses d), false) in
      if isValidStatus (status_code p) then
        let r := set_res_status (status_code p) r in
        match inflate (res_headers r) (res_body r) with
        | Abort m => Abort m
        | Returns None => failed r
        | Returns (Some (h, b)) =>
            Returns (mkResponseDecoder (rd_failure d) (rd_header d) None
                       (rd_responses d ++ [set_res_body b (set_res_headers h r)])%list, true)
        end
      else failed r
  end.

Definition rd_call (c : callback) (d : ResponseDecoder) : checked (ResponseDecoder * bool) :=
  match c with
  | on_message_begin => rd_on_message_begin d
  | on_header_field s => rd_on_header_field s d
  | on_header_value s => rd_on_header_value s d
  | on_headers_complete _ => rd_on_headers_complete d
  | on_body s => rd_on_body s d
  | on_message_complete p => rd_on_message_complete p d
  | on_url _ | on_status _ | on_chunk_header | on_chunk_complete => Returns (d, true)
  end.

#[global] Instance ResponseDecoder_Decoder : Decoder ResponseDecoder Response := {
  call := rd_call;
  not_parsed d := mkResponseDecoder true (rd_header d) (rd_response d) (rd_responses d);
  collect d := (mkResponseDecoder (rd_failure d) (rd_header d) (rd_response d) [],
                rd_responses d);
  failed := rd_failure;
}.

(** [decodeResponses] in [http.cpp]: what the parser does with the string, and with the end
    of the input after it. *)
Definition decodeResponses (s eof : chunk) : checked (Try (list Response)) :=
  match decode_all [s; eof] (mkRunning ResponseDecoder_init false) with
  | Abort m => Abort m
  | Returns (d, result) =>
      if failed (decoder d) then Returns (Error "Decoding failed")
      else match result with
           | [] => Returns (Error "No response decoded")
           | _ => Returns (Some_ result)
           end
  end.

(** ** [StreamingResponseDecoder]

    Pipes are numbered as they are made; [sr_log] is what was asked of the writers. *)
Record StreamingResponseDecoder := mkStreamingResponseDecoder {
  sr_failure : bool;
  sr_header : Collector;
  sr_response : option Response;
  sr_writer : option nat;
  sr_responses : list Response;
  sr_pipes : nat;
  sr_log : list (nat * Pipe.request);
}.
Definition StreamingResponseDecoder_init : StreamingResponseDecoder :=
  mkStreamingResponseDecoder false Collector_init None None [] 0 [].

Definition sr_on_message_begin (d : StreamingResponseDecoder)
    : checked (StreamingResponseDecoder * bool) :=
  if sr_failure d then Abort "CHECK(!decoder->failure)"
  else match sr_response d, sr_writer d with
       | Some _, _ => Abort "CHECK(decoder->response == nullptr)"
       | None, Some _ => Abort "CHECK_NONE(decoder->writer)"
       | None, None =>
           Returns (mkStreamingResponseDecoder false Collector_init
                      (Some (set_res_type PIPE Response_init)) None (sr_responses d)
                      (sr_pipes d) (sr_log d), true)
       end.

Definition sr_collect (f : Collector * Headers -> Collector * Headers)
    (d : StreamingResponseDecoder) : checked (StreamingResponseDecoder * bool) :=
  match sr_response d with
  | None => Returns (d, false)
  | Some r =>
      let '(c, h) := f (sr_header d, res_headers r) in
      Returns (mkStreamingResponseDecoder (sr_failure d) c (Some (set_res_headers h r))
                 (sr_writer d) (sr_responses d) (sr_pipes d) (sr_log d), true)
  end.
Definition sr_on_header_field (data : string) := sr_collect (collect_field data).
Definition sr_on_header_value (data : string) := sr_collect (collect_value data).

Definition sr_on_headers_complete (p : http_parser) (d : StreamingResponseDecoder)
    : checked (StreamingResponseDecoder * bool) :=
  match sr_response d with
  | None => Abort "CHECK_NOTNULL(decoder->response)"
  | Some r =>
      let '(c, h) := collect_last (sr_header d, res_headers r) in
      let r := set_res_headers h r in
      let failed r := Returns (mkStreamingResponseDecoder true c (Some r) (sr_writer d)
                                 (sr_responses d) (sr_pipes d) (sr_log d), false) in
      if isValidStatus (status_code p) then
        let r := set_res_status (status_code p) r in
        if gzipped (res_headers r) then failed r
        else match sr_writer d with
             | Some _ => Abort "CHECK_NONE(decoder->writer)"
             | None =>
                 Returns (mkStreamingResponseDecoder (sr_failure d) c None
                            (Some (sr_pipes d))
                            (sr_responses d ++ [set_res_reader (sr_pipes d) r])%list
                            (S (sr_pipes d)) (sr_log d), true)
             end
      else failed r
  end.

(** Something is asked of the writer, which is kept or dropped. *)
Definition sr_ask (w : nat) (r : Pipe.request) (writer : option nat) (failure : bool)
    (d : StreamingResponseDecoder) : StreamingResponseDecoder :=
  mkStreamingResponseDecoder failure (sr_header d) (sr_response d) writer (sr_responses d)
    (sr_pipes d) (sr_log d ++ [(w, r)])%list.

Definition sr_on_body (data : string) (d : StreamingResponseDecoder)
    : checked (StreamingResponseDecoder * bool) :=
  match sr_writer d with
  | None => Abort "CHECK_SOME(decoder->writer)"
  | Some w => Returns (sr_ask w (Pipe.Write data) (Some w) (sr_failure d) d, true)
  end.

Definition sr_on_message_complete (d : StreamingResponseDecoder)
    : checked (StreamingResponseDecoder * bool) :=
  match sr_writer d with
  | None => if sr_failure d then Returns (d, false) else Abort "CHECK(decoder->failure)"
  | Some w => Returns (sr_ask w Pipe.CloseWriter None (sr_failure d) d, true)
  end.

Definition sr_call (c : callback) (d : StreamingResponseDecoder)
    : checked (StreamingResponseDecoder * bool) :=
  match c with
  | on_message_begin => sr_on_message_begin d
  | on_header_field s => sr_on_header_field s d
  | on_header_value s => sr_on_header_value s d
  | on_headers_complete p => sr_on_headers_complete p d
  | on_body s => sr_on_body s d
  | on_message_complete _ => sr_on_message_complete d
  | on_url _ | on_status _ | on_chunk_header | on_chunk_complete => Returns (d, true)
  end.

Definition sr_not_parsed (d : StreamingResponseDecoder) : StreamingResponseDecoder :=
  match sr_writer d with
  | Some w => sr_ask w (Pipe.Fail "failed to decode body") None true d
  | None =>
      mkStreamingResponseDecoder true (sr_header d) (sr_response d) None (sr_responses d)
        (sr_pipes d) (sr_log d)
  end.

#[global] Instance StreamingResponseDecoder_Decoder
    : Decoder StreamingResponseDecoder Response := {
  call := sr_call;
  not_parsed := sr_not_parsed;
  collect d := (mkStreamingResponseDecoder (sr_failure d) (sr_header d) (sr_response d)
                  (sr_writer d) [] (sr_pipes d) (sr_log d), sr_responses d);
  failed := sr_failure;
}.

Definition sr_writingBody (d : StreamingResponseDecoder) : bool :=
  bool_decide (is_Some (sr_writer d)).

(** What the destructor asks of the pipes. *)
Definition sr_delete (d : StreamingResponseDecoder) : list (nat * Pipe.request) :=
  (sr_log d ++ match sr_writer d with
              | Some w => [(w, Pipe.Fail "Decoder is being deleted")]
              | None => []
              end)%list.

(** ** [StreamingRequestDecoder] *)
Record StreamingRequestDecoder := mkStreamingRequestDecoder {
  sq_failure : bool;
  sq_header : Collector;
  sq_query : string;
  sq_url : string;
  sq_request : option Request;
  sq_writer : option nat;
  sq_decompressor : option Decompressor;
  sq_requests : list Request;
  sq_pipes : nat;
  sq_log : list (nat * Pipe.request);
}.
Definition StreamingRequestDecoder_init : StreamingRequestDecoder :=
  mkStreamingRequestDecoder false Collector_init "" "" None None None [] 0 [].

Definition sq_on_message_begin (d : StreamingRequestDecoder)
    : checked (StreamingRequestDecoder * bool) :=
  if sq_failure d then Abort "CHECK(!decoder->failure)"
  else match sq_request d, sq_writer d with
       | Some _, _ => Abort "CHECK(decoder->request == nullptr)"
       | None, Some _ => Abort "CHECK_NONE(decoder->writer)"
       | None, None =>
           Returns (mkStreamingRequestDecoder false Collector_init "" ""
                      (Some (set_req_type PIPE Request_init)) None None (sq_requests d)
                      (sq_pipes d) (sq_log d), true)
       end.

Definition sq_on_url (data : string) (d : StreamingRequestDecoder)
    : checked (StreamingRequestDecoder * bool) :=
  match sq_request d with
  | None => Returns (d, false)
  | Some r =>
      Returns (mkStreamingRequestDecoder (sq_failure d) (sq_header d) (sq_query d)
                 (sq_url d +:+ data) (Some r) (sq_writer d) (sq_decompressor d)
                 (sq_requests d) (sq_pipes d) (sq_log d), true)
  end.

Definition sq_collect (f : Collector * Headers -> Collector * Headers)
    (d : StreamingRequestDecoder) : checked (StreamingRequestDecoder * bool) :=
  match sq_request d with
  | None => Returns (d, false)
  | Some r =>
      let '(c, h) := f (sq_header d, req_headers r) in
      Returns (mkStreamingRequestDecoder (sq_failure d) c (sq_query d) (sq_url d)
                 (Some (set_req_headers h r)) (sq_writer d) (sq_decompressor d)
                 (sq_requests d) (sq_pipes d) (sq_log d), true)
  end.
Definition sq_on_header_field (data : string) := sq_collect (collect_field data).
Definition sq_on_header_value (data : string) := sq_collect (collect_value data).

Definition sq_on_headers_complete (p : http_parser) (d : StreamingRequestDecoder)
    : checked (StreamingRequestDecoder * bool) :=
  match sq_request d with
  | None => Abort "CHECK_NOTNULL(decoder->request)"
  | Some r =>
      let '(c, h) := collect_last (sq_header d, req_headers r) in
      let r := set_req_line (method_str p) (should_keep_alive p) (set_req_headers h r) in
      let '(u, query, ok) := parse_target (sq_url d) (sq_query d) (url r) in
      let r := set_req_url u r in
      if ok then
        let z := if gzipped (req_headers r) then Some new_Decompressor
                 else sq_decompressor d in
        match sq_writer d with
        | Some _ => Abort "CHECK_NONE(decoder->writer)"
        | None =>
            Returns (mkStreamingRequestDecoder (sq_failure d) c query (sq_url d) None
                       (Some (sq_pipes d)) z
                       (sq_requests d ++ [set_req_reader (sq_pipes d) r])%list
                       (S (sq_pipes d)) (sq_log d), true)
        end
      else
        Returns (mkStreamingRequestDecoder true c query (sq_url d) (Some r) (sq_writer d)
                   (sq_decompressor d) (sq_requests d) (sq_pipes d) (sq_log d), false)
  end.

(** Something is asked of the writer, which is kept or dropped. *)
Definition sq_ask (w : nat) (r : Pipe.request) (writer : option nat) (failure : bool)
    (d : StreamingRequestDecoder) : StreamingRequestDecoder :=
  mkStreamingRequestDecoder failure (sq_header d) (sq_query d) (sq_url d) (sq_request d)
    writer (sq_decompressor d) (sq_requests d) (sq_pipes d) (sq_log d ++ [(w, r)])%list.

Definition sq_set_decompressor (z : Decompressor) (failure : bool)
    (d : StreamingRequestDecoder) : StreamingRequestDecoder :=
  mkStreamingRequestDecoder failure (sq_header d) (sq_query d) (sq_url d) (sq_request d)
    (sq_writer d) (Some z) (sq_requests d) (sq_pipes d) (sq_log d).

Definition sq_on_body (data : string) (d : StreamingRequestDecoder)
    : checked (StreamingRequestDecoder * bool) :=
  match sq_writer d with
  | None => Abort "CHECK_SOME(decoder->writer)"
  | Some w =>
      match sq_decompressor d with
      | None => Returns (sq_ask w (Pipe.Write data) (Some w) (sq_failure d) d, true)
      | Some z =>
          match decompress data z with
          | (z, Error _) => Returns (sq_set_decompressor z true d, false)
          | (z, Some_ body) =>
              Returns (sq_ask w (Pipe.Write body) (Some w) (sq_failure d)
                         (sq_set_decompressor z (sq_failure d) d), true)
          end
      end
  end.

Definition sq_on_message_complete (d : StreamingRequestDecoder)
    : checked (StreamingRequestDecoder * bool) :=
  match sq_writer d with
  | None => if sq_failure d then Returns (d, false) else Abort "CHECK(decoder->failure)"
  | Some w =>
      if match sq_decompressor d with Some z => negb (finished z) | None => false end
      then Returns (sq_ask w (Pipe.Fail "Failed to decompress body") (Some w) true d, false)
      else Returns (sq_ask w Pipe.CloseWriter None (sq_failure d) d, true)
  end.

Definition sq_call (c : callback) (d : StreamingRequestDecoder)
    : checked (StreamingRequestDecoder * bool) :=
  match c with
  | on_message_begin => sq_on_message_begin d
  | on_url s => sq_on_url s d
  | on_header_field s => sq_on_header_field s d
  | on_header_value s => sq_on_header_value s d
  | on_headers_complete p => sq_on_headers_complete p d
  | on_body s => sq_on_body s d
  | on_message_complete _ => sq_on_message_complete d
  | on_status _ | on_chunk_header | on_chunk_complete => Returns (d, true)
  end.

Definition sq_not_parsed (d : StreamingRequestDecoder) : StreamingRequestDecoder :=
  match sq_writer d with
  | Some w => sq_ask w (Pipe.Fail "failed to decode body") None true d
  | None =>
      mkStreamingRequestDecoder true (sq_header d) (sq_query d) (sq_url d) (sq_request d) None
        (sq_decompressor d) (sq_requests d) (sq_pipes d) (sq_log d)
  end.

#[global] Instance StreamingRequestDecoder_Decoder
    : Decoder StreamingRequestDecoder Request := {
  call := sq_call;
  not_parsed := sq_not_parsed;
  collect d := (mkStreamingRequestDecoder (sq_failure d) (sq_header d) (sq_query d)
                  (sq_url d) (sq_request d) (sq_writer d) (sq_decompressor d) []
                  (sq_pipes d) (sq_log d), sq_requests d);
  failed := sq_failure;
}.

(** What the destructor asks of the pipes. *)
Definition sq_delete (d : StreamingRequestDecoder) : list (nat * Pipe.request) :=
  (sq_log d ++ match sq_writer d with
              | Some w => [(w, Pipe.Fail "Decoder is being deleted")]
              | None => []
              end)%list.
End Decoders.
