(* ===== verification/DecodersLaws.v ===== *)
(** Facts about the HTTP decoders that do not depend on the messages: splitting the input
    into calls of [decode] makes no difference, and headers are put together from their
    pieces.  The decoders are instances of the classes that state them. *)

From Stdlib Require Import Ascii String.
From S2P Require Import Prelude HttpCodec HttpText HttpTextSpec Pipe Decoders.

Local Open Scope string_scope.
Local Open Scope nat_scope.

(** ** Splitting *)

(** What the callbacks of a decoder have in common: handing out messages does not
    influence them. *)
Class DecoderLaws (D Out : Type) `{Decoder D Out} := {
  prepend : list Out -> D -> D;
  collect_split d : d = prepend (collect d).2 (collect d).1;
  collect_again d : collect (collect d).1 = ((collect d).1, []);
  collect_prepend o d : collect (prepend o d) = ((collect d).1, (o ++ (collect d).2)%list);
  call_prepend c o d :
    call c (prepend o d) =
      match call c d with
      | Returns (d, b) => Returns (prepend o d, b)
      | Abort m => Abort m
      end;
}.

Section Splitting.
Context `{DecoderLaws D Out}.

Lemma decoder_execute_app cs1 cs2 d :
  execute (cs1 ++ cs2)%list d =
    match execute cs1 d with
    | Returns (d, true) => execute cs2 d
    | x => x
    end.
Proof.
  revert d. induction cs1 as [|c cs1 IH]; intros d; [done|]. cbn [app execute].
  destruct (call c d) as [[d' [|]]|m]; [apply IH| |done].
  destruct c; try done. by destruct (call _ d') as [[d'' b]|].
Qed.

Lemma execute_prepend cs o d :
  execute cs (prepend o d) =
    match execute cs d with
    | Returns (d, b) => Returns (prepend o d, b)
    | Abort m => Abort m
    end.
Proof.
  revert d. induction cs as [|c cs IH]; intros d; [done|]. cbn [execute].
  rewrite call_prepend. destruct (call c d) as [[d' [|]]|m]; [apply IH| |done].
  destruct c; try done. rewrite call_prepend. by destruct (call _ d') as [[d'' b]|].
Qed.

(** However the callbacks are split into calls of [decode], the decoder ends as if they
    were made in one call, and all messages are handed out. *)
Lemma decode_all_concat cs d d' :
  collect d = (d, []) -> Forall (fun c => ending c = Consumed) cs ->
  execute (concat (map callbacks cs)) d = Returns (d', true) ->
  decode_all cs (mkRunning d false) = Returns (mkRunning (collect d').1 false, (collect d').2).
Proof.
  revert d d'. induction cs as [|c cs IH]; intros d d' Hd Hc He.
  { injection He as ->. by rewrite Hd. }
  apply Forall_cons in Hc as [Hc Hcs]. cbn [map concat] in He. rewrite decoder_execute_app in He.
  destruct (execute (callbacks c) d) as [[d1 [|]]|] eqn:H1; try done.
  rewrite (collect_split d1), execute_prepend in He.
  destruct (execute _ (collect d1).1) as [[d2 b]|] eqn:H2; [|done]. injection He as <- ->.
  cbn [decode_all]. unfold decode, http_parser_execute. cbn [errno decoder]. rewrite H1, Hc.
  cbn [errno decoder]. destruct (collect d1) as [e o] eqn:Hcol.
  rewrite (IH e d2); [by rewrite collect_prepend| |done|done].
  pose proof (collect_again d1) as Ha. by rewrite Hcol in Ha.
Qed.
End Splitting.

(** ** Headers *)

Definition cat (l : list string) : string := foldr String.append "" l.

Lemma cat_cons x l : cat (x :: l) = x +:+ cat l. Proof. done. Qed.

Definition header_callbacks (f : list string * list string) : list callback :=
  (map on_header_field f.1 ++ map on_header_value f.2)%list.
Definition collect_pieces (x : Collector * Headers) (f : list string * list string)
    : Collector * Headers :=
  foldl (flip collect_value) (foldl (flip collect_field) x f.1) f.2.

(** The headers that the pieces stand for.  A message without headers gets one with an
    empty name. *)
Definition headers_of (fs : list (list string * list string)) : Headers :=
  match fs with
  | [] => header_set "" "" ∅
  | _ => foldl (fun h f => header_set (cat f.1) (cat f.2) h) ∅ fs
  end.

(** The parser makes at least one callback for a name and one for a value. *)
Definition pieces_ok (f : list string * list string) : Prop := f.1 <> [] /\ f.2 <> [].

Lemma collect_values vs c h :
  vs <> [] ->
  foldl (flip collect_value) (c, h) vs
  = (mkCollector HEADER_VALUE (field c) (value c +:+ cat vs), h).
Proof.
  revert c. induction vs as [|v vs IH]; intros c Hne; [done|]. cbn [foldl].
  change (flip collect_value (c, h) v)
    with (mkCollector HEADER_VALUE (field c) (value c +:+ v), h).
  destruct vs as [|v' vs]; [simpl; by rewrite append_nil_r|].
  rewrite IH by done. cbn [field value]. by rewrite append_assoc.
Qed.

Lemma collect_fields_from f v fs h :
  foldl (flip collect_field) (mkCollector HEADER_FIELD f v, h) fs
  = (mkCollector HEADER_FIELD (f +:+ cat fs) v, h).
Proof.
  revert f. induction fs as [|s fs IH]; intros f; [simpl; by rewrite append_nil_r|].
  cbn [foldl]. change (flip collect_field (mkCollector HEADER_FIELD f v, h) s)
    with (mkCollector HEADER_FIELD (f +:+ s) v, h).
  by rewrite IH, append_assoc.
Qed.

(** The headers once the one being collected is added. *)
Definition settled (x : Collector * Headers) : Headers :=
  match header x.1 with
  | HEADER_FIELD => x.2
  | HEADER_VALUE => header_set (field x.1) (value x.1) x.2
  end.
Definition fresh (c : Collector) : Prop :=
  header c = HEADER_FIELD -> field c = "" /\ value c = "".

Lemma collect_pieces_spec x f :
  pieces_ok f -> fresh x.1 ->
  header (collect_pieces x f).1 = HEADER_VALUE /\
  settled (collect_pieces x f) = header_set (cat f.1) (cat f.2) (settled x).
Proof.
  destruct x as [[st fd vl] h], f as [[|s fs] vs]; [by intros [? _]|].
  intros [_ Hv] Hf. unfold collect_pieces, settled. cbn [fst snd] in *. cbn [foldl header field value].
  destruct st.
  - destruct Hf as [Hx Hy]; [done|]. cbn [field value] in *. subst fd vl.
    change (flip collect_field (mkCollector HEADER_FIELD "" "", h) s)
      with (mkCollector HEADER_FIELD s "", h).
    rewrite collect_fields_from, collect_values by done. done.
  - change (flip collect_field (mkCollector HEADER_VALUE fd vl, h) s)
      with (mkCollector HEADER_FIELD s "", header_set fd vl h).
    rewrite collect_fields_from, collect_values by done. done.
Qed.

Lemma collect_all_spec fs x :
  Forall pieces_ok fs -> fresh x.1 ->
  settled (foldl collect_pieces x fs)
  = foldl (fun h f => header_set (cat f.1) (cat f.2) h) (settled x) fs /\
  (fs <> [] -> header (foldl collect_pieces x fs).1 = HEADER_VALUE).
Proof.
  intros Hfs. revert x. induction Hfs as [|f fs Hf Hfs IH]; intros x Hx; [done|].
  destruct (collect_pieces_spec x f Hf Hx) as [Hh Hs].
  destruct (IH (collect_pieces x f)) as [IH1 IH2]; [unfold fresh; congruence|].
  cbn [foldl]. rewrite IH1, Hs. split; [done|]. intros _.
  destruct fs as [|f' fs]; [done|by apply IH2].
Qed.

(** What [on_headers_complete] makes of the pieces. *)
Lemma collect_last_spec fs :
  Forall pieces_ok fs ->
  exists st, collect_last (foldl collect_pieces (Collector_init, ∅) fs)
    = (mkCollector st "" "", headers_of fs).
Proof.
  intros Hfs. destruct (collect_all_spec fs (Collector_init, ∅) Hfs) as [H1 H2]; [done|].
  destruct (foldl collect_pieces (Collector_init, ∅) fs) as [c h] eqn:E.
  exists (header c). unfold collect_last. f_equal.
  destruct fs as [|f fs]; [by injection E as <- <-|].
  unfold settled in H1. cbn [fst snd] in H1, H2. by rewrite H2 in H1.
Qed.

(** A decoder that collects the headers of a message. *)
Class Collects (D Out : Type) `{Decoder D Out} := {
  view : D -> option (Collector * Headers);
  put : Collector * Headers -> D -> D;
  view_put x d : is_Some (view d) -> view (put x d) = Some x;
  put_put x y d : put x (put y d) = put x d;
  put_view x d : view d = Some x -> put x d = d;
  call_field s x d :
    view d = Some x -> call (on_header_field s) d = Returns (put (collect_field s x) d, true);
  call_value s x d :
    view d = Some x -> call (on_header_value s) d = Returns (put (collect_value s x) d, true);
}.

Section Collecting.
Context `{Collects D Out}.

Lemma execute_pieces (mk : string -> callback) g ss x d rest :
  (forall s x d, view d = Some x -> call (mk s) d = Returns (put (g s x) d, true)) ->
  view d = Some x ->
  execute (map mk ss ++ rest)%list d = execute rest (put (foldl (flip g) x ss) d).
Proof.
  intros Hmk. revert x d. induction ss as [|s ss IH]; intros x d Hx.
  { cbn. by rewrite put_view. }
  cbn [map app execute foldl]. rewrite (Hmk _ _ _ Hx), (IH (g s x)) by (apply view_put; eauto).
  by rewrite put_put.
Qed.

Lemma execute_headers fs x d rest :
  view d = Some x ->
  execute (concat (map header_callbacks fs) ++ rest)%list d
  = execute rest (put (foldl collect_pieces x fs) d).
Proof.
  revert x d. induction fs as [|f fs IH]; intros x d Hx; [cbn; by rewrite put_view|].
  cbn [map concat foldl]. unfold header_callbacks. rewrite <- !app_assoc.
  rewrite (execute_pieces _ _ _ _ _ _ call_field Hx).
  rewrite (execute_pieces _ _ _ _ _ _ call_value (view_put _ _ (ex_intro _ _ Hx))).
  rewrite put_put, (IH (collect_pieces x f)) by (apply view_put; eauto). by rewrite put_put.
Qed.
End Collecting.

(** ** The decoders satisfy the laws *)
Section Instances.
Context `{Stout, UrlParser, Gzip}.

#[global] Program Instance DataDecoder_laws : DecoderLaws DataDecoder Request := {
  prepend o d := mkDataDecoder (dd_failure d) (dd_header d) (dd_query d) (dd_url d)
                   (dd_request d) (o ++ dd_requests d)%list;
}.
Next Obligation. intros d. destruct d. simpl. by rewrite app_nil_r. Qed.
Next Obligation. done. Qed.
Next Obligation. done. Qed.
Next Obligation.
  intros c o [f hd q u r rs]. destruct c; simpl; try done.
  - unfold dd_on_message_begin. simpl. destruct f; [done|by destruct r].
  - unfold dd_on_url, dd_with. simpl. by destruct r.
  - unfold dd_on_header_field, dd_with. simpl. by destruct r.
  - unfold dd_on_header_value, dd_with. simpl. by destruct r.
  - unfold dd_on_headers_complete, dd_with. simpl. by destruct r.
  - unfold dd_on_body, dd_with. simpl. by destruct r.
  - unfold dd_on_message_complete. simpl. destruct r as [r|]; [|done].
    destruct (parse_target u q (url r)) as [[u' q'] [|]]; [|done].
    destruct (inflate _ _) as [[[h b]|]|]; try done. simpl. by rewrite (assoc_L app).
Qed.

#[global] Program Instance ResponseDecoder_laws : DecoderLaws ResponseDecoder Response := {
  prepend o d := mkResponseDecoder (rd_failure d) (rd_header d) (rd_response d)
                   (o ++ rd_responses d)%list;
}.
Next Obligation. intros d. destruct d. simpl. by rewrite app_nil_r. Qed.
Next Obligation. done. Qed.
Next Obligation. done. Qed.
Next Obligation.
  intros c o [f hd r rs]. destruct c; simpl; try done.
  - unfold rd_on_message_begin. simpl. destruct f; [done|by destruct r].
  - unfold rd_on_header_field, rd_with. simpl. by destruct r.
  - unfold rd_on_header_value, rd_with. simpl. by destruct r.
  - unfold rd_on_headers_complete, rd_with. simpl. by destruct r.
  - unfold rd_on_body, rd_with. simpl. by destruct r.
  - unfold rd_on_message_complete. simpl. destruct r as [r|]; [|done].
    destruct (isValidStatus _); [|done].
    destruct (inflate _ _) as [[[h b]|]|]; try done. simpl. by rewrite (assoc_L app).
Qed.

#[global] Program Instance StreamingResponseDecoder_laws
    : DecoderLaws StreamingResponseDecoder Response := {
  prepend o d := mkStreamingResponseDecoder (sr_failure d) (sr_header d) (sr_response d)
                   (sr_writer d) (o ++ sr_responses d)%list (sr_pipes d) (sr_log d);
}.
Next Obligation. intros d. destruct d. simpl. by rewrite app_nil_r. Qed.
Next Obligation. done. Qed.
Next Obligation. done. Qed.
Next Obligation.
  intros c o [f hd r w rs n l]. destruct c; simpl; try done.
  - unfold sr_on_message_begin. simpl. destruct f; [done|by destruct r, w].
  - unfold sr_on_header_field, sr_collect. simpl. destruct r as [r|]; [|done].
    by destruct (header hd).
  - unfold sr_on_header_value, sr_collect. simpl. by destruct r.
  - unfold sr_on_headers_complete. simpl. destruct r as [r|]; [|done].
    destruct (isValidStatus _); [|done]. destruct (gzipped _); [done|].
    destruct w; [done|]. simpl. by rewrite (assoc_L app).
  - unfold sr_on_body. simpl. by destruct w.
  - unfold sr_on_message_complete. simpl. destruct w; [done|by destruct f].
Qed.

#[global] Program Instance StreamingRequestDecoder_laws
    : DecoderLaws StreamingRequestDecoder Request := {
  prepend o d := mkStreamingRequestDecoder (sq_failure d) (sq_header d) (sq_query d)
                   (sq_url d) (sq_request d) (sq_writer d) (sq_decompressor d)
                   (o ++ sq_requests d)%list (sq_pipes d) (sq_log d);
}.
Next Obligation. intros d. destruct d. simpl. by rewrite app_nil_r. Qed.
Next Obligation. done. Qed.
Next Obligation. done. Qed.
Next Obligation.
  intros c o [f hd q u r w z rs n l]. destruct c; simpl; try done.
  - unfold sq_on_message_begin. simpl. destruct f; [done|by destruct r, w].
  - unfold sq_on_url. simpl. by destruct r.
  - unfold sq_on_header_field, sq_collect. simpl. destruct r as [r|]; [|done].
    by destruct (header hd).
  - unfold sq_on_header_value, sq_collect. simpl. by destruct r.
  - unfold sq_on_headers_complete. simpl. destruct r as [r|]; [|done]. simpl.
    destruct (parse_target u q (url r)) as [[u' q'] [|]]; [|done].
    destruct w; [done|]. simpl. by rewrite (assoc_L app).
  - unfold sq_on_body. simpl. destruct w as [w|]; [|done]. destruct z as [z|]; [|done].
    by destruct (decompress data z) as [z' [b|m]].
  - unfold sq_on_message_complete. simpl. destruct w as [w|]; [|by destruct f].
    by destruct (match z with Some z => _ | None => _ end).
Qed.

#[global] Program Instance DataDecoder_collects : Collects DataDecoder Request := {
  view d := (fun r => (dd_header d, req_headers r)) <$> dd_request d;
  put x d := mkDataDecoder (dd_failure d) x.1 (dd_query d) (dd_url d)
               (set_req_headers x.2 <$> dd_request d) (dd_requests d);
}.
Next Obligation. intros [c h] d. destruct d as [? ? ? ? [r|] ?]; simpl; [done|by intros []]. Qed.
Next Obligation. intros x y [? ? ? ? [r|] ?]; done. Qed.
Next Obligation. intros x [? ? ? ? [[]|] ?] [= <-]; done. Qed.
Next Obligation. intros s x [? ? ? ? [[]|] ?] [= <-]; done. Qed.
Next Obligation. intros s x [? ? ? ? [[]|] ?] [= <-]; done. Qed.

#[global] Program Instance ResponseDecoder_collects : Collects ResponseDecoder Response := {
  view d := (fun r => (rd_header d, res_headers r)) <$> rd_response d;
  put x d := mkResponseDecoder (rd_failure d) x.1 (set_res_headers x.2 <$> rd_response d)
               (rd_responses d);
}.
Next Obligation. intros [c h] d. destruct d as [? ? [r|] ?]; simpl; [done|by intros []]. Qed.
Next Obligation. intros x y [? ? [r|] ?]; done. Qed.
Next Obligation. intros x [? ? [[]|] ?] [= <-]; done. Qed.
Next Obligation. intros s x [? ? [[]|] ?] [= <-]; done. Qed.
Next Obligation. intros s x [? ? [[]|] ?] [= <-]; done. Qed.

#[global] Program Instance StreamingResponseDecoder_collects
    : Collects StreamingResponseDecoder Response := {
  view d := (fun r => (sr_header d, res_headers r)) <$> sr_response d;
  put x d := mkStreamingResponseDecoder (sr_failure d) x.1
               (set_res_headers x.2 <$> sr_response d) (sr_writer d) (sr_responses d)
               (sr_pipes d) (sr_log d);
}.
Next Obligation. intros [c h] d. destruct d as [? ? [r|] ? ? ? ?]; simpl; [done|by intros []]. Qed.
Next Obligation. intros x y [? ? [r|] ? ? ? ?]; done. Qed.
Next Obligation. intros x [? ? [[]|] ? ? ? ?] [= <-]; done. Qed.
Next Obligation.
  intros s x [? [[] ? ?] [[]|] ? ? ? ?] [= <-]; done.
Qed.
Next Obligation. intros s x [? ? [[]|] ? ? ? ?] [= <-]; done. Qed.

#[global] Program Instance StreamingRequestDecoder_collects
    : Collects StreamingRequestDecoder Request := {
  view d := (fun r => (sq_header d, req_headers r)) <$> sq_request d;
  put x d := mkStreamingRequestDecoder (sq_failure d) x.1 (sq_query d) (sq_url d)
               (set_req_headers x.2 <$> sq_request d) (sq_writer d) (sq_decompressor d)
               (sq_requests d) (sq_pipes d) (sq_log d);
}.
Next Obligation.
  intros [c h] d. destruct d as [? ? ? ? [r|] ? ? ? ? ?]; simpl; [done|by intros []].
Qed.
Next Obligation. intros x y [? ? ? ? [r|] ? ? ? ? ?]; done. Qed.
Next Obligation. intros x [? ? ? ? [[]|] ? ? ? ? ?] [= <-]; done. Qed.
Next Obligation.
  intros s x [? [[] ? ?] ? ? [[]|] ? ? ? ? ?] [= <-]; done.
Qed.
Next Obligation. intros s x [? ? ? ? [[]|] ? ? ? ? ?] [= <-]; done. Qed.
End Instances.
