(* ===== verification/DecodersSpec.v ===== *)
(** Properties of the HTTP decoders: what was sent is what is decoded, however the bytes
    are split into calls of [decode]; which streams make a [CHECK] fail. *)

From Stdlib Require Import Ascii String.
From S2P Require Import Prelude HttpCodec HttpText HttpTextSpec Pipe Decoders DecodersLaws.

Local Open Scope string_scope.
Local Open Scope nat_scope.

(** ** Messages as the parser sees them *)

Inductive body_event := Piece (s : string) | ChunkHeader | ChunkComplete.

Record message := mkMessage {
  target : list string;
  reason : list string;
  fields : list (list string * list string);
  content : list body_event;
  info : http_parser;
}.

Definition body_callback (b : body_event) : callback :=
  match b with
  | Piece s => on_body s
  | ChunkHeader => on_chunk_header
  | ChunkComplete => on_chunk_complete
  end.
Definition body_data (bs : list body_event) : list string :=
  omap (fun b => match b with Piece s => Some s | _ => None end) bs.

Definition message_callbacks (m : message) : list callback :=
  (on_message_begin :: map on_url (target m) ++ map on_status (reason m) ++
   concat (map header_callbacks (fields m)) ++ on_headers_complete (info m) ::
   map body_callback (content m) ++ [on_message_complete (info m)])%list.

Definition message_ok (m : message) : Prop := Forall pieces_ok (fields m).

(** The bytes are consumed in calls of [decode] whose callbacks are those of [ms]. *)
Definition delivers (cs : list chunk) (ms : list message) : Prop :=
  Forall (fun c => ending c = Consumed) cs /\
  concat (map callbacks cs) = concat (map message_callbacks ms).

Section Messages.
Context `{Stout, UrlParser, Gzip}.

(** ** Streamed requests *)

(** What is written to the pipe for a body, and the state of the decompressor after it. *)
Fixpoint body_out (z : option Decompressor) (bs : list body_event)
    : option (list string * option Decompressor) :=
  match bs with
  | [] => Some ([], z)
  | Piece s :: bs =>
      match z with
      | None =>
          match body_out z bs with Some (o, z) => Some (s :: o, z) | None => None end
      | Some z =>
          match decompress s z with
          | (z, Some_ b) =>
              match body_out (Some z) bs with Some (o, z) => Some (b :: o, z) | None => None end
          | (_, Error _) => None
          end
      end
  | _ :: bs => body_out z bs
  end.
Definition complete (z : option Decompressor) : bool :=
  match z with Some z => finished z | None => true end.

(** The request that a message stands for, with the number of its pipe, and the body. *)
Definition decoded_request (n : nat) (m : message) : option (Request * list string) :=
  let h := headers_of (fields m) in
  let '(u, _, ok) := parse_target (cat (target m)) "" URL_init in
  if ok then
    match body_out (if gzipped h then Some new_Decompressor else None) (content m) with
    | Some (outs, z) =>
        if complete z then
          Some (mkRequest (method_str (info m)) u h (should_keep_alive (info m)) PIPE "" (Some n),
                outs)
        else None
    | None => None
    end
  else None.

Fixpoint decoded_all {A} (decoded : nat -> message -> option A) (n : nat) (ms : list message)
    : option (list A) :=
  match ms with
  | [] => Some []
  | m :: ms =>
      match decoded n m, decoded_all decoded (S n) ms with
      | Some x, Some xs => Some (x :: xs)
      | _, _ => None
      end
  end.

(** Each body goes to its own pipe, which is then closed. *)
Definition body_log (n : nat) (outs : list string) : list (nat * Pipe.request) :=
  (map (fun b => (n, Pipe.Write b)) outs ++ [(n, Pipe.CloseWriter)])%list.
Fixpoint bodies_log {A} (n : nat) (xs : list (A * list string)) : list (nat * Pipe.request) :=
  match xs with
  | [] => []
  | x :: xs => (body_log n x.2 ++ bodies_log (S n) xs)%list
  end.

Lemma bodies_log_snoc {A} n xs (x : A * list string) :
  bodies_log n (xs ++ [x])%list = (bodies_log n xs ++ body_log (n + length xs) x.2)%list.
Proof.
  revert n. induction xs as [|y xs IH]; intros n.
  { simpl. by rewrite app_nil_r, Nat.add_0_r. }
  cbn [app bodies_log length]. rewrite IH, (assoc_L app). by rewrite <- Nat.add_succ_comm.
Qed.

(** A decoder that decodes one message between two idle states decodes any number. *)
Lemma execute_messages `{DecoderLaws D Out} {A} (decoded : nat -> message -> option A)
    (idle : D -> list A -> Prop) :
  (forall m d xs x, message_ok m -> idle d xs -> decoded (length xs) m = Some x ->
     exists d', execute (message_callbacks m) d = Returns (d', true) /\ idle d' (xs ++ [x])%list) ->
  forall ms d xs ys, Forall message_ok ms -> idle d xs ->
    decoded_all decoded (length xs) ms = Some ys ->
    exists d', execute (concat (map message_callbacks ms)) d = Returns (d', true) /\
      idle d' (xs ++ ys)%list.
Proof.
  intros Hone ms d xs ys Hok. revert d xs ys.
  induction Hok as [|m ms Hm Hms IH]; intros d xs ys Hd Hx.
  { injection Hx as <-. exists d. by rewrite app_nil_r. }
  cbn [decoded_all] in Hx. destruct (decoded (length xs) m) as [x|] eqn:Hxm; [|done].
  destruct (decoded_all _ _ ms) as [zs|] eqn:Hzs; [|done]. injection Hx as <-.
  destruct (Hone m d xs x Hm Hd Hxm) as (d1 & He1 & Hd1).
  destruct (IH d1 (xs ++ [x])%list zs Hd1) as (d2 & He2 & Hd2).
  { rewrite length_app. simpl. by rewrite Nat.add_1_r. }
  exists d2. cbn [map concat]. rewrite decoder_execute_app, He1. split; [done|].
  by rewrite <- (assoc_L app) in Hd2.
Qed.

Lemma decode_messages `{DecoderLaws D Out} {A} (decoded : nat -> message -> option A)
    (idle : D -> list A -> Prop) d ms cs ys :
  (forall m d xs x, message_ok m -> idle d xs -> decoded (length xs) m = Some x ->
     exists d', execute (message_callbacks m) d = Returns (d', true) /\ idle d' (xs ++ [x])%list) ->
  collect d = (d, []) -> idle d [] ->
  Forall message_ok ms -> delivers cs ms -> decoded_all decoded 0 ms = Some ys ->
  exists d', decode_all cs (mkRunning d false)
             = Returns (mkRunning (collect d').1 false, (collect d').2) /\ idle d' ys.
Proof.
  intros Hone Hd Hi Hok [Hc Hcs] Hy.
  destruct (execute_messages decoded idle Hone ms d [] ys Hok Hi Hy) as (d' & He & Hd').
  rewrite <- Hcs in He. exists d'. split; [by apply decode_all_concat|done].
Qed.

(** Between two messages, after [xs]. *)
Definition sq_idle (d : StreamingRequestDecoder) (xs : list (Request * list string)) : Prop :=
  sq_failure d = false /\ sq_request d = None /\ sq_writer d = None /\
  sq_requests d = xs.*1 /\ sq_pipes d = length xs /\ sq_log d = bodies_log 0 xs.

Lemma sq_execute_url ss d r rest :
  sq_request d = Some r ->
  execute (map on_url ss ++ rest)%list d
  = execute rest (mkStreamingRequestDecoder (sq_failure d) (sq_header d) (sq_query d)
      (sq_url d +:+ cat ss) (Some r) (sq_writer d) (sq_decompressor d) (sq_requests d)
      (sq_pipes d) (sq_log d)).
Proof.
  revert d. induction ss as [|s ss IH]; intros [f hd q u r' w z rs n l] Hr; simpl in Hr; subst.
  { simpl. by rewrite append_nil_r. }
  cbn [map app execute call StreamingRequestDecoder_Decoder sq_call]. unfold sq_on_url.
  cbn [sq_request]. rewrite IH by done. simpl. by rewrite append_assoc.
Qed.

Lemma execute_status `{Decoder D Out} ss d rest :
  (forall s d, call (on_status s) d = Returns (d, true)) ->
  execute (map on_status ss ++ rest)%list d = execute rest d.
Proof. intros Hc. induction ss as [|s ss IH]; [done|]. simpl. by rewrite Hc. Qed.

Lemma sq_execute_body bs w d outs z rest :
  sq_writer d = Some w -> body_out (sq_decompressor d) bs = Some (outs, z) ->
  execute (map body_callback bs ++ rest)%list d
  = execute rest (mkStreamingRequestDecoder (sq_failure d) (sq_header d) (sq_query d)
      (sq_url d) (sq_request d) (Some w) z (sq_requests d) (sq_pipes d)
      (sq_log d ++ map (fun b => (w, Pipe.Write b)) outs)%list).
Proof.
  revert d outs. induction bs as [|b bs IH]; intros [f hd q u r w' z0 rs n l] outs Hw Hb;
    simpl in Hw; subst.
  { injection Hb as <- <-. simpl. by rewrite app_nil_r. }
  destruct b as [s| |]; [|by apply (IH _ outs)|by apply (IH _ outs)].
  cbn [map app body_callback execute call StreamingRequestDecoder_Decoder sq_call].
  unfold sq_on_body. cbn [sq_writer sq_decompressor]. cbn [body_out sq_decompressor] in Hb.
  destruct z0 as [z0|].
  - destruct (decompress s z0) as [z1 [b|m]]; [|done].
    destruct (body_out (Some z1) bs) as [[o z2]|] eqn:Ho; [|done]. injection Hb as <- <-.
    rewrite (IH _ o) by done. simpl. by rewrite <- (assoc_L app).
  - destruct (body_out None bs) as [[o z2]|] eqn:Ho; [|done]. injection Hb as <- <-.
    rewrite (IH _ o) by done. simpl. by rewrite <- (assoc_L app).
Qed.

Lemma sq_message m d xs x :
  message_ok m -> sq_idle d xs -> decoded_request (length xs) m = Some x ->
  exists d', execute (message_callbacks m) d = Returns (d', true) /\ sq_idle d' (xs ++ [x])%list.
Proof.
  intros Hok (Hf & Hr & Hw & Hrs & Hn & Hl) Hx.
  destruct d as [f0 hd0 q0 u0 r0 w0 z0 rs0 n0 l0]; simpl in *; subst.
  unfold message_callbacks. cbn [execute call StreamingRequestDecoder_Decoder sq_call].
  cbn [sq_on_message_begin sq_failure sq_request sq_writer sq_requests sq_pipes sq_log].
  rewrite (sq_execute_url _ _ (set_req_type PIPE Request_init)) by done.
  rewrite execute_status by done.
  rewrite (execute_headers _ (Collector_init, ∅)) by done.
  destruct (collect_last_spec (fields m) Hok) as [st Hh].
  cbn [execute call put StreamingRequestDecoder_Decoder StreamingRequestDecoder_collects sq_call].
  unfold sq_on_headers_complete.
  destruct (foldl collect_pieces _ _) as [c h]. injection Hh as _ Hh.
  cbn -[header_set parse_target gzipped]. rewrite Hh. unfold decoded_request in Hx. destruct (parse_target _ "" _) as [[u q] [|]] eqn:Hu; [|done].
  destruct (body_out _ _) as [[outs z]|] eqn:Hb; [|done].
  destruct (complete z) eqn:Hz; [|done]. injection Hx as <-.
  erewrite sq_execute_body; [|done|done]. simpl.
  unfold sq_on_message_complete. simpl.
  replace (match z with Some z => negb (finished z) | None => false end) with false
    by (destruct z; simpl in *; by rewrite ?Hz).
  eexists. split; [done|]. unfold sq_idle, sq_ask. simpl.
  rewrite bodies_log_snoc, fmap_app, length_app, Nat.add_1_r. by rewrite <- (assoc_L app).
Qed.

(** A streaming request decoder decodes what was sent: however the input is split into
    calls of [decode] and the URL, headers and body into pieces, the requests come out
    in order, each with its method, URL, query, headers and a pipe of its own, and the
    pipe is given the body (decompressed if it was compressed) and then closed; the
    decoder has not failed. *)
Theorem streamed_requests_decoded ms cs xs :
  Forall message_ok ms -> delivers cs ms -> decoded_all decoded_request 0 ms = Some xs ->
  exists s, decode_all cs (mkRunning StreamingRequestDecoder_init false)
            = Returns (s, xs.*1) /\
    errno s = false /\ failed (decoder s) = false /\
    sq_log (decoder s) = bodies_log 0 xs /\ sq_delete (decoder s) = sq_log (decoder s).
Proof.
  intros Hok Hcs Hx.
  destruct (decode_messages decoded_request sq_idle StreamingRequestDecoder_init ms cs xs sq_message)
    as (d & He & Hd); [done|done|done|done|done|].
  destruct Hd as (Hf & _ & Hw & Hrs & _ & Hl). eexists. split; [rewrite He; cbn; by rewrite Hrs|].
  cbn. unfold sq_delete. cbn. by rewrite Hf, Hw, Hl, app_nil_r.
Qed.

(** ** Streamed responses *)

Definition decoded_response (n : nat) (m : message) : option (Response * list string) :=
  let h := headers_of (fields m) in
  if isValidStatus (status_code (info m)) && negb (gzipped h) then
    Some (mkResponse (Status_string (status_code (info m))) (status_code (info m)) h PIPE "" ""
            (Some n), body_data (content m))
  else None.

Definition sr_idle (d : StreamingResponseDecoder) (xs : list (Response * list string)) : Prop :=
  sr_failure d = false /\ sr_response d = None /\ sr_writer d = None /\
  sr_responses d = xs.*1 /\ sr_pipes d = length xs /\ sr_log d = bodies_log 0 xs.

Lemma execute_url `{Decoder D Out} ss d rest :
  (forall s d, call (on_url s) d = Returns (d, true)) ->
  execute (map on_url ss ++ rest)%list d = execute rest d.
Proof. intros Hc. induction ss as [|s ss IH]; [done|]. simpl. by rewrite Hc. Qed.

Lemma sr_execute_body bs w d rest :
  sr_writer d = Some w ->
  execute (map body_callback bs ++ rest)%list d
  = execute rest (mkStreamingResponseDecoder (sr_failure d) (sr_header d) (sr_response d)
      (Some w) (sr_responses d) (sr_pipes d)
      (sr_log d ++ map (fun b => (w, Pipe.Write b)) (body_data bs))%list).
Proof.
  revert d. induction bs as [|b bs IH]; intros [f hd r w' rs n l] Hw; simpl in Hw; subst.
  { simpl. by rewrite app_nil_r. }
  destruct b as [s| |]; [|by apply IH|by apply IH].
  cbn [map app body_callback execute call StreamingResponseDecoder_Decoder sr_call].
  unfold sr_on_body. cbn [sr_writer]. rewrite IH by done. simpl. by rewrite <- (assoc_L app).
Qed.

Lemma sr_message m d xs x :
  message_ok m -> sr_idle d xs -> decoded_response (length xs) m = Some x ->
  exists d', execute (message_callbacks m) d = Returns (d', true) /\ sr_idle d' (xs ++ [x])%list.
Proof.
  intros Hok (Hf & Hr & Hw & Hrs & Hn & Hl) Hx.
  destruct d as [f0 hd0 r0 w0 rs0 n0 l0]; simpl in *; subst.
  unfold message_callbacks. cbn [execute call StreamingResponseDecoder_Decoder sr_call].
  cbn [sr_on_message_begin sr_failure sr_response sr_writer sr_responses sr_pipes sr_log].
  rewrite execute_url, execute_status by done.
  rewrite (execute_headers _ (Collector_init, ∅)) by done.
  destruct (collect_last_spec (fields m) Hok) as [st Hh].
  cbn [execute call put StreamingResponseDecoder_Decoder StreamingResponseDecoder_collects sr_call].
  unfold sr_on_headers_complete.
  destruct (foldl collect_pieces _ _) as [c h]. injection Hh as _ Hh.
  cbn -[header_set isValidStatus gzipped Status_string]. rewrite Hh. unfold decoded_response in Hx.
  destruct (isValidStatus _); [|done]. destruct (gzipped _); [done|]. injection Hx as <-.
  rewrite (sr_execute_body _ (length xs)) by done.
  eexists. split; [done|]. unfold sr_idle, sr_ask. simpl.
  rewrite bodies_log_snoc, fmap_app, length_app, Nat.add_1_r. by rewrite <- (assoc_L app).
Qed.

(** A streaming response decoder decodes what was sent, in order, with a pipe for each
    body, and is writing no body after the last byte of a response. *)
Theorem streamed_responses_decoded ms cs xs :
  Forall message_ok ms -> delivers cs ms -> decoded_all decoded_response 0 ms = Some xs ->
  exists s, decode_all cs (mkRunning StreamingResponseDecoder_init false)
            = Returns (s, xs.*1) /\
    errno s = false /\ failed (decoder s) = false /\
    sr_log (decoder s) = bodies_log 0 xs /\ sr_writingBody (decoder s) = false.
Proof.
  intros Hok Hcs Hx.
  destruct (decode_messages decoded_response sr_idle StreamingResponseDecoder_init ms cs xs sr_message)
    as (d & He & Hd); [done|done|done|done|done|].
  destruct Hd as (Hf & _ & Hw & Hrs & _ & Hl). eexists. split; [rewrite He; cbn; by rewrite Hrs|].
  cbn. unfold sr_writingBody. cbn. by rewrite Hf, Hw, Hl.
Qed.

(** ** Whole messages *)

(** The message that [DataDecoder] and [ResponseDecoder] make of [m]. *)
Definition whole_request (m : message) : option Request :=
  let h := headers_of (fields m) in
  let '(u, _, ok) := parse_target (cat (target m)) "" URL_init in
  if ok then
    match inflate h (cat (body_data (content m))) with
    | Returns (Some (h, b)) =>
        Some (mkRequest (method_str (info m)) u h (should_keep_alive (info m)) BODY b None)
    | _ => None
    end
  else None.

Definition whole_response (m : message) : option Response :=
  let c := status_code (info m) in
  if isValidStatus c then
    match inflate (headers_of (fields m)) (cat (body_data (content m))) with
    | Returns (Some (h, b)) => Some (mkResponse (Status_string c) c h BODY b "" None)
    | _ => None
    end
  else None.

Lemma dd_execute_url ss d r rest :
  dd_request d = Some r ->
  execute (map on_url ss ++ rest)%list d
  = execute rest (mkDataDecoder (dd_failure d) (dd_header d) (dd_query d)
      (dd_url d +:+ cat ss) (Some r) (dd_requests d)).
Proof.
  revert d. induction ss as [|s ss IH]; intros [f hd q u r' rs] Hr; simpl in Hr; subst.
  { simpl. by rewrite append_nil_r. }
  cbn [map app execute call DataDecoder_Decoder dd_call]. unfold dd_on_url, dd_with.
  cbn [dd_request]. rewrite IH by done. simpl. by rewrite append_assoc.
Qed.

Lemma dd_execute_body bs d r rest :
  dd_request d = Some r ->
  execute (map body_callback bs ++ rest)%list d
  = execute rest (mkDataDecoder (dd_failure d) (dd_header d) (dd_query d) (dd_url d)
      (Some (set_req_body (req_body r +:+ cat (body_data bs)) r)) (dd_requests d)).
Proof.
  revert d r. induction bs as [|b bs IH]; intros [f hd q u r' rs] r Hr; simpl in Hr; subst.
  { destruct r. simpl. by rewrite append_nil_r. }
  destruct b as [s| |]; [|by apply IH|by apply IH].
  cbn [map app body_callback execute call DataDecoder_Decoder dd_call]. unfold dd_on_body, dd_with.
  cbn [dd_request]. rewrite (IH _ (set_req_body (req_body r +:+ s) r)) by done. simpl.
  by rewrite append_assoc.
Qed.

Lemma rd_execute_body bs d r rest :
  rd_response d = Some r ->
  execute (map body_callback bs ++ rest)%list d
  = execute rest (mkResponseDecoder (rd_failure d) (rd_header d)
      (Some (set_res_body (res_body r +:+ cat (body_data bs)) r)) (rd_responses d)).
Proof.
  revert d r. induction bs as [|b bs IH]; intros [f hd r' rs] r Hr; simpl in Hr; subst.
  { destruct r. simpl. by rewrite append_nil_r. }
  destruct b as [s| |]; [|by apply IH|by apply IH].
  cbn [map app body_callback execute call ResponseDecoder_Decoder rd_call]. unfold rd_on_body, rd_with.
  cbn [rd_response]. rewrite (IH _ (set_res_body (res_body r +:+ s) r)) by done. simpl.
  by rewrite append_assoc.
Qed.

Definition dd_idle (d : DataDecoder) (rs : list Request) : Prop :=
  dd_failure d = false /\ dd_request d = None /\ dd_requests d = rs.
Definition rd_idle (d : ResponseDecoder) (rs : list Response) : Prop :=
  rd_failure d = false /\ rd_response d = None /\ rd_responses d = rs.

(** A message up to its end. *)
Lemma dd_until_complete m d rs :
  message_ok m -> dd_idle d rs ->
  exists c, execute (message_callbacks m) d
    = execute [on_message_complete (info m)]
        (mkDataDecoder false c "" (cat (target m))
           (Some (mkRequest (method_str (info m)) URL_init (headers_of (fields m))
                    (should_keep_alive (info m)) BODY (cat (body_data (content m))) None)) rs).
Proof.
  intros Hok (Hf & Hr & Hrs). destruct d as [f0 hd0 q0 u0 r0 rs0]; simpl in *; subst.
  unfold message_callbacks. cbn [execute call DataDecoder_Decoder dd_call].
  cbn [dd_on_message_begin dd_failure dd_request dd_requests].
  rewrite (dd_execute_url _ _ Request_init), execute_status by done.
  rewrite (execute_headers _ (Collector_init, ∅)) by done.
  destruct (collect_last_spec (fields m) Hok) as [st Hh].
  cbn [execute call put DataDecoder_Decoder DataDecoder_collects dd_call].
  unfold dd_on_headers_complete, dd_with.
  destruct (foldl collect_pieces _ _) as [c h]. injection Hh as _ Hh.
  cbn -[header_set execute]. rewrite Hh. erewrite dd_execute_body by done. by eexists.
Qed.

Lemma dd_message m d rs r :
  message_ok m -> dd_idle d rs -> whole_request m = Some r ->
  exists d', execute (message_callbacks m) d = Returns (d', true) /\ dd_idle d' (rs ++ [r])%list.
Proof.
  intros Hok Hd Hx. destruct (dd_until_complete m d rs Hok Hd) as [c ->].
  cbn -[parse_target inflate]. unfold dd_on_message_complete. cbn -[parse_target inflate].
  unfold whole_request in Hx. destruct (parse_target _ "" _) as [[u q] [|]]; [|done].
  cbn -[inflate]. destruct (inflate _ _) as [[[h' b']|]|]; [|done|done]. injection Hx as <-.
  by eexists.
Qed.

Lemma rd_message m d rs r :
  message_ok m -> rd_idle d rs -> whole_response m = Some r ->
  exists d', execute (message_callbacks m) d = Returns (d', true) /\ rd_idle d' (rs ++ [r])%list.
Proof.
  intros Hok (Hf & Hr & Hrs) Hx.
  destruct d as [f0 hd0 r0 rs0]; simpl in *; subst.
  unfold message_callbacks. cbn [execute call ResponseDecoder_Decoder rd_call].
  cbn [rd_on_message_begin rd_failure rd_response rd_responses].
  rewrite execute_url, execute_status by done.
  rewrite (execute_headers _ (Collector_init, ∅)) by done.
  destruct (collect_last_spec (fields m) Hok) as [st Hh].
  cbn [execute call put ResponseDecoder_Decoder ResponseDecoder_collects rd_call].
  unfold rd_on_headers_complete, rd_with.
  destruct (foldl collect_pieces _ _) as [c h]. injection Hh as _ Hh.
  cbn -[header_set]. rewrite Hh. erewrite rd_execute_body by done.
  cbn -[isValidStatus inflate Status_string]. unfold rd_on_message_complete.
  cbn -[isValidStatus inflate Status_string]. unfold whole_response in Hx.
  destruct (isValidStatus _); [|done].
  change ("" +:+ cat (body_data (content m))) with (cat (body_data (content m))).
  destruct (inflate _ _) as [[[h' b']|]|]; [|done|done]. injection Hx as <-.
  by eexists.
Qed.

(** [DataDecoder] and [ResponseDecoder] decode whole messages, in order and however the
    input is split, with the body put together from its pieces. *)
Theorem whole_messages_decoded ms cs :
  Forall message_ok ms -> delivers cs ms ->
  (forall rs, decoded_all (fun _ => whole_request) 0 ms = Some rs ->
     exists s, decode_all cs (mkRunning DataDecoder_init false) = Returns (s, rs) /\
       errno s = false /\ failed (decoder s) = false) /\
  (forall rs, decoded_all (fun _ => whole_response) 0 ms = Some rs ->
     exists s, decode_all cs (mkRunning ResponseDecoder_init false) = Returns (s, rs) /\
       errno s = false /\ failed (decoder s) = false).
Proof.
  intros Hok Hcs. split; intros rs Hx.
  - destruct (decode_messages (fun _ => whole_request) dd_idle DataDecoder_init ms cs rs)
      as (d & He & Hf & _ & Hd); [intros; by eapply dd_message|done|done|done|done|done|].
    eexists. split; [rewrite He; cbn; by rewrite Hd|]. done.
  - destruct (decode_messages (fun _ => whole_response) rd_idle ResponseDecoder_init ms cs rs)
      as (d & He & Hf & _ & Hd); [intros; by eapply rd_message|done|done|done|done|done|].
    eexists. split; [rewrite He; cbn; by rewrite Hd|]. done.
Qed.

(** The responses of a string, for instance of one whose last body ends with the input. *)
Theorem decode_responses_all ms s eof rs :
  ms <> [] -> Forall message_ok ms -> delivers [s; eof] ms ->
  decoded_all (fun _ => whole_response) 0 ms = Some rs ->
  decodeResponses s eof = Returns (Some_ rs).
Proof.
  intros Hne Hok Hcs Hx. unfold decodeResponses.
  destruct (decode_messages (fun _ => whole_response) rd_idle ResponseDecoder_init ms [s; eof] rs)
    as (d & -> & Hf & _ & Hd); [intros; by eapply rd_message|done|done|done|done|done|].
  cbn. rewrite Hf, Hd. destruct ms as [|m ms]; [done|]. cbn [decoded_all] in Hx.
  destruct (whole_response m) as [r|]; [|done].
  destruct (decoded_all _ _ ms); [|done]. by injection Hx as <-.
Qed.

(** A compressed body of more than 127 bytes aborts the program: the length of the
    decompressed body is required to fit a [char]. *)
Theorem long_compressed_body_aborts m b u q :
  message_ok m -> parse_target (cat (target m)) "" URL_init = (u, q, true) ->
  gzipped (headers_of (fields m)) = true ->
  gzip_decompress (cat (body_data (content m))) = Some_ b -> char_max < String.length b ->
  decode (mkChunk (message_callbacks m) Consumed true) (mkRunning DataDecoder_init false)
  = Abort "CHECK_LE(body.length(), numeric_limits<char>::max())".
Proof.
  intros Hok Hu Hg Hb Hl. unfold decode, http_parser_execute. cbn [errno decoder callbacks].
  destruct (dd_until_complete m DataDecoder_init [] Hok) as [c ->]; [done|].
  cbn -[parse_target inflate]. unfold dd_on_message_complete. cbn -[parse_target inflate].
  rewrite Hu. cbn -[inflate char_max]. unfold inflate. rewrite Hg, Hb.
  apply Nat.ltb_lt in Hl. rewrite Nat.leb_antisym, Hl. done.
Qed.
End Messages.

(** ** Streams of callbacks *)

(** Where the parser is. *)
Inductive phase := Between | Head | Body.

(** The callbacks that the parser makes in each phase; headers after the first part of
    the body are trailers. *)
Definition legal (ph : phase) (c : callback) : option phase :=
  match ph, c with
  | Between, on_message_begin => Some Head
  | Head, (on_url _ | on_status _ | on_header_field _ | on_header_value _) => Some Head
  | Head, on_headers_complete _ => Some Body
  | Body, (on_chunk_header | on_chunk_complete | on_body _ |
           on_header_field _ | on_header_value _) => Some Body
  | Body, on_message_complete _ => Some Between
  | _, _ => None
  end.
Fixpoint legals (ph : phase) (cs : list callback) : option phase :=
  match cs with
  | [] => Some ph
  | c :: cs => match legal ph c with Some ph => legals ph cs | None => None end
  end.

Lemma legals_app ph cs1 cs2 :
  legals ph (cs1 ++ cs2)%list
  = match legals ph cs1 with Some ph => legals ph cs2 | None => None end.
Proof.
  revert ph. induction cs1 as [|c cs1 IH]; intros ph; [done|]. cbn [app legals].
  by destruct (legal ph c).
Qed.

(** A decoder that follows the parser: no callback aborts, and when it refuses the headers
    of a message it refuses its end. *)
Class Robust (D Out : Type) `{Decoder D Out} := {
  inv : phase -> D -> Prop;
  inv_call ph ph' c d :
    inv ph d -> legal ph c = Some ph' ->
    exists d' b, call c d = Returns (d', b) /\ (b = true -> inv ph' d');
  refused_headers_end p d d' :
    inv Head d -> call (on_headers_complete p) d = Returns (d', false) ->
    exists d'', call (on_message_complete p) d' = Returns (d'', false);
  inv_collect ph d : inv ph d -> inv ph (collect d).1;
}.

Section Safety.
Context `{Robust D Out}.

Lemma execute_safe cs ph ph' d :
  inv ph d -> legals ph cs = Some ph' ->
  exists d' b, execute cs d = Returns (d', b) /\ (b = true -> inv ph' d').
Proof.
  revert ph d. induction cs as [|c cs IH]; intros ph d Hd Hl.
  { injection Hl as ->. by exists d, true. }
  cbn [legals] in Hl. destruct (legal ph c) as [ph1|] eqn:Hc; [|done].
  destruct (inv_call _ _ _ _ Hd Hc) as (d1 & b & He & Hb). cbn [execute]. rewrite He.
  destruct b; [by apply (IH ph1); auto|].
  destruct c; try (by exists d1, false). destruct ph; try done.
  destruct (refused_headers_end _ _ _ Hd He) as [d2 ->]. by exists d2, false.
Qed.

(** One call: the decoder goes on to follow the parser, unless the parser is in error. *)
Definition follows (ph : phase) (s : running D) : Prop := errno s = true \/ inv ph (decoder s).

Lemma decode_safe c ph ph' s :
  follows ph s -> ending c <> Stopped ->
  (errno s = false -> legals ph (callbacks c) = Some ph') ->
  exists s' out, decode c s = Returns (s', out) /\ follows ph' s'.
Proof.
  intros Hf Hc Hl. unfold decode, http_parser_execute. destruct s as [d [|]]; cbn [errno decoder] in *.
  { destruct (collect _) as [d' out]. do 2 eexists. split; [done|]. by left. }
  destruct Hf as [Hf|Hd]; [done|].
  cbn [decoder] in Hd. destruct (execute_safe _ _ _ _ Hd (Hl eq_refl)) as (d1 & b & -> & Hb).
  destruct b; [destruct (ending c); [|done|]|]; cbn [decoder errno].
  - pose proof (inv_collect _ _ (Hb eq_refl)) as Hi. destruct (collect d1) as [d2 out].
    do 2 eexists. split; [done|]. by right.
  - destruct (collect _) as [d2 out]. do 2 eexists. split; [done|]. by left.
  - destruct (collect _) as [d2 out]. do 2 eexists. split; [done|]. by left.
Qed.

Lemma decode_all_safe cs ph s :
  follows ph s -> legals ph (concat (map callbacks cs)) <> None ->
  Forall (fun c => ending c <> Stopped) cs -> exists x, decode_all cs s = Returns x.
Proof.
  revert ph s. induction cs as [|c cs IH]; intros ph s Hs Hl Hc; [by eexists|].
  apply Forall_cons in Hc as [Hc Hcs]. cbn [map concat] in Hl. rewrite legals_app in Hl.
  destruct (legals ph (callbacks c)) as [ph1|] eqn:H1; [|done].
  destruct (decode_safe c ph ph1 s Hs Hc) as (s' & out & He & Hs'); [done|].
  cbn [decode_all]. rewrite He. destruct (IH ph1 s' Hs' Hl Hcs) as [[s2 o2] ->]. by eexists.
Qed.
End Safety.

Section Streams.
Context `{Stout, UrlParser, Gzip}.

(** What the pointers of a streaming decoder are in each phase. *)
Definition fits {R : Type} (ph : phase) (failure : bool) (m : option R) (w : option nat) : Prop :=
  failure = false /\
  match ph with
  | Between => m = None /\ w = None
  | Head => is_Some m /\ w = None
  | Body => m = None /\ is_Some w
  end.

#[global] Program Instance StreamingRequestDecoder_robust
    : Robust StreamingRequestDecoder Request := {
  inv ph d := fits ph (sq_failure d) (sq_request d) (sq_writer d);
}.
Next Obligation.
  intros ph ph' c [f hd q u r w z rs n l] [Hf Hp] Hl. simpl in *. subst f.
  destruct ph; destruct Hp as [Hr Hw]; [subst|destruct Hr as [r0 ->]; subst|
    destruct Hw as [w0 ->]; subst]; destruct c; simplify_eq/=; try (by do 2 eexists).
  - unfold sq_on_header_field, sq_collect. simpl. destruct (header hd); by do 2 eexists.
  - unfold sq_on_headers_complete. simpl.
    destruct (parse_target _ _ _) as [[u' q'] [|]]; by do 2 eexists.
  - unfold sq_on_body. simpl. destruct z as [z|]; [|by do 2 eexists].
    destruct (decompress data z) as [z' [b|]]; by do 2 eexists.
  - unfold sq_on_message_complete. simpl.
    destruct (match z with Some z => _ | None => _ end); by do 2 eexists.
Qed.
Next Obligation.
  intros p [f hd q u r w z rs n l] d' [Hf [[r0 Hr] Hw]]. simpl in *. subst.
  unfold sq_on_headers_complete. simpl.
  destruct (parse_target _ _ _) as [[u' q'] [|]]; [done|]. intros [= <-].
  unfold sq_on_message_complete. simpl. by eexists.
Qed.
Next Obligation. done. Qed.

#[global] Program Instance StreamingResponseDecoder_robust
    : Robust StreamingResponseDecoder Response := {
  inv ph d := fits ph (sr_failure d) (sr_response d) (sr_writer d);
}.
Next Obligation.
  intros ph ph' c [f hd r w rs n l] [Hf Hp] Hl. simpl in *. subst f.
  destruct ph; destruct Hp as [Hr Hw]; [subst|destruct Hr as [r0 ->]; subst|
    destruct Hw as [w0 ->]; subst]; destruct c; simplify_eq/=; try (by do 2 eexists).
  - unfold sr_on_header_field, sr_collect. simpl. destruct (header hd); by do 2 eexists.
  - unfold sr_on_headers_complete. simpl.
    destruct (isValidStatus _); [destruct (gzipped _)|]; by do 2 eexists.
Qed.
Next Obligation.
  intros p [f hd r w rs n l] d' [Hf [[r0 Hr] Hw]]. simpl in *. subst.
  unfold sr_on_headers_complete. simpl.
  destruct (isValidStatus _); [destruct (gzipped _); [|done]|]; intros [= <-];
    unfold sr_on_message_complete; simpl; by eexists.
Qed.
Next Obligation. done. Qed.

(** C21: no [CHECK] of the streaming decoders fails, whatever the peer sends: bad URLs, bad
    queries, bad statuses, compressed data that is damaged, trailers, malformed bytes,
    truncated messages, in any split of the input, as long as the parser does not stop
    early without an error. *)
Theorem streaming_decoders_no_check_fails cs :
  legals Between (concat (map callbacks cs)) <> None ->
  Forall (fun c => ending c <> Stopped) cs ->
  (exists x, decode_all cs (mkRunning StreamingRequestDecoder_init false) = Returns x) /\
  (exists x, decode_all cs (mkRunning StreamingResponseDecoder_init false) = Returns x).
Proof. intros Hl Hc. split; (eapply (decode_all_safe cs Between); [by right|done|done]). Qed.
End Streams.
