(* ===== verification/Receive.v ===== *)
(** The loop of [internal::receive] in [process.cpp], which reads from a connection,
    decodes the requests and hands them to the process manager, and the way of a body
    through its pipe. *)

From Stdlib Require Import Ascii String.
From S2P Require Import Prelude HttpCodec HttpText HttpTextSpec Pipe Decoders DecodersLaws.
From S2P Require Import DecodersSpec.

Local Open Scope string_scope.
Local Open Scope nat_scope.

(** How the loop ends. *)
Inductive ended := Eof | ReceiveFailed (m : string).

Section Receive.
Context `{Stout, UrlParser, Gzip}.

(** What was received, and what [socket.peer()] is after it; then the connection ends.
    The result: the requests handed over, with the address of the client; how the loop
    ended; and what was asked of the pipes, the destructor of the decoder included. *)
Fixpoint receive (data : list (chunk * Try string)) (s : running StreamingRequestDecoder)
    : checked (list (string * Request) * ended * list (nat * Pipe.request)) :=
  match data with
  | [] => Returns ([], Eof, sq_delete (decoder s))
  | (c, peer) :: data =>
      match decode c s with
      | Abort m => Abort m
      | Returns (s, []) =>
          if failed (decoder s) then
            Returns ([], ReceiveFailed "Decoder error", sq_delete (decoder s))
          else receive data s
      | Returns (s, requests) =>
          match peer with
          | Error e =>
              Returns ([], ReceiveFailed ("Failed to get peer address: " +:+ e),
                       sq_delete (decoder s))
          | Some_ address =>
              match receive data s with
              | Abort m => Abort m
              | Returns (handled, e, log) =>
                  Returns ((map (pair address) requests ++ handled)%list, e, log)
              end
          end
      end
  end.

Definition receive_start : running StreamingRequestDecoder :=
  mkRunning StreamingRequestDecoder_init false.

(** ** Well-formed input *)

Lemma sq_call_failure c d d' : sq_call c d = Returns (d', true) -> sq_failure d' = sq_failure d.
Proof.
  destruct d as [f hd q u r w z rs n l]. destruct c; simpl; try (by intros [= <-]).
  - unfold sq_on_message_begin. simpl. destruct f; [done|]. destruct r, w; try done.
    by intros [= <-].
  - unfold sq_on_url. simpl. destruct r; [|done]. by intros [= <-].
  - unfold sq_on_header_field, sq_collect. simpl. destruct r; [|done].
    destruct (header hd); by intros [= <-].
  - unfold sq_on_header_value, sq_collect. simpl. destruct r; [|done]. by intros [= <-].
  - unfold sq_on_headers_complete. simpl. destruct r as [r|]; [|done].
    destruct (parse_target _ _ _) as [[u' q'] [|]]; [|done]. destruct w; [done|]. by intros [= <-].
  - unfold sq_on_body. simpl. destruct w as [w|]; [|done]. destruct z as [z|]; [|by intros [= <-]].
    destruct (decompress data z) as [z' [b|]]; [|done]. by intros [= <-].
  - unfold sq_on_message_complete. simpl. destruct w; [|by destruct f].
    destruct (match z with Some z => _ | None => _ end); [done|]. by intros [= <-].
Qed.

Lemma sq_execute_failure cs (d d' : StreamingRequestDecoder) :
  execute cs d = Returns (d', true) -> sq_failure d' = sq_failure d.
Proof.
  revert d. induction cs as [|c cs IH]; intros d He; [by injection He as ->|].
  cbn [execute] in He. change (call c d) with (sq_call c d) in He.
  destruct (sq_call c d) as [[d1 [|]]|] eqn:Hc; [| |done].
  - rewrite (IH _ He). by eapply sq_call_failure.
  - destruct c; try done. by destruct (call _ d1) as [[d2 b]|].
Qed.

(** However the input is split, the loop hands over all that is decoded. *)
Lemma receive_concat data (d d' : StreamingRequestDecoder) address :
  collect d = (d, []) -> sq_failure d = false ->
  Forall (fun x => ending x.1 = Consumed /\ x.2 = Some_ address) data ->
  execute (concat (map callbacks data.*1)) d = Returns (d', true) ->
  receive data (mkRunning d false)
  = Returns (map (pair address) (sq_requests d'), Eof, sq_delete d').
Proof.
  revert d d'. induction data as [|[c peer] data IH]; intros d d' Hd Hf Hc He.
  { injection He as ->. injection Hd as _ Hd. simpl. by rewrite Hd. }
  apply Forall_cons in Hc as [[Hc Hp] Hcs]. simpl in Hc, Hp. subst peer.
  cbn [fmap list_fmap map concat fst] in He. rewrite decoder_execute_app in He.
  destruct (execute (callbacks c) d) as [[d1 [|]]|] eqn:He1; try done.
  pose proof (sq_execute_failure _ _ _ He1) as Hf1. rewrite Hf in Hf1.
  rewrite (collect_split d1), execute_prepend in He.
  destruct (execute _ (collect d1).1) as [[d2 b]|] eqn:He2; [|done]. injection He as <- ->.
  cbn [receive]. unfold decode, http_parser_execute. cbn [errno decoder]. rewrite He1, Hc.
  cbn [errno decoder collect StreamingRequestDecoder_Decoder].
  specialize (IH _ d2 (collect_again d1) Hf1 Hcs He2). cbn in IH.
  destruct (sq_requests d1) as [|r rs] eqn:Hrs.
  - cbn [decoder failed StreamingRequestDecoder_Decoder sq_failure]. rewrite Hf1 in IH |- *.
    rewrite IH. done.
  - rewrite IH. cbn. by rewrite map_app.
Qed.

(** C20: the receiving loop of a connection hands over exactly the requests that were sent,
    in order, however the input is split into reads, and every body goes to the pipe of
    its request, which is then closed. *)
Theorem received_requests_handled ms data xs address :
  Forall message_ok ms -> delivers data.*1 ms -> Forall (fun x => x.2 = Some_ address) data ->
  decoded_all decoded_request 0 ms = Some xs ->
  receive data receive_start = Returns (map (pair address) xs.*1, Eof, bodies_log 0 xs).
Proof.
  intros Hok [Hc Hcs] Hp Hx.
  destruct (execute_messages decoded_request sq_idle sq_message ms
              StreamingRequestDecoder_init [] xs Hok) as (d & He & Hd); [done|done|].
  rewrite <- Hcs in He.
  unfold receive_start. rewrite (receive_concat data StreamingRequestDecoder_init d address); [|done|done| |done].
  - destruct Hd as (_ & _ & Hw & Hrs & _ & Hl). unfold sq_delete.
    by rewrite Hw, Hrs, Hl, app_nil_r.
  - apply Forall_and. split; [|done]. rewrite Forall_fmap in Hc. exact Hc.
Qed.

(** ** Input that asks for another protocol *)

(** A message after which the parser stops early (it asks for another protocol and more
    bytes follow it) does not end the loop, since it was decoded, but marks the decoder
    as failed; the next message then fails [CHECK(!decoder->failure)]. *)
Theorem upgrade_aborts_receive m x address c peer rest data :
  message_ok m -> decoded_request 0 m = Some x -> callbacks c = on_message_begin :: rest ->
  receive ((mkChunk (message_callbacks m) Stopped true, Some_ address) :: (c, peer) :: data)
    receive_start = Abort "CHECK(!decoder->failure)".
Proof.
  intros Hok Hx Hc. cbn [receive]. unfold decode at 1, http_parser_execute at 1.
  cbn [errno decoder receive_start callbacks ending parsed_anyway].
  destruct (sq_message m StreamingRequestDecoder_init [] x Hok) as (d & He & Hd); [done|done|].
  rewrite He. destruct Hd as (Hf & Hr & Hw & Hrs & Hn & Hl).
  cbn [errno decoder not_parsed StreamingRequestDecoder_Decoder]. unfold sq_not_parsed.
  rewrite Hw. cbn [collect StreamingRequestDecoder_Decoder sq_requests]. rewrite Hrs. cbn [fmap list_fmap app].
  unfold decode, http_parser_execute. cbn [errno decoder]. rewrite Hc. done.
Qed.

(** ** Every pipe that is handed over comes to an end *)

Definition ends (log : list (nat * Pipe.request)) (n : nat) : Prop :=
  exists r, (n, r) ∈ log /\ match r with Pipe.CloseWriter | Pipe.Fail _ => True | _ => False end.

(** Every pipe has ended or is the one being written; the requests know pipes only. *)
Definition tended (d : StreamingRequestDecoder) : Prop :=
  (forall n, n < sq_pipes d -> sq_writer d = Some n \/ ends (sq_log d) n) /\
  (forall r, r ∈ sq_requests d -> forall n, req_reader r = Some n -> n < sq_pipes d).

Lemma ends_app l l' n : ends l n -> ends (l ++ l')%list n.
Proof. intros (r & Hr & Hm). exists r. split; [|done]. by apply elem_of_app; left. Qed.

Lemma sq_ask_tended w r w' f d :
  sq_writer d = Some w ->
  (w' = Some w \/ match r with Pipe.CloseWriter | Pipe.Fail _ => True | _ => False end) ->
  tended d -> tended (sq_ask w r w' f d).
Proof.
  intros Hw Hr [Hp Hq]. split; [|exact Hq]. cbn. intros n Hn.
  destruct (Hp n Hn) as [Hx|Hx]; [|right; by apply ends_app].
  rewrite Hw in Hx. injection Hx as ->. destruct Hr as [->|Hr]; [by left|].
  right. exists r. split; [|done]. apply elem_of_app. right. by apply list_elem_of_singleton.
Qed.

Lemma sq_call_tended c d d' b : tended d -> sq_call c d = Returns (d', b) -> tended d'.
Proof.
  intros Ht. pose proof Ht as [Hp Hq]. destruct c; simpl; try (by intros [= <- <-]).
  - unfold sq_on_message_begin. destruct (sq_failure d); [done|].
    destruct (sq_request d); [done|]. destruct (sq_writer d) eqn:Hw; [done|]. intros [= <- <-].
    split; [|exact Hq]. cbn. intros n Hn. destruct (Hp n Hn) as [Hx|Hx]; [|by right]. congruence.
  - unfold sq_on_url. destruct (sq_request d); intros [= <- <-]; done.
  - unfold sq_on_header_field, sq_collect. destruct (sq_request d); [|by intros [= <- <-]].
    destruct (collect_field _ _) as [c' h']. intros [= <- <-]; done.
  - unfold sq_on_header_value, sq_collect. destruct (sq_request d); [|by intros [= <- <-]].
    destruct (collect_value _ _) as [c' h']. intros [= <- <-]; done.
  - unfold sq_on_headers_complete. destruct (sq_request d) as [r|]; [|done].
    destruct (collect_last _) as [c' h']. cbn -[gzipped].
    destruct (parse_target _ _ _) as [[u' q'] [|]]; [|by intros [= <- <-]].
    destruct (sq_writer d) eqn:Hw; [done|]. intros [= <- <-]. split; cbn.
    + intros n Hn. destruct (decide (n = sq_pipes d)) as [->|Hne]; [by left|].
      destruct (Hp n) as [Hx|Hx]; [lia|congruence|by right].
    + intros r' Hr' n Hn. apply elem_of_app in Hr' as [Hr'|Hr'].
      * by etrans; [eapply Hq|lia].
      * apply list_elem_of_singleton in Hr' as ->. injection Hn as <-. lia.
  - unfold sq_on_body. destruct (sq_writer d) as [w|] eqn:Hw; [|done].
    destruct (sq_decompressor d) as [z|].
    + destruct (decompress data z) as [z' [x|]]; intros [= <- <-]; [|exact Ht].
      apply sq_ask_tended; [done|by left|done].
    + intros [= <- <-]. apply sq_ask_tended; [done|by left|done].
  - unfold sq_on_message_complete. destruct (sq_writer d) as [w|] eqn:Hw;
      [|by destruct (sq_failure d); [intros [= <- <-]|]].
    destruct (match sq_decompressor d with Some z => _ | None => _ end); intros [= <- <-];
      apply sq_ask_tended; auto.
Qed.

Lemma sq_execute_tended cs d d' b :
  tended d -> execute cs d = Returns (d', b) -> tended d'.
Proof.
  revert d. induction cs as [|c cs IH]; intros d Ht He; [by injection He as <- <-|].
  cbn [execute] in He. change (call c d) with (sq_call c d) in He.
  destruct (sq_call c d) as [[d1 b1]|] eqn:Hc; [|done]. apply sq_call_tended in Hc; [|done].
  destruct b1; [by eapply IH|]. destruct c; try (by injection He as <- <-).
  change (call (on_message_complete p) d1) with (sq_call (on_message_complete p) d1) in He.
  destruct (sq_call _ d1) as [[d2 b2]|] eqn:Hc2; [|done]. injection He as <- <-.
  by apply sq_call_tended in Hc2.
Qed.

Lemma decode_tended c s s' out :
  tended (decoder s) -> decode c s = Returns (s', out) ->
  tended (decoder s') /\
  (forall r, r ∈ out -> forall n, req_reader r = Some n -> n < sq_pipes (decoder s')).
Proof.
  intros Ht. unfold decode. destruct (http_parser_execute c s) as [[s1 parsed]|] eqn:He; [|done].
  assert (Ht1 : tended (decoder s1)).
  { revert He. unfold http_parser_execute. destruct (errno s); [by intros [= <- _]|].
    destruct (execute _ _) as [[d1 b1]|] eqn:He1; [|done]. apply sq_execute_tended in He1; [|done].
    destruct b1; [destruct (ending c)|]; by intros [= <- _]. }
  intros [= <- <-]. simpl. set (d := if parsed then _ else _).
  assert (Hd : tended d).
  { unfold d. destruct parsed; [done|]. unfold sq_not_parsed.
    destruct (sq_writer (decoder s1)) as [w|] eqn:Hw; [apply sq_ask_tended; auto|].
    destruct Ht1 as [Hp Hq]. split; [|exact Hq]. cbn. intros n Hn.
    destruct (Hp n Hn); [congruence|by right]. }
  destruct Hd as [Hp Hq]. split; [|exact Hq]. split; [exact Hp|]. cbn. set_solver.
Qed.

(** A pipe that was made stays known, and has ended once the decoder is deleted. *)
Lemma sq_delete_ends d n : tended d -> n < sq_pipes d -> ends (sq_delete d) n.
Proof.
  intros [Hp _] Hn. unfold sq_delete. destruct (Hp n Hn) as [Hw|Hx]; [|by apply ends_app].
  rewrite Hw. exists (Pipe.Fail "Decoder is being deleted"). split; [|done].
  apply elem_of_app. right. by apply list_elem_of_singleton.
Qed.

Lemma sq_call_pipes c d d' b : sq_call c d = Returns (d', b) -> sq_pipes d <= sq_pipes d'.
Proof.
  destruct d as [f hd q u r w z rs n l]. destruct c; simpl; try (by intros [= <- <-]; simpl).
  - unfold sq_on_message_begin. simpl. destruct f; [done|]. destruct r, w; try done.
    by intros [= <- <-].
  - unfold sq_on_url. simpl. destruct r; by intros [= <- <-].
  - unfold sq_on_header_field, sq_collect. simpl. destruct r; [|by intros [= <- <-]].
    destruct (header hd); by intros [= <- <-].
  - unfold sq_on_header_value, sq_collect. simpl. destruct r; by intros [= <- <-].
  - unfold sq_on_headers_complete. simpl. destruct r as [r|]; [|done].
    destruct (parse_target _ _ _) as [[u' q'] [|]]; [|by intros [= <- <-]]. destruct w; [done|].
    intros [= <- <-]. simpl. lia.
  - unfold sq_on_body. simpl. destruct w as [w|]; [|done]. destruct z as [z|]; [|by intros [= <- <-]].
    destruct (decompress data z) as [z' [x|]]; by intros [= <- <-].
  - unfold sq_on_message_complete. simpl. destruct w; [|by destruct f; [intros [= <- <-]|]].
    destruct (match z with Some z => _ | None => _ end); by intros [= <- <-].
Qed.

Lemma decode_pipes c (s s' : running StreamingRequestDecoder) out :
  decode c s = Returns (s', out) -> sq_pipes (decoder s) <= sq_pipes (decoder s').
Proof.
  assert (Hex : forall cs d d' b, execute cs d = Returns (d', b) -> sq_pipes d <= sq_pipes d').
  { induction cs as [|x cs IH]; intros d d' b He; [by injection He as <- <-|].
    cbn [execute] in He. change (call x d) with (sq_call x d) in He.
    destruct (sq_call x d) as [[d1 b1]|] eqn:Hc; [|done]. apply sq_call_pipes in Hc.
    destruct b1; [apply IH in He; lia|]. destruct x; try (by injection He as <- <-).
    change (call (on_message_complete p) d1) with (sq_call (on_message_complete p) d1) in He.
    destruct (sq_call _ d1) as [[d2 b2]|] eqn:Hc2; [|done]. injection He as <- <-.
    apply sq_call_pipes in Hc2. lia. }
  assert (Hn : forall d, sq_pipes (sq_not_parsed d) = sq_pipes d).
  { intros d. unfold sq_not_parsed. by destruct (sq_writer d). }
  unfold decode, http_parser_execute. destruct s as [d []]; cbn [errno decoder].
  { intros [= <- <-]. cbn. destruct (parsed_anyway c); [|rewrite Hn]; lia. }
  destruct (execute _ d) as [[d1 b1]|] eqn:He; [|done]. apply Hex in He.
  destruct b1; [destruct (ending c)|destruct (parsed_anyway c)]; intros [= <- <-]; cbn;
    rewrite ?Hn; lia.
Qed.

(** Whatever is received, once the loop ended the pipe of every request that was handed
    over has been closed or failed, so that nobody waits for the rest of a body for ever. *)
Theorem no_body_left_open data s handled e log :
  tended (decoder s) -> receive data s = Returns (handled, e, log) ->
  (forall n, n < sq_pipes (decoder s) -> ends log n) /\
  (forall a r n, (a, r) ∈ handled -> req_reader r = Some n -> ends log n).
Proof.
  revert s handled. induction data as [|[c peer] data IH]; intros s handled Ht Hr.
  { injection Hr as <- <- <-. split; [intros n; by apply sq_delete_ends|]. set_solver. }
  cbn [receive] in Hr. destruct (decode c s) as [[s1 out]|] eqn:Hd; [|done].
  destruct (decode_tended _ _ _ _ Ht Hd) as [Ht1 Hout]. apply decode_pipes in Hd.
  assert (Hnow : forall n, n < sq_pipes (decoder s) -> ends (sq_delete (decoder s1)) n).
  { intros n Hn. apply sq_delete_ends; [done|lia]. }
  destruct out as [|r0 rs].
  - destruct (failed (decoder s1)); [injection Hr as <- <- <-; split; [done|set_solver]|].
    destruct (IH s1 handled Ht1 Hr) as [IH1 IH2]. split; [|done]. intros n Hn. apply IH1. lia.
  - destruct peer as [a|m]; [|injection Hr as <- <- <-; split; [done|set_solver]].
    destruct (receive data s1) as [[[h e'] log']|] eqn:Hrec; [|done]. injection Hr as <- <- <-.
    destruct (IH s1 h Ht1 Hrec) as [IH1 IH2]. split; [intros n Hn; apply IH1; lia|].
    intros a' r n Hin Hn. change ((a', r) ∈ (map (pair a) (r0 :: rs) ++ h)%list) in Hin.
    apply elem_of_app in Hin as [Hin|Hin]; [|by eapply IH2].
    apply list_elem_of_fmap in Hin as (r' & [= -> ->] & Hin). eauto.
Qed.
End Receive.

(** ** The way of a body through its pipe *)

(** The requests of the writer among all requests made of a pipe. *)
Definition of_writer (r : Pipe.request) : bool :=
  match r with Pipe.Write _ | Pipe.CloseWriter | Pipe.Fail _ => true | _ => false end.
(** What the log asks of pipe [n]. *)
Definition asked_of (n : nat) (log : list (nat * Pipe.request)) : list Pipe.request :=
  map snd (List.filter (fun x => Nat.eqb x.1 n) log).

Definition visible (outs : list string) : list string :=
  List.filter (fun s => negb (String.eqb s "")) outs.

Lemma cat_visible outs : cat (visible outs) = cat outs.
Proof.
  induction outs as [|s outs IH]; [done|]. simpl. destruct (String.eqb_spec s "") as [->|]; [done|].
  simpl. by rewrite IH.
Qed.

(** A closed pipe that is read. *)
Lemma execution_reads rs t :
  Pipe.CloseReader ∉ rs -> List.filter of_writer rs = [] -> Pipe.inv t ->
  readEnd (pipe t) = ReaderOpen -> writeEnd (pipe t) = WriterClosed ->
  exists t', Pipe.execution rs t = Returns t' /\ Pipe.inv t' /\ wrote t' = wrote t /\
    readEnd (pipe t') = ReaderOpen /\ writeEnd (pipe t') = WriterClosed.
Proof.
  revert t. induction rs as [|r rs IH]; intros t Hcr Hf Hi Hre Hwe; [by exists t|].
  destruct r; try done; [|set_solver]. cbn [Pipe.execution].
  destruct (pipe_execution_inv [Pipe.Read p] t Hi) as (t1 & H1 & Hi1). cbn [Pipe.execution] in H1.
  destruct (perform t _) as [t1'|] eqn:Hp; [|done]. injection H1 as <-.
  assert (Hs : wrote t1' = wrote t /\ readEnd (pipe t1') = ReaderOpen /\
    writeEnd (pipe t1') = WriterClosed).
  { revert Hp. cbn [perform]. unfold read. rewrite Hre, Hwe.
    destruct (writes (pipe t)); intros [= <-]; cbn; auto. }
  destruct Hs as (<- & Hr' & Hw'). apply IH; auto. set_solver.
Qed.

(** A pipe that is read while it is written, and not closed by the reader. *)
Lemma execution_writes rs t outs :
  Pipe.CloseReader ∉ rs -> Pipe.inv t ->
  readEnd (pipe t) = ReaderOpen -> writeEnd (pipe t) = WriterOpen ->
  List.filter of_writer rs = (map Pipe.Write outs ++ [Pipe.CloseWriter])%list ->
  exists t', Pipe.execution rs t = Returns t' /\ Pipe.inv t' /\
    wrote t' = (wrote t ++ visible outs)%list /\
    readEnd (pipe t') = ReaderOpen /\ writeEnd (pipe t') = WriterClosed.
Proof.
  revert t outs. induction rs as [|r rs IH]; intros t outs Hcr Hi Hre Hwe Hf.
  { by destruct outs. }
  destruct (pipe_execution_inv [r] t Hi) as (t1 & H1 & Hi1). cbn [Pipe.execution] in *.
  destruct (perform t r) as [t1'|] eqn:Hp; [|done]. injection H1 as <-.
  assert (Hcr' : Pipe.CloseReader ∉ rs) by set_solver.
  destruct r as [p| |s| |m]; cbn [List.filter of_writer] in Hf.
  - assert (Hsame : wrote t1' = wrote t /\ readEnd (pipe t1') = ReaderOpen /\
      writeEnd (pipe t1') = WriterOpen).
    { revert Hp. cbn [perform]. unfold read. rewrite Hre, Hwe.
      destruct (writes (pipe t)); intros [= <-]; cbn; auto. }
    destruct Hsame as (Hw & Hr' & Hw'). rewrite <- Hw. by apply IH.
  - set_solver.
  - destruct outs as [|o outs]; [done|]. injection Hf as -> Hf.
    assert (Hsame : wrote t1' = (wrote t ++ visible [o])%list /\
      readEnd (pipe t1') = ReaderOpen /\ writeEnd (pipe t1') = WriterOpen).
    { revert Hp. cbn [perform visible List.filter]. unfold write. rewrite Hre, Hwe.
      destruct (String.eqb_spec o ""), (decide (o = "")); try done.
      - intros [= <-]. cbn. by rewrite ?Hre, ?Hwe.
      - destruct (reads (pipe t)); intros [= <-]; cbn; by rewrite ?Hre, ?Hwe. }
    destruct Hsame as (Hw & Hr' & Hw'). destruct (IH t1' outs) as (t' & -> & Hi' & Hx & Hy & Hz); auto.
    exists t'. split_and!; auto. rewrite Hx, Hw. cbn [visible List.filter].
    destruct (negb (String.eqb o "")); cbn; by rewrite <- (assoc_L app).
  - destruct outs; [|done]. injection Hf as Hf.
    revert Hp. cbn [perform]. unfold close_writer. rewrite Hwe. intros [= Hp].
    destruct (execution_reads rs t1') as (u' & Hu & Hi' & Hx & Hy & Hz); auto; [by rewrite <- Hp|by rewrite <- Hp|].
    exists u'. split_and!; auto. rewrite Hx, <- Hp. cbn. by rewrite !app_nil_r.
  - by destruct outs.
Qed.

Lemma asked_of_body_log n k outs :
  asked_of n (body_log k outs)
  = if Nat.eqb k n then (map Pipe.Write outs ++ [Pipe.CloseWriter])%list else [].
Proof.
  unfold asked_of, body_log. induction outs as [|s outs IH]; cbn [map app List.filter fst].
  - by destruct (Nat.eqb k n).
  - destruct (Nat.eqb k n); [|done]. cbn [map snd]. by rewrite IH.
Qed.

Lemma asked_of_bodies {A} n k (xs : list (A * list string)) x :
  xs !! n = Some x ->
  asked_of (k + n) (bodies_log k xs) = (map Pipe.Write x.2 ++ [Pipe.CloseWriter])%list.
Proof.
  assert (Happ : forall m l l', asked_of m (l ++ l')%list = (asked_of m l ++ asked_of m l')%list).
  { intros m l l'. unfold asked_of. by rewrite List.filter_app, map_app. }
  assert (Hlater : forall (xs : list (A * list string)) m k, m < k -> asked_of m (bodies_log k xs) = []).
  { clear -Happ. induction xs as [|x xs IH]; intros m k Hm; [done|]. cbn [bodies_log].
    rewrite Happ, asked_of_body_log, IH by lia. by rewrite (proj2 (Nat.eqb_neq k m)) by lia. }
  revert n k. induction xs as [|y xs IH]; intros n k Hx; [done|].
  cbn [bodies_log]. rewrite Happ, asked_of_body_log. destruct n as [|n].
  - injection Hx as ->. rewrite Nat.add_0_r, Nat.eqb_refl, Hlater by lia. by rewrite app_nil_r.
  - rewrite (proj2 (Nat.eqb_neq k (k + S n))) by lia. rewrite <- Nat.add_succ_comm. by apply IH.
Qed.

Lemma cat_app l l' : cat (l ++ l')%list = cat l +:+ cat l'.
Proof. induction l as [|s l IH]; [done|]. cbn [app]. by rewrite !cat_cons, IH, append_assoc. Qed.

(** A body that was sent reaches the reader of its request: for every interleaving of
    the reads with what the decoder asks of that pipe, no [CHECK] fails, the data read
    followed by the data still in the pipe is the body, and the writer is closed. *)
Theorem streamed_body_delivered {A} n (xs : list (A * list string)) x rs closure :
  xs !! n = Some x -> Pipe.CloseReader ∉ rs ->
  List.filter of_writer rs = asked_of n (bodies_log 0 xs) ->
  exists t, Pipe.execution rs (Pipe.start closure) = Returns t /\
    writeEnd (pipe t) = WriterClosed /\
    cat (got t) +:+ cat (writes (pipe t)) = cat x.2.
Proof.
  intros Hx Hcr Hf. pose proof (asked_of_bodies n 0 xs x Hx) as Ha.
  change (0 + n) with n in Ha. rewrite Ha in Hf.
  destruct (execution_writes rs (Pipe.start closure) x.2 Hcr (pipe_inv_start closure) eq_refl
              eq_refl Hf) as (t & Ht & Hi & Hw & Hre & Hwe).
  exists t. split_and!; [done|done|]. destruct Hi as ((lost & Hl & Hlost) & _).
  rewrite (Hlost Hre), app_nil_r in Hl. cbn in Hw. rewrite <- cat_app, <- Hl, Hw.
  apply cat_visible.
Qed.
