(* ===== verification/DecodersWitness.v ===== *)
(** The theorems of [DecodersSpec] and [Receive] at concrete messages, with concrete
    functions in place of the URL parser and the compression library. *)

From Stdlib Require Import Ascii String.
From S2P Require Import Prelude HttpCodec HttpText HttpTextSpec HttpTextWitness Pipe.
From S2P Require Import Decoders DecodersLaws DecodersSpec Receive.

Local Open Scope string_scope.
Local Open Scope nat_scope.

#[local] Existing Instance stout.

(** The path up to a question mark, then the query; a URL begins with a slash. *)
#[local] Instance url_parser : UrlParser := {
  http_parser_parse_url s :=
    if mem "/" (substring 0 1 s) then
      match pieces_max s "?" 2 with
      | [p; q] => Some (mkUrlFields (Some p) None (Some q))
      | _ => Some (mkUrlFields (Some s) None None)
      end
    else None;
}.

(** Compressed data is a "z", the data, and an end mark "." in a piece of its own. *)
#[local] Instance gzip : Gzip := {
  gzip_decompress s :=
    match s with String "z" s => Some_ s | _ => Error "not compressed" end;
  Decompressor := bool;
  new_Decompressor := false;
  decompress s z := if String.eqb s "." then (true, Some_ "") else (z, Some_ s);
  finished z := z;
}.

Definition http11 (m : string) (c : nat) : http_parser := mkParser m true c.

Definition get_message : message :=
  mkMessage ["/state"; "?x=1"] [] [(["Ho"; "st"], ["a"; "bc"]); (["A"], [""])] [] (http11 "GET" 0).
Definition post_message : message :=
  mkMessage ["/run"] [] [(["Content-Encoding"], ["gzip"])]
    [ChunkHeader; Piece "ab"; ChunkComplete; Piece "c"; Piece "."] (http11 "POST" 0).
Definition ok_message : message :=
  mkMessage [] ["OK"] [(["Content-Type"], ["text"])] [Piece "hel"; Piece "lo"] (http11 "" 200).

(** The callbacks in calls of three. *)
Fixpoint in_threes (cs : list callback) : list chunk :=
  match cs with
  | a :: b :: c :: cs => mkChunk [a; b; c] Consumed true :: in_threes cs
  | cs => [mkChunk cs Consumed true]
  end.

Definition two_requests : list message := [get_message; post_message].
Definition request_chunks : list chunk := in_threes (concat (map message_callbacks two_requests)).
Definition response_chunks : list chunk := in_threes (concat (map message_callbacks [ok_message])).

Definition get_request : Request :=
  mkRequest "GET" (mkURL None None None None "/state" {[ "x" := "1" ]} None)
    {[ "host" := ("Host", "abc"); "a" := ("A", "") ]} true PIPE "" (Some 0).
Definition post_request : Request :=
  mkRequest "POST" (mkURL None None None None "/run" ∅ None)
    {[ "content-encoding" := ("Content-Encoding", "gzip") ]} true PIPE "" (Some 1).
Definition decoded_requests : list (Request * list string) :=
  [(get_request, []); (post_request, ["ab"; "c"; ""])].

Ltac message_ok_tac := repeat (constructor; try done).

Lemma streamed_requests_decoded_witness :
  exists s, decode_all request_chunks (mkRunning StreamingRequestDecoder_init false)
            = Returns (s, [get_request; post_request]) /\
    errno s = false /\ failed (decoder s) = false /\
    sq_log (decoder s) = bodies_log 0 decoded_requests /\
    sq_delete (decoder s) = sq_log (decoder s).
Proof.
  apply (streamed_requests_decoded two_requests request_chunks decoded_requests).
  - message_ok_tac.
  - split; [message_ok_tac|]. vm_compute. reflexivity.
  - vm_compute. reflexivity.
Defined.

Lemma streamed_responses_decoded_witness :
  exists s, decode_all response_chunks (mkRunning StreamingResponseDecoder_init false)
            = Returns (s, [mkResponse "200 OK" 200 {[ "content-type" := ("Content-Type", "text") ]} PIPE "" ""
                             (Some 0)]) /\
    errno s = false /\ failed (decoder s) = false /\
    sr_log (decoder s) = bodies_log 0 [(tt, ["hel"; "lo"])] /\
    sr_writingBody (decoder s) = false.
Proof.
  apply (streamed_responses_decoded [ok_message] response_chunks
    [(mkResponse "200 OK" 200 {[ "content-type" := ("Content-Type", "text") ]} PIPE "" "" (Some 0),
      ["hel"; "lo"])]).
  - message_ok_tac.
  - split; [message_ok_tac|]. vm_compute. reflexivity.
  - vm_compute. reflexivity.
Defined.

Lemma whole_messages_decoded_witness :
  exists s, decode_all response_chunks (mkRunning ResponseDecoder_init false)
            = Returns (s, [mkResponse "200 OK" 200 {[ "content-type" := ("Content-Type", "text") ]} BODY
                             "hello" "" None]) /\
    errno s = false /\ failed (decoder s) = false.
Proof.
  apply (whole_messages_decoded [ok_message] response_chunks).
  - message_ok_tac.
  - split; [message_ok_tac|]. vm_compute. reflexivity.
  - vm_compute. reflexivity.
Defined.

Fixpoint letters (n : nat) : string :=
  match n with O => "" | S n => String "x" (letters n) end.
Definition long_message : message :=
  mkMessage ["/run"] [] [(["Content-Encoding"], ["gzip"])]
    [Piece "z"; Piece (letters 200)] (http11 "POST" 0).

Lemma long_compressed_body_aborts_witness :
  decode (mkChunk (message_callbacks long_message) Consumed true)
    (mkRunning DataDecoder_init false)
  = Abort "CHECK_LE(body.length(), numeric_limits<char>::max())".
Proof.
  eapply (long_compressed_body_aborts long_message (letters 200)).
  - message_ok_tac.
  - vm_compute. reflexivity.
  - vm_compute. reflexivity.
  - vm_compute. reflexivity.
  - apply Nat.ltb_lt. vm_compute. reflexivity.
Defined.

Lemma streaming_decoders_no_check_fails_witness :
  (exists x, decode_all [mkChunk [on_message_begin; on_url "no"; on_headers_complete (http11 "GET" 999)]
                           Malformed true]
     (mkRunning StreamingRequestDecoder_init false) = Returns x) /\
  (exists x, decode_all [mkChunk [on_message_begin; on_url "no"; on_headers_complete (http11 "GET" 999)]
                           Malformed true]
     (mkRunning StreamingResponseDecoder_init false) = Returns x).
Proof.
  apply (streaming_decoders_no_check_fails
    [mkChunk [on_message_begin; on_url "no"; on_headers_complete (http11 "GET" 999)] Malformed true]);
    [done|by repeat constructor].
Defined.

Definition from_peer (c : chunk) : chunk * Try string := (c, Some_ "10.0.0.1").

Lemma received_requests_handled_witness :
  receive (map from_peer request_chunks) receive_start
  = Returns ([("10.0.0.1", get_request); ("10.0.0.1", post_request)], Eof,
             bodies_log 0 decoded_requests).
Proof.
  apply (received_requests_handled two_requests (map from_peer request_chunks) decoded_requests
           "10.0.0.1").
  - message_ok_tac.
  - split; [repeat (constructor; try done)|]. vm_compute. reflexivity.
  - repeat (constructor; try done).
  - vm_compute. reflexivity.
Defined.

Lemma upgrade_aborts_receive_witness :
  receive [(mkChunk (message_callbacks get_message) Stopped true, Some_ "10.0.0.1");
           (mkChunk [on_message_begin] Consumed true, Some_ "10.0.0.1")] receive_start
  = Abort "CHECK(!decoder->failure)".
Proof.
  apply (upgrade_aborts_receive get_message (get_request, []) "10.0.0.1"
           (mkChunk [on_message_begin] Consumed true) (Some_ "10.0.0.1") [] []).
  - message_ok_tac.
  - vm_compute. reflexivity.
  - reflexivity.
Defined.

(** The connection ends in the middle of a body. *)
Definition truncated : list (chunk * Try string) :=
  [(mkChunk (take 9 (message_callbacks post_message)) Consumed true, Some_ "10.0.0.1")].

Lemma no_body_left_open_witness :
  ends [(0, Pipe.Write "ab"); (0, Pipe.Write "c"); (0, Pipe.Fail "Decoder is being deleted")] 0.
Proof.
  apply (no_body_left_open truncated receive_start
    [("10.0.0.1", set_req_reader 0 post_request)] Eof) with
    (a := "10.0.0.1") (r := set_req_reader 0 post_request); [|by vm_compute| |done].
  - split; cbn; [lia|set_solver].
  - by left.
Defined.

Lemma streamed_body_delivered_witness :
  exists t, Pipe.execution
      [Pipe.Read 7; Pipe.Write "ab"; Pipe.Write "c"; Pipe.Write ""; Pipe.CloseWriter; Pipe.Read 8]
      (Pipe.start 3) = Returns t /\
    writeEnd (pipe t) = WriterClosed /\ cat (got t) +:+ cat (writes (pipe t)) = "abc".
Proof.
  apply (streamed_body_delivered 1 decoded_requests (post_request, ["ab"; "c"; ""])
    [Pipe.Read 7; Pipe.Write "ab"; Pipe.Write "c"; Pipe.Write ""; Pipe.CloseWriter; Pipe.Read 8] 3).
  - reflexivity.
  - set_solver.
  - reflexivity.
Defined.
