(* ===== verification/TimeSeries.v ===== *)
(** Time series: [timeseries.hpp].

    The sorted map of values is a list with ascending times.  An iterator of the map is
    the time of its element, [None] is [end()]; using [end()] or the iterator of an
    element that was erased is not defined and aborts. *)

From Stdlib Require Import Sorting.Sorted.
From S2P Require Import Prelude.

Local Open Scope Z_scope.

Section TimeSeries.
Context {T : Type}.

Local Notation entry := (Z * T)%type.

(** ** The operations of [std::map] that are used *)

(** [values[time] = value]. *)
Fixpoint assign (t : Z) (v : T) (l : list entry) : list entry :=
  match l with
  | [] => [(t, v)]
  | e :: l =>
      if t <? e.1 then (t, v) :: e :: l
      else if t =? e.1 then (t, v) :: l
      else e :: assign t v l
  end.

(** The elements from the first whose time is greater, and not smaller, than [t]. *)
Fixpoint upper_bound (t : Z) (l : list entry) : list entry :=
  match l with
  | [] => []
  | e :: l' => if t <? e.1 then l else upper_bound t l'
  end.
Fixpoint lower_bound (t : Z) (l : list entry) : list entry :=
  match l with
  | [] => []
  | e :: l' => if t <=? e.1 then l else lower_bound t l'
  end.

(** [erase] of an iterator: the rest, and the iterator behind the element. *)
Fixpoint erase (k : Z) (l : list entry) : checked (list entry * option Z) :=
  match l with
  | [] => Abort "erase of an invalid iterator"
  | e :: l =>
      if e.1 =? k then Returns (l, fst <$> head l)
      else match erase k l with
           | Returns (l, n) => Returns (e :: l, n)
           | Abort m => Abort m
           end
  end.

(** [++] of an iterator. *)
Definition increment (n : option Z) (l : list entry) : checked (option Z) :=
  match n with
  | None => Abort "++ of end()"
  | Some k => Returns (fst <$> head (upper_bound k l))
  end.

(** [next->first]. *)
Definition dereference (n : option Z) (l : list entry) : checked Z :=
  match n with
  | None => Abort "dereference of end()"
  | Some k => if existsb (fun e => e.1 =? k) l then Returns k
              else Abort "dereference of an invalid iterator"
  end.

(** ** The series *)
Record TimeSeries := mkTimeSeries {
  window : Z;
  capacity : nat;
  values : list entry;
  next : option Z;
  index : option Z;
}.

(** [index] is a [size_t]. *)
Definition size_t (z : Z) : Z := z mod 2 ^ 64.
Definition size (l : list entry) : Z := Z.of_nat (length l).

(** An iterator that was never assigned is invalid; [end()] stands for it. *)
Definition TimeSeries_init (window : Z) (capacity : nat) : TimeSeries :=
  mkTimeSeries window (Nat.max 3 capacity) [] None None.

Definition truncate (now : Z) (s : TimeSeries) : checked TimeSeries :=
  let rest := upper_bound (now - window s) (values s) in
  match rest with
  | [] => Returns s
  | u :: _ =>
      if size (values s) <=? 1 then Returns s
      else
        let reset := mkTimeSeries (window s) (capacity s) rest (next s) None in
        match index s with
        | None => Returns reset
        | Some i =>
            match dereference (next s) (values s) with
            | Abort m => Abort m
            | Returns n =>
                if u.1 <? n then
                  Returns (mkTimeSeries (window s) (capacity s) rest (next s)
                             (Some (size_t (i - (size (values s) - size rest)))))
                else Returns reset
            end
        end
  end.

(** The body of the loop of [sparsify]. *)
Definition sparsify_once (s : TimeSeries) : checked TimeSeries :=
  let start :=
    match increment (fst <$> head (values s)) (values s) with
    | Returns n => Returns (n, 1)
    | Abort m => Abort m
    end in
  let candidate :=
    match index s with
    | Some i => if size (values s) / 2 <? i then start else Returns (next s, i)
    | None => start
    end in
  match candidate with
  | Abort m => Abort m
  | Returns (None, _) => Abort "erase of end()"
  | Returns (Some k, i) =>
      match erase k (values s) with
      | Abort m => Abort m
      | Returns (l, n) =>
          match increment n l with
          | Abort m => Abort m
          | Returns n => Returns (mkTimeSeries (window s) (capacity s) l n (Some (size_t (i + 1))))
          end
      end
  end.

(** The loop; an iteration removes a value, so the number of values is enough fuel. *)
Fixpoint sparsify_loop (fuel : nat) (s : TimeSeries) : checked TimeSeries :=
  if (length (values s) <=? capacity s)%nat then Returns s
  else match fuel with
       | O => Abort "out of fuel"
       | S fuel =>
           match sparsify_once s with
           | Abort m => Abort m
           | Returns s => sparsify_loop fuel s
           end
       end.
Definition sparsify (s : TimeSeries) : checked TimeSeries :=
  sparsify_loop (length (values s)) s.

(** [set], at the time [now] of the clock. *)
Definition set (now : Z) (v : T) (t : Z) (s : TimeSeries) : checked TimeSeries :=
  let i := match last (values s) with
           | Some e => if t <? e.1 then None else index s
           | None => index s
           end in
  match truncate now (mkTimeSeries (window s) (capacity s) (assign t v (values s)) (next s) i) with
  | Abort m => Abort m
  | Returns s => sparsify s
  end.

(** [get]: the elements from one iterator to the other. *)
Definition epoch : Z := 0.
Definition time_max : Z := 2 ^ 63 - 1.
Definition get (start stop : option Z) (s : TimeSeries) : list entry :=
  let range :=
    let lower := lower_bound (default epoch start) (values s) in
    let upper := upper_bound (default time_max stop) (values s) in
    take (length lower - length upper) lower in
  match start, stop with
  | Some a, Some b => if b <? a then [] else range
  | _, _ => range
  end.

Definition latest (s : TimeSeries) : option entry := last (values s).
Definition empty (s : TimeSeries) : bool :=
  match values s with [] => true | _ => false end.

(** ** The invariant *)

Definition ascending (l : list entry) : Prop := StronglySorted (fun a b => a.1 < b.1) l.

(** The candidate is not the first element and is where [index] says. *)
Definition points (l : list entry) (n : option Z) (i : Z) : Prop :=
  1 <= i /\ exists e, l !! Z.to_nat i = Some e /\ n = Some e.1.

Definition ok (s : TimeSeries) : Prop :=
  ascending (values s) /\ (4 <= capacity s)%nat /\ size (values s) < 2 ^ 63 /\
  (forall i, index s = Some i -> points (values s) (next s) i).

Lemma ascending_nth l i j e f :
  ascending l -> l !! i = Some e -> l !! j = Some f -> (i < j)%nat -> e.1 < f.1.
Proof.
  intros Hl. revert i j. induction Hl as [|x l Hl IH Hx]; intros i j Hi Hj Hij; [done|].
  destruct i as [|i], j as [|j]; [lia| |lia|].
  - injection Hi as ->. rewrite Forall_forall in Hx. apply Hx.
    apply list_elem_of_lookup. by exists j.
  - eapply IH; [exact Hi|exact Hj|lia].
Qed.

Lemma ascending_app l l' :
  ascending (l ++ l') <->
  ascending l /\ ascending l' /\ (forall a b, a ∈ l -> b ∈ l' -> a.1 < b.1).
Proof.
  unfold ascending. induction l as [|x l IH]; simpl.
  - split; [intros H; split_and!; [constructor|done|set_solver]|by intros (_ & ? & _)].
  - split.
    + intros [Hs Hx]%StronglySorted_inv. apply IH in Hs as (H1 & H2 & H3).
      rewrite Forall_app in Hx. destruct Hx as [Hx1 Hx2]. rewrite Forall_forall in Hx2.
      split_and!; [by constructor|done|]. intros a b [->|Ha]%elem_of_cons Hb; [by apply Hx2|auto].
    + intros ([Hs Hx]%StronglySorted_inv & H2 & H3). constructor.
      * apply IH. split_and!; auto. intros a b Ha Hb. apply H3; [by right|done].
      * rewrite Forall_app. split; [done|]. apply Forall_forall. intros b Hb. apply H3; [by left|done].
Qed.

(** [upper_bound] splits an ascending list. *)
Lemma upper_bound_split t l :
  ascending l ->
  exists before, l = before ++ upper_bound t l /\
    Forall (fun e => e.1 <= t) before /\ Forall (fun e => t < e.1) (upper_bound t l).
Proof.
  intros Hl. induction Hl as [|e l Hl IH Hx]; simpl; [by exists []|].
  destruct (Z.ltb_spec t e.1) as [Hlt|Hge].
  - exists []. split_and!; [done|constructor|]. constructor; [done|].
    eapply Forall_impl; [exact Hx|]. simpl. lia.
  - destruct IH as (before & Hl' & Hb & Hu). exists (e :: before). simpl. rewrite <- Hl'.
    split_and!; [done| |done]. by constructor.
Qed.

Lemma lower_bound_split t l :
  ascending l ->
  exists before, l = before ++ lower_bound t l /\
    Forall (fun e => e.1 < t) before /\ Forall (fun e => t <= e.1) (lower_bound t l).
Proof.
  intros Hl. induction Hl as [|e l Hl IH Hx]; simpl; [by exists []|].
  destruct (Z.leb_spec t e.1) as [Hlt|Hge].
  - exists []. split_and!; [done|constructor|]. constructor; [done|].
    eapply Forall_impl; [exact Hx|]. simpl. lia.
  - destruct IH as (before & Hl' & Hb & Hu). exists (e :: before). simpl. rewrite <- Hl'.
    split_and!; [done| |done]. by constructor.
Qed.

Lemma upper_bound_nth l i e :
  ascending l -> l !! i = Some e -> upper_bound e.1 l = drop (S i) l.
Proof.
  intros Hl. revert i. induction Hl as [|x l Hl IH Hx]; intros i Hi; [done|]. simpl.
  rewrite Forall_forall in Hx. destruct i as [|i].
  - injection Hi as ->. rewrite Z.ltb_irrefl, drop_0. destruct l as [|y l]; [done|]. simpl.
    rewrite (proj2 (Z.ltb_lt _ _)); [done|]. apply Hx. by left.
  - simpl in Hi. rewrite (IH i Hi).
    rewrite (proj2 (Z.ltb_ge _ _)); [done|].
    assert (x.1 < e.1); [apply Hx; apply list_elem_of_lookup; by exists i|lia].
Qed.

Lemma erase_nth l i e :
  ascending l -> l !! i = Some e ->
  erase e.1 l = Returns (delete i l, fst <$> l !! S i).
Proof.
  intros Hl. revert i. induction Hl as [|x l Hl IH Hx]; intros i Hi; [done|]. simpl.
  rewrite Forall_forall in Hx. destruct i as [|i].
  - injection Hi as ->. rewrite Z.eqb_refl. by rewrite head_lookup.
  - simpl in Hi. rewrite (proj2 (Z.eqb_neq _ _)); [by rewrite (IH i Hi)|].
    assert (x.1 < e.1); [apply Hx; apply list_elem_of_lookup; by exists i|lia].
Qed.

Lemma ascending_delete l i : ascending l -> ascending (delete i l).
Proof.
  intros Hl. revert i. induction Hl as [|x l Hl IH Hx]; intros [|i]; simpl; try constructor; auto.
  - apply IH.
  - rewrite Forall_forall in *. intros e He. apply Hx.
    by eapply (sublist_subseteq _ l); [apply sublist_delete|].
Qed.
End TimeSeries.
