(* ===== verification/TimeSeriesSpec.v ===== *)
(** Properties of time series: sizes stay bounded, what is kept of the history, and which
    capacity is too small. *)

From Stdlib Require Import Sorting.Sorted.
From S2P Require Import Prelude TimeSeries.

Local Open Scope Z_scope.

Section Spec.
Context {T : Type}.
Local Notation entry := (Z * T)%type.
Implicit Types (l : list entry) (s : @TimeSeries T).

(** ** Inserting *)

Lemma assign_elem t v l e : e ∈ assign t v l -> e = (t, v) \/ e ∈ l.
Proof.
  induction l as [|x l IH]; simpl; [intros ->%list_elem_of_singleton; by left|].
  destruct (t <? x.1); [set_solver|]. destruct (t =? x.1); set_solver.
Qed.

Lemma assign_ascending t v l : ascending l -> ascending (assign t v l).
Proof.
  intros Hl. induction Hl as [|x l Hl IH Hx]; simpl; [by repeat constructor|].
  destruct (Z.ltb_spec t x.1) as [Hlt|Hge].
  - constructor; [by constructor|]. constructor; [done|]. eapply Forall_impl; [exact Hx|]. simpl. lia.
  - destruct (Z.eqb_spec t x.1) as [->|Hne]; [by constructor|].
    constructor; [done|]. rewrite Forall_forall in *. intros e [->|He]%assign_elem; simpl; [lia|auto].
Qed.

Lemma assign_size t v l : size l <= size (assign t v l) <= size l + 1.
Proof.
  unfold size. induction l as [|x l IH]; simpl; [lia|].
  destruct (t <? x.1); simpl; [lia|]. destruct (t =? x.1); simpl; lia.
Qed.

(** Appending keeps every element where it is. *)
Lemma assign_append t v l i e :
  ascending l -> (forall x, last l = Some x -> x.1 <= t) -> l !! i = Some e ->
  exists e', assign t v l !! i = Some e' /\ e'.1 = e.1.
Proof.
  intros Hl. revert i. induction Hl as [|x l Hl IH Hx]; intros i Hlast Hi; [done|]. simpl.
  assert (Hxt : x.1 <= t).
  { destruct (last l) as [y|] eqn:Hy.
    - assert (Hyt : y.1 <= t) by (apply Hlast; destruct l; done).
      rewrite Forall_forall in Hx. assert (x.1 < y.1); [|lia]. apply Hx.
      rewrite last_lookup in Hy. apply list_elem_of_lookup. eauto.
    - apply last_None in Hy as ->. by apply Hlast. }
  rewrite (proj2 (Z.ltb_ge _ _)) by done. destruct (Z.eqb_spec t x.1) as [->|Hne].
  - destruct i as [|i]; [injection Hi as ->|]; eauto.
  - destruct i as [|i]; [injection Hi as ->; eauto|]. apply IH; [|done].
    intros y Hy. apply Hlast. by destruct l.
Qed.

(** ** Truncating *)

(** The values in the window, or all when there are none. *)
Definition windowed (expired : Z) l : list entry :=
  match upper_bound expired l with [] => l | rest => rest end.

Lemma dereference_points l n i : points l n i -> exists e, l !! Z.to_nat i = Some e /\
  n = Some e.1 /\ dereference n l = Returns e.1.
Proof.
  intros (Hi & e & He & ->). exists e. split_and!; [done|done|]. simpl.
  rewrite (proj2 (existsb_exists _ _)); [done|]. exists e. split; [|apply Z.eqb_refl].
  apply list_elem_of_In, list_elem_of_lookup. eauto.
Qed.

Lemma truncate_ok now s :
  ok s -> exists s', truncate now s = Returns s' /\ ok s' /\ capacity s' = capacity s /\
    window s' = window s /\ values s' = windowed (now - window s) (values s).
Proof.
  intros (Ha & Hc & Hsz & Hi). unfold truncate, windowed.
  destruct (upper_bound_split (now - window s) (values s) Ha) as (before & Hl & Hb & Hu).
  destruct (upper_bound _ (values s)) as [|u rest] eqn:Hr; [by exists s|].
  pose proof Ha as Ha'. rewrite Hl in Ha'. apply ascending_app in Ha' as (_ & Har & Hord).
  assert (Hlen : size (values s) - size (u :: rest) = Z.of_nat (length before)).
  { unfold size. rewrite Hl at 1. rewrite length_app. lia. }
  destruct (Z.leb_spec (size (values s)) 1) as [Hone|Hmore].
  { exists s. split_and!; try done. destruct before; [done|]. unfold size in *.
    cbn [length] in Hlen. lia. }
  assert (Hsr : size (u :: rest) < 2 ^ 63) by (unfold size in *; lia).
  destruct (index s) as [i|] eqn:Hidx; [|by eexists].
  destruct (dereference_points _ _ _ (Hi i eq_refl)) as (e & He & Hn & ->).
  destruct (Z.ltb_spec u.1 e.1) as [Hlt|Hge].
  - eexists. split; [done|]. split; [|done]. split_and!; try done. cbn [index values next].
    intros j [= <-]. rewrite Hlen. destruct (Hi i eq_refl) as [Hi1 _].
    rewrite Hl, lookup_app in He.
    destruct (before !! Z.to_nat i) as [e'|] eqn:Hbi.
    + simplify_eq. assert (e.1 < u.1); [|lia]. apply Hord; [|by left].
      apply list_elem_of_lookup. eauto.
    + apply lookup_ge_None in Hbi. assert (Hbig : (Z.to_nat i - length before <> 0)%nat).
      { intros Hz. rewrite Hz in He. injection He as ->. lia. }
      assert (Hlt' : (Z.to_nat i - length before < length (u :: rest))%nat)
        by (apply lookup_lt_is_Some; eauto).
      unfold size_t. unfold size in Hlen, Hsz. rewrite Z.mod_small by lia.
      split; [lia|]. exists e. split; [|done]. rewrite <- He. f_equal. lia.
  - by eexists.
Qed.

(** ** Sparsifying *)

(** What is kept of a list: a part of it with the first and the last element. *)
Definition thinned l l' : Prop :=
  l' `sublist_of` l /\ head l' = head l /\ last l' = last l.

Lemma thinned_trans l1 l2 l3 : thinned l1 l2 -> thinned l2 l3 -> thinned l1 l3.
Proof.
  intros (H1 & H2 & H3) (H4 & H5 & H6). split_and!; [by etrans|congruence|congruence].
Qed.

Lemma thinned_delete l i : (1 <= i)%nat -> (S i < length l)%nat -> thinned l (delete i l).
Proof.
  intros Hi Hl. split_and!; [apply sublist_delete| |].
  - rewrite !head_lookup. by rewrite list_lookup_delete_lt by lia.
  - rewrite !last_lookup. destruct (lookup_lt_is_Some_2 l i) as [e He]; [lia|].
    rewrite length_delete by eauto. rewrite list_lookup_delete_ge by lia. f_equal. lia.
Qed.

(** The element that [sparsify] removes. *)
Lemma sparsify_candidate s :
  ok s -> (capacity s < length (values s))%nat ->
  exists i n, points (values s) n i /\ i <= size (values s) / 2 /\
    match index s with
    | Some i => if size (values s) / 2 <? i
                then match increment (fst <$> head (values s)) (values s) with
                     | Returns n => Returns (n, 1) | Abort m => Abort m end
                else Returns (next s, i)
    | None => match increment (fst <$> head (values s)) (values s) with
              | Returns n => Returns (n, 1) | Abort m => Abort m end
    end = Returns (n, i).
Proof.
  intros (Ha & Hc & Hsz & Hi) Hlen.
  assert (Hstart : exists n, points (values s) n 1 /\ 1 <= size (values s) / 2 /\
    match increment (fst <$> head (values s)) (values s) with
    | Returns n => Returns (n, 1) | Abort m => Abort m end = Returns (n, 1)).
  { destruct (values s) as [|a [|b r]] eqn:Hv; [simpl in *; lia|simpl in *; lia|].
    exists (Some b.1). split_and!.
    - split; [lia|]. by exists b.
    - unfold size. simpl length. apply Z.div_le_lower_bound; [lia|]. simpl in Hlen. lia.
    - simpl. rewrite Z.ltb_irrefl. apply StronglySorted_inv in Ha as [_ Hx].
      apply Forall_cons in Hx as [Hx _]. by rewrite (proj2 (Z.ltb_lt _ _) Hx). }
  destruct Hstart as (n1 & Hp1 & Hs1 & He1).
  destruct (index s) as [i|] eqn:Hidx; [|by exists 1, n1].
  destruct (Z.ltb_spec (size (values s) / 2) i); [by exists 1, n1|].
  exists i, (next s). split_and!; [by apply Hi|lia|done].
Qed.

Lemma sparsify_once_ok s :
  ok s -> (capacity s < length (values s))%nat ->
  exists s', sparsify_once s = Returns s' /\ ok s' /\ capacity s' = capacity s /\
    window s' = window s /\ thinned (values s) (values s') /\
    S (length (values s')) = length (values s).
Proof.
  intros Hok Hlen. destruct (sparsify_candidate s Hok Hlen) as (i & n & Hp & Hhalf & Hcand).
  unfold sparsify_once. cbv zeta. rewrite Hcand. destruct Hp as (Hi & e & He & ->).
  destruct Hok as (Ha & Hc & Hsz & _). unfold size in *.
  assert (Hbound : i + 2 < Z.of_nat (length (values s))).
  { assert (Z.of_nat (length (values s)) / 2 <= Z.of_nat (length (values s)) - 3); [|lia].
    assert (Z.of_nat (length (values s)) / 2 * 2 <= Z.of_nat (length (values s)))
      by (rewrite Z.mul_comm; apply Z.mul_div_le; lia). lia. }
  rewrite (erase_nth _ _ _ Ha He).
  destruct (lookup_lt_is_Some_2 (values s) (S (Z.to_nat i))) as [f Hf]; [lia|].
  destruct (lookup_lt_is_Some_2 (values s) (S (S (Z.to_nat i)))) as [g Hg]; [lia|].
  rewrite Hf. cbn [fmap option_fmap option_map increment].
  pose proof (ascending_delete _ (Z.to_nat i) Ha) as Had.
  rewrite (upper_bound_nth _ (Z.to_nat i) f Had) by (by rewrite list_lookup_delete_ge).
  rewrite head_lookup, lookup_drop, Nat.add_0_r, list_lookup_delete_ge, Hg by lia.
  eexists. split; [done|].
  assert (Hdl : S (length (delete (Z.to_nat i) (values s))) = length (values s)).
  { rewrite length_delete by eauto. lia. }
  split; [split_and!; cbn [index values next capacity]|split_and!]; try done.
  - unfold size. lia.
  - intros j [= <-]. unfold size_t. rewrite Z.mod_small by lia. split; [lia|].
    exists g. split; [|done]. rewrite list_lookup_delete_ge by lia. rewrite <- Hg. f_equal. lia.
  - apply thinned_delete; lia.
Qed.

Lemma sparsify_loop_ok fuel s :
  ok s -> (length (values s) <= fuel + capacity s)%nat ->
  exists s', sparsify_loop fuel s = Returns s' /\ ok s' /\ capacity s' = capacity s /\
    window s' = window s /\ thinned (values s) (values s') /\
    length (values s') = Nat.min (length (values s)) (capacity s).
Proof.
  revert s. induction fuel as [|fuel IH]; intros s Hok Hf; simpl;
    destruct (Nat.leb_spec (length (values s)) (capacity s)) as [Hle|Hgt].
  - exists s. split_and!; try done. lia.
  - lia.
  - exists s. split_and!; try done. lia.
  - destruct (sparsify_once_ok s Hok Hgt) as (s1 & -> & Hok1 & Hc1 & Hw1 & Ht1 & Hl1).
    destruct (IH s1 Hok1) as (s2 & -> & Hok2 & Hc2 & Hw2 & Ht2 & Hl2); [lia|].
    exists s2. split; [done|]. split; [done|]. split_and!; [congruence|congruence|by eapply thinned_trans|lia].
Qed.

(** ** Setting a value *)

Lemma set_ok now v t s :
  ok s -> size (values s) + 1 < 2 ^ 63 ->
  exists s', set now v t s = Returns s' /\ ok s' /\ capacity s' = capacity s /\
    window s' = window s /\
    thinned (windowed (now - window s) (assign t v (values s))) (values s') /\
    length (values s')
    = Nat.min (length (windowed (now - window s) (assign t v (values s)))) (capacity s).
Proof.
  intros (Ha & Hc & Hsz & Hi) Hroom. unfold set.
  set (s1 := mkTimeSeries _ _ (assign t v (values s)) _ _).
  assert (Hok1 : ok s1).
  { pose proof (assign_size t v (values s)). split_and!; cbn [values capacity index next s1]; [by apply assign_ascending|done|lia|].
    intros i Hidx. assert (Hlast : (forall x, last (values s) = Some x -> x.1 <= t) /\ index s = Some i).
    { destruct (last (values s)) as [x|]; [|done]. destruct (Z.ltb_spec t x.1); [done|].
      split; [|done]. by intros y [= <-]. }
    destruct Hlast as [Hlast Hidx']. destruct (Hi i Hidx') as (Hi1 & e & He & Hn).
    destruct (assign_append t v (values s) _ e Ha Hlast He) as (e' & He' & Heq).
    split; [done|]. exists e'. by rewrite Heq. }
  destruct (truncate_ok now s1 Hok1) as (s2 & -> & Hok2 & Hc2 & Hw2 & Hv2).
  destruct (sparsify_loop_ok (length (values s2)) s2 Hok2) as (s3 & Hs3 & Hok3 & Hc3 & Hw3 & Ht & Hl);
    [lia|].
  exists s3. unfold sparsify. rewrite Hs3. rewrite Hv2, Hc2 in *. simpl in *. split_and!; congruence.
Qed.

(** ** Histories *)

Inductive ts_op := Set_ (now : Z) (v : T) (t : Z) | Truncate (now : Z).

Definition ts_step (o : ts_op) s : checked TimeSeries :=
  match o with
  | Set_ now v t => set now v t s
  | Truncate now => truncate now s
  end.
Fixpoint ts_run (os : list ts_op) s : checked TimeSeries :=
  match os with
  | [] => Returns s
  | o :: os => match ts_step o s with Returns s => ts_run os s | Abort m => Abort m end
  end.

Lemma windowed_length x l : (length (windowed x l) <= length l)%nat.
Proof.
  unfold windowed. assert (Hu : (length (upper_bound x l) <= length l)%nat).
  { induction l as [|e l IH]; simpl; [lia|]. destruct (x <? e.1); simpl; lia. }
  destruct (upper_bound x l); [lia|done].
Qed.

Lemma ts_step_ok o s :
  ok s -> (length (values s) <= capacity s)%nat -> Z.of_nat (capacity s) < 2 ^ 62 ->
  exists s', ts_step o s = Returns s' /\ ok s' /\ capacity s' = capacity s /\
    window s' = window s /\ (length (values s') <= capacity s)%nat.
Proof.
  intros Hok Hl Hc. destruct o as [now v t|now]; simpl.
  - destruct (set_ok now v t s Hok) as (s' & H1 & H2 & H3 & H4 & _ & H5); [unfold size; lia|].
    exists s'. split_and!; try done. lia.
  - destruct (truncate_ok now s Hok) as (s' & H1 & H2 & H3 & H4 & H5).
    exists s'. split_and!; try done. rewrite H5. pose proof (windowed_length (now - window s) (values s)).
    lia.
Qed.

Lemma ts_run_ok os s :
  ok s -> (length (values s) <= capacity s)%nat -> Z.of_nat (capacity s) < 2 ^ 62 ->
  exists s', ts_run os s = Returns s' /\ ok s' /\ capacity s' = capacity s /\
    window s' = window s /\ (length (values s') <= capacity s)%nat.
Proof.
  revert s. induction os as [|o os IH]; intros s Hok Hl Hc; [by exists s|]. simpl.
  destruct (ts_step_ok o s Hok Hl Hc) as (s1 & -> & Hok1 & Hc1 & Hw1 & Hl1).
  destruct (IH s1) as (s2 & H1 & H2 & H3 & H4 & H5); [done|lia|lia|].
  exists s2. split_and!; try congruence; try done.
Qed.

Lemma init_ok w c : (4 <= c)%nat -> ok (TimeSeries_init (T := T) w c).
Proof. intros Hc. split_and!; simpl; [constructor|lia|done|done]. Qed.

(** A time series of capacity 4 or more never holds more values than its capacity, in
    ascending order of time, and never uses an invalid iterator, for every sequence of
    writes (in order or not) and truncations; the candidate for the next removal is where
    the index says, and is not the first value. *)
Theorem series_bounded w c os :
  (4 <= c)%nat -> Z.of_nat c < 2 ^ 62 ->
  exists s, ts_run os (TimeSeries_init w c) = Returns s /\
    (length (values s) <= c)%nat /\ ascending (values s) /\
    (forall i, index s = Some i -> points (values s) (next s) i).
Proof.
  intros Hc Hmax. destruct (ts_run_ok os (TimeSeries_init w c)) as (s & Hr & Hok & Hc' & _ & Hl);
    [by apply init_ok|simpl; lia|simpl; lia|].
  simpl in Hl. destruct Hok as (Ha & _ & _ & Hi). exists s. split_and!; try done. lia.
Qed.

(** Writing a value keeps, of the values in the window, the oldest and the newest and as
    many as the capacity allows, in their order; when no value is in the window nothing is
    dropped for its age. *)
Theorem set_keeps_window w c os s now v t :
  (4 <= c)%nat -> Z.of_nat c < 2 ^ 62 -> ts_run os (TimeSeries_init w c) = Returns s ->
  let kept := windowed (now - w) (assign t v (values s)) in
  exists s', set now v t s = Returns s' /\
    values s' `sublist_of` kept /\ head (values s') = head kept /\
    latest s' = last kept /\ length (values s') = Nat.min (length kept) c.
Proof.
  intros Hc Hmax Hr kept.
  destruct (ts_run_ok os (TimeSeries_init w c)) as (s1 & Hr1 & Hok & Hc' & Hw & Hl);
    [by apply init_ok|simpl; lia|simpl; lia|].
  rewrite Hr in Hr1. injection Hr1 as <-. simpl in *.
  destruct (set_ok now v t s Hok) as (s' & Hs & _ & _ & _ & (H1 & H2 & H3) & H4);
    [unfold size; lia|].
  rewrite Hw in *. exists s'. split_and!; try done. rewrite H4, Hc'. unfold kept. f_equal. lia.
Qed.

(** ** Reading *)

Lemma filtered_none (P : entry -> bool) l : Forall (fun e => P e = false) l -> List.filter P l = [].
Proof. induction 1 as [|e l He Hl IH]; [done|]. simpl. by rewrite He. Qed.
Lemma filtered_all (P : entry -> bool) l : Forall (fun e => P e = true) l -> List.filter P l = l.
Proof. induction 1 as [|e l He Hl IH]; [done|]. simpl. by rewrite He, IH. Qed.

Lemma range_filter a b l :
  ascending l -> a <= b ->
  take (length (lower_bound a l) - length (upper_bound b l)) (lower_bound a l)
  = List.filter (fun e => (a <=? e.1) && (e.1 <=? b)) l.
Proof.
  intros Hl Hab. destruct (lower_bound_split a l Hl) as (l1 & Hl1 & Hb1 & Hu1).
  rewrite Hl1 in Hl. apply ascending_app in Hl as (_ & Hlow & _).
  destruct (upper_bound_split b _ Hlow) as (l2 & Hl2 & Hb2 & Hu2).
  assert (Hub : upper_bound b l = upper_bound b (lower_bound a l)).
  { rewrite Hl1 at 1. clear -Hb1 Hab. induction Hb1 as [|e l1 He _ IH]; [done|]. simpl.
    by rewrite (proj2 (Z.ltb_ge _ _)) by lia. }
  rewrite Hub. rewrite Hl1 at 4. rewrite List.filter_app, filtered_none; cbn [app].
  2: { eapply Forall_impl; [exact Hb1|]. simpl. intros e He. apply andb_false_iff. left.
       apply Z.leb_gt. lia. }
  rewrite Hl2 at 1 3 4. rewrite List.filter_app, length_app.
  rewrite (filtered_none _ (upper_bound b _)).
  2: { eapply Forall_impl; [exact Hu2|]. simpl. intros e He. apply andb_false_iff. right.
       apply Z.leb_gt. lia. }
  rewrite filtered_all, app_nil_r.
  - replace (_ + _ - _)%nat with (length l2) by lia. by rewrite take_app_length.
  - rewrite Hl2 in Hu1. apply Forall_app in Hu1 as [Hu1 _].
    rewrite Forall_forall in *. intros e He. apply andb_true_iff.
    split; apply Z.leb_le; [by apply Hu1|by apply Hb2].
Qed.

(** [get] returns exactly the values in the range, in ascending order, for every range
    (an empty one included). *)
Theorem get_range s a b :
  ascending (values s) ->
  get (Some a) (Some b) s = List.filter (fun e => (a <=? e.1) && (e.1 <=? b)) (values s).
Proof.
  intros Ha. unfold get. destruct (Z.ltb_spec b a) as [Hlt|Hge]; [|by apply range_filter].
  symmetry. apply filtered_none. apply Forall_forall. intros e _. apply andb_false_iff.
  destruct (Z.leb_spec a e.1); [right; apply Z.leb_gt; lia|by left].
Qed.

(** With the smallest capacity, 3, the sixth value written in order dereferences
    [end()]. *)
Theorem capacity_three_fails (v : T) :
  ts_run (map (fun t => Set_ t v t) [0; 1; 2; 3; 4; 5]) (TimeSeries_init 100 3)
  = Abort "dereference of end()".
Proof. reflexivity. Qed.
End Spec.

Lemma series_bounded_witness :
  exists s, ts_run (map (fun t => Set_ t t t) [0; 1; 2; 3; 4; 5; 6; 7; 2; 20; 21])
              (TimeSeries_init 10 4) = Returns s /\
    (length (values s) <= 4)%nat /\ ascending (values s) /\
    (forall i, index s = Some i -> points (values s) (next s) i).
Proof.
  apply (series_bounded 10 4 (map (fun t => Set_ t t t) [0; 1; 2; 3; 4; 5; 6; 7; 2; 20; 21])); lia.
Defined.

Definition full_series : @TimeSeries Z :=
  mkTimeSeries 100 4 [(0, 0); (2, 2); (3, 3); (4, 4)] (Some 3) (Some 2).

Lemma set_keeps_window_witness :
  exists s', set 5 5 5 full_series = Returns s' /\
    values s' `sublist_of` [(0, 0); (2, 2); (3, 3); (4, 4); (5, 5)] /\
    head (values s') = Some (0, 0) /\ latest s' = Some (5, 5) /\ length (values s') = 4%nat.
Proof.
  apply (set_keeps_window 100 4 (map (fun t => Set_ t t t) [0; 1; 2; 3; 4]) full_series 5 5 5);
    [lia|lia|reflexivity].
Defined.

Lemma get_range_witness : get (Some 1) (Some 3) full_series = [(2, 2); (3, 3)].
Proof.
  apply (get_range full_series 1 3). repeat (constructor; [|repeat constructor]); constructor.
Defined.
