(* ===== verification/Statistics.v ===== *)
(** Statistics of a series of values: [statistics.hpp].

    A [double] is an exact rational: rounding is not modelled. *)

From Stdlib Require Import QArith Qround Lqa Sorting.Sorted.
From S2P Require Import Prelude TimeSeries.

Local Open Scope Q_scope.

(** [std::sort]. *)
Fixpoint insert_sorted (x : Q) (l : list Q) : list Q :=
  match l with
  | [] => [x]
  | y :: l => if Qle_bool x y then x :: y :: l else y :: insert_sorted x l
  end.
Definition sort (l : list Q) : list Q := foldr insert_sorted [] l.

Definition value_at (l : list Q) (i : nat) : Q := nth i l 0.

(** [percentile], on sorted values. *)
Definition percentile (l : list Q) (p : Q) : checked Q :=
  if (length l <? 2)%nat then Abort "CHECK_GE(values.size(), 2u)"
  else if Qle_bool p 0 then Returns (value_at l 0)
  else if Qle_bool 1 p then Returns (value_at l (length l - 1))
  else
    let position := p * inject_Z (Z.of_nat (length l - 1)) in
    let index := Z.to_nat (Qfloor position) in
    let delta := position - inject_Z (Z.of_nat index) in
    if (index <? length l - 1)%nat then
      Returns (value_at l index + (value_at l (S index) - value_at l index) * delta)
    else Abort "CHECK_LT(index, values.size() - 1)".

Record Statistics := mkStatistics {
  count : nat;
  min_ : Q; max_ : Q;
  p25 : Q; p50 : Q; p75 : Q; p90 : Q; p95 : Q; p99 : Q; p999 : Q; p9999 : Q;
}.

Definition checked_bind {A B} (x : checked A) (f : A -> checked B) : checked B :=
  match x with Returns a => f a | Abort m => Abort m end.
Local Notation "'let*' x ':=' t 'in' k" := (checked_bind t (fun x => k))
  (at level 200, x pattern, t at level 100, k at level 200, right associativity).

Definition from (values : list Q) : checked (option Statistics) :=
  if (length values <? 2)%nat then Returns None
  else
    let l := sort values in
    let* a := percentile l (25 # 100) in
    let* b := percentile l (5 # 10) in
    let* c := percentile l (75 # 100) in
    let* d := percentile l (90 # 100) in
    let* e := percentile l (95 # 100) in
    let* f := percentile l (99 # 100) in
    let* g := percentile l (999 # 1000) in
    let* h := percentile l (9999 # 10000) in
    Returns (Some (mkStatistics (length l) (value_at l 0) (value_at l (length l - 1))
                     a b c d e f g h)).

(** [from] of a time series. *)
Definition from_series (s : @TimeSeries Q) : checked (option Statistics) :=
  from (map snd (get None None s)).

(** ** Sorting *)

Definition sorted (l : list Q) : Prop := StronglySorted Qle l.

Lemma insert_sorted_perm x l : insert_sorted x l ≡ₚ x :: l.
Proof.
  induction l as [|y l IH]; simpl; [done|]. destruct (Qle_bool x y); [done|].
  rewrite IH. by rewrite Permutation_swap.
Qed.

Lemma insert_sorted_sorted x l : sorted l -> sorted (insert_sorted x l).
Proof.
  unfold sorted. induction 1 as [|y l Hl IH Hy]; simpl; [by repeat constructor|].
  destruct (Qle_bool x y) eqn:E.
  - apply Qle_bool_iff in E. constructor; [by constructor|]. constructor; [done|].
    eapply Forall_impl; [exact Hy|]. simpl. intros z Hz. by eapply Qle_trans.
  - assert (Hyx : y <= x).
    { destruct (Qlt_le_dec y x) as [H|H]; [by apply Qlt_le_weak|].
      apply Qle_bool_iff in H. congruence. }
    constructor; [done|]. rewrite insert_sorted_perm. by constructor.
Qed.

Lemma sort_perm l : sort l ≡ₚ l.
Proof. unfold sort. induction l as [|x l IH]; simpl; [done|]. by rewrite insert_sorted_perm, IH. Qed.

Lemma sort_sorted l : sorted (sort l).
Proof.
  unfold sort. induction l as [|x l IH]; simpl; [constructor|]. by apply insert_sorted_sorted.
Qed.

Lemma sorted_at l i j :
  sorted l -> (i <= j)%nat -> (j < length l)%nat -> value_at l i <= value_at l j.
Proof.
  intros Hl. revert i j. induction Hl as [|x l Hl IH Hx]; intros i j Hij Hj; [simpl in Hj; lia|].
  unfold value_at in *. destruct i as [|i], j as [|j]; simpl.
  - apply Qle_refl.
  - rewrite Forall_forall in Hx. apply Hx. apply list_elem_of_In, nth_In. simpl in Hj. lia.
  - lia.
  - apply IH; simpl in Hj; lia.
Qed.

(** ** Percentiles *)

(** The interpolation at a position. *)
Definition at_position (l : list Q) (q : Q) : Q :=
  let i := Z.to_nat (Qfloor q) in
  value_at l i + (value_at l (S i) - value_at l i) * (q - inject_Z (Z.of_nat i)).

Lemma floor_bounds q :
  0 <= q -> let i := Z.to_nat (Qfloor q) in
  inject_Z (Z.of_nat i) <= q /\ q < inject_Z (Z.of_nat i) + 1.
Proof.
  intros Hq i. unfold i.
  assert (H0 : (0 <= Qfloor q)%Z).
  { change 0%Z with (Qfloor 0). by apply Qfloor_resp_le. }
  rewrite Z2Nat.id by done. split; [apply Qfloor_le|].
  pose proof (Qlt_floor q) as Hf. rewrite inject_Z_plus in Hf. exact Hf.
Qed.

(** Interpolation stays between the neighbours. *)
Lemma at_position_between l q :
  sorted l -> 0 <= q -> (S (Z.to_nat (Qfloor q)) < length l)%nat ->
  value_at l (Z.to_nat (Qfloor q)) <= at_position l q /\
  at_position l q <= value_at l (S (Z.to_nat (Qfloor q))).
Proof.
  intros Hl Hq Hi. destruct (floor_bounds q Hq) as [H1 H2]. unfold at_position.
  assert (Hv : value_at l (Z.to_nat (Qfloor q)) <= value_at l (S (Z.to_nat (Qfloor q))))
    by (apply sorted_at; [done|lia|done]).
  set (i := Z.to_nat (Qfloor q)) in *. set (a := value_at l i) in *.
  set (b := value_at l (S i)) in *. set (d := q - inject_Z (Z.of_nat i)).
  assert (Hd : 0 <= d /\ d <= 1) by (unfold d; lra). destruct Hd. split; nra.
Qed.

Lemma at_position_mono l q r :
  sorted l -> 0 <= q -> q <= r -> (S (Z.to_nat (Qfloor r)) < length l)%nat ->
  at_position l q <= at_position l r.
Proof.
  intros Hl Hq Hqr Hr. assert (Hf : (Qfloor q <= Qfloor r)%Z) by (by apply Qfloor_resp_le).
  assert (H0 : (0 <= Qfloor q)%Z) by (change 0%Z with (Qfloor 0); by apply Qfloor_resp_le).
  destruct (decide (Qfloor q = Qfloor r)) as [He|Hne].
  - unfold at_position. rewrite He.
    assert (Hv : value_at l (Z.to_nat (Qfloor r)) <= value_at l (S (Z.to_nat (Qfloor r))))
      by (apply sorted_at; [done|lia|done]).
    set (i := Z.to_nat (Qfloor r)) in *. set (a := value_at l i) in *.
    set (b := value_at l (S i)) in *. nra.
  - destruct (at_position_between l q) as [_ H1]; [done|done|lia|].
    destruct (at_position_between l r) as [H2 _]; [done|lra|done|].
    eapply Qle_trans; [exact H1|]. eapply Qle_trans; [|exact H2].
    apply sorted_at; [done|lia|lia].
Qed.

(** A percentile strictly between 0 and 1 is an interpolation inside the list. *)
Lemma percentile_position l p :
  (2 <= length l)%nat -> 0 < p -> p < 1 ->
  let q := p * inject_Z (Z.of_nat (length l - 1)) in
  percentile l p = Returns (at_position l q) /\ 0 <= q /\
  (S (Z.to_nat (Qfloor q)) < length l)%nat.
Proof.
  intros Hl Hp0 Hp1 q. set (m := inject_Z (Z.of_nat (length l - 1))) in *.
  assert (Hm : 1 <= m).
  { change 1 with (inject_Z 1). unfold m. rewrite <- Zle_Qle. lia. }
  assert (Hq0 : 0 <= q) by (unfold q; nra). assert (Hq1 : q < m) by (unfold q; nra).
  assert (Hi : (Z.to_nat (Qfloor q) < length l - 1)%nat).
  { destruct (floor_bounds q Hq0) as [H1 _].
    assert (H2 : inject_Z (Z.of_nat (Z.to_nat (Qfloor q))) < m) by (eapply Qle_lt_trans; eauto).
    unfold m in H2. rewrite <- Zlt_Qlt in H2. lia. }
  split_and!; [|done|lia]. unfold percentile.
  rewrite (proj2 (Nat.ltb_ge _ _)) by lia.
  destruct (Qle_bool p 0) eqn:E0; [apply Qle_bool_iff in E0; lra|].
  destruct (Qle_bool 1 p) eqn:E1; [apply Qle_bool_iff in E1; lra|].
  fold m q. by rewrite (proj2 (Nat.ltb_lt _ _) Hi).
Qed.

(** Percentiles grow with the percentage and stay between the extremes. *)
Lemma percentile_chain l p r :
  sorted l -> (2 <= length l)%nat -> 0 < p -> p <= r -> r < 1 ->
  exists a b, percentile l p = Returns a /\ percentile l r = Returns b /\
    value_at l 0 <= a /\ a <= b /\ b <= value_at l (length l - 1).
Proof.
  intros Hl Hlen Hp Hpr Hr.
  destruct (percentile_position l p) as (H1 & H2 & H3); [done|done|lra|].
  destruct (percentile_position l r) as (H4 & H5 & H6); [done|lra|done|].
  do 2 eexists. split; [exact H1|]. split; [exact H4|].
  assert (Hm : 0 <= inject_Z (Z.of_nat (length l - 1))).
  { change 0 with (inject_Z 0). rewrite <- Zle_Qle. lia. }
  split_and!.
  - eapply Qle_trans; [|apply at_position_between; done]. apply sorted_at; [done|lia|lia].
  - apply at_position_mono; [done|done|nra|done].
  - eapply Qle_trans; [apply at_position_between; done|]. apply sorted_at; [done|lia|lia].
Qed.

(** Of two or more values the statistics are defined, count them all, and are in order:
    the minimum, the percentiles by growing percentage, the maximum; minimum and maximum
    are the extreme values.  Fewer values have no statistics.  No [CHECK] fails. *)
Theorem statistics_ordered values :
  ((length values < 2)%nat -> from values = Returns None) /\
  ((2 <= length values)%nat ->
   exists s, from values = Returns (Some s) /\ count s = length values /\
     min_ s ∈ values /\ max_ s ∈ values /\
     (forall v, v ∈ values -> min_ s <= v <= max_ s) /\
     min_ s <= p25 s /\ p25 s <= p50 s /\ p50 s <= p75 s /\ p75 s <= p90 s /\
     p90 s <= p95 s /\ p95 s <= p99 s /\ p99 s <= p999 s /\ p999 s <= p9999 s /\
     p9999 s <= max_ s).
Proof.
  split; intros Hlen; unfold from.
  { by rewrite (proj2 (Nat.ltb_lt _ _) Hlen). }
  rewrite (proj2 (Nat.ltb_ge _ _)) by lia. pose proof (sort_perm values) as Hp.
  pose proof (sort_sorted values) as Hs. set (l := sort values) in *.
  assert (Hl : length l = length values) by (by rewrite Hp).
  assert (Hchain : forall p r, 0 < p -> p <= r -> r < 1 -> exists a b,
    percentile l p = Returns a /\ percentile l r = Returns b /\
    value_at l 0 <= a /\ a <= b /\ b <= value_at l (length l - 1))
    by (intros; apply percentile_chain; auto; lia).
  destruct (Hchain (25 # 100) (5 # 10)) as (a & b & E1 & E2 & H1 & H2 & _); try lra.
  destruct (Hchain (5 # 10) (75 # 100)) as (b' & c & E2' & E3 & _ & H3 & _); try lra.
  destruct (Hchain (75 # 100) (90 # 100)) as (c' & d & E3' & E4 & _ & H4 & _); try lra.
  destruct (Hchain (90 # 100) (95 # 100)) as (d' & e & E4' & E5 & _ & H5 & _); try lra.
  destruct (Hchain (95 # 100) (99 # 100)) as (e' & f & E5' & E6 & _ & H6 & _); try lra.
  destruct (Hchain (99 # 100) (999 # 1000)) as (f' & g & E6' & E7 & _ & H7 & _); try lra.
  destruct (Hchain (999 # 1000) (9999 # 10000)) as (g' & h & E7' & E8 & _ & H8 & H9); try lra.
  assert (Hsame : forall p x y, percentile l p = Returns x -> percentile l p = Returns y -> x = y)
    by congruence.
  pose proof (Hsame _ _ _ E2 E2'). pose proof (Hsame _ _ _ E3 E3'). pose proof (Hsame _ _ _ E4 E4').
  pose proof (Hsame _ _ _ E5 E5'). pose proof (Hsame _ _ _ E6 E6'). pose proof (Hsame _ _ _ E7 E7').
  subst. eexists. split.
  { rewrite E1; cbn. rewrite E2; cbn. rewrite E3; cbn. rewrite E4; cbn. rewrite E5; cbn.
    rewrite E6; cbn. rewrite E7; cbn. rewrite E8; cbn. reflexivity. }
  assert (Hin : forall i, (i < length l)%nat -> value_at l i ∈ values).
  { intros i Hi. rewrite <- Hp. apply list_elem_of_In, nth_In. done. }
  cbn [count min_ max_ p25 p50 p75 p90 p95 p99 p999 p9999].
  split_and!; try assumption; [apply Hin; lia|apply Hin; lia|].
  intros v Hv. rewrite <- Hp in Hv. apply list_elem_of_In, (In_nth _ _ 0) in Hv as (i & Hi & <-).
  change (nth i l 0) with (value_at l i). split; apply sorted_at; auto; lia.
Qed.

Lemma statistics_ordered_witness :
  exists s, from [5; 1; 3] = Returns (Some s) /\ count s = 3%nat /\
    min_ s ∈ [5; 1; 3] /\ max_ s ∈ [5; 1; 3] /\
    (forall v, v ∈ [5; 1; 3] -> min_ s <= v <= max_ s) /\
    min_ s <= p25 s /\ p25 s <= p50 s /\ p50 s <= p75 s /\ p75 s <= p90 s /\
    p90 s <= p95 s /\ p95 s <= p99 s /\ p99 s <= p999 s /\ p999 s <= p9999 s /\
    p9999 s <= max_ s.
Proof. apply (statistics_ordered [5; 1; 3]). simpl. lia. Defined.
