(* ===== verification/HttpConnection.v ===== *)
(** HTTP client connections: [internal::encode(Request)], [convert] and
    [ConnectionProcess] in [http.cpp].

    Handlers run in the process, one at a time, and return what they do to the outside
    ([effect]) in program order.  The outcomes of the socket are arguments; what the HTTP
    parser makes of the end of the input is an operation of a class, because it depends on
    where the parser is. *)

From Stdlib Require Import Ascii String.
From stdpp Require Import pretty.
From S2P Require Import Prelude HttpCodec HttpText Pipe Encoders Decoders.

Local Open Scope string_scope.
Local Open Scope nat_scope.

(** A completed future. *)
Inductive completion (A : Type) :=
| IsReady (a : A)
| IsFailed (m : string)
| IsDiscarded.
Arguments IsReady {A} a.
Arguments IsFailed {A} m.
Arguments IsDiscarded {A}.

(** ** Encoding a request *)
Section Encode.
Context `{Stout}.

Definition crlf : string := string_of_list_ascii CRLF.

Definition query_pairs (q : gmap string string) : list string :=
  map (fun kv => encode "" kv.1 +:+ "=" +:+ encode "" kv.2) (iterate q).

Definition request_line (r : Request) : string :=
  method r +:+ " /" +:+ remove_prefix (url_path (url r)) "/" +:+
  (if decide (url_query (url r) = ∅) then ""
   else "?" +:+ join "&" (query_pairs (url_query (url r)))) +:+
  (match fragment (url r) with Some f => "#" +:+ f | None => "" end) +:+
  " HTTP/1.1" +:+ crlf.

Definition host_of (u : URL) : checked string :=
  match domain u, ip u with
  | Some d, _ => Returns d
  | None, Some i => Returns i
  | None, None => Abort "CHECK(request.url.domain.isSome() || request.url.ip.isSome())"
  end.

Definition with_port (u : URL) (host : string) : string :=
  match port u with
  | Some p => if Nat.eqb p 80 || Nat.eqb p 443 then host else host +:+ ":" +:+ pretty p
  | None => host
  end.

Definition encode_headers (r : Request) : checked Headers :=
  match host_of (url r) with
  | Abort m => Abort m
  | Returns host =>
      let h := header_set "Host" (with_port (url r) host) (req_headers r) in
      let h := if keepAlive r then h else header_set "Connection" "close" h in
      match req_type r with
      | PIPE =>
          match header_get "Content-Length" h with
          | Some _ => Abort "CHECK(!headers.contains(Content-Length))"
          | None => Returns (header_set "Transfer-Encoding" "chunked" h)
          end
      | BODY =>
          Returns (header_set "Content-Length" (pretty (String.length (req_body r))) h)
      | _ => Abort "CHECK_EQ(Request::BODY, request.type)"
      end
  end.

Definition header_lines (h : Headers) : string :=
  foldr String.append "" (map (fun e => e.2.1 +:+ ": " +:+ e.2.2 +:+ crlf) (iterate h)).

(** What is written to the pipe at once. *)
Definition encode_request (r : Request) : checked (list Pipe.request) :=
  match encode_headers r with
  | Abort m => Abort m
  | Returns h =>
      let head := Pipe.Write (request_line r +:+ header_lines h +:+ crlf) in
      match req_type r with
      | PIPE =>
          match req_reader r with
          | None => Abort "CHECK_SOME(request.reader)"
          | Some _ =>
              if String.eqb (req_body r) "" then Returns [head]
              else Abort "CHECK(request.body.empty())"
          end
      | _ => Returns [head; Pipe.Write (req_body r); Pipe.CloseWriter]
      end
  end.

(** The loop over the body of a [PIPE] request: what is written for a piece that was read,
    and whether the loop goes on. *)
Definition encode_piece (piece : completion string) : list Pipe.request * bool :=
  match piece with
  | IsReady "" => ([Pipe.Write ("0" +:+ crlf +:+ crlf); Pipe.CloseWriter], false)
  | IsReady s =>
      ([Pipe.Write (string_of_list_ascii (hex (String.length s)) +:+ crlf +:+ s +:+ crlf)], true)
  | IsFailed m => ([Pipe.Fail m], false)
  | IsDiscarded => ([Pipe.Fail "discarded"], false)
  end.

Fixpoint encode_body (pieces : list (completion string)) : list Pipe.request :=
  match pieces with
  | [] => []
  | p :: pieces =>
      let '(rs, more) := encode_piece p in
      if more then (rs ++ encode_body pieces)%list else rs
  end.
End Encode.

(** [convert], once the body was read. *)
Definition convert (r : Response) : checked (string -> Response) :=
  match res_type r, res_reader r with
  | PIPE, Some _ =>
      Returns (fun body =>
        mkResponse (status r) (res_code r) (res_headers r) BODY body (res_path r) None)
  | PIPE, None => Abort "CHECK_SOME(pipeResponse.reader)"
  | _, _ => Abort "CHECK_EQ(Response::PIPE, pipeResponse.type)"
  end.

(** ** [ConnectionProcess] *)

(** What the parser makes of the end of the input. *)
Class AtEof := { eof : running StreamingResponseDecoder -> Decoders.chunk }.

Record ConnectionProcess := mkConnectionProcess {
  cdecoder : running StreamingResponseDecoder;
  (** Whether the response is to be streamed, and its promise. *)
  pipeline : list (bool * nat);
  close : bool;
  (** The promise [disconnection] is completed. *)
  disconnection : bool;
}.
Definition ConnectionProcess_init : ConnectionProcess :=
  mkConnectionProcess (mkRunning StreamingResponseDecoder_init false) [] false false.

(** [AssociateBody]: the promise is associated with the converted response. *)
Inductive effect :=
| SetResponse (p : nat) (r : Response)
| AssociateBody (p : nat) (r : Response)
| FailResponse (p : nat) (m : string)
| ChainSend (r : Request)
| Recv
| Shutdown.

Section Connection.
Context `{Stout, AtEof}.

Definition send (request : Request) (streamedResponse : bool) (p : nat) (c : ConnectionProcess)
    : ConnectionProcess * list effect * Try nat :=
  if disconnection c then (c, [], Error "Disconnected")
  else if close c then (c, [], Error "Cannot pipeline after 'Connection: close'")
  else
    let accept :=
      (mkConnectionProcess (cdecoder c) (pipeline c ++ [(streamedResponse, p)])%list
         (close c || negb (keepAlive request)) false, [ChainSend request], Some_ p) in
    match req_type request with
    | PIPE =>
        match req_reader request with
        | None => (c, [], Error "Request reader must be set for PIPE request")
        | Some _ =>
            if String.eqb (req_body request) "" then
              match header_get "Content-Length" (req_headers request) with
              | Some _ => (c, [], Error "'Content-Length' cannot be set for PIPE request")
              | None => accept
              end
            else (c, [], Error "Request body must be empty for PIPE request")
        end
    | _ => accept
    end.

Definition fail_all (m : string) (l : list (bool * nat)) : list effect :=
  map (fun x => FailResponse x.2 m) l.

(** [disconnect]; responses that the decoder returns at the end of the input are not
    looked at. *)
Definition disconnect (message : option string) (c : ConnectionProcess)
    : checked (ConnectionProcess * list effect) :=
  let finish d :=
    Returns (mkConnectionProcess d [] (close c) true,
             Shutdown :: fail_all (default "Disconnected" message) (pipeline c)) in
  if sr_writingBody (decoder (cdecoder c)) then
    match decode (eof (cdecoder c)) (cdecoder c) with
    | Abort m => Abort m
    | Returns (d, _) => finish d
    end
  else finish (cdecoder c).

(** The loop over the decoded responses; [true] when there was no request for one. *)
Fixpoint process_responses (rs : list Response) (c : ConnectionProcess)
    : checked (ConnectionProcess * list effect * bool) :=
  match rs with
  | [] => Returns (c, [], false)
  | r :: rs =>
      match pipeline c with
      | [] => Returns (c, [], true)
      | (streamedResponse, p) :: rest =>
          let reply :=
            if streamedResponse then Returns (SetResponse p r)
            else match convert r with Returns _ => Returns (AssociateBody p r) | Abort m => Abort m end in
          let '(c, failed) :=
            match header_get "Connection" (res_headers r) with
            | Some "close" =>
                (mkConnectionProcess (cdecoder c) [] true (disconnection c),
                 fail_all "Received 'Connection: close' from the server" rest)
            | _ => (mkConnectionProcess (cdecoder c) rest (close c) (disconnection c), [])
            end in
          match reply with
          | Abort m => Abort m
          | Returns e =>
              match process_responses rs c with
              | Abort m => Abort m
              | Returns (c, es, over) => Returns (c, (e :: failed ++ es)%list, over)
              end
          end
      end
  end.

(** What [socket.recv()] gives: data, of which the parser makes the callbacks of a chunk;
    the end of the input; or no data. *)
Inductive received := Data (c : Decoders.chunk) | NoData (e : completion unit).

Definition _read (data : received) (c : ConnectionProcess)
    : checked (ConnectionProcess * list effect) :=
  let unexpected :=
    match data with
    | Data _ => bool_decide (pipeline c = []) && negb (sr_writingBody (decoder (cdecoder c)))
    | NoData _ => false
    end in
  if unexpected then disconnect (Some "Received data when none is expected") c
  else
    let chunk := match data with Data ch => ch | NoData _ => eof (cdecoder c) end in
    match decode chunk (cdecoder c) with
    | Abort m => Abort m
    | Returns (d, responses) =>
        match process_responses responses
                (mkConnectionProcess d (pipeline c) (close c) (disconnection c)) with
        | Abort m => Abort m
        | Returns (c, es, over) =>
            let leave message :=
              match disconnect message c with
              | Abort m => Abort m
              | Returns (c, es') => Returns (c, (es ++ es')%list)
              end in
            if over then leave (Some "Received response without a request")
            else
              match data with
              | NoData (IsFailed m) => leave (Some m)
              | NoData IsDiscarded => leave (Some "discarded")
              | NoData (IsReady _) => leave None
              | Data _ =>
                  if failed (decoder (cdecoder c)) then leave (Some "Failed to decode response")
                  else if close c && bool_decide (pipeline c = []) &&
                          negb (sr_writingBody (decoder (cdecoder c)))
                  then leave None
                  else Returns (c, (es ++ [Recv])%list)
              end
        end
    end.

(** [initialize] and [finalize]. *)
Definition initialize_connection (c : ConnectionProcess) : ConnectionProcess * list effect :=
  (c, [Recv]).
Definition finalize_connection (c : ConnectionProcess)
    : checked (ConnectionProcess * list effect) :=
  disconnect (Some "Connection object was destructed") c.
End Connection.
