(* ===== verification/HttpConnectionSpec.v ===== *)
(** Properties of HTTP client connections: responses are matched with requests in order,
    every promise is completed, no [CHECK] fails; encoded bodies decode to what was
    read. *)

From Stdlib Require Import Ascii String.
From S2P Require Import Prelude HttpCodec HttpText HttpTextSpec Pipe Encoders Decoders.
From S2P Require Import DecodersLaws DecodersSpec HttpConnection.

Local Open Scope string_scope.
Local Open Scope nat_scope.

(** ** The decoder of a connection *)

(** Where the parser is, read off the pointers of the decoder. *)
Definition phase_of (d : StreamingResponseDecoder) : phase :=
  match sr_writer d, sr_response d with
  | Some _, _ => Body
  | None, Some _ => Head
  | None, None => Between
  end.

(** The parser makes callbacks in their order. *)
Definition legal_chunk (s : running StreamingResponseDecoder) (c : Decoders.chunk) : Prop :=
  errno s = true \/ legals (phase_of (decoder s)) (callbacks c) <> None.

(** The end of the input is consumed or an error. *)
Class EofLaws `{AtEof} := {
  eof_legal s : legal_chunk s (eof s);
  eof_ends s : ending (eof s) <> Stopped;
}.

Definition piped (r : Response) : Prop := res_type r = PIPE /\ is_Some (res_reader r).

(** Decoded responses have a pipe; while a body is written no response is begun. *)
Definition coherent (d : StreamingResponseDecoder) : Prop :=
  (sr_writer d = None \/ sr_response d = None) /\
  (forall r, sr_response d = Some r -> res_type r = PIPE) /\ Forall piped (sr_responses d).

Lemma sr_call_coherent c d d' b : coherent d -> sr_call c d = Returns (d', b) -> coherent d'.
Proof.
  destruct d as [f hd r w rs n l]. intros (Hor & Hr & Hrs). unfold coherent in *. simpl in *.
  destruct c; simpl; try (by intros [= <- <-]).
  - unfold sr_on_message_begin. simpl. destruct f; [done|]. destruct r, w; try done.
    intros [= <- <-]. simpl. split_and!; [by left| |done]. by intros r' [= <-].
  - unfold sr_on_header_field, sr_collect. simpl. destruct r as [r|]; [|by intros [= <- <-]].
    assert (w = None) as -> by (by destruct Hor). specialize (Hr r eq_refl).
    destruct (header hd); intros [= <- <-]; simpl; split_and!; auto; by intros r' [= <-].
  - unfold sr_on_header_value, sr_collect. simpl. destruct r as [r|]; intros [= <- <-]; [|done].
    assert (w = None) as -> by (by destruct Hor). specialize (Hr r eq_refl).
    simpl. split_and!; auto. by intros r' [= <-].
  - unfold sr_on_headers_complete. simpl. destruct r as [r|]; [|done].
    assert (w = None) as -> by (by destruct Hor). specialize (Hr r eq_refl).
    destruct (isValidStatus _); [destruct (gzipped _)|]; intros [= <- <-]; simpl;
      split_and!; auto; try (by intros r' [= <-]).
    apply Forall_app. split; [done|]. apply Forall_singleton. by split.
  - unfold sr_on_body. simpl. destruct w; [|done]. by intros [= <- <-].
  - unfold sr_on_message_complete. simpl. destruct w; [|destruct f; [|done]]; intros [= <- <-]; simpl;
      split_and!; auto.
Qed.

Lemma sr_execute_coherent cs (d d' : StreamingResponseDecoder) b :
  coherent d -> execute cs d = Returns (d', b) -> coherent d'.
Proof.
  revert d. induction cs as [|c cs IH]; intros d Hd He; [by injection He as <- <-|].
  cbn [execute] in He. change (call c d) with (sr_call c d) in He.
  destruct (sr_call c d) as [[d1 b1]|] eqn:Hc; [|done]. apply sr_call_coherent in Hc; [|done].
  destruct b1; [by eapply IH|]. destruct c; try (by injection He as <- <-).
  change (call (on_message_complete p) d1) with (sr_call (on_message_complete p) d1) in He.
  destruct (sr_call _ d1) as [[d2 b2]|] eqn:Hc2; [|done]. injection He as <- <-.
  by eapply sr_call_coherent.
Qed.

Lemma coherent_fits d : coherent d -> sr_failure d = false ->
  fits (phase_of d) (sr_failure d) (sr_response d) (sr_writer d).
Proof.
  intros (Hor & _ & _) Hf. split; [done|]. unfold phase_of.
  destruct (sr_writer d) as [w|], (sr_response d) as [r|]; try done; destruct Hor; try done; eauto.
Qed.

(** One call of [decode] that the parser can make. *)
Lemma decode_coherent (s : running StreamingResponseDecoder) c :
  coherent (decoder s) -> legal_chunk s c -> (errno s = false -> sr_failure (decoder s) = false) ->
  exists s' out, decode c s = Returns (s', out) /\ coherent (decoder s') /\ Forall piped out /\
    (errno s' = false -> sr_failure (decoder s') = false \/
       ending c = Stopped /\ sr_writer (decoder s') = None).
Proof.
  intros Hd Hl Hf.
  assert (Hx : exists s1 parsed, http_parser_execute c s = Returns (s1, parsed) /\
    coherent (decoder s1) /\
    (errno s1 = false -> sr_failure (decoder s1) = false /\ (parsed = true \/ ending c = Stopped))).
  { unfold http_parser_execute. destruct (errno s) eqn:Herr.
    { do 2 eexists. split_and!; [done|done|congruence]. }
    destruct Hl as [|Hl]; [congruence|]. specialize (Hf eq_refl).
    destruct (legals _ (callbacks c)) as [ph|] eqn:Hph; [|done].
    destruct (execute_safe (callbacks c) (phase_of (decoder s)) ph (decoder s))
      as (d1 & b & He & Hb); [by apply coherent_fits|done|].
    pose proof (sr_execute_coherent _ _ _ _ Hd He) as Hd1. rewrite He.
    destruct b; [|by do 2 eexists]. destruct (Hb eq_refl) as [Hf1 _].
    destruct (ending c) eqn:Hend; do 2 eexists; split_and!; try done; intros _; auto. }
  destruct Hx as (s1 & parsed & He & Hd1 & Hs1). unfold decode. rewrite He.
  cbn [collect StreamingResponseDecoder_Decoder]. destruct Hd1 as (Hor & Hr & Hrs).
  do 2 eexists. split; [done|]. destruct parsed.
  - split_and!; try done. cbn. intros Herr. left. by apply Hs1.
  - cbn. assert (Hw : sr_writer (sr_not_parsed (decoder s1)) = None).
    { unfold sr_not_parsed. by destruct (sr_writer (decoder s1)) eqn:?. }
    assert (Hresp : sr_response (sr_not_parsed (decoder s1)) = sr_response (decoder s1) /\
      sr_responses (sr_not_parsed (decoder s1)) = sr_responses (decoder s1)).
    { unfold sr_not_parsed. by destruct (sr_writer (decoder s1)). }
    destruct Hresp as [Hx1 Hx2]. unfold coherent. cbn. rewrite Hw, Hx1, Hx2. split_and!; auto.
    intros Herr. destruct (Hs1 Herr) as [_ [?|?]]; [done|auto].
Qed.

(** ** Executions *)

(** The completions among the effects: with a response, or a failure. *)
Definition completions (es : list effect) : list (nat * option Response) :=
  omap (fun e => match e with
    | SetResponse p r | AssociateBody p r => Some (p, Some r)
    | FailResponse p _ => Some (p, None)
    | _ => None
    end) es.

Definition answers (l : list (nat * Response)) : list (nat * option Response) :=
  map (fun x => (x.1, Some x.2)) l.
Definition failures (l : list nat) : list (nat * option Response) := map (fun p => (p, None)) l.

Lemma completions_app es es' :
  completions (es ++ es')%list = (completions es ++ completions es')%list.
Proof. unfold completions. by rewrite omap_app. Qed.

Lemma completions_fail_all m l : completions (fail_all m l) = failures (map snd l).
Proof. induction l as [|[b p] l IH]; [done|]. cbn. f_equal. exact IH. Qed.

Lemma fst_answers l : map fst (answers l) = map fst l.
Proof. unfold answers. rewrite map_map. done. Qed.
Lemma fst_failures l : map fst (failures l) = l.
Proof. unfold failures. rewrite map_map. simpl. apply map_id. Qed.

(** Requests in their order: promises that [ids] gets answered and failed, and what stays
    pending. *)
Definition settled_by (ids : list nat) (done : list (nat * option Response))
    (pending : list nat) (ans : list (nat * Response)) (fails : list nat) : Prop :=
  ids = (map fst done ++ pending)%list /\ done = (answers ans ++ failures fails)%list.

Definition has_recv (es : list effect) : bool :=
  existsb (fun e => match e with Recv => true | _ => false end) es.

Lemma has_recv_fail_all m l : has_recv (fail_all m l) = false.
Proof. by induction l. Qed.

Section Spec.
Context `{Stout, EofLaws}.

Lemma process_responses_ok rs c :
  Forall piped rs ->
  exists c' es over ans fails, process_responses rs c = Returns (c', es, over) /\
    cdecoder c' = cdecoder c /\ disconnection c' = disconnection c /\
    settled_by (map snd (pipeline c)) (completions es) (map snd (pipeline c')) ans fails /\
    (exists dropped, rs = (map snd ans ++ dropped)%list /\ (dropped <> [] -> over = true)) /\
    (fails <> [] -> pipeline c' = [] /\ close c' = true) /\
    (close c = true -> close c' = true) /\ (over = true -> pipeline c' = []).
Proof.
  intros Hrs. revert c. induction Hrs as [|r rs Hr Hrs IH]; intros c.
  { exists c, [], false, [], []. split_and!; try done. by exists []. }
  cbn [process_responses]. destruct (pipeline c) as [|[st p] rest] eqn:Hp.
  { exists c, [], true, [], []. rewrite Hp. split_and!; try done. by exists (r :: rs). }
  assert (Hreply : exists e, (if st then Returns (SetResponse p r)
      else match convert r with Returns _ => Returns (AssociateBody p r) | Abort m => Abort m end)
      = Returns e /\ completions [e] = [(p, Some r)]).
  { destruct st; [by eexists|]. destruct Hr as [Ht [x Hx]]. unfold convert. rewrite Ht, Hx. by eexists. }
  destruct Hreply as (e & Hreply & Hce).
  assert (Hnext : forall c1 fl, cdecoder c1 = cdecoder c -> disconnection c1 = disconnection c ->
    (fl = [] /\ pipeline c1 = rest /\ close c1 = close c \/
     completions fl = failures (map snd rest) /\ pipeline c1 = [] /\ close c1 = true) ->
    exists c' es over ans fails,
      match process_responses rs c1 with
      | Abort m => Abort m
      | Returns (c, es, over) => Returns (c, (e :: fl ++ es)%list, over)
      end = Returns (c', es, over) /\ cdecoder c' = cdecoder c /\
      disconnection c' = disconnection c /\
      settled_by (map snd ((st, p) :: rest)) (completions es) (map snd (pipeline c')) ans fails /\
      (exists dropped, r :: rs = (map snd ans ++ dropped)%list /\ (dropped <> [] -> over = true)) /\
      (fails <> [] -> pipeline c' = [] /\ close c' = true) /\
      (close c = true -> close c' = true) /\ (over = true -> pipeline c' = [])).
  { intros c1 fl Hd1 Hdis1 Hcase.
    destruct (IH c1) as (c' & es & over & ans & fails & -> & Hd & Hdis & (Hids & Hdone) &
      (dropped & Hrs' & Hover) & Hfails & Hclose & Hov).
    assert (Hcomp : completions (e :: fl ++ es)%list
                    = ((p, Some r) :: completions fl ++ completions es)%list).
    { change (e :: fl ++ es)%list with ([e] ++ fl ++ es)%list. by rewrite !completions_app, Hce. }
    destruct Hcase as [(-> & Hpl & Hcl)|(Hfl & Hpl & Hcl)].
    - exists c', (e :: [] ++ es)%list, over, ((p, r) :: ans), fails.
      split; [done|]. split; [congruence|]. split; [congruence|]. split; [|split].
      + split; [|rewrite Hcomp; cbn; by rewrite Hdone]. rewrite Hcomp. cbn.
        rewrite <- Hids, Hpl. done.
      + exists dropped. split; [cbn; by rewrite <- Hrs'|done].
      + split; [done|]. split; [by rewrite <- Hcl|done].
    - rewrite Hpl in Hids. cbn in Hids. symmetry in Hids. apply app_eq_nil in Hids as [Hnil Hpl'].
      apply map_eq_nil in Hnil. rewrite Hnil in Hdone. symmetry in Hdone.
      apply app_eq_nil in Hdone as [Ha Hf]. apply map_eq_nil in Ha, Hf. subst ans fails.
      apply map_eq_nil in Hpl'. cbn in Hrs'. subst dropped.
      exists c', (e :: fl ++ es)%list, over, [(p, r)], (map snd rest).
      rewrite Hpl'. split; [done|]. split; [congruence|]. split; [congruence|]. split; [|split].
      + split; rewrite Hcomp, Hfl, Hnil; rewrite !app_nil_r; [|done]. cbn. by rewrite fst_failures.
      + exists rs. split; [done|exact Hover].
      + auto. }
  destruct (header_get "Connection" (res_headers r)) as [v|];
    [destruct (decide (v = "close")) as [->|Hv]|]; rewrite Hreply.
  - apply Hnext; [done|done|]. right. split; [apply completions_fail_all|done].
  - replace (match v with "close" => _ | _ => _ end)
      with (mkConnectionProcess (cdecoder c) rest (close c) (disconnection c), @nil effect)
      by (repeat (case_match; try done)).
    apply Hnext; auto.
  - apply Hnext; auto.
Qed.

(** The decoder may be used: it is not marked failed without the parser knowing it, unless
    no body is being written. *)
Definition usable (s : running StreamingResponseDecoder) : Prop :=
  coherent (decoder s) /\
  (errno s = false -> sr_failure (decoder s) = false \/ sr_writer (decoder s) = None).

Lemma disconnect_ok m c :
  usable (cdecoder c) ->
  exists c' es, disconnect m c = Returns (c', es) /\ usable (cdecoder c') /\
    pipeline c' = [] /\ disconnection c' = true /\ close c' = close c /\
    completions es = failures (map snd (pipeline c)) /\ has_recv es = false /\
    (errno (cdecoder c') = false -> sr_failure (decoder (cdecoder c')) = true ->
     errno (cdecoder c) = false /\ sr_failure (decoder (cdecoder c)) = true).
Proof.
  intros [Hd Hu]. unfold disconnect.
  assert (Hfin : completions (Shutdown :: fail_all (default "Disconnected" m) (pipeline c))
    = failures (map snd (pipeline c))) by apply completions_fail_all.
  assert (Hrec : has_recv (Shutdown :: fail_all (default "Disconnected" m) (pipeline c)) = false)
    by apply has_recv_fail_all.
  unfold sr_writingBody. case_bool_decide as Hw.
  - destruct (decode_coherent (cdecoder c) (eof (cdecoder c))) as (s' & out & -> & Hd' & _ & Hf');
      [done|apply eof_legal| |].
    { intros Herr. destruct (Hu Herr) as [?|Hx]; [done|]. rewrite Hx in Hw. by destruct Hw. }
    pose proof (eof_ends (cdecoder c)) as Hne.
    do 2 eexists. split; [done|]. split; [split; [done|]|].
    + intros Herr. destruct (Hf' Herr) as [?|[? _]]; [by left|done].
    + cbn. split_and!; try done. intros Herr Hff.
      destruct (Hf' Herr) as [?|[? _]]; [congruence|done].
  - do 2 eexists. split; [done|]. split; [by split|]. cbn. split_and!; done.
Qed.

(** A connection with the promises it gave out, how they were completed, in order, and the
    responses that were decoded. *)
Record world := mkWorld {
  conn : ConnectionProcess;
  reading : bool;
  issued : list nat;
  settled_ : list (nat * option Response);
  arrived : list Response;
}.
Definition world_init : world := mkWorld ConnectionProcess_init true [] [] [].

Inductive event :=
| ESend (r : Request) (streamed : bool) (p : nat)
| EDisconnect (message : option string)
| ERead (data : received).

(** The responses that [_read] decodes. *)
Definition decoded_by (data : received) (c : ConnectionProcess) : list Response :=
  let chunk := match data with Data ch => ch | NoData _ => eof (cdecoder c) end in
  match data with
  | Data _ =>
      if bool_decide (pipeline c = []) && negb (sr_writingBody (decoder (cdecoder c))) then []
      else match decode chunk (cdecoder c) with Returns (_, rs) => rs | Abort _ => [] end
  | NoData _ => match decode chunk (cdecoder c) with Returns (_, rs) => rs | Abort _ => [] end
  end.

Definition step (e : event) (w : world) : checked world :=
  match e with
  | ESend r streamed p =>
      let '(c, es, result) := send r streamed p (conn w) in
      Returns (mkWorld c (reading w)
                 (issued w ++ match result with Some_ p => [p] | Error _ => [] end)%list
                 (settled_ w) (arrived w))
  | EDisconnect m =>
      match disconnect m (conn w) with
      | Abort m => Abort m
      | Returns (c, es) =>
          Returns (mkWorld c (reading w) (issued w) (settled_ w ++ completions es)%list (arrived w))
      end
  | ERead data =>
      match _read data (conn w) with
      | Abort m => Abort m
      | Returns (c, es) =>
          Returns (mkWorld c (has_recv es) (issued w) (settled_ w ++ completions es)%list
                     (arrived w ++ decoded_by data (conn w))%list)
      end
  end.

(** Data arrives only for a pending [recv], and is parsed in order. *)
Definition enabled (e : event) (w : world) : Prop :=
  match e with
  | ERead (Data ch) => reading w = true /\ legal_chunk (cdecoder (conn w)) ch
  | ERead (NoData _) => reading w = true
  | _ => True
  end.

Inductive reachable : world -> Prop :=
| reachable_init : reachable world_init
| reachable_step w e w' : reachable w -> enabled e w -> step e w = Returns w' -> reachable w'.

(** No more requests are accepted. *)
Definition shut (c : ConnectionProcess) : Prop :=
  pipeline c = [] /\ (close c = true \/ disconnection c = true).

(** The part of the invariant about promises and responses, for the state [c] of the
    connection; [open_] tells whether responses may have been dropped. *)
Definition matched (c : ConnectionProcess) (open_ : Prop) (ids : list nat)
    (done : list (nat * option Response)) (rs : list Response) : Prop :=
  exists ans fails,
    settled_by ids done (map snd (pipeline c)) ans fails /\ (fails <> [] -> shut c) /\
    exists dropped, rs = (map snd ans ++ dropped)%list /\ (dropped <> [] -> open_).

Lemma matched_disconnect c ids done rs o m c' es :
  matched c o ids done rs -> usable (cdecoder c) -> disconnect m c = Returns (c', es) ->
  matched c' (disconnection c' = true) ids (done ++ completions es)%list rs.
Proof.
  intros (ans & fails & [Hids Hdone] & Hfails & dropped & Hrs & Hx) Hu He.
  destruct (disconnect_ok m c Hu) as (c1 & es1 & He1 & _ & Hp & Hd & _ & Hcomp & _).
  rewrite He in He1. injection He1 as <- <-.
  exists ans, (fails ++ map snd (pipeline c))%list. split; [|split].
  - rewrite Hcomp, Hp. split.
    + rewrite map_app, fst_failures, app_nil_r. exact Hids.
    + rewrite Hdone. unfold failures. by rewrite map_app, (assoc_L app).
  - intros _. split; [done|by right].
  - by exists dropped.
Qed.

Lemma matched_responses c c' es over ids done arrived_ rs :
  Forall piped rs -> process_responses rs c = Returns (c', es, over) ->
  (disconnection c = true -> pipeline c = []) ->
  matched c (disconnection c = true) ids done arrived_ ->
  matched c' (disconnection c' = true \/ over = true) ids (done ++ completions es)%list
    (arrived_ ++ rs)%list.
Proof.
  intros Hrs He Hdis (ans & fails & [Hids Hdone] & Hfails & dropped & Har & Hdrop).
  destruct (process_responses_ok rs c Hrs) as (c1 & es1 & over1 & ans2 & fails2 & He1 & Hd1 & Hdis1 &
    [Hids2 Hdone2] & (dropped2 & Hrs2 & Hover) & Hfails2 & Hclose & Hov).
  rewrite He in He1. injection He1 as <- <- <-.
  destruct (decide (fails = [] /\ dropped = [])) as [[-> ->]|Hne].
  - exists (ans ++ ans2)%list, fails2. split; [|split].
    + split; [by rewrite Hids, Hids2, map_app, (assoc_L app)|].
      rewrite Hdone, Hdone2. unfold answers. rewrite map_app. cbn. by rewrite app_nil_r, (assoc_L app).
    + intros Hf. destruct (Hfails2 Hf). split; auto.
    + exists dropped2. rewrite Har, app_nil_r, Hrs2, map_app, (assoc_L app). split; [done|auto].
  - assert (Hempty : pipeline c = []).
    { destruct fails; [|by apply Hfails]. destruct dropped; [by destruct Hne|by apply Hdis, Hdrop]. }
    rewrite Hempty in Hids2. cbn in Hids2. symmetry in Hids2.
    apply app_eq_nil in Hids2 as [Hnil Hp']. apply map_eq_nil in Hnil, Hp'.
    rewrite Hnil in Hdone2. symmetry in Hdone2. apply app_eq_nil in Hdone2 as [Ha2 _].
    apply map_eq_nil in Ha2. subst ans2. rewrite Hempty in Hids. cbn in Hids, Hrs2. subst dropped2.
    exists ans, fails. rewrite Hnil, app_nil_r. split; [|split].
    + rewrite Hp'. by split.
    + intros Hf. destruct (Hfails Hf) as [_ [Hc|Hc]]; (split; [done|]); [left|right]; auto. congruence.
    + exists (dropped ++ rs)%list. split; [by rewrite Har, (assoc_L app)|]. intros Hnn.
      destruct dropped as [|x dropped]; [right; by apply Hover|]. left. rewrite Hdis1. by apply Hdrop.
Qed.
Definition winv (w : world) : Prop :=
  usable (cdecoder (conn w)) /\
  (reading w = true -> errno (cdecoder (conn w)) = false ->
   sr_failure (decoder (cdecoder (conn w))) = false) /\
  (disconnection (conn w) = true -> pipeline (conn w) = []) /\
  matched (conn w) (disconnection (conn w) = true) (issued w) (settled_ w) (arrived w).

Lemma winv_init : winv world_init.
Proof.
  split; [split; [|by left]|].
  { split_and!; cbn; [by left|done|constructor]. }
  split; [done|]. split; [done|]. exists [], []. split; [done|]. split; [done|]. by exists [].
Qed.

Lemma winv_send w r st p : winv w -> exists w', step (ESend r st p) w = Returns w' /\ winv w'.
Proof.
  intros (Hu & Hrd & Hdis & ans & fails & [Hids Hdone] & Hfails & Hdrop). cbn [step].
  assert (Hcase : (exists m, send r st p (conn w) = (conn w, [], Error m)) \/
    (disconnection (conn w) = false /\ close (conn w) = false /\
     send r st p (conn w) =
       (mkConnectionProcess (cdecoder (conn w)) (pipeline (conn w) ++ [(st, p)])%list
          (negb (keepAlive r)) false, [ChainSend r], Some_ p))).
  { unfold send. destruct (disconnection (conn w)); [left; eauto|].
    destruct (close (conn w)); [left; eauto|]. cbn [orb].
    destruct (req_type r); eauto. destruct (req_reader r); [|left; eauto].
    destruct (String.eqb _ _); [|left; eauto]. destruct (header_get _ _); [left|right]; eauto. }
  destruct Hcase as [[m ->]|(Hd & Hc & ->)]; eexists; (split; [done|]).
  - rewrite app_nil_r. split_and!; try done. by exists ans, fails.
  - assert (Hnf : fails = []).
    { destruct fails; [done|]. destruct Hfails as [_ [?|?]]; [done|congruence|congruence]. }
    subst fails. split; [done|]. split; [done|]. split; [done|]. exists ans, []. cbn.
    split; [|split; [done|]].
    + split; [|done]. cbn. rewrite Hids, map_app. cbn. by rewrite <- (assoc_L app).
    + destruct Hdrop as (dropped & Ha & Hx). exists dropped. split; [done|]. intros Hne.
      specialize (Hx Hne). congruence.
Qed.

Lemma winv_disconnect w m : winv w -> exists w', step (EDisconnect m) w = Returns w' /\ winv w'.
Proof.
  intros (Hu & Hrd & Hdis & Hm). cbn [step].
  destruct (disconnect_ok m (conn w) Hu) as (c' & es & He & Hu' & Hp & Hd & Hcl & Hcomp & _ & Hff).
  pose proof (matched_disconnect _ _ _ _ _ _ _ _ Hm Hu He) as Hm'. rewrite He.
  eexists. split; [done|]. split; [done|]. cbn. split_and!; [|done|done].
  intros Hr Herr. destruct (sr_failure (decoder (cdecoder c'))) eqn:Hf; [|done].
  destruct (Hff Herr eq_refl) as [He1 He2]. rewrite (Hrd Hr He1) in He2. done.
Qed.

(** The state after a handler that ended with [disconnect], and then reads no more. *)
Lemma winv_left c es m c' es' ids done rs o :
  usable (cdecoder c) -> matched c o ids (done ++ completions es)%list rs -> has_recv es = false ->
  disconnect m c = Returns (c', es') ->
  winv (mkWorld c' (has_recv (es ++ es')%list) ids (done ++ completions (es ++ es')%list)%list rs).
Proof.
  intros Hu Hm Hes He. pose proof (matched_disconnect _ _ _ _ _ _ _ _ Hm Hu He) as Hm'.
  destruct (disconnect_ok m c Hu) as (c1 & es1 & He1 & Hu' & Hp & Hd & _ & _ & Hrec & _).
  rewrite He in He1. injection He1 as <- <-. split; [done|]. cbn. split_and!; [|done|].
  - unfold has_recv in *. rewrite existsb_app, Hes, Hrec. done.
  - rewrite completions_app, (assoc_L app). done.
Qed.

Lemma process_responses_no_recv rs c c' es over :
  process_responses rs c = Returns (c', es, over) -> has_recv es = false.
Proof.
  revert c es. induction rs as [|r rs IH]; intros c es He; [by injection He as <- <- <-|].
  cbn [process_responses] in He. destruct (pipeline c) as [|[st p] rest]; [by injection He as <- <- <-|].
  destruct (match header_get "Connection" (res_headers r) with Some "close" => _ | _ => _ end)
    as [c1 fl] eqn:Hfl.
  assert (Hf : has_recv fl = false).
  { revert Hfl. repeat (case_match; try (intros [= <- <-]; try done)); apply has_recv_fail_all. }
  destruct (if st then _ else _) as [e|] eqn:Hrep; [|done].
  assert (Hre : has_recv [e] = false).
  { destruct st; [by injection Hrep as <-|]. destruct (convert r); [by injection Hrep as <-|done]. }
  destruct (process_responses rs c1) as [[[c2 es2] over2]|] eqn:Hrec; [|done].
  injection He as <- <- <-. apply IH in Hrec. unfold has_recv in *.
  cbn in *. rewrite existsb_app, Hf, Hrec, !orb_false_r in *. done.
Qed.

Lemma winv_read w data :
  winv w -> enabled (ERead data) w -> exists w', step (ERead data) w = Returns w' /\ winv w'.
Proof.
  intros (Hu & Hrd & Hdis & Hm) Hen. cbn [step].
  set (chunk := match data with Data ch => ch | NoData _ => eof (cdecoder (conn w)) end).
  set (unexpected := match data with
    | Data _ => bool_decide (pipeline (conn w) = []) && negb (sr_writingBody (decoder (cdecoder (conn w))))
    | NoData _ => false end).
  assert (Hdb : decoded_by data (conn w) = if unexpected then [] else
    match decode chunk (cdecoder (conn w)) with Returns (_, rs) => rs | Abort _ => [] end)
    by (unfold unexpected, chunk; by destruct data).
  rewrite Hdb. unfold _read. fold unexpected. fold chunk.
  assert (Hread : reading w = true) by (destruct data; apply Hen).
  destruct unexpected eqn:Hun.
  { destruct (disconnect_ok (Some "Received data when none is expected") (conn w) Hu)
      as (c' & es & He & _). rewrite He, app_nil_r. eexists. split; [done|].
    eapply (winv_left (conn w) []); [exact Hu| |done|exact He].
    cbn. rewrite app_nil_r. exact Hm. }
  destruct Hu as [Hcoh Hu].
  destruct (decode_coherent (cdecoder (conn w)) chunk Hcoh) as (s' & rs & He & Hd' & Hpi & Hf');
    [destruct data; [apply Hen|apply eof_legal]|by apply Hrd|].
  rewrite He. set (c0 := mkConnectionProcess s' _ _ _).
  destruct (process_responses_ok rs c0 Hpi) as (c1 & es & over & ans & fails & Hpr & Hd1 & Hdis1 & _ &
    _ & _ & _ & Hov).
  pose proof (process_responses_no_recv _ _ _ _ _ Hpr) as Hnr.
  pose proof (matched_responses c0 c1 es over _ _ _ rs Hpi Hpr Hdis Hm) as Hm1. rewrite Hpr.
  assert (Hu1 : usable (cdecoder c1)).
  { rewrite Hd1. split; [done|]. cbn. intros Herr. destruct (Hf' Herr) as [?|[_ ?]]; auto. }
  assert (Hleave : forall m, exists w',
    match match disconnect m c1 with Abort m => Abort m
          | Returns (c, es') => Returns (c, (es ++ es')%list) end with
    | Abort m => Abort m
    | Returns (c, es) => Returns (mkWorld c (has_recv es) (issued w) (settled_ w ++ completions es)%list
                                    (arrived w ++ rs)%list)
    end = Returns w' /\ winv w').
  { intros m. destruct (disconnect_ok m c1 Hu1) as (c2 & es2 & He2 & _). rewrite He2.
    eexists. split; [done|]. by eapply winv_left. }
  destruct over; [apply Hleave|].
  destruct data as [ch|[|m|]]; [|apply Hleave|apply Hleave|apply Hleave].
  destruct (failed (decoder (cdecoder c1))) eqn:Hfl; [apply Hleave|].
  destruct (close c1 && _ && _); [apply Hleave|].
  eexists. split; [done|]. split; [done|]. cbn. split_and!.
  - intros _ _. exact Hfl.
  - rewrite Hdis1. intros Hdd. destruct Hm1 as (a & f & [Hi _] & _). clear -Hdis Hdd Hpr.
    cbn in Hdd. specialize (Hdis Hdd). revert Hpr. unfold c0. rewrite Hdis.
    destruct rs; cbn; [by intros [= <- _]|done].
  - rewrite completions_app. cbn. rewrite app_nil_r. destruct Hm1 as (a & f & Hs1 & Hs2 & dr & Hs3 & Hs4).
    exists a, f. split; [done|]. split; [done|]. exists dr. split; [done|]. intros Hne.
    by destruct (Hs4 Hne).
Qed.

Lemma reachable_winv w : reachable w -> winv w.
Proof.
  induction 1 as [|w e w' Hr IH Hen He]; [apply winv_init|].
  destruct e as [r st p|m|data].
  - destruct (winv_send w r st p IH) as (w1 & Hw1 & Hi). congruence.
  - destruct (winv_disconnect w m IH) as (w1 & Hw1 & Hi). congruence.
  - destruct (winv_read w data IH Hen) as (w1 & Hw1 & Hi). congruence.
Qed.

(** No [CHECK] of a client connection, of its decoder or of the conversion of responses
    fails, whatever is sent, whatever arrives and whenever it is disconnected, also when
    the server switches protocols. *)
Theorem connection_no_check_fails w e :
  reachable w -> enabled e w -> exists w', step e w = Returns w'.
Proof.
  intros Hr%reachable_winv Hen. destruct e as [r st p|m|data].
  - destruct (winv_send w r st p Hr) as (w' & Hw & _). eauto.
  - destruct (winv_disconnect w m Hr) as (w' & Hw & _). eauto.
  - destruct (winv_read w data Hr Hen) as (w' & Hw & _). eauto.
Qed.

(** Responses go to requests in order: the promises that [send] gave out are completed in
    that order, none twice; the first of them with the responses in the order of their
    arrival, the others with a failure, and then no request is accepted any more; once the
    connection is disconnected no promise is pending. *)
Theorem connection_answers_in_order w :
  reachable w ->
  exists ans fails,
    settled_ w = (map (fun x => (x.1, Some x.2)) ans ++ map (fun p => (p, None)) fails)%list /\
    issued w = (map fst ans ++ fails ++ map snd (pipeline (conn w)))%list /\
    map snd ans `prefix_of` arrived w /\
    (fails <> [] -> pipeline (conn w) = [] /\ forall r st p, exists m,
       send r st p (conn w) = (conn w, [], Error m)) /\
    (disconnection (conn w) = true -> pipeline (conn w) = []).
Proof.
  intros (Hu & Hrd & Hdis & ans & fails & [Hids Hdone] & Hfails & dropped & Har & Hdrop)%reachable_winv.
  exists ans, fails. split_and!; [done| |by exists dropped| |done].
  - rewrite Hids, Hdone, map_app, fst_answers, fst_failures. by rewrite (assoc_L app).
  - intros Hne. destruct (Hfails Hne) as [Hp Hc]. split; [done|]. intros r st p. unfold send.
    destruct (disconnection (conn w)); [eauto|]. destruct Hc as [->|?]; [eauto|done].
Qed.
End Spec.

(** ** Encoded requests *)

Definition written (rs : list Pipe.request) : string :=
  cat (omap (fun r => match r with Pipe.Write s => Some s | _ => None end) rs).

Lemma bytes_append s t : bytes_of (s +:+ t) = (bytes_of s ++ bytes_of t)%list.
Proof. apply chars_append. Qed.

Lemma bytes_crlf : bytes_of crlf = CRLF. Proof. done. Qed.

Lemma written_body pieces :
  Forall (fun s => s <> "") pieces ->
  bytes_of (written (encode_body (map IsReady pieces ++ [IsReady ""])%list))
  = (concat (map Encoders.chunk (map bytes_of pieces)) ++ last_chunk)%list.
Proof.
  induction 1 as [|s pieces Hs Hp IH]; [done|].
  destruct s as [|a s]; [done|]. set (t := String a s) in *.
  change (map IsReady (t :: pieces) ++ [IsReady ""])%list
    with (IsReady t :: (map IsReady pieces ++ [IsReady ""]))%list.
  set (rest := (map IsReady pieces ++ [IsReady ""])%list) in *.
  change (encode_body (IsReady t :: rest)) with
    ([Pipe.Write (string_of_list_ascii (hex (String.length t)) +:+ crlf +:+ t +:+ crlf)]
       ++ encode_body rest)%list.
  cbn [map concat]. unfold Encoders.chunk at 1.
  assert (Hw : forall x l, written ([Pipe.Write x] ++ l)%list = x +:+ written l) by done.
  rewrite Hw, !bytes_append, IH, !bytes_crlf. unfold bytes_of at 1.
  rewrite list_ascii_of_string_of_list_ascii.
  assert (Hlen : length (bytes_of t) = String.length t).
  { clear. unfold bytes_of. induction t as [|c t IH]; [done|]. cbn. by rewrite IH. }
  rewrite Hlen. by rewrite <- !(assoc_L app).
Qed.

Section EncodeSpec.
Context `{Stout}.

(** A request that [send] accepts is encoded without a failing [CHECK], if its URL names
    a host: the head is written, then a whole body and its end, or the pieces of a streamed
    body as chunks that decode to the pieces. *)
Theorem accepted_request_encoded r st p c c' es :
  send r st p c = (c', es, Some_ p) -> req_type r = BODY \/ req_type r = PIPE ->
  is_Some (domain (url r)) \/ is_Some (ip (url r)) ->
  exists head,
    encode_request r = Returns (Pipe.Write head ::
      match req_type r with PIPE => [] | _ => [Pipe.Write (req_body r); Pipe.CloseWriter] end) /\
    forall pieces, Forall (fun s => s <> "") pieces ->
      dechunk (S (length pieces))
        (bytes_of (written (encode_body (map IsReady pieces ++ [IsReady ""])%list)))
      = Some (concat (map bytes_of pieces)).
Proof.
  intros Hs Ht Hh.
  assert (Hhost : exists host, host_of (url r) = Returns host).
  { unfold host_of. destruct (domain (url r)); [eauto|]. destruct Hh as [[? ?]|[i ->]]; [done|eauto]. }
  destruct Hhost as [host Hhost]. unfold encode_request, encode_headers. rewrite Hhost.
  assert (Hdec : forall pieces, Forall (fun s => s <> "") pieces ->
    dechunk (S (length pieces))
      (bytes_of (written (encode_body (map IsReady pieces ++ [IsReady ""])%list)))
    = Some (concat (map bytes_of pieces))).
  { intros pieces Hp. rewrite written_body by done.
    rewrite <- (length_map bytes_of pieces). apply dechunk_chunks.
    apply Forall_map. eapply Forall_impl; [exact Hp|]. intros s Hne Hx. apply Hne. by destruct s. }
  destruct Ht as [Ht|Ht]; rewrite Ht in *.
  - eexists. split; [done|]. exact Hdec.
  - assert (Hpipe : is_Some (req_reader r) /\ req_body r = "" /\
      header_get "Content-Length" (req_headers r) = None).
    { revert Hs. unfold send. destruct (disconnection c); [done|]. destruct (close c); [done|].
      rewrite Ht. destruct (req_reader r); [|done].
      destruct (String.eqb_spec (req_body r) ""); [|done].
      destruct (header_get _ _); [done|]. eauto. }
    destruct Hpipe as ([x Hx] & Hb & Hcl).
    assert (Hcl' : header_get "Content-Length"
      (if keepAlive r then header_set "Host" (with_port (url r) host) (req_headers r)
       else header_set "Connection" "close" (header_set "Host" (with_port (url r) host) (req_headers r)))
      = None).
    { destruct (keepAlive r); by rewrite !header_get_set_ne. }
    rewrite Hcl', Hx, Hb. eexists. split; [done|]. exact Hdec.
Qed.
End EncodeSpec.

(** The theorems of [HttpConnectionSpec] at a concrete connection. *)

From S2P Require Import HttpTextWitness.
From S2P Require Import DecodersWitness.

Local Open Scope string_scope.
Local Open Scope nat_scope.

#[local] Existing Instance stout.

(** The end of the input is an error inside a message. *)
#[local] Instance at_eof : AtEof := {
  eof s := mkChunk [] (match phase_of (decoder s) with Between => Consumed | _ => Malformed end) true;
}.
#[local] Instance at_eof_laws : EofLaws.
Proof. split; intros s; [by right|]. simpl. by destruct (phase_of (decoder s)). Qed.

Definition a_request : Request :=
  mkRequest "GET" (mkURL (Some "http") (Some "example.com") None (Some 8000) "/a" ∅ None) ∅ true
    BODY "" None.
Definition streamed_request : Request :=
  mkRequest "POST" (mkURL (Some "http") (Some "example.com") None (Some 80) "/a" ∅ None) ∅ true
    PIPE "" (Some 5).

(** Two requests are sent and the connection is disconnected during the first response. *)
Definition two_sent : world :=
  mkWorld
    (mkConnectionProcess (cdecoder ConnectionProcess_init) [(true, 7); (false, 8)] false false)
    true [7; 8] [] [].
Definition first_part : Decoders.chunk := mkChunk (take 6 (message_callbacks ok_message)) Consumed true.

Lemma two_sent_reachable : reachable two_sent.
Proof.
  eapply (reachable_step (mkWorld (mkConnectionProcess (cdecoder ConnectionProcess_init) [(true, 7)]
                                     false false) true [7] [] []) (ESend a_request false 8));
    [|done|vm_compute; reflexivity].
  eapply (reachable_step world_init (ESend a_request true 7));
    [constructor|done|vm_compute; reflexivity].
Qed.

Lemma connection_no_check_fails_witness :
  exists w, step (ERead (Data first_part)) two_sent = Returns w.
Proof.
  apply (connection_no_check_fails two_sent (ERead (Data first_part)) two_sent_reachable).
  split; [done|]. right. by vm_compute.
Defined.

Definition the_response : Response :=
  mkResponse "200 OK" 200 {[ "content-type" := ("Content-Type", "text") ]} PIPE "" "" (Some 0).

Definition disconnected_world : world :=
  match step (ERead (Data first_part)) two_sent with
  | Returns w => match step (EDisconnect None) w with Returns w => w | Abort _ => w end
  | Abort _ => two_sent
  end.

Lemma disconnected_reachable : reachable disconnected_world.
Proof.
  destruct (step (ERead (Data first_part)) two_sent) as [w|m] eqn:Hw;
    [|apply (f_equal (fun x => match x with Abort _ => true | _ => false end)) in Hw;
      vm_compute in Hw; discriminate].
  assert (Hr : reachable w).
  { eapply (reachable_step two_sent); [apply two_sent_reachable| |exact Hw].
    split; [done|]. right. by vm_compute. }
  unfold disconnected_world. rewrite Hw.
  destruct (step (EDisconnect None) w) as [w'|] eqn:Hw'; [|done].
  by eapply (reachable_step w (EDisconnect None)).
Qed.

Lemma connection_answers_in_order_witness :
  settled_ disconnected_world = [(7, Some the_response); (8, None)] /\
  exists ans fails,
    settled_ disconnected_world
      = (map (fun x => (x.1, Some x.2)) ans ++ map (fun p => (p, None)) fails)%list /\
    issued disconnected_world
      = (map fst ans ++ fails ++ map snd (pipeline (conn disconnected_world)))%list /\
    map snd ans `prefix_of` arrived disconnected_world /\
    (fails <> [] -> pipeline (conn disconnected_world) = [] /\ forall r st p, exists m,
       send r st p (conn disconnected_world) = (conn disconnected_world, [], Error m)) /\
    (disconnection (conn disconnected_world) = true -> pipeline (conn disconnected_world) = []).
Proof.
  split; [vm_compute; reflexivity|].
  apply (connection_answers_in_order disconnected_world disconnected_reachable).
Defined.

Lemma accepted_request_encoded_witness :
  exists head,
    encode_request streamed_request = Returns [Pipe.Write head] /\
    forall pieces, Forall (fun s => s <> "") pieces ->
      dechunk (S (length pieces))
        (bytes_of (written (encode_body (map IsReady pieces ++ [IsReady ""])%list)))
      = Some (concat (map bytes_of pieces)).
Proof.
  eapply (accepted_request_encoded streamed_request true 7 ConnectionProcess_init).
  - vm_compute. reflexivity.
  - by right.
  - left. by eexists.
Defined.
