(* ===== verification/Routing.v ===== *)
(** From a request to the handler that answers it: [ProcessManager::handle], [parse] and
    the consumption of HTTP events in [process.cpp], routes and assets of [process.hpp],
    the firewall of [firewall.hpp], the authenticators of [authenticator_manager.cpp].

    Which processes run may change between two looks at them, so it is an argument of each
    look.  Paths of the file system are handled by stout; its functions are the class
    [PathOps].  The sequence that orders the futures of several requests only delays them,
    so authentication and authorization are given by how they complete. *)

From Stdlib Require Import Ascii String.
From stdpp Require Import pretty.
From S2P Require Import Prelude HttpCodec HttpText Decoders HttpConnection.

Local Open Scope string_scope.
Local Open Scope nat_scope.

(** ** Responses *)

Definition Response_of_code (c : nat) : Response :=
  mkResponse (Status_string c) c ∅ NONE "" "" None.
Definition Response_of_body (body : string) (c : nat) : Response :=
  mkResponse (Status_string c) c
    (header_set "Content-Type" "text/plain; charset=utf-8"
       (header_set "Content-Length" (pretty (String.length body)) ∅)) BODY body "" None.

Definition Accepted : Response := Response_of_code 202.
Definition BadRequest (body : string) : Response := Response_of_body body 400.
Definition Forbidden (body : string) : Response := Response_of_body body 403.
Definition NotFound : Response := Response_of_body "404 Not Found." 404.
Definition InternalServerError (body : string) : Response := Response_of_body body 500.

(** ** Firewall *)

(** A rule rejects a request with a response, or lets it pass. *)
Definition FirewallRule : Type := Request -> option Response.

Definition DisabledEndpoints (paths : gset string) : FirewallRule := fun r =>
  if decide (url_path (url r) ∈ paths)
  then Some (Forbidden ("Endpoint '" +:+ url_path (url r) +:+ "' is disabled"))
  else None.

Fixpoint apply_rules (rules : list FirewallRule) (r : Request) : option Response :=
  match rules with
  | [] => None
  | rule :: rules => match rule r with Some x => Some x | None => apply_rules rules r end
  end.

(** ** [ProcessManager::handle] *)

Inductive action :=
| Enqueue (x : Response) (r : Request)
| Handle (r : Request)
| DeliverHttp (receiver : string) (r : Request)
| ParseMessage (r : Request).

Definition starts_with_slash (s : string) : bool :=
  match s with String "/" _ => true | _ => false end.
Definition contains (p s : string) : bool :=
  match index 0 p s with Some _ => true | None => false end.
Definition header_has (k : string) (h : Headers) : bool :=
  match header_get k h with Some _ => true | None => false end.

(** [libprocess]. *)
Definition libprocess (r : Request) : bool :=
  (String.eqb (method r) "POST" &&
   match header_get "User-Agent" (req_headers r) with
   | Some a => String.prefix "libprocess/" a
   | None => false
   end) ||
  (String.eqb (method r) "POST" && header_has "Libprocess-From" (req_headers r)).

Definition set_path (p : string) (r : Request) : Request :=
  set_req_url (mkURL (scheme (url r)) (domain (url r)) (ip (url r)) (port (url r)) p
                 (url_query (url r)) (fragment (url r))) r.

Section Routing.
Context `{Stout}.

(** [use1] and [use2]: the process of an identifier is found; the empty [UPID] has none. *)
Definition found (use : string -> bool) (receiver : option string) : bool :=
  match receiver with Some id => use id | None => false end.

(** The end of [handle]: the firewall, and the second look for the receiver. *)
Definition admit_request (rules : list FirewallRule) (use2 : string -> bool) (r : Request)
    (receiver : option string) : list action :=
  match apply_rules rules r with
  | Some x => [Enqueue x r]
  | None =>
      match receiver with
      | Some id => if use2 id then [Handle r; DeliverHttp id r] else [Enqueue NotFound r]
      | None => [Enqueue NotFound r]
      end
  end.

Definition handle (delegate : option string) (rules : list FirewallRule)
    (use1 use2 : string -> bool) (r : Request) : list action :=
  if negb (starts_with_slash (url_path (url r))) then
    [Enqueue (BadRequest "Request URL path must start with '/'") r]
  else if libprocess r then [ParseMessage r]
  else if contains "/.." (url_path (url r)) then [Enqueue NotFound r]
  else
    let '(r, receiver) :=
      match tokenize (url_path (url r)) "/", delegate with
      | [], Some d => (set_path ("/" +:+ d) r, Some d)
      | [], None => (r, None)
      | t :: _, _ =>
          match HttpCodec.decode t with
          | Some_ id => (r, Some id)
          | Error _ => (r, None)
          end
      end in
    let '(r, receiver) :=
      match delegate with
      | Some d =>
          if found use1 receiver then (r, receiver)
          else (set_path ("/" +:+ d +:+ url_path (url r)) r, Some d)
      | None => (r, receiver)
      end in
    admit_request rules use2 r receiver.

(** ** Messages of libprocess *)

Record message := mkMessage {
  m_name : string;
  m_from : string;
  m_to : string;
  m_body : string;
}.

(** [strings::WHITESPACE]. *)
Definition WHITESPACE : string :=
  string_of_list_ascii [" "; "009"; "010"; "013"]%char.

(** [parse], once the body was read: name, sender and receiver. *)
Definition parse (r : Request) (body : string) : checked (Try message) :=
  let from :=
    match header_get "Libprocess-From" (req_headers r) with
    | Some f => Returns (Some (trim f WHITESPACE))
    | None =>
        match header_get "User-Agent" (req_headers r) with
        | None => Abort "headers.at(User-Agent)"
        | Some agent =>
            Returns (match index 0 "libprocess/" agent with
                     | Some i => Some (substr (i + 11) agent)
                     | None => None
                     end)
        end
    end in
  match from with
  | Abort m => Abort m
  | Returns None => Returns (Error "Failed to determine sender from request headers")
  | Returns (Some from) =>
      let path := url_path (url r) in
      match path with
      | String "/" rest =>
          let '(to, name) :=
            match index 0 "/" rest with
            | Some i => (substring 0 i rest, substr (S i) rest)
            | None => (rest, "")
            end in
          match HttpCodec.decode to with
          | Error m => Returns (Error ("Failed to decode URL path: " +:+ m))
          | Some_ to =>
              match req_reader r with
              | None => Abort "CHECK_SOME(request.reader)"
              | Some _ => Returns (Some_ (mkMessage name from to body))
              end
          end
      | _ => Returns (Error "Request URL path must start with '/'")
      end
  end.

(** The continuation of [parse] in [handle].  [require_match]: the flag
    [require_peer_address_ip_match]; [client]: the address of the peer; [matches]: it is an
    IP address and that of the sender; [accepted]: what [deliver] returns. *)
Inductive message_action := DeliverMessage (m : message).

Definition handle_message (require_match : bool) (client : option string)
    (matches accepted : bool) (parsed : completion message)
    : checked (list message_action * Response) :=
  match parsed with
  | IsFailed m => Returns ([], InternalServerError m)
  | IsDiscarded => Returns ([], InternalServerError "discarded future")
  | IsReady m =>
      let deliver := ([DeliverMessage m], if accepted then Accepted else NotFound) in
      if require_match then
        match client with
        | None => Abort "CHECK_SOME(request->client)"
        | Some c =>
            if negb matches then
              Returns ([], BadRequest ("UPID IP address validation failed: Message from " +:+
                                       m_from m +:+ " was sent from IP " +:+ c))
            else Returns deliver
        end
      else Returns deliver
  end.
End Routing.

(** ** Endpoints of a process *)

(** A handler is known by a number; [httpSequence]: the sequence has been created. *)
Record HttpEndpoint := mkEndpoint {
  handler : nat;
  realm : option string;
  requestStreaming : bool;
}.
Record Asset := mkAsset { asset_path : string; types : gmap string string }.

Record Process := mkProcess {
  pid_id : string;
  http : gmap string HttpEndpoint;
  assets : gmap string Asset;
  httpSequence : bool;
}.

(** [s.substr(1)]. *)
Definition tail (s : string) : string := match s with "" => "" | String _ s => s end.
Definition last_char_is_slash (s : string) : bool :=
  String.eqb (substr (String.length s - 1) s) "/".

Definition route (name : string) (e : HttpEndpoint) (p : Process) : checked Process :=
  if negb (starts_with_slash name) then Abort "CHECK(name.find('/') == 0)"
  else if negb (Nat.eqb (String.length name) 1) && last_char_is_slash name then
    Abort "Routes must not end with '/'"
  else Returns (mkProcess (pid_id p) (<[tail name := e]> (http p)) (assets p) (httpSequence p)).

Definition provide (name path : string) (ts : gmap string string) (p : Process) : Process :=
  mkProcess (pid_id p) (http p) (<[name := mkAsset path ts]> (assets p)) (httpSequence p).

(** [Path(...).dirname()], [extension()] and [path::join]. *)
Class PathOps := {
  dirname : string -> string;
  extension : string -> option string;
  path_join : string -> string -> string;
}.

(** What [consume(HttpEvent)] does with the response. *)
Inductive consumed :=
| Endpoint (name : string) (e : HttpEndpoint) (convert_first : bool)
| AssetResponse (x : Response)
| NoSuchEndpoint (x : Response).

Section Consume.
Context `{Stout, PathOps}.

(** The loop over the prefixes of the name. *)
Fixpoint find_endpoint (fuel : nat) (handlers : gmap string HttpEndpoint) (name : string)
    : option (string * HttpEndpoint) :=
  match fuel with
  | O => None
  | S fuel =>
      if String.eqb (dirname name) name then None
      else match handlers !! name with
           | Some e => Some (name, e)
           | None => find_endpoint fuel handlers (dirname name)
           end
  end.

(** The path without the identifier and without slashes at its ends. *)
Definition endpoint_name (path token : string) : string :=
  trim_suffix (trim_prefix (remove_prefix path ("/" +:+ token)) "/") "/".

(** [convert] of the request: its checks. *)
Definition convert_request (r : Request) : checked (string -> Request) :=
  match req_type r, req_reader r with
  | PIPE, Some _ =>
      if String.eqb (req_body r) "" then
        Returns (fun body => mkRequest (method r) (url r) (req_headers r) (keepAlive r) BODY body None)
      else Abort "CHECK(pipeRequest->body.empty())"
  | PIPE, None => Abort "CHECK_SOME(pipeRequest->reader)"
  | _, _ => Abort "CHECK_EQ(Request::PIPE, pipeRequest->type)"
  end.

Definition asset_response (a : Asset) (rest : list string) : Response :=
  let path := foldl (fun p t => p +:+ "/" +:+ t) (asset_path a) rest in
  let h := match extension path with
           | Some e => match types a !! e with
                       | Some t => header_set "Content-Type" t ∅
                       | None => ∅
                       end
           | None => ∅
           end in
  mkResponse (Status_string 200) 200 h PATH "" path None.

Definition consume (p : Process) (r : Request) : checked (Process * consumed) :=
  let p := mkProcess (pid_id p) (http p) (assets p) true in
  let path := url_path (url r) in
  if negb (starts_with_slash path) then Abort "CHECK(path.find('/') == 0)"
  else
    match tokenize path "/" with
    | [] => Abort "CHECK(!tokens.empty())"
    | t :: rest =>
        match HttpCodec.decode t with
        | Error _ => Abort "http::decode(tokens[0]).get()"
        | Some_ id =>
            if negb (String.eqb (pid_id p) id) then Abort "CHECK_EQ(pid.id, id)"
            else
              let name := endpoint_name path t in
              match find_endpoint (String.length name + 2) (http p) name with
              | Some (name, e) =>
                  if requestStreaming e then Returns (p, Endpoint name e false)
                  else match convert_request r with
                       | Returns _ => Returns (p, Endpoint name e true)
                       | Abort m => Abort m
                       end
              | None =>
                  match req_reader r with
                  | None => Abort "CHECK_SOME(event.request->reader)"
                  | Some _ =>
                      match assets p !! (match rest with n :: _ => n | [] => "" end) with
                      | Some a => Returns (p, AssetResponse (asset_response a (List.tl rest)))
                      | None => Returns (p, NoSuchEndpoint NotFound)
                      end
                  end
              end
        end
    end.
End Consume.

(** ** Authentication and authorization *)

Record Principal := mkPrincipal {
  principal_value : option string;
  claims : gmap string string;
}.

Record AuthenticationResult := mkAuthentication {
  principal : option Principal;
  unauthorized : option Response;
  forbidden : option Response;
}.

Definition is_set {A} (o : option A) : nat := match o with Some _ => 1 | None => 0 end.

(** [AuthenticatorManagerProcess]: the authenticators of the realms. *)
Definition Authenticators : Type := gmap string (Request -> completion AuthenticationResult).
Definition setAuthenticator (realm : string) (a : Request -> completion AuthenticationResult)
    (m : Authenticators) : Authenticators := <[realm := a]> m.
Definition unsetAuthenticator (realm : string) (m : Authenticators) : Authenticators :=
  delete realm m.

(** [Future::then] on a completed future. *)
Definition and_then {A B} (x : completion A) (f : A -> completion B) : completion B :=
  match x with
  | IsReady a => f a
  | IsFailed m => IsFailed m
  | IsDiscarded => IsDiscarded
  end.

Definition authenticate (m : Authenticators) (r : Request) (realm : string)
    : completion (option AuthenticationResult) :=
  match m !! realm with
  | None => IsReady None
  | Some a => and_then (a r) (fun x =>
      if Nat.eqb (is_set (principal x) + is_set (unauthorized x) + is_set (forbidden x)) 1
      then
        match principal x with
        | Some (mkPrincipal None cs) =>
            if decide (cs = ∅)
            then IsFailed "In the principal returned by an HTTP authenticator, at least one of 'value' and 'claims' must be set"
            else IsReady (Some x)
        | _ => IsReady (Some x)
        end
      else IsFailed "HTTP authenticators must return only one of an authenticated principal, an Unauthorized response, or a Forbidden response")
  end.

(** How the request of an endpoint is served. *)
Inductive served :=
| Respond (x : Response)
| Invoke (handler : nat) (with_principal : option (option Principal)).

Section Serve.
Context `{PathOps}.

(** [AuthorizationCallbacks] by path, [None] when none are installed. *)
Definition AuthorizationCallbacks : Type :=
  option (gmap string (Request -> option Principal -> completion bool)).

(** [_consume] after authentication. *)
Definition authorize (callbacks : AuthorizationCallbacks) (p : Process) (e : HttpEndpoint)
    (name : string) (r : Request) (principal : option Principal) : completion served :=
  let authorization :=
    match callbacks with
    | None => IsReady true
    | Some cs =>
        match cs !! path_join ("/" +:+ pid_id p) name with
        | Some f => f r principal
        | None => IsReady true
        end
    end in
  and_then authorization (fun ok =>
    IsReady (if ok : bool then
      Invoke (handler e) (match realm e with None => None | Some _ => Some principal end)
    else Respond (Forbidden "403 Forbidden."))).

Definition _consume (m : Authenticators) (callbacks : AuthorizationCallbacks)
    (p : Process) (e : HttpEndpoint) (name : string) (r : Request)
    : checked (completion served) :=
  let authentication :=
    match realm e with Some x => authenticate m r x | None => IsReady None end in
  if negb (httpSequence p) then Abort "CHECK(handlers.httpSequence.get() != nullptr)"
  else
    match authentication with
    | IsFailed f => Returns (IsFailed f)
    | IsDiscarded => Returns IsDiscarded
    | IsReady None => Returns (authorize callbacks p e name r None)
    | IsReady (Some a) =>
        match unauthorized a, forbidden a with
        | Some x, _ => Returns (IsReady (Respond x))
        | None, Some x => Returns (IsReady (Respond x))
        | None, None =>
            match principal a with
            | None => Abort "CHECK_SOME(authentication->principal)"
            | Some who => Returns (authorize callbacks p e name r (Some who))
            end
        end
    end.
End Serve.
