(* ===== verification/RoutingSpec.v ===== *)
(** Properties of the routing of requests: what is delivered can be consumed, the longest
    registered prefix of a path answers, protected endpoints are reached only by
    authenticated and authorized requests, and how the firewall is passed. *)

From Stdlib Require Import Ascii String.
From S2P Require Import Prelude HttpCodec HttpText HttpTextSpec Encoders Decoders HttpConnection.
From S2P Require Import Routing.

Local Open Scope string_scope.
Local Open Scope nat_scope.

(** [Path::dirname] on names made of plain segments. *)
Definition plain (s : string) : Prop := s <> "" /\ mem "/" s = false.
Class PathLaws `{PathOps} := {
  dirname_nested segs s :
    segs <> [] -> Forall plain segs -> plain s ->
    dirname (joined "/" (segs ++ [s])%list) = joined "/" segs;
  dirname_flat s : mem "/" s = false -> dirname s = ".";
}.

(** A process identifier that needs no escaping. *)
Definition clean (id : string) : Prop := plain id /\ HttpCodec.decode id = Some_ id.

(** A request as the decoder of a connection makes it. *)
Definition streamed (r : Request) : Prop :=
  req_type r = PIPE /\ is_Some (req_reader r) /\ req_body r = "".

Lemma occurs_in_slash s : mem "/" s = false -> occurs_in "/" s = false.
Proof.
  intros Hm. apply occurs_in_false. intros c Hc. unfold mem in Hc. simpl in Hc.
  rewrite orb_false_r in Hc. by apply Ascii.eqb_eq in Hc as ->.
Qed.

Section Spec.
Context `{StoutLaws, PathLaws}.

(** ** Delivered requests *)

(** The process once it has consumed a request. *)
Definition sequenced (p : Process) : Process := mkProcess (pid_id p) (http p) (assets p) true.

(** The checks of [consume] hold when the path names the process. *)
Lemma consume_ok p r t rest :
  streamed r -> starts_with_slash (url_path (url r)) = true ->
  tokenize (url_path (url r)) "/" = t :: rest -> HttpCodec.decode t = Some_ (pid_id p) ->
  exists c, consume p r = Returns (sequenced p, c).
Proof.
  intros (Ht & [x Hx] & Hb) Hs Htok Hd. unfold consume. rewrite Hs, Htok, Hd.
  cbn [negb pid_id http assets]. rewrite String.eqb_refl. cbn [negb]. destruct (find_endpoint _ _ _) as [[n e]|].
  - destruct (requestStreaming e); [eauto|]. unfold convert_request.
    rewrite Ht, Hx, Hb. cbn. eauto.
  - rewrite Hx. destruct (assets p !! _); eauto.
Qed.

Lemma tokenize_delegate d path :
  plain d -> path = "" \/ starts_with_slash path = true ->
  tokenize ("/" +:+ d +:+ path) "/" = d :: tokenize path "/".
Proof.
  intros [Hd Hm] Hp. change ("/" +:+ d +:+ path) with (String "/" d +:+ path).
  apply tokenize_first; [done|done|by apply occurs_in_slash|].
  destruct Hp as [->|Hp]; [by left|]. right. destruct path as [|c path]; [done|].
  exists c, path. split; [done|]. cbn in Hp. repeat (case_match; try done).
Qed.

Lemma tokenize_id d : plain d -> tokenize ("/" +:+ d) "/" = d :: tokenize "" "/".
Proof.
  intros Hd. rewrite <- (append_nil_r d) at 1. apply tokenize_delegate; [done|by left].
Qed.

(** What a delivery says about the request. *)
Lemma deliver_cases delegate rules use1 use2 r id r' :
  DeliverHttp id r' ∈ handle delegate rules use1 use2 r ->
  starts_with_slash (url_path (url r)) = true /\ contains "/.." (url_path (url r)) = false /\
  apply_rules rules r' = None /\ use2 id = true /\
  ((r' = r /\ exists t rest, tokenize (url_path (url r)) "/" = t :: rest /\
      HttpCodec.decode t = Some_ id) \/
   (delegate = Some id /\
    (r' = set_path ("/" +:+ id) r \/ r' = set_path ("/" +:+ id +:+ url_path (url r)) r \/
     r' = set_path ("/" +:+ id +:+ url_path (url (set_path ("/" +:+ id) r))) (set_path ("/" +:+ id) r)))).
Proof.
  unfold handle. destruct (starts_with_slash _); [|set_solver].
  destruct (libprocess r); [set_solver|]. destruct (contains _ _); [set_solver|]. cbn [negb].
  intros Hin. split; [done|]. split; [done|].
  assert (Hfin : forall rr rcv, DeliverHttp id r' ∈ admit_request rules use2 rr rcv ->
    r' = rr /\ rcv = Some id /\ apply_rules rules rr = None /\ use2 id = true).
  { intros rr rcv Hx. unfold admit_request in Hx. destruct (apply_rules rules rr) eqn:Ha; [set_solver|].
    destruct rcv as [i|]; [|set_solver]. destruct (use2 i) eqn:Hu; [|set_solver].
    apply elem_of_cons in Hx as [|Hx]; [done|]. apply list_elem_of_singleton in Hx as [= <- <-]. auto. }
  destruct (tokenize _ "/") as [|t rest] eqn:Htok; destruct delegate as [d|].
  - destruct (found use1 (Some d)); apply Hfin in Hin as (-> & [= ->] & Ha & Hu);
      (split; [done|]; split; [done|]); right; (split; [done|]); auto.
  - apply Hfin in Hin as (_ & ? & _); done.
  - destruct (HttpCodec.decode t) as [i|] eqn:Hd.
    + destruct (found use1 (Some i)); apply Hfin in Hin as (-> & [= ->] & Ha & Hu);
        (split; [done|]; split; [done|]); [left; eauto|right; auto].
    + cbn [found] in Hin. apply Hfin in Hin as (-> & [= ->] & Ha & Hu).
      split; [done|]. split; [done|]. right. auto.
  - destruct (HttpCodec.decode t) as [i|] eqn:Hd; apply Hfin in Hin as (-> & Hi & Ha & Hu); [|done].
    injection Hi as ->. split; [done|]. split; [done|]. left. eauto.
Qed.

(** The checks of [_consume] hold once the process has its sequence. *)
Lemma _consume_ok m callbacks p e name r :
  httpSequence p = true -> exists s, _consume m callbacks p e name r = Returns s.
Proof.
  intros Hq. unfold _consume. rewrite Hq. cbn [negb].
  destruct (realm e) as [x|]; [|eauto]. unfold authenticate.
  destruct (m !! x) as [a|]; [|eauto]. destruct (a r) as [[pr un fo]| |]; cbn; [|eauto..].
  destruct pr as [[v c]|], un, fo; cbn; try (by eauto).
  destruct v; cbn; [eauto|]. destruct (decide (c = ∅)); cbn; eauto.
Qed.

(** A request that the process manager delivers has passed the firewall, asks for no
    parent directory, and goes to a process that was found; and the process that receives
    it consumes it without a failing [CHECK], also when it was delegated, as it does serve
    the endpoint that it finds, whatever authenticators and callbacks are installed. *)
Theorem delivered_requests_consumed delegate rules use1 use2 r id r' p :
  streamed r -> (forall d, delegate = Some d -> clean d) ->
  DeliverHttp id r' ∈ handle delegate rules use1 use2 r -> pid_id p = id ->
  apply_rules rules r' = None /\ contains "/.." (url_path (url r)) = false /\ use2 id = true /\
  exists p' c, consume p r' = Returns (p', c) /\
    forall name e b m callbacks x, c = Endpoint name e b ->
      exists s, _consume m callbacks p' e name x = Returns s.
Proof.
  intros Hs Hdel Hin <-. apply deliver_cases in Hin as (Hsl & Hrel & Hrules & Huse & Hcase).
  split_and!; try done. exists (sequenced p).
  enough (exists c, consume p r' = Returns (sequenced p, c)) as [c Hc].
  { exists c. split; [done|]. intros. by apply _consume_ok. }
  destruct Hcase as [(-> & t & rest & Htok & Hd)|[Hdg Hr']].
  { by eapply consume_ok. }
  destruct (Hdel _ Hdg) as [Hplain Hdec]. pose proof Hplain as [Hne _].
  assert (Hself : starts_with_slash ("/" +:+ pid_id p) = true) by done.
  destruct Hr' as [->|[->| ->]]; eapply consume_ok; try done; cbn [url url_path set_path set_req_url].
  - by apply tokenize_id.
  - apply tokenize_delegate; [done|by right].
  - apply tokenize_delegate; [done|by right].
Qed.

(** ** Prefixes *)

Lemma joined_snoc segs s :
  segs <> [] -> joined "/" (segs ++ [s])%list = joined "/" segs +:+ "/" +:+ s.
Proof.
  induction segs as [|x segs IH]; [done|]. intros _. destruct segs as [|y segs]; [done|].
  change (joined "/" ((x :: y :: segs) ++ [s])%list) with (x +:+ "/" +:+ joined "/" ((y :: segs) ++ [s])%list).
  rewrite IH by done.
  change (joined "/" (x :: y :: segs)) with (x +:+ "/" +:+ joined "/" (y :: segs)).
  by rewrite !append_assoc.
Qed.

Lemma joined_length segs : Forall plain segs -> length segs <= String.length (joined "/" segs).
Proof.
  induction 1 as [|s segs [Hs _] Hsegs IH]; [done|].
  assert (1 <= String.length s) by (destruct s; [done|simpl; lia]).
  destruct segs as [|t segs]; [simpl; lia|].
  change (joined "/" (s :: t :: segs)) with (s +:+ "/" +:+ joined "/" (t :: segs)).
  rewrite !length_append. change (String.length "/") with 1. cbn [length] in *. lia.
Qed.

Lemma joined_ne_shorter segs s :
  segs <> [] -> plain s -> joined "/" segs <> joined "/" (segs ++ [s])%list.
Proof.
  intros Hne _ He. apply (f_equal String.length) in He.
  rewrite joined_snoc, !length_append in He by done. simpl in He. lia.
Qed.

(** The registered name that answers: the longest prefix of the segments. *)
Definition longest (handlers : gmap string HttpEndpoint) (segs : list string) (n : string)
    (e : HttpEndpoint) : Prop :=
  exists k, 1 <= k <= length segs /\ n = joined "/" (take k segs) /\ handlers !! n = Some e /\
    forall j, k < j <= length segs -> handlers !! joined "/" (take j segs) = None.

Lemma find_endpoint_longest handlers segs fuel n e :
  segs <> [] -> Forall plain segs -> segs !! 0 <> Some "." -> length segs < fuel ->
  find_endpoint fuel handlers (joined "/" segs) = Some (n, e) <-> longest handlers segs n e.
Proof.
  revert fuel. induction segs as [|s segs IH] using rev_ind; intros fuel Hne Hpl Hdot Hf; [done|].
  apply Forall_app in Hpl as [Hpl Hs]. apply (proj1 (Forall_singleton _ _)) in Hs.
  rewrite length_app in Hf. simpl in Hf. destruct fuel as [|fuel]; [lia|]. cbn [find_endpoint].
  assert (Hall : take (length (segs ++ [s])) (segs ++ [s])%list = (segs ++ [s])%list)
    by (apply take_ge; lia).
  assert (Hshort : forall k, k <= length segs -> take k (segs ++ [s])%list = take k segs)
    by (intros k Hk; by rewrite take_app_le).
  assert (Hhere : forall x, handlers !! joined "/" (segs ++ [s])%list = Some x ->
    (Some (joined "/" (segs ++ [s])%list, x) = Some (n, e) <-> longest handlers (segs ++ [s])%list n e)).
  { intros x Hx. split.
    - intros [= <- <-]. exists (length (segs ++ [s])%list). rewrite Hall, length_app. simpl.
      split_and!; [lia|lia|done|done|]. intros j. lia.
    - intros (k & Hk & -> & Hl & Hmore). rewrite length_app in *. simpl in *.
      destruct (decide (k = length segs + 1)) as [->|Hkk].
      + rewrite Hall in *. congruence.
      + rewrite <- Hall in Hx. rewrite Hmore in Hx by lia. done. }
  destruct (decide (segs = [])) as [->|Hsegs].
  - simpl in *. rewrite (dirname_flat s) by apply Hs.
    destruct (String.eqb_spec "." s) as [<-|_]; [done|].
    destruct (handlers !! s) as [x|] eqn:Hx; [by apply Hhere|].
    destruct fuel as [|fuel]; [lia|]. cbn [find_endpoint]. rewrite (dirname_flat ".") by done.
    rewrite String.eqb_refl. split; [done|]. intros (k & Hk & -> & Hl & _). simpl in *.
    destruct k as [|[|k]]; [lia| |lia]. simpl in Hl. congruence.
  - rewrite dirname_nested by done.
    destruct (String.eqb_spec (joined "/" segs) (joined "/" (segs ++ [s])%list)) as [He|_].
    { by destruct (joined_ne_shorter segs s Hsegs Hs). }
    destruct (handlers !! _) as [x|] eqn:Hx; [by apply Hhere|].
    rewrite IH; [|done|done| |lia].
    2: { by rewrite lookup_app_l in Hdot by (destruct segs; [done|simpl; lia]). }
    split; intros (k & Hk & -> & Hl & Hmore); exists k.
    + rewrite Hshort by lia. rewrite length_app. simpl. split_and!; [lia|lia|done|done|].
      intros j Hj. destruct (decide (j = length segs + 1)) as [->|Hjj].
      * rewrite length_app in Hall. simpl in Hall. by rewrite Hall.
      * rewrite Hshort by lia. apply Hmore. lia.
    + rewrite length_app in *. simpl in *. destruct (decide (k = length segs + 1)) as [->|Hkk].
      { rewrite Hall in Hl. congruence. }
      rewrite Hshort in * by lia. split_and!; [lia|lia|done|done|].
      intros j Hj. rewrite <- Hshort by lia. apply Hmore. lia.
Qed.

(** ** Names of endpoints *)

Lemma plain_no_slash_end x s s' : plain s -> x +:+ s <> s' +:+ "/".
Proof.
  intros [Hne Hm] He. apply (f_equal (fun s => last (list_ascii_of_string s))) in He.
  rewrite !chars_append in He. change (list_ascii_of_string "/") with ["/"%char] in He.
  rewrite last_snoc in He.
  destruct (list_ascii_of_string s) as [|c l] eqn:Hl using rev_ind.
  { by destruct s. }
  rewrite (assoc_L app), last_snoc in He. injection He as ->. unfold mem in Hm.
  rewrite Hl, existsb_app in Hm. simpl in Hm. by rewrite orb_true_r in Hm.
Qed.

Lemma joined_ends segs :
  segs <> [] -> Forall plain segs ->
  (forall s', joined "/" segs <> String "/" s') /\ (forall s', joined "/" segs <> s' +:+ "/").
Proof.
  intros Hne Hpl. split; intros s'.
  - destruct segs as [|[|c s] segs]; [done|apply Forall_cons in Hpl as [[? _] _]; done|].
    apply Forall_cons in Hpl as [[_ Hm] _]. unfold mem in Hm. simpl in Hm.
    apply orb_false_iff in Hm as [Hc _]. destruct segs; intros [= -> _]; done.
  - destruct segs as [|s segs _] using rev_ind; [done|].
    apply Forall_app in Hpl as [_ Hs]. apply (proj1 (Forall_singleton _ _)) in Hs.
    destruct (decide (segs = [])) as [->|Hsegs]; [by apply (plain_no_slash_end "")|].
    rewrite joined_snoc by done. rewrite <- append_assoc. by apply plain_no_slash_end.
Qed.

(** The path of an endpoint of a process, with or without a slash at its end. *)
Definition endpoint_path (t : string) (segs : list string) (slash : bool) : string :=
  "/" +:+ t +:+ "/" +:+ joined "/" segs +:+ (if slash then "/" else "").

Lemma endpoint_name_path t segs slash :
  segs <> [] -> Forall plain segs ->
  endpoint_name (endpoint_path t segs slash) t = joined "/" segs.
Proof.
  intros Hne Hpl. destruct (joined_ends segs Hne Hpl) as [Hfirst Hlast].
  unfold endpoint_name, endpoint_path. rewrite <- (append_assoc "/" t), remove_prefix_there.
  change ("/" +:+ joined "/" segs +:+ (if slash then "/" else ""))
    with (String "/" (joined "/" segs +:+ (if slash then "/" else ""))).
  rewrite trim_prefix_slash, trim_prefix_none.
  - destruct slash; [rewrite trim_suffix_slash|rewrite append_nil_r]; by apply trim_suffix_none.
  - intros s' Hx. destruct (joined "/" segs) as [|c j] eqn:Hj; [|by injection Hx as -> _; destruct (Hfirst j)].
    destruct segs as [|[|c s] [|u segs]]; try done; apply Forall_cons in Hpl as [[? _] _]; done.
Qed.

Lemma tokenize_path t segs slash : plain t ->
  tokenize (endpoint_path t segs slash) "/"
  = t :: tokenize ("/" +:+ joined "/" segs +:+ (if slash then "/" else "")) "/".
Proof. intros Hpt. apply tokenize_delegate; [done|by right]. Qed.

Lemma consume_finds p r t segs slash n e :
  streamed r -> plain t -> HttpCodec.decode t = Some_ (pid_id p) ->
  segs <> [] -> Forall plain segs -> segs !! 0 <> Some "." ->
  url_path (url r) = endpoint_path t segs slash ->
  longest (http p) segs n e -> consume p r = Returns (sequenced p, Endpoint n e (negb (requestStreaming e))).
Proof.
  intros (Ht & [x Hx] & Hb) Hpt Hd Hne Hpl Hdot Hpath Hl.
  pose proof (joined_length segs Hpl) as Hlen.
  unfold consume. rewrite Hpath. rewrite (tokenize_path t segs slash Hpt), endpoint_name_path by done.
  rewrite Hd. cbn [negb starts_with_slash endpoint_path String.append pid_id http assets].
  rewrite String.eqb_refl. cbn [negb].
  rewrite (proj2 (find_endpoint_longest (http p) segs (String.length (joined "/" segs) + 2) n e
    Hne Hpl Hdot ltac:(lia)) Hl).
  destruct (requestStreaming e); [done|]. unfold convert_request. rewrite Ht, Hx, Hb. done.
Qed.

(** A request for a path of a process is answered by the endpoint with the longest name
    that is a prefix of the path, in whole segments, with or without a slash at the end of
    the path; when there is none, by an asset or with "404 Not Found". *)
Theorem consume_longest_prefix p r t segs slash :
  streamed r -> plain t -> HttpCodec.decode t = Some_ (pid_id p) ->
  segs <> [] -> Forall plain segs -> segs !! 0 <> Some "." ->
  url_path (url r) = endpoint_path t segs slash ->
  (forall n e, longest (http p) segs n e ->
     consume p r = Returns (sequenced p, Endpoint n e (negb (requestStreaming e)))) /\
  ((forall n e, ~ longest (http p) segs n e) ->
     exists x, consume p r = Returns (sequenced p, AssetResponse x) \/
       consume p r = Returns (sequenced p, NoSuchEndpoint x)).
Proof.
  intros Hs Hpt Hd Hne Hpl Hdot Hpath. split.
  { intros n e. by apply (consume_finds p r t segs slash). }
  intros Hno. destruct Hs as (_ & [x Hx] & _). pose proof (joined_length segs Hpl) as Hlen.
  unfold consume. rewrite Hpath, (tokenize_path t segs slash Hpt), endpoint_name_path by done.
  rewrite Hd. cbn [negb starts_with_slash endpoint_path String.append pid_id http assets].
  rewrite String.eqb_refl. cbn [negb].
  destruct (find_endpoint _ _ _) as [[n e]|] eqn:Hf.
  - apply (proj1 (find_endpoint_longest (http p) segs (String.length (joined "/" segs) + 2) n e
      Hne Hpl Hdot ltac:(lia))) in Hf. by apply Hno in Hf.
  - rewrite Hx. destruct (assets p !! _); eauto.
Qed.

(** The rule that disables an endpoint compares whole paths, but endpoints are found by
    the prefixes of a path and without regard to a slash at its end: the request for the
    disabled path is rejected, the same request with a slash at the end passes the firewall
    and is answered by the endpoint. *)
Theorem disabled_endpoint_reachable p t segs e r :
  streamed r -> plain t -> HttpCodec.decode t = Some_ (pid_id p) ->
  segs <> [] -> Forall plain segs -> segs !! 0 <> Some "." ->
  http p !! joined "/" segs = Some e ->
  let rule := DisabledEndpoints {[ endpoint_path t segs false ]} in
  let direct := set_path (endpoint_path t segs false) r in
  let slashed := set_path (endpoint_path t segs true) r in
  is_Some (apply_rules [rule] direct) /\ apply_rules [rule] slashed = None /\
  consume p slashed = Returns (sequenced p, Endpoint (joined "/" segs) e (negb (requestStreaming e))).
Proof.
  intros Hs Hpt Hd Hne Hpl Hdot He rule direct slashed. split_and!.
  - cbn. unfold rule, DisabledEndpoints. cbn. rewrite decide_True by set_solver. eauto.
  - cbn. unfold rule, DisabledEndpoints. cbn. rewrite decide_False; [done|].
    rewrite elem_of_singleton. unfold endpoint_path. intros Hx.
    apply (f_equal String.length) in Hx. rewrite !length_append in Hx. simpl in Hx. lia.
  - apply (consume_finds p slashed t segs true); try done.
    exists (length segs). rewrite take_ge by lia.
    split_and!; [destruct segs; [done|simpl; lia]|lia|done|done|lia].
Qed.
End Spec.

(** ** Protected endpoints *)

Lemma authorize_invokes `{PathOps} callbacks p e name r pr h who :
  authorize callbacks p e name r pr = IsReady (Invoke h who) ->
  h = handler e /\ who = (match realm e with None => None | Some _ => Some pr end) /\
  forall cs f, callbacks = Some cs -> cs !! path_join ("/" +:+ pid_id p) name = Some f ->
    f r pr = IsReady true.
Proof.
  unfold authorize, and_then. intros Ha. destruct callbacks as [cs|]; [|by injection Ha as <- <-].
  destruct (cs !! _) as [f|] eqn:Hf; [|injection Ha as <- <-; split_and!; [done..|]; intros; simplify_eq].
  destruct (f r pr) as [[]| |] eqn:Hfr; simplify_eq. split_and!; [done..|].
  intros cs' f' [= <-] ?. congruence.
Qed.

(** C22: the handler of an endpoint with a realm that has an authenticator is invoked only
    with the principal that the authenticator gave for this request (with a value or with
    claims), and only when the authorization callback of the endpoint, if one is installed,
    accepts that principal; a challenge, a refusal, and a failed or ill-formed result of the
    authenticator never reach the handler. *)
Theorem endpoint_protected `{PathOps} m callbacks p e name r x a h who :
  realm e = Some x -> m !! x = Some a ->
  _consume m callbacks p e name r = Returns (IsReady (Invoke h who)) ->
  h = handler e /\
  exists pr, who = Some (Some pr) /\
    a r = IsReady (mkAuthentication (Some pr) None None) /\
    (principal_value pr = None -> claims pr <> ∅) /\
    forall cs f, callbacks = Some cs -> cs !! path_join ("/" +:+ pid_id p) name = Some f ->
      f r (Some pr) = IsReady true.
Proof.
  intros Hr Ha. unfold _consume, authenticate. rewrite Hr, Ha.
  destruct (httpSequence p); [|done]. cbn [negb].
  destruct (a r) as [[pr un fo]|m'|] eqn:Har; cbn [and_then]; [|done|done].
  destruct pr as [[v c]|], un as [u|], fo as [f|];
    cbn [is_set Nat.add Nat.eqb principal unauthorized forbidden]; try done.
  intros Hc. assert (Hv : v = None -> c <> ∅).
  { intros -> Hx. by rewrite decide_True in Hc by done. }
  assert (Hauth : authorize callbacks p e name r (Some (mkPrincipal v c)) = IsReady (Invoke h who)).
  { destruct v; [by injection Hc|]. rewrite decide_False in Hc by auto. by injection Hc. }
  destruct (authorize_invokes callbacks p e name r _ h who Hauth) as (-> & -> & Hcs).
  rewrite Hr. eauto 10.
Qed.

(** ** Messages *)

(** The path of a message to a named process. *)
Definition message_path (to name : string) : string := "/" +:+ to +:+ "/" +:+ name.

Definition encoded (m : message) : Message :=
  Encoders.mkMessage (bytes_of (m_name m)) (bytes_of (m_from m)) (bytes_of (m_to m))
    (bytes_of (m_body m)).

(** The first line and the sender that [MessageEncoder] writes. *)
Lemma message_head m : m_to m <> "" ->
  MessageEncoder_head (encoded m)
  = (bytes_of ("POST " +:+ message_path (m_to m) (m_name m) +:+ " HTTP/1.1") ++ CRLF
    ++ bytes_of ("User-Agent: libprocess/" +:+ m_from m) ++ CRLF
    ++ bytes_of ("Libprocess-From: " +:+ m_from m) ++ CRLF
    ++ bytes_of "Connection: Keep-Alive" ++ CRLF ++ bytes_of "Host: " ++ CRLF)%list.
Proof.
  intros Hto. unfold MessageEncoder_head, encoded, message_path. cbn [to_id name from].
  rewrite decide_False by (destruct (m_to m); done).
  unfold bytes_of. rewrite !chars_append. by rewrite <- !(assoc_L (++)).
Qed.

(** A message that a libprocess peer sends to a process is parsed back: from a request
    with the path and the sender that [MessageEncoder] writes, the receiver, the name, the
    sender and the body are those that were sent. *)
Theorem message_roundtrip `{Stout} r m :
  clean (m_to m) -> trim (m_from m) WHITESPACE = m_from m -> is_Some (req_reader r) ->
  url_path (url r) = message_path (m_to m) (m_name m) ->
  header_get "Libprocess-From" (req_headers r) = Some (m_from m) ->
  (exists rest, MessageEncoder_encode (encoded m)
    = (bytes_of ("POST " +:+ url_path (url r) +:+ " HTTP/1.1") ++ CRLF
       ++ bytes_of ("User-Agent: libprocess/" +:+ m_from m) ++ CRLF
       ++ bytes_of ("Libprocess-From: " +:+ m_from m) ++ CRLF ++ rest)%list) /\
  parse r (m_body m) = Returns (Some_ m).
Proof.
  intros [[Hne Hm] Hd] Ht [x Hx] Hp Hf. split.
  { unfold MessageEncoder_encode. rewrite message_head by done. rewrite Hp.
    eexists. by rewrite <- !(assoc_L (++)). }
  unfold parse. rewrite Hf, Ht, Hp. destruct m as [name from to body]. cbn [m_to m_name m_from m_body] in *.
  change (message_path to name) with (String "/" (to +:+ String "/" name)). cbv iota beta zeta.
  rewrite index_char by done. rewrite substring_prefix, Hd, Hx.
  replace (substr (S (String.length to)) (to +:+ String "/" name)) with name; [done|].
  replace (S (String.length to)) with (String.length (to +:+ "/"))
    by (rewrite length_append; simpl; lia).
  change (String "/" name) with ("/" +:+ name). by rewrite <- append_assoc, substr_append.
Qed.

(** A message without a receiver is taken for one without a name: the first part of the
    path is always read as the receiver. *)
Example nameless_receiver `{Stout} :
  MessageEncoder_head (encoded (mkMessage "ping" "a" "" ""))
  = (bytes_of "POST /ping HTTP/1.1" ++ CRLF ++ bytes_of "User-Agent: libprocess/a" ++ CRLF
    ++ bytes_of "Libprocess-From: a" ++ CRLF ++ bytes_of "Connection: Keep-Alive" ++ CRLF
    ++ bytes_of "Host: " ++ CRLF)%list.
Proof. reflexivity. Qed.

(** The theorems of [RoutingSpec] at concrete requests. *)

From S2P Require Import HttpTextWitness.

Local Open Scope string_scope.
Local Open Scope nat_scope.

#[local] Existing Instance stout.
#[local] Existing Instance stout_laws.

#[local] Instance path_ops : PathOps := {
  dirname s := match removelast (tokens s "/") with [] => "." | l => joined "/" l end;
  extension s := match pieces s "." with [_; e] => Some ("." +:+ e) | _ => None end;
  path_join a b := a +:+ "/" +:+ b;
}.

#[local] Instance path_laws : PathLaws.
Proof.
  split.
  - intros segs s Hne Hpl Hs. cbn [dirname path_ops].
    rewrite (tokens_joined "/" "/"); [|done|].
    + rewrite removelast_last. by destruct segs.
    + apply Forall_app. split; [|apply Forall_singleton];
        [eapply Forall_impl; [exact Hpl|]; intros t [? ?]|destruct Hs as [? ?]];
        (split; [done|by apply occurs_in_slash]).
  - intros s Hs. cbn [dirname path_ops]. unfold tokens.
    rewrite pieces_plain by (by apply occurs_in_slash). cbn. by destruct (nonempty s).
Qed.

Definition a_request (path : string) : Request :=
  mkRequest "GET" (mkURL None None None None path ∅ None) ∅ true PIPE "" (Some 3).
Definition metrics : Process :=
  mkProcess "metrics"
    {[ "snapshot" := mkEndpoint 1 None false; "a/b" := mkEndpoint 2 (Some "realm") true ]} ∅ false.

Lemma a_request_streamed path : streamed (a_request path).
Proof. split_and!; cbn; eauto. Qed.

Lemma clean_master : clean "master".
Proof. by repeat split. Qed.

(** A request for a process that does not run is delegated. *)
Lemma delivered_requests_consumed_witness :
  let r := set_path "/master/gone/x" (a_request "/gone/x") in
  apply_rules [] r = None /\ contains "/.." "/gone/x" = false /\ (fun _ : string => true) "master" = true /\
  exists p c, consume (mkProcess "master" ∅ ∅ false) r = Returns (p, c) /\
    forall name e b m callbacks x, c = Endpoint name e b ->
      exists s, _consume m callbacks p e name x = Returns s.
Proof.
  apply (delivered_requests_consumed (Some "master") [] (fun _ => false) (fun _ => true)
           (a_request "/gone/x") "master" (set_path "/master/gone/x" (a_request "/gone/x"))
           (mkProcess "master" ∅ ∅ false)).
  - apply a_request_streamed.
  - intros d [= <-]. apply clean_master.
  - vm_compute. right. left.
  - reflexivity.
Defined.

Lemma consume_longest_prefix_witness :
  consume metrics (a_request "/metrics/a/b/c") = Returns (sequenced metrics, Endpoint "a/b" (mkEndpoint 2 (Some "realm") true) false).
Proof.
  apply (consume_longest_prefix metrics (a_request "/metrics/a/b/c") "metrics" ["a"; "b"; "c"] false).
  - apply a_request_streamed.
  - done.
  - reflexivity.
  - done.
  - by repeat constructor.
  - done.
  - reflexivity.
  - exists 2. split; [simpl; lia|]. split; [done|]. split; [reflexivity|].
    intros j Hj. simpl in Hj. assert (j = 3) as -> by lia. reflexivity.
Defined.

Lemma disabled_endpoint_reachable_witness :
  apply_rules [DisabledEndpoints {[ "/metrics/snapshot" ]}] (a_request "/metrics/snapshot/") = None /\
  consume metrics (a_request "/metrics/snapshot/")
  = Returns (sequenced metrics, Endpoint "snapshot" (mkEndpoint 1 None false) true).
Proof.
  apply (disabled_endpoint_reachable metrics "metrics" ["snapshot"] (mkEndpoint 1 None false)
           (a_request "/metrics/snapshot/")).
  - apply a_request_streamed.
  - done.
  - reflexivity.
  - done.
  - by repeat constructor.
  - done.
  - reflexivity.
Defined.

Definition alice : Principal := mkPrincipal (Some "alice") ∅.

Definition knows_alice (r : Request) : completion AuthenticationResult :=
  IsReady (mkAuthentication (Some alice) None None).

Definition principals_only : AuthorizationCallbacks :=
  Some {[ "/metrics/a/b" := fun _ p => IsReady (bool_decide (is_Some p)) ]}.

Lemma endpoint_protected_witness :
  2 = 2 /\ exists pr, Some (Some alice) = Some (Some pr) /\
    knows_alice (a_request "/metrics/a/b") = IsReady (mkAuthentication (Some pr) None None) /\
    (principal_value pr = None -> claims pr <> ∅) /\
    forall cs f, principals_only = Some cs -> cs !! "/metrics/a/b" = Some f ->
      f (a_request "/metrics/a/b") (Some pr) = IsReady true.
Proof.
  exact (endpoint_protected {[ "realm" := knows_alice ]} principals_only (sequenced metrics)
    (mkEndpoint 2 (Some "realm") true) "a/b" (a_request "/metrics/a/b") "realm" knows_alice
    2 (Some (Some alice)) eq_refl eq_refl eq_refl).
Defined.

Definition ping : message := mkMessage "mesos.Ping" "slave(1)@10.0.0.1:5051" "master" "hello".

Definition ping_request : Request :=
  mkRequest "POST" (mkURL None None None None "/master/mesos.Ping" ∅ None)
    (header_set "Libprocess-From" "slave(1)@10.0.0.1:5051" ∅) true PIPE "" (Some 3).

Lemma message_roundtrip_witness :
  (exists rest, MessageEncoder_encode (encoded ping)
    = (bytes_of "POST /master/mesos.Ping HTTP/1.1" ++ CRLF
       ++ bytes_of "User-Agent: libprocess/slave(1)@10.0.0.1:5051" ++ CRLF
       ++ bytes_of "Libprocess-From: slave(1)@10.0.0.1:5051" ++ CRLF ++ rest)%list) /\
  parse ping_request "hello" = Returns (Some_ ping).
Proof.
  apply (message_roundtrip ping_request ping).
  - apply clean_master.
  - vm_compute. reflexivity.
  - cbn. eauto.
  - reflexivity.
  - vm_compute. reflexivity.
Defined.
