(* ===== verification/HttpResponse.v ===== *)
(** The responses of a server: [HttpResponseEncoder] of [encoder.hpp].

    The date, the compression and the parsing of numbers come from the system and from
    stout: they are arguments. *)

From Stdlib Require Import Ascii String.
From stdpp Require Import pretty.
From S2P Require Import Prelude HttpCodec HttpText HttpTextSpec Decoders HttpConnection.

Local Open Scope string_scope.
Local Open Scope nat_scope.

(** The date as it is printed, [gzip::compress] and [numify<uint32_t>]. *)
Class ResponseEnv := {
  http_date : string;
  gzip_compress : string -> Try string;
  numify_uint32 : string -> Try nat;
}.

Class ResponseEnvLaws `{ResponseEnv} := {
  numify_uint32_pretty (n : nat) : (N.of_nat n < 2 ^ 32)%N -> numify_uint32 (pretty n) = Some_ n;
}.

Definition GZIP_MINIMUM_BODY_LENGTH : nat := 1024.

Definition is_body (t : body_type) : bool := match t with BODY => true | _ => false end.
Definition is_none (t : body_type) : bool := match t with NONE => true | _ => false end.

Section Encode.
Context `{Stout, ResponseEnv}.

(** Whether the body is to be compressed. *)
Definition compresses (h : Headers) (x : Response) (r : Request) : bool :=
  is_body (res_type x) && (GZIP_MINIMUM_BODY_LENGTH <=? String.length (res_body x)) &&
  bool_decide (header_get "Content-Encoding" h = None) && acceptsEncoding (req_headers r) "gzip".

(** The headers and the body after the compression. *)
Definition compressed (h : Headers) (x : Response) (r : Request) : Headers * string :=
  if compresses h x r then
    match gzip_compress (res_body x) with
    | Error _ => (h, res_body x)
    | Some_ z =>
        (header_set "Content-Encoding" "gzip"
           (header_set "Content-Length" (pretty (String.length z)) h), z)
    end
  else (h, res_body x).

(** The line that is added when there is no [Content-Length] header. *)
Definition length_line (h : Headers) (t : body_type) (body : string) : string :=
  match header_get "Content-Length" h, t with
  | None, NONE => "Content-Length: 0" +:+ crlf
  | None, BODY => "Content-Length: " +:+ pretty (String.length body) +:+ crlf
  | _, _ => ""
  end.

(** The part of the body that is written. *)
Definition written_part (h : Headers) (body : string) : string :=
  match header_get "Content-Length" h with
  | None => body
  | Some l =>
      match numify_uint32 l with
      | Some_ n => if n <=? String.length body then substring 0 n body else body
      | Error _ => body
      end
  end.

Definition encode_response (x : Response) (r : Request) : string :=
  let h := header_set "Date" http_date (res_headers x) in
  let '(h, body) := compressed h x r in
  "HTTP/1.1 " +:+ status x +:+ crlf +:+ header_lines h +:+ length_line h (res_type x) body +:+
  crlf +:+ (if is_body (res_type x) then written_part h body else "").
End Encode.

(** ** Framing *)

Section Framing.
Context `{StoutLaws, ResponseEnvLaws}.

(** The line of a header is one of the lines that are written. *)
Lemma header_line_written h k v :
  spelled h -> header_get k h = Some v ->
  exists pre key post, header_lines h = pre +:+ key +:+ ": " +:+ v +:+ crlf +:+ post /\
    fold_case key = fold_case k.
Proof.
  unfold header_get. intros Hs Hv. destruct (h !! fold_case k) as [[key v']|] eqn:He; [|done].
  injection Hv as ->. assert (Hin : (fold_case k, (key, v)) ∈ iterate h).
  { rewrite iterate_entries. by apply elem_of_map_to_list. }
  apply list_elem_of_split in Hin as (l1 & l2 & Hl). unfold header_lines. rewrite Hl.
  exists (foldr String.append "" (map (fun e => e.2.1 +:+ ": " +:+ e.2.2 +:+ crlf) l1)), key,
    (foldr String.append "" (map (fun e => e.2.1 +:+ ": " +:+ e.2.2 +:+ crlf) l2)).
  split; [|by apply (Hs _ _ He)]. clear. induction l1 as [|e l1 IH].
  - cbn [app map foldr fst snd]. by rewrite !append_assoc.
  - cbn [app map foldr fst snd]. by rewrite IH, !append_assoc.
Qed.

Lemma length_substring n s : n <= String.length s -> String.length (substring 0 n s) = n.
Proof.
  revert n. induction s as [|c s IH]; intros [|n] Hn; simpl in *; try lia.
  rewrite IH; lia.
Qed.

(** The length that a handler gave to its response is one that it can have. *)
Definition length_given (x : Response) : Prop :=
  forall l, header_get "Content-Length" (res_headers x) = Some l ->
    exists n, l = pretty n /\ n <= (if is_body (res_type x) then String.length (res_body x) else 0).

(** The body fits the type of the parsed length, also when it was compressed. *)
Definition short_body (x : Response) : Prop :=
  (N.of_nat (String.length (res_body x)) < 2 ^ 32)%N /\
  forall z, gzip_compress (res_body x) = Some_ z -> (N.of_nat (String.length z) < 2 ^ 32)%N.

(** What is written of a body whose length was announced. *)
Lemma written_announced h body n :
  header_get "Content-Length" h = Some (pretty n) -> n <= String.length body ->
  (N.of_nat (String.length body) < 2 ^ 32)%N -> String.length (written_part h body) = n.
Proof.
  intros Hh Hn Hb. unfold written_part. rewrite Hh, numify_uint32_pretty by lia.
  destruct (Nat.leb_spec n (String.length body)); [|lia]. by apply length_substring.
Qed.

(** The length is in a header, or in the line that is added. *)
Definition announces (h : Headers) (x : Response) (body : string) : Prop :=
  let b := if is_body (res_type x) then written_part h body else "" in
  header_get "Content-Length" h = Some (pretty (String.length b)) \/
  (header_get "Content-Length" h = None /\
   length_line h (res_type x) body = "Content-Length: " +:+ pretty (String.length b) +:+ crlf).

Lemma announces_plain h x :
  res_type x = BODY \/ res_type x = NONE ->
  (forall l, header_get "Content-Length" h = Some l ->
    exists n, l = pretty n /\ n <= (if is_body (res_type x) then String.length (res_body x) else 0)) ->
  (N.of_nat (String.length (res_body x)) < 2 ^ 32)%N -> announces h x (res_body x).
Proof.
  intros Ht Hg Hs. unfold announces.
  destruct (header_get "Content-Length" h) as [l|] eqn:Hl; [left|right].
  - destruct (Hg l) as (n & -> & Hn); [done|]. do 2 f_equal.
    destruct (is_body (res_type x)); [|simpl; lia]. symmetry. by apply written_announced.
  - split; [done|]. unfold length_line. rewrite Hl.
    destruct Ht as [Ht|Ht]; rewrite Ht; cbn [is_body]; [|done]. unfold written_part. by rewrite Hl.
Qed.

Lemma announces_compressed x r :
  res_type x = BODY \/ res_type x = NONE -> length_given x -> short_body x ->
  let hb := compressed (header_set "Date" http_date (res_headers x)) x r in
  announces hb.1 x hb.2.
Proof.
  intros Ht Hg [Hs Hz]. unfold compressed.
  assert (Hplain : announces (header_set "Date" http_date (res_headers x)) x (res_body x)).
  { apply announces_plain; [done| |done]. intros l. rewrite header_get_set_ne by done. apply Hg. }
  destruct (compresses _ x r) eqn:Hc; [|done].
  destruct (gzip_compress (res_body x)) as [z|e] eqn:Hgz; [|done]. left. cbn [fst snd].
  rewrite header_get_set_ne by done. rewrite header_get_set.
  unfold compresses in Hc. destruct (res_type x); try done. cbn [is_body].
  do 2 f_equal. symmetry. apply written_announced; [|lia|by apply Hz].
  rewrite header_get_set_ne by done. apply header_get_set.
Qed.

Lemma spelled_compressed x r : spelled (res_headers x) ->
  spelled (compressed (header_set "Date" http_date (res_headers x)) x r).1.
Proof.
  intros Hx. unfold compressed. destruct (compresses _ x r); [|by apply spelled_set].
  destruct (gzip_compress _); cbn [fst]; by repeat apply spelled_set.
Qed.

(** A response is framed: one of its header lines announces the number of bytes that
    follow the head, compressed or not, if the length that the handler gave, if any, is at
    most that of its body. *)
Theorem response_framed x r :
  res_type x = BODY \/ res_type x = NONE -> spelled (res_headers x) ->
  length_given x -> short_body x ->
  exists pre key post b,
    encode_response x r
    = "HTTP/1.1 " +:+ status x +:+ crlf +:+
      pre +:+ key +:+ ": " +:+ pretty (String.length b) +:+ crlf +:+ post +:+ crlf +:+ b /\
    fold_case key = "content-length" /\ (res_type x = NONE -> b = "") /\
    (header_get "Content-Length" (res_headers x) = None -> compresses
       (header_set "Date" http_date (res_headers x)) x r = false ->
     res_type x = BODY -> b = res_body x).
Proof.
  intros Ht Hsp Hg Hs. pose proof (announces_compressed x r Ht Hg Hs) as Ha.
  pose proof (spelled_compressed x r Hsp) as Hsp'.
  assert (Hwhole : header_get "Content-Length" (res_headers x) = None ->
    compresses (header_set "Date" http_date (res_headers x)) x r = false -> res_type x = BODY ->
    (let hb := compressed (header_set "Date" http_date (res_headers x)) x r in
     if is_body (res_type x) then written_part hb.1 hb.2 else "") = res_body x).
  { intros Hl Hc Hb. unfold compressed, written_part. rewrite Hc, Hb. cbn [fst snd is_body].
    rewrite header_get_set_ne by done. by rewrite Hl. }
  unfold encode_response.
  destruct (compressed (header_set "Date" http_date (res_headers x)) x r) as [h body].
  cbn [fst snd] in Ha, Hsp', Hwhole. unfold announces in Ha.
  set (b := if is_body (res_type x) then written_part h body else "") in *.
  assert (Hnone : res_type x = NONE -> b = "") by (intros Hn; unfold b; by rewrite Hn).
  destruct Ha as [Ha|[Ha Hl]].
  - destruct (header_line_written h _ _ Hsp' Ha) as (pre & key & post & He & Hk).
    exists pre, key, (post +:+ length_line h (res_type x) body), b.
    split_and!; try done. rewrite He, !append_assoc. done.
  - exists (header_lines h), "Content-Length", "", b. split_and!; try done.
    rewrite Hl, !append_assoc. done.
Qed.
End Framing.
