(* ===== verification/HttpServe.v ===== *)
(** A server of HTTP connections: [http::internal::send], [sendfile], [stream], [receive]
    and [serve] of [http.cpp].

    The loop that receives and the loop that sends run at the same time and meet in a
    queue of items.  Every completion of a future that one of them waits for is a step; a
    request is an allocated object with an address, which is deleted. *)

From Stdlib Require Import Ascii String.
From stdpp Require Import pretty.
From S2P Require Import Prelude HttpCodec HttpText Pipe Decoders HttpConnection HttpResponse Routing.

Local Open Scope string_scope.
Local Open Scope nat_scope.

(** ** Sending one response *)

(** What is done on the socket, on a file and on the reader of a pipe. *)
Inductive output :=
| SendData (data : string)
| SendFile (path : string) (size : nat)
| OpenFile (path : string)
| CloseFile (path : string)
| SendChunks (reader : nat)
| CloseReader (reader : nat).

(** What the system says of a file. *)
Record file := mkFile {
  file_open : Try unit;
  file_bytes : Try nat;
  file_isdir : bool;
}.

Definition set_body (b : string) (x : Response) : Response :=
  mkResponse (status x) (res_code x) (res_headers x) (res_type x) b (res_path x) (res_reader x).
Definition put_header (k v : string) (x : Response) : Response :=
  mkResponse (status x) (res_code x) (header_set k v (res_headers x)) (res_type x) (res_body x)
    (res_path x) (res_reader x).

Definition ServiceUnavailable : Response := Response_of_body "503 Service Unavailable." 503.

Section Reply.
Context `{Stout, ResponseEnv}.

(** [send] of a response with a body or without one. *)
Definition send_whole (x : Response) (r : Request) : checked (list output) :=
  match res_type x with
  | BODY | NONE => Returns [SendData (encode_response x r)]
  | _ => Abort "CHECK(response.type == Response::BODY || response.type == Response::NONE)"
  end.

(** [sendfile].  [head]: how the sending of the head ends; [discarded]: a discard of its
    future was requested, and then [Future::then] does not go on. *)
Definition sendfile (f : file) (head : completion unit) (discarded : bool) (x : Response)
    (r : Request) : checked (list output) :=
  match res_type x with
  | PATH =>
      let x := set_body "" x in
      let p := res_path x in
      let error m := send_whole (InternalServerError m) r in
      match file_open f with
      | Error e => error ("Failed to open '" +:+ p +:+ "': " +:+ e)
      | Some_ _ =>
          let closing m :=
            match error m with
            | Returns out => Returns (OpenFile p :: CloseFile p :: out)
            | Abort m => Abort m
            end in
          match file_bytes f with
          | Error e => closing ("Failed to fstat '" +:+ p +:+ "': " +:+ e)
          | Some_ size =>
              if file_isdir f then closing ("'" +:+ p +:+ "' is a directory")
              else
                let x := put_header "Content-Length" (pretty size) x in
                Returns (OpenFile p :: SendData (encode_response x r) ::
                  match head with
                  | IsReady _ => if discarded then [] else [SendFile p size; CloseFile p]
                  | _ => [CloseFile p]
                  end)
          end
      end
  | _ => Abort "CHECK(response.type == Response::PATH)"
  end.

(** [stream]. *)
Definition stream (head : completion unit) (discarded : bool) (x : Response) (r : Request)
    : checked (list output) :=
  match res_type x with
  | PIPE =>
      let x := set_body "" x in
      match res_reader x with
      | None => send_whole (InternalServerError "Missing data to stream") r
      | Some p =>
          let x := put_header "Transfer-Encoding" "chunked" x in
          Returns (SendData (encode_response x r) ::
            (match head with
             | IsReady _ => if discarded then [] else [SendChunks p]
             | _ => []
             end ++ [CloseReader p])%list)
      end
  | _ => Abort "CHECK(response.type == Response::PIPE)"
  end.

(** The loop of [stream]: what is sent for a piece that was read, and whether that was the
    last. *)
Definition stream_piece (data : string) : string * bool :=
  if String.eqb data "" then ("0" +:+ crlf +:+ crlf, true)
  else (string_of_list_ascii (Encoders.hex (String.length data)) +:+ crlf +:+ data +:+ crlf, false).

(** The switch over the type of the response. *)
Definition reply (f : file) (head : completion unit) (discarded : bool) (x : Response)
    (r : Request) : checked (list output) :=
  match res_type x with
  | PATH => sendfile f head discarded x r
  | PIPE => stream head discarded x r
  | BODY | NONE => send_whole x r
  end.
End Reply.

(** ** Serving a connection *)

(** The loop of [send]: it waits for an item, for the response of an item, or for a response
    to be sent; or it has ended. *)
Inductive sending_state :=
| Getting
| Awaiting (q : nat)
| Replying (q : nat) (x : Response)
| SendingDone (e : completion unit).

Inductive serve_effect :=
| CallHandler (q : nat) (r : Request)
| Answer (q : nat) (x : Response)
| DeleteRequest (q : nat)
| DiscardResponse (q : nat)
| ShutdownRead
| ShutdownWrite
| BodyPipe (p : nat) (a : Pipe.request).

Section Serve.
Context `{Stout, UrlParser, Gzip}.

Record Serving := mkServing {
  server_decoder : option (running StreamingRequestDecoder);
  client : string;
  receiving : option (completion unit);
  items : list (option nat);
  sending : sending_state;
  allocated : gmap nat Request;
  next_request : nat;
  has_discard : bool;
  serving : option (completion unit);
}.

(** [Queue::get] of the remaining items until the end: the requests to delete. *)
Fixpoint drain (l : list (option nat)) : list nat * list (option nat) :=
  match l with
  | [] => ([], [])
  | None :: l => ([], l)
  | Some q :: l => let '(qs, rest) := drain l in (q :: qs, rest)
  end.

(** How the promise is completed. *)
Definition serving_result (receiving sending : completion unit) : checked (completion unit) :=
  match receiving, sending with
  | IsReady _, IsReady _ => Returns (IsReady tt)
  | IsFailed r, IsFailed s =>
      Returns (IsFailed ("Failed to receive (" +:+ r +:+ ") and send (" +:+ s +:+ ")"))
  | IsFailed r, _ => Returns (IsFailed ("Failed to receive: " +:+ r))
  | _, IsFailed s => Returns (IsFailed ("Failed to send: " +:+ s))
  | IsDiscarded, _ | _, IsDiscarded => Returns IsDiscarded
  end.

(** [delete request]. *)
Definition delete_request (q : nat) (m : gmap nat Request) : checked (gmap nat Request) :=
  match m !! q with
  | Some _ => Returns (delete q m)
  | None => Abort "deleted twice"
  end.
Fixpoint delete_requests (qs : list nat) (m : gmap nat Request) : checked (gmap nat Request) :=
  match qs with
  | [] => Returns m
  | q :: qs =>
      match delete_request q m with Returns m => delete_requests qs m | Abort e => Abort e end
  end.

(** The callback of [await(sending, receiving)]. *)
Definition finish (s : Serving) : checked (Serving * list serve_effect) :=
  match receiving s, sending s with
  | Some er, SendingDone es =>
      let '(qs, rest) := drain (items s) in
      match delete_requests qs (allocated s), serving_result er es with
      | Returns m, Returns e =>
          Returns (mkServing (server_decoder s) (client s) (Some er) rest (SendingDone es) m
                     (next_request s) (has_discard s) (Some e),
                   flat_map (fun q => DeleteRequest q ::
                     (if has_discard s then [DiscardResponse q] else [])) qs)
      | Abort m, _ | _, Abort m => Abort m
      end
  | _, _ => Returns (s, [])
  end.

(** The end of the loop of [receive], with the callbacks of its future: the decoder is
    deleted, and the end of the items is signalled. *)
Definition receiving_done (e : completion unit) (s : Serving)
    : checked (Serving * list serve_effect) :=
  let log := match server_decoder s with Some d => sq_delete (decoder d) | None => [] end in
  match finish (mkServing None (client s) (Some e) (items s ++ [None])%list (sending s)
                  (allocated s) (next_request s) (has_discard s) (serving s)) with
  | Returns (s, es) =>
      Returns (s, (map (fun x => BodyPipe x.1 x.2) log ++ ShutdownRead :: es)%list)
  | Abort m => Abort m
  end.

(** The end of the loop of [send], with the callbacks of its future. *)
Definition sending_done (e : completion unit) (s : Serving)
    : checked (Serving * list serve_effect) :=
  match finish (mkServing (server_decoder s) (client s) (receiving s) (items s) (SendingDone e)
                  (allocated s) (next_request s) (has_discard s) (serving s)) with
  | Returns (s, es) => Returns (s, ShutdownRead :: ShutdownWrite :: es)
  | Abort m => Abort m
  end.

(** [serve]: both loops are started. *)
Definition serve_connection (peer : Try string) : checked (Serving * list serve_effect) :=
  match peer with
  | Error e =>
      receiving_done (IsFailed ("Failed to get peer address: " +:+ e))
        (mkServing None "" None [] Getting ∅ 0 false None)
  | Some_ address =>
      Returns (mkServing (Some (mkRunning StreamingRequestDecoder_init false)) address None []
                 Getting ∅ 0 false None, [])
  end.

(** The requests of one read are put into the queue; the handler is called for each. *)
Fixpoint put_requests (rs : list Request) (s : Serving) : Serving * list serve_effect :=
  match rs with
  | [] => (s, [])
  | r :: rs =>
      let q := next_request s in
      let '(s, es) :=
        put_requests rs (mkServing (server_decoder s) (client s) (receiving s)
          (items s ++ [Some q])%list (sending s) (<[q := r]> (allocated s)) (S q) (has_discard s)
          (serving s)) in
      (s, CallHandler q r :: es)
  end.

(** The body of the loop of [receive], for data. *)
Definition on_received (c : chunk) (s : Serving) : checked (Serving * list serve_effect) :=
  match server_decoder s with
  | None => Abort "decoder was deleted"
  | Some d =>
      match decode c d with
      | Abort m => Abort m
      | Returns (d, requests) =>
          let s := mkServing (Some d) (client s) (receiving s) (items s) (sending s) (allocated s)
                     (next_request s) (has_discard s) (serving s) in
          if failed (decoder d) && bool_decide (requests = []) then
            receiving_done (IsFailed "Decoder error while receiving") s
          else Returns (put_requests requests s)
      end
  end.

(** The end of the input, a failure or a discard of [socket.recv]. *)
Definition on_recv_end (e : completion unit) (s : Serving) : checked (Serving * list serve_effect) :=
  receiving_done e s.

Definition set_sending (st : sending_state) (s : Serving) : Serving :=
  mkServing (server_decoder s) (client s) (receiving s) (items s) st (allocated s)
    (next_request s) (has_discard s) (serving s).

(** An item of the queue, while the loop of [send] waits for one. *)
Definition on_item (s : Serving) : checked (Serving * list serve_effect) :=
  match items s with
  | [] => Returns (s, [])
  | i :: rest =>
      let s := mkServing (server_decoder s) (client s) (receiving s) rest (sending s) (allocated s)
                 (next_request s) (has_discard s) (serving s) in
      match i with
      | None => sending_done (IsReady tt) s
      | Some q => Returns (set_sending (Awaiting q) s, [])
      end
  end.

(** The response to send, when the waiting ended. *)
Definition awaited_response (w : completion (completion Response)) : Response :=
  match w with
  | IsFailed m => InternalServerError ("Failed to wait for response: " +:+ m)
  | IsDiscarded => ServiceUnavailable
  | IsReady (IsFailed m) => InternalServerError m
  | IsReady IsDiscarded => ServiceUnavailable
  | IsReady (IsReady x) => x
  end.

(** [await] of the response of [q] has completed, or was discarded or abandoned. *)
Definition on_awaited (q : nat) (w : completion (completion Response)) (s : Serving)
    : checked (Serving * list serve_effect) :=
  match allocated s !! q with
  | None => Abort "request was deleted"
  | Some _ =>
      let x := awaited_response w in
      Returns (set_sending (Replying q x) s, [Answer q x])
  end.

(** The end of the body of the loop: the request is deleted, and the loop goes on if the
    connection is to persist. *)
Definition persists (r : Request) (x : Response) : bool :=
  keepAlive r &&
  match header_get "Connection" (res_headers x) with
  | Some v => negb (String.eqb v "close")
  | None => true
  end.
Definition end_item (q : nat) (next : Request -> option (completion unit)) (s : Serving)
    : checked (Serving * list serve_effect) :=
  match allocated s !! q with
  | None => Abort "request was deleted"
  | Some r =>
      match delete_request q (allocated s) with
      | Abort m => Abort m
      | Returns m =>
          let s := mkServing (server_decoder s) (client s) (receiving s) (items s) (sending s) m
                     (next_request s) (has_discard s) (serving s) in
          match next r with
          | None => Returns (set_sending Getting s, [DeleteRequest q])
          | Some e =>
              match sending_done e s with
              | Returns (s, es) => Returns (s, DeleteRequest q :: es)
              | Abort m => Abort m
              end
          end
      end
  end.

(** The response was sent, or not. *)
Definition on_replied (q : nat) (x : Response) (e : completion unit) (s : Serving)
    : checked (Serving * list serve_effect) :=
  end_item q (fun r =>
    match e with
    | IsReady _ => if persists r x then None else Some (IsReady tt)
    | e => Some e
    end) s.

(** The waiting for a response was discarded, and so is the loop. *)
Definition on_flow_discarded (q : nat) (s : Serving) : checked (Serving * list serve_effect) :=
  end_item q (fun _ => Some IsDiscarded) s.

(** [Future::discard] on what [serve] returned. *)
Definition on_serving_discard (s : Serving) : Serving :=
  mkServing (server_decoder s) (client s) (receiving s) (items s) (sending s) (allocated s)
    (next_request s) true (serving s).

(** ** The steps *)

Inductive serve_event :=
| EReceived (c : chunk)
| ERecvEnd (e : completion unit)
| EItem
| EGetDiscarded
| EAwaited (w : completion (completion Response))
| EReplied (e : completion unit)
| EFlowDiscarded
| EDiscard.

Definition serve_step (e : serve_event) (s : Serving) : checked (Serving * list serve_effect) :=
  match e, sending s with
  | EReceived c, _ => on_received c s
  | ERecvEnd e, _ => on_recv_end e s
  | EItem, Getting => on_item s
  | EGetDiscarded, Getting => sending_done IsDiscarded s
  | EAwaited w, Awaiting q => on_awaited q w s
  | EReplied e, Replying q x => on_replied q x e s
  | EFlowDiscarded, Awaiting q => on_flow_discarded q s
  | EDiscard, _ => Returns (on_serving_discard s, [])
  | _, _ => Returns (s, [])
  end.
End Serve.
