(* ===== verification/HttpServeSpec.v ===== *)
(** Properties of a server of HTTP connections: every reply closes what it opened; the
    answers go out in the order of the requests; requests are deleted once, and all of
    them are deleted when serving is over. *)

From Stdlib Require Import Ascii String.
From stdpp Require Import pretty.
From S2P Require Import Prelude HttpCodec HttpText HttpTextSpec Encoders Pipe Decoders DecodersSpec.
From S2P Require Import HttpConnection HttpConnectionSpec HttpResponse Routing HttpServe.

Local Open Scope string_scope.
Local Open Scope nat_scope.

(** ** What the two loops have done *)

Definition handled (log : list serve_effect) : list nat :=
  omap (fun e => match e with CallHandler q _ => Some q | _ => None end) log.
Definition answered (log : list serve_effect) : list nat :=
  omap (fun e => match e with Answer q _ => Some q | _ => None end) log.
Definition deleted (log : list serve_effect) : list nat :=
  omap (fun e => match e with DeleteRequest q => Some q | _ => None end) log.

Lemma logged_app l1 l2 :
  handled (l1 ++ l2)%list = (handled l1 ++ handled l2)%list /\
  answered (l1 ++ l2)%list = (answered l1 ++ answered l2)%list /\
  deleted (l1 ++ l2)%list = (deleted l1 ++ deleted l2)%list.
Proof. unfold handled, answered, deleted. by rewrite !omap_app. Qed.

Section Spec.
Context `{Stout, UrlParser, Gzip}.

Record serve_world := mkServeWorld { state : Serving; position : phase; log : list serve_effect }.

Definition serve_enabled (e : serve_event) (w : serve_world) (ph : phase) : Prop :=
  match e with
  | EReceived c =>
      receiving (state w) = None /\ ending c <> Stopped /\
      forall d, server_decoder (state w) = Some d -> errno d = false ->
        legals (position w) (callbacks c) = Some ph
  | ERecvEnd _ => receiving (state w) = None /\ ph = position w
  | _ => ph = position w
  end.

Inductive serve_reachable : serve_world -> Prop :=
| serve_started peer s es :
    serve_connection peer = Returns (s, es) -> serve_reachable (mkServeWorld s Between es)
| serve_steps w e ph s es :
    serve_reachable w -> serve_enabled e w ph -> serve_step e (state w) = Returns (s, es) ->
    serve_reachable (mkServeWorld s ph (log w ++ es)%list).

(** The requests [k], [k + 1], ... wait in the queue. *)
Definition waiting (k : nat) (s : Serving) : Prop :=
  items s = (map Some (seq k (next_request s - k)) ++
             match receiving s with None => [] | Some _ => [None] end)%list.

(** The requests before [d] are deleted, those before [a] are answered. *)
Record progress (s : Serving) (l : list serve_effect) (d a : nat) : Prop := {
  p_handled : handled l = seq 0 (next_request s);
  p_deleted : deleted l = seq 0 d;
  p_answered : answered l = seq 0 a;
  p_bound : d <= next_request s;
  p_alive : forall q, is_Some (allocated s !! q) <-> d <= q < next_request s;
}.

(** Where the loop of [send] is. *)
Definition stage (s : Serving) (d a : nat) : Prop :=
  match serving s with
  | Some _ =>
      items s = [] /\ d = next_request s /\ a <= d /\ is_Some (receiving s) /\
      exists e, sending s = SendingDone e
  | None =>
      match sending s with
      | Getting => a = d /\ waiting d s
      | Awaiting q => q = d /\ a = d /\ d < next_request s /\ waiting (S d) s
      | Replying q _ => q = d /\ a = S d /\ d < next_request s /\ waiting (S d) s
      | SendingDone _ => a <= d /\ receiving s = None /\ waiting d s
      end
  end.

(** The decoder is there while the loop of [receive] runs, and follows the parser. *)
Definition decoding (s : Serving) (ph : phase) : Prop :=
  match receiving s with
  | Some _ => server_decoder s = None
  | None => exists d, server_decoder s = Some d /\ follows ph d
  end.

Definition serve_inv (w : serve_world) : Prop :=
  decoding (state w) (position w) /\
  exists d a, progress (state w) (log w) d a /\ stage (state w) d a.

Lemma seq_grow d k : (seq 0 d ++ seq d k)%list = seq 0 (d + k).
Proof. by rewrite seq_app. Qed.

(** ** The end *)

Lemma drain_queue l : drain (map Some l ++ [None])%list = (l, []).
Proof. induction l as [|q l IH]; [done|]. cbn. by rewrite IH. Qed.

Lemma delete_requests_alive d n (m : gmap nat Request) :
  d <= n -> (forall q, is_Some (m !! q) <-> d <= q < n) ->
  delete_requests (seq d (n - d)) m = Returns ∅.
Proof.
  intros Hd Hm. remember (n - d) as k eqn:Hk. revert d m Hd Hm Hk.
  induction k as [|k IH]; intros d m Hd Hm Hk.
  - cbn. f_equal. apply map_empty. intros q. apply eq_None_not_Some. rewrite Hm. lia.
  - cbn [seq delete_requests]. unfold delete_request.
    destruct (proj2 (Hm d) ltac:(lia)) as [r Hr]. rewrite Hr. apply IH; [lia| |lia].
    intros q. destruct (decide (q = d)) as [->|Hne].
    + rewrite lookup_delete_eq. split; [by intros []|lia].
    + rewrite lookup_delete_ne by done. rewrite Hm. lia.
Qed.

Lemma logged_deletes (b : bool) qs :
  let es := flat_map (fun q => DeleteRequest q :: (if b then [DiscardResponse q] else [])) qs in
  handled es = [] /\ answered es = [] /\ deleted es = qs.
Proof.
  unfold handled, answered, deleted. induction qs as [|q qs (Hh & Ha & Hd)]; [done|].
  destruct b; cbn in *; by rewrite Hh, Ha, Hd.
Qed.

Lemma serving_result_ok er es : exists e, serving_result er es = Returns e.
Proof. destruct er, es; cbn; eauto. Qed.

(** Both loops have ended: what is left in the queue is deleted. *)
Lemma finish_both s l d a er es0 :
  serving s = None -> receiving s = Some er -> sending s = SendingDone es0 -> a <= d ->
  progress s l d a -> waiting d s \/ (items s = [] /\ d = next_request s) ->
  exists s' es, finish s = Returns (s', es) /\ next_request s' = next_request s /\
    receiving s' = Some er /\ server_decoder s' = server_decoder s /\
    exists d', progress s' (l ++ es)%list d' a /\ stage s' d' a.
Proof.
  intros Hsv Hr Hs Had [Hh Hd Ha Hb Hal] Hq. unfold finish. rewrite Hr, Hs.
  assert (Hdr : drain (items s) = (seq d (next_request s - d), [])).
  { destruct Hq as [Hq|[-> ->]]; [|by rewrite Nat.sub_diag]. unfold waiting in Hq.
    rewrite Hr in Hq. by rewrite Hq, drain_queue. }
  rewrite Hdr, (delete_requests_alive _ _ _ Hb Hal).
  destruct (serving_result_ok er es0) as [e ->].
  destruct (logged_deletes (has_discard s) (seq d (next_request s - d))) as (Lh & La & Ld).
  do 2 eexists. split; [done|]. cbn. split_and!; try done. exists (next_request s). split.
  - set (es := flat_map _ _) in *. destruct (logged_app l es) as (Eh & Ea & Ed).
    split; cbn -[handled answered deleted]; rewrite ?Eh, ?Ea, ?Ed, ?Hh, ?Hd, ?Ha, ?Lh, ?La, ?Ld, ?app_nil_r;
      try done.
    + rewrite seq_grow. f_equal. lia.
    + intros q. rewrite lookup_empty. split; [by intros []|lia].
  - cbn. split_and!; try done; [lia|eauto].
Qed.

Lemma progress_quiet s l es d a :
  handled es = [] -> answered es = [] -> deleted es = [] ->
  progress s l d a -> progress s (l ++ es)%list d a.
Proof.
  intros Qh Qa Qd [Hh Hd Ha Hb Hal]. destruct (logged_app l es) as (Eh & Ea & Ed).
  split; rewrite ?Eh, ?Ea, ?Ed, ?Qh, ?Qa, ?Qd, ?app_nil_r; done.
Qed.

(** The loop of [send] has ended. *)
Lemma sending_done_ok e s l d a :
  serving s = None -> a <= d -> progress s l d a ->
  waiting d s \/ (items s = [] /\ d = next_request s /\ is_Some (receiving s)) ->
  exists s' es, sending_done e s = Returns (s', es) /\
    receiving s' = receiving s /\ server_decoder s' = server_decoder s /\
    exists d' , progress s' (l ++ es)%list d' a /\ stage s' d' a.
Proof.
  intros Hsv Had Hp Hq. unfold sending_done.
  set (s1 := mkServing _ _ _ _ _ _ _ _ _).
  assert (Hp1 : progress s1 (l ++ [ShutdownRead; ShutdownWrite])%list d a).
  { by apply progress_quiet; destruct Hp. }
  destruct (receiving s) as [er|] eqn:Hr.
  - assert (Hq1 : waiting d s1 \/ items s1 = [] /\ d = next_request s1).
    { destruct Hq as [Hq|(? & ? & _)]; [left|by right]. unfold waiting in *. by rewrite Hr in Hq. }
    destruct (finish_both s1 _ d a er e Hsv eq_refl eq_refl Had Hp1 Hq1)
      as (s' & es & -> & _ & Hr' & Hd' & d' & Hp' & Hst').
    do 2 eexists. split; [done|]. split_and!; [done..|]. exists d'.
    by rewrite <- (assoc_L app) in Hp'.
  - unfold finish. cbn. do 2 eexists. split; [done|]. split_and!; [done..|].
    exists d. split; [done|]. unfold stage. cbn. rewrite Hsv.
    destruct Hq as [Hq|(_ & _ & [? Hx])]; [|done]. split_and!; [done..|].
    unfold waiting in *. by rewrite Hr in Hq.
Qed.

(** The loop of [receive] has ended. *)
Lemma waiting_end k s e : receiving s = None -> waiting k s ->
  (items s ++ [None])%list
  = (map Some (seq k (next_request s - k)) ++ match Some e : option (completion unit) with None => [] | Some _ => [None] end)%list.
Proof. unfold waiting. intros -> ->. by rewrite app_nil_r. Qed.

Lemma body_pipes_quiet (xs : list (nat * Pipe.request)) :
  let es := (map (fun x => BodyPipe x.1 x.2) xs ++ [ShutdownRead])%list in
  handled es = [] /\ answered es = [] /\ deleted es = [].
Proof. unfold handled, answered, deleted. by induction xs. Qed.

Lemma receiving_done_ok e s l d a :
  receiving s = None -> progress s l d a -> stage s d a ->
  exists s' es, receiving_done e s = Returns (s', es) /\
    is_Some (receiving s') /\ server_decoder s' = None /\
    exists d', progress s' (l ++ es)%list d' a /\ stage s' d' a.
Proof.
  intros Hr Hp Hst. unfold receiving_done.
  set (xs := match server_decoder s with Some d => _ | None => _ end).
  set (s1 := mkServing _ _ _ _ _ _ _ _ _).
  destruct (body_pipes_quiet xs) as (Qh & Qa & Qd).
  assert (Hp1 : progress s1 (l ++ (map (fun x => BodyPipe x.1 x.2) xs ++ [ShutdownRead]))%list d a)
    by by apply progress_quiet; try done; destruct Hp.
  unfold stage in Hst. destruct (serving s) as [x|] eqn:Hsv.
  { destruct Hst as (_ & _ & _ & [? Hx] & _). congruence. }
  destruct (sending s) as [|q|q x|e'] eqn:Hs.
  4: { destruct Hst as (Had & _ & Hw).
    destruct (finish_both s1 _ d a e e' eq_refl eq_refl eq_refl Had Hp1 (or_introl (waiting_end d s e Hr Hw)))
      as (s' & es & -> & _ & Hr' & Hd' & d' & Hp' & Hst').
    do 2 eexists. split; [done|]. rewrite Hr'. split; [eauto|]. split; [done|]. exists d'.
    rewrite <- !(assoc_L app) in Hp'. done. }
  all: unfold finish; cbn; do 2 eexists; (split; [done|]); (split; [eauto|]);
    (split; [done|]); exists d; (split; [done|]); unfold stage; cbn.
  - destruct Hst as [? Hw]. split; [done|]. exact (waiting_end _ _ e Hr Hw).
  - destruct Hst as (? & ? & ? & Hw). split_and!; [done..|]. exact (waiting_end _ _ e Hr Hw).
  - destruct Hst as (? & ? & ? & Hw). split_and!; [done..|]. exact (waiting_end _ _ e Hr Hw).
Qed.

(** ** Requests *)

Lemma waiting_put k s : k <= next_request s -> receiving s = None -> waiting k s ->
  (items s ++ [Some (next_request s)])%list
  = (map Some (seq k (S (next_request s) - k)) ++
     match receiving s with None => [] | Some _ => [None] end)%list.
Proof.
  intros Hk Hr Hw. unfold waiting in Hw. rewrite Hw, Hr, !app_nil_r.
  replace (S (next_request s) - k) with ((next_request s - k) + 1) by lia.
  rewrite seq_app, map_app. do 2 f_equal. cbn. f_equal. f_equal. lia.
Qed.

Lemma put_requests_ok rs s l d a :
  receiving s = None -> progress s l d a -> stage s d a ->
  exists s' es, put_requests rs s = (s', es) /\ receiving s' = None /\
    server_decoder s' = server_decoder s /\ progress s' (l ++ es)%list d a /\ stage s' d a.
Proof.
  revert s l. induction rs as [|r rs IH]; intros s l Hr Hp Hst.
  { exists s, []. rewrite app_nil_r. by split_and!. }
  cbn [put_requests]. set (s1 := mkServing _ _ _ _ _ _ _ _ _).
  destruct (IH s1 (l ++ [CallHandler (next_request s) r])%list) as (s' & es & -> & Hr' & Hd' & Hp' & Hst').
  - done.
  - destruct Hp as [Hh Hd Ha Hb Hal].
    destruct (logged_app l [CallHandler (next_request s) r]) as (Eh & Ea & Ed).
    split; rewrite ?Eh, ?Ea, ?Ed, ?Hh, ?Hd, ?Ha; cbn -[seq]; rewrite ?app_nil_r; try done.
    + by rewrite seq_S.
    + lia.
    + intros q. destruct (decide (q = next_request s)) as [->|Hne].
      * rewrite lookup_insert_eq. split; [lia|eauto].
      * rewrite lookup_insert_ne by done. rewrite Hal. lia.
  - pose proof (p_bound _ _ _ _ Hp) as Hb. unfold stage in Hst |- *. cbn [serving s1].
    destruct (serving s) as [x|] eqn:Hsv.
    { destruct Hst as (_ & _ & _ & [? Hx] & _). congruence. }
    cbn [sending s1]. destruct (sending s) as [|q|q x|e].
    + destruct Hst as [? Hw]. split; [done|]. refine (waiting_put _ s _ Hr Hw); lia.
    + destruct Hst as (? & ? & ? & Hw). split_and!; [done..|cbn; lia|]. refine (waiting_put _ s _ Hr Hw); lia.
    + destruct Hst as (? & ? & ? & Hw). split_and!; [done..|cbn; lia|]. refine (waiting_put _ s _ Hr Hw); lia.
    + destruct Hst as (? & ? & Hw). split_and!; [done..|]. refine (waiting_put _ s _ Hr Hw); lia.
  - do 2 eexists. split; [done|]. split_and!; try done. by rewrite <- (assoc_L app) in Hp'.
Qed.

(** ** The loop of [send] *)

(** The request of an item is deleted. *)
Lemma end_item_ok q next s l a :
  serving s = None -> progress s l q a -> q < next_request s -> a <= S q -> waiting (S q) s ->
  (forall r, next r = None -> a = S q) ->
  exists s' es, end_item q next s = Returns (s', es) /\
    receiving s' = receiving s /\ server_decoder s' = server_decoder s /\
    exists d', progress s' (l ++ es)%list d' a /\ stage s' d' a.
Proof.
  intros Hsv Hp Hq Ha Hw Hn. pose proof Hp as [Hh Hd Han Hb Hal].
  destruct (proj2 (Hal q) ltac:(lia)) as [r Hr]. unfold end_item, delete_request. rewrite Hr.
  set (s1 := mkServing _ _ _ _ _ _ _ _ _).
  assert (Hp1 : progress s1 (l ++ [DeleteRequest q])%list (S q) a).
  { destruct (logged_app l [DeleteRequest q]) as (Eh & Ea & Ed).
    split; rewrite ?Eh, ?Ea, ?Ed, ?Hh, ?Hd, ?Han; cbn -[seq]; rewrite ?app_nil_r; try done.
    - by rewrite seq_S.
    - intros q'. destruct (decide (q' = q)) as [->|Hne].
      + rewrite lookup_delete_eq. split; [by intros []|lia].
      + rewrite lookup_delete_ne by done. rewrite Hal. lia. }
  destruct (next r) as [e|] eqn:Hnr.
  - destruct (sending_done_ok e s1 _ (S q) a Hsv Ha Hp1 (or_introl Hw))
      as (s' & es & -> & Hr' & Hd' & d' & Hp' & Hst').
    do 2 eexists. split; [done|]. split_and!; [done..|]. exists d'. by rewrite <- (assoc_L app) in Hp'.
  - do 2 eexists. split; [done|]. split_and!; [done..|]. exists (S q). split.
    + destruct Hp1. by split.
    + unfold stage. cbn. rewrite Hsv. split; [by apply (Hn r)|done].
Qed.

Lemma on_item_ok s l d a :
  sending s = Getting -> progress s l d a -> stage s d a ->
  exists s' es, on_item s = Returns (s', es) /\
    receiving s' = receiving s /\ server_decoder s' = server_decoder s /\
    exists d' a', progress s' (l ++ es)%list d' a' /\ stage s' d' a'.
Proof.
  intros Hs Hp Hst. pose proof Hst as Hst0. unfold stage in Hst.
  destruct (serving s) eqn:Hsv; [by destruct Hst as (_ & _ & _ & _ & e & ?); congruence|].
  rewrite Hs in Hst. destruct Hst as [-> Hw]. unfold on_item.
  destruct (items s) as [|[q|] rest] eqn:Hit; unfold waiting in Hw; rewrite Hit in Hw.
  - do 2 eexists. split; [done|]. split_and!; [done..|]. rewrite app_nil_r. by exists d, d.
  - destruct (next_request s - d) as [|k] eqn:Hk; cbn [seq map app] in Hw.
    { destruct (receiving s); done. }
    injection Hw as -> Hw. do 2 eexists. split; [done|]. split_and!; [done..|].
    rewrite app_nil_r. exists d, d. split; [by destruct Hp|].
    unfold stage. cbn. rewrite Hsv. split_and!; [done..|lia|]. unfold waiting. cbn.
    by replace (next_request s - S d) with k by lia.
  - destruct (next_request s - d) as [|k] eqn:Hk; cbn [seq map app] in Hw; [|done].
    destruct (receiving s) as [er|] eqn:Hr; [|done]. injection Hw as ->.
    set (s1 := mkServing _ _ _ _ _ _ _ _ _). pose proof (p_bound _ _ _ _ Hp) as Hb.
    destruct (sending_done_ok (IsReady tt) s1 l d d Hsv) as (s' & es & -> & Hr' & Hd' & d' & Hp' & Hst').
    + done.
    + by destruct Hp.
    + right. cbn. split_and!; [done|lia|eauto].
    + do 2 eexists. split; [done|]. split_and!; [done..|]. by exists d', d.
Qed.

Lemma on_awaited_ok q w s l d a :
  sending s = Awaiting q -> progress s l d a -> stage s d a ->
  exists s' es, on_awaited q w s = Returns (s', es) /\
    receiving s' = receiving s /\ server_decoder s' = server_decoder s /\
    exists d' a', progress s' (l ++ es)%list d' a' /\ stage s' d' a'.
Proof.
  intros Hs [Hh Hd Ha Hb Hal] Hst. unfold stage in Hst.
  destruct (serving s) eqn:Hsv; [by destruct Hst as (_ & _ & _ & _ & e & ?); congruence|].
  rewrite Hs in Hst. destruct Hst as (-> & -> & Hq & Hw). unfold on_awaited.
  destruct (proj2 (Hal d) ltac:(lia)) as [r ->].
  do 2 eexists. split; [done|]. split_and!; [done..|]. exists d, (S d). split.
  - destruct (logged_app l [Answer d (awaited_response w)]) as (Eh & Ea & Ed).
    split; rewrite ?Eh, ?Ea, ?Ed, ?Hh, ?Hd, ?Ha; cbn -[seq]; rewrite ?app_nil_r; try done.
    by rewrite seq_S.
  - unfold stage. cbn. by rewrite Hsv.
Qed.

(** ** Every step *)

Lemma on_received_ok c ph ph' s l d a :
  receiving s = None -> decoding s ph -> ending c <> Stopped ->
  (forall x, server_decoder s = Some x -> errno x = false -> legals ph (callbacks c) = Some ph') ->
  progress s l d a -> stage s d a ->
  exists s' es, on_received c s = Returns (s', es) /\ decoding s' ph' /\
    exists d' a', progress s' (l ++ es)%list d' a' /\ stage s' d' a'.
Proof.
  intros Hr Hdec Hc Hl Hp Hst. unfold decoding in Hdec. rewrite Hr in Hdec.
  destruct Hdec as (x & Hx & Hf). unfold on_received. rewrite Hx.
  destruct (decode_safe c ph ph' x Hf Hc (Hl x Hx)) as (x' & rs & -> & Hf').
  set (s1 := mkServing _ _ _ _ _ _ _ _ _).
  assert (Hp1 : progress s1 l d a) by (by destruct Hp).
  destruct (failed (decoder x') && bool_decide (rs = [])).
  - destruct (receiving_done_ok (IsFailed "Decoder error while receiving") s1 l d a Hr Hp1 Hst)
      as (s' & es & -> & [e He] & Hd & d' & Hp' & Hst').
    do 2 eexists. split; [done|]. split; [by unfold decoding; rewrite He|eauto].
  - destruct (put_requests_ok rs s1 l d a Hr Hp1 Hst) as (s' & es & -> & Hr' & Hd & Hp' & Hst').
    do 2 eexists. split; [done|]. split; [|eauto]. unfold decoding. rewrite Hr'. exists x'.
    by split; [rewrite Hd|].
Qed.

Lemma decoding_kept s s' ph :
  receiving s' = receiving s -> server_decoder s' = server_decoder s -> decoding s ph -> decoding s' ph.
Proof. unfold decoding. by intros -> ->. Qed.

(** The items of a loop that waits for a response, or sends one. *)
Lemma stage_item s d a q :
  sending s = Awaiting q \/ (exists x, sending s = Replying q x) -> stage s d a ->
  serving s = None /\ q = d /\ d < next_request s /\ a <= S d /\ waiting (S d) s /\
  ((exists x, sending s = Replying q x) -> a = S d).
Proof.
  intros Hs Hst. unfold stage in Hst. destruct (serving s) eqn:Hsv.
  { destruct Hst as (_ & _ & _ & _ & e & He). by destruct Hs as [?|[? ?]]; congruence. }
  destruct Hs as [Hs|[x Hs]]; rewrite Hs in Hst; destruct Hst as (-> & -> & ? & ?);
    split_and!; try done; try lia. rewrite Hs. by intros [].
Qed.

Lemma serve_inv_step e ph w :
  serve_inv w -> serve_enabled e w ph ->
  exists s es, serve_step e (state w) = Returns (s, es) /\
    serve_inv (mkServeWorld s ph (log w ++ es)%list).
Proof.
  destruct w as [s ph0 l]. intros [Hdec (d & a & Hp & Hst)] Hen. cbn [state position log] in *.
  assert (Hstay : exists s' es, Returns (s, []) = Returns (s', es) /\
                    (ph = ph0 -> serve_inv (mkServeWorld s' ph (l ++ es)%list))).
  { do 2 eexists. split; [done|]. intros ->. rewrite app_nil_r. split; [done|]. by exists d, a. }
  assert (Hgo : forall f : checked (Serving * list serve_effect), ph = ph0 ->
    (exists s' es, f = Returns (s', es) /\ receiving s' = receiving s /\
       server_decoder s' = server_decoder s /\
       exists d' a', progress s' (l ++ es)%list d' a' /\ stage s' d' a') ->
    exists s' es, f = Returns (s', es) /\ serve_inv (mkServeWorld s' ph (l ++ es)%list)).
  { intros f -> (s' & es & -> & Hr & Hd & Hx). do 2 eexists. split; [done|].
    split; [by eapply decoding_kept|done]. }
  destruct e as [c|e| | |w|e| |]; cbn [serve_step].
  - destruct Hen as (Hr & Hc & Hl).
    destruct (on_received_ok c ph0 ph s l d a Hr Hdec Hc Hl Hp Hst) as (s' & es & -> & ? & ?).
    do 2 eexists. split; [done|]. by split.
  - destruct Hen as [Hr ->].
    destruct (receiving_done_ok e s l d a Hr Hp Hst) as (s' & es & Hs' & [x Hx] & Hd & d' & ? & ?).
    do 2 eexists. split; [exact Hs'|]. split; [by unfold decoding; cbn; rewrite Hx|eauto].
  - destruct (sending s) eqn:Hs; try (destruct Hstay as (? & ? & ? & ?); by eauto).
    apply Hgo; [done|]. by eapply on_item_ok.
  - destruct (sending s) eqn:Hs; try (destruct Hstay as (? & ? & ? & ?); by eauto).
    apply Hgo; [done|]. unfold stage in Hst. destruct (serving s) eqn:Hsv.
    { destruct Hst as (_ & _ & _ & _ & x & ?); congruence. }
    rewrite Hs in Hst. destruct Hst as [-> Hw].
    destruct (sending_done_ok IsDiscarded s l d d Hsv ltac:(lia) Hp (or_introl Hw))
      as (s' & es & He & Hr & Hd & d' & ? & ?). do 2 eexists. split; [done|]. eauto 10.
  - destruct (sending s) eqn:Hs; try (destruct Hstay as (? & ? & ? & ?); by eauto).
    apply Hgo; [done|]. by eapply on_awaited_ok.
  - destruct (sending s) eqn:Hs; try (destruct Hstay as (? & ? & ? & ?); by eauto).
    apply Hgo; [done|]. destruct (stage_item s d a q) as (Hsv & -> & Hn & Ha & Hw & Hx); [eauto|done|].
    destruct (end_item_ok d (fun r => match e with IsReady _ => if persists r x then None else Some (IsReady tt)
      | e => Some e end) s l a Hsv Hp Hn Ha Hw) as (s' & es & He & Hr & Hd & d' & ? & ?).
    + intros r _. apply Hx. eauto.
    + do 2 eexists. split; [exact He|]. eauto 10.
  - destruct (sending s) eqn:Hs; try (destruct Hstay as (? & ? & ? & ?); by eauto).
    apply Hgo; [done|]. destruct (stage_item s d a q) as (Hsv & -> & Hn & Ha & Hw & _); [eauto|done|].
    destruct (end_item_ok d (fun _ => Some IsDiscarded) s l a Hsv Hp Hn Ha Hw)
      as (s' & es & He & Hr & Hd & d' & ? & ?); [done|].
    do 2 eexists. split; [exact He|]. eauto 10.
  - do 2 eexists. split; [done|]. rewrite Hen, app_nil_r. split; [done|]. exists d, a.
    split; [by destruct Hp|done].
Qed.

Lemma serve_inv_start peer :
  exists s es, serve_connection peer = Returns (s, es) /\ serve_inv (mkServeWorld s Between es).
Proof.
  assert (Hp : forall x c, progress (mkServing x c None [] Getting ∅ 0 false None) [] 0 0).
  { intros x c. split; try done. intros q. cbn. rewrite lookup_empty. split; [by intros []|lia]. }
  destruct peer as [c|e]; cbn [serve_connection].
  - do 2 eexists. split; [done|]. split.
    + eexists. split; [done|]. right. by repeat split.
    + exists 0, 0. split; [apply Hp|done].
  - destruct (receiving_done_ok (IsFailed ("Failed to get peer address: " +:+ e))
      (mkServing None "" None [] Getting ∅ 0 false None) [] 0 0 eq_refl (Hp _ _))
      as (s & es & He & [x Hx] & Hd & d' & ? & ?); [done|].
    do 2 eexists. split; [exact He|]. split; [by unfold decoding; cbn; rewrite Hx|]. by exists d', 0.
Qed.

Lemma serve_reachable_inv w : serve_reachable w -> serve_inv w.
Proof.
  induction 1 as [peer s es He|w e ph s es Hr IH Hen He].
  - destruct (serve_inv_start peer) as (s' & es' & He' & Hi). congruence.
  - destruct (serve_inv_step e ph w IH Hen) as (s' & es' & He' & Hi). congruence.
Qed.

(** No [CHECK] of a server fails, no request is used after it was deleted and none is
    deleted twice, whatever the client sends, however the handlers answer and whenever
    serving is discarded. *)
Theorem serve_no_check_fails w e ph :
  serve_reachable w -> serve_enabled e w ph -> exists x, serve_step e (state w) = Returns x.
Proof.
  intros Hr%serve_reachable_inv Hen. destruct (serve_inv_step e ph w Hr Hen) as (s & es & -> & _). eauto.
Qed.

(** C18: a server answers the requests of a connection in the order in which they arrived,
    each at most once, although the handlers are called at once and may answer in any
    order; and it waits only for the response of the first request that is not answered. *)
Theorem serve_answers_in_order w :
  serve_reachable w ->
  exists n m, m <= n /\ handled (log w) = seq 0 n /\ answered (log w) = seq 0 m /\
    forall q, sending (state w) = Awaiting q -> q = m.
Proof.
  intros Hr%serve_reachable_inv. destruct Hr as [_ (d & a & [Hh Hd Ha Hb Hal] & Hst)].
  exists (next_request (state w)), a. unfold stage in Hst.
  destruct (serving (state w)) as [x|].
  - destruct Hst as (_ & -> & ? & _ & e & ->). split_and!; [lia|done..].
  - destruct (sending (state w)) as [|q|q x|e]; decompose [and] Hst; subst; split_and!; try done; try lia.
    by intros ? [= <-].
Qed.

(** Requests are deleted in the order of their arrival, each once; serving is completed
    exactly when both loops have ended, and then every request is deleted and the queue is
    empty. *)
Theorem serve_frees_requests w :
  serve_reachable w ->
  exists n k, handled (log w) = seq 0 n /\ deleted (log w) = seq 0 k /\
    (forall q, is_Some (allocated (state w) !! q) <-> k <= q < n) /\
    (is_Some (serving (state w)) <->
       is_Some (receiving (state w)) /\ exists e, sending (state w) = SendingDone e) /\
    (is_Some (serving (state w)) -> k = n /\ items (state w) = []).
Proof.
  intros Hr%serve_reachable_inv. destruct Hr as [_ (d & a & [Hh Hd Ha Hb Hal] & Hst)].
  exists (next_request (state w)), d. unfold stage in Hst. split_and!; try done.
  - destruct (serving (state w)) as [x|]; [split; [by intros _; destruct Hst as (_ & _ & _ & ? & ?)|eauto]|].
    split; [by intros []|]. intros [[er Her] [e He]]. rewrite He in Hst.
    destruct Hst as (_ & ? & _). congruence.
  - intros [x Hx]. rewrite Hx in Hst. by destruct Hst as (? & ? & _).
Qed.
End Spec.

(** ** One response *)

Section ReplySpec.
Context `{Stout, ResponseEnv}.

(** Every response is sent without a failing [CHECK]; the file of a response is opened
    at most once, and it is closed again exactly when the sending goes on after the head,
    or fails: when a discard was requested and the head was sent nevertheless, the
    descriptor is left open. *)
Theorem reply_descriptor f head discarded x r :
  exists out, reply f head discarded x r = Returns out /\
    (OpenFile (res_path x) ∈ out <-> res_type x = PATH /\ file_open f = Some_ tt) /\
    (OpenFile (res_path x) ∈ out ->
     (CloseFile (res_path x) ∈ out <->
      ~ (head = IsReady tt /\ discarded = true /\ file_isdir f = false /\
         exists n, file_bytes f = Some_ n))) /\
    (forall p, res_type x = PIPE -> res_reader x = Some p -> CloseReader p ∈ out).
Proof.
  destruct x as [st c h ty b p rd]. unfold reply. cbn [res_type res_path].
  destruct ty; cbn [sendfile stream send_whole res_type res_reader set_body]; cycle 2.
  - destruct f as [[[]|e] bs dir]; cbn [file_open file_bytes file_isdir].
    + destruct bs as [n|e]; [destruct dir|]; cbn.
      * eexists. split; [done|]. split_and!; [by set_solver| |done]. intros _. split; [by intros _ (_ & _ & ? & _)|set_solver].
      * destruct head as [[]|m|]; [destruct discarded|..]; (eexists; split; [done|]);
          (split_and!; [by set_solver| |done]); intros _; (split; [intros Hc|set_solver]);
          try (by intros (? & ? & _)). set_solver.
      * eexists. split; [done|]. split_and!; [by set_solver| |done]. intros _.
        split; [by intros _ (_ & _ & _ & [? ?])|set_solver].
    + eexists. split; [done|]. split_and!; [set_solver|set_solver|done].
  - destruct rd as [p'|]; cbn; (eexists; split; [done|]); split_and!.
    + split; [|by intros [? _]]. destruct head, discarded; set_solver.
    + destruct head, discarded; set_solver.
    + intros ? _ [= <-]. destruct head, discarded; set_solver.
    + set_solver.
    + set_solver.
    + done.
  - eexists. split; [done|]. split_and!; [set_solver|set_solver|done].
  - eexists. split; [done|]. split_and!; [set_solver|set_solver|done].
Qed.
End ReplySpec.

(** The theorems of [HttpResponse] and [HttpServeSpec] at a concrete connection: two
    requests arrive in one read, the first is answered, then the client goes away and
    serving is discarded. *)

From S2P Require Import HttpTextWitness.
From S2P Require Import DecodersLaws DecodersWitness.

Local Open Scope string_scope.
Local Open Scope nat_scope.

#[local] Existing Instance stout.
#[local] Existing Instance stout_laws.
#[local] Existing Instance url_parser.
#[local] Existing Instance gzip.

(** Decimal numbers of 32 bits. *)
Definition digit (c : ascii) : N := N_of_ascii c - 48.
Fixpoint decimal (x : N) (s : string) : N :=
  match s with "" => x | String c s => decimal (10 * x + digit c) s end.

Lemma digit_char x : (x < 10)%N -> digit (pretty_N_char x) = x.
Proof.
  intros Hx. destruct x as [|p]; [done|]. do 4 (try destruct p as [p|p|]); try done; lia.
Qed.

Lemma decimal_go x s : decimal 0 (pretty_N_go x s) = decimal x s.
Proof.
  revert s. induction (N.lt_wf_0 x) as [x _ IH]; intros s.
  destruct (decide (0 < x)%N) as [Hx|Hx].
  - rewrite pretty_N_go_step, IH by (try apply N.div_lt; lia). cbn [decimal].
    rewrite digit_char by (apply N.mod_lt; lia). f_equal. symmetry. by apply N.div_mod'.
  - assert (x = 0%N) as -> by lia. by rewrite pretty_N_go_0.
Qed.

Lemma decimal_pretty (x : N) : decimal 0 (pretty x) = x.
Proof.
  unfold pretty, pretty_N. destruct (decide (x = 0%N)) as [->|Hx]; [done|]. apply decimal_go.
Qed.

Definition number32 (s : string) : Try nat :=
  let x := decimal 0 s in
  if String.eqb (pretty x) s && (x <? 2 ^ 32)%N then Some_ (N.to_nat x)
  else Error "Failed to convert".

(** Compression replaces a body by a "z". *)
#[local] Instance response_env : ResponseEnv := {
  http_date := "Thu, 01 Jan 1970 00:00:00 GMT";
  gzip_compress _ := Some_ "z";
  numify_uint32 := number32;
}.
#[local] Instance response_env_laws : ResponseEnvLaws.
Proof.
  split. intros n Hn. cbn. unfold number32. change (pretty n) with (pretty (N.of_nat n)).
  rewrite decimal_pretty, String.eqb_refl. destruct (N.ltb_spec (N.of_nat n) (2 ^ 32)); [|lia].
  cbn. by rewrite Nat2N.id.
Qed.

Definition hello : Response := Response_of_body "hello" 200.

Lemma response_framed_witness :
  exists pre key post b,
    encode_response hello get_request
    = "HTTP/1.1 " +:+ "200 OK" +:+ crlf +:+
      pre +:+ key +:+ ": " +:+ pretty (String.length b) +:+ crlf +:+ post +:+ crlf +:+ b /\
    fold_case key = "content-length" /\ (BODY = NONE -> b = "") /\
    (header_get "Content-Length" (res_headers hello) = None -> compresses
       (header_set "Date" http_date (res_headers hello)) hello get_request = false ->
     BODY = BODY -> b = "hello").
Proof.
  apply (response_framed hello get_request).
  - by left.
  - apply spelled_set, spelled_set, spelled_empty.
  - intros l. vm_compute. intros [= <-]. exists 5. split; [reflexivity|lia].
  - split; [reflexivity|]. intros z. cbn. intros [= <-]. reflexivity.
Defined.

(** ** A connection *)

Fixpoint replay (l : list (serve_event * phase)) (w : serve_world) : serve_world :=
  match l with
  | [] => w
  | (e, ph) :: l =>
      match serve_step e (state w) with
      | Returns (s, es) => replay l (mkServeWorld s ph (log w ++ es)%list)
      | Abort _ => w
      end
  end.
Fixpoint replayable (l : list (serve_event * phase)) (w : serve_world) : Prop :=
  match l with
  | [] => True
  | (e, ph) :: l =>
      serve_enabled e w ph /\
      match serve_step e (state w) with
      | Returns (s, es) => replayable l (mkServeWorld s ph (log w ++ es)%list)
      | Abort _ => True
      end
  end.
Lemma replay_reachable l w : serve_reachable w -> replayable l w -> serve_reachable (replay l w).
Proof.
  revert w. induction l as [|[e ph] l IH]; intros w Hw; [done|]. cbn [replay replayable].
  intros [Hen Hl]. destruct (serve_step e (state w)) as [[s es]|] eqn:Hs; [|done].
  apply IH; [|done]. by eapply serve_steps.
Qed.

Definition accepted_client : serve_world :=
  match serve_connection (Some_ "10.0.0.1") with
  | Returns (s, es) => mkServeWorld s Between es
  | Abort _ => mkServeWorld (mkServing None "" None [] Getting ∅ 0 false None) Between []
  end.
Definition both : chunk :=
  mkChunk (concat (map message_callbacks two_requests)) Consumed true.

Definition exchange : list (serve_event * phase) :=
  [(EReceived both, Between); (EItem, Between); (EAwaited (IsReady (IsReady hello)), Between);
   (EReplied (IsReady tt), Between); (EItem, Between)].

Definition exchanged : serve_world := replay exchange accepted_client.

Lemma exchanged_reachable : serve_reachable exchanged.
Proof.
  apply replay_reachable; [by apply (serve_started (Some_ "10.0.0.1"))|]. vm_compute.
  by split_and!.
Qed.

Lemma serve_no_check_fails_witness :
  exists x, serve_step EFlowDiscarded (state exchanged) = Returns x.
Proof. apply (serve_no_check_fails exchanged EFlowDiscarded Between exchanged_reachable). reflexivity. Defined.

Lemma serve_answers_in_order_witness :
  sending (state exchanged) = Awaiting 1 /\
  exists n m, m <= n /\ handled (log exchanged) = seq 0 n /\ answered (log exchanged) = seq 0 m /\
    forall q, sending (state exchanged) = Awaiting q -> q = m.
Proof.
  split; [vm_compute; reflexivity|].
  apply (serve_answers_in_order exchanged exchanged_reachable).
Defined.

Definition ended_world : serve_world :=
  replay [(EDiscard, Between); (ERecvEnd IsDiscarded, Between); (EFlowDiscarded, Between)] exchanged.

Lemma ended_reachable : serve_reachable ended_world.
Proof.
  apply replay_reachable; [apply exchanged_reachable|]. vm_compute. by split_and!.
Qed.

Lemma serve_frees_requests_witness :
  serving (state ended_world) = Some IsDiscarded /\
  exists n k, handled (log ended_world) = seq 0 n /\ deleted (log ended_world) = seq 0 k /\
    (forall q, is_Some (allocated (state ended_world) !! q) <-> k <= q < n) /\
    (is_Some (serving (state ended_world)) <->
       is_Some (receiving (state ended_world)) /\ exists e, sending (state ended_world) = SendingDone e) /\
    (is_Some (serving (state ended_world)) -> k = n /\ items (state ended_world) = []).
Proof.
  split; [vm_compute; reflexivity|].
  apply (serve_frees_requests ended_world ended_reachable).
Defined.
