(* ===== verification/StateMachine.v ===== *)
(** The state machines of [state_machine.hpp]: transitions between the states of an actor,
    and promises for those who wait for a state.  A promise is known by a number. *)

From S2P Require Import Prelude.

Section StateMachine.
Context {State : Type} `{Countable State}.

Record StateMachine := mkStateMachine {
  state : State;
  promises : gmap State (list nat);
}.

Definition StateMachine_init (initial : State) : StateMachine := mkStateMachine initial ∅.

(** [promises[s]]. *)
Definition promises_of (s : State) (m : StateMachine) : list nat := default [] (promises m !! s).

(** [transition]: the promises that are set, before the side effect is run. *)
Definition transition (from to : State) (message : option string) (m : StateMachine)
    : Try (StateMachine * list nat) :=
  if decide (state m = from) then
    Some_ (mkStateMachine to (<[to := []]> (promises m)), promises_of to m)
  else Error (default "Invalid current state"%string message).

(** [is]. *)
Definition is_state (s : State) (m : StateMachine) : bool := bool_decide (state m = s).

(** [when], for the promise [p]: the promise is kept, or it is not needed. *)
Definition when (s : State) (p : nat) (m : StateMachine) : StateMachine * bool :=
  if decide (state m = s) then (m, true)
  else (mkStateMachine (state m) (<[s := (promises_of s m ++ [p])%list]> (promises m)), false).

(** Sequences of operations: the promises that were handed out, and those that are set. *)
Inductive machine_op := Transition (from to : State) | When (s : State) (p : nat).

Record machine_trace := mkMachineTrace {
  machine : StateMachine;
  asked : list (State * nat);
  set : list nat;
}.

Definition machine_step (o : machine_op) (t : machine_trace) : machine_trace :=
  match o with
  | Transition from to =>
      match transition from to None (machine t) with
      | Some_ (m, ps) => mkMachineTrace m (asked t) (set t ++ ps)%list
      | Error _ => t
      end
  | When s p =>
      let '(m, now) := when s p (machine t) in
      mkMachineTrace m (asked t ++ [(s, p)])%list (if now then set t ++ [p] else set t)%list
  end.

(** A promise that was asked for is set, or is kept for its state, exactly once. *)
Definition accounted (t : machine_trace) : Prop :=
  (asked t).*2 ≡ₚ (set t ++ concat (map snd (map_to_list (promises (machine t)))))%list /\
  (forall s p, p ∈ promises_of s (machine t) -> (s, p) ∈ asked t) /\
  promises_of (state (machine t)) (machine t) = [].

Lemma concat_insert (ps : gmap State (list nat)) s l :
  concat (map snd (map_to_list (<[s := l]> ps)))
  ≡ₚ (l ++ concat (map snd (map_to_list (delete s ps))))%list.
Proof.
  rewrite <- insert_delete_eq, map_to_list_insert by apply lookup_delete_eq. done.
Qed.

Lemma concat_split (ps : gmap State (list nat)) s :
  concat (map snd (map_to_list ps))
  ≡ₚ (default [] (ps !! s) ++ concat (map snd (map_to_list (delete s ps))))%list.
Proof.
  destruct (ps !! s) as [l|] eqn:Hs; simpl.
  - by rewrite <- (insert_id ps s l Hs) at 1; rewrite concat_insert.
  - by rewrite delete_id.
Qed.

Lemma accounted_step o t : accounted t -> accounted (machine_step o t).
Proof.
  destruct t as [[s ps] ask st]. intros (Hp & Hk & He). cbn in Hp, Hk, He.
  destruct o as [from to|s' p]; cbn [machine_step machine].
  - unfold transition. cbn [state promises]. destruct (decide (s = from)) as [->|]; [|done].
    split; [|split]; cbn [asked set machine promises state].
    + rewrite Hp, concat_insert, (concat_split ps to). unfold promises_of. cbn [promises].
      by rewrite !(assoc_L app), app_nil_r.
    + intros s p. unfold promises_of. cbn [promises].
      destruct (decide (s = to)) as [->|Hne]; [by rewrite lookup_insert_eq; intros ?%elem_of_nil|].
      rewrite lookup_insert_ne by done. apply Hk.
    + unfold promises_of. cbn [promises]. by rewrite lookup_insert_eq.
  - unfold when. cbn [state promises]. destruct (decide (s = s')) as [->|Hne];
      (split; [|split]); cbn [asked set machine promises state]; try done.
    + rewrite fmap_app. cbn. rewrite Hp, <- !(assoc_L app).
      apply Permutation_app_head, Permutation_app_comm.
    + intros s p' Hin. apply elem_of_app. left. by apply Hk.
    + rewrite fmap_app. cbn. rewrite Hp, concat_insert, (concat_split ps s'). unfold promises_of.
      cbn [promises]. rewrite <- !(assoc_L app). do 2 apply Permutation_app_head.
      apply Permutation_app_comm.
    + intros s0 p' Hin. unfold promises_of in Hin. cbn [promises] in Hin. apply elem_of_app.
      destruct (decide (s0 = s')) as [->|Hn0].
      * rewrite lookup_insert_eq in Hin. cbn in Hin. apply elem_of_app in Hin as [Hin|Hin].
        { left. by apply Hk. }
        right. apply list_elem_of_singleton in Hin as ->. by apply list_elem_of_singleton.
      * rewrite lookup_insert_ne in Hin by done. left. by apply Hk.
    + unfold promises_of in *. cbn [promises] in *. by rewrite lookup_insert_ne.
Qed.

(** Whoever waits for a state is told exactly once, when the machine is in that state
    or as soon as it gets there: after any sequence of operations a promise that was handed
    out is either set or kept for its state, never both, and none is kept for the current
    state. *)
Theorem waiters_told_once initial os :
  let t := foldl (fun t o => machine_step o t) (mkMachineTrace (StateMachine_init initial) [] []) os in
  (asked t).*2 ≡ₚ (set t ++ concat (map snd (map_to_list (promises (machine t)))))%list /\
  (forall s p, p ∈ promises_of s (machine t) -> (s, p) ∈ asked t /\ s <> state (machine t)).
Proof.
  intros t. assert (Ha : accounted t).
  { unfold t. clear t. rewrite <- (rev_involutive os). generalize (rev os) as l. intros l.
    induction l as [|o l IH]; cbn.
    - unfold accounted, promises_of, StateMachine_init. cbn.
      rewrite map_to_list_empty, !lookup_empty. split_and!; [done| |done].
      intros s p. rewrite lookup_empty. by intros ?%elem_of_nil.
    - rewrite foldl_app. cbn. by apply accounted_step. }
  destruct Ha as (Hp & Hk & He). split; [done|]. intros s p Hin. split; [by apply Hk|].
  intros ->. rewrite He in Hin. by apply elem_of_nil in Hin.
Qed.
End StateMachine.
