(* ===== verification/HttpServer.v ===== *)
(** [ServerProcess] of [http.cpp]: accepting clients, and stopping.

    Everything here runs within the process, one event at a time.  A client is known by its
    socket; the futures that the process waits for are completed by others, which are steps
    of their own: [serve] of a client, the loop that accepts, the grace period. *)

From S2P Require Import Prelude HttpConnection StateMachine.

Local Open Scope string_scope.

Inductive ServerState := INITIALIZED | RUNNING | STOPPING | STOPPED.
#[global] Instance ServerState_eq_dec : EqDecision ServerState.
Proof. solve_decision. Defined.
Definition state_number (s : ServerState) : nat :=
  match s with INITIALIZED => 0 | RUNNING => 1 | STOPPING => 2 | STOPPED => 3 end.
Definition numbered_state (n : nat) : option ServerState :=
  match n with 0 => Some INITIALIZED | 1 => Some RUNNING | 2 => Some STOPPING | _ => Some STOPPED end.
#[global] Instance ServerState_countable : Countable ServerState.
Proof. apply (inj_countable state_number numbered_state). by intros []. Defined.

(** What [stop] waits for: the clients, given by their sockets, and then the end of the loop
    that accepts. *)
Inductive stop_stage := NotStopping | WaitClients (fds : gset nat) | WaitAccepting | Stopped.

Record ServerProcess := mkServer {
  server_state : @StateMachine ServerState _ _;
  (** The loop that accepts: not started, running, or ended. *)
  accepting : option (option (completion unit));
  accepting_discard : bool;
  clients : gset nat;
  (** The clients whose [serving] was discarded, and those whose [serving] is completed. *)
  clients_discarded : gset nat;
  served : gset nat;
  stopping : stop_stage;
}.

Definition ServerProcess_init : ServerProcess :=
  mkServer (StateMachine_init INITIALIZED) None false ∅ ∅ ∅ NotStopping.

Definition with_state (m : StateMachine) (s : ServerProcess) : ServerProcess :=
  mkServer m (accepting s) (accepting_discard s) (clients s) (clients_discarded s) (served s)
    (stopping s).
Definition with_stage (st : stop_stage) (s : ServerProcess) : ServerProcess :=
  mkServer (server_state s) (accepting s) (accepting_discard s) (clients s) (clients_discarded s)
    (served s) st.
Definition with_accepting (a : option (option (completion unit))) (s : ServerProcess) : ServerProcess :=
  mkServer (server_state s) a (accepting_discard s) (clients s) (clients_discarded s) (served s)
    (stopping s).

(** [run]: starts the loop that accepts. *)
Definition run (s : ServerProcess) : Try ServerProcess :=
  match transition INITIALIZED RUNNING None (server_state s) with
  | Error m => Error m
  | Some_ (m, _) => Some_ (with_accepting (Some None) (with_state m s))
  end.

(** The body of the loop, for a new client: whether the loop goes on. *)
Definition on_accept (fd : nat) (s : ServerProcess) : ServerProcess * bool :=
  if is_state STOPPING (server_state s) then (with_accepting (Some (Some (IsReady tt))) s, false)
  else (mkServer (server_state s) (accepting s) (accepting_discard s) ({[fd]} ∪ clients s)
          (clients_discarded s) (served s) (stopping s), true).

(** [serving] of a client is completed; later its callback removes the client. *)
Definition on_served (fd : nat) (s : ServerProcess) : ServerProcess :=
  mkServer (server_state s) (accepting s) (accepting_discard s) (clients s) (clients_discarded s)
    ({[fd]} ∪ served s) (stopping s).
Definition on_erase (fd : nat) (s : ServerProcess) : ServerProcess :=
  mkServer (server_state s) (accepting s) (accepting_discard s) (clients s ∖ {[fd]})
    (clients_discarded s) (served s) (stopping s).

(** [stop]: the loop is discarded and the current clients are awaited. *)
Definition stop (s : ServerProcess) : Try ServerProcess :=
  match transition RUNNING STOPPING (Some "Server must be started in order to be stopped")
          (server_state s) with
  | Error m => Error m
  | Some_ (m, _) =>
      Some_ (mkServer m (accepting s) true (clients s) (clients_discarded s) (served s)
               (WaitClients (clients s)))
  end.

(** The grace period has expired before the clients have finished: all of them are
    discarded and awaited again. *)
Definition on_grace (s : ServerProcess) : ServerProcess :=
  match stopping s with
  | WaitClients _ =>
      mkServer (server_state s) (accepting s) (accepting_discard s) (clients s)
        (clients s ∪ clients_discarded s) (served s) (WaitClients (clients s))
  | _ => s
  end.

(** The continuation when the awaited clients have finished, and the one when the loop that
    accepts has ended. *)
Definition on_clients_finished (s : ServerProcess) : ServerProcess :=
  match stopping s with
  | WaitClients _ =>
      mkServer (server_state s) (accepting s) (accepting_discard s) ∅ (clients_discarded s)
        (served s) WaitAccepting
  | _ => s
  end.
Definition on_accepting_ended (s : ServerProcess) : Try ServerProcess :=
  match stopping s with
  | WaitAccepting =>
      match transition STOPPING STOPPED None (server_state s) with
      | Error m => Error m
      | Some_ (m, _) => Some_ (with_stage Stopped (with_state m s))
      end
  | _ => Some_ s
  end.

(** The loop that accepts fails, is discarded or abandoned: the callback of [run] stops a
    server that is not being stopped. *)
Definition on_accepting_completed (e : completion unit) (s : ServerProcess) : ServerProcess :=
  with_accepting (Some (Some e)) s.
Definition run_recover (s : ServerProcess) : Try ServerProcess :=
  if is_state RUNNING (server_state s) then stop s else Some_ s.

(** [finalize]. *)
Definition finalize_server (s : ServerProcess) : ServerProcess :=
  mkServer (server_state s) (accepting s) true ∅ (clients s ∪ clients_discarded s) (served s)
    (stopping s).

(** ** Steps *)

(** With the clients that were ever accepted; a socket is not accepted twice. *)
Inductive server_step : ServerProcess * gset nat -> ServerProcess * gset nat -> Prop :=
| StepRun s s' acc : run s = Some_ s' -> server_step (s, acc) (s', acc)
| StepAccept s fd s' b acc :
    accepting s = Some None -> fd ∉ acc -> on_accept fd s = (s', b) ->
    server_step (s, acc) (s', if b then {[fd]} ∪ acc else acc)
| StepServed s fd acc : fd ∈ acc -> server_step (s, acc) (on_served fd s, acc)
| StepErase s fd acc : fd ∈ served s -> server_step (s, acc) (on_erase fd s, acc)
| StepStop s s' acc : stop s = Some_ s' -> server_step (s, acc) (s', acc)
| StepGrace s acc : server_step (s, acc) (on_grace s, acc)
| StepClientsFinished s fds acc :
    stopping s = WaitClients fds -> fds ⊆ served s -> server_step (s, acc) (on_clients_finished s, acc)
| StepAcceptingCompleted s e acc :
    accepting s = Some None -> server_step (s, acc) (on_accepting_completed e s, acc)
| StepAcceptingEnded s e s' acc :
    accepting s = Some (Some e) -> on_accepting_ended s = Some_ s' -> server_step (s, acc) (s', acc)
| StepRecover s e s' acc :
    accepting s = Some (Some e) -> run_recover s = Some_ s' -> server_step (s, acc) (s', acc).

Definition server_reachable : ServerProcess * gset nat -> Prop :=
  rtc server_step (ServerProcess_init, ∅).

(** How the stages of stopping go with the states. *)
Definition server_inv (w : ServerProcess * gset nat) : Prop :=
  let '(s, acc) := w in
  acc ⊆ clients s ∪ served s /\ clients s ⊆ acc /\
  match state (server_state s) with
  | INITIALIZED => accepting s = None /\ stopping s = NotStopping
  | RUNNING => is_Some (accepting s) /\ stopping s = NotStopping
  | STOPPING =>
      is_Some (accepting s) /\
      ((exists fds, stopping s = WaitClients fds /\ fds ⊆ acc /\ acc ⊆ fds ∪ served s) \/
       (stopping s = WaitAccepting /\ clients s = ∅))
  | STOPPED => stopping s = Stopped /\ clients s = ∅ /\ exists e, accepting s = Some (Some e)
  end.

Lemma transition_inv (from to : ServerState) msg m m' ps :
  transition from to msg m = Some_ (m', ps) -> state m = from /\ state m' = to.
Proof. unfold transition. destruct (decide (state m = from)); [|done]. by intros [= <- _]. Qed.

Lemma stop_inv s s' acc : stop s = Some_ s' -> server_inv (s, acc) -> server_inv (s', acc).
Proof.
  unfold stop. destruct (transition _ _ _ _) as [[m ps]|] eqn:Ht; [|done]. intros [= <-].
  apply transition_inv in Ht as [Hm Hm']. unfold server_inv. cbn. rewrite Hm, Hm'.
  intros (Ha & Hc & Hacc & _). split_and!; try done. left. by eexists.
Qed.

Lemma server_step_inv w w' : server_step w w' -> server_inv w -> server_inv w'.
Proof.
  destruct 1 as [s s' acc Hr|s fd s' b acc Ha Hfd Ho|s fd acc Hfd|s fd acc Hfd|s s' acc Hs|s acc
    |s fds acc Hs Hf|s e acc Ha|s e s' acc Ha Hs|s e s' acc Ha Hs].
  - unfold run in Hr. destruct (transition _ _ _ _) as [[m ps]|] eqn:Ht; [|done]. injection Hr as <-.
    apply transition_inv in Ht as [Hm Hm']. unfold server_inv. rewrite Hm. cbn. rewrite Hm'. naive_solver.
  - unfold on_accept, is_state in Ho. case_bool_decide as Hst; injection Ho as <- <-.
    + unfold server_inv. cbn. rewrite Hst. rewrite Ha. naive_solver.
    + unfold server_inv. cbn. destruct (state (server_state s)); [| |done|].
      * rewrite Ha. naive_solver.
      * intros (? & ? & ? & ?). split_and!; [set_solver..|done|done].
      * rewrite Ha. naive_solver.
  - unfold server_inv. cbn. intros (? & ? & Hx). split_and!; [set_solver|done|].
    destruct (state (server_state s)); [done..| |done]. destruct Hx as [? [(fds & ? & ? & ?)|?]].
    + split; [done|]. left. exists fds. split_and!; [done..|set_solver].
    + split; [done|]. by right.
  - unfold server_inv. cbn. intros (Hac & ? & Hx). split_and!; [|set_solver|].
    + intros x Hx'. specialize (Hac x Hx'). destruct (decide (x = fd)); set_solver.
    + destruct (state (server_state s)); [done..| |].
      * destruct Hx as [? [?|[? Hc]]]; (split; [done|]); [by left|right]. rewrite Hc. set_solver.
      * destruct Hx as (? & -> & ?). split_and!; [done|set_solver|done].
  - by apply stop_inv.
  - unfold on_grace. destruct (stopping s) eqn:Hst; try done. unfold server_inv. cbn.
    intros (? & ? & Hx). split_and!; [done..|]. rewrite Hst in Hx.
    destruct (state (server_state s)); [naive_solver..| |naive_solver].
    destruct Hx as [? _]. split; [done|]. left. by eexists.
  - unfold on_clients_finished. rewrite Hs. unfold server_inv. cbn. rewrite Hs.
    intros (? & ? & Hx). destruct (state (server_state s)); [naive_solver..| |naive_solver].
    destruct Hx as [? [(fds' & [= <-] & ? & ?)|[? _]]]; [|done].
    split_and!; [set_solver|set_solver|done|by right].
  - unfold server_inv. cbn. rewrite Ha. destruct (state (server_state s)); naive_solver.
  - unfold on_accepting_ended in Hs. destruct (stopping s) eqn:Hst; try (by injection Hs as <-).
    destruct (transition _ _ _ _) as [[m ps]|] eqn:Ht; [|done]. injection Hs as <-.
    apply transition_inv in Ht as [Hm Hm']. unfold server_inv. cbn. rewrite Hm, Hm', Hst, Ha.
    naive_solver.
  - unfold run_recover in Hs. destruct (is_state _ _); [by eapply stop_inv|by injection Hs as <-].
Qed.

Lemma server_reachable_inv w : server_reachable w -> server_inv w.
Proof.
  intros Hr. assert (Hi : server_inv (ServerProcess_init, ∅)) by (cbn; set_solver).
  revert Hi. unfold server_reachable in Hr. induction Hr as [|x y z Hs _ IH]; [done|].
  intros Hi. by apply IH, (server_step_inv x).
Qed.

(** A server that has stopped serves nobody: every client that it ever accepted has
    finished, none is left, and the loop that accepts has ended; and from the moment it is
    being stopped no client is accepted any more. *)
Theorem stopped_server_is_idle s acc :
  server_reachable (s, acc) ->
  (state (server_state s) = STOPPED ->
     clients s = ∅ /\ acc ⊆ served s /\ exists e, accepting s = Some (Some e)) /\
  (state (server_state s) = STOPPING \/ state (server_state s) = STOPPED ->
     forall s' acc', server_step (s, acc) (s', acc') -> acc' = acc).
Proof.
  intros (Ha & Hc & Hx)%server_reachable_inv. split.
  - intros Hs. rewrite Hs in Hx. destruct Hx as (_ & He & ?). rewrite He in Ha.
    split_and!; [done|set_solver|done].
  - intros Hs s' acc' Hstep. inversion Hstep as [|s0 fd s1 b acc0 Hac Hfd Ho| | | | | | | |]; subst; try done.
    unfold on_accept, is_state in Ho. case_bool_decide as Hst; [by injection Ho as _ <-|].
    destruct Hs as [Hs|Hs]; [done|]. rewrite Hs in Hx. destruct Hx as (_ & _ & e & He). congruence.
Qed.

(** A server that is being stopped can always complete: once its clients have finished
    and the loop that accepts has ended, it reaches the state [STOPPED]. *)
Theorem stopping_server_stops s acc e :
  server_reachable (s, acc) -> state (server_state s) = STOPPING ->
  acc ⊆ served s -> accepting s = Some (Some e) ->
  exists s', rtc server_step (s, acc) (s', acc) /\ state (server_state s') = STOPPED.
Proof.
  intros (Ha & Hc & Hx)%server_reachable_inv Hs Hall He. rewrite Hs in Hx.
  assert (Hend : forall s1, stopping s1 = WaitAccepting -> accepting s1 = Some (Some e) ->
    state (server_state s1) = STOPPING ->
    exists s', server_step (s1, acc) (s', acc) /\ state (server_state s') = STOPPED).
  { intros s1 H1 H2 H3. eexists. split.
    - eapply StepAcceptingEnded; [exact H2|]. unfold on_accepting_ended, transition.
      by rewrite H1, decide_True.
    - done. }
  destruct Hx as [_ [(fds & Hf & Hsub & _)|[Hw _]]].
  - destruct (Hend (on_clients_finished s)) as (s' & Hst & Hs').
    + unfold on_clients_finished. by rewrite Hf.
    + unfold on_clients_finished. by rewrite Hf.
    + unfold on_clients_finished. by rewrite Hf.
    + exists s'. split; [|done]. eapply rtc_l; [|by apply rtc_once].
      eapply StepClientsFinished; [done|set_solver].
  - destruct (Hend s Hw He Hs) as (s' & Hst & Hs'). exists s'. split; [by apply rtc_once|done].
Qed.

(** ** Witnesses: a client is accepted, the server is stopped, the client finishes *)

Definition after_stop : ServerProcess :=
  mkServer (mkStateMachine STOPPING (<[STOPPING := []]> {[RUNNING := []]})) (Some (Some IsDiscarded)) true
    {[ 5%nat ]} ∅ {[ 5%nat ]} (WaitClients {[ 5%nat ]}).

Lemma after_stop_reachable : server_reachable (after_stop, {[ 5%nat ]}).
Proof.
  eapply rtc_l; [by apply StepRun|].
  eapply rtc_l; [eapply (StepAccept _ 5%nat); [done|set_solver|reflexivity]|].
  eapply rtc_l; [by apply StepStop|].
  eapply rtc_l; [apply (StepServed _ 5%nat); set_solver|].
  eapply rtc_l; [by apply (StepAcceptingCompleted _ IsDiscarded)|].
  match goal with |- rtc _ ?x ?y => replace x with y; [apply rtc_refl|by vm_compute] end.
Qed.

Lemma stopped_server_is_idle_witness :
  state (server_state after_stop) = STOPPING /\
  forall s' acc', server_step (after_stop, {[ 5%nat ]}) (s', acc') -> acc' = {[ 5%nat ]}.
Proof.
  split; [reflexivity|].
  apply (stopped_server_is_idle after_stop {[ 5%nat ]} after_stop_reachable). by left.
Defined.

Lemma stopping_server_stops_witness :
  exists s', rtc server_step (after_stop, {[ 5%nat ]}) (s', {[ 5%nat ]}) /\
    state (server_state s') = STOPPED.
Proof.
  apply (stopping_server_stops after_stop {[ 5%nat ]} IsDiscarded after_stop_reachable); done.
Defined.
