(* ===== verification/Sequence.v ===== *)
(** [SequenceProcess] of [sequence.hpp]: callbacks that return futures are run one after
    another.

    An entry is what [add] creates: the promise [F] that is given to the user and the
    promise [N] that notifies the next entry.  The callback is known by the number of the
    entry; [returns] tells whether the future that it returns is completed already. *)

From S2P Require Import Prelude Futures.

Record entry := mkEntry {
  returns : option State;
  fstate : State;
  fdiscard : bool;
  called : bool;
  notified_set : bool;
  notifier_discard : bool;
}.

(** The process: its entries; [last] is the notifier of the last one.  The calls are
    numbered in the order of the entries. *)
Record Sequence := mkSequence { entries : list entry; calls : list nat }.

Definition Sequence_init : Sequence := mkSequence [] [].

(** [F] is completed: [completed] sets the notifier. *)
Definition complete_entry (st : State) (e : entry) : entry :=
  mkEntry (returns e) st (fdiscard e) (called e) true (notifier_discard e).
Definition call_entry (e : entry) : entry :=
  mkEntry (returns e) (fstate e) (fdiscard e) true (notified_set e) (notifier_discard e).

(** [notified] for the first of the entries [es], of which it is number [i]; a completed
    entry notifies the next. *)
Fixpoint notified (i : nat) (es : list entry) : list entry * list nat :=
  match es with
  | [] => ([], [])
  | e :: es =>
      if fdiscard e then
        let '(es, cs) := notified (S i) es in (complete_entry DISCARDED e :: es, cs)
      else
        match returns e with
        | None => (call_entry e :: es, [i])
        | Some st =>
            let '(es, cs) := notified (S i) es in
            (complete_entry st (call_entry e) :: es, i :: cs)
        end
  end.

(** The future [last] is completed; it is at the start. *)
Definition last_ready (es : list entry) : bool :=
  match list.last es with Some e => notified_set e | None => true end.

Definition add (r : option State) (s : Sequence) : Sequence :=
  let e := mkEntry r PENDING false false false false in
  if last_ready (entries s) then
    let '(es, cs) := notified (length (entries s)) [e] in
    mkSequence (entries s ++ es) (calls s ++ cs)
  else mkSequence (entries s ++ [e]) (calls s).

(** The future that the callback of entry [i] returned is completed. *)
Definition callback_completed (i : nat) (st : State) (s : Sequence) : Sequence :=
  match entries s !! i with
  | Some e =>
      if called e && bool_decide (fstate e = PENDING) then
        let '(es, cs) := notified (S i) (drop (S i) (entries s)) in
        mkSequence (take i (entries s) ++ complete_entry st e :: es) (calls s ++ cs)
      else s
  | None => s
  end.

(** [Future::discard] of [F]. *)
Definition discard_entry (e : entry) : entry :=
  if decide (fstate e = PENDING) then
    mkEntry (returns e) (fstate e) true (called e) (notified_set e) (notifier_discard e)
  else e.
Definition discard_added (i : nat) (s : Sequence) : Sequence :=
  mkSequence (alter discard_entry i (entries s)) (calls s).

(** [last.discard()]: the discard of a pending notifier discards the future of its entry and
    the notifier of the entry before; the entries from the last to the first. *)
Fixpoint discard_notifiers (es : list entry) : list entry :=
  match es with
  | [] => []
  | e :: es =>
      if notified_set e || notifier_discard e then e :: es
      else
        let e := mkEntry (returns e) (fstate e) (fdiscard e) (called e) (notified_set e) true in
        discard_entry e :: discard_notifiers es
  end.
Definition finalize (s : Sequence) : Sequence :=
  mkSequence (reverse (discard_notifiers (reverse (entries s)))) (calls s).

(** ** Runs *)

Inductive sequence_op :=
| Add (r : option State)
| Completed (i : nat) (st : State)
| DiscardFuture (i : nat)
| Finalize.

Definition sequence_step (o : sequence_op) (s : Sequence) : Sequence :=
  match o with
  | Add r => add r s
  | Completed i st => callback_completed i st s
  | DiscardFuture i => discard_added i s
  | Finalize => finalize s
  end.

(** A future completes with a final state. *)
Definition final (st : State) : Prop := st <> PENDING.
Definition sequence_op_ok (o : sequence_op) : Prop :=
  match o with
  | Add (Some st) | Completed _ st => final st
  | _ => True
  end.

Definition sequence_run (os : list sequence_op) : Sequence :=
  foldl (fun s o => sequence_step o s) Sequence_init os.

(** ** The shape of a sequence *)

Definition finished_entry (e : entry) : Prop := final (fstate e) /\ notified_set e = true.
Definition running_entry (e : entry) : Prop :=
  fstate e = PENDING /\ called e = true /\ notified_set e = false.
Definition waiting_entry (e : entry) : Prop :=
  fstate e = PENDING /\ called e = false /\ notified_set e = false /\
  (forall st, returns e = Some st -> final st).

(** Finished entries, then none or one that runs, and only behind that one entries that
    wait. *)
Inductive shape : list entry -> Prop :=
| shape_finished fin : Forall finished_entry fin -> shape fin
| shape_running fin e wait :
    Forall finished_entry fin -> running_entry e -> Forall waiting_entry wait ->
    shape (fin ++ e :: wait).

Lemma shape_behind fin es : Forall finished_entry fin -> shape es -> shape (fin ++ es).
Proof.
  intros Hd [fin' Hd'|fin' e wait Hd' He Hw].
  - apply shape_finished. by apply Forall_app.
  - rewrite (assoc_L app). apply shape_running; [by apply Forall_app|done|done].
Qed.

Lemma notified_shape i es : Forall waiting_entry es -> shape (notified i es).1.
Proof.
  intros Hw. revert i. induction Hw as [|e es (Hp & Hc & Hn & Hr) Hes IH]; intros i; cbn.
  { by apply shape_finished. }
  specialize (IH (S i)). destruct (fdiscard e); [|destruct (returns e) as [st|] eqn:Hst].
  - destruct (notified (S i) es) as [es' cs]. apply (shape_behind [_]); [|done].
    by repeat constructor.
  - destruct (notified (S i) es) as [es' cs]. apply (shape_behind [_]); [|done].
    repeat constructor. by apply Hr.
  - apply (shape_running []); [done|by split|done].
Qed.

(** The numbers of the entries whose callback was called. *)
Fixpoint called_from (i : nat) (es : list entry) : list nat :=
  match es with
  | [] => []
  | e :: es => (if called e then [i] else []) ++ called_from (S i) es
  end.

Lemma called_from_app i es1 es2 :
  called_from i (es1 ++ es2) = called_from i es1 ++ called_from (i + length es1) es2.
Proof.
  revert i. induction es1 as [|e es1 IH]; intros i; cbn; [by rewrite Nat.add_0_r|].
  rewrite IH, (assoc_L app). do 2 f_equal. lia.
Qed.

Lemma called_from_waiting i es : Forall waiting_entry es -> called_from i es = [].
Proof.
  intros Hw. revert i. induction Hw as [|e es (_ & Hc & _) _ IH]; intros i; [done|]. cbn. by rewrite Hc, IH.
Qed.

Lemma notified_calls i es :
  Forall waiting_entry es -> called_from i (notified i es).1 = (notified i es).2.
Proof.
  intros Hw. revert i. induction Hw as [|e es (Hp & Hc & Hn & Hr) Hes IH]; intros i; [done|]. cbn.
  specialize (IH (S i)). destruct (fdiscard e); [|destruct (returns e) as [st|] eqn:Hst].
  - destruct (notified (S i) es) as [es' cs]. cbn in *. by rewrite Hc.
  - destruct (notified (S i) es) as [es' cs]. cbn in *. by rewrite IH.
  - cbn. by rewrite (called_from_waiting _ es).
Qed.

Definition sequence_inv (s : Sequence) : Prop :=
  shape (entries s) /\ calls s = called_from 0 (entries s).

(** Discards change nothing else. *)
Definition same_entry (e e' : entry) : Prop :=
  returns e' = returns e /\ fstate e' = fstate e /\ called e' = called e /\
  notified_set e' = notified_set e.

Lemma same_finished e e' : same_entry e e' -> finished_entry e -> finished_entry e'.
Proof. unfold finished_entry. intros (_ & -> & _ & ->). auto. Qed.
Lemma same_running e e' : same_entry e e' -> running_entry e -> running_entry e'.
Proof. unfold running_entry. intros (_ & -> & -> & ->). auto. Qed.
Lemma same_waiting e e' : same_entry e e' -> waiting_entry e -> waiting_entry e'.
Proof. unfold waiting_entry. intros (-> & -> & -> & ->). auto. Qed.

Lemma same_Forall (P : entry -> Prop) es es' :
  (forall e e', same_entry e e' -> P e -> P e') ->
  Forall2 same_entry es es' -> Forall P es -> Forall P es'.
Proof. intros HP. induction 1; intros Hf; [done|]. apply Forall_cons in Hf as [? ?]. constructor; eauto. Qed.

Lemma same_shape es es' : Forall2 same_entry es es' -> shape es -> shape es'.
Proof.
  intros Hs Hsh. destruct Hsh as [fin Hd|fin e wait Hd He Hw].
  - apply shape_finished. by apply (same_Forall _ fin es' same_finished).
  - apply Forall2_app_inv_l in Hs as (fin' & rest & Hs1 & Hs2 & ->).
    apply Forall2_cons_inv_l in Hs2 as (e' & wait' & Hse & Hsw & ->).
    apply shape_running; [by apply (same_Forall _ fin fin' same_finished)| |
      by apply (same_Forall _ wait wait' same_waiting)]. by apply (same_running e).
Qed.

Lemma same_called i es es' : Forall2 same_entry es es' -> called_from i es' = called_from i es.
Proof.
  intros Hs. revert i. induction Hs as [|e e' es es' (_ & _ & Hc & _) _ IH]; intros i; [done|].
  cbn. by rewrite Hc, IH.
Qed.

Lemma same_refl e : same_entry e e.
Proof. done. Qed.
Lemma same_refls es : Forall2 same_entry es es.
Proof. induction es; constructor; auto using same_refl. Qed.

Lemma discard_entry_same e : same_entry e (discard_entry e).
Proof. unfold discard_entry. by destruct (decide _). Qed.

Lemma discard_notifiers_same es : Forall2 same_entry es (discard_notifiers es).
Proof.
  induction es as [|e es IH]; [constructor|]. cbn.
  destruct (_ || _); [apply same_refls|]. constructor; [|done].
  eapply (discard_entry_same (mkEntry _ _ _ _ _ _)).
Qed.

Lemma same_entries_inv s es' : Forall2 same_entry (entries s) es' ->
  sequence_inv s -> sequence_inv (mkSequence es' (calls s)).
Proof.
  intros Hs [Hsh Hc]. split; [by eapply same_shape|]. cbn. by rewrite (same_called 0 _ _ Hs).
Qed.

(** ** Steps *)

Lemma last_ready_app es e : last_ready (es ++ [e]) = notified_set e.
Proof. unfold last_ready. by rewrite last_snoc. Qed.

Lemma last_ready_shape es : shape es -> last_ready es = true -> Forall finished_entry es.
Proof.
  intros [fin Hd|fin e wait Hd He Hw] Hl; [done|]. exfalso.
  destruct (rev wait) as [|x w] eqn:Hr.
  - apply (f_equal (@rev entry)) in Hr. rewrite rev_involutive in Hr. subst wait.
    rewrite last_ready_app in Hl. destruct He as (_ & _ & ?). congruence.
  - apply (f_equal (@rev entry)) in Hr. rewrite rev_involutive in Hr. cbn in Hr. subst wait.
    change (fin ++ e :: rev w ++ [x]) with (fin ++ (e :: rev w) ++ [x]) in Hl.
    rewrite (assoc_L app), last_ready_app in Hl.
    apply Forall_app in Hw as [_ Hx]. apply Forall_cons in Hx as [(_ & _ & ? & _) _]. congruence.
Qed.

Lemma last_not_ready_shape es : shape es -> last_ready es = false ->
  exists fin e wait, es = fin ++ e :: wait /\ Forall finished_entry fin /\ running_entry e /\
    Forall waiting_entry wait.
Proof.
  intros [fin Hd|fin e wait Hd He Hw] Hl; [|by exists fin, e, wait]. exfalso.
  destruct (rev fin) as [|x w] eqn:Hr; apply (f_equal (@rev entry)) in Hr;
    rewrite rev_involutive in Hr; subst fin; [done|]. cbn in Hl, Hd.
  rewrite last_ready_app in Hl. apply Forall_app in Hd as [_ Hx].
  apply Forall_cons in Hx as [[_ ?] _]. congruence.
Qed.

Lemma add_inv r s :
  (forall st, r = Some st -> final st) -> sequence_inv s -> sequence_inv (add r s).
Proof.
  intros Hr [Hs Hc]. unfold add. set (e := mkEntry r PENDING false false false false).
  assert (He : Forall waiting_entry [e]) by (repeat constructor; done).
  destruct (last_ready (entries s)) eqn:Hl.
  - pose proof (notified_shape (length (entries s)) [e] He) as Hsh.
    pose proof (notified_calls (length (entries s)) [e] He) as Hca.
    destruct (notified _ [e]) as [es cs]. split; cbn in *.
    + apply shape_behind; [by apply last_ready_shape|done].
    + rewrite called_from_app, Hc. f_equal. by rewrite <- Hca.
  - destruct (last_not_ready_shape _ Hs Hl) as (fin & e0 & wait & Hes & Hd & He0 & Hw).
    split; cbn; rewrite Hes.
    + rewrite <- (assoc_L app). cbn. apply shape_running; [done..|]. by apply Forall_app.
    + rewrite called_from_app, Hc, Hes. cbn. by rewrite app_nil_r.
Qed.

(** Only the entry that runs completes. *)
Lemma shape_called es i e :
  shape es -> es !! i = Some e -> called e = true -> fstate e = PENDING ->
  exists fin wait, es = fin ++ e :: wait /\ length fin = i /\
    Forall finished_entry fin /\ running_entry e /\ Forall waiting_entry wait.
Proof.
  intros Hs Hi Hc Hp.
  assert (Hno : forall fin, Forall finished_entry fin -> e ∉ fin).
  { intros fin Hd Hin. rewrite Forall_forall in Hd. by destruct (Hd e Hin). }
  destruct Hs as [fin Hd|fin e0 wait Hd He Hw].
  { destruct (Hno fin Hd). by eapply list_elem_of_lookup_2. }
  rewrite lookup_app in Hi. destruct (fin !! i) as [x|] eqn:Hx.
  { injection Hi as ->. destruct (Hno fin Hd). by eapply list_elem_of_lookup_2. }
  apply lookup_ge_None in Hx. destruct (i - length fin) as [|k] eqn:Hk; cbn in Hi.
  - injection Hi as ->. exists fin, wait. split_and!; try done. lia.
  - apply list_elem_of_lookup_2 in Hi. rewrite Forall_forall in Hw.
    destruct (Hw e Hi) as (_ & ? & _). congruence.
Qed.

Lemma callback_completed_inv i st s :
  final st -> sequence_inv s -> sequence_inv (callback_completed i st s).
Proof.
  intros Hst [Hs Hc]. unfold callback_completed.
  destruct (entries s !! i) as [e|] eqn:Hi; [|done].
  destruct (called e) eqn:Hce; [|done]. case_bool_decide as Hp; [|done]. cbn [andb].
  destruct (shape_called _ _ _ Hs Hi Hce Hp) as (fin & wait & Hes & <- & Hd & He & Hw).
  rewrite Hes. rewrite take_app_length. change (S (length fin)) with (1 + length fin).
  rewrite Nat.add_comm, <- drop_drop, drop_app_length. cbn [drop]. rewrite drop_0.
  pose proof (notified_shape (length fin + 1) wait Hw) as Hsh.
  pose proof (notified_calls (length fin + 1) wait Hw) as Hca.
  destruct (notified _ wait) as [es cs]. cbn in Hsh, Hca. split; cbn.
  - apply shape_behind; [done|]. apply (shape_behind [_]); [|done]. by repeat constructor.
  - rewrite called_from_app. cbn. rewrite Hce, Hc, Hes, called_from_app. cbn.
    rewrite Hce, (called_from_waiting _ wait Hw), <- (assoc_L app). cbn.
    rewrite <- Hca. do 3 f_equal. lia.
Qed.

Lemma sequence_step_inv o s : sequence_op_ok o -> sequence_inv s -> sequence_inv (sequence_step o s).
Proof.
  intros Ho Hi. destruct o as [r|i st|i|]; cbn [sequence_step].
  - apply add_inv; [|done]. by intros st ->.
  - by apply callback_completed_inv.
  - apply same_entries_inv; [|done]. apply Forall2_same_length_lookup_2; [by rewrite length_alter|].
    intros j x y Hx Hy. rewrite list_lookup_alter in Hy.
    destruct (decide (i = j)) as [->|]; [|rewrite Hx in Hy; by injection Hy as <-].
    rewrite Hx in Hy. injection Hy as <-. apply discard_entry_same.
  - apply same_entries_inv; [|done]. rewrite <- (reverse_involutive (entries s)) at 1.
    apply Forall2_reverse, discard_notifiers_same.
Qed.

Lemma sequence_run_snoc os o : sequence_run (os ++ [o]) = sequence_step o (sequence_run os).
Proof. unfold sequence_run. by rewrite foldl_app. Qed.

Lemma sequence_run_inv os : Forall sequence_op_ok os -> sequence_inv (sequence_run os).
Proof.
  induction os as [|o os IH] using rev_ind; [by intros _; split; [apply shape_finished|]|].
  rewrite sequence_run_snoc. intros [Hos Ho]%Forall_app. apply Forall_cons in Ho as [Ho _].
  apply sequence_step_inv; [done|by apply IH].
Qed.

(** ** Finalization *)

(** No entry is left that could be called. *)
Definition cancelled (s : Sequence) : Prop :=
  Forall (fun e => fstate e = PENDING -> called e = false -> fdiscard e = true) (entries s).

Lemma notified_cancelled i es :
  Forall waiting_entry es -> Forall (fun e => fdiscard e = true) es ->
  (notified i es).2 = [] /\ Forall (fun e => fstate e <> PENDING) (notified i es).1.
Proof.
  intros Hw. revert i. induction Hw as [|e es _ Hw IH]; intros i Hf; [done|].
  apply Forall_cons in Hf as [He Hf]. cbn. rewrite He. destruct (IH (S i) Hf) as [H1 H2].
  destruct (notified (S i) es) as [es' cs]. split; [done|]. by constructor.
Qed.

Lemma cancelled_step o s :
  (forall r, o <> Add r) -> sequence_inv s -> cancelled s ->
  cancelled (sequence_step o s) /\ calls (sequence_step o s) = calls s.
Proof.
  intros Ho [Hs _] Hc. destruct o as [r|i st|i|]; [by destruct (Ho r)|..]; cbn [sequence_step].
  - unfold callback_completed. destruct (entries s !! i) as [e|] eqn:Hi; [|done].
    destruct (called e) eqn:Hce; [|done]. case_bool_decide as Hp; [|done]. cbn [andb].
    destruct (shape_called _ _ _ Hs Hi Hce Hp) as (fin & wait & Hes & <- & Hd & He & Hw).
    unfold cancelled in *. rewrite Hes in *. rewrite take_app_length.
    change (S (length fin)) with (1 + length fin).
    rewrite Nat.add_comm, <- drop_drop, drop_app_length. cbn [drop]. rewrite drop_0.
    apply Forall_app in Hc as [Hc1 Hc2]. apply Forall_cons in Hc2 as [_ Hc2].
    destruct (notified_cancelled (length fin + 1) wait Hw) as [H1 H2].
    { rewrite Forall_forall in *. intros x Hx. destruct (Hw x Hx) as (? & ? & _). by apply Hc2. }
    destruct (notified _ wait) as [es cs]. cbn in H1, H2. subst cs. cbn. rewrite app_nil_r.
    split; [|done]. apply Forall_app. split; [done|]. constructor; [by cbn; rewrite Hce|].
    eapply Forall_impl; [exact H2|]. naive_solver.
  - split; [|done]. unfold cancelled in *. cbn. rewrite Forall_lookup in *. intros j x Hx.
    rewrite list_lookup_alter in Hx. destruct (decide (i = j)) as [->|]; [|by eapply Hc].
    destruct (entries s !! j) as [y|] eqn:Hy; [|done]. injection Hx as <-. unfold discard_entry.
    destruct (decide _); [by cbn|]. by eapply Hc.
  - split; [|done]. unfold cancelled in *. cbn. rewrite <- (Forall_reverse _ (entries s)) in Hc.
    apply Forall_reverse. induction (reverse (entries s)) as [|e es IH]; [done|].
    apply Forall_cons in Hc as [He Hc]. cbn. destruct (_ || _); [by constructor|].
    constructor; [|by apply IH]. unfold discard_entry. cbn. by destruct (decide _).
Qed.

(** No notifier is discarded before the end. *)
Lemma notifiers_kept os : Finalize ∉ os ->
  Forall (fun e => notifier_discard e = false) (entries (sequence_run os)).
Proof.
  assert (Hn : forall i es, Forall (fun e => notifier_discard e = false) es ->
    Forall (fun e => notifier_discard e = false) (notified i es).1).
  { intros i es Hf. revert i. induction Hf as [|e es He Hf IH]; intros i; [done|]. cbn.
    specialize (IH (S i)). destruct (fdiscard e); [|destruct (returns e)];
      try destruct (notified (S i) es) as [es' cs]; by constructor. }
  induction os as [|o os IH] using rev_ind; [by intros _; constructor|].
  rewrite sequence_run_snoc. intros Hin. assert (Hos : Finalize ∉ os) by set_solver.
  specialize (IH Hos). destruct o as [r|i st|i|]; cbn [sequence_step].
  - unfold add. destruct (last_ready _); [|by apply Forall_app; split; [|repeat constructor]].
    specialize (Hn (length (entries (sequence_run os))) [mkEntry r PENDING false false false false]).
    destruct (notified _ [_]) as [es cs]. apply Forall_app. split; [done|]. apply Hn. by repeat constructor.
  - unfold callback_completed. destruct (_ !! i) as [e|] eqn:Hi; [|done]. destruct (_ && _); [|done].
    specialize (Hn (S i) (drop (S i) (entries (sequence_run os)))).
    destruct (notified _ _) as [es cs]. apply Forall_app. split; [by apply Forall_take|].
    constructor; [|by apply Hn, Forall_drop]. cbn. rewrite Forall_lookup in IH. by eapply IH.
  - cbn. apply Forall_alter; [done|]. intros x _ Hx. unfold discard_entry. by destruct (decide _).
  - set_solver.
Qed.

Lemma finalize_cancels s :
  sequence_inv s -> Forall (fun e => notifier_discard e = false) (entries s) ->
  cancelled (finalize s).
Proof.
  intros [Hs _] Hn. unfold cancelled, finalize. cbn. apply Forall_reverse.
  assert (Hgo : forall es, Forall (fun e => notified_set e = true -> fstate e <> PENDING) es ->
    Forall (fun e => notifier_discard e = false) es ->
    (exists w fin, es = w ++ fin /\ Forall (fun e => notified_set e = false) w /\
       Forall (fun e => notified_set e = true) fin) ->
    Forall (fun e => fstate e = PENDING -> called e = false -> fdiscard e = true) (discard_notifiers es)).
  { intros es Hf Hd (w & fin & -> & Hw & Hfin). induction Hw as [|e w He Hw IH]; cbn [app] in *.
    - destruct fin as [|e fin]; [done|]. apply Forall_cons in Hfin as [He Hfin]. cbn. rewrite He. cbn.
      rewrite Forall_forall in Hf, Hfin |- *. intros x [->|Hx]%elem_of_cons Hp.
      + by destruct (Hf e); [left|..].
      + by destruct (Hf x); [right|apply Hfin|].
    - apply Forall_cons in Hf as [_ Hf], Hd as [Hd0 Hd]. cbn. rewrite He, Hd0. cbn.
      constructor; [|by apply IH]. unfold discard_entry. cbn. by destruct (decide _). }
  apply Hgo.
  - apply Forall_reverse. destruct Hs as [fin Hd|fin e wait Hd He Hw].
    + eapply Forall_impl; [exact Hd|]. by intros x [].
    + apply Forall_app. split; [eapply Forall_impl; [exact Hd|]; by intros x []|].
      constructor; [destruct He as (_ & _ & ->); done|].
      eapply Forall_impl; [exact Hw|]. intros x (_ & _ & -> & _). done.
  - by apply Forall_reverse.
  - destruct Hs as [fin Hd|fin e wait Hd He Hw].
    + exists [], (reverse fin). split_and!; [done|done|]. apply Forall_reverse.
      eapply Forall_impl; [exact Hd|]. by intros x [].
    + exists (reverse (e :: wait)), (reverse fin). rewrite reverse_app. split_and!; [done|..]; apply Forall_reverse.
      * constructor; [by destruct He as (_ & _ & ?)|]. eapply Forall_impl; [exact Hw|]. by intros x (_ & _ & ? & _).
      * eapply Forall_impl; [exact Hd|]. by intros x [].
Qed.

(** The callbacks of a sequence are called in the order in which they were added, each
    at most once and one at a time: when one runs, all before it are finished and all
    behind it wait; and the sequence is never stuck: some callback runs as long as an
    entry is pending. *)
Theorem sequence_in_order os :
  Forall sequence_op_ok os ->
  let s := sequence_run os in
  calls s = called_from 0 (entries s) /\
  (forall i e, entries s !! i = Some e -> running_entry e ->
     forall j e', entries s !! j = Some e' ->
       (j < i -> finished_entry e') /\ (i < j -> waiting_entry e')) /\
  (forall i e, entries s !! i = Some e -> fstate e = PENDING ->
     exists j e', j <= i /\ entries s !! j = Some e' /\ running_entry e').
Proof.
  intros Hos s. destruct (sequence_run_inv os Hos) as [Hs Hc]. fold s in Hs, Hc.
  split; [done|]. split.
  - intros i e Hi He j e' Hj. destruct He as (Hp & Hce & Hn).
    destruct (shape_called _ _ _ Hs Hi Hce Hp) as (fin & wait & Hes & Hl & Hd & He & Hw).
    rewrite Hes, lookup_app in Hj. rewrite Forall_lookup in Hd, Hw. split; intros Hij.
    + destruct (fin !! j) as [x|] eqn:Hx; [injection Hj as ->; by eapply Hd|].
      apply lookup_ge_None in Hx. lia.
    + rewrite lookup_ge_None_2 in Hj by lia. destruct (j - length fin) as [|k] eqn:Hk; [lia|].
      by eapply Hw.
  - intros i e Hi Hp. revert Hi. generalize (entries s) Hs. intros es Hes Hi.
    destruct Hes as [fin Hd|fin x wait Hd Hx Hw].
    + rewrite Forall_lookup in Hd. destruct (Hd _ _ Hi) as [Hf _]. by destruct Hf.
    + exists (length fin), x. split_and!; [|by rewrite list_lookup_middle|done].
      destruct (decide (i < length fin)) as [Hlt|]; [|lia].
      rewrite lookup_app_l in Hi by done. rewrite Forall_lookup in Hd. destruct (Hd _ _ Hi) as [Hf _].
      by destruct Hf.
Qed.

(** When the process of a sequence is finalized, no callback is called any more: the
    one that runs may complete, and the others are discarded in turn. *)
Theorem finalized_calls_nothing os os' :
  Forall sequence_op_ok (os ++ os') -> Finalize ∉ os -> (forall r, Add r ∉ os') ->
  calls (sequence_run (os ++ Finalize :: os')) = calls (sequence_run os).
Proof.
  intros [Hok Hok']%Forall_app Hf Hadd.
  assert (Hgo : forall os', (forall r, Add r ∉ os') -> Forall sequence_op_ok os' ->
    let s := sequence_run (os ++ Finalize :: os') in
    sequence_inv s /\ cancelled s /\ calls s = calls (sequence_run os)).
  { clear os' Hok' Hadd. intros os'. induction os' as [|o os' IH] using rev_ind; intros Hadd Hok'.
    - change (os ++ [Finalize]) with (os ++ [Finalize]). rewrite sequence_run_snoc.
      pose proof (sequence_run_inv os Hok) as Hi. split_and!; [by apply sequence_step_inv| |done].
      apply finalize_cancels; [done|]. by apply notifiers_kept.
    - apply Forall_app in Hok' as [Hok' Ho]. apply Forall_cons in Ho as [Ho _].
      destruct IH as (Hi & Hc & Hcs); [set_solver|done|].
      change (os ++ Finalize :: os' ++ [o]) with (os ++ (Finalize :: os') ++ [o]).
      rewrite (assoc_L app), sequence_run_snoc.
      destruct (cancelled_step o _ (fun r Hr => Hadd r ltac:(set_solver)) Hi Hc) as [Hc' Hcs'].
      split_and!; [by apply sequence_step_inv|done|congruence]. }
  by apply Hgo.
Qed.

Definition three_added : list sequence_op :=
  [Add None; Add (Some FAILED); Add None; DiscardFuture 2; Add None].

Lemma sequence_in_order_witness :
  calls (sequence_run (three_added ++ [Completed 0 READY])) = [0; 1; 3] /\
  exists j e', j <= 3 /\
    entries (sequence_run (three_added ++ [Completed 0 READY])) !! j = Some e' /\ running_entry e'.
Proof.
  destruct (sequence_in_order (three_added ++ [Completed 0 READY])) as (Hc & _ & Hp);
    [by repeat constructor|].
  split; [by rewrite Hc|]. by apply (Hp 3 (mkEntry None PENDING false true false false)).
Defined.

Lemma finalized_calls_nothing_witness :
  calls (sequence_run (three_added ++ Finalize :: [Completed 0 READY])) = [0].
Proof.
  rewrite (finalized_calls_nothing three_added [Completed 0 READY]).
  - reflexivity.
  - by repeat constructor.
  - set_solver.
  - set_solver.
Defined.
