(* ===== verification/Metrics.v ===== *)
(** Metrics: [Metric], [Counter], [PushGauge] and [Timer] of [metrics/*.hpp], and the
    registry [MetricsProcess] of [metrics/metrics.cpp].

    The time of the clock is an argument.  A [double] is an exact rational; [int64_t] values
    are atomic and wrap, but the sum that is pushed to the history is a signed addition,
    whose overflow is not defined. *)

From Stdlib Require Import Ascii String QArith.
From S2P Require Import Prelude HttpCodec HttpText HttpTextSpec TimeSeries TimeSeriesSpec.
From S2P Require Import Statistics HttpConnection.

Local Open Scope string_scope.

(** ** Histories *)

Definition TIME_SERIES_CAPACITY : nat := 1000.

(** [Metric::Data]. *)
Record MetricData := mkMetricData { mname : string; history : option (@TimeSeries Q) }.

Definition MetricData_init (name : string) (window : option Z) : MetricData :=
  mkMetricData name ((fun w => TimeSeries_init w TIME_SERIES_CAPACITY) <$> window).

(** [Metric::push]. *)
Definition push (now : Z) (v : Q) (m : MetricData) : checked MetricData :=
  match history m with
  | None => Returns m
  | Some h =>
      match set now v now h with
      | Returns h => Returns (mkMetricData (mname m) (Some h))
      | Abort e => Abort e
      end
  end.

(** [Metric::statistics]. *)
Definition statistics (m : MetricData) : checked (option Statistics) :=
  match history m with
  | None => Returns None
  | Some h => from_series h
  end.

(** ** Counters and gauges *)

(** [int64_t]. *)
Definition wrap64 (z : Z) : Z := (z + 2 ^ 63) mod 2 ^ 64 - 2 ^ 63.
Definition fits64 (z : Z) : bool := (- 2 ^ 63 <=? z)%Z && (z <? 2 ^ 63)%Z.
Definition signed (z : Z) : checked Z := if fits64 z then Returns z else Abort "signed overflow".

Record Gauge := mkGauge { gdata : MetricData; gvalue : Z }.

(** What a [Counter] and a [PushGauge] have in common: the value that is stored, and the
    value that is pushed. *)
Definition store (now : Z) (stored : Z) (pushed : checked Z) (g : Gauge) : checked Gauge :=
  match pushed with
  | Abort e => Abort e
  | Returns p =>
      match push now (inject_Z p) (gdata g) with
      | Returns m => Returns (mkGauge m stored)
      | Abort e => Abort e
      end
  end.

Definition Counter_init (name : string) (window : option Z) (now : Z) : checked Gauge :=
  store now 0 (Returns 0%Z) (mkGauge (MetricData_init name window) 0).
Definition Counter_reset (now : Z) (g : Gauge) : checked Gauge := store now 0 (Returns 0%Z) g.
Definition Counter_add (now : Z) (v : Z) (g : Gauge) : checked Gauge :=
  store now (wrap64 (gvalue g + v)) (signed (gvalue g + v)) g.
Definition Counter_increment (now : Z) (g : Gauge) : checked Gauge := Counter_add now 1 g.

Definition PushGauge_init (name : string) : Gauge := mkGauge (MetricData_init name None) 0.
Definition PushGauge_assign (now : Z) (v : Z) (g : Gauge) : checked Gauge := store now v (Returns v) g.
Definition PushGauge_add (now : Z) (v : Z) (g : Gauge) : checked Gauge :=
  store now (wrap64 (gvalue g + v)) (signed (gvalue g + v)) g.
Definition PushGauge_sub (now : Z) (v : Z) (g : Gauge) : checked Gauge :=
  store now (wrap64 (gvalue g - v)) (signed (gvalue g - v)) g.

(** [value]. *)
Definition Gauge_value (g : Gauge) : completion Q := IsReady (inject_Z (gvalue g)).

(** ** Timers *)

(** [units] converts a duration to the unit of the timer. *)
Record MetricTimer := mkTimer { tdata : MetricData; tstart : Z; lastValue : option Q }.

Definition MetricTimer_init (name suffix : string) (window : option Z) : MetricTimer :=
  mkTimer (MetricData_init (name +:+ "_" +:+ suffix) window) 0 None.
Definition Timer_value (t : MetricTimer) : completion Q :=
  match lastValue t with Some v => IsReady v | None => IsFailed "No value" end.
Definition Timer_start (now : Z) (t : MetricTimer) : MetricTimer := mkTimer (tdata t) now (lastValue t).
Definition Timer_time (units : Z -> Q) (start now : Z) (t : MetricTimer) : checked MetricTimer :=
  let v := units (now - start)%Z in
  match push now v (tdata t) with
  | Returns m => Returns (mkTimer m (tstart t) (Some v))
  | Abort e => Abort e
  end.
Definition Timer_stop (units : Z -> Q) (now : Z) (t : MetricTimer) : checked MetricTimer :=
  Timer_time units (tstart t) now t.

(** ** The registry *)

(** A metric as the registry sees it: its data, and its value, [None] while it is pending. *)
Record Metric := mkMetric { mdata : MetricData; mvalue : option (completion Q) }.

Definition Registry : Type := gmap string Metric.

Definition add (m : Metric) (r : Registry) : Try Registry :=
  match r !! mname (mdata m) with
  | Some _ => Error ("Metric '" +:+ mname (mdata m) +:+ "' was already added")
  | None => Some_ (<[mname (mdata m) := m]> r)
  end.
Definition remove (name : string) (r : Registry) : Try Registry :=
  match r !! name with
  | None => Error ("Metric '" +:+ name +:+ "' not found")
  | Some _ => Some_ (delete name r)
  end.

(** What [snapshot] collects: the names, the values and the statistics. *)
Record collected := mkCollected { key : string; val_ : option (completion Q); stat : option Statistics }.

Fixpoint collect_metrics (l : list (string * Metric)) : checked (list collected) :=
  match l with
  | [] => Returns []
  | (k, m) :: l =>
      match statistics (mdata m), collect_metrics l with
      | Returns s, Returns cs => Returns (mkCollected k (mvalue m) s :: cs)
      | Abort e, _ | _, Abort e => Abort e
      end
  end.
Definition snapshot (r : Registry) : checked (list collected) := collect_metrics (map_to_list r).

(** [emplace_hint]: an entry that is there stays. *)
Definition emplace_hint (m : gmap string Q) (kv : string * Q) : gmap string Q :=
  match m !! kv.1 with Some _ => m | None => <[kv.1 := kv.2]> m end.

Definition statistics_entries (k : string) (s : Statistics) : list (string * Q) :=
  [(k +:+ "/count", inject_Z (Z.of_nat (count s))); (k +:+ "/max", max_ s); (k +:+ "/min", min_ s);
   (k +:+ "/p50", p50 s); (k +:+ "/p90", p90 s); (k +:+ "/p95", p95 s); (k +:+ "/p99", p99 s);
   (k +:+ "/p999", p999 s); (k +:+ "/p9999", p9999 s)].

(** The body of the loop of [__snapshot]. *)
Definition report (timeout : bool) (c : collected) (m : gmap string Q) : checked (gmap string Q) :=
  let value :=
    match val_ c with
    | None => if timeout then Returns m else Abort "CHECK_SOME(timeout)"
    | Some (IsReady v) => Returns (emplace_hint m (key c, v))
    | Some _ => Returns m
    end in
  match value with
  | Abort e => Abort e
  | Returns m =>
      Returns (match stat c with
               | Some s => foldl emplace_hint m (statistics_entries (key c) s)
               | None => m
               end)
  end.
Fixpoint report_all (timeout : bool) (cs : list collected) (m : gmap string Q)
    : checked (gmap string Q) :=
  match cs with
  | [] => Returns m
  | c :: cs => match report timeout c m with Returns m => report_all timeout cs m | Abort e => Abort e end
  end.
Definition __snapshot (timeout : bool) (cs : list collected) : checked (gmap string Q) :=
  report_all timeout cs ∅.

(** ** Values *)

(** A history that works. *)
Definition good (m : MetricData) : Prop :=
  forall h, history m = Some h ->
    ok h /\ (length (values h) <= capacity h)%nat /\ capacity h = TIME_SERIES_CAPACITY.

Lemma init_good name w : good (MetricData_init name w).
Proof.
  intros h Hh. cbn in Hh. destruct w as [w|]; [|done]. injection Hh as <-.
  split_and!; [|simpl; lia|done]. apply init_ok. unfold TIME_SERIES_CAPACITY. lia.
Qed.

Lemma push_good now v m : good m -> exists m', push now v m = Returns m' /\ good m' /\ mname m' = mname m.
Proof.
  intros Hg. unfold push. destruct (history m) as [h|] eqn:Hh; [|eauto].
  destruct (Hg h Hh) as (Hok & Hl & Hc).
  destruct (set_ok now v now h Hok) as (h' & -> & Hok' & Hc' & _ & _ & Hl').
  { unfold size. rewrite Hc in Hl. unfold TIME_SERIES_CAPACITY in Hl. lia. }
  eexists. split; [done|]. split; [|done]. intros h2 [= <-]. split_and!; [done|lia|congruence].
Qed.

Lemma store_good now z p g : good (gdata g) ->
  exists g', store now z (Returns p) g = Returns g' /\ good (gdata g') /\ gvalue g' = z.
Proof.
  intros Hg. unfold store. destruct (push_good now (inject_Z p) (gdata g) Hg) as (m & -> & Hm & _). eauto.
Qed.

Lemma wrap64_fits z : fits64 z = true -> wrap64 z = z.
Proof.
  unfold fits64, wrap64. intros [H1%Z.leb_le H2%Z.ltb_lt]%andb_true_iff.
  rewrite Z.mod_small by lia. lia.
Qed.

Inductive counter_op := Reset | Increase (v : Z).
Definition counter_step (now : Z) (o : counter_op) (g : Gauge) : checked Gauge :=
  match o with Reset => Counter_reset now g | Increase v => Counter_add now v g end.
Fixpoint counter_run (os : list (Z * counter_op)) (g : Gauge) : checked Gauge :=
  match os with
  | [] => Returns g
  | (now, o) :: os =>
      match counter_step now o g with Returns g => counter_run os g | Abort e => Abort e end
  end.

(** The total since the last reset, and whether all totals on the way are representable. *)
Fixpoint total (z : Z) (os : list (Z * counter_op)) : Z :=
  match os with
  | [] => z
  | (_, Reset) :: os => total 0 os
  | (_, Increase v) :: os => total (z + v) os
  end.
Fixpoint representable (z : Z) (os : list (Z * counter_op)) : bool :=
  match os with
  | [] => true
  | (_, Reset) :: os => representable 0 os
  | (_, Increase v) :: os => fits64 (z + v) && representable (z + v) os
  end.

(** A counter counts: after any operations at any times its value is the total since the
    last reset, and no operation goes wrong, as long as the totals on the way fit 64 bits;
    the first that does not is an overflow of a signed addition. *)
Theorem counter_counts name window now os :
  exists c, Counter_init name window now = Returns c /\
    if representable 0 os then
      exists c', counter_run os c = Returns c' /\ Gauge_value c' = IsReady (inject_Z (total 0 os))
    else exists e, counter_run os c = Abort e.
Proof.
  destruct (store_good now 0 0 (mkGauge (MetricData_init name window) 0) (init_good _ _))
    as (c & Hc & Hg & Hv). exists c. split; [exact Hc|]. clear Hc.
  change 0%Z with (gvalue (mkGauge (gdata c) 0)) at 2. rewrite <- Hv. clear Hv now.
  cbn [gvalue]. revert c Hg. induction os as [|[now o] os IH]; intros c Hg; cbn [representable].
  { exists c. done. }
  destruct o as [|v]; cbn [counter_run counter_step total].
  - unfold Counter_reset. destruct (store_good now 0 0 c Hg) as (c' & -> & Hg' & Hv').
    specialize (IH c' Hg'). by rewrite Hv' in IH.
  - unfold Counter_add, signed. destruct (fits64 (gvalue c + v)) eqn:Hf; cbn [andb]; [|by eexists].
    destruct (store_good now (wrap64 (gvalue c + v)) (gvalue c + v) c Hg) as (c' & -> & Hg' & Hv').
    specialize (IH c' Hg'). by rewrite Hv', (wrap64_fits _ Hf) in IH.
Qed.

(** ** Snapshots *)

(** What a metric adds to a snapshot. *)
Definition reported (c : collected) : list (string * Q) :=
  ((match val_ c with Some (IsReady v) => [(key c, v)] | _ => [] end) ++
   (match stat c with Some s => statistics_entries (key c) s | None => [] end))%list.

Lemma report_pairs timeout c m :
  (timeout = false -> val_ c <> None) -> report timeout c m = Returns (foldl emplace_hint m (reported c)).
Proof.
  intros Ht. unfold report, reported. rewrite foldl_app.
  destruct (val_ c) as [[v| |]|]; [by destruct (stat c)..|].
  destruct timeout; [by destruct (stat c)|]. by destruct (Ht eq_refl).
Qed.

Lemma report_all_pairs timeout cs m :
  (timeout = false -> Forall (fun c => val_ c <> None) cs) ->
  report_all timeout cs m = Returns (foldl emplace_hint m (concat (map reported cs))).
Proof.
  revert m. induction cs as [|c cs IH]; intros m Ht; [done|]. cbn [report_all map concat].
  rewrite report_pairs by (intros Hf; by specialize (Ht Hf); apply Forall_cons in Ht as [? _]).
  rewrite foldl_app. apply IH. intros Hf. by specialize (Ht Hf); apply Forall_cons in Ht as [_ ?].
Qed.

Lemma emplaced_lookup (l : list (string * Q)) m k v :
  NoDup (l.*1) -> (forall x, x ∈ l.*1 -> m !! x = None) ->
  foldl emplace_hint m l !! k = Some v <-> (k, v) ∈ l \/ m !! k = Some v.
Proof.
  revert m. induction l as [|[x y] l IH]; intros m Hn Hm; cbn.
  { split; [by right|]. by intros [Hx%elem_of_nil|]. }
  apply NoDup_cons in Hn as [Hx Hn]. unfold emplace_hint at 2. cbn. rewrite (Hm x) by left.
  rewrite IH; [|done|].
  - rewrite elem_of_cons. destruct (decide (k = x)) as [->|Hne].
    + rewrite lookup_insert_eq, (Hm x) by left. split.
      * intros [Hin|[= ->]]; [|by left; left]. destruct Hx. by apply (list_elem_of_fmap_2 fst) in Hin.
      * intros [[[= ->]|Hin]|?]; [by right|by left|done].
    + rewrite lookup_insert_ne by done. naive_solver.
  - intros z Hz. rewrite lookup_insert_ne; [|by intros ->]. apply Hm. by right.
Qed.

(** A name and a statistic are told apart at the last slash. *)
Lemma last_separator (c : ascii) (l1 l2 w1 w2 : list ascii) :
  (l1 ++ c :: w1 = l2 ++ c :: w2)%list -> c ∉ w1 -> c ∉ w2 -> l1 = l2 /\ w1 = w2.
Proof.
  revert l2. induction l1 as [|x l1 IH]; intros [|y l2]; cbn; intros He H1 H2.
  - by injection He.
  - injection He as -> ->. destruct H1. set_solver.
  - injection He as -> He. destruct H2. rewrite <- He. set_solver.
  - injection He as -> He. destruct (IH l2 He H1 H2) as [-> ->]. done.
Qed.

Definition statistic_names : list string :=
  ["count"; "max"; "min"; "p50"; "p90"; "p95"; "p99"; "p999"; "p9999"].

Lemma statistics_keys k s :
  (statistics_entries k s).*1 = map (fun w => k +:+ "/" +:+ w) statistic_names.
Proof. done. Qed.

Lemma statistic_key_inj k1 k2 w1 w2 :
  w1 ∈ statistic_names -> w2 ∈ statistic_names -> k1 +:+ "/" +:+ w1 = k2 +:+ "/" +:+ w2 ->
  k1 = k2 /\ w1 = w2.
Proof.
  assert (Hno : forall w, w ∈ statistic_names -> "/"%char ∉ list_ascii_of_string w).
  { intros w Hw. unfold statistic_names in Hw. apply list_elem_of_In in Hw. cbn in Hw.
    intros Hin%list_elem_of_In. repeat (destruct Hw as [<-|Hw]; [cbn in Hin; naive_solver|]). done. }
  intros H1 H2 He. apply (f_equal list_ascii_of_string) in He. rewrite !chars_append in He.
  destruct (last_separator _ _ _ _ _ He (Hno _ H1) (Hno _ H2)) as [Hk Hw].
  apply (f_equal string_of_list_ascii) in Hk, Hw. by rewrite !string_of_list_ascii_of_string in Hk, Hw.
Qed.

(** No metric is named like a statistic of another. *)
Definition no_clash (cs : list collected) : Prop :=
  forall c c' w, c ∈ cs -> c' ∈ cs -> is_Some (stat c') -> w ∈ statistic_names ->
    key c <> key c' +:+ "/" +:+ w.

Lemma reported_keys c x : x ∈ (reported c).*1 ->
  x = key c \/ (is_Some (stat c) /\ exists w, w ∈ statistic_names /\ x = key c +:+ "/" +:+ w).
Proof.
  unfold reported. rewrite fmap_app, elem_of_app. intros [Hx|Hx].
  - left. destruct (val_ c) as [[v| |]|]; cbn in Hx; set_solver.
  - right. destruct (stat c) as [s|]; [|by apply elem_of_nil in Hx]. split; [eauto|].
    rewrite statistics_keys in Hx. apply list_elem_of_fmap in Hx as (w & -> & Hw). eauto.
Qed.

Lemma reported_NoDup c : no_clash [c] -> NoDup ((reported c).*1).
Proof.
  intros Hc. unfold reported. rewrite fmap_app. apply NoDup_app. split_and!.
  - destruct (val_ c) as [[v| |]|]; cbn; try apply NoDup_nil_2. apply NoDup_singleton.
  - intros x Hx Hs. assert (x = key c) as -> by (destruct (val_ c) as [[v| |]|]; cbn in Hx; set_solver).
    destruct (stat c) as [s|] eqn:Hst; [|by apply elem_of_nil in Hs]. rewrite statistics_keys in Hs.
    apply list_elem_of_fmap in Hs as (w & Hw & Hin).
    by apply (Hc c c w); [left|left|rewrite Hst; eauto|..].
  - destruct (stat c) as [s|]; [|apply NoDup_nil_2]. rewrite statistics_keys.
    apply NoDup_fmap_2_strong; [|apply NoDup_ListNoDup; repeat constructor; cbn; naive_solver].
    intros w1 w2 H1 H2 He. by destruct (statistic_key_inj _ _ _ _ H1 H2 He).
Qed.

Lemma reported_all_NoDup cs :
  NoDup (map key cs) -> no_clash cs -> NoDup ((concat (map reported cs)).*1).
Proof.
  induction cs as [|c cs IH]; intros Hn Hc; [apply NoDup_nil_2|]. cbn [map concat].
  apply NoDup_cons in Hn as [Hk Hn]. rewrite fmap_app. apply NoDup_app. split_and!.
  - apply reported_NoDup. intros a b w Ha%list_elem_of_singleton Hb%list_elem_of_singleton. subst.
    apply Hc; left.
  - intros x Hx Hin. apply list_elem_of_fmap in Hin as (p & -> & Hp).
    apply list_elem_of_In, in_concat in Hp as (l & Hl & Hp). apply in_map_iff in Hl as (c' & <- & Hc').
    apply list_elem_of_In in Hc', Hp. apply (list_elem_of_fmap_2 fst) in Hp.
    assert (Hne : key c <> key c').
    { intros He. apply Hk. rewrite He. by apply list_elem_of_fmap_2. }
    apply reported_keys in Hx, Hp.
    destruct Hx as [Hx|(Hs & w & Hw & Hx)], Hp as [Hp|(Hs' & w' & Hw' & Hp)]; rewrite Hx in Hp.
    + done.
    + by apply (Hc c c' w'); [left|right|..].
    + by apply (Hc c' c w); [right|left|..|symmetry].
    + by destruct (statistic_key_inj _ _ _ _ Hw Hw' Hp).
  - apply IH; [done|]. intros a b w Ha Hb. apply Hc; by right.
Qed.

(** A snapshot holds exactly the values that are ready, and the statistics of the
    metrics that have a history, under their names; no [CHECK] fails when all values are
    there or a timeout was given.  (A metric must not be named like a statistic of another:
    the one that comes first would hide the other.) *)
Theorem snapshot_reports timeout cs :
  NoDup (map key cs) -> no_clash cs ->
  (timeout = false -> Forall (fun c => val_ c <> None) cs) ->
  exists m, __snapshot timeout cs = Returns m /\
    forall k v, m !! k = Some v <-> exists c, c ∈ cs /\ (k, v) ∈ reported c.
Proof.
  intros Hn Hc Ht. eexists. split; [by apply report_all_pairs|]. intros k v.
  rewrite emplaced_lookup; [|by apply reported_all_NoDup|by intros; apply lookup_empty].
  rewrite lookup_empty, list_elem_of_In, in_concat. split.
  - intros [(l & Hl & Hp)|]; [|done]. apply in_map_iff in Hl as (c & <- & Hin).
    exists c. by rewrite !list_elem_of_In.
  - intros (c & Hin & Hp). left. exists (reported c). rewrite <- !list_elem_of_In. split; [|done].
    by apply list_elem_of_fmap_2.
Qed.

Definition two_metrics : list collected :=
  [mkCollected "jobs" (Some (IsReady (3#1)))
     (Some (mkStatistics 2 (1#1) (3#1) (3#2) (2#1) (5#2) (2#1) (2#1) (2#1) (2#1) (2#1)));
   mkCollected "late" None None].

Lemma snapshot_reports_witness :
  exists m, __snapshot true two_metrics = Returns m /\
    forall k v, m !! k = Some v <-> exists c, c ∈ two_metrics /\ (k, v) ∈ reported c.
Proof.
  apply (snapshot_reports true two_metrics).
  - by apply (bool_decide_unpack _).
  - intros c c' w Hc Hc' [s Hs] Hw. unfold two_metrics in *.
    assert (key c = "jobs" \/ key c = "late") as Hk by set_solver.
    assert (key c' = "jobs" \/ key c' = "late") as Hk' by set_solver.
    intros He. apply (f_equal (fun s => mem "/" s)) in He. rewrite !mem_append in He.
    destruct Hk as [Hk|Hk]; rewrite Hk in He; by destruct (mem "/" (key c')).
  - done.
Defined.
