(* ===== verification/Loop.v ===== *)
(** The asynchronous loops of [loop.hpp].

    The first part is about the result: [Loop::run] as a function of what [iterate] and
    [body] return, compared with the recursion that the comments of the file give.  The
    second part is about discards: the steps of the threads that run the loop and of the
    thread that discards it, with the function [discard] that they share. *)

From S2P Require Import Prelude HttpConnection.

(** ** Results *)

(** [ControlFlow]. *)
Inductive ControlFlow (R : Type) := Continue | Break (v : R).
Arguments Continue {R}.
Arguments Break {R} v.

Section Result.
Context {T R : Type}.

(** How the futures of the [n]-th calls complete, and whether they are ready when they are
    returned. *)
Record client := mkClient {
  iterate : nat -> completion T;
  iterate_now : nat -> bool;
  body : nat -> T -> completion (ControlFlow R);
  body_now : nat -> bool;
}.

(** Where the loop is: blocked on a future of [iterate] or of [body], or completed. *)
Inductive loop_state :=
| OnIterate (n : nat)
| OnBody (n : nat) (t : T)
| Finished (r : completion R).

(** A future that failed or was discarded ends the loop. *)
Definition not_ready {A} (x : completion A) : option (completion R) :=
  match x with
  | IsReady _ => None
  | IsFailed m => Some (IsFailed m)
  | IsDiscarded => Some IsDiscarded
  end.

(** [run(next)], for the [n]-th future of [iterate]: goes on while the futures are ready. *)
Fixpoint run (fuel : nat) (c : client) (n : nat) : loop_state :=
  match fuel with
  | O => OnIterate n
  | S fuel =>
      if iterate_now c n then
        match iterate c n with
        | IsReady t =>
            if body_now c n then
              match body c n t with
              | IsReady Continue => run fuel c (S n)
              | IsReady (Break v) => Finished (IsReady v)
              | _ => OnBody n t
              end
            else OnBody n t
        | _ => OnIterate n
        end
      else OnIterate n
  end.

(** The continuations: the future on which the loop is blocked has completed. *)
Definition continuation (fuel : nat) (c : client) (s : loop_state) : loop_state :=
  match s with
  | OnIterate n =>
      match iterate c n with
      | IsReady t =>
          (* [run(next)] with a future that is ready. *)
          match body_now c n, body c n t with
          | true, IsReady Continue => run fuel c (S n)
          | true, IsReady (Break v) => Finished (IsReady v)
          | _, _ => OnBody n t
          end
      | IsFailed m => Finished (IsFailed m)
      | IsDiscarded => Finished IsDiscarded
      end
  | OnBody n t =>
      match body c n t with
      | IsReady Continue => run fuel c (S n)
      | IsReady (Break v) => Finished (IsReady v)
      | IsFailed m => Finished (IsFailed m)
      | IsDiscarded => Finished IsDiscarded
      end
  | Finished r => Finished r
  end.

(** [k] completions after the start. *)
Fixpoint completions (k fuel : nat) (c : client) (s : loop_state) : loop_state :=
  match k with O => s | S k => completions k fuel c (continuation fuel c s) end.

(** The recursion that the comments give. *)
Fixpoint recursion (fuel : nat) (c : client) (n : nat) : option (completion R) :=
  match fuel with
  | O => None
  | S fuel =>
      match iterate c n with
      | IsReady t =>
          match body c n t with
          | IsReady Continue => recursion fuel c (S n)
          | IsReady (Break v) => Some (IsReady v)
          | IsFailed m => Some (IsFailed m)
          | IsDiscarded => Some IsDiscarded
          end
      | IsFailed m => Some (IsFailed m)
      | IsDiscarded => Some IsDiscarded
      end
  end.

(** What is left to compute. *)
Definition rest (fuel : nat) (c : client) (s : loop_state) : option (completion R) :=
  match s with
  | OnIterate n => recursion fuel c n
  | OnBody n t =>
      match fuel with
      | O => None
      | S fuel =>
          match body c n t with
          | IsReady Continue => recursion fuel c (S n)
          | IsReady (Break v) => Some (IsReady v)
          | IsFailed m => Some (IsFailed m)
          | IsDiscarded => Some IsDiscarded
          end
      end
  | Finished r => Some r
  end.

(** The completions that [m] iterations can still need. *)
Definition measure (m : nat) (s : loop_state) : nat :=
  match s with OnIterate _ => 2 * m | OnBody _ _ => 2 * m - 1 | Finished _ => 0 end.

Lemma run_rest fuel c n m r :
  recursion m c n = Some r ->
  exists m', m' <= m /\ rest m' c (run fuel c n) = Some r.
Proof.
  revert n m. induction fuel as [|fuel IH]; intros n m Hr; cbn [run]; [by exists m|].
  destruct (iterate_now c n); [|by exists m]. destruct m as [|m]; [done|]. cbn [recursion] in Hr.
  assert (Hstay : rest (S m) c (OnIterate n) = Some r) by done.
  destruct (iterate c n) as [t|e|] eqn:Hi; [|by exists (S m)..].
  assert (Hbody : rest (S m) c (OnBody n t) = Some r) by done.
  destruct (body_now c n); [|by exists (S m)].
  destruct (body c n t) as [[|v]|e|] eqn:Hb; [|by exists (S m)..].
  destruct (IH (S n) m Hr) as (m' & Hm' & Hrest). exists m'. split; [lia|done].
Qed.

Lemma measure_le m' m s : m' <= m -> measure m' s <= measure m s.
Proof. destruct s; cbn; lia. Qed.

Lemma continuation_rest fuel c s m r :
  rest m c s = Some r -> (forall r', s <> Finished r') ->
  exists m', measure m' (continuation fuel c s) < measure m s /\
    rest m' c (continuation fuel c s) = Some r.
Proof.
  intros Hr Hs.
  assert (Hgo : forall n k, S k <= m -> recursion k c n = Some r ->
    exists m', measure m' (run fuel c n) < 2 * m - 1 /\ rest m' c (run fuel c n) = Some r).
  { intros n k Hk Hn. destruct (run_rest fuel c n k r Hn) as (m' & Hm' & Hx). exists m'. split; [|done].
    pose proof (measure_le m' k (run fuel c n) Hm'). destruct (run fuel c n); cbn in *; lia. }
  destruct m as [|m]; [destruct s; cbn in *; try done; by destruct (Hs r0)|].
  destruct s as [n|n t|r0]; [| |by destruct (Hs r0)]; cbn [continuation rest recursion] in *.
  - destruct (iterate c n) as [t|e|]; [|exists 0; cbn; split; [lia|done]..].
    assert (Hbody : exists m', measure m' (OnBody n t : loop_state) < measure (S m) (OnIterate n) /\
      rest m' c (OnBody n t) = Some r) by (exists (S m); cbn; split; [lia|done]).
    destruct (body_now c n); [|done]. destruct (body c n t) as [[|v]|e|]; [| |done|done].
    + destruct (Hgo (S n) m ltac:(lia) Hr) as (m' & Hm' & Hx). exists m'. cbn [measure]. split; [lia|done].
    + exists 0. cbn. split; [lia|done].
  - destruct (body c n t) as [[|v]|e|]; [|exists 0; cbn; split; [lia|done]..].
    cbn [measure]. destruct (Hgo (S n) m ltac:(lia) Hr) as (m' & Hm' & Hx). exists m'. split; [lia|done].
Qed.

Lemma completions_finished k fuel c r : completions k fuel c (Finished r) = Finished r.
Proof. by induction k. Qed.

(** C19: a loop computes what the recursion computes: when the recursion ends after [m]
    iterations, the loop completes with the same result after at most two completions of
    futures for each of them, whichever of the futures are ready when they are returned.
    The futures complete as the client says ([iterate], [body]); a discard request for
    the loop changes the result only through the future to which it is passed on, which
    the client can complete as discarded. *)
Theorem loop_is_recursion fuel m c r :
  recursion m c 0 = Some r ->
  exists k, k <= 2 * m /\ completions k fuel c (run fuel c 0) = Finished r.
Proof.
  intros Hr. destruct (run_rest fuel c 0 m r Hr) as (m' & Hm' & Hrest).
  assert (Hk : forall w s m', measure m' s <= w -> rest m' c s = Some r ->
    exists k, k <= w /\ completions k fuel c s = Finished r).
  { induction w as [|w IH]; intros s m1 Hw Hs.
    - assert (Hfin : s = Finished r) by (destruct s, m1; cbn in *; try done; try lia; congruence).
      exists 0. split; [lia|done].
    - assert (Hc : (exists r', s = Finished r') \/ (forall r', s <> Finished r')) by (destruct s; eauto).
      destruct Hc as [[r' ->]|Hc]; [exists 0; cbn in *; split; [lia|congruence]|].
      destruct (continuation_rest fuel c s m1 r Hs Hc) as (m2 & Hm2 & Hs2).
      destruct (IH (continuation fuel c s) m2 ltac:(lia) Hs2) as (k & Hk & Ha). exists (S k). split; [lia|done]. }
  apply (Hk (2 * m) _ m'); [|done]. transitivity (measure m (run fuel c 0)); [by apply measure_le|].
  destruct (run fuel c 0); cbn; lia.
Qed.
End Result.
Arguments client : clear implicits.
Arguments loop_state : clear implicits.

(** Three iterations, of which some block. *)
Definition counting : client nat nat :=
  mkClient (fun n => IsReady n) (fun n => negb (Nat.eqb n 1))
    (fun n t => if Nat.ltb t 3 then IsReady Continue else IsReady (Break t)) (fun n => Nat.eqb n 0).

Lemma loop_is_recursion_witness :
  exists k, k <= 8 /\ completions k 5 counting (run 5 counting 0) = Finished (IsReady 3).
Proof. apply (loop_is_recursion 5 4 counting (IsReady 3)). reflexivity. Defined.

(** ** Discards *)

(** The steps of [run] around a future [f] on which the loop blocks: the function [discard]
    is reset; [onAny] is called; then, if no discard was requested, [discard] is set; then,
    if a discard was requested, [f] is discarded. *)
Inductive pc := ResetDiscard | Register (f : nat) | TestDiscard (f : nat) | StoreDiscard (f : nat)
  | RecheckDiscard (f : nat).

Definition block_on (f : nat) : list pc :=
  [ResetDiscard; Register f; TestDiscard f; StoreDiscard f; RecheckDiscard f].

(** The thread that discards the future of the loop: it sets its flag, reads the function
    [discard], and calls it. *)
Inductive discarder := NotDiscarded | FlagSet | FunctionRead (f : option nat) | DiscardDone.

Record loop_threads := mkLoop {
  blocked : option nat;          (* the future whose completion continues the loop *)
  fresh : nat;
  discard : option nat;
  hasDiscard : bool;
  discarded : gset nat;          (* the futures on which [discard] was called *)
  runs : list (list pc);
  queued : nat;                  (* continuations dispatched to [pid] *)
  who_discards : discarder;
}.

Definition loop_start : loop_threads := mkLoop None 1 None false ∅ [block_on 0] 0 NotDiscarded.

Definition set_runs (rs : list (list pc)) (s : loop_threads) : loop_threads :=
  mkLoop (blocked s) (fresh s) (discard s) (hasDiscard s) (discarded s) rs (queued s) (who_discards s).

(** One step of the [i]-th activation of [run]. *)
Definition exec (i : nat) (p : pc) (rest : list pc) (s : loop_threads) : loop_threads :=
  match p with
  | ResetDiscard =>
      mkLoop (blocked s) (fresh s) None (hasDiscard s) (discarded s) (<[i := rest]> (runs s))
        (queued s) (who_discards s)
  | Register f =>
      mkLoop (Some f) (fresh s) (discard s) (hasDiscard s) (discarded s) (<[i := rest]> (runs s))
        (queued s) (who_discards s)
  | TestDiscard f =>
      set_runs (<[i := if hasDiscard s then tail rest else rest]> (runs s)) s
  | StoreDiscard f =>
      mkLoop (blocked s) (fresh s) (Some f) (hasDiscard s) (discarded s) (<[i := rest]> (runs s))
        (queued s) (who_discards s)
  | RecheckDiscard f =>
      mkLoop (blocked s) (fresh s) (discard s) (hasDiscard s)
        (if hasDiscard s then {[f]} ∪ discarded s else discarded s) (<[i := rest]> (runs s))
        (queued s) (who_discards s)
  end.

(** [pid]: the loop has an execution context.  Then a continuation is dispatched to it and
    runs when the activation before has returned; otherwise it runs at once in the thread
    that completes the future.  The loop may also end. *)
Inductive loop_step (pid : bool) : loop_threads -> loop_threads -> Prop :=
| StepRun s i p rest :
    runs s !! i = Some (p :: rest) -> loop_step pid s (exec i p rest s)
| StepEnd s i f rest :
    runs s !! i = Some (Register f :: rest) -> loop_step pid s (set_runs (<[i := []]> (runs s)) s)
| StepComplete s f :
    blocked s = Some f ->
    loop_step pid s
      (if pid then mkLoop None (fresh s) (discard s) (hasDiscard s) (discarded s) (runs s)
                     (S (queued s)) (who_discards s)
       else mkLoop None (S (fresh s)) (discard s) (hasDiscard s) (discarded s)
              (runs s ++ [block_on (fresh s)]) (queued s) (who_discards s))
| StepDequeue s n :
    queued s = S n -> Forall (fun l => l = []) (runs s) ->
    loop_step pid s (mkLoop (blocked s) (S (fresh s)) (discard s) (hasDiscard s) (discarded s)
                       [block_on (fresh s)] n (who_discards s))
| StepDiscard s :
    who_discards s = NotDiscarded ->
    loop_step pid s (mkLoop (blocked s) (fresh s) (discard s) true (discarded s) (runs s) (queued s)
                       FlagSet)
| StepRead s :
    who_discards s = FlagSet ->
    loop_step pid s (mkLoop (blocked s) (fresh s) (discard s) (hasDiscard s) (discarded s) (runs s)
                       (queued s) (FunctionRead (discard s)))
| StepCall s f :
    who_discards s = FunctionRead f ->
    loop_step pid s (mkLoop (blocked s) (fresh s) (discard s) (hasDiscard s)
                       (match f with Some f => {[f]} ∪ discarded s | None => discarded s end) (runs s)
                       (queued s) DiscardDone).

Definition quiet (s : loop_threads) : Prop :=
  Forall (fun l => l = []) (runs s) /\ (who_discards s = NotDiscarded \/ who_discards s = DiscardDone).

(** A discard that was requested reaches, or will reach, the future [f]. *)
Definition covered (f : nat) (s : loop_threads) : Prop :=
  (hasDiscard s = false /\ discard s = Some f) \/ f ∈ discarded s \/
  (who_discards s = FlagSet /\ discard s = Some f) \/ who_discards s = FunctionRead (Some f).

(** With an execution context there is one activation at a time: it has done [j] steps
    around the future [f]. *)
Definition loop_inv (s : loop_threads) : Prop :=
  (who_discards s = NotDiscarded <-> hasDiscard s = false) /\
  (queued s <> 0 -> blocked s = None) /\ queued s <= 1 /\
  exists f j, j <= 5 /\ runs s = [drop j (block_on f)] /\
    (j < 2 -> blocked s = None /\ queued s = 0) /\
    (blocked s = None \/ blocked s = Some f) /\
    (j = 4 -> hasDiscard s = true \/ discard s = Some f) /\
    (j = 5 -> blocked s = Some f -> covered f s).

Lemma loop_inv_exec i p rest s :
  runs s !! i = Some (p :: rest) -> loop_inv s -> loop_inv (exec i p rest s).
Proof.
  intros Hi (Hw & Hq & Hq1 & f & j & Hj & Hr & Hlow & Hb & H4 & H5). rewrite Hr in Hi.
  destruct i as [|i]; [|done]. injection Hi as Hi.
  destruct j as [|[|[|[|[|[|j]]]]]]; cbn in Hi; try done; try lia; injection Hi as <- <-; cbn [exec];
    unfold loop_inv, set_runs; cbn; rewrite Hr.
  - destruct (Hlow ltac:(lia)) as [Hbl Hqu]. split_and!; [done|done|done|]. exists f, 1.
    split_and!; [lia|done|done|by left|lia|lia].
  - destruct (Hlow ltac:(lia)) as [Hbl Hqu]. split_and!; [done|done|done|]. exists f, 2.
    split_and!; [lia|done|lia|by right|lia|lia].
  - split_and!; [done|done|done|]. destruct (hasDiscard s) eqn:Hd.
    + exists f, 4. split_and!; [lia|done|lia|done|by left|lia].
    + exists f, 3. split_and!; [lia|done|lia|done|lia|lia].
  - split_and!; [done|done|done|]. exists f, 4. split_and!; [lia|done|lia|done|by right|lia].
  - split_and!; [done|done|done|]. exists f, 5. split_and!; [lia|done|lia|done|lia|]. intros _ _.
    unfold covered. cbn. destruct (hasDiscard s) eqn:Hd; [right; left; set_solver|].
    destruct (H4 eq_refl); [done|by left].
Qed.

Lemma loop_inv_step s s' : loop_step true s s' -> loop_inv s -> loop_inv s'.
Proof.
  destruct 1 as [s i p rest Hi|s i f0 rest Hi|s f0 Hbl|s n Hn Hall|s Hd|s Hd|s f0 Hd];
    [by apply loop_inv_exec|..]; intros (Hw & Hq & Hq1 & f & j & Hj & Hr & Hlow & Hb & H4 & H5);
    unfold loop_inv, set_runs; cbn.
  - rewrite Hr in Hi |- *. destruct i as [|i]; [|done]. injection Hi as Hi.
    destruct j as [|[|[|[|[|[|j]]]]]]; cbn in Hi; try done.
    destruct (Hlow ltac:(lia)) as [Hbl Hqu]. split_and!; [done|done|done|]. exists f, 5.
    split_and!; [lia|done|lia|done|lia|congruence].
  - assert (queued s = 0) by (destruct (queued s); [done|]; rewrite Hq in Hbl; done).
    split_and!; [done|done|lia|]. exists f, j. split_and!; [done|done| |by left|done|done].
    intros Hlt. destruct (Hlow Hlt). congruence.
  - assert (Hnone : blocked s = None) by (apply Hq; lia).
    split_and!; [done|done|lia|]. exists (fresh s), 0. split_and!; [lia|done| |by left|lia|lia].
    intros _. split; [done|lia].
  - split_and!; [done|done|done|]. exists f, j. split_and!; try done; [by left|].
    intros -> Hbf. destruct (H5 eq_refl Hbf) as [[_ Hx]|[Hx|[[Hx _]|Hx]]]; [|by right; left|congruence..].
    right. right. by left.
  - assert (Hf : hasDiscard s = true) by (destruct (hasDiscard s); [done|]; rewrite (proj2 Hw eq_refl) in Hd; done).
    split_and!; [rewrite Hf; done|done|done|]. exists f, j. split_and!; try done.
    intros -> Hbf. destruct (H5 eq_refl Hbf) as [[Hx _]|[Hx|[[_ Hx]|Hx]]]; [congruence|by right; left| |congruence].
    right. right. right. cbn. by rewrite Hx.
  - assert (Hf : hasDiscard s = true) by (destruct (hasDiscard s); [done|]; rewrite (proj2 Hw eq_refl) in Hd; done).
    split_and!; [rewrite Hf; done|done|done|]. exists f, j. split_and!; try done.
    intros -> Hbf. destruct (H5 eq_refl Hbf) as [[Hx _]|[Hx|[[Hx _]|Hx]]]; [congruence| |congruence|].
    + right. left. cbn. destruct f0; set_solver.
    + right. left. cbn. rewrite Hx in Hd. injection Hd as <-. set_solver.
Qed.

(** A loop that has an execution context passes a discard on: when a discard was
    requested and all threads have done what they had to do, the future on which the loop
    is blocked was discarded. *)
Theorem loop_passes_discard_on s f :
  rtc (loop_step true) loop_start s -> quiet s -> hasDiscard s = true -> blocked s = Some f ->
  f ∈ discarded s.
Proof.
  intros Hr [Hq Hd] Hf Hb. assert (Hi : loop_inv s).
  { assert (H0 : loop_inv loop_start).
    { split; [done|]. split; [done|]. split; [cbn; lia|]. exists 0, 0. split_and!; cbn; try done; try lia. by left. }
    revert H0. induction Hr as [|x y z Hs _ IH]; [done|]. intros Hx. apply IH; [done..|].
    by eapply loop_inv_step. }
  destruct Hi as (Hw & _ & _ & f' & j & Hj & Hrs & _ & Hbl & _ & H5). rewrite Hrs in Hq.
  apply Forall_cons in Hq as [Hl _].
  assert (j = 5) as -> by (destruct j as [|[|[|[|[|[|j]]]]]]; cbn in Hl; try done; lia).
  destruct Hbl as [Hbl|Hbl]; [congruence|]. assert (f' = f) as -> by congruence.
  destruct (H5 eq_refl Hbl) as [[Hx _]|[Hx|[[Hx _]|Hx]]]; [congruence|done|..];
    destruct Hd as [Hd|Hd]; congruence.
Qed.

(** Without an execution context: the future of the first activation completes right after
    the loop was registered with it; the second activation blocks on the next future and
    sets [discard]; the first one goes on and sets [discard] to its own future, which is
    completed; then the loop is discarded. *)
Definition overtaken : loop_threads :=
  mkLoop (Some 1) 2 (Some 0) true {[ 0 ]} [[]; []] 0 DiscardDone.

(** A loop without an execution context can lose a discard: it stays blocked on a future
    that is not discarded, although a discard was requested and all threads have done what
    they had to do. *)
Theorem loop_loses_discard :
  exists s f, rtc (loop_step false) loop_start s /\ quiet s /\ hasDiscard s = true /\
    blocked s = Some f /\ f ∉ discarded s.
Proof.
  exists overtaken, 1. split; [|split; [split; [by repeat constructor|by right]|by split_and!; [..|set_solver]]].
  do 2 (eapply rtc_l; [by apply (StepRun _ _ 0)|]).
  eapply rtc_l; [by apply (StepComplete _ _ 0)|].
  do 5 (eapply rtc_l; [by apply (StepRun _ _ 1)|]).
  do 3 (eapply rtc_l; [by apply (StepRun _ _ 0)|]).
  eapply rtc_l; [by apply StepDiscard|]. eapply rtc_l; [by apply StepRead|].
  eapply rtc_l; [by eapply StepCall|].
  match goal with |- rtc _ ?x ?y => replace x with y; [apply rtc_refl|] end.
  reflexivity.
Qed.

Definition passed_on : loop_threads :=
  mkLoop (Some 0) 1 (Some 0) true {[ 0 ]} [[]] 0 DiscardDone.

Lemma passed_on_reachable : rtc (loop_step true) loop_start passed_on.
Proof.
  do 5 (eapply rtc_l; [by apply (StepRun _ _ 0)|]).
  eapply rtc_l; [by apply StepDiscard|]. eapply rtc_l; [by apply StepRead|].
  eapply rtc_l; [by eapply StepCall|].
  match goal with |- rtc _ ?x ?y => replace x with y; [apply rtc_refl|] end.
  reflexivity.
Qed.

Lemma loop_passes_discard_on_witness : 0 ∈ discarded passed_on.
Proof.
  apply (loop_passes_discard_on passed_on 0 passed_on_reachable); [|done|done].
  split; [by repeat constructor|by right].
Defined.
