(* ===== verification/Ownership.v ===== *)
(** [Owned] and [Shared] ([owned.hpp], [shared.hpp]).

    Both are smart pointers over [std::shared_ptr]s to blocks ([Data]); a block deletes the
    object that it points to when its last [shared_ptr] goes, unless the object was handed
    on.  The model has the objects, the blocks, the variables of all threads, and the
    operations that a thread is in the middle of: [share], [release] and [own] change a
    block with one atomic access and reset the variable afterwards, and other threads can
    use their own copies in between. *)

From S2P Require Import Prelude.

(** Objects are numbered in the order of their allocation; a null pointer is [None]. *)
Notation ptr := nat (only parsing).

(** [Shared::Data]; its promise is the future of the same number. *)
Record SharedData := mkSharedData { t : ptr; owned : bool }.

(** What a variable holds. *)
Inductive value :=
| VOwned (data : option nat)     (* an [Owned<T>] *)
| VShared (data : option nat)    (* a [Shared<T>] *)
| VFuture (l : nat)              (* a [Future<Owned<T>>] of the promise of the block [l] *)
| VReadyNull                     (* a future that is ready with [Owned<T>(nullptr)] *)
| VFailure (message : string).   (* a future that failed *)

#[global] Instance value_eq_dec : EqDecision value.
Proof. solve_decision. Defined.

(** The second half of an operation. *)
Inductive frame :=
| FShare (v : nat) (old : ptr)     (* [data.reset(); return Shared<T>(old)] *)
| FRelease (v : nat) (old : ptr)   (* [data.reset(); return old] *)
| FOwn (v : nat).                  (* [data.reset(); return future] *)

Definition frame_var (f : frame) : nat :=
  match f with FShare v _ | FRelease v _ | FOwn v => v end.

Definition frame_ptr (f : frame) : option ptr :=
  match f with FShare _ p | FRelease _ p => Some p | FOwn _ => None end.

Record state := mkState {
  next : nat;                           (* objects allocated so far *)
  blocks : nat;                         (* blocks allocated so far *)
  odata : gmap nat (option ptr);        (* the blocks of type [Owned::Data]: their [t] *)
  sdata : gmap nat SharedData;          (* the blocks of type [Shared::Data] *)
  results : gmap nat nat;               (* the [Owned] that a promise was set to *)
  vars : gmap nat value;
  raw : list ptr;                       (* objects that the caller holds by a raw pointer *)
  deleted : list ptr;
  pending : list frame;
}.

Definition initial : state := mkState 0 0 ∅ ∅ ∅ ∅ [] [] [].

Definition set_vars (f : gmap nat value -> gmap nat value) (s : state) : state :=
  mkState (next s) (blocks s) (odata s) (sdata s) (results s) (f (vars s)) (raw s) (deleted s) (pending s).
Definition set_odata (f : gmap nat (option ptr) -> gmap nat (option ptr)) (s : state) : state :=
  mkState (next s) (blocks s) (f (odata s)) (sdata s) (results s) (vars s) (raw s) (deleted s) (pending s).
Definition set_sdata (f : gmap nat SharedData -> gmap nat SharedData) (s : state) : state :=
  mkState (next s) (blocks s) (odata s) (f (sdata s)) (results s) (vars s) (raw s) (deleted s) (pending s).
Definition set_results (f : gmap nat nat -> gmap nat nat) (s : state) : state :=
  mkState (next s) (blocks s) (odata s) (sdata s) (f (results s)) (vars s) (raw s) (deleted s) (pending s).
Definition set_raw (f : list ptr -> list ptr) (s : state) : state :=
  mkState (next s) (blocks s) (odata s) (sdata s) (results s) (vars s) (f (raw s)) (deleted s) (pending s).
Definition set_deleted (f : list ptr -> list ptr) (s : state) : state :=
  mkState (next s) (blocks s) (odata s) (sdata s) (results s) (vars s) (raw s) (f (deleted s)) (pending s).
Definition set_pending (f : list frame -> list frame) (s : state) : state :=
  mkState (next s) (blocks s) (odata s) (sdata s) (results s) (vars s) (raw s) (deleted s) (f (pending s)).
Definition set_blocks (f : nat -> nat) (s : state) : state :=
  mkState (next s) (f (blocks s)) (odata s) (sdata s) (results s) (vars s) (raw s) (deleted s) (pending s).

(** ** Blocks *)

(** Some [shared_ptr] still points to the block, or some copy of the future is left. *)
Definition used_owned (s : state) (o : nat) : Prop :=
  map_Exists (fun _ x => x = VOwned (Some o)) (vars s) \/
  map_Exists (fun _ o' => o' = o) (results s).
Definition used_shared (s : state) (l : nat) : Prop :=
  map_Exists (fun _ x => x = VShared (Some l)) (vars s).
Definition used_future (s : state) (l : nat) : Prop :=
  is_Some (sdata s !! l) \/ map_Exists (fun _ x => x = VFuture l) (vars s).

#[global] Instance used_owned_dec s o : Decision (used_owned s o).
Proof. apply _. Defined.
#[global] Instance used_shared_dec s l : Decision (used_shared s l).
Proof. apply _. Defined.
#[global] Instance used_future_dec s l : Decision (used_future s l).
Proof. apply _. Defined.

(** [Owned::Data::Data]. *)
Definition new_owned_data (p : ptr) (s : state) : nat * state :=
  (blocks s, set_blocks S (set_odata (insert (blocks s) (Some p)) s)).

(** [Shared::Data::Data]. *)
Definition new_shared_data (p : ptr) (s : state) : nat * state :=
  (blocks s, set_blocks S (set_sdata (insert (blocks s) (mkSharedData p false)) s)).

(** [Owned::Data::~Data], when the last [shared_ptr] to the block [o] went. *)
Definition release_owned (o : nat) (s : state) : state :=
  if decide (used_owned s o) then s
  else match odata s !! o with
       | Some p => set_deleted (fun d => d ++ option_list p) (set_odata (delete o) s)
       | None => s
       end.

(** The last copy of the future of the block [l] went, and its promise. *)
Definition release_future (l : nat) (s : state) : state :=
  if decide (used_future s l) then s
  else match results s !! l with
       | Some o => release_owned o (set_results (delete l) s)
       | None => s
       end.

(** [Shared::Data::~Data], when the last [shared_ptr] to the block [l] went. *)
Definition release_shared (l : nat) (s : state) : state :=
  if decide (used_shared s l) then s
  else match sdata s !! l with
       | Some b =>
           if owned b then
             (* [promise.set(Owned<T>(t))], then the promise is destroyed. *)
             let '(o, s) := new_owned_data (t b) s in
             release_future l (set_sdata (delete l) (set_results (insert l o) s))
           else set_deleted (fun d => d ++ [t b]) (set_sdata (delete l) s)
       | None => s
       end.

Definition release_value (x : value) (s : state) : state :=
  match x with
  | VOwned (Some o) => release_owned o s
  | VShared (Some l) => release_shared l s
  | VFuture l => release_future l s
  | _ => s
  end.

(** ** Operations *)

(** A variable in the middle of an operation is not used by others: that would be a data
    race on the [shared_ptr] itself. *)
Definition busy (s : state) (v : nat) : bool := existsb (fun f => frame_var f =? v) (pending s).

Definition var (s : state) (v : nat) : option value := if busy s v then None else vars s !! v.

(** A new variable. *)
Definition declare (v : nat) (x : value) (s : state) : option state :=
  match vars s !! v with
  | Some _ => None
  | None => if busy s v then None else Some (set_vars (insert v x) s)
  end.

(** [data = x], for a variable that has a value: the old one is released after. *)
Definition assign (v : nat) (x : value) (s : state) : option state :=
  match vars s !! v with
  | Some y => Some (release_value y (set_vars (insert v x) s))
  | None => None
  end.

Fixpoint remove1 (p : ptr) (l : list ptr) : option (list ptr) :=
  match l with
  | [] => None
  | q :: l => if decide (q = p) then Some l else r ← remove1 p l; Some (q :: r)
  end.

(** The caller gives a raw pointer away. *)
Definition take_raw (p : ptr) (s : state) : option state :=
  r ← remove1 p (raw s); Some (set_raw (fun _ => r) s).

(** The [shared_ptr] that [Owned(T* t)] and [reset(T* t)] make. *)
Definition make_owned (p : option ptr) (s : state) : option (value * state) :=
  match p with
  | None => Some (VOwned None, s)
  | Some p => s ← take_raw p s; let '(o, s) := new_owned_data p s in Some (VOwned (Some o), s)
  end.
Definition make_shared (p : option ptr) (s : state) : option (value * state) :=
  match p with
  | None => Some (VShared None, s)
  | Some p => s ← take_raw p s; let '(l, s) := new_shared_data p s in Some (VShared (Some l), s)
  end.

(** [Owned::get] reads [data->t] twice: the [CHECK] in the state [s] and the pointer that it
    returns in a later state [s'], between which other threads may share, release or delete. *)
Definition Owned_loads (s s' : state) (v : nat) : option (checked (option ptr)) :=
  match var s v with
  | Some (VOwned None) => Some (Returns None)
  | Some (VOwned (Some o)) =>
      match odata s !! o with
      | Some (Some _) => p ← odata s' !! o; Some (Returns p)
      | Some None => Some (Abort "This owned pointer has already been shared")
      | None => None
      end
  | _ => None
  end.

(** Without other threads in between. *)
Definition Owned_get (s : state) (v : nat) : option (checked (option ptr)) := Owned_loads s s v.

(** [operator*] and [operator->]. *)
Definition Owned_deref (s : state) (v : nat) : option (checked ptr) :=
  match Owned_get s v with
  | Some (Returns (Some p)) => Some (Returns p)
  | Some (Returns None) => Some (Abort "Must be non NULL")
  | Some (Abort m) => Some (Abort m)
  | None => None
  end.

(** [Shared::get]. *)
Definition Shared_get (s : state) (v : nat) : option (option ptr) :=
  match var s v with
  | Some (VShared None) => Some None
  | Some (VShared (Some l)) => b ← sdata s !! l; Some (Some (t b))
  | _ => None
  end.

(** [Shared::unique]. *)
Definition unique (s : state) (v : nat) : option bool :=
  match var s v with
  | Some (VShared None) => Some false
  | Some (VShared (Some l)) =>
      Some (size (filter (fun kx => kx.2 = VShared (Some l)) (vars s)) =? 1)
  | _ => None
  end.

(** [Owned::share]. *)
Definition share (v w : nat) (s : state) : option state :=
  match var s v with
  | Some (VOwned None) => declare w (VShared None) s
  | Some (VOwned (Some o)) =>
      match odata s !! o with
      | Some (Some old) => Some (set_pending (cons (FShare v old)) (set_odata (insert o None) s))
      | Some None => declare w (VShared None) s
      | None => None
      end
  | _ => None
  end.

(** [Owned::release]: a null result leaves the state alone. *)
Definition release (v : nat) (s : state) : option state :=
  match var s v with
  | Some (VOwned None) => Some s
  | Some (VOwned (Some o)) =>
      match odata s !! o with
      | Some (Some old) => Some (set_pending (cons (FRelease v old)) (set_odata (insert o None) s))
      | Some None => Some s
      | None => None
      end
  | _ => None
  end.

(** [Shared::own]. *)
Definition own (v w : nat) (s : state) : option state :=
  match var s v with
  | Some (VShared None) => declare w VReadyNull s
  | Some (VShared (Some l)) =>
      match sdata s !! l with
      | Some b =>
          if owned b then declare w (VFailure "Ownership has already been transferred") s
          else
            s ← declare w (VFuture l) (set_sdata (insert l (mkSharedData (t b) true)) s);
            Some (set_pending (cons (FOwn v)) s)
      | None => None
      end
  | _ => None
  end.

(** The second halves: the [n]-th operation under way. *)
Definition finish (n w : nat) (s : state) : option state :=
  f ← pending s !! n;
  let s := set_pending (delete n) s in
  match f with
  | FShare v old =>
      s ← assign v (VOwned None) s;
      let '(l, s) := new_shared_data old s in declare w (VShared (Some l)) s
  | FRelease v old => s ← assign v (VOwned None) s; Some (set_raw (cons old) s)
  | FOwn v => assign v (VShared None) s
  end.

Inductive op :=
| New                                  (* [new T] *)
| MakeOwned (v : nat) (p : option ptr) (* [Owned(T* t)], [Owned()] *)
| MakeShared (v : nat) (p : option ptr)
| Copy (v w : nat)                     (* copies of pointers and of futures *)
| Destroy (v : nat)
| ResetOwned (v : nat) (p : option ptr) (* [Owned::reset], with and without argument *)
| ResetShared (v : nat) (p : option ptr)
| Swap (v w : nat)
| Share (v w : nat)
| Release (v : nat)
| Own (v w : nat)
| Get (v w : nat)                      (* a copy of the result of a future that is ready *)
| Finish (n w : nat).

Definition same_kind (x y : value) : bool :=
  match x, y with VOwned _, VOwned _ | VShared _, VShared _ => true | _, _ => false end.

Definition exec (c : op) (s : state) : option state :=
  match c with
  | New =>
      Some (mkState (S (next s)) (blocks s) (odata s) (sdata s) (results s) (vars s)
              (next s :: raw s) (deleted s) (pending s))
  | MakeOwned v p => '(x, s) ← make_owned p s; declare v x s
  | MakeShared v p => '(x, s) ← make_shared p s; declare v x s
  | Copy v w => x ← var s v; declare w x s
  | Destroy v => x ← var s v; Some (release_value x (set_vars (delete v) s))
  | ResetOwned v p =>
      x ← var s v;
      if same_kind x (VOwned None) then '(y, s) ← make_owned p s; assign v y s else None
  | ResetShared v p =>
      x ← var s v;
      if same_kind x (VShared None) then '(y, s) ← make_shared p s; assign v y s else None
  | Swap v w =>
      x ← var s v; y ← var s w;
      if same_kind x y then Some (set_vars (fun m => <[w := x]> (<[v := y]> m)) s) else None
  | Share v w => share v w s
  | Release v => release v s
  | Own v w => own v w s
  | Get v w =>
      match var s v with
      | Some (VFuture l) => o ← results s !! l; declare w (VOwned (Some o)) s
      | Some VReadyNull => declare w (VOwned None) s
      | _ => None
      end
  | Finish n w => finish n w s
  end.

Definition step (s s' : state) : Prop := exists c, exec c s = Some s'.
Definition reachable (s : state) : Prop := steps step initial s.

(** ** Who is responsible for an object *)

Definition ind (p : ptr) (x : option ptr) : nat := if decide (x = Some p) then 1 else 0.
Definition count (p : ptr) (l : list ptr) : nat := sum_list_by (fun q => ind p (Some q)) l.

Arguments ind : simpl never.
Arguments count : simpl never.
Arguments sum_map : simpl never.

(** The number of blocks, callers, operations under way and past deletions that have the
    object [p]. *)
Definition holders (s : state) (p : ptr) : nat :=
  sum_map (ind p) (odata s) + sum_map (fun b => ind p (Some (t b))) (sdata s) +
  count p (raw s) + sum_list_by (fun f => ind p (frame_ptr f)) (pending s) + count p (deleted s).

(** The invariant; [x] is a value that has just been dropped and is about to be released. *)
Record inv (x : option value) (s : state) : Prop := mkInv {
  inv_held p : holders s p = if decide (p < next s) then 1 else 0;
  inv_odata_used o : is_Some (odata s !! o) -> used_owned s o \/ x = Some (VOwned (Some o));
  inv_sdata_used l : is_Some (sdata s !! l) -> used_shared s l \/ x = Some (VShared (Some l));
  inv_result_used l : is_Some (results s !! l) -> used_future s l \/ x = Some (VFuture l);
  inv_owned_var v o : vars s !! v = Some (VOwned (Some o)) -> is_Some (odata s !! o);
  inv_shared_var v l : vars s !! v = Some (VShared (Some l)) -> is_Some (sdata s !! l);
  inv_result l o : results s !! l = Some o -> is_Some (odata s !! o) /\ sdata s !! l = None;
  inv_future v l : vars s !! v = Some (VFuture l) ->
    (exists b, sdata s !! l = Some b /\ owned b = true) \/ is_Some (results s !! l);
  inv_fresh l : blocks s <= l -> odata s !! l = None /\ sdata s !! l = None /\ results s !! l = None;
}.

Lemma sum_delete {K A} `{Countable K} (f : A -> nat) (m : gmap K A) k x :
  m !! k = Some x -> sum_map f m = f x + sum_map f (delete k m).
Proof.
  intros Hk. rewrite <- (insert_delete_id m k x Hk) at 1.
  by rewrite sum_map_insert_new by apply lookup_delete_eq.
Qed.

Lemma sum_map_lookup {K A} `{Countable K} (f : A -> nat) (m : gmap K A) k x :
  m !! k = Some x -> f x <= sum_map f m.
Proof. intros Hk. rewrite (sum_delete f m k x Hk). lia. Qed.

Lemma count_cons p q l : count p (q :: l) = ind p (Some q) + count p l.
Proof. done. Qed.

Lemma count_app p l1 l2 : count p (l1 ++ l2) = count p l1 + count p l2.
Proof. apply sum_list_by_app. Qed.

Lemma count_perm p l1 l2 : l1 ≡ₚ l2 -> count p l1 = count p l2.
Proof. induction 1; rewrite ?count_cons; lia. Qed.

Lemma count_option p x : count p (option_list x) = ind p x.
Proof. destruct x; cbn; unfold count; cbn; [lia|done]. Qed.

Lemma count_remove1 q p l r : remove1 p l = Some r -> count q l = ind q (Some p) + count q r.
Proof.
  revert r. induction l as [|x l IH]; intros r; cbn [remove1]; [done|]. rewrite count_cons.
  case_decide as Hx; [intros; simplify_eq; done|]. intros (r' & Hr & [= <-])%bind_Some.
  rewrite count_cons, (IH r' Hr). lia.
Qed.

(** [used] is monotone in what it looks at. *)
Ltac used := unfold used_owned, used_shared, used_future, map_Exists, is_Some in *; cbn in *.

Lemma release_owned_inv o s : inv (Some (VOwned (Some o))) s -> inv None (release_owned o s).
Proof.
  intros [H1 H2 H3 H4 H5 H6 H7 H8 H9]. unfold release_owned.
  case_decide as Hu; [constructor; try done; naive_solver|].
  destruct (odata s !! o) as [p|] eqn:Ho.
  2: { constructor; try done; [|naive_solver|naive_solver]. intros o' Ho'.
       destruct (H2 o' Ho') as [|[= ->]]; [by left|]. rewrite Ho in Ho'. by destruct Ho'. }
  constructor; cbn.
  - intros q. specialize (H1 q). unfold holders in *; cbn.
    rewrite (sum_delete _ _ _ _ Ho) in H1. rewrite count_app, count_option. lia.
  - intros o' [y Hy]. apply lookup_delete_Some in Hy as [Hne Hy].
    destruct (H2 o' ltac:(by exists y)) as [|[= ->]]; [by left|done].
  - naive_solver.
  - naive_solver.
  - intros v o' Hv. rewrite lookup_delete_ne; [eauto|]. intros ->. apply Hu. left. by eexists _, _.
  - eauto.
  - intros l o' Hl. rewrite lookup_delete_ne; [eauto|]. intros ->. apply Hu. right. by eexists _, _.
  - eauto.
  - intros l Hl. destruct (H9 l Hl) as (? & ? & ?). by rewrite lookup_delete_None; auto.
Qed.

Lemma inv_weaken x s : inv None s -> inv x s.
Proof. intros [H1 H2 H3 H4 H5 H6 H7 H8 H9]. constructor; naive_solver. Qed.

Lemma release_future_inv l s : inv (Some (VFuture l)) s -> inv None (release_future l s).
Proof.
  intros [H1 H2 H3 H4 H5 H6 H7 H8 H9]. unfold release_future.
  case_decide as Hu; [constructor; try done; naive_solver|].
  destruct (results s !! l) as [o|] eqn:Hl.
  2: { constructor; try done; [naive_solver..|]. intros l' Hl'.
       destruct (H4 l' Hl') as [|[= ->]]; [by left|]. rewrite Hl in Hl'. by destruct Hl'. }
  apply release_owned_inv. constructor; cbn.
  - apply H1.
  - intros o' Ho'. destruct (H2 o' Ho') as [[Hv|(l' & o2 & Hr & ->)]|]; [by left; left| |done].
    destruct (decide (l' = l)) as [->|Hne]; [right; congruence|].
    left; right. exists l', o'. cbn. by rewrite lookup_delete_ne.
  - naive_solver.
  - intros l' [o' Hl']. apply lookup_delete_Some in Hl' as [Hne Hl'].
    destruct (H4 l' ltac:(by exists o')) as [|[= ->]]; [by left|done].
  - apply H5.
  - apply H6.
  - intros l' o' Hr. apply lookup_delete_Some in Hr as [_ Hr]. eauto.
  - intros v l' Hv. destruct (H8 v l' Hv) as [|Hr]; [by left|right].
    rewrite lookup_delete_ne; [done|]. intros ->. apply Hu. right. by eexists _, _.
  - intros l' Hl'. destruct (H9 l' Hl') as (? & ? & ?). by rewrite lookup_delete_None; auto.
Qed.

Lemma release_shared_inv l s : inv (Some (VShared (Some l))) s -> inv None (release_shared l s).
Proof.
  intros [H1 H2 H3 H4 H5 H6 H7 H8 H9]. unfold release_shared.
  case_decide as Hu; [constructor; try done; naive_solver|].
  destruct (sdata s !! l) as [[p b]|] eqn:Hl.
  2: { constructor; try done; [naive_solver| |naive_solver]. intros l' Hl'.
       destruct (H3 l' Hl') as [|[= ->]]; [by left|]. rewrite Hl in Hl'. by destruct Hl'. }
  assert (Hres : results s !! l = None).
  { destruct (results s !! l) as [o|] eqn:Hr; [|done]. destruct (H7 l o Hr). congruence. }
  assert (Hns : forall l', l' <> l -> is_Some (sdata s !! l') -> used_shared s l').
  { intros l' Hne Hl'. destruct (H3 l' Hl') as [|[= ->]]; done. }
  assert (Hfo : odata s !! blocks s = None) by apply (H9 (blocks s)), le_n.
  cbn [owned]. destruct b; cbn [new_owned_data t].
  - apply release_future_inv. constructor; cbn.
    + intros q. specialize (H1 q). unfold holders in *; cbn.
      rewrite (sum_delete _ _ _ _ Hl) in H1. rewrite sum_map_insert_new by done. cbn in H1. lia.
    + intros o [y Ho]. left. apply lookup_insert_Some in Ho as [[<- _]|[Hne Ho]].
      { right. exists l, (blocks s). cbn. by rewrite lookup_insert_eq. }
      destruct (H2 o ltac:(by exists y)) as [[Hv|(l' & o2 & Hr & ->)]|]; [by left| |done].
      right. exists l', o. cbn. rewrite lookup_insert_ne; [done|]. congruence.
    + intros l' [y Hy]. apply lookup_delete_Some in Hy as [Hne Hy]. left. apply Hns; [done|by exists y].
    + intros l' [y Hy]. destruct (decide (l' = l)) as [->|Hne]; [by right|].
      rewrite lookup_insert_ne in Hy by done. destruct (H4 l' ltac:(by exists y)) as [[Hd|Hv]|]; [| |done].
      * left; left. cbn. by rewrite lookup_delete_ne.
      * left; by right.
    + intros v o Hv. destruct (H5 v o Hv) as [y Hy]. rewrite lookup_insert_ne; [by exists y|]. congruence.
    + intros v l' Hv. rewrite lookup_delete_ne; [eauto|]. intros ->. apply Hu. by eexists _, _.
    + intros l' o Hr. apply lookup_insert_Some in Hr as [[<- <-]|[Hne Hr]].
      * rewrite lookup_insert_eq, lookup_delete_eq. eauto.
      * destruct (H7 l' o Hr) as [[y Hy] Hd]. rewrite lookup_delete_ne, lookup_insert_ne by congruence. eauto.
    + intros v l' Hv. destruct (decide (l' = l)) as [->|Hne]; [right; rewrite lookup_insert_eq; eauto|].
      rewrite lookup_delete_ne, lookup_insert_ne by done. eauto.
    + intros l' Hl'. destruct (H9 l' ltac:(lia)) as (? & ? & ?).
      assert (l' <> l) by congruence. rewrite lookup_delete_ne, !lookup_insert_ne by (done || lia). done.
  - constructor; cbn.
    + intros q. specialize (H1 q). unfold holders in *; cbn.
      rewrite (sum_delete _ _ _ _ Hl) in H1. rewrite count_app, count_cons. cbn in *.
      change (count q []) with 0. lia.
    + naive_solver.
    + intros l' [y Hy]. apply lookup_delete_Some in Hy as [Hne Hy]. left. apply Hns; [done|by exists y].
    + intros l' Hl'. assert (Hne : l' <> l) by (intros ->; rewrite Hres in Hl'; by destruct Hl').
      destruct (H4 l' Hl') as [[Hd|Hv]|]; [| |done]; left; [left; cbn; by rewrite lookup_delete_ne|by right].
    + apply H5.
    + intros v l' Hv. rewrite lookup_delete_ne; [eauto|]. intros ->. apply Hu. by eexists _, _.
    + intros l' o Hr. destruct (H7 l' o Hr). rewrite lookup_delete_None. eauto.
    + intros v l' Hv. destruct (H8 v l' Hv) as [(b & Hb & Hown)|]; [left|by right].
      exists b. rewrite lookup_delete_ne; [done|]. intros ->. rewrite Hl in Hb. by simplify_eq.
    + intros l' Hl'. destruct (H9 l' Hl') as (? & ? & ?). by rewrite lookup_delete_None; auto.
Qed.

Lemma release_value_inv x s : inv (Some x) s -> inv None (release_value x s).
Proof.
  intros H. destruct x as [[o|]|[l|]|l| |m]; cbn;
    eauto using release_owned_inv, release_shared_inv, release_future_inv;
    destruct H; constructor; naive_solver.
Qed.

(** A value that a variable can hold. *)
Definition valid (s : state) (x : value) : Prop :=
  match x with
  | VOwned (Some o) => is_Some (odata s !! o)
  | VShared (Some l) => is_Some (sdata s !! l)
  | VFuture l => (exists b, sdata s !! l = Some b /\ owned b = true) \/ is_Some (results s !! l)
  | _ => True
  end.

Lemma var_valid s v x : inv None s -> vars s !! v = Some x -> valid s x.
Proof.
  intros H Hv. destruct x as [[o|]|[l|]|l| |m]; cbn; try done;
    [eapply inv_owned_var|eapply inv_shared_var|eapply inv_future]; eauto.
Qed.

(** What was used by the variables still is, but for the value that [v] had. *)
Lemma exists_put (P : value -> Prop) (m : gmap nat value) v x y :
  m !! v = y -> map_Exists (fun _ => P) m ->
  map_Exists (fun _ => P) (<[v := x]> m) \/ (exists z, y = Some z /\ P z).
Proof.
  intros Hv (w & z & Hw & Hz). destruct (decide (w = v)) as [->|Hne].
  - right. exists z. split; [congruence|done].
  - left. exists w, z. by rewrite lookup_insert_ne.
Qed.

Lemma exists_delete (P : value -> Prop) (m : gmap nat value) v y :
  m !! v = Some y -> map_Exists (fun _ => P) m -> map_Exists (fun _ => P) (delete v m) \/ P y.
Proof.
  intros Hv (w & z & Hw & Hz). destruct (decide (w = v)) as [->|Hne].
  - right. congruence.
  - left. exists w, z. by rewrite lookup_delete_ne.
Qed.

Lemma exists_new (P : value -> Prop) (m : gmap nat value) v x :
  P x -> map_Exists (fun _ => P) (<[v := x]> m).
Proof. intros Hx. exists v, x. by rewrite lookup_insert_eq. Qed.

Lemma put_value_inv v x s y :
  vars s !! v = y -> inv (Some x) s -> valid s x -> inv y (set_vars (insert v x) s).
Proof.
  intros Hv [H1 H2 H3 H4 H5 H6 H7 H8 H9] Hx.
  constructor; cbn; try done.
  - intros o Ho. destruct (H2 o Ho) as [[Hu|Hr]|[= ->]]; [|by left; right|left; left; by apply exists_new].
    destruct (exists_put _ _ v x y Hv Hu) as [|(z & -> & ->)]; [by left; left|by right].
  - intros l Hl. destruct (H3 l Hl) as [Hu|[= ->]]; [|left; by apply exists_new].
    destruct (exists_put _ _ v x y Hv Hu) as [|(z & -> & ->)]; [by left|by right].
  - intros l Hl. destruct (H4 l Hl) as [[Hd|Hu]|[= ->]]; [by left; left| |left; right; by apply exists_new].
    destruct (exists_put _ _ v x y Hv Hu) as [|(z & -> & ->)]; [by left; right|by right].
  - intros w o Hw. apply lookup_insert_Some in Hw as [[<- ->]|[_ Hw]]; eauto.
  - intros w o Hw. apply lookup_insert_Some in Hw as [[<- ->]|[_ Hw]]; eauto.
  - intros w o Hw. apply lookup_insert_Some in Hw as [[<- ->]|[_ Hw]]; eauto.
Qed.

Lemma delete_inv v x s :
  vars s !! v = Some x -> inv None s -> inv (Some x) (set_vars (delete v) s).
Proof.
  intros Hv [H1 H2 H3 H4 H5 H6 H7 H8 H9].
  constructor; cbn; try done.
  - intros o Ho. destruct (H2 o Ho) as [[Hu|Hr]|]; [|by left; right|done].
    destruct (exists_delete _ _ v x Hv Hu) as [| ->]; [by left; left|by right].
  - intros l Hl. destruct (H3 l Hl) as [Hu|]; [|done].
    destruct (exists_delete _ _ v x Hv Hu) as [| ->]; [by left|by right].
  - intros l Hl. destruct (H4 l Hl) as [[Hd|Hu]|]; [by left; left| |done].
    destruct (exists_delete _ _ v x Hv Hu) as [| ->]; [by left; right|by right].
  - intros w o Hw. apply lookup_delete_Some in Hw as [_ Hw]; eauto.
  - intros w o Hw. apply lookup_delete_Some in Hw as [_ Hw]; eauto.
  - intros w o Hw. apply lookup_delete_Some in Hw as [_ Hw]; eauto.
Qed.

Lemma declare_inv v x s s' : declare v x s = Some s' -> inv (Some x) s -> valid s x -> inv None s'.
Proof.
  unfold declare. destruct (vars s !! v) eqn:Hv; [done|]. destruct (busy s v); [done|].
  intros [= <-] H Hx. by eapply put_value_inv.
Qed.

(** A value that is valid already. *)
Lemma declare_plain_inv v x s s' : declare v x s = Some s' -> inv None s -> valid s x -> inv None s'.
Proof. eauto using declare_inv, inv_weaken. Qed.

Lemma assign_inv v x s s' : assign v x s = Some s' -> inv (Some x) s -> valid s x -> inv None s'.
Proof.
  unfold assign. destruct (vars s !! v) as [y|] eqn:Hv; [|done].
  intros [= <-] H Hx. by eapply release_value_inv, put_value_inv.
Qed.

(** The running operation has the object [p] in its hands. *)
Definition holding (p : ptr) (s : state) : Prop := inv None (set_deleted (cons p) s).

Lemma new_owned_inv p s :
  holding p s -> inv (Some (VOwned (Some (blocks s)))) (new_owned_data p s).2.
Proof.
  intros [H1 H2 H3 H4 H5 H6 H7 H8 H9]. destruct (H9 (blocks s) (le_n _)) as (Hb & _ & _).
  constructor; cbn in *; try done.
  - intros q. specialize (H1 q). unfold holders in *; cbn in *.
    rewrite sum_map_insert_new by done. rewrite count_cons in H1. lia.
  - intros o [y Ho]. apply lookup_insert_Some in Ho as [[<- _]|[_ Ho]]; [by right|left].
    by destruct (H2 o ltac:(by exists y)).
  - naive_solver.
  - naive_solver.
  - intros v o Hv. destruct (H5 v o Hv) as [y Hy]. rewrite lookup_insert_ne; [by exists y|]. congruence.
  - intros l o Hl. destruct (H7 l o Hl) as [[y Hy] ?]. rewrite lookup_insert_ne; [eauto|]. congruence.
  - intros l Hl. destruct (H9 l ltac:(cbn; lia)) as (? & ? & ?). rewrite lookup_insert_ne by lia. done.
Qed.

Lemma new_shared_inv p s :
  holding p s -> inv (Some (VShared (Some (blocks s)))) (new_shared_data p s).2.
Proof.
  intros [H1 H2 H3 H4 H5 H6 H7 H8 H9]. destruct (H9 (blocks s) (le_n _)) as (_ & Hb & Hr).
  constructor; cbn in *; try done.
  - intros q. specialize (H1 q). unfold holders in *; cbn in *.
    rewrite sum_map_insert_new by done. rewrite count_cons in H1. cbn. lia.
  - naive_solver.
  - intros o [y Ho]. apply lookup_insert_Some in Ho as [[<- _]|[_ Ho]]; [by right|left].
    by destruct (H3 o ltac:(by exists y)).
  - intros l Hl. left. destruct (H4 l Hl) as [[[y Hy]|Hv]|]; [left|by right|done].
    cbn in *. rewrite lookup_insert_ne by congruence. by exists y.
  - intros v l Hv. destruct (H6 v l Hv) as [y Hy]. rewrite lookup_insert_ne; [by exists y|]. congruence.
  - intros l o Hl. destruct (H7 l o Hl) as [? Hs]. split; [done|]. rewrite lookup_insert_ne by congruence. done.
  - intros v l Hv. destruct (H8 v l Hv) as [(b & Hl & ?)|]; [left|by right].
    exists b. rewrite lookup_insert_ne by congruence. done.
  - intros l Hl. destruct (H9 l ltac:(cbn; lia)) as (? & ? & ?). rewrite lookup_insert_ne by lia. done.
Qed.

(** Changes that move one object between the holders. *)
Lemma move_inv x s s' :
  inv x s -> (forall p, holders s' p = holders s p) -> next s' = next s -> blocks s' = blocks s ->
  dom (odata s') = dom (odata s) -> sdata s' = sdata s -> results s' = results s -> vars s' = vars s ->
  inv x s'.
Proof.
  intros [H1 H2 H3 H4 H5 H6 H7 H8 H9] Hh Hn Hb Ho Hs Hr Hv.
  assert (Ho' : forall o, is_Some (odata s' !! o) <-> is_Some (odata s !! o)).
  { intros o. by rewrite <- !elem_of_dom, Ho. }
  constructor; unfold used_owned, used_shared, used_future in *; rewrite ?Hn, ?Hb, ?Hs, ?Hr, ?Hv; try done.
  - intros p. by rewrite Hh.
  - intros o. rewrite Ho'. apply H2.
  - intros v o. rewrite Ho'. apply H5.
  - intros l o. rewrite Ho'. apply H7.
  - intros l Hl. destruct (H9 l Hl) as (? & ? & ?). split; [|done].
    apply eq_None_not_Some. rewrite Ho'. by apply eq_None_not_Some.
Qed.

Lemma take_raw_inv p s s' : take_raw p s = Some s' -> inv None s -> holding p s'.
Proof.
  intros (r & Hr & [= <-])%bind_Some H. eapply move_inv; [exact H|..]; try done.
  intros q. unfold holders; cbn. rewrite count_cons, (count_remove1 _ _ _ _ Hr). lia.
Qed.

Lemma make_owned_inv p s x s' :
  make_owned p s = Some (x, s') -> inv None s -> inv (Some x) s' /\ valid s' x.
Proof.
  destruct p as [p|]; cbn; [|intros; simplify_eq; split; [by apply inv_weaken|done]].
  intros (s1 & H1 & [= <- <-])%bind_Some H. split.
  - apply (new_owned_inv p s1). by eapply take_raw_inv.
  - cbn. rewrite lookup_insert_eq. eauto.
Qed.

Lemma make_shared_inv p s x s' :
  make_shared p s = Some (x, s') -> inv None s -> inv (Some x) s' /\ valid s' x.
Proof.
  destruct p as [p|]; cbn; [|intros; simplify_eq; split; [by apply inv_weaken|done]].
  intros (s1 & H1 & [= <- <-])%bind_Some H. split.
  - apply (new_shared_inv p s1). by eapply take_raw_inv.
  - cbn. rewrite lookup_insert_eq. eauto.
Qed.

(** Releasing does not look at what was deleted before. *)
Lemma release_owned_cons o p s :
  release_owned o (set_deleted (cons p) s) = set_deleted (cons p) (release_owned o s).
Proof. unfold release_owned. cbn. repeat case_match; done. Qed.

Lemma release_future_cons l p s :
  release_future l (set_deleted (cons p) s) = set_deleted (cons p) (release_future l s).
Proof.
  unfold release_future. cbn [results set_deleted].
  case_decide as H1; case_decide as H2; [done|done|done|].
  destruct (results s !! l) as [o|]; [|done].
  exact (release_owned_cons o p (set_results (delete l) s)).
Qed.

Lemma release_value_cons x p s :
  release_value x (set_deleted (cons p) s) = set_deleted (cons p) (release_value x s).
Proof.
  destruct x as [[o|]|[l|]|l| |m]; cbn [release_value];
    auto using release_owned_cons, release_future_cons.
  unfold release_shared. cbn [sdata set_deleted used_shared vars].
  case_decide as H1; case_decide as H2; [done|done|done|].
  destruct (sdata s !! l) as [b|]; [|done]. destruct (owned b); [|done]. cbn [new_owned_data].
  exact (release_future_cons l p (set_sdata (delete l) (set_results (insert l (blocks s))
    (set_blocks S (set_odata (insert (blocks s) (Some (t b))) s))))).
Qed.

Lemma assign_holding v x p s s' :
  assign v x s = Some s' -> inv None (set_deleted (cons p) s) -> valid s x -> holding p s'.
Proof.
  unfold assign. intros Ha H Hx. destruct (vars s !! v) as [y|] eqn:Hv; [|done]. simplify_eq.
  unfold holding. rewrite <- release_value_cons. apply release_value_inv.
  apply (put_value_inv v x (set_deleted (cons p) s)); [done|by apply inv_weaken|done].
Qed.

Lemma sum_list_by_delete {A} (f : A -> nat) l n x :
  l !! n = Some x -> sum_list_by f l = f x + sum_list_by f (delete n l).
Proof.
  revert n. induction l as [|y l IH]; intros [|n]; cbn; [done..|by intros [= ->]|].
  intros Hn. rewrite (IH n Hn). unfold delete in *. lia.
Qed.

Lemma exchange_holding o old f s :
  odata s !! o = Some (Some old) -> frame_ptr f = Some old -> inv None s ->
  inv None (set_pending (cons f) (set_odata (insert o None) s)).
Proof.
  intros Ho Hf H. eapply move_inv; [exact H|..]; try done.
  - intros p. pose proof (sum_map_insert (ind p) (odata s) o _ None Ho) as Hs.
    unfold holders; cbn. rewrite Hf. change (ind p None) with 0 in Hs. lia.
  - cbn. apply dom_insert_lookup_L. eauto.
Qed.

Lemma upgrade_inv l b s :
  sdata s !! l = Some b -> inv None s ->
  inv None (set_sdata (insert l (mkSharedData (t b) true)) s).
Proof.
  intros Hl [H1 H2 H3 H4 H5 H6 H7 H8 H9].
  assert (Hd : forall l', is_Some (<[l := mkSharedData (t b) true]> (sdata s) !! l') <-> is_Some (sdata s !! l')).
  { intros l'. destruct (decide (l' = l)) as [->|]; [rewrite lookup_insert_eq, Hl|rewrite lookup_insert_ne by done];
      split; eauto. }
  constructor; unfold used_future in *; cbn; try done.
  - intros p. specialize (H1 p). unfold holders in *; cbn.
    pose proof (sum_map_insert (fun b => ind p (Some (t b))) (sdata s) l b (mkSharedData (t b) true) Hl). cbn in *. lia.
  - intros l'. rewrite Hd. apply H3.
  - intros l'. rewrite Hd. apply H4.
  - intros v l'. rewrite Hd. apply H6.
  - intros l' o Hr. destruct (H7 l' o Hr) as [? Hn]. split; [done|]. rewrite lookup_insert_ne by congruence. done.
  - intros v l' Hv. destruct (H8 v l' Hv) as [(b' & Hb & Hown)|]; [left|by right].
    destruct (decide (l' = l)) as [->|]; [rewrite lookup_insert_eq|rewrite lookup_insert_ne by done]; eauto.
  - intros l' Hl'. destruct (H9 l' Hl') as (? & ? & ?). rewrite lookup_insert_ne by congruence. done.
Qed.

Lemma pending_inv fs s :
  (forall p, sum_list_by (fun f => ind p (frame_ptr f)) fs =
             sum_list_by (fun f => ind p (frame_ptr f)) (pending s)) ->
  inv None s -> inv None (set_pending (fun _ => fs) s).
Proof. intros Hp H. eapply move_inv; [exact H|..]; try done. intros p. unfold holders; cbn. by rewrite Hp. Qed.

Lemma finish_inv n w s s' : finish n w s = Some s' -> inv None s -> inv None s'.
Proof.
  intros (f & Hf & Hfin)%bind_Some H.
  assert (Hheld : forall old, frame_ptr f = Some old -> holding old (set_pending (delete n) s)).
  { intros old Hold. eapply move_inv; [exact H|..]; try done. intros p. unfold holders; cbn.
    rewrite count_cons, (sum_list_by_delete _ _ _ _ Hf), Hold. lia. }
  destruct f as [v old|v old|v]; cbn in Hfin.
  - apply bind_Some in Hfin as (s1 & Ha & Hd). cbn in Hd.
    eapply (declare_inv _ _ _ _ Hd); [|cbn; rewrite lookup_insert_eq; eauto].
    apply (new_shared_inv old s1). eapply assign_holding; [exact Ha|by apply Hheld|done].
  - apply bind_Some in Hfin as (s1 & Ha & [= <-]).
    assert (Hs1 : holding old s1) by (eapply assign_holding; [exact Ha|by apply Hheld|done]).
    eapply move_inv; [exact Hs1|..]; try done. intros p. unfold holders; cbn. rewrite !count_cons. lia.
  - eapply assign_inv; [exact Hfin| |done]. apply inv_weaken.
    apply (pending_inv (delete n (pending s)) s); [|done]. intros p.
    by rewrite (sum_list_by_delete _ _ _ _ Hf).
Qed.

Lemma var_Some s v x : var s v = Some x -> vars s !! v = Some x /\ busy s v = false.
Proof. unfold var. by destruct (busy s v). Qed.

Ltac open_vars :=
  repeat match goal with
  | H : _ ≫= _ = Some _ |- _ => apply bind_Some in H as (? & ? & ?)
  | H : var _ _ = Some _ |- _ => apply var_Some in H as [? ?]
  | H : (if ?b then _ else None) = Some _ |- _ => destruct b eqn:?; [|done]
  end.

Lemma swap_values_inv v w x y s :
  vars s !! v = Some x -> vars s !! w = Some y -> inv None s ->
  inv None (set_vars (fun m => <[w := x]> (<[v := y]> m)) s).
Proof.
  intros Hv Hw H.
  assert (H1 : inv (Some x) (set_vars (insert v y) s)).
  { apply put_value_inv; [done|by apply inv_weaken|by eapply var_valid]. }
  assert (Hw' : vars (set_vars (insert v y) s) !! w = Some y).
  { cbn. destruct (decide (w = v)) as [->|]; [rewrite lookup_insert_eq|rewrite lookup_insert_ne by done]; congruence. }
  destruct (put_value_inv w x (set_vars (insert v y) s) (Some y) Hw' H1) as [G1 G2 G3 G4 G5 G6 G7 G8 G9];
    [exact (var_valid s v x H Hv)|].
  assert (Hy : exists u, vars (set_vars (fun m => <[w := x]> (<[v := y]> m)) s) !! u = Some y).
  { cbn. destruct (decide (v = w)) as [->|Hne]; [exists w; rewrite lookup_insert_eq; congruence|].
    exists v. by rewrite lookup_insert_ne, lookup_insert_eq. }
  destruct Hy as [u Hu]. constructor; try done.
  - intros o Ho. destruct (G2 o Ho) as [|[= ->]]; [by left|]. left; left. by exists u, (VOwned (Some o)).
  - intros l Hl. destruct (G3 l Hl) as [|[= ->]]; [by left|]. left. by exists u, (VShared (Some l)).
  - intros l Hl. destruct (G4 l Hl) as [|[= ->]]; [by left|]. left; right. by exists u, (VFuture l).
Qed.

Lemma own_exec_inv c s s' : exec c s = Some s' -> inv None s -> inv None s'.
Proof.
  intros Hc H. destruct c as [|v p|v p|v w|v|v p|v p|v w|v w|v|v w|v w|n w]; cbn in Hc.
  - simplify_eq. destruct H as [H1 H2 H3 H4 H5 H6 H7 H8 H9]. constructor; try done.
    intros p. specialize (H1 p). unfold holders in *; cbn. rewrite count_cons.
    assert (Hi : ind p (Some (next s)) = if decide (p = next s) then 1 else 0)
      by (unfold ind; repeat case_decide; congruence).
    rewrite Hi. repeat case_decide; lia.
  - open_vars. destruct x as [x s1]. edestruct make_owned_inv; eauto using declare_inv.
  - open_vars. destruct x as [x s1]. edestruct make_shared_inv; eauto using declare_inv.
  - open_vars. eauto using declare_inv, inv_weaken, var_valid.
  - open_vars. simplify_eq. by eapply release_value_inv, delete_inv.
  - open_vars. destruct x0 as [y s1]. edestruct make_owned_inv; eauto using assign_inv.
  - open_vars. destruct x0 as [y s1]. edestruct make_shared_inv; eauto using assign_inv.
  - open_vars. simplify_eq. by apply swap_values_inv.
  - unfold share in Hc. destruct (var s v) as [[[o|]|?|?| |?]|] eqn:Hv; try done; [|by eapply declare_plain_inv].
    destruct (odata s !! o) as [[old|]|] eqn:Ho; [|by eapply declare_plain_inv|done].
    simplify_eq. by eapply exchange_holding.
  - unfold release in Hc. destruct (var s v) as [[[o|]|?|?| |?]|] eqn:Hv; try done; [|by simplify_eq].
    destruct (odata s !! o) as [[old|]|] eqn:Ho; simplify_eq; [|done]. by eapply exchange_holding.
  - unfold own in Hc. destruct (var s v) as [[?|[l|]|?| |?]|] eqn:Hv; try done; [|by eapply declare_plain_inv].
    destruct (sdata s !! l) as [b|] eqn:Hl; [|done]. destruct (owned b); [by eapply declare_plain_inv|].
    apply bind_Some in Hc as (s1 & Hd & [= <-]).
    apply (pending_inv (FOwn v :: pending s1) s1); [done|].
    eapply (declare_inv _ _ _ _ Hd); [by apply inv_weaken, upgrade_inv|].
    left. cbn. rewrite lookup_insert_eq. eauto.
  - destruct (var s v) as [[?|?|l| |?]|] eqn:Hv; try done; [|by eapply declare_plain_inv].
    apply bind_Some in Hc as (o & Ho & Hd). eapply (declare_inv _ _ _ _ Hd); [by apply inv_weaken|].
    eapply inv_result; eauto.
  - by eapply finish_inv.
Qed.

Lemma initial_inv : inv None initial.
Proof.
  constructor; cbn; try done; try (intros ? [? ?]; done).
Qed.

Lemma own_reachable_inv s : reachable s -> inv None s.
Proof.
  intros H. eapply steps_invariant; [|exact H|apply initial_inv].
  intros a b Ha [c Hc]. by eapply own_exec_inv.
Qed.

(** ** Properties *)

(** Operations under way belong to variables that exist, one each. *)
Definition frames_ok (s : state) : Prop :=
  Forall (fun f => is_Some (vars s !! frame_var f)) (pending s).

Lemma release_value_vars x s : vars (release_value x s) = vars s /\ pending (release_value x s) = pending s.
Proof.
  assert (Ho : forall o s, vars (release_owned o s) = vars s /\ pending (release_owned o s) = pending s).
  { intros o s0. unfold release_owned. repeat case_match; done. }
  assert (Hf : forall l s, vars (release_future l s) = vars s /\ pending (release_future l s) = pending s).
  { intros l s0. unfold release_future. repeat case_match; try done. apply (Ho _ (set_results (delete l) s0)). }
  destruct x as [[o|]|[l|]|l| |m]; cbn; auto.
  unfold release_shared. case_decide; [done|]. destruct (sdata s !! l) as [b|]; [|done].
  destruct (owned b); [|done]. cbn [new_owned_data]. edestruct Hf as [Hv Hp]. rewrite Hv, Hp. done.
Qed.

(** Nothing but [Destroy] takes a variable away. *)
Definition keeps (s s' : state) : Prop :=
  pending s' = pending s /\ forall v, is_Some (vars s !! v) -> is_Some (vars s' !! v).

Lemma keeps_put v x s : keeps s (set_vars (insert v x) s).
Proof.
  split; [done|]. intros w Hw. cbn. destruct (decide (w = v)) as [->|Hne];
    [rewrite lookup_insert_eq; eauto|by rewrite lookup_insert_ne].
Qed.

Lemma keeps_frames s s' : keeps s s' -> frames_ok s -> frames_ok s'.
Proof. intros [Hp Hv]. unfold frames_ok. rewrite Hp. intros H. eapply Forall_impl; [exact H|]. intros f. apply Hv. Qed.

Lemma keeps_trans s1 s2 s3 : keeps s1 s2 -> keeps s2 s3 -> keeps s1 s3.
Proof. intros [Hp Hv] [Hp' Hv']. split; [congruence|auto]. Qed.

Lemma declare_keeps v x s s' : declare v x s = Some s' -> keeps s s'.
Proof. unfold declare. intros. repeat case_match; simplify_eq. apply keeps_put. Qed.

Lemma assign_keeps v x s s' : assign v x s = Some s' -> keeps s s'.
Proof.
  unfold assign. intros. case_match; simplify_eq. destruct (release_value_vars v0 (set_vars (insert v x) s)) as [Hv Hp].
  destruct (keeps_put v x s) as [Hp' Hv']. split; [congruence|]. by rewrite Hv.
Qed.

Lemma make_keeps p s x s' :
  make_owned p s = Some (x, s') \/ make_shared p s = Some (x, s') -> keeps s s'.
Proof.
  destruct p as [p|]; cbn; intros [H|H]; simplify_eq; try done;
    apply bind_Some in H as (s1 & H & ?); apply bind_Some in H as (r & ? & ?); simplify_eq; done.
Qed.

Lemma exec_frames c s s' : exec c s = Some s' -> frames_ok s -> frames_ok s'.
Proof.
  intros Hc H.
  assert (Hpush : forall v f, is_Some (vars s !! v) -> frame_var f = v ->
    Forall (fun f => is_Some (vars s !! frame_var f)) (f :: pending s)).
  { intros v f Hv <-. by constructor. }
  destruct c as [|v p|v p|v w|v|v p|v p|v w|v w|v|v w|v w|n w]; cbn in Hc.
  - by simplify_eq.
  - open_vars. destruct x as [x s1]. eapply keeps_frames; [|done]. eauto using keeps_trans, make_keeps, declare_keeps.
  - open_vars. destruct x as [x s1]. eapply keeps_frames; [|done]. eauto using keeps_trans, make_keeps, declare_keeps.
  - open_vars. eauto using keeps_frames, declare_keeps.
  - open_vars. simplify_eq. destruct (release_value_vars x (set_vars (delete v) s)) as [Hv Hp].
    unfold frames_ok in *. rewrite Hv, Hp. cbn. rewrite Forall_forall in *. intros f Hf.
    rewrite lookup_delete_ne; [by apply H|]. intros ->.
    assert (Hb : busy s (frame_var f) = true).
    { apply existsb_exists. exists f. split; [by apply list_elem_of_In|by apply Nat.eqb_refl]. }
    congruence.
  - open_vars. destruct x0 as [y s1]. eapply keeps_frames; [|done]. eauto using keeps_trans, make_keeps, assign_keeps.
  - open_vars. destruct x0 as [y s1]. eapply keeps_frames; [|done]. eauto using keeps_trans, make_keeps, assign_keeps.
  - open_vars. simplify_eq. eapply keeps_frames; [|done].
    exact (keeps_trans _ _ _ (keeps_put v x0 s) (keeps_put w x (set_vars (insert v x0) s))).
  - unfold share in Hc. destruct (var s v) as [[[o|]|?|?| |?]|] eqn:Hv; try done; [|eauto using keeps_frames, declare_keeps].
    destruct (odata s !! o) as [[old|]|]; [|eauto using keeps_frames, declare_keeps|done].
    simplify_eq. apply var_Some in Hv as [Hv _]. by eapply (Hpush v).
  - unfold release in Hc. destruct (var s v) as [[[o|]|?|?| |?]|] eqn:Hv; try done; [|by simplify_eq].
    destruct (odata s !! o) as [[old|]|]; simplify_eq; [|done].
    apply var_Some in Hv as [Hv _]. by eapply (Hpush v).
  - unfold own in Hc. destruct (var s v) as [[?|[l|]|?| |?]|] eqn:Hv; try done; [|eauto using keeps_frames, declare_keeps].
    destruct (sdata s !! l) as [b|]; [|done]. destruct (owned b); [eauto using keeps_frames, declare_keeps|].
    apply bind_Some in Hc as (s1 & Hd & [= <-]). apply declare_keeps in Hd as [Hp Hk]. cbn in Hp, Hk.
    apply var_Some in Hv as [Hv _]. unfold frames_ok; cbn. rewrite Hp. constructor; [cbn; eauto|].
    eapply Forall_impl; [exact H|]. intros f. apply Hk.
  - destruct (var s v) as [[?|?|l| |?]|] eqn:Hv; try done; [|eauto using keeps_frames, declare_keeps].
    open_vars. eauto using keeps_frames, declare_keeps.
  - unfold finish in Hc. apply bind_Some in Hc as (f & Hf & Hfin).
    assert (H' : frames_ok (set_pending (delete n) s)).
    { unfold frames_ok in *. cbn. by apply Forall_delete. }
    destruct f as [v old|v old|v]; open_vars; simplify_eq.
    + cbn in H1. eapply keeps_frames; [by eapply declare_keeps|]. change (frames_ok x). eauto using keeps_frames, assign_keeps.
    + change (frames_ok x). eauto using keeps_frames, assign_keeps.
    + eauto using keeps_frames, assign_keeps.
Qed.

Lemma reachable_frames s : reachable s -> frames_ok s.
Proof.
  intros H. eapply steps_invariant; [|exact H|apply Forall_nil_2].
  intros a b Ha [c Hc]. by eapply exec_frames.
Qed.

Lemma busy_Forall s v : busy s v = false <-> Forall (fun f => frame_var f <> v) (pending s).
Proof.
  unfold busy. induction (pending s) as [|f fs IH]; cbn; [done|].
  rewrite orb_false_iff, IH, Forall_cons, Nat.eqb_neq. done.
Qed.

(** An operation under way can always be completed. *)
Lemma finish_progress s n f w :
  reachable s -> pending s !! n = Some f -> vars s !! w = None ->
  busy s w = false -> is_Some (finish n w s).
Proof.
  intros Hr Hf Hw Hb. pose proof (reachable_frames s Hr) as Hok. unfold frames_ok in Hok.
  rewrite Forall_lookup in Hok. destruct (Hok n f Hf) as [x Hx].
  unfold finish. rewrite Hf. cbn [mbind option_bind].
  assert (Ha : forall y, exists s1, assign (frame_var f) y (set_pending (delete n) s) = Some s1 /\
    vars s1 = <[frame_var f := y]> (vars s) /\ pending s1 = delete n (pending s)).
  { intros y. unfold assign. cbn [vars set_pending]. rewrite Hx. eexists; split; [done|].
    by destruct (release_value_vars x (set_vars (insert (frame_var f) y) (set_pending (delete n) s))) as [-> ->]. }
  destruct f as [v old|v old|v]; cbn [frame_var] in *.
  - destruct (Ha (VOwned None)) as (s1 & -> & Hv & Hp). cbn [mbind option_bind new_shared_data].
    unfold declare. cbn [vars set_blocks set_sdata]. rewrite Hv, lookup_insert_ne, Hw by congruence.
    assert (Hb1 : busy (set_blocks S (set_sdata <[blocks s1:=mkSharedData old false]> s1)) w = false).
    { apply busy_Forall. cbn. rewrite Hp. apply Forall_delete. by apply busy_Forall. }
    rewrite Hb1. eauto.
  - destruct (Ha (VOwned None)) as (s1 & -> & _). cbn. eauto.
  - destruct (Ha (VShared None)) as (s1 & -> & _). eauto.
Qed.

Lemma held_once s p : reachable s -> holders s p <= 1.
Proof. intros H. rewrite (inv_held _ _ (own_reachable_inv s H) p). case_decide; lia. Qed.

Lemma count_elem p l : p ∈ l <-> 0 < count p l.
Proof.
  induction l as [|q l IH]; [split; [by intros ?%not_elem_of_nil|by intros ?%Nat.nlt_0_r]|].
  rewrite elem_of_cons, count_cons, IH. unfold ind. case_decide; naive_solver lia.
Qed.

Lemma Owned_deref_block s v p :
  Owned_deref s v = Some (Returns p) ->
  exists o, vars s !! v = Some (VOwned (Some o)) /\ odata s !! o = Some (Some p).
Proof.
  unfold Owned_deref, Owned_get, Owned_loads. intros H. destruct (var s v) as [[[o|]| | | |]|] eqn:Hv; try done.
  destruct (odata s !! o) as [[q|]|] eqn:Ho; try done. cbn in H. injection H as ->. apply var_Some in Hv as [? ?]. eauto.
Qed.

Lemma Shared_get_block s v p :
  Shared_get s v = Some (Some p) ->
  exists l b, vars s !! v = Some (VShared (Some l)) /\ sdata s !! l = Some b /\ t b = p.
Proof.
  unfold Shared_get. intros H. repeat case_match; simplify_eq; open_vars; simplify_eq. eauto.
Qed.

(** C23: an object that an [Owned] gives access to is not deleted and not in the hands of a
    caller, no [Shared] points to it, and every other [Owned] that gives access to it is a
    copy of the same pointer: no two owners, and no owner next to shared readers, whatever
    the threads did before. *)
Theorem owned_exclusive s v p :
  reachable s -> Owned_deref s v = Some (Returns p) ->
  p ∉ deleted s /\ p ∉ raw s /\ (forall w, Shared_get s w <> Some (Some p)) /\
  (forall w, Owned_deref s w = Some (Returns p) -> vars s !! w = vars s !! v).
Proof.
  intros Hr Hv. pose proof (held_once s p Hr) as H1. unfold holders in H1.
  destruct (Owned_deref_block s v p Hv) as (o & Hvo & Ho).
  assert (Hi : ind p (Some p) = 1) by (unfold ind; by rewrite decide_True).
  pose proof (sum_delete (ind p) _ _ _ Ho) as Hs. rewrite Hi in Hs.
  split_and!.
  - rewrite count_elem. lia.
  - rewrite count_elem. lia.
  - intros w Hw. destruct (Shared_get_block s w p Hw) as (l & b & _ & Hl & Hb).
    pose proof (sum_map_lookup (fun b => ind p (Some (t b))) _ _ _ Hl) as Hsh. cbn in Hsh. rewrite Hb in Hsh. lia.
  - intros w Hw. destruct (Owned_deref_block s w p Hw) as (o' & Hwo & Ho').
    destruct (decide (o' = o)) as [->|Hne]; [congruence|exfalso].
    pose proof (sum_map_lookup (ind p) (delete o (odata s)) o' (Some p)) as Hx.
    rewrite lookup_delete_ne in Hx by done. specialize (Hx Ho'). lia.
Qed.

(** No object is deleted twice, and none is lost: when all variables are gone and no
    operation is under way, an object has been deleted exactly once, unless its caller holds
    it by a raw pointer that [new] or [release] returned. *)
Theorem objects_deleted_once s p :
  reachable s -> p < next s ->
  count p (deleted s) <= 1 /\
  (vars s = ∅ -> pending s = [] -> count p (raw s) + count p (deleted s) = 1).
Proof.
  intros Hr Hp. destruct (own_reachable_inv s Hr) as [H1 H2 H3 H4 H5 H6 H7 H8 H9].
  specialize (H1 p). rewrite decide_True in H1 by done. unfold holders in H1. split; [lia|].
  intros Hv Hpend.
  assert (Hno : forall P, ~ map_Exists (fun _ : nat => P) (vars s)).
  { intros P (w & z & Hw & _). by rewrite Hv, lookup_empty in Hw. }
  assert (Hsd : sdata s = ∅).
  { apply map_empty. intros l. apply eq_None_not_Some. intros Hl. by destruct (H3 l Hl) as [Hu|]; [apply (Hno _ Hu)|]. }
  assert (Hres : results s = ∅).
  { apply map_empty. intros l. apply eq_None_not_Some. intros Hl.
    destruct (H4 l Hl) as [[Hd|Hu]|]; [|apply (Hno _ Hu)|done]. rewrite Hsd, lookup_empty in Hd. by destruct Hd. }
  assert (Hod : odata s = ∅).
  { apply map_empty. intros o. apply eq_None_not_Some. intros Ho.
    destruct (H2 o Ho) as [[Hu|(l & o' & Hl & _)]|]; [apply (Hno _ Hu)| |done]. by rewrite Hres, lookup_empty in Hl. }
  rewrite Hsd, Hod, Hpend, !sum_map_empty in H1. cbn in H1. lia.
Qed.

(** The future that [Shared::own] returned is ready exactly when no [Shared] points to
    the block any more: ownership is handed over as soon as the access is exclusive and not
    before; and a block is upgraded at most once, later calls fail. *)
Theorem own_waits_for_exclusive s f l :
  reachable s -> vars s !! f = Some (VFuture l) ->
  (is_Some (results s !! l) <-> forall v, vars s !! v <> Some (VShared (Some l))) /\
  (forall v w s', var s v = Some (VShared (Some l)) -> own v w s = Some s' ->
     vars s' !! w = Some (VFailure "Ownership has already been transferred")).
Proof.
  intros Hr Hf. destruct (own_reachable_inv s Hr) as [H1 H2 H3 H4 H5 H6 H7 H8 H9]. split; [split|].
  - intros [o Ho] v Hv. destruct (H7 l o Ho) as [_ Hn]. destruct (H6 v l Hv) as [b Hb]. congruence.
  - intros Hno. destruct (H8 f l Hf) as [(b & Hb & _)|]; [exfalso|done].
    destruct (H3 l ltac:(eauto)) as [(v & x & Hv & ->)|]; [by apply (Hno v)|done].
  - intros v w s' Hv Hown. unfold own in Hown. rewrite Hv in Hown. apply var_Some in Hv as [Hv _].
    destruct (H6 v l Hv) as [b Hb]. rewrite Hb in Hown.
    destruct (H8 f l Hf) as [(b' & Hb' & Ho)|[o Ho]].
    + replace (owned b) with true in Hown by congruence. unfold declare in Hown.
      repeat case_match; simplify_eq. cbn. apply lookup_insert_eq.
    + destruct (H7 l o Ho). congruence.
Qed.

(** ** An execution: an object is shared between two readers and then owned again *)

Fixpoint play (cs : list op) (s : state) : option state :=
  match cs with [] => Some s | c :: cs => s ← exec c s; play cs s end.

Lemma own_play_reachable cs s s' : play cs s = Some s' -> reachable s -> reachable s'.
Proof.
  revert s. induction cs as [|c cs IH]; cbn; intros s Hp Hr; [by simplify_eq|].
  apply bind_Some in Hp as (s1 & H1 & H2). apply (IH s1 H2). eapply steps_trans; [exact Hr|].
  apply steps_one. by exists c.
Qed.

(** Variables: 0 an [Owned] and 1 its copy, 2 and 3 [Shared]s, 4 and 5 futures, 6 an [Owned]. *)
Definition sharing : list op :=
  [New; MakeOwned 0 (Some 0); Copy 0 1; Share 0 2; Finish 0 2; Copy 2 3; Own 2 4; Finish 0 9; Own 3 5].
Definition handing_over : list op := sharing ++ [Destroy 3; Get 4 6].
Definition ending : list op := handing_over ++ map Destroy [0; 1; 2; 4; 5; 6].

Definition shared_state : state := default initial (play sharing initial).
Definition owned_state : state := default initial (play handing_over initial).
Definition final_state : state := default initial (play ending initial).

Lemma shared_reachable : reachable shared_state.
Proof. apply (own_play_reachable sharing initial); [by vm_compute|apply steps_refl]. Qed.
Lemma owned_reachable : reachable owned_state.
Proof. apply (own_play_reachable handing_over initial); [by vm_compute|apply steps_refl]. Qed.
Lemma own_final_reachable : reachable final_state.
Proof. apply (own_play_reachable ending initial); [by vm_compute|apply steps_refl]. Qed.

(** A copy that is read while its [Owned] is shared: the check passes, and the pointer that
    [get] returns is null. *)
Example read_while_shared :
  Owned_loads (default initial (play [New; MakeOwned 0 (Some 0); Copy 0 1] initial)) shared_state 1 = Some (Returns None).
Proof. by vm_compute. Qed.

(** The copy of the [Owned] that was shared aborts. *)
Example copy_aborts : Owned_get shared_state 1 = Some (Abort "This owned pointer has already been shared").
Proof. by vm_compute. Qed.

Lemma owned_exclusive_witness :
  Owned_deref owned_state 6 = Some (Returns 0) /\ Owned_deref owned_state 1 <> Some (Returns 0) /\
  (0 ∉ deleted owned_state /\ 0 ∉ raw owned_state /\ (forall w, Shared_get owned_state w <> Some (Some 0)) /\
   (forall w, Owned_deref owned_state w = Some (Returns 0) -> vars owned_state !! w = vars owned_state !! 6)).
Proof.
  split_and!; [by vm_compute|by vm_compute|..];
    apply (owned_exclusive owned_state 6 0 owned_reachable); by vm_compute.
Defined.

Lemma objects_deleted_once_witness :
  deleted final_state = [0] /\ count 0 (raw final_state) + count 0 (deleted final_state) = 1.
Proof.
  split; [by vm_compute|].
  apply (objects_deleted_once final_state 0 own_final_reachable); by vm_compute; try lia.
Defined.

Lemma own_waits_for_exclusive_witness :
  (is_Some (results shared_state !! 1) <-> forall v, vars shared_state !! v <> Some (VShared (Some 1))) /\
  vars shared_state !! 3 = Some (VShared (Some 1)) /\
  vars shared_state !! 5 = Some (VFailure "Ownership has already been transferred").
Proof.
  split_and!; [|by vm_compute|by vm_compute].
  apply (own_waits_for_exclusive shared_state 4 1 shared_reachable). by vm_compute.
Defined.
