(* ===== verification/Descriptors.v ===== *)
(** File descriptors of an operating system process, as [io.cpp] and [subprocess.cpp] use
    them.

    A descriptor is a number that refers to an open file; [dup] makes another number for the
    same file, and numbers are used again after [close].  Every call that can fail takes its
    outcome from a list of faults, so that the theorems hold whichever calls fail.  Which
    free number the system chooses is an argument. *)

From S2P Require Import Prelude.

(** What a descriptor refers to, and its [FD_CLOEXEC] flag. *)
Record entry := mkEntry { file : nat; cloexec : bool }.

#[global] Instance entry_eq_dec : EqDecision entry.
Proof. solve_decision. Defined.

Notation fds := (gmap Z entry).

Record world := mkWorld {
  table : fds;
  async : gset nat;              (* the files with [O_NONBLOCK] *)
  files : nat;                   (* files opened so far *)
  faults : list (option string); (* the errors of the next calls; [None] is a success *)
}.

Definition set_table (f : fds -> fds) (w : world) : world :=
  mkWorld (f (table w)) (async w) (files w) (faults w).

(** The number of a new descriptor: unused and not negative. *)
Class Descriptors := {
  fresh_fd : fds -> Z;
  fresh_fd_free m : m !! fresh_fd m = None;
  fresh_fd_nonneg m : (0 <= fresh_fd m)%Z;
}.

(** ** Calls that can fail *)

Definition sys (A : Type) : Type := world -> Try A * world.

Definition ret {A} (a : A) : sys A := fun w => (Some_ a, w).
Definition error {A} (m : string) : sys A := fun w => (Error m, w).
Definition bind {A B} (m : sys A) (k : A -> sys B) : sys B := fun w =>
  match m w with
  | (Some_ a, w) => k a w
  | (Error e, w) => (Error e, w)
  end.

Declare Scope sys_scope.
Delimit Scope sys_scope with sys.
Notation "'let*' x ':=' m 'in' k" := (bind m (fun x => k))
  (at level 200, x pattern, m at level 100, k at level 200, right associativity) : sys_scope.

(** [os::close]: what it returns is ignored by the callers. *)
Definition os_close (fd : Z) (w : world) : world := set_table (delete fd) w.

Definition close_all (l : list Z) (w : world) : world := foldr os_close w l.

(** [if (x.isError()) { os::close(...); return Failure(prefix + x.error()); }] *)
Definition or_close {A} (m : sys A) (l : list Z) (prefix : string) : sys A := fun w =>
  match m w with
  | (Some_ a, w) => (Some_ a, w)
  | (Error e, w) => (Error (prefix +:+ e), close_all l w)
  end.

(** The next fault. *)
Definition fault : sys unit := fun w =>
  match faults w with
  | [] => (Some_ (), w)
  | x :: r =>
      let w := mkWorld (table w) (async w) (files w) r in
      match x with Some m => (Error m, w) | None => (Some_ (), w) end
  end.

Definition EBADF : string := "Bad file descriptor".

(** A call on a descriptor: it must be open, and the call can fail. *)
Definition on_fd (fd : Z) : sys entry := fun w =>
  match table w !! fd with
  | None => (Error EBADF, w)
  | Some e => bind fault (fun _ => ret e) w
  end.

Section Calls.
Context `{Descriptors}.
Local Open Scope sys_scope.

Definition add_fd (e : entry) : sys Z := fun w =>
  let n := fresh_fd (table w) in (Some_ n, set_table (insert n e) w).

(** [dup]: the flag is clear on the copy. *)
Definition os_dup (fd : Z) : sys Z :=
  let* e := on_fd fd in add_fd (mkEntry (file e) false).

(** A new file. *)
Definition os_open (flag : bool) : sys Z :=
  let* _ := fault in fun w =>
  add_fd (mkEntry (files w) flag) (mkWorld (table w) (async w) (S (files w)) (faults w)).

(** The two ends of a pipe; [flag] is whether they close on [exec]. *)
Definition os_pipe (flag : bool) : sys (Z * Z) :=
  let* _ := fault in fun w =>
  let '(f, w) := (files w, mkWorld (table w) (async w) (S (S (files w))) (faults w)) in
  (let* r := add_fd (mkEntry f flag) in let* x := add_fd (mkEntry (S f) flag) in ret (r, x)) w.

Definition os_cloexec (fd : Z) : sys unit :=
  let* e := on_fd fd in fun w => (Some_ (), set_table (insert fd (mkEntry (file e) true)) w).

(** [os::nonblock]: the flag belongs to the file, not to the descriptor. *)
Definition os_nonblock (fd : Z) : sys unit :=
  let* e := on_fd fd in fun w =>
  (Some_ (), mkWorld (table w) ({[file e]} ∪ async w) (files w) (faults w)).

(** [os::isNonblock]. *)
Definition os_isNonblock (fd : Z) : sys bool :=
  let* e := on_fd fd in fun w => (Some_ (bool_decide (file e ∈ async w)), w).
End Calls.

(** ** Laws *)

Lemma bind_inv {A B} (m : sys A) (k : A -> sys B) w r w' :
  bind m k w = (r, w') ->
  (exists e, m w = (Error e, w') /\ r = Error e) \/
  (exists a w1, m w = (Some_ a, w1) /\ k a w1 = (r, w')).
Proof. unfold bind. destruct (m w) as [[a|e] w1]; intros; simplify_eq; eauto. Qed.

Lemma or_close_inv {A} (m : sys A) l p w r w' :
  or_close m l p w = (r, w') ->
  (exists e w1, m w = (Error e, w1) /\ r = Error (p +:+ e) /\ w' = close_all l w1) \/
  (exists a, m w = (Some_ a, w') /\ r = Some_ a).
Proof. unfold or_close. destruct (m w) as [[a|e] w1]; intros; simplify_eq; eauto 10. Qed.

(** Calls that leave the table, the files and the flags alone. *)
Definition same (w w' : world) : Prop :=
  table w' = table w /\ async w' = async w /\ files w' = files w.

Lemma fault_same w r w' : fault w = (r, w') -> same w w'.
Proof. unfold fault. intros. repeat case_match; simplify_eq; done. Qed.

Lemma on_fd_inv fd w r w' :
  on_fd fd w = (r, w') ->
  same w w' /\ match r with Some_ e => table w !! fd = Some e | Error _ => True end.
Proof.
  unfold on_fd. destruct (table w !! fd) as [e|]; [|intros; simplify_eq; done].
  intros [(e1 & Hf & ->)|([] & w1 & Hf & Hr)]%bind_inv; apply fault_same in Hf.
  - done.
  - unfold ret in Hr. by simplify_eq.
Qed.

Section Laws.
Context `{Descriptors}.

Lemma os_dup_inv fd w r w' :
  os_dup fd w = (r, w') ->
  match r with
  | Error _ => same w w'
  | Some_ n => exists e, table w !! fd = Some e /\ table w !! n = None /\ (0 <= n)%Z /\
      table w' = <[n := mkEntry (file e) false]> (table w) /\ async w' = async w /\ files w' = files w
  end.
Proof.
  intros [(e & He & ->)|(e & w1 & He & Hr)]%bind_inv; apply on_fd_inv in He as [(Ht & Ha & Hf) He]; [done|].
  unfold add_fd in Hr. simplify_eq. cbn. rewrite Ht.
  exists e. split_and!; auto using fresh_fd_free, fresh_fd_nonneg.
Qed.

Lemma os_open_inv b w r w' :
  os_open b w = (r, w') ->
  match r with
  | Error _ => same w w'
  | Some_ n => table w !! n = None /\ (0 <= n)%Z /\
      table w' = <[n := mkEntry (files w) b]> (table w) /\ async w' = async w /\ files w' = S (files w)
  end.
Proof.
  intros [(e & He & ->)|(e & w1 & He & Hr)]%bind_inv; apply fault_same in He as (Ht & Ha & Hf); [done|].
  unfold add_fd in Hr. simplify_eq. cbn. rewrite Ht, Ha, Hf.
  split_and!; auto using fresh_fd_free, fresh_fd_nonneg.
Qed.

Lemma os_pipe_inv b w x w' :
  os_pipe b w = (x, w') ->
  match x with
  | Error _ => same w w'
  | Some_ (r, x) => table w !! r = None /\ (0 <= r)%Z /\ table w !! x = None /\ (0 <= x)%Z /\ r <> x /\
      table w' = <[x := mkEntry (S (files w)) b]> (<[r := mkEntry (files w) b]> (table w)) /\
      async w' = async w /\ files w' = S (S (files w))
  end.
Proof.
  intros [(e & He & ->)|(e & w1 & He & Hr)]%bind_inv; apply fault_same in He as (Ht & Ha & Hf); [done|].
  unfold bind, add_fd, ret in Hr. cbn in Hr. simplify_eq. cbn. rewrite Ht, Ha, Hf.
  set (m := <[fresh_fd (table w) := _]> (table w)).
  assert (Hx : m !! fresh_fd m = None) by apply fresh_fd_free.
  assert (Hne : fresh_fd (table w) <> fresh_fd m).
  { intros Heq. rewrite <- Heq in Hx. unfold m in Hx. by rewrite lookup_insert_eq in Hx. }
  split_and!; auto using fresh_fd_free, fresh_fd_nonneg. trans (m !! fresh_fd m); [|done].
  symmetry. by apply lookup_insert_ne.
Qed.

Lemma os_cloexec_inv fd w r w' :
  os_cloexec fd w = (r, w') ->
  match r with
  | Error _ => same w w'
  | Some_ _ => exists e, table w !! fd = Some e /\
      table w' = <[fd := mkEntry (file e) true]> (table w) /\ async w' = async w /\ files w' = files w
  end.
Proof.
  intros [(e & He & ->)|(e & w1 & He & Hr)]%bind_inv; apply on_fd_inv in He as [(Ht & Ha & Hf) He]; [done|].
  simplify_eq. cbn. rewrite Ht, Ha, Hf. eauto 10.
Qed.

Lemma os_nonblock_inv fd w r w' :
  os_nonblock fd w = (r, w') ->
  match r with
  | Error _ => same w w'
  | Some_ _ => exists e, table w !! fd = Some e /\ table w' = table w /\
      async w' = {[file e]} ∪ async w /\ files w' = files w
  end.
Proof.
  intros [(e & He & ->)|(e & w1 & He & Hr)]%bind_inv; apply on_fd_inv in He as [(Ht & Ha & Hf) He]; [done|].
  simplify_eq. cbn. rewrite Ht, Ha, Hf. eauto 10.
Qed.

Lemma os_isNonblock_inv fd w r w' :
  os_isNonblock fd w = (r, w') ->
  same w w' /\ match r with
  | Error _ => True
  | Some_ b => exists e, table w !! fd = Some e /\ b = bool_decide (file e ∈ async w)
  end.
Proof.
  intros [(e & He & ->)|(e & w1 & He & Hr)]%bind_inv; apply on_fd_inv in He as [(Ht & Ha & Hf) He]; [done|].
  simplify_eq. split; [done|]. rewrite Ha. eauto.
Qed.
End Laws.

(** Inversion of sequences of calls. *)
Ltac inv_calls :=
  repeat match goal with
  | H : bind _ _ _ = _ |- _ => apply bind_inv in H as [(? & H & ?)|(? & ? & H & ?)]; simplify_eq
  | H : or_close _ _ _ _ = _ |- _ =>
      apply or_close_inv in H as [(? & ? & H & ? & ?)|(? & H & ?)]; simplify_eq
  | H : ret _ _ = _ |- _ => unfold ret in H; simplify_eq
  | H : error _ _ = _ |- _ => unfold error in H; simplify_eq
  | H : os_dup _ _ = (Some_ _, _) |- _ => apply os_dup_inv in H as (? & ? & ? & ? & ? & ? & ?)
  | H : os_dup _ _ = (Error _, _) |- _ => apply os_dup_inv in H as (? & ? & ?)
  | H : os_open _ _ = (Some_ _, _) |- _ => apply os_open_inv in H as (? & ? & ? & ? & ?)
  | H : os_open _ _ = (Error _, _) |- _ => apply os_open_inv in H as (? & ? & ?)
  | H : os_cloexec _ _ = (Some_ _, _) |- _ => apply os_cloexec_inv in H as (? & ? & ? & ? & ?)
  | H : os_cloexec _ _ = (Error _, _) |- _ => apply os_cloexec_inv in H as (? & ? & ?)
  | H : os_nonblock _ _ = (Some_ _, _) |- _ => apply os_nonblock_inv in H as (? & ? & ? & ? & ?)
  | H : os_nonblock _ _ = (Error _, _) |- _ => apply os_nonblock_inv in H as (? & ? & ?)
  end.

(** The copies replace each other in the table. *)
Ltac tables :=
  cbn [close_all foldr os_close set_table table];
  repeat match goal with H : table _ = _ |- _ => rewrite H in * end;
  rewrite ?lookup_insert_eq in *; simplify_eq; rewrite ?insert_insert_eq; cbn [file].

(** Tables that differ at two numbers at most. *)
Ltac two_keys f t :=
  apply map_eq; intros k; destruct (decide (k = f)); destruct (decide (k = t)); subst; by simplify_map_eq.

(** ** The lowest free number, which POSIX promises for [open], [dup] and [pipe] *)

Definition lowest_fd (m : fds) : Z :=
  default 0%Z (head (filter (fun n => m !! n = None) (seqZ 0 (Z.of_nat (S (size m)))))).

Lemma lowest_fd_spec m : m !! lowest_fd m = None /\ (0 <= lowest_fd m)%Z.
Proof.
  unfold lowest_fd. set (l := seqZ _ _).
  destruct (filter _ l) as [|n k] eqn:Hl; cbn.
  - exfalso.
    assert (Hsub : list_to_set l ⊆ dom m).
    { intros n Hn%elem_of_list_to_set. apply elem_of_dom. destruct (m !! n) eqn:Hm; [done|].
      assert (Hin : n ∈ filter (fun n => m !! n = None) l) by (by apply list_elem_of_filter).
      rewrite Hl in Hin. by apply not_elem_of_nil in Hin. }
    apply subseteq_size in Hsub. rewrite size_dom, size_list_to_set in Hsub by apply NoDup_seqZ.
    unfold l in Hsub. rewrite length_seqZ in Hsub. lia.
  - assert (Hin : n ∈ filter (fun n => m !! n = None) l) by (rewrite Hl; by left).
    apply list_elem_of_filter in Hin as [Hn Hin]. apply elem_of_seqZ in Hin. split; [done|lia].
Qed.

Definition Posix : Descriptors := {|
  fresh_fd := lowest_fd;
  fresh_fd_free m := proj1 (lowest_fd_spec m);
  fresh_fd_nonneg m := proj2 (lowest_fd_spec m);
|}.
