(* ===== verification/Io.v ===== *)
(** Reading, writing and redirecting file descriptors ([io.cpp], [posix/io.cpp]).

    Operations are asynchronous: each is a loop that waits for the system between two steps,
    and in between other operations start and end and the user opens, copies and closes
    descriptors.  A state has the descriptor table, the operations under way and a history of
    what the system calls transferred for each of them; a step is one action of the user or
    one answer of the system to an operation. *)

From S2P Require Import Prelude HttpConnection Descriptors.

Notation bytes := (list Ascii.ascii).

(** [io::READ], [io::WRITE], [io::BUFFERED_READ_SIZE]. *)
Definition READ : Z := 1.
Definition WRITE : Z := 2.
Definition BUFFERED_READ_SIZE : Z := 16 * 4096.

(** ** One read or write *)

(** What the system answers: the result of the system call, or how [io::poll] ends. *)
Inductive answer :=
| Bytes (s : bytes)            (* [os::read] *)
| Count (n : nat)              (* [os::write] *)
| Retryable                    (* an error that is restartable or retryable *)
| SysError (message : string)
| Polled (events : Z)
| PollFailed (message : string)
| PollDiscarded.

(** Where a read or write is: about to be called, in the loop that tries, or in [io::poll]. *)
Inductive phase := Calling | Trying | Polling.

Inductive outcome (X : Type) :=
| Again (ph : phase)
| Result (r : completion X)
| Crash (message : string).
Arguments Again {X} ph.
Arguments Result {X} r.
Arguments Crash {X} message.

(** The loop of [internal::read] and [internal::write]; [got] is what the call transfers. *)
Definition internal_loop {X} (event : Z) (got : answer -> option X) (ph : phase) (a : answer)
    : option (outcome X) :=
  match ph, a with
  | Polling, Polled events =>
      Some (if (events =? event)%Z then Again Trying else Crash "CHECK_EQ(event)")
  | Polling, PollFailed m => Some (Result (IsFailed m))
  | Polling, PollDiscarded => Some (Result IsDiscarded)
  | Polling, _ => None
  | _, Retryable => Some (Again Polling)
  | _, SysError m => Some (Result (IsFailed m))
  | _, _ => x ← got a; Some (Result (IsReady x))
  end.

(** A system call transfers at most what it was asked for. *)
Definition got_bytes (size : Z) (a : answer) : option bytes :=
  match a with
  | Bytes s => if (Z.of_nat (length s) <=? size)%Z then Some s else None
  | _ => None
  end.
Definition got_count (size : Z) (a : answer) : option nat :=
  match a with
  | Count n => if (Z.of_nat n <=? size)%Z then Some n else None
  | _ => None
  end.

(** [internal::read] and [internal::write]: nothing to transfer is no call. *)
Definition internal_read (size : Z) (ph : phase) (a : answer) : option (outcome bytes) :=
  if (size =? 0)%Z then Some (Result (IsReady [])) else internal_loop READ (got_bytes size) ph a.
Definition internal_write (size : Z) (ph : phase) (a : answer) : option (outcome nat) :=
  if (size =? 0)%Z then Some (Result (IsReady 0)) else internal_loop WRITE (got_count size) ph a.

(** The check of the descriptor with which [io::read] and [io::write] begin. *)
Definition check_async {X} (fd : Z) (ph : phase) (k : option (outcome X)) (w : world)
    : option (outcome X * world) :=
  match ph with
  | Calling =>
      match os_isNonblock fd w with
      | (Error e, w) =>
          Some (Result (IsFailed ("Failed to check if file descriptor was asynchronous: " +:+ e)), w)
      | (Some_ false, w) => Some (Result (IsFailed "Expected an asynchronous file descriptor."), w)
      | (Some_ true, w) => r ← k; Some (r, w)
      end
  | _ => r ← k; Some (r, w)
  end.

(** [io::read(fd, data, size)] and [io::write(fd, data, size)]. *)
Definition io_read1 (fd : Z) (size : Z) (ph : phase) (a : answer) : world -> option (outcome bytes * world) :=
  check_async fd ph (internal_read size ph a).
Definition io_write1 (fd : Z) (size : Z) (ph : phase) (a : answer) : world -> option (outcome nat * world) :=
  check_async fd ph (internal_write size ph a).

(** ** The operations *)

Section Io.
Context `{Descriptors}.
Local Open Scope sys_scope.

(** How [io::read(fd)] and [io::write(fd, data)] begin: a copy of the descriptor that closes
    on [exec] and does not block. *)
Definition own_copy (fd : Z) : sys Z :=
  if (fd <? 0)%Z then error EBADF
  else
    let* fd := os_dup fd in
    let* _ := or_close (os_cloexec fd) [fd]
                "Failed to set close-on-exec on duplicated file descriptor: " in
    let* _ := or_close (os_nonblock fd) [fd]
                "Failed to make duplicated file descriptor asynchronous: " in
    ret fd.

(** How [redirect] begins: its own copies of both descriptors. *)
Definition redirect_copies (from : Z) (to : option Z) : sys (Z * Z) :=
  if (from <? 0)%Z || match to with Some to => (to <? 0)%Z | None => false end then error EBADF
  else
    let* to :=
      match to with
      | None => or_close (os_open true) [] "Failed to open /dev/null for writing: "
      | Some to => os_dup to
      end in
    let* from := or_close (os_dup from) [to] "Failed to duplicate 'from' file descriptor: " in
    let* _ := or_close (os_cloexec from) [from; to] "Failed to set close-on-exec on 'from': " in
    let* _ := or_close (os_cloexec to) [from; to] "Failed to set close-on-exec on 'to': " in
    let* _ := or_close (os_nonblock from) [from; to] "Failed to make 'from' asynchronous: " in
    let* _ := or_close (os_nonblock to) [from; to] "Failed to make 'to' asynchronous: " in
    ret (from, to).

(** The loop of [io::write(fd, data)]. *)
Record writing := mkWriting { wfd : Z; wfile : nat; data : bytes; index : nat; wphase : phase }.

(** An operation under way.  The numbers of the files are a history: the files that
    the descriptors of the request referred to when the operation began. *)
Inductive task :=
| TRead (fd : Z) (src : nat) (buffer : bytes) (ph : phase)
| TWrite (t : writing)
| TRedirect (from to : Z) (src dst : nat) (chunk : Z) (ph : phase) (t : option writing).

(** What the system calls of an operation transferred so far, and the calls of the hooks. *)
Record history := mkHistory { taken : bytes; given : bytes; hooked : list bytes }.

Inductive progress :=
| Runs (t : task)
| Completes (r : completion (option bytes))  (* [None] is [Nothing()] *)
| Crashes (message : string).

(** A failure or a discard of the future that a loop waits for ends the loop. *)
Definition end_with {A} (r : completion A) : completion (option bytes) :=
  match r with IsFailed m => IsFailed m | _ => IsDiscarded end.

(** One step of [io::write(fd, data)]: the inner result is the whole of it. *)
Definition write_step (t : writing) (a : answer) (h : history) (w : world)
    : option ((writing + completion unit + string) * history * world) :=
  '(o, w) ← io_write1 (wfd t) (Z.of_nat (length (data t) - index t)) (wphase t) a w;
  Some match o with
  | Again ph => (inl (inl (mkWriting (wfd t) (wfile t) (data t) (index t) ph)), h, w)
  | Result (IsReady n) =>
      let h := mkHistory (taken h) (given h ++ take n (drop (index t) (data t))) (hooked h) in
      let i := index t + n in
      if Nat.eqb i (length (data t)) then (inl (inr (IsReady ())), h, os_close (wfd t) w)
      else (inl (inl (mkWriting (wfd t) (wfile t) (data t) i Calling)), h, w)
  | Result (IsFailed m) => (inl (inr (IsFailed m)), h, os_close (wfd t) w)
  | Result IsDiscarded => (inl (inr IsDiscarded), h, os_close (wfd t) w)
  | Crash m => (inr m, h, w)
  end.

(** What a read transferred. *)
Definition take_in (o : outcome bytes) (h : history) : history :=
  match o with
  | Result (IsReady s) => mkHistory (taken h ++ s) (given h) (hooked h)
  | _ => h
  end.

(** One step of [io::read(fd)]. *)
Definition read_step (fd : Z) (src : nat) (buffer : bytes) (ph : phase) (a : answer) (h : history) (w : world)
    : option (progress * history * world) :=
  '(o, w) ← io_read1 fd BUFFERED_READ_SIZE ph a w;
  let h := take_in o h in
  Some match o with
  | Again ph => (Runs (TRead fd src buffer ph), h, w)
  | Result (IsReady []) => (Completes (IsReady (Some buffer)), h, os_close fd w)
  | Result (IsReady s) => (Runs (TRead fd src (buffer ++ s) Calling), h, w)
  | Result r => (Completes (end_with r), h, os_close fd w)
  | Crash m => (Crashes m, h, w)
  end.

(** One step of [internal::splice]: it reads, or it is in [io::write(to, s)]. *)
Definition splice_step (from to : Z) (src dst : nat) (chunk : Z) (ph : phase) (t : option writing)
    (a : answer) (h : history) (w : world) : option (progress * history * world) :=
  match t with
  | Some t =>
      '(o, h, w) ← write_step t a h w;
      Some match o with
      | inl (inl t) => (Runs (TRedirect from to src dst chunk ph (Some t)), h, w)
      | inl (inr (IsReady _)) => (Runs (TRedirect from to src dst chunk Calling None), h, w)
      | inl (inr r) => (Completes (end_with r), h, os_close to (os_close from w))
      | inr m => (Crashes m, h, w)
      end
  | None =>
      '(o, w) ← io_read1 from chunk ph a w;
      let h := take_in o h in
      Some match o with
      | Again ph => (Runs (TRedirect from to src dst chunk ph None), h, w)
      | Result (IsReady []) => (Completes (IsReady None), h, os_close to (os_close from w))
      | Result (IsReady s) =>
          (* The hooks, then [io::write(to, s)]. *)
          let h := mkHistory (taken h) (given h) (hooked h ++ [s]) in
          match own_copy to w with
          | (Some_ fd, w) =>
              (Runs (TRedirect from to src dst chunk ph (Some (mkWriting fd dst s 0 Calling))), h, w)
          | (Error e, w) => (Completes (IsFailed e), h, os_close to (os_close from w))
          end
      | Result r => (Completes (end_with r), h, os_close to (os_close from w))
      | Crash m => (Crashes m, h, w)
      end
  end.

(** One step of an operation. *)
Definition task_step (t : task) (a : answer) (h : history) (w : world)
    : option (progress * history * world) :=
  match t with
  | TRead fd src buffer ph => read_step fd src buffer ph a h w
  | TWrite t =>
      '(o, h, w) ← write_step t a h w;
      Some match o with
      | inl (inl t) => (Runs (TWrite t), h, w)
      | inl (inr (IsReady _)) => (Completes (IsReady None), h, w)
      | inl (inr r) => (Completes (end_with r), h, w)
      | inr m => (Crashes m, h, w)
      end
  | TRedirect from to src dst chunk ph t => splice_step from to src dst chunk ph t a h w
  end.

(** ** The whole *)

(** What was asked for. *)
Inductive request :=
| Read (fd : Z)
| Write (fd : Z) (data : bytes)
| Redirect (from : Z) (to : option Z) (chunk : Z).

Record state := mkState {
  os : world;
  user : gmap Z nat;                            (* the descriptors of the user, and their files *)
  asked : list request;                         (* operation [i] is the [i]-th request *)
  tasks : gmap nat task;
  histories : gmap nat history;
  done : gmap nat (completion (option bytes));
  crashed : option string;
}.

Definition file_of (w : world) (fd : Z) : nat := from_option file 0 (table w !! fd).

(** The file that [redirect] writes to: that of [to], or [/dev/null], a new file. *)
Definition target (w : world) (to : option Z) : nat :=
  match to with Some to => file_of w to | None => files w end.

(** [io::read], [io::write] and [io::redirect].  The files of the history are those of the
    descriptors that were asked for, before anything was copied; if [from] is not open then,
    the file that its number has come to refer to. *)
Definition begin_task (r : request) : sys task := fun w =>
  match r with
  | Read fd => (let* n := own_copy fd in ret (TRead n (file_of w fd) [] Calling)) w
  | Write fd d => (let* n := own_copy fd in ret (TWrite (mkWriting n (file_of w fd) d 0 Calling))) w
  | Redirect from to chunk =>
      (let* ft := redirect_copies from to in fun w' =>
       let src := match table w !! from with Some e => file e | None => file_of w' ft.1 end in
       ret (TRedirect ft.1 ft.2 src (target w to) chunk Calling None) w') w
  end.

Inductive action :=
| UserOpen | UserDup (fd : Z) | UserClose (fd : Z)
| UserBlock (f : nat)                           (* the user clears [O_NONBLOCK] *)
| Faults (l : list (option string))             (* which of the next calls fail *)
| Start (r : request)
| Answer (i : nat) (a : answer).

Definition exec (c : action) (s : state) : option state :=
  match crashed s with
  | Some _ => None
  | None =>
  let '(mkState w u q ts hs d cr) := s in
  match c with
  | UserOpen =>
      match os_open false w with
      | (Some_ n, w') => Some (mkState w' (<[n := files w]> u) q ts hs d cr)
      | (Error _, w') => Some (mkState w' u q ts hs d cr)
      end
  | UserDup fd =>
      f ← u !! fd;
      match os_dup fd w with
      | (Some_ n, w') => Some (mkState w' (<[n := f]> u) q ts hs d cr)
      | (Error _, w') => Some (mkState w' u q ts hs d cr)
      end
  | UserClose fd => _ ← u !! fd; Some (mkState (os_close fd w) (delete fd u) q ts hs d cr)
  | UserBlock f =>
      Some (mkState (mkWorld (table w) (async w ∖ {[f]}) (files w) (faults w)) u q ts hs d cr)
  | Faults l => Some (mkState (mkWorld (table w) (async w) (files w) l) u q ts hs d cr)
  | Start r =>
      let i := length q in
      match begin_task r w with
      | (Some_ t, w) => Some (mkState w u (q ++ [r]) (<[i := t]> ts) (<[i := mkHistory [] [] []]> hs) d cr)
      | (Error e, w) => Some (mkState w u (q ++ [r]) ts hs (<[i := IsFailed e]> d) cr)
      end
  | Answer i a =>
      t ← ts !! i; h ← hs !! i;
      '(o, h, w) ← task_step t a h w;
      let hs' := <[i := h]> hs in
      Some match o with
      | Runs t => mkState w u q (<[i := t]> ts) hs' d cr
      | Completes r => mkState w u q (delete i ts) hs' (<[i := r]> d) cr
      | Crashes m => mkState w u q ts hs d (Some m)
      end
  end end.

Definition initial : state := mkState (mkWorld ∅ ∅ 0 []) ∅ [] ∅ ∅ ∅ None.

Definition step (s s' : state) : Prop := exists c, exec c s = Some s'.
Definition reachable (s : state) : Prop := steps step initial s.
End Io.
