(* ===== verification/IoSpec.v ===== *)
(** Properties of the operations on descriptors: whose a descriptor is, and what is read and
    written. *)

From S2P Require Import Prelude HttpConnection Descriptors Io.

(** ** Whose a descriptor is *)

(** The descriptors that an operation closes when it ends, and the files they refer to. *)
Definition writing_fds (t : writing) : list (Z * nat) := [(wfd t, wfile t)].
Definition task_fds (t : task) : list (Z * nat) :=
  match t with
  | TRead fd src _ _ => [(fd, src)]
  | TWrite t => writing_fds t
  | TRedirect from to src dst _ _ t => from_option writing_fds [] t ++ [(from, src); (to, dst)]
  end.

Definition claims (ts : gmap nat task) (i : nat) : list (Z * nat) := from_option task_fds [] (ts !! i).

Record owned (m : fds) (u : gmap Z nat) (c : nat -> list (Z * nat)) : Prop := mkOwned {
  owned_task i fd f : (fd, f) ∈ c i -> m !! fd = Some (mkEntry f true) /\ u !! fd = None;
  owned_apart i j fd : i <> j -> fd ∈ (c i).*1 -> fd ∉ (c j).*1;
  owned_nodup i : NoDup (c i).*1;
  owned_user fd f : u !! fd = Some f -> exists e, m !! fd = Some e /\ file e = f;
  owned_all fd e : m !! fd = Some e -> is_Some (u !! fd) \/ exists i, fd ∈ (c i).*1;
}.

(** The descriptors [l] were closed and [l'] opened, except for those in both. *)
Record moves (l l' : list (Z * nat)) (m m' : fds) : Prop := mkMoves {
  moves_new fd f : (fd, f) ∈ l' -> m' !! fd = Some (mkEntry f true);
  moves_gone fd : fd ∈ l.*1 -> fd ∉ l'.*1 -> m' !! fd = None;
  moves_same fd : fd ∉ l.*1 -> fd ∉ l'.*1 -> m' !! fd = m !! fd;
  moves_free fd : fd ∈ l'.*1 -> fd ∈ l.*1 \/ m !! fd = None;
  moves_nodup : NoDup l'.*1;
}.

Lemma fst_elem (fd : Z) (l : list (Z * nat)) : fd ∈ l.*1 <-> exists f, (fd, f) ∈ l.
Proof.
  rewrite list_elem_of_fmap. split; [intros ([? f] & -> & ?); by exists f|intros [f ?]; by exists (fd, f)].
Qed.

Lemma owned_fd m u c i fd : owned m u c -> fd ∈ (c i).*1 -> is_Some (m !! fd) /\ u !! fd = None.
Proof. intros H [f Hf]%fst_elem. destruct (owned_task _ _ _ H i fd f Hf) as [-> ?]. eauto. Qed.

Lemma owned_moves m m' u c c' i l' :
  owned m u c -> moves (c i) l' m m' -> (forall j, j <> i -> c' j = c j) -> c' i = l' -> owned m' u c'.
Proof.
  intros H [N G S F D] Hj Hi. subst l'.
  assert (Hother : forall fd, (is_Some (u !! fd) \/ exists j, j <> i /\ fd ∈ (c j).*1) ->
    fd ∉ (c i).*1 /\ fd ∉ (c' i).*1).
  { intros fd Hfd.
    assert (Hm : is_Some (m !! fd)).
    { destruct Hfd as [[f Hu]|(j & _ & Hfd)]; [|by eapply owned_fd].
      destruct (owned_user _ _ _ H fd f Hu) as (e & -> & _). eauto. }
    assert (Hni : fd ∉ (c i).*1).
    { intros Hin. destruct Hfd as [[f Hu]|(j & Hne & Hfd)].
      - destruct (owned_fd _ _ _ _ _ H Hin). congruence.
      - by eapply (owned_apart _ _ _ H i j). }
    split; [done|]. intros Hin. destruct (F fd Hin) as [|Hn]; [done|]. rewrite Hn in Hm. by destruct Hm. }
  constructor.
  - intros j fd f Hf. destruct (decide (j = i)) as [->|Hne].
    + split; [by apply N|]. destruct (u !! fd) eqn:Hu; [|done]. destruct (Hother fd) as [_ Hx]; [left; eauto|].
      destruct Hx. apply fst_elem. eauto.
    + rewrite Hj in Hf by done. destruct (owned_task _ _ _ H j fd f Hf) as [Hm Hu]. split; [|done].
      destruct (Hother fd) as [? ?]; [right; exists j; split; [done|]; apply fst_elem; eauto|]. by rewrite S.
  - intros j k fd Hjk Hin Hin'.
    destruct (decide (j = i)) as [->|Hji], (decide (k = i)) as [->|Hki]; [done|..].
    + rewrite (Hj k) in Hin' by done. destruct (Hother fd) as [_ Hx]; [right; eauto|done].
    + rewrite (Hj j) in Hin by done. destruct (Hother fd) as [_ Hx]; [right; eauto|done].
    + rewrite Hj in Hin, Hin' by done. by eapply (owned_apart _ _ _ H j k).
  - intros j. destruct (decide (j = i)) as [->|Hne]; [done|]. rewrite Hj by done. by eapply owned_nodup.
  - intros fd f Hu. destruct (owned_user _ _ _ H fd f Hu) as (e & He & Hf).
    destruct (Hother fd) as [? ?]; [left; eauto|]. exists e. by rewrite S.
  - intros fd e He. destruct (decide (fd ∈ (c' i).*1)) as [|Hn']; [right; eauto|].
    destruct (decide (fd ∈ (c i).*1)) as [Hin|Hn]; [rewrite G in He by done; done|].
    rewrite S in He by done. destruct (owned_all _ _ _ H fd e He) as [|(j & Hin)]; [by left|right].
    exists j. destruct (decide (j = i)) as [->|Hne]; [done|]. by rewrite Hj.
Qed.

(** Moves that the operations make. *)
Section Moves.
Context (m : fds).

(** What is open is as it is claimed to be. *)
Definition open_as (l : list (Z * nat)) : Prop :=
  (forall fd f, (fd, f) ∈ l -> m !! fd = Some (mkEntry f true)) /\ NoDup l.*1.

Lemma moves_refl l l' : open_as l -> l' = l -> moves l l' m m.
Proof. intros [Ho Hd] ->. constructor; auto; naive_solver. Qed.

Lemma moves_open l fd f :
  open_as l -> m !! fd = None -> moves l ((fd, f) :: l) m (<[fd := mkEntry f true]> m).
Proof.
  intros [Ho Hd] Hn.
  assert (Hne : fd ∉ l.*1). { intros [g Hg]%fst_elem. apply Ho in Hg. congruence. }
  constructor.
  - intros g f' [[= -> ->]|Hg]%elem_of_cons; [by rewrite lookup_insert_eq|].
    rewrite lookup_insert_ne; [by apply Ho|]. intros ->. apply Hne, fst_elem. eauto.
  - intros g Hg Hg'. destruct Hg'. cbn. by right.
  - intros g Hg Hg'. rewrite lookup_insert_ne; [done|]. intros ->. apply Hg'. cbn. by left.
  - intros g. cbn. intros [->|Hg]%elem_of_cons; auto.
  - cbn. by constructor.
Qed.

Lemma moves_close l fd f : open_as ((fd, f) :: l) -> moves ((fd, f) :: l) l m (delete fd m).
Proof.
  intros [Ho Hd]. cbn in Hd. apply NoDup_cons in Hd as [Hne Hd].
  constructor; [| | | |done].
  - intros g f' Hg. rewrite lookup_delete_ne; [apply Ho; by right|]. intros ->. apply Hne, fst_elem. eauto.
  - intros g. cbn. intros [->|Hg]%elem_of_cons Hg'; [by rewrite lookup_delete_eq|done].
  - intros g. cbn. intros Hg Hg'. apply not_elem_of_cons in Hg as [? ?]. by rewrite lookup_delete_ne.
  - intros g Hg. left. cbn. by right.
Qed.
End Moves.

Lemma moves_trans l1 l2 l3 m1 m2 m3 :
  moves l1 l2 m1 m2 -> moves l2 l3 m2 m3 -> moves l1 l3 m1 m3.
Proof.
  intros [N1 G1 S1 F1 D1] [N2 G2 S2 F2 D2]. constructor; [done|..|done].
  - intros fd H1 H3. destruct (decide (fd ∈ l2.*1)) as [H2|H2]; [by apply G2|]. rewrite S2 by done. by apply G1.
  - intros fd H1 H3. destruct (decide (fd ∈ l2.*1)) as [H2|H2].
    + rewrite G2 by done. destruct (F1 fd H2); [done|congruence].
    + rewrite S2 by done. by apply S1.
  - intros fd H3. destruct (F2 fd H3) as [H2|H2]; [by apply F1|].
    destruct (decide (fd ∈ l1.*1)); [by left|right]. destruct (decide (fd ∈ l2.*1)) as [H2'|H2'].
    + apply fst_elem in H2' as [f Hf]. apply N1 in Hf. congruence.
    + by rewrite <- S1.
Qed.

Lemma moves_open_as l l' m m' : moves l l' m m' -> open_as m' l'.
Proof. intros [N G S F D]. by split. Qed.

Section Spec.
Context `{Descriptors}.

Lemma own_copy_inv fd w r w' :
  own_copy fd w = (r, w') ->
  match r with
  | Error _ => table w' = table w
  | Some_ n => exists e, table w !! fd = Some e /\ table w !! n = None /\
      table w' = <[n := mkEntry (file e) true]> (table w)
  end.
Proof.
  unfold own_copy. destruct (fd <? 0)%Z; intros Hc; inv_calls; try done; tables.
  - by rewrite delete_insert_id.
  - by rewrite delete_insert_id.
  - eauto.
Qed.

Lemma redirect_copies_inv from to w r w' :
  redirect_copies from to w = (r, w') ->
  match r with
  | Error _ => table w' = table w
  | Some_ (f, t) => exists g, table w !! t = None /\
      <[t := mkEntry (target w to) true]> (table w) !! f = None /\
      table w' = <[f := mkEntry g true]> (<[t := mkEntry (target w to) true]> (table w)) /\
      (is_Some (table w !! from) -> g = file_of w from)
  end.
Proof.
  unfold redirect_copies. case_match; [intros Hc; inv_calls; done|]. clear H0.
  intros Hc. apply bind_inv in Hc as [(e & Hc & ->)|(t & w1 & Hto & Hc)].
  { destruct to; inv_calls; cbn; congruence. }
  assert (Hw1 : table w !! t = None /\ exists b, table w1 = <[t := mkEntry (target w to) b]> (table w)).
  { clear Hc. destruct to as [to|]; inv_calls; split; try done; [|by exists true].
    exists false. unfold target, file_of. by rewrite H0. }
  destruct Hw1 as (Ht & b & Hw1). clear Hto.
  apply bind_inv in Hc as [(e & Hc & ->)|(f & w2 & Hf & Hc)].
  { inv_calls. tables. by rewrite delete_insert_id. }
  assert (Hw2 : exists e, table w1 !! from = Some e /\ table w1 !! f = None /\
    table w2 = <[f := mkEntry (file e) false]> (table w1)) by (clear Hc; inv_calls; eauto).
  clear Hf. destruct Hw2 as (e & He & Hf & Hw2).
  assert (Hft : f <> t) by (intros ->; rewrite Hw1, lookup_insert_eq in Hf; done).
  assert (Hfw : table w !! f = None) by (by rewrite Hw1, lookup_insert_ne in Hf).
  rewrite Hw1 in Hw2, He. clear Hf Hw1 w1.
  assert (Hsrc : is_Some (table w !! from) -> file e = file_of w from).
  { intros [e' He']. rewrite lookup_insert_ne in He by congruence. unfold file_of. by rewrite He. }
  inv_calls; cbn [close_all foldr os_close set_table table];
    repeat match goal with H : table _ = _ |- _ => rewrite H in *; clear H end; simplify_map_eq.
  all: try (clear He Hsrc; two_keys f t).
  exists (file e). split_and!; [done|done| |done].
  clear He Hsrc. two_keys f t.
Qed.

Lemma open_as_nil m : open_as m [].
Proof. split; [by intros ? ? ?%not_elem_of_nil|constructor]. Qed.

Lemma begin_task_moves r w x w' :
  begin_task r w = (x, w') ->
  match x with
  | Error _ => table w' = table w
  | Some_ t => moves [] (task_fds t) (table w) (table w')
  end.
Proof.
  destruct r as [fd|fd d|from to chunk]; cbn [begin_task]; intros Hb;
    apply bind_inv in Hb as [(e & Hb & ->)|(n & w1 & Hb & Hr)].
  - by apply own_copy_inv in Hb.
  - apply own_copy_inv in Hb as (e & He & Hn & Hw). unfold ret in Hr. simplify_eq. rewrite Hw. cbn [task_fds].
    unfold file_of. rewrite He. apply moves_open; [apply open_as_nil|done].
  - by apply own_copy_inv in Hb.
  - apply own_copy_inv in Hb as (e & He & Hn & Hw). unfold ret in Hr. simplify_eq. rewrite Hw. cbn.
    unfold file_of. rewrite He. apply moves_open; [apply open_as_nil|done].
  - by apply redirect_copies_inv in Hb.
  - destruct n as [f t]. apply redirect_copies_inv in Hb as (g & Ht & Hf & Hw & Hg). unfold ret in Hr. simplify_eq.
    cbn. assert (Hsrc : match table w !! from with Some e => file e | None => file_of w' f end = g).
    { unfold file_of in *. rewrite Hw, lookup_insert_eq. destruct (table w !! from) as [e|]; [|done].
      by rewrite Hg by eauto. }
    rewrite Hsrc, Hw.
    pose proof (moves_open (table w) [] t (target w to) (open_as_nil _) Ht) as Hm.
    eapply moves_trans; [exact Hm|]. apply moves_open; [by eapply moves_open_as|done].
Qed.

Lemma check_async_table {X} fd ph (k : option (outcome X)) w o w' :
  check_async fd ph k w = Some (o, w') -> table w' = table w.
Proof.
  unfold check_async. intros Hc. destruct ph; [|by apply bind_Some in Hc as (? & _ & ?); simplify_eq..].
  destruct (os_isNonblock fd w) as [x w1] eqn:Hi. apply os_isNonblock_inv in Hi as [(Ht & _) _].
  destruct x as [[|]|e]; [apply bind_Some in Hc as (? & _ & ?)|..]; simplify_eq; done.
Qed.

Lemma write_step_moves t a h w o h' w' l :
  write_step t a h w = Some (o, h', w') -> open_as (table w) (writing_fds t ++ l) ->
  match o with
  | inl (inl t') => writing_fds t' = writing_fds t /\ table w' = table w
  | inl (inr _) => moves (writing_fds t ++ l) l (table w) (table w')
  | inr _ => table w' = table w
  end.
Proof.
  unfold write_step. intros ([x w1] & Hx & Hr)%bind_Some Ho. apply check_async_table in Hx.
  destruct x as [ph|[n|m|]|m]; [|case_match|..]; simplify_eq; cbn; try done; rewrite Hx; by apply moves_close.
Qed.

Lemma moves_close_two m from to src dst :
  open_as m [(from, src); (to, dst)] -> moves [(from, src); (to, dst)] [] m (delete to (delete from m)).
Proof.
  intros Ho. pose proof (moves_close m [(to, dst)] from src Ho) as H1.
  eapply moves_trans; [exact H1|]. apply moves_close. by eapply moves_open_as.
Qed.

Lemma task_step_moves t a h w o h' w' :
  task_step t a h w = Some (o, h', w') -> open_as (table w) (task_fds t) ->
  match o with
  | Runs t' => moves (task_fds t) (task_fds t') (table w) (table w')
  | Completes _ => moves (task_fds t) [] (table w) (table w')
  | Crashes _ => table w' = table w
  end.
Proof.
  intros Hs Ho. destruct t as [fd src buffer ph|t|from to src dst chunk ph [t|]]; unfold task_step, read_step, splice_step in Hs; cbn [task_step task_fds] in *.
  - apply bind_Some in Hs as ([x w1] & Hx & Hr). apply check_async_table in Hx.
    destruct x as [ph'|[[|c s]|m|]|m]; simplify_eq; cbn; rewrite Hx; try done;
      (by apply moves_close) || by apply moves_refl.
  - apply bind_Some in Hs as ([[x h1] w1] & Hx & Hr). rewrite <- (app_nil_r (writing_fds t)) in Ho.
    pose proof (write_step_moves _ _ _ _ _ _ _ _ Hx Ho) as Hm. rewrite app_nil_r in *.
    destruct x as [[t'|[[]|m|]]|m]; simplify_eq; cbn; try done.
    destruct Hm as [Hf ->]. by apply moves_refl.
  - apply bind_Some in Hs as ([[x h1] w1] & Hx & Hr). cbn [from_option] in *.
    pose proof (write_step_moves _ _ _ _ _ _ _ _ Hx Ho) as Hm.
    destruct x as [[t'|[[]|m|]]|m]; simplify_eq; cbn [task_fds from_option]; try done.
    + destruct Hm as [Hf ->]. apply moves_refl; [done|]. by rewrite Hf.
    + eapply moves_trans; [exact Hm|]. apply moves_close_two. by eapply moves_open_as.
    + eapply moves_trans; [exact Hm|]. apply moves_close_two. by eapply moves_open_as.
  - apply bind_Some in Hs as ([x w1] & Hx & Hr). apply check_async_table in Hx. cbn [from_option app] in *.
    destruct x as [ph'|[[|c s]|m|]|m]; simplify_eq; cbn [task_fds from_option app os_close set_table table]; rewrite ?Hx; try done;
      try (by apply moves_refl); try (by apply moves_close_two).
    destruct (own_copy to w1) as [[n|e] w2] eqn:Hc; apply own_copy_inv in Hc; simplify_eq; cbn.
    + destruct Hc as (e & He & Hn & ->). rewrite Hx in *.
      destruct Ho as [Hop Hd]. assert (Hdst : file e = dst).
      { specialize (Hop to dst). rewrite He in Hop. by injection (Hop ltac:(set_solver)) as ->. }
      rewrite Hdst. by apply moves_open.
    + rewrite Hc, Hx. by apply moves_close_two.
Qed.

Lemma owned_open m u c n e :
  owned m u c -> m !! n = None -> owned (<[n := e]> m) (<[n := file e]> u) c.
Proof.
  intros Ho Hn.
  assert (Hnc : forall i, n ∉ (c i).*1).
  { intros i Hi. destruct (owned_fd _ _ _ _ _ Ho Hi) as [[? ?] _]. congruence. }
  constructor.
  - intros i fd f Hf. assert (fd <> n) by (intros ->; apply (Hnc i), fst_elem; eauto).
    rewrite !lookup_insert_ne by done. by eapply owned_task.
  - intros i j fd. by eapply owned_apart.
  - intros i. by eapply owned_nodup.
  - intros fd f. destruct (decide (fd = n)) as [->|]; [rewrite !lookup_insert_eq|rewrite !lookup_insert_ne by done].
    + intros [= <-]. eauto.
    + by eapply owned_user.
  - intros fd e'. destruct (decide (fd = n)) as [->|]; [rewrite !lookup_insert_eq|rewrite !lookup_insert_ne by done].
    + eauto.
    + by eapply owned_all.
Qed.

Lemma owned_close m u c n : owned m u c -> is_Some (u !! n) -> owned (delete n m) (delete n u) c.
Proof.
  intros Ho [g Hg].
  assert (Hnc : forall i, n ∉ (c i).*1).
  { intros i Hi. destruct (owned_fd _ _ _ _ _ Ho Hi) as [_ ?]. congruence. }
  constructor.
  - intros i fd f Hf. assert (fd <> n) by (intros ->; apply (Hnc i), fst_elem; eauto).
    rewrite !lookup_delete_ne by done. by eapply owned_task.
  - intros i j fd. by eapply owned_apart.
  - intros i. by eapply owned_nodup.
  - intros fd f [? Hu]%lookup_delete_Some. rewrite lookup_delete_ne by done. by eapply owned_user.
  - intros fd e [? He]%lookup_delete_Some. rewrite lookup_delete_ne by done. by eapply owned_all.
Qed.

(** ** What is transferred *)

(** What an operation under way has done of its request. *)
Definition writing_ok (t : writing) (before : bytes) (h : history) : Prop :=
  index t <= length (data t) /\ given h = before ++ take (index t) (data t).

Definition task_ok (r : request) (t : task) (h : history) : Prop :=
  match r, t with
  | Read _, TRead _ _ buffer _ => buffer = taken h
  | Write _ d, TWrite t => data t = d /\ writing_ok t [] h
  | Redirect _ _ _, TRedirect _ _ _ _ _ _ None => given h = taken h /\ concat (hooked h) = taken h
  | Redirect _ _ _, TRedirect _ _ _ _ _ _ (Some t) =>
      concat (hooked h) = taken h /\ exists before, taken h = before ++ data t /\ writing_ok t before h
  | _, _ => False
  end.

(** The contract of a request that has ended. *)
Definition fulfilled (r : request) (res : completion (option bytes)) (h : history) : Prop :=
  match r, res with
  | Read _, IsReady x => x = Some (taken h)
  | Read _, _ => True
  | Write _ d, IsReady x => x = None /\ given h = d
  | Write _ d, _ => given h `prefix_of` d
  | Redirect _ _ _, IsReady x => x = None /\ given h = taken h /\ concat (hooked h) = taken h
  | Redirect _ _ _, _ => given h `prefix_of` taken h /\ concat (hooked h) = taken h
  end.

Definition no_data (r : completion (option bytes)) : Prop :=
  match r with IsReady _ => False | _ => True end.

Lemma internal_write_count n ph a k : internal_write n ph a = Some (Result (IsReady k)) -> (Z.of_nat k <= n)%Z \/ k = 0.
Proof.
  unfold internal_write, internal_loop, got_count. intros Hw. crack; simplify_option_eq; bool_cases; auto; lia.
Qed.

Lemma check_async_result {X} fd ph (k : option (outcome X)) w x w' :
  check_async fd ph k w = Some (Result (IsReady x), w') -> k = Some (Result (IsReady x)).
Proof. unfold check_async. intros Hc. crack; simplify_option_eq; done. Qed.

Lemma write_step_ok t a h w o h' w' before :
  write_step t a h w = Some (o, h', w') -> writing_ok t before h ->
  taken h' = taken h /\ hooked h' = hooked h /\
  match o with
  | inl (inl t') => data t' = data t /\ writing_ok t' before h'
  | inl (inr (IsReady _)) => given h' = before ++ data t
  | _ => exists i, given h' = before ++ take i (data t)
  end.
Proof.
  unfold write_step. intros ([x w1] & Hx & Hr)%bind_Some [Hi Hg].
  destruct x as [ph|[n|m|]|m]; simplify_eq; cbn; try by eauto 10.
  assert (Hn : index t + n <= length (data t)).
  { apply check_async_result, internal_write_count in Hx. lia. }
  assert (Hgive : given h ++ take n (drop (index t) (data t)) = before ++ take (index t + n) (data t)).
  { rewrite Hg, <- app_assoc. f_equal. by rewrite <- take_take_drop. }
  destruct (index t + n =? length (data t)) eqn:He; bool_cases; simplify_eq; cbn; split_and!; try done.
  by rewrite Hgive, He, firstn_all.
Qed.

Lemma end_with_not_ready {A} (r : completion A) : no_data (end_with r).
Proof. by destruct r. Qed.

Lemma task_step_ok r t a h w o h' w' :
  task_step t a h w = Some (o, h', w') -> task_ok r t h ->
  match o with
  | Runs t' => task_ok r t' h'
  | Completes res => fulfilled r res h'
  | Crashes _ => True
  end.
Proof.
  intros Hs Hok.
  destruct r as [fd|fd d|from0 to0 chunk0], t as [fd' src buffer ph|t|from to src dst chunk ph [t|]]; try done;
    unfold task_step, read_step, splice_step in Hs; cbn [task_step task_ok] in *; apply bind_Some in Hs as (y & Hx & Hr).
  - destruct y as [x w1]. destruct x as [ph'|[[|c s]|m|]|m]; simplify_eq; cbn; try done; by rewrite ?app_nil_r.
  - destruct y as [[x h1] w1]. destruct Hok as [<- Hok].
    destruct (write_step_ok _ _ _ _ _ _ _ _ Hx Hok) as (_ & _ & Ho).
    destruct x as [[t'|[[]|m|]]|m]; simplify_eq; cbn; try done;
      destruct Ho as [i ->]; exists (drop i (data t)); cbn; by rewrite take_drop.
  - destruct y as [[x h1] w1]. destruct Hok as (Hh & before & Ht & Hok).
    destruct (write_step_ok _ _ _ _ _ _ _ _ Hx Hok) as (Htk & Hhk & Ho).
    destruct x as [[t'|[[]|m|]]|m]; simplify_eq; cbn; rewrite ?Htk, ?Hhk; try done.
    + destruct Ho as [-> Ho]. eauto.
    + split; [congruence|done].
    + destruct Ho as [i ->]. split; [|done]. rewrite Ht. apply prefix_app. exists (drop i (data t)). by rewrite take_drop.
    + destruct Ho as [i ->]. split; [|done]. rewrite Ht. apply prefix_app. exists (drop i (data t)). by rewrite take_drop.
  - destruct y as [x w1]. destruct Hok as [Hg Hh].
    destruct x as [ph'|[[|c s]|m|]|m]; simplify_eq; cbn; rewrite ?app_nil_r; try done;
      try (split; [by rewrite Hg|done]).
    destruct (own_copy to w1) as [[n|e] w2]; simplify_eq; cbn; rewrite concat_app, Hh; cbn; rewrite app_nil_r.
    + split; [done|]. exists (taken h). split; [done|]. split; cbn; [lia|]. by rewrite app_nil_r.
    + split; [|done]. rewrite Hg. by exists (c :: s).
Qed.

(** ** The invariant *)

Record inv (s : state) : Prop := mkInv {
  inv_owned : owned (table (os s)) (user s) (claims (tasks s));
  inv_task i t : tasks s !! i = Some t -> exists r h, asked s !! i = Some r /\ histories s !! i = Some h /\ task_ok r t h;
  inv_done i res : done s !! i = Some res ->
    exists r, asked s !! i = Some r /\ (forall h, histories s !! i = Some h -> fulfilled r res h) /\ tasks s !! i = None;
  inv_history i h : histories s !! i = Some h -> i < length (asked s);
}.

Lemma claims_insert ts i t j : claims (<[i := t]> ts) j = if decide (j = i) then task_fds t else claims ts j.
Proof.
  unfold claims. destruct (decide (j = i)) as [->|]; [by rewrite lookup_insert_eq|by rewrite lookup_insert_ne].
Qed.

Lemma claims_delete ts i j : claims (delete i ts) j = if decide (j = i) then [] else claims ts j.
Proof.
  unfold claims. destruct (decide (j = i)) as [->|]; [by rewrite lookup_delete_eq|by rewrite lookup_delete_ne].
Qed.

Lemma owned_open_as m u c i : owned m u c -> open_as m (c i).
Proof. intros Ho. split; [intros fd f Hf; by eapply owned_task|by eapply owned_nodup]. Qed.

(** Steps of the user. *)
Lemma user_inv w w' u u' q ts hs d cr :
  inv (mkState w u q ts hs d cr) -> owned (table w') u' (claims ts) -> inv (mkState w' u' q ts hs d cr).
Proof. intros [H1 H2 H3 H4] Ho. by constructor. Qed.

Lemma start_inv r w u q ts hs d cr s' :
  inv (mkState w u q ts hs d cr) -> exec (Start r) (mkState w u q ts hs d cr) = Some s' -> inv s'.
Proof.
  intros [H1 H2 H3 H4] Hs. destruct cr; [done|]. cbn in *.
  assert (Hnt : ts !! length q = None).
  { destruct (ts !! length q) as [t|] eqn:Ht; [|done]. destruct (H2 _ _ Ht) as (r0 & h & Hr & _).
    apply lookup_lt_Some in Hr. lia. }
  assert (Hq : forall i x, q !! i = Some x -> (q ++ [r]) !! i = Some x) by (intros; by apply lookup_app_l_Some).
  destruct (begin_task r w) as [[t|e] w1] eqn:Hb; pose proof (begin_task_moves _ _ _ _ Hb) as Hm; simplify_eq.
  - constructor; cbn.
    + eapply (owned_moves _ _ _ _ _ (length q)); [exact H1| | |].
      * unfold claims. rewrite Hnt. exact Hm.
      * intros j Hj. by rewrite claims_insert, decide_False.
      * by rewrite claims_insert, decide_True.
    + intros i t0. destruct (decide (i = length q)) as [->|Hne].
      * rewrite !lookup_insert_eq. intros [= <-]. exists r, (mkHistory [] [] []).
        split; [by rewrite lookup_app_r, Nat.sub_diag by lia|]. split; [done|].
        destruct r; cbn [begin_task] in Hb; apply bind_inv in Hb as [(? & _ & [=])|(? & ? & _ & Hr)];
          unfold ret in Hr; simplify_eq; cbn; try done. split; [done|]. split; cbn; [lia|done].
      * rewrite !lookup_insert_ne by done. intros Ht. destruct (H2 i t0 Ht) as (r0 & h & ? & ? & ?). eauto 10.
    + intros i res Hi. destruct (H3 i res Hi) as (r0 & Hr0 & Hh & Hn). pose proof (lookup_lt_Some _ _ _ Hr0).
      exists r0. rewrite !lookup_insert_ne by lia. eauto.
    + intros i h. rewrite length_app. cbn. intros [[<- _]|[_ Hh]]%lookup_insert_Some; [lia|].
      apply H4 in Hh. lia.
  - constructor; cbn.
    + by rewrite Hm.
    + intros i t Ht. destruct (H2 i t Ht) as (r0 & h & ? & ? & ?). eauto 10.
    + intros i res [[<- <-]|[Hne Hi]]%lookup_insert_Some.
      * exists r. split; [by rewrite lookup_app_r, Nat.sub_diag by lia|]. split; [|done].
        intros h Hh. apply H4 in Hh. lia.
      * destruct (H3 i res Hi) as (r0 & Hr0 & Hh & Hn). eauto.
    + intros i h Hh. rewrite length_app. cbn. apply H4 in Hh. lia.
Qed.

Lemma answer_inv i a w u q ts hs d s' :
  inv (mkState w u q ts hs d None) -> exec (Answer i a) (mkState w u q ts hs d None) = Some s' -> inv s'.
Proof.
  intros [H1 H2 H3 H4] Hs. cbn in *.
  apply bind_Some in Hs as (t & Ht & Hs). apply bind_Some in Hs as (h & Hh & Hs).
  apply bind_Some in Hs as ([[o h'] w'] & Hstep & [= <-]).
  assert (Hc : claims ts i = task_fds t) by (unfold claims; by rewrite Ht).
  pose proof (owned_open_as _ _ _ i H1) as Hop. rewrite Hc in Hop.
  pose proof (task_step_moves _ _ _ _ _ _ _ Hstep Hop) as Hm. rewrite <- Hc in Hm.
  destruct (H2 i t Ht) as (r & h0 & Hr & Hh0 & Hok). cbn in Hh0. simplify_eq.
  pose proof (task_step_ok _ _ _ _ _ _ _ _ Hstep Hok) as Hok'.
  assert (Hhist : forall j h1, <[i := h']> hs !! j = Some h1 -> j < length q).
  { intros j h1 [[<- _]|[_ Hj]]%lookup_insert_Some; [by apply lookup_lt_Some in Hr|by apply (H4 j h1)]. }
  assert (Hother : forall j t', j <> i -> ts !! j = Some t' ->
    exists r h, q !! j = Some r /\ <[i := h']> hs !! j = Some h /\ task_ok r t' h).
  { intros j t' Hj Htj. rewrite lookup_insert_ne by done. by apply H2. }
  assert (Hdone : forall j res, d !! j = Some res -> exists r0, q !! j = Some r0 /\
    (forall h1, <[i := h']> hs !! j = Some h1 -> fulfilled r0 res h1) /\ ts !! j = None /\ j <> i).
  { intros j res Hj. destruct (H3 j res Hj) as (r0 & Hr0 & Hf & Hn).
    assert (j <> i) by congruence. exists r0. rewrite lookup_insert_ne by done. auto. }
  destruct o as [t'|res|m]; constructor; cbn; try done.
  - eapply (owned_moves _ _ _ _ _ i); [exact H1|exact Hm| |by rewrite claims_insert, decide_True].
    intros j Hj. by rewrite claims_insert, decide_False.
  - intros j t1 [[<- <-]|[Hj Htj]]%lookup_insert_Some; [|by apply Hother].
    exists r, h'. by rewrite lookup_insert_eq.
  - intros j res Hj. destruct (Hdone j res Hj) as (r0 & ? & ? & ? & ?). exists r0. by rewrite !(lookup_insert_ne ts) by done.
  - eapply (owned_moves _ _ _ _ _ i); [exact H1|exact Hm| |by rewrite claims_delete, decide_True].
    intros j Hj. by rewrite claims_delete, decide_False.
  - intros j t1 [Hj Htj]%lookup_delete_Some. by apply Hother.
  - intros j res0 [[<- <-]|[Hj Hd]]%lookup_insert_Some.
    + exists r. split; [done|]. rewrite lookup_delete_eq. split; [|done]. intros h1. rewrite lookup_insert_eq. by intros [= <-].
    + destruct (Hdone j res0 Hd) as (r0 & ? & ? & ? & ?). exists r0. by rewrite lookup_delete_None; auto.
  - by rewrite Hm.
Qed.

Lemma io_exec_inv c s s' : exec c s = Some s' -> inv s -> inv s'.
Proof.
  destruct s as [w u q ts hs d cr]. intros Hc Hi. destruct cr; [done|].
  destruct c as [|fd|fd|f|l|r|i a].
  - cbn in Hc. destruct (os_open false w) as [[n|e] w1] eqn:Ho;
      apply os_open_inv in Ho; simplify_eq; eapply user_inv; try exact Hi.
    + destruct Ho as (Hn & _ & -> & _). apply (owned_open _ _ _ _ (mkEntry (files w) false)); [apply Hi|done].
    + destruct Ho as (-> & _). apply Hi.
  - cbn in Hc. apply bind_Some in Hc as (f & Hf & Hc).
    destruct (os_dup fd w) as [[n|e] w1] eqn:Ho; apply os_dup_inv in Ho; simplify_eq; eapply user_inv; try exact Hi.
    + destruct Ho as (e & He & Hn & _ & -> & _). destruct (owned_user _ _ _ (inv_owned _ Hi) fd f Hf) as (e' & He' & <-).
      cbn in He'. simplify_eq. apply (owned_open _ _ _ _ (mkEntry (file e) false)); [apply Hi|done].
    + destruct Ho as (-> & _). apply Hi.
  - cbn in Hc. apply bind_Some in Hc as (f & Hf & [= <-]).
    eapply user_inv; [exact Hi|]. apply owned_close; [apply Hi|eauto].
  - cbn in Hc. simplify_eq. eapply user_inv; [exact Hi|]. apply Hi.
  - cbn in Hc. simplify_eq. eapply user_inv; [exact Hi|]. apply Hi.
  - by eapply start_inv.
  - by eapply answer_inv.
Qed.

Lemma io_reachable_inv s : reachable s -> inv s.
Proof.
  intros Hr. eapply steps_invariant; [|exact Hr|].
  - intros x y Hx [c Hc]. by eapply io_exec_inv.
  - constructor; cbn; try done. constructor; cbn; try done.
    + by intros i fd f ?%not_elem_of_nil.
    + by intros i j fd _ ?%not_elem_of_nil.
    + intros i. constructor.
Qed.

(** The files an operation was asked to use: those of the descriptors of the request, when
    it was made. *)
Definition asked_files (r : request) (t : task) (w : world) : Prop :=
  match r, t with
  | Read fd, TRead _ src _ _ => exists e, table w !! fd = Some e /\ src = file e
  | Write fd _, TWrite t => exists e, table w !! fd = Some e /\ wfile t = file e
  | Redirect from to _, TRedirect _ _ src dst _ _ _ =>
      (forall e, table w !! from = Some e -> src = file e) /\
      match to with
      | Some to => exists e, table w !! to = Some e /\ dst = file e
      | None => dst = files w
      end
  | _, _ => False
  end.

Lemma begin_task_files r w t w' : begin_task r w = (Some_ t, w') -> asked_files r t w.
Proof.
  destruct r as [fd|fd d|from to chunk]; cbn [begin_task]; intros Hb;
    apply bind_inv in Hb as [(? & _ & [=])|(n & w1 & Hb & Hr)]; unfold ret in Hr; simplify_eq; cbn.
  - apply own_copy_inv in Hb as (e & He & _). exists e. unfold file_of. by rewrite He.
  - apply own_copy_inv in Hb as (e & He & _). exists e. unfold file_of. by rewrite He.
  - split; [intros e He; by rewrite He|]. destruct to as [to|]; [|done].
    unfold redirect_copies in Hb. case_match; [inv_calls; done|].
    apply bind_inv in Hb as [(? & _ & [=])|(t & w2 & Hto & _)].
    apply os_dup_inv in Hto as (e & He & _). exists e. unfold target, file_of. by rewrite He.
Qed.

(** C24: an operation begins with copies of the descriptors it was asked to use, which refer
    to the files that those referred to when it was called ([redirect] must be given a [from]
    that is open).  Until it ends, each of its descriptors is open, closes on [exec], still
    refers to that file, and belongs neither to the user nor to another operation, whatever
    the user opened and closed meanwhile and whichever calls failed; the descriptors of the
    user are left alone; every open descriptor belongs to the user or to one operation under
    way, so a finished operation has closed its own. *)
Theorem descriptors_have_one_owner s :
  reachable s ->
  (forall r w t w', begin_task r w = (Some_ t, w') -> asked_files r t w) /\
  (forall i t fd f, tasks s !! i = Some t -> (fd, f) ∈ task_fds t ->
     table (os s) !! fd = Some (mkEntry f true) /\ user s !! fd = None /\
     (forall j t', tasks s !! j = Some t' -> fd ∈ (task_fds t').*1 -> j = i)) /\
  (forall fd f, user s !! fd = Some f -> exists e, table (os s) !! fd = Some e /\ file e = f) /\
  (forall fd e, table (os s) !! fd = Some e ->
     is_Some (user s !! fd) \/ exists i t, tasks s !! i = Some t /\ (fd, file e) ∈ task_fds t).
Proof.
  intros Hr. destruct (inv_owned s (io_reachable_inv s Hr)) as [O1 O2 O3 O4 O5].
  assert (Hc : forall i t, tasks s !! i = Some t -> claims (tasks s) i = task_fds t).
  { intros i t Ht. unfold claims. by rewrite Ht. }
  split_and!; [by apply begin_task_files| |apply O4|].
  - intros i t fd f Ht Hf. rewrite <- (Hc i t Ht) in Hf. destruct (O1 i fd f Hf). split_and!; [done|done|].
    intros j t' Ht' Hin. rewrite <- (Hc j t' Ht') in Hin. destruct (decide (j = i)) as [|Hne]; [done|].
    destruct (O2 j i fd Hne Hin). apply fst_elem. eauto.
  - intros fd e He. destruct (O5 fd e He) as [|(i & Hi)]; [by left|right].
    apply fst_elem in Hi as [f Hf]. destruct (O1 i fd f Hf) as [Hm _]. rewrite He in Hm. simplify_eq.
    unfold claims in Hf. destruct (tasks s !! i) as [t|] eqn:Ht; [|by apply not_elem_of_nil in Hf].
    by exists i, t.
Qed.

(** What an operation reports is what its system calls transferred: a read gives all
    bytes that were read; a write that succeeded has written its data, and one that failed a
    beginning of it; a redirection that succeeded has written what it read and has called the
    hooks with it, and one that failed has written a beginning of what the hooks were given. *)
Theorem io_transfers_all s i res r h :
  reachable s -> done s !! i = Some res -> asked s !! i = Some r -> histories s !! i = Some h ->
  fulfilled r res h.
Proof.
  intros Hr Hd Ha Hh. destruct (inv_done s (io_reachable_inv s Hr) i res Hd) as (r' & Hr' & Hf & _).
  simplify_eq. by apply Hf.
Qed.

(** [redirect] does not notice that [from] is closed when the system gives its number to
    the copy of [to]: it succeeds and copies the file of [to] onto itself. *)
Theorem redirect_of_closed_descriptor w from to e :
  table w !! from = None -> table w !! to = Some e -> fresh_fd (table w) = from -> (0 <= to)%Z -> faults w = [] ->
  exists f w', redirect_copies from (Some to) w = (Some_ (f, from), w') /\
    table w' !! f = Some (mkEntry (file e) true) /\ table w' !! from = Some (mkEntry (file e) true).
Proof.
  intros Hfrom Hto Hn Hpos Hf. pose proof (fresh_fd_nonneg (table w)) as Hp. rewrite Hn in Hp.
  assert (Hneg : ((from <? 0)%Z || (to <? 0)%Z) = false) by (apply orb_false_iff; split; apply Z.ltb_ge; lia).
  unfold redirect_copies. rewrite Hneg.
  unfold bind, or_close, os_dup, os_cloexec, os_nonblock, on_fd, bind, fault, ret, add_fd.
  repeat (rewrite ?Hto, ?Hf, ?Hn, ?lookup_insert_eq; cbn [table faults set_table file async files]).
  set (m := <[from := mkEntry (file e) false]> (table w)).
  assert (Hm : m !! fresh_fd m = None) by apply fresh_fd_free.
  assert (Hne : fresh_fd m <> from) by (intros Hx; rewrite Hx in Hm; unfold m in Hm; by rewrite lookup_insert_eq in Hm).
  assert (Hmf : m !! from = Some (mkEntry (file e) false)) by apply lookup_insert_eq.
  repeat (rewrite ?lookup_insert_eq, ?Hf, ?Hmf, ?lookup_insert_ne by (done || congruence); cbn [table faults set_table file async files]).
  eexists _, _. split; [done|]. cbn. split; [|by rewrite lookup_insert_eq].
  rewrite lookup_insert_ne, lookup_insert_eq by congruence. done.
Qed.
End Spec.

(** ** An execution

    The user opens a file (descriptor 0) and starts to read it, closes the descriptor, and
    opens another file, which gets the same number; the read blocks once, is given two pieces
    and the end of the file.  Meanwhile the second file is redirected to the third. *)

#[local] Existing Instance Posix.

Fixpoint play (cs : list action) (s : state) : option state :=
  match cs with [] => Some s | c :: cs => s ← exec c s; play cs s end.

Lemma io_play_reachable cs s s' : play cs s = Some s' -> reachable s -> reachable s'.
Proof.
  revert s. induction cs as [|c cs IH]; cbn; intros s Hp Hr; [by simplify_eq|].
  apply bind_Some in Hp as (s1 & H1 & H2). apply (IH s1 H2). eapply steps_trans; [exact Hr|].
  apply steps_one. by exists c.
Qed.

Definition letters (s : string) : bytes := String.list_ascii_of_string s.

Definition reading : list action :=
  [UserOpen; Start (Read 0); Answer 0 Retryable; UserClose 0; UserOpen; UserOpen;
   Answer 0 (Polled READ); Answer 0 (Bytes (letters "ab"))].
Definition redirecting : list action :=
  reading ++
  [Start (Redirect 0 (Some 2%Z) 4096); Answer 1 (Bytes (letters "xyz")); Answer 1 (Count 1);
   Answer 0 (Bytes (letters "c")); Answer 1 Retryable; Answer 1 (Polled WRITE); Answer 1 (Count 2)].
Definition ending : list action := redirecting ++ [Answer 0 (Bytes []); Answer 1 (Bytes [])].

Definition middle : state := default initial (play redirecting initial).
Definition final : state := default initial (play ending initial).

Lemma middle_reachable : reachable middle.
Proof. apply (io_play_reachable redirecting initial); [by vm_compute|apply steps_refl]. Qed.
Lemma io_final_reachable : reachable final.
Proof. apply (io_play_reachable ending initial); [by vm_compute|apply steps_refl]. Qed.

Lemma descriptors_have_one_owner_witness :
  (tasks middle !! 0 = Some (TRead 1 0 (letters "abc") Calling) /\ user middle !! 0%Z = Some 1 /\
   table (os middle) !! 1%Z = Some (mkEntry 0 true)) /\
  (is_Some (user middle !! 3%Z) \/ exists i t, tasks middle !! i = Some t /\ (3%Z, 2) ∈ task_fds t).
Proof.
  split; [split_and!; [by vm_compute|by vm_compute|]|].
  - apply (descriptors_have_one_owner middle middle_reachable) with (i := 0) (t := TRead 1 0 (letters "abc") Calling);
      [by vm_compute|cbn; set_solver].
  - apply (descriptors_have_one_owner middle middle_reachable) with (e := mkEntry 2 true). by vm_compute.
Defined.

Lemma io_transfers_all_witness :
  done final !! 0 = Some (IsReady (Some (letters "abc"))) /\
  fulfilled (Redirect 0 (Some 2%Z) 4096) (IsReady None) (mkHistory (letters "xyz") (letters "xyz") [letters "xyz"]).
Proof.
  split; [by vm_compute|].
  apply (io_transfers_all final 1 (IsReady None) (Redirect 0 (Some 2%Z) 4096)
    (mkHistory (letters "xyz") (letters "xyz") [letters "xyz"]) io_final_reachable); by vm_compute.
Defined.

(** Descriptor 0 is open and 1 is not. *)
Definition closed_from : world := mkWorld {[0%Z := mkEntry 7 false]} ∅ 8 [].

Lemma redirect_of_closed_descriptor_witness :
  exists f w', redirect_copies 1 (Some 0%Z) closed_from = (Some_ (f, 1%Z), w') /\
    table w' !! f = Some (mkEntry 7 true) /\ table w' !! 1%Z = Some (mkEntry 7 true).
Proof. apply (redirect_of_closed_descriptor closed_from 1 0 (mkEntry 7 false)); by vm_compute. Defined.
