(* ===== verification/Subprocess.v ===== *)
(** Starting subprocesses ([subprocess.cpp], [posix/subprocess.hpp], [posix/subprocess.cpp]):
    the descriptors of the parent and of the child. *)

From S2P Require Import Prelude Descriptors.

(** ** Redirections *)

Inductive FDType := DUPLICATED | OWNED.

(** [Subprocess::PIPE], [Subprocess::PATH] and [Subprocess::FD]. *)
Inductive IO := PIPE | PATH (path : string) | FD (fd : Z) (type : FDType).

Record InputFileDescriptors := mkInput { in_read : Z; in_write : option Z }.
Record OutputFileDescriptors := mkOutput { out_read : option Z; out_write : Z }.

(** As they are constructed. *)
Definition no_input : InputFileDescriptors := mkInput (-1) None.
Definition no_output : OutputFileDescriptors := mkOutput None (-1).

(** What [internal::close] and [internal::cloexec] look at: the valid ones of the six. *)
Definition valid_fds (l : list Z) : list Z := filter (fun fd => (0 <= fd)%Z) l.
Definition all_fds (i : InputFileDescriptors) (o e : OutputFileDescriptors) : list Z :=
  valid_fds [in_read i; default (-1)%Z (in_write i); default (-1)%Z (out_read o); out_write o;
             default (-1)%Z (out_read e); out_write e].

(** [internal::close]. *)
Definition internal_close (i : InputFileDescriptors) (o e : OutputFileDescriptors) : world -> world :=
  close_all (all_fds i o e).

Section Parent.
Context `{Descriptors} (pipe_cloexec : bool).
Local Open Scope sys_scope.

(** [Subprocess::FD]: the descriptor, or a copy of it. *)
Definition FD_prepared (fd : Z) (type : FDType) : sys Z :=
  match type with
  | DUPLICATED => os_dup fd
  | OWNED => ret fd
  end.

(** [in.input()]. *)
Definition input (io : IO) : sys InputFileDescriptors :=
  match io with
  | PIPE => let* p := os_pipe pipe_cloexec in ret (mkInput p.1 (Some p.2))
  | PATH path =>
      let* fd := or_close (os_open true) [] ("Failed to open '" +:+ path +:+ "': ") in ret (mkInput fd None)
  | FD fd type => let* n := FD_prepared fd type in ret (mkInput n None)
  end.

(** [out.output()] and [err.output()]. *)
Definition output (io : IO) : sys OutputFileDescriptors :=
  match io with
  | PIPE => let* p := os_pipe pipe_cloexec in ret (mkOutput (Some p.1) p.2)
  | PATH path =>
      let* fd := or_close (os_open true) [] ("Failed to open '" +:+ path +:+ "': ") in ret (mkOutput None fd)
  | FD fd type => let* n := FD_prepared fd type in ret (mkOutput None n)
  end.

(** [internal::cloexec]: the descriptors are in a set. *)
Fixpoint cloexec_all (l : list Z) : sys unit :=
  match l with
  | [] => ret ()
  | fd :: l => let* _ := os_cloexec fd in cloexec_all l
  end.
Definition internal_cloexec (i : InputFileDescriptors) (o e : OutputFileDescriptors) : sys unit :=
  cloexec_all (remove_dups (all_fds i o e)).

(** The first part of [subprocess]. *)
Definition prepare (inp out err : IO) : sys (InputFileDescriptors * OutputFileDescriptors * OutputFileDescriptors) :=
  let* i := input inp in
  let* o := or_close (output out) (all_fds i no_output no_output) "" in
  let* e := or_close (output err) (all_fds i o no_output) "" in
  let* _ := or_close (internal_cloexec i o e) (all_fds i o e) "Failed to cloexec: " in
  ret (i, o, e).

(** What [fork], the parent hooks and the last write to the child return. *)
Record clone_env := mkCloneEnv { fork : option Z; parent_hooks : list (Try unit); synchronized : bool }.

Fixpoint first_error (l : list (Try unit)) : option string :=
  match l with
  | [] => None
  | Error m :: _ => Some m
  | Some_ _ :: l => first_error l
  end.

(** The child starts with a copy of the table, and knows the descriptors that were prepared
    and the pipe that it waits at. *)
Record child := mkChild {
  child_table : fds;
  child_in : InputFileDescriptors;
  child_out : OutputFileDescriptors;
  child_err : OutputFileDescriptors;
  child_pipes : option (Z * Z);
}.

Definition close_pipes (p : option (Z * Z)) (w : world) : world :=
  match p with Some (p0, p1) => os_close p1 (os_close p0 w) | None => w end.

(** [internal::cloneChild], after the pipe was made. *)
Definition clone_with (env : clone_env) (i : InputFileDescriptors) (o e : OutputFileDescriptors)
    (pipes : option (Z * Z)) (w : world) : Try Z * option child * world :=
  match fork env with
  | None => (Error "Failed to clone", None, close_pipes pipes (internal_close i o e w))
  | Some pid =>
      let c := Some (mkChild (table w) i o e pipes) in
      let w := close_all (valid_fds [in_read i; out_write o; out_write e]) w in
      match pipes with
      | None => (Some_ pid, c, w)
      | Some (p0, p1) =>
          let w := os_close p1 (os_close p0 w) in
          match first_error (parent_hooks env) with
          | Some m =>
              (* The child is killed. *)
              (Error ("Failed to execute Subprocess::ParentHook in parent for child: " +:+ m), c, w)
          | None =>
              if synchronized env then (Some_ pid, c, w)
              else (Error "Failed to synchronize child process", c, w)
          end
      end
  end.

(** [internal::cloneChild]. *)
Definition cloneChild (env : clone_env) (i : InputFileDescriptors) (o e : OutputFileDescriptors) (w : world)
    : checked (Try Z * option child * world) :=
  match parent_hooks env with
  | [] => Returns (clone_with env i o e None w)
  | _ =>
      match os_pipe pipe_cloexec w with
      | (Error _, _) => Abort "CHECK_SOME(pipe)"
      | (Some_ p, w) => Returns (clone_with env i o e (Some p) w)
      end
  end.

(** [Subprocess::Data]. *)
Record Subprocess := mkSubprocess { pid : Z; data_in : option Z; data_out : option Z; data_err : option Z }.

(** [subprocess]: the descriptors. *)
Definition subprocess (inp out err : IO) (env : clone_env) (w : world)
    : checked (Try Subprocess * option child * world) :=
  match prepare inp out err w with
  | (Error m, w) => Returns (Error m, None, w)
  | (Some_ (i, o, e), w) =>
      match cloneChild env i o e w with
      | Abort m => Abort m
      | Returns (Error m, c, w) => Returns (Error m, c, w)
      | Returns (Some_ p, c, w) =>
          Returns (Some_ (mkSubprocess p (in_write i) (out_read o) (out_read e)), c, w)
      end
  end.

(** [Subprocess::Data::~Data]. *)
Definition destroy (p : Subprocess) : world -> world :=
  close_all (option_list (data_in p) ++ option_list (data_out p) ++ option_list (data_err p)).
End Parent.

(** ** The child *)

(** [Subprocess::ChildHook], with whether the system calls succeed. *)
Inductive ChildHook := CHDIR (ok : bool) | SETSID (ok : bool) | DUP2 (oldFd newFd : Z) | SUPERVISOR (ok : bool).

(** [dup2]: a copy of a descriptor onto itself changes nothing, not even the flag. *)
Definition dup2 (old new : Z) (m : fds) : fds :=
  match m !! old with
  | Some e => if (old =? new)%Z then m else <[new := mkEntry (file e) false]> m
  | None => m
  end.

Definition child_failure : string := "Failed to execute Subprocess::ChildHook: ".

Definition child_hook (k : ChildHook) (m : fds) : checked fds :=
  match k with
  | CHDIR ok | SETSID ok | SUPERVISOR ok => if ok then Returns m else Abort child_failure
  | DUP2 old new => match m !! old with Some _ => Returns (dup2 old new m) | None => Abort child_failure end
  end.

Fixpoint child_hooks (ks : list ChildHook) (m : fds) : checked fds :=
  match ks with
  | [] => Returns m
  | k :: ks => match child_hook k m with Returns m => child_hooks ks m | Abort x => Abort x end
  end.

Definition stdio (fd : Z) : bool := (fd =? 0)%Z || (fd =? 1)%Z || (fd =? 2)%Z.

(** [handleWhitelistFds]: descriptors that nobody asked for are closed, those that somebody
    asked for survive [exec]. *)
Definition close_others (wl : list Z) (m : fds) : fds :=
  filter (fun kv => stdio kv.1 || bool_decide (kv.1 ∈ wl) || cloexec kv.2 = true) m.

Fixpoint unset_cloexec (wl : list Z) (m : fds) : checked fds :=
  match wl with
  | [] => Returns m
  | fd :: wl =>
      match m !! fd with
      | None => Abort "Failed to get file descriptor flags"
      | Some e => unset_cloexec wl (<[fd := mkEntry (file e) false]> m)
      end
  end.

Definition handleWhitelistFds (wl : list Z) (m : fds) : checked fds := unset_cloexec wl (close_others wl m).

(** [exec]. *)
Definition exec (m : fds) : fds := filter (fun kv => cloexec kv.2 = false) m.

Definition close_opt (x : option Z) (m : fds) : fds :=
  match x with Some fd => delete fd m | None => m end.

(** The redirection of the standard streams. *)
Definition redirect_stdio (i : InputFileDescriptors) (o e : OutputFileDescriptors) (m : fds) : fds :=
  let m := dup2 (in_read i) 0 m in
  let m := dup2 (out_write o) 1 m in
  let m := dup2 (out_write e) 2 m in
  let m := if negb (stdio (in_read i)) then delete (in_read i) m else m in
  let m := if negb (stdio (out_write o)) && negb (out_write o =? in_read i)%Z then delete (out_write o) m else m in
  if negb (stdio (out_write e)) && negb (out_write e =? in_read i)%Z && negb (out_write e =? out_write o)%Z
  then delete (out_write e) m else m.

(** [childMain]: the table with which the program starts. *)
Definition childMain (wl : list Z) (synchronized : bool) (ks : list ChildHook) (c : child) : checked fds :=
  let '(i, o, e) := (child_in c, child_out c, child_err c) in
  let m := close_opt (out_read e) (close_opt (out_read o) (close_opt (in_write i) (child_table c))) in
  let m := close_opt (snd <$> child_pipes c) m in
  let m := redirect_stdio i o e m in
  match child_pipes c, synchronized with
  | Some _, false => Abort "Failed to synchronize with parent"
  | _, _ =>
      match child_hooks ks (close_opt (fst <$> child_pipes c) m) with
      | Abort x => Abort x
      | Returns m =>
          match handleWhitelistFds wl m with
          | Abort x => Abort x
          | Returns m => Returns (exec m)
          end
      end
  end.
