(* ===== verification/SubprocessSpec.v ===== *)
(** Properties of subprocesses: what the child is given, and what is left in the parent. *)

From S2P Require Import Prelude Descriptors Subprocess.

(** ** The child *)

Lemma stdio_false fd : stdio fd = false -> fd <> 0%Z /\ fd <> 1%Z /\ fd <> 2%Z.
Proof. unfold stdio. intros Hs. bool_cases. auto. Qed.

Lemma stdio_true fd : stdio fd = true -> fd = 0%Z \/ fd = 1%Z \/ fd = 2%Z.
Proof. unfold stdio. rewrite !orb_true_iff, !Z.eqb_eq. tauto. Qed.

Lemma dup2_insert old new m e :
  m !! old = Some e -> old <> new -> dup2 old new m = <[new := mkEntry (file e) false]> m.
Proof. intros He Hne. unfold dup2. rewrite He. by apply Z.eqb_neq in Hne as ->. Qed.

Lemma delete_unless (b : bool) (k : Z) (m : fds) :
  (b = false -> m !! k = None) -> (if b then delete k m else m) = delete k m.
Proof. destruct b; [done|]. intros Hk. by rewrite delete_id by auto. Qed.

(** What the program finds at a descriptor: the standard streams are the descriptors that
    were prepared for them, and of the others only those in [keep] are left. *)
Definition program_table (fi fo fe : nat) (keep : Z -> option entry) (fd : Z) : option entry :=
  if decide (fd = 0%Z) then Some (mkEntry fi false)
  else if decide (fd = 1%Z) then Some (mkEntry fo false)
  else if decide (fd = 2%Z) then Some (mkEntry fe false)
  else keep fd.

Lemma redirect_stdio_lookup i o e m fi fo fe fd :
  m !! in_read i = Some fi -> m !! out_write o = Some fo -> m !! out_write e = Some fe ->
  stdio (in_read i) = false -> stdio (out_write o) = false -> stdio (out_write e) = false ->
  redirect_stdio i o e m !! fd =
    program_table (file fi) (file fo) (file fe)
      (fun fd => if decide (fd ∈ [in_read i; out_write o; out_write e]) then None else m !! fd) fd.
Proof.
  intros Hi Ho He Si So Se. unfold redirect_stdio.
  pose proof (stdio_false _ Si) as (? & ? & ?). pose proof (stdio_false _ So) as (? & ? & ?).
  pose proof (stdio_false _ Se) as (? & ? & ?).
  rewrite Si, So, Se. cbn [negb andb].
  rewrite (dup2_insert _ 0%Z m fi Hi) by done.
  rewrite (dup2_insert _ 1%Z _ fo) by (rewrite ?lookup_insert_ne by done; done).
  rewrite (dup2_insert _ 2%Z _ fe) by (rewrite ?lookup_insert_ne by done; done).
  set (m' := <[2%Z := _]> _).
  assert (Hm' : forall fd, m' !! fd = program_table (file fi) (file fo) (file fe) (fun fd => m !! fd) fd).
  { intros k. unfold m', program_table. repeat case_decide; subst; by simplify_map_eq. }
  rewrite (delete_unless (negb (out_write o =? in_read i)%Z)).
  2: { intros Hn. bool_cases. rewrite Hn. apply lookup_delete_eq. }
  rewrite (delete_unless (negb (out_write e =? in_read i)%Z && negb (out_write e =? out_write o)%Z)).
  2: { intros Hn. apply andb_false_iff in Hn as [Hn|Hn]; bool_cases; rewrite Hn.
       - destruct (decide (in_read i = out_write o)) as [->|Hne]; [apply lookup_delete_eq|].
         rewrite lookup_delete_ne by done. apply lookup_delete_eq.
       - apply lookup_delete_eq. }
  destruct (decide (fd ∈ [in_read i; out_write o; out_write e])) as [Hin|Hin].
  - assert (Hnone : delete (out_write e) (delete (out_write o) (delete (in_read i) m')) !! fd = None).
    { rewrite !lookup_delete_None. set_solver. }
    rewrite Hnone. unfold program_table. repeat case_decide; subst; try done; set_solver.
  - rewrite !lookup_delete_ne by set_solver. rewrite Hm'. unfold program_table. by repeat case_decide.
Qed.

Lemma option_list_elem {A} (x : A) (y : option A) : x ∈ option_list y <-> y = Some x.
Proof. destruct y; cbn; [rewrite list_elem_of_singleton|rewrite elem_of_nil]; naive_solver. Qed.

Definition clear_flag (e : entry) : entry := mkEntry (file e) false.

Lemma unset_cloexec_spec wl m :
  (forall fd, fd ∈ wl -> is_Some (m !! fd)) ->
  exists t, unset_cloexec wl m = Returns t /\
    forall fd, t !! fd = if decide (fd ∈ wl) then clear_flag <$> m !! fd else m !! fd.
Proof.
  revert m. induction wl as [|k wl IH]; intros m Hm; cbn.
  { exists m. split; [done|]. intros fd. rewrite decide_False; [done|]. apply not_elem_of_nil. }
  destruct (Hm k) as [e He]; [by left|]. rewrite He.
  destruct (IH (<[k := clear_flag e]> m)) as (t & Ht & Hl).
  { intros fd Hfd. destruct (decide (fd = k)) as [->|]; [rewrite lookup_insert_eq; eauto|].
    rewrite lookup_insert_ne by done. apply Hm. by right. }
  exists t. split; [done|]. intros fd. rewrite Hl.
  destruct (decide (fd = k)) as [->|Hne]; [rewrite lookup_insert_eq|rewrite lookup_insert_ne by done].
  - rewrite (decide_True (P := k ∈ k :: wl)) by by left. rewrite He. by case_decide.
  - repeat case_decide; set_solver.
Qed.

(** Hooks that succeed and leave the descriptors alone. *)
Definition harmless (k : ChildHook) : Prop :=
  match k with CHDIR ok | SETSID ok | SUPERVISOR ok => ok = true | DUP2 _ _ => False end.

Lemma child_hooks_harmless ks m : Forall harmless ks -> child_hooks ks m = Returns m.
Proof. induction 1 as [|k ks Hk Hks IH]; [done|]. by destruct k; cbn in *; subst. Qed.

Lemma close_others_lookup wl m fd :
  close_others wl m !! fd =
    e ← m !! fd; if stdio fd || bool_decide (fd ∈ wl) || cloexec e then Some e else None.
Proof.
  unfold close_others. rewrite map_lookup_filter. destruct (m !! fd) as [e|]; cbn; [|done].
  destruct (stdio fd || bool_decide (fd ∈ wl) || cloexec e); by simplify_option_eq.
Qed.

Lemma exec_lookup m fd : exec m !! fd = e ← m !! fd; if cloexec e then None else Some e.
Proof.
  unfold exec. rewrite map_lookup_filter. destruct (m !! fd) as [e|]; cbn; [|done].
  destruct (cloexec e) eqn:He; by simplify_option_eq.
Qed.

Lemma close_opt_lookup x m fd : close_opt x m !! fd = if decide (x = Some fd) then None else m !! fd.
Proof.
  destruct x as [k|]; cbn; [|by rewrite decide_False].
  case_decide; simplify_eq; [apply lookup_delete_eq|]. apply lookup_delete_ne. congruence.
Qed.

Section Child.
Context (c : child) (wl : list Z).
Local Notation i := (child_in c).
Local Notation o := (child_out c).
Local Notation e := (child_err c).

(** What the child closes besides the descriptors that it copies. *)
Definition not_for_child : list Z :=
  option_list (in_write i) ++ option_list (out_read o) ++ option_list (out_read e) ++
  option_list (snd <$> child_pipes c) ++ option_list (fst <$> child_pipes c).

Lemma child_runs ks fi fo fe :
  child_table c !! in_read i = Some fi -> child_table c !! out_write o = Some fo ->
  child_table c !! out_write e = Some fe ->
  stdio (in_read i) = false -> stdio (out_write o) = false -> stdio (out_write e) = false ->
  (forall fd, fd ∈ not_for_child -> fd ∉ [in_read i; out_write o; out_write e] /\ stdio fd = false) ->
  (forall fd, fd ∈ wl -> is_Some (child_table c !! fd) /\ fd ∉ not_for_child /\
     fd ∉ [in_read i; out_write o; out_write e]) ->
  Forall harmless ks ->
  exists t, childMain wl true ks c = Returns t /\
    forall fd, t !! fd = program_table (file fi) (file fo) (file fe)
      (fun fd => if decide (fd ∈ wl) then clear_flag <$> child_table c !! fd else None) fd.
Proof.
  intros Hi Ho He Si So Se Hend Hwl Hks. unfold childMain. cbn [fst snd].
  set (m1 := close_opt (snd <$> child_pipes c) _).
  assert (Hm1 : forall fd, fd ∉ not_for_child -> m1 !! fd = child_table c !! fd).
  { intros fd Hfd. unfold m1. rewrite !close_opt_lookup. unfold not_for_child in Hfd.
    rewrite !not_elem_of_app, !option_list_elem in Hfd. destruct Hfd as (? & ? & ? & ? & ?).
    by rewrite !decide_False. }
  assert (Hin : forall fd, fd ∈ [in_read i; out_write o; out_write e] -> m1 !! fd = child_table c !! fd).
  { intros fd Hfd. apply Hm1. intros Hx. by destruct (Hend fd Hx). }
  set (m2 := redirect_stdio i o e m1).
  assert (Hm2 : forall fd, m2 !! fd = program_table (file fi) (file fo) (file fe)
      (fun fd => if decide (fd ∈ [in_read i; out_write o; out_write e]) then None else m1 !! fd) fd).
  { intros fd. apply redirect_stdio_lookup; rewrite ?Hin by set_solver; done. }
  set (m3 := close_opt (fst <$> child_pipes c) m2).
  assert (Hm3 : forall fd, fd ∉ option_list (fst <$> child_pipes c) -> m3 !! fd = m2 !! fd).
  { intros fd Hfd. unfold m3. rewrite close_opt_lookup, decide_False; [done|]. by rewrite option_list_elem in Hfd. }
  assert (Hstd : forall fd, stdio fd = true -> m3 !! fd = m2 !! fd).
  { intros fd Hfd. apply Hm3. intros Hx. destruct (Hend fd) as [_ Hs]; [|congruence].
    unfold not_for_child. rewrite !elem_of_app. auto. }
  assert (Hkeep : forall fd, fd ∈ wl -> close_others wl m3 !! fd = m3 !! fd /\ m3 !! fd = m2 !! fd /\ is_Some (m2 !! fd)
    /\ (stdio fd = false -> m2 !! fd = child_table c !! fd)).
  { intros fd Hfd. destruct (Hwl fd Hfd) as (Hs & Hn & Hl).
    assert (Hm : m3 !! fd = m2 !! fd). { apply Hm3. unfold not_for_child in Hn. set_solver. }
    split; [|split; [done|split]].
    - rewrite close_others_lookup, bool_decide_true by done. rewrite orb_true_r. cbn. by destruct (m3 !! fd).
    - rewrite Hm2. unfold program_table. repeat case_decide; eauto; [done|]. by rewrite Hm1.
    - intros Hsf. apply stdio_false in Hsf as (? & ? & ?). rewrite Hm2. unfold program_table.
      rewrite !decide_False by done. by apply Hm1. }
  rewrite (child_hooks_harmless ks m3 Hks).
  destruct (unset_cloexec_spec wl (close_others wl m3)) as (t & Ht & Hl).
  { intros fd Hfd. destruct (Hkeep fd Hfd) as (-> & -> & ? & _). done. }
  unfold handleWhitelistFds. rewrite Ht. exists (exec t). split; [by destruct (child_pipes c)|].
  intros fd. rewrite exec_lookup, Hl. destruct (stdio fd) eqn:Hsf.
  - assert (Hc : close_others wl m3 !! fd = m2 !! fd).
    { rewrite close_others_lookup, Hsf, Hstd by done. cbn. by destruct (m2 !! fd). }
    rewrite Hc, Hm2. apply stdio_true in Hsf. destruct Hsf as [->|[->| ->]]; by case_decide.
  - pose proof (stdio_false _ Hsf) as (? & ? & ?). unfold program_table.
    destruct (decide (fd = 0%Z)), (decide (fd = 1%Z)), (decide (fd = 2%Z)); try done.
    case_decide as Hw.
    + destruct (Hkeep fd Hw) as (-> & -> & _ & Hx). rewrite (Hx Hsf). by destruct (child_table c !! fd).
    + rewrite close_others_lookup, Hsf, bool_decide_false by done. cbn.
      destruct (m3 !! fd) as [[f []]|]; done.
Qed.
End Child.

(** ** The parent *)

(** The descriptors [l] are new, and nothing else has changed. *)
Record grows (l : list Z) (m m' : fds) : Prop := mkGrows {
  grows_free fd : fd ∈ l -> m !! fd = None /\ (0 <= fd)%Z;
  grows_open fd : fd ∈ l -> is_Some (m' !! fd);
  grows_same fd : fd ∉ l -> m' !! fd = m !! fd;
  grows_nodup : NoDup l;
}.

Lemma grows_nil m : grows [] m m.
Proof. constructor; try done; [by intros ? ?%not_elem_of_nil..|constructor]. Qed.

Lemma grows_app l1 l2 m1 m2 m3 : grows l1 m1 m2 -> grows l2 m2 m3 -> grows (l1 ++ l2) m1 m3.
Proof.
  intros [F1 O1 S1 N1] [F2 O2 S2 N2].
  assert (Hdisj : forall fd, fd ∈ l1 -> fd ∉ l2).
  { intros fd H1 H2. destruct (O1 fd H1) as [e He]. destruct (F2 fd H2). congruence. }
  constructor.
  - intros fd. rewrite elem_of_app. intros [H1|H2]; [by apply F1|].
    destruct (F2 fd H2) as [Hn ?]. split; [|done].
    rewrite <- S1; [done|]. intros H1. by apply (Hdisj fd).
  - intros fd. rewrite elem_of_app. intros [H1|H2]; [|by apply O2]. rewrite S2 by auto. by apply O1.
  - intros fd. rewrite not_elem_of_app. intros [H1 H2]. rewrite S2, S1 by done. done.
  - rewrite NoDup_app. auto.
Qed.

Lemma close_all_lookup l w fd :
  table (close_all l w) !! fd = if decide (fd ∈ l) then None else table w !! fd.
Proof.
  induction l as [|k l IH]; [cbn; by rewrite decide_False by apply not_elem_of_nil|].
  change (table (close_all (k :: l) w)) with (delete k (table (close_all l w))).
  destruct (decide (fd = k)) as [->|Hne].
  - rewrite lookup_delete_eq, decide_True; [done|by left].
  - rewrite lookup_delete_ne, IH by congruence. repeat case_decide; try done; set_solver.
Qed.

Lemma grows_close l l' m w : grows l m (table w) -> (forall fd, fd ∈ l' <-> fd ∈ l) -> table (close_all l' w) = m.
Proof.
  intros [F O S N] Hl. apply map_eq. intros fd. rewrite close_all_lookup. case_decide as Hd.
  - symmetry. apply F. by apply Hl.
  - apply S. by rewrite <- Hl.
Qed.

(** Some of the new descriptors are closed. *)
Lemma grows_close_some l l1 l2 m w :
  grows l m (table w) -> l ≡ₚ l1 ++ l2 -> (forall fd, fd ∈ l1 -> fd ∈ l) ->
  grows l2 m (table (close_all l1 w)).
Proof.
  intros [F O S N] Hp _. rewrite Hp in N. apply NoDup_app in N as (N1 & Hd & N2).
  assert (Hl : forall fd, fd ∈ l <-> fd ∈ l1 \/ fd ∈ l2) by (intros fd; by rewrite Hp, elem_of_app).
  constructor; [| | |done].
  - intros fd Hfd. apply F, Hl. auto.
  - intros fd Hfd. rewrite close_all_lookup, decide_False; [apply O, Hl; auto|]. intros H1. by apply (Hd fd).
  - intros fd Hfd. rewrite close_all_lookup. case_decide as H1.
    + symmetry. apply F, Hl. auto.
    + apply S. rewrite Hl. tauto.
Qed.

(** The file of a descriptor. *)
Definition file_at (m : fds) (fd : Z) : option nat := file <$> m !! fd.

Definition in_fds (i : InputFileDescriptors) : list Z := in_read i :: option_list (in_write i).
Definition out_fds (o : OutputFileDescriptors) : list Z := out_write o :: option_list (out_read o).

(** The caller keeps its own descriptors. *)
Definition not_owned (io : IO) : Prop := match io with FD _ OWNED => False | _ => True end.

(** What was prepared for a stream: its end of the child refers to the file asked for, or to
    one end of a pipe of which the parent has the other. *)
Definition stream_ok (io : IO) (w : world) (m : fds) (reads : bool) (child_end : Z) (parent_end : option Z) : Prop :=
  match io with
  | PIPE => exists f x, parent_end = Some x /\
      (if reads then file_at m child_end = Some f /\ file_at m x = Some (S f)
       else file_at m child_end = Some (S f) /\ file_at m x = Some f)
  | PATH _ => parent_end = None /\ is_Some (file_at m child_end)
  | FD fd _ => parent_end = None /\ file_at m child_end = file_at (table w) fd /\ is_Some (table w !! fd)
  end.

Lemma stream_ok_mono io w m m' r fd x :
  (forall k, k ∈ fd :: option_list x -> file_at m' k = file_at m k) ->
  stream_ok io w m r fd x -> stream_ok io w m' r fd x.
Proof.
  intros Hk. destruct io; cbn.
  - intros (f & y & -> & Hf). exists f, y. split; [done|]. rewrite !Hk by (cbn; set_solver). done.
  - intros [-> Hs]. rewrite Hk by (cbn; set_solver). done.
  - intros [-> Hs]. rewrite Hk by (cbn; set_solver). done.
Qed.

Section Parent.
Context `{Descriptors} (pipe_cloexec : bool).

Lemma grows_one m fd e : m !! fd = None -> (0 <= fd)%Z -> grows [fd] m (<[fd := e]> m).
Proof.
  intros Hn Hp. constructor.
  - intros k ->%list_elem_of_singleton. done.
  - intros k ->%list_elem_of_singleton. rewrite lookup_insert_eq. eauto.
  - intros k Hk%not_elem_of_cons. rewrite lookup_insert_ne by naive_solver. done.
  - apply NoDup_singleton.
Qed.

Lemma grows_perm l l' m m' : l ≡ₚ l' -> grows l m m' -> grows l' m m'.
Proof. intros Hl [F O S N]. constructor; intros; rewrite <- ?Hl in *; auto. Qed.

(** One stream. *)
Lemma input_inv io w r w' :
  input pipe_cloexec io w = (r, w') -> not_owned io ->
  match r with
  | Error _ => table w' = table w
  | Some_ i => grows (in_fds i) (table w) (table w') /\
      stream_ok io w (table w') true (in_read i) (in_write i)
  end.
Proof.
  destruct io as [|path|fd []]; cbn [input not_owned]; intros Hi Hno; [..|done];
    apply bind_inv in Hi as [(m & Hi & ->)|(p & w1 & Hi & [= <- <-])].
  - by apply os_pipe_inv in Hi as (? & _).
  - apply os_pipe_inv in Hi. destruct p as [a b]. destruct Hi as (Ha & Hpa & Hb & Hpb & Hne & -> & _). cbn. split.
    + apply (grows_app [a] [b] _ (<[a := mkEntry (files w) pipe_cloexec]> (table w))); apply grows_one; try done.
      by rewrite lookup_insert_ne.
    + exists (files w), b. split; [done|]. unfold file_at. rewrite lookup_insert_ne, !lookup_insert_eq by done. done.
  - apply or_close_inv in Hi as [(m' & w1 & Hi & _ & ->)|(? & Hi & ?)]; [|done]. by apply os_open_inv in Hi as (? & _).
  - apply or_close_inv in Hi as [(? & ? & _ & ? & _)|(fd & Hi & [= ->])]; [done|].
    apply os_open_inv in Hi as (Hn & Hp & -> & _). split; [by apply grows_one|].
    cbn. unfold file_at. rewrite lookup_insert_eq. eauto.
  - by apply os_dup_inv in Hi as (? & _).
  - apply os_dup_inv in Hi as (e & He & Hn & Hp & -> & _). split; [by apply grows_one|].
    cbn. unfold file_at. rewrite lookup_insert_eq, He. eauto.
Qed.

Lemma output_inv io w r w' :
  output pipe_cloexec io w = (r, w') -> not_owned io ->
  match r with
  | Error _ => table w' = table w
  | Some_ o => grows (out_fds o) (table w) (table w') /\
      stream_ok io w (table w') false (out_write o) (out_read o)
  end.
Proof.
  destruct io as [|path|fd []]; cbn [output not_owned]; intros Hi Hno; [..|done];
    apply bind_inv in Hi as [(m & Hi & ->)|(p & w1 & Hi & [= <- <-])].
  - by apply os_pipe_inv in Hi as (? & _).
  - apply os_pipe_inv in Hi. destruct p as [a b]. destruct Hi as (Ha & Hpa & Hb & Hpb & Hne & -> & _). cbn. split.
    + apply (grows_perm ([a] ++ [b])); [by apply Permutation_swap|].
      apply (grows_app [a] [b] _ (<[a := mkEntry (files w) pipe_cloexec]> (table w))); apply grows_one; try done.
      by rewrite lookup_insert_ne.
    + exists (files w), a. split; [done|]. unfold file_at. rewrite lookup_insert_eq, lookup_insert_ne, lookup_insert_eq by done. done.
  - apply or_close_inv in Hi as [(m' & w1 & Hi & _ & ->)|(? & Hi & ?)]; [|done]. by apply os_open_inv in Hi as (? & _).
  - apply or_close_inv in Hi as [(? & ? & _ & ? & _)|(fd & Hi & [= ->])]; [done|].
    apply os_open_inv in Hi as (Hn & Hp & -> & _). split; [by apply grows_one|].
    cbn. unfold file_at. rewrite lookup_insert_eq. eauto.
  - by apply os_dup_inv in Hi as (? & _).
  - apply os_dup_inv in Hi as (e & He & Hn & Hp & -> & _). split; [by apply grows_one|].
    cbn. unfold file_at. rewrite lookup_insert_eq, He. eauto.
Qed.

Lemma cloexec_all_inv l w r w' :
  cloexec_all l w = (r, w') ->
  (forall fd, file_at (table w') fd = file_at (table w) fd) /\
  (forall fd, fd ∉ l -> table w' !! fd = table w !! fd) /\
  match r with
  | Error _ => True
  | Some_ _ => NoDup l -> forall fd, fd ∈ l -> exists f, table w' !! fd = Some (mkEntry f true)
  end.
Proof.
  revert w. induction l as [|k l IH]; intros w; cbn [cloexec_all].
  { intros [= <- <-]. split_and!; [done|done|]. intros _ fd Hfd%not_elem_of_nil. done. }
  intros [(m & Hc & ->)|([] & w1 & Hc & Hl)]%bind_inv; apply os_cloexec_inv in Hc.
  { destruct Hc as (-> & _). done. }
  destruct Hc as (e & He & Ht & _). destruct (IH w1 Hl) as (Hf & Hs & Hr).
  split_and!.
  - intros fd. rewrite Hf, Ht. unfold file_at. destruct (decide (fd = k)) as [->|];
      [by rewrite lookup_insert_eq, He|by rewrite lookup_insert_ne].
  - intros fd. rewrite not_elem_of_cons. intros [Hne Hn]. rewrite Hs, Ht, lookup_insert_ne by done. done.
  - destruct r as [[]|]; [|done]. intros [Hnk Hd]%NoDup_cons fd. rewrite elem_of_cons. intros [->|Hfd]; [|by apply Hr].
    rewrite Hs, Ht, lookup_insert_eq by done. eauto.
Qed.

Lemma all_fds_elem i o e fd :
  fd ∈ all_fds i o e <-> (0 <= fd)%Z /\ fd ∈ in_fds i ++ out_fds o ++ out_fds e.
Proof.
  unfold all_fds, valid_fds, in_fds, out_fds. rewrite list_elem_of_filter.
  destruct i as [a [b|]], o as [[c|] d], e as [[f|] g]; cbn; set_solver by lia.
Qed.

(** Closing all that was prepared brings back the table. *)
Lemma close_prepared i o e l m w :
  grows l m (table w) -> (forall fd, (0 <= fd)%Z -> fd ∈ in_fds i ++ out_fds o ++ out_fds e <-> fd ∈ l) ->
  table (internal_close i o e w) = m.
Proof.
  intros Hg Hl. eapply grows_close; [exact Hg|]. intros fd. rewrite all_fds_elem. split.
  - intros [Hp Hin]. by apply Hl.
  - intros Hin. destruct (grows_free _ _ _ Hg fd Hin) as [_ Hp]. split; [done|]. by apply Hl.
Qed.

(** The descriptors that are copied are open. *)
Definition io_open (w : world) (io : IO) : Prop := match io with FD fd _ => is_Some (table w !! fd) | _ => True end.

Lemma stream_ok_grows io w w1 l m r fd x :
  grows l (table w) (table w1) -> io_open w io -> stream_ok io w1 m r fd x -> stream_ok io w m r fd x.
Proof.
  intros [F O S N] Hop. destruct io as [|path|k ty]; cbn in *; [done..|]. intros (-> & Hf & Hs).
  assert (Hk : table w1 !! k = table w !! k).
  { apply S. intros Hk. destruct (F k Hk) as [Hn _]. rewrite Hn in Hop. by destruct Hop. }
  unfold file_at in *. rewrite Hk in Hf. done.
Qed.

Definition prepared (i : InputFileDescriptors) (o e : OutputFileDescriptors) : list Z :=
  in_fds i ++ out_fds o ++ out_fds e.

Lemma prepare_inv inp out err w r w' :
  prepare pipe_cloexec inp out err w = (r, w') ->
  not_owned inp -> not_owned out -> not_owned err -> io_open w inp -> io_open w out -> io_open w err ->
  match r with
  | Error _ => table w' = table w
  | Some_ (i, o, e) =>
      grows (prepared i o e) (table w) (table w') /\
      (forall fd, fd ∈ prepared i o e -> exists f, table w' !! fd = Some (mkEntry f true)) /\
      stream_ok inp w (table w') true (in_read i) (in_write i) /\
      stream_ok out w (table w') false (out_write o) (out_read o) /\
      stream_ok err w (table w') false (out_write e) (out_read e)
  end.
Proof.
  intros Hp Ni No Ne Oi Oo Oe. unfold prepare in Hp.
  apply bind_inv in Hp as [(m & Hi & ->)|(i & w1 & Hi & Hp)]; [by apply input_inv in Hi|].
  apply input_inv in Hi as [G1 S1]; [|done].
  apply bind_inv in Hp as [(m & Ho & ->)|(o & w2 & Ho & Hp)].
  { apply or_close_inv in Ho as [(m' & w2 & Ho & _ & ->)|(? & _ & ?)]; [|done]. apply output_inv in Ho; [|done].
    eapply (close_prepared i no_output no_output); [by rewrite Ho|]. intros fd Hfd. cbn. set_solver by lia. }
  apply or_close_inv in Ho as [(? & ? & _ & ? & _)|(o' & Ho & [= <-])]; [done|].
  apply output_inv in Ho as [G2 S2]; [|done]. pose proof (grows_app _ _ _ _ _ G1 G2) as G12.
  apply bind_inv in Hp as [(m & He & ->)|(e & w3 & He & Hp)].
  { apply or_close_inv in He as [(m' & w3 & He & _ & ->)|(? & _ & ?)]; [|done]. apply output_inv in He; [|done].
    eapply (close_prepared i o no_output); [by rewrite He|]. intros fd Hfd. cbn. set_solver by lia. }
  apply or_close_inv in He as [(? & ? & _ & ? & _)|(e' & He & [= <-])]; [done|].
  apply output_inv in He as [G3 S3]; [|done]. pose proof (grows_app _ _ _ _ _ G12 G3) as G. rewrite <- app_assoc in G.
  fold (prepared i o e) in G.
  assert (Hall : forall fd, fd ∈ remove_dups (all_fds i o e) <-> fd ∈ prepared i o e).
  { intros fd. rewrite elem_of_remove_dups, all_fds_elem. split; [by intros [_ ?]|]. intros Hin.
    destruct (grows_free _ _ _ G fd Hin). done. }
  apply bind_inv in Hp as [(m & Hc & ->)|([] & w4 & Hc & [= <- <-])];
    apply or_close_inv in Hc as [(m' & w5 & Hc & Hr & Hw)|([] & Hc & Hr)]; simplify_eq;
    apply cloexec_all_inv in Hc as (Hf & Hs & Hok).
  - assert (G' : grows (prepared i o e) (table w) (table w5)).
    { destruct G as [F O S N]. constructor; [done| | |done].
      - intros fd Hfd. specialize (Hf fd). unfold file_at in Hf. destruct (O fd Hfd) as [x Hx]. rewrite Hx in Hf.
        destruct (table w5 !! fd); [eauto|done].
      - intros fd Hfd. rewrite Hs by (by rewrite Hall). by apply S. }
    eapply close_prepared; [exact G'|done].
  - assert (Htrue : forall fd, fd ∈ prepared i o e -> exists f, table w4 !! fd = Some (mkEntry f true)).
    { intros fd Hfd. apply Hok; [apply NoDup_remove_dups|by apply Hall]. }
    split_and!; [|done|..].
    + destruct G as [F O S N]. constructor; [done| | |done].
      * intros fd Hfd. destruct (Htrue fd Hfd) as [f ->]. eauto.
      * intros fd Hfd. rewrite Hs by (by rewrite Hall). by apply S.
    + eapply stream_ok_mono; [|exact S1]. intros k Hk. rewrite Hf. unfold file_at.
      destruct (grows_open _ _ _ G1 k Hk) as [x Hx].
      rewrite (grows_same _ _ _ G3), (grows_same _ _ _ G2); [done|..].
      * intros Hin. destruct (grows_free _ _ _ G2 k Hin). congruence.
      * intros Hin. destruct (grows_free _ _ _ G3 k Hin) as [Hn _].
        rewrite (grows_same _ _ _ G2) in Hn; [congruence|]. intros Hin2. destruct (grows_free _ _ _ G2 k Hin2). congruence.
    + eapply stream_ok_mono; [|eapply stream_ok_grows; [exact G1|done|exact S2]].
      intros k Hk. rewrite Hf. unfold file_at. destruct (grows_open _ _ _ G2 k Hk) as [x Hx].
      rewrite (grows_same _ _ _ G3); [done|]. intros Hin. destruct (grows_free _ _ _ G3 k Hin). congruence.
    + eapply stream_ok_mono; [|eapply stream_ok_grows; [exact G12|done|exact S3]]. intros k _. apply Hf.
Qed.

(** The ends of the pipes that stay with the parent. *)
Definition parent_ends (i : InputFileDescriptors) (o e : OutputFileDescriptors) : list Z :=
  option_list (in_write i) ++ option_list (out_read o) ++ option_list (out_read e).

Lemma prepared_perm i o e : prepared i o e ≡ₚ [in_read i; out_write o; out_write e] ++ parent_ends i o e.
Proof.
  unfold prepared, parent_ends, in_fds, out_fds.
  destruct i as [a [b|]], o as [[c|] d], e as [[f|] g]; cbn; solve_Permutation.
Qed.

Definition pipe_list (p : option (Z * Z)) : list Z := match p with Some (p0, p1) => [p1; p0] | None => [] end.

Lemma close_pipes_all p w : close_pipes p w = close_all (pipe_list p) w.
Proof. by destruct p as [[p0 p1]|]. Qed.

Lemma close_all_app l1 l2 w : close_all l1 (close_all l2 w) = close_all (l1 ++ l2) w.
Proof. unfold close_all. by rewrite foldr_app. Qed.

Lemma clone_with_inv env i o e pipes m w0 w r c w' :
  clone_with env i o e pipes w = (r, c, w') ->
  grows (prepared i o e) m (table w0) -> grows (pipe_list pipes) (table w0) (table w) ->
  match r with
  | Some_ _ => c = Some (mkChild (table w) i o e pipes) /\ grows (parent_ends i o e) m (table w') /\
      (forall fd, fd ∈ parent_ends i o e -> table w' !! fd = table w0 !! fd)
  | Error _ =>
      (c = None /\ table w' = m) \/
      (c = Some (mkChild (table w) i o e pipes) /\ grows (parent_ends i o e) m (table w') /\
       (forall fd, fd ∈ parent_ends i o e -> table w' !! fd = table w0 !! fd))
  end.
Proof.
  intros Hc G1 G2. pose proof (grows_app _ _ _ _ _ G1 G2) as G.
  assert (Hv : valid_fds [in_read i; out_write o; out_write e] = [in_read i; out_write o; out_write e]).
  { unfold valid_fds. apply filter_all. rewrite Forall_forall. intros fd Hfd.
    apply (grows_free _ _ _ G1 fd). rewrite prepared_perm. apply elem_of_app. by left. }
  assert (Hends : forall w1, w1 = close_all (pipe_list pipes)
      (close_all (valid_fds [in_read i; out_write o; out_write e]) w) ->
    grows (parent_ends i o e) m (table w1) /\ (forall fd, fd ∈ parent_ends i o e -> table w1 !! fd = table w0 !! fd)).
  { intros w1 ->. rewrite Hv, close_all_app.
    assert (Hperm : prepared i o e ++ pipe_list pipes ≡ₚ
      (pipe_list pipes ++ [in_read i; out_write o; out_write e]) ++ parent_ends i o e)
      by (rewrite prepared_perm; solve_Permutation).
    split.
    - eapply grows_close_some; [exact G|exact Hperm|].
      intros fd. rewrite !elem_of_app, prepared_perm, elem_of_app. tauto.
    - intros fd Hfd. pose proof (grows_nodup _ _ _ G) as N. rewrite Hperm in N. apply NoDup_app in N as (_ & Hd & _).
      rewrite close_all_lookup, decide_False; [|intros Hin; by apply (Hd fd)].
      apply (grows_same _ _ _ G2). intros Hin. apply (Hd fd); [|done]. apply elem_of_app. by left. }
  unfold clone_with in Hc. destruct (fork env) as [pid|]; simplify_eq.
  - destruct pipes as [[p0 p1]|]; [|simplify_eq; split; [done|]; by apply Hends].
    repeat case_match; simplify_eq; (right; split; [done|]; by apply Hends) || (split; [done|]; by apply Hends).
  - left. split; [done|]. rewrite close_pipes_all. unfold internal_close. rewrite close_all_app.
    eapply grows_close; [exact G|]. intros fd. rewrite !elem_of_app, all_fds_elem. split.
    + intros [?|[_ ?]]; auto.
    + intros [Hin|?]; [right|by left]. split; [|done]. by apply (grows_free _ _ _ G1 fd).
Qed.

Lemma subprocess_inv inp out err env w r c w' :
  subprocess pipe_cloexec inp out err env w = Returns (r, c, w') ->
  not_owned inp -> not_owned out -> not_owned err -> io_open w inp -> io_open w out -> io_open w err ->
  (c = None /\ table w' = table w /\ (forall p, r <> Some_ p)) \/
  exists i o e w0 w1 pipes,
    c = Some (mkChild (table w1) i o e pipes) /\
    grows (prepared i o e) (table w) (table w0) /\ grows (pipe_list pipes) (table w0) (table w1) /\
    (forall fd, fd ∈ prepared i o e -> exists f, table w0 !! fd = Some (mkEntry f true)) /\
    stream_ok inp w (table w0) true (in_read i) (in_write i) /\
    stream_ok out w (table w0) false (out_write o) (out_read o) /\
    stream_ok err w (table w0) false (out_write e) (out_read e) /\
    grows (parent_ends i o e) (table w) (table w') /\
    (forall fd, fd ∈ parent_ends i o e -> table w' !! fd = table w0 !! fd) /\
    (forall p, r = Some_ p -> data_in p = in_write i /\ data_out p = out_read o /\ data_err p = out_read e).
Proof.
  intros Hs Ni No Ne Oi Oo Oe. unfold subprocess in Hs.
  destruct (prepare pipe_cloexec inp out err w) as [[[[i o] e]|m] w0] eqn:Hp;
    apply prepare_inv in Hp; try done; [|simplify_eq; left; split_and!; done].
  destruct Hp as (G & Ht & Si & So & Se).
  assert (Hclone : forall pipes w1 r1 c1, clone_with env i o e pipes w1 = (r1, c1, w') ->
    grows (pipe_list pipes) (table w0) (table w1) -> c = c1 ->
    r = match r1 with Some_ p => Some_ (mkSubprocess p (in_write i) (out_read o) (out_read e)) | Error m => Error m end ->
    (c = None /\ table w' = table w /\ (forall p, r <> Some_ p)) \/
    exists w1 pipes, c = Some (mkChild (table w1) i o e pipes) /\ grows (pipe_list pipes) (table w0) (table w1) /\
      grows (parent_ends i o e) (table w) (table w') /\
      (forall fd, fd ∈ parent_ends i o e -> table w' !! fd = table w0 !! fd) /\
      (forall p, r = Some_ p -> data_in p = in_write i /\ data_out p = out_read o /\ data_err p = out_read e)).
  { intros pipes w1 r1 c1 Hc G2 -> ->. eapply clone_with_inv in Hc; [|exact G|exact G2].
    destruct r1 as [p|m]; [destruct Hc as (-> & Hg & Hk)|destruct Hc as [[-> Hg]|(-> & Hg & Hk)]].
    - right. exists w1, pipes. split_and!; [done|done|done|done|]. intros p' [= <-]. done.
    - left. done.
    - right. exists w1, pipes. split_and!; done. }
  assert (Hx : (c = None /\ table w' = table w /\ (forall p, r <> Some_ p)) \/
    exists w1 pipes, c = Some (mkChild (table w1) i o e pipes) /\ grows (pipe_list pipes) (table w0) (table w1) /\
      grows (parent_ends i o e) (table w) (table w') /\
      (forall fd, fd ∈ parent_ends i o e -> table w' !! fd = table w0 !! fd) /\
      (forall p, r = Some_ p -> data_in p = in_write i /\ data_out p = out_read o /\ data_err p = out_read e)).
  { unfold cloneChild in Hs. destruct (parent_hooks env) as [|k ks].
    - destruct (clone_with env i o e None w0) as [[r1 c1] w1] eqn:Hc.
      destruct r1; simplify_eq; eapply Hclone; try exact Hc; try done; apply grows_nil.
    - destruct (os_pipe pipe_cloexec w0) as [[[p0 p1]|m] w1] eqn:Hpipe; [|done]. apply os_pipe_inv in Hpipe.
      destruct (clone_with env i o e (Some (p0, p1)) w1) as [[r1 c1] w2] eqn:Hc.
      destruct Hpipe as (H0 & ? & H1 & ? & Hne & Hw & _).
      assert (G2 : grows (pipe_list (Some (p0, p1))) (table w0) (table w1)).
      { rewrite Hw. cbn. apply (grows_perm ([p0] ++ [p1])); [by apply Permutation_swap|].
        eapply grows_app; apply grows_one; try done. by rewrite lookup_insert_ne. }
      destruct r1; simplify_eq; eapply Hclone; try exact Hc; done. }
  destruct Hx as [|(w1 & pipes & ? & ? & ? & ? & ?)]; [by left|right]. exists i, o, e, w0, w1, pipes. done.
Qed.

(** C25: starting a subprocess with pipes, files, and descriptors that are open and that the
    caller keeps ([IO::FD] with [DUPLICATED], not [OWNED], which the parent closes by contract)
    leaves in the parent exactly its ends of the pipes, and these are closed with the last copy
    of the [Subprocess]; when it fails before there is a child, whichever call fails, it leaves
    nothing. *)
Theorem subprocess_leaves_only_pipes inp out err env w r c w' :
  subprocess pipe_cloexec inp out err env w = Returns (r, c, w') ->
  not_owned inp -> not_owned out -> not_owned err -> io_open w inp -> io_open w out -> io_open w err ->
  match r with
  | Some_ p =>
      grows (option_list (data_in p) ++ option_list (data_out p) ++ option_list (data_err p)) (table w) (table w') /\
      table (destroy p w') = table w
  | Error _ => c = None -> table w' = table w
  end.
Proof.
  intros Hs Ni No Ne Oi Oo Oe.
  destruct (subprocess_inv _ _ _ _ _ _ _ _ Hs Ni No Ne Oi Oo Oe)
    as [(-> & Hw & Hr)|(i & o & e & w0 & w1 & pipes & -> & G & G2 & Ht & Si & So & Se & Hg & Hk & Hp)].
  - destruct r as [p|]; [|done]. by destruct (Hr p).
  - destruct r as [p|]; [|done]. destruct (Hp p eq_refl) as (-> & -> & ->). split; [done|].
    unfold destroy. eapply grows_close; [exact Hg|]. by destruct (Hp p eq_refl) as (-> & -> & ->).
Qed.

(** The pipes of a redirection. *)
Definition pipes_of (io : IO) : nat := match io with PIPE => 1 | _ => 0 end.

Lemma stream_ok_pipes io w m b fd x : stream_ok io w m b fd x -> length (option_list x) = pipes_of io.
Proof. destruct io; cbn; [by intros (f & y & -> & _)|by intros [-> _]..]. Qed.

(** When a parent hook fails, or the child cannot be told to continue, the child is killed
    but the parent's ends of the pipes stay open: one descriptor for each pipe is lost. *)
Theorem failed_hook_leaks_pipes inp out err env w m ch w' :
  subprocess pipe_cloexec inp out err env w = Returns (Error m, Some ch, w') ->
  not_owned inp -> not_owned out -> not_owned err -> io_open w inp -> io_open w out -> io_open w err ->
  exists l, grows l (table w) (table w') /\ length l = pipes_of inp + pipes_of out + pipes_of err.
Proof.
  intros Hs Ni No Ne Oi Oo Oe.
  destruct (subprocess_inv _ _ _ _ _ _ _ _ Hs Ni No Ne Oi Oo Oe)
    as [(? & _)|(i & o & e & w0 & w1 & pipes & Hc & G & G2 & Ht & Si & So & Se & Hg & Hk & Hp)]; [done|].
  exists (parent_ends i o e). split; [done|]. unfold parent_ends. rewrite !length_app.
  rewrite (stream_ok_pipes _ _ _ _ _ _ Si), (stream_ok_pipes _ _ _ _ _ _ So), (stream_ok_pipes _ _ _ _ _ _ Se). lia.
Qed.

(** What a standard stream of the program is. *)
Definition connected (io : IO) (w w' : world) (t : fds) (reads : bool) (fd : Z) (parent_end : option Z) : Prop :=
  match io with
  | PIPE => exists f x, parent_end = Some x /\
      (if reads then t !! fd = Some (mkEntry f false) /\ table w' !! x = Some (mkEntry (S f) true)
       else t !! fd = Some (mkEntry (S f) false) /\ table w' !! x = Some (mkEntry f true))
  | PATH _ => parent_end = None /\ is_Some (t !! fd)
  | FD k _ => parent_end = None /\ t !! fd = clear_flag <$> table w !! k
  end.

Lemma stream_connected io w w' m t reads fd child_end parent_end f :
  stream_ok io w m reads child_end parent_end ->
  file_at m child_end = Some f -> t !! fd = Some (mkEntry f false) ->
  (forall x, parent_end = Some x -> exists g, m !! x = Some (mkEntry g true) /\ table w' !! x = m !! x) ->
  connected io w w' t reads fd parent_end.
Proof.
  destruct io as [|path|k ty]; cbn; intros Hs Hf Ht Hx.
  - destruct Hs as (f' & x & -> & Hs). exists f', x. split; [done|]. destruct (Hx x eq_refl) as (g & Hg & ->).
    unfold file_at in *. rewrite Hg in *. cbn in Hs. destruct reads; destruct Hs; simplify_eq; split; congruence.
  - destruct Hs as [-> _]. rewrite Ht. eauto.
  - destruct Hs as (-> & Hk & _). split; [done|]. rewrite Ht. unfold file_at in *. rewrite Hf in Hk.
    destruct (table w !! k) as [[g b]|]; cbn in *; by simplify_eq.
Qed.

(** The child starts from the table of the parent with the descriptors that were prepared and
    the pipes that synchronize them. *)
Section Started.
Context (w w0 w1 : world) (i : InputFileDescriptors) (o e : OutputFileDescriptors) (pipes : option (Z * Z)) (wl : list Z).
Hypothesis G : grows (prepared i o e) (table w) (table w0).
Hypothesis G2 : grows (pipe_list pipes) (table w0) (table w1).
Hypothesis Ht : forall fd, fd ∈ prepared i o e -> exists f, table w0 !! fd = Some (mkEntry f true).
Hypothesis Hopen : forall fd, stdio fd = true \/ fd ∈ wl -> is_Some (table w !! fd).

Lemma old_entry fd :
  is_Some (table w !! fd) -> fd ∉ prepared i o e /\ fd ∉ pipe_list pipes /\ table w1 !! fd = table w !! fd.
Proof.
  intros Hfd.
  assert (Hn : fd ∉ prepared i o e).
  { intros Hin. destruct (grows_free _ _ _ G fd Hin) as [Hx _]. rewrite Hx in Hfd. by destruct Hfd. }
  assert (Hw0 : table w0 !! fd = table w !! fd) by by apply (grows_same _ _ _ G).
  assert (Hn2 : fd ∉ pipe_list pipes).
  { intros Hin. destruct (grows_free _ _ _ G2 fd Hin) as [Hx _]. rewrite <- Hw0, Hx in Hfd. by destruct Hfd. }
  split_and!; [done|done|]. by rewrite (grows_same _ _ _ G2).
Qed.

Lemma new_entry fd :
  fd ∈ prepared i o e -> exists f, table w0 !! fd = Some (mkEntry f true) /\
    table w1 !! fd = Some (mkEntry f true) /\ fd ∉ pipe_list pipes /\ stdio fd = false.
Proof.
  intros Hfd. destruct (Ht fd Hfd) as [f Hf].
  assert (Hn2 : fd ∉ pipe_list pipes) by (intros Hin; destruct (grows_free _ _ _ G2 fd Hin); congruence).
  exists f. rewrite (grows_same _ _ _ G2) by done. split_and!; try done.
  destruct (stdio fd) eqn:Hst; [|done]. destruct (old_entry fd) as [Hx _]; [by apply Hopen; left|done].
Qed.

Lemma child_end fd : fd ∈ [in_read i; out_write o; out_write e] -> fd ∈ prepared i o e.
Proof. intros Hfd. rewrite prepared_perm. apply elem_of_app. by left. Qed.
Lemma parent_end fd : fd ∈ parent_ends i o e -> fd ∈ prepared i o e.
Proof. intros Hfd. rewrite prepared_perm. apply elem_of_app. by right. Qed.

Lemma not_for_child_spec fd :
  fd ∈ not_for_child (mkChild (table w1) i o e pipes) <-> fd ∈ parent_ends i o e \/ fd ∈ pipe_list pipes.
Proof.
  unfold not_for_child, parent_ends. cbn. rewrite !elem_of_app. destruct pipes as [[p0 p1]|]; cbn; set_solver.
Qed.

Lemma started_child_runs ks :
  Forall harmless ks ->
  exists fi fo fe t,
    file_at (table w0) (in_read i) = Some fi /\ file_at (table w0) (out_write o) = Some fo /\ file_at (table w0) (out_write e) = Some fe /\
    childMain wl true ks (mkChild (table w1) i o e pipes) = Returns t /\
    t !! 0%Z = Some (mkEntry fi false) /\ t !! 1%Z = Some (mkEntry fo false) /\ t !! 2%Z = Some (mkEntry fe false) /\
    (forall fd, stdio fd = false -> t !! fd = if decide (fd ∈ wl) then clear_flag <$> table w !! fd else None).
Proof.
  intros Hks.
  destruct (new_entry (in_read i)) as (fi & Hfi0 & Hfi1 & _ & Hsi); [apply child_end; set_solver|].
  destruct (new_entry (out_write o)) as (fo & Hfo0 & Hfo1 & _ & Hso); [apply child_end; set_solver|].
  destruct (new_entry (out_write e)) as (fe & Hfe0 & Hfe1 & _ & Hse); [apply child_end; set_solver|].
  pose proof (grows_nodup _ _ _ G) as N. rewrite prepared_perm in N. apply NoDup_app in N as (_ & Hd & _).
  destruct (child_runs (mkChild (table w1) i o e pipes) wl ks (mkEntry fi true) (mkEntry fo true) (mkEntry fe true))
    as (t & Hrun & Hl); try done.
  { intros fd [He|Hpp]%not_for_child_spec; cbn.
    - split; [intros Hx; by apply (Hd fd)|]. by destruct (new_entry fd (parent_end fd He)) as (? & _ & _ & _ & ?).
    - split; [intros Hx; by destruct (new_entry fd (child_end fd Hx)) as (? & _ & _ & Hn & _)|].
      destruct (stdio fd) eqn:Hst; [|done]. destruct (old_entry fd) as (_ & Hx & _); [by apply Hopen; left|done]. }
  { intros fd Hfd. destruct (old_entry fd) as (Hn1 & Hn2 & Hw1); [by apply Hopen; right|]. cbn. rewrite Hw1.
    split_and!; [by apply Hopen; right| |]; [rewrite not_for_child_spec; intros [?%parent_end|?]; done|].
    intros Hx. by apply Hn1, child_end. }
  exists fi, fo, fe, t. unfold file_at. rewrite Hfi0, Hfo0, Hfe0. cbn [child_table file] in Hl.
  split_and!; try done; [by rewrite Hl..|]. intros fd Hfd. rewrite Hl. pose proof (stdio_false _ Hfd) as (? & ? & ?).
  unfold program_table. destruct (decide (fd = 0%Z)), (decide (fd = 1%Z)), (decide (fd = 2%Z)); try done.
  case_decide as Hw; [|done]. destruct (old_entry fd) as (_ & _ & ->); [by apply Hopen; right|done].
Qed.
End Started.

(** The program that is started finds its standard streams where they were asked for (the
    files of the caller's descriptors, a file that was opened, or one end of a pipe of which
    the parent has the other), and besides them exactly the descriptors of the whitelist,
    provided that the parent has standard streams itself. *)
Theorem child_gets_its_streams inp out err env wl ks w p ch w' :
  subprocess pipe_cloexec inp out err env w = Returns (Some_ p, Some ch, w') ->
  not_owned inp -> not_owned out -> not_owned err -> io_open w inp -> io_open w out -> io_open w err ->
  (forall fd, stdio fd = true \/ fd ∈ wl -> is_Some (table w !! fd)) -> Forall harmless ks ->
  exists t, childMain wl true ks ch = Returns t /\
    connected inp w w' t true 0 (data_in p) /\ connected out w w' t false 1 (data_out p) /\
    connected err w w' t false 2 (data_err p) /\
    (forall fd, stdio fd = false -> t !! fd = if decide (fd ∈ wl) then clear_flag <$> table w !! fd else None).
Proof.
  intros Hs Ni No Ne Oi Oo Oe Hopen Hks.
  destruct (subprocess_inv _ _ _ _ _ _ _ _ Hs Ni No Ne Oi Oo Oe)
    as [(? & _)|(i & o & e & w0 & w1 & pipes & [= ->] & G & G2 & Ht & Si & So & Se & Hg & Hk & Hp)]; [done|].
  destruct (Hp p eq_refl) as (-> & -> & ->).
  destruct (started_child_runs w w0 w1 i o e pipes wl G G2 Ht Hopen ks Hks) as (fi & fo & fe & t & Fi & Fo & Fe & Hrun & T0 & T1 & T2 & Hl).
  assert (Hpe : forall x, in_write i = Some x \/ out_read o = Some x \/ out_read e = Some x ->
    exists g, table w0 !! x = Some (mkEntry g true) /\ table w' !! x = table w0 !! x).
  { intros x Hx. assert (Hin : x ∈ parent_ends i o e) by (unfold parent_ends; rewrite !elem_of_app, !option_list_elem; tauto).
    destruct (Ht x (parent_end i o e x Hin)) as [g Hgx]. exists g. split; [done|]. by apply Hk. }
  exists t. split_and!; [done| | | |done].
  - eapply (stream_connected _ _ _ _ _ _ _ _ _ fi Si); [done|done|]. intros x Hx. apply Hpe. auto.
  - eapply (stream_connected _ _ _ _ _ _ _ _ _ fo So); [done|done|]. intros x Hx. apply Hpe. auto.
  - eapply (stream_connected _ _ _ _ _ _ _ _ _ fe Se); [done|done|]. intros x Hx. apply Hpe. auto.
Qed.
End Parent.

(** ** When the parent has no standard streams, or gives them away *)

Lemma unset_cloexec_keeps wl m t fd : unset_cloexec wl m = Returns t -> fd ∉ wl -> t !! fd = m !! fd.
Proof.
  revert m. induction wl as [|k wl IH]; intros m; cbn; [by intros [= ->]|].
  destruct (m !! k) as [e|]; [|done]. intros Hu [Hne Hn]%not_elem_of_cons.
  rewrite (IH _ Hu Hn). by rewrite lookup_insert_ne.
Qed.

Lemma dup2_lookup_ne old new m fd : fd <> new -> dup2 old new m !! fd = m !! fd.
Proof. unfold dup2. intros Hne. repeat case_match; try done. by rewrite lookup_insert_ne. Qed.

(** The closing at the end of the redirection does not touch the standard descriptors. *)
Lemma redirect_stdio_std i o e m fd :
  stdio fd = true ->
  redirect_stdio i o e m !! fd = dup2 (out_write e) 2 (dup2 (out_write o) 1 (dup2 (in_read i) 0 m)) !! fd.
Proof.
  intros Hs. unfold redirect_stdio.
  assert (Hd : forall k x (b : bool), (b = true -> stdio k = false) -> (if b then delete k x else x) !! fd = (x : fds) !! fd).
  { intros k x [] Hk; [|done]. rewrite lookup_delete_ne; [done|]. intros ->. rewrite Hk in Hs; done. }
  rewrite !Hd; [done|..]; intros Hb; bool_cases; done.
Qed.

Lemma childMain_std wl ks c t fd :
  childMain wl true ks c = Returns t -> Forall harmless ks -> stdio fd = true -> fd ∉ wl -> fd ∉ not_for_child c ->
  t !! fd =
    x ← redirect_stdio (child_in c) (child_out c) (child_err c)
          (close_opt (snd <$> child_pipes c) (close_opt (out_read (child_err c))
             (close_opt (out_read (child_out c)) (close_opt (in_write (child_in c)) (child_table c))))) !! fd;
    if cloexec x then None else Some x.
Proof.
  intros Hc Hks Hs Hwl Hn. unfold childMain in Hc. cbn [fst snd] in Hc.
  set (m := redirect_stdio _ _ _ _) in *. rewrite child_hooks_harmless in Hc by done.
  assert (Hc' : match handleWhitelistFds wl (close_opt (fst <$> child_pipes c) m) with
    | Returns m => Returns (exec m) | Abort x => Abort x end = Returns t) by (by destruct (child_pipes c)).
  unfold handleWhitelistFds in Hc'. destruct (unset_cloexec wl _) as [m'|] eqn:Hu; [|done]. simplify_eq.
  rewrite exec_lookup, (unset_cloexec_keeps _ _ _ _ Hu Hwl), close_others_lookup, Hs, close_opt_lookup. cbn.
  rewrite decide_False; [by destruct (m !! fd)|]. unfold not_for_child in Hn.
  rewrite !not_elem_of_app, !option_list_elem in Hn. tauto.
Qed.

Lemma child_table_kept c fd :
  fd ∉ not_for_child c ->
  close_opt (snd <$> child_pipes c) (close_opt (out_read (child_err c))
    (close_opt (out_read (child_out c)) (close_opt (in_write (child_in c)) (child_table c)))) !! fd = child_table c !! fd.
Proof.
  intros Hn. unfold not_for_child in Hn. rewrite !not_elem_of_app, !option_list_elem in Hn.
  rewrite !close_opt_lookup, !decide_False by tauto. done.
Qed.

(** A program whose standard input was prepared at descriptor 0 itself (the caller gave
    its own away, or has none) starts without standard input: the descriptor was marked to
    be closed on [exec], and its copy onto itself does not unmark it. *)
Theorem own_stdin_is_lost c wl ks t f :
  childMain wl true ks c = Returns t -> Forall harmless ks -> 0%Z ∉ wl -> 0%Z ∉ not_for_child c ->
  in_read (child_in c) = 0%Z -> child_table c !! 0%Z = Some (mkEntry f true) ->
  t !! 0%Z = None.
Proof.
  intros Hc Hks Hwl Hn Hi Ht. rewrite (childMain_std wl ks c t 0%Z) by done.
  rewrite redirect_stdio_std, !(dup2_lookup_ne _ _ _ 0%Z) by done. rewrite Hi. unfold dup2 at 1.
  rewrite child_table_kept, Ht by done. cbn. by rewrite child_table_kept, Ht.
Qed.

(** When standard output was prepared at descriptor 0, it is overwritten before it is copied:
    the program writes to the file that it reads from. *)
Theorem stdout_at_zero_is_overwritten c wl ks t e :
  childMain wl true ks c = Returns t -> Forall harmless ks -> 1%Z ∉ wl -> 1%Z ∉ not_for_child c ->
  in_read (child_in c) ∉ not_for_child c -> in_read (child_in c) <> 0%Z ->
  child_table c !! in_read (child_in c) = Some e -> out_write (child_out c) = 0%Z ->
  t !! 1%Z = Some (clear_flag e).
Proof.
  intros Hc Hks Hwl Hn Hni Hi Ht Ho. rewrite (childMain_std wl ks c t 1%Z) by done.
  rewrite redirect_stdio_std, (dup2_lookup_ne _ 2%Z) by done. rewrite Ho.
  rewrite (dup2_insert _ 0%Z _ e) by (by rewrite ?child_table_kept).
  rewrite (dup2_insert 0%Z 1%Z _ (clear_flag e)) by (by rewrite ?lookup_insert_eq).
  by rewrite lookup_insert_eq.
Qed.

(** ** Executions *)

#[local] Existing Instance Posix.

(** A parent with three standard streams and a connection at descriptor 7. *)
Definition parent_world : world :=
  mkWorld {[0%Z := mkEntry 0 false; 1%Z := mkEntry 1 false; 2%Z := mkEntry 2 false; 7%Z := mkEntry 3 true]} ∅ 4 [].

Definition started (inp out err : IO) (env : clone_env) (w : world) : Try Subprocess * option child * world :=
  match subprocess false inp out err env w with
  | Returns x => x
  | Abort m => (Error m, None, w)
  end.

Definition good_env : clone_env := mkCloneEnv (Some 42%Z) [Some_ ()] true.
Definition bad_env : clone_env := mkCloneEnv (Some 42%Z) [Error "no"] true.

Definition good : Try Subprocess * option child * world := started PIPE PIPE (FD 2 DUPLICATED) good_env parent_world.
Definition bad : Try Subprocess * option child * world := started PIPE PIPE (FD 2 DUPLICATED) bad_env parent_world.

Definition good_process : Subprocess := mkSubprocess 42 (Some 4%Z) (Some 5%Z) None.
Definition good_child : child := default (mkChild ∅ no_input no_output no_output None) good.1.2.
Definition bad_child : child := default (mkChild ∅ no_input no_output no_output None) bad.1.2.

Lemma subprocess_leaves_only_pipes_witness :
  grows [4%Z; 5%Z] (table parent_world) (table good.2) /\ table (destroy good_process good.2) = table parent_world.
Proof.
  apply (subprocess_leaves_only_pipes false PIPE PIPE (FD 2 DUPLICATED) good_env parent_world
    (Some_ good_process) (Some good_child) good.2);
    [by vm_compute|exact I..|by eexists].
Defined.

Lemma failed_hook_leaks_pipes_witness :
  exists l, grows l (table parent_world) (table bad.2) /\ length l = 2.
Proof.
  apply (failed_hook_leaks_pipes false PIPE PIPE (FD 2 DUPLICATED) bad_env parent_world
    "Failed to execute Subprocess::ParentHook in parent for child: no" bad_child bad.2);
    [by vm_compute|exact I..|by eexists].
Defined.

Lemma child_gets_its_streams_witness :
  exists t, childMain [7%Z] true [SETSID true] good_child = Returns t /\
    connected PIPE parent_world good.2 t true 0 (Some 4%Z) /\ connected PIPE parent_world good.2 t false 1 (Some 5%Z) /\
    connected (FD 2 DUPLICATED) parent_world good.2 t false 2 None /\
    (forall fd, stdio fd = false -> t !! fd = if decide (fd ∈ [7%Z]) then clear_flag <$> table parent_world !! fd else None).
Proof.
  apply (child_gets_its_streams false PIPE PIPE (FD 2 DUPLICATED) good_env [7%Z] [SETSID true] parent_world
    good_process good_child good.2);
    [by vm_compute|exact I..|by eexists| |by constructor].
  intros fd [Hs|Hw]; [apply stdio_true in Hs as [->|[->| ->]]; by eexists|].
  apply list_elem_of_singleton in Hw as ->. by eexists.
Defined.

(** The caller gives its standard input away. *)
Definition owned_child : child :=
  default good_child (started (FD 0 OWNED) PIPE PIPE (mkCloneEnv (Some 42%Z) [] true) parent_world).1.2.
Definition owned_program : fds :=
  match childMain [] true [] owned_child with Returns t => t | Abort _ => ∅ end.

Lemma own_stdin_is_lost_witness : owned_program !! 0%Z = None.
Proof.
  apply (own_stdin_is_lost owned_child [] [] owned_program 0);
    [by vm_compute|constructor|apply not_elem_of_nil| |by vm_compute..].
  apply (bool_decide_eq_false (0%Z ∈ not_for_child owned_child)). by vm_compute.
Defined.
