(* ===== verification/SocketIo.v ===== *)
(** Receiving, sending, accepting and creating sockets ([socket.cpp], [posix/poll_socket.cpp]).

    The loops are functions of what the system answers to them, one answer after the other;
    [None] is a loop that still waits for an answer. *)

From S2P Require Import Prelude HttpConnection Descriptors Io.

(** ** [SocketImpl::recv] *)

Section Recv.
(** [16 * os::pagesize()]. *)
Context (DEFAULT_CHUNK : nat).

Definition recv_chunk (size : option Z) : nat :=
  match size with
  | None => DEFAULT_CHUNK
  | Some n => if (n <? 0)%Z then DEFAULT_CHUNK else Z.to_nat n
  end.

(** The body of the loop: whether the buffer is returned. *)
Definition recv_enough (size : option Z) (buffer : bytes) : bool :=
  match size with
  | None => true
  | Some n => if (n <? 0)%Z then false else negb (Z.of_nat (length buffer) <? n)%Z
  end.

(** [rs] are the results of [recv(data, chunk)], which fills at most the chunk. *)
Fixpoint recv_loop (size : option Z) (buffer : bytes) (rs : list (completion bytes)) : option (completion bytes) :=
  match rs with
  | [] => None
  | IsReady s :: rs =>
      match take (recv_chunk size) s with
      | [] => Some (IsReady buffer)
      | s => let buffer := buffer ++ s in
             if recv_enough size buffer then Some (IsReady buffer) else recv_loop size buffer rs
      end
  | IsFailed m :: _ => Some (IsFailed m)
  | IsDiscarded :: _ => Some IsDiscarded
  end.

Definition recv (size : option Z) (rs : list (completion bytes)) : option (completion bytes) := recv_loop size [] rs.

(** What the results bring. *)
Definition received (size : option Z) (r : completion bytes) : bytes :=
  match r with IsReady s => take (recv_chunk size) s | _ => [] end.

(** Before the last of the results the buffer was not enough. *)
Lemma recv_loop_inv size buffer rs b :
  recv_loop size buffer rs = Some (IsReady b) ->
  exists k, b = buffer ++ concat (received size <$> take k rs) /\
    (forall i, 0 < i < k -> recv_enough size (buffer ++ concat (received size <$> take i rs)) = false) /\
    ((exists s, rs !! k = Some (IsReady s) /\ take (recv_chunk size) s = [] /\ (k = 0 \/ recv_enough size b = false)) \/
     (recv_enough size b = true /\ 0 < k)).
Proof.
  revert buffer. induction rs as [|r rs IH]; intros buffer; cbn [recv_loop]; [done|].
  destruct r as [s|m|]; [|done..]. destruct (take (recv_chunk size) s) as [|c s'] eqn:Hs.
  { intros [= <-]. exists 0. cbn. rewrite app_nil_r. split; [done|]. split; [lia|]. left. exists s. auto. }
  destruct (recv_enough size (buffer ++ c :: s')) eqn:He.
  - intros [= <-]. exists 1. cbn. rewrite Hs, app_nil_r. split; [done|]. split; [lia|]. right. split; [done|lia].
  - intros Hl. destruct (IH _ Hl) as (k & Hb & Hi & Hk). exists (S k).
    assert (Hcons : forall i, buffer ++ concat (received size <$> take (S i) (IsReady s :: rs)) =
      (buffer ++ c :: s') ++ concat (received size <$> take i rs)).
    { intros i. cbn [take fmap list_fmap concat received]. rewrite Hs, <- app_assoc. done. }
    rewrite Hcons. split; [done|]. split.
    + intros [|[|i]] Hlt; [lia| |].
      * rewrite Hcons. cbn. by rewrite app_nil_r.
      * rewrite Hcons. apply Hi. lia.
    + destruct Hk as [(s0 & H1 & H2 & H3)|[He' Hpos]]; [left|right; split; [done|lia]].
      exists s0. split_and!; [done|done|right]. destruct H3 as [->|]; [|done].
      cbn in Hb. rewrite app_nil_r in Hb. by rewrite Hb.
Qed.

Lemma received_length size r : length (received size r) <= recv_chunk size.
Proof. destruct r; cbn; rewrite ?length_take; lia. Qed.

(** C26: [recv(N)] returns a concatenation of what was received, without gaps; it has at least
    [N] bytes unless the connection ended, and fewer than [2 * N]: it can have more than the
    [N] bytes that the documentation promises, since the last read may fill a whole chunk. *)
Theorem recv_bounds n rs b :
  (0 < n)%Z -> recv (Some n) rs = Some (IsReady b) ->
  (exists k, b = concat (received (Some n) <$> take k rs)) /\
  (Z.of_nat (length b) < 2 * n)%Z /\
  ((n <= Z.of_nat (length b))%Z \/ exists s, IsReady s ∈ rs /\ s = []).
Proof.
  intros Hn Hr. destruct (recv_loop_inv _ _ _ _ Hr) as (k & Hb & Hk). cbn [app] in *.
  assert (Hneg : (n <? 0)%Z = false) by (apply Z.ltb_ge; lia).
  assert (Hen : forall x, recv_enough (Some n) x = negb (Z.of_nat (length x) <? n)%Z) by (intros; cbn; by rewrite Hneg).
  assert (Hch : recv_chunk (Some n) = Z.to_nat n) by (cbn; by rewrite Hneg).
  split; [eauto|]. destruct Hk as [Hi [(s & Hs & Ht & Hb0)|[He Hpos]]].
  - assert (Hnil : s = []). { destruct s as [|c s]; [done|]. rewrite Hch in Ht. destruct (Z.to_nat n) eqn:Hz; [lia|done]. }
    split; [|right; exists s; split; [by eapply list_elem_of_lookup_2|done]].
    destruct Hb0 as [->|Hne]; [assert (length b = 0) by (by rewrite Hb); lia|]. rewrite Hen in Hne. bool_cases. lia.
  - rewrite Hen in He. bool_cases. split; [|left; lia]. destruct k as [|j]; [lia|].
    assert (Hj : (Z.of_nat (length (concat (received (Some n) <$> take j rs))) < n)%Z).
    { destruct j as [|j]; [change (concat _) with (@nil Ascii.ascii); cbn [length]; lia|]. specialize (Hi (S j) ltac:(lia)). rewrite Hen in Hi. bool_cases. lia. }
    assert (Hlast : length b <= length (concat (received (Some n) <$> take j rs)) + Z.to_nat n).
    { rewrite Hb. destruct (rs !! j) as [r|] eqn:Hr0.
      - rewrite (take_S_r _ _ _ Hr0), fmap_app, concat_app, length_app. cbn. rewrite app_nil_r.
        pose proof (received_length (Some n) r). rewrite Hch in *. lia.
      - apply lookup_ge_None in Hr0. rewrite !take_ge by lia. lia. }
    lia.
Qed.

(** The bound is reached. *)
Lemma recv_more_than_asked m : exists rs b,
  recv (Some (Z.of_nat (S (S m)))) rs = Some (IsReady b) /\ length b = 2 * S (S m) - 1.
Proof.
  set (n := S (S m)). set (x := replicate (S m) Ascii.zero). set (y := replicate n Ascii.zero).
  assert (Hlt : (Z.of_nat n <? 0)%Z = false) by (apply Z.ltb_ge; lia).
  assert (Hlx : length x = S m) by apply length_replicate. assert (Hly : length y = n) by apply length_replicate.
  assert (Hx : take n x = x) by (apply take_ge; lia). assert (Hy : take n y = y) by (apply take_ge; lia).
  assert (Hc : recv_chunk (Some (Z.of_nat n)) = n) by (cbn [recv_chunk]; by rewrite Hlt, Nat2Z.id).
  assert (Hstep : forall buffer s rs, take n s = s -> s <> [] ->
    recv_loop (Some (Z.of_nat n)) buffer (IsReady s :: rs) =
      if recv_enough (Some (Z.of_nat n)) (buffer ++ s) then Some (IsReady (buffer ++ s))
      else recv_loop (Some (Z.of_nat n)) (buffer ++ s) rs).
  { intros buffer s rs Hs Hne. cbn [recv_loop]. rewrite Hc, Hs. by destruct s. }
  exists [IsReady x; IsReady y], (x ++ y). split; [|rewrite length_app; lia].
  unfold recv. rewrite Hstep by (done || by intros ?%(f_equal length); rewrite Hlx in *).
  assert (E1 : recv_enough (Some (Z.of_nat n)) ([] ++ x) = false).
  { cbn [recv_enough app]. rewrite Hlt. apply negb_false_iff, Z.ltb_lt. lia. }
  rewrite E1, Hstep by (done || by intros ?%(f_equal length); rewrite Hly in *).
  assert (E2 : recv_enough (Some (Z.of_nat n)) (([] ++ x) ++ y) = true).
  { cbn [recv_enough app]. rewrite Hlt. apply negb_true_iff, Z.ltb_ge. rewrite length_app. lia. }
  by rewrite E2.
Qed.
End Recv.

(** ** [SocketImpl::send] over [PollSocketImpl::send] *)

(** What the system answers to [net::send] and [os::sendfile], and how [io::poll] ends. *)
Inductive reply :=
| Sent (n : nat)               (* at most the bytes that are left *)
| Restartable                  (* interrupted: tried again at once *)
| WouldBlock                   (* tried again after polling *)
| Fails (message : string)
| Polls (events : Z)
| PollFails (message : string)
| PollIsDiscarded.

(** [PollSocketImpl::send(data, size)] and [PollSocketImpl::sendfile(fd, offset, size)]: the
    result, and the answers that are left. *)
Fixpoint poll_send (size : nat) (polling : bool) (rs : list reply)
    : option (checked (completion nat) * list reply) :=
  match rs with
  | [] => None
  | r :: rs =>
      match polling, r with
      | false, Sent n => Some (Returns (IsReady (min n size)), rs)
      | false, Restartable => poll_send size false rs
      | false, Fails m => Some (Returns (IsFailed m), rs)
      | false, WouldBlock => poll_send size true rs
      | true, Polls events =>
          if (events =? WRITE)%Z then poll_send size false rs else Some (Abort "CHECK_EQ(io::WRITE, event)", rs)
      | true, PollFails m => Some (Returns (IsFailed m), rs)
      | true, PollIsDiscarded => Some (Returns IsDiscarded, rs)
      | _, _ => None
      end
  end.

Definition PollSocketImpl_send (size : nat) (rs : list reply) : option (checked (completion nat) * list reply) :=
  if size =? 0 then Some (Abort "CHECK(size > 0)", rs) else poll_send size false rs.

(** [SocketImpl::send(data)]: its result and the bytes that were sent. *)
Fixpoint send_loop (fuel : nat) (data : bytes) (index : nat) (rs : list reply)
    : option (checked (completion unit)) * bytes :=
  match fuel with
  | O => (None, take index data)
  | S fuel =>
      match PollSocketImpl_send (length data - index) rs with
      | None => (None, take index data)
      | Some (Abort m, _) => (Some (Abort m), take index data)
      | Some (Returns (IsReady n), rs) =>
          if index + n =? length data then (Some (Returns (IsReady ())), take (index + n) data)
          else send_loop fuel data (index + n) rs
      | Some (Returns (IsFailed m), _) => (Some (Returns (IsFailed m)), take index data)
      | Some (Returns IsDiscarded, _) => (Some (Returns IsDiscarded), take index data)
      end
  end.

(** Every turn uses an answer. *)
Definition send (data : bytes) (rs : list reply) : option (checked (completion unit)) * bytes :=
  send_loop (S (length rs)) data 0 rs.

Lemma poll_send_inv size p rs x rs' :
  poll_send size p rs = Some (x, rs') ->
  length rs' < length rs /\ (forall n, x = Returns (IsReady n) -> n <= size).
Proof.
  revert p. induction rs as [|r rs IH]; intros p; cbn; [done|].
  destruct p, r; try done;
    try (intros [= <- <-]; split; [lia|intros n' Hn; simplify_eq; try done; lia]);
    try (intros Hp; destruct (IH _ Hp); split; [lia|done]).
  case_match; [intros Hp; destruct (IH _ Hp); split; [lia|done]|].
  intros [= <- <-]. split; [lia|done].
Qed.

(** Answers with which a send makes progress: the polls end as they were asked to, and no
    call fails. *)
Fixpoint progresses (polling : bool) (rs : list reply) : Prop :=
  match rs with
  | [] => True
  | r :: rs =>
      match polling, r with
      | false, Sent n => 0 < n /\ progresses false rs
      | false, Restartable => progresses false rs
      | false, WouldBlock => progresses true rs
      | true, Polls events => events = WRITE /\ progresses false rs
      | _, _ => False
      end
  end.

Definition is_sent (r : reply) : nat := match r with Sent _ => 1 | _ => 0 end.
Definition sents (rs : list reply) : nat := sum_list_by is_sent rs.

Lemma poll_send_progress size p rs :
  progresses p rs -> 0 < sents rs -> 0 < size ->
  exists n rs', poll_send size p rs = Some (Returns (IsReady n), rs') /\ 0 < n <= size /\
    progresses false rs' /\ sents rs = S (sents rs').
Proof.
  revert p. induction rs as [|r rs IH]; intros p; unfold sents in *; cbn; [lia|].
  destruct p, r; cbn; try done.
  - intros [-> Hp] Hs Hz. rewrite Z.eqb_refl. by apply IH.
  - intros [Hn Hp] Hs Hz. exists (n `min` size), rs. split_and!; [done|lia|lia|done|done].
  - by apply IH.
  - by apply IH.
Qed.

Lemma send_loop_spec fuel data index rs :
  index < length data ->
  (exists i, index <= i <= length data /\ (send_loop fuel data index rs).2 = take i data) /\
  (forall u, (send_loop fuel data index rs).1 = Some (Returns (IsReady u)) -> (send_loop fuel data index rs).2 = data) /\
  (progresses false rs -> length data - index <= sents rs -> length data - index <= fuel ->
     (send_loop fuel data index rs).1 = Some (Returns (IsReady ()))).
Proof.
  revert index rs. induction fuel as [|fuel IH]; intros index rs Hi; cbn.
  { split; [exists index; split; [lia|done]|]. split; [done|lia]. }
  unfold PollSocketImpl_send. destruct (length data - index =? 0) eqn:Hz; bool_cases; [lia|].
  assert (Hstay : exists i, index <= i <= length data /\ take index data = take i data) by (exists index; split; [lia|done]).
  destruct (poll_send (length data - index) false rs) as [[x rs']|] eqn:Hp.
  2: { split; [done|]. split; [done|]. intros Hg Hs Hf.
       destruct (poll_send_progress (length data - index) false rs Hg) as (n & rs' & Hx & _); [lia|lia|congruence]. }
  assert (Hbad : progresses false rs -> length data - index <= sents rs -> exists n, x = Returns (IsReady n)).
  { intros Hg Hs. destruct (poll_send_progress (length data - index) false rs Hg) as (n & r & Hx & _); [lia|lia|].
    exists n. congruence. }
  destruct x as [[n|m|]|m]; cbn.
  2-4: split; [done|]; split; [done|]; intros Hg Hs Hf; destruct (Hbad Hg Hs); done.
  destruct (poll_send_inv _ _ _ _ _ Hp) as [Hlen Hn]. specialize (Hn n eq_refl).
  destruct (index + n =? length data) eqn:He; bool_cases; cbn.
  - split; [exists (index + n); split; [lia|done]|]. split; [intros; rewrite He; apply firstn_all|done].
  - destruct (IH (index + n) rs' ltac:(lia)) as ((i & Hi' & Hd) & Hok & Hlive).
    split; [exists i; split; [lia|done]|]. split; [done|]. intros Hg Hs Hf.
    destruct (poll_send_progress (length data - index) false rs Hg) as (n' & r & Hx & Hpos & Hg' & Hs'); [lia|lia|].
    simplify_eq. apply Hlive; [done|lia|lia].
Qed.

(** [send] of a string that is not empty sends a beginning of it, all of it when it
    succeeds, and it succeeds when the system takes at least one byte each time and does so
    often enough; the empty string fails a [CHECK]. *)
Theorem send_sends_everything data rs :
  (exists i, (send data rs).2 = take i data) /\
  (forall u, (send data rs).1 = Some (Returns (IsReady u)) -> (send data rs).2 = data) /\
  (data <> [] -> progresses false rs -> length data <= sents rs -> (send data rs).1 = Some (Returns (IsReady ()))) /\
  (data = [] -> (send data rs).1 = Some (Abort "CHECK(size > 0)")).
Proof.
  destruct data as [|c data].
  { unfold send. cbn. split; [by exists 0|]. split; [done|]. split; [done|done]. }
  destruct (send_loop_spec (S (length rs)) (c :: data) 0 rs) as ((i & _ & Hi) & Hok & Hlive); [cbn; lia|].
  split; [by exists i|]. split; [done|]. split; [|done]. intros _ Hg Hs.
  apply Hlive; [done|lia|]. rewrite Nat.sub_0_r. transitivity (sents rs); [done|]. transitivity (length rs); [|lia].
  clear. unfold sents. induction rs as [|[] rs IH]; cbn in *; lia.
Qed.

(** ** Creating and accepting sockets *)

Inductive Family := UNIX | INET4 | INET6.

Section Sockets.
Context `{Descriptors}.
Local Open Scope sys_scope.

(** A call on a descriptor that only returns something. *)
Definition query {A} (fd : Z) (a : A) : sys A := let* _ := on_fd fd in ret a.

(** [SocketImpl::create(family, kind)], where the system can and where it cannot set the flags
    at once; [create(s, kind)] can fail. *)
Definition SocketImpl_create (atomic : bool) : sys Z :=
  if atomic then
    let* s := or_close (fun w =>
      match os_open true w with
      | (Some_ n, w) => (Some_ n, mkWorld (table w) ({[file_of w n]} ∪ async w) (files w) (faults w))
      | (Error e, w) => (Error e, w)
      end) [] "Failed to create socket: " in
    or_close (query s s) [s] ""
  else
    let* s := or_close (os_open false) [] "Failed to create socket: " in
    let* _ := or_close (os_nonblock s) [s] "Failed to create socket, prepare_async: " in
    let* _ := or_close (os_cloexec s) [s] "Failed to create socket, cloexec: " in
    or_close (query s s) [s] "".

(** The continuation of [PollSocketImpl::accept], after the poll. *)
Definition PollSocketImpl_accept (listening : Z) (family : Family) : sys Z :=
  let* _ := on_fd listening in
  let* s := os_open false in
  let* _ := or_close (os_nonblock s) [s] "Failed to accept, nonblock: " in
  let* _ := or_close (os_cloexec s) [s] "Failed to accept, cloexec: " in
  let* _ := or_close (query s ()) [s] "Failed to get address: " in
  let* _ := match family with
            | UNIX => ret ()
            | _ => or_close (query s ()) [s] "Failed to turn off the Nagle algorithm: "
            end in
  or_close (query s s) [s] "Failed to create socket: ".

Lemma query_inv {A} fd (a : A) w r w' :
  query fd a w = (r, w') -> same w w' /\ match r with Some_ x => x = a | Error _ => True end.
Proof.
  intros [(e & He & ->)|(e & w1 & He & Hr)]%bind_inv; apply on_fd_inv in He as [Hs _]; [done|].
  unfold ret in Hr. by simplify_eq.
Qed.

(** A new descriptor that does not block and closes on [exec]; nothing else has changed. *)
Definition new_socket (w w' : world) (n : Z) : Prop :=
  table w !! n = None /\ table w' = <[n := mkEntry (files w) true]> (table w) /\ files w ∈ async w'.

Ltac inv_socket :=
  repeat (progress (inv_calls; try match goal with
  | H : query _ _ _ = _ |- _ => apply query_inv in H as [(? & ? & ?) ?]; simplify_eq
  | H : on_fd _ _ = _ |- _ => apply on_fd_inv in H as [(? & ? & ?) ?]
  end)).

(** Rewrites the tables, flags and counts of the worlds passed. *)
Ltac worlds :=
  cbn [close_all foldr os_close set_table table async files] in *;
  repeat match goal with
  | H : table ?w = _ |- _ => is_var w; rewrite H in *; clear H
  | H : async ?w = _ |- _ => is_var w; rewrite H in *; clear H
  | H : files ?w = _ |- _ => is_var w; rewrite H in *; clear H
  end; simplify_map_eq.

Lemma accept_inv listening family w r w' :
  PollSocketImpl_accept listening family w = (r, w') ->
  match r with Some_ n => new_socket w w' n | Error _ => table w' = table w end.
Proof.
  unfold PollSocketImpl_accept, new_socket. intros Hc.
  destruct family; inv_socket; worlds; try done; try by rewrite ?insert_insert_eq, delete_insert_id.
  all: split_and!; [done|by rewrite ?insert_insert_eq|set_solver].
Qed.

Lemma create_inv atomic w r w' :
  SocketImpl_create atomic w = (r, w') ->
  match r with Some_ n => new_socket w w' n | Error _ => table w' = table w end.
Proof.
  unfold SocketImpl_create, new_socket. intros Hc. destruct atomic.
  - apply bind_inv in Hc as [(e & Hc & ->)|(s & w1 & Hc & Hq)].
    + apply or_close_inv in Hc as [(e' & w1 & Hc & _ & ->)|(? & _ & ?)]; [|done].
      destruct (os_open true w) as [[n|e0] w2] eqn:Ho; [done|]. simplify_eq. by apply os_open_inv in Ho as (? & _).
    + apply or_close_inv in Hc as [(? & ? & _ & ? & _)|(s' & Hc & [= <-])]; [done|].
      destruct (os_open true w) as [[n|e0] w2] eqn:Ho; [|done]. simplify_eq.
      apply os_open_inv in Ho as (Hn & Hp & Ht & Ha & Hf). inv_socket; cbn in *.
      * rewrite H0, Ht. by rewrite delete_insert_id.
      * rewrite H0, H1, Ht. split_and!; [done|done|]. unfold file_of. rewrite Ht, lookup_insert_eq. set_solver.
  - inv_socket; worlds; try done; try by rewrite ?insert_insert_eq, delete_insert_id.
    split_and!; [done|by rewrite ?insert_insert_eq|set_solver].
Qed.

(** Creating and accepting a socket gives a new descriptor that does not block and closes
    on [exec], or an error that leaves the table as it was, whichever of the calls fails. *)
Theorem sockets_are_whole w r w' :
  (exists atomic, SocketImpl_create atomic w = (r, w')) \/
  (exists listening family, PollSocketImpl_accept listening family w = (r, w')) ->
  match r with
  | Some_ n => new_socket w w' n
  | Error _ => table w' = table w
  end.
Proof. intros [(b & Hc)|(l & f & Hc)]; [by eapply create_inv|by eapply accept_inv]. Qed.
End Sockets.

(** ** Connecting *)

(** [PollSocketImpl::connect]: what [connect] returns, how the poll ends, and what
    [getsockopt] finds. *)
Inductive connecting := Connected | InProgress | ConnectFails (message : string).

Definition PollSocketImpl_connect (c : connecting) (poll : completion unit) (option_ : Try Z) : completion unit :=
  match c with
  | Connected => IsReady ()
  | ConnectFails m => IsFailed m
  | InProgress =>
      match poll with
      | IsFailed m => IsFailed m
      | IsDiscarded => IsDiscarded
      | IsReady _ =>
          match option_ with
          | Error m => IsFailed ("Failed to get status of connect to " +:+ m)
          | Some_ opt => if (opt =? 0)%Z then IsReady () else IsFailed "Failed to connect to "
          end
      end
  end.

(** ** Examples *)

Definition zeros (n : nat) : bytes := replicate n Ascii.zero.

Lemma recv_bounds_witness :
  recv 4096 (Some 10%Z) [IsReady (zeros 6); IsReady (zeros 12)] = Some (IsReady (zeros 16)) /\
  (exists k, zeros 16 = concat (received 4096 (Some 10%Z) <$> take k [IsReady (zeros 6); IsReady (zeros 12)])).
Proof. split; [by vm_compute|]. apply (recv_bounds 4096 10); by vm_compute. Defined.

#[local] Existing Instance Posix.

Lemma sockets_are_whole_witness :
  table (PollSocketImpl_accept 0 INET4 (mkWorld {[0%Z := mkEntry 0 true]} ∅ 1 [None; None; None; None; Some "no"])).2 =
    {[0%Z := mkEntry 0 true]}.
Proof.
  pose proof (sockets_are_whole (mkWorld {[0%Z := mkEntry 0 true]} ∅ 1 [None; None; None; None; Some "no"]) _ _
    (or_intror (ex_intro _ 0%Z (ex_intro _ INET4 eq_refl)))) as Hx.
  vm_compute in Hx |- *. exact Hx.
Defined.
