(* ===== verification/Reap.v ===== *)
(** Reaping of operating system processes ([reap.cpp]). *)

From S2P Require Import Prelude.

(** ** The processes of the operating system *)

(** Whether a process is our child, and its exit status once it has exited. *)
Record proc := mkProc { is_child : bool; exited : option Z }.
Notation procs := (gmap Z proc).

(** [os::waitpid(pid, &status, WNOHANG)]: only a child that has exited is reaped. *)
Definition waitpid (pid : Z) (ps : procs) : option Z * procs :=
  match ps !! pid with
  | Some (mkProc true (Some status)) => (Some status, delete pid ps)
  | _ => (None, ps)
  end.

(** [os::exists]: also a process that has exited exists until it is reaped. *)
Definition os_exists (pid : Z) (ps : procs) : bool := bool_decide (is_Some (ps !! pid)).

(** ** [ReaperProcess] *)

(** The promises are numbered in the order of the calls of [reap]. *)
Record Reaper := mkReaper {
  promises : list (Z * nat);
  results : gmap nat (option Z);    (* what the promises were set to *)
  asked : list Z;
}.

(** [ReaperProcess::reap]. *)
Definition reap (pid : Z) (ps : procs) (r : Reaper) : Reaper :=
  let n := length (asked r) in
  if os_exists pid ps
  then mkReaper (promises r ++ [(pid, n)]) (results r) (asked r ++ [pid])
  else mkReaper (promises r) (<[n := None]> (results r)) (asked r ++ [pid]).

(** [ReaperProcess::notify]. *)
Definition notify (pid : Z) (status : option Z) (r : Reaper) : Reaper :=
  mkReaper (filter (fun p => p.1 <> pid) (promises r))
    (foldr (fun p => insert p.2 status) (results r) (filter (fun p => p.1 = pid) (promises r)))
    (asked r).

(** One process in the loop of [ReaperProcess::wait]. *)
Definition wait_pid (pid : Z) (x : procs * Reaper) : procs * Reaper :=
  let '(ps, r) := x in
  match waitpid pid ps with
  | (Some status, ps) => (ps, notify pid (Some status) r)
  | (None, ps) => if os_exists pid ps then (ps, r) else (ps, notify pid None r)
  end.

(** [ReaperProcess::wait]: the loop over [promises.keys()]. *)
Definition keys (r : Reaper) : list Z := remove_dups (promises r).*1.
Definition wait (x : procs * Reaper) : procs * Reaper := foldr wait_pid x (keys x.2).

(** Durations in nanoseconds. *)
Definition LOW_PID_COUNT : Z := 50.
Definition HIGH_PID_COUNT : Z := 500.
Definition MIN_REAP_INTERVAL : Z := 100000000.
Definition MAX_REAP_INTERVAL : Z := 1000000000.

(** [d * ((double) n / m)]: double precision and [Duration::operator*] round, but they keep
    the order, and the fractions 0 and 1 are exact. *)
Class Scaling := {
  scale : Z -> Z -> Z -> Z;
  scale_mono d n n' m : (0 <= d)%Z -> (0 < m)%Z -> (0 <= n <= n')%Z -> (n' <= m)%Z -> (scale d n m <= scale d n' m)%Z;
  scale_zero d m : (0 < m)%Z -> scale d 0 m = 0%Z;
  scale_one d m : (0 < m)%Z -> scale d m m = d;
}.

(** [ReaperProcess::interval]. *)
Definition interval `{Scaling} (count : Z) : Z :=
  if (count <=? LOW_PID_COUNT)%Z then MIN_REAP_INTERVAL
  else if (HIGH_PID_COUNT <=? count)%Z then MAX_REAP_INTERVAL
  else (MIN_REAP_INTERVAL +
        scale (MAX_REAP_INTERVAL - MIN_REAP_INTERVAL) (count - LOW_PID_COUNT) (HIGH_PID_COUNT - LOW_PID_COUNT))%Z.

(** ** Properties *)

(** What the reaper finds out about a process. *)
Definition verdict (ps : procs) (pid : Z) : option (option Z) :=
  match ps !! pid with
  | None => Some None
  | Some (mkProc true (Some status)) => Some (Some status)
  | Some _ => None
  end.

(** Nothing else is reaped. *)
Definition after_wait (ps : procs) (l : list Z) : procs :=
  filter (fun kv => ~ (kv.1 ∈ l /\ is_child kv.2 = true /\ is_Some (exited kv.2))) ps.

Lemma results_notify (l : list (Z * nat)) (m : gmap nat (option Z)) status i :
  foldr (fun p => insert p.2 status) m l !! i = if decide (i ∈ l.*2) then Some status else m !! i.
Proof.
  induction l as [|[pid n] l IH]; [cbn; by rewrite decide_False by apply not_elem_of_nil|].
  cbn [foldr snd]. rewrite fmap_cons. cbn [snd].
  destruct (decide (i = n)) as [->|Hne].
  - rewrite lookup_insert_eq, decide_True; [done|by left].
  - rewrite lookup_insert_ne, IH by done. repeat case_decide; try done; set_solver.
Qed.

Lemma after_wait_lookup ps l pid :
  after_wait ps l !! pid =
    x ← ps !! pid; if decide (pid ∈ l /\ is_child x = true /\ is_Some (exited x)) then None else Some x.
Proof.
  unfold after_wait. rewrite map_lookup_filter. destruct (ps !! pid) as [x|]; cbn; [|done].
  repeat case_decide; simplify_option_eq; try done; tauto.
Qed.

(** One turn of the loop, by the verdict on the process. *)
Lemma wait_pid_verdict pid ps r :
  wait_pid pid (ps, r) =
    match verdict ps pid with
    | Some v => (match v with Some _ => delete pid ps | None => ps end, notify pid v r)
    | None => (ps, r)
    end.
Proof.
  unfold wait_pid, waitpid, verdict, os_exists.
  destruct (ps !! pid) as [[[] [st|]]|] eqn:Hp; cbn; try done;
    [rewrite bool_decide_true by eauto; done..|]. by rewrite Hp, bool_decide_false by (by intros [? ?]).
Qed.

(** The states between two turns: the processes [l] have been looked at. *)
Record waited (ps : procs) (r : Reaper) (l : list Z) (ps' : procs) (r' : Reaper) : Prop := mkWaited {
  waited_procs : ps' = after_wait ps l;
  waited_promises : promises r' = filter (fun p => p.1 ∈ l -> verdict ps p.1 = None) (promises r);
  waited_results pid i : (pid, i) ∈ promises r ->
    results r' !! i = match verdict ps pid with
                      | Some v => if decide (pid ∈ l) then Some v else results r !! i
                      | None => results r !! i
                      end;
  waited_others i : i ∉ (promises r).*2 -> results r' !! i = results r !! i;
  waited_asked : asked r' = asked r;
}.

Lemma unique_promise (l : list (Z * nat)) p q i : NoDup l.*2 -> (p, i) ∈ l -> (q, i) ∈ l -> p = q.
Proof.
  intros Hd Hp Hq. apply list_elem_of_lookup in Hp as [a Ha]. apply list_elem_of_lookup in Hq as [b Hb].
  assert (Hab : a = b).
  { eapply (NoDup_lookup l.*2 a b i Hd); rewrite list_lookup_fmap; [by rewrite Ha|by rewrite Hb]. }
  congruence.
Qed.

Lemma wait_turn ps r l k ps1 r1 :
  NoDup (promises r).*2 -> k ∉ l -> waited ps r l ps1 r1 ->
  waited ps r (k :: l) (wait_pid k (ps1, r1)).1 (wait_pid k (ps1, r1)).2.
Proof.
  intros Hd Hk [H1 H2 H3 H4 H5]. rewrite wait_pid_verdict.
  assert (Hpk : ps1 !! k = ps !! k).
  { rewrite H1, after_wait_lookup. destruct (ps !! k); cbn; [|done]. rewrite decide_False; [done|naive_solver]. }
  assert (Hv : verdict ps1 k = verdict ps k) by (unfold verdict; by rewrite Hpk). rewrite Hv.
  assert (Hin : forall pid i, (pid, i) ∈ promises r1 <-> (pid, i) ∈ promises r /\ (pid ∈ l -> verdict ps pid = None)).
  { intros pid i. rewrite H2, list_elem_of_filter. cbn. tauto. }
  destruct (verdict ps k) as [v|] eqn:Hvk; cbn [fst snd].
  - constructor; cbn [notify promises results asked].
    + destruct v as [st|]; rewrite H1; apply map_eq; intros pid.
      * destruct (decide (pid = k)) as [->|Hne].
        { rewrite lookup_delete_eq, after_wait_lookup. unfold verdict in Hvk.
          destruct (ps !! k) as [[[] [st'|]]|]; cbn; try done. rewrite decide_True; [done|].
          split; [by left|eauto]. }
        rewrite lookup_delete_ne, !after_wait_lookup by done. destruct (ps !! pid); cbn; [|done].
        apply decide_ext. rewrite elem_of_cons. tauto.
      * rewrite !after_wait_lookup. unfold verdict in Hvk.
        destruct (decide (pid = k)) as [->|Hne]; [by destruct (ps !! k) as [[[] [?|]]|]|].
        destruct (ps !! pid); cbn; [|done]. apply decide_ext. rewrite elem_of_cons. tauto.
    + rewrite H2, list_filter_filter. apply list_filter_iff. intros [pid i]. cbn. rewrite elem_of_cons.
      split; [intros [Hne Hl] [->|?]; auto; done|]. intros Hl. split; [|auto]. intros ->. rewrite Hl in Hvk; auto. done.
    + intros pid i Hpi. rewrite results_notify.
      assert (Hmem : i ∈ (filter (fun p => p.1 = k) (promises r1)).*2 <-> pid = k).
      { rewrite list_elem_of_fmap. split.
        - intros ([q j] & Hj & [Hq Hqin]%list_elem_of_filter). cbn in *. subst. apply Hin in Hqin as [Hqin _].
          by eapply unique_promise.
        - intros ->. exists (k, i). split; [done|]. apply list_elem_of_filter. split; [done|]. apply Hin. done. }
      destruct (decide (pid = k)) as [->|Hne].
      * rewrite decide_True by by apply Hmem. rewrite Hvk, decide_True; [done|by left].
      * rewrite decide_False by (by rewrite Hmem). rewrite (H3 pid i Hpi).
        destruct (verdict ps pid); [|done]. apply decide_ext. rewrite elem_of_cons. tauto.
    + intros i Hi. rewrite results_notify, decide_False; [by apply H4|].
      rewrite list_elem_of_fmap. intros ([q j] & Hj & [_ Hqin]%list_elem_of_filter). cbn in *. subst.
      apply Hin in Hqin as [Hqin _]. apply Hi, list_elem_of_fmap. by exists (q, j).
    + done.
  - constructor; try done.
    + rewrite H1. apply map_eq. intros pid. rewrite !after_wait_lookup. unfold verdict in Hvk.
      destruct (ps !! pid) as [x|] eqn:Hx; cbn; [|done].
      apply decide_ext. rewrite elem_of_cons. split; [tauto|]. intros ([->|Hc1] & Hc2 & Hc3); [|tauto].
      rewrite Hx in Hvk. destruct x as [[] [st|]]; cbn in *; try done.
    + rewrite H2. apply list_filter_iff. intros [pid i]. cbn. rewrite elem_of_cons.
      split; [intros Hl [->|?]; auto|auto].
    + intros pid i Hpi. rewrite (H3 pid i Hpi). destruct (verdict ps pid) eqn:Hvp; [|done].
      apply decide_ext. rewrite elem_of_cons. split; [tauto|]. intros [->|]; [congruence|done].
Qed.

Lemma wait_loop ps r l : NoDup (promises r).*2 -> NoDup l -> waited ps r l (foldr wait_pid (ps, r) l).1 (foldr wait_pid (ps, r) l).2.
Proof.
  intros Hd. induction 1 as [|k l Hk Hl IH].
  - constructor; cbn; try done.
    + apply map_eq. intros pid. rewrite after_wait_lookup. destruct (ps !! pid); cbn; [|done].
      rewrite decide_False; [done|]. intros [?%not_elem_of_nil _]. done.
    + symmetry. apply filter_all. apply Forall_forall. intros p _ ?%not_elem_of_nil. done.
    + intros pid i _. by destruct (verdict ps pid).
  - cbn. destruct (foldr wait_pid (ps, r) l) as [ps1 r1]. by apply wait_turn.
Qed.

(** ** Executions *)

Inductive event :=
| Spawn (pid : Z) (child : bool)       (* a new process, also under a number used before *)
| Exit (pid : Z) (status : Z)
| Vanish (pid : Z)                     (* a process that is not our child is reaped by its parent *)
| Reap (pid : Z)
| Wait.

Definition step_event (e : event) (s : procs * Reaper) : option (procs * Reaper) :=
  let '(ps, r) := s in
  match e with
  | Spawn pid c => match ps !! pid with None => Some (<[pid := mkProc c None]> ps, r) | Some _ => None end
  | Exit pid st => match ps !! pid with Some (mkProc c None) => Some (<[pid := mkProc c (Some st)]> ps, r) | _ => None end
  | Vanish pid => match ps !! pid with Some (mkProc false (Some _)) => Some (delete pid ps, r) | _ => None end
  | Reap pid => Some (ps, reap pid ps r)
  | Wait => Some (wait (ps, r))
  end.

Definition reap_step (s s' : procs * Reaper) : Prop := exists e, step_event e s = Some s'.
Definition reap_initial : procs * Reaper := (∅, mkReaper [] ∅ []).
Definition reap_reachable (s : procs * Reaper) : Prop := steps reap_step reap_initial s.

(** Every call has a promise that is either pending or set. *)
Record reaper_ok (r : Reaper) : Prop := mkReaperOk {
  ok_unique : NoDup (promises r).*2;
  ok_pending pid i : (pid, i) ∈ promises r -> asked r !! i = Some pid /\ results r !! i = None;
  ok_set i v : results r !! i = Some v -> i < length (asked r);
  ok_all i pid : asked r !! i = Some pid -> is_Some (results r !! i) \/ (pid, i) ∈ promises r;
}.

Lemma keys_elem r pid i : (pid, i) ∈ promises r -> pid ∈ keys r.
Proof. intros Hp. unfold keys. apply elem_of_remove_dups, list_elem_of_fmap. by exists (pid, i). Qed.

Lemma reap_ok pid ps r : reaper_ok r -> reaper_ok (reap pid ps r).
Proof.
  intros [H1 H2 H3 H4]. unfold reap. destruct (os_exists pid ps); constructor; cbn.
  - rewrite fmap_app. apply NoDup_app. split_and!; [done| |apply NoDup_singleton].
    intros n Hn. cbn. intros ->%list_elem_of_singleton. apply list_elem_of_fmap in Hn as ([q j] & Hj & Hq). cbn in Hj. subst.
    destruct (H2 q _ Hq) as [Ha _]. apply lookup_lt_Some in Ha. lia.
  - intros q i. rewrite elem_of_app, list_elem_of_singleton. intros [Hq|[= -> ->]].
    + destruct (H2 q i Hq) as [Ha Hr]. split; [by apply lookup_app_l_Some|done].
    + split; [by rewrite lookup_app_r, Nat.sub_diag by lia|].
      destruct (results r !! length (asked r)) eqn:Hr; [|done]. apply H3 in Hr. lia.
  - intros i v Hv. rewrite length_app. cbn. apply H3 in Hv. lia.
  - intros i q. rewrite lookup_app_Some. rewrite elem_of_app. intros [Ha|[Hlen Ha]].
    + destruct (H4 i q Ha); auto.
    + apply list_lookup_singleton_Some in Ha as [Hi ->]. right; right.
      assert (i = length (asked r)) as -> by lia. by left.
  - done.
  - intros q i Hq. destruct (H2 q i Hq) as [Ha Hr]. split; [by apply lookup_app_l_Some|].
    apply lookup_lt_Some in Ha. by rewrite lookup_insert_ne by lia.
  - intros i v. rewrite length_app. cbn. intros [[<- _]|[_ Hv]]%lookup_insert_Some; [lia|]. apply H3 in Hv. lia.
  - intros i q. rewrite lookup_app_Some. intros [Ha|[Hlen Ha]].
    + destruct (H4 i q Ha) as [Hr|]; [left|by right]. destruct (decide (i = length (asked r))) as [->|];
        [rewrite lookup_insert_eq; eauto|by rewrite lookup_insert_ne].
    + apply list_lookup_singleton_Some in Ha as [Hi ->]. left.
      assert (i = length (asked r)) as -> by lia. rewrite lookup_insert_eq. eauto.
Qed.

Lemma wait_waited ps r : reaper_ok r -> waited ps r (keys r) (wait (ps, r)).1 (wait (ps, r)).2.
Proof. intros [H1 _ _ _]. apply wait_loop; [done|]. apply NoDup_remove_dups. Qed.

Lemma wait_ok ps r : reaper_ok r -> reaper_ok (wait (ps, r)).2.
Proof.
  intros Hok. destruct (wait_waited ps r Hok) as [W1 W2 W3 W4 W5]. destruct Hok as [H1 H2 H3 H4].
  set (r' := (wait (ps, r)).2) in *.
  assert (Hin : forall pid i, (pid, i) ∈ promises r' <-> (pid, i) ∈ promises r /\ verdict ps pid = None).
  { intros pid i. rewrite W2, list_elem_of_filter. cbn. split; [|tauto].
    intros [Hv Hp]. split; [done|]. apply Hv. by eapply keys_elem. }
  constructor.
  - rewrite W2. eapply sublist_NoDup; [exact H1|]. apply fmap_sublist, sublist_filter.
  - intros pid i [Hp Hv]%Hin. rewrite W5, (W3 pid i Hp), Hv. by apply H2.
  - intros i v Hv. rewrite W5. destruct (decide (i ∈ (promises r).*2)) as [Hi|Hi]; [|rewrite W4 in Hv by done; eauto].
    apply list_elem_of_fmap in Hi as ([q j] & -> & Hq). destruct (H2 q j Hq) as [Ha _]. by apply lookup_lt_Some in Ha.
  - intros i pid. rewrite W5. intros Ha. destruct (H4 i pid Ha) as [Hr|Hp].
    + left. rewrite W4; [done|]. intros ([q j] & -> & Hq)%list_elem_of_fmap. cbn in *.
      destruct (H2 q j Hq) as [_ Hn]. rewrite Hn in Hr. by destruct Hr.
    + destruct (verdict ps pid) eqn:Hv; [left|right; by apply Hin]. rewrite (W3 pid i Hp), Hv.
      rewrite decide_True; [eauto|by eapply keys_elem].
Qed.

Lemma reachable_reaper_ok s : reap_reachable s -> reaper_ok s.2.
Proof.
  intros Hr. eapply (steps_invariant _ (fun s => reaper_ok s.2)); [|exact Hr|].
  - intros [ps r] b Ha [e He]. cbn in Ha. destruct e; cbn in He.
    1-3: repeat case_match; simplify_eq; done.
    + simplify_eq. by apply reap_ok.
    + injection He as <-. by apply wait_ok.
  - constructor; cbn; try done; [constructor|by intros pid i ?%not_elem_of_nil].
Qed.

(** Every call of [reap] is answered at most once and never forgotten: its promise is
    pending or set, not both.  The next turn of the reaper answers those whose process has
    exited and is our child, with its status, and those whose process is gone, with [None],
    all callers of one process alike; the others stay pending, and no process is reaped that
    nobody asked for. *)
Theorem reaper_answers ps r i pid :
  reap_reachable (ps, r) -> asked r !! i = Some pid ->
  (is_Some (results r !! i) <-> (pid, i) ∉ promises r) /\
  ((pid, i) ∈ promises r ->
     results (wait (ps, r)).2 !! i = match verdict ps pid with Some v => Some v | None => None end /\
     ((pid, i) ∈ promises (wait (ps, r)).2 <-> verdict ps pid = None)) /\
  (wait (ps, r)).1 = after_wait ps (keys r).
Proof.
  intros Hr Ha. pose proof (reachable_reaper_ok _ Hr) as Hok. cbn in Hok.
  destruct (wait_waited ps r Hok) as [W1 W2 W3 W4 W5]. destruct Hok as [H1 H2 H3 H4].
  split_and!; [|intros Hp; split|done].
  - split; [|destruct (H4 i pid Ha); tauto]. intros [v Hv] Hp. destruct (H2 pid i Hp). congruence.
  - rewrite (W3 pid i Hp). destruct (H2 pid i Hp) as [_ ->]. destruct (verdict ps pid); [|done].
    rewrite decide_True; [done|by eapply keys_elem].
  - rewrite W2, list_elem_of_filter. cbn. split; [|tauto]. intros [Hv _]. apply Hv. by eapply keys_elem.
Qed.

(** The time between two turns is between its bounds, which it reaches with few and with
    many promises, and does not shrink when there are more promises. *)
Theorem interval_bounded `{Scaling} c d :
  (MIN_REAP_INTERVAL <= interval c <= MAX_REAP_INTERVAL)%Z /\
  interval LOW_PID_COUNT = MIN_REAP_INTERVAL /\ interval HIGH_PID_COUNT = MAX_REAP_INTERVAL /\
  ((c <= d)%Z -> (interval c <= interval d)%Z).
Proof.
  assert (Hc : (MIN_REAP_INTERVAL = 100000000)%Z /\ (MAX_REAP_INTERVAL = 1000000000)%Z /\
    (LOW_PID_COUNT = 50)%Z /\ (HIGH_PID_COUNT = 500)%Z) by done.
  unfold interval. destruct Hc as (-> & -> & -> & ->).
  pose proof (scale_zero (1000000000 - 100000000) (500 - 50) ltac:(lia)) as H0.
  pose proof (scale_one (1000000000 - 100000000) (500 - 50) ltac:(lia)) as H1.
  assert (Hm : forall n n', (0 <= n <= n')%Z -> (n' <= 450)%Z ->
    (scale (1000000000 - 100000000) n (500 - 50) <= scale (1000000000 - 100000000) n' (500 - 50))%Z)
    by (intros; apply scale_mono; lia).
  pose proof (Hm 0%Z (c - 50)%Z). pose proof (Hm (c - 50)%Z 450%Z). pose proof (Hm 0%Z (d - 50)%Z).
  pose proof (Hm (d - 50)%Z 450%Z). pose proof (Hm (c - 50)%Z (d - 50)%Z).
  change (500 - 50)%Z with 450%Z in *.
  split; [|split; [done|split; [done|]]];
    destruct (c <=? 50)%Z eqn:E1, (500 <=? c)%Z eqn:E2, (d <=? 50)%Z eqn:E3, (500 <=? d)%Z eqn:E4; bool_cases; lia.
Qed.

(** Exact scaling. *)
#[local] Instance Exact : Scaling.
Proof.
  refine {| scale d n m := (d * n / m)%Z |}.
  - intros. apply Z.div_le_mono; nia.
  - intros. by rewrite Z.mul_0_r.
  - intros. rewrite Z.div_mul; lia.
Defined.

Lemma interval_bounded_witness : (MIN_REAP_INTERVAL <= interval 275 <= MAX_REAP_INTERVAL)%Z /\ interval 275 = 550000000%Z.
Proof. split; [apply (interval_bounded 275 275)|by vm_compute]. Defined.

Fixpoint reap_play (es : list event) (s : procs * Reaper) : option (procs * Reaper) :=
  match es with [] => Some s | e :: es => s ← step_event e s; reap_play es s end.

Lemma reap_play_reachable es s s' : reap_play es s = Some s' -> reap_reachable s -> reap_reachable s'.
Proof.
  revert s. induction es as [|e es IH]; intros s Hp Hr; cbn [reap_play] in Hp; [by simplify_eq|].
  apply bind_Some in Hp as (s1 & H1 & H2). apply (IH s1 H2). eapply steps_trans; [exact Hr|].
  apply steps_one. by exists e.
Qed.

(** Two callers wait for a child and one for another process; the child exits. *)
Definition waiting : procs * Reaper :=
  default reap_initial (reap_play [Spawn 10 true; Spawn 20 false; Reap 10; Reap 20; Wait; Reap 10; Exit 10 7] reap_initial).

Lemma reaper_answers_witness :
  results (wait (waiting.1, waiting.2)).2 !! 0 = Some (Some 7%Z) /\ results (wait waiting).2 !! 2 = Some (Some 7%Z).
Proof.
  assert (Hr : reap_reachable (waiting.1, waiting.2)).
  { apply (reap_play_reachable [Spawn 10 true; Spawn 20 false; Reap 10; Reap 20; Wait; Reap 10; Exit 10 7] reap_initial);
      [by vm_compute|apply steps_refl]. }
  split; [|by vm_compute].
  destruct (reaper_answers waiting.1 waiting.2 0 10%Z Hr) as (_ & Ha & _); [by vm_compute|].
  destruct Ha as [-> _]; [|by vm_compute].
  apply (bool_decide_eq_true ((10%Z, 0) ∈ promises waiting.2)). by vm_compute.
Defined.

(** A number that is used again before the next turn: whoever waited for a process that was
    not our child is told the status of a child that got its number. *)
Example reused_pid :
  (fun s => results s.2 !! 0) <$>
    reap_play [Spawn 10 false; Reap 10; Exit 10 1; Vanish 10; Spawn 10 true; Exit 10 9; Wait] reap_initial
  = Some (Some (Some 9%Z)).
Proof. by vm_compute. Qed.
