(* ===== verification/Jwt.v ===== *)
(** JSON web tokens ([jwt.cpp]) and the wrappers of OpenSSL that sign them
    ([ssl/utilities.cpp]).

    JSON, base64, splitting of strings and the primitives of OpenSSL are not part of this
    repository: they are operations of classes, whose laws are sentences of their
    documentation. *)

From Stdlib Require Import Ascii String.
From stdpp Require Import pretty.
From S2P Require Import Prelude HttpCodec HttpText.

Local Open Scope string_scope.
Local Open Scope nat_scope.

(** ** What comes from outside *)

(** [Result<T>] of stout. *)
Inductive result (A : Type) := Found (a : A) | NotFound | FindError (message : string).
Arguments Found {A} a.
Arguments NotFound {A}.
Arguments FindError {A} message.

(** [strings::split] with one delimiter: the pieces between its occurrences. *)
Class SplitLaws `{Stout} := {
  split_joined sep ts :
    ts <> [] -> Forall (fun t => mem sep t = false) ts ->
    split (joined (String sep "") ts) (String sep "") = ts;
  split_pieces sep s :
    joined (String sep "") (split s (String sep "")) = s /\
    Forall (fun t => mem sep t = false) (split s (String sep ""));
}.

(** The base64 functions of stout; [encode_url_safe] is called without padding. *)
Class Base64 := {
  base64_encode : string -> string;
  base64_decode : string -> Try string;
  encode_url_safe : string -> string;
  decode_url_safe : string -> Try string;
}.
Class Base64Laws `{Base64} := {
  base64_roundtrip s : base64_decode (base64_encode s) = Some_ s;
  base64_no_space s : mem " " (base64_encode s) = false;
  url_safe_roundtrip s : decode_url_safe (encode_url_safe s) = Some_ s;
  url_safe_alphabet s : mem "." (encode_url_safe s) = false /\ mem " " (encode_url_safe s) = false;
}.

(** Values and objects of stout's JSON. *)
Class Json := {
  Value : Type;
  as_string : Value -> option string;   (* [is<JSON::String>()], [as<JSON::String>().value] *)
  as_int64 : Value -> option Z;         (* [is<JSON::Number>()], [as<int64_t>()] *)
  json_string : string -> Value;
  stringify_value : Value -> string;
  stringify_object : gmap string Value -> string;
  parse_object : string -> Try (gmap string Value);
  find : gmap string Value -> string -> result Value;
}.
(** A path that is one name. *)
Definition plain (k : string) : Prop := mem "." k = false /\ mem "[" k = false.
Class JsonLaws `{Json} := {
  as_string_json s : as_string (json_string s) = Some s;
  find_string o k v s : plain k -> o !! k = Some v -> as_string v = Some s -> find o k = Found v;
  find_number o k v n : plain k -> o !! k = Some v -> as_int64 v = Some n -> find o k = Found v;
  find_absent o k : plain k -> o !! k = None -> find o k = NotFound;
  parse_strings (m : gmap string string) :
    parse_object (stringify_object (json_string <$> m)) = Some_ (json_string <$> m);
}.

(** The primitives of OpenSSL: [None] is a failure, for which [ERR_reason_error_string] may
    know the reason. *)
Class OpenSSL := {
  RSA : Type;
  HMAC_sha256 : string -> string -> option string;     (* key, message *)
  SHA256 : string -> string;
  RSA_sign : string -> RSA -> option string;
  RSA_verify : string -> string -> RSA -> bool;
  reason : option string;
}.

(** What one key signs the other verifies. *)
Definition key_pair `{OpenSSL} (private public : RSA) : Prop :=
  forall hash signature, RSA_sign hash private = Some signature -> RSA_verify hash signature public = true.

(** ** [ssl/utilities.cpp] *)

Section Signing.
Context `{OpenSSL}.

Definition because : string := match reason with Some r => ": " +:+ r | None => "" end.

Definition generate_hmac_sha256 (message key : string) : Try string :=
  match HMAC_sha256 key message with
  | None => Error ("HMAC failed" +:+ because)
  | Some buffer => Some_ buffer
  end.

Definition sign_rsa_sha256 (message : string) (private_key : RSA) : Try string :=
  match RSA_sign (SHA256 message) private_key with
  | None => Error ("Failed to sign the message" +:+ because)
  | Some signature => Some_ signature
  end.

Definition verify_rsa_sha256 (message signature : string) (public_key : RSA) : Try unit :=
  if RSA_verify (SHA256 message) signature public_key then Some_ ()
  else Error ("Failed to verify message signature" +:+ because).
End Signing.

(** ** [constantTimeEquals] *)

(** A [char] is signed and promoted to [int]; [unsigned] has 32 bits. *)
Definition char_int (c : ascii) : Z :=
  let n := Z.of_nat (nat_of_ascii c) in if (n <? 128)%Z then n else (n - 256)%Z.
Definition to_unsigned (z : Z) : Z := (z mod 2 ^ 32)%Z.

Fixpoint differences (valid : Z) (l r : string) : Z :=
  match l, r with
  | String a l, String b r =>
      differences (Z.lor valid (to_unsigned (Z.lxor (char_int a) (char_int b)))) l r
  | _, _ => valid
  end.

Definition constantTimeEquals (l r : string) : bool :=
  if negb (String.length l =? String.length r) then false
  else (differences 0 l r =? 0)%Z.

(** ** Tokens *)

Inductive Alg := AlgNone | HS256 | RS256.
#[global] Instance Alg_eq_dec : EqDecision Alg.
Proof. solve_decision. Defined.

Record JwtHeader := mkHeader { alg : Alg; typ : option string }.

Inductive JWTErrorType := INVALID_TOKEN | UNKNOWN.
Record JWTError := mkJWTError { jwt_message : string; error_type : JWTErrorType }.

Section Tokens.
Context `{Stout, Base64, Json, OpenSSL}.

Record JWT := mkJWT { header : JwtHeader; payload : gmap string Value; signature : option string }.

(** [decode]. *)
Definition decode_component (component : string) : Try (gmap string Value) :=
  match decode_url_safe component with
  | Error e => Error ("Failed to base64url-decode: " +:+ e)
  | Some_ decoded =>
      match parse_object decoded with
      | Error e => Error ("Failed to parse into JSON: " +:+ e)
      | Some_ json => Some_ json
      end
  end.

Definition parse_alg (alg_value : string) : Try Alg :=
  if decide (alg_value = "none") then Some_ AlgNone
  else if decide (alg_value = "HS256") then Some_ HS256
  else if decide (alg_value = "RS256") then Some_ RS256
  else Error ("Unsupported token algorithm: " +:+ alg_value).

Definition parse_typ (header : gmap string Value) : Try (option string) :=
  match find header "typ" with
  | Found v =>
      match as_string v with
      | None => Error "Token 'typ' is not a string"
      | Some s => Some_ (Some s)
      end
  | _ => Some_ None
  end.

Definition parse_header (component : string) : Try JwtHeader :=
  match decode_component component with
  | Error e => Error ("Failed to decode token header: " +:+ e)
  | Some_ header =>
      match parse_typ header with
      | Error e => Error e
      | Some_ typ =>
          match find header "alg" with
          | NotFound => Error "Failed to locate 'alg' in token JSON header"
          | FindError e => Error ("Error when extracting 'alg' field from token JSON header: " +:+ e)
          | Found v =>
              match as_string v with
              | None => Error "Token 'alg' field is not a string"
              | Some s =>
                  match parse_alg s with
                  | Error e => Error e
                  | Some_ alg =>
                      match find header "crit" with
                      | Found _ => Error "Token 'crit' field is unsupported"
                      | _ => Some_ (mkHeader alg typ)
                      end
                  end
              end
          end
      end
  end.

(** [now] is [Clock::now().secs()]. *)
Definition parse_payload (now : Z) (component : string) : Try (gmap string Value) :=
  match decode_component component with
  | Error e => Error ("Failed to decode token payload: " +:+ e)
  | Some_ payload =>
      match find payload "exp" with
      | FindError e => Error ("Error when extracting 'exp' field from token JSON payload: " +:+ e)
      | NotFound => Some_ payload
      | Found v =>
          match as_int64 v with
          | None => Error "JSON payload 'exp' field is not a number"
          | Some exp => 
              if (exp <? now)%Z
              then Error ("Token has expired: exp(" +:+ pretty exp +:+ ") < now(" +:+ pretty now +:+ ")")
              else Some_ payload
          end
      end
  end.

(** In double quotes. *)
Definition quoted (s : string) : string := String (ascii_of_nat 34) (s +:+ String (ascii_of_nat 34) "").

Definition Alg_string (a : Alg) : string :=
  match a with AlgNone => "none" | HS256 => "HS256" | RS256 => "RS256" end.

Definition invalid {A} (m : string) : A + JWTError := inr (mkJWTError m INVALID_TOKEN).

(** What the three functions [JWT::parse] have in common: the components, the header with the
    algorithm that is expected, and the payload; [k] looks at the signature. *)
Definition parse_with (expected : Alg) (now : Z) (token : string)
    (k : string -> string -> JwtHeader -> gmap string Value -> JWT + JWTError) : JWT + JWTError :=
  match split token "." with
  | [c0; c1; c2] =>
      match parse_header c0 with
      | Error e => invalid e
      | Some_ header =>
          if decide (alg header = expected) then
            match parse_payload now c1 with
            | Error e => invalid e
            | Some_ payload => k (c0 +:+ "." +:+ c1) c2 header payload
            end
          else invalid ("Token 'alg' value " +:+ quoted (Alg_string (alg header)) +:+
                        " does not match, expected " +:+ quoted (Alg_string expected))
      end
  | components => invalid ("Expected 3 components in token, got " +:+ pretty (length components))
  end.

(** [JWT::parse(token)]. *)
Definition parse_unsecured (now : Z) (token : string) : JWT + JWTError :=
  parse_with AlgNone now token (fun _ c2 header payload =>
    if decide (c2 = "") then inl (mkJWT header payload None)
    else invalid "Unsecured JWT contains a signature").

(** [JWT::parse(token, secret)]. *)
Definition parse_secret (now : Z) (token secret : string) : JWT + JWTError :=
  parse_with HS256 now token (fun message c2 header payload =>
    match decode_url_safe c2 with
    | Error e => invalid ("Failed to base64url-decode token signature: " +:+ e)
    | Some_ signature =>
        match generate_hmac_sha256 message secret with
        | Error e => inr (mkJWTError ("Failed to generate HMAC signature: " +:+ e) UNKNOWN)
        | Some_ hmac =>
            if constantTimeEquals hmac signature then inl (mkJWT header payload (Some signature))
            else invalid "Token signature does not match"
        end
    end).

(** [JWT::parse(token, publicKey)]. *)
Definition parse_rsa (now : Z) (token : string) (publicKey : option RSA) : checked (JWT + JWTError) :=
  match publicKey with
  | None => Abort "'publicKey.get()' Must be non NULL"
  | Some publicKey =>
      Returns (parse_with RS256 now token (fun message c2 header payload =>
        match decode_url_safe c2 with
        | Error e => invalid ("Failed to base64url-decode token signature: " +:+ e)
        | Some_ signature =>
            match verify_rsa_sha256 message signature publicKey with
            | Error e => invalid ("Failed to verify token: " +:+ e)
            | Some_ _ => inl (mkJWT header payload (Some signature))
            end
        end))
  end.

(** [operator<<] of a header. *)
Definition header_object (h : JwtHeader) : gmap string Value :=
  let json := {["alg" := json_string (Alg_string (alg h))]} in
  match typ h with
  | Some t => <["typ" := json_string t]> json
  | None => json
  end.
Definition header_string (h : JwtHeader) : string := stringify_object (header_object h).

(** The part of a token that is signed. *)
Definition message_of (h : JwtHeader) (payload : gmap string Value) : string :=
  encode_url_safe (header_string h) +:+ "." +:+ encode_url_safe (stringify_object payload).

(** [JWT::create]. *)
Definition create_unsecured (payload : gmap string Value) : JWT + JWTError :=
  inl (mkJWT (mkHeader AlgNone (Some "JWT")) payload None).

Definition create_secret (payload : gmap string Value) (secret : string) : JWT + JWTError :=
  let header := mkHeader HS256 (Some "JWT") in
  match generate_hmac_sha256 (message_of header payload) secret with
  | Error e => inr (mkJWTError ("Failed to generate HMAC signature: " +:+ e) UNKNOWN)
  | Some_ hmac => inl (mkJWT header payload (Some (encode_url_safe hmac)))
  end.

Definition create_rsa (payload : gmap string Value) (privateKey : option RSA) : checked (JWT + JWTError) :=
  match privateKey with
  | None => Abort "'privateKey.get()' Must be non NULL"
  | Some privateKey =>
      let header := mkHeader RS256 (Some "JWT") in
      Returns
        match sign_rsa_sha256 (message_of header payload) privateKey with
        | Error e => inr (mkJWTError ("Failed to generate RSA signature: " +:+ e) UNKNOWN)
        | Some_ signature => inl (mkJWT header payload (Some (encode_url_safe signature)))
        end
  end.

(** [operator<<] of a token. *)
Definition print (jwt : JWT) : string :=
  encode_url_safe (header_string (header jwt)) +:+ "." +:+
  encode_url_safe (stringify_object (payload jwt)) +:+ "." +:+
  match signature jwt with Some s => s | None => "" end.
End Tokens.
