(* ===== verification/JwtSpec.v ===== *)
(** Properties of JSON web tokens. *)

From Stdlib Require Import Ascii String.
From stdpp Require Import pretty.
From S2P Require Import Prelude HttpCodec HttpText HttpTextSpec HttpTextWitness Jwt.

Local Open Scope string_scope.
Local Open Scope nat_scope.

(** ** Comparing strings *)

Definition byte_difference (a b : ascii) : Z := to_unsigned (Z.lxor (char_int a) (char_int b)).

Definition all_bytes : list ascii := map ascii_of_nat (seq 0 256).

Lemma all_bytes_elem c : In c all_bytes.
Proof.
  rewrite <- (ascii_nat_embedding c). apply in_map, in_seq. pose proof (nat_ascii_bounded c). lia.
Qed.

Lemma byte_difference_zero a b : byte_difference a b = 0%Z <-> a = b.
Proof.
  assert (Hall : forallb (fun a => forallb (fun b => Bool.eqb (byte_difference a b =? 0)%Z (Ascii.eqb a b)) all_bytes) all_bytes = true)
    by (vm_compute; reflexivity).
  rewrite forallb_forall in Hall. specialize (Hall a (all_bytes_elem a)). rewrite forallb_forall in Hall.
  specialize (Hall b (all_bytes_elem b)). apply Bool.eqb_prop in Hall.
  rewrite <- Z.eqb_eq, Hall. apply Ascii.eqb_eq.
Qed.

Lemma differences_zero l r v :
  String.length l = String.length r -> differences v l r = 0%Z <-> v = 0%Z /\ l = r.
Proof.
  revert r v. induction l as [|a l IH]; intros [|b r] v Hl; cbn in *; [naive_solver|done..|].
  rewrite IH by lia. fold (byte_difference a b). rewrite Z.lor_eq_0_iff, byte_difference_zero. naive_solver.
Qed.

(** [constantTimeEquals], which looks at every byte of strings of one length and collects
    the differences, is equality of strings. *)
Theorem constant_time_equality l r : constantTimeEquals l r = bool_decide (l = r).
Proof.
  unfold constantTimeEquals. destruct (String.length l =? String.length r) eqn:Hl; cbn.
  - apply Nat.eqb_eq in Hl. apply Bool.eq_iff_eq_true. rewrite Z.eqb_eq, bool_decide_eq_true, differences_zero by done. naive_solver.
  - apply Nat.eqb_neq in Hl. symmetry. apply bool_decide_eq_false. congruence.
Qed.

Lemma constantTimeEquals_spec l r : constantTimeEquals l r = true <-> l = r.
Proof.
  unfold constantTimeEquals. destruct (String.length l =? String.length r) eqn:Hl; cbn.
  - apply Nat.eqb_eq in Hl. rewrite Z.eqb_eq, differences_zero by done. naive_solver.
  - apply Nat.eqb_neq in Hl. split; [done|congruence].
Qed.

(** ** What is accepted *)

Section Spec.
Context `{SplitLaws, Base64Laws, JsonLaws, OpenSSL}.

Lemma split_spec sep s ts :
  ts <> [] ->
  split s (String sep "") = ts <->
  s = joined (String sep "") ts /\ Forall (fun t => mem sep t = false) ts.
Proof.
  intros Hne. split; [intros <-; destruct (split_pieces sep s) as [? ?]; done|].
  intros [-> Hf]. by apply split_joined.
Qed.

(** A component that is a JSON object in base64. *)
Definition encodes (c : string) (o : gmap string Value) : Prop :=
  exists s, decode_url_safe c = Some_ s /\ parse_object s = Some_ o.

Lemma decode_component_spec c o : decode_component c = Some_ o <-> encodes c o.
Proof.
  unfold decode_component, encodes.
  destruct (decode_url_safe c) as [s|]; [destruct (parse_object s) as [x|] eqn:Hp|]; split.
  all: try done; try (intros (? & ? & ?); congruence). intros [= <-]. eauto.
Qed.

(** The header of RFC 7515 as far as it is supported: an algorithm, perhaps a type, and
    nothing critical. *)
Record valid_header (o : gmap string Value) (h : JwtHeader) : Prop := mkValidHeader {
  header_alg : exists v, find o "alg" = Found v /\ as_string v = Some (Alg_string (alg h));
  header_typ : match typ h with
               | Some t => exists v, find o "typ" = Found v /\ as_string v = Some t
               | None => forall v, find o "typ" <> Found v
               end;
  header_crit v : find o "crit" <> Found v;
}.

Lemma parse_alg_spec s a : parse_alg s = Some_ a <-> s = Alg_string a.
Proof. unfold parse_alg. repeat case_decide; destruct a; cbn; naive_solver. Qed.

Lemma parse_typ_spec o t :
  parse_typ o = Some_ t <->
  match t with
  | Some t => exists v, find o "typ" = Found v /\ as_string v = Some t
  | None => forall v, find o "typ" <> Found v
  end.
Proof.
  unfold parse_typ. destruct (find o "typ") as [v| |]; [destruct (as_string v) eqn:Hv|..]; destruct t; naive_solver.
Qed.

Lemma parse_header_spec c h : parse_header c = Some_ h <-> exists o, encodes c o /\ valid_header o h.
Proof.
  split.
  - unfold parse_header. destruct (decode_component c) as [o|] eqn:Hc; [|done]. apply decode_component_spec in Hc.
    destruct (parse_typ o) as [t|] eqn:Ht; [|done]. apply parse_typ_spec in Ht.
    destruct (find o "alg") as [v| |] eqn:Ha; try done. destruct (as_string v) as [s|] eqn:Hv; [|done].
    destruct (parse_alg s) as [a|] eqn:Hs; [|done]. apply parse_alg_spec in Hs as ->. intros Hr.
    exists o. split; [done|]. destruct (find o "crit") eqn:Hcr; simplify_eq; constructor; try done; try congruence; eauto.
  - intros (o & Hc%decode_component_spec & [(v & Hf & Hv) Ht Hcr]). unfold parse_header. rewrite Hc.
    apply (parse_typ_spec o (typ h)) in Ht. rewrite Ht, Hf, Hv.
    assert (Ha : parse_alg (Alg_string (alg h)) = Some_ (alg h)) by (by apply parse_alg_spec). rewrite Ha.
    destruct (find o "crit") eqn:Hcrit; [by destruct (Hcr a)|destruct h; done..].
Qed.

(** The only claim that is checked. *)
Definition unexpired (now : Z) (o : gmap string Value) : Prop :=
  find o "exp" = NotFound \/ exists v e, find o "exp" = Found v /\ as_int64 v = Some e /\ (now <= e)%Z.

Lemma parse_payload_spec now c o : parse_payload now c = Some_ o <-> encodes c o /\ unexpired now o.
Proof.
  rewrite <- decode_component_spec. unfold parse_payload, unexpired.
  destruct (decode_component c) as [o'|]; [|by split; [|intros [? _]]].
  destruct (find o' "exp") as [v| |m] eqn:Hf.
  - destruct (as_int64 v) as [e|] eqn:He; [destruct (e <? now)%Z eqn:Hlt; bool_cases|].
    + split; [done|]. intros [[= ->] [?|(v' & e' & Hv & He' & Hle)]]; [congruence|].
      assert (v' = v) as -> by congruence. assert (e' = e) as -> by congruence. lia.
    + split; [|by intros [[= ->] _]]. intros [= ->]. split; [done|right]. eauto.
    + split; [done|]. intros [[= ->] [?|(? & ? & ? & ? & ?)]]; congruence.
  - split; [|by intros [[= ->] _]]. intros [= ->]. auto.
  - split; [done|]. intros [[= ->] [?|(? & ? & ? & ? & ?)]]; congruence.
Qed.

(** A token of three components, of which the first two are signed. *)
Record well_formed (expected : Alg) (now : Z) (token : string) (h : JwtHeader) (p : gmap string Value)
    (message sig : string) : Prop := mkWellFormed {
  wf_token : token = message +:+ "." +:+ sig;
  wf_parts : exists c0 c1 o, message = c0 +:+ "." +:+ c1 /\ mem "." c0 = false /\ mem "." c1 = false /\
    encodes c0 o /\ valid_header o h /\ encodes c1 p;
  wf_signature : mem "." sig = false;
  wf_alg : alg h = expected;
  wf_exp : unexpired now p;
}.

Lemma parse_with_spec e now token k j :
  parse_with e now token k = inl j <->
  exists h p message sig, well_formed e now token h p message sig /\ k message sig h p = inl j.
Proof.
  unfold parse_with. split.
  - destruct (split token ".") as [|c0 [|c1 [|c2 [|]]]] eqn:Hs; try done.
    apply split_spec in Hs as [-> Hf]; [|done]. rewrite !Forall_cons in Hf. destruct Hf as (H0' & H1' & H2' & _).
    destruct (parse_header c0) as [h|] eqn:Hh; [|done]. apply parse_header_spec in Hh as (o & Ho & Hv).
    case_decide as Ha; [|done]. destruct (parse_payload now c1) as [p|] eqn:Hp; [|done].
    apply parse_payload_spec in Hp as [Hp He]. intros Hk. exists h, p, (c0 +:+ "." +:+ c1), c2. split; [|done].
    constructor; try done; [|exists c0, c1, o; done]. cbn [joined]. by rewrite !append_assoc.
  - intros (h & p & message & sig & [-> (c0 & c1 & o & -> & Hc0 & Hc1 & Ho & Hv & Hp) Hsig Ha He] & Hk).
    assert (Hs : split ((c0 +:+ "." +:+ c1) +:+ "." +:+ sig) "." = [c0; c1; sig]).
    { apply split_spec; [done|]. split; [cbn [joined]; by rewrite !append_assoc|by repeat constructor]. }
    rewrite Hs. assert (Hh : parse_header c0 = Some_ h) by (apply parse_header_spec; eauto). rewrite Hh, decide_True by done.
    assert (Hq : parse_payload now c1 = Some_ p) by (by apply parse_payload_spec). by rewrite Hq.
Qed.

Lemma parse_secret_spec now token secret jwt :
  parse_secret now token secret = inl jwt <->
  exists message sig s, well_formed HS256 now token (header jwt) (payload jwt) message sig /\
    decode_url_safe sig = Some_ s /\ HMAC_sha256 secret message = Some s /\ signature jwt = Some s.
Proof.
  unfold parse_secret. rewrite parse_with_spec. split.
  - intros (h & p & message & sig & Hw & Hk). destruct (decode_url_safe sig) as [s|] eqn:Hd; [|done].
    unfold generate_hmac_sha256 in Hk. destruct (HMAC_sha256 secret message) as [m|] eqn:Hm; [|done].
    destruct (constantTimeEquals m s) eqn:He; [|done]. apply constantTimeEquals_spec in He as ->. simplify_eq.
    exists message, sig, s. done.
  - intros (message & sig & s & Hw & Hd & Hm & Hs). exists (header jwt), (payload jwt), message, sig. split; [done|].
    unfold generate_hmac_sha256. rewrite Hd, Hm. assert (He : constantTimeEquals s s = true) by (by apply constantTimeEquals_spec).
    rewrite He. destruct jwt; cbn in *. by rewrite Hs.
Qed.

(** C27: a token is accepted with a secret exactly when it has three components, its header asks
    for HS256 and for nothing critical, its payload has not expired, and its signature is the
    HMAC of the first two components; the token that is returned is what was signed. *)
Theorem signed_tokens_are_genuine now token secret jwt :
  parse_secret now token secret = inl jwt <->
  exists message sig s, well_formed HS256 now token (header jwt) (payload jwt) message sig /\
    decode_url_safe sig = Some_ s /\ HMAC_sha256 secret message = Some s /\ signature jwt = Some s.
Proof. apply parse_secret_spec. Qed.

Lemma Alg_string_inj a b : Alg_string a = Alg_string b -> a = b.
Proof. by destruct a, b. Qed.

Lemma well_formed_alg e1 e2 now1 now2 token h1 h2 p1 p2 m1 m2 s1 s2 :
  well_formed e1 now1 token h1 p1 m1 s1 -> well_formed e2 now2 token h2 p2 m2 s2 -> e1 = e2 /\ h1 = h2 /\ p1 = p2.
Proof.
  intros [Ht1 (a0 & a1 & o1 & -> & Ha0 & Ha1 & Ho1 & Hv1 & Hp1) Hs1 <- _] [Ht2 (b0 & b1 & o2 & -> & Hb0 & Hb1 & Ho2 & Hv2 & Hp2) Hs2 <- _].
  assert (Hl : [a0; a1; s1] = [b0; b1; s2]).
  { transitivity (split token "."); [symmetry|]; apply split_spec; try done; split; try (by repeat constructor); cbn [joined].
    - rewrite Ht1. by rewrite !append_assoc.
    - rewrite Ht2. by rewrite !append_assoc. }
  injection Hl as <- <- <-. unfold encodes in *.
  destruct Ho1 as (x & Hx & Hox), Ho2 as (y & Hy & Hoy), Hp1 as (z & Hz & Hpz), Hp2 as (u & Hu & Hpu).
  assert (y = x) as -> by congruence. assert (u = z) as -> by congruence.
  assert (o2 = o1) as -> by congruence. assert (p2 = p1) as -> by congruence. destruct Hv1 as [(v1 & Hf1 & Hv1) Ht1' _], Hv2 as [(v2 & Hf2 & Hv2) Ht2' _].
  assert (Hah : alg h1 = alg h2) by (apply Alg_string_inj; congruence). split; [done|]. split; [|done].
  destruct h1 as [a1' t1], h2 as [a2' t2]; cbn in *. subst. f_equal.
  destruct t1, t2; try done.
  - destruct Ht1' as (w1 & Hw1 & Hs1'), Ht2' as (w2 & Hw2 & Hs2'). congruence.
  - destruct Ht1' as (w1 & Hw1 & _). by destruct (Ht2' w1).
  - destruct Ht2' as (w2 & Hw2 & _). by destruct (Ht1' w2).
Qed.

Lemma parse_with_alg e1 e2 now1 now2 token k1 k2 j1 j2 :
  parse_with e1 now1 token k1 = inl j1 -> parse_with e2 now2 token k2 = inl j2 -> e1 = e2.
Proof.
  intros (h & p & m & s & Ha & _)%parse_with_spec (h' & p' & m' & s' & Hb & _)%parse_with_spec.
  by destruct (well_formed_alg _ _ _ _ _ _ _ _ _ _ _ _ _ Ha Hb) as [? _].
Qed.

(** The algorithm of a token decides which of the three ways of parsing can accept it: an
    unsecured token is never accepted where a signature is expected, nor a token with one kind
    of signature where the other is expected. *)
Theorem algorithms_not_confused now now' token secret key j1 j2 j3 :
  ~ (parse_unsecured now token = inl j1 /\ parse_secret now' token secret = inl j2) /\
  ~ (parse_unsecured now token = inl j1 /\ parse_rsa now' token key = Returns (inl j3)) /\
  ~ (parse_secret now token secret = inl j2 /\ parse_rsa now' token key = Returns (inl j3)).
Proof.
  assert (Hr : parse_rsa now' token key = Returns (inl j3) -> exists k, parse_with RS256 now' token k = inl j3)
    by (unfold parse_rsa; destruct key; [intros [= Hk]; eauto|done]).
  split_and!; intros [Ha Hb]; try (apply Hr in Hb as [k Hb]);
    by pose proof (parse_with_alg _ _ _ _ _ _ _ _ _ Ha Hb).
Qed.

(** ** Round trips *)

Lemma plain_names : plain "alg" /\ plain "typ" /\ plain "crit" /\ plain "exp".
Proof. unfold plain. by vm_compute. Qed.

Definition header_strings (h : JwtHeader) : gmap string string :=
  match typ h with
  | Some t => <["typ" := t]> {["alg" := Alg_string (alg h)]}
  | None => {["alg" := Alg_string (alg h)]}
  end.

Lemma header_object_strings h : header_object h = json_string <$> header_strings h.
Proof. unfold header_object, header_strings. destruct (typ h); by rewrite ?fmap_insert, map_fmap_singleton. Qed.

Lemma header_lookup h k :
  header_object h !! k = if decide (k = "alg") then Some (json_string (Alg_string (alg h)))
                         else if decide (k = "typ") then json_string <$> typ h else None.
Proof.
  unfold header_object. destruct (typ h) as [t|]; repeat case_decide; simplify_map_eq; done.
Qed.

Lemma header_object_valid h : valid_header (header_object h) h.
Proof.
  destruct plain_names as (Pa & Pt & Pc & _). constructor.
  - exists (json_string (Alg_string (alg h))). rewrite as_string_json. split; [|done].
    eapply find_string; [done|by rewrite header_lookup|apply as_string_json].
  - destruct (typ h) as [t|] eqn:Ht.
    + exists (json_string t). rewrite as_string_json. split; [|done].
      eapply find_string; [done|by rewrite header_lookup, Ht|apply as_string_json].
    + intros v. rewrite find_absent; [done|done|]. by rewrite header_lookup, Ht.
  - intros v. rewrite find_absent; [done|done|]. by rewrite header_lookup.
Qed.

Lemma header_string_encodes h : encodes (encode_url_safe (header_string h)) (header_object h).
Proof.
  exists (header_string h). split; [apply url_safe_roundtrip|]. unfold header_string.
  rewrite header_object_strings. apply parse_strings.
Qed.

(** The payload survives printing. *)
Definition printable (p : gmap string Value) : Prop := parse_object (stringify_object p) = Some_ p.

Lemma printed_well_formed now h p s :
  printable p -> unexpired now p -> mem "." s = false ->
  well_formed (alg h) now (message_of h p +:+ "." +:+ s) h p (message_of h p) s.
Proof.
  intros Hp He Hs. constructor; try done.
  exists (encode_url_safe (header_string h)), (encode_url_safe (stringify_object p)), (header_object h).
  destruct (url_safe_alphabet (header_string h)) as [? _], (url_safe_alphabet (stringify_object p)) as [? _].
  split_and!; try done; [apply header_string_encodes|apply header_object_valid|].
  exists (stringify_object p). split; [apply url_safe_roundtrip|done].
Qed.

Lemma print_message h p s :
  print (mkJWT h p s) = message_of h p +:+ "." +:+ match s with Some s => s | None => "" end.
Proof. unfold print, message_of. cbn. by rewrite !append_assoc. Qed.

Lemma created_parses now p secret j :
  printable p -> unexpired now p -> create_secret p secret = inl j ->
  exists s, parse_secret now (print j) secret = inl (mkJWT (header j) p (Some s)) /\
    signature j = Some (encode_url_safe s) /\ payload j = p.
Proof.
  intros Hp He. unfold create_secret, generate_hmac_sha256.
  destruct (HMAC_sha256 secret _) as [s|] eqn:Hm; [|done]. intros [= <-]. exists s. split; [|done]. cbn.
  unfold parse_secret. apply parse_with_spec. rewrite print_message.
  eexists _, _, _, _. split; [by apply (printed_well_formed now (mkHeader HS256 (Some "JWT"))), url_safe_alphabet|].
  cbn beta. rewrite url_safe_roundtrip. unfold generate_hmac_sha256. rewrite Hm.
  assert (Hs : constantTimeEquals s s = true) by (by apply constantTimeEquals_spec). by rewrite Hs.
Qed.

(** A token that was created, printed and parsed with the same secret, or with the public
    key of the private one, or unsecured, has the same header and the same payload, as long as
    it has not expired; its signature is the raw one, where the created token has it in
    base64. *)
Theorem jwt_roundtrip now p secret private public :
  printable p -> unexpired now p -> key_pair private public ->
  (exists j, create_unsecured p = inl j /\ parse_unsecured now (print j) = inl j) /\
  (forall j, create_secret p secret = inl j ->
     exists s, parse_secret now (print j) secret = inl (mkJWT (header j) p (Some s)) /\
       signature j = Some (encode_url_safe s) /\ payload j = p) /\
  (forall j, create_rsa p (Some private) = Returns (inl j) ->
     exists s, parse_rsa now (print j) (Some public) = Returns (inl (mkJWT (header j) p (Some s))) /\
       signature j = Some (encode_url_safe s) /\ payload j = p).
Proof.
  intros Hp He Hk. split_and!.
  - eexists. split; [done|]. unfold parse_unsecured. apply parse_with_spec. rewrite print_message.
    eexists _, _, _, _. split; [by apply (printed_well_formed now (mkHeader AlgNone (Some "JWT")))|done].
  - intros j. by apply created_parses.
  - intros j. unfold create_rsa, sign_rsa_sha256. destruct (RSA_sign _ private) as [s|] eqn:Hm; [|done].
    intros [= <-]. exists s. split; [|done]. unfold parse_rsa. f_equal. apply parse_with_spec. rewrite print_message. cbn [header].
    eexists _, _, _, _. split; [by apply (printed_well_formed now (mkHeader RS256 (Some "JWT"))), url_safe_alphabet|].
    cbn beta. rewrite url_safe_roundtrip. unfold verify_rsa_sha256. by rewrite (Hk _ _ Hm).
Qed.
End Spec.
