(* ===== verification/Authenticators.v ===== *)
(** The basic authenticator and the authenticator of JSON web tokens ([authenticator.cpp],
    [jwt_authenticator.cpp]) behind the interface [Authenticator], and how the manager of the
    authenticators ([Routing.v]) sees them. *)

From Stdlib Require Import Ascii String.
From stdpp Require Import pretty.
From S2P Require Import Prelude HttpCodec HttpText HttpTextSpec Decoders HttpConnection Routing Jwt JwtSpec.

Local Open Scope string_scope.
Local Open Scope nat_scope.

(** [Authenticator]; [now] is the time of the clock, in seconds. *)
Class Authenticator (A : Type) := {
  authenticate_request : A -> Z -> Request -> completion AuthenticationResult;
  scheme : A -> string;
}.

(** What [AuthenticatorManagerProcess::authenticate] expects: exactly one member is set, and a
    principal has a value or claims. *)
Definition proper (x : AuthenticationResult) : Prop :=
  is_set (principal x) + is_set (unauthorized x) + is_set (forbidden x) = 1 /\
  forall p, principal x = Some p -> is_Some (principal_value p) \/ claims p <> ∅.

Class AuthenticatorLaws (A : Type) `{Authenticator A} := {
  results_proper a now r x : authenticate_request a now r = IsReady x -> proper x;
}.

Definition authenticated (p : Principal) : AuthenticationResult := mkAuthentication (Some p) None None.

Section Authenticators.
Context `{SplitLaws, Base64Laws, JsonLaws, OpenSSL}.

(** [Unauthorized(challenges)]. *)
Definition Unauthorized (challenges : list string) : Response :=
  let r := Response_of_body "401 Unauthorized." 401 in
  set_res_headers (header_set "WWW-Authenticate" (join ", " challenges) (res_headers r)) r.

Definition challenge (c : string) : AuthenticationResult := mkAuthentication None (Some (Unauthorized [c])) None.

(** ** The basic scheme *)

Record BasicAuthenticatorProcess := mkBasic { basic_realm : string; credentials : gmap string string }.

(** [BasicAuthenticatorProcess::authenticate]. *)
Definition basic_authenticate (a : BasicAuthenticatorProcess) (r : Request) : AuthenticationResult :=
  let unauthorized := challenge ("Basic realm=" +:+ quoted (basic_realm a)) in
  match header_get "Authorization" (req_headers r) with
  | None => unauthorized
  | Some header =>
      match split header " " with
      | [c0; c1] =>
          if decide (c0 = "Basic") then
            match base64_decode c1 with
            | Error _ => unauthorized
            | Some_ decoded =>
                match split decoded ":" with
                | [user; password] =>
                    match credentials a !! user with
                    | Some p =>
                        if decide (p = password) then authenticated (mkPrincipal (Some user) ∅) else unauthorized
                    | None => unauthorized
                    end
                | _ => unauthorized
                end
            end
          else unauthorized
      | _ => unauthorized
      end
  end.

#[global] Instance Basic : Authenticator BasicAuthenticatorProcess := {|
  authenticate_request a _ r := IsReady (basic_authenticate a r);
  scheme _ := "Basic";
|}.

(** ** Tokens *)

Record JWTAuthenticatorProcess := mkJWTAuthenticator { jwt_realm : string; secret : string }.

(** The claims of the principal. *)
Definition claim_of (v : Value) : string := match as_string v with Some s => s | None => stringify_value v end.
Definition claims_of (p : gmap string Value) : gmap string string := claim_of <$> p.

Definition bearer (a : JWTAuthenticatorProcess) (error : option string) : AuthenticationResult :=
  challenge ("Bearer realm=" +:+ quoted (jwt_realm a) +:+
    match error with
    | None => ""
    | Some e => ", error=" +:+ quoted "invalid_token" +:+ ", error_description=" +:+ quoted e
    end).

(** [JWTAuthenticatorProcess::authenticate]. *)
Definition jwt_authenticate (a : JWTAuthenticatorProcess) (now : Z) (r : Request) : completion AuthenticationResult :=
  match header_get "Authorization" (req_headers r) with
  | None => IsReady (bearer a None)
  | Some header =>
      match split header " " with
      | [c0; token] =>
          if decide (c0 = "Bearer") then
            match parse_secret now token (secret a) with
            | inr e =>
                match error_type e with
                | INVALID_TOKEN => IsReady (bearer a (Some ("Invalid JWT: " +:+ jwt_message e)))
                | UNKNOWN => IsFailed (jwt_message e)
                end
            | inl jwt =>
                if decide (payload jwt = ∅) then IsReady (bearer a (Some "JWT claims missing"))
                else IsReady (authenticated (mkPrincipal None (claims_of (payload jwt))))
            end
          else IsReady (bearer a (Some ("Scheme '" +:+ c0 +:+ "' unsupported")))
      | _ => IsReady (bearer a (Some "Malformed 'Authorization' header"))
      end
  end.

#[global] Instance Bearer : Authenticator JWTAuthenticatorProcess := {|
  authenticate_request := jwt_authenticate;
  scheme _ := "Bearer";
|}.

(** ** Properties *)

Lemma challenge_proper c : proper (challenge c).
Proof. by split. Qed.

Lemma authenticated_proper p : is_Some (principal_value p) \/ claims p <> ∅ -> proper (authenticated p).
Proof. intros Hp. split; [done|]. by intros q [= <-]. Qed.

#[global] Instance BasicLaws : AuthenticatorLaws BasicAuthenticatorProcess.
Proof.
  constructor. intros a now r x [= <-]. unfold basic_authenticate.
  repeat (case_match; try apply challenge_proper). apply authenticated_proper. eauto.
Qed.

Lemma claims_of_empty p : claims_of p = ∅ -> p = ∅.
Proof. unfold claims_of. by intros ?%fmap_empty_inv. Qed.

#[global] Instance BearerLaws : AuthenticatorLaws JWTAuthenticatorProcess.
Proof.
  constructor. intros a now r x Hx. cbn in Hx. unfold jwt_authenticate in Hx.
  repeat case_match; try done; injection Hx as <-; try apply challenge_proper.
  apply authenticated_proper. right. by intros ?%claims_of_empty.
Qed.

(** The manager of the authenticators takes every result of an authenticator that satisfies
    the interface as it is: it never reports an ill-formed result. *)
Lemma manager_accepts_results {A} `{AuthenticatorLaws A} (a : A) now m r realm :
  authenticate (setAuthenticator realm (authenticate_request a now) m) r realm =
  and_then (authenticate_request a now r) (fun x => IsReady (Some x)).
Proof.
  unfold authenticate, setAuthenticator, Authenticators in *. rewrite (lookup_insert_eq (M := gmap string)).
  destruct (authenticate_request a now r) as [x| |] eqn:Hx; [|done..]. cbn [and_then].
  destruct (results_proper _ _ _ _ Hx) as [Hone Hp]. rewrite Hone. cbn [Nat.eqb].
  destruct (principal x) as [[[v|] cs]|] eqn:Hpr; try done.
  case_decide as Hc; [|done]. destruct (Hp _ eq_refl) as [[? ?]|Hne]; done.
Qed.

Lemma split_two sep s a b :
  split s (String sep "") = [a; b] <-> s = a +:+ String sep b /\ mem sep a = false /\ mem sep b = false.
Proof.
  rewrite split_spec by done. rewrite !Forall_cons. cbn [joined]. split; [intros (-> & ? & ? & _)|intros (-> & ? & ?)]; done.
Qed.

(** A request that carries these credentials. *)
Definition carries (r : Request) (user password : string) : Prop :=
  exists c, header_get "Authorization" (req_headers r) = Some ("Basic " +:+ c) /\ mem " " c = false /\
    base64_decode c = Some_ (user +:+ ":" +:+ password) /\ mem ":" user = false /\ mem ":" password = false.

Lemma basic_spec a r p :
  basic_authenticate a r = authenticated p <->
  exists user password, p = mkPrincipal (Some user) ∅ /\ carries r user password /\ credentials a !! user = Some password.
Proof.
  unfold basic_authenticate, carries. split.
  - destruct (header_get _ _) as [header|] eqn:Hh; [|done]. destruct (split header " ") as [|c0 [|c1 [|]]] eqn:Hs; try done.
    apply split_two in Hs as (-> & H0' & H1'). case_decide as Hb; [|done]. subst c0.
    destruct (base64_decode c1) as [d|] eqn:Hd; [|done]. destruct (split d ":") as [|u [|w [|]]] eqn:Hs; try done.
    apply split_two in Hs as (-> & Hu & Hw). destruct (credentials a !! u) as [w'|] eqn:Hc; [|done].
    case_decide; [|done]. subst w'. intros [= <-]. exists u, w. split; [done|]. split; [|done]. by exists c1.
  - intros (u & w & -> & (c & -> & Hc & Hd & Hu & Hw) & Hcr).
    assert (Hs : split ("Basic " +:+ c) " " = ["Basic"; c]) by (by apply split_two). rewrite Hs, decide_True by done.
    rewrite Hd. assert (Hs' : split (u +:+ ":" +:+ w) ":" = [u; w]) by (by apply split_two). by rewrite Hs', Hcr, decide_True.
Qed.

(** The basic authenticator gives a principal exactly to requests whose header carries a
    name and the password that is stored for it, and answers all others with the same
    challenge of its realm; the header that a client makes of credentials without a colon is
    accepted. *)
Theorem basic_authenticates_exactly a r :
  (forall p, basic_authenticate a r = authenticated p <->
     exists user password, p = mkPrincipal (Some user) ∅ /\ carries r user password /\ credentials a !! user = Some password) /\
  ((exists p, basic_authenticate a r = authenticated p) \/
   basic_authenticate a r = challenge ("Basic realm=" +:+ quoted (basic_realm a))) /\
  (forall user password, mem ":" user = false -> mem ":" password = false ->
     header_get "Authorization" (req_headers r) = Some ("Basic " +:+ base64_encode (user +:+ ":" +:+ password)) ->
     carries r user password).
Proof.
  split; [intros; apply basic_spec|]. split.
  - unfold basic_authenticate. repeat (case_match; try by right). left. eauto.
  - intros u w Hu Hw Hh. eexists. split; [exact Hh|]. rewrite base64_roundtrip. split_and!; try done. apply base64_no_space.
Qed.

(** Nobody is authenticated whose stored password has a colon, although RFC 7617 allows
    colons in passwords: the credentials are split at every colon. *)
Theorem colon_in_password_locks_out a user password r p :
  credentials a !! user = Some password -> mem ":" password = true ->
  basic_authenticate a r = authenticated p -> principal_value p <> Some user.
Proof.
  intros Hc Hm (u & w & -> & (c & _ & _ & _ & _ & Hw) & Hcr)%basic_spec [= ->]. congruence.
Qed.

Lemma created_no_space p k j : create_secret p k = inl j -> mem " " (print j) = false.
Proof.
  unfold create_secret. destruct (generate_hmac_sha256 _ k); [|done]. intros [= <-]. unfold print. cbn.
  rewrite !mem_append, !(proj2 (url_safe_alphabet _)). done.
Qed.

(** Whoever presents a token that was made with the secret of the authenticator, before it
    expires, is authenticated with the claims of its payload; and only tokens with a genuine
    signature are: a principal of the authenticator has the claims of a payload that was signed
    with the secret. *)
Theorem tokens_authenticate a now r :
  (forall p j, printable p -> unexpired now p -> p <> ∅ -> create_secret p (secret a) = inl j ->
     header_get "Authorization" (req_headers r) = Some ("Bearer " +:+ print j) ->
     jwt_authenticate a now r = IsReady (authenticated (mkPrincipal None (claims_of p)))) /\
  (forall pr, jwt_authenticate a now r = IsReady (authenticated pr) ->
     exists token h p message sig s,
       header_get "Authorization" (req_headers r) = Some ("Bearer " +:+ token) /\
       well_formed HS256 now token h p message sig /\ decode_url_safe sig = Some_ s /\
       HMAC_sha256 (secret a) message = Some s /\ p <> ∅ /\ pr = mkPrincipal None (claims_of p)).
Proof.
  split.
  - intros p j Hp He Hne Hj Hh. pose proof (created_no_space p (secret a) j Hj) as Hsp. unfold jwt_authenticate. rewrite Hh.
    assert (Hs : split ("Bearer " +:+ print j) " " = ["Bearer"; print j]) by (by apply split_two).
    rewrite Hs, decide_True by done. destruct (created_parses now p (secret a) j Hp He Hj) as (s & Hps & _).
    rewrite Hps. cbn [payload]. by rewrite decide_False.
  - intros pr. unfold jwt_authenticate. destruct (header_get _ _) as [header|] eqn:Hh; [|done].
    destruct (split header " ") as [|c0 [|token [|]]] eqn:Hs; try done. apply split_two in Hs as (-> & _ & _).
    case_decide as Hb; [|done]. subst c0. destruct (parse_secret now token (secret a)) as [jwt|e] eqn:Hps; [|by case_match].
    case_decide as Hne; [done|]. intros [= <-]. apply parse_secret_spec in Hps as (message & sig & s & Hw & Hd & Hm & _).
    eexists token, _, _, _, _, s. done.
Qed.

Lemma and_then_some {X} (x : completion X) y : and_then x (fun x => IsReady (Some x)) = IsReady (Some y) <-> x = IsReady y.
Proof. destruct x; cbn; split; congruence. Qed.

End Authenticators.
