(* ===== verification/JwtWitness.v ===== *)
(** Concrete functions for the classes of [Jwt.v] with a proof of their laws, and the theorems
    on tokens and authenticators at concrete inputs. *)

From Stdlib Require Import Ascii String.
From stdpp Require Import pretty.
From S2P Require Import Prelude HttpCodec HttpText HttpTextSpec HttpTextWitness Decoders HttpConnection Routing Jwt JwtSpec Authenticators.

Local Open Scope string_scope.
Local Open Scope nat_scope.

#[local] Existing Instance stout.

(** ** Splitting *)

Lemma pieces_joined sep ts :
  ts <> [] -> Forall (fun t => mem sep t = false) ts -> pieces (joined (String sep "") ts) (String sep "") = ts.
Proof.
  intros Hne Hf. induction Hf as [|t ts Ht Hts IH]; [done|]. destruct ts as [|u ts].
  - cbn [joined]. by apply pieces_plain, occurs_in_char.
  - change (joined (String sep "") (t :: u :: ts)) with (t +:+ String sep (joined (String sep "") (u :: ts))).
    rewrite pieces_sep, IH; [done|done|by apply occurs_in_char|]. unfold mem. cbn. by rewrite Ascii.eqb_refl.
Qed.

Lemma joined_pieces sep s :
  joined (String sep "") (pieces s (String sep "")) = s /\
  Forall (fun t => mem sep t = false) (pieces s (String sep "")).
Proof.
  induction s as [|c s [IH Hf]]; [by repeat constructor|]. cbn [pieces].
  assert (Hne : pieces s (String sep "") <> []).
  { clear. destruct s; cbn [pieces]; [done|]. case_match; [done|]. by case_match. }
  destruct (mem c (String sep "")) eqn:Hc.
  - assert (c = sep) as ->. { unfold mem in Hc. cbn in Hc. rewrite orb_false_r in Hc. by apply Ascii.eqb_eq in Hc. }
    split; [|by constructor]. destruct (pieces s (String sep "")) as [|p ps] eqn:Hp; [done|].
    cbn [joined] in IH |- *. change ("" +:+ ?x) with x. by rewrite <- IH.
  - destruct (pieces s (String sep "")) as [|p ps] eqn:Hp; [done|]. split.
    + cbn [joined] in IH |- *. rewrite <- IH. by destruct ps.
    + apply Forall_cons in Hf as [Hp0 Hf]. constructor; [|done]. unfold mem in *. cbn in *.
      rewrite orb_false_r in Hc. rewrite Ascii.eqb_sym, Hc. done.
Qed.

#[local] Instance split_laws : SplitLaws.
Proof. constructor; [intros; by apply pieces_joined|intros; apply joined_pieces]. Qed.

(** ** Hexadecimal digits in the place of base64 *)

Definition jwt_hex_digit (n : nat) : ascii := ascii_of_nat (if n <? 10 then 48 + n else 87 + n).
Definition jwt_hex_value (c : ascii) : nat := let n := nat_of_ascii c in if n <? 58 then n - 48 else n - 87.
Fixpoint jwt_hex (s : string) : string :=
  match s with
  | "" => ""
  | String c s => String (jwt_hex_digit (nat_of_ascii c / 16)) (String (jwt_hex_digit (nat_of_ascii c mod 16)) (jwt_hex s))
  end.
Fixpoint unhex (s : string) : Try string :=
  match s with
  | "" => Some_ ""
  | String a (String b s) =>
      match unhex s with Some_ t => Some_ (String (ascii_of_nat (16 * jwt_hex_value a + jwt_hex_value b)) t) | Error e => Error e end
  | _ => Error "odd"
  end.

Lemma hex_byte c :
  ascii_of_nat (16 * jwt_hex_value (jwt_hex_digit (nat_of_ascii c / 16)) + jwt_hex_value (jwt_hex_digit (nat_of_ascii c mod 16))) = c /\
  forallb (fun x => negb (Ascii.eqb x (jwt_hex_digit (nat_of_ascii c / 16))) && negb (Ascii.eqb x (jwt_hex_digit (nat_of_ascii c mod 16)))) ["."%char; " "%char] = true.
Proof.
  assert (Hall : forallb (fun c => Ascii.eqb (ascii_of_nat (16 * jwt_hex_value (jwt_hex_digit (nat_of_ascii c / 16)) + jwt_hex_value (jwt_hex_digit (nat_of_ascii c mod 16)))) c &&
     forallb (fun x => negb (Ascii.eqb x (jwt_hex_digit (nat_of_ascii c / 16))) && negb (Ascii.eqb x (jwt_hex_digit (nat_of_ascii c mod 16)))) ["."%char; " "%char]) all_bytes = true)
    by (vm_compute; reflexivity).
  rewrite forallb_forall in Hall. specialize (Hall c (all_bytes_elem c)). apply andb_true_iff in Hall as [H1 H2].
  apply Ascii.eqb_eq in H1. done.
Qed.

Lemma unhex_hex s : unhex (jwt_hex s) = Some_ s.
Proof. induction s as [|c s IH]; [done|]. cbn [jwt_hex unhex]. rewrite IH. by rewrite (proj1 (hex_byte c)). Qed.

Lemma hex_alphabet x s : In x ["."%char; " "%char] -> mem x (jwt_hex s) = false.
Proof.
  intros Hx. induction s as [|c s IH]; [done|]. cbn [jwt_hex]. pose proof (proj2 (hex_byte c)) as Hb.
  rewrite forallb_forall in Hb. specialize (Hb x Hx). apply andb_true_iff in Hb as [H1 H2]. apply negb_true_iff in H1, H2.
  unfold mem in *. cbn [list_ascii_of_string existsb]. by rewrite H1, H2.
Qed.

#[local] Instance hex_base64 : Base64 := {|
  base64_encode := jwt_hex; base64_decode := unhex; encode_url_safe := jwt_hex; decode_url_safe := unhex |}.
#[local] Instance hex_laws : Base64Laws.
Proof. constructor; intros; try apply unhex_hex; try split; apply hex_alphabet; cbn; auto. Qed.

(** ** JSON with strings and numbers *)

Fixpoint print_bits (p : positive) : string :=
  match p with
  | xH => ""
  | xO p => String "0" (print_bits p)
  | xI p => String "1" (print_bits p)
  end.
Fixpoint parse_bits (s : string) : positive :=
  match s with
  | "" => xH
  | String c s => if Ascii.eqb c "0" then xO (parse_bits s) else xI (parse_bits s)
  end.

Lemma parse_print_bits p : parse_bits (print_bits p) = p.
Proof. induction p; cbn; congruence. Qed.

Definition small_value : Type := string + Z.

#[local] Instance small_json : Json := {|
  Value := small_value;
  as_string v := match v with inl s => Some s | inr _ => None end;
  as_int64 v := match v with inr n => Some n | inl _ => None end;
  json_string := inl;
  stringify_value v := match v with inl s => s | inr n => pretty n end;
  stringify_object o := print_bits (countable.encode o);
  parse_object s := match countable.decode (parse_bits s) with Some o => Some_ o | None => Error "not JSON" end;
  find o k := match o !! k with Some v => Found v | None => NotFound end;
|}.

Lemma small_printable (o : gmap string Value) : printable o.
Proof. unfold printable. cbn. by rewrite parse_print_bits, decode_encode. Qed.

#[local] Instance small_laws : JsonLaws.
Proof.
  constructor.
  - done.
  - intros o k v s _ Ho _. cbn in o, Ho |- *. by rewrite Ho.
  - intros o k v n _ Ho _. cbn in o, Ho |- *. by rewrite Ho.
  - intros o k _ Ho. cbn in o, Ho |- *. by rewrite Ho.
  - intros m. apply small_printable.
Qed.

(** ** Signatures that anybody can forge *)

#[local] Instance toy_openssl : OpenSSL := {|
  RSA := string;
  HMAC_sha256 key message := Some (key +:+ "#" +:+ jwt_hex message);
  SHA256 s := s;
  RSA_sign h k := Some (k +:+ "#" +:+ h);
  RSA_verify h s k := String.eqb s (k +:+ "#" +:+ h);
  reason := None;
|}.

Definition toy_key : RSA := "k".

Lemma toy_pair : key_pair toy_key toy_key.
Proof. intros h s Hs. cbn in *. injection Hs as <-. apply String.eqb_refl. Qed.

(** ** The theorems *)

Definition the_claims : gmap string Value := {["sub" := inl "alice" : Value; "exp" := inr 100%Z : Value]}.

Lemma the_claims_unexpired : unexpired 50 the_claims.
Proof. right. exists (inr 100%Z), 100%Z. split; [by vm_compute|]. split; [done|lia]. Qed.

Definition the_jwt : JWT :=
  mkJWT (mkHeader HS256 (Some "JWT")) the_claims
    (Some (encode_url_safe ("secret" +:+ "#" +:+ jwt_hex (message_of (mkHeader HS256 (Some "JWT")) the_claims)))).
Definition the_token : string := print the_jwt.

Lemma the_jwt_created : create_secret the_claims "secret" = inl the_jwt.
Proof. reflexivity. Qed.

Lemma the_token_accepted : exists jwt, parse_secret 50 the_token "secret" = inl jwt /\ payload jwt = the_claims.
Proof.
  destruct (created_parses 50 the_claims "secret" the_jwt (small_printable _) the_claims_unexpired the_jwt_created)
    as (s & Hp & _). eauto.
Qed.

Lemma jwt_roundtrip_witness :
  exists s, parse_secret 50 (print the_jwt) "secret" = inl (mkJWT (mkHeader HS256 (Some "JWT")) the_claims (Some s)).
Proof.
  destruct (jwt_roundtrip 50 the_claims "secret" toy_key toy_key (small_printable _) the_claims_unexpired toy_pair) as (_ & Hs & _).
  destruct (Hs the_jwt the_jwt_created) as (s & Hp & _). exists s. exact Hp.
Defined.

(** The same token when it has expired, and with another secret. *)
Example expired_token : match parse_secret 101 the_token "secret" with inr e => jwt_message e | inl _ => "" end
  = "Token has expired: exp(100) < now(101)".
Proof. by vm_compute. Qed.

Example other_secret : match parse_secret 50 the_token "other" with inr e => jwt_message e | inl _ => "" end
  = "Token signature does not match".
Proof. by vm_compute. Qed.

(** A token that was parsed is printed with a signature that is not encoded: it is not the
    token that was parsed, and it is not accepted any more. *)
Example parsed_token_prints_differently :
  match parse_secret 50 the_token "secret" with
  | inl j => bool_decide (print j = the_token) || match parse_secret 50 (print j) "secret" with inl _ => true | inr _ => false end
  | inr _ => true
  end = false.
Proof. by vm_compute. Qed.

Lemma signed_tokens_are_genuine_witness :
  exists message sig s jwt, well_formed HS256 50 the_token (header jwt) (payload jwt) message sig /\
    decode_url_safe sig = Some_ s /\ HMAC_sha256 "secret" message = Some s /\ payload jwt = the_claims.
Proof.
  destruct the_token_accepted as (jwt & Hp & Hc).
  destruct (proj1 (signed_tokens_are_genuine 50 the_token "secret" jwt) Hp) as (m & sig & s & Hw & Hd & Hm & _).
  exists m, sig, s, jwt. exact (conj Hw (conj Hd (conj Hm Hc))).
Defined.

Lemma algorithms_not_confused_witness : ~ exists j, parse_unsecured 50 the_token = inl j.
Proof.
  destruct the_token_accepted as (j2 & Hp & _). intros [j Hu]. destruct (algorithms_not_confused 50 50 the_token "secret" None j j2 j2) as [Hn _]. exact (Hn (conj Hu Hp)).
Defined.

Definition with_authorization (v : string) : Request :=
  set_req_headers (header_set "Authorization" v ∅) Request_init.

Definition basic : BasicAuthenticatorProcess := mkBasic "realm" {["alice" := "sesame"; "bob" := "a:b"]}.

Lemma basic_authenticates_exactly_witness :
  basic_authenticate basic (with_authorization ("Basic " +:+ jwt_hex "alice:sesame")) =
    authenticated (mkPrincipal (Some "alice") ∅).
Proof.
  destruct (basic_authenticates_exactly basic (with_authorization ("Basic " +:+ jwt_hex "alice:sesame"))) as (Hiff & _ & Hc).
  apply Hiff. exists "alice", "sesame". split; [done|]. split; [apply Hc; by vm_compute|by vm_compute].
Defined.

Lemma colon_in_password_locks_out_witness :
  mem ":" "a:b" = true /\
  principal_value (mkPrincipal (Some "alice") ∅) <> Some "bob" /\
  basic_authenticate basic (with_authorization ("Basic " +:+ jwt_hex "bob:a:b")) = challenge ("Basic realm=" +:+ quoted "realm").
Proof.
  split; [done|]. split; [|by vm_compute].
  apply (colon_in_password_locks_out basic "bob" "a:b" (with_authorization ("Basic " +:+ jwt_hex "alice:sesame"))); by vm_compute.
Defined.

Lemma tokens_authenticate_witness :
  jwt_authenticate (mkJWTAuthenticator "realm" "secret") 50 (with_authorization ("Bearer " +:+ the_token)) =
    IsReady (authenticated (mkPrincipal None {["sub" := "alice"; "exp" := "100"]})).
Proof.
  destruct (tokens_authenticate (mkJWTAuthenticator "realm" "secret") 50 (with_authorization ("Bearer " +:+ the_token))) as [Ht _].
  rewrite (Ht the_claims the_jwt (small_printable _) the_claims_unexpired); [by vm_compute|by vm_compute|exact the_jwt_created|].
  reflexivity.
Defined.

