(* ===== verification/SslUtilities.v ===== *)
(** Keys and certificates ([ssl/utilities.cpp]): the objects of OpenSSL that the functions
    allocate, hand to each other and free.

    Every call of OpenSSL can fail, as a list of outcomes says; a call on an object that is
    not there any more, and the second freeing of an object, abort. *)

From S2P Require Import Prelude.

(** ** Objects *)

Record ssl := mkSsl {
  objects : gset nat;       (* the objects that somebody has to free *)
  next : nat;
  outcomes : list bool;     (* which of the next calls succeed *)
}.

Definition M (A : Type) : Type := ssl -> checked (Try A * ssl).

Definition ret {A} (a : A) : M A := fun s => Returns (Some_ a, s).
Definition fail {A} (m : string) : M A := fun s => Returns (Error m, s).
Definition bind {A B} (m : M A) (k : A -> M B) : M B := fun s =>
  match m s with
  | Returns (Some_ a, s) => k a s
  | Returns (Error e, s) => Returns (Error e, s)
  | Abort e => Abort e
  end.

Declare Scope ssl_scope.
Delimit Scope ssl_scope with ssl.
Notation "'let*' x ':=' m 'in' k" := (bind m (fun x => k))
  (at level 200, x pattern, m at level 100, k at level 200, right associativity) : ssl_scope.
Notation "m ';;' k" := (bind m (fun _ => k)) (at level 100, k at level 200, right associativity) : ssl_scope.
Local Open Scope ssl_scope.

(** The outcome of the next call. *)
Definition outcome (s : ssl) : bool * ssl :=
  match outcomes s with
  | [] => (true, s)
  | b :: r => (b, mkSsl (objects s) (next s) r)
  end.

(** [EVP_PKEY_free] and the like. *)
Definition free (h : nat) : M unit := fun s =>
  if decide (h ∈ objects s) then Returns (Some_ (), mkSsl (objects s ∖ {[h]}) (next s) (outcomes s))
  else Abort "double free".

(** Ownership passes to another object, which frees this one. *)
Definition give : nat -> M unit := free.

Fixpoint free_all (l : list nat) : M unit :=
  match l with
  | [] => ret ()
  | h :: l => free h ;; free_all l
  end.

(** [X* x = X_new(); if (x == nullptr) { free...; return Error(message); }] *)
Definition new_or (cleanup : list nat) (message : string) : M nat := fun s =>
  let '(b, s) := outcome s in
  if b then Returns (Some_ (next s), mkSsl ({[next s]} ∪ objects s) (S (next s)) (outcomes s))
  else (free_all cleanup ;; fail message) s.

(** [if (call(used...) != 1) { free...; return Error(message); }] *)
Definition call_or (used : list nat) (cleanup : list nat) (message : string) : M unit := fun s =>
  if decide (Forall (fun h => h ∈ objects s) used) then
    let '(b, s) := outcome s in
    if b then Returns (Some_ (), s) else (free_all cleanup ;; fail message) s
  else Abort "use after free".

(** ** [generate_private_rsa_key] *)

Definition generate_private_rsa_key : M nat :=
  let* private_key := new_or [] "Failed to allocate key: EVP_PKEY_new" in
  let* exponent := new_or [private_key] "Failed to allocate exponent: BN_new" in
  call_or [exponent] [exponent; private_key] "Failed to set exponent: BN_set_word" ;;
  let* rsa := new_or [exponent; private_key] "Failed to allocate RSA: RSA_new" in
  call_or [rsa; exponent] [rsa; exponent; private_key] "RSA_generate_key_ex" ;;
  free exponent ;;
  call_or [private_key; rsa] [rsa; private_key] "Failed to assign RSA key: EVP_PKEY_assign_RSA" ;;
  give rsa ;;
  ret private_key.

(** ** [generate_x509] *)

(** What a certificate says; a name is its common name. *)
Record certificate := mkCertificate {
  serial : Z;
  days : Z;
  public_key : nat;
  subject : string;
  issuer : string;
  alternative : option Z;
  signed_with : nat;
}.

(** [net::hostname]; the name of the parent; the IPv4 address, if it is one. *)
Definition generate_x509 (subject_key sign_key : nat) (parent : option (nat * certificate)) (serial days : Z)
    (hostname : option string) (own_hostname : Try string) (ip : option (Try Z)) : M (nat * certificate) :=
  let* issuer_name :=
    match parent with
    | None => if decide (subject_key <> sign_key) then fail "Subject vs signing key mismatch" else ret None
    | Some (x, c) =>
        call_or [x] [] "Failed to get subject name of parent certificate: X509_get_subject_name" ;;
        ret (Some (subject c))
    end in
  let* x509 := new_or [] "Failed to allocate certification: X509_new" in
  call_or [x509] [x509] "Failed to set version: X509_set_version" ;;
  call_or [x509] [x509] "Failed to set serial number: ASN1_INTEGER_set" ;;
  call_or [x509] [x509] "Failed to set valid days of certificate: X509_gmtime_adj" ;;
  call_or [x509; subject_key] [x509] "Failed to set public key: X509_set_pubkey" ;;
  let* hostname :=
    match hostname, own_hostname with
    | Some h, _ => ret h
    | None, Some_ h => ret h
    | None, Error _ => free x509 ;; fail "Failed to determine hostname"
    end in
  call_or [x509] [x509] "Failed to get subject name: X509_get_subject_name" ;;
  call_or [x509] [x509] "Failed to set country code: X509_NAME_add_entry_by_txt" ;;
  call_or [x509] [x509] "Failed to set organization name: X509_NAME_add_entry_by_txt" ;;
  call_or [x509] [x509] "Failed to set common name: X509_NAME_add_entry_by_txt" ;;
  let issuer := default hostname issuer_name in
  call_or [x509] [x509] "Failed to set issuer name: X509_set_issuer_name" ;;
  let* alternative :=
    match ip with
    | None => ret None
    | Some ip =>
        let* alt_name_stack := new_or [x509] "Failed to create a stack: sk_GENERAL_NAME_new_null" in
        let* alt_name := new_or [alt_name_stack; x509] "Failed to create GENERAL_NAME: GENERAL_NAME_new" in
        let* alt_name_str := new_or [alt_name; alt_name_stack; x509] "Failed to create alternative name: ASN1_STRING_new" in
        let* address :=
          match ip with
          | Some_ a => ret a
          | Error _ => free_all [alt_name_str; alt_name; alt_name_stack; x509] ;; fail "Failed to get IP/4 address"
          end in
        call_or [alt_name_str] [alt_name_str; alt_name; alt_name_stack; x509]
          "Failed to set alternative name: ASN1_STRING_set" ;;
        give alt_name_str ;;
        call_or [alt_name_stack; alt_name] [alt_name; alt_name_stack; x509]
          "Failed to push alternative name: sk_GENERAL_NAME_push" ;;
        give alt_name ;;
        call_or [x509; alt_name_stack] [alt_name_stack; x509]
          "Failed to set subject alternative name: X509_add1_ext_i2d" ;;
        free alt_name_stack ;;
        ret (Some address)
    end in
  call_or [x509; sign_key] [x509] "Failed to sign certificate: X509_sign" ;;
  ret (x509, mkCertificate serial days subject_key hostname issuer alternative sign_key).

(** ** Files and keys *)

(** [write_key_file] and [write_certificate_file]: the object is written to a file. *)
Definition write_file (object : nat) (opening writing : string) : M unit :=
  let* file := new_or [] opening in
  call_or [file; object] [file] writing ;;
  free file.
Definition write_key_file (private_key : nat) (path : string) : M unit :=
  write_file private_key ("Failed to open file '" +:+ path +:+ "' for writing")
    ("Failed to write private key to file '" +:+ path +:+ "': PEM_write_PrivateKey").
Definition write_certificate_file (x509 : nat) (path : string) : M unit :=
  write_file x509 ("Failed to open file '" +:+ path +:+ "' for writing")
    ("Failed to write certificate to file '" +:+ path +:+ "': PEM_write_X509").

(** [pem_to_rsa]: the reader allocates the key, and the buffer is freed before its result is
    looked at. *)
Definition pem_to_rsa : M nat :=
  let* bio := new_or [] "Failed to create RSA key bio" in
  let* rsa := new_or [bio] "Failed to create RSA from key bio" in
  free bio ;;
  ret rsa.

(** ** Properties *)

(** The objects of [l] are new since [s0], and there are no others. *)
Record holds (s0 : ssl) (l : list nat) (s : ssl) : Prop := mkHolds {
  h_objects : objects s = list_to_set l ∪ objects s0;
  h_nodup : NoDup l;
  h_new : Forall (fun h => next s0 <= h < next s) l;
  h_old h : h ∈ objects s0 -> h < next s0;
  h_next : next s0 <= next s;
}.

(** From [l], the program ends with an error and nothing left, or with a result and objects
    that satisfy [Q]; it never aborts. *)
Definition spec {A} (s0 : ssl) (l : list nat) (m : M A) (Q : A -> list nat -> Prop) : Prop :=
  forall s, holds s0 l s ->
  match m s with
  | Returns (Some_ a, s') => exists l', Q a l' /\ holds s0 l' s'
  | Returns (Error _, s') => holds s0 [] s'
  | Abort _ => False
  end.

Lemma holds_perm s0 l l' s : l ≡ₚ l' -> holds s0 l s -> holds s0 l' s.
Proof.
  intros Hp [H1 H2 H3 H4 H5]. constructor; try done.
  - rewrite H1. f_equal. by apply list_to_set_perm_L.
  - by rewrite <- Hp.
  - by rewrite <- Hp.
Qed.

Lemma holds_outcome s0 l s b s' : holds s0 l s -> outcome s = (b, s') -> holds s0 l s'.
Proof. unfold outcome. intros [] Ho. destruct (outcomes s); simplify_eq; by constructor. Qed.

Lemma spec_ret {A} s0 l (a : A) (Q : A -> list nat -> Prop) : Q a l -> spec s0 l (ret a) Q.
Proof. intros HQ s Hs. exists l. done. Qed.

Lemma spec_bind {A B} s0 l (m : M A) (k : A -> M B) Q R :
  spec s0 l m Q -> (forall a l', Q a l' -> spec s0 l' (k a) R) -> spec s0 l (bind m k) R.
Proof.
  intros Hm Hk s Hs. unfold bind. specialize (Hm s Hs). destruct (m s) as [[[a|e] s']|e]; [|done..].
  destruct Hm as (l' & HQ & Hh). by apply (Hk a l' HQ).
Qed.

Lemma spec_free s0 l h l' : l ≡ₚ h :: l' -> spec s0 l (free h) (fun _ x => x = l').
Proof.
  intros Hp s Hs%(holds_perm _ _ _ _ Hp). destruct Hs as [H1 H2 H3 H4 H5]. apply NoDup_cons in H2 as [Hn Hd].
  apply Forall_cons in H3 as [Hh H3]. assert (Hold : h ∉ objects s0) by (intros Hx; specialize (H4 h Hx); lia).
  unfold free. rewrite decide_True by set_solver. exists l'. split; [done|]. constructor; try done. cbn.
  rewrite H1. cbn. set_solver.
Qed.

Lemma spec_free_all s0 l l' : l ≡ₚ l' -> spec s0 l (free_all l') (fun _ x => x = []).
Proof.
  revert l. induction l' as [|h l' IH]; intros l Hp; cbn [free_all].
  - apply spec_ret. by apply Permutation_nil_r in Hp.
  - eapply spec_bind; [by apply spec_free|]. intros _ x ->. by apply IH.
Qed.

Lemma spec_cleanup {A} s0 l l' m (Q : A -> list nat -> Prop) : l ≡ₚ l' -> spec s0 l (free_all l' ;; fail m) Q.
Proof. intros Hp. eapply spec_bind; [by apply spec_free_all|]. intros _ x -> s Hs. done. Qed.

Lemma spec_new s0 l c m : l ≡ₚ c -> spec s0 l (new_or c m) (fun h x => x = h :: l).
Proof.
  intros Hp s Hs. unfold new_or. destruct (outcome s) as [b s'] eqn:Ho. pose proof (holds_outcome _ _ _ _ _ Hs Ho) as Hs'.
  destruct b; [|by apply (spec_cleanup _ _ _ _ _ Hp)]. exists (next s' :: l). split; [done|].
  destruct Hs' as [H1 H2 H3 H4 H5]. constructor; cbn.
  - rewrite H1. set_solver.
  - constructor; [|done]. rewrite Forall_forall in H3. intros Hin%H3. lia.
  - constructor; [lia|]. eapply Forall_impl; [exact H3|]. cbn. lia.
  - done.
  - lia.
Qed.

Lemma spec_call s0 l used c m :
  l ≡ₚ c -> Forall (fun h => h ∈ l \/ h ∈ objects s0) used -> spec s0 l (call_or used c m) (fun _ x => x = l).
Proof.
  intros Hp Hu s Hs. unfold call_or. rewrite decide_True.
  2: { rewrite (h_objects _ _ _ Hs). eapply Forall_impl; [exact Hu|]. set_solver. }
  destruct (outcome s) as [b s'] eqn:Ho. pose proof (holds_outcome _ _ _ _ _ Hs Ho) as Hs'.
  destruct b; [by exists l|by apply (spec_cleanup _ _ _ _ _ Hp)].
Qed.

(** One step of a function. *)
Ltac perm_auto := first [reflexivity | apply Permutation_swap].
Ltac used_auto := repeat constructor; set_solver.
Ltac ssl_step :=
  first
  [ eapply spec_bind; [apply spec_new; perm_auto|intros ? ? ->]
  | eapply spec_bind; [apply spec_call; [perm_auto|used_auto]|intros _ ? ->]
  | eapply spec_bind; [eapply spec_free; perm_auto|intros _ ? ->] ].

Lemma key_spec s0 : spec s0 [] generate_private_rsa_key (fun h x => x = [h]).
Proof. unfold generate_private_rsa_key. repeat ssl_step. by apply spec_ret. Qed.

Lemma x509_spec s0 subject_key sign_key parent serial days hostname own ip :
  subject_key ∈ objects s0 -> sign_key ∈ objects s0 -> (forall x, parent = Some x -> x.1 ∈ objects s0) ->
  spec s0 [] (generate_x509 subject_key sign_key parent serial days hostname own ip) (fun r x =>
    x = [r.1] /\ public_key r.2 = subject_key /\ signed_with r.2 = sign_key /\
    (forall h, hostname = Some h -> subject r.2 = h) /\
    issuer r.2 = from_option (fun p => subject p.2) (subject r.2) parent /\
    (parent = None -> subject_key = sign_key) /\
    alternative r.2 = (ip ≫= fun a => match a with Some_ a => Some a | Error _ => None end)).
Proof.
  intros Hsub Hsign Hpar. unfold generate_x509.
  eapply (spec_bind _ _ _ _ (fun i x => x = [] /\ i = (subject ∘ snd) <$> parent /\ (parent = None -> subject_key = sign_key))).
  { destruct parent as [[x c]|].
    - specialize (Hpar _ eq_refl). cbn in Hpar. ssl_step. by apply spec_ret.
    - case_decide as Hk; [by intros s Hs|]. apply spec_ret. split_and!; try done. }
  intros i l (-> & -> & Hself). do 5 ssl_step.
  eapply (spec_bind _ _ _ _ (fun h x => x = [a] /\ forall h', hostname = Some h' -> h = h')).
  { destruct hostname as [h|]; [|destruct own as [h|e]].
    - apply spec_ret. split; [done|]. congruence.
    - by apply spec_ret.
    - ssl_step. by intros s Hs. }
  intros name l (-> & Hname). do 5 ssl_step.
  eapply (spec_bind _ _ _ _ (fun r x => x = [a] /\ r = (ip ≫= fun a => match a with Some_ a => Some a | Error _ => None end))).
  { destruct ip as [ip|]; [|by apply spec_ret]. do 3 ssl_step.
    eapply (spec_bind _ _ _ _ (fun r x => x = [a2; a1; a0; a] /\ ip = Some_ r)).
    - destruct ip; [by apply spec_ret|]. by apply spec_cleanup.
    - intros r l (-> & ->). repeat ssl_step. by apply spec_ret. }
  intros r l (-> & ->). ssl_step. apply spec_ret. cbn. split_and!; try done. by destruct parent.
Qed.

Lemma file_spec s0 h m1 m2 : h ∈ objects s0 -> spec s0 [] (write_file h m1 m2) (fun _ x => x = []).
Proof. intros Hh. unfold write_file. repeat ssl_step. apply (spec_free _ _ a []). done. Qed.

Lemma pem_spec s0 : spec s0 [] pem_to_rsa (fun h x => x = [h]).
Proof. unfold pem_to_rsa. repeat ssl_step. by apply spec_ret. Qed.

(** Nothing is left behind: with an error the objects are those of before, with a result there
    are in addition the new ones that [new] finds in it. *)
Definition balanced {A} (s : ssl) (m : M A) (new : A -> list nat) : Prop :=
  match m s with
  | Returns (Some_ a, s') =>
      objects s' = list_to_set (new a) ∪ objects s /\ Forall (fun h => h ∉ objects s) (new a)
  | Returns (Error _, s') => objects s' = objects s
  | Abort _ => False
  end.

Lemma holds_start s : (forall h, h ∈ objects s -> h < next s) -> holds s [] s.
Proof. intros Hwf. constructor; [set_solver|constructor|constructor|exact Hwf|lia]. Qed.

Lemma spec_balanced {A} s (m : M A) new Q :
  (forall h, h ∈ objects s -> h < next s) -> spec s [] m Q -> (forall a l, Q a l -> l = new a) -> balanced s m new.
Proof.
  intros Hwf Hm HQ. specialize (Hm s (holds_start s Hwf)). unfold balanced. destruct (m s) as [[[a|e] s']|e]; [|by rewrite (h_objects _ _ _ Hm); set_solver|done].
  destruct Hm as (l & HQa & Hh). rewrite <- (HQ _ _ HQa). split; [apply Hh|].
  eapply Forall_impl; [apply Hh|]. intros h [Hn _] Hin. specialize (Hwf h Hin). lia.
Qed.

(** Whichever of the calls of OpenSSL fail, the functions that make keys and certificates,
    read keys and write files use no object after it was freed, free none twice, and leave
    nothing behind but the result that they return. *)
Theorem openssl_objects_balanced s key x509 path :
  (forall h, h ∈ objects s -> h < next s) -> key ∈ objects s -> x509 ∈ objects s ->
  balanced s generate_private_rsa_key (fun h => [h]) /\
  (forall sign_key parent serial days hostname own ip, sign_key ∈ objects s -> (forall x, parent = Some x -> x.1 ∈ objects s) ->
     balanced s (generate_x509 key sign_key parent serial days hostname own ip) (fun r => [r.1])) /\
  balanced s (write_key_file key path) (fun _ => []) /\
  balanced s (write_certificate_file x509 path) (fun _ => []) /\
  balanced s pem_to_rsa (fun h => [h]).
Proof.
  intros Hwf Hk Hx. split_and!.
  - by eapply spec_balanced; [|apply key_spec|].
  - intros. eapply spec_balanced; [done|by apply x509_spec|]. naive_solver.
  - by eapply spec_balanced; [|apply file_spec|].
  - by eapply spec_balanced; [|apply file_spec|].
  - by eapply spec_balanced; [|apply pem_spec|].
Qed.

(** A certificate that was made has the key of its subject, is signed with the signing key,
    has the host name that was asked for, and names its parent as its issuer; without a parent
    it is signed with the key of its subject and names itself. *)
Theorem certificates_say_what_was_asked s key sign_key parent serial days hostname own ip x c s' :
  (forall h, h ∈ objects s -> h < next s) -> key ∈ objects s -> sign_key ∈ objects s ->
  (forall y, parent = Some y -> y.1 ∈ objects s) ->
  generate_x509 key sign_key parent serial days hostname own ip s = Returns (Some_ (x, c), s') ->
  public_key c = key /\ signed_with c = sign_key /\
  (forall h, hostname = Some h -> subject c = h) /\
  issuer c = from_option (fun p => subject p.2) (subject c) parent /\
  (parent = None -> key = sign_key).
Proof.
  intros Hwf Hk Hs Hp Hg. pose proof (x509_spec s key sign_key parent serial days hostname own ip Hk Hs Hp s) as Hx.
  rewrite Hg in Hx. destruct Hx as (l & (_ & H1 & H2 & H3 & H4 & H5 & _) & _); [by apply holds_start|done].
Qed.

(** ** Examples *)

Definition two_objects : ssl := mkSsl {[0; 1]} 2 [true; true; true; false].

Lemma two_objects_wf h : h ∈ objects two_objects -> h < next two_objects.
Proof. cbn. set_solver by lia. Qed.

Lemma two_objects_in h : h < 2 -> h ∈ objects two_objects.
Proof. cbn. destruct h as [|[|]]; [set_solver..|lia]. Qed.

Lemma openssl_objects_balanced_witness :
  balanced two_objects generate_private_rsa_key (fun h => [h]) /\
  generate_private_rsa_key two_objects = Returns (Error "Failed to allocate RSA: RSA_new", mkSsl {[0; 1]} 4 []).
Proof.
  split; [|by vm_compute].
  apply (openssl_objects_balanced two_objects 0 1 "path"); [exact two_objects_wf|apply two_objects_in; lia..].
Defined.

Lemma certificates_say_what_was_asked_witness :
  public_key (mkCertificate 1 365 0 "host" "host" (Some 7%Z) 0) = 0.
Proof.
  destruct (certificates_say_what_was_asked (mkSsl {[0; 1]} 2 []) 0 0 None 1 365 (Some "host") (Error "no") (Some (Some_ 7%Z)) 2
    (mkCertificate 1 365 0 "host" "host" (Some 7%Z) 0) (mkSsl {[0; 1; 2]} 6 [])) as [Hp _].
  - exact two_objects_wf.
  - apply two_objects_in; lia.
  - apply two_objects_in; lia.
  - done.
  - by vm_compute.
  - exact Hp.
Defined.
