(* ===== verification/TlsSocket.v ===== *)
(** Sockets with TLS ([posix/libevent/libevent_ssl_socket.cpp]).

    A socket has a buffer of libevent ([bufferevent]) and at most one request to connect, to
    receive and to send.  Calls of the user put a request in its place and a function into the
    queue of the event loop ([run_in_event_loop], [posix/libevent/libevent.cpp]); the thread of
    the event loop runs these functions in order and, between them, the callbacks of libevent.
    A step is one call, one function of the queue, one callback, or one thing that happens on
    the network; a call of [connect], which looks at the socket without the lock, takes several
    steps, so that two of them can be under way at once.  What the calls of libevent and of the
    system return is an argument of the steps, and a check of such a result is one of the model;
    checks of what the code itself sets up (that a function of the queue runs in the event loop
    and holds the socket, that the descriptor and the handle for the callbacks exist) are not
    repeated.  [connect] without a configuration, which always ends the process, is left out. *)

From S2P Require Import Prelude Io.

(** How a promise is completed. *)
Inductive answer :=
| AConnected
| AData (data : bytes)        (* a receive: [length] of it, and what is in the buffer *)
| ASent (n : nat)
| AFailed (message : string)
| ADiscarded.

(** [bufferevent], with its two buffers.  [due] is a call of the write callback that libevent
    owes because the output was drained. *)
Record bufferevent := mkBev {
  input : bytes;
  output : bytes;
  due : bool;
  callbacks : bool;            (* [bufferevent_setcb] was called *)
  handshaking : bool;
}.

(** The functions in the queue of the event loop. *)
Inductive func :=
| FConnect
| FRecv
| FDiscard (i : nat)           (* by the discard of the request [i], which it does not look at *)
| FSend (i : nat) (data : bytes)
| FShutdown
| FDestroy.

Inductive lifetime := Alive | Destroyed | Closed.

(** Where a call of [connect] is, once it has configured its [SSL] object: before the check
    that there is no buffer, after it, and after [bev = bufferevent_openssl_socket_new(...)]. *)
Inductive phase := PCheck | PNew | PAssign.

Record LibeventSSLSocketImpl := mkTls {
  bev : option bufferevent;
  recv_request : option (nat * nat);     (* the number of the request and the size of its buffer *)
  send_request : option (nat * nat);
  connect_request : option nat;
  received_eof : bool;
  client_config : bool;                  (* [client_config.isSome()] *)
  functions : list func;
  life : lifetime;
  requests : nat;                        (* requests made so far *)
  log : list (nat * answer);             (* the promises that were completed, in order *)
  abandoned : list nat;                  (* the promises that were destroyed *)
  arrived : bytes;                       (* all that came from the network *)
  delivered : bytes;
  written : list (nat * bytes);          (* what was given to the buffer, and by which request *)
  ssls : nat;                            (* the [SSL] objects that were not freed *)
  connects : list (phase * bool);        (* the calls of [connect] that are under way, and whether
                                            [bufferevent_openssl_socket_new] will succeed *)
}.
Notation tls := LibeventSSLSocketImpl.

(** [LibeventSSLSocketImpl(s)], and the constructor for an accepted socket. *)
Definition socket_init : tls := mkTls None None None None false false [] Alive 0 [] [] [] [] [] 0 [].
Definition accepted_init : tls :=
  mkTls (Some (mkBev [] [] false true false)) None None None false false [] Alive 0 [] [] [] [] [] 1 [].

Definition set_bev (b : option bufferevent) (s : tls) : tls :=
  mkTls b (recv_request s) (send_request s) (connect_request s) (received_eof s) (client_config s) (functions s) (life s)
    (requests s) (log s) (abandoned s) (arrived s) (delivered s) (written s) (ssls s) (connects s).
Definition set_recv (r : option (nat * nat)) (s : tls) : tls :=
  mkTls (bev s) r (send_request s) (connect_request s) (received_eof s) (client_config s) (functions s) (life s)
    (requests s) (log s) (abandoned s) (arrived s) (delivered s) (written s) (ssls s) (connects s).
Definition set_send (r : option (nat * nat)) (s : tls) : tls :=
  mkTls (bev s) (recv_request s) r (connect_request s) (received_eof s) (client_config s) (functions s) (life s)
    (requests s) (log s) (abandoned s) (arrived s) (delivered s) (written s) (ssls s) (connects s).
Definition set_connect (r : option nat) (s : tls) : tls :=
  mkTls (bev s) (recv_request s) (send_request s) r (received_eof s) (client_config s) (functions s) (life s)
    (requests s) (log s) (abandoned s) (arrived s) (delivered s) (written s) (ssls s) (connects s).
Definition set_eof (s : tls) : tls :=
  mkTls (bev s) (recv_request s) (send_request s) (connect_request s) true (client_config s) (functions s) (life s)
    (requests s) (log s) (abandoned s) (arrived s) (delivered s) (written s) (ssls s) (connects s).
Definition set_config (s : tls) : tls :=
  mkTls (bev s) (recv_request s) (send_request s) (connect_request s) (received_eof s) true (functions s) (life s)
    (requests s) (log s) (abandoned s) (arrived s) (delivered s) (written s) (ssls s) (connects s).
Definition set_functions (f : list func) (s : tls) : tls :=
  mkTls (bev s) (recv_request s) (send_request s) (connect_request s) (received_eof s) (client_config s) f (life s)
    (requests s) (log s) (abandoned s) (arrived s) (delivered s) (written s) (ssls s) (connects s).
Definition set_life (l : lifetime) (s : tls) : tls :=
  mkTls (bev s) (recv_request s) (send_request s) (connect_request s) (received_eof s) (client_config s) (functions s) l
    (requests s) (log s) (abandoned s) (arrived s) (delivered s) (written s) (ssls s) (connects s).
Definition set_ssls (n : nat) (s : tls) : tls :=
  mkTls (bev s) (recv_request s) (send_request s) (connect_request s) (received_eof s) (client_config s) (functions s) (life s)
    (requests s) (log s) (abandoned s) (arrived s) (delivered s) (written s) n (connects s).
Definition set_arrived (x : bytes) (s : tls) : tls :=
  mkTls (bev s) (recv_request s) (send_request s) (connect_request s) (received_eof s) (client_config s) (functions s) (life s)
    (requests s) (log s) (abandoned s) x (delivered s) (written s) (ssls s) (connects s).
Definition set_delivered (x : bytes) (s : tls) : tls :=
  mkTls (bev s) (recv_request s) (send_request s) (connect_request s) (received_eof s) (client_config s) (functions s) (life s)
    (requests s) (log s) (abandoned s) (arrived s) x (written s) (ssls s) (connects s).
Definition add_written (x : nat * bytes) (s : tls) : tls :=
  mkTls (bev s) (recv_request s) (send_request s) (connect_request s) (received_eof s) (client_config s) (functions s) (life s)
    (requests s) (log s) (abandoned s) (arrived s) (delivered s) (written s ++ [x]) (ssls s) (connects s).
Definition new_request (s : tls) : tls :=
  mkTls (bev s) (recv_request s) (send_request s) (connect_request s) (received_eof s) (client_config s) (functions s) (life s)
    (S (requests s)) (log s) (abandoned s) (arrived s) (delivered s) (written s) (ssls s) (connects s).
Definition abandon (l : list nat) (s : tls) : tls :=
  mkTls (bev s) (recv_request s) (send_request s) (connect_request s) (received_eof s) (client_config s) (functions s) (life s)
    (requests s) (log s) (abandoned s ++ l) (arrived s) (delivered s) (written s) (ssls s) (connects s).
Definition set_connects (l : list (phase * bool)) (s : tls) : tls :=
  mkTls (bev s) (recv_request s) (send_request s) (connect_request s) (received_eof s) (client_config s) (functions s) (life s)
    (requests s) (log s) (abandoned s) (arrived s) (delivered s) (written s) (ssls s) l.

(** [promise.set], [promise.fail], [promise.discard]. *)
Definition complete (i : nat) (a : answer) (s : tls) : tls :=
  mkTls (bev s) (recv_request s) (send_request s) (connect_request s) (received_eof s) (client_config s) (functions s) (life s)
    (requests s) (log s ++ [(i, a)]) (abandoned s) (arrived s) (delivered s) (written s) (ssls s) (connects s).
Definition complete_opt (r : option nat) (a : answer) (s : tls) : tls :=
  match r with Some i => complete i a s | None => s end.

(** [run_in_event_loop(f, DISALLOW_SHORT_CIRCUIT)]. *)
Definition run_in_event_loop (f : func) (s : tls) : tls := set_functions (functions s ++ [f]) s.

(** [SSL_free(ssl); bufferevent_free(bev); bev = nullptr]. *)
Definition free_bev (s : tls) : tls := set_ssls (pred (ssls s)) (set_bev None s).

(** ** In the event loop *)

(** [bufferevent_read] for the request [i]. *)
Definition read_into (i size : nat) (b : bufferevent) (s : tls) : tls :=
  let data := take size (input b) in
  complete i (AData data)
    (set_delivered (delivered s ++ data)
      (set_bev (Some (mkBev (drop size (input b)) (output b) (due b) (callbacks b) (handshaking b))) s)).

Definition null_bev : string := "null bufferevent".

(** A request that was taken out gets what is in the buffer, or the end of the connection. *)
Definition answer_recv (i size : nat) (b : bufferevent) (s : tls) : checked tls :=
  if 0 <? length (input b) then
    if 0 <? length (take size (input b)) then Returns (read_into i size b s)
    else Abort "CHECK(length > 0)"
  else Returns (complete i (AData []) s).

(** [recv_callback()]. *)
Definition recv_callback (s : tls) : checked tls :=
  match bev s with
  | None => Abort null_bev
  | Some b =>
      if (0 <? length (input b)) || received_eof s then
        match recv_request s with
        | None => Returns s
        | Some (i, size) => answer_recv i size b (set_recv None s)
        end
      else Returns s
  end.

(** [send_callback()]. *)
Definition send_callback (s : tls) : checked tls :=
  match send_request s with
  | Some (i, size) => Returns (complete i (ASent size) (set_send None s))
  | None => Returns s
  end.

(** The flags of an event, [EVUTIL_SOCKET_ERROR()] as a message when it is not 0, and what
    [client_config->verify] returns (success when there is no such function). *)
Record events := mkEvents {
  is_eof : bool;
  is_connected : bool;
  is_error : bool;
  socket_error : option string;
  verify : Try unit;
}.

(** A connect that fails: the buffer is freed. *)
Definition fail_connect (r : option nat) (message : string) (s : tls) : checked tls :=
  match r with
  | None => Returns s
  | Some i =>
      match bev s with
      | None => Abort "CHECK_NOTNULL(bev)"
      | Some _ => Returns (complete i (AFailed message) (free_bev s))
      end
  end.

(** The end of the connection, for the requests that were swapped out. *)
Definition on_eof (recv send : option (nat * nat)) (connect : option nat) (s : tls) : checked tls :=
  let s := set_eof s in
  let received :=
    match recv, bev s with
    | None, _ => Returns s
    | Some _, None => Abort null_bev
    | Some (i, size), Some b => answer_recv i size b s
    end in
  match received with
  | Abort m => Abort m
  | Returns s =>
      fail_connect connect "Failed connect: connection closed"
        (complete_opt (fst <$> send) (AFailed "Failed send: connection closed") s)
  end.

Definition on_connected (recv send : option (nat * nat)) (connect : option nat) (v : Try unit) (s : tls) : checked tls :=
  match recv, send, connect, bev s with
  | Some _, _, _, _ => Abort "CHECK(current_recv_request.get() == nullptr)"
  | _, Some _, _, _ => Abort "CHECK(current_send_request.get() == nullptr)"
  | _, _, None, _ => Abort "CHECK_NOTNULL(current_connect_request.get())"
  | _, _, _, None => Abort "CHECK_NOTNULL(bev)"
  | None, None, Some i, Some b =>
      if client_config s then
        match v with
        | Error m => Returns (complete i (AFailed m) (free_bev s))
        | Some_ _ =>
            Returns (complete i AConnected
              (set_bev (Some (mkBev (input b) (output b) (due b) (callbacks b) false)) s))
        end
      else Abort "CHECK(client_config.isSome())"
  end.

Definition on_error (recv send : option (nat * nat)) (connect : option nat) (m : string) (s : tls) : checked tls :=
  fail_connect connect ("Failed connect, connection error: " +:+ m)
    (complete_opt (fst <$> send) (AFailed ("Failed send, connection error: " +:+ m))
      (complete_opt (fst <$> recv) (AFailed ("Failed recv, connection error: " +:+ m)) s)).

(** [event_callback(events)]. *)
Definition event_callback (e : events) (s : tls) : checked tls :=
  let taken := is_eof e || is_connected e || is_error e in
  let '(r, w, c) := if taken then (recv_request s, send_request s, connect_request s) else (None, None, None) in
  let s := if taken then set_recv None (set_send None (set_connect None s)) else s in
  if is_eof e || is_error e && bool_decide (socket_error e = None) then on_eof r w c s
  else if is_connected e then on_connected r w c (verify e) s
  else if is_error e then
    match socket_error e with
    | None => Abort "CHECK(EVUTIL_SOCKET_ERROR() != 0)"
    | Some m => on_error r w c m s
    end
  else Returns s.

(** What the calls of libevent and of the system return in a function of the queue. *)
Record results := mkResults {
  socket_connect : bool;   (* [bufferevent_socket_connect] succeeds *)
  write_buffer : bool;     (* [bufferevent_write_buffer] or [evbuffer_add_file] returns 0 *)
  os_close : bool;         (* [os::close(fd)] succeeds *)
}.

(** The functions that the calls below put into the queue. *)
Definition run_function (f : func) (r : results) (s : tls) : checked tls :=
  match f with
  | FConnect =>
      match bev s with
      | None => Abort null_bev
      | Some b =>
          if socket_connect r
          then Returns (set_bev (Some (mkBev (input b) (output b) (due b) true true)) s)
          else
            match connect_request s with
            | None => Abort "CHECK_NOTNULL(request.get())"
            | Some i =>
                Returns (complete i (AFailed "Failed to connect: bufferevent_socket_connect")
                  (set_connect None (free_bev s)))
            end
      end
  | FRecv =>
      match recv_request s with
      | None => Returns s
      | Some _ =>
          match bev s with
          | None => Abort null_bev
          | Some b => if (0 <? length (input b)) || received_eof s then recv_callback s else Returns s
          end
      end
  | FDiscard _ =>
      match recv_request s with
      | None => Returns s
      | Some (i, _) => Returns (complete i ADiscarded (set_recv None s))
      end
  | FSend i data =>
      match send_request s with
      | None => Returns s
      | Some _ =>
          match bev s with
          | None => Abort null_bev
          | Some b =>
              if write_buffer r
              then Returns (add_written (i, data)
                     (set_bev (Some (mkBev (input b) (output b ++ data) (due b) (callbacks b) (handshaking b))) s))
              else Abort "CHECK_EQ(0, result)"
          end
      end
  | FShutdown =>
      match bev s with
      | None => Abort "CHECK_NOTNULL(self->bev)"
      | Some b =>
          match recv_request s with
          | None => Returns s
          | Some (i, size) => Returns (read_into i size b (set_recv None s))
          end
      end
  | FDestroy =>
      if os_close r
      then Returns (set_life Closed (match bev s with Some _ => free_bev s | None => s end))
      else Abort "CHECK_SOME(os::close(fd))"
  end.

(** [async_function]: the functions are run in the order in which they were added. *)
Definition async_function (r : results) (s : tls) : option (checked tls) :=
  match functions s with
  | [] => None
  | f :: fs => Some (run_function f r (set_functions fs s))
  end.

(** ** Calls of the user *)

(** What a call returns: a failure at once, or the future of a request. *)
Inductive returned := Fails (message : string) | Future (i : nat).

(** The state that a call leaves. *)
Definition state_of {A} (x : checked (A * tls)) : checked tls :=
  match x with Returns (_, s) => Returns s | Abort m => Abort m end.

(** What happens inside [connect]: the context, [SSL_new], [config.configure_socket] and
    [bufferevent_openssl_socket_new]. *)
Record connect_env := mkConnectEnv { ctx : bool; ssl_new : bool; configure : Try unit; bev_new : bool }.

(** [connect(address, config)] up to the configuration of the [SSL] object: it fails, or the
    call goes on with [connect_step]. *)
Definition connect (env : connect_env) (s : tls) : option string * tls :=
  match bev s, connect_request s with
  | Some _, _ => (Some "Socket is already connected", s)
  | None, Some _ => (Some "Socket is already connecting", s)
  | None, None =>
      if negb (ctx env) then (Some "Invalid SSL context", s)
      else if negb (ssl_new env) then (Some "Failed to connect: SSL_new", s)
      else
        let s := set_config (set_ssls (S (ssls s)) s) in
        match configure env with
        | Error m => (Some ("Failed to configure socket: " +:+ m), s)
        | Some_ _ => (None, set_connects (connects s ++ [(PCheck, bev_new env)]) s)
        end
  end.

(** The rest of [connect], for the call number [k] of those that are under way: the check that
    there is no buffer, the new buffer, and the request that is put in its place under the
    lock.  The first component is what the call returns, [None] while it has not. *)
Definition connect_step (k : nat) (s : tls) : option (checked (option returned * tls)) :=
  match connects s !! k with
  | None => None
  | Some (PCheck, bev_new) =>
      match bev s with
      | Some _ => Some (Abort "CHECK(bev == nullptr)")
      | None => Some (Returns (None, set_connects (<[k := (PNew, bev_new)]> (connects s)) s))
      end
  | Some (PNew, true) =>
      Some (Returns (None, set_connects (<[k := (PAssign, true)]> (connects s))
                             (set_bev (Some (mkBev [] [] false false false)) s)))
  | Some (PNew, false) =>
      Some (Returns (Some (Fails "Failed to connect: bufferevent_openssl_socket_new"),
                     set_connects (delete k (connects s)) (set_ssls (pred (ssls s)) (set_bev None s))))
  | Some (PAssign, _) =>
      let s := set_connects (delete k (connects s)) s in
      match connect_request s, bev s with
      | Some _, None => Some (Abort null_bev)
      | Some _, Some _ => Some (Returns (Some (Fails "Socket is already connecting"), free_bev s))
      | None, _ =>
          let i := requests s in
          Some (Returns (Some (Future i), run_in_event_loop FConnect (set_connect (Some i) (new_request s))))
      end
  end.

(** [recv(data, size)]. *)
Definition recv (size : nat) (s : tls) : returned * tls :=
  match recv_request s with
  | Some _ => (Fails "Socket is already receiving", s)
  | None =>
      let i := requests s in
      (Future i, run_in_event_loop FRecv (set_recv (Some (i, size)) (new_request s)))
  end.

(** The [onDiscard] callback of a receive. *)
Definition recv_discard (i : nat) (s : tls) : tls :=
  match life s with Alive => run_in_event_loop (FDiscard i) s | _ => s end.

(** [send(data, size)]: [allocated] is whether [evbuffer_new] returns a buffer, and [added]
    whether [evbuffer_add] returns 0. *)
Definition send (allocated added : bool) (data : bytes) (s : tls) : checked (returned * tls) :=
  match send_request s with
  | Some _ => Returns (Fails "Socket is already sending", s)
  | None =>
      let i := requests s in
      if negb allocated then Abort "CHECK_NOTNULL(evbuffer_new())"
      else if negb added then Abort "CHECK_EQ(0, result)"
      else Returns (Future i, run_in_event_loop (FSend i data) (set_send (Some (i, length data)) (new_request s)))
  end.

(** [sendfile(fd, offset, size)]: [prepared] is what [os::dup], [os::cloexec] and
    [os::nonblock] return, one after the other, and [data] what the file contains.  The
    request is in its place when they fail. *)
Definition sendfile (prepared : Try unit) (data : bytes) (s : tls) : returned * tls :=
  match send_request s with
  | Some _ => (Fails "Socket is already sending", s)
  | None =>
      let i := requests s in
      let s := set_send (Some (i, length data)) (new_request s) in
      match prepared with
      | Error m => (Fails m, s)
      | Some_ _ => (Future i, run_in_event_loop (FSend i data) s)
      end
  end.

(** [shutdown(how)]: [None] is what the system call returns. *)
Definition shutdown (s : tls) : checked tls :=
  match bev s with
  | Some _ => Returns (run_in_event_loop FShutdown s)
  | None =>
      match connect_request s, recv_request s, send_request s with
      | None, None, None => Returns s
      | Some _, _, _ => Abort "CHECK(connect_request.get() == nullptr)"
      | _, Some _, _ => Abort "CHECK(recv_request.get() == nullptr)"
      | _, _, Some _ => Abort "CHECK(send_request.get() == nullptr)"
      end
  end.

(** [~LibeventSSLSocketImpl]: every function in the queue keeps the socket alive, and so does
    the caller of [connect]. *)
Definition destruct_socket (s : tls) : option tls :=
  match life s, functions s, connects s with
  | Alive, [], [] =>
      let left := option_list (fst <$> recv_request s) ++ option_list (fst <$> send_request s) ++
                  option_list (connect_request s) in
      Some (run_in_event_loop FDestroy
             (set_life Destroyed (abandon left (set_recv None (set_send None (set_connect None s))))))
  | _, _, _ => None
  end.

(** ** Steps *)

Inductive action :=
| Connect (env : connect_env) | ConnectStep (k : nat)
| Recv (size : nat) | Discard (i : nat) | Send (allocated added : bool) (data : bytes)
| Sendfile (prepared : Try unit) (data : bytes) | Shutdown | Destroy
| RunFunction (r : results)
| Arrive (data : bytes)       (* decrypted data comes *)
| Drain                       (* the output has been sent *)
| RecvCallback | SendCallback | EventCallback (e : events).

(** The callbacks take the socket from a weak pointer; they are called while there is a buffer
    that has them. *)
Definition from_libevent (k : tls -> checked tls) (s : tls) : option (checked tls) :=
  match bev s with
  | Some b =>
      if callbacks b then match life s with Alive => Some (k s) | Destroyed => Some (Returns s) | Closed => None end
      else None
  | None => None
  end.

(** The request [i] to receive is pending. *)
Definition is_pending (i : nat) (s : tls) : bool := bool_decide (fst <$> recv_request s = Some i).

Definition alive (s : tls) : bool := match life s with Alive => true | _ => false end.

(** [None] is an action that cannot happen.  Libevent calls the write callback once after the
    output was drained, and reports the end of the handshake while there is one. *)
Definition exec (a : action) (s : tls) : option (checked tls) :=
  match a with
  | Connect env => if alive s then Some (Returns (connect env s).2) else None
  | ConnectStep k => state_of <$> connect_step k s
  | Recv size => if alive s then Some (Returns (recv size s).2) else None
  | Discard i => if is_pending i s then Some (Returns (recv_discard i s)) else None
  | Send allocated added data => if alive s then Some (state_of (send allocated added data s)) else None
  | Sendfile p data => if alive s then Some (Returns (sendfile p data s).2) else None
  | Shutdown => if alive s then Some (shutdown s) else None
  | Destroy => Returns <$> destruct_socket s
  | RunFunction r => async_function r s
  | Arrive data =>
      match bev s with
      | Some b =>
          if callbacks b && negb (handshaking b) then
            Some (Returns (set_arrived (arrived s ++ data)
              (set_bev (Some (mkBev (input b ++ data) (output b) (due b) (callbacks b) (handshaking b))) s)))
          else None
      | None => None
      end
  | Drain =>
      match bev s with
      | Some b =>
          match output b with
          | [] => None
          | _ => Some (Returns (set_bev (Some (mkBev (input b) [] true (callbacks b) (handshaking b))) s))
          end
      | None => None
      end
  | RecvCallback => from_libevent recv_callback s
  | SendCallback =>
      match bev s with
      | Some b =>
          if due b
          then from_libevent send_callback (set_bev (Some (mkBev (input b) (output b) false (callbacks b) (handshaking b))) s)
          else None
      | None => None
      end
  | EventCallback e =>
      match bev s with
      | Some b => if is_connected e && negb (handshaking b) then None else from_libevent (event_callback e) s
      | None => None
      end
  end.
