(* ===== verification/TlsSocketSpec.v ===== *)
(** Properties of sockets with TLS. *)

From S2P Require Import Prelude Io TlsSocket.

(** ** Every request is answered once *)

Definition one (i j : nat) : nat := if i =? j then 1 else 0.
Definition times (i : nat) (l : list nat) : nat := sum_list_by (one i) l.
Arguments one : simpl never.
Arguments times : simpl never.

(** The requests that wait in the socket. *)
Definition slots (s : tls) : list nat :=
  option_list (fst <$> recv_request s) ++ option_list (fst <$> send_request s) ++ option_list (connect_request s).

Definition total (i : nat) (s : tls) : nat :=
  times i (log s).*1 + times i (abandoned s) + times i (slots s).

(** Every request that was made is in the log, or was abandoned, or waits, exactly once. *)
Definition accounted (s : tls) : Prop := forall i, total i s = if i <? requests s then 1 else 0.

Lemma times_app i l1 l2 : times i (l1 ++ l2) = times i l1 + times i l2.
Proof. apply sum_list_by_app. Qed.
Lemma times_cons i j l : times i (j :: l) = one i j + times i l.
Proof. done. Qed.
Lemma times_nil i : times i [] = 0.
Proof. done. Qed.

(** A step that neither makes nor loses requests. *)
Definition keeps (s s' : tls) : Prop := requests s' = requests s /\ forall i, total i s' = total i s.

Ltac accounts :=
  unfold total, slots; cbn; rewrite ?fmap_app; cbn; rewrite ?times_app, ?times_cons, ?times_nil, ?times_app, ?times_cons, ?times_nil; lia.

Lemma complete_recv i n a s : recv_request s = Some (i, n) -> keeps s (complete i a (set_recv None s)).
Proof. intros Hr. split; [done|]. intros j. unfold total, slots. rewrite Hr. accounts. Qed.

Ltac cases :=
  repeat match goal with
  | |- context [match ?x with _ => _ end] => destruct x eqn:?
  end.

(** The request [i] was taken out of its place, and is in the log. *)
Definition answers (i : nat) (s s' : tls) : Prop :=
  requests s' = requests s /\ forall j, total j s' = one j i + total j s.

Lemma answer_recv_answers i n b s s' : answer_recv i n b s = Returns s' -> answers i s s'.
Proof. unfold answer_recv. cases; intros [= <-]; (split; [done|]); intros j; accounts. Qed.

Lemma recv_callback_keeps s s' : recv_callback s = Returns s' -> keeps s s'.
Proof.
  unfold recv_callback. destruct (bev s) as [b|]; [|done]. case_match; [|by intros [= <-]].
  destruct (recv_request s) as [[i n]|] eqn:Hr; [|by intros [= <-]].
  intros [Hq Ht]%answer_recv_answers. split; [done|]. intros j. rewrite Ht. unfold total, slots. rewrite Hr. accounts.
Qed.

Lemma send_callback_keeps s s' : send_callback s = Returns s' -> keeps s s'.
Proof.
  unfold send_callback. destruct (send_request s) as [[i n]|] eqn:Hr; intros [= <-]; [|done].
  split; [done|]. intros j. unfold total, slots. cbn. rewrite Hr. accounts.
Qed.

Definition count_opt (j : nat) (x : option nat) : nat := match x with Some i => one j i | None => 0 end.

Lemma fail_connect_total c m s s' : fail_connect c m s = Returns s' ->
  requests s' = requests s /\ forall j, total j s' = count_opt j c + total j s.
Proof. unfold fail_connect. cases; intros [= <-]; (split; [done|]); intros j; accounts. Qed.

Lemma complete_opt_total c a s : requests (complete_opt c a s) = requests s /\
  forall j, total j (complete_opt c a s) = count_opt j c + total j s.
Proof. destruct c; (split; [done|]); intros j; accounts. Qed.

Lemma on_eof_total r w c s s' : on_eof r w c s = Returns s' ->
  requests s' = requests s /\
  forall j, total j s' = count_opt j (fst <$> r) + count_opt j (fst <$> w) + count_opt j c + total j s.
Proof.
  unfold on_eof. set (received := match r with Some _ => _ | None => _ end). destruct received as [s1|] eqn:Hr; [|done].
  assert (H1 : requests s1 = requests s /\ forall j, total j s1 = count_opt j (fst <$> r) + total j s).
  { subst received. destruct r as [[i n]|]; [|by injection Hr as <-]. destruct (bev (set_eof s)); [|done].
    by apply answer_recv_answers in Hr. }
  intros Hf. apply fail_connect_total in Hf as [Hq Ht]. destruct (complete_opt_total (fst <$> w) (AFailed "Failed send: connection closed") s1) as [Hq2 Ht2].
  destruct H1 as [Hq1 Ht1]. split; [congruence|]. intros j. rewrite Ht, Ht2, Ht1. lia.
Qed.

Lemma on_error_total r w c m s s' : on_error r w c m s = Returns s' ->
  requests s' = requests s /\
  forall j, total j s' = count_opt j (fst <$> r) + count_opt j (fst <$> w) + count_opt j c + total j s.
Proof.
  unfold on_error. intros [Hq Ht]%fail_connect_total.
  match type of Hq with _ = requests (complete_opt ?x ?a ?t) => destruct (complete_opt_total x a t) as [Hq1 Ht1] end.
  match type of Hq1 with _ = requests (complete_opt ?x ?a ?t) => destruct (complete_opt_total x a t) as [Hq2 Ht2] end.
  split; [congruence|]. intros j. rewrite Ht, Ht1, Ht2. lia.
Qed.

Lemma on_connected_total r w c v s s' : on_connected r w c v s = Returns s' ->
  requests s' = requests s /\
  forall j, total j s' = count_opt j (fst <$> r) + count_opt j (fst <$> w) + count_opt j c + total j s.
Proof. unfold on_connected. cases; intros; simplify_eq; (split; [done|]); intros j; accounts. Qed.

(** The socket without the requests that an event takes out. *)
Definition taken_out (s : tls) : tls := set_recv None (set_send None (set_connect None s)).

Lemma event_callback_cases e s x :
  event_callback e s = x ->
  x = Returns s \/
  x = on_eof (recv_request s) (send_request s) (connect_request s) (taken_out s) \/
  is_connected e = true /\ x = on_connected (recv_request s) (send_request s) (connect_request s) (verify e) (taken_out s) \/
  exists m, x = on_error (recv_request s) (send_request s) (connect_request s) m (taken_out s).
Proof.
  unfold event_callback. destruct e as [[] [] [] [m|] v]; cbn; intros <-; rewrite ?bool_decide_true, ?bool_decide_false by done; cbn; eauto 6.
Qed.

Lemma event_callback_keeps e s s' : event_callback e s = Returns s' -> keeps s s'.
Proof.
  assert (Htot : forall j, count_opt j (fst <$> recv_request s) + count_opt j (fst <$> send_request s) + count_opt j (connect_request s) +
    total j (taken_out s) = total j s).
  { intros j. unfold total, slots. destruct (recv_request s) as [[]|], (send_request s) as [[]|], (connect_request s); accounts. }
  intros [[= ->]|[Hx|[[_ Hx]|[m Hx]]]]%event_callback_cases; [done| | |]; symmetry in Hx.
  - apply on_eof_total in Hx as [Hq Ht]. split; [done|]. intros j. by rewrite Ht.
  - apply on_connected_total in Hx as [Hq Ht]. split; [done|]. intros j. by rewrite Ht.
  - apply on_error_total in Hx as [Hq Ht]. split; [done|]. intros j. by rewrite Ht.
Qed.

Lemma run_function_keeps f r s s' : run_function f r s = Returns s' -> keeps s s'.
Proof.
  destruct f; cbn [run_function].
  - destruct (bev s) as [x|]; [|done]. destruct (socket_connect r); [by intros [= <-]|]. destruct (connect_request s) as [i|] eqn:Hc; [|done].
    intros [= <-]. split; [done|]. intros j. unfold total, slots. cbn. rewrite Hc. accounts.
  - destruct (recv_request s); [|by intros [= <-]]. destruct (bev s); [|done]. case_match; [|by intros [= <-]]. apply recv_callback_keeps.
  - destruct (recv_request s) as [[i0 n]|] eqn:Hr; intros [= <-]; [|done]. split; [done|]. intros j. unfold total, slots. cbn. rewrite Hr. accounts.
  - destruct (send_request s); [|by intros [= <-]]. destruct (bev s); [|done]. destruct (write_buffer r); [|done]. by intros [= <-].
  - destruct (bev s); [|done]. destruct (recv_request s) as [[i n]|] eqn:Hr; intros [= <-]; [|done].
    split; [done|]. intros j. unfold total, slots. cbn. rewrite Hr. accounts.
  - destruct (os_close r); [|done]. by intros [= <-]; destruct (bev s).
Qed.

(** What a call of [send] does when it returns. *)
Lemma tls_send_inv x y d s s' : state_of (send x y d s) = Returns s' ->
  s' = s \/ send_request s = None /\ s' = run_in_event_loop (FSend (requests s) d) (set_send (Some (requests s, length d)) (new_request s)).
Proof. unfold send. destruct (send_request s); [intros [= <-]; auto|]. destruct x, y; cbn; intros [= <-]; auto. Qed.

(** The steps of a call of [connect] after the first. *)
Lemma connect_step_inv k s x : state_of <$> connect_step k s = Some x ->
  exists p b, connects s !! k = Some (p, b) /\
  match p with
  | PCheck => bev s = None /\ x = Returns (set_connects (<[k := (PNew, b)]> (connects s)) s) \/ is_Some (bev s) /\ x = Abort "CHECK(bev == nullptr)"
  | PNew =>
      b = true /\ x = Returns (set_connects (<[k := (PAssign, true)]> (connects s)) (set_bev (Some (mkBev [] [] false false false)) s)) \/
      b = false /\ x = Returns (set_connects (delete k (connects s)) (set_ssls (pred (ssls s)) (set_bev None s)))
  | PAssign =>
      connect_request s = None /\
        x = Returns (run_in_event_loop FConnect (set_connect (Some (requests s)) (new_request (set_connects (delete k (connects s)) s)))) \/
      is_Some (connect_request s) /\ bev s = None /\ x = Abort null_bev \/
      is_Some (connect_request s) /\ is_Some (bev s) /\ x = Returns (free_bev (set_connects (delete k (connects s)) s))
  end.
Proof.
  unfold connect_step. destruct (connects s !! k) as [[p b]|] eqn:Hk; [|done]. intros Hx. exists p, b. split; [done|].
  destruct p; cbn in Hx; [destruct (bev s)|destruct b|destruct (connect_request s), (bev s)]; cbn in Hx; simplify_eq; eauto 6.
Qed.

(** Libevent's callbacks, on a buffer that differs in its flags only. *)
Lemma from_libevent_inv k s x : from_libevent k s = Some x ->
  x = k s \/ x = Returns s.
Proof. unfold from_libevent. cases; intros; simplify_eq; auto. Qed.

(** A step makes at most one request, which is then pending. *)
Lemma exec_total a s s' : exec a s = Some (Returns s') ->
  keeps s s' \/ (requests s' = S (requests s) /\ forall j, total j s' = one j (requests s) + total j s).
Proof.
  destruct a; cbn [exec].
  - destruct (alive s); [|done]. intros [= <-]. unfold connect. destruct (bev s); [by left|].
    destruct (connect_request s) eqn:Hc; [by left|]. by repeat (case_match; try by left).
  - intros (p & b & _ & Hx)%connect_step_inv. destruct p; destruct_or?; destruct_and?; simplify_eq; try by left.
    right. split; [done|]. intros j. unfold total, slots. cbn. destruct (connect_request s); [done|]. accounts.
  - destruct (alive s); [|done]. intros [= <-]. unfold recv. destruct (recv_request s) eqn:Hr; [by left|]. right.
    split; [done|]. intros j. unfold total, slots. cbn. rewrite Hr. accounts.
  - destruct (is_pending i s); [|done]. intros [= <-]. left. unfold recv_discard. by destruct (life s).
  - destruct (alive s); [|done]. intros [= [->|[Hr ->]]%tls_send_inv]; [by left|]. right.
    split; [done|]. intros j. unfold total, slots. cbn. rewrite Hr. accounts.
  - destruct (alive s); [|done]. intros [= <-]. unfold sendfile. destruct (send_request s) eqn:Hr; [by left|]. right.
    destruct prepared; (split; [done|]); intros j; unfold total, slots; cbn; rewrite Hr; accounts.
  - destruct (alive s); [|done]. unfold shutdown. intros Hs. left. repeat (case_match; try done); simplify_eq; done.
  - unfold destruct_socket. destruct (life s), (functions s), (connects s); try done. intros [= <-]. left. split; [done|].
    intros j. unfold total, slots. cbn. destruct (recv_request s) as [[]|], (send_request s) as [[]|], (connect_request s); accounts.
  - unfold async_function. destruct (functions s) as [|f fs]; [done|]. intros [= Hr]. left. apply run_function_keeps in Hr. exact Hr.
  - destruct (bev s); [|done]. case_match; [|done]. intros [= <-]. by left.
  - destruct (bev s) as [b|]; [|done]. destruct (output b); [done|]. intros [= <-]. by left.
  - intros [Hx|[= ->]]%from_libevent_inv; [|by left]. left. by apply recv_callback_keeps.
  - destruct (bev s) as [b|]; [|done]. destruct (due b); [|done]. intros [Hx|[= ->]]%from_libevent_inv; [|by left].
    left. symmetry in Hx. apply send_callback_keeps in Hx. exact Hx.
  - destruct (bev s) as [b|]; [|done]. case_match; [done|]. intros [Hx|[= ->]]%from_libevent_inv; [|by left].
    left. by apply (event_callback_keeps e).
Qed.

Lemma exec_accounted a s s' : exec a s = Some (Returns s') -> accounted s -> accounted s'.
Proof.
  intros He Ha i. specialize (Ha i). destruct (exec_total _ _ _ He) as [[Hq Ht]|[Hq Ht]]; rewrite Ht, Hq; [done|].
  rewrite Ha. unfold one. destruct (i <? requests s) eqn:H1, (i <? S (requests s)) eqn:H2, (i =? requests s) eqn:H3; bool_cases; lia.
Qed.

(** ** What is received *)

Definition data_of (a : answer) : bytes := match a with AData d => d | _ => [] end.
Definition received (s : tls) : bytes := concat (data_of <$> (log s).*2).
Definition unread (s : tls) : bytes := from_option input [] (bev s).

(** What arrived was delivered or waits in the buffer. *)
Record in_order (s : tls) : Prop := mkInOrder {
  o_received : received s = delivered s;
  o_arrived : arrived s = delivered s ++ unread s;
}.

(** While a connect is under way nothing has arrived. *)
Definition connecting_empty (s : tls) : Prop :=
  forall c, connect_request s = Some c ->
  exists b, bev s = Some b /\ input b = [] /\ (callbacks b = true -> handshaking b = true).

Lemma in_order_frame s s' :
  log s' = log s -> delivered s' = delivered s -> arrived s' = arrived s -> unread s' = unread s -> in_order s -> in_order s'.
Proof. unfold received. intros Hl Hd Ha Hu [H1 H2]. constructor; unfold received in *; congruence. Qed.

Lemma received_complete i a s : received (complete i a s) = received s ++ data_of a.
Proof. unfold received. cbn. rewrite !fmap_app, concat_app. cbn. by rewrite app_nil_r. Qed.

Lemma complete_in_order i a s : data_of a = [] -> in_order s -> in_order (complete i a s).
Proof. intros Ha [H1 H2]. constructor; [|done]. by rewrite received_complete, Ha, app_nil_r. Qed.

Lemma complete_opt_in_order c a s : data_of a = [] -> in_order s -> in_order (complete_opt c a s).
Proof. destruct c; [apply complete_in_order|done]. Qed.

Lemma read_in_order i n b s : bev s = Some b -> in_order s -> in_order (read_into i n b s).
Proof.
  intros Hb [H1 H2]. unfold read_into. constructor.
  - rewrite received_complete. cbn. by rewrite <- H1.
  - cbn. unfold unread in *. rewrite Hb in H2. cbn in H2. rewrite H2. cbn. by rewrite <- app_assoc, take_drop.
Qed.

Lemma answer_recv_in_order i n b s s' :
  bev s = Some b -> answer_recv i n b s = Returns s' -> in_order s -> in_order s' /\ (unread s = [] -> unread s' = []).
Proof.
  intros Hb. unfold answer_recv. destruct (0 <? length (input b)) eqn:Hl; [destruct (0 <? length (take n (input b)))|]; try done;
    intros [= <-] Ho.
  - split; [by apply read_in_order|]. unfold unread. rewrite Hb. cbn. intros Hi. rewrite Hi in Hl. done.
  - split; [by apply complete_in_order|done].
Qed.

Lemma fail_connect_in_order c m s s' :
  fail_connect c m s = Returns s' -> (is_Some c -> unread s = []) -> in_order s -> in_order s'.
Proof.
  unfold fail_connect. destruct c as [i|]; [|by intros [= <-]]. destruct (bev s); [|done]. intros [= <-] Hu [H1 H2].
  apply complete_in_order; [done|]. specialize (Hu ltac:(eauto)). constructor; [done|]. by rewrite Hu in H2.
Qed.

(** A callback that takes the requests out. *)
Definition taken_ok (s s' : tls) : Prop := in_order s' /\ connect_request s' = None.

Lemma answer_recv_connect i n b s s' : answer_recv i n b s = Returns s' -> connect_request s' = connect_request s.
Proof. unfold answer_recv. cases; by intros [= <-]. Qed.
Lemma fail_connect_connect c m s s' : fail_connect c m s = Returns s' -> connect_request s' = connect_request s.
Proof. unfold fail_connect. cases; by intros [= <-]. Qed.
Lemma complete_opt_connect c a s : connect_request (complete_opt c a s) = connect_request s.
Proof. by destruct c. Qed.
Lemma complete_opt_unread c a s : unread (complete_opt c a s) = unread s.
Proof. by destruct c. Qed.

Lemma on_eof_in_order r w c s s' :
  on_eof r w c s = Returns s' -> connect_request s = None -> (is_Some c -> unread s = []) -> in_order s -> taken_ok s s'.
Proof.
  unfold on_eof. set (received := match r with Some _ => _ | None => _ end). destruct received as [s1|] eqn:Hr; [|done].
  intros Hf Hc Hu Ho.
  assert (H1 : in_order s1 /\ connect_request s1 = None /\ (unread s = [] -> unread s1 = [])).
  { subst received. assert (Hoe : in_order (set_eof s)) by by apply (in_order_frame s).
    destruct r as [[i n]|]; [|by injection Hr as <-]. destruct (bev (set_eof s)) eqn:Hb; [|done].
    destruct (answer_recv_in_order _ _ _ _ _ Hb Hr Hoe) as [Ho1 Hu1]. apply answer_recv_connect in Hr. cbn in Hr.
    split_and!; [done|congruence|done]. }
  destruct H1 as (Ho1 & Hc1 & Hu1). split.
  - apply (fail_connect_in_order _ _ _ _ Hf); [|by apply complete_opt_in_order]. rewrite complete_opt_unread. auto.
  - apply fail_connect_connect in Hf. rewrite complete_opt_connect in Hf. congruence.
Qed.

Lemma on_error_in_order r w c m s s' :
  on_error r w c m s = Returns s' -> connect_request s = None -> (is_Some c -> unread s = []) -> in_order s -> taken_ok s s'.
Proof.
  unfold on_error. intros Hf Hc Hu Ho. split.
  - apply (fail_connect_in_order _ _ _ _ Hf); [|apply complete_opt_in_order; [done|]; by apply complete_opt_in_order]. by rewrite !complete_opt_unread.
  - apply fail_connect_connect in Hf. rewrite !complete_opt_connect in Hf. congruence.
Qed.

Lemma on_connected_in_order r w c v s s' :
  on_connected r w c v s = Returns s' -> connect_request s = None -> (is_Some c -> unread s = []) -> in_order s -> taken_ok s s'.
Proof.
  unfold on_connected. intros Hf Hc Hu Ho. destruct r, w; try done. destruct c as [i|]; [|done].
  destruct (bev s) as [b|] eqn:Hb; [|done]. destruct (client_config s); [|done]. specialize (Hu ltac:(eauto)).
  destruct Ho as [H1 H2]. destruct v; injection Hf as <-; (split; [|done]); apply complete_in_order; try done; constructor; try done.
  - cbn. rewrite H2. unfold unread. by rewrite Hb.
  - cbn. by rewrite Hu in H2.
Qed.

Lemma event_callback_in_order e s s' :
  event_callback e s = Returns s' -> in_order s /\ connecting_empty s -> in_order s' /\ connecting_empty s'.
Proof.
  intros He [Ho Hc].
  assert (Hu : is_Some (connect_request s) -> unread s = []).
  { intros [c Hs]. destruct (Hc c Hs) as (b & Hb & Hi & _). unfold unread. by rewrite Hb. }
  assert (Ht : in_order (taken_out s)) by by destruct Ho; constructor.
  assert (Hdone : taken_ok (taken_out s) s' -> in_order s' /\ connecting_empty s').
  { intros [Ho' Hn]. split; [done|]. intros c Hs. congruence. }
  apply event_callback_cases in He as [[= ->]|[Hx|[[_ Hx]|[m Hx]]]]; [done| | |]; symmetry in Hx; apply Hdone.
  - by apply (on_eof_in_order _ _ _ _ _ Hx).
  - by apply (on_connected_in_order _ _ _ _ _ _ Hx).
  - by apply (on_error_in_order _ _ _ _ _ _ Hx).
Qed.

Lemma recv_callback_in_order s s' :
  recv_callback s = Returns s' -> in_order s /\ connecting_empty s -> in_order s' /\ connecting_empty s'.
Proof.
  unfold recv_callback. destruct (bev s) as [b|] eqn:Hb; [|done]. case_match; [|by intros [= <-]].
  destruct (recv_request s) as [[i n]|]; [|by intros [= <-]]. intros Ha [Ho Hc].
  assert (Ho1 : in_order (set_recv None s)) by by destruct Ho; constructor.
  split; [by apply (answer_recv_in_order i n b (set_recv None s) s')|]. intros c Hs. pose proof (answer_recv_connect _ _ _ _ _ Ha) as Hcc. cbn in Hcc.
  rewrite Hcc in Hs. destruct (Hc c Hs) as (b' & Hb' & Hi & Hh). assert (b' = b) as -> by congruence.
  unfold answer_recv in Ha. rewrite Hi in Ha. cbn in Ha. injection Ha as <-. by exists b.
Qed.

Lemma run_function_in_order f x s s' :
  run_function f x s = Returns s' -> life s' <> Closed ->
  in_order s /\ connecting_empty s -> in_order s' /\ connecting_empty s'.
Proof.
  intros Hr Hl [Ho Hc]. destruct f; cbn [run_function] in Hr.
  - destruct (bev s) as [b|] eqn:Hb; [|done]. destruct (socket_connect x).
    + injection Hr as <-. destruct Ho as [H1 H2]. unfold unread in H2. rewrite Hb in H2. split; [by constructor|].
      intros c Hs. destruct (Hc c Hs) as (b' & Hb' & Hi & Hh). assert (b' = b) as -> by congruence. by eexists.
    + destruct (connect_request s) as [i|] eqn:Hs; [|done]. injection Hr as <-. destruct (Hc i Hs) as (b' & Hb' & Hi & _).
      assert (b' = b) as -> by congruence. destruct Ho as [H1 H2]. unfold unread in H2. rewrite Hb in H2. cbn in H2. rewrite Hi in H2.
      split; [|intros c Hn; discriminate Hn]. apply complete_in_order; [done|]. by constructor.
  - destruct (recv_request s); [|by injection Hr as <-]. destruct (bev s); [|done]. case_match; [|by injection Hr as <-].
    by apply (recv_callback_in_order s).
  - destruct (recv_request s) as [[]|]; injection Hr as <-; [|done]. split; [|done]. apply complete_in_order; [done|]. by destruct Ho; constructor.
  - destruct (send_request s); [|by injection Hr as <-]. destruct (bev s) as [b|] eqn:Hb; [|done].
    destruct (write_buffer x); [|done]. injection Hr as <-. destruct Ho as [H1 H2]. unfold unread in H2. rewrite Hb in H2. split; [by constructor|].
    intros c Hs. destruct (Hc c Hs) as (b' & Hb' & Hi & Hh). assert (b' = b) as -> by congruence. by eexists.
  - destruct (bev s) as [b|] eqn:Hb; [|done]. destruct (recv_request s) as [[i n]|]; injection Hr as <-; [|done]. split.
    + apply read_in_order; [done|]. by destruct Ho; constructor.
    + intros c Hs. destruct (Hc c Hs) as (b' & Hb' & Hi & Hh). assert (b' = b) as -> by congruence. eexists. split; [done|].
      cbn. rewrite Hi. by rewrite drop_nil.
  - destruct (os_close x); [|done]. by injection Hr as <-.
Qed.

Definition stream (s : tls) : Prop := in_order s /\ connecting_empty s.

Lemma stream_frame s s' :
  log s' = log s -> delivered s' = delivered s -> arrived s' = arrived s -> bev s' = bev s ->
  (connect_request s' = connect_request s \/ connect_request s' = None) -> stream s -> stream s'.
Proof.
  intros Hl Hd Ha Hb Hc [Ho He]. split.
  - apply (in_order_frame s); try done. unfold unread. by rewrite Hb.
  - intros c Hs. destruct Hc as [Hc|Hc]; [|congruence]. rewrite Hb. apply (He c). congruence.
Qed.

Lemma send_callback_stream s s' : send_callback s = Returns s' -> stream s -> stream s'.
Proof.
  unfold send_callback. destruct (send_request s) as [[i n]|]; intros [= <-]; [|done]. intros [Ho Hc].
  split; [|done]. apply complete_in_order; [done|]. by apply (in_order_frame s).
Qed.

(** A buffer with the same input. *)
Lemma set_bev_stream s b b' :
  bev s = Some b -> input b' = input b -> callbacks b' = callbacks b -> handshaking b' = handshaking b ->
  stream s -> stream (set_bev (Some b') s).
Proof.
  intros Hb Hi Hc Hh [Ho He]. split.
  - apply (in_order_frame s); try done. unfold unread. cbn. by rewrite Hb, Hi.
  - intros c Hs. destruct (He c Hs) as (x & Hx & Hn & Hk). assert (x = b) as -> by congruence. exists b'. cbn.
    rewrite Hi, Hc, Hh. done.
Qed.

(** One call of [connect] at most is under way, on a socket that has no buffer but the one
    that the call has made. *)
Definition one_connect (s : tls) : Prop :=
  connects s = [] \/
  exists p n, connects s = [(p, n)] /\ connect_request s = None /\ life s = Alive /\ FConnect ∉ functions s /\
    client_config s = true /\
    match p with
    | PAssign => exists b, bev s = Some b /\ input b = [] /\ callbacks b = false /\ handshaking b = false
    | _ => bev s = None
    end.

Lemma one_connect_inv s k p n : one_connect s -> connects s !! k = Some (p, n) ->
  connects s = [(p, n)] /\ k = 0 /\ connect_request s = None /\ life s = Alive /\ FConnect ∉ functions s /\
  client_config s = true /\
  match p with
  | PAssign => exists b, bev s = Some b /\ input b = [] /\ callbacks b = false /\ handshaking b = false
  | _ => bev s = None
  end.
Proof.
  intros [Hc|(p' & n' & Hc & Hrest)] Hk; rewrite Hc in Hk; [done|]. destruct k as [|k]; [|done]. by injection Hk as -> ->.
Qed.

Lemma connect_step_stream k s s' :
  state_of <$> connect_step k s = Some (Returns s') -> one_connect s -> stream s -> stream s'.
Proof.
  intros (p & n & Hk & Hx)%connect_step_inv Hone Hs.
  destruct (one_connect_inv _ _ _ _ Hone Hk) as (_ & _ & Hc & _ & _ & _ & Hb). rewrite Hc in Hx.
  destruct p; destruct_or?; destruct_and?; simplify_eq; try (by apply (stream_frame s); cbn; auto);
    destruct Hs as [[H1 H2] He]; unfold unread in H2; rewrite ?Hb in H2.
  - split; [by constructor|]. intros c Hn. cbn in Hn. congruence.
  - destruct Hb as (b & Hb & Hi & Hcb & Hh). split; [by constructor|]. intros c Hn. exists b. cbn. by rewrite Hcb.
Qed.

Lemma exec_stream a s s' :
  exec a s = Some (Returns s') -> life s' <> Closed -> one_connect s -> stream s -> stream s'.
Proof.
  intros He Hl Hone Hs. destruct a; cbn [exec] in He.
  - destruct (alive s); [|done]. injection He as <-. unfold connect. destruct (bev s) eqn:Hb; [done|].
    destruct (connect_request s) eqn:Hc; [done|].
    repeat (case_match; try done); by apply (stream_frame s); auto.
  - by apply (connect_step_stream k s).
  - destruct (alive s); [|done]. injection He as <-. unfold recv. destruct (recv_request s); [done|]. by apply (stream_frame s); auto.
  - destruct (is_pending i s); [|done]. injection He as <-. unfold recv_discard. destruct (life s) eqn:Hlf; try done. by apply (stream_frame s); auto.
  - destruct (alive s); [|done]. injection He as [->|[_ ->]]%tls_send_inv; [done|]. by apply (stream_frame s); auto.
  - destruct (alive s); [|done]. injection He as <-. unfold sendfile. destruct (send_request s); [done|].
    destruct prepared; by apply (stream_frame s); auto.
  - destruct (alive s); [|done]. unfold shutdown in He. repeat (case_match; try done); simplify_eq; try done. by apply (stream_frame s); auto.
  - unfold destruct_socket in He. destruct (life s), (functions s), (connects s); try done. injection He as <-. by apply (stream_frame s); auto.
  - unfold async_function in He. destruct (functions s) as [|f fs] eqn:Hf; [done|]. injection He as Hr.
    apply (run_function_in_order _ _ _ _ Hr Hl). by apply (stream_frame s); auto.
  - destruct (bev s) as [b|] eqn:Hb; [|done]. destruct (callbacks b && negb (handshaking b)) eqn:Hcb; [|done]. injection He as <-.
    bool_cases. destruct Hs as [[H1 H2] Hc]. unfold unread in H2. rewrite Hb in H2. cbn in H2. split.
    + constructor; [done|]. cbn. rewrite H2. by rewrite <- app_assoc.
    + intros c Hn. destruct (Hc c Hn) as (x & Hx & Hi & Hh). assert (x = b) as -> by congruence. rewrite Hh in *; done.
  - destruct (bev s) as [b|] eqn:Hb; [|done]. destruct (output b); [done|]. injection He as <-. by apply (set_bev_stream s b).
  - apply from_libevent_inv in He as [He|[= ->]]; [|done]. by apply (recv_callback_in_order s).
  - destruct (bev s) as [b|] eqn:Hb; [|done]. destruct (due b); [|done].
    assert (Hs1 : stream (set_bev (Some (mkBev (input b) (output b) false (callbacks b) (handshaking b))) s)) by by apply (set_bev_stream s b).
    apply from_libevent_inv in He as [He|[= ->]]; [|done]. by eapply send_callback_stream.
  - destruct (bev s) as [b|] eqn:Hb; [|done]. case_match; [done|]. apply from_libevent_inv in He as [He|[= ->]]; [|done].
    by apply (event_callback_in_order e s).
Qed.

(** ** Runs *)

Definition step (s s' : tls) : Prop := exists a, exec a s = Some (Returns s').

(** From a socket that was created, or from one that was accepted. *)
Definition initial (accepted : bool) : tls := if accepted then accepted_init else socket_init.
Definition reachable (accepted : bool) (s : tls) : Prop := steps step (initial accepted) s.

Lemma reachable_accounted acc s : reachable acc s -> accounted s.
Proof.
  intros Hr. apply (steps_invariant step accounted (initial acc) s); [|done|].
  - intros x y Hx [a Ha]. by eapply exec_accounted.
  - intros i. by destruct acc.
Qed.

(** ** The life of a socket *)

(** What the callbacks leave alone. *)
Definition same_life (s s' : tls) : Prop := life s' = life s /\ functions s' = functions s.

Lemma answer_recv_life i n b s s' : answer_recv i n b s = Returns s' -> same_life s s'.
Proof. unfold answer_recv. cases; by intros [= <-]. Qed.
Lemma fail_connect_life c m s s' : fail_connect c m s = Returns s' -> same_life s s'.
Proof. unfold fail_connect. cases; by intros [= <-]. Qed.
Lemma complete_opt_life c a s : same_life s (complete_opt c a s).
Proof. by destruct c. Qed.

Lemma recv_callback_life s s' : recv_callback s = Returns s' -> same_life s s'.
Proof.
  unfold recv_callback. destruct (bev s); [|done]. case_match; [|by intros [= <-]].
  destruct (recv_request s) as [[]|]; [|by intros [= <-]]. intros Ha. by apply answer_recv_life in Ha.
Qed.

Lemma send_callback_life s s' : send_callback s = Returns s' -> same_life s s'.
Proof. unfold send_callback. cases; by intros [= <-]. Qed.

Lemma event_callback_life e s s' : event_callback e s = Returns s' -> same_life s s'.
Proof.
  intros [[= ->]|[Hx|[[_ Hx]|[m Hx]]]]%event_callback_cases; [done| | |]; symmetry in Hx.
  - unfold on_eof in Hx. set (received := match recv_request s with Some _ => _ | None => _ end) in Hx.
    destruct received as [s1|] eqn:Hr; [|done].
    assert (H1 : same_life s s1).
    { subst received. destruct (recv_request s) as [[i n]|]; [|by injection Hr as <-]. destruct (bev _); [|done].
      by apply answer_recv_life in Hr. }
    apply fail_connect_life in Hx. destruct Hx as [Hx1 Hx2], H1 as [Hy1 Hy2].
    destruct (complete_opt_life (fst <$> send_request s) (AFailed "Failed send: connection closed") s1) as [Hz1 Hz2].
    split; congruence.
  - unfold on_connected in Hx. repeat (case_match; try done); by simplify_eq.
  - unfold on_error in Hx. apply fail_connect_life in Hx as [Hx1 Hx2]. by destruct (recv_request s), (send_request s); cbn in *.
Qed.

Lemma run_function_life f x s s' : run_function f x s = Returns s' ->
  functions s' = functions s /\ (life s' = life s \/ life s' = Closed).
Proof.
  destruct f; cbn [run_function].
  - repeat (case_match; try done); intros [= <-]; auto.
  - repeat (case_match; try done); try (intros [= <-]; auto). intros [? ?]%recv_callback_life. auto.
  - repeat (case_match; try done); intros [= <-]; auto.
  - repeat (case_match; try done); intros [= <-]; auto.
  - repeat (case_match; try done); intros [= <-]; auto.
  - destruct (os_close x); [|done]. intros [= <-]. destruct (bev s); auto.
Qed.

Lemma exec_closed a s s' : exec a s = Some (Returns s') -> life s = Closed -> life s' = Closed.
Proof.
  intros He Hl. destruct a; cbn [exec] in He; unfold alive, recv_discard, destruct_socket, from_libevent in He; rewrite ?Hl in He; try done.
  - apply connect_step_inv in He as (p & n & _ & Hx). by destruct p; destruct_or?; destruct_and?; simplify_eq.
  - destruct (is_pending i s); [|done]. by injection He as <-.
  - unfold async_function in He. destruct (functions s); [done|]. injection He as Hr. apply run_function_life in Hr as [_ [Hr|Hr]]; cbn in *; congruence.
  - repeat (case_match; try done). by injection He as <-.
  - repeat (case_match; try done); by injection He as <-.
  - repeat (case_match; try done).
  - repeat (case_match; try done); cbn in *; congruence.
  - repeat (case_match; try done).
Qed.

(** C30: every request to connect, to receive or to send is completed at most once, and is
    pending in its place until it is, or until the socket is destroyed: none is lost and no
    place holds a request that was completed. *)
Theorem tls_requests_answered_once acc s i :
  reachable acc s -> i < requests s ->
  times i (log s).*1 + times i (abandoned s) + times i (slots s) = 1.
Proof.
  intros Hr Hi. pose proof (reachable_accounted _ _ Hr i) as Ha. unfold total in Ha. rewrite Ha.
  apply Nat.ltb_lt in Hi. by rewrite Hi.
Qed.

(** ** No check fails *)

#[global] Instance func_eq_dec : EqDecision func.
Proof. solve_decision. Defined.

(** The user knows that the socket is connected: it was accepted, or the future of a connect
    was ready. *)
Definition established (acc : bool) (s : tls) : Prop := acc = true \/ exists i, (i, AConnected) ∈ log s.

(** How the socket is meant to be used: one call of [connect] returns before the next begins, the
    socket sends and receives when it is connected, it receives at least one byte, and it is not
    shut down while it connects.  The calls of libevent and of the system whose results the code
    only checks succeed. *)
Definition proper (acc : bool) (a : action) (s : tls) : Prop :=
  match a with
  | Connect _ => connects s = []
  | Recv size => 0 < size /\ established acc s
  | Send allocated added _ => allocated = true /\ added = true /\ established acc s
  | Sendfile _ _ => established acc s
  | Shutdown => connect_request s = None /\ connects s = []
  | RunFunction r => write_buffer r = true /\ os_close r = true
  | _ => True
  end.

Definition up (s : tls) : Prop := is_Some (bev s) /\ connect_request s = None /\ connects s = [].

Definition needs_bev (f : func) : Prop := match f with FRecv | FSend _ _ | FShutdown => True | _ => False end.

Record safe (acc : bool) (s : tls) : Prop := mkSafe {
  s_up : established acc s -> life s <> Closed -> up s;
  s_recv i n : recv_request s = Some (i, n) -> 0 < n /\ up s;
  s_send x : send_request s = Some x -> up s;
  s_needs f : f ∈ functions s -> needs_bev f -> up s;
  s_starting : FConnect ∈ functions s -> is_Some (connect_request s) /\ exists b, bev s = Some b /\ callbacks b = false;
  s_starting_once : length (filter (fun f => f = FConnect) (functions s)) <= 1;
  s_connect c : connect_request s = Some c -> is_Some (bev s) /\ client_config s = true;
  s_handshake b : life s = Alive -> bev s = Some b -> handshaking b = true -> is_Some (connect_request s);
  s_dead : life s <> Alive -> recv_request s = None /\ send_request s = None /\ connect_request s = None /\
           forall f, f ∈ functions s -> f = FDestroy;
  s_alive : life s = Alive -> FDestroy ∉ functions s;
  s_one : one_connect s;
}.

(** What a completed receive leaves: the buffer stays. *)
Lemma answer_recv_safe i n b s :
  bev s = Some b -> 0 < n ->
  exists s' b', answer_recv i n b s = Returns s' /\ bev s' = Some b' /\ callbacks b' = callbacks b /\ handshaking b' = handshaking b /\
    (exists d, log s' = log s ++ [(i, AData d)]) /\
    recv_request s' = recv_request s /\ send_request s' = send_request s /\ connect_request s' = connect_request s /\
    functions s' = functions s /\ life s' = life s /\ client_config s' = client_config s /\ connects s' = connects s.
Proof.
  intros Hb Hn. unfold answer_recv. destruct (0 <? length (input b)) eqn:Hl.
  - assert (Ht : (0 <? length (take n (input b))) = true).
    { apply Nat.ltb_lt in Hl. apply Nat.ltb_lt. rewrite length_take. lia. }
    rewrite Ht. eexists _, _. split; [done|]. cbn. split_and!; try done. eauto.
  - eexists _, b. split; [done|]. cbn. split_and!; try done. eauto.
Qed.

Lemma established_snoc acc s s' i a : log s' = log s ++ [(i, a)] -> a <> AConnected -> established acc s' -> established acc s.
Proof.
  intros Hl Ha [He|[j Hj]]; [by left|right]. rewrite Hl in Hj. apply elem_of_app in Hj as [Hj|Hj]; [by exists j|].
  apply list_elem_of_singleton in Hj. congruence.
Qed.

(** A socket that is up and stays up, and loses requests and functions. *)
Lemma safe_up acc s s' :
  safe acc s -> up s -> bev s' <> None -> connect_request s' = None ->
  (forall b, bev s' = Some b -> life s = Alive -> handshaking b = false) ->
  (recv_request s' = recv_request s \/ recv_request s' = None) ->
  (send_request s' = send_request s \/ send_request s' = None) ->
  (forall f, f ∈ functions s' -> f ∈ functions s) -> length (filter (fun f => f = FConnect) (functions s')) <= 1 ->
  life s' = life s -> connects s' = connects s -> safe acc s'.
Proof.
  intros Hs Hup Hb Hc Hh Hr Hw Hf Hl1 Hl Hcs. destruct Hs as [A1 A2 A3 A4 A5 A6 A7 A8 A9 A10 A11].
  assert (Hup' : up s') by (split_and!; [by apply not_eq_None_Some|done|rewrite Hcs; apply Hup]).
  constructor.
  - done.
  - intros i n Hi. destruct Hr as [Hr|Hr]; [|congruence]. rewrite Hr in Hi. split; [by apply (A2 i)|done].
  - done.
  - done.
  - intros Hin%Hf. destruct Hup as (_ & Hn & _). destruct (A5 Hin) as [[c Hc'] _]. congruence.
  - done.
  - congruence.
  - intros b Ha Hb' Hk. rewrite Hl in Ha. rewrite (Hh b Hb' Ha) in Hk. done.
  - rewrite Hl. intros Hd. destruct (A9 Hd) as (D1 & D2 & D3 & D4). split_and!; [destruct Hr; congruence|destruct Hw; congruence|done|].
    intros f Hin. by apply D4, Hf.
  - rewrite Hl. intros Ha Hin. by apply (A10 Ha), Hf.
  - left. apply Hup'.
Qed.

Lemma up_handshake acc s b : safe acc s -> up s -> bev s = Some b -> life s = Alive -> handshaking b = false.
Proof.
  intros Hs (_ & Hn & _) Hb Ha. destruct (handshaking b) eqn:Hh; [|done].
  destruct (s_handshake _ _ Hs b Ha Hb Hh) as [c Hc]. congruence.
Qed.

Lemma recv_callback_safe acc s b : safe acc s -> bev s = Some b -> exists s', recv_callback s = Returns s' /\ safe acc s'.
Proof.
  intros Hs Hb. unfold recv_callback. rewrite Hb. case_match; [|by exists s].
  destruct (recv_request s) as [[i n]|] eqn:Hr; [|by exists s]. destruct (s_recv _ _ Hs i n Hr) as [Hn Hup].
  destruct (answer_recv_safe i n b (set_recv None s) Hb Hn) as (s' & b' & -> & Hb' & _ & Hh & _ & Hr' & Hw' & Hc' & Hf' & Hl' & _ & Hcs').
  exists s'. split; [done|]. apply (safe_up acc s s'); try done; cbn in *.
  - congruence.
  - rewrite Hc'. apply Hup.
  - intros x Hx Ha. rewrite Hb' in Hx. injection Hx as <-. rewrite Hh. by eapply up_handshake.
  - auto.
  - auto.
  - by rewrite Hf'.
  - rewrite Hf'. apply Hs.
Qed.

(** A call of [connect] that is under way, or a request to connect, is the only use of the socket. *)
Lemma not_up_idle acc s : safe acc s -> ~ up s -> life s = Alive ->
  recv_request s = None /\ send_request s = None /\ ~ established acc s /\ forall f, f ∈ functions s -> ~ needs_bev f.
Proof.
  intros Hs Hn Hl. split_and!.
  - destruct (recv_request s) as [[i n]|] eqn:Hr; [|done]. destruct Hn. apply (s_recv _ _ Hs i n Hr).
  - destruct (send_request s) eqn:Hw; [|done]. destruct Hn. exact (s_send _ _ Hs _ Hw).
  - intros He. apply Hn, (s_up _ _ Hs He). congruence.
  - intros f Hf Hb. by apply Hn, (s_needs _ _ Hs f).
Qed.

Lemma connects_idle acc s c : safe acc s -> connect_request s = Some c -> connects s = [].
Proof. intros Hs Hc. destruct (s_one _ _ Hs) as [?|(p & n & _ & Hn & _)]; [done|congruence]. Qed.

Lemma not_connecting acc s c : safe acc s -> connect_request s = Some c ->
  recv_request s = None /\ send_request s = None /\ life s = Alive /\ ~ established acc s /\
  forall f, f ∈ functions s -> ~ needs_bev f.
Proof.
  intros Hs Hc. assert (Hn : ~ up s) by (intros (_ & ? & _); congruence).
  assert (Hl : life s = Alive).
  { destruct (life s) eqn:Hl; [done| |]; destruct (s_dead _ _ Hs ltac:(congruence)) as (_ & _ & ? & _); congruence. }
  destruct (not_up_idle _ _ Hs Hn Hl) as (? & ? & ? & ?). auto.
Qed.

(** A connect that failed. *)
Lemma safe_down acc s s' c :
  safe acc s -> connect_request s = Some c ->
  bev s' = None -> connect_request s' = None -> recv_request s' = None -> send_request s' = None ->
  (forall f, f ∈ functions s' -> f ∈ functions s) -> FConnect ∉ functions s' -> life s' = life s ->
  (established acc s' -> established acc s) -> connects s' = connects s -> safe acc s'.
Proof.
  intros Hs Hc Hb Hc' Hr Hw Hf Hfc Hl He Hcs. pose proof (connects_idle _ _ _ Hs Hc) as Hci. destruct (not_connecting _ _ _ Hs Hc) as (_ & _ & Ha & Hne & Hnb).
  constructor; try congruence; try done.
  - tauto.
  - intros f Hin Hn. destruct (Hnb f); auto.
  - assert (Hnil : filter (fun f => f = FConnect) (functions s') = []).
    { destruct (filter _ _) as [|f l] eqn:Hfil; [done|]. assert (Hin : f ∈ f :: l) by left. rewrite <- Hfil in Hin.
      apply list_elem_of_filter in Hin as [-> Hin]. done. }
    rewrite Hnil. cbn. lia.
  - intros _ Hin. apply (s_alive _ _ Hs Ha). auto.
  - left. congruence.
Qed.

Lemma send_callback_safe acc s b : safe acc s -> bev s = Some b -> exists s', send_callback s = Returns s' /\ safe acc s'.
Proof.
  intros Hs Hb. unfold send_callback. destruct (send_request s) as [[i n]|] eqn:Hw; [|by exists s].
  pose proof (s_send _ _ Hs _ Hw) as Hup. eexists. split; [done|]. apply (safe_up acc s); cbn; try done; auto.
  - congruence.
  - apply Hup.
  - intros x Hx Ha. by apply (up_handshake acc s x).
  - apply Hs.
Qed.

Lemma event_callback_safe acc e s b :
  safe acc s -> life s = Alive -> bev s = Some b -> callbacks b = true -> (is_connected e = true -> handshaking b = true) ->
  exists s', event_callback e s = Returns s' /\ safe acc s'.
Proof.
  intros Hs Halive Hb Hcb Hconn. destruct (connect_request s) as [c|] eqn:Hc.
  - destruct (not_connecting _ _ _ Hs Hc) as (Hr & Hw & Ha & Hne & Hnb). destruct (s_connect _ _ Hs c Hc) as [_ Hcfg].
    assert (Hfc : FConnect ∉ functions s).
    { intros Hin. destruct (s_starting _ _ Hs Hin) as (_ & x & Hx & Hcx). congruence. }
    assert (Hdown : forall m s1, functions s1 = functions s -> life s1 = life s -> recv_request s1 = None -> send_request s1 = None ->
      connect_request s1 = None -> log s1 = log s -> connects s1 = connects s -> safe acc (complete c (AFailed m) (free_bev s1))).
    { intros m s1 Q1 Q2 Q3 Q4 Q5 Q6 Q7. apply (safe_down acc s _ c); cbn; rewrite ?Q1; try done; try congruence.
      eapply established_snoc; [cbn; by rewrite Q6|done]. }
    destruct (event_callback_cases e s _ eq_refl) as [->|[->|[[_ ->]|[m ->]]]]; rewrite ?Hr, ?Hw, ?Hc.
    + by exists s.
    + unfold on_eof, fail_connect. cbn. rewrite Hb. eexists. split; [done|]. by apply Hdown.
    + unfold on_connected. cbn. rewrite Hb, Hcfg. destruct (verify e); [|eexists; split; [done|]; by apply Hdown].
      eexists. split; [done|].
      pose proof (connects_idle _ _ _ Hs Hc) as Hci. constructor; cbn; try done.
      * apply Hs.
      * intros x _ [= <-]. done.
      * by apply Hs.
      * by left.
    + unfold on_error, fail_connect. cbn. rewrite Hb. eexists. split; [done|]. by apply Hdown.
  - assert (Hup : up s).
    { split_and!; [eauto|done|]. destruct (s_one _ _ Hs) as [?|([] & n & _ & _ & _ & _ & _ & Hx)]; [done|congruence..|].
      destruct Hx as (x & Hx & _ & Hcx & _). congruence. }
    pose proof (up_handshake _ _ _ Hs Hup Hb Halive) as Hh.
    assert (Hkeep : forall s', (exists b', bev s' = Some b' /\ handshaking b' = false) -> connect_request s' = None -> recv_request s' = None -> send_request s' = None ->
      functions s' = functions s -> life s' = life s -> connects s' = connects s -> safe acc s').
    { intros s' (b' & Q1 & Q1') Q2 Q3 Q4 Q5 Q6 Q7. apply (safe_up acc s); rewrite ?Q5; try done; auto; try congruence. apply Hs. }
    destruct (event_callback_cases e s _ eq_refl) as [->|[->|[[Hx ->]|[m ->]]]]; rewrite ?Hc.
    + by exists s.
    + unfold on_eof. destruct (recv_request s) as [[i n]|] eqn:Hr.
      * destruct (s_recv _ _ Hs i n Hr) as [Hn _]. change (bev (set_eof (taken_out s))) with (bev s). rewrite Hb.
        destruct (answer_recv_safe i n b (set_eof (taken_out s)) Hb Hn) as (s1 & b1 & -> & Q1 & _ & Q2 & _ & Q3 & Q4 & Q5 & Q6 & Q7 & _ & Q8).
        cbn in *.
        eexists. split; [done|]. apply Hkeep; destruct (send_request s) as [[]|]; cbn; try done; exists b1; split; congruence.
      * cbn. eexists. split; [done|]. apply Hkeep; destruct (send_request s) as [[]|]; cbn; try done; exists b; split; congruence.
    + rewrite (Hconn Hx) in Hh. done.
    + unfold on_error. cbn. eexists. split; [done|].
      apply Hkeep; destruct (send_request s) as [[]|], (recv_request s) as [[]|]; cbn; try done; exists b; split; congruence.
Qed.

Lemma filter_tail f fs : length (filter (fun x => x = FConnect) fs) <= length (filter (fun x => x = FConnect) (f :: fs)).
Proof. rewrite filter_cons. case_decide; cbn; lia. Qed.

Lemma safe_tail acc s f fs : safe acc s -> functions s = f :: fs -> safe acc (set_functions fs s).
Proof.
  intros [A1 A2 A3 A4 A5 A6 A7 A8 A9 A10 A11] Hf. unfold one_connect in A11. rewrite Hf in *.
  assert (Hin : forall x, x ∈ fs -> x ∈ f :: fs) by (intros; by right).
  constructor; cbn; try done; eauto.
  - pose proof (filter_tail f fs). lia.
  - intros Hl. destruct (A9 Hl) as (? & ? & ? & Hd). split_and!; auto.
  - intros Ha Hd. by apply (A10 Ha), Hin.
  - destruct A11 as [?|(p & n & ? & ? & ? & Hn & Hrest)]; [by left|right]. exists p, n. cbn. split_and!; auto; apply Hrest.
Qed.

(** A function that leaves the socket up. *)
Ltac stay_up :=
  match goal with
  | Ht : safe ?acc (set_functions ?fs ?s), Hs : safe ?acc ?s, Hb : bev ?s = Some ?b, Hc : connect_request ?s = None, Hcs : connects ?s = [] |- _ =>
      apply (safe_up acc (set_functions fs s)); cbn;
      [exact Ht|split_and!; [exists b; exact Hb|exact Hc|exact Hcs]|congruence|exact Hc| |by auto|by auto|done|apply Ht|done|done];
      intros ? Hy Ha; assert (Hh : handshaking b = false) by (apply (up_handshake acc s b); [exact Hs|split_and!; [by exists b|exact Hc|exact Hcs]|exact Hb|exact Ha]);
      first [injection Hy as <-; exact Hh|congruence]
  end.

Lemma run_function_safe acc s f fs r : safe acc s -> functions s = f :: fs ->
  write_buffer r = true -> os_close r = true ->
  exists s', run_function f r (set_functions fs s) = Returns s' /\ safe acc s'.
Proof.
  intros Hs Hf Hwb Hcl. pose proof (safe_tail _ _ _ _ Hs Hf) as Ht.
  assert (Hin : f ∈ functions s) by (rewrite Hf; left).
  destruct f; cbn [run_function].
  - destruct (s_starting _ _ Hs Hin) as ([c Hc] & b & Hb & Hcb). change (bev (set_functions fs s)) with (bev s). rewrite Hb.
    assert (Hnf : FConnect ∉ fs).
    { intros Hin'. pose proof (s_starting_once _ _ Hs) as Ho. rewrite Hf, filter_cons_True in Ho by done. cbn in Ho.
      destruct (filter (fun x => x = FConnect) fs) as [|y l] eqn:Hfil; [|cbn in Ho; lia].
      assert (Hx : FConnect ∈ filter (fun x => x = FConnect) fs) by by apply list_elem_of_filter. rewrite Hfil in Hx. set_solver. }
    destruct (not_connecting _ _ _ Ht Hc) as (Hr & Hw & Hl & Hne & Hnb).
    pose proof (connects_idle _ _ _ Ht Hc) as Hci. destruct (socket_connect r).
    + eexists. split; [done|]. destruct Ht as [A1 A2 A3 A4 A5 A6 A7 A8 A9 A10 A11]. constructor; cbn in *; try done; eauto; try congruence.
      * intros f Hfi Hn. by destruct (Hnb f).
      * intros c' Hc'. split; [eauto|]. by apply (A7 c').
      * by left.
    + change (connect_request (set_functions fs s)) with (connect_request s). rewrite Hc. eexists. split; [done|].
      apply (safe_down acc (set_functions fs s) _ c); cbn; try done. by eapply established_snoc.
  - change (recv_request (set_functions fs s)) with (recv_request s).
    destruct (recv_request s) as [[i n]|] eqn:Hr; [|by eexists]. destruct (s_recv _ _ Hs i n Hr) as (_ & [b Hb] & _).
    change (bev (set_functions fs s)) with (bev s). rewrite Hb. case_match; [|by eexists]. by eapply recv_callback_safe.
  - change (recv_request (set_functions fs s)) with (recv_request s).
    destruct (recv_request s) as [[i' n]|] eqn:Hr; [|by eexists]. destruct (s_recv _ _ Hs i' n Hr) as [_ Hup].
    eexists. split; [done|]. destruct Hup as ([b Hb] & Hc & Hcs). stay_up.
  - destruct (s_needs _ _ Hs _ Hin I) as ([b Hb] & Hc & Hcs). change (send_request (set_functions fs s)) with (send_request s).
    destruct (send_request s); [|by eexists]. change (bev (set_functions fs s)) with (bev s). rewrite Hb, Hwb. eexists. split; [done|].
    stay_up.
  - destruct (s_needs _ _ Hs _ Hin I) as ([b Hb] & Hc & Hcs). change (bev (set_functions fs s)) with (bev s). rewrite Hb.
    change (recv_request (set_functions fs s)) with (recv_request s).
    destruct (recv_request s) as [[i n]|]; [|by eexists]. eexists. split; [done|].
    stay_up.
  - assert (Hl : life s <> Alive) by (intros Ha; by apply (s_alive _ _ Hs Ha)).
    destruct (s_dead _ _ Hs Hl) as (D1 & D2 & D3 & D4). rewrite Hcl. eexists. split; [done|].
    assert (Hcs : connects s = []) by (destruct (s_one _ _ Hs) as [?|(? & ? & _ & _ & ? & _)]; [done|congruence]).
    assert (Hfs : forall f, f ∈ fs -> f = FDestroy) by (intros f Hfi; apply D4; rewrite Hf; by right).
    assert (Hnc : filter (fun f => f = FConnect) fs = []).
    { destruct (filter _ _) as [|y l] eqn:Hfil; [done|]. assert (Hy : y ∈ y :: l) by left. rewrite <- Hfil in Hy.
      apply list_elem_of_filter in Hy as [-> Hy]. by specialize (Hfs _ Hy). }
    change (bev (set_functions fs s)) with (bev s).
    destruct (bev s) eqn:Hb; (constructor; cbn; [done|congruence|congruence| |intros Hc%Hfs; done|rewrite Hnc; cbn; lia|congruence|congruence|done|done|by left]).
    + intros f Hfi Hn. by rewrite (Hfs f Hfi) in Hn.
    + intros f Hfi Hn. by rewrite (Hfs f Hfi) in Hn.
Qed.

Lemma safe_unchanged acc s s' :
  safe acc s -> bev s' = bev s -> recv_request s' = recv_request s -> send_request s' = send_request s ->
  connect_request s' = connect_request s -> functions s' = functions s -> life s' = life s -> log s' = log s ->
  (client_config s = true -> client_config s' = true) -> connects s' = connects s -> safe acc s'.
Proof.
  intros [A1 A2 A3 A4 A5 A6 A7 A8 A9 A10 A11] Q1 Q2 Q3 Q4 Q5 Q6 Q7 Q8 Q9.
  constructor; unfold established, up, one_connect in *; rewrite ?Q1, ?Q2, ?Q3, ?Q4, ?Q5, ?Q6, ?Q7, ?Q9 in *; try done.
  - intros c Hc. destruct (A7 c Hc). auto.
  - destruct A11 as [?|(p & n & ? & ? & ? & ? & ? & ?)]; [by left|right]. exists p, n. auto 10.
Qed.

(** A function is added to the queue. *)
Lemma safe_enqueue acc f s :
  safe acc s -> life s = Alive -> f <> FConnect -> f <> FDestroy -> (needs_bev f -> up s) -> safe acc (run_in_event_loop f s).
Proof.
  intros [A1 A2 A3 A4 A5 A6 A7 A8 A9 A10 A11] Hl Hc Hd Hn. constructor; cbn; try done.
  - intros g [Hg|Hg%list_elem_of_singleton]%elem_of_app; [by apply A4|by subst].
  - intros [Hg|Hg%list_elem_of_singleton]%elem_of_app; [auto|congruence].
  - rewrite filter_app, length_app, filter_cons_False by done. cbn. lia.
  - intros _ [Hg|Hg%list_elem_of_singleton]%elem_of_app; [by apply A10|congruence].
  - destruct A11 as [?|(p & n & ? & ? & ? & Hn' & Hrest)]; [by left|right]. exists p, n. cbn. split_and!; try done; [|apply Hrest..].
    by intros [Hg|Hg%list_elem_of_singleton]%elem_of_app.
Qed.

Lemma alive_spec s : alive s = true <-> life s = Alive.
Proof. unfold alive. by destruct (life s). Qed.

(** A call of [connect] begins, or goes on and the socket is not up: the other parts of the
    invariant hold of a socket that nobody uses yet. *)
Lemma safe_idle acc s s' :
  safe acc s -> ~ up s -> life s = Alive -> connect_request s = None -> FConnect ∉ functions s ->
  (forall b, bev s' = Some b -> handshaking b = false) ->
  recv_request s' = recv_request s -> send_request s' = send_request s -> connect_request s' = None ->
  functions s' = functions s -> life s' = life s -> log s' = log s -> one_connect s' -> safe acc s'.
Proof.
  intros Hs Hnup Hl Hc Hfc Hh Q1 Q2 Q3 Q4 Q5 Q6 Hone. destruct (not_up_idle _ _ Hs Hnup Hl) as (Hr & Hw & Hne & Hnb).
  assert (Hne' : ~ established acc s') by (unfold established in *; by rewrite Q6).
  constructor; rewrite ?Q1, ?Q2, ?Q4, ?Q5; try done; try congruence.
  - intros f Hf Hn. by destruct (Hnb f).
  - apply Hs.
  - intros b _ Hb Hx. by rewrite (Hh b Hb) in Hx.
  - apply Hs.
Qed.

Lemma no_buffer_not_up s : bev s = None -> ~ up s.
Proof. intros Hb [[? ?] _]. congruence. Qed.

Lemma connect_safe acc env s : safe acc s -> life s = Alive -> connects s = [] -> safe acc (connect env s).2.
Proof.
  intros Hs Hl Hcs. unfold connect. destruct (bev s) eqn:Hb; [done|]. destruct (connect_request s) eqn:Hc; [done|].
  pose proof (no_buffer_not_up s Hb) as Hnup.
  repeat (case_match; try done); try (apply (safe_unchanged acc s); done).
  assert (Hfc : FConnect ∉ functions s) by (intros Hf; destruct (s_starting _ _ Hs Hf) as [_ (b & ? & _)]; congruence).
  apply (safe_idle acc s); cbn; try done; [congruence|]. right. rewrite Hcs. exists PCheck, (bev_new env). cbn. auto 10.
Qed.

Lemma connect_step_safe acc k s x :
  safe acc s -> state_of <$> connect_step k s = Some x -> exists s', x = Returns s' /\ safe acc s'.
Proof.
  intros Hs (p & n & Hk & Hx)%connect_step_inv.
  destruct (one_connect_inv _ _ _ _ (s_one _ _ Hs) Hk) as (Hcs & -> & Hc & Hl & Hfc & Hcfg & Hb).
  assert (Hnup : ~ up s) by (intros (_ & _ & ?); congruence). rewrite Hcs in Hx. destruct p.
  - destruct Hx as [[_ ->]|[[? ?] _]]; [|congruence]. eexists. split; [done|].
    apply (safe_idle acc s); cbn; try done; [congruence|]. right. exists PNew, n. auto 10.
  - destruct Hx as [[-> ->]|[-> ->]]; (eexists; split; [done|]); apply (safe_idle acc s); cbn; try done.
    + by intros b [= <-].
    + right. exists PAssign, true. cbn. split_and!; try done. by eexists.
    + by left.
  - rewrite Hc in Hx. destruct Hx as [[_ ->]|[[[? ?] _]|[[? ?] _]]]; [|done..]. eexists. split; [done|].
    destruct Hb as (b & Hb & _ & Hcb & Hh). destruct (not_up_idle _ _ Hs Hnup Hl) as (Hr & Hw & Hne & Hnb).
    assert (Hfil : filter (fun f => f = FConnect) (functions s) = []).
    { destruct (filter _ _) as [|y l] eqn:Hf; [done|]. assert (Hy : y ∈ y :: l) by left. rewrite <- Hf in Hy.
      by apply list_elem_of_filter in Hy as [-> Hy]. }
    constructor; cbn; try done; try congruence.
    + intros f [Hf|Hf%list_elem_of_singleton]%elem_of_app Hn; [|by subst]. by destruct (Hnb f).
    + intros _. split; [eauto|]. by eexists.
    + rewrite filter_app, Hfil, filter_cons_True by done. cbn. lia.
    + intros _ [Hf|Hf%list_elem_of_singleton]%elem_of_app; [by apply (s_alive _ _ Hs Hl)|done].
    + by left.
Qed.

(** Libevent changes the buffer. *)
Lemma safe_buffer acc s b b' :
  safe acc s -> bev s = Some b -> callbacks b' = callbacks b -> handshaking b' = handshaking b ->
  (callbacks b = true \/ input b' = input b) -> safe acc (set_bev (Some b') s).
Proof.
  intros [A1 A2 A3 A4 A5 A6 A7 A8 A9 A10 A11] Hb Hc Hh Hi. assert (Hup : up s -> up (set_bev (Some b') s)) by (intros [_ ?]; by split; [eauto|]).
  constructor; cbn; try done; eauto.
  - intros i n Hr. destruct (A2 i n Hr). auto.
  - intros Hf. destruct (A5 Hf) as (? & x & Hx & Hcx). split; [done|]. exists b'. split; [done|]. congruence.
  - intros c Hs. destruct (A7 c Hs). split; [eauto|done].
  - intros x Ha [= <-] Hx. apply (A8 b Ha Hb). congruence.
  - destruct A11 as [?|(p & n & ? & ? & ? & ? & ? & Hx)]; [by left|right]. exists p, n. cbn. split_and!; try done.
    destruct p; [congruence..|]. destruct Hx as (x & Hx & Hix & Hcx & Hhx). assert (x = b) as -> by congruence.
    exists b'. destruct Hi; split_and!; congruence.
Qed.

Lemma from_libevent_safe acc k s x :
  safe acc s -> from_libevent k s = Some x ->
  (forall b, bev s = Some b -> callbacks b = true -> life s = Alive -> exists s', k s = Returns s' /\ safe acc s') ->
  exists s', x = Returns s' /\ safe acc s'.
Proof.
  intros Hs Hf Hk. unfold from_libevent in Hf. destruct (bev s) as [b|] eqn:Hb; [|done]. destruct (callbacks b) eqn:Hc; [|done].
  destruct (life s) eqn:Hl; simplify_eq; [by eapply Hk|by eexists].
Qed.

Lemma exec_safe acc a s x : safe acc s -> proper acc a s -> exec a s = Some x -> exists s', x = Returns s' /\ safe acc s'.
Proof.
  intros Hs Hp He. destruct a; cbn [exec proper] in *.
  - destruct (alive s) eqn:Ha; [|done]. apply alive_spec in Ha. injection He as <-. eexists. split; [done|]. by apply connect_safe.
  - by apply (connect_step_safe acc k s).
  - destruct (alive s) eqn:Ha; [|done]. apply alive_spec in Ha. injection He as <-. eexists. split; [done|]. destruct Hp as [Hn Hes].
    assert (Hup : up s) by (apply (s_up _ _ Hs Hes); congruence). unfold recv. destruct (recv_request s) eqn:Hr; [done|].
    apply (safe_enqueue acc FRecv (set_recv (Some (requests s, size)) (new_request s))); try done.
    destruct Hs as [A1 A2 A3 A4 A5 A6 A7 A8 A9 A10 A11]. constructor; cbn; try done. by intros i n [= <- <-].
  - destruct (is_pending i s); [|done]. injection He as <-. eexists. split; [done|]. unfold recv_discard.
    destruct (life s) eqn:Hl; [|done|done]. by apply safe_enqueue.
  - destruct Hp as (-> & -> & Hp). destruct (alive s) eqn:Ha; [|done]. apply alive_spec in Ha. injection He as <-.
    assert (Hup : up s) by (apply (s_up _ _ Hs Hp); congruence). unfold send. destruct (send_request s) eqn:Hr; [by eexists|].
    eexists. split; [done|].
    apply (safe_enqueue acc (FSend _ _) (set_send (Some (requests s, length data)) (new_request s))); try done.
    destruct Hs as [A1 A2 A3 A4 A5 A6 A7 A8 A9 A10 A11]. by constructor.
  - destruct (alive s) eqn:Ha; [|done]. apply alive_spec in Ha. injection He as <-. eexists. split; [done|].
    assert (Hup : up s) by (apply (s_up _ _ Hs Hp); congruence). unfold sendfile. destruct (send_request s) eqn:Hr; [done|].
    assert (Hs1 : safe acc (set_send (Some (requests s, length data)) (new_request s)))
      by (destruct Hs as [A1 A2 A3 A4 A5 A6 A7 A8 A9 A10 A11]; by constructor).
    destruct prepared; [|done]. by apply safe_enqueue.
  - destruct (alive s) eqn:Ha; [|done]. apply alive_spec in Ha. injection He as <-. unfold shutdown. destruct Hp as [Hp Hcs].
    destruct (bev s) as [b|] eqn:Hb; [eexists; split; [done|]; apply safe_enqueue; try done; by split_and!; [eauto|..]|].
    pose proof (no_buffer_not_up s Hb) as Hnup. rewrite Hp.
    destruct (recv_request s) as [[i n]|] eqn:Hr; [destruct Hnup; by apply (s_recv _ _ Hs i n)|].
    destruct (send_request s) eqn:Hw; [destruct Hnup; by apply (s_send _ _ Hs _ Hw)|]. by eexists.
  - unfold destruct_socket in He. destruct (life s) eqn:Hl, (functions s) eqn:Hf, (connects s) eqn:Hcs; try done.
    injection He as <-. eexists. split; [done|]. cbn. unfold run_in_event_loop. cbn. rewrite Hf.
    destruct Hs as [A1 A2 A3 A4 A5 A6 A7 A8 A9 A10 A11]. constructor; cbn; try done; try congruence.
    + intros He _. by split_and!; [apply A1; [|congruence]|..].
    + by intros f Hx%list_elem_of_singleton Hn; subst.
    + intros Hx%list_elem_of_singleton. done.
    + case_decide; cbn; lia.
    + intros _. split_and!; try done. by intros f Hx%list_elem_of_singleton.
    + by left.
  - destruct Hp. unfold async_function in He. destruct (functions s) as [|f fs] eqn:Hf; [done|]. injection He as <-.
    by apply run_function_safe.
  - destruct (bev s) as [b|] eqn:Hb; [|done]. destruct (callbacks b && negb (handshaking b)) eqn:Hcb; [|done]. bool_cases. injection He as <-. eexists. split; [done|].
    apply (safe_unchanged acc (set_bev (Some (mkBev (input b ++ data) (output b) (due b) (callbacks b) (handshaking b))) s)); try done.
    by apply (safe_buffer acc s b); auto.
  - destruct (bev s) as [b|] eqn:Hb; [|done]. destruct (output b); [done|]. injection He as <-. eexists. split; [done|].
    by apply (safe_buffer acc s b); auto.
  - eapply (from_libevent_safe acc _ _ _ Hs He). intros b Hb _ _. by apply (recv_callback_safe acc s b).
  - destruct (bev s) as [b|] eqn:Hb; [|done]. destruct (due b); [|done].
    assert (Hs1 : safe acc (set_bev (Some (mkBev (input b) (output b) false (callbacks b) (handshaking b))) s)) by (apply (safe_buffer acc s b); auto).
    eapply (from_libevent_safe acc _ _ _ Hs1 He). intros b' Hb' _ _. by apply (send_callback_safe acc _ b').
  - destruct (bev s) as [b|] eqn:Hb; [|done]. destruct (is_connected e && negb (handshaking b)) eqn:Hc; [done|].
    eapply (from_libevent_safe acc _ _ _ Hs He). intros b' Hb' Hcb Ha. assert (b' = b) as -> by congruence.
    apply (event_callback_safe acc e s b); try done. intros Hx. rewrite Hx in Hc. cbn in Hc. by apply negb_false_iff in Hc.
Qed.

Lemma initial_safe acc : safe acc (initial acc).
Proof.
  destruct acc; constructor; cbn; try done; try lia; try congruence; try set_solver.
  all: try by left.
  intros [He|[i Hi]]; [done|]. cbn in Hi. set_solver.
Qed.

Definition proper_step (acc : bool) (s s' : tls) : Prop := exists a, proper acc a s /\ exec a s = Some (Returns s').

(** A run in which the socket is used as it is meant to be. *)
Definition proper_run (acc : bool) (s : tls) : Prop := steps (proper_step acc) (initial acc) s.

Lemma proper_run_safe acc s : proper_run acc s -> safe acc s.
Proof.
  intros Hr. apply (steps_invariant (proper_step acc) (safe acc) (initial acc) s); [|done|apply initial_safe].
  intros x y Hx (b & Hb & Hb'). destruct (exec_safe _ _ _ _ Hx Hb Hb') as (s' & [= ->] & Hs'). done.
Qed.

(** C29: no [CHECK] fails and no buffer is used after it was freed, in any interleaving of calls,
    functions of the event loop and callbacks of libevent, as long as the socket is used as it
    is meant to be ([proper]): one call of [connect] returns before the next begins, the socket
    sends and receives when it is connected, receives at least one byte, and is not shut down
    while it connects; and as long as [evbuffer_new], [evbuffer_add], [bufferevent_write_buffer],
    [evbuffer_add_file] and [os::close], whose failures the code turns into failed checks,
    succeed.  [concurrent_connects], [shutdown_while_connecting], [receive_of_nothing] and
    [libevent_fails] below are runs without these conditions, which abort. *)
Theorem tls_no_check_fails acc s a m :
  proper_run acc s -> proper acc a s -> exec a s <> Some (Abort m).
Proof.
  intros Hr%proper_run_safe Hp He. by destruct (exec_safe _ _ _ _ Hr Hp He) as (s' & ? & _).
Qed.

Lemma proper_run_stream acc s : proper_run acc s -> life s <> Closed -> stream s.
Proof.
  intros Hr. enough (Hx : safe acc s /\ (life s = Closed \/ stream s)) by (intros; destruct Hx as [_ []]; done).
  apply (steps_invariant (proper_step acc) (fun s => safe acc s /\ (life s = Closed \/ stream s)) (initial acc) s); [|done|].
  - intros x y [Hs Hx] (a & Hp & Ha). split; [by destruct (exec_safe _ _ _ _ Hs Hp Ha) as (s' & [= ->] & Hs')|].
    destruct Hx as [Hx|Hx]; [left; by eapply exec_closed|].
    destruct (life y) eqn:Hl; [right|right|by left]; eapply exec_stream; try (done || congruence); apply Hs.
  - split; [apply initial_safe|]. right. split; [by destruct acc|]. intros c Hc. by destruct acc.
Qed.

(** What the receives return, one after the other, is what arrived, without gaps and in
    order; the rest waits in the buffer. *)
Theorem tls_receives_in_order acc s :
  proper_run acc s -> life s <> Closed -> arrived s = received s ++ unread s.
Proof. intros Hr Hl. destruct (proper_run_stream _ _ Hr Hl) as [[H1 H2] _]. by rewrite H1. Qed.

(** ** What is sent *)

Definition no_failure (s : tls) : Prop := forall i m, (i, AFailed m) ∉ log s.

(** The buffer has nothing to send, and owes no callback. *)
Definition quiet (s : tls) : Prop := forall b, bev s = Some b -> output b = [] /\ due b = false.

Definition is_send (f : func) : bool := match f with FSend _ _ => true | _ => false end.
Definition wrote (i n : nat) (s : tls) : Prop := exists d, (i, d) ∈ written s /\ length d = n.

Record sends (s : tls) : Prop := mkSends {
  n_log i n : (i, ASent n) ∈ log s -> wrote i n s;
  n_slot i n : send_request s = Some (i, n) -> quiet s \/ wrote i n s;
  n_none : send_request s = None -> quiet s;
  n_func i d : FSend i d ∈ functions s -> send_request s = Some (i, length d) /\ quiet s;
  n_one : length (List.filter is_send (functions s)) <= 1;
  n_due b : bev s = Some b -> due b = true -> output b = [];
}.

(** The places, the queue and the buffers of the sends are as before, or the buffer is new. *)
Record same_sends (s s' : tls) : Prop := mkSameSends {
  e_send : send_request s' = send_request s;
  e_written : written s' = written s;
  e_func f : is_send f = true -> f ∈ functions s' -> f ∈ functions s;
  e_one : length (List.filter is_send (functions s')) <= length (List.filter is_send (functions s));
  e_bev b' : bev s' = Some b' -> (output b' = [] /\ due b' = false) \/
             exists b, bev s = Some b /\ output b' = output b /\ due b' = due b;
  e_log i n : (i, ASent n) ∈ log s' -> (i, ASent n) ∈ log s;
}.

Lemma same_sends_quiet s s' : same_sends s s' -> quiet s -> quiet s'.
Proof.
  intros Hs Hq b' Hb'. destruct (e_bev _ _ Hs b' Hb') as [?|(b & Hb & -> & ->)]; [done|]. by apply Hq.
Qed.

Lemma same_sends_sends s s' : same_sends s s' -> sends s -> sends s'.
Proof.
  intros He [A1 A2 A3 A4 A5 A6]. pose proof (same_sends_quiet _ _ He) as Hq.
  destruct He as [E1 E2 E3 E4 E5 E6]. unfold wrote in *. constructor; unfold wrote; rewrite ?E1, ?E2; eauto.
  - intros i n Hw. destruct (A2 i n Hw); eauto.
  - intros i d Hf. destruct (A4 i d (E3 (FSend i d) eq_refl Hf)). auto.
  - lia.
  - intros b' Hb' Hd. destruct (E5 b' Hb') as [[? _]|(b & Hb & -> & Hdb)]; [done|]. apply (A6 b Hb). congruence.
Qed.

Lemma same_sends_refl s : same_sends s s.
Proof. constructor; try done. intros b Hb. right. eauto. Qed.

Ltac same_sends :=
  constructor; cbn; try done;
  [intros b' Hb'; simplify_eq; right; eauto
  |intros ? ? Hin; rewrite ?elem_of_app, ?list_elem_of_singleton in Hin; naive_solver].

Lemma answer_recv_sends i n b s s' : bev s = Some b -> answer_recv i n b s = Returns s' -> same_sends s s'.
Proof. intros Hb. unfold answer_recv. cases; intros [= <-]; same_sends. Qed.

Lemma recv_callback_sends s s' : recv_callback s = Returns s' -> same_sends s s'.
Proof.
  unfold recv_callback. destruct (bev s) as [b|] eqn:Hb; [|done]. case_match; [|intros [= <-]; apply same_sends_refl].
  destruct (recv_request s) as [[i n]|]; [|intros [= <-]; apply same_sends_refl].
  intros [E1 E2 E3 E4 E5 E6]%answer_recv_sends; [|done]. by constructor.
Qed.

Lemma same_sends_trans s1 s2 s3 : same_sends s1 s2 -> same_sends s2 s3 -> same_sends s1 s3.
Proof.
  intros [A1 A2 A3 A4 A5 A6] [B1 B2 B3 B4 B5 B6]. constructor; try congruence; eauto; [lia|].
  intros b' Hb'. destruct (B5 b' Hb') as [?|(b & Hb & -> & ->)]; eauto.
Qed.

Lemma complete_sends i a s : (forall n, a <> ASent n) -> same_sends s (complete i a s).
Proof.
  intros Ha. constructor; cbn; try done; [by eauto|]. intros j n [?|Hin%list_elem_of_singleton]%elem_of_app; [done|].
  injection Hin as -> <-. by destruct (Ha n).
Qed.

Lemma fail_connect_sends c m s s' : fail_connect c m s = Returns s' -> same_sends s s'.
Proof.
  unfold fail_connect. destruct c as [i|]; [|intros [= <-]; apply same_sends_refl]. destruct (bev s); [|done]. intros [= <-].
  eapply same_sends_trans; [|by apply complete_sends]. by constructor.
Qed.

Lemma complete_opt_failed i m s : no_failure (complete_opt (Some i) (AFailed m) s) -> False.
Proof. intros Hn. apply (Hn i m). cbn. set_solver. Qed.

(** The log only grows. *)
#[local] Notation logs s s' := (forall x, x ∈ log s -> x ∈ log s').

Lemma logs_complete i a s : logs s (complete i a s).
Proof. intros x Hx. cbn. set_solver. Qed.
Lemma logs_complete_opt c a s : logs s (complete_opt c a s).
Proof. destruct c; [apply logs_complete|auto]. Qed.
Lemma fail_connect_logs c m s s' : fail_connect c m s = Returns s' -> logs s s'.
Proof. unfold fail_connect. cases; intros [= <-]; [apply (logs_complete _ _ (free_bev s))|auto]. Qed.
Lemma answer_recv_logs i n b s s' : answer_recv i n b s = Returns s' -> logs s s'.
Proof. unfold answer_recv. cases; intros [= <-] x Hx; cbn; set_solver. Qed.
Lemma recv_callback_logs s s' : recv_callback s = Returns s' -> logs s s'.
Proof.
  unfold recv_callback. destruct (bev s); [|done]. case_match; [|by intros [= <-]].
  destruct (recv_request s) as [[]|]; [|by intros [= <-]]. intros Ha. exact (answer_recv_logs _ _ _ _ _ Ha).
Qed.

Lemma event_callback_sends e s s' : event_callback e s = Returns s' ->
  logs s s' /\ (no_failure s' -> same_sends s s').
Proof.
  assert (Hto : send_request s = None -> same_sends s (taken_out s)).
  { intros Hw. constructor; cbn; try done. eauto. }
  intros [[= ->]|[Hx|[[_ Hx]|[m Hx]]]]%event_callback_cases; [by split; [|intros; apply same_sends_refl]| | |]; symmetry in Hx.
  - unfold on_eof in Hx. set (received := match recv_request s with Some _ => _ | None => _ end) in Hx.
    destruct received as [s1|] eqn:Hr; [|done].
    assert (Hr1 : logs s s1 /\ same_sends (taken_out s) s1).
    { subst received. destruct (recv_request s) as [[i n]|].
      - destruct (bev (set_eof (taken_out s))) eqn:Hb; [|done]. split; [exact (answer_recv_logs _ _ _ _ _ Hr)|].
        apply answer_recv_sends in Hr as [E1 E2 E3 E4 E5 E6]; [|done]. by constructor.
      - injection Hr as <-. split; [done|]. by constructor; cbn; eauto. }
    destruct Hr1 as [Hl1 Hs1]. pose proof (fail_connect_logs _ _ _ _ Hx) as Hl2. split.
    + intros x Hin. apply Hl2, logs_complete_opt, Hl1, Hin.
    + intros Hn. destruct (send_request s) as [[i n]|] eqn:Hw.
      * exfalso. eapply (complete_opt_failed i). intros j m' Hj. by apply (Hn j m'), Hl2.
      * apply fail_connect_sends in Hx. eapply same_sends_trans; [by apply Hto|]. by eapply same_sends_trans.
  - unfold on_connected in Hx. destruct (recv_request s), (send_request s) eqn:Hw, (connect_request s); try done.
    destruct (bev (taken_out s)) as [b|] eqn:Hb; [|done]. destruct (client_config _); [|done]. destruct (verify e).
    + injection Hx as <-. split; [intros x Hin; by apply logs_complete|]. intros _. eapply same_sends_trans; [by apply Hto|].
      eapply same_sends_trans; [|by apply complete_sends]. constructor; cbn; try done. intros b' [= <-]. right. exists b. done.
    + injection Hx as <-. split; [intros x Hin; by apply logs_complete|]. intros Hn. destruct (Hn n message). cbn. set_solver.
  - unfold on_error in Hx. pose proof (fail_connect_logs _ _ _ _ Hx) as Hl2. split.
    + intros x Hin. by apply Hl2, logs_complete_opt, logs_complete_opt.
    + intros Hn. destruct (send_request s) as [[i n]|] eqn:Hw.
      * exfalso. eapply (complete_opt_failed i). intros j m' Hj. by apply (Hn j m'), Hl2.
      * apply fail_connect_sends in Hx. eapply same_sends_trans; [by apply Hto|]. cbn in Hx.
        eapply same_sends_trans; [|exact Hx]. destruct (recv_request s); [by apply complete_sends|apply same_sends_refl].
Qed.

Lemma send_callback_logs s s' : send_callback s = Returns s' -> logs s s'.
Proof. unfold send_callback. cases; intros [= <-]; [apply (logs_complete _ _ (set_send None s))|auto]. Qed.

Lemma run_function_logs f x s s' : run_function f x s = Returns s' -> logs s s'.
Proof.
  destruct f; cbn [run_function].
  - cases; intros [= <-] y Hy; cbn; set_solver.
  - destruct (recv_request s); [|by intros [= <-]]. destruct (bev s); [|done]. case_match; [apply recv_callback_logs|by intros [= <-]].
  - cases; intros [= <-] y Hy; cbn; set_solver.
  - cases; intros [= <-] y Hy; cbn; set_solver.
  - cases; intros [= <-] y Hy; cbn; set_solver.
  - destruct (os_close x); [|done]. intros [= <-] y Hy. cbn. by destruct (bev s).
Qed.

Lemma exec_logs a s s' : exec a s = Some (Returns s') -> logs s s'.
Proof.
  destruct a; cbn [exec].
  - destruct (alive s); [|done]. intros [= <-]. unfold connect. by cases.
  - intros (p & n & _ & Hx)%connect_step_inv. by destruct p; destruct_or?; destruct_and?; simplify_eq.
  - destruct (alive s); [|done]. intros [= <-]. unfold recv. by cases.
  - destruct (is_pending i s); [|done]. intros [= <-]. unfold recv_discard. by cases.
  - destruct (alive s); [|done]. by intros [= [->|[_ ->]]%tls_send_inv].
  - destruct (alive s); [|done]. intros [= <-]. unfold sendfile. by cases.
  - destruct (alive s); [|done]. unfold shutdown. by cases; intros [= <-].
  - unfold destruct_socket. by cases; intros [= <-].
  - unfold async_function. destruct (functions s) as [|f fs]; [done|]. intros [= Hr]. exact (run_function_logs _ _ _ _ Hr).
  - destruct (bev s); [|done]. case_match; [|done]. by intros [= <-].
  - destruct (bev s) as [b|]; [|done]. destruct (output b); [done|]. by intros [= <-].
  - intros [Hx|[= ->]]%from_libevent_inv; [|done]. by apply recv_callback_logs.
  - destruct (bev s) as [b|]; [|done]. destruct (due b); [|done]. intros [Hx|[= ->]]%from_libevent_inv; [|done].
    symmetry in Hx. exact (send_callback_logs _ _ Hx).
  - destruct (bev s) as [b|]; [|done]. case_match; [done|]. intros [Hx|[= ->]]%from_libevent_inv; [|done].
    symmetry in Hx. by apply event_callback_sends in Hx as [? _].
Qed.

(** Without a send in the queue a place for sends that is free can be filled. *)
Lemma sends_start s i d :
  sends s -> send_request s = None ->
  sends (set_send (Some (i, length d)) (new_request s)) /\
  sends (run_in_event_loop (FSend i d) (set_send (Some (i, length d)) (new_request s))).
Proof.
  intros [A1 A2 A3 A4 A5 A6] Hn. specialize (A3 Hn).
  assert (Hno : forall j e, FSend j e ∉ functions s) by (intros j e Hf; destruct (A4 j e Hf); congruence).
  assert (Hf0 : List.filter is_send (functions s) = []).
  { destruct (List.filter _ _) as [|f l] eqn:Hf; [done|]. assert (Hin : In f (f :: l)) by by left. rewrite <- Hf in Hin.
    apply filter_In in Hin as [Hin Hs]. apply list_elem_of_In in Hin. destruct f; try done. by destruct (Hno i0 data). }
  split; constructor; cbn; try done; eauto.
  - intros j e Hf. by destruct (Hno j e).
  - intros j e [Hf|Hf%list_elem_of_singleton]%elem_of_app; [by destruct (Hno j e)|]. by injection Hf as -> ->.
  - rewrite List.filter_app, Hf0. cbn. lia.
Qed.

(** The function of a send gives its data to the buffer. *)
Lemma sends_write s fs i d b :
  sends s -> functions s = FSend i d :: fs -> bev s = Some b ->
  sends (add_written (i, d) (set_bev (Some (mkBev (input b) (output b ++ d) (due b) (callbacks b) (handshaking b))) (set_functions fs s))).
Proof.
  intros [A1 A2 A3 A4 A5 A6] Hf Hb. destruct (A4 i d) as [Hs Hq]; [rewrite Hf; left|]. destruct (Hq b Hb) as [Ho Hd].
  rewrite Hf in A5. cbn in A5.
  assert (Hno : forall j e, FSend j e ∉ fs).
  { intros j e Hin%list_elem_of_In. assert (Hin' : In (FSend j e) (List.filter is_send fs)) by by apply filter_In.
    destruct (List.filter is_send fs); [done|]. cbn in A5. lia. }
  constructor; cbn; try done; eauto.
  - intros j n Hl. destruct (A1 j n Hl) as (e & He & Hle). exists e. cbn. set_solver.
  - intros j n Hj. right. assert (j = i /\ n = length d) as [-> ->] by (split; congruence). exists d. cbn. set_solver.
  - congruence.
  - intros j e Hin. by destruct (Hno j e).
  - lia.
  - intros b' [= <-] Hx. cbn in Hx. congruence.
Qed.

Lemma run_function_sends f fs x s s' :
  sends s -> functions s = f :: fs -> run_function f x (set_functions fs s) = Returns s' ->
  life s' <> Closed -> no_failure s' -> sends s'.
Proof.
  intros Hs Hf Hr Hl Hn.
  assert (Hp : same_sends s (set_functions fs s)).
  { constructor; cbn; try done; [|rewrite Hf; cbn; destruct (is_send f); cbn; lia|by eauto]. intros g _ Hg. rewrite Hf. by right. }
  assert (Hdone : same_sends (set_functions fs s) s' -> sends s').
  { intros He. apply (same_sends_sends s); [|done]. by eapply same_sends_trans. }
  destruct f; cbn [run_function] in Hr.
  - destruct (bev (set_functions fs s)) as [b|] eqn:Hb; [|done]. destruct (socket_connect x).
    + injection Hr as <-. apply Hdone. constructor; cbn; try done. intros b' [= <-]. right. by exists b.
    + destruct (connect_request _) as [i|]; [|done]. injection Hr as <-. exfalso. apply (Hn i "Failed to connect: bufferevent_socket_connect"). cbn. set_solver.
  - destruct (recv_request _); [|injection Hr as <-; apply Hdone, same_sends_refl]. destruct (bev (set_functions fs s)); [|done].
    case_match; [|injection Hr as <-; apply Hdone, same_sends_refl]. by apply Hdone, recv_callback_sends.
  - destruct (recv_request _) as [[j n]|]; injection Hr as <-; [|apply Hdone, same_sends_refl]. apply Hdone.
    eapply same_sends_trans; [|by apply complete_sends]. constructor; cbn; try done. by eauto.
  - destruct (send_request (set_functions fs s)); [|injection Hr as <-; apply Hdone, same_sends_refl].
    destruct (bev (set_functions fs s)) as [b|] eqn:Hb; [|done]. destruct (write_buffer x); [|done]. injection Hr as <-. by apply sends_write.
  - destruct (bev (set_functions fs s)) as [b|] eqn:Hb; [|done]. destruct (recv_request _) as [[j n]|]; injection Hr as <-; [|apply Hdone, same_sends_refl].
    apply Hdone. eapply same_sends_trans; [|by apply complete_sends]. constructor; cbn; try done. intros b' [= <-]. right. by exists b.
  - destruct (os_close x); [|done]. by injection Hr as <-.
Qed.

(** The output was sent: a write callback is due. *)
Lemma sends_drain s b :
  sends s -> bev s = Some b -> output b <> [] ->
  sends (set_bev (Some (mkBev (input b) [] true (callbacks b) (handshaking b))) s).
Proof.
  intros [A1 A2 A3 A4 A5 A6] Hb Ho. assert (Hnq : ~ quiet s) by (intros Hq; by destruct (Hq b Hb)).
  constructor; cbn; try done.
  - intros i n Hs. destruct (A2 i n Hs); [done|]. by right.
  - intros Hs. by destruct Hnq; auto.
  - intros i d Hf. by destruct (A4 i d Hf).
  - by intros b' [= <-].
Qed.

(** The callback that is due is that of the request in its place. *)
Lemma sends_callback s b s' :
  sends s -> bev s = Some b -> due b = true ->
  send_callback (set_bev (Some (mkBev (input b) (output b) false (callbacks b) (handshaking b))) s) = Returns s' -> sends s'.
Proof.
  intros [A1 A2 A3 A4 A5 A6] Hb Hd. assert (Hnq : ~ quiet s) by (intros Hq; destruct (Hq b Hb); congruence).
  unfold send_callback. cbn. destruct (send_request s) as [[i n]|] eqn:Hs; [|by destruct Hnq; auto]. intros [= <-].
  destruct (A2 i n eq_refl) as [?|Hw]; [done|]. pose proof (A6 b Hb Hd) as Ho.
  constructor; cbn; try done.
  - intros j m [?|Hin%list_elem_of_singleton]%elem_of_app; [by apply A1|]. by injection Hin as -> ->.
  - by intros _ b' [= <-].
  - intros j e Hf. by destruct (A4 j e Hf).
  - by intros b' [= <-].
Qed.

(** A function that does not send. *)
Lemma enqueue_sends f s s' :
  is_send f = false -> send_request s' = send_request s -> written s' = written s -> functions s' = functions s ->
  bev s' = bev s -> log s' = log s -> same_sends s (run_in_event_loop f s').
Proof.
  intros Hf E1 E2 E3 E4 E5. constructor; cbn; rewrite ?E1, ?E2, ?E3, ?E4, ?E5; try done; eauto.
  - intros g Hg [?|Hi%list_elem_of_singleton]%elem_of_app; [done|]. congruence.
  - rewrite List.filter_app. cbn. rewrite Hf. by rewrite app_nil_r.
Qed.

Lemma exec_alive a s s' : exec a s = Some (Returns s') -> life s' = Alive -> life s = Alive.
Proof.
  destruct (life s) eqn:Hl; [done| |intros He Ha; rewrite (exec_closed a s s' He Hl) in Ha; discriminate].
  intros He Ha. exfalso. destruct a; cbn [exec] in He; unfold alive in He; rewrite ?Hl in He; try done.
  - apply connect_step_inv in He as (p & n & _ & Hx). destruct p; destruct_or?; destruct_and?; simplify_eq; cbn in *; congruence.
  - destruct (is_pending i s); [|done]. unfold recv_discard in He. rewrite Hl in He. congruence.
  - unfold destruct_socket in He. by rewrite Hl in He.
  - unfold async_function in He. destruct (functions s) as [|f fs]; [done|]. injection He as He.
    destruct f; cbn [run_function] in He.
    + revert He. cases; intros [= <-]; cbn in *; congruence.
    + destruct (recv_request _); [|injection He as <-; cbn in *; congruence]. destruct (bev _); [|done].
      case_match; [|injection He as <-; cbn in *; congruence]. apply recv_callback_life in He as [He _]. cbn in *. congruence.
    + revert He. cases; intros [= <-]; cbn in *; congruence.
    + revert He. cases; intros [= <-]; cbn in *; congruence.
    + revert He. cases; intros [= <-]; cbn in *; congruence.
    + destruct (os_close r); [|done]. injection He as <-. discriminate Ha.
  - destruct (bev s); [|done]. case_match; [|done]. injection He as <-. cbn in *. congruence.
  - destruct (bev s) as [b|]; [|done]. destruct (output b); [done|]. injection He as <-. cbn in *. congruence.
  - unfold from_libevent in He. rewrite Hl in He. destruct (bev s) as [b|]; [|done]. destruct (callbacks b); [|done]. congruence.
  - destruct (bev s) as [b|]; [|done]. destruct (due b); [|done]. unfold from_libevent in He. cbn in He. rewrite Hl in He.
    destruct (callbacks b); [|done]. injection He as <-. cbn in Ha. congruence.
  - destruct (bev s) as [b|] eqn:Hb; [|done]. case_match; [done|]. unfold from_libevent in He. rewrite Hl, Hb in He.
    destruct (callbacks b); [|done]. congruence.
Qed.

Lemma exec_sends a s s' :
  exec a s = Some (Returns s') -> life s' = Alive -> no_failure s' -> sends s -> sends s'.
Proof.
  intros He Ha Hn Hs. pose proof (exec_alive _ _ _ He Ha) as Hal.
  assert (Hdone : same_sends s s' -> sends s') by (intros; by eapply same_sends_sends).
  destruct a; cbn [exec] in He.
  - destruct (alive s); [|done]. injection He as <-. apply Hdone. unfold connect. destruct (bev s) eqn:Hb; [apply same_sends_refl|].
    destruct (connect_request s); [apply same_sends_refl|]. repeat (case_match; try apply same_sends_refl); by constructor; cbn; eauto.
  - apply connect_step_inv in He as (p & n & _ & Hx). apply Hdone. destruct p; destruct_or?; destruct_and?; simplify_eq;
      try (by constructor; cbn; eauto); [constructor; cbn; try done; intros b' [= <-]; by left|].
    by apply (enqueue_sends FConnect s).
  - destruct (alive s); [|done]. injection He as <-. apply Hdone. unfold recv. destruct (recv_request s); [apply same_sends_refl|].
    by apply enqueue_sends.
  - destruct (is_pending i s); [|done]. injection He as <-. apply Hdone. unfold recv_discard. rewrite Hal. by apply (enqueue_sends _ s).
  - destruct (alive s); [|done]. injection He as [->|[Hw ->]]%tls_send_inv; [done|]. by apply sends_start.
  - destruct (alive s); [|done]. injection He as <-. unfold sendfile. destruct (send_request s) eqn:Hw; [done|].
    destruct prepared; by apply sends_start.
  - destruct (alive s); [|done]. unfold shutdown in He. apply Hdone. repeat (case_match; try done); simplify_eq; try apply same_sends_refl.
    by apply (enqueue_sends _ s).
  - unfold destruct_socket in He. rewrite Hal in He. destruct (functions s), (connects s); try done. by injection He as <-.
  - unfold async_function in He. destruct (functions s) as [|f fs] eqn:Hf; [done|]. injection He as Hr.
    apply (run_function_sends _ _ _ _ _ Hs Hf Hr); [congruence|done].
  - destruct (bev s) as [b|] eqn:Hb; [|done]. case_match; [|done]. injection He as <-. apply Hdone. constructor; cbn; try done.
    intros b' [= <-]. right. by exists b.
  - destruct (bev s) as [b|] eqn:Hb; [|done]. destruct (output b) eqn:Ho; [done|]. injection He as <-. apply sends_drain; [done..|congruence].
  - apply from_libevent_inv in He as [He|[= ->]]; [|done]. by apply Hdone, recv_callback_sends.
  - destruct (bev s) as [b|] eqn:Hb; [|done]. destruct (due b) eqn:Hd; [|done]. unfold from_libevent in He. cbn in He. rewrite Hal in He.
    destruct (callbacks b) eqn:Hcb; [|done]. injection He as He. apply (sends_callback s b); try done. by rewrite Hcb.
  - destruct (bev s) as [b|] eqn:Hb; [|done]. case_match; [done|]. apply from_libevent_inv in He as [He|[= ->]]; [|done].
    symmetry in He. apply event_callback_sends in He as [_ He]. auto.
Qed.

(** A send that is answered with a number of bytes was given to the buffer with that many
    bytes, as long as no request of the socket failed: the callback of libevent that answers
    it does not say which send it is for. *)
Theorem tls_sends_written acc s i n :
  reachable acc s -> life s = Alive -> no_failure s -> (i, ASent n) ∈ log s -> wrote i n s.
Proof.
  intros Hr Ha Hn Hl. cut (sends s); [intros Hs; by apply (n_log _ Hs)|]. revert Ha Hn.
  apply (steps_invariant step (fun s => life s = Alive -> no_failure s -> sends s) (initial acc) s); [|done|].
  - intros x y Hx [a He] Ha Hn. apply (exec_sends a x y); try done. apply Hx; [by eapply exec_alive|].
    intros j m Hj. by apply (Hn j m), (exec_logs a x y).
  - intros _ _. destruct acc; constructor; cbn; try done; try lia; try set_solver; intros _ b [= <-]; done.
Qed.

(** Runs of a socket with TLS: the properties of [TlsSocketSpec] at concrete runs, and the uses of
    a socket that it does not survive. *)

(** The actions of a run, one after the other; [None] when one of them cannot happen. *)
Fixpoint play (l : list action) (s : tls) : option (checked tls) :=
  match l with
  | [] => Some (Returns s)
  | a :: l =>
      match exec a s with
      | Some (Returns s') => play l s'
      | x => x
      end
  end.

Lemma tls_play_steps l s s' : play l s = Some (Returns s') -> steps step s s'.
Proof.
  revert s. induction l as [|a l IH]; intros s; cbn; [intros [= ->]; apply steps_refl|].
  destruct (exec a s) as [[x|]|] eqn:He; try done. intros Hp. eapply steps_cons; [by exists a|]. by apply IH.
Qed.

Lemma tls_play_reachable acc l s : play l (initial acc) = Some (Returns s) -> reachable acc s.
Proof. apply tls_play_steps. Qed.

(** The state at the end of a run. *)
Definition after (acc : bool) (l : list action) : tls :=
  match play l (initial acc) with Some (Returns s) => s | _ => initial acc end.

Definition good_env : connect_env := mkConnectEnv true true (Some_ ()) true.
Definition connected_event : events := mkEvents false true false None (Some_ ()).
Definition eof_event : events := mkEvents true false false None (Some_ ()).
Definition failed_event (m : string) : events := mkEvents false false true (Some m) (Some_ ()).
Definition sample : bytes := String.list_ascii_of_string "hello".

(** The calls of libevent and of the system succeed. *)
Definition all_well : results := mkResults true true true.
Definition connect_calls : list action := [Connect good_env; ConnectStep 0; ConnectStep 0; ConnectStep 0].

(** A client that connects, sends and receives. *)
Definition exchange : list action :=
  connect_calls ++
  [RunFunction all_well; EventCallback connected_event;
   Send true true sample; Recv 2; RunFunction all_well; RunFunction all_well; Drain; SendCallback; Arrive sample; RecvCallback].

Definition exchanged : tls := Eval vm_compute in after false exchange.

Lemma tls_exchanged_reachable : reachable false exchanged.
Proof. apply (tls_play_reachable false exchange). by vm_compute. Qed.

#[global] Instance answer_eq_dec : EqDecision answer.
Proof. solve_decision. Defined.

Lemma established_spec acc s : acc = true \/ Exists (fun x => x.2 = AConnected) (log s) <-> established acc s.
Proof.
  unfold established. rewrite Exists_exists. split; (intros [?|Hx]; [by left|right]).
  - destruct Hx as ([i a] & Hi & Ha). cbn in Ha. subst a. by exists i.
  - destruct Hx as [i Hi]. by exists (i, AConnected).
Qed.

#[global] Instance established_dec acc s : Decision (established acc s).
Proof.
  refine (cast_if (decide (acc = true \/ Exists (fun x => x.2 = AConnected) (log s)))); by rewrite <- established_spec.
Defined.

#[global] Instance proper_dec acc a s : Decision (proper acc a s).
Proof. destruct a; cbn; apply _. Defined.

(** The actions of a run are proper, each in the state in which it happens. *)
Fixpoint all_proper (acc : bool) (l : list action) (s : tls) : bool :=
  match l with
  | [] => true
  | a :: l => bool_decide (proper acc a s) && match exec a s with Some (Returns s') => all_proper acc l s' | _ => false end
  end.

Lemma all_proper_run acc l s s' :
  all_proper acc l s = true -> play l s = Some (Returns s') -> steps (proper_step acc) s s'.
Proof.
  revert s. induction l as [|a l IH]; intros s; cbn; [intros _ [= ->]; apply steps_refl|].
  intros [Hp%bool_decide_eq_true Hl]%andb_true_iff.
  destruct (exec a s) as [[x|]|] eqn:He; try done. intros Hx. eapply steps_cons; [by exists a|]. by apply IH.
Qed.

Lemma tls_exchanged_proper : proper_run false exchanged.
Proof. apply (all_proper_run false exchange); by vm_compute. Qed.

Lemma tls_requests_answered_once_witness :
  times 1 (log exchanged).*1 + times 1 (abandoned exchanged) + times 1 (slots exchanged) = 1.
Proof. apply (tls_requests_answered_once false exchanged 1 tls_exchanged_reachable). vm_compute. lia. Defined.

Lemma tls_receives_in_order_witness :
  arrived exchanged = received exchanged ++ unread exchanged /\
  received exchanged = String.list_ascii_of_string "he" /\ unread exchanged = String.list_ascii_of_string "llo".
Proof. split; [apply (tls_receives_in_order false exchanged tls_exchanged_proper); done|by vm_compute]. Defined.

Lemma tls_sends_written_witness : wrote 1 5 exchanged.
Proof.
  apply (tls_sends_written false exchanged 1 5 tls_exchanged_reachable); [done| |].
  - intros i m Hin. cbn in Hin. set_solver.
  - cbn. set_solver.
Defined.

(** The client receives what is left, and the function of that receive does not fail. *)
Lemma tls_no_check_fails_witness :
  let s := after false (exchange ++ [Recv 7]) in
  functions s = [FRecv] /\ unread s = String.list_ascii_of_string "llo" /\
  exec (RunFunction all_well) s <> Some (Abort "CHECK(length > 0)") /\
  exec (RunFunction (mkResults false true true)) s <> Some (Abort null_bev).
Proof.
  set (s := after false (exchange ++ [Recv 7])).
  assert (Hr : proper_run false s).
  { apply (all_proper_run false (exchange ++ [Recv 7])); by vm_compute. }
  split; [by vm_compute|]. split; [by vm_compute|].
  split; [by apply (tls_no_check_fails false s (RunFunction all_well))|].
  by apply (tls_no_check_fails false s (RunFunction (mkResults false true true))).
Defined.

(** ** What is not meant to be done *)

(** Discarding a receive that has been answered already discards the receive after it: the
    function that the discard puts into the queue takes whatever request is in its place. *)
Theorem discard_takes_next_receive x d s1 :
  play [Recv 1; RunFunction all_well; Discard 0; Arrive (x :: d); RecvCallback; Recv 1; RunFunction all_well] accepted_init =
    Some (Returns s1) ->
  log s1 = [(0, AData [x]); (1, ADiscarded)] /\ requests s1 = 2.
Proof. vm_compute. intros [= <-]. done. Qed.

Lemma discard_takes_next_receive_witness :
  log (after true [Recv 1; RunFunction all_well; Discard 0; Arrive sample; RecvCallback; Recv 1; RunFunction all_well]) =
    [(0, AData (take 1 sample)); (1, ADiscarded)].
Proof.
  apply (discard_takes_next_receive (Ascii.ascii_of_nat 104) (String.list_ascii_of_string "ello")). by vm_compute.
Defined.

(** A shutdown that is waiting when the connection fails ends the process, and so does a
    receive of no bytes. *)
Example shutdown_while_connecting m :
  play (connect_calls ++ [RunFunction all_well; Shutdown; EventCallback (failed_event m); RunFunction all_well]) socket_init =
    Some (Abort "CHECK_NOTNULL(self->bev)").
Proof. by vm_compute. Qed.

Example receive_of_nothing x :
  play [Arrive [x]; Recv 0; RunFunction all_well] accepted_init = Some (Abort "CHECK(length > 0)").
Proof. by vm_compute. Qed.

(** Two calls of [connect] at once: both find that there is no buffer, and the second fails its
    check when the first has made one.  When both are past the check, the second, which finds
    the request of the first, frees the buffer that the function of the first then uses. *)
Example concurrent_connects :
  play ([Connect good_env; Connect good_env; ConnectStep 0; ConnectStep 0; ConnectStep 1]) socket_init =
    Some (Abort "CHECK(bev == nullptr)") /\
  play ([Connect good_env; Connect good_env; ConnectStep 0; ConnectStep 1; ConnectStep 0; ConnectStep 1;
         ConnectStep 0; ConnectStep 0; RunFunction all_well]) socket_init = Some (Abort null_bev).
Proof. by vm_compute. Qed.

(** The failures of libevent and of the system that end the process. *)
Example libevent_fails d :
  play [Send false true d] accepted_init = Some (Abort "CHECK_NOTNULL(evbuffer_new())") /\
  play [Send true false d] accepted_init = Some (Abort "CHECK_EQ(0, result)") /\
  play [Send true true d; RunFunction (mkResults true false true)] accepted_init = Some (Abort "CHECK_EQ(0, result)") /\
  play [Destroy; RunFunction (mkResults true true false)] accepted_init = Some (Abort "CHECK_SOME(os::close(fd))").
Proof. by vm_compute. Qed.

(** A [sendfile] that fails leaves its request in its place: the socket can send no more. *)
Example failed_sendfile_blocks m d1 d2 x y s :
  exists s', send x y d2 (sendfile (Error m) d1 (set_send None s)).2 = Returns (Fails "Socket is already sending", s').
Proof. eexists. done. Qed.

(** A [connect] whose configuration fails leaves an [SSL] object, and can be tried again. *)
Example failed_configuration_leaks m s :
  bev s = None -> connect_request s = None ->
  ssls (connect (mkConnectEnv true true (Error m) true) s).2 = S (ssls s) /\
  bev (connect (mkConnectEnv true true (Error m) true) s).2 = None.
Proof. intros Hb Hc. unfold connect. rewrite Hb, Hc. by cbn. Qed.

(** A callback that comes after a send failed answers the next send, whose data was not given
    to the buffer yet. *)
Example late_callback_answers_next_send :
  let s := after true [Send true true sample; RunFunction all_well; Drain; EventCallback eof_event; Send true true sample; SendCallback] in
  log s = [(0, AFailed "Failed send: connection closed"); (1, ASent 5)] /\ written s = [(0, sample)].
Proof. by vm_compute. Qed.
