(* ===== verification/EventLoop.v ===== *)
(** What an event loop promises to those who poll a descriptor ([io::poll]).

    The library has two event loops on POSIX, over libevent and over libev.  This file has the
    interface between them and their clients: a poll as its client sees it, the class of
    implementations with its laws, and what follows for the clients.  [Libevent.v] and
    [Libev.v] are the implementations. *)

From S2P Require Import Prelude HttpConnection Descriptors Io.

(** ** A poll *)

(** The events that were asked for, whether a discard was requested, the events that the
    system reported so far, whether the library reported that it cannot watch the descriptor
    any more, and how the future was completed. *)
Record poll_view := mkView {
  wanted : Z;
  asked : bool;
  occurred : Z;
  broken : bool;
  answered : option (completion Z);
}.

Definition within (x y : Z) : Prop := Z.land x y = x.

(** The conversion of an [int] to [short]. *)
Definition to_short (z : Z) : Z := ((z + 2 ^ 15) mod 2 ^ 16 - 2 ^ 15)%Z.

(** The events of [io.hpp]. *)
Definition io_events : Z := Z.lor READ WRITE.

Inductive view_step : poll_view -> poll_view -> Prop :=
| view_asked w o b : view_step (mkView w false o b None) (mkView w true o b None)
| view_occurs w a o b e :
    e <> 0%Z -> within e w -> within e io_events -> view_step (mkView w a o b None) (mkView w a (Z.lor o e) b None)
| view_breaks w a o b e : view_step (mkView w a o b None) (mkView w a (Z.lor o e) true None)
| view_ready w a o b :
    b = true \/ o <> 0%Z -> view_step (mkView w a o b None) (mkView w a o b (Some (IsReady (to_short o))))
| view_discarded w o b : view_step (mkView w true o b None) (mkView w true o b (Some IsDiscarded)).

Definition is_new (r : poll_view) : Prop :=
  asked r = false /\ occurred r = 0%Z /\ broken r = false /\ answered r = None.

(** One step of a loop with many polls: each of them takes a step or none, and new ones come. *)
Definition evolves (l l' : list poll_view) : Prop :=
  forall i, match l !! i, l' !! i with
  | Some r, Some r' => r' = r \/ view_step r r'
  | Some _, None => False
  | None, Some r' => is_new r'
  | None, None => True
  end.

Lemma evolves_refl l : evolves l l.
Proof. intros i. destruct (l !! i); auto. Qed.

Section Views.
Context {P : Type} (view : P -> poll_view).

(** One poll changes. *)
Lemma evolves_change (l : list P) i p p' :
  l !! i = Some p -> view p' = view p \/ view_step (view p) (view p') -> evolves (view <$> l) (view <$> <[i := p']> l).
Proof.
  intros Hi Hv j. rewrite !list_lookup_fmap, list_lookup_insert. destruct (decide (i = j /\ i < length l)) as [[-> _]|Hn].
  - by rewrite Hi.
  - destruct (l !! j); cbn; auto.
Qed.

(** A poll comes. *)
Lemma evolves_snoc (l : list P) p : is_new (view p) -> evolves (view <$> l) (view <$> (l ++ [p])).
Proof.
  intros Hp i. rewrite fmap_app. destruct ((view <$> l) !! i) as [r|] eqn:Hi; [rewrite (lookup_app_l_Some _ _ _ _ Hi); auto|].
  rewrite lookup_app_r by by apply lookup_ge_None. by destruct (i - _).
Qed.
End Views.

(** ** Event loops *)

(** [report i e]: the system reports the events [e] of the poll [i].  [internal] are the actions
    of the library and of the loop, which happen without a client or the system.  [idle]: the
    loop has nothing to do until something happens outside of it.  [work] bounds what it has
    to do until then. *)
Class Poller (S A : Type) := {
  start : S;
  exec_loop : A -> S -> option (checked S);
  report : nat -> Z -> A;
  internal : A -> bool;
  views : S -> list poll_view;
  idle : S -> bool;
  work : S -> nat;
}.

Definition loop_step {S A} `{Poller S A} (s s' : S) : Prop := exists a, exec_loop a s = Some (Returns s').
Definition loop_reachable {S A} `{Poller S A} (s : S) : Prop := steps loop_step start s.
Definition internal_step {S A} `{Poller S A} (s s' : S) : Prop :=
  exists a, internal a = true /\ exec_loop a s = Some (Returns s').

(** What an internal step leaves alone. *)
Definition same_poll (r r' : poll_view) : Prop :=
  wanted r' = wanted r /\ asked r' = asked r /\ occurred r' = occurred r /\ broken r' = broken r.

Class PollerLaws (S A : Type) `{Poller S A} := {
  loop_start : views start = [];
  loop_safe s a m : loop_reachable s -> exec_loop a s <> Some (Abort m);
  loop_evolves s a s' : loop_reachable s -> exec_loop a s = Some (Returns s') -> evolves (views s) (views s');
  loop_quiet s a s' i r :
    internal a = true -> exec_loop a s = Some (Returns s') -> views s !! i = Some r ->
    exists r', views s' !! i = Some r' /\ same_poll r r';
  loop_works s s' : internal_step s s' -> work s' < work s;
  loop_moves s : loop_reachable s -> idle s = false -> exists s', internal_step s s';
  loop_discards s i r :
    loop_reachable s -> idle s = true -> views s !! i = Some r -> asked r = true -> wanted r <> 0%Z -> is_Some (answered r);
  loop_reports s i r :
    loop_reachable s -> idle s = true -> views s !! i = Some r -> occurred r <> 0%Z \/ broken r = true -> is_Some (answered r);
  loop_watches s i r e :
    loop_reachable s -> idle s = true -> views s !! i = Some r -> answered r = None ->
    e <> 0%Z -> within e (wanted r) -> within e io_events ->
    exists s', exec_loop (report i e) s = Some (Returns s') /\ views s' !! i = Some (mkView (wanted r) (asked r) e false None);
}.

(** The actions of a run, one after the other. *)
Fixpoint play_loop {S A} `{Poller S A} (l : list A) (s : S) : option S :=
  match l with
  | [] => Some s
  | a :: l => match exec_loop a s with Some (Returns s') => play_loop l s' | _ => None end
  end.

Lemma play_loop_steps {S A} `{Poller S A} (l : list A) (s s' : S) : play_loop l s = Some s' -> steps loop_step s s'.
Proof.
  revert s. induction l as [|a l IH]; intros s; cbn; [intros [= ->]; apply steps_refl|].
  destruct (exec_loop a s) as [[x|]|] eqn:He; try done. intros Hp. eapply steps_cons; [by exists a|]. by apply IH.
Qed.

(** ** What clients rely on *)

(** A poll is answered at most once and the answer stays.  As long as the library can watch the
    descriptor it is answered with the events that were reported, among those asked for and not
    none of them, so that a poll for one event is answered with that event.  It is discarded
    only when that was requested. *)
Record answered_well {S A} `{Poller S A} (s : S) (i : nat) (r : poll_view) : Prop := mkAnsweredWell {
  w_stays o s' : answered r = Some o -> steps loop_step s s' -> views s' !! i = Some r;
  w_ready e : answered r = Some (IsReady e) -> e = to_short (occurred r) /\
    (broken r = false -> e = occurred r /\ e <> 0%Z /\ within e (wanted r) /\ (wanted r = READ \/ wanted r = WRITE -> e = wanted r));
  w_fails m : answered r <> Some (IsFailed m);
  w_discarded : answered r = Some IsDiscarded -> asked r = true;
}.

(** When the loop has nothing left to do, every poll is answered that was to be discarded (and
    asks for something), for which an event was reported, or that the library gave up; any
    other is still watched: the loop takes the report of every event that was asked for, and
    the poll is answered with that event by the time the loop is idle again. *)
Record kept_in_view {S A} `{Poller S A} (s : S) (i : nat) (r : poll_view) : Prop := mkKeptInView {
  k_discarded : asked r = true -> wanted r <> 0%Z -> is_Some (answered r);
  k_reported : occurred r <> 0%Z \/ broken r = true -> is_Some (answered r);
  k_watched e :
    answered r = None -> e <> 0%Z -> within e (wanted r) -> within e io_events ->
    exists s', exec_loop (report i e) s = Some (Returns s') /\
    forall s'', steps internal_step s' s'' -> idle s'' = true ->
    views s'' !! i = Some (mkView (wanted r) (asked r) e false (Some (IsReady e)));
}.

(** Left to itself, the loop does not stop before it is idle, and it becomes idle. *)
Definition becomes_idle {S A} `{Poller S A} (s : S) : Prop :=
  (idle s = false -> exists s', internal_step s s') /\ forall n s', nsteps internal_step n s s' -> n <= work s.

Definition answers_polls (S A : Type) `{Poller S A} : Prop :=
  forall s, loop_reachable s ->
  becomes_idle s /\ (forall a m, exec_loop a s <> Some (Abort m)) /\
  forall i r, views s !! i = Some r -> answered_well s i r /\ (idle s = true -> kept_in_view s i r).

(** What can be said of a poll at any time. *)
Definition sound (r : poll_view) : Prop :=
  (broken r = false -> within (occurred r) (wanted r) /\ within (occurred r) io_events) /\
  match answered r with
  | None => True
  | Some (IsReady e) => e = to_short (occurred r) /\ (broken r = false -> occurred r <> 0%Z)
  | Some (IsFailed _) => False
  | Some IsDiscarded => asked r = true
  end.

Lemma within_lor x y z : within x z -> within y z -> within (Z.lor x y) z.
Proof. unfold within. intros Hx Hy. by rewrite Z.land_lor_distr_l, Hx, Hy. Qed.

Lemma new_sound r : is_new r -> sound r.
Proof. intros (_ & Ho & _ & Ha). unfold sound. by rewrite Ho, Ha. Qed.

Lemma view_step_sound r r' : view_step r r' -> sound r -> sound r'.
Proof.
  destruct 1; intros [Hw Hr]; split; cbn in *; try done.
  - intros Hb. destruct (Hw Hb). by split; apply within_lor.
  - split; [done|]. intros ->. naive_solver.
Qed.

(** Events of [io.hpp] are not changed by the conversion. *)
Lemma to_short_io e : within e io_events -> to_short e = e.
Proof.
  unfold within, io_events, READ, WRITE. intros He.
  assert (Hr : (0 <= e < 4)%Z).
  { rewrite <- He. change (Z.lor 1 2) with (Z.ones 2). rewrite Z.land_ones by done. by apply Z.mod_pos_bound. }
  unfold to_short. rewrite Z.mod_small; lia.
Qed.

Lemma view_step_answered r r' o : view_step r r' -> answered r = Some o -> r' = r.
Proof. by destruct 1. Qed.

Lemma land_one_bit n x : (0 <= n)%Z -> Z.land x (2 ^ n) = x -> x = 0%Z \/ x = (2 ^ n)%Z.
Proof.
  intros Hn Hx. destruct (Z.testbit x n) eqn:Hb; [right|left]; apply Z.bits_inj'; intros k Hk; rewrite <- Hx, Z.land_spec.
  - destruct (decide (k = n)) as [->|Hne]; [by rewrite Hb|]. rewrite Z.pow2_bits_false by done. apply andb_false_r.
  - rewrite Z.bits_0. destruct (decide (k = n)) as [->|Hne]; [by rewrite Hb|]. rewrite Z.pow2_bits_false by done. apply andb_false_r.
Qed.

Section Clients.
Context {S A : Type} `{PollerLaws S A}.

Lemma loop_sound (s : S) : loop_reachable s -> Forall sound (views s).
Proof.
  intros Hr. assert (Hx : loop_reachable s /\ Forall sound (views s)); [|by destruct Hx].
  apply (steps_invariant loop_step (fun s => loop_reachable s /\ Forall sound (views s)) start s); [|done|].
  - intros x y [Hx Hs] [a Ha]. split; [eapply steps_trans; [exact Hx|]; apply steps_one; by exists a|].
    pose proof (loop_evolves _ _ _ Hx Ha) as He. rewrite Forall_lookup in *. intros i r Hi. specialize (He i). rewrite Hi in He.
    destruct (views x !! i) as [r0|] eqn:Hr0; [|by apply new_sound]. destruct He as [->|He]; [by eapply Hs|].
    eapply view_step_sound; [exact He|by eapply Hs].
  - split; [apply steps_refl|]. rewrite loop_start. constructor.
Qed.

Lemma answered_stays (s s' : S) i r o :
  loop_reachable s -> steps loop_step s s' -> views s !! i = Some r -> answered r = Some o -> views s' !! i = Some r.
Proof.
  intros Hr Hs. revert Hr. induction Hs as [|x y z [a Ha] Hs IH]; intros Hr Hi Ho; [done|].
  apply IH; [|pose proof (loop_evolves _ _ _ Hr Ha i) as He|done].
  - eapply steps_trans; [exact Hr|]. apply steps_one. by exists a.
  - rewrite Hi in He. destruct (views y !! i) as [r'|]; [|done]. destruct He as [->|He]; [done|].
    by rewrite (view_step_answered _ _ _ He Ho).
Qed.

Lemma answers_are_good (s : S) i r : loop_reachable s -> views s !! i = Some r -> answered_well s i r.
Proof.
  intros Hr Hi. pose proof (loop_sound s Hr) as Hs. rewrite Forall_lookup in Hs. destruct (Hs i r Hi) as [Hw Ha].
  constructor.
  - intros o s' Ho Hst. by eapply answered_stays.
  - intros e He. rewrite He in Ha. destruct Ha as [-> Hn]. split; [done|]. intros Hb. destruct (Hw Hb) as [Hww Hwi].
    specialize (Hn Hb). rewrite (to_short_io _ Hwi). split_and!; [done..|]. intros Hone. unfold within in Hww.
    destruct Hone as [Hone|Hone]; rewrite Hone in Hww |- *; unfold READ, WRITE in *.
    + by destruct (land_one_bit 0 (occurred r)) as [?|?].
    + by destruct (land_one_bit 1 (occurred r)) as [?|?].
  - intros m Hm. by rewrite Hm in Ha.
  - intros He. by rewrite He in Ha.
Qed.

Lemma internal_is_step (s s' : S) : internal_step s s' -> loop_step s s'.
Proof. intros (a & _ & Ha). by exists a. Qed.

Lemma internal_reachable (s s' : S) : loop_reachable s -> steps internal_step s s' -> loop_reachable s'.
Proof.
  intros Hr Hs. eapply steps_trans; [exact Hr|]. clear Hr.
  induction Hs as [|x y z Hx Hs IH]; [apply steps_refl|]. eapply steps_cons; [by apply internal_is_step|exact IH].
Qed.

Lemma internal_same (s s' : S) i r :
  steps internal_step s s' -> views s !! i = Some r -> exists r', views s' !! i = Some r' /\ same_poll r r'.
Proof.
  intros Hs. revert r. induction Hs as [|x y z (a & Hn & Ha) Hs IH]; intros r Hi; [by exists r|].
  destruct (loop_quiet _ _ _ _ _ Hn Ha Hi) as (r1 & Hi1 & E1 & E2 & E3 & E4). destruct (IH r1 Hi1) as (r2 & Hi2 & F1 & F2 & F3 & F4).
  exists r2. split; [done|]. unfold same_poll. by rewrite F1, F2, F3, F4.
Qed.

Lemma polls_kept_in_view (s : S) i r : loop_reachable s -> idle s = true -> views s !! i = Some r -> kept_in_view s i r.
Proof.
  intros Hr Hid Hi. constructor; [intros; by eapply loop_discards|intros; by eapply loop_reports|].
  intros e Ha Hne Hw Hwi. destruct (loop_watches s i r e) as (s1 & He & Hi1); [done..|]. exists s1. split; [done|].
  intros s2 Hs Hid2. destruct (internal_same _ _ _ _ Hs Hi1) as ([w a o b x] & Hi2 & E1 & E2 & E3 & E4). cbn in *. subst.
  assert (Hr1 : loop_reachable s1) by (eapply steps_trans; [exact Hr|]; apply steps_one; by eexists).
  pose proof (internal_reachable _ _ Hr1 Hs) as Hr2.
  destruct (loop_reports s2 i _ Hr2 Hid2 Hi2) as [y Hy]; [by left|]. cbn in Hy. subst.
  pose proof (answers_are_good s2 i _ Hr2 Hi2) as [_ W2 W3 W4]. cbn in *.
  destruct y as [e'|m|]; [|by destruct (W3 m)|].
  - by destruct (W2 e' eq_refl) as [_ [-> _]].
  - specialize (W4 eq_refl). destruct (loop_discards s i r Hr Hid Hi W4) as [? ?]; [|congruence].
    intros Hz. rewrite Hz in Hw. unfold within in Hw. by rewrite Z.land_0_r in Hw.
Qed.

Lemma loop_becomes_idle (s : S) : loop_reachable s -> becomes_idle s.
Proof.
  intros Hr. split; [by apply loop_moves|]. intros n s' Hn. induction Hn as [|n x y z Hx Hn IH]; [lia|].
  pose proof (loop_works _ _ Hx). assert (Hy : loop_reachable y); [|specialize (IH Hy); lia].
  eapply steps_trans; [exact Hr|]. apply steps_one. by apply internal_is_step.
Qed.

Lemma poll_contract : answers_polls S A.
Proof.
  intros s Hr. split_and!; [by apply loop_becomes_idle|intros a m; by apply loop_safe|].
  intros i r Hi. split; [by apply answers_are_good|]. intros Hid. by apply polls_kept_in_view.
Qed.
End Clients.
