(* ===== verification/Libevent.v ===== *)
(** The event loop over libevent ([posix/libevent/libevent.cpp], [libevent_poll.cpp]): the queue of
    functions and the polls. *)

From S2P Require Import Prelude HttpConnection Descriptors Io EventLoop.

(** The flags of libevent: two different bits. *)
Class EventFlags := {
  EV_READ : Z;
  EV_WRITE : Z;
  flags_apart : Z.land EV_READ EV_WRITE = 0%Z;
  read_flag : EV_READ <> 0%Z;
  write_flag : EV_WRITE <> 0%Z;
}.

Section Libevent.
Context `{EventFlags}.

Definition has (x f : Z) : bool := negb (Z.land x f =? 0)%Z.

(** The conversions of [poll] and [pollCallback]. *)
Definition to_libevent (events : Z) : Z :=
  Z.lor (if has events READ then EV_READ else 0) (if has events WRITE then EV_WRITE else 0).
Definition to_io (what : Z) : Z :=
  Z.lor (if has what EV_READ then READ else 0) (if has what EV_WRITE then WRITE else 0).

(** [event]: it is in the loop until its callback is called; [active] are the flags with which
    the callback is to be called. *)
Record event := mkEvent { what : Z; inserted : bool; active : option Z }.

(** [event_active(ev, f, 0)], [event_pending(ev, events, nullptr)]. *)
Definition event_active (f : Z) (e : event) : event :=
  mkEvent (what e) (inserted e) (Some (Z.lor (default 0%Z (active e)) f)).
Definition event_pending (e : event) (events : Z) : bool :=
  has (Z.lor (if inserted e then what e else 0%Z) (default 0%Z (active e))) events.

(** [Poll]; [ev] is [None] when the event was freed with the [Poll].  [happened] is a history:
    the events that the system reported. *)
Record Poll := mkPoll {
  events : Z;
  hasDiscard : bool;
  happened : Z;
  promise : option (completion Z);
  ev : option event;
}.

(** [functions] has the polls whose discard is to be done, [wakeups] the events that call
    [async_function], [batch] the queue [q] that it swapped out, and [current] a
    [pollCallback] that has looked at [hasDiscard]. *)
Record libevent := mkLibevent {
  polls : list Poll;
  functions : list nat;
  wakeups : nat;
  batch : list nat;
  current : option (nat * bool * Z);
}.

Definition set_polls (l : list Poll) (s : libevent) : libevent :=
  mkLibevent l (functions s) (wakeups s) (batch s) (current s).

(** [poll(fd, events)]. *)
Definition poll (events : Z) (s : libevent) : libevent :=
  set_polls (polls s ++ [mkPoll events false 0 None (Some (mkEvent (to_libevent events) true None))]) s.

(** [pollCallback], with what it read of [hasDiscard]: the promise is completed and the [Poll] is
    deleted, which frees the event. *)
Definition pollCallback (discard : bool) (res : Z) (p : Poll) : Poll :=
  mkPoll (events p) (hasDiscard p) (happened p) (Some (if discard then IsDiscarded else IsReady (to_io res))) None.

(** The function of [pollDiscard]: the weak pointer is locked. *)
Definition discard_function (p : Poll) : Poll :=
  match ev p with
  | Some e =>
      if event_pending e (what e)
      then mkPoll (events p) (hasDiscard p) (happened p) (promise p) (Some (event_active EV_READ e))
      else p
  | None => p
  end.

(** [run_in_event_loop(f)]: in the event loop it is called at once. *)
Definition run_in_event_loop (in_loop : bool) (i : nat) (s : libevent) : libevent :=
  if in_loop then set_polls (alter discard_function i (polls s)) s
  else mkLibevent (polls s) (functions s ++ [i]) (S (wakeups s)) (batch s) (current s).

(** [async_function]: it takes the functions out and calls them one after the other. *)
Definition async_function (s : libevent) : libevent :=
  mkLibevent (polls s) [] (pred (wakeups s)) (functions s) (current s).

Inductive action :=
| APoll (events : Z)
| AReady (i : nat) (res : Z)              (* the system reports events *)
| ACallback (i : nat) | AFinish           (* [pollCallback], before and after the test *)
| ADiscard (i : nat) (in_loop : bool)     (* [future.discard()] *)
| AAsync | ANext.

Definition free_loop (s : libevent) : bool := match current s, batch s with None, [] => true | _, _ => false end.

(** A thread in the event loop that discards the poll [i] is not in its callback. *)
Definition may_discard (in_loop : bool) (i : nat) (s : libevent) : bool :=
  negb in_loop || match current s with Some (j, _, _) => negb (i =? j) | None => true end.

Definition exec (a : action) (s : libevent) : option libevent :=
  match a with
  | APoll events => Some (poll events s)
  | AReady i res =>
      p ← polls s !! i; e ← ev p;
      if inserted e && negb (res =? 0)%Z && (Z.land res (what e) =? res)%Z
      then Some (set_polls (<[i := mkPoll (events p) (hasDiscard p) (Z.lor (happened p) (to_io res)) (promise p)
                                    (Some (event_active res e))]> (polls s)) s)
      else None
  | ACallback i =>
      p ← polls s !! i; e ← ev p; res ← active e;
      if free_loop s
      then Some (mkLibevent (<[i := mkPoll (events p) (hasDiscard p) (happened p) (promise p) (Some (mkEvent (what e) false None))]> (polls s))
                   (functions s) (wakeups s) (batch s) (Some (i, hasDiscard p, res)))
      else None
  | AFinish =>
      c ← current s;
      let '(i, discard, res) := c in
      p ← polls s !! i;
      Some (mkLibevent (<[i := pollCallback discard res p]> (polls s)) (functions s) (wakeups s) (batch s) None)
  | ADiscard i in_loop =>
      p ← polls s !! i;
      match promise p, hasDiscard p with
      | None, false =>
          if may_discard in_loop i s
          then Some (run_in_event_loop in_loop i
                 (set_polls (<[i := mkPoll (events p) true (happened p) (promise p) (ev p)]> (polls s)) s))
          else None
      | _, _ => Some s
      end
  | AAsync => if free_loop s && (0 <? wakeups s) then Some (async_function s) else None
  | ANext =>
      match current s, batch s with
      | None, i :: q =>
          Some (mkLibevent (alter discard_function i (polls s)) (functions s) (wakeups s) q (current s))
      | _, _ => None
      end
  end.

(** A poll as its client sees it. *)
Definition view (p : Poll) : poll_view :=
  mkView (to_io (to_libevent (events p))) (hasDiscard p) (happened p) false (promise p).

Definition nothing_active (s : libevent) : bool :=
  forallb (fun p => match ev p with Some e => bool_decide (active e = None) | None => true end) (polls s).

(** A function that waits may make an event active, whose callback is then called in two steps. *)
Definition poll_work (p : Poll) : nat := match ev p with Some e => 2 * length (option_list (active e)) | None => 0 end.

Definition loop_work (s : libevent) : nat :=
  wakeups s + 3 * length (functions s) + 3 * length (batch s) + length (option_list (current s)) + sum_list_by poll_work (polls s).

Definition is_internal (a : action) : bool :=
  match a with ACallback _ | AFinish | AAsync | ANext => true | _ => false end.

Definition initial : libevent := mkLibevent [] [] 0 [] None.

#[global] Instance libevent_loop : Poller libevent action := {|
  start := initial;
  exec_loop a s := Returns <$> exec a s;
  report i e := AReady i (to_libevent e);
  internal := is_internal;
  views s := view <$> polls s;
  idle s := free_loop s && (wakeups s =? 0) && nothing_active s;
  work := loop_work;
|}.

(** ** Flags *)

Lemma has_lor x y f : has (Z.lor x y) f = has x f || has y f.
Proof.
  unfold has. rewrite Z.land_lor_distr_l. rewrite <- negb_andb. f_equal. apply eq_true_iff_eq.
  rewrite andb_true_iff, !Z.eqb_eq. apply Z.lor_eq_0_iff.
Qed.

Lemma has_false x f : has x f = false <-> Z.land x f = 0%Z.
Proof. unfold has. by rewrite negb_false_iff, Z.eqb_eq. Qed.
Lemma has_self f : f <> 0%Z -> has f f = true.
Proof. intros Hf. unfold has. rewrite Z.land_diag. apply negb_true_iff. by apply Z.eqb_neq. Qed.

Lemma to_io_lor x y : to_io (Z.lor x y) = Z.lor (to_io x) (to_io y).
Proof.
  unfold to_io. rewrite !has_lor. destruct (has x EV_READ), (has y EV_READ), (has x EV_WRITE), (has y EV_WRITE); done.
Qed.

Lemma has_within x y f : within x y -> has x f = true -> has y f = true.
Proof.
  unfold within. intros Hw Hx. destruct (has y f) eqn:Hy; [done|]. apply has_false in Hy.
  enough (has x f = false) by congruence. apply has_false. rewrite <- Hw, <- Z.land_assoc, Hy. apply Z.land_0_r.
Qed.

Lemma to_io_events x : within (to_io x) io_events.
Proof. unfold to_io. by destruct (has x EV_READ), (has x EV_WRITE). Qed.

Lemma to_io_within x y : within x y -> within (to_io x) (to_io y).
Proof.
  intros Hw. pose proof (has_within x y EV_READ Hw). pose proof (has_within x y EV_WRITE Hw). unfold within, to_io.
  destruct (has x EV_READ), (has x EV_WRITE), (has y EV_READ), (has y EV_WRITE); try done; naive_solver.
Qed.

Lemma to_io_nonzero x e : x <> 0%Z -> within x (to_libevent e) -> to_io x <> 0%Z.
Proof.
  intros Hx Hw. unfold to_io. destruct (has x EV_READ) eqn:Hr, (has x EV_WRITE) eqn:Hs; try done.
  exfalso. apply Hx. unfold within, to_libevent in Hw. rewrite Z.land_lor_distr_r in Hw.
  apply has_false in Hr. apply has_false in Hs. rewrite <- Hw. apply Z.lor_eq_0_iff.
  destruct (has e READ), (has e WRITE); rewrite ?Hr, ?Hs, ?Z.land_0_r; done.
Qed.

(** A poll waits in libevent for exactly the events it was asked for. *)
Theorem flags_roundtrip e : to_io (to_libevent e) = Z.land e (Z.lor READ WRITE).
Proof.
  assert (Hrw : has EV_READ EV_WRITE = false) by (apply has_false, flags_apart).
  assert (Hwr : has EV_WRITE EV_READ = false) by (apply has_false; rewrite Z.land_comm; apply flags_apart).
  assert (H0 : forall f, has 0 f = false) by done.
  assert (Hr : has (to_libevent e) EV_READ = has e READ).
  { unfold to_libevent. rewrite has_lor. destruct (has e READ), (has e WRITE);
      rewrite ?Hwr, ?H0, ?(has_self EV_READ read_flag); done. }
  assert (Hw : has (to_libevent e) EV_WRITE = has e WRITE).
  { unfold to_libevent. rewrite has_lor. destruct (has e READ), (has e WRITE);
      rewrite ?Hrw, ?H0, ?(has_self EV_WRITE write_flag); done. }
  unfold to_io. rewrite Hr, Hw, Z.land_lor_distr_r. f_equal.
  - unfold has. destruct (Z.land e READ =? 0)%Z eqn:He; cbn; [by apply Z.eqb_eq in He|]. apply Z.eqb_neq in He.
    destruct (land_one_bit 0 (Z.land e READ)) as [?|Hx]; [done|by rewrite <- Z.land_assoc, Z.land_diag|done|done].
  - unfold has. destruct (Z.land e WRITE =? 0)%Z eqn:He; cbn; [by apply Z.eqb_eq in He|]. apply Z.eqb_neq in He.
    destruct (land_one_bit 1 (Z.land e WRITE)) as [?|Hx]; [done|by rewrite <- Z.land_assoc, Z.land_diag|done|done].
Qed.

Lemma to_libevent_within e e' : within e (to_io (to_libevent e')) -> within (to_libevent e) (to_libevent e').
Proof.
  rewrite flags_roundtrip. intros Hw.
  assert (Hr : has e READ = true -> has e' READ = true).
  { intros Hx. apply (has_within _ _ READ Hw) in Hx. unfold has in *. by rewrite <- Z.land_assoc in Hx. }
  assert (Hs : has e WRITE = true -> has e' WRITE = true).
  { intros Hx. apply (has_within _ _ WRITE Hw) in Hx. unfold has in *. by rewrite <- Z.land_assoc in Hx. }
  unfold within, to_libevent. destruct (has e READ), (has e WRITE), (has e' READ), (has e' WRITE);
    try (by specialize (Hr eq_refl)); try (by specialize (Hs eq_refl)); rewrite ?Z.lor_0_r, ?Z.lor_0_l, ?Z.land_0_l, ?Z.land_diag; try done;
    rewrite ?Z.land_lor_distr_r, ?Z.land_diag, ?flags_apart, ?(Z.land_comm EV_WRITE EV_READ), ?flags_apart, ?Z.lor_0_r, ?Z.lor_0_l; done.
Qed.

(** ** Invariant *)

(** [cur] is the callback of the poll that is under way, and [queued] says that its discard is
    still in one of the queues. *)
Record poll_ok (cur : option (bool * Z)) (queued : Prop) (p : Poll) : Prop := mkPollOk {
  ok_done : ev p = None -> is_Some (promise p) /\ cur = None;
  ok_event e : ev p = Some e -> promise p = None /\ what e = to_libevent (events p);
  ok_out e : ev p = Some e -> inserted e = bool_decide (cur = None) /\ (inserted e = false -> active e = None);
  ok_quiet e : ev p = Some e -> inserted e = true -> active e = None -> happened p = 0%Z;
  ok_active e r : ev p = Some e -> active e = Some r -> hasDiscard p = false -> to_io r = happened p /\ happened p <> 0%Z;
  ok_current d r : cur = Some (d, r) ->
    (d = true -> hasDiscard p = true) /\ (d = false -> to_io r = happened p /\ happened p <> 0%Z);
  ok_asked e : ev p = Some e -> hasDiscard p = true -> to_libevent (events p) <> 0%Z ->
    queued \/ is_Some (active e) \/ is_Some cur;
}.

Definition cur_of (i : nat) (s : libevent) : option (bool * Z) :=
  match current s with Some (j, d, r) => if decide (i = j) then Some (d, r) else None | None => None end.
Definition queued (i : nat) (s : libevent) : Prop := i ∈ functions s \/ i ∈ batch s.

Record loop_inv (s : libevent) : Prop := mkLoopInv {
  inv_poll i p : polls s !! i = Some p -> poll_ok (cur_of i s) (queued i s) p;
  inv_queued i : queued i s -> exists p, polls s !! i = Some p /\ hasDiscard p = true;
  inv_wake : functions s <> [] -> 0 < wakeups s;
  inv_current i d r : current s = Some (i, d, r) -> is_Some (polls s !! i);
}.

Lemma poll_ok_mono cur (q q' : Prop) p : (q -> q') -> poll_ok cur q p -> poll_ok cur q' p.
Proof. intros Hq [A1 A2 A3 A4 A5 A6 A7]. constructor; try done. intros e He Hd Hn. destruct (A7 e He Hd Hn); auto. Qed.

Lemma pending_inserted e : inserted e = true -> what e <> 0%Z -> event_pending e (what e) = true.
Proof. intros Hi Hw. unfold event_pending. by rewrite Hi, has_lor, (has_self _ Hw). Qed.

(** The function of a discard does what is left to do. *)
Lemma discard_function_ok cur q p : poll_ok cur q p -> poll_ok cur False (discard_function p) \/ hasDiscard p = false.
Proof.
  intros [A1 A2 A3 A4 A5 A6 A7]. destruct (hasDiscard p) eqn:Hh; [left|by right]. unfold discard_function.
  destruct (ev p) as [e|] eqn:He; [|by constructor; rewrite ?He, ?Hh].
  destruct (A2 e eq_refl) as [Hp Hw]. destruct (A3 e eq_refl) as [Hi Ha].
  destruct (event_pending e (what e)) eqn:Hpend.
  - assert (Hins : inserted e = true).
    { destruct (inserted e) eqn:Hx; [done|]. unfold event_pending in Hpend. rewrite Hx, (Ha eq_refl) in Hpend. done. }
    constructor; cbn; try done; try congruence.
    + by intros ? [= <-].
    + intros ? [= <-]. cbn. split; [done|congruence].
    + by intros ? [= <-].
    + intros d r Hc. rewrite Hh. by apply A6.
    + intros ? [= <-]. cbn. eauto.
  - constructor; rewrite ?He, ?Hh; try done.
    intros ? [= <-] _ Hn. right. right. destruct (inserted e) eqn:Hx.
    + rewrite pending_inserted in Hpend; [done|done|congruence].
    + destruct cur; [eauto|by rewrite bool_decide_true in Hi].
Qed.

Lemma discard_requested cur q p :
  ev p <> None -> poll_ok cur q p -> poll_ok cur True (mkPoll (events p) true (happened p) (promise p) (ev p)).
Proof.
  intros Hn [A1 A2 A3 A4 A5 A6 A7]. constructor; cbn; try done; [|by eauto].
  intros d r Hc. split; [done|]. by apply (A6 d r).
Qed.

(** The queues change. *)
Lemma libevent_queues s s' :
  polls s' = polls s -> current s' = current s -> (forall i, queued i s <-> queued i s') ->
  (functions s' <> [] -> 0 < wakeups s') -> loop_inv s -> loop_inv s'.
Proof.
  intros Hp Hc Hq Hw [A1 A2 A3 A4]. constructor; rewrite ?Hp, ?Hc; try done.
  - intros i p Hi. unfold cur_of. rewrite Hc. eapply poll_ok_mono; [apply Hq|by apply A1].
  - intros i Hx. apply A2. by apply Hq.
Qed.

(** One poll changes, and perhaps its place in the queues and its callback. *)
Lemma libevent_change s s' i p p' :
  loop_inv s -> polls s !! i = Some p -> polls s' = <[i := p']> (polls s) ->
  poll_ok (cur_of i s') (queued i s') p' -> (queued i s' -> hasDiscard p' = true) ->
  (forall j, j <> i -> cur_of j s' = cur_of j s /\ (queued j s <-> queued j s')) ->
  (functions s' <> [] -> 0 < wakeups s') ->
  (forall j d r, current s' = Some (j, d, r) -> is_Some (polls s !! j)) -> loop_inv s'.
Proof.
  intros [A1 A2 A3 A4] Hi Hps Hp Hd Hj Hw Hc. constructor; rewrite ?Hps; [| |done|].
  - intros j x. rewrite list_lookup_insert. destruct (decide (i = j /\ i < length (polls s))) as [[-> _]|Hn]; [by intros [= <-]|].
    intros Hx. assert (Hne : j <> i) by (intros ->; apply Hn; split; [done|by eapply lookup_lt_Some]).
    destruct (Hj j Hne) as [-> Hq]. eapply poll_ok_mono; [apply Hq|by apply A1].
  - intros j Hq. destruct (decide (j = i)) as [->|Hne].
    + exists p'. rewrite list_lookup_insert_eq by by eapply lookup_lt_Some. auto.
    + rewrite list_lookup_insert_ne by done. apply A2. by apply Hj.
  - intros j d r Hcj. destruct (Hc j d r Hcj) as [x Hx]. rewrite list_lookup_insert. case_decide; eauto.
Qed.

Lemma alter_insert {A} (f : A -> A) (l : list A) i x : l !! i = Some x -> alter f i l = <[i := f x]> l.
Proof.
  intros Hi. apply list_eq. intros j. rewrite list_lookup_alter, list_lookup_insert.
  pose proof (lookup_lt_Some _ _ _ Hi). do 2 case_decide; subst; try tauto; by rewrite ?Hi.
Qed.

Lemma alter_missing {A} (f : A -> A) (l : list A) i : l !! i = None -> alter f i l = l.
Proof. intros Hi. apply list_eq. intros j. rewrite list_lookup_alter. case_decide; [subst; by rewrite Hi|done]. Qed.

Lemma view_discard_function p : view (discard_function p) = view p.
Proof. unfold discard_function. destruct (ev p); [|done]. by destruct (event_pending _ _). Qed.

Lemma asked_discard_function p : hasDiscard (discard_function p) = hasDiscard p.
Proof. exact (f_equal asked (view_discard_function p)). Qed.

Definition exec_good (s s' : libevent) : Prop := loop_inv s' /\ evolves (view <$> polls s) (view <$> polls s').

Lemma libevent_poll_good e s : loop_inv s -> exec_good s (poll e s).
Proof.
  intros [A1 A2 A3 A4]. split.
  - constructor; cbn; [| |done|].
    + intros i p. rewrite lookup_app_Some. intros [Hi|[Hl Hi]]; [by apply A1|]. apply list_lookup_singleton_Some in Hi as [Hi <-].
      assert (Hc : cur_of i s = None).
      { unfold cur_of. destruct (current s) as [[[j d] r]|] eqn:Hcu; [|done]. rewrite decide_False; [done|]. intros <-.
        destruct (A4 i d r eq_refl) as [x Hx]. apply lookup_lt_Some in Hx. lia. }
      change (cur_of i _) with (cur_of i s). rewrite Hc. constructor; cbn; intros; simplify_eq/=; done.
    + intros i Hq. destruct (A2 i Hq) as (p & Hi & Hd). exists p. split; [|done]. by apply lookup_app_l_Some.
    + intros i d r Hc. destruct (A4 i d r Hc) as [p Hi]. exists p. by apply lookup_app_l_Some.
  - by apply evolves_snoc.
Qed.

(** The system reports events. *)
Lemma ready_good i p e res s :
  loop_inv s -> polls s !! i = Some p -> ev p = Some e -> inserted e = true -> res <> 0%Z -> within res (what e) ->
  exec_good s (set_polls (<[i := mkPoll (events p) (hasDiscard p) (Z.lor (happened p) (to_io res)) (promise p)
                                    (Some (event_active res e))]> (polls s)) s).
Proof.
  intros Hs Hi He Hin Hr Hw. pose proof (inv_poll _ Hs i p Hi) as [A1 A2 A3 A4 A5 A6 A7].
  destruct (A2 e He) as [Hp Hwh]. destruct (A3 e He) as [Hc _]. rewrite Hin in Hc. symmetry in Hc. apply bool_decide_eq_true in Hc.
  assert (Hn : to_io res <> 0%Z) by (apply (to_io_nonzero res (events p)); [done|by rewrite <- Hwh]).
  assert (Hnl : Z.lor (happened p) (to_io res) <> 0%Z) by (rewrite Z.lor_eq_0_iff; tauto).
  split.
  - eapply (libevent_change s _ i p _ Hs Hi); [reflexivity| |by intros (x & Hx & Hd)%(inv_queued _ Hs); simplify_eq|done|apply Hs|apply Hs].
    constructor; cbn; try done.
    + by intros ? [= <-].
    + intros ? [= <-]. cbn. rewrite Hin. split; [|done]. symmetry. by apply bool_decide_eq_true.
    + by intros ? [= <-].
    + intros ? r [= <-] [= <-] Hd. split; [|done]. rewrite to_io_lor. f_equal. destruct (active e) as [a|] eqn:Ha.
      * by destruct (A5 e a He Ha Hd).
      * cbn. by rewrite (A4 e He Hin Ha).
    + intros d r Hcu. unfold cur_of in *. cbn in Hcu. congruence.
    + intros ? [= <-]. cbn. eauto.
  - apply (evolves_change view _ i p); [done|]. right. unfold view. cbn. rewrite Hp. apply view_occurs; [done|..].
    + rewrite <- Hwh. by apply to_io_within.
    + apply to_io_events.
Qed.

Lemma libevent_free_loop s : free_loop s = true -> current s = None /\ batch s = [].
Proof. unfold free_loop. by destruct (current s), (batch s). Qed.

Lemma callback_good i p e res s :
  loop_inv s -> polls s !! i = Some p -> ev p = Some e -> active e = Some res -> free_loop s = true ->
  exec_good s (mkLibevent (<[i := mkPoll (events p) (hasDiscard p) (happened p) (promise p) (Some (mkEvent (what e) false None))]> (polls s))
                 (functions s) (wakeups s) (batch s) (Some (i, hasDiscard p, res))).
Proof.
  intros Hs Hi He Ha [Hc Hb]%libevent_free_loop. pose proof (inv_poll _ Hs i p Hi) as [A1 A2 A3 A4 A5 A6 A7]. split.
  - eapply (libevent_change s _ i p _ Hs Hi); [reflexivity| |by intros (x & Hx & Hd)%(inv_queued _ Hs); simplify_eq| |apply Hs|].
    + unfold cur_of. cbn. rewrite decide_True by done. constructor; cbn; try done.
      * intros ? [= <-]. exact (A2 e He).
      * intros ? [= <-]. done.
      * by intros ? [= <-].
      * by intros ? r [= <-].
      * intros d r [= <- <-]. split; [done|]. by apply (A5 e).
      * eauto.
    + intros j Hj. unfold cur_of. cbn. rewrite Hc, decide_False by done. done.
    + intros j d r [= <- <- <-]. eauto.
  - apply (evolves_change view _ i p); [done|]. by left.
Qed.

Lemma finish_good i d res p s :
  loop_inv s -> current s = Some (i, d, res) -> polls s !! i = Some p ->
  exec_good s (mkLibevent (<[i := pollCallback d res p]> (polls s)) (functions s) (wakeups s) (batch s) None).
Proof.
  intros Hs Hc Hi. pose proof (inv_poll _ Hs i p Hi) as [A1 A2 A3 A4 A5 A6 A7].
  assert (Hcu : cur_of i s = Some (d, res)) by (unfold cur_of; by rewrite Hc, decide_True).
  destruct (ev p) as [e|] eqn:He; [|by destruct A1; congruence]. destruct (A2 e eq_refl) as [Hp _]. destruct (A6 d res Hcu) as [Hd Hr]. split.
  - eapply (libevent_change s _ i p _ Hs Hi); [reflexivity| |by intros (x & Hx & Hy)%(inv_queued _ Hs); simplify_eq| |apply Hs|done].
    + constructor; cbn; try done.
    + intros j Hj. unfold cur_of. cbn. by rewrite Hc, decide_False.
  - apply (evolves_change view _ i p); [done|]. right. unfold view. cbn. rewrite Hp. destruct d.
    + rewrite Hd by done. apply view_discarded.
    + destruct Hr as [<- Hn]; [done|].
      pose proof (view_ready (to_io (to_libevent (events p))) (hasDiscard p) (to_io res) false (or_intror Hn)) as Hv.
      by rewrite (to_short_io _ (to_io_events res)) in Hv.
Qed.

Lemma discard_good i p in_loop s :
  loop_inv s -> polls s !! i = Some p -> promise p = None -> hasDiscard p = false ->
  exec_good s (run_in_event_loop in_loop i (set_polls (<[i := mkPoll (events p) true (happened p) (promise p) (ev p)]> (polls s)) s)).
Proof.
  intros Hs Hi Hp Hd. set (p1 := mkPoll _ true _ _ _).
  assert (Hok : poll_ok (cur_of i s) True p1).
  { apply (discard_requested _ (queued i s)); [|by apply Hs]. intros He. destruct (ok_done _ _ _ (inv_poll _ Hs i p Hi) He) as [[? ?] _]. congruence. }
  assert (Hv : view_step (view p) (view p1)) by (unfold view; cbn; rewrite Hd, Hp; apply view_asked).
  destruct in_loop.
  - assert (Hp1 : <[i := p1]> (polls s) !! i = Some p1) by (apply list_lookup_insert_eq; by eapply lookup_lt_Some).
    unfold run_in_event_loop. cbn. rewrite (alter_insert _ _ i p1 Hp1).
    rewrite list_insert_insert_eq. split.
    + eapply (libevent_change s _ i p _ Hs Hi); [reflexivity| |by rewrite asked_discard_function|done|apply Hs|apply Hs].
      destruct (discard_function_ok _ _ _ Hok) as [Hx|?]; [|done]. by eapply poll_ok_mono; [|exact Hx].
    + apply (evolves_change view _ i p); [done|]. right. by rewrite view_discard_function.
  - split; [|by apply (evolves_change view _ i p); auto].
    eapply (libevent_change s _ i p _ Hs Hi); [reflexivity| |done| |cbn; lia|apply Hs].
    + eapply poll_ok_mono; [|exact Hok]. intros _. left. cbn. set_solver.
    + intros j Hj. split; [done|]. unfold queued. cbn. set_solver.
Qed.

Lemma libevent_next_good i q s :
  loop_inv s -> current s = None -> batch s = i :: q ->
  exec_good s (mkLibevent (alter discard_function i (polls s)) (functions s) (wakeups s) q (current s)).
Proof.
  intros Hs Hc Hb. destruct (inv_queued _ Hs i) as (p & Hi & Hd); [right; rewrite Hb; left|].
  rewrite (alter_insert _ _ i p Hi). split.
  - eapply (libevent_change s _ i p _ Hs Hi); [reflexivity| | | |apply Hs|apply Hs].
    + destruct (discard_function_ok _ _ _ (inv_poll _ Hs i p Hi)) as [Hx|?]; [|congruence]. by eapply poll_ok_mono; [|exact Hx].
    + by rewrite asked_discard_function.
    + intros j Hj. split; [done|]. unfold queued. cbn. rewrite Hb. set_solver.
  - apply (evolves_change view _ i p); [done|]. left. apply view_discard_function.
Qed.

Lemma libevent_exec_ok a s s' : loop_inv s -> exec a s = Some s' -> exec_good s s'.
Proof.
  intros Hs He. destruct a; cbn [exec] in He.
  - injection He as <-. by apply libevent_poll_good.
  - apply bind_Some in He as (p & Hi & (e & Hev & He)%bind_Some).
    destruct (inserted e && negb (res =? 0)%Z && (Z.land res (what e) =? res)%Z) eqn:Hg; [|done]. injection He as <-.
    bool_cases. by apply ready_good.
  - apply bind_Some in He as (p & Hi & (e & Hev & (res & Ha & He)%bind_Some)%bind_Some).
    destruct (free_loop s) eqn:Hf; [|done]. injection He as <-. by apply callback_good.
  - apply bind_Some in He as ([[i d] res] & Hc & (p & Hi & He)%bind_Some). injection He as <-. by apply finish_good.
  - apply bind_Some in He as (p & Hi & He). destruct (promise p) eqn:Hp; [injection He as <-; by split; [|apply evolves_refl]|].
    destruct (hasDiscard p) eqn:Hd; [injection He as <-; by split; [|apply evolves_refl]|].
    destruct (may_discard in_loop i s); [|done]. injection He as <-. rewrite <- Hp. by apply discard_good.
  - destruct (free_loop s && (0 <? wakeups s)) eqn:Hg; [|done]. injection He as <-. bool_cases.
    apply libevent_free_loop in H0 as [Hc Hb]. split; [|apply evolves_refl]. apply (libevent_queues s); try done. intros i. unfold queued. cbn. rewrite Hb. set_solver.
  - destruct (current s) eqn:Hc; [done|]. destruct (batch s) as [|i q] eqn:Hb; [done|]. injection He as <-.
    pose proof (libevent_next_good i q s Hs Hc Hb) as Hx. by rewrite Hc in Hx.
Qed.

Lemma libevent_inv s : loop_reachable s -> loop_inv s.
Proof.
  intros Hr. apply (steps_invariant loop_step loop_inv initial s); [|done|].
  - intros x y Hx [a Ha]. cbn in Ha. destruct (exec a x) as [z|] eqn:He; [|done]. injection Ha as <-. by apply (libevent_exec_ok a x).
  - constructor; cbn; try done. intros i [Hi|Hi]; cbn in Hi; set_solver.
Qed.

(** ** Laws *)

Lemma libevent_views_change (l : list Poll) i p p' j r :
  l !! i = Some p -> same_poll (view p) (view p') -> (view <$> l) !! j = Some r ->
  exists r', (view <$> <[i := p']> l) !! j = Some r' /\ same_poll r r'.
Proof.
  intros Hi Hs. rewrite !list_lookup_fmap, list_lookup_insert. intros Hr.
  destruct (decide (i = j /\ i < length l)) as [[-> _]|_]; [|by exists r].
  rewrite Hi in Hr. injection Hr as <-. by eexists.
Qed.

Lemma libevent_quiet s a s' i r :
  is_internal a = true -> exec a s = Some s' -> (view <$> polls s) !! i = Some r ->
  exists r', (view <$> polls s') !! i = Some r' /\ same_poll r r'.
Proof.
  intros Hn He Hr. destruct a as [| |j| | | |]; cbn [exec] in He; try done.
  - apply bind_Some in He as (p & Hi & (e & Hev & (res & Ha & He)%bind_Some)%bind_Some). destruct (free_loop s); [|done].
    injection He as <-. by apply (libevent_views_change _ j p).
  - apply bind_Some in He as ([[j d] res] & Hc & (p & Hi & He)%bind_Some). injection He as <-. by apply (libevent_views_change _ j p).
  - destruct (free_loop s && _); [|done]. injection He as <-. by exists r.
  - destruct (current s); [done|]. destruct (batch s) as [|j q]; [done|]. injection He as <-. cbn.
    destruct (polls s !! j) as [p|] eqn:Hi.
    + rewrite (alter_insert _ _ j p Hi). apply (libevent_views_change _ j p); try done. rewrite view_discard_function. done.
    + rewrite (alter_missing _ _ j Hi). by exists r.
Qed.

#[local] Arguments poll_work : simpl never.

Lemma libevent_work_change (l : list Poll) i p p' :
  l !! i = Some p -> sum_list_by poll_work (<[i := p']> l) + poll_work p = sum_list_by poll_work l + poll_work p'.
Proof.
  revert i. induction l as [|x l IH]; intros [|i] Hi; try done; cbn in Hi; [injection Hi as ->; cbn; lia|].
  specialize (IH i Hi). change (<[S i := p']> (x :: l)) with (x :: <[i := p']> l). cbn [sum_list_by]. lia.
Qed.

Lemma discard_function_work p : poll_work (discard_function p) <= poll_work p + 2.
Proof.
  unfold poll_work, discard_function. destruct (ev p) as [e|] eqn:He; [|rewrite He; lia].
  destruct (event_pending e (what e)); cbn; [|rewrite He]; lia.
Qed.

Lemma libevent_works s a s' : is_internal a = true -> exec a s = Some s' -> loop_work s' < loop_work s.
Proof.
  intros Hn He. unfold loop_work. destruct a as [| |j| | | |]; cbn [exec] in He; try done.
  - apply bind_Some in He as (p & Hi & (e & Hev & (res & Ha & He)%bind_Some)%bind_Some). destruct (free_loop s); [|done].
    injection He as <-. cbn.
    match goal with |- context [<[j := ?q]> _] => pose proof (libevent_work_change _ j p q Hi) as Hw; change (poll_work q) with 0 in Hw end.
    assert (Hp : poll_work p = 2) by (unfold poll_work; by rewrite Hev, Ha). lia.
  - apply bind_Some in He as ([[j d] res] & Hc & (p & Hi & He)%bind_Some). injection He as <-. cbn. rewrite Hc. cbn.
    pose proof (libevent_work_change _ j p (pollCallback d res p) Hi) as Hw. change (poll_work (pollCallback d res p)) with 0 in Hw. lia.
  - destruct (free_loop s && (0 <? wakeups s)) eqn:Hg; [|done]. injection He as <-. cbn.
    apply andb_true_iff in Hg as [[_ Hb]%libevent_free_loop Hk%Nat.ltb_lt]. rewrite Hb. cbn. lia.
  - destruct (current s); [done|]. destruct (batch s) as [|j q] eqn:Hb; [done|]. injection He as <-. cbn.
    destruct (polls s !! j) as [p|] eqn:Hi.
    + rewrite (alter_insert _ _ j p Hi). pose proof (libevent_work_change _ j p (discard_function p) Hi). pose proof (discard_function_work p). lia.
    + rewrite (alter_missing _ _ j Hi). lia.
Qed.

Lemma libevent_moves s : loop_inv s -> idle s = false -> exists s', internal_step s s'.
Proof.
  intros Hs Hid.
  assert (Hgo : forall a s', is_internal a = true -> exec a s = Some s' -> exists s', internal_step s s').
  { intros a s' Hn He. exists s', a. split; [done|]. cbn. by rewrite He. }
  destruct (current s) as [[[i d] res]|] eqn:Hc.
  { destruct (inv_current _ Hs i d res Hc) as [p Hp]. eapply (Hgo AFinish); [done|]. cbn. rewrite Hc. cbn. by rewrite Hp. }
  destruct (batch s) as [|i q] eqn:Hb; [|eapply (Hgo ANext); [done|]; cbn; by rewrite Hc, Hb].
  assert (Hf : free_loop s = true) by (unfold free_loop; by rewrite Hc, Hb). cbn in Hid. rewrite Hf in Hid. cbn in Hid.
  destruct (wakeups s) as [|n] eqn:Hw; [|eapply (Hgo AAsync); [done|]; cbn; by rewrite Hf, Hw]. cbn in Hid.
  assert (Hex : exists i p e r, polls s !! i = Some p /\ ev p = Some e /\ active e = Some r).
  { unfold nothing_active in Hid. clear -Hid. induction (polls s) as [|p l IH]; [done|]. cbn in Hid.
    destruct (ev p) as [e|] eqn:He; [destruct (active e) as [r|] eqn:Ha; [by exists 0, p, e, r|]|];
      destruct (IH Hid) as (i & x & y & z & Hi & Hx); by exists (S i), x, y, z. }
  destruct Hex as (i & p & e & r & Hi & He & Ha). eapply (Hgo (ACallback i)); [done|]. cbn. rewrite Hi. cbn. rewrite He. cbn.
  rewrite Ha. cbn. by rewrite Hf.
Qed.

(** When the loop is idle, the event of a poll that is not answered is in it. *)
Lemma libevent_idle s i p :
  loop_inv s -> idle s = true -> polls s !! i = Some p -> promise p = None ->
  exists e, ev p = Some e /\ inserted e = true /\ active e = None /\ what e = to_libevent (events p) /\ happened p = 0%Z /\
  (to_libevent (events p) <> 0%Z -> hasDiscard p = false).
Proof.
  intros Hs Hid Hp Hn. cbn in Hid. bool_cases.
  destruct (inv_poll _ Hs i p Hp) as [A1 A2 A3 A4 A5 A6 A7].
  destruct (ev p) as [e|] eqn:He; [|destruct (A1 eq_refl) as [[? ?] _]; congruence]. exists e.
  match goal with H : free_loop s = true |- _ => apply libevent_free_loop in H as [Hc Hb] end.
  assert (Hcu : cur_of i s = None) by (unfold cur_of; by rewrite Hc).
  assert (Hact : active e = None).
  { match goal with H : nothing_active s = true |- _ => unfold nothing_active in H; rewrite forallb_forall in H; specialize (H p); rewrite He in H;
      apply (bool_decide_eq_true (active e = None)), H, list_elem_of_In, list_elem_of_lookup; eauto end. }
  assert (Hfs : functions s = []).
  { destruct (functions s) eqn:Hf; [done|]. pose proof (inv_wake _ Hs) as Hk. rewrite Hf in Hk. specialize (Hk ltac:(done)). lia. }
  destruct (A3 e eq_refl) as [Hi _]. rewrite Hcu, bool_decide_true in Hi by done. destruct (A2 e eq_refl) as [_ Hw].
  split_and!; try done; [by eapply A4|]. intros Hz. destruct (hasDiscard p); [|done].
  destruct (A7 e eq_refl eq_refl Hz) as [Hq|[[? ?]|[? ?]]]; [|congruence..]. unfold queued in Hq. rewrite Hfs, Hb in Hq. set_solver.
Qed.

Lemma libevent_view s i r : views s !! i = Some r -> exists p, polls s !! i = Some p /\ r = view p.
Proof. cbn. rewrite list_lookup_fmap. destruct (polls s !! i) as [p|]; [|done]. intros [= <-]. eauto. Qed.

#[global] Instance libevent_laws : PollerLaws libevent action.
Proof.
  split.
  - done.
  - intros s a m _. cbn. by destruct (exec a s).
  - intros s a s' Hr He. cbn in He. destruct (exec a s) as [z|] eqn:Hx; [|done]. injection He as <-.
    by apply (libevent_exec_ok a s z (libevent_inv s Hr)).
  - intros s a s' i r Hn He. cbn in He. destruct (exec a s) as [z|] eqn:Hx; [|done]. injection He as <-. by apply (libevent_quiet s a z).
  - intros s s' (a & Hn & He). cbn in He. destruct (exec a s) as [z|] eqn:Hx; [|done]. injection He as <-. by apply (libevent_works s a).
  - intros s Hr. apply libevent_moves. by apply libevent_inv.
  - intros s i r Hr Hid (p & Hp & ->)%libevent_view Ha Hw. destruct (promise p) eqn:Hpr; [by cbn; rewrite Hpr|].
    destruct (libevent_idle s i p (libevent_inv s Hr) Hid Hp Hpr) as (e & _ & _ & _ & _ & _ & Hd). cbn in Ha, Hw.
    rewrite Hd in Ha; [done|]. intros Hz. by rewrite Hz in Hw.
  - intros s i r Hr Hid (p & Hp & ->)%libevent_view Ha. destruct (promise p) eqn:Hpr; [by cbn; rewrite Hpr|].
    destruct (libevent_idle s i p (libevent_inv s Hr) Hid Hp Hpr) as (e & _ & _ & _ & _ & Hh & _). cbn in Ha. rewrite Hh in Ha. by destruct Ha.
  - intros s i r e Hr Hid (p & Hp & ->)%libevent_view Ha Hne Hw Hwi. cbn in Ha, Hw.
    destruct (libevent_idle s i p (libevent_inv s Hr) Hid Hp Ha) as (v & He & Hin & Hact & Hwh & Hh & _).
    assert (Hback : to_io (to_libevent e) = e) by (rewrite flags_roundtrip; exact Hwi).
    assert (Hnz : to_libevent e <> 0%Z) by (intros Hz; rewrite Hz in Hback; by apply Hne).
    pose proof (to_libevent_within e (events p) Hw) as Hww. unfold within in Hww. eexists. split.
    + cbn. rewrite Hp. cbn. rewrite He. cbn. rewrite Hin, Hwh, Hww, Z.eqb_refl, (proj2 (Z.eqb_neq _ 0) Hnz). done.
    + cbn. rewrite list_lookup_fmap, list_lookup_insert_eq by by eapply lookup_lt_Some. cbn. unfold view. cbn. by rewrite Hh, Hback, Ha.
Qed.
End Libevent.
