(* ===== verification/Libev.v ===== *)
(** The event loop over libev ([posix/libev/libev.cpp], [libev.hpp], [libev_poll.cpp]): the queue of
    functions and the polls, each with a watcher for the descriptor and one for its discard. *)

From S2P Require Import Prelude HttpConnection Descriptors Io EventLoop.

(** The flag of libev for a watcher that it stopped because of an error, as when the descriptor
    was closed. *)
Class LibevFlags := { EV_ERROR : Z }.

(** A watcher of libev: it is started or stopped, and its callback may be pending. *)
Record watcher := mkWatcher { started : bool; pending : option Z }.
Definition stopped : watcher := mkWatcher false None.     (* [ev_io_stop], [ev_async_stop] *)

(** Where a poll is: its function waits in the queue; [Poll] exists; [Poll] was deleted, or
    never made. *)
Inductive stage := Queued | Running | Deleted.

(** [Poll] and the future of [run_in_event_loop], which is associated with that of [Poll].
    [sent] is [ev_async_send] on the watcher.  [happened] and [killed] are a history: the flags
    that libev reported, and whether there was [EV_ERROR] among them. *)
Record Poll := mkPoll {
  events : Z;
  hasDiscard : bool;
  happened : Z;
  killed : bool;
  promise : option (completion Z);
  io : watcher;
  async : watcher;
  sent : bool;
  at_stage : stage;
}.

(** [functions], [async_watcher] ([unsent] counts the threads that have added a function and
    not yet called [ev_async_send]), the queue [run_functions] of [handle_async], and a call of
    [_run_in_event_loop] that has looked at [hasDiscard]. *)
Record libev := mkLibev {
  polls : list Poll;
  functions : list nat;
  unsent : nat;
  wake_sent : bool;
  wake_pending : bool;
  run_functions : list nat;
  starting : option nat;
}.

Definition set_polls (l : list Poll) (s : libev) : libev :=
  mkLibev l (functions s) (unsent s) (wake_sent s) (wake_pending s) (run_functions s) (starting s).

(** [internal::poll]: the watchers are started.  A discard that was requested in the meantime
    is passed on by the association of the futures. *)
Definition start_poll (p : Poll) : Poll :=
  mkPoll (events p) (hasDiscard p) (happened p) (killed p) (promise p) (mkWatcher true None) (mkWatcher true None) (hasDiscard p) Running.

(** [Poll] is deleted when its promise was completed. *)
Definition delete_poll (o : completion Z) (p : Poll) : Poll :=
  mkPoll (events p) (hasDiscard p) (happened p) (killed p) (Some o) stopped stopped (sent p) Deleted.

Definition freed : string := "Poll was deleted".

(** [polled]: the flags become a [short] in [promise.set(revents)]. *)
Definition polled (revents : Z) (p : Poll) : checked Poll :=
  match at_stage p with
  | Running => Returns (delete_poll (IsReady (to_short revents)) p)
  | _ => Abort freed
  end.

(** [discard_poll]: a pending [polled] wins. *)
Definition discard_poll (p : Poll) : checked Poll :=
  match at_stage p with
  | Running =>
      match pending (io p) with
      | Some _ => Returns p
      | None => Returns (delete_poll IsDiscarded p)
      end
  | _ => Abort freed
  end.

(** [run_in_event_loop(internal::poll)]. *)
Definition poll (in_loop : bool) (events : Z) (s : libev) : libev :=
  let p := mkPoll events false 0 false None stopped stopped false Queued in
  if in_loop then set_polls (polls s ++ [start_poll p]) s
  else mkLibev (polls s ++ [p]) (functions s ++ [length (polls s)]) (S (unsent s)) (wake_sent s) (wake_pending s)
         (run_functions s) (starting s).

(** The beginning of [_run_in_event_loop], in the loop of [handle_async]. *)
Definition run_function (i : nat) (q : list nat) (p : Poll) (s : libev) : libev :=
  if hasDiscard p
  then mkLibev (<[i := delete_poll IsDiscarded p]> (polls s)) (functions s) (unsent s) (wake_sent s) (wake_pending s) q None
  else mkLibev (polls s) (functions s) (unsent s) (wake_sent s) (wake_pending s) q (Some i).

(** The beginning of [handle_async]. *)
Definition handle_async (s : libev) : libev :=
  mkLibev (polls s) [] (unsent s) (wake_sent s) false (functions s) (starting s).

Inductive action :=
| APoll (in_loop : bool) (events : Z) | ASend | AFeed | AHandle | ANext | AStart
| AReady (i : nat) (revents : Z)          (* libev sees that the descriptor is ready *)
| AError (i : nat) (dummy : Z)            (* libev stops the watcher, and reports some other flags too *)
| ADiscard (i : nat)
| AFeedDiscard (i : nat) | APolled (i : nat) | ADiscardPoll (i : nat).

Definition free_loop (s : libev) : bool := match starting s, run_functions s with None, [] => true | _, _ => false end.

Definition on_poll (i : nat) (x : checked Poll) (s : libev) : checked libev :=
  match x with Returns p => Returns (set_polls (<[i := p]> (polls s)) s) | Abort m => Abort m end.

Section Libev.
Context {error_flag : LibevFlags}.

Definition exec (a : action) (s : libev) : option (checked libev) :=
  match a with
  | APoll in_loop events => Some (Returns (poll in_loop events s))
  | ASend =>
      match unsent s with
      | 0 => None
      | S n => Some (Returns (mkLibev (polls s) (functions s) n true (wake_pending s) (run_functions s) (starting s)))
      end
  | AFeed =>
      if wake_sent s
      then Some (Returns (mkLibev (polls s) (functions s) (unsent s) false true (run_functions s) (starting s)))
      else None
  | AHandle => if free_loop s && wake_pending s then Some (Returns (handle_async s)) else None
  | ANext =>
      match starting s, run_functions s with
      | None, i :: q => p ← polls s !! i; Some (Returns (run_function i q p s))
      | _, _ => None
      end
  | AStart =>
      i ← starting s; p ← polls s !! i;
      Some (Returns (mkLibev (<[i := start_poll p]> (polls s)) (functions s) (unsent s) (wake_sent s) (wake_pending s)
                       (run_functions s) None))
  | AReady i revents =>
      p ← polls s !! i;
      if started (io p) && negb (revents =? 0)%Z && (Z.land revents (events p) =? revents)%Z &&
         (Z.land revents io_events =? revents)%Z
      then Some (Returns (set_polls (<[i := mkPoll (events p) (hasDiscard p) (Z.lor (happened p) revents) (killed p) (promise p)
              (mkWatcher true (Some (Z.lor (default 0%Z (pending (io p))) revents))) (async p) (sent p) (at_stage p)]> (polls s)) s))
      else None
  | AError i dummy =>
      p ← polls s !! i;
      if started (io p)
      then
        let revents := Z.lor EV_ERROR dummy in
        Some (Returns (set_polls (<[i := mkPoll (events p) (hasDiscard p) (Z.lor (happened p) revents) true (promise p)
              (mkWatcher false (Some (Z.lor (default 0%Z (pending (io p))) revents))) (async p) (sent p) (at_stage p)]> (polls s)) s))
      else None
  | ADiscard i =>
      p ← polls s !! i;
      match promise p, hasDiscard p with
      | None, false =>
          let sending := match at_stage p with Queued => sent p | _ => true end in
          Some (Returns (set_polls (<[i := mkPoll (events p) true (happened p) (killed p) (promise p) (io p) (async p) sending (at_stage p)]> (polls s)) s))
      | _, _ => Some (Returns s)
      end
  | AFeedDiscard i =>
      p ← polls s !! i;
      if started (async p) && sent p
      then Some (Returns (set_polls (<[i := mkPoll (events p) (hasDiscard p) (happened p) (killed p) (promise p) (io p) (mkWatcher true (Some 0%Z))
              false (at_stage p)]> (polls s)) s))
      else None
  | APolled i =>
      p ← polls s !! i; revents ← pending (io p);
      if free_loop s then Some (on_poll i (polled revents p) s) else None
  | ADiscardPoll i =>
      p ← polls s !! i; _ ← pending (async p);
      if free_loop s
      then Some (on_poll i (discard_poll (mkPoll (events p) (hasDiscard p) (happened p) (killed p) (promise p) (io p) (mkWatcher (started (async p)) None) (sent p)
                                            (at_stage p))) s)
      else None
  end.

Definition view (p : Poll) : poll_view := mkView (events p) (hasDiscard p) (happened p) (killed p) (promise p).

(** No callback of the poll is pending, or about to be. *)
Definition poll_idle (p : Poll) : bool :=
  bool_decide (pending (io p) = None) && bool_decide (pending (async p) = None) && negb (started (async p) && sent p).

(** The callbacks that are left to do. *)
Definition poll_work (p : Poll) : nat :=
  (if started (async p) && sent p then 2 else 0) + length (option_list (pending (async p))) + length (option_list (pending (io p))).

(** A function that waits is called and may start a poll that is to be discarded. *)
Definition loop_work (s : libev) : nat :=
  3 * unsent s + (if wake_sent s then 2 else 0) + (if wake_pending s then 1 else 0) +
  4 * length (functions s) + 4 * length (run_functions s) + 3 * length (option_list (starting s)) +
  sum_list_by poll_work (polls s).

Definition is_internal (a : action) : bool :=
  match a with APoll _ _ | AReady _ _ | AError _ _ | ADiscard _ => false | _ => true end.

Definition initial : libev := mkLibev [] [] 0 false false [] None.

#[global] Instance libev_loop : Poller libev action := {|
  start := initial;
  exec_loop := exec;
  report := AReady;
  internal := is_internal;
  views s := view <$> polls s;
  idle s := free_loop s && (unsent s =? 0) && negb (wake_sent s) && negb (wake_pending s) && forallb poll_idle (polls s);
  work := loop_work;
|}.

(** ** Invariant *)

Record running_ok (p : Poll) : Prop := mkRunningOk {
  r_promise : promise p = None;
  r_started : (started (io p) = true \/ is_Some (pending (io p))) /\ started (async p) = true;
  r_happened : default 0%Z (pending (io p)) = happened p;
  r_pending r : pending (io p) = Some r -> killed p = true \/ r <> 0%Z;
  r_killed : killed p = true -> is_Some (pending (io p));
  r_asked : sent p = true \/ is_Some (pending (async p)) -> hasDiscard p = true;
  r_discards : hasDiscard p = true -> sent p = true \/ is_Some (pending (async p)) \/ is_Some (pending (io p));
}.

(** [queued] says that the function of the poll is in one of the queues, or being called. *)
Definition poll_ok (queued : Prop) (p : Poll) : Prop :=
  match at_stage p with
  | Queued => queued /\ promise p = None /\ happened p = 0%Z /\ killed p = false /\ io p = stopped /\ async p = stopped
  | Running => ~ queued /\ running_ok p
  | Deleted => ~ queued /\ is_Some (promise p) /\ io p = stopped /\ async p = stopped
  end.

Definition waiting (s : libev) : list nat := functions s ++ run_functions s ++ option_list (starting s).

Record loop_inv (s : libev) : Prop := mkLoopInv {
  inv_poll i p : polls s !! i = Some p -> poll_ok (i ∈ waiting s) p;
  inv_once : NoDup (waiting s);
  inv_wake : functions s <> [] -> 0 < unsent s \/ wake_sent s = true \/ wake_pending s = true;
  inv_bound i : i ∈ waiting s -> i < length (polls s);
}.

Lemma poll_ok_iff (q q' : Prop) p : (q <-> q') -> poll_ok q p -> poll_ok q' p.
Proof. unfold poll_ok. intros Hq. destruct (at_stage p); tauto. Qed.

Definition exec_good (s s' : libev) : Prop := loop_inv s' /\ evolves (view <$> polls s) (view <$> polls s').

(** The queues change in a way that keeps what waits. *)
Lemma libev_queues s s' :
  loop_inv s -> polls s' = polls s -> waiting s' ≡ₚ waiting s ->
  (functions s' <> [] -> 0 < unsent s' \/ wake_sent s' = true \/ wake_pending s' = true) -> exec_good s s'.
Proof.
  intros [A1 A2 A3 A4] Hp Hq Hw. split; [|rewrite Hp; apply evolves_refl]. constructor; rewrite ?Hp; try done.
  - intros i p Hi. eapply poll_ok_iff; [|by apply A1]. by rewrite Hq.
  - by rewrite Hq.
  - intros i. rewrite Hq. apply A4.
Qed.

(** One poll changes, and perhaps what waits of it. *)
Lemma libev_change s s' i p p' :
  loop_inv s -> polls s !! i = Some p -> polls s' = <[i := p']> (polls s) ->
  poll_ok (i ∈ waiting s') p' -> view p' = view p \/ view_step (view p) (view p') ->
  (waiting s' = waiting s \/ waiting s ≡ₚ i :: waiting s') ->
  functions s' = functions s -> unsent s' = unsent s -> wake_sent s' = wake_sent s -> wake_pending s' = wake_pending s ->
  exec_good s s'.
Proof.
  intros [A1 A2 A3 A4] Hi Hps Hp Hv Hw Hf Hu Hk1 Hk2.
  assert (Hother : forall j, j <> i -> (j ∈ waiting s <-> j ∈ waiting s')).
  { intros j Hj. destruct Hw as [->|Hw]; [done|]. rewrite Hw. set_solver. }
  split; [|rewrite Hps; by eapply evolves_change]. constructor; rewrite ?Hps.
  - intros j x. rewrite list_lookup_insert. destruct (decide (i = j /\ i < length (polls s))) as [[-> _]|Hn]; [by intros [= <-]|].
    intros Hx. assert (Hne : j <> i) by (intros ->; apply Hn; split; [done|by eapply lookup_lt_Some]).
    eapply poll_ok_iff; [by apply Hother|by apply A1].
  - destruct Hw as [->|Hw]; [done|]. rewrite Hw in A2. by apply NoDup_cons in A2 as [_ A2].
  - by rewrite Hf, Hu, Hk1, Hk2.
  - intros j Hj. rewrite length_insert. apply A4. destruct Hw as [<-|Hw]; [done|]. rewrite Hw. by right.
Qed.

Lemma libev_poll_good in_loop e s : loop_inv s -> exec_good s (poll in_loop e s).
Proof.
  intros [A1 A2 A3 A4].
  assert (Hnew : length (polls s) ∉ waiting s) by (intros Hx%A4; lia).
  destruct in_loop; (split; [|by apply evolves_snoc]); unfold poll.
  - constructor; cbn; try done.
    + intros i p. rewrite lookup_app_Some. intros [Hi|[Hl Hi]]; [by apply A1|]. apply list_lookup_singleton_Some in Hi as [Hi <-].
      assert (i = length (polls s)) as -> by lia. split; [exact Hnew|]. constructor; cbn; auto; try done. by intros [|[? ?]].
    + intros i Hi. rewrite length_app. apply A4 in Hi. lia.
  - assert (Hw : waiting (poll false e s) ≡ₚ length (polls s) :: waiting s) by (unfold waiting; cbn; solve_Permutation).
    constructor.
    + intros i p. cbn. rewrite lookup_app_Some. intros [Hi|[Hl Hi]].
      * eapply poll_ok_iff; [|by apply A1]. rewrite Hw. apply lookup_lt_Some in Hi. rewrite elem_of_cons. split; [auto|].
        intros [?|?]; [lia|done].
      * apply list_lookup_singleton_Some in Hi as [Hi <-]. assert (i = length (polls s)) as -> by lia. cbn. split_and!; try done.
        rewrite Hw. left.
    + rewrite Hw. by constructor.
    + cbn. left. lia.
    + intros i. rewrite Hw. cbn. rewrite length_app. cbn. intros [->|Hi%A4]%elem_of_cons; lia.
Qed.

Lemma libev_free_loop s : free_loop s = true -> starting s = None /\ run_functions s = [].
Proof. unfold free_loop. by destruct (starting s), (run_functions s). Qed.

(** What waits was not started. *)
Lemma waiting_queued s i p :
  loop_inv s -> polls s !! i = Some p -> i ∈ waiting s ->
  at_stage p = Queued /\ promise p = None /\ happened p = 0%Z /\ killed p = false /\ io p = stopped /\ async p = stopped.
Proof.
  intros Hs Hi Hw. pose proof (inv_poll _ Hs i p Hi) as Hp. unfold poll_ok in Hp.
  destruct (at_stage p); [by destruct Hp|by destruct Hp..].
Qed.

Lemma libev_next_good i q p s :
  loop_inv s -> starting s = None -> run_functions s = i :: q -> polls s !! i = Some p -> exec_good s (run_function i q p s).
Proof.
  intros Hs Hst Hr Hi.
  assert (Hw : forall l k, waiting (mkLibev l (functions s) (unsent s) (wake_sent s) (wake_pending s) q k) =
    functions s ++ q ++ option_list k) by done.
  assert (Hw0 : waiting s ≡ₚ i :: functions s ++ q) by (unfold waiting; rewrite Hst, Hr; cbn; solve_Permutation).
  pose proof (inv_once _ Hs) as Hn. rewrite Hw0 in Hn. apply NoDup_cons in Hn as [Hni _].
  destruct (waiting_queued s i p Hs Hi) as (Hq & Hpr & Hh & Hk & Hio & Has); [rewrite Hw0; left|].
  unfold run_function. destruct (hasDiscard p) eqn:Hd.
  - eapply (libev_change s _ i p); try done.
    + unfold poll_ok. cbn. unfold waiting. cbn. rewrite app_nil_r. by split_and!; eauto.
    + right. unfold view. cbn. rewrite Hd, Hpr. apply view_discarded.
    + right. by rewrite Hw, app_nil_r.
  - apply libev_queues; try done; [|apply Hs]. rewrite Hw, Hw0. cbn. solve_Permutation.
Qed.

Lemma start_good i p s :
  loop_inv s -> starting s = Some i -> polls s !! i = Some p ->
  exec_good s (mkLibev (<[i := start_poll p]> (polls s)) (functions s) (unsent s) (wake_sent s) (wake_pending s) (run_functions s) None).
Proof.
  intros Hs Hst Hi.
  assert (Hw0 : waiting s ≡ₚ i :: functions s ++ run_functions s) by (unfold waiting; rewrite Hst; cbn; solve_Permutation).
  pose proof (inv_once _ Hs) as Hn. rewrite Hw0 in Hn. apply NoDup_cons in Hn as [Hni _].
  destruct (waiting_queued s i p Hs Hi) as (Hq & Hpr & Hh & Hk & Hio & Has); [rewrite Hw0; left|].
  eapply (libev_change s _ i p); try done.
  - unfold poll_ok. cbn. unfold waiting. cbn. rewrite app_nil_r. split; [done|]. constructor; cbn; try done; auto; try congruence. by intros [|[? ?]].
  - by left.
  - right. unfold waiting at 2. cbn. by rewrite app_nil_r.
Qed.

(** A poll that runs changes and runs on. *)
Lemma running_good i p p' s :
  loop_inv s -> polls s !! i = Some p -> at_stage p = Running -> at_stage p' = Running ->
  (running_ok p -> running_ok p') -> view p' = view p \/ view_step (view p) (view p') ->
  exec_good s (set_polls (<[i := p']> (polls s)) s).
Proof.
  intros Hs Hi Hr Hr' Hok Hv. pose proof (inv_poll _ Hs i p Hi) as Hp. unfold poll_ok in Hp. rewrite Hr in Hp. destruct Hp as [Hn Hp].
  eapply (libev_change s _ i p); try done; [|by left]. unfold poll_ok. rewrite Hr'. auto.
Qed.

(** A poll that runs ends. *)
Lemma delete_good i p q o s :
  loop_inv s -> polls s !! i = Some p -> at_stage p = Running -> events q = events p -> hasDiscard q = hasDiscard p ->
  happened q = happened p -> killed q = killed p ->
  view_step (view p) (mkView (events p) (hasDiscard p) (happened p) (killed p) (Some o)) ->
  exec_good s (set_polls (<[i := delete_poll o q]> (polls s)) s).
Proof.
  intros Hs Hi Hr E1 E2 E3 E4 Hv. pose proof (inv_poll _ Hs i p Hi) as Hp. unfold poll_ok in Hp. rewrite Hr in Hp. destruct Hp as [Hn Hp].
  eapply (libev_change s _ i p); try done; [|by left]. right. unfold view. cbn. by rewrite E1, E2, E3, E4.
Qed.

(** A watcher that is started, or whose callback is pending, is that of a poll that runs. *)
Lemma active_running s i p :
  loop_inv s -> polls s !! i = Some p -> io p <> stopped \/ async p <> stopped -> at_stage p = Running /\ running_ok p.
Proof.
  intros Hs Hi Ha. pose proof (inv_poll _ Hs i p Hi) as Hp. unfold poll_ok in Hp. destruct (at_stage p); [|by destruct Hp|]; tauto.
Qed.

Lemma libev_exec_ok a s x : loop_inv s -> exec a s = Some x -> exists s', x = Returns s' /\ exec_good s s'.
Proof.
  intros Hs He. destruct a; cbn [exec] in He.
  - injection He as <-. eexists. split; [done|]. by apply libev_poll_good.
  - destruct (unsent s) as [|n]; [done|]. injection He as <-. eexists. split; [done|]. apply libev_queues; auto.
  - destruct (wake_sent s); [|done]. injection He as <-. eexists. split; [done|]. apply libev_queues; auto.
  - destruct (free_loop s && wake_pending s) eqn:Hg; [|done]. injection He as <-. bool_cases. apply libev_free_loop in H as [Hst Hrf].
    eexists. split; [done|]. apply libev_queues; try done. unfold waiting. cbn. rewrite Hst, Hrf. cbn. by rewrite app_nil_r.
  - destruct (starting s) eqn:Hst; [done|]. destruct (run_functions s) as [|i q] eqn:Hr; [done|].
    apply bind_Some in He as (p & Hi & [= <-]). eexists. split; [done|]. by apply libev_next_good.
  - apply bind_Some in He as (i & Hst & (p & Hi & [= <-])%bind_Some). eexists. split; [done|]. by apply start_good.
  - apply bind_Some in He as (p & Hi & He). destruct (started (io p) && _ && _ && _) eqn:Hg; [|done]. injection He as <-. bool_cases.
    destruct (active_running s i p Hs Hi) as [Hr Hok]; [left; intros Hx; by rewrite Hx in *|].
    eexists. split; [done|]. eapply (running_good i p); try done.
    + intros [R1 R2 R3 R4 R7 R5 R6]. constructor; cbn; try done; eauto.
      * by split; [left|apply R2].
      * by rewrite R3.
      * intros r [= <-]. rewrite Z.lor_eq_0_iff. tauto.
    + right. unfold view. cbn. rewrite (r_promise _ Hok). by apply view_occurs.
  - apply bind_Some in He as (p & Hi & He). destruct (started (io p)) eqn:Hg; [|done]. injection He as <-.
    destruct (active_running s i p Hs Hi) as [Hr Hok]; [left; intros Hx; by rewrite Hx in *|].
    eexists. split; [done|]. eapply (running_good i p); try done.
    + intros [R1 R2 R3 R4 R7 R5 R6]. constructor; cbn; try done; eauto.
      * split; [eauto|apply R2].
      * by rewrite R3.
    + right. unfold view. cbn. rewrite (r_promise _ Hok). apply view_breaks.
  - apply bind_Some in He as (p & Hi & He). destruct (promise p) eqn:Hpr; [injection He as <-; eexists; split; [done|]; by apply libev_queues; auto; apply Hs|].
    destruct (hasDiscard p) eqn:Hd; [injection He as <-; eexists; split; [done|]; by apply libev_queues; auto; apply Hs|]. injection He as <-.
    eexists. split; [done|]. pose proof (inv_poll _ Hs i p Hi) as Hp. unfold poll_ok in Hp.
    eapply (libev_change s _ i p); try done; [|right; unfold view; cbn; rewrite Hd, Hpr; apply view_asked|by left].
    unfold poll_ok. cbn. destruct (at_stage p); [tauto| |by destruct Hp as (_ & [? ?] & _); congruence].
    destruct Hp as [Hn [R1 R2 R3 R4 R7 R5 R6]]. split; [done|]. constructor; cbn; auto.
  - apply bind_Some in He as (p & Hi & He). destruct (started (async p) && sent p) eqn:Hg; [|done]. injection He as <-. bool_cases.
    destruct (active_running s i p Hs Hi) as [Hr Hok]; [right; intros Hx; by rewrite Hx in *|].
    eexists. split; [done|]. eapply (running_good i p); try done; [|by left].
    intros [R1 R2 R3 R4 R7 R5 R6]. constructor; cbn; eauto. by split; [apply R2|].
  - apply bind_Some in He as (p & Hi & (r & Hpe & He)%bind_Some). destruct (free_loop s); [|done]. injection He as <-.
    destruct (active_running s i p Hs Hi) as [Hr Hok]; [left; intros Hx; by rewrite Hx in *|].
    unfold polled. rewrite Hr. eexists. split; [done|]. apply (delete_good i p); try done.
    destruct Hok as [R1 R2 R3 R4 R7 R5 R6]. rewrite Hpe in R3. cbn in R3. subst r. unfold view. rewrite R1. apply view_ready. by apply R4.
  - apply bind_Some in He as (p & Hi & (r & Hpe & He)%bind_Some). destruct (free_loop s); [|done]. injection He as <-.
    destruct (active_running s i p Hs Hi) as [Hr Hok]; [right; intros Hx; by rewrite Hx in *|].
    unfold discard_poll. cbn. rewrite Hr. pose proof (r_asked _ Hok ltac:(eauto)) as Hd. destruct (pending (io p)) as [e|] eqn:Hio.
    + eexists. split; [done|]. eapply (running_good i p); try done; [|by left].
      intros [R1 R2 R3 R4 R7 R5 R6]. constructor; cbn; rewrite ?Hio in *; eauto.
    + eexists. split; [done|]. apply (delete_good i p); try done. unfold view. rewrite Hd, (r_promise _ Hok). apply view_discarded.
Qed.

Lemma libev_inv s : loop_reachable s -> loop_inv s.
Proof.
  intros Hr. apply (steps_invariant loop_step loop_inv initial s); [|done|].
  - intros x y Hx [a Ha]. destruct (libev_exec_ok a x _ Hx Ha) as (z & [= ->] & Hz & _). done.
  - constructor; cbn; try done; [constructor|]. unfold waiting. cbn. set_solver.
Qed.

(** ** Laws *)

Lemma libev_views_change (l : list Poll) i p p' j r :
  l !! i = Some p -> same_poll (view p) (view p') -> (view <$> l) !! j = Some r ->
  exists r', (view <$> <[i := p']> l) !! j = Some r' /\ same_poll r r'.
Proof.
  intros Hi Hs. rewrite !list_lookup_fmap, list_lookup_insert. intros Hr.
  destruct (decide (i = j /\ i < length l)) as [[-> _]|_]; [|by exists r].
  rewrite Hi in Hr. injection Hr as <-. by eexists.
Qed.

Lemma libev_quiet s a s' i r :
  is_internal a = true -> exec a s = Some (Returns s') -> (view <$> polls s) !! i = Some r ->
  exists r', (view <$> polls s') !! i = Some r' /\ same_poll r r'.
Proof.
  intros Hn He Hr. assert (Hsame : polls s' = polls s -> exists r', (view <$> polls s') !! i = Some r' /\ same_poll r r').
  { intros ->. by exists r. }
  destruct a as [| | | | | |j|j|j|j|j|j]; cbn [exec] in He; try done.
  - destruct (unsent s); [done|]. injection He as <-. by apply Hsame.
  - destruct (wake_sent s); [|done]. injection He as <-. by apply Hsame.
  - destruct (free_loop s && wake_pending s); [|done]. injection He as <-. by apply Hsame.
  - destruct (starting s); [done|]. destruct (run_functions s) as [|j q]; [done|].
    apply bind_Some in He as (p & Hi & [= <-]). unfold run_function. destruct (hasDiscard p); [|by exists r].
    by apply (libev_views_change _ j p).
  - apply bind_Some in He as (j & _ & (p & Hi & [= <-])%bind_Some). by apply (libev_views_change _ j p).
  - apply bind_Some in He as (p & Hi & He). destruct (started (async p) && sent p); [|done]. injection He as <-.
    by apply (libev_views_change _ j p).
  - apply bind_Some in He as (p & Hi & (x & _ & He)%bind_Some). destruct (free_loop s); [|done]. injection He as He.
    unfold polled in He. destruct (at_stage p); try done. injection He as <-. by apply (libev_views_change _ j p).
  - apply bind_Some in He as (p & Hi & (x & _ & He)%bind_Some). destruct (free_loop s); [|done]. injection He as He.
    unfold discard_poll in He. cbn in He. destruct (at_stage p); try done.
    destruct (pending (io p)); injection He as <-; by apply (libev_views_change _ j p).
Qed.

#[local] Arguments poll_work : simpl never.

Lemma libev_work_change (l : list Poll) i p p' :
  l !! i = Some p -> sum_list_by poll_work (<[i := p']> l) + poll_work p = sum_list_by poll_work l + poll_work p'.
Proof.
  revert i. induction l as [|x l IH]; intros [|i] Hi; try done; cbn in Hi; [injection Hi as ->; cbn; lia|].
  specialize (IH i Hi). change (<[S i := p']> (x :: l)) with (x :: <[i := p']> l). cbn [sum_list_by]. lia.
Qed.

Lemma option_length {X} (x : option X) : length (option_list x) <= 1.
Proof. destruct x; cbn; lia. Qed.

Lemma start_work p : poll_work (start_poll p) <= 2.
Proof. unfold poll_work. cbn. destruct (hasDiscard p); cbn; lia. Qed.

(** The work of the poll that changed, before and after. *)
Ltac weigh Hi :=
  match goal with
  | |- context [sum_list_by poll_work (<[?j := ?q]> ?l)] =>
      let Hw := fresh "Hw" in
      pose proof (libev_work_change l j _ q Hi) as Hw; revert Hw;
      generalize (sum_list_by poll_work (<[j := q]> l)) (sum_list_by poll_work l); intros ? ? Hw;
      unfold poll_work in Hw; cbn in Hw
  end.

(** A callback of a poll that ran, or a function that was called, does not come back. *)
Lemma libev_works s a s' : is_internal a = true -> exec a s = Some (Returns s') -> loop_work s' < loop_work s.
Proof.
  intros Hn He. unfold loop_work. destruct a as [| | | | | |j|j|j|j|j|j]; cbn [exec] in He; try done.
  - destruct (unsent s); [done|]. injection He as <-. cbn. destruct (wake_sent s); lia.
  - destruct (wake_sent s); [|done]. injection He as <-. cbn. destruct (wake_pending s); lia.
  - destruct (free_loop s && wake_pending s) eqn:Hg; [|done]. injection He as <-. cbn.
    apply andb_true_iff in Hg as [[Hst Hr]%libev_free_loop Hp]. rewrite Hst, Hr, Hp. cbn. lia.
  - destruct (starting s) eqn:Hst; [done|]. destruct (run_functions s) as [|j q] eqn:Hr; [done|].
    apply bind_Some in He as (p & Hi & [= <-]). unfold run_function. destruct (hasDiscard p); cbn; [weigh Hi|]; lia.
  - apply bind_Some in He as (j & Hst & (p & Hi & [= <-])%bind_Some). rewrite Hst. cbn.
    pose proof (libev_work_change _ j p (start_poll p) Hi). pose proof (start_work p). lia.
  - apply bind_Some in He as (p & Hi & He). destruct (started (async p) && sent p) eqn:Hg; [|done]. injection He as <-. cbn.
    weigh Hi. rewrite Hg in Hw. lia.
  - apply bind_Some in He as (p & Hi & (x & Hx & He)%bind_Some). destruct (free_loop s); [|done]. injection He as He.
    unfold polled in He. destruct (at_stage p); try done. injection He as <-. cbn.
    weigh Hi. rewrite Hx in Hw. cbn in Hw. lia.
  - apply bind_Some in He as (p & Hi & (x & Hx & He)%bind_Some). destruct (free_loop s); [|done]. injection He as He.
    unfold discard_poll in He. cbn in He. destruct (at_stage p); try done.
    destruct (pending (io p)) as [y|] eqn:Hy; injection He as <-; cbn; weigh Hi; rewrite Hx, ?Hy in Hw; cbn in Hw; lia.
Qed.

Lemma libev_moves s : loop_inv s -> idle s = false -> exists s', internal_step s s'.
Proof.
  intros Hs Hid.
  assert (Hgo : forall a x, is_internal a = true -> exec a s = Some x -> exists s', internal_step s s').
  { intros a x Hn He. destruct (libev_exec_ok a s x Hs He) as (s' & -> & _). exists s', a. done. }
  assert (Hb : forall i, i ∈ waiting s -> is_Some (polls s !! i)) by (intros i Hi; by apply lookup_lt_is_Some, (inv_bound _ Hs)).
  destruct (starting s) as [i|] eqn:Hst.
  { destruct (Hb i) as [p Hp]; [unfold waiting; rewrite Hst; set_solver|]. eapply (Hgo AStart); [done|]. cbn. rewrite Hst. cbn. by rewrite Hp. }
  destruct (run_functions s) as [|i q] eqn:Hr.
  2: { destruct (Hb i) as [p Hp]; [unfold waiting; rewrite Hr; set_solver|]. eapply (Hgo ANext); [done|]. cbn. rewrite Hst, Hr. cbn. by rewrite Hp. }
  assert (Hf : free_loop s = true) by (unfold free_loop; by rewrite Hst, Hr). cbn in Hid. rewrite Hf in Hid. cbn in Hid.
  destruct (unsent s) as [|n] eqn:Hu; [|eapply (Hgo ASend); [done|]; cbn; by rewrite Hu].
  destruct (wake_sent s) eqn:Hws; [eapply (Hgo AFeed); [done|]; cbn; by rewrite Hws|].
  destruct (wake_pending s) eqn:Hwp; [eapply (Hgo AHandle); [done|]; cbn; by rewrite Hf, Hwp|]. cbn in Hid.
  assert (Hex : exists i p, polls s !! i = Some p /\ poll_idle p = false).
  { clear -Hid. induction (polls s) as [|p l IH]; [done|]. cbn in Hid. destruct (poll_idle p) eqn:Hp; [|by exists 0, p].
    destruct (IH Hid) as (i & x & Hi & Hx). by exists (S i), x. }
  destruct Hex as (i & p & Hi & Hp). unfold poll_idle in Hp.
  destruct (pending (io p)) as [r|] eqn:Hio; [eapply (Hgo (APolled i)); [done|]; cbn; by rewrite Hi; cbn; rewrite Hio; cbn; rewrite Hf|].
  destruct (pending (async p)) as [r|] eqn:Has; [eapply (Hgo (ADiscardPoll i)); [done|]; cbn; by rewrite Hi; cbn; rewrite Has; cbn; rewrite Hf|].
  cbn in Hp. apply negb_false_iff in Hp. eapply (Hgo (AFeedDiscard i)); [done|]. cbn. by rewrite Hi; cbn; rewrite Hp.
Qed.

(** When the loop is idle, a poll that is not answered runs, and its watcher is started. *)
Lemma libev_idle s i p :
  loop_inv s -> idle s = true -> polls s !! i = Some p -> promise p = None ->
  at_stage p = Running /\ started (io p) = true /\ pending (io p) = None /\ happened p = 0%Z /\ killed p = false /\ hasDiscard p = false.
Proof.
  intros Hs Hid Hp Ha. cbn in Hid. bool_cases.
  match goal with H : free_loop s = true |- _ => apply libev_free_loop in H as [Hst Hrf] end.
  match goal with H : forallb _ _ = true |- _ => rewrite forallb_forall in H; specialize (H p) as Hin end.
  pose proof (inv_poll _ Hs i p Hp) as Hok. unfold poll_ok in Hok. destruct (at_stage p).
  - exfalso. destruct Hok as [Hq _]. unfold waiting in Hq. rewrite Hst, Hrf in Hq.
    destruct (functions s) eqn:Hf; [by apply not_elem_of_nil in Hq|]. pose proof (inv_wake _ Hs) as Hk. rewrite Hf in Hk.
    destruct (Hk ltac:(done)) as [?|[?|?]]; [lia|congruence|congruence].
  - destruct Hok as [_ [R1 R2 R3 R4 R7 R5 R6]]. unfold poll_idle in Hin.
    assert (Hx : In p (polls s)) by (apply list_elem_of_In, list_elem_of_lookup; eauto). apply Hin in Hx. bool_cases.
    destruct R2 as [R2 Hsa]. rewrite Hsa in *. cbn in *. split_and!; try done.
    + destruct R2 as [?|[? ?]]; [done|congruence].
    + match goal with H : pending (io p) = None |- _ => by rewrite H in R3 end.
    + destruct (killed p); [|done]. destruct (R7 eq_refl). congruence.
    + destruct (hasDiscard p); [|done]. destruct (R6 eq_refl) as [?|[[? ?]|[? ?]]]; congruence.
  - destruct Hok as (_ & [? ?] & _). congruence.
Qed.

Lemma libev_view s i r : views s !! i = Some r -> exists p, polls s !! i = Some p /\ r = view p.
Proof. cbn. rewrite list_lookup_fmap. destruct (polls s !! i) as [p|]; [|done]. intros [= <-]. eauto. Qed.

#[global] Instance libev_laws : PollerLaws libev action.
Proof.
  split.
  - done.
  - intros s a m Hr He. by destruct (libev_exec_ok a s _ (libev_inv s Hr) He) as (z & ? & _).
  - intros s a s' Hr He. destruct (libev_exec_ok a s _ (libev_inv s Hr) He) as (z & [= ->] & _ & Hz). done.
  - intros s a s' i r. apply libev_quiet.
  - intros s s' (a & Hn & He). by apply (libev_works s a).
  - intros s Hr. apply libev_moves. by apply libev_inv.
  - intros s i r Hr Hid (p & Hp & ->)%libev_view Ha _. destruct (promise p) eqn:Hpr; [by cbn; rewrite Hpr|].
    destruct (libev_idle s i p (libev_inv s Hr) Hid Hp Hpr) as (_ & _ & _ & _ & _ & ?). cbn in Ha. congruence.
  - intros s i r Hr Hid (p & Hp & ->)%libev_view Ha. destruct (promise p) eqn:Hpr; [by cbn; rewrite Hpr|].
    destruct (libev_idle s i p (libev_inv s Hr) Hid Hp Hpr) as (_ & _ & _ & Hh & Hk & _). cbn in Ha. rewrite Hh, Hk in Ha. by destruct Ha.
  - intros s i r e Hr Hid (p & Hp & ->)%libev_view Ha Hne Hw Hwi. cbn in Ha.
    destruct (libev_idle s i p (libev_inv s Hr) Hid Hp Ha) as (_ & Hst & Hpe & Hh & Hk & _).
    unfold within in Hw, Hwi. cbn in Hw. eexists. split.
    + cbn. rewrite Hp. cbn. rewrite Hst, Hw, Hwi, Z.eqb_refl. cbn. by rewrite (proj2 (Z.eqb_neq e 0) Hne).
    + cbn. rewrite list_lookup_fmap, list_lookup_insert_eq by by eapply lookup_lt_Some. cbn. unfold view. cbn. by rewrite Hh, Hk, Ha.
Qed.
End Libev.
