(* ===== verification/Pollers.v ===== *)
(** Both event loops keep the contract of [io::poll]. *)

From S2P Require Import Prelude HttpConnection Descriptors Io EventLoop Libevent Libev.


(** ** Examples *)

#[local] Instance usual_flags : EventFlags := {|
  EV_READ := 2; EV_WRITE := 4;
  flags_apart := eq_refl; read_flag := ltac:(done); write_flag := ltac:(done);
|}.

(** The value of [ev.h], as an [int]. *)
#[local] Instance usual_error : LibevFlags := {| EV_ERROR := -2147483648 |}.

(** A poll for reading that is discarded from another thread while its event happens. *)
Definition libevent_race : list Libevent.action :=
  [Libevent.APoll READ; Libevent.AReady 0 2; Libevent.ADiscard 0 false; Libevent.ACallback 0; Libevent.AFinish;
   Libevent.AAsync; Libevent.ANext].
Definition libev_race : list Libev.action :=
  [Libev.APoll false READ; Libev.ASend; Libev.AFeed; Libev.AHandle; Libev.ANext; Libev.AStart; Libev.AReady 0 1;
   Libev.ADiscard 0; Libev.AFeedDiscard 0; Libev.ADiscardPoll 0; Libev.APolled 0].
Definition raced_libevent : option libevent := play_loop libevent_race Libevent.initial.
Definition raced_libev : option libev := play_loop libev_race Libev.initial.

(** The event loops differ: with libevent the discard wins over an event that has not been
    reported yet, with libev the event does. *)
Example loops_decide_races_differently :
  (views <$> raced_libevent) = Some [mkView READ true READ false (Some IsDiscarded)] /\
  (views <$> raced_libev) = Some [mkView READ true READ false (Some (IsReady READ))].
Proof. by vm_compute. Qed.

(** A descriptor that is closed while it is polled for reading: libev reports an error and both
    events, and the answer is both events, one of which was not asked for. *)
Example closed_descriptor :
  (views <$> play_loop [Libev.APoll true READ; Libev.AError 0 3; Libev.APolled 0] Libev.initial) =
  Some [mkView READ false (-2147483645) true (Some (IsReady 3%Z))].
Proof. by vm_compute. Qed.

Definition polling_libevent : libevent := default Libevent.initial (play_loop [Libevent.APoll READ] Libevent.initial).
Definition polling_libev : libev :=
  default Libev.initial
    (play_loop [Libev.APoll false READ; Libev.ASend; Libev.AFeed; Libev.AHandle; Libev.ANext; Libev.AStart] Libev.initial).


(** A poll for no event cannot be discarded with libevent: the event does not count as pending. *)
Example poll_for_nothing_stays :
  (fun s => (idle s, views s)) <$>
    play_loop [Libevent.APoll 0; Libevent.ADiscard 0 false; Libevent.AAsync; Libevent.ANext] Libevent.initial =
  Some (true, [mkView 0 true 0 false None]).
Proof. by vm_compute. Qed.
