(* ===== verification/TlsAccept.v ===== *)
(** Accepting connections with TLS ([posix/libevent/libevent_ssl_socket.cpp], from [listen] on).

    A connection that libevent accepts is looked at first, when downgrades are supported, and
    is then given to the user as it is or after a handshake.  Each connection has a socket and
    may have an [SSL] object and a [bufferevent]; the model keeps which of them are open. *)

From S2P Require Import Prelude Io.

(** ** What kind of connection it is *)

(** Constants of OpenSSL; the comment in [peek_callback] says that a text that is taken for TLS
    begins with SYN and ETX and has SOH as its sixth character. *)
Class SslConstants := {
  SSL2_MT_CLIENT_HELLO : Z;
  SSL3_RT_HANDSHAKE : Z;
  SSL3_VERSION_MAJOR : Z;
  SSL3_MT_CLIENT_HELLO : Z;
  handshake_syn : SSL3_RT_HANDSHAKE = 22%Z;
  major_etx : SSL3_VERSION_MAJOR = 3%Z;
  hello_soh : SSL3_MT_CLIENT_HELLO = 1%Z;
}.

(** A [char] as an [int]. *)
Definition char_value (c : Ascii.ascii) : Z :=
  let n := Z.of_nat (Ascii.nat_of_ascii c) in if (n <? 128)%Z then n else (n - 256)%Z.

(** [data] after [recv(fd, data, 6, MSG_PEEK)]: the beginning of what arrived, and behind it
    what was on the stack. *)
Definition peeked (message : option bytes) (stack : nat -> Ascii.ascii) (i : nat) : Z :=
  char_value (default (stack i) (m ← message; take 6 m !! i)).
Definition peeked_size (message : option bytes) : Z :=
  match message with Some m => Z.of_nat (length (take 6 m)) | None => -1 end.

(** The rules of [peek_callback]; [message] is [None] when [recv] fails. *)
Definition is_ssl `{SslConstants} (message : option bytes) (stack : nat -> Ascii.ascii) : bool :=
  let data := peeked message stack in
  if (peeked_size message <? 2)%Z then false
  else if negb (Z.land (data 0%nat) 128 =? 0)%Z && (data 2%nat =? SSL2_MT_CLIENT_HELLO)%Z then true
  else (data 0%nat =? SSL3_RT_HANDSHAKE)%Z && (data 1%nat =? SSL3_VERSION_MAJOR)%Z && (data 5%nat =? SSL3_MT_CLIENT_HELLO)%Z.

(** ** Connections *)

(** Why an accept fails. *)
Inductive reason := Cloexec | SslNew | Peer | Configure | BevNew | Downgrade | ClosedEarly | Verify | SocketError.

(** What [accept] gives. *)
Inductive accepted := Tls | Plain | Failed (why : reason) (message : string).

(** Where a connection is; [Dropped] is one that nobody is told of. *)
Inductive place := Peeking | Handshaking | Answered (a : accepted) | Dropped.

Record connection := mkConnection { at_place : place; has_socket : bool; has_ssl : bool; has_bev : bool }.

(** The socket that listens: [listener_alive] is whether the weak pointer in the callback can
    be locked, and [accept_queue] what was put into the queue. *)
Record listener := mkListener {
  support_downgrade : bool;
  listener_alive : bool;
  connections : list connection;
  accept_queue : list (nat * accepted);
}.

Definition put_connection (i : nat) (c : connection) (s : listener) : listener :=
  mkListener (support_downgrade s) (listener_alive s) (<[i := c]> (connections s)) (accept_queue s).

(** [request->promise] is completed, which puts it into the queue, and the request is deleted. *)
Definition answer_request (i : nat) (a : accepted) (c : connection) (s : listener) : listener :=
  mkListener (support_downgrade s) (listener_alive s)
    (<[i := mkConnection (Answered a) (has_socket c) (has_ssl c) (has_bev c)]> (connections s)) (accept_queue s ++ [(i, a)]).

(** What the calls in [accept_SSL_callback] return. *)
Record accept_env := mkAcceptEnv { ssl_new : bool; peer : Try unit; configure : Try unit; bev_new : bool }.

(** [accept_SSL_callback(request)]. *)
Definition accept_SSL_callback (env : accept_env) (i : nat) (c : connection) (s : listener) : listener :=
  if negb (ssl_new env) then answer_request i (Failed SslNew "Accept failed, SSL_new") c s
  else
    let c := mkConnection (at_place c) (has_socket c) true (has_bev c) in
    match peer env with
    | Error _ => answer_request i (Failed Peer "Could not determine peer IP for connection.") c s
    | Some_ _ =>
        match configure env with
        | Error m => answer_request i (Failed Configure ("Could not configure socket: " +:+ m)) c s
        | Some_ _ =>
            if negb (bev_new env)
            then answer_request i (Failed BevNew "Accept failed: bufferevent_openssl_socket_new")
                   (mkConnection (at_place c) (has_socket c) false (has_bev c)) s
            else put_connection i (mkConnection Handshaking (has_socket c) true true) s
        end
    end.

(** [accept_callback(request)]. *)
Definition accept_callback (env : accept_env) (i : nat) (c : connection) (s : listener) : listener :=
  if support_downgrade s then put_connection i (mkConnection Peeking (has_socket c) (has_ssl c) (has_bev c)) s
  else accept_SSL_callback env i c s.

(** The callback of [evconnlistener_new]: a connection was accepted. *)
Definition listen_callback (cloexec : Try unit) (env : accept_env) (s : listener) : listener :=
  let i := length (connections s) in
  let s := mkListener (support_downgrade s) (listener_alive s)
             (connections s ++ [mkConnection Dropped true false false]) (accept_queue s) in
  match cloexec with
  | Error m =>
      if listener_alive s
      then answer_request i (Failed Cloexec ("Failed to accept, cloexec: " +:+ m)) (mkConnection Dropped false false false) s
      else put_connection i (mkConnection Dropped false false false) s
  | Some_ _ => if listener_alive s then accept_callback env i (mkConnection Dropped true false false) s else s
  end.

(** [peek_callback]; [created] is what [PollSocketImpl::create] returns. *)
Definition peek_callback `{SslConstants} (message : option bytes) (stack : nat -> Ascii.ascii) (created : Try unit) (env : accept_env)
    (i : nat) (c : connection) (s : listener) : listener :=
  if is_ssl message stack then accept_SSL_callback env i c s
  else
    match created with
    | Error m => answer_request i (Failed Downgrade m) c s
    | Some_ _ => answer_request i Plain c s
    end.

(** The flags of an event, the error as a message, what [openssl::verify] and [os::close] return. *)
Record handshake_event := mkHandshakeEvent {
  is_eof : bool;
  is_connected : bool;
  is_error : bool;
  error_message : string;
  verify : Try unit;
  close : Try unit;
}.

(** [SSL_free], [bufferevent_free] and [os::close], and the answer. *)
Definition close_connection (closing : Try unit) (i : nat) (a : accepted) (s : listener) : checked listener :=
  match closing with
  | Error m => Abort ("Failed to close socket: " +:+ m)
  | Some_ _ => Returns (answer_request i a (mkConnection Handshaking false false false) s)
  end.

(** The event callback of a connection in its handshake. *)
Definition event_callback (e : handshake_event) (i : nat) (c : connection) (s : listener) : checked listener :=
  if is_eof e then Returns (answer_request i (Failed ClosedEarly "Failed accept: connection closed") c s)
  else if is_connected e then
    match verify e with
    | Error m => close_connection (close e) i (Failed Verify m) s
    | Some_ _ => Returns (answer_request i Tls c s)
    end
  else if is_error e then
    close_connection (close e) i (Failed SocketError ("Failed accept: connection error: " +:+ error_message e)) s
  else Returns (put_connection i (mkConnection Dropped (has_socket c) (has_ssl c) (has_bev c)) s).

Inductive action :=
| Incoming (cloexec : Try unit) (env : accept_env)
| Peek (i : nat) (message : option bytes) (stack : nat -> Ascii.ascii) (created : Try unit) (env : accept_env)
| Event (i : nat) (e : handshake_event)
| ListenerDestroyed.

Section Accept.
Context `{SslConstants}.

Definition exec (a : action) (s : listener) : option (checked listener) :=
  match a with
  | Incoming cloexec env => Some (Returns (listen_callback cloexec env s))
  | Peek i message stack created env =>
      c ← connections s !! i;
      match at_place c with Peeking => Some (Returns (peek_callback message stack created env i c s)) | _ => None end
  | Event i e =>
      c ← connections s !! i;
      match at_place c with Handshaking => Some (event_callback e i c s) | _ => None end
  | ListenerDestroyed => Some (Returns (mkListener (support_downgrade s) false (connections s) (accept_queue s)))
  end.

Definition listening (downgrade : bool) : listener := mkListener downgrade true [] [].
Definition accept_step (s s' : listener) : Prop := exists a, exec a s = Some (Returns s').
Definition accept_reachable (downgrade : bool) (s : listener) : Prop := steps accept_step (listening downgrade) s.

(** ** Which connections are taken for TLS *)

Lemma char_value_range c : (-128 <= char_value c < 128)%Z.
Proof.
  unfold char_value. pose proof (Ascii.nat_ascii_bounded c). case_match; bool_cases; lia.
Qed.

Lemma high_bit c : (Z.land (char_value c) 128 =? 0)%Z = (0 <=? char_value c)%Z.
Proof. destruct c as [[] [] [] [] [] [] [] []]; reflexivity. Qed.

(** What begins with a character of ASCII other than SYN is never taken for TLS, whatever
    is on the stack, and a client hello in a TLS record always is. *)
Theorem peek_classifies c rest stack v l0 l1 tail :
  (0 <= char_value c)%Z -> char_value c <> 22%Z ->
  is_ssl (Some (c :: rest)) stack = false /\
  is_ssl (Some (Ascii.ascii_of_nat 22 :: Ascii.ascii_of_nat 3 :: v :: l0 :: l1 :: Ascii.ascii_of_nat 1 :: tail)) stack = true.
Proof.
  intros H0 H1. split.
  - unfold is_ssl. cbv zeta. case_match; [done|]. change (peeked (Some (c :: rest)) stack 0) with (char_value c).
    apply Z.leb_le in H0. apply Z.eqb_neq in H1. by rewrite high_bit, H0, handshake_syn, H1.
  - unfold is_ssl, peeked_size, peeked. cbn. rewrite handshake_syn, major_etx, hello_soh. by case_match.
Qed.

(** ** What becomes of connections *)

(** What is still open of a connection that failed. *)
Definition left_open (w : reason) : bool * bool * bool :=
  match w with
  | Cloexec | Verify | SocketError => (false, false, false)
  | SslNew | BevNew | Downgrade => (true, false, false)
  | Peer | Configure => (true, true, false)
  | ClosedEarly => (true, true, true)
  end.

Definition resources (c : connection) : bool * bool * bool := (has_socket c, has_ssl c, has_bev c).

Definition connection_ok (downgrade : bool) (c : connection) : Prop :=
  match at_place c with
  | Peeking => resources c = (true, false, false) /\ downgrade = true
  | Handshaking | Answered Tls => resources c = (true, true, true)
  | Answered Plain => resources c = (true, false, false) /\ downgrade = true
  | Answered (Failed w _) => resources c = left_open w
  | Dropped => True
  end.

Record accept_inv (s : listener) : Prop := mkAcceptInv {
  a_connection i c : connections s !! i = Some c -> connection_ok (support_downgrade s) c;
  a_answered i a : (i, a) ∈ accept_queue s <-> exists c, connections s !! i = Some c /\ at_place c = Answered a;
  a_once : NoDup (accept_queue s).*1;
}.

(** A connection that has not been answered moves on. *)
Lemma accept_put_inv i c c' s :
  accept_inv s -> connections s !! i = Some c -> (forall a, at_place c <> Answered a) -> (forall a, at_place c' <> Answered a) ->
  connection_ok (support_downgrade s) c' -> accept_inv (put_connection i c' s).
Proof.
  intros [A1 A2 A3] Hi Hc Hc' Hok. constructor; cbn; [| |done].
  - intros j x. rewrite list_lookup_insert. case_decide; [by intros [= <-]|]. apply A1.
  - intros j a. rewrite A2. destruct (decide (j = i)) as [->|Hne]; [|by rewrite list_lookup_insert_ne].
    rewrite list_lookup_insert_eq by by eapply lookup_lt_Some. split; intros (x & Hx & Ha); exfalso; simplify_eq.
    + by apply (Hc a).
    + by apply (Hc' a).
Qed.

(** A connection is answered. *)
Lemma accept_answer_inv i c d a s :
  accept_inv s -> connections s !! i = Some d -> (forall a, at_place d <> Answered a) ->
  connection_ok (support_downgrade s) (mkConnection (Answered a) (has_socket c) (has_ssl c) (has_bev c)) ->
  accept_inv (answer_request i a c s).
Proof.
  intros [A1 A2 A3] Hi Hd Hok. assert (Hn : i ∉ (accept_queue s).*1).
  { intros ([j b] & Hj & Hin)%list_elem_of_fmap. cbn in Hj. subst j. apply A2 in Hin as (x & Hx & Hb). simplify_eq. by apply (Hd b). }
  constructor; cbn.
  - intros j x. rewrite list_lookup_insert. case_decide; [by intros [= <-]|]. apply A1.
  - intros j b. rewrite elem_of_app, list_elem_of_singleton, A2. destruct (decide (j = i)) as [->|Hne].
    + rewrite list_lookup_insert_eq by by eapply lookup_lt_Some. split.
      * intros [(x & Hx & Hb)|[= ->]]; [simplify_eq; by destruct (Hd b)|]. by eexists.
      * intros (x & [= <-] & [= <-]). by right.
    + rewrite list_lookup_insert_ne by done. split; [intros [?|?]; [done|congruence]|by left].
  - rewrite fmap_app. cbn. apply NoDup_app. split_and!; [done| |by apply NoDup_singleton].
    intros j Hj Hs%list_elem_of_singleton. by subst.
Qed.

Lemma accept_SSL_inv env i d c s :
  accept_inv s -> connections s !! i = Some d -> (forall a, at_place d <> Answered a) -> (forall a, at_place c <> Answered a) ->
  resources c = (true, false, false) -> accept_inv (accept_SSL_callback env i c s).
Proof.
  intros Hs Hi Hd Hc [= R1 R2 R3]. unfold accept_SSL_callback.
  destruct (ssl_new env); cbn; [|eapply accept_answer_inv; try done; cbn; unfold resources; cbn; congruence].
  destruct (peer env); cbn; [|eapply accept_answer_inv; try done; cbn; unfold resources; cbn; congruence].
  destruct (configure env); cbn; [|eapply accept_answer_inv; try done; cbn; unfold resources; cbn; congruence].
  destruct (bev_new env); cbn; [|eapply accept_answer_inv; try done; cbn; unfold resources; cbn; congruence].
  eapply accept_put_inv; try done. cbn. unfold resources. cbn. congruence.
Qed.

Lemma new_inv s :
  accept_inv s ->
  accept_inv (mkListener (support_downgrade s) (listener_alive s) (connections s ++ [mkConnection Dropped true false false]) (accept_queue s)).
Proof.
  intros [A1 A2 A3]. constructor; cbn; [| |done].
  - intros i c. rewrite lookup_app_Some. intros [Hi|[_ Hi]]; [by apply (A1 i)|]. by apply list_lookup_singleton_Some in Hi as [_ <-].
  - intros i a. rewrite A2. split; intros (c & Hi & Ha).
    + exists c. split; [by apply lookup_app_l_Some|done].
    + apply lookup_app_Some in Hi as [Hi|[_ Hi]]; [by eexists|]. by apply list_lookup_singleton_Some in Hi as [_ <-].
Qed.

Lemma exec_accept_inv a s s' : accept_inv s -> exec a s = Some (Returns s') -> accept_inv s'.
Proof.
  intros Hs He. destruct a; cbn [exec] in He.
  - injection He as <-. unfold listen_callback. pose proof (new_inv s Hs) as Hn. set (s1 := mkListener _ _ (_ ++ _) _) in *.
    assert (Hi : connections s1 !! length (connections s) = Some (mkConnection Dropped true false false)) by by apply list_lookup_middle.
    destruct cloexec; destruct (listener_alive s1); try done.
    + unfold accept_callback. destruct (support_downgrade s1) eqn:Hd; [by eapply accept_put_inv; cbn; rewrite ?Hd|by eapply accept_SSL_inv].
    + by eapply accept_answer_inv.
    + by eapply accept_put_inv.
  - apply bind_Some in He as (c & Hi & He). destruct (at_place c) eqn:Hp; try done. injection He as <-.
    pose proof (a_connection _ Hs i c Hi) as Hok. unfold connection_ok in Hok. rewrite Hp in Hok. destruct Hok as [Hr Hd].
    assert (Hna : forall a, at_place c <> Answered a) by (intros a; by rewrite Hp). unfold peek_callback.
    destruct (is_ssl message stack); [by eapply accept_SSL_inv|]. injection Hr as R1 R2 R3.
    destruct created; eapply accept_answer_inv; try done; unfold connection_ok, resources; cbn; rewrite R1, R2, R3; done.
  - apply bind_Some in He as (c & Hi & He). destruct (at_place c) eqn:Hp; try done. injection He as He.
    pose proof (a_connection _ Hs i c Hi) as Hok. unfold connection_ok in Hok. rewrite Hp in Hok. injection Hok as R1 R2 R3.
    assert (Hna : forall a, at_place c <> Answered a) by (intros a; by rewrite Hp). unfold event_callback, close_connection in He.
    repeat case_match; try done; injection He as <-;
      try (eapply accept_answer_inv; try done; unfold connection_ok, resources; cbn; by rewrite ?R1, ?R2, ?R3).
    by eapply accept_put_inv.
  - injection He as <-. destruct Hs as [A1 A2 A3]. by constructor.
Qed.

Lemma exec_downgrade a s s' : exec a s = Some (Returns s') -> support_downgrade s' = support_downgrade s.
Proof.
  destruct a; cbn [exec].
  - intros [= <-]. unfold listen_callback, accept_callback, accept_SSL_callback. repeat case_match; done.
  - intros (c & _ & He)%bind_Some. revert He. unfold peek_callback, accept_SSL_callback. repeat case_match; try done; by intros [= <-].
  - intros (c & _ & He)%bind_Some. revert He. unfold event_callback, close_connection. repeat case_match; try done; by intros [= <-].
  - by intros [= <-].
Qed.

Lemma accept_reachable_inv d s : accept_reachable d s -> accept_inv s /\ support_downgrade s = d.
Proof.
  intros Hr. apply (steps_invariant accept_step (fun s => accept_inv s /\ support_downgrade s = d) (listening d) s); [|done|].
  - intros x y [Hx Hd] [a Ha]. split; [by eapply exec_accept_inv|]. rewrite <- Hd. by eapply exec_downgrade.
  - split; [|done]. constructor; cbn; [done| |constructor]. intros i a. split; [by intros ?%not_elem_of_nil|]. by intros (c & Hc & _).
Qed.

(** C31: every connection is given to [accept] at most once; what is given as TLS has its socket,
    its [SSL] and its buffer, what is given without TLS has its socket alone and comes only
    when downgrades are supported, and what is open of a connection that failed is known from
    the reason: nothing when the handshake or the verification failed, the socket when a call
    failed before it, and everything when the client closed the connection. *)
Theorem accepted_once_with_resources d s i a :
  accept_reachable d s -> (i, a) ∈ accept_queue s ->
  (forall b, (i, b) ∈ accept_queue s -> b = a) /\ NoDup (accept_queue s).*1 /\
  exists c, connections s !! i = Some c /\
    resources c = match a with Tls => (true, true, true) | Plain => (true, false, false) | Failed w _ => left_open w end /\
    (a = Plain -> d = true).
Proof.
  intros Hr Hin. destruct (accept_reachable_inv d s Hr) as [[A1 A2 A3] Hd].
  pose proof (proj1 (A2 i a) Hin) as (c & Hi & Ha). split_and!; [|done|].
  - intros b (c' & Hi' & Hb)%A2. congruence.
  - exists c. split; [done|]. pose proof (A1 i c Hi) as Hok. unfold connection_ok in Hok. rewrite Ha, Hd in Hok.
    destruct a; [by split|by destruct Hok|by split].
Qed.
End Accept.

(** ** Examples *)

#[local] Instance openssl_constants : SslConstants := {|
  SSL2_MT_CLIENT_HELLO := 1; SSL3_RT_HANDSHAKE := 22; SSL3_VERSION_MAJOR := 3; SSL3_MT_CLIENT_HELLO := 1;
  handshake_syn := eq_refl; major_etx := eq_refl; hello_soh := eq_refl;
|}.

Lemma peek_classifies_witness :
  is_ssl (Some (String.list_ascii_of_string "GET / HTTP/1.1")) (fun _ => Ascii.ascii_of_nat 1) = false.
Proof.
  apply (peek_classifies (Ascii.ascii_of_nat 71) (String.list_ascii_of_string "ET / HTTP/1.1") (fun _ => Ascii.ascii_of_nat 1)
    Ascii.zero Ascii.zero Ascii.zero []); vm_compute; done.
Defined.

(** Two bytes that a client has sent so far are taken for TLS, depending on what is on the
    stack; the first rule in the comment says that fewer than three bytes are not. *)
Example two_bytes_depend_on_stack :
  is_ssl (Some [Ascii.ascii_of_nat 128; Ascii.ascii_of_nat 0]) (fun _ => Ascii.ascii_of_nat 1) = true /\
  is_ssl (Some [Ascii.ascii_of_nat 128; Ascii.ascii_of_nat 0]) (fun _ => Ascii.ascii_of_nat 0) = false.
Proof. by vm_compute. Qed.

Definition good_accept : accept_env := mkAcceptEnv true (Some_ ()) (Some_ ()) true.

Fixpoint play_accept (l : list action) (s : listener) : option listener :=
  match l with
  | [] => Some s
  | a :: l => match exec a s with Some (Returns s') => play_accept l s' | _ => None end
  end.

Lemma play_accept_steps l s s' : play_accept l s = Some s' -> steps accept_step s s'.
Proof.
  revert s. induction l as [|a l IH]; intros s; cbn; [intros [= ->]; apply steps_refl|].
  destruct (exec a s) as [[x|]|] eqn:He; try done. intros Hp. eapply steps_cons; [by exists a|]. by apply IH.
Qed.

(** Three clients: one speaks HTTP, one TLS, and one closes its connection in the handshake. *)
Definition clients : list action :=
  [Incoming (Some_ ()) good_accept; Incoming (Some_ ()) good_accept; Incoming (Some_ ()) good_accept;
   Peek 1 (Some (Ascii.ascii_of_nat <$> [22; 3; 1; 0; 0; 1])) (fun _ => Ascii.zero) (Some_ ()) good_accept;
   Peek 2 (Some (Ascii.ascii_of_nat <$> [22; 3; 1; 0; 0; 1])) (fun _ => Ascii.zero) (Some_ ()) good_accept;
   Peek 0 (Some (String.list_ascii_of_string "GET")) (fun _ => Ascii.zero) (Some_ ()) good_accept;
   Event 2 (mkHandshakeEvent true false false EmptyString (Some_ ()) (Some_ ()));
   Event 1 (mkHandshakeEvent false true false EmptyString (Some_ ()) (Some_ ()))].

Definition served : listener := default (listening true) (play_accept clients (listening true)).

Lemma accepted_once_with_resources_witness :
  accept_queue served = [(0, Plain); (2, Failed ClosedEarly "Failed accept: connection closed"); (1, Tls)] /\
  exists c, connections served !! 2 = Some c /\ resources c = (true, true, true).
Proof.
  split; [by vm_compute|].
  destruct (accepted_once_with_resources true served 2 (Failed ClosedEarly "Failed accept: connection closed")) as (_ & _ & c & Hc & Hr & _).
  - apply (play_accept_steps clients). by vm_compute.
  - apply (list_elem_of_lookup_2 _ 1). by vm_compute.
  - by exists c.
Defined.
