(* ===== verification/TlsConfig.v ===== *)
(** The configuration of TLS and the verification of peers ([openssl.cpp]).

    [reinitialize] turns environment variables into flags and the flags into the global context
    of OpenSSL; [configure_socket] prepares a connection for its handshake and [verify] looks at
    the certificate of the peer after it.  Environment variables, the parser of flags, the calls
    of OpenSSL and reverse DNS are arguments. *)

From Stdlib Require Import Ascii String.
From S2P Require Import Prelude.

Local Open Scope string_scope.
Local Open Scope nat_scope.

(** ** Flags *)

Record Flags := mkFlags {
  enabled : bool;
  support_downgrade : bool;
  cert_file : option string;
  key_file : option string;
  verify_cert : bool;
  require_cert : bool;
  verify_ipadd : bool;
  verification_depth : nat;
  ca_dir : option string;
  ca_file : option string;
  ciphers : string;
  ecdh_curves : string;
  hostname_validation_scheme : string;
  enable_ssl_v3 : bool;
  enable_tls_v1_0 : bool;
  enable_tls_v1_1 : bool;
  enable_tls_v1_2 : bool;
  enable_tls_v1_3 : bool;
}.

(** [Flags()]. *)
Definition default_flags : Flags :=
  mkFlags false false None None false false false 4 None None
    "AES128-SHA:AES256-SHA:RC4-SHA:DHE-RSA-AES128-SHA:DHE-DSS-AES128-SHA:DHE-RSA-AES256-SHA:DHE-DSS-AES256-SHA"
    "auto" "legacy" false false false true false.

(** [ssl_flags->verify_cert = true]. *)
Definition with_verify_cert (f : Flags) : Flags :=
  mkFlags (enabled f) (support_downgrade f) (cert_file f) (key_file f) true (require_cert f) (verify_ipadd f) (verification_depth f)
    (ca_dir f) (ca_file f) (ciphers f) (ecdh_curves f) (hostname_validation_scheme f) (enable_ssl_v3 f) (enable_tls_v1_0 f)
    (enable_tls_v1_1 f) (enable_tls_v1_2 f) (enable_tls_v1_3 f).

(** ** The context *)

(** The options of [SSL_CTX_set_options] that the code uses. *)
Inductive ssl_option :=
| CIPHER_SERVER_PREFERENCE | SINGLE_ECDH_USE
| NO_SSLv2 | NO_SSLv3 | NO_TLSv1 | NO_TLSv1_1 | NO_TLSv1_2 | NO_TLSv1_3.

#[global] Instance ssl_option_eq_dec : EqDecision ssl_option.
Proof. solve_decision. Defined.
#[global] Instance ssl_option_countable : Countable ssl_option.
Proof.
  refine (inj_countable'
    (fun o => match o with CIPHER_SERVER_PREFERENCE => 0 | SINGLE_ECDH_USE => 1 | NO_SSLv2 => 2 | NO_SSLv3 => 3 | NO_TLSv1 => 4
              | NO_TLSv1_1 => 5 | NO_TLSv1_2 => 6 | NO_TLSv1_3 => 7 end)
    (fun n => match n with 0 => CIPHER_SERVER_PREFERENCE | 1 => SINGLE_ECDH_USE | 2 => NO_SSLv2 | 3 => NO_SSLv3 | 4 => NO_TLSv1
              | 5 => NO_TLSv1_1 | 6 => NO_TLSv1_2 | _ => NO_TLSv1_3 end) _).
  by intros [].
Defined.

(** Where certificates of authorities come from. *)
Inductive authorities := NoAuthorities | DefaultAuthorities | Locations (file dir : option string).

(** [SSL_CTX]: the settings that were made on it. *)
Record context := mkContext {
  ca : authorities;
  depth : option nat;
  chain : string;
  private_key : string;
  cipher_list : string;
  options : gset ssl_option;
  curves : option string;
}.

(** What the calls of OpenSSL return for their arguments, and the options of a new context. *)
Record openssl_lib := mkOpensslLib {
  supports_verify_param : bool;           (* [OPENSSL_VERSION_NUMBER >= MIN_VERSION_X509_VERIFY_PARAM] *)
  rand_poll : bool;
  ctx_new : bool;
  set_session_id_context : bool;
  load_verify_locations : option string -> option string -> bool;
  set_default_verify_paths : bool;
  use_certificate_chain_file : string -> bool;
  use_PrivateKey_file : string -> bool;
  check_private_key : string -> string -> bool;     (* of the chain and the key *)
  set_cipher_list : string -> bool;
  set1_curves_list : string -> bool;
  new_options : gset ssl_option;
}.

(** The global state: [ssl_flags], [ctx], whether the library was initialized, and how many
    contexts were not freed. *)
Record tls_state := mkTlsState { ssl_flags : Flags; ctx : option context; library_ready : bool; contexts : nat }.

(** The two maps of environment variables; those prefixed [LIBPROCESS_SSL_] take precedence. *)
Definition environments (ssl libprocess : gmap string (option string)) : gmap string (option string) := libprocess ∪ ssl.

(** The checks of the flags. *)
Definition check_flags (lib : openssl_lib) (f : Flags) : option string :=
  if bool_decide (key_file f = None) then Some "SSL requires key! NOTE: Set path with LIBPROCESS_SSL_KEY_FILE"
  else if bool_decide (cert_file f = None) then
    Some "SSL requires certificate! NOTE: Set path with LIBPROCESS_SSL_CERT_FILE"
  else if bool_decide (hostname_validation_scheme f <> "legacy") && bool_decide (hostname_validation_scheme f <> "openssl") then
    Some ("Unknown value for hostname_validation_scheme: " +:+ hostname_validation_scheme f)
  else if bool_decide (hostname_validation_scheme f = "openssl") && negb (supports_verify_param lib) then
    Some "The 'openssl' hostname validation scheme requires OpenSSL version 1.0.2 or higher"
  else None.

(** The certificates of authorities, when peers are to be verified. *)
Definition load_authorities (lib : openssl_lib) (f : Flags) : checked (authorities * option nat) :=
  if verify_cert f then
    if bool_decide (ca_file f <> None) || bool_decide (ca_dir f <> None) then
      if load_verify_locations lib (ca_file f) (ca_dir f)
      then Returns (Locations (ca_file f) (ca_dir f), Some (verification_depth f))
      else Abort "Could not load CA file and/or directory"
    else if set_default_verify_paths lib then Returns (DefaultAuthorities, Some (verification_depth f))
    else Abort "Could not load default CA file and/or directory"
  else Returns (NoAuthorities, None).

(** The options that choose the protocols. *)
Definition protocol_options : gset ssl_option := {[NO_SSLv2; NO_SSLv3; NO_TLSv1; NO_TLSv1_1; NO_TLSv1_2; NO_TLSv1_3]}.
Definition unless (b : bool) (o : ssl_option) : gset ssl_option := if b then ∅ else {[o]}.
Definition ssl_options (f : Flags) : gset ssl_option :=
  {[CIPHER_SERVER_PREFERENCE; NO_SSLv2]} ∪ unless (enable_ssl_v3 f) NO_SSLv3 ∪ unless (enable_tls_v1_0 f) NO_TLSv1 ∪
  unless (enable_tls_v1_1 f) NO_TLSv1_1 ∪ unless (enable_tls_v1_2 f) NO_TLSv1_2 ∪ unless (enable_tls_v1_3 f) NO_TLSv1_3.

(** [initialize_ecdh_curve], with [SSL_CTX_set1_curves_list]. *)
Definition initialize_ecdh_curve (lib : openssl_lib) (f : Flags) : Try (option string) :=
  if decide (ecdh_curves f = "auto") then Some_ None
  else if set1_curves_list lib (ecdh_curves f) then Some_ (Some (ecdh_curves f))
  else Error ("Could not load ECDH curves '" +:+ ecdh_curves f +:+ "' ").

(** The settings of a new context, in order. *)
Definition configure_context (lib : openssl_lib) (f : Flags) (cert key : string) : checked context :=
  match load_authorities lib f with
  | Abort m => Abort m
  | Returns (ca, depth) =>
      if negb (use_certificate_chain_file lib cert) then Abort ("Could not load cert file '" +:+ cert +:+ "' ")
      else if negb (use_PrivateKey_file lib key) then Abort ("Could not load key file '" +:+ key +:+ "' ")
      else if negb (check_private_key lib cert key) then Abort "Private key does not match the certificate public key "
      else if negb (set_cipher_list lib (ciphers f)) then Abort ("Could not set ciphers '" +:+ ciphers f +:+ "' ")
      else
        let options := (new_options lib ∖ protocol_options) ∪ ssl_options f in
        match initialize_ecdh_curve lib f with
        | Error m => Abort m
        | Some_ curves => Returns (mkContext ca depth cert key (ciphers f) ({[SINGLE_ECDH_USE]} ∪ options) curves)
        end
  end.

(** [reinitialize()]: [load] is [Flags::load].  [EXIT], [LOG(FATAL)] and [CHECK] end the process. *)
Definition reinitialize (lib : openssl_lib) (load : Flags -> gmap string (option string) -> Try Flags)
    (ssl libprocess : gmap string (option string)) (s : tls_state) : checked tls_state :=
  match load default_flags (environments ssl libprocess) with
  | Error m => Abort ("Failed to load flags from environment variables prefixed by LIBPROCESS_SSL_ or SSL_ (deprecated): " +:+ m)
  | Some_ f =>
      if negb (enabled f) then Returns (mkTlsState f (ctx s) (library_ready s) (contexts s))
      else if negb (library_ready s) && negb (rand_poll lib) then Abort "SSL socket requires entropy"
      else
        let contexts := match ctx s with Some _ => pred (contexts s) | None => contexts s end in
        if negb (ctx_new lib) then Abort "Failed to create SSL context: "
        else if negb (set_session_id_context lib) then Abort "Session id context size exceeds maximum"
        else
          match check_flags lib f, key_file f, cert_file f with
          | None, Some key, Some cert =>
              let f := if require_cert f && negb (verify_cert f) then with_verify_cert f else f in
              match configure_context lib f cert key with
              | Abort m => Abort m
              | Returns c => Returns (mkTlsState f (Some c) true (S contexts))
              end
          | Some m, _, _ => Abort m
          | None, _, _ => Abort "unreachable"
          end
  end.

(** ** Peers *)

Inductive Mode := CLIENT | SERVER.

Inductive IP := V4 (address : Z) | V6 (address : Z).
#[global] Instance IP_eq_dec : EqDecision IP.
Proof. solve_decision. Defined.

(** A name in the extension for alternative names of a subject.  A DNS name can contain any
    characters; an address is an octet string. *)
Inductive general_name := GEN_DNS (data : string) | GEN_IPADD (octets : option (list Z)) | GEN_OTHER.

(** [X509]: whether OpenSSL verified it ([SSL_get_verify_result]), its alternative names, and
    the common name of its subject. *)
Record certificate := mkX509 {
  verify_result : bool;
  alternative_names : option (list general_name);
  common_name : option string;
}.

(** A string of C in an array: it ends at the first NUL. *)
Fixpoint c_string (s : string) : string :=
  match s with
  | EmptyString => EmptyString
  | String c s => if decide (c = zero) then EmptyString else String c (c_string s)
  end.

(** [X509_NAME_get_text_by_NID] into an array of [MAXHOSTNAMELEN] characters, when it returns
    a positive number. *)
Definition name_text (MAXHOSTNAMELEN : nat) (cn : option string) : option string :=
  match cn with
  | Some cn =>
      let text := substring 0 (pred MAXHOSTNAMELEN) cn in
      if 0 <? String.length text then Some (c_string text) else None
  | None => None
  end.

(** [ntohl] of the four bytes. *)
Definition ntohl (octets : list Z) : Z := foldl (fun n b => n * 256 + b)%Z 0%Z octets.

(** One name of the certificate: the verification ends, or goes on with the next name. *)
Definition check_name (f : Flags) (hostname : option string) (ip : option IP) (n : general_name) : option (Try unit) :=
  match n with
  | GEN_DNS data =>
      match hostname with
      | Some h =>
          let dns_name := c_string data in
          if negb (String.length data =? String.length dns_name)
          then Some (Error "X509 certificate malformed: embedded NUL character in DNS name")
          else if decide (h = dns_name) then Some (Some_ ()) else None
      | None => None
      end
  | GEN_IPADD octets =>
      match verify_ipadd f, ip, octets with
      | true, Some ip, Some o =>
          if (List.length o =? 4) && bool_decide (ip = V4 (ntohl o)) then Some (Some_ ()) else None
      | _, _, _ => None
      end
  | GEN_OTHER => None
  end.

(** The loop over the names. *)
Fixpoint check_names (f : Flags) (hostname : option string) (ip : option IP) (l : list general_name) : option (Try unit) :=
  match l with
  | [] => None
  | n :: l => match check_name f hostname ip n with Some r => Some r | None => check_names f hostname ip l end
  end.

(** [verify(ssl, mode, hostname, ip)], and how many references to the certificate it keeps.
    [lookup] is [net::getHostname], and [peer] the certificate that the peer presented. *)
Definition verify (MAXHOSTNAMELEN : nat) (lookup : IP -> Try string) (f : Flags) (mode : Mode) (peer : option certificate)
    (hostname : option string) (ip : option IP) : Try unit * nat :=
  if match mode with CLIENT => negb (verify_cert f) | SERVER => negb (require_cert f) end then (Some_ (), 0)
  else
    match peer with
    | None => (Error "Peer did not provide certificate", 0)
    | Some cert =>
        if negb (verify_result cert) then (Error "Could not verify peer certificate", 0)
        else if decide (hostname_validation_scheme f = "openssl") then (Some_ (), 1)
        else
          let peer_hostname :=
            match ip with
            | Some ip => match lookup ip with Some_ h => Some h | Error _ => hostname end
            | None => hostname
            end in
          if negb (verify_ipadd f) && bool_decide (peer_hostname = None) then
            (if require_cert f then Error "Cannot verify peer certificate: peer hostname unknown" else Some_ (), 0)
          else
            match check_names f peer_hostname ip (default [] (alternative_names cert)), peer_hostname with
            | Some r, _ => (r, 0)
            | None, Some h =>
                match name_text MAXHOSTNAMELEN (common_name cert) with
                | Some text =>
                    (if decide (h = text) then Some_ ()
                     else Error ("Presented Certificate Name: " +:+ text +:+ " does not match peer hostname name: " +:+ h), 0)
                | None => (Error "Could not verify presented certificate with ", 0)
                end
            | None, None => (Error "Could not verify presented certificate with ", 0)
            end
    end.

(** ** Before the handshake *)

Inductive verify_mode := SSL_VERIFY_NONE | SSL_VERIFY_PEER | SSL_VERIFY_PEER_FAIL_IF_NO_CERT.

(** What is set on the [SSL] object of a connection. *)
Record ssl_settings := mkSettings { set_verify : verify_mode; set1_host : option string; set1_ip : option IP }.

(** The address of the peer: an IP address, or a path. *)
Inductive Address := INET (ip : IP) | UNIX (path : string).

(** [configure_socket(ssl, mode, peer_address, peer_hostname)]; [host_ok] and [ip_ok] are what
    [X509_VERIFY_PARAM_set1_host] and [X509_VERIFY_PARAM_set1_ip_asc] return. *)
Definition configure_socket (host_ok ip_ok : bool) (f : Flags) (mode : Mode) (peer_address : Address) (peer_hostname : option string)
    : Try ssl_settings :=
  let vm :=
    match mode with
    | CLIENT => if verify_cert f then SSL_VERIFY_PEER else SSL_VERIFY_NONE
    | SERVER => if require_cert f then SSL_VERIFY_PEER_FAIL_IF_NO_CERT else SSL_VERIFY_NONE
    end in
  if decide (hostname_validation_scheme f = "openssl") then
    match mode with
    | SERVER => Some_ (mkSettings vm None None)
    | CLIENT =>
        if negb (verify_cert f) then Some_ (mkSettings vm None None)
        else
          match peer_hostname with
          | Some h => if host_ok then Some_ (mkSettings vm (Some h) None) else Error "Could not enable x509 hostname check."
          | None =>
              if negb (verify_ipadd f)
              then Error "No DNS name given and IP address verification is  disabled. I cannot work like this :("
              else
                match peer_address with
                | UNIX _ => Error "Can only use IPv4 or IPv6 addresses for IP address validation."
                | INET ip => if ip_ok then Some_ (mkSettings vm None (Some ip)) else Error "Could not enable x509 IP check."
                end
          end
    end
  else Some_ (mkSettings vm None None).
