(* ===== verification/TlsConfigSpec.v ===== *)
(** Properties of the configuration of TLS and of the verification of peers. *)

From Stdlib Require Import Ascii String.
From S2P Require Import Prelude TlsConfig.

Local Open Scope string_scope.
Local Open Scope nat_scope.

(** ** The configuration *)

(** A protocol that the flags do not enable; SSLv2 never is. *)
Definition disabled (f : Flags) (o : ssl_option) : Prop :=
  match o with
  | NO_SSLv2 => True
  | NO_SSLv3 => enable_ssl_v3 f = false
  | NO_TLSv1 => enable_tls_v1_0 f = false
  | NO_TLSv1_1 => enable_tls_v1_1 f = false
  | NO_TLSv1_2 => enable_tls_v1_2 f = false
  | NO_TLSv1_3 => enable_tls_v1_3 f = false
  | _ => False
  end.

Lemma elem_of_unless b o p : o ∈ unless b p <-> b = false /\ o = p.
Proof. destruct b; cbn; set_solver. Qed.

Lemma elem_of_ssl_options f o : o ∈ ssl_options f <-> o = CIPHER_SERVER_PREFERENCE \/ disabled f o.
Proof.
  unfold ssl_options. rewrite !elem_of_union, !elem_of_unless. destruct o; cbn; set_solver.
Qed.

Lemma configured_options lib f o :
  o ∈ protocol_options -> o ∈ {[SINGLE_ECDH_USE]} ∪ ((new_options lib ∖ protocol_options) ∪ ssl_options f) <-> disabled f o.
Proof.
  intros Ho. rewrite !elem_of_union, elem_of_difference, elem_of_ssl_options. unfold protocol_options in *. set_solver.
Qed.

Lemma load_authorities_spec lib f ca d :
  load_authorities lib f = Returns (ca, d) ->
  if verify_cert f then ca <> NoAuthorities /\ d = Some (verification_depth f) else ca = NoAuthorities.
Proof. unfold load_authorities. repeat case_match; intros [= <- <-]; done. Qed.

Lemma configure_context_spec lib f cert key c :
  configure_context lib f cert key = Returns c ->
  chain c = cert /\ private_key c = key /\ check_private_key lib cert key = true /\
  (if verify_cert f then ca c <> NoAuthorities /\ depth c = Some (verification_depth f) else ca c = NoAuthorities) /\
  forall o, o ∈ protocol_options -> o ∈ options c <-> disabled f o.
Proof.
  unfold configure_context. destruct (load_authorities lib f) as [[a d]|] eqn:Ha; [|done]. apply load_authorities_spec in Ha.
  destruct (use_certificate_chain_file lib cert); [|done]. destruct (use_PrivateKey_file lib key); [|done].
  destruct (check_private_key lib cert key); [|done]. destruct (set_cipher_list lib (ciphers f)); [|done]. cbn.
  destruct (initialize_ecdh_curve lib f); [|done]. intros [= <-]. cbn. split_and!; try done. intros o. apply configured_options.
Qed.

(** The flags as they are used: client certificates that are required imply that servers are
    verified. *)
Definition effective_flags (f : Flags) : Flags := if require_cert f && negb (verify_cert f) then with_verify_cert f else f.

Lemma effective_verify f : verify_cert (effective_flags f) = verify_cert f || require_cert f.
Proof. unfold effective_flags. destruct (require_cert f) eqn:Hr, (verify_cert f) eqn:Hv; cbn; rewrite ?Hv; done. Qed.

Lemma effective_same f :
  verification_depth (effective_flags f) = verification_depth f /\ require_cert (effective_flags f) = require_cert f /\
  hostname_validation_scheme (effective_flags f) = hostname_validation_scheme f /\
  forall o, disabled (effective_flags f) o <-> disabled f o.
Proof. unfold effective_flags. by case_match. Qed.

(** A context exists exactly when one is counted. *)
Definition one_context (s : tls_state) : Prop := contexts s = match ctx s with Some _ => 1 | None => 0 end.

(** What [reinitialize] does to a state, when TLS is enabled. *)
Lemma reinitialize_enabled lib load ssl libprocess s s' f :
  reinitialize lib load ssl libprocess s = Returns s' -> load default_flags (environments ssl libprocess) = Some_ f -> enabled f = true ->
  check_flags lib f = None /\
  exists cert key c, cert_file f = Some cert /\ key_file f = Some key /\ configure_context lib (effective_flags f) cert key = Returns c /\
    s' = mkTlsState (effective_flags f) (Some c) true (S (match ctx s with Some _ => pred (contexts s) | None => contexts s end)).
Proof.
  unfold reinitialize. intros Hr Hl He. rewrite Hl, He in Hr. cbn in Hr. case_match; [done|].
  destruct (ctx_new lib); [|done]. destruct (set_session_id_context lib); [|done]. cbn in Hr.
  destruct (check_flags lib f) eqn:Hc; [done|]. destruct (key_file f) as [key|]; [|done]. destruct (cert_file f) as [cert|]; [|done].
  fold (effective_flags f) in Hr. destruct (configure_context lib (effective_flags f) cert key) as [c|] eqn:Hcc; [|done].
  injection Hr as <-. split; [done|]. by exists cert, key, c.
Qed.

Lemma check_flags_scheme lib f :
  check_flags lib f = None -> hostname_validation_scheme f = "legacy" \/ hostname_validation_scheme f = "openssl".
Proof.
  intros Hc. destruct (decide (hostname_validation_scheme f = "legacy")) as [|H1]; [by left|].
  destruct (decide (hostname_validation_scheme f = "openssl")) as [|H2]; [by right|]. exfalso. unfold check_flags in Hc.
  rewrite (bool_decide_true (_ <> "legacy") H1), (bool_decide_true (_ <> "openssl") H2) in Hc. by repeat case_match.
Qed.

(** When TLS is enabled and the process goes on, the new context has the certificate and the
    key that belong together, exactly the protocols that the flags enable (never SSLv2),
    authorities and a depth whenever peers are to be verified, which is also when client
    certificates are required; the scheme for hostnames is one of the two; the old context was
    freed, and nothing of it is left in the new one. *)
Theorem reinitialize_configures lib load ssl libprocess s s' f :
  reinitialize lib load ssl libprocess s = Returns s' -> load default_flags (environments ssl libprocess) = Some_ f ->
  enabled f = true -> one_context s ->
  exists c, ctx s' = Some c /\
    cert_file f = Some (chain c) /\ key_file f = Some (private_key c) /\ check_private_key lib (chain c) (private_key c) = true /\
    (forall o, o ∈ protocol_options -> o ∈ options c <-> disabled f o) /\
    verify_cert (ssl_flags s') = verify_cert f || require_cert f /\
    (verify_cert (ssl_flags s') = true -> ca c <> NoAuthorities /\ depth c = Some (verification_depth f)) /\
    (hostname_validation_scheme f = "legacy" \/ hostname_validation_scheme f = "openssl") /\
    one_context s' /\
    (forall t t', reinitialize lib load ssl libprocess t = Returns t' -> ctx t' = Some c /\ ssl_flags t' = ssl_flags s').
Proof.
  intros Hr Hl He H1. destruct (reinitialize_enabled _ _ _ _ _ _ _ Hr Hl He) as (Hc & cert & key & c & H2 & H3 & Hcc & ->).
  destruct (configure_context_spec _ _ _ _ _ Hcc) as (<- & <- & Hk & Hca & Ho). destruct (effective_same f) as (Hd & _ & _ & Hdis).
  rewrite effective_verify, Hd in Hca. exists c. cbn. rewrite effective_verify. split_and!; try done.
  - intros o Hp. rewrite Ho by done. apply Hdis.
  - intros Hv. by rewrite Hv in Hca.
  - by eapply check_flags_scheme.
  - unfold one_context in *. cbn. rewrite H1. by destruct (ctx s).
  - intros t t' Ht. destruct (reinitialize_enabled _ _ _ _ _ _ _ Ht Hl He) as (_ & cert' & key' & c' & ? & ? & ? & ->).
    assert (cert' = chain c) as -> by congruence. assert (key' = private_key c) as -> by congruence.
    assert (c' = c) as -> by congruence. done.
Qed.

(** ** The verification *)

(** Whether the certificate of the peer is looked at. *)
Definition required (f : Flags) (mode : Mode) : bool :=
  match mode with CLIENT => verify_cert f | SERVER => require_cert f end.

(** The name that the certificate must have: that of reverse DNS, or else the given one. *)
Definition expected_name (lookup : IP -> Try string) (hostname : option string) (ip : option IP) : option string :=
  match ip with
  | Some ip => match lookup ip with Some_ h => Some h | Error _ => hostname end
  | None => hostname
  end.

Definition has_nul (s : string) : bool := existsb (fun c => bool_decide (c = zero)) (list_ascii_of_string s).

(** An alternative name is that of the peer; a DNS name that no certificate should have. *)
Definition names_peer (f : Flags) (host : option string) (ip : option IP) (n : general_name) : Prop :=
  match n with
  | GEN_DNS d => host = Some d /\ has_nul d = false
  | GEN_IPADD (Some o) => verify_ipadd f = true /\ List.length o = 4 /\ ip = Some (V4 (ntohl o))
  | _ => False
  end.
Definition malformed (host : option string) (n : general_name) : Prop :=
  match n with GEN_DNS d => host <> None /\ has_nul d = true | _ => False end.

Lemma c_string_nul s : has_nul s = false <-> c_string s = s.
Proof.
  induction s as [|c s IH]; [done|]. cbn. unfold has_nul in IH. destruct (decide (c = zero)) as [->|Hc].
  - rewrite bool_decide_true by done. done.
  - rewrite bool_decide_false by done. cbn. rewrite IH. split; [congruence|]. by intros [= ->].
Qed.

Lemma c_string_length s : String.length (c_string s) = String.length s <-> c_string s = s.
Proof.
  split; [|congruence]. induction s as [|c s IH]; [done|]. cbn. case_decide; cbn; [done|]. intros [= Hl]. by rewrite IH.
Qed.

Lemma check_name_spec f host ip n :
  match check_name f host ip n with
  | Some (Some_ _) => names_peer f host ip n
  | Some (Error _) => malformed host n
  | None => ~ names_peer f host ip n /\ ~ malformed host n
  end.
Proof.
  destruct n as [d|o|]; cbn; [| |tauto].
  - destruct host as [h|]; [|split; intros [? _]; done]. destruct (String.length d =? String.length (c_string d)) eqn:Hl; cbn.
    + apply Nat.eqb_eq in Hl. symmetry in Hl. apply c_string_length, c_string_nul in Hl. pose proof (proj1 (c_string_nul d) Hl) as Hd.
      rewrite Hd, Hl. case_decide; subst; [done|]. split; intros [? ?]; congruence.
    + split; [done|]. destruct (has_nul d) eqn:Hn; [done|]. apply c_string_nul in Hn. rewrite Hn in Hl. by rewrite Nat.eqb_refl in Hl.
  - destruct (verify_ipadd f); [|destruct o; [split; [by intros (? & _)|tauto]|tauto]]. destruct o as [o|]; [|by destruct ip; tauto].
    destruct ip as [ip|]; [|split; [by intros (_ & _ & ?)|tauto]].
    destruct (_ && _) eqn:Hb.
    + apply andb_true_iff in Hb as [H1 H2]. bool_cases. subst. done.
    + split; [|tauto]. intros (_ & Hl & [= ->]). rewrite Hl, bool_decide_true in Hb by done. done.
Qed.

(** The first name that decides. *)
Definition found_in (f : Flags) (host : option string) (ip : option IP) (l : list general_name) : Prop :=
  exists pre n post, l = (pre ++ n :: post)%list /\ Forall (fun m => ~ malformed host m) pre /\ names_peer f host ip n.

Lemma found_in_cons f host ip n l :
  found_in f host ip (n :: l) <-> names_peer f host ip n \/ ~ malformed host n /\ found_in f host ip l.
Proof.
  split.
  - intros (pre & m & post & Hl & Hp & Hm). destruct pre as [|x pre]; injection Hl as -> ->; [by left|].
    right. apply Forall_cons in Hp as [? ?]. split; [done|]. by exists pre, m, post.
  - intros [Hn|[Hn (pre & m & post & -> & Hp & Hm)]]; [by exists [], n, l|].
    exists (n :: pre), m, post. split_and!; [done|by constructor|done].
Qed.

Lemma check_names_spec f host ip l :
  (check_names f host ip l = Some (Some_ ()) <-> found_in f host ip l) /\
  (check_names f host ip l = None <-> Forall (fun n => ~ names_peer f host ip n /\ ~ malformed host n) l).
Proof.
  induction l as [|n l IH]; cbn.
  - split; [|done]. split; [done|]. by intros ([] & ? & ? & ? & _).
  - rewrite found_in_cons, Forall_cons. pose proof (check_name_spec f host ip n) as Hn.
    assert (Hex : names_peer f host ip n -> malformed host n -> False).
    { destruct n as [d|[o|]|]; cbn; try tauto. intros [_ ?] [_ ?]. congruence. }
    destruct (check_name f host ip n) as [[[]|]|]; [| |tauto].
    + split; [by split; [left|]|]. split; [done|]. by intros [[? _] _].
    + split; (split; [done|]); [|by intros [[_ ?] _]]. intros [?|[? _]]; [by destruct Hex|done].
Qed.

(** When the name of the peer is found, in the alternative names or as the common name. *)
Definition identified (N : nat) (f : Flags) (host : option string) (ip : option IP) (c : certificate) : Prop :=
  let names := default [] (alternative_names c) in
  found_in f host ip names \/
  Forall (fun n => ~ names_peer f host ip n /\ ~ malformed host n) names /\
  exists h, host = Some h /\ name_text N (common_name c) = Some h.

(** Nobody knows the name, addresses are not to be verified, and client certificates are not
    required: then no name is looked for. *)
Definition excused (f : Flags) (host : option string) : Prop := host = None /\ verify_ipadd f = false.

(** When [verify] succeeds. *)
Lemma verify_iff N lookup f mode peer hostname ip :
  (verify N lookup f mode peer hostname ip).1 = Some_ () <->
  required f mode = false \/
  exists c, peer = Some c /\ verify_result c = true /\
    let host := expected_name lookup hostname ip in
    (hostname_validation_scheme f = "openssl" \/
     (excused f host /\ require_cert f = false) \/
     (~ excused f host /\ identified N f host ip c)).
Proof.
  unfold verify. fold (expected_name lookup hostname ip). set (host := expected_name lookup hostname ip).
  assert (Hreq : match mode with CLIENT => negb (verify_cert f) | SERVER => negb (require_cert f) end = negb (required f mode)) by by destruct mode.
  rewrite Hreq. destruct (required f mode); cbn [negb]; [|by split; [left|]].
  destruct peer as [c|]; [|by split; [|intros [?|(? & ? & _)]]].
  destruct (verify_result c) eqn:Hv; cbn [negb]; [|split; [done|intros [?|(? & [= <-] & ? & _)]; congruence]].
  transitivity (hostname_validation_scheme f = "openssl" \/ (excused f host /\ require_cert f = false) \/
     (~ excused f host /\ identified N f host ip c)).
  2:{ split; [intros HP; right; by exists c|]. by intros [?|(? & [= <-] & _ & ?)]. }
  destruct (decide (hostname_validation_scheme f = "openssl")) as [Hs|Hs]; [by split; [left|]|].
  destruct (negb (verify_ipadd f) && bool_decide (host = None)) eqn:Hx.
  - assert (excused f host) by (bool_cases; done). destruct (require_cert f); cbn.
    + split; [done|]. by intros [?|[[_ ?]|[? _]]].
    + split; [right; by left|done].
  - assert (Hne : ~ excused f host) by (intros [H1 H2]; rewrite H1, H2 in Hx; done).
    transitivity (identified N f host ip c); [|tauto]. unfold identified.
    destruct (check_names_spec f host ip (default [] (alternative_names c))) as [Hf Hn].
    destruct (check_names f host ip (default [] (alternative_names c))) as [r|]; cbn.
    + split; [intros ->; left; by apply Hf|]. intros [Hi|[Hi _]]; [apply Hf in Hi; congruence|apply Hn in Hi; done].
    + assert (Hnf : ~ found_in f host ip (default [] (alternative_names c))) by (intros Hi%Hf; done).
      pose proof (proj1 Hn eq_refl) as Hall. destruct host as [h|]; [|by split; [|intros [?|[_ (? & ? & _)]]]].
      destruct (name_text N (common_name c)) as [t|]; cbn; [|by split; [|intros [?|[_ (? & ? & ?)]]]].
      case_decide; subst; cbn; (split; [done || (intros _; right; eauto)|]); [done|]. intros [?|[_ (? & [= ->] & [= ->])]]; done.
Qed.


(** [verify] gives back every certificate that it looked at, on every path but one: with the
    scheme [openssl] each verified peer costs a certificate that is never freed. *)
Theorem verify_frees_certificate N lookup f mode peer hostname ip :
  (verify N lookup f mode peer hostname ip).2 =
  if required f mode && bool_decide (hostname_validation_scheme f = "openssl") && from_option verify_result false peer then 1 else 0.
Proof.
  unfold verify. assert (Hreq : match mode with CLIENT => negb (verify_cert f) | SERVER => negb (require_cert f) end = negb (required f mode)) by by destruct mode.
  rewrite Hreq. destruct (required f mode); cbn; [|done]. destruct peer as [c|]; cbn; [|by rewrite andb_false_r].
  destruct (verify_result c); cbn; rewrite ?andb_false_r, ?andb_true_r; [|done].
  destruct (decide (hostname_validation_scheme f = "openssl")) as [Hs|Hs];
    [by rewrite (bool_decide_true _ Hs)|rewrite (bool_decide_false _ Hs)]. repeat case_match; done.
Qed.

Lemma c_string_app s t : has_nul s = false -> c_string (s +:+ String zero t) = s.
Proof.
  induction s as [|c s IH]; [done|]. cbn. unfold has_nul in *. destruct (decide (c = zero)) as [->|Hc].
  - by rewrite bool_decide_true.
  - rewrite bool_decide_false by done. cbn. intros Hs.
    change (c_string (String c (s +:+ String zero t)) = String c s). cbn. by rewrite decide_False, IH.
Qed.

Lemma substring_app n s t : String.length s < n -> exists u, substring 0 n (s +:+ String zero t) = s +:+ String zero u.
Proof.
  revert n. induction s as [|c s IH]; intros [|n] Hl; cbn in Hl; try lia; [by eexists|].
  destruct (IH n) as (u & Hu); [lia|]. exists u. change (String c (substring 0 n (s +:+ String zero t)) = String c (s +:+ String zero u)).
  by rewrite Hu.
Qed.

(** A certificate whose common name is the name of the peer, a NUL and anything else, is
    taken for the peer's when it has no alternative names: the check for NUL that the
    alternative names get is missing. *)
Theorem nul_in_common_name_accepted N lookup f host other ip :
  host <> "" -> has_nul host = false -> String.length host < pred N -> lookup ip = Some_ host ->
  hostname_validation_scheme f = "legacy" ->
  (verify N lookup f CLIENT (Some (mkX509 true None (Some (host +:+ String zero other)))) None (Some ip)).1 = Some_ ().
Proof.
  intros Hne Hn Hl Hlk Hs. apply verify_iff. destruct (required f CLIENT) eqn:Hr; [right|by left].
  eexists. split; [done|]. split; [done|]. cbv zeta. right. right. unfold expected_name. rewrite Hlk. split; [by intros [? _]|].
  right. cbn. split; [constructor|]. exists host. split; [done|]. unfold name_text.
  destruct (substring_app (pred N) host other Hl) as (u & Hu). rewrite Hu, c_string_app by done.
  destruct host; [done|]. done.
Qed.

(** ** From the configuration to a connected peer *)

(** What OpenSSL documents of a handshake: when the peer is to be verified, it completes only
    with a certificate that was verified, if there is one, for the host or the address that was
    set. *)
Class Handshake := {
  completes : ssl_settings -> option certificate -> bool;
  names_host : certificate -> string -> bool;
  names_ip : certificate -> IP -> bool;
  handshake_verifies st c :
    completes st (Some c) = true -> set_verify st <> SSL_VERIFY_NONE ->
    verify_result c = true /\
    (forall h, set1_host st = Some h -> names_host c h = true) /\ (forall ip, set1_ip st = Some ip -> names_ip c ip = true);
}.

(** A client that is configured to verify servers, whose socket was configured, whose
    handshake completed and whose verification succeeded, talks to a peer with a verified
    certificate that is for the peer: with the scheme [openssl] for the hostname that was given,
    or else for the address, by the judgement of OpenSSL; with the scheme [legacy] for the name
    that reverse DNS or the caller gives or for the address, unless no name is known and
    that is excused. *)
Theorem connected_server_is_the_peer `{Handshake} N lookup host_ok ip_ok f address hostname ip peer st :
  verify_cert f = true ->
  configure_socket host_ok ip_ok f CLIENT address hostname = Some_ st -> completes st peer = true ->
  (verify N lookup f CLIENT peer hostname ip).1 = Some_ () ->
  exists c, peer = Some c /\ verify_result c = true /\
    if decide (hostname_validation_scheme f = "openssl") then
      match hostname with
      | Some h => names_host c h = true
      | None => exists a, address = INET a /\ names_ip c a = true
      end
    else
      let host := expected_name lookup hostname ip in
      identified N f host ip c \/ (excused f host /\ require_cert f = false).
Proof.
  intros Hv Hc Hh Hver. apply verify_iff in Hver as [Hr|(c & -> & Hvr & Hid)]; [cbn in Hr; congruence|].
  exists c. split; [done|]. split; [done|]. unfold configure_socket in Hc. rewrite Hv in Hc.
  destruct (decide (hostname_validation_scheme f = "openssl")) as [Hs|Hs]; [|cbv zeta in *; tauto].
  destruct hostname as [h|].
  - destruct host_ok; [|done]. injection Hc as <-. by apply (handshake_verifies _ _ Hh).
  - destruct (verify_ipadd f); [|done]. destruct address as [a|]; [|done]. destruct ip_ok; [|done]. injection Hc as <-.
    exists a. split; [done|]. by apply (handshake_verifies _ _ Hh).
Qed.

(** A server that requires client certificates accepts only clients with a verified
    certificate. *)
Theorem accepted_client_is_verified N lookup f peer hostname ip :
  require_cert f = true -> (verify N lookup f SERVER peer hostname ip).1 = Some_ () ->
  exists c, peer = Some c /\ verify_result c = true.
Proof.
  intros Hr Hver. apply verify_iff in Hver as [Hq|(c & -> & Hvr & _)]; [cbn in Hq; congruence|]. by exists c.
Qed.

(** The configuration of TLS and the verification of peers at concrete inputs. *)

Local Open Scope string_scope.
Local Open Scope nat_scope.

(** A library in which every call succeeds, and whose new contexts have SSLv3 switched off. *)
Definition good_lib : openssl_lib :=
  mkOpensslLib true true true true (fun _ _ => true) true (fun _ => true) (fun _ => true) (fun _ _ => true) (fun _ => true)
    (fun _ => true) {[NO_SSLv3]}.

Definition client_certificates : Flags :=
  mkFlags true false (Some "cert.pem") (Some "key.pem") false true false 4 None (Some "ca.pem") "AES128-SHA" "auto" "legacy"
    true false false true false.
Definition load_flags (_ : Flags) (_ : gmap string (option string)) : Try Flags := Some_ client_certificates.

Definition unconfigured : tls_state := mkTlsState default_flags None false 0.
Definition configured : tls_state :=
  match reinitialize good_lib load_flags ∅ ∅ unconfigured with Returns s => s | Abort _ => unconfigured end.

Lemma reinitialize_configures_witness :
  verify_cert (ssl_flags configured) = true /\
  exists c, ctx configured = Some c /\ NO_SSLv3 ∉ options c /\ NO_TLSv1 ∈ options c.
Proof.
  split; [by vm_compute|].
  destruct (reinitialize_configures good_lib load_flags ∅ ∅ unconfigured configured client_certificates)
    as (c & Hc & _ & _ & _ & Ho & _); [by vm_compute|done|done|done|].
  exists c. split; [done|]. rewrite !Ho by (unfold protocol_options; set_solver). done.
Defined.

Definition peer_ip : IP := V4 2130706433.
Definition reverse (ip : IP) : Try string := if decide (ip = peer_ip) then Some_ "host" else Error "no name".
Definition other_name : certificate := mkX509 true (Some [GEN_OTHER; GEN_DNS "host"]) (Some "other").

#[local] Instance trusting : Handshake.
Proof.
  refine {|
    completes st c := match set_verify st, c with SSL_VERIFY_NONE, _ => true | _, Some c => verify_result c | _, None => false end;
    names_host _ _ := true; names_ip _ _ := true;
  |}.
  intros st c Hc Hn. by destruct (set_verify st).
Defined.

Lemma connected_server_is_the_peer_witness :
  identified 64 (with_verify_cert client_certificates) (Some "host") (Some peer_ip) other_name.
Proof.
  destruct (connected_server_is_the_peer 64 reverse true true (with_verify_cert client_certificates) (INET peer_ip) None
    (Some peer_ip) (Some other_name) (mkSettings SSL_VERIFY_PEER None None)) as (c & [= <-] & _ & Hi); [done..|by vm_compute|].
  destruct Hi as [Hi|[[? _] _]]; [exact Hi|done].
Defined.

Lemma accepted_client_is_verified_witness : exists c, Some other_name = Some c /\ verify_result c = true.
Proof.
  apply (accepted_client_is_verified 64 reverse client_certificates (Some other_name) None (Some peer_ip)); [done|by vm_compute].
Defined.

Lemma nul_in_common_name_accepted_witness :
  (verify 64 reverse (with_verify_cert client_certificates) CLIENT
     (Some (mkX509 true None (Some ("host" +:+ String zero ".attacker")))) None (Some peer_ip)).1 = Some_ ().
Proof.
  apply (nul_in_common_name_accepted 64 reverse (with_verify_cert client_certificates) "host" ".attacker" peer_ip);
    [done|by vm_compute|cbn; lia|by vm_compute|done].
Defined.

(** The same name among the alternative names is refused, and so is another common name. *)
Example nul_in_alternative_name_refused :
  (verify 64 reverse (with_verify_cert client_certificates) CLIENT
     (Some (mkX509 true (Some [GEN_DNS ("host" +:+ String zero ".attacker")]) None)) None (Some peer_ip)).1 =
    Error "X509 certificate malformed: embedded NUL character in DNS name" /\
  (verify 64 reverse (with_verify_cert client_certificates) CLIENT (Some (mkX509 true None (Some "other"))) None (Some peer_ip)).1 =
    Error "Presented Certificate Name: other does not match peer hostname name: host".
Proof. by vm_compute. Qed.

(** The hostname that the caller gives is used when reverse DNS does not know the address. *)
Example given_name_is_used :
  (verify 64 reverse (with_verify_cert client_certificates) CLIENT (Some other_name) (Some "host") (Some (V4 1))).1 = Some_ ().
Proof. by vm_compute. Qed.
