(* ===== verification/Digits.v ===== *)
(** Decimal numbers in strings: what [strtoll] and [sscanf] read of them, and that they read
    what was printed.  Used by the memory profiler and by the names of processes. *)

From Stdlib Require Import Ascii String.
From stdpp Require Import pretty.
From S2P Require Import Prelude.

Local Open Scope string_scope.
Local Open Scope Z_scope.

(** White space of the C locale, at the beginning of a string. *)
Definition is_space (c : ascii) : bool := let n := nat_of_ascii c in (n =? 32)%nat || ((9 <=? n)%nat && (n <=? 13)%nat).

(** Digits are read while there are any: the number, and how many. *)
Definition digit (c : ascii) : option Z :=
  let n := nat_of_ascii c in if (48 <=? n)%nat && (n <=? 57)%nat then Some (Z.of_nat (n - 48)) else None.
Fixpoint digits (acc : Z) (read : nat) (s : string) : Z * nat :=
  match s with
  | String c s' => match digit c with Some d => digits (acc * 10 + d) (S read) s' | None => (acc, read) end
  | EmptyString => (acc, read)
  end.
Fixpoint spaces (s : string) : nat :=
  match s with String c s' => if is_space c then S (spaces s') else 0%nat | EmptyString => 0%nat end.

Lemma digit_pretty x : (x < 10)%N -> digit (pretty_N_char x) = Some (Z.of_N x).
Proof.
  intros Hx. assert (Hc : x ∈ [0; 1; 2; 3; 4; 5; 6; 7; 8; 9]%N) by (rewrite !elem_of_cons; lia).
  repeat (apply elem_of_cons in Hc as [->|Hc]; [reflexivity|]). by apply not_elem_of_nil in Hc.
Qed.

(** Reading what was printed of a number: [k] digits. *)
Lemma digits_pretty x : exists k, forall acc read s,
  digits acc read (pretty_N_go x s) = digits (acc * 10 ^ Z.of_nat k + Z.of_N x) (read + k) s /\
  String.length (pretty_N_go x s) = (k + String.length s)%nat.
Proof.
  induction x as [x IH] using (well_founded_induction N.lt_wf_0). destruct (decide (x = 0)%N) as [->|Hx].
  - exists 0%nat. intros acc read s. rewrite pretty_N_go_0. split; [|done]. f_equal; [lia|lia].
  - destruct (IH (x / 10)%N) as (k & Hk); [apply N.div_lt; lia|]. exists (S k). intros acc read s.
    rewrite pretty_N_go_step by lia. destruct (Hk acc read (String (pretty_N_char (x `mod` 10)) s)) as [-> ->]. split.
    + cbn [digits]. rewrite digit_pretty by (apply N.mod_lt; lia). f_equal; [|lia].
      rewrite Nat2Z.inj_succ, Z.pow_succ_r by lia. rewrite (N.div_mod x 10) at 3 by lia. rewrite N2Z.inj_add, N2Z.inj_mul. lia.
    + cbn. lia.
Qed.

Lemma substring_long n s : (String.length s <= n)%nat -> String.substring 0 n s = s.
Proof. revert n. induction s as [|c s IH]; intros [|n] Hl; cbn in *; try done; [lia|]. rewrite IH; [done|lia]. Qed.
Lemma substring_whole s : String.substring 0 (String.length s) s = s.
Proof. by apply substring_long. Qed.

Lemma pretty_first x s c t :
  pretty_N_go x s = String c t -> (x = 0%N /\ s = String c t) \/ exists d, (d < 10)%N /\ c = pretty_N_char d.
Proof.
  revert s. induction x as [x IH] using (well_founded_induction N.lt_wf_0). intros s. destruct (decide (x = 0)%N) as [->|Hx].
  - rewrite pretty_N_go_0. by left.
  - rewrite pretty_N_go_step by lia. intros Hp. right. destruct (IH (x / 10)%N ltac:(apply N.div_lt; lia) _ Hp) as [[_ [= <- <-]]|Hd]; [|done].
    exists (x mod 10)%N. split; [apply N.mod_lt; lia|done].
Qed.

Lemma digit_plain d : (d < 10)%N -> is_space (pretty_N_char d) = false /\ pretty_N_char d <> "-"%char /\ pretty_N_char d <> "+"%char.
Proof.
  intros Hx. assert (Hc : d ∈ [0; 1; 2; 3; 4; 5; 6; 7; 8; 9]%N) by (rewrite !elem_of_cons; lia).
  repeat (apply elem_of_cons in Hc as [->|Hc]; [done|]). by apply not_elem_of_nil in Hc.
Qed.

(** A number that was printed is read again, with all its digits. *)
Lemma pretty_N_digits n : exists k, (0 < k)%nat /\ String.length (pretty n) = k /\ digits 0 0 (pretty n) = (Z.of_N n, k) /\
  exists c t, pretty n = String c t /\ is_space c = false /\ c <> "-"%char /\ c <> "+"%char.
Proof.
  unfold pretty, pretty_N. destruct (decide (n = 0)%N) as [->|Hn]; [by exists 1%nat; split_and!; [lia|done|done|]; eexists _, _|].
  destruct (digits_pretty n) as (k & Hk). destruct (Hk 0 0%nat "") as [Hd Hl]. cbn [digits String.length Nat.add] in Hd, Hl. exists k.
  destruct (pretty_N_go n "") as [|c t] eqn:Hp.
  - exfalso. rewrite pretty_N_go_step in Hp by lia. destruct (digits_pretty (n / 10)) as (k' & Hk').
    destruct (Hk' 0 0%nat (String (pretty_N_char (n `mod` 10)) "")) as [_ Hl']. rewrite Hp in Hl'. cbn in Hl'. lia.
  - split_and!; [cbn in Hl; lia|cbn in *; lia|by rewrite Hd|]. exists c, t. split; [done|].
    destruct (pretty_first n "" c t Hp) as [[? _]|(d & Hlt & ->)]; [done|by apply digit_plain].
Qed.
