(* ===== verification/MemoryProfiler.v ===== *)
(** The memory profiler ([memory_profiler.cpp]): a process whose endpoints start and stop the
    collection of samples by jemalloc and serve the profiles that were written.

    Its events are served one after the other; a step is one event, one timer of the clock, time
    that passes, or somebody else who changes the settings of jemalloc or deletes a file.  What
    jemalloc, the file system and [jeprof] answer are arguments of a step. *)

From Stdlib Require Import Ascii String.
From S2P Require Import Prelude Jwt Digits.

Local Open Scope string_scope.
Local Open Scope Z_scope.

(** ** Constants, in nanoseconds *)

Definition second : Z := 1000000000.
Definition MINIMUM_COLLECTION_TIME : Z := 1 * second.
Definition DEFAULT_COLLECTION_TIME : Z := 5 * 60 * second.
Definition MAXIMUM_COLLECTION_TIME : Z := 24 * 60 * 60 * second.
Definition RAW_PROFILE_FILENAME : string := "profile.dump".
Definition SYMBOLIZED_PROFILE_FILENAME : string := "symbolized-profile.dump".
Definition GRAPH_FILENAME : string := "profile.svg".

(** ** Identifiers in requests *)

(** [std::strtoll(s, &end, 10)]: the number, the characters that were read, and whether [errno]
    was set. *)
Definition LLONG_MAX : Z := 2 ^ 63 - 1.
Definition LLONG_MIN : Z := - 2 ^ 63.
Definition strtoll (s : string) : Z * nat * bool :=
  let skipped := spaces s in
  let body := String.substring skipped (String.length s) s in
  let '(negative, sign) :=
    match body with
    | String c _ => if decide (c = "-"%char) then (true, 1%nat) else if decide (c = "+"%char) then (false, 1%nat) else (false, 0%nat)
    | EmptyString => (false, 0%nat)
    end in
  let '(n, read) := digits 0 0 (String.substring sign (String.length body) body) in
  if (read =? 0)%nat then (0, 0%nat, false)
  else
    let v := if negative : bool then - n else n in
    if v <? LLONG_MIN then (LLONG_MIN, (skipped + sign + read)%nat, true)
    else if LLONG_MAX <? v then (LLONG_MAX, (skipped + sign + read)%nat, true)
    else (v, (skipped + sign + read)%nat, false).

(** [extractIdFromRequest(request)], of the parameter [id] of the query. *)
Definition extractIdFromRequest (idParameter : option string) : result Z :=
  match idParameter with
  | None => NotFound
  | Some s =>
      let '(parsed, read, errno) := strtoll s in
      if errno : bool then FindError "Numerical result out of range"
      else if negb (read =? String.length s)%nat then FindError "Garbage after parsed id"
      else Found parsed
  end.

(** ** State *)

(** What is in a file: zeros, what a write that failed has left, the dump of a run, or what
    [jeprof] makes of another file. *)
Inductive content := Zeros | Partial | Dump (run : nat) | Jeprof (options : string) (c : content).

(** How a write of a file ends: as it should, before the file was opened, or after. *)
Inductive outcome := Done | Unopened | Cut.
Definition write_file (o : outcome) (p : string) (c : content) (d : gmap string content) : bool * gmap string content :=
  match o with Done => (true, <[p := c]> d) | Unopened => (false, d) | Cut => (false, <[p := Partial]> d) end.

Record DiskArtifact := mkArtifact { path : string; id : Z }.
Record ProfilingRun := mkRun { run_id : Z; timer : nat; run_number : nat }.

Record profiler := mkProfiler {
  currentRun : option ProfilingRun;
  rawProfile : Try DiskArtifact;
  symbolizedProfile : Try DiskArtifact;
  graphProfile : Try DiskArtifact;
  temporaryDirectory : option string;
  prof_active : bool;                    (* the setting of jemalloc *)
  disk : gmap string content;
  now : Z;                               (* the clock of the timers *)
  timers : gmap nat Z;                   (* the timers that are pending, and when they are due *)
  next_timer : nat;
  dispatched : nat;                      (* calls of [stopAndGenerateRawProfile] in the event queue *)
  started : list Z;                      (* history: the identifiers of the runs *)
}.

Definition not_yet {A} : Try A := Error "Not yet generated".
Definition profiler_init : profiler := mkProfiler None not_yet not_yet not_yet None false ∅ 0 ∅ 0 0 [].

Definition set_run (r : option ProfilingRun) (s : profiler) : profiler :=
  mkProfiler r (rawProfile s) (symbolizedProfile s) (graphProfile s) (temporaryDirectory s) (prof_active s) (disk s) (now s) (timers s)
    (next_timer s) (dispatched s) (started s).
Definition set_raw (a : Try DiskArtifact) (s : profiler) : profiler :=
  mkProfiler (currentRun s) a (symbolizedProfile s) (graphProfile s) (temporaryDirectory s) (prof_active s) (disk s) (now s) (timers s)
    (next_timer s) (dispatched s) (started s).
Definition set_symbolized (a : Try DiskArtifact) (s : profiler) : profiler :=
  mkProfiler (currentRun s) (rawProfile s) a (graphProfile s) (temporaryDirectory s) (prof_active s) (disk s) (now s) (timers s)
    (next_timer s) (dispatched s) (started s).
Definition set_graph (a : Try DiskArtifact) (s : profiler) : profiler :=
  mkProfiler (currentRun s) (rawProfile s) (symbolizedProfile s) a (temporaryDirectory s) (prof_active s) (disk s) (now s) (timers s)
    (next_timer s) (dispatched s) (started s).
Definition set_directory (d : option string) (s : profiler) : profiler :=
  mkProfiler (currentRun s) (rawProfile s) (symbolizedProfile s) (graphProfile s) d (prof_active s) (disk s) (now s) (timers s)
    (next_timer s) (dispatched s) (started s).
Definition set_active (b : bool) (s : profiler) : profiler :=
  mkProfiler (currentRun s) (rawProfile s) (symbolizedProfile s) (graphProfile s) (temporaryDirectory s) b (disk s) (now s) (timers s)
    (next_timer s) (dispatched s) (started s).
Definition set_disk (d : gmap string content) (s : profiler) : profiler :=
  mkProfiler (currentRun s) (rawProfile s) (symbolizedProfile s) (graphProfile s) (temporaryDirectory s) (prof_active s) d (now s) (timers s)
    (next_timer s) (dispatched s) (started s).
Definition set_timers (t : gmap nat Z) (s : profiler) : profiler :=
  mkProfiler (currentRun s) (rawProfile s) (symbolizedProfile s) (graphProfile s) (temporaryDirectory s) (prof_active s) (disk s) (now s) t
    (next_timer s) (dispatched s) (started s).
Definition set_dispatched (n : nat) (s : profiler) : profiler :=
  mkProfiler (currentRun s) (rawProfile s) (symbolizedProfile s) (graphProfile s) (temporaryDirectory s) (prof_active s) (disk s) (now s)
    (timers s) (next_timer s) n (started s).

(** [delay(duration, profiler, &stopAndGenerateRawProfile)]. *)
Definition delay (duration : Z) (s : profiler) : nat * profiler :=
  (next_timer s,
   mkProfiler (currentRun s) (rawProfile s) (symbolizedProfile s) (graphProfile s) (temporaryDirectory s) (prof_active s) (disk s) (now s)
     (<[next_timer s := now s + duration]> (timers s)) (S (next_timer s)) (dispatched s) (started s)).

(** [timer.timeout().remaining()], of a timer that is due at [d]. *)
Definition remaining (d : option Z) (s : profiler) : Z := match d with Some d => Z.max 0 (d - now s) | None => 0 end.

(** [ProfilingRun(profiler, id, duration)]. *)
Definition new_run (i duration : Z) (s : profiler) : profiler :=
  let '(t, s) := delay duration s in
  mkProfiler (Some (mkRun i t (length (started s)))) (rawProfile s) (symbolizedProfile s) (graphProfile s) (temporaryDirectory s)
    (prof_active s) (disk s) (now s) (timers s) (next_timer s) (dispatched s) (started s ++ [i]).

(** [currentRun->extend(profiler, duration)]: the remaining time of a timer that is not pending
    any more is 0. *)
Definition extend (r : ProfilingRun) (duration : Z) (s : profiler) : profiler :=
  let left := remaining (timers s !! timer r) s in
  let '(t, s) := delay (left + duration) (set_timers (delete (timer r) (timers s)) s) in
  set_run (Some (mkRun (run_id r) t (run_number r))) s.

(** ** Files *)

(** [getTemporaryDirectoryPath()]; [mkdtemp] is what [os::mkdtemp] returns. *)
Definition getTemporaryDirectoryPath (mkdtemp : Try string) (s : profiler) : Try string * profiler :=
  match temporaryDirectory s with
  | Some d => (Some_ d, s)
  | None => match mkdtemp with Some_ d => (Some_ d, set_directory (Some d) s) | Error m => (Error m, s) end
  end.

(** [DiskArtifact::create(filename, timestamp, generator)]; the generator writes the disk. *)
Definition create (mkdtemp : Try string) (filename : string) (timestamp : Z)
    (generator : string -> gmap string content -> Try unit * gmap string content) (s : profiler) : Try DiskArtifact * profiler :=
  match getTemporaryDirectoryPath mkdtemp s with
  | (Error m, s) => (Error ("Could not determine target path: " +:+ m), s)
  | (Some_ dir, s) =>
      let p := dir +:+ "/" +:+ filename in
      match generator p (disk s) with
      | (Error m, d) => (Error ("Failed to create artifact: " +:+ m), set_disk d s)
      | (Some_ _, d) => (Some_ (mkArtifact p timestamp), set_disk d s)
      end
  end.

(** The generator of a raw profile: a file of zeros is written and its size is looked at, then
    jemalloc dumps into it. *)
Definition dump_to (written : outcome) (size_ok : bool) (dump : outcome) (run : nat) (p : string) (d : gmap string content)
    : Try unit * gmap string content :=
  match write_file written p Zeros d with
  | (false, d) => (Error "os::write", d)
  | (true, d) =>
      if negb size_ok then (Error ("Couldn't verify integrity of dump file " +:+ p), d)
      else match write_file dump p (Dump run) d with
           | (false, d) => (Error "prof.dump", d)
           | (true, d) => (Some_ (), d)
           end
  end.

(** [generateJeprofFile(inputPath, options, outputPath)]: the shell opens the output file, and
    [jeprof] fails without an input file. *)
Definition generateJeprofFile (jeprof : outcome) (inputPath options outputPath : string) (d : gmap string content)
    : Try unit * gmap string content :=
  let '(ok, d') :=
    match d !! inputPath with
    | Some c => write_file jeprof outputPath (Jeprof options c) d
    | None => write_file (match jeprof with Unopened => Unopened | _ => Cut end) outputPath Partial d
    end in
  if ok : bool then (Some_ (), d') else (Error "Error trying to run jeprof.", d').

(** ** Endpoints *)

Inductive response :=
| BadRequest (message : string)
| Conflict (message : string)
| StartedRun (was_active : bool) (run : Z) (remaining_seconds : Z)
| StoppedRun (run : Z)
| Serves (p : string) (c : content).

(** [DiskArtifact::asHttp()]. *)
Definition asHttp (a : DiskArtifact) (s : profiler) : response :=
  match disk s !! path a with
  | Some c => Serves (path a) c
  | None => BadRequest "Requested file was deleted from local disk."
  end.

(** What the outside answers to an event: whether jemalloc's settings can be written and read,
    and what writes the files. *)
Record answers := mkAnswers {
  update_ok : bool;
  read_ok : bool;
  reread_ok : bool;
  written : outcome;
  size_ok : bool;
  dump : outcome;
  mkdtemp : Try string;
  jeprof : outcome;
}.

(** [stopAndGenerateRawProfile()].  The setting is off after it was switched off. *)
Definition stopAndGenerateRawProfile (e : answers) (s : profiler) : profiler :=
  match currentRun s with
  | None => s
  | Some r =>
      if negb (update_ok e) then extend r (5 * second) s
      else
        let stopped := prof_active s in
        let s := set_run None (set_timers (delete (timer r) (timers s)) (set_active false s)) in
        if negb stopped then s
        else
          let '(a, s) := create (mkdtemp e) RAW_PROFILE_FILENAME (run_id r) (dump_to (written e) (size_ok e) (dump e) (run_number r)) s in
          set_raw a s
  end.

Definition not_detected : response := BadRequest "The current binary doesn't seem to be linked against jemalloc".

(** [start(request)]: [detected] is [detectJemalloc()], [duration] what [Duration::parse] makes of the parameter and [wall] the
    system clock in seconds. *)
Definition start (detected : bool) (duration : option (Try Z)) (wall : Z) (e : answers) (s : profiler) : response * profiler :=
  if negb detected then (not_detected, s)
  else
  match default (Some_ DEFAULT_COLLECTION_TIME) duration with
  | Error m => (BadRequest ("Could not parse parameter 'duration': " +:+ m), s)
  | Some_ d =>
      if (d <? MINIMUM_COLLECTION_TIME) || (MAXIMUM_COLLECTION_TIME <? d)
      then (BadRequest "Duration must be between 1secs and 1days", s)
      else if negb (update_ok e) then (BadRequest "profiling couldn't be enabled", s)
      else
        let wasActive := prof_active s in
        let s := set_active true s in
        let s := if wasActive then s else new_run wall d s in
        match currentRun s with
        | None => (Conflict "Heap profiling was started externally.", s)
        | Some r => (StartedRun wasActive (run_id r) ((remaining (timers s !! timer r) s + second / 2) / second), s)
        end
  end.

(** [stop(request)]. *)
Definition stop (detected : bool) (e : answers) (s : profiler) : checked (response * profiler) :=
  if negb detected then Returns (not_detected, s)
  else if negb (read_ok e) then Returns (BadRequest "Error interfacing with jemalloc", s)
  else if bool_decide (currentRun s = None) && prof_active s then
    Returns (BadRequest "Profiling is active, but was not started by libprocess.", s)
  else
    let s := stopAndGenerateRawProfile e s in
    match rawProfile s with
    | Error m => Returns (BadRequest m, s)
    | Some_ a =>
        if reread_ok e && prof_active s then Abort "CHECK(stillActive.isError() || !stillActive.get())"
        else Returns (StoppedRun (id a), s)
    end.

(** The checks with which the downloads begin; [what] begins the message when there is no raw
    profile. *)
Definition check_download (what : string) (requestedId : result Z) (s : profiler) : DiskArtifact + response :=
  match requestedId, currentRun s with
  | FindError m, _ => inr (BadRequest ("Invalid parameter 'id': " +:+ m))
  | NotFound, Some _ => inr (BadRequest "A profiling run is currently in progress.")
  | _, _ =>
      match rawProfile s with
      | Error m => inr (BadRequest (what +:+ m))
      | Some_ a =>
          match requestedId with
          | Found i => if decide (i = id a) then inl a else inr (BadRequest "Cannot serve requested id #")
          | _ => inl a
          end
      end
  end.

(** [downloadRawProfile(request)]. *)
Definition downloadRawProfile (idParameter : option string) (s : profiler) : response :=
  match check_download "Cannot access raw profile: " (extractIdFromRequest idParameter) s with
  | inr r => r
  | inl a => asHttp a s
  end.

(** A profile that [jeprof] makes of the raw one, unless the one at hand has its identifier. *)
Definition generated (have : Try DiskArtifact) (filename options : string) (e : answers) (raw : DiskArtifact) (s : profiler)
    : Try DiskArtifact * profiler :=
  match have with
  | Some_ a =>
      if decide (id a = id raw) then (have, s)
      else create (mkdtemp e) filename (id raw) (generateJeprofFile (jeprof e) (path raw) options) s
  | Error _ => create (mkdtemp e) filename (id raw) (generateJeprofFile (jeprof e) (path raw) options) s
  end.

Definition serve_generated (a : Try DiskArtifact) (s : profiler) : response :=
  match a with Some_ a => asHttp a s | Error m => BadRequest ("Cannot generate file: " +:+ m) end.

(** [downloadSymbolizedProfile(request)], [downloadGraphProfile(request)]. *)
Definition downloadSymbolizedProfile (idParameter : option string) (e : answers) (s : profiler) : response * profiler :=
  match check_download "No source profile exists: " (extractIdFromRequest idParameter) s with
  | inr r => (r, s)
  | inl raw =>
      let '(a, s) := generated (symbolizedProfile s) SYMBOLIZED_PROFILE_FILENAME "--text" e raw s in
      (serve_generated a s, set_symbolized a s)
  end.
Definition downloadGraphProfile (idParameter : option string) (e : answers) (s : profiler) : response * profiler :=
  match check_download "No source profile exists: " (extractIdFromRequest idParameter) s with
  | inr r => (r, s)
  | inl raw =>
      let '(a, s) := generated (graphProfile s) GRAPH_FILENAME "--svg" e raw s in
      (serve_generated a s, set_graph a s)
  end.

(** ** Steps *)

Inductive action :=
| Start (duration : option (Try Z)) (wall : Z) (e : answers)
| Stop (e : answers)
| DownloadRaw (idParameter : option string)
| DownloadText (idParameter : option string) (e : answers)
| DownloadGraph (idParameter : option string) (e : answers)
| Dispatched (e : answers)              (* the call that a timer has put into the event queue *)
| Passes (d : Z)
| Fires (t : nat)
| Interferes (b : bool)                 (* somebody else sets [prof.active] *)
| Deletes (p : string).                 (* somebody else deletes a file *)

Definition answer (x : response * profiler) : option (checked (option response * profiler)) := Some (Returns (Some (fst x), snd x)).
Definition quietly (s : profiler) : option (checked (option response * profiler)) := Some (Returns (None, s)).

(** [None] is an action that cannot happen. *)
Definition exec (detected : bool) (a : action) (s : profiler) : option (checked (option response * profiler)) :=
  match a with
  | Start duration wall e => answer (start detected duration wall e s)
  | Stop e => Some (match stop detected e s with Returns x => Returns (Some (fst x), snd x) | Abort m => Abort m end)
  | DownloadRaw i => answer (downloadRawProfile i s, s)
  | DownloadText i e => answer (downloadSymbolizedProfile i e s)
  | DownloadGraph i e => answer (downloadGraphProfile i e s)
  | Dispatched e =>
      match dispatched s with
      | O => None
      | S n => quietly (stopAndGenerateRawProfile e (set_dispatched n s))
      end
  | Passes d =>
      if 0 <=? d then
        quietly (mkProfiler (currentRun s) (rawProfile s) (symbolizedProfile s) (graphProfile s) (temporaryDirectory s) (prof_active s)
          (disk s) (now s + d) (timers s) (next_timer s) (dispatched s) (started s))
      else None
  | Fires t =>
      match timers s !! t with
      | Some d => if d <=? now s then quietly (set_dispatched (S (dispatched s)) (set_timers (delete t (timers s)) s)) else None
      | None => None
      end
  | Interferes b => quietly (set_active b s)
  | Deletes p => quietly (set_disk (delete p (disk s)) s)
  end.
