(* ===== verification/MemoryProfilerSpec.v ===== *)
(** Properties of the memory profiler. *)

From Stdlib Require Import Ascii String.
From stdpp Require Import pretty.
From S2P Require Import Prelude Jwt Digits MemoryProfiler.

Local Open Scope string_scope.
Local Open Scope Z_scope.

(** ** Identifiers round-trip *)

(** The identifier of a run that an endpoint prints is the one that a download with it
    asks for, for every identifier that fits 64 bits. *)
Theorem id_roundtrip z : LLONG_MIN <= z <= LLONG_MAX -> extractIdFromRequest (Some (pretty z)) = Found z.
Proof.
  intros Hz. unfold extractIdFromRequest, strtoll. destruct z as [|p|p].
  - done.
  - destruct (pretty_N_digits (Npos p)) as (k & Hk & Hl & Hd & c & t & Hp & Hsp & Hm & Hpl).
    change (pretty (Z.pos p)) with (pretty (Npos p)). rewrite Hp in *. cbn [spaces]. rewrite Hsp, substring_whole.
    rewrite decide_False, decide_False by done. rewrite substring_whole, Hd. destruct (Nat.eqb_spec k 0); [lia|].
    cbn [N2Z.inj Z.of_N]. destruct (Z.ltb_spec (Z.pos p) LLONG_MIN); [lia|]. destruct (Z.ltb_spec LLONG_MAX (Z.pos p)); [lia|].
    rewrite Hl. cbn. by rewrite Nat.eqb_refl.
  - destruct (pretty_N_digits (Npos p)) as (k & Hk & Hl & Hd & _).
    change (pretty (Z.neg p)) with (String "-" (pretty (Npos p))). cbn [spaces]. replace (is_space "-") with false by done.
    rewrite substring_whole. rewrite decide_True by done. cbn [String.length String.substring]. rewrite substring_long by lia.
    rewrite Hd. destruct (Nat.eqb_spec k 0); [lia|]. cbn [Z.of_N]. change (- Z.pos p) with (Z.neg p).
    destruct (Z.ltb_spec (Z.neg p) LLONG_MIN); [lia|]. destruct (Z.ltb_spec LLONG_MAX (Z.neg p)); [lia|]. rewrite Hl.
    by rewrite Nat.eqb_refl.
Qed.

(** ** Files *)

Inductive reaches (detected : bool) : profiler -> Prop :=
| reaches_init : reaches detected profiler_init
| reaches_step a o s s' : reaches detected s -> exec detected a s = Some (Returns (o, s')) -> reaches detected s'.

(** A profile is a file of the directory, deleted or with what was made of the run that its
    identifier names. *)
Definition holds_file (have : Try DiskArtifact) (filename : string) (shape : nat -> content) (s : profiler) : Prop :=
  match have with
  | Error _ => True
  | Some_ a => exists dir n, temporaryDirectory s = Some dir /\ path a = dir +:+ "/" +:+ filename /\ started s !! n = Some (id a) /\
      (disk s !! path a = Some (shape n) \/ disk s !! path a = None)
  end.

Definition text_of (n : nat) : content := Jeprof "--text" (Dump n).
Definition graph_of (n : nat) : content := Jeprof "--svg" (Dump n).

Record files (s : profiler) : Prop := {
  raw_file : holds_file (rawProfile s) RAW_PROFILE_FILENAME Dump s;
  text_file : holds_file (symbolizedProfile s) SYMBOLIZED_PROFILE_FILENAME text_of s;
  graph_file : holds_file (graphProfile s) GRAPH_FILENAME graph_of s;
  run_file : forall r, currentRun s = Some r -> started s !! run_number r = Some (run_id r);
}.

(** Names of the directory differ when the names of the files do. *)
Lemma path_inj dir f g : dir +:+ "/" +:+ f = dir +:+ "/" +:+ g -> f = g.
Proof. intros H. apply (inj (String.append dir)) in H. by apply (inj (String.append "/")) in H. Qed.

(** A file is kept by what keeps the directory and the history and changes other files only. *)
Lemma holds_file_frame have f shape s s' :
  (forall dir, temporaryDirectory s = Some dir -> temporaryDirectory s' = Some dir) ->
  (forall n i, started s !! n = Some i -> started s' !! n = Some i) ->
  (forall dir, temporaryDirectory s = Some dir ->
     disk s' !! (dir +:+ "/" +:+ f) = disk s !! (dir +:+ "/" +:+ f) \/ disk s' !! (dir +:+ "/" +:+ f) = None) ->
  holds_file have f shape s -> holds_file have f shape s'.
Proof.
  intros Hd Hs Hk. destruct have as [a|m]; [|done]. intros (dir & n & Htd & Hp & Hn & Hc). exists dir, n.
  split_and!; [by apply Hd|done|by apply Hs|]. rewrite Hp in *. destruct (Hk dir Htd) as [E|E]; rewrite E; [done|by right].
Qed.

(** What a generator may write is the file it is given. *)
Definition writes_only (gen : string -> gmap string content -> Try unit * gmap string content) : Prop :=
  forall p d q, q <> p -> snd (gen p d) !! q = d !! q.
Lemma dump_writes_only w z u n : writes_only (dump_to w z u n).
Proof.
  intros p d q Hq. unfold dump_to, write_file. destruct w, z, u; cbn; rewrite ?lookup_insert_ne by congruence; done.
Qed.
Lemma jeprof_writes_only j i o : writes_only (generateJeprofFile j i o).
Proof.
  intros p d q Hq. unfold generateJeprofFile, write_file. destruct (d !! i), j; cbn; rewrite ?lookup_insert_ne by congruence; done.
Qed.

Lemma set_same s : set_disk (disk s) (set_directory (temporaryDirectory s) s) = s.
Proof. by destruct s. Qed.

(** What the creation of an artifact does. *)
Definition created (f : string) (ts : Z) (gen : string -> gmap string content -> Try unit * gmap string content) (s : profiler)
    (r : Try DiskArtifact * profiler) : Prop :=
  exists dir d, snd r = set_disk d (set_directory dir s) /\ (forall x, temporaryDirectory s = Some x -> dir = Some x) /\
    (forall x g, temporaryDirectory s = Some x -> g <> f -> d !! (x +:+ "/" +:+ g) = disk s !! (x +:+ "/" +:+ g)) /\
    match fst r with
    | Error _ => True
    | Some_ a => exists x, dir = Some x /\ a = mkArtifact (x +:+ "/" +:+ f) ts /\ gen (x +:+ "/" +:+ f) (disk s) = (Some_ (), d)
    end.

Lemma create_result mk f ts gen s : writes_only gen -> created f ts gen s (create mk f ts gen s).
Proof.
  intros Hw. unfold create, getTemporaryDirectoryPath.
  assert (Hcase : forall x, (forall y, temporaryDirectory s = Some y -> x = y) ->
    created f ts gen s (let p := x +:+ "/" +:+ f in
     match gen p (disk s) with
     | (Error m, d) => (Error ("Failed to create artifact: " +:+ m), set_disk d (set_directory (Some x) s))
     | (Some_ _, d) => (Some_ (mkArtifact p ts), set_disk d (set_directory (Some x) s))
     end)).
  { intros x Hx. cbn zeta. pose proof (Hw (x +:+ "/" +:+ f) (disk s)) as Hq.
    destruct (gen (x +:+ "/" +:+ f) (disk s)) as [[[]|m] d] eqn:Hgen; exists (Some x), d;
      (split_and!; [done|intros y Hy; by rewrite (Hx y Hy)| |]).
    1, 3: intros y g Hy Hne; rewrite <- (Hx y Hy); apply Hq; intros Heq; by apply path_inj in Heq.
    - by exists x.
    - done. }
  destruct (temporaryDirectory s) as [x|] eqn:Ht.
  - specialize (Hcase x ltac:(by intros y [= ->])). rewrite <- Ht in Hcase.
    replace (set_directory (temporaryDirectory s) s) with s in Hcase by (by destruct s). exact Hcase.
  - destruct mk as [x|m]; [by apply (Hcase x)|]. exists None, (disk s). rewrite <- Ht at 1. rewrite set_same.
    split_and!; [done|by rewrite Ht|done|done].
Qed.

(** A change that keeps the profiles, the directory and the disk, and the run or its end. *)
Lemma files_frame s s' :
  rawProfile s' = rawProfile s -> symbolizedProfile s' = symbolizedProfile s -> graphProfile s' = graphProfile s ->
  temporaryDirectory s' = temporaryDirectory s -> (forall p, disk s' !! p = disk s !! p \/ disk s' !! p = None) ->
  (forall n i, started s !! n = Some i -> started s' !! n = Some i) ->
  (forall r, currentRun s' = Some r -> started s' !! run_number r = Some (run_id r)) -> files s -> files s'.
Proof.
  intros Hr Hs Hg Ht Hd Hst Hrun [Fr Fs Fg _]. split; [| | |done].
  - rewrite Hr. eapply holds_file_frame, Fr; try rewrite Ht; eauto.
  - rewrite Hs. eapply holds_file_frame, Fs; try rewrite Ht; eauto.
  - rewrite Hg. eapply holds_file_frame, Fg; try rewrite Ht; eauto.
Qed.

(** A profile of another name is kept by the creation of an artifact. *)
Lemma created_frame f ts gen s a s' have g shape :
  created f ts gen s (a, s') -> g <> f -> holds_file have g shape s -> holds_file have g shape s'.
Proof.
  intros (dir & d & Hs & Hx & Hd & _) Hg. cbn in Hs. subst s'. apply holds_file_frame; cbn; [done|done|]. intros x Hxs. left. by apply Hd.
Qed.

(** The raw profile that is dumped is the one of the run. *)
Lemma dump_done w z u n p d d' : dump_to w z u n p d = (Some_ (), d') -> d' !! p = Some (Dump n).
Proof.
  unfold dump_to, write_file. destruct w; try done. destruct z; try done. cbn. destruct u; try done. intros [= <-]. by rewrite lookup_insert_eq.
Qed.
Lemma created_dump w z u n s a s' i :
  created RAW_PROFILE_FILENAME i (dump_to w z u n) s (a, s') -> started s !! n = Some i -> holds_file a RAW_PROFILE_FILENAME Dump s'.
Proof.
  intros (dir & d & Hs & _ & _ & Ha) Hn. cbn in Hs, Ha. subst s'. destruct a as [a|m]; [|done]. destruct Ha as (x & -> & -> & Hgen).
  exists x, n. cbn. split_and!; try done. left. by apply dump_done in Hgen.
Qed.

(** A profile that [jeprof] makes is one of the run of the raw profile. *)
Lemma jeprof_done j i o p d d' : generateJeprofFile j i o p d = (Some_ (), d') -> exists c, d !! i = Some c /\ d' !! p = Some (Jeprof o c).
Proof.
  unfold generateJeprofFile, write_file. destruct (d !! i) as [c|], j; cbn; try done. intros [= <-]. exists c. by rewrite lookup_insert_eq.
Qed.
Lemma generated_cases have f o e raw s a s' :
  generated have f o e raw s = (a, s') ->
  (a, s') = (have, s) \/ created f (id raw) (generateJeprofFile (jeprof e) (path raw) o) s (a, s').
Proof.
  unfold generated. intros Hgen.
  destruct have as [b|m]; [destruct (decide _)|]; [by left|right|right]; rewrite <- Hgen; apply create_result, jeprof_writes_only.
Qed.
Lemma generated_kept have f o e raw s a s' g shape' have' :
  generated have f o e raw s = (a, s') -> g <> f -> holds_file have' g shape' s -> holds_file have' g shape' s'.
Proof.
  intros Hgen Hg. destruct (generated_cases _ _ _ _ _ _ _ _ Hgen) as [[= -> ->]|Hc]; [done|]. by eapply created_frame.
Qed.
Lemma generated_file have f o e raw s a s' :
  generated have f o e raw s = (a, s') -> f <> RAW_PROFILE_FILENAME -> holds_file (Some_ raw) RAW_PROFILE_FILENAME Dump s ->
  holds_file have f (fun n => Jeprof o (Dump n)) s -> holds_file a f (fun n => Jeprof o (Dump n)) s'.
Proof.
  intros Hgen Hf Hraw Hhave. destruct (generated_cases _ _ _ _ _ _ _ _ Hgen) as [[= -> ->]|(dir & d & Hs & Hx & _ & Ha)]; [done|]. cbn in Hs, Ha. subst s'. destruct a as [a|m]; [|done].
  destruct Ha as (x & -> & -> & Hg). apply jeprof_done in Hg as (c & Hin & Hout).
  destruct Hraw as (dir & n & Ht & Hp & Hn & [Hc|Hc]); [|congruence]. exists x, n. cbn. split_and!; try done. left. congruence.
Qed.

Lemma run_started i d s r : files s -> currentRun (new_run i d s) = Some r -> started (new_run i d s) !! run_number r = Some (run_id r).
Proof. intros _ [= <-]. cbn. by rewrite lookup_app_r, Nat.sub_diag by lia. Qed.

Lemma stop_files e s : files s -> files (stopAndGenerateRawProfile e s).
Proof.
  intros HF. unfold stopAndGenerateRawProfile. destruct (currentRun s) as [r|] eqn:Hr; [|done]. pose proof (run_file s HF r Hr) as Hrun.
  destruct (update_ok e); cbn [negb].
  - set (s0 := set_run None _). assert (HF0 : files s0) by (apply (files_frame s); try done; by left). destruct (negb (prof_active s)); [done|].
    pose proof (create_result (mkdtemp e) RAW_PROFILE_FILENAME (run_id r) _ s0
      (dump_writes_only (written e) (size_ok e) (MemoryProfiler.dump e) (run_number r))) as Hc.
    destruct (create _ _ _ _ s0) as [a s1]. pose proof Hc as (dir & d & Hs1 & _). cbn in Hs1. destruct HF0 as [Fr Fs Fg _].
    split; subst s1; [by apply (created_dump _ _ _ _ s0 _ _ _ Hc)| | |done].
    + by apply (created_frame _ _ _ s0 _ _ _ SYMBOLIZED_PROFILE_FILENAME text_of Hc).
    + by apply (created_frame _ _ _ s0 _ _ _ GRAPH_FILENAME graph_of Hc).
  - apply (files_frame s); try done; [by left|]. by intros r' [= <-].
Qed.

Lemma start_files detected duration wall e s : files s -> files (snd (start detected duration wall e s)).
Proof.
  intros HF. unfold start. destruct detected; [|done]. cbn [negb]. destruct (default _ duration) as [d|m]; [|done].
  destruct (_ || _); [done|]. destruct (update_ok e); [|done]. cbn [negb].
  set (s0 := if prof_active s then _ else _). assert (HF0 : files s0).
  { subst s0. destruct (prof_active s); [by apply (files_frame s); try done; [left|apply (run_file s)]|].
    apply (files_frame s); try done; [by left| |by intros r Hr; apply run_started in Hr; [|apply (files_frame s); try done; [left|apply (run_file s)]]].
    intros n i Hn. cbn. by apply lookup_app_l_Some. }
  by destruct (currentRun s0).
Qed.

Lemma stop_endpoint_files detected e s x : files s -> stop detected e s = Returns x -> files (snd x).
Proof.
  intros HF. unfold stop. destruct detected; [|by intros [= <-]]. destruct (read_ok e); [|by intros [= <-]]. cbn [negb].
  destruct (_ && _); [by intros [= <-]|]. pose proof (stop_files e s HF) as HF'. destruct (rawProfile _); [|by intros [= <-]].
  destruct (_ && _); [done|]. by intros [= <-].
Qed.

Lemma checked_raw what i s raw : check_download what i s = inl raw -> rawProfile s = Some_ raw /\ forall want, i = Found want -> want = id raw.
Proof.
  unfold check_download. destruct i as [want| |m], (currentRun s), (rawProfile s) as [a|m']; try done; try destruct (decide _); try done;
    intros [= ->]; split; congruence.
Qed.

Lemma generated_same have f o e raw s a s1 :
  generated have f o e raw s = (a, s1) ->
  rawProfile s1 = rawProfile s /\ symbolizedProfile s1 = symbolizedProfile s /\ graphProfile s1 = graphProfile s /\
  (forall r, currentRun s1 = Some r -> started s1 !! run_number r = Some (run_id r)) = (forall r, currentRun s = Some r -> started s !! run_number r = Some (run_id r)).
Proof. intros Hgen. destruct (generated_cases _ _ _ _ _ _ _ _ Hgen) as [[= _ ->]|(dir & d & Hs & _)]; [done|]. cbn in Hs. by rewrite Hs. Qed.

Lemma text_files i e s : files s -> files (snd (downloadSymbolizedProfile i e s)).
Proof.
  intros [Fr Fs Fg Frun]. unfold downloadSymbolizedProfile. destruct (check_download _ _ s) as [raw|r] eqn:Hc; [|done].
  apply checked_raw in Hc as [Hraw _]. destruct (generated _ _ _ _ _ s) as [a s1] eqn:Hgen.
  destruct (generated_same _ _ _ _ _ _ _ _ Hgen) as (H1 & _ & H3 & H4).
  split; [change (holds_file (rawProfile s1) RAW_PROFILE_FILENAME Dump s1)|change (holds_file a SYMBOLIZED_PROFILE_FILENAME text_of s1)|
          change (holds_file (graphProfile s1) GRAPH_FILENAME graph_of s1)|cbn; by rewrite H4].
  - rewrite H1. by apply (generated_kept _ _ _ _ _ _ _ s1 RAW_PROFILE_FILENAME Dump _ Hgen).
  - rewrite Hraw in Fr. by apply (generated_file _ _ _ _ _ _ _ _ Hgen).
  - rewrite H3. by apply (generated_kept _ _ _ _ _ _ _ s1 GRAPH_FILENAME graph_of _ Hgen).
Qed.
Lemma graph_files i e s : files s -> files (snd (downloadGraphProfile i e s)).
Proof.
  intros [Fr Fs Fg Frun]. unfold downloadGraphProfile. destruct (check_download _ _ s) as [raw|r] eqn:Hc; [|done].
  apply checked_raw in Hc as [Hraw _]. destruct (generated _ _ _ _ _ s) as [a s1] eqn:Hgen.
  destruct (generated_same _ _ _ _ _ _ _ _ Hgen) as (H1 & H2 & _ & H4).
  split; [change (holds_file (rawProfile s1) RAW_PROFILE_FILENAME Dump s1)|
          change (holds_file (symbolizedProfile s1) SYMBOLIZED_PROFILE_FILENAME text_of s1)|
          change (holds_file a GRAPH_FILENAME graph_of s1)|cbn; by rewrite H4].
  - rewrite H1. by apply (generated_kept _ _ _ _ _ _ _ s1 RAW_PROFILE_FILENAME Dump _ Hgen).
  - rewrite H2. by apply (generated_kept _ _ _ _ _ _ _ s1 SYMBOLIZED_PROFILE_FILENAME text_of _ Hgen).
  - rewrite Hraw in Fr. by apply (generated_file _ _ _ _ _ _ _ _ Hgen).
Qed.

Lemma exec_files detected a s o s' : files s -> exec detected a s = Some (Returns (o, s')) -> files s'.
Proof.
  intros HF. destruct a as [duration wall e|e|i|i e|i e|e|d|t|b|p]; cbn [exec]; unfold answer, quietly.
  - intros [= _ <-]. by apply start_files.
  - destruct (stop detected e s) as [x|m] eqn:Hs; [|done]. intros [= _ <-]. by apply (stop_endpoint_files detected e s).
  - by intros [= _ <-].
  - intros [= _ <-]. by apply text_files.
  - intros [= _ <-]. by apply graph_files.
  - destruct (dispatched s) as [|n]; [done|]. intros [= _ <-]. apply stop_files.
    apply (files_frame s); try done; [by left|apply (run_file s HF)].
  - destruct (0 <=? d); [|done]. intros [= _ <-]. apply (files_frame s); try done; [by left|apply (run_file s HF)].
  - destruct (timers s !! t) as [d|]; [|done]. destruct (d <=? now s); [|done]. intros [= _ <-].
    apply (files_frame s); try done; [by left|apply (run_file s HF)].
  - intros [= _ <-]. apply (files_frame s); try done; [by left|apply (run_file s HF)].
  - intros [= _ <-]. apply (files_frame s); try done; [|apply (run_file s HF)]. intros q. cbn.
    destruct (decide (p = q)) as [->|Hne]; [right; by rewrite lookup_delete_eq|left; by rewrite lookup_delete_ne].
Qed.
Lemma reaches_files detected s : reaches detected s -> files s.
Proof. induction 1 as [|a o s s' _ IH He]; [by split|by apply (exec_files detected a s o)]. Qed.

(** The parameter of a download, and what it is to serve of the run [n]. *)
Definition download (a : action) : option (option string * (nat -> content)) :=
  match a with
  | DownloadRaw i => Some (i, Dump)
  | DownloadText i _ => Some (i, text_of)
  | DownloadGraph i _ => Some (i, graph_of)
  | _ => None
  end.

Lemma served have f shape s p c :
  holds_file have f shape s -> serve_generated have s = Serves p c ->
  exists a n, have = Some_ a /\ started s !! n = Some (id a) /\ c = shape n.
Proof.
  destruct have as [a|m]; [|done]. intros (dir & n & _ & _ & Hn & Hd). cbn. unfold asHttp. destruct Hd as [Hd|Hd]; rewrite Hd; [|done].
  intros [= _ <-]. by exists a, n.
Qed.

(** An artifact that was generated has the identifier of the raw profile. *)
Lemma generated_id have f o e raw s a s' : generated have f o e raw s = (Some_ a, s') -> id a = id raw.
Proof.
  unfold generated. intros Hgen.
  assert (Hc : forall mk gen, writes_only gen -> create mk f (id raw) gen s = (Some_ a, s') -> id a = id raw).
  { intros mk gen Hw Hcr. pose proof (create_result mk f (id raw) gen s Hw) as Hc. rewrite Hcr in Hc.
    destruct Hc as (dir & d & _ & _ & _ & x & _ & -> & _). done. }
  destruct have as [b|m]; [destruct (decide _) as [Hid|]; [by injection Hgen as -> _|]|];
    apply (Hc _ _ (jeprof_writes_only (jeprof e) (path raw) o) Hgen).
Qed.
Lemma generated_started have f o e raw s a s' : generated have f o e raw s = (a, s') -> started s' = started s.
Proof. intros Hgen. destruct (generated_cases _ _ _ _ _ _ _ _ Hgen) as [[= _ ->]|(dir & d & Hs & _)]; [done|]. cbn in Hs. by rewrite Hs. Qed.

(** What a download serves, be the identifiers distinct or not. *)
Lemma download_of_a_run detected s a i shape p c s' :
  files s -> download a = Some (i, shape) -> exec detected a s = Some (Returns (Some (Serves p c), s')) ->
  exists raw n, rawProfile s = Some_ raw /\ started s !! n = Some (id raw) /\ c = shape n /\
    forall want, extractIdFromRequest i = Found want -> want = id raw.
Proof.
  intros HF Hd He. destruct a; try done; injection Hd as -> <-; cbn [exec] in He; unfold answer in He; injection He as He _; cbn [fst] in He.
  - unfold downloadRawProfile in He. destruct (check_download _ _ s) as [raw|r] eqn:Hc; [|by subst r; unfold check_download in Hc; repeat case_match].
    apply checked_raw in Hc as [Hraw Hid]. pose proof (raw_file s HF) as Fr.
    destruct (served _ _ _ s p c Fr) as (b & n & Hb & Hn & Hcn); [by rewrite Hraw|]. exists raw, n. rewrite Hraw in Hb. injection Hb as <-. done.
  - pose proof (text_files i e s HF) as HF'. unfold downloadSymbolizedProfile in *.
    destruct (check_download _ _ s) as [raw|r] eqn:Hc; [|by cbn in He; subst r; unfold check_download in Hc; repeat case_match].
    apply checked_raw in Hc as [Hraw Hid]. destruct (generated _ _ _ _ _ s) as [a s1] eqn:Hgen.
    destruct (served a SYMBOLIZED_PROFILE_FILENAME text_of s1 p c (text_file _ HF') He) as (b & n & -> & Hn & Hcn).
    rewrite (generated_id _ _ _ _ _ _ _ _ Hgen), (generated_started _ _ _ _ _ _ _ _ Hgen) in Hn. by exists raw, n.
  - pose proof (graph_files i e s HF) as HF'. unfold downloadGraphProfile in *.
    destruct (check_download _ _ s) as [raw|r] eqn:Hc; [|by cbn in He; subst r; unfold check_download in Hc; repeat case_match].
    apply checked_raw in Hc as [Hraw Hid]. destruct (generated _ _ _ _ _ s) as [a s1] eqn:Hgen.
    destruct (served a GRAPH_FILENAME graph_of s1 p c (graph_file _ HF') He) as (b & n & -> & Hn & Hcn).
    rewrite (generated_id _ _ _ _ _ _ _ _ Hgen), (generated_started _ _ _ _ _ _ _ _ Hgen) in Hn. by exists raw, n.
Qed.

(** While no two runs were started in the same second, a download serves the profile of
    one run only, that of the identifier of the raw profile, and with an identifier in the
    request that of this identifier: a dump, a text or a graph that was cached is never the one
    of another run, whatever failed to be written and whichever files were deleted. *)
Theorem profile_downloads_are_genuine detected s a i shape p c s' :
  reaches detected s -> NoDup (started s) -> download a = Some (i, shape) -> exec detected a s = Some (Returns (Some (Serves p c), s')) ->
  exists raw n, rawProfile s = Some_ raw /\ started s !! n = Some (id raw) /\ c = shape n /\
    (forall m, started s !! m = Some (id raw) -> m = n) /\
    (forall want, extractIdFromRequest i = Found want -> started s !! n = Some want).
Proof.
  intros Hr Hnd Hd He. apply reaches_files in Hr as HF.
  destruct (download_of_a_run detected s a i shape p c s' HF Hd He) as (raw & n & Hraw & Hn & Hc & Hid).
  exists raw, n. split_and!; try done.
  - intros m Hm. by apply (NoDup_lookup (started s) m n (id raw)).
  - intros want Hw. by rewrite (Hid want Hw).
Qed.

(** ** Runs *)

(** While nobody else sets [prof.active], it is set exactly while a run is in progress; the run
    has its timer or a call of [stopAndGenerateRawProfile] in the queue, and no timer of another
    run is left. *)
Record runs (s : profiler) : Prop := {
  run_active : prof_active s = true <-> currentRun s <> None;
  run_timer : forall r, currentRun s = Some r -> is_Some (timers s !! timer r) \/ (0 < dispatched s)%nat;
  timer_run : forall t, is_Some (timers s !! t) -> exists r, currentRun s = Some r /\ timer r = t;
}.

Definition interferes (a : action) : Prop := match a with Interferes _ => True | _ => False end.
Inductive undisturbed (detected : bool) : profiler -> Prop :=
| undisturbed_init : undisturbed detected profiler_init
| undisturbed_step a o s s' :
    undisturbed detected s -> ~ interferes a -> exec detected a s = Some (Returns (o, s')) -> undisturbed detected s'.

Lemma runs_frame s s' :
  currentRun s' = currentRun s -> prof_active s' = prof_active s -> timers s' = timers s -> dispatched s' = dispatched s -> runs s -> runs s'.
Proof. intros H1 H2 H3 H4 [A B C]. split; rewrite ?H1, ?H2, ?H3, ?H4; done. Qed.

Lemma no_timers s r : runs s -> currentRun s = Some r -> forall t, ~ is_Some (delete (timer r) (timers s) !! t).
Proof.
  intros HR Hr t [d Ht]. apply lookup_delete_Some in Ht as [Hne Ht]. destruct (timer_run s HR t) as (r' & Hr' & Heq); [by eexists|]. congruence.
Qed.

Lemma extend_runs r d s : currentRun s = Some r -> prof_active s = true -> (forall t, ~ is_Some (delete (timer r) (timers s) !! t)) ->
  runs (extend r d s).
Proof.
  intros Hr Ha Hno. split; cbn.
  - split; [done|]. by intros _.
  - intros r' [= <-]. left. cbn. rewrite lookup_insert_eq. by eexists.
  - intros t Ht. destruct (decide (next_timer s = t)) as [<-|Hne]; [by eexists|]. rewrite lookup_insert_ne in Ht by done. by apply Hno in Ht.
Qed.

(** A call of [stopAndGenerateRawProfile], out of the queue or not. *)
Lemma stop_runs e s n : runs s -> runs (stopAndGenerateRawProfile e (set_dispatched n s)).
Proof.
  intros HR. unfold stopAndGenerateRawProfile. cbn [currentRun set_dispatched]. destruct (currentRun s) as [r|] eqn:Hr.
  - assert (Hact : prof_active s = true) by (apply (run_active s HR); by rewrite Hr).
    destruct (update_ok e); cbn [negb]; [|apply extend_runs; try done; by apply (no_timers s r)].
    set (s0 := set_run None _). assert (H0 : runs s0) by (split; cbn; [done|done|intros t Ht; by apply (no_timers s r) in Ht]).
    change (prof_active (set_dispatched n s)) with (prof_active s). rewrite Hact. cbn [negb].
    pose proof (create_result (mkdtemp e) RAW_PROFILE_FILENAME (run_id r) _ s0
      (dump_writes_only (written e) (size_ok e) (MemoryProfiler.dump e) (run_number r))) as (dir & d & Hs & _).
    destruct (create _ _ _ _ s0) as [a s1]. cbn in Hs. subst s1. by apply (runs_frame s0).
  - destruct HR as [A B C]. split; cbn; rewrite ?Hr in *; [done|done|]. intros t Ht. by destruct (C t Ht) as (r & ? & _).
Qed.

Lemma start_runs detected duration wall e s : runs s -> runs (snd (start detected duration wall e s)).
Proof.
  intros HR. unfold start. destruct detected; [|done]. cbn [negb]. destruct (default _ duration) as [d|m]; [|done].
  destruct (_ || _); [done|]. destruct (update_ok e); [|done]. cbn [negb].
  set (s0 := if prof_active s then _ else _). assert (HR0 : runs s0).
  { subst s0. destruct (prof_active s) eqn:Ha; [by apply (runs_frame s)|].
    assert (Hnone : currentRun s = None).
    { destruct (currentRun s) as [r|] eqn:Hr; [|done]. exfalso.
      assert (prof_active s = true) by (apply (run_active s HR); by rewrite Hr). congruence. }
    split; cbn; [done| |].
    - intros r [= <-]. left. cbn. rewrite lookup_insert_eq. by eexists.
    - intros t Ht. destruct (decide (next_timer s = t)) as [<-|Hne]; [by eexists|]. rewrite lookup_insert_ne in Ht by done.
      destruct (timer_run s HR t Ht) as (r & Hr & _). congruence. }
  by destruct (currentRun s0).
Qed.

Lemma stop_endpoint_runs detected e s x : runs s -> stop detected e s = Returns x -> runs (snd x).
Proof.
  intros HR. unfold stop. destruct detected; [|by intros [= <-]]. destruct (read_ok e); [|by intros [= <-]]. cbn [negb].
  destruct (_ && _); [by intros [= <-]|]. pose proof (stop_runs e s (dispatched s) HR) as HR'.
  replace (set_dispatched (dispatched s) s) with s in HR' by (by destruct s). destruct (rawProfile _); [|by intros [= <-]].
  destruct (_ && _); [done|]. by intros [= <-].
Qed.

Lemma generated_runs have f o e raw s a s' : generated have f o e raw s = (a, s') -> runs s -> runs s'.
Proof.
  intros Hgen. destruct (generated_cases _ _ _ _ _ _ _ _ Hgen) as [[= _ ->]|(dir & d & Hs & _)]; [done|]. cbn in Hs. subst s'. by apply runs_frame.
Qed.

Lemma exec_runs detected a s o s' : runs s -> ~ interferes a -> exec detected a s = Some (Returns (o, s')) -> runs s'.
Proof.
  intros HR Hi. destruct a as [duration wall e|e|i|i e|i e|e|d|t|b|p]; cbn [exec]; unfold answer, quietly.
  - intros [= _ <-]. by apply start_runs.
  - destruct (stop detected e s) as [x|m] eqn:Hs; [|done]. intros [= _ <-]. by apply (stop_endpoint_runs detected e s).
  - by intros [= _ <-].
  - intros [= _ <-]. unfold downloadSymbolizedProfile. destruct (check_download _ _ s); [|done].
    destruct (generated _ _ _ _ _ s) as [a s1] eqn:Hgen. apply generated_runs in Hgen; [|done]. by apply (runs_frame s1).
  - intros [= _ <-]. unfold downloadGraphProfile. destruct (check_download _ _ s); [|done].
    destruct (generated _ _ _ _ _ s) as [a s1] eqn:Hgen. apply generated_runs in Hgen; [|done]. by apply (runs_frame s1).
  - destruct (dispatched s) as [|n]; [done|]. intros [= _ <-]. by apply stop_runs.
  - destruct (0 <=? d); [|done]. intros [= _ <-]. by apply (runs_frame s).
  - destruct (timers s !! t) as [d|] eqn:Ht; [|done]. destruct (d <=? now s); [|done]. intros [= _ <-]. destruct HR as [A B C].
    split; cbn; [done|right; lia|]. intros t' [d' Ht']. apply lookup_delete_Some in Ht' as [Hne Ht']. apply C. by eexists.
  - by destruct Hi.
  - intros [= _ <-]. by apply (runs_frame s).
Qed.
Lemma undisturbed_runs detected s : undisturbed detected s -> runs s.
Proof.
  induction 1 as [|a o s s' _ IH Hi He]; [|by apply (exec_runs detected a s o)]. split; cbn; [by split|done|].
  intros t [d Ht]. by rewrite lookup_empty in Ht.
Qed.

(** A sequence of steps. *)
Inductive steps (detected : bool) : list action -> profiler -> profiler -> Prop :=
| steps_nil s : steps detected [] s s
| steps_cons a l o s s1 s2 : exec detected a s = Some (Returns (o, s1)) -> steps detected l s1 s2 -> steps detected (a :: l) s s2.

(** A call of [stopAndGenerateRawProfile] with which jemalloc can be switched off ends the run. *)
Lemma stop_ends e s : update_ok e = true -> runs s ->
  let s' := stopAndGenerateRawProfile e (set_dispatched (pred (dispatched s)) s) in
  currentRun s' = None /\ prof_active s' = false /\ timers s' = ∅.
Proof.
  intros He HR. pose proof (stop_runs e s (pred (dispatched s)) HR) as HR'. cbn zeta. set (s' := stopAndGenerateRawProfile _ _) in *.
  assert (Hn : currentRun s' = None).
  { subst s'. unfold stopAndGenerateRawProfile. cbn [currentRun set_dispatched]. destruct (currentRun s) as [r|] eqn:Hr; [|done].
    rewrite He. cbn [negb]. destruct (negb _); [done|].
    pose proof (create_result (mkdtemp e) RAW_PROFILE_FILENAME (run_id r) _ (set_run None (set_timers (delete (timer r) (timers s)) (set_active false (set_dispatched (pred (dispatched s)) s))))
      (dump_writes_only (written e) (size_ok e) (MemoryProfiler.dump e) (run_number r))) as (dir & d & Hs & _).
    cbn [timers set_dispatched] in *. destruct (create _ _ _ _ _) as [a s1]. cbn in Hs. by subst s1. }
  split_and!; [done| |].
  - destruct (prof_active s') eqn:Ha; [|done]. by apply (run_active s' HR') in Ha.
  - apply map_empty. intros t. destruct (timers s' !! t) as [d|] eqn:Ht; [|done]. destruct (timer_run s' HR' t) as (r & Hr & _); [by eexists|]. congruence.
Qed.

(** A run that is in progress ends without anybody's request, however often jemalloc could
    not be switched off before: its timer is pending, or the call that it has made is in the
    queue, and time that passes, the timer and a call that can switch jemalloc off end it,
    with profiling off and no timer left. *)
Theorem profiling_run_ends detected s e :
  undisturbed detected s -> prof_active s = true -> update_ok e = true ->
  exists l s', steps detected l s s' /\ Forall (fun a => match a with Passes _ | Fires _ | Dispatched _ => True | _ => False end) l /\
    currentRun s' = None /\ prof_active s' = false /\ timers s' = ∅.
Proof.
  intros Hu Ha He. apply undisturbed_runs in Hu as HR. destruct (currentRun s) as [r|] eqn:Hr; [|by apply (run_active s HR) in Ha].
  assert (Hq : forall s1, runs s1 -> (0 < dispatched s1)%nat -> exists s', steps detected [Dispatched e] s1 s' /\
    currentRun s' = None /\ prof_active s' = false /\ timers s' = ∅).
  { intros s1 HR1 Hd. eexists. split; [|apply (stop_ends e s1 He HR1)]. eapply steps_cons; [|apply steps_nil].
    cbn [exec]. by destruct (dispatched s1) as [|n]; [lia|]. }
  destruct (run_timer s HR r Hr) as [[d Ht]|Hd].
  - set (s1 := mkProfiler (currentRun s) (rawProfile s) (symbolizedProfile s) (graphProfile s) (temporaryDirectory s) (prof_active s)
      (disk s) (now s + Z.max 0 (d - now s)) (timers s) (next_timer s) (dispatched s) (started s)).
    assert (H1 : exec detected (Passes (Z.max 0 (d - now s))) s = Some (Returns (None, s1))) by (cbn [exec]; by rewrite (proj2 (Z.leb_le _ _)) by lia).
    set (s2 := set_dispatched (S (dispatched s1)) (set_timers (delete (timer r) (timers s1)) s1)).
    assert (H2 : exec detected (Fires (timer r)) s1 = Some (Returns (None, s2))).
    { cbn [exec timers s1]. rewrite Ht. cbn [now s1]. by rewrite (proj2 (Z.leb_le _ _)) by lia. }
    assert (HR2 : runs s2) by (eapply exec_runs, H2; [eapply exec_runs, H1; [done|by intros []]|by intros []]).
    destruct (Hq s2 HR2) as (s' & Hs & Hend); [cbn; lia|].
    exists [Passes (Z.max 0 (d - now s)); Fires (timer r); Dispatched e], s'. split_and!; [|by repeat constructor|apply Hend..].
    eapply steps_cons; [done|]. by eapply steps_cons.
  - destruct (Hq s HR Hd) as (s' & Hs & Hend). exists [Dispatched e], s'. split_and!; [done|by repeat constructor|apply Hend..].
Qed.

(** C34: the [CHECK] of the stop endpoint fails exactly when a run is in progress that jemalloc
    does not let stop, while an earlier run has left a profile and jemalloc still tells that
    profiling is on: the process aborts then, and in no other case. *)
Theorem stop_aborts_exactly detected e s :
  (exists m, exec detected (Stop e) s = Some (Abort m)) <->
  detected = true /\ read_ok e = true /\ reread_ok e = true /\ update_ok e = false /\ prof_active s = true /\ currentRun s <> None /\
  exists a, rawProfile s = Some_ a.
Proof.
  cbn [exec]. unfold stop. destruct detected; [|split; [by intros [m Hm]|by intros [? _]]]. cbn [negb].
  destruct (read_ok e); [|split; [by intros [m Hm]|by intros (_ & ? & _)]]. cbn [negb].
  destruct (currentRun s) as [r|] eqn:Hr.
  - cbn [bool_decide decide decide_rel andb]. unfold stopAndGenerateRawProfile. rewrite Hr. destruct (update_ok e); cbn [negb].
    + split; [|by intros (_ & _ & _ & ? & _)]. intros [m Hm]. exfalso. revert Hm. set (s0 := set_run None _).
      assert (Hp : prof_active s0 = false) by done. destruct (negb (prof_active s)).
      * rewrite Hp, andb_false_r. by destruct (rawProfile s0).
      * pose proof (create_result (mkdtemp e) RAW_PROFILE_FILENAME (run_id r) _ s0
          (dump_writes_only (written e) (size_ok e) (MemoryProfiler.dump e) (run_number r))) as (dir & d & Hs & _).
        destruct (create _ _ _ _ s0) as [a s1]. cbn in Hs. subst s1. cbn [rawProfile set_raw]. destruct a; [|done].
        by rewrite andb_false_r.
    + change (rawProfile (extend r (5 * second) s)) with (rawProfile s). change (prof_active (extend r (5 * second) s)) with (prof_active s).
      destruct (rawProfile s) as [a|m']; [|split; [by intros [m Hm]|by intros (_ & _ & _ & _ & _ & _ & a & ?)]].
      destruct (reread_ok e), (prof_active s); cbn; split; try (by intros [m Hm]); try (by intros (_ & _ & ? & _ & ? & _)).
      * intros _. split_and!; try done. by exists a.
      * intros _. by eexists.
  - split; [|by intros (_ & _ & _ & _ & _ & [] & _)]. rewrite bool_decide_eq_true_2 by done. cbn [andb].
    destruct (prof_active s) eqn:Ha; [by intros [m Hm]|]. unfold stopAndGenerateRawProfile. rewrite Hr, Ha, andb_false_r.
    destruct (rawProfile s); by intros [m Hm].
Qed.

(** Concrete runs of the memory profiler: the theorems apply to them, and what goes wrong when
    two runs start in the same second, when a timer is late, or when jemalloc fails. *)

Local Open Scope string_scope.
Local Open Scope Z_scope.

(** Everything works; and jemalloc's setting cannot be written. *)
Definition works : answers := mkAnswers true true true Done true Done (Some_ "/tmp/d") Done.
Definition stuck : answers := mkAnswers false true true Done true Done (Some_ "/tmp/d") Done.

(** The state after actions, and the last response. *)
Fixpoint play (l : list action) (s : profiler) : option (profiler * list (option response)) :=
  match l with
  | [] => Some (s, [])
  | a :: l =>
      match exec true a s with
      | Some (Returns (o, s)) => match play l s with Some (s, os) => Some (s, o :: os) | None => None end
      | _ => None
      end
  end.
Lemma play_reaches l s s' os : reaches true s -> play l s = Some (s', os) -> reaches true s'.
Proof.
  revert s os. induction l as [|a l IH]; intros s os Hr; cbn [play]; [by intros [= <- _]|].
  destruct (exec true a s) as [[[o s1]|m]|] eqn:He; try done. destruct (play l s1) as [[s2 os2]|] eqn:Hp; [|done]. intros [= <- _].
  apply (IH s1 os2); [by eapply reaches_step|done].
Qed.
Lemma play_undisturbed l s s' os : undisturbed true s -> Forall (fun a => ~ interferes a) l -> play l s = Some (s', os) -> undisturbed true s'.
Proof.
  revert s os. induction l as [|a l IH]; intros s os Hr HF; cbn [play]; [by intros [= <- _]|]. apply Forall_cons in HF as [Ha HF].
  destruct (exec true a s) as [[[o s1]|m]|] eqn:He; try done. destruct (play l s1) as [[s2 os2]|] eqn:Hp; [|done]. intros [= <- _].
  apply (IH s1 os2); [by eapply undisturbed_step|done|done].
Qed.
Definition after (l : list action) : profiler := match play l profiler_init with Some (s, _) => s | None => profiler_init end.
Definition answered (l : list action) : list (option response) := match play l profiler_init with Some (_, os) => os | None => [] end.

Lemma id_roundtrip_witness : extractIdFromRequest (Some (pretty (-1700000000)%Z)) = Found (-1700000000).
Proof. apply id_roundtrip. vm_compute. split; discriminate. Defined.

(** A run of a minute that ends by its timer, a second one that is stopped, and the text of the
    second. *)
Definition minute : Z := 60 * second.
Definition two_runs : list action :=
  [Start (Some (Some_ minute)) 1700000000 works; Passes minute; Fires 0; Dispatched works; DownloadText None works;
   Start None 1700000100 works; Stop works].
Example two_runs_answers :
  answered (two_runs ++ [DownloadText (Some "1700000100") works; DownloadRaw (Some "1700000000")]) =
  [Some (StartedRun false 1700000000 60); None; None; None; Some (Serves "/tmp/d/symbolized-profile.dump" (text_of 0));
   Some (StartedRun false 1700000100 300); Some (StoppedRun 1700000100);
   Some (Serves "/tmp/d/symbolized-profile.dump" (text_of 1)); Some (BadRequest "Cannot serve requested id #")].
Proof. vm_compute. reflexivity. Qed.

Lemma profile_downloads_are_genuine_witness :
  exists raw n, rawProfile (after two_runs) = Some_ raw /\ started (after two_runs) !! n = Some (id raw) /\ text_of 1 = text_of n /\
    (forall m, started (after two_runs) !! m = Some (id raw) -> m = n) /\
    (forall want, extractIdFromRequest (Some "1700000100") = Found want -> started (after two_runs) !! n = Some want).
Proof.
  eapply (profile_downloads_are_genuine true (after two_runs) (DownloadText (Some "1700000100") works) (Some "1700000100") text_of
    "/tmp/d/symbolized-profile.dump" (text_of 1) _).
  - eapply (play_reaches two_runs); [apply reaches_init|vm_compute; reflexivity].
  - apply (bool_decide_unpack _). vm_compute. exact I.
  - reflexivity.
  - vm_compute. reflexivity.
Defined.

(** A run whose end has failed once: it was extended. *)
Definition extended_run : list action := [Start (Some (Some_ minute)) 1700000000 works; Passes minute; Fires 0; Dispatched stuck].
Lemma profiling_run_ends_witness :
  exists l s', steps true l (after extended_run) s' /\
    Forall (fun a => match a with Passes _ | Fires _ | Dispatched _ => True | _ => False end) l /\
    currentRun s' = None /\ prof_active s' = false /\ timers s' = ∅.
Proof.
  apply (profiling_run_ends true (after extended_run) works).
  - eapply (play_undisturbed extended_run); [apply undisturbed_init| |vm_compute; reflexivity].
    repeat (apply Forall_cons; split; [intros []|]). apply Forall_nil, I.
  - vm_compute. reflexivity.
  - reflexivity.
Defined.

(** The process aborts: a profile of a first run exists, and the second cannot be stopped. *)
Example stop_aborts : exec true (Stop stuck) (after (two_runs ++ [Start None 1700000200 works])) =
  Some (Abort "CHECK(stillActive.isError() || !stillActive.get())").
Proof. vm_compute. reflexivity. Qed.

(** Two runs that start in the same second: the text of the first is served as the text of
    the second. *)
Example same_second_serves_stale :
  answered [Start None 1700000000 works; Stop works; DownloadText None works; Start None 1700000000 works; Stop works;
            DownloadText (Some "1700000000") works; DownloadRaw (Some "1700000000")] =
  [Some (StartedRun false 1700000000 300); Some (StoppedRun 1700000000); Some (Serves "/tmp/d/symbolized-profile.dump" (text_of 0));
   Some (StartedRun false 1700000000 300); Some (StoppedRun 1700000000); Some (Serves "/tmp/d/symbolized-profile.dump" (text_of 0));
   Some (Serves "/tmp/d/profile.dump" (Dump 1))].
Proof. vm_compute. reflexivity. Qed.

(** The call of a timer that waits in the queue while its run is stopped and another is started
    ends the other run at once. *)
Example late_call_ends_next_run :
  currentRun (after [Start (Some (Some_ minute)) 1700000000 works; Passes minute; Fires 0; Stop works; Start None 1700000061 works; Dispatched works])
  = None.
Proof. vm_compute. reflexivity. Qed.

(** Somebody else switches profiling off: the next run begins without the timer of the first
    being cancelled, and is ended by it. *)
Example old_timer_ends_next_run :
  currentRun (after [Start (Some (Some_ minute)) 1700000000 works; Interferes false; Start None 1700000030 works; Passes minute; Fires 0;
                     Dispatched works]) = None.
Proof. vm_compute. reflexivity. Qed.

(** An empty [id] is the identifier 0. *)
Example empty_id : extractIdFromRequest (Some "") = Found 0.
Proof. vm_compute. reflexivity. Qed.
