(* ===== verification/Pid.v ===== *)
(** Names of processes ([pid.hpp], [pid.cpp], [address.hpp], [id.hpp], and [ID::generate] of
    [process.cpp]): how they are printed, parsed, ordered and made.

    Addresses are those of stout: [net::IP], its text and its order are an interface, with what
    the code relies on as laws.  [resolve], which caches a pointer to the process, is part of the
    process manager. *)

From Stdlib Require Import Ascii String.
From stdpp Require Import pretty.
From S2P Require Import Prelude Digits.

Local Open Scope string_scope.
Local Open Scope Z_scope.

Fixpoint all_chars (P : ascii -> bool) (s : string) : bool :=
  match s with EmptyString => true | String c s => P c && all_chars P s end.

(** A character of the text of an IPv4 address: none that separates the parts of a name. *)
Definition plain (c : ascii) : bool := negb (is_space c) && bool_decide (c <> "@"%char) && bool_decide (c <> ":"%char).

(** [net::IP]. *)
Class IpAddresses := {
  IP : Type;
  IP_eq_dec :: EqDecision IP;
  ANY : IP;                              (* [INADDR_ANY] *)
  isV4 : IP -> bool;
  IP_ltb : IP -> IP -> bool;
  IP_text : IP -> string;
  IP_parse : string -> Try IP;           (* [net::IP::parse(s, AF_INET)] *)
  IP_roundtrip : forall i, isV4 i = true -> IP_parse (IP_text i) = Some_ i /\ all_chars plain (IP_text i) = true;
  IP_irreflexive : forall i, IP_ltb i i = false;
  IP_transitive : forall i j k, IP_ltb i j = true -> IP_ltb j k = true -> IP_ltb i k = true;
  IP_total : forall i j, i = j \/ IP_ltb i j = true \/ IP_ltb j i = true;
}.

Section Pid.
Context `{IpAddresses}.

(** [network::inet::Address] and [UPID]. *)
Record Address := mkAddress { ip : IP; port : Z }.
Record UPID := mkUPID { id : string; address : Address; host : option string }.

#[global] Instance Address_eq_dec : EqDecision Address.
Proof. solve_decision. Defined.

Definition Address_eqb (a b : Address) : bool := bool_decide (ip a = ip b) && (port a =? port b).
Definition Address_ltb (a b : Address) : bool := if decide (ip a = ip b) then port a <? port b else IP_ltb (ip a) (ip b).
Definition UPID_eqb (p q : UPID) : bool := bool_decide (id p = id q) && Address_eqb (address p) (address q).
Definition UPID_ltb (p q : UPID) : bool :=
  if Address_eqb (address p) (address q) then String.ltb (id p) (id q) else Address_ltb (address p) (address q).

(** [UPID::operator bool] and [UPID::operator!]. *)
Definition UPID_bool (p : UPID) : bool := bool_decide (id p <> "") && bool_decide (ip (address p) <> ANY) && bool_decide (port (address p) <> 0).
Definition UPID_not (p : UPID) : bool := bool_decide (id p = "") && bool_decide (ip (address p) = ANY) && bool_decide (port (address p) = 0).

(** [UPID()]. *)
Definition UPID_default : UPID := mkUPID "" (mkAddress ANY 0) None.

(** [PID<T>::operator PID<Base>]. *)
Definition upcast (p : UPID) : UPID := mkUPID (id p) (address p) (host UPID_default).

(** ** Printing *)

Definition Address_text (a : Address) : string := IP_text (ip a) +:+ ":" +:+ pretty (port a).
Definition UPID_text (p : UPID) : string := id p +:+ "@" +:+ Address_text (address p).

(** ** Parsing *)

(** [stream >> str]: the next word. *)
Fixpoint skip_spaces (s : string) : string :=
  match s with String c s' => if is_space c then skip_spaces s' else s | EmptyString => EmptyString end.
Fixpoint to_space (s : string) : string :=
  match s with String c s' => if is_space c then EmptyString else String c (to_space s') | EmptyString => EmptyString end.
Definition word (s : string) : string := to_space (skip_spaces s).

(** [str.find(c)], and [str.substr] before and after what was found. *)
Fixpoint cut (c : ascii) (s : string) : option (string * string) :=
  match s with
  | EmptyString => None
  | String c' s' =>
      if decide (c' = c) then Some ("", s')
      else match cut c s' with Some (before, behind) => Some (String c' before, behind) | None => None end
  end.

(** [sscanf(str, "%hu", &port) == 1]: a number is read like [strtoul] does, and cut to 16 bits. *)
Definition ULONG_MAX : Z := 2 ^ 64 - 1.
Definition sscanf_hu (s : string) : option Z :=
  let s := skip_spaces s in
  let '(negative, s) :=
    match s with
    | String c s' => if decide (c = "-"%char) then (true, s') else if decide (c = "+"%char) then (false, s') else (false, s)
    | EmptyString => (false, s)
    end in
  let '(n, read) := digits 0 0 s in
  if (read =? 0)%nat then None
  else Some ((if ULONG_MAX <? n then ULONG_MAX else if negative : bool then - n else n) mod 2 ^ 16).

(** [operator>>(stream, pid)], on the text of the stream: whether the stream is good, and the
    name.  [getIP] is [net::getIP(host, AF_INET)]. *)
Definition read_pid (getIP : string -> Try IP) (text : string) (pid : UPID) : bool * UPID :=
  let pid := mkUPID "" (mkAddress ANY 0) (host pid) in
  let str := word text in
  if decide (str = "") then (false, pid)
  else
    match cut "@" str with
    | None => (false, pid)
    | Some (i, str) =>
        match cut ":" str with
        | None => (false, pid)
        | Some (h, str) =>
            let '(found, pid) :=
              match IP_parse h with
              | Some_ a => (Some_ a, pid)
              | Error _ => (getIP h, mkUPID (id pid) (address pid) (Some h))
              end in
            match found with
            | Error _ => (false, pid)
            | Some_ a =>
                match sscanf_hu str with
                | None => (false, pid)
                | Some p => (true, mkUPID i (mkAddress a p) (host pid))
                end
            end
        end
    end.

(** [UPID(s)]. *)
Definition UPID_of_string (getIP : string -> Try IP) (s : string) : UPID := snd (read_pid getIP s UPID_default).

End Pid.

(** ** Generated names *)

Definition INT_MAX : Z := 2 ^ 31 - 1.

(** [ID::generate(prefix)], of the counters of the prefixes: [None] when [int] overflows. *)
Definition generate (prefix : string) (prefixes : gmap string Z) : option (string * gmap string Z) :=
  let i := default 0 (prefixes !! prefix) + 1 in
  if INT_MAX <? i then None else Some (prefix +:+ "(" +:+ pretty i +:+ ")", <[prefix := i]> prefixes).
Fixpoint generate_all (l : list string) (prefixes : gmap string Z) : option (list string) :=
  match l with
  | [] => Some []
  | p :: l =>
      match generate p prefixes with
      | Some (name, prefixes) => match generate_all l prefixes with Some names => Some (name :: names) | None => None end
      | None => None
      end
  end.

(** Properties of the names of processes. *)

Local Open Scope string_scope.
Local Open Scope Z_scope.

(** ** Characters *)

Lemma app_cons c s t : String c s +:+ t = String c (s +:+ t).
Proof. reflexivity. Qed.
Lemma all_chars_app P s t : all_chars P (s +:+ t) = all_chars P s && all_chars P t.
Proof. induction s as [|c s IH]; [done|]. rewrite app_cons. cbn [all_chars]. by rewrite IH, andb_assoc. Qed.
Lemma all_chars_mono (P Q : ascii -> bool) s : (forall c, P c = true -> Q c = true) -> all_chars P s = true -> all_chars Q s = true.
Proof. intros HPQ. induction s as [|c s IH]; cbn; [done|]. intros [Hc Hs]%andb_true_iff. by rewrite (HPQ c Hc), IH. Qed.

(** A number is printed with digits. *)
Definition is_digit (c : ascii) : bool := bool_decide (digit c <> None).
Lemma printed_go_digits x s : all_chars is_digit s = true -> all_chars is_digit (pretty_N_go x s) = true.
Proof.
  revert s. induction x as [x IH] using (well_founded_induction N.lt_wf_0). intros s Hs. destruct (decide (x = 0)%N) as [->|Hx].
  - by rewrite pretty_N_go_0.
  - rewrite pretty_N_go_step by lia. apply IH; [apply N.div_lt; lia|]. cbn. rewrite Hs, andb_true_r. unfold is_digit.
    rewrite digit_pretty by (apply N.mod_lt; lia). done.
Qed.
Lemma printed_digits (n : N) : all_chars is_digit (pretty n : string) = true.
Proof. unfold pretty, pretty_N. destruct (decide (n = 0)%N); [done|]. by apply printed_go_digits. Qed.
Lemma pretty_nonneg (z : Z) : 0 <= z -> pretty z = pretty (Z.to_N z).
Proof. by destruct z as [|p|p]; [|..|lia]. Qed.
Lemma pretty_Z_digits (z : Z) : 0 <= z -> all_chars is_digit (pretty z : string) = true.
Proof. intros Hz. rewrite pretty_nonneg by done. apply printed_digits. Qed.

Lemma is_digit_bounds c : is_digit c = true -> (48 <= nat_of_ascii c <= 57)%nat.
Proof.
  unfold is_digit, digit. destruct (_ && _) eqn:Hb; [|by rewrite bool_decide_eq_false_2 by tauto]. intros _.
  apply andb_true_iff in Hb as [?%Nat.leb_le ?%Nat.leb_le]. lia.
Qed.
Lemma is_digit_not c (k : ascii) : is_digit c = true -> ~ (48 <= nat_of_ascii k <= 57)%nat -> bool_decide (c <> k) = true.
Proof. intros Hd Hk. apply bool_decide_eq_true. intros ->. by apply is_digit_bounds in Hd. Qed.
Lemma is_digit_nonspace c : is_digit c = true -> negb (is_space c) = true.
Proof.
  intros Hd%is_digit_bounds. unfold is_space. destruct (Nat.eqb_spec (nat_of_ascii c) 32); [lia|].
  destruct (Nat.leb_spec 9 (nat_of_ascii c)), (Nat.leb_spec (nat_of_ascii c) 13); cbn; done || lia.
Qed.

(** ** Words and parts *)

Definition nonspace (c : ascii) : bool := negb (is_space c).
Definition other (k c : ascii) : bool := bool_decide (c <> k).

Lemma word_nonspace s : all_chars nonspace s = true -> word s = s.
Proof.
  intros Hs. unfold word. assert (Hskip : skip_spaces s = s).
  { destruct s as [|c s]; [done|]. cbn in *. apply andb_true_iff in Hs as [Hc _]. unfold nonspace in Hc. by destruct (is_space c). }
  rewrite Hskip. clear Hskip. induction s as [|c s IH]; cbn in *; [done|]. apply andb_true_iff in Hs as [Hc Hs]. unfold nonspace in Hc.
  destruct (is_space c); [done|]. by rewrite IH.
Qed.

Lemma cut_spec k s before behind :
  cut k s = Some (before, behind) <-> s = before +:+ String k behind /\ all_chars (other k) before = true.
Proof.
  revert before. induction s as [|c s IH]; intros before; cbn.
  - split; [done|]. intros [Heq _]. by destruct before.
  - destruct (decide (c = k)) as [->|Hne].
    + split; [by intros [= <- <-]|]. intros [Heq Ha]. destruct before as [|c' before]; [by injection Heq as ->|].
      rewrite app_cons in Heq. injection Heq as <- _. cbn in Ha. unfold other in Ha. by rewrite bool_decide_eq_false_2 in Ha by tauto.
    + split.
      * destruct (cut k s) as [[b h]|] eqn:Hc; [|done]. intros [= <- <-]. destruct (proj1 (IH b) eq_refl) as [-> Ha]. split; [done|]. cbn.
        unfold other at 1. by rewrite bool_decide_eq_true_2.
      * intros [Heq Ha]. destruct before as [|c' before]; [by injection Heq as ->|].
        rewrite app_cons in Heq. injection Heq as <- ->. cbn in Ha.
        apply andb_true_iff in Ha as [_ Ha]. destruct (IH before) as [_ Hb]. by rewrite Hb.
Qed.

(** A port that was printed is read. *)
Lemma sscanf_pretty n : 0 <= n < 2 ^ 16 -> sscanf_hu (pretty n) = Some n.
Proof.
  intros Hn. rewrite pretty_nonneg by lia. destruct (pretty_N_digits (Z.to_N n)) as (k & Hk & _ & Hd & c & t & Hp & Hsp & Hm & Hpl).
  unfold sscanf_hu. rewrite Hp in *. cbn [skip_spaces]. rewrite Hsp, decide_False, decide_False by done. rewrite Hd.
  destruct (Nat.eqb_spec k 0); [lia|]. rewrite Z2N.id by lia. destruct (Z.ltb_spec ULONG_MAX n) as [Hb|_]; [unfold ULONG_MAX in Hb; lia|].
  by rewrite Z.mod_small by lia.
Qed.

Section Names.
Context `{IpAddresses}.

(** A name whose text can be read: its identifier has no white space and no [@], its address is
    of IPv4 and its port has 16 bits. *)
Definition readable (p : UPID) : Prop :=
  all_chars (fun c => nonspace c && other "@" c) (id p) = true /\ isV4 (ip (address p)) = true /\ 0 <= port (address p) < 2 ^ 16.

Lemma readable_nonspace p : readable p -> all_chars nonspace (UPID_text p) = true.
Proof.
  intros (Hid & Hip & Hport). unfold UPID_text, Address_text. rewrite !all_chars_app. repeat (apply andb_true_iff; split); try done.
  - revert Hid. apply all_chars_mono. by intros c [? _]%andb_true_iff.
  - destruct (IP_roundtrip _ Hip) as [_ Hpl]. revert Hpl. apply all_chars_mono. unfold plain, nonspace. intros c.
    by rewrite <- andb_assoc; intros [? _]%andb_true_iff.
  - generalize (pretty_Z_digits (port (address p)) ltac:(lia)). apply all_chars_mono. apply is_digit_nonspace.
Qed.

(** C39: a name that can be read back is parsed, from what is printed, to the same identifier,
    address and port.  It can be read back ([readable]) when there is neither a space nor an [@]
    in the identifier, the address is an IPv4 address, and the port has 16 bits; names with IPv6
    addresses are printed but not read ([ipv6_not_read]).  The hostname is not part of the text:
    after parsing it is the one that the variable had before, since parsing does not reset it. *)
Theorem pid_roundtrip getIP p q : readable p ->
  read_pid getIP (UPID_text p) q = (true, mkUPID (id p) (address p) (host q)).
Proof.
  intros Hr. pose proof (readable_nonspace p Hr) as Hns. destruct Hr as (Hid & Hip & Hport).
  destruct (IP_roundtrip _ Hip) as [Hparse Hpl]. unfold read_pid. rewrite (word_nonspace _ Hns).
  rewrite decide_False by (unfold UPID_text; by destruct (id p)).
  assert (Hat : cut "@" (UPID_text p) = Some (id p, Address_text (address p))).
  { apply cut_spec. split; [done|]. revert Hid. apply all_chars_mono. by intros c [_ ?]%andb_true_iff. }
  assert (Hcolon : cut ":" (Address_text (address p)) = Some (IP_text (ip (address p)), pretty (port (address p)))).
  { apply cut_spec. split; [done|]. revert Hpl. apply all_chars_mono. by intros c [_ ?]%andb_true_iff. }
  rewrite Hat, Hcolon, Hparse, (sscanf_pretty _ Hport). by destruct p as [i [a n] h].
Qed.

(** A text is a name exactly when its first word is an identifier, the first [@], a host
    up to the next colon that is an address or can be resolved, and something that begins with
    a number; the parts are those of the name. *)
Theorem pid_parse_exact getIP text q p :
  read_pid getIP text q = (true, p) <->
  exists i h rest a n, word text = i +:+ String "@" (h +:+ String ":" rest) /\
    all_chars (other "@") i = true /\ all_chars (other ":") h = true /\ sscanf_hu rest = Some n /\
    ((IP_parse h = Some_ a /\ p = mkUPID i (mkAddress a n) (host q)) \/
     ((exists m, IP_parse h = Error m) /\ getIP h = Some_ a /\ p = mkUPID i (mkAddress a n) (Some h))).
Proof.
  unfold read_pid. split.
  - destruct (decide (word text = "")) as [|Hne]; [done|]. destruct (cut "@" (word text)) as [[i rest]|] eqn:H1; [|done].
    destruct (cut ":" rest) as [[h rest']|] eqn:H2; [|done]. apply cut_spec in H1 as [-> Hi]. apply cut_spec in H2 as [-> Hh].
    destruct (IP_parse h) as [a|m] eqn:Hp; [|destruct (getIP h) as [a|m'] eqn:Hg; [|done]].
    + destruct (sscanf_hu rest') as [n|] eqn:Hn; [|done]. intros [= <-]. exists i, h, rest', a, n. split_and!; try done. left. done.
    + destruct (sscanf_hu rest') as [n|] eqn:Hn; [|done]. intros [= <-]. exists i, h, rest', a, n. split_and!; try done. right.
      split_and!; try done. by exists m.
  - intros (i & h & rest & a & n & Hw & Hi & Hh & Hn & Hc). rewrite decide_False by (rewrite Hw; by destruct i).
    assert (H1 : cut "@" (word text) = Some (i, h +:+ String ":" rest)) by (by apply cut_spec).
    assert (H2 : cut ":" (h +:+ String ":" rest) = Some (h, rest)) by (by apply cut_spec).
    rewrite H1, H2. destruct Hc as [[Hp ->]|([m Hp] & Hg & ->)]; rewrite Hp; [|rewrite Hg]; by rewrite Hn.
Qed.

(** ** The order of names *)

Lemma ascii_compare_trans a b c : Ascii.compare a b = Lt -> Ascii.compare b c = Lt -> Ascii.compare a c = Lt.
Proof. unfold Ascii.compare. rewrite !N.compare_lt_iff. lia. Qed.
Lemma string_compare_trans a b c : String.compare a b = Lt -> String.compare b c = Lt -> String.compare a c = Lt.
Proof.
  revert b c. induction a as [|x a IH]; intros [|y b] [|z c]; cbn; try done. destruct (Ascii.compare x y) eqn:Hxy; [| |done].
  - apply Ascii.compare_eq_iff in Hxy as ->. intros Hab. destruct (Ascii.compare y z); [|done|done]. by apply IH.
  - intros _. destruct (Ascii.compare y z) eqn:Hyz; [|by rewrite (ascii_compare_trans x y z)|done].
    apply Ascii.compare_eq_iff in Hyz as ->. by rewrite Hxy.
Qed.
Lemma string_compare_refl a : String.compare a a = Eq.
Proof. pose proof (String.compare_antisym a a) as Ha. by destruct (String.compare a a). Qed.
Lemma string_ltb_total a b : a = b \/ String.ltb a b = true \/ String.ltb b a = true.
Proof.
  unfold String.ltb. rewrite (String.compare_antisym b a). destruct (String.compare a b) eqn:Hc; cbn; [|by right; left|by right; right].
  left. by apply String.compare_eq_iff.
Qed.
Lemma string_ltb_trans a b c : String.ltb a b = true -> String.ltb b c = true -> String.ltb a c = true.
Proof.
  unfold String.ltb. destruct (String.compare a b) eqn:H1; try done. destruct (String.compare b c) eqn:H2; try done.
  by rewrite (string_compare_trans a b c).
Qed.
Lemma string_ltb_irrefl a : String.ltb a a = false.
Proof. unfold String.ltb. by rewrite string_compare_refl. Qed.

Lemma Address_eqb_eq a b : Address_eqb a b = true <-> a = b.
Proof.
  unfold Address_eqb. rewrite andb_true_iff, bool_decide_eq_true, Z.eqb_eq. destruct a, b; cbn. split; [by intros [-> ->]|by intros [= -> ->]].
Qed.
Lemma Address_ltb_irrefl a : Address_ltb a a = false.
Proof. unfold Address_ltb. rewrite decide_True by done. apply Z.ltb_irrefl. Qed.
Lemma Address_ltb_trans a b c : Address_ltb a b = true -> Address_ltb b c = true -> Address_ltb a c = true.
Proof.
  unfold Address_ltb. destruct (decide (ip a = ip b)) as [Hab|Hab], (decide (ip b = ip c)) as [Hbc|Hbc].
  - rewrite decide_True by congruence. rewrite !Z.ltb_lt. lia.
  - rewrite decide_False by congruence. by rewrite Hab.
  - rewrite decide_False by congruence. by rewrite Hbc.
  - intros H1 H2. pose proof (IP_transitive _ _ _ H1 H2) as H3. rewrite decide_False; [done|]. intros Heq. rewrite Heq in H3.
    by rewrite IP_irreflexive in H3.
Qed.
Lemma Address_ltb_total a b : a = b \/ Address_ltb a b = true \/ Address_ltb b a = true.
Proof.
  unfold Address_ltb. destruct (decide (ip a = ip b)) as [Heq|Hne].
  - rewrite decide_True by congruence. rewrite !Z.ltb_lt. destruct a as [i n], b as [j m]; cbn in *. subst j.
    destruct (Z.lt_total n m) as [?|[->|?]]; [by right; left|by left|by right; right].
  - rewrite decide_False by congruence. destruct (IP_total (ip a) (ip b)) as [?|?]; [done|by right].
Qed.

(** [operator<] of names is a strict total order that agrees with [operator==]: of two
    names exactly one is less, or they are equal, so that names can be the keys of maps and
    sets. *)
Theorem pid_order :
  (forall p, UPID_ltb p p = false) /\
  (forall p q r, UPID_ltb p q = true -> UPID_ltb q r = true -> UPID_ltb p r = true) /\
  (forall p q, UPID_eqb p q = true \/ UPID_ltb p q = true \/ UPID_ltb q p = true) /\
  (forall p q, UPID_eqb p q = true -> UPID_ltb p q = false).
Proof.
  assert (Hrefl : forall a, Address_eqb a a = true) by (intros a; by apply Address_eqb_eq).
  assert (Hsym : forall a b, Address_eqb a b = Address_eqb b a).
  { intros a b. destruct (Address_eqb a b) eqn:E1, (Address_eqb b a) eqn:E2; try done.
    - apply Address_eqb_eq in E1 as ->. by rewrite Hrefl in E2.
    - apply Address_eqb_eq in E2 as ->. by rewrite Hrefl in E1. }
  unfold UPID_ltb, UPID_eqb. split_and!.
  - intros p. rewrite Hrefl. apply string_ltb_irrefl.
  - intros p q r. destruct (Address_eqb (address p) (address q)) eqn:E1, (Address_eqb (address q) (address r)) eqn:E2.
    + apply Address_eqb_eq in E1 as ->. rewrite E2. apply string_ltb_trans.
    + apply Address_eqb_eq in E1 as ->. by rewrite E2.
    + apply Address_eqb_eq in E2 as <-. by rewrite E1.
    + intros H1 H2. pose proof (Address_ltb_trans _ _ _ H1 H2) as H3. destruct (Address_eqb (address p) (address r)) eqn:E3; [|done].
      apply Address_eqb_eq in E3. rewrite E3 in H3. by rewrite Address_ltb_irrefl in H3.
  - intros p q. rewrite (Hsym (address q)). destruct (Address_eqb (address p) (address q)) eqn:E1.
    + destruct (string_ltb_total (id p) (id q)) as [->|?]; [left; by rewrite bool_decide_eq_true_2|by right].
    + destruct (Address_ltb_total (address p) (address q)) as [Heq|?]; [|by right]. apply Address_eqb_eq in Heq. congruence.
  - intros p q [Hid%bool_decide_eq_true Ha]%andb_true_iff. rewrite Ha, Hid. apply string_ltb_irrefl.
Qed.

(** A name that is only part of one is neither true nor false. *)
Lemma half_a_name i : i <> "" -> UPID_bool (mkUPID i (mkAddress ANY 0) None) = false /\ UPID_not (mkUPID i (mkAddress ANY 0) None) = false.
Proof.
  intros Hi. unfold UPID_bool, UPID_not. cbn. split; [by rewrite (bool_decide_eq_false_2 (0 <> 0)), andb_false_r by tauto|].
  by rewrite bool_decide_eq_false_2.
Qed.

End Names.

(** ** Generated names *)

(** A text up to the last occurrence of a character. *)
Lemma last_part k x y a b :
  all_chars (other k) a = true -> all_chars (other k) b = true -> x +:+ String k a = y +:+ String k b -> x = y /\ a = b.
Proof.
  intros Ha Hb. assert (Hno : forall z u, all_chars (other k) (z +:+ String k u) = false).
  { intros z u. rewrite all_chars_app. cbn. unfold other at 2. rewrite bool_decide_eq_false_2 by tauto. by rewrite andb_false_r. }
  revert y. induction x as [|c x IH]; intros [|d y] Heq; rewrite ?app_cons in Heq.
  - by injection Heq as ->.
  - injection Heq as -> ->. by rewrite Hno in Ha.
  - injection Heq as -> <-. by rewrite Hno in Hb.
  - injection Heq as -> Heq. destruct (IH y Heq) as [-> ->]. done.
Qed.

Lemma name_inj p q i j : 0 <= i -> 0 <= j -> p +:+ "(" +:+ pretty i +:+ ")" = q +:+ "(" +:+ pretty j +:+ ")" -> p = q /\ i = j.
Proof.
  assert (Hd : forall z k, 0 <= z -> ~ (48 <= nat_of_ascii k <= 57)%nat -> all_chars (other k) (pretty z) = true).
  { intros z k Hz Hk. generalize (pretty_Z_digits z Hz). apply all_chars_mono. intros c Hc. by apply is_digit_not. }
  assert (Hin : forall z, 0 <= z -> all_chars (other "(") (pretty z +:+ ")") = true).
  { intros z Hz. rewrite all_chars_app, Hd; [done|done|change (nat_of_ascii "(") with 40%nat; lia]. }
  intros Hi Hj Heq. apply last_part in Heq as [-> Heq]; [|by apply Hin|by apply Hin]. split; [done|].
  apply (last_part ")" (pretty i) (pretty j) "" "") in Heq as [Heq _]; [|done|done]. by apply (inj pretty).
Qed.

(** The names that are made have larger numbers than those before. *)
Lemma generated_above l prefixes names :
  (forall p i, prefixes !! p = Some i -> 0 <= i) -> generate_all l prefixes = Some names ->
  NoDup names /\ forall name, name ∈ names -> exists p i, name = p +:+ "(" +:+ pretty i +:+ ")" /\ default 0 (prefixes !! p) < i.
Proof.
  revert prefixes names. induction l as [|p l IH]; intros prefixes names Hpos; cbn.
  - intros [= <-]. split; [apply NoDup_nil_2|]. intros name Hn. by apply not_elem_of_nil in Hn.
  - unfold generate. remember (default 0 (prefixes !! p) + 1) as i eqn:Hival. destruct (INT_MAX <? i); [done|].
    destruct (generate_all l (<[p := i]> prefixes)) as [rest|] eqn:Hr; [|done]. intros [= <-].
    assert (Hi : 0 <= default 0 (prefixes !! p)) by (destruct (prefixes !! p) as [j|] eqn:Hj; [by apply (Hpos p)|done]).
    assert (Hpos' : forall p' j, <[p := i]> prefixes !! p' = Some j -> 0 <= j).
    { intros p' j [[_ <-]|[_ Hj]]%lookup_insert_Some; [lia|by apply (Hpos p')]. }
    destruct (IH _ _ Hpos' Hr) as [Hnd Habove].
    assert (Hmono : forall p', default 0 (prefixes !! p') <= default 0 (<[p:=i]> prefixes !! p')).
    { intros p'. destruct (decide (p = p')) as [<-|Hne]; [rewrite lookup_insert_eq; cbn; lia|by rewrite lookup_insert_ne]. }
    split.
    + apply NoDup_cons. split; [|done]. intros Hin. destruct (Habove _ Hin) as (q & j & Heq & Hlt). apply name_inj in Heq as [<- <-]; try lia.
      * rewrite lookup_insert_eq in Hlt. cbn in Hlt. lia.
      * pose proof (Hmono q). assert (0 <= default 0 (prefixes !! q)); [|lia]. destruct (prefixes !! q) as [z|] eqn:Hz; [by apply (Hpos q)|done].
    + intros name [->|Hin]%elem_of_cons; [exists p, i; split; [done|lia]|]. destruct (Habove _ Hin) as (q & j & -> & Hlt).
      exists q, j. split; [done|]. specialize (Hmono q). lia.
Qed.

Lemma generate_all_defined l prefixes :
  (forall p, default 0 (prefixes !! p) + Z.of_nat (length l) <= INT_MAX) -> is_Some (generate_all l prefixes).
Proof.
  revert prefixes. induction l as [|p l IH]; intros prefixes Hb; cbn; [by eexists|]. unfold generate. pose proof (Hb p) as Hp. cbn in Hp.
  destruct (Z.ltb_spec INT_MAX (default 0 (prefixes !! p) + 1)); [lia|]. destruct (IH (<[p := default 0 (prefixes !! p) + 1]> prefixes)) as [names ->].
  - intros q. specialize (Hb q). cbn in Hb. destruct (decide (p = q)) as [<-|Hne]; [rewrite lookup_insert_eq; cbn; lia|].
    rewrite lookup_insert_ne by done. lia.
  - by eexists.
Qed.

(** [ID::generate] never makes a name twice, whatever the prefixes are, also when a prefix
    looks like a name that was made, for the first 2^31 - 1 calls. *)
Theorem generated_names_unique l : Z.of_nat (length l) <= INT_MAX ->
  exists names, generate_all l ∅ = Some names /\ NoDup names.
Proof.
  intros Hl. destruct (generate_all_defined l ∅) as [names Hn]; [intros p; by rewrite lookup_empty|].
  exists names. split; [done|]. by apply (generated_above l ∅ names).
Qed.

(** Concrete names of processes. *)

Local Open Scope string_scope.
Local Open Scope Z_scope.

(** Three addresses, one of IPv6. *)
Inductive some_ip := AnyAddress | Loopback | Loopback6.
#[global] Instance some_ip_eq_dec : EqDecision some_ip.
Proof. solve_decision. Defined.
Definition some_rank (i : some_ip) : nat := match i with AnyAddress => 0 | Loopback => 1 | Loopback6 => 2 end.
Definition some_text (i : some_ip) : string := match i with AnyAddress => "0.0.0.0" | Loopback => "127.0.0.1" | Loopback6 => "::1" end.
Definition some_parse (s : string) : Try some_ip :=
  if decide (s = "0.0.0.0") then Some_ AnyAddress else if decide (s = "127.0.0.1") then Some_ Loopback else Error "not an address".

#[local] Instance some_addresses : IpAddresses.
Proof.
  refine {| IP := some_ip; ANY := AnyAddress; isV4 := fun i => bool_decide (i <> Loopback6); IP_ltb := fun i j => (some_rank i <? some_rank j)%nat;
            IP_text := some_text; IP_parse := some_parse |}.
  - by intros [].
  - intros i. apply Nat.ltb_irrefl.
  - intros i j k. rewrite !Nat.ltb_lt. lia.
  - intros i j. rewrite !Nat.ltb_lt. destruct i, j; cbn; auto with lia.
Defined.

Definition resolver (s : string) : Try IP := if decide (s = "localhost") then Some_ (Loopback : IP) else Error "unknown host".
Definition master : UPID := mkUPID "master" (mkAddress (Loopback : IP) 5050) None.

Lemma pid_roundtrip_witness : read_pid resolver "master@127.0.0.1:5050" UPID_default = (true, master).
Proof. apply (pid_roundtrip resolver master UPID_default). split_and!; [reflexivity|reflexivity|cbn; lia..]. Defined.

Lemma generated_names_unique_witness :
  exists names, generate_all ["slave"; "slave"; "slave(1)"; "master"] ∅ = Some names /\ NoDup names.
Proof. apply (generated_names_unique ["slave"; "slave"; "slave(1)"; "master"]). vm_compute. discriminate. Defined.
Example generated_names : generate_all ["slave"; "slave"; "slave(1)"; "master"] ∅ = Some ["slave(1)"; "slave(2)"; "slave(1)(1)"; "master(1)"].
Proof. vm_compute. reflexivity. Qed.

(** A name is read from the first word of a text; a hostname is resolved and kept. *)
Example hostname_kept : read_pid resolver "  master@localhost:5050 more" UPID_default = (true, mkUPID "master" (mkAddress (Loopback : IP) 5050) (Some "localhost")).
Proof. vm_compute. reflexivity. Qed.

(** A hostname is left over when another name is read into the same variable, and lost when a
    name is converted to one of a base class. *)
Example hostname_left_over :
  host (snd (read_pid resolver "master@127.0.0.1:5050" (snd (read_pid resolver "master@localhost:5050" UPID_default)))) = Some "localhost".
Proof. vm_compute. reflexivity. Qed.
Example hostname_lost : host (upcast (UPID_of_string resolver "master@localhost:5050")) = None.
Proof. vm_compute. reflexivity. Qed.

(** A port is cut to 16 bits, a sign and what follows it are accepted. *)
Example ports :
  map (fun s => port (address (UPID_of_string resolver ("master@127.0.0.1:" +:+ s)))) ["65537"; "-1"; "80abc"] = [1; 65535; 80].
Proof. vm_compute. reflexivity. Qed.

(** The text of a name with an address of IPv6 is not read again. *)
Example ipv6_not_read : fst (read_pid resolver (UPID_text (mkUPID "master" (mkAddress (Loopback6 : IP) 5050) None)) UPID_default) = false.
Proof. vm_compute. reflexivity. Qed.
