(* ===== verification/Grpc.v ===== *)
(** The runtime for gRPC calls ([grpc.hpp], [grpc.cpp]): a process, the completion queue of the
    gRPC library and the looper thread that waits on it.

    A step is a call of a user, an event that the process serves, a call that the network ends,
    or a turn of the looper.  The completion queue is the library's: [Next] gives the tags of the
    operations that have ended, in any order, and says that there are no more once the queue was
    shut down and is empty; an operation that is started on a queue that was shut down is an
    error of the program. *)

From Stdlib Require Import String.
From S2P Require Import Prelude.

Local Open Scope string_scope.
Local Open Scope nat_scope.
Local Open Scope list_scope.

(** ** Data *)

(** The status that the library reports for a call, with the response of a call that is OK. *)
Inductive status := StatusOk (response : string) | StatusNotOk (code message : string).

(** What the promise of a call is set to: the response, or the error of the status. *)
Definition value_of (st : status) : Try string :=
  match st with
  | StatusOk response => Some_ response
  | StatusNotOk code message => Error (code +:+ (if decide (message = "") then "" else ": " +:+ message))
  end.
Inductive reply := Value (v : Try string) | Discarded.

(** The events of the process: dispatches of [send], [receive] and [terminate], and the event
    of [process::terminate]. *)
Inductive event := Send (i : nat) | Receive (i : nat) (st : status) | TerminateCall | TerminateProcess.

Inductive phase := Spawned | Running | Finalized.
#[global] Instance phase_eq_dec : EqDecision phase.
Proof. solve_decision. Defined.
Inductive looper_thread := NoLooper | Looping | Exited.

Record runtime := mkRuntime {
  proc : phase;
  events : list event;
  terminating : bool;
  shutdown : bool;                      (* of the completion queue *)
  inflight : list nat;                  (* operations of the completion queue that have not ended *)
  completed : list (nat * (status * bool));   (* those that have: the status, and [ok] *)
  looper : looper_thread;
  terminated : bool;                    (* the promise [terminated] *)
  (* the futures of the calls *)
  discards : list nat;                  (* a discard was requested *)
  answered : list (nat * reply);
  rejected : list nat;                  (* failed: the runtime has been terminated *)
  abandoned : list nat;
  (* history *)
  calls : nat;                          (* how many calls were made: they are numbered from 0 *)
  sent : list nat;                      (* the calls that were started *)
  reported : list (nat * status);       (* what the library reported *)
}.

(** [Runtime()]: the process is spawned. *)
Definition runtime_init : runtime := mkRuntime Spawned [] false false [] [] NoLooper false [] [] [] [] 0 [] [].

Definition with_events (l : list event) (s : runtime) : runtime :=
  mkRuntime (proc s) l (terminating s) (shutdown s) (inflight s) (completed s) (looper s) (terminated s) (discards s) (answered s)
    (rejected s) (abandoned s) (calls s) (sent s) (reported s).
Definition with_phase (p : phase) (t : looper_thread) (s : runtime) : runtime :=
  mkRuntime p (events s) (terminating s) (shutdown s) (inflight s) (completed s) t (terminated s) (discards s) (answered s)
    (rejected s) (abandoned s) (calls s) (sent s) (reported s).
Definition with_queue (l : list nat) (c : list (nat * (status * bool))) (s : runtime) : runtime :=
  mkRuntime (proc s) (events s) (terminating s) (shutdown s) l c (looper s) (terminated s) (discards s) (answered s)
    (rejected s) (abandoned s) (calls s) (sent s) (reported s).

(** [dispatch(pid, ...)]: the event, or for a process that has terminated nothing. *)
Definition enqueue (e : event) (s : runtime) : runtime :=
  match proc s with Finalized => s | _ => with_events (events s ++ [e]) s end.

(** The calls of events that are deleted: their promises are destroyed. *)
Definition event_calls (e : event) : list nat := match e with Send i | Receive i _ => [i] | _ => [] end.

(** ** The process *)

(** [Runtime::call(...)]. *)
Definition call (s : runtime) : runtime :=
  let i := calls s in
  match proc s with
  | Finalized =>
      mkRuntime (proc s) (events s) (terminating s) (shutdown s) (inflight s) (completed s) (looper s) (terminated s) (discards s)
        (answered s) (rejected s) (abandoned s ++ [i]) (S i) (sent s) (reported s)
  | _ =>
      mkRuntime (proc s) (events s ++ [Send i]) (terminating s) (shutdown s) (inflight s) (completed s) (looper s) (terminated s)
        (discards s) (answered s) (rejected s) (abandoned s) (S i) (sent s) (reported s)
  end.

(** [RuntimeProcess::initialize()]. *)
Definition start_looper (s : runtime) : checked runtime :=
  match looper s with NoLooper => Returns (with_phase Running Looping s) | _ => Abort "CHECK(!looper)" end.

(** [RuntimeProcess::send(callback)], with the callback of [call]. *)
Definition send (i : nat) (s : runtime) : checked runtime :=
  if terminating s then
    Returns (mkRuntime (proc s) (events s) (terminating s) (shutdown s) (inflight s) (completed s) (looper s) (terminated s) (discards s)
      (answered s) (rejected s ++ [i]) (abandoned s) (calls s) (sent s) (reported s))
  else if shutdown s then Abort "an operation on a completion queue that was shut down"
  else
    Returns (mkRuntime (proc s) (events s) (terminating s) (shutdown s) (inflight s ++ [i]) (completed s) (looper s) (terminated s)
      (discards s) (answered s) (rejected s) (abandoned s) (calls s) (sent s ++ [i]) (reported s)).

(** [RuntimeProcess::receive(callback)], with the callback that was the tag. *)
Definition receive_response (i : nat) (st : status) (s : runtime) : checked runtime :=
  if bool_decide (i ∈ (answered s).*1 ++ rejected s ++ abandoned s) then Abort "CHECK_PENDING(promise->future())"
  else
    let r := if bool_decide (i ∈ discards s) then Discarded else Value (value_of st) in
    Returns (mkRuntime (proc s) (events s) (terminating s) (shutdown s) (inflight s) (completed s) (looper s) (terminated s) (discards s)
      (answered s ++ [(i, r)]) (rejected s) (abandoned s) (calls s) (sent s) (reported s)).

(** [RuntimeProcess::terminate()]. *)
Definition terminate (s : runtime) : runtime :=
  if terminating s then s
  else mkRuntime (proc s) (events s) true true (inflight s) (completed s) (looper s) (terminated s) (discards s) (answered s)
    (rejected s) (abandoned s) (calls s) (sent s) (reported s).

(** [RuntimeProcess::finalize()] and [~RuntimeProcess()], with the events that are left.
    [join] waits for the looper: [None]. *)
Definition finalize (s : runtime) : option (checked runtime) :=
  if negb (terminating s) then Some (Abort "CHECK(terminating) << Runtime has not yet been terminated")
  else
    match looper s with
    | Exited =>
        Some (Returns (mkRuntime Finalized [] (terminating s) (shutdown s) (inflight s) (completed s) NoLooper true (discards s) (answered s)
          (rejected s) (abandoned s ++ (events s ≫= event_calls)) (calls s) (sent s) (reported s)))
    | Looping => None
    | NoLooper => Some (Abort "looper->join()")
    end.

(** The next event of the process. *)
Definition serve (s : runtime) : option (checked runtime) :=
  match proc s, events s with
  | Running, e :: l =>
      let s := with_events l s in
      match e with
      | Send i => Some (send i s)
      | Receive i st => Some (receive_response i st s)
      | TerminateCall => Some (Returns (terminate s))
      | TerminateProcess => finalize s
      end
  | _, _ => None
  end.

(** ** The looper *)

(** One turn of [RuntimeProcess::loop()]: [Next] gives the [k]-th of the tags that are ready,
    or says that there are no more. *)
Definition next_tag (k : nat) (s : runtime) : option (checked runtime) :=
  match looper s, completed s !! k with
  | Looping, Some (i, (st, ok)) =>
      Some (if ok : bool then Returns (enqueue (Receive i st) (with_queue (inflight s) (delete k (completed s)) s)) else Abort "CHECK(ok)")
  | _, _ => None
  end.
Definition no_more_tags (s : runtime) : option runtime :=
  match looper s, shutdown s, inflight s, completed s with
  | Looping, true, [], [] => Some (enqueue TerminateProcess (with_phase (proc s) Exited s))
  | _, _, _, _ => None
  end.

(** ** Steps *)

Inductive action :=
| Call
| Discard (i : nat)
| Terminate                             (* [Runtime::terminate()], or the last copy is destroyed *)
| Initialize
| Serve
| Finishes (k : nat) (st : status) (ok : bool)   (* the library ends the [k]-th operation *)
| NextTag (k : nat)
| NoMoreTags
| Finalize.                             (* libprocess is finalized: the process is terminated at once *)

Definition exec (a : action) (s : runtime) : option (checked runtime) :=
  match a with
  | Call => Some (Returns (call s))
  | Discard i =>
      Some (Returns (mkRuntime (proc s) (events s) (terminating s) (shutdown s) (inflight s) (completed s) (looper s) (terminated s)
        (discards s ++ [i]) (answered s) (rejected s) (abandoned s) (calls s) (sent s) (reported s)))
  | Terminate => Some (Returns (enqueue TerminateCall s))
  | Initialize => match proc s with Spawned => Some (start_looper s) | _ => None end
  | Serve => serve s
  | Finishes k st ok =>
      match inflight s !! k with
      | Some i =>
          Some (Returns (mkRuntime (proc s) (events s) (terminating s) (shutdown s) (delete k (inflight s)) (completed s ++ [(i, (st, ok))])
            (looper s) (terminated s) (discards s) (answered s) (rejected s) (abandoned s) (calls s) (sent s) (reported s ++ [(i, st)])))
      | None => None
      end
  | NextTag k => next_tag k s
  | NoMoreTags => match no_more_tags s with Some s => Some (Returns s) | None => None end
  | Finalize => match proc s with Running => finalize s | _ => None end
  end.

(** Properties of the runtime for gRPC calls. *)

Local Open Scope nat_scope.
Local Open Scope list_scope.

(** What the gRPC library documents: a unary call ends with [ok].  And what the header asks of
    the user: libprocess is not finalized before the runtime has terminated. *)
Definition lawful (a : action) : bool := match a with Finishes _ _ ok => ok | Finalize => false | _ => true end.

Inductive reaches : runtime -> Prop :=
| reaches_init : reaches runtime_init
| reaches_step a s s' : reaches s -> lawful a = true -> exec a s = Some (Returns s') -> reaches s'.

(** ** Where the calls are *)

Definition send_of (e : event) : list nat := match e with Send i => [i] | _ => [] end.
Definition receive_of (e : event) : list nat := match e with Receive i _ => [i] | _ => [] end.

(** The calls that were started, in the order in which they go through the runtime. *)
Definition underway (s : runtime) : list nat := inflight s ++ (completed s).*1 ++ (events s ≫= receive_of) ++ (answered s).*1.
Definition places (s : runtime) : list nat := (events s ≫= send_of) ++ rejected s ++ abandoned s ++ underway s.

(** The process, its looper and the event that ends it. *)
Definition phase_ok (s : runtime) : Prop :=
  match proc s with
  | Spawned => looper s = NoLooper /\ TerminateProcess ∉ events s /\ terminating s = false /\ terminated s = false /\ underway s = []
  | Running =>
      terminated s = false /\
      match looper s with
      | NoLooper => False
      | Looping => TerminateProcess ∉ events s
      | Exited => terminating s = true /\ inflight s = [] /\ completed s = [] /\
          exists l1 l2, events s = l1 ++ TerminateProcess :: l2 /\ TerminateProcess ∉ l1 ++ l2 /\ (l2 ≫= receive_of) = []
      end
  | Finalized => looper s = NoLooper /\ events s = [] /\ inflight s = [] /\ completed s = [] /\ terminated s = true /\ terminating s = true
  end.

Record inv (s : runtime) : Prop := {
  inv_places : places s ≡ₚ seq 0 (calls s);
  inv_sent : sent s ≡ₚ underway s;
  inv_shutdown : shutdown s = terminating s;
  inv_ok : Forall (fun c => c.2.2 = true) (completed s);
  inv_phase : phase_ok s;
}.

Lemma places_nodup s : inv s -> NoDup (places s).
Proof. intros HI. rewrite (inv_places s HI). apply NoDup_seq. Qed.

(** The calls of an event are its send or its receive. *)
Lemma calls_sends l : (l ≫= receive_of) = [] -> (l ≫= event_calls) = (l ≫= send_of).
Proof. induction l as [|[i|i st| |] l IH]; cbn; try done; intros H; by rewrite IH. Qed.

(** ** Every step keeps the invariant *)

Lemma runtime_inv_init : inv runtime_init.
Proof. split; cbn; try done. split_and!; try done. apply not_elem_of_nil. Qed.

Lemma seq_more n l m : l ≡ₚ seq 0 n -> m ≡ₚ n :: l -> m ≡ₚ seq 0 (S n).
Proof. intros Hl Hm. rewrite Hm, Hl, seq_S. cbn. solve_Permutation. Qed.

Lemma notin_snoc (l : list event) e : e <> TerminateProcess -> TerminateProcess ∉ l -> TerminateProcess ∉ l ++ [e].
Proof. intros He Hl. rewrite elem_of_app, list_elem_of_singleton. intros [?|?]; [done|congruence]. Qed.

(** An event at the end of the queue that is neither a receive nor the termination. *)
Lemma snoc_underway e s : receive_of e = [] -> underway (with_events (events s ++ [e]) s) = underway s.
Proof. intros He. unfold underway. cbn. rewrite bind_app. cbn. by rewrite He, !app_nil_r. Qed.
Lemma snoc_phase e s :
  proc s <> Finalized -> e <> TerminateProcess -> receive_of e = [] -> phase_ok s -> phase_ok (with_events (events s ++ [e]) s).
Proof.
  intros Hf He Hr. unfold phase_ok. rewrite (snoc_underway e s Hr). cbn. destruct (proc s); [| |done].
  - intros (? & ? & ? & ? & ?). split_and!; try done. by apply notin_snoc.
  - intros (? & Hph). split; [done|]. destruct (looper s); [done|by apply notin_snoc|].
    destruct Hph as (? & ? & ? & l1 & l2 & -> & Hn & Hl). split_and!; try done. exists l1, (l2 ++ [e]). split_and!.
    + by rewrite <- app_assoc.
    + rewrite app_assoc. by apply notin_snoc.
    + by rewrite bind_app, Hl; cbn; rewrite Hr.
Qed.

Lemma alive_match (s : runtime) {T} (a b : T) : proc s <> Finalized -> match proc s with Finalized => a | _ => b end = b.
Proof. by destruct (proc s). Qed.

Lemma call_inv s : inv s -> inv (call s).
Proof.
  intros [Hp Hs Hd Ho Hph]. unfold call. destruct (decide (proc s = Finalized)) as [Hf|Hf].
  - rewrite Hf. split; cbn; try done; [|by unfold phase_ok in *; cbn; rewrite Hf in Hph].
    apply (seq_more _ _ _ Hp). unfold places, underway. cbn. solve_Permutation.
  - rewrite (alive_match s _ _ Hf).
    split; [|by rewrite <- (snoc_underway (Send (calls s)) s) in Hs|done|done|by apply (snoc_phase (Send (calls s)) s)].
    apply (seq_more _ _ _ Hp). unfold places, underway. cbn. rewrite !bind_app. cbn. solve_Permutation.
Qed.

Lemma terminate_event_inv s : inv s -> inv (enqueue TerminateCall s).
Proof.
  intros HI. unfold enqueue. destruct (decide (proc s = Finalized)) as [Hf|Hf]; [by rewrite Hf|].
  rewrite (alive_match s _ _ Hf). destruct HI as [Hp Hs Hd Ho Hph].
  split; [|by rewrite snoc_underway|done|done|by apply snoc_phase]. rewrite <- Hp. unfold places. rewrite snoc_underway by done.
  cbn. rewrite bind_app. cbn. by rewrite app_nil_r.
Qed.

(** The head of the queue is served: what the rest of the queue says of the looper. *)
Lemma tail_phase e l s :
  proc s = Running -> events s = e :: l -> e <> TerminateProcess -> phase_ok s -> phase_ok (with_events l s).
Proof.
  intros Hr He Hne. unfold phase_ok. cbn. rewrite Hr, He. intros (? & Hph). split; [done|]. destruct (looper s); [done| |].
  - intros Hin. apply Hph. by right.
  - destruct Hph as (? & ? & ? & l1 & l2 & Heq & Hn & Hl). split_and!; try done. destruct l1 as [|e' l1]; [by injection Heq as -> _|].
    injection Heq as <- ->. exists l1, l2. split_and!; try done. intros Hin. apply Hn. by right.
Qed.

Lemma send_inv i l s s' : inv s -> proc s = Running -> events s = Send i :: l -> send i (with_events l s) = Returns s' -> inv s'.
Proof.
  intros [Hp Hs Hd Ho Hph] Hr He. pose proof (tail_phase _ _ _ Hr He ltac:(done) Hph) as Hph'.
  unfold send. cbn. destruct (terminating s) eqn:Ht; [|destruct (shutdown s) eqn:Hsh; [done|]]; intros [= <-].
  - split; cbn; try done.
    + rewrite <- Hp. unfold places, underway. cbn. rewrite He. cbn. solve_Permutation.
    + rewrite Hs. unfold underway. by rewrite He.
    + unfold phase_ok in *. cbn in *. rewrite Hr, Ht in *. done.
  - split; cbn; try done.
    + rewrite <- Hp. unfold places, underway. cbn. rewrite He. cbn. solve_Permutation.
    + rewrite Hs. unfold underway. rewrite He. cbn. solve_Permutation.
    + unfold phase_ok in *. cbn in *. rewrite Hr, Ht in *. destruct (looper s); try done. by destruct Hph' as (_ & ? & _).
Qed.

(** A promise whose response is received is pending. *)
Lemma receive_pending i st l s : inv s -> events s = Receive i st :: l -> i ∉ (answered s).*1 ++ rejected s ++ abandoned s.
Proof.
  intros HI He. pose proof (places_nodup s HI) as Hnd. unfold places, underway in Hnd. rewrite He in Hnd. cbn in Hnd.
  assert (Hperm : forall a b c d e f g : list nat, a ++ b ++ c ++ d ++ e ++ i :: f ++ g ≡ₚ i :: (g ++ b ++ c) ++ a ++ d ++ e ++ f)
    by (intros; solve_Permutation).
  rewrite Hperm in Hnd. apply NoDup_cons in Hnd as [Hn _]. intros Hin. apply Hn. apply elem_of_app. by left.
Qed.

Lemma receive_inv i st l s :
  inv s -> proc s = Running -> events s = Receive i st :: l -> exists s', receive_response i st (with_events l s) = Returns s' /\ inv s'.
Proof.
  intros HI Hr He. pose proof (receive_pending i st l s HI He) as Hn. destruct HI as [Hp Hs Hd Ho Hph].
  unfold receive_response. cbn [answered rejected abandoned with_events]. rewrite bool_decide_eq_false_2 by done. eexists. split; [done|].
  split; cbn; try done.
  - rewrite <- Hp. unfold places, underway. cbn. rewrite He, fmap_app. cbn. solve_Permutation.
  - rewrite Hs. unfold underway. cbn. rewrite He, fmap_app. cbn. solve_Permutation.
  - pose proof (tail_phase _ _ _ Hr He ltac:(done) Hph) as Hph'. unfold phase_ok in *. cbn in *. by rewrite Hr in *.
Qed.

Lemma terminate_inv l s : inv s -> proc s = Running -> events s = TerminateCall :: l -> inv (terminate (with_events l s)).
Proof.
  intros [Hp Hs Hd Ho Hph] Hr He. pose proof (tail_phase _ _ _ Hr He ltac:(done) Hph) as Hph'.
  assert (Hpl : places (with_events l s) = places s) by (unfold places, underway; cbn; by rewrite He).
  assert (Hu : underway (with_events l s) = underway s) by (unfold underway; cbn; by rewrite He).
  unfold terminate. cbn [terminating with_events]. destruct (terminating s) eqn:Ht.
  - split; [by rewrite Hpl|by rewrite Hu|by cbn; rewrite Ht|exact Ho|done].
  - split; [change (places (with_events l s) ≡ₚ seq 0 (calls s)); by rewrite Hpl|
            change (sent s ≡ₚ underway (with_events l s)); by rewrite Hu|done|done|].
    unfold phase_ok in *. cbn in *. rewrite Hr in *. destruct Hph' as [? Hl]. split; [done|]. destruct (looper s); try done.
    by destruct Hl as (? & ?).
Qed.

Lemma finalize_inv l s :
  inv s -> proc s = Running -> events s = TerminateProcess :: l -> exists s', finalize (with_events l s) = Some (Returns s') /\ inv s'.
Proof.
  intros [Hp Hs Hd Ho Hph] Hr He. unfold phase_ok in Hph. rewrite Hr, He in Hph. destruct Hph as [_ Hph].
  unfold finalize. cbn [terminating looper with_events]. destruct (looper s) eqn:Hl; [done| |].
  - exfalso. apply Hph. by left.
  - destruct Hph as (Ht & Hi & Hc & l1 & l2 & Heq & Hn & Hl2).
    assert (l1 = [] /\ l2 = l) as [-> ->].
    { destruct l1 as [|e l1]; [by injection Heq as ->|]. exfalso. injection Heq as <- _. apply Hn. by left. }
    rewrite Ht. cbn [negb]. eexists. split; [done|].
    split; cbn; try done.
    + rewrite <- Hp. unfold places, underway. cbn. rewrite He, (calls_sends l Hl2). cbn. rewrite Hl2. solve_Permutation.
    + rewrite Hs. unfold underway. cbn. by rewrite He; cbn; rewrite Hl2.
    + congruence.
Qed.

(** An operation ends, and its tag is taken by the looper. *)
Lemma finishes_inv k i st s :
  inv s -> inflight s !! k = Some i ->
  inv (mkRuntime (proc s) (events s) (terminating s) (shutdown s) (delete k (inflight s)) (completed s ++ [(i, (st, true))])
    (looper s) (terminated s) (discards s) (answered s) (rejected s) (abandoned s) (calls s) (sent s) (reported s ++ [(i, st)])).
Proof.
  intros [Hp Hs Hd Ho Hph] Hk. pose proof (delete_Permutation _ _ _ Hk) as Hperm.
  remember (delete k (inflight s)) as rest eqn:Hrest. split; cbn; try done.
  - rewrite <- Hp. unfold places, underway. cbn. rewrite fmap_app, Hperm. cbn. solve_Permutation.
  - rewrite Hs. unfold underway. cbn. rewrite fmap_app, Hperm. cbn. solve_Permutation.
  - apply Forall_app. split; [done|]. by apply Forall_singleton.
  - unfold phase_ok in *. cbn in *. destruct (proc s).
    + destruct Hph as (_ & _ & _ & _ & Hu). unfold underway in Hu. destruct (inflight s); [done|]. done.
    + destruct Hph as (? & Hph). split; [done|]. destruct (looper s); try done. destruct Hph as (_ & Hi & _). by rewrite Hi in Hk.
    + destruct Hph as (_ & _ & Hi & _). by rewrite Hi in Hk.
Qed.

Lemma looping_running s : inv s -> looper s = Looping -> proc s = Running.
Proof.
  intros HI Hl. pose proof (inv_phase s HI) as Hph. unfold phase_ok in Hph. rewrite Hl in Hph.
  destruct (proc s); [by destruct Hph as [? _]|done|by destruct Hph as [? _]].
Qed.

Lemma next_tag_inv k s r : inv s -> next_tag k s = Some r -> exists s', r = Returns s' /\ inv s'.
Proof.
  intros HI. unfold next_tag. destruct (looper s) eqn:Hl; try done. destruct (completed s !! k) as [[i [st ok]]|] eqn:Hk; [|done].
  pose proof (looping_running s HI Hl) as Hr. destruct HI as [Hp Hs Hd Ho Hph].
  assert (ok = true) as -> by (by apply (Forall_lookup_1 _ _ _ _ Ho Hk)). intros [= <-]. eexists. split; [done|].
  unfold enqueue. cbn [proc with_queue]. rewrite Hr. pose proof (delete_Permutation _ _ _ Hk) as Hperm.
  assert (Ho' : Forall (fun c => c.2.2 = true) (delete k (completed s))) by (by apply Forall_delete).
  remember (delete k (completed s)) as rest eqn:Hrest. split; cbn; try done.
  - rewrite <- Hp. unfold places, underway. cbn. rewrite !bind_app, Hperm. cbn. solve_Permutation.
  - rewrite Hs. unfold underway. cbn. rewrite !bind_app, Hperm. cbn. solve_Permutation.
  - unfold phase_ok in *. cbn in *. rewrite Hr, Hl in *. destruct Hph as [? Hph]. split; [done|]. by apply notin_snoc.
Qed.

Lemma no_more_tags_inv s s' : inv s -> no_more_tags s = Some s' -> inv s'.
Proof.
  intros HI. unfold no_more_tags. destruct (looper s) eqn:Hl; try done. destruct (shutdown s) eqn:Hsh; [|done].
  destruct (inflight s) eqn:Hi; [|done]. destruct (completed s) eqn:Hc; [|done]. intros [= <-].
  pose proof (looping_running s HI Hl) as Hr. destruct HI as [Hp Hs Hd Ho Hph]. unfold enqueue. cbn [proc with_phase]. rewrite Hr.
  split; cbn; try done.
  - rewrite <- Hp. unfold places, underway. cbn. rewrite !bind_app. cbn. by rewrite !app_nil_r.
  - rewrite Hs. unfold underway. cbn. rewrite bind_app. cbn. by rewrite app_nil_r.
  - unfold phase_ok in *. cbn in *. rewrite Hr, Hl in *. destruct Hph as [? Hph]. split_and!; try done; [congruence|].
    exists (events s), []. split_and!; try done. by rewrite app_nil_r.
Qed.

(** A lawful step fails no check, and keeps the invariant. *)
Lemma exec_inv a s r : inv s -> lawful a = true -> exec a s = Some r -> exists s', r = Returns s' /\ inv s'.
Proof.
  intros HI Hlaw. destruct a as [|i| | | |k st ok|k| |]; cbn [exec].
  - intros [= <-]. eexists. split; [done|]. by apply call_inv.
  - intros [= <-]. eexists. split; [done|]. by destruct HI.
  - intros [= <-]. eexists. split; [done|]. by apply terminate_event_inv.
  - destruct (proc s) eqn:Hpr; try done. intros [= <-]. unfold start_looper. destruct HI as [Hp Hs Hd Ho Hph].
    unfold phase_ok in Hph. rewrite Hpr in Hph. destruct Hph as (Hl & Hn & Ht & Htd & _). rewrite Hl. eexists. split; [done|]. by split.
  - unfold serve. destruct (proc s) eqn:Hpr; try done. destruct (events s) as [|e l] eqn:He; [done|]. destruct e as [i|i st| |].
    + intros [= <-]. destruct (send i (with_events l s)) as [s'|m] eqn:Hsend; [eexists; split; [done|]; by eapply send_inv|].
      exfalso. unfold send in Hsend. cbn in Hsend. rewrite (inv_shutdown s HI) in Hsend. by destruct (terminating s).
    + intros [= <-]. by apply receive_inv.
    + intros [= <-]. eexists. split; [done|]. by apply terminate_inv.
    + intros Hf. destruct (finalize_inv l s HI Hpr He) as (s' & Hf' & HI'). rewrite Hf' in Hf. injection Hf as <-. by exists s'.
  - destruct (inflight s !! k) as [i|] eqn:Hk; [|done]. intros [= <-]. cbn in Hlaw. subst ok. eexists. split; [done|]. by apply finishes_inv.
  - intros Hn. by eapply next_tag_inv.
  - destruct (no_more_tags s) as [s'|] eqn:Hn; [|done]. intros [= <-]. eexists. split; [done|]. by eapply no_more_tags_inv.
  - done.
Qed.
Lemma reaches_runtime_inv s : reaches s -> inv s.
Proof.
  induction 1 as [|a s s' _ IH Hl He]; [apply runtime_inv_init|]. destruct (exec_inv a s (Returns s') IH Hl He) as (s1 & [= <-] & ?). done.
Qed.

(** ** Replies *)

(** What is received is what the library reported. *)
Record genuine (s : runtime) : Prop := {
  genuine_completed : forall i st ok, (i, (st, ok)) ∈ completed s -> (i, st) ∈ reported s;
  genuine_events : forall i st, Receive i st ∈ events s -> (i, st) ∈ reported s;
  genuine_values : forall i v, (i, Value v) ∈ answered s -> exists st, (i, st) ∈ reported s /\ v = value_of st;
  genuine_discards : forall i, (i, Discarded) ∈ answered s -> i ∈ discards s;
}.

Lemma genuine_frame s s' :
  completed s' = completed s -> (forall i st, Receive i st ∈ events s' -> Receive i st ∈ events s) -> answered s' = answered s ->
  (forall i, i ∈ discards s -> i ∈ discards s') -> reported s' = reported s -> genuine s -> genuine s'.
Proof.
  intros Hc He Ha Hd Hr [A B C D]. split; rewrite ?Hc, ?Ha, ?Hr; [done| |done|].
  - intros i st Hin. by apply B, He.
  - intros i Hin. by apply Hd, D.
Qed.
Lemma genuine_enqueue e s : (forall i st, e <> Receive i st) -> genuine s -> genuine (enqueue e s).
Proof.
  intros He HG. unfold enqueue. destruct (proc s); try done; (apply (genuine_frame s); try done; cbn; intros i st;
    rewrite elem_of_app, list_elem_of_singleton; intros [?|Heq]; [done|by destruct (He i st)]).
Qed.

Lemma receive_genuine i st l s s' :
  genuine s -> events s = Receive i st :: l -> receive_response i st (with_events l s) = Returns s' -> genuine s'.
Proof.
  intros [A B C D] He. unfold receive_response. destruct (bool_decide _); [done|]. intros [= <-]. split; cbn.
  - done.
  - intros j st' Hin. apply B. rewrite He. by right.
  - intros j v. rewrite elem_of_app, list_elem_of_singleton. intros [Hin|[= -> Hv]]; [by apply C|]. exists st.
    split; [apply B; rewrite He; by left|]. destruct (bool_decide _); [done|by injection Hv].
  - intros j. rewrite elem_of_app, list_elem_of_singleton. intros [Hin|[= -> Hv]]; [by apply D|].
    destruct (bool_decide (i ∈ discards s)) eqn:Hb; [by apply bool_decide_eq_true in Hb|done].
Qed.

Lemma serve_genuine s s' : genuine s -> serve s = Some (Returns s') -> genuine s'.
Proof.
  intros HG. unfold serve. destruct (proc s); try done. destruct (events s) as [|e l] eqn:He; [done|].
  assert (Htl : forall i st, Receive i st ∈ l -> Receive i st ∈ events s) by (intros i st Hin; rewrite He; by right).
  destruct e as [i|i st| |].
  - unfold send. cbn. destruct (terminating s); [|destruct (shutdown s); [done|]]; intros [= <-]; by apply (genuine_frame s).
  - intros [= Hr]. by eapply receive_genuine.
  - intros [= <-]. unfold terminate. cbn. destruct (terminating s); by apply (genuine_frame s).
  - unfold finalize. cbn. destruct (terminating s); [|done]. destruct (looper s); try done. intros [= <-]. apply (genuine_frame s); try done.
    intros i st Hin. by apply not_elem_of_nil in Hin.
Qed.

Lemma exec_genuine a s s' : genuine s -> lawful a = true -> exec a s = Some (Returns s') -> genuine s'.
Proof.
  intros HG Hlaw. destruct a as [|i| | | |k st ok|k| |]; cbn [exec].
  - intros [= <-]. unfold call. destruct (proc s); apply (genuine_frame s); try done;
      (cbn; intros i st; rewrite elem_of_app, list_elem_of_singleton; intros [?|?]; done).
  - intros [= <-]. apply (genuine_frame s); try done. cbn. intros j Hj. apply elem_of_app. by left.
  - intros [= <-]. by apply genuine_enqueue.
  - destruct (proc s); try done. unfold start_looper. destruct (looper s); try done. intros [= <-]. by apply (genuine_frame s).
  - apply serve_genuine, HG.
  - destruct (inflight s !! k) as [i|] eqn:Hk; [|done]. intros [= <-]. destruct HG as [A B C D]. split; cbn.
    + intros j st' ok'. rewrite !elem_of_app, !list_elem_of_singleton. intros [Hin|[= -> -> _]]; [left; by eapply A|by right].
    + intros j st' Hin. apply elem_of_app. left. by apply B.
    + intros j v Hin. destruct (C j v Hin) as (st' & ? & ?). exists st'. split; [apply elem_of_app; by left|done].
    + done.
  - unfold next_tag. destruct (looper s); try done. destruct (completed s !! k) as [[i [st [|]]]|] eqn:Hk; try done. intros [= <-].
    assert (Hin : (i, st) ∈ reported s) by (by eapply genuine_completed, list_elem_of_lookup_2).
    assert (HG1 : genuine (with_queue (inflight s) (delete k (completed s)) s)).
    { destruct HG as [A B C D]. split; cbn; try done. intros j st' ok' Hj. apply (A j st' ok').
      eapply elem_of_submseteq; [exact Hj|apply sublist_submseteq, sublist_delete]. }
    unfold enqueue. destruct (proc _); try done; (destruct HG1 as [A B C D]; split; cbn; try done;
      intros j st'; rewrite elem_of_app, list_elem_of_singleton; intros [?|[= -> ->]]; [by apply B|done]).
  - unfold no_more_tags. destruct (looper s); try done. destruct (shutdown s); [|done]. destruct (inflight s); [|done].
    destruct (completed s); [|done]. intros [= <-]. apply genuine_enqueue; [done|]. by apply (genuine_frame s).
  - done.
Qed.
Lemma reaches_genuine s : reaches s -> genuine s.
Proof.
  induction 1 as [|a s s' _ IH Hl He]; [|by apply (exec_genuine a s)].
  split; cbn; intros; by match goal with H : _ ∈ [] |- _ => apply not_elem_of_nil in H end.
Qed.

(** ** Theorems *)

(** No [CHECK] of the runtime fails, no promise is completed twice and no operation is
    started on a completion queue that was shut down, whenever calls, discards, terminations
    and the turns of the process, of the library and of the looper come. *)
Theorem grpc_no_check_fails s a m : reaches s -> lawful a = true -> exec a s <> Some (Abort m).
Proof. intros Hr Hl He. apply reaches_runtime_inv in Hr. by destruct (exec_inv a s _ Hr Hl He) as (s' & ? & _). Qed.

(** C37: every call is in exactly one place: waiting to be sent, failed because the runtime
    terminates, abandoned, in the completion queue, on its way from the looper, or answered.
    Those that were sent are never failed nor abandoned; their answer is what the library reported
    for them, or a discard if one was requested; and once the runtime has terminated all
    of them are answered. *)
Theorem grpc_calls_accounted s : reaches s ->
  places s ≡ₚ seq 0 (calls s) /\
  (forall i, i ∈ sent s -> i ∉ rejected s ++ abandoned s /\ Send i ∉ events s) /\
  (forall i v, (i, Value v) ∈ answered s -> exists st, (i, st) ∈ reported s /\ v = value_of st) /\
  (forall i, (i, Discarded) ∈ answered s -> i ∈ discards s) /\
  (terminated s = true -> sent s ≡ₚ (answered s).*1).
Proof.
  intros Hr. apply reaches_runtime_inv in Hr as HI. apply reaches_genuine in Hr as [_ _ Hv Hd]. split_and!; [by apply inv_places| |done|done|].
  - intros i Hi. pose proof (places_nodup s HI) as Hnd. rewrite (inv_sent s HI) in Hi. unfold places in Hnd.
    rewrite !app_assoc, <- (app_assoc (events s ≫= send_of)) in Hnd. apply NoDup_app in Hnd as (_ & Hdis & _).
    split; intros Hin; apply (Hdis i); try done; apply elem_of_app; [by right|left].
    apply list_elem_of_bind. exists (Send i). by split; [left|].
  - intros Ht. rewrite (inv_sent s HI). pose proof (inv_phase s HI) as Hph. unfold phase_ok in Hph. unfold underway.
    destruct (proc s); [destruct Hph as (_ & _ & _ & ? & _); congruence|destruct Hph as (? & _); congruence|].
    destruct Hph as (_ & -> & -> & -> & _). done.
Qed.

(** The steps that are not the users'. *)
Definition internal (a : action) : bool :=
  match a with Initialize | Serve | NextTag _ | NoMoreTags => true | Finishes _ _ ok => ok | _ => false end.
Inductive runs_on : list action -> runtime -> runtime -> Prop :=
| runs_nil s : runs_on [] s s
| runs_cons a l s s1 s2 : internal a = true -> exec a s = Some (Returns s1) -> runs_on l s1 s2 -> runs_on (a :: l) s s2.

(** The work that is left: how many steps the calls, the process and the looper take. *)
Definition event_work (e : event) : nat := match e with Send _ => 4 | _ => 1 end.
Definition work (s : runtime) : nat :=
  sum_list_with event_work (events s) + 3 * length (inflight s) + 2 * length (completed s) +
  match proc s with Spawned => 3 | _ => match looper s with Looping => 2 | _ => 0 end end.

Lemma work_snoc l e : sum_list_with event_work (l ++ [e]) = sum_list_with event_work l + event_work e.
Proof. rewrite sum_list_with_app. cbn. lia. Qed.

(** Every step that is not the users' does some of it. *)
Lemma internal_works a s s' : inv s -> internal a = true -> exec a s = Some (Returns s') -> work s' < work s.
Proof.
  intros HI Hi. destruct a as [|i| | | |k st ok|k| |]; cbn [exec internal] in *; try done.
  - destruct (proc s) eqn:Hp; try done. unfold start_looper. destruct (looper s); try done. intros [= <-]. unfold work. cbn. rewrite Hp. lia.
  - unfold serve. destruct (proc s) eqn:Hp; try done. destruct (events s) as [|e l] eqn:He; [done|]. destruct e as [i|i st| |].
    + unfold send. cbn. destruct (terminating s); [|destruct (shutdown s); [done|]]; intros [= <-]; unfold work; cbn; rewrite Hp, He; cbn;
        rewrite ?length_app; cbn; lia.
    + unfold receive_response. destruct (bool_decide _); [done|]. intros [= <-]. unfold work. cbn. rewrite Hp, He. cbn. lia.
    + intros [= <-]. unfold terminate. cbn. destruct (terminating s); unfold work; cbn; rewrite Hp, He; cbn; lia.
    + unfold finalize. cbn. destruct (terminating s); [|done]. destruct (looper s) eqn:Hl; try done. intros [= <-].
      unfold work. cbn. rewrite Hp, Hl, He. cbn. lia.
  - destruct (inflight s !! k) as [i|] eqn:Hk; [|done]. intros [= <-]. unfold work. cbn. rewrite length_delete by (by eexists).
    apply lookup_lt_Some in Hk. rewrite length_app. cbn. lia.
  - unfold next_tag. destruct (looper s) eqn:Hl; try done. destruct (completed s !! k) as [[i [st [|]]]|] eqn:Hk; try done. intros [= <-].
    pose proof (looping_running s HI Hl) as Hp. unfold enqueue, work. cbn [proc with_queue]. rewrite Hp. cbn. rewrite Hp, Hl, work_snoc.
    rewrite length_delete by (by eexists). apply lookup_lt_Some in Hk. cbn. lia.
  - unfold no_more_tags. destruct (looper s) eqn:Hl; try done. destruct (shutdown s); [|done]. destruct (inflight s) eqn:Hin; [|done].
    destruct (completed s) eqn:Hc; [|done]. intros [= <-]. pose proof (looping_running s HI Hl) as Hp.
    unfold enqueue, work. cbn [proc with_phase]. rewrite Hp. cbn. rewrite ?Hp, Hl, Hin, Hc, work_snoc. cbn. lia.
Qed.

(** Termination was asked for. *)
Definition requested (s : runtime) : Prop := TerminateCall ∈ events s \/ terminating s = true.

Lemma request_stays a s s' : requested s -> internal a = true -> exec a s = Some (Returns s') -> requested s'.
Proof.
  unfold requested. intros Hq Hi. destruct a as [|i| | | |k st ok|k| |]; cbn [exec internal] in *; try done.
  - destruct (proc s); try done. unfold start_looper. destruct (looper s); try done. by intros [= <-].
  - unfold serve. destruct (proc s); try done. destruct (events s) as [|e l]; [done|]. destruct e as [i|i st| |].
    + unfold send. cbn. destruct Hq as [Hq| ->]; [apply elem_of_cons in Hq as [?|Hq]; [done|]|intros [= <-]; by right].
      destruct (terminating s); [|destruct (shutdown s); [done|]]; intros [= <-]; by left.
    + unfold receive_response. destruct (bool_decide _); [done|]. intros [= <-]. cbn. destruct Hq as [Hq|Hq]; [|by right].
      apply elem_of_cons in Hq as [?|Hq]; [done|by left].
    + intros [= <-]. right. unfold terminate. cbn. by destruct (terminating s) eqn:Ht.
    + unfold finalize. cbn. destruct (terminating s); [|done]. destruct (looper s); try done. intros [= <-]. by right.
  - destruct (inflight s !! k); [|done]. by intros [= <-].
  - unfold next_tag. destruct (looper s); try done. destruct (completed s !! k) as [[i [st [|]]]|]; try done. intros [= <-].
    unfold enqueue. cbn. destruct (proc s); cbn; try done; (destruct Hq as [Hq|Hq]; [left; apply elem_of_app; by left|by right]).
  - unfold no_more_tags. destruct (looper s); try done. destruct (shutdown s); [|done]. destruct (inflight s); [|done].
    destruct (completed s); [|done]. intros [= <-].
    unfold enqueue. cbn. destruct (proc s); cbn; try done; (destruct Hq as [Hq|Hq]; [left; apply elem_of_app; by left|by right]).
Qed.

(** A runtime that can do nothing more by itself, and was asked to terminate, has. *)
Lemma stuck_terminated s : inv s -> requested s -> (forall a, internal a = true -> exec a s = None) -> terminated s = true.
Proof.
  intros HI Hq Hst. pose proof (inv_phase s HI) as Hph. unfold phase_ok in Hph. destruct (proc s) eqn:Hp; [| |by destruct Hph as (_ & _ & _ & _ & ? & _)].
  - specialize (Hst Initialize eq_refl). cbn in Hst. by rewrite Hp in Hst.
  - exfalso. destruct (events s) as [|e l] eqn:He.
    + destruct Hq as [Hq|Ht]; [rewrite He in Hq; by apply not_elem_of_nil in Hq|]. destruct Hph as [_ Hph]. destruct (looper s) eqn:Hl; [done| |].
      * destruct (inflight s) as [|i li] eqn:Hi; [|specialize (Hst (Finishes 0 (StatusOk EmptyString) true) eq_refl); cbn in Hst; by rewrite Hi in Hst].
        destruct (completed s) as [|[i [st ok]] lc] eqn:Hc; [|specialize (Hst (NextTag 0) eq_refl); cbn in Hst; unfold next_tag in Hst; by rewrite Hl, Hc in Hst].
        specialize (Hst NoMoreTags eq_refl). cbn in Hst. unfold no_more_tags in Hst. by rewrite Hl, (inv_shutdown s HI), Ht, Hi, Hc in Hst.
      * destruct Hph as (_ & _ & _ & l1 & l2 & Heq & _). by destruct l1.
    + specialize (Hst Serve eq_refl). cbn in Hst. unfold serve in Hst. rewrite Hp, He in Hst. destruct e; try done.
      by destruct (finalize_inv l s HI Hp He) as (s' & Hf & _); rewrite Hf in Hst.
Qed.

(** C38: a runtime that was asked to terminate terminates: however the process, the library and
    the looper take turns, they take at most [work s] of them, and when none of them can go on
    the runtime has terminated and the future that [wait] returns is ready. *)
Theorem grpc_terminates s l s' : reaches s -> requested s -> runs_on l s s' ->
  length l <= work s /\ ((forall a, internal a = true -> exec a s' = None) -> terminated s' = true).
Proof.
  intros Hr Hq Hl. apply reaches_runtime_inv in Hr as HI. clear Hr. induction Hl as [s|a l s s1 s2 Hi He _ IH].
  - split; [cbn; lia|]. by apply stuck_terminated.
  - assert (Hlaw : lawful a = true) by (by destruct a).
    destruct (exec_inv a s _ HI Hlaw He) as (s1' & [= <-] & HI1).
    destruct IH as [Hlen Hend]; [by eapply request_stays|done|]. pose proof (internal_works a s s1 HI Hi He). split; [cbn; lia|done].
Qed.

(** Concrete runs of the runtime for gRPC calls. *)

Local Open Scope string_scope.
Local Open Scope nat_scope.
Local Open Scope list_scope.

Fixpoint play (l : list action) (s : runtime) : option runtime :=
  match l with
  | [] => Some s
  | a :: l => match exec a s with Some (Returns s) => play l s | _ => None end
  end.
Lemma play_reaches_runtime l s s' : reaches s -> forallb lawful l = true -> play l s = Some s' -> reaches s'.
Proof.
  revert s. induction l as [|a l IH]; intros s Hr; cbn; [by intros _ [= <-]|]. intros [Ha Hl]%andb_true_iff.
  destruct (exec a s) as [[s1|m]|] eqn:He; try done. apply IH; [by eapply reaches_step|done].
Qed.
Definition after (l : list action) : runtime := default runtime_init (play l runtime_init).

(** Three calls, of which the second is discarded, and the request to terminate: the first two
    have been sent. *)
Definition busy : list action :=
  [Initialize; Call; Call; Discard 1; Serve; Serve; Finishes 1 (StatusNotOk "CANCELLED" "by the client") true; Terminate; Call].
(** What is left of it. *)
Definition drained : list action :=
  [NextTag 0; Serve; Serve; Serve; Finishes 0 (StatusOk "pong") true; NextTag 0; NoMoreTags; Serve; Serve].

Lemma busy_reached : reaches (after busy).
Proof. apply (play_reaches_runtime busy runtime_init (after busy)); [apply reaches_init|reflexivity|vm_compute; reflexivity]. Qed.
Lemma drained_reached : reaches (after (busy ++ drained)).
Proof. apply (play_reaches_runtime (busy ++ drained) runtime_init (after (busy ++ drained))); [apply reaches_init|reflexivity|vm_compute; reflexivity]. Qed.

Lemma grpc_no_check_fails_witness : exec Serve (after busy) <> Some (Abort "CHECK(ok)").
Proof. apply (grpc_no_check_fails (after busy) Serve "CHECK(ok)"); [apply busy_reached|reflexivity]. Defined.

Lemma grpc_calls_accounted_witness :
  places (after (busy ++ drained)) ≡ₚ seq 0 3 /\ sent (after (busy ++ drained)) ≡ₚ [1; 0].
Proof.
  destruct (grpc_calls_accounted (after (busy ++ drained)) drained_reached) as (Hp & _ & _ & _ & Ht).
  split; [vm_compute; vm_compute in Hp; exact Hp|vm_compute; vm_compute in Ht; exact (Ht eq_refl)].
Defined.
Example drained_replies :
  answered (after (busy ++ drained)) = [(1, Discarded); (0, Value (Some_ "pong"))] /\ rejected (after (busy ++ drained)) = [2] /\
  terminated (after (busy ++ drained)) = true.
Proof. vm_compute. done. Qed.

Lemma grpc_terminates_witness :
  length drained <= work (after busy) /\
  ((forall a, internal a = true -> exec a (after (busy ++ drained)) = None) -> terminated (after (busy ++ drained)) = true).
Proof.
  apply (grpc_terminates (after busy) drained (after (busy ++ drained))).
  - apply busy_reached.
  - left. apply (list_elem_of_lookup_2 _ 0). vm_compute. reflexivity.
  - repeat (eapply runs_cons; [reflexivity|vm_compute; reflexivity|]). apply runs_nil.
Defined.

(** A call after the termination, or behind its event, is abandoned: its future never
    completes. *)
Example late_calls_abandoned :
  abandoned (after [Initialize; Terminate; Serve; NoMoreTags; Call; Serve; Call]) = [0; 1].
Proof. vm_compute. reflexivity. Qed.

(** A call while the runtime terminates fails. *)
Example terminating_call_fails : rejected (after [Initialize; Terminate; Serve; Call; Serve]) = [0].
Proof. vm_compute. reflexivity. Qed.

(** When libprocess is finalized first, the process aborts. *)
Example finalized_first :
  exec Finalize (after [Initialize; Call; Serve]) = Some (Abort "CHECK(terminating) << Runtime has not yet been terminated").
Proof. vm_compute. reflexivity. Qed.
