(* ===== verification/Dispatch.v ===== *)
(** How functions get into processes: [dispatch], [defer], [async], [run], [delay] and
    [Executor] ([dispatch.hpp], [deferred.hpp], [defer.hpp], [async.hpp], [run.hpp], [delay.hpp],
    [executor.hpp]).

    The templates of these headers wrap a function, for each number of arguments and each kind of
    result, into an event; here a function with its arguments is one value, which knows what it
    returns.  A process serves one event after the other; when it terminates the events that are
    left are destroyed, and the promises in them abandoned. *)

From S2P Require Import Prelude.

Local Open Scope nat_scope.

(** ** Functions *)

(** What a function returns: nothing, a value, or a future. *)
Inductive outcome := Void | Value (v : nat) | Pends (f : nat).

(** A function with its arguments: one of the user's, or one that dispatches another. *)
Inductive callable := Fn (name : nat) (r : outcome) | Dispatcher (p : nat) (c : callable).

(** Whether the result type is [void]. *)
Fixpoint is_void (c : callable) : bool :=
  match c with Fn _ Void => true | Fn _ _ => false | Dispatcher _ c => is_void c end.

(** ** State *)

(** A future, by what became of its promise: it is in an event (or in a [ThunkProcess]), it was
    set, it was associated with the future that the function returned, or it was destroyed. *)
Inductive future := Queued | Ready (v : nat) | Associated (f : nat) | Abandoned.

(** An associated future becomes ready with the future that it is associated with: the value of
    a future, and of those that it follows. *)
Fixpoint value (fuel : nat) (F : list future) (n : nat) : option nat :=
  match fuel, F !! n with
  | S fuel, Some (Ready v) => Some v
  | S fuel, Some (Associated g) => value fuel F g
  | _, _ => None
  end.

(** [future.isPending()]: also of a future that was associated with one that is pending, and of
    one that was abandoned. *)
Definition isPending (F : list future) (n : nat) : Prop := forall fuel, value fuel F n = None.

(** An event of a process.  [execute] is set for a call of [AsyncExecutorProcess::execute]. *)
Inductive event := DispatchEvent (c : callable) (promise : option nat) (execute : bool) | TerminateEvent.

(** A process; [thunk] is set for a [ThunkProcess], with its promise until that is set. *)
Record process := mkProcess { alive : bool; queue : list event; thunk : option callable; thunk_promise : option nat }.

Record world := mkWorld {
  processes : list process;              (* the pid of a process is its index *)
  futures : list future;
  timers : list (nat * callable);
  trace : list (nat * option nat);       (* which functions were called, in which process *)
}.
Definition world_init : world := mkWorld [] [] [] [].

Definition put_process (p : nat) (pr : process) (w : world) : world := mkWorld (<[p := pr]> (processes w)) (futures w) (timers w) (trace w).
Definition set_future (n : nat) (f : future) (w : world) : world := mkWorld (processes w) (<[n := f]> (futures w)) (timers w) (trace w).
Definition new_future (f : future) (w : world) : world := mkWorld (processes w) (futures w ++ [f]) (timers w) (trace w).

(** ** dispatch *)

(** [internal::dispatch(pid, f)]: the event is enqueued, or destroyed when there is no such
    process any more. *)
Definition deliver (p : nat) (e : event) (w : world) : option world :=
  match processes w !! p with
  | Some pr => if alive pr then Some (put_process p (mkProcess true (queue pr ++ [e]) (thunk pr) (thunk_promise pr)) w) else None
  | None => None
  end.

(** [Dispatch<R>()(pid, f)]: without a promise for [void]. *)
Definition dispatch_event (execute : bool) (p : nat) (c : callable) (w : world) : world * outcome :=
  if is_void c then (default w (deliver p (DispatchEvent c None execute) w), Void)
  else
    let n := length (futures w) in
    let w' := new_future Queued w in
    (default (set_future n Abandoned w') (deliver p (DispatchEvent c (Some n) execute) w'), Pends n).
Definition dispatch : nat -> callable -> world -> world * outcome := dispatch_event false.

(** A call of a function, in a process or elsewhere. *)
Definition invoke (context : option nat) (c : callable) (w : world) : world * outcome :=
  match c with
  | Fn name r => (mkWorld (processes w) (futures w) (timers w) (trace w ++ [(name, context)]), r)
  | Dispatcher p c => dispatch p c w
  end.

(** ** defer *)

(** [_Deferred<F>]. *)
Record deferred := mkDeferred { pid : option nat; f : callable }.

(** [defer(pid, method, ...)] and [defer(pid, g)]; [Executor::defer(f)] is the second. *)
Definition defer_method (p : nat) (c : callable) : deferred := mkDeferred None (Dispatcher p c).
Definition defer (p : nat) (g : callable) : deferred := mkDeferred (Some p) g.

(** [defer(g)]: in the process that calls it, or in the executor of the thread. *)
Definition defer_here (context : option nat) (executor : nat) (g : callable) : deferred := defer (default executor context) g.

(** The conversions of [_Deferred<F>] to a function. *)
Definition convert (d : deferred) : callable := match pid d with None => f d | Some p => Dispatcher p (f d) end.

(** ** Serving *)

(** A promise is kept: [promise->set(...)] or [promise->associate(...)]. *)
Definition settle (promise : option nat) (r : outcome) (w : world) : world :=
  match promise, r with
  | Some n, Value v => set_future n (Ready v) w
  | Some n, Pends g => set_future n (Associated g) w
  | _, _ => w
  end.

Definition event_promise (e : event) : list nat := match e with DispatchEvent _ (Some n) _ => [n] | _ => [] end.

(** The promises of events that are destroyed. *)
Definition abandon (l : list nat) (w : world) : world := foldr (fun n w => set_future n Abandoned w) w l.

(** [ThunkProcess::serve(event)]: whatever the event is, it is destroyed. *)
Definition serve_thunk (p : nat) (c : callable) (e : event) (w : world) : world :=
  match processes w !! p with
  | Some pr =>
      let promise := thunk_promise pr in
      let w := put_process p (mkProcess (alive pr) (queue pr) (thunk pr) None) w in
      let '(w, r) := invoke (Some p) c w in
      abandon (event_promise e) (settle promise r w)
  | None => w
  end.

(** An event of the process [p]: it is served, and the process ends with [TerminateEvent].
    [AsyncExecutorProcess::execute] terminates itself first, in front of the other events. *)
Definition handle_event (p : nat) (pr : process) (e : event) (w : world) : world :=
  match thunk pr with
  | Some c => serve_thunk p c e w
  | None =>
      match e with
      | DispatchEvent c promise execute =>
          let w := if execute : bool then
                     match processes w !! p with
                     | Some pr => put_process p (mkProcess (alive pr) (TerminateEvent :: queue pr) (thunk pr) (thunk_promise pr)) w
                     | None => w
                     end
                   else w in
          let '(w, r) := invoke (Some p) c w in
          settle promise r w
      | TerminateEvent => w
      end
  end.
Definition cleanup (p : nat) (w : world) : world :=
  match processes w !! p with
  | Some pr =>
      abandon (queue pr ≫= event_promise)
        (abandon (match thunk_promise pr with Some n => [n] | None => [] end) (put_process p (mkProcess false [] None None) w))
  | None => w
  end.
Definition serve (p : nat) (w : world) : option world :=
  match processes w !! p with
  | Some pr =>
      match alive pr, queue pr with
      | true, e :: l =>
          let w := put_process p (mkProcess true l (thunk pr) (thunk_promise pr)) w in
          let w := handle_event p pr e w in
          Some (match e with TerminateEvent => cleanup p w | _ => w end)
      | _, _ => None
      end
  | None => None
  end.

(** ** Processes *)

Definition spawn (t : option (callable * nat)) (w : world) : world :=
  mkWorld (processes w ++ [mkProcess true [] (fst <$> t) (snd <$> t)]) (futures w) (timers w) (trace w).

(** [terminate(pid, inject)]. *)
Definition terminate (p : nat) (inject : bool) (w : world) : world :=
  match processes w !! p with
  | Some pr =>
      if alive pr
      then put_process p (mkProcess true (if inject then TerminateEvent :: queue pr else queue pr ++ [TerminateEvent]) (thunk pr) (thunk_promise pr)) w
      else w
  | None => w
  end.

(** [async(f)]: a process for one call. *)
Definition async (c : callable) (w : world) : world * outcome :=
  let p := length (processes w) in
  dispatch_event true p c (spawn None w).

(** [run(method)]: a process that is terminated at once, and serves its end. *)
Definition run (c : callable) (w : world) : world * outcome :=
  let n := length (futures w) in
  let p := length (processes w) in
  (terminate p true (spawn (Some (c, n)) (new_future Queued w)), Pends n).

(** ** Steps *)

Inductive action :=
| Spawn
| Dispatch (p : nat) (c : callable)
| Invoke (context : option nat) (d : deferred)
| Async (name v : nat)                  (* [void] functions return [Nothing] *)
| Run (name v : nat)
| Delay (p : nat) (name : nat)          (* methods that return [void] *)
| Fires (k : nat)
| Terminate (p : nat) (inject : bool)
| Serve (p : nat).

Definition exec (a : action) (w : world) : option world :=
  match a with
  | Spawn => Some (spawn None w)
  | Dispatch p c => Some (fst (dispatch p c w))
  | Invoke context d => Some (fst (invoke context (convert d) w))
  | Async name v => Some (fst (async (Fn name (Value v)) w))
  | Run name v => Some (fst (run (Fn name (Value v)) w))
  | Delay p name => Some (mkWorld (processes w) (futures w) (timers w ++ [(p, Fn name Void)]) (trace w))
  | Fires k =>
      match timers w !! k with
      | Some (p, c) => Some (fst (dispatch p c (mkWorld (processes w) (futures w) (delete k (timers w)) (trace w))))
      | None => None
      end
  | Terminate p inject => Some (terminate p inject w)
  | Serve p => serve p w
  end.

(** Properties of dispatched and deferred functions. *)

Local Open Scope nat_scope.

Inductive reaches : world -> Prop :=
| reaches_init : reaches world_init
| reaches_step a w w' : reaches w -> exec a w = Some w' -> reaches w'.

(** ** Promises and futures *)

(** The futures whose promises were neither kept nor destroyed are those of the promises [P], each held once. *)
Definition accounted (F : list future) (P : list nat) : Prop := NoDup P /\ forall n, F !! n = Some Queued <-> n ∈ P.

#[global] Instance accounted_proper F : Proper (Permutation ==> iff) (accounted F).
Proof.
  intros P Q HPQ. unfold accounted. rewrite (NoDup_Permutation_proper P Q HPQ). by setoid_rewrite HPQ.
Qed.

(** What has been settled stays. *)
Definition kept (F F' : list future) : Prop := forall n x, F !! n = Some x -> x <> Queued -> F' !! n = Some x.
#[global] Instance kept_preorder : PreOrder kept.
Proof. split; [by intros F n x|]. intros F G K HFG HGK n x Hn Hx. apply HGK; [|done]. by apply HFG. Qed.

Lemma accounted_new F P : accounted F P -> accounted (F ++ [Queued]) (length F :: P) /\ kept F (F ++ [Queued]).
Proof.
  intros [Hnd Hp]. assert (Hlt : forall n, n ∈ P -> n < length F) by (intros n Hn%Hp; by apply lookup_lt_Some in Hn).
  split; [|intros n x Hn _; by apply lookup_app_l_Some]. split.
  - apply NoDup_cons. split; [|done]. intros Hn%Hlt. lia.
  - intros n. rewrite elem_of_cons, <- Hp. rewrite lookup_snoc_Some. split; [intros [[? ?]|[? _]]; auto|intros [->|Hn]; [by right|left]].
    split; [by apply lookup_lt_Some in Hn|done].
Qed.
Lemma accounted_dead F P : accounted F P -> accounted (F ++ [Abandoned]) P /\ kept F (F ++ [Abandoned]).
Proof.
  intros [Hnd Hp]. split; [|intros n x Hn _; by apply lookup_app_l_Some]. split; [done|]. intros n. rewrite <- Hp, lookup_snoc_Some.
  split; [by intros [[_ ?]|[_ ?]]|intros Hn]. left. split; [by apply lookup_lt_Some in Hn|done].
Qed.
Lemma accounted_settle F P n x : accounted F (n :: P) -> x <> Queued -> accounted (<[n := x]> F) P /\ kept F (<[n := x]> F).
Proof.
  intros [Hnd Hp] Hx. apply NoDup_cons in Hnd as [Hn Hnd].
  assert (Hpend : F !! n = Some Queued) by (apply Hp; by left). pose proof (lookup_lt_Some _ _ _ Hpend) as Hlt. split; [split; [done|]|].
  - intros m. destruct (decide (n = m)) as [<-|Hne].
    + rewrite list_lookup_insert_eq by done. split; [congruence|done].
    + rewrite list_lookup_insert_ne by done. rewrite Hp, elem_of_cons. split; [by intros [->|?]|auto].
  - intros m y Hm Hy. rewrite list_lookup_insert_ne; [done|]. intros <-. congruence.
Qed.
Lemma accounted_abandon l w P : accounted (futures w) (l ++ P) ->
  accounted (futures (abandon l w)) P /\ kept (futures w) (futures (abandon l w)).
Proof.
  revert P. induction l as [|n l IH]; intros P Ha; cbn; [split; [done|reflexivity]|].
  destruct (IH (n :: P)) as [Hb Hk]; [revert Ha; apply accounted_proper; cbn; by rewrite Permutation_middle|].
  destruct (accounted_settle _ P n Abandoned Hb) as [Hc Hk']; [done|]. split; [done|]. by etrans.
Qed.
Lemma abandon_same l w : processes (abandon l w) = processes w /\ timers (abandon l w) = timers w /\ trace (abandon l w) = trace w.
Proof. induction l as [|n l IH]; [done|]. by destruct IH as (? & ? & ?). Qed.

(** ** Promises in processes *)

Definition process_promises (pr : process) : list nat := (queue pr ≫= event_promise) ++ option_list (thunk_promise pr).
Definition promises (w : world) : list nat := processes w ≫= process_promises.
Definition others (p : nat) (w : world) : list nat := delete p (processes w) ≫= process_promises.

Lemma promises_split p pr w : processes w !! p = Some pr -> promises w ≡ₚ process_promises pr ++ others p w.
Proof. intros Hp. unfold promises. by rewrite (delete_Permutation _ _ _ Hp) at 1. Qed.
Lemma delete_insert_same {A} (p : nat) (x : A) (l : list A) : delete p (<[p := x]> l) = delete p l.
Proof. revert p. induction l as [|y l IH]; intros [|p]; cbn; try done. f_equal. apply IH. Qed.
Lemma promises_with p pr pr' w : processes w !! p = Some pr -> promises (put_process p pr' w) ≡ₚ process_promises pr' ++ others p w.
Proof.
  intros Hp. rewrite (promises_split p pr'); [|cbn; apply list_lookup_insert_eq; by apply lookup_lt_Some in Hp].
  unfold others. cbn. by rewrite delete_insert_same.
Qed.

(** An event has a promise exactly when its function returns something. *)
Definition event_ok (e : event) : Prop := match e with DispatchEvent c promise _ => promise = None <-> is_void c = true | TerminateEvent => True end.
Definition process_ok (pr : process) : Prop :=
  Forall event_ok (queue pr) /\
  (forall n, thunk_promise pr = Some n -> exists c, thunk pr = Some c /\ is_void c = false) /\
  (alive pr = false -> queue pr = [] /\ thunk_promise pr = None).

(** The invariant, while the promises [H] are held by a function that is being served. *)
Record inv (H : list nat) (w : world) : Prop := {
  inv_accounted : accounted (futures w) (H ++ promises w);
  inv_processes : forall p pr, processes w !! p = Some pr -> process_ok pr;
}.
Definition step (H : list nat) (w w' : world) : Prop := inv H w' /\ kept (futures w) (futures w').

Lemma put_process_ok p pr' w : (forall p pr, processes w !! p = Some pr -> process_ok pr) -> process_ok pr' ->
  forall q pr, processes (put_process p pr' w) !! q = Some pr -> process_ok pr.
Proof. intros Hall Hok q pr. cbn. intros [(<- & <- & _)|[_ Hq]]%list_lookup_insert_Some; [done|by apply (Hall q)]. Qed.

(** A process is replaced: promises move between it and what is held. *)
Lemma inv_put_process H H' p pr pr' w : inv H w -> processes w !! p = Some pr -> process_ok pr' ->
  H' ++ process_promises pr' ≡ₚ H ++ process_promises pr -> inv H' (put_process p pr' w).
Proof.
  intros [Hacc Hall] Hp Hok Hperm. split; [|by apply put_process_ok]. cbn [futures put_process].
  rewrite (promises_with p pr) by done. rewrite (promises_split p pr w Hp) in Hacc. revert Hacc. apply accounted_proper.
  by rewrite !app_assoc, Hperm.
Qed.

(** An event is delivered, with the promise that it brings. *)
Lemma deliver_ok H p e w w' : deliver p e w = Some w' -> event_ok e -> inv (event_promise e ++ H) w -> inv H w' /\ futures w' = futures w.
Proof.
  unfold deliver. destruct (processes w !! p) as [pr|] eqn:Hp; [|done]. destruct (alive pr) eqn:Ha; [|done]. intros [= <-] He HI.
  split; [|done]. destruct (inv_processes _ w HI p pr Hp) as (Hq & Ht & _). eapply inv_put_process; [done|done| |].
  - split_and!; cbn; [|done|done]. apply Forall_app. split; [done|]. by apply Forall_singleton.
  - unfold process_promises. cbn. rewrite bind_app. cbn. rewrite app_nil_r. solve_Permutation.
Qed.

Lemma dispatch_step H execute p c w : inv H w -> step H w (fst (dispatch_event execute p c w)).
Proof.
  intros [Hacc Hall]. unfold dispatch_event. destruct (is_void c) eqn:Hv.
  - cbn [fst]. destruct (deliver p (DispatchEvent c None execute) w) as [w'|] eqn:Hd; cbn [default from_option id]; [|by split].
    destruct (deliver_ok H p _ w w' Hd) as [HI Hf]; [by cbn|done|]. split; [done|]. by rewrite Hf.
  - cbn [fst]. destruct (accounted_new _ _ Hacc) as [Hnew Hk].
    destruct (deliver p (DispatchEvent c (Some (length (futures w))) execute) (new_future Queued w)) as [w'|] eqn:Hd; cbn [default from_option id].
    + destruct (deliver_ok H p _ _ w' Hd) as [HI Hf]; [by cbn; rewrite Hv|done|]. split; [done|]. by rewrite Hf.
    + unfold set_future, new_future. cbn. destruct (accounted_dead _ _ Hacc) as [Hdead Hk']. split; [split; [|done]|]; cbn;
        by rewrite insert_app_r_alt, Nat.sub_diag by lia.
Qed.

(** A call, and what it returns: something, unless it is [void]. *)
Lemma invoke_step H ctx c w : inv H w -> step H w (fst (invoke ctx c w)).
Proof. intros HI. destruct c as [name r|p c]; [|by apply dispatch_step]. split; [by destruct HI|]. cbn. reflexivity. Qed.
Lemma invoke_returns ctx c w : is_void c = false -> snd (invoke ctx c w) <> Void.
Proof.
  destruct c as [name [|v|g]|p c]; cbn; try done. unfold dispatch, dispatch_event. intros ->. done.
Qed.

(** A promise that is held is kept. *)
Lemma settle_step H promise r w : (promise <> None -> r <> Void) -> inv (option_list promise ++ H) w -> step H w (settle promise r w).
Proof.
  intros Hr [Hacc Hall]. destruct promise as [n|]; [|by split]. cbn in Hacc.
  destruct r as [|v|g]; [by destruct (Hr ltac:(done))| |].
  - by destruct (accounted_settle _ _ n (Ready v) Hacc ltac:(done)).
  - by destruct (accounted_settle _ _ n (Associated g) Hacc ltac:(done)).
Qed.
Lemma abandon_step H l w : inv (l ++ H) w -> step H w (abandon l w).
Proof.
  intros [Hacc Hall]. rewrite <- app_assoc in Hacc. destruct (accounted_abandon l w _ Hacc) as [Ha Hk].
  destruct (abandon_same l w) as (Hp & _). split; [split|done]; [|by rewrite Hp]. unfold promises. by rewrite Hp.
Qed.
Lemma step_trans H H' w1 w2 w3 : step H w1 w2 -> (inv H w2 -> step H' w2 w3) -> step H' w1 w3.
Proof. intros [HI Hk] Hn. destruct (Hn HI) as [HI' Hk']. split; [done|by etrans]. Qed.

(** ** Steps *)

Lemma invoke_settle H ctx c promise w :
  (promise <> None -> is_void c = false) -> inv (option_list promise ++ H) w ->
  step H w (let '(w, r) := invoke ctx c w in settle promise r w).
Proof.
  intros Hv HI. pose proof (invoke_step _ ctx c w HI) as Hs. pose proof (invoke_returns ctx c w) as Hr. destruct (invoke ctx c w) as [w' r].
  apply (step_trans _ _ _ _ _ Hs). apply settle_step. intros Hn. by apply Hr, Hv.
Qed.

Lemma thunk_step H p c pr e w : inv (event_promise e ++ H) w -> processes w !! p = Some pr -> thunk pr = Some c ->
  step H w (serve_thunk p c e w).
Proof.
  intros HI Hp Ht. unfold serve_thunk. rewrite Hp. destruct (inv_processes _ w HI p pr Hp) as (Hq & Hth & Hd). set (w1 := put_process p _ w).
  assert (HI1 : inv (option_list (thunk_promise pr) ++ event_promise e ++ H) w1).
  { apply (inv_put_process (event_promise e ++ H) _ p pr); [done|done| |].
    - split_and!; cbn; [done|done|]. intros Ha. by destruct (Hd Ha).
    - unfold process_promises. cbn. solve_Permutation. }
  pose proof (invoke_settle (event_promise e ++ H) (Some p) c (thunk_promise pr) w1) as Hs.
  destruct (invoke (Some p) c w1) as [w2 r].
  apply (step_trans (event_promise e ++ H) H w (settle (thunk_promise pr) r w2)); [|apply abandon_step].
  apply Hs; [|done]. destruct (thunk_promise pr) as [n|]; [|done]. intros _. destruct (Hth n eq_refl) as (c' & Hc' & Hv). congruence.
Qed.

Lemma event_step p pr e w : inv (event_promise e) w -> event_ok e -> processes w !! p = Some (mkProcess true (queue pr) (thunk pr) (thunk_promise pr)) ->
  step [] w (handle_event p pr e w).
Proof.
  intros HI He Hp. unfold handle_event. destruct (thunk pr) as [c|] eqn:Ht.
  - eapply thunk_step; [by rewrite app_nil_r|done|done].
  - destruct e as [c promise execute|]; [|by split]. set (w1 := if execute then _ else w).
    assert (HI1 : inv (option_list promise ++ []) w1 /\ futures w1 = futures w).
    { assert (Hep : event_promise (DispatchEvent c promise execute) = option_list promise ++ []) by (by destruct promise).
      rewrite <- Hep. subst w1. destruct execute; [|done]. rewrite Hp. split; [|done]. eapply inv_put_process; [done|done| |done].
      destruct (inv_processes _ w HI p _ Hp) as (Hq & Hth & Hd). split_and!; cbn; [|done|done]. by apply Forall_cons. }
    destruct HI1 as [HI1 Hf]. destruct (invoke_settle [] (Some p) c promise w1) as [HI2 Hk]; [|done|].
    + intros Hn. cbn in He. destruct (is_void c) eqn:Hv; [|done]. destruct Hn. by apply He.
    + split; [done|]. by rewrite Hf in Hk.
Qed.

Lemma cleanup_keeps p w : inv [] w -> step [] w (cleanup p w).
Proof.
  intros HI. unfold cleanup. destruct (processes w !! p) as [pr|] eqn:Hp; [|by split]. set (w1 := put_process p _ w).
  assert (HI1 : inv (option_list (thunk_promise pr) ++ (queue pr ≫= event_promise) ++ []) w1).
  { eapply inv_put_process; [done|done| |].
    - split_and!; cbn; [by apply Forall_nil|done|done].
    - unfold process_promises. cbn. rewrite !app_nil_r. apply Permutation_app_comm. }
  apply (step_trans ((queue pr ≫= event_promise) ++ []) [] w (abandon (match thunk_promise pr with Some n => [n] | None => [] end) w1));
    [|apply abandon_step].
  by apply (abandon_step _ (option_list (thunk_promise pr)) w1).
Qed.

Lemma serve_keeps p w w' : inv [] w -> serve p w = Some w' -> step [] w w'.
Proof.
  intros HI. unfold serve. destruct (processes w !! p) as [pr|] eqn:Hp; [|done]. destruct (alive pr) eqn:Ha; [|done].
  destruct (queue pr) as [|e l] eqn:Hq; [done|]. set (w1 := put_process p _ w). intros [= <-].
  destruct (inv_processes _ w HI p pr Hp) as (Hev & Hth & Hd). rewrite Hq in Hev. apply Forall_cons in Hev as [He Hl].
  assert (HI1 : inv (event_promise e) w1).
  { eapply inv_put_process; [done|done| |].
    - by split_and!.
    - unfold process_promises. cbn. rewrite Hq. cbn. by rewrite app_assoc. }
  assert (Hs : step [] w (handle_event p pr e w1)).
  { apply (event_step p (mkProcess true l (thunk pr) (thunk_promise pr)) e w1); [done|done|]. cbn.
    apply list_lookup_insert_eq. by apply lookup_lt_Some in Hp. }
  destruct e; [done|]. apply (step_trans _ _ _ _ _ Hs). apply cleanup_keeps.
Qed.

Lemma spawn_inv t H w : (forall c n, t = Some (c, n) -> is_void c = false) -> inv (option_list (snd <$> t) ++ H) w -> inv H (spawn t w).
Proof.
  intros Ht [Hacc Hall]. split.
  - unfold promises, spawn. cbn. rewrite bind_app. cbn. revert Hacc. apply accounted_proper. unfold process_promises. cbn.
    rewrite app_nil_r. solve_Permutation.
  - intros p pr. unfold spawn. cbn. rewrite lookup_snoc_Some. intros [[_ Hp]|[_ <-]]; [by apply (Hall p)|].
    split_and!; cbn; [by apply Forall_nil| |done]. destruct t as [[c n]|]; cbn; [|done]. intros m _. exists c. split; [done|by apply (Ht c n)].
Qed.

Lemma terminate_keeps p inject w : inv [] w -> step [] w (terminate p inject w).
Proof.
  intros HI. unfold terminate. destruct (processes w !! p) as [pr|] eqn:Hp; [|by split]. destruct (alive pr) eqn:Ha; [|by split].
  split; [|cbn; reflexivity]. destruct (inv_processes _ w HI p pr Hp) as (Hev & Hth & Hd). eapply inv_put_process; [done|done| |].
  - split_and!; cbn; [|done|done]. destruct inject; [by apply Forall_cons|]. apply Forall_app. split; [done|]. by apply Forall_singleton.
  - unfold process_promises. cbn. destruct inject; cbn; [done|]. rewrite bind_app. cbn. by rewrite app_nil_r.
Qed.

Lemma exec_step a w w' : inv [] w -> exec a w = Some w' -> step [] w w'.
Proof.
  intros HI. destruct a as [|p c|ctx d|name v|name v|p name|k|p inject|p]; cbn [exec].
  - intros [= <-]. split; [by apply spawn_inv|]. cbn. reflexivity.
  - intros [= <-]. by apply dispatch_step.
  - intros [= <-]. by apply invoke_step.
  - intros [= <-]. apply (step_trans [] [] w (spawn None w)); [split; [by apply spawn_inv|cbn; reflexivity]|].
    apply (dispatch_step [] true (length (processes w)) (Fn name (Value v)) (spawn None w)).
  - intros [= <-]. unfold run. cbn [fst].
    apply (step_trans [] [] w (spawn (Some (Fn name (Value v), length (futures w))) (new_future Queued w))); [|apply terminate_keeps].
    destruct HI as [Hacc Hall]. destruct (accounted_new _ _ Hacc) as [Hnew Hk]. split; [|done]. apply spawn_inv; [by intros c n [= <- <-]|]. by split.
  - intros [= <-]. split; [by destruct HI|]. cbn. reflexivity.
  - destruct (timers w !! k) as [[p c]|]; [|done]. intros [= <-].
    apply (dispatch_step [] false p c (mkWorld (processes w) (futures w) (delete k (timers w)) (trace w))). by destruct HI.
  - intros [= <-]. by apply terminate_keeps.
  - by apply serve_keeps.
Qed.
Lemma reaches_inv w : reaches w -> inv [] w.
Proof.
  induction 1 as [|a w w' _ IH He]; [|by apply (exec_step a w w' IH He)]. split; [|done]. split; [by apply NoDup_nil|].
  intros n. cbn. split; [done|]. intros Hn. by apply not_elem_of_nil in Hn.
Qed.

(** A value stays. *)
Lemma value_kept F F' n v fuel : kept F F' -> value fuel F n = Some v -> value fuel F' n = Some v.
Proof.
  intros Hk. revert n. induction fuel as [|fuel IH]; intros n; [done|]. cbn. destruct (F !! n) as [[| |g|]|] eqn:Hn; try done.
  - rewrite (Hk n _ Hn) by done. done.
  - rewrite (Hk n _ Hn) by done. apply IH.
Qed.

(** The future of a function that returned [r]. *)
Definition outcome_future (r : outcome) : future := match r with Void => Queued | Value v => Ready v | Pends g => Associated g end.

(** The function of an event is called, and what it returns becomes the future. *)
Lemma serve_settles p pr name r n execute l w w' :
  inv [] w -> processes w !! p = Some pr -> thunk pr = None -> queue pr = DispatchEvent (Fn name r) (Some n) execute :: l ->
  serve p w = Some w' -> futures w' !! n = Some (outcome_future r).
Proof.
  intros HI Hp Ht Hq. destruct (inv_accounted _ w HI) as [_ Hacc]. destruct (inv_processes _ w HI p pr Hp) as (Hev & _ & _).
  assert (Hn : futures w !! n = Some Queued).
  { apply Hacc. cbn. apply list_elem_of_bind. exists pr. split; [|by apply list_elem_of_lookup_2 in Hp].
    unfold process_promises. rewrite Hq. cbn. set_solver. }
  rewrite Hq in Hev. apply Forall_cons in Hev as [He _]. cbn in He.
  assert (Hr : r <> Void) by (intros ->; by destruct He as [_ He]; specialize (He eq_refl)).
  unfold serve. rewrite Hp, Hq. destruct (alive pr); [|done]. intros [= <-]. unfold handle_event. rewrite Ht.
  set (w1 := if execute then _ else _). assert (Hf : futures w1 = futures w) by (subst w1; destruct execute; [destruct (processes (put_process _ _ _) !! p)|]; reflexivity).
  cbn. destruct r as [|v|g]; [done|..]; cbn; rewrite Hf; apply list_lookup_insert_eq; by eapply lookup_lt_Some.
Qed.


(** ** Where functions run *)

(** The user's function behind a callable, and the process in which it runs when the callable
    is called in [context]. *)
Fixpoint target (context : option nat) (c : callable) : nat * option nat :=
  match c with Fn name _ => (name, context) | Dispatcher p c => target (Some p) c end.

Section Homes.
(** The process in which each function is to run. *)
Context (home : nat -> option nat).

Definition sent_home (context : option nat) (c : callable) : Prop := home (target context c).1 = (target context c).2.

(** Every call is made so that the function gets there. *)
Definition respects (w : world) (a : action) : Prop :=
  match a with
  | Dispatch p c => sent_home (Some p) c
  | Invoke context d => sent_home context (convert d)
  | Async name _ | Run name _ => home name = Some (length (processes w))
  | Delay p name => home name = Some p
  | _ => True
  end.

Record at_home (w : world) : Prop := {
  home_events : forall p pr c promise execute, processes w !! p = Some pr -> DispatchEvent c promise execute ∈ queue pr -> sent_home (Some p) c;
  home_thunks : forall p pr c, processes w !! p = Some pr -> thunk pr = Some c -> sent_home (Some p) c;
  home_timers : forall p c, (p, c) ∈ timers w -> sent_home (Some p) c;
  home_trace : forall name at_, (name, at_) ∈ trace w -> home name = at_;
}.

Lemma home_frame w w' : (forall p pr, processes w' !! p = Some pr -> processes w !! p = Some pr) ->
  (forall x, x ∈ timers w' -> x ∈ timers w) -> trace w' = trace w -> at_home w -> at_home w'.
Proof.
  intros Hp Ht Htr [A B C D]. split.
  - intros p pr c promise execute Hpr. apply (A p pr). by apply Hp.
  - intros p pr c Hpr. apply (B p pr). by apply Hp.
  - intros p c Hin. by apply C, Ht.
  - by rewrite Htr.
Qed.
Lemma home_process p pr' w : at_home w ->
  (forall c promise execute, DispatchEvent c promise execute ∈ queue pr' -> sent_home (Some p) c) ->
  (forall c, thunk pr' = Some c -> sent_home (Some p) c) -> at_home (put_process p pr' w).
Proof.
  intros [A B C D] Hq Ht. split; cbn; [| |done|done].
  - intros q pr c promise execute [(<- & <- & _)|[_ Hl]]%list_lookup_insert_Some; [apply Hq|by apply (A q pr)].
  - intros q pr c [(<- & <- & _)|[_ Hl]]%list_lookup_insert_Some; [apply Ht|by apply (B q pr)].
Qed.

Lemma dispatch_home execute p c w : at_home w -> sent_home (Some p) c -> at_home (fst (dispatch_event execute p c w)).
Proof.
  intros HA Hc. assert (Hd : forall promise w1, at_home w1 -> at_home (default w1 (deliver p (DispatchEvent c promise execute) w1))).
  { intros promise w1 HA1. unfold deliver. destruct (processes w1 !! p) as [pr|] eqn:Hp; [|done]. destruct (alive pr); [|done]. cbn.
    apply home_process; [done| |intros c0; by apply (home_thunks w1 HA1 p pr)]. cbn. intros c' promise' execute'.
    rewrite elem_of_app, list_elem_of_singleton. intros [Hin|[= -> _ _]]; [by eapply (home_events w1 HA1)|done]. }
  unfold dispatch_event. destruct (is_void c); [by apply Hd|]. cbn [fst]. specialize (Hd (Some (length (futures w))) (new_future Queued w)).
  destruct (deliver _ _ _); cbn in *; [apply Hd|]; by apply (home_frame w).
Qed.
Lemma invoke_home context c w : at_home w -> sent_home context c -> at_home (fst (invoke context c w)).
Proof.
  intros HA Hc. destruct c as [name r|p c]; [|by apply dispatch_home]. destruct HA as [A B C D]. split; cbn; [done|done|done|].
  intros n at_. rewrite elem_of_app, list_elem_of_singleton. intros [Hin|[= -> ->]]; [by apply D|done].
Qed.
Lemma settle_home promise r w : at_home w -> at_home (settle promise r w).
Proof. intros HA. destruct promise, r; try done; by apply (home_frame w). Qed.
Lemma abandon_home l w : at_home w -> at_home (abandon l w).
Proof. intros HA. destruct (abandon_same l w) as (Hp & Ht & Htr). apply (home_frame w); [by rewrite Hp|by rewrite Ht|done|done]. Qed.

Lemma event_home p pr e w : at_home w -> (forall c, thunk pr = Some c -> sent_home (Some p) c) ->
  (forall c promise execute, e = DispatchEvent c promise execute -> sent_home (Some p) c) -> at_home (handle_event p pr e w).
Proof.
  intros HA Ht He. unfold handle_event. destruct (thunk pr) as [c|] eqn:Hth.
  - unfold serve_thunk. destruct (processes w !! p) as [pr'|] eqn:Hp; [|done]. set (w1 := put_process p _ w).
    assert (HA1 : at_home w1) by (apply home_process; [done|intros c0 pm ex; by apply (home_events w HA p pr')|intros c0; by apply (home_thunks w HA p pr')]).
    pose proof (invoke_home (Some p) c w1 HA1 (Ht c eq_refl)) as Hi. destruct (invoke (Some p) c w1) as [w2 r].
    by apply abandon_home, settle_home.
  - destruct e as [c promise execute|]; [|done]. set (w1 := if execute then _ else w). assert (HA1 : at_home w1).
    { subst w1. destruct execute; [|done]. destruct (processes w !! p) as [pr'|] eqn:Hp; [|done].
      apply home_process; [done| |intros c0; by apply (home_thunks w HA p pr')]. cbn. intros c' promise' execute' [?|Hin]%elem_of_cons; [done|].
      by eapply (home_events w HA). }
    pose proof (invoke_home (Some p) c w1 HA1 (He c promise execute eq_refl)) as Hi. destruct (invoke (Some p) c w1) as [w2 r].
    by apply settle_home.
Qed.

Lemma serve_home p w w' : at_home w -> serve p w = Some w' -> at_home w'.
Proof.
  intros HA. unfold serve. destruct (processes w !! p) as [pr|] eqn:Hp; [|done]. destruct (alive pr); [|done].
  destruct (queue pr) as [|e l] eqn:Hq; [done|]. set (w1 := put_process p _ w). intros [= <-].
  assert (HA1 : at_home w1).
  { apply home_process; [done| |intros c0; by apply (home_thunks w HA p pr)]. cbn. intros c promise execute Hin. eapply (home_events w HA); [done|].
    rewrite Hq. by right. }
  assert (HA2 : at_home (handle_event p pr e w1)).
  { apply event_home; [done|intros c0; by apply (home_thunks w HA p pr)|]. intros c promise execute ->. eapply (home_events w HA); [done|]. rewrite Hq. by left. }
  destruct e; [done|]. unfold cleanup. destruct (processes (handle_event p pr TerminateEvent w1) !! p) as [pr'|] eqn:Hp'; [|done].
  apply abandon_home, abandon_home, home_process; [done| |done]. cbn. intros c promise execute Hin. by apply not_elem_of_nil in Hin.
Qed.

Lemma spawn_home t w : at_home w -> (forall c n, t = Some (c, n) -> sent_home (Some (length (processes w))) c) -> at_home (spawn t w).
Proof.
  intros [A B C D] Ht. split; cbn; [| |done|done].
  - intros p pr c promise execute. rewrite lookup_snoc_Some. intros [[_ Hp]|[_ <-]]; [by apply (A p pr)|]. cbn. intros Hin. by apply not_elem_of_nil in Hin.
  - intros p pr c. rewrite lookup_snoc_Some. intros [[_ Hp]|[-> <-]]; [by apply (B p pr)|]. cbn. destruct t as [[c' n]|]; [|done].
    cbn. intros [= ->]. by apply (Ht c n).
Qed.
Lemma terminate_home p inject w : at_home w -> at_home (terminate p inject w).
Proof.
  intros HA. unfold terminate. destruct (processes w !! p) as [pr|] eqn:Hp; [|done]. destruct (alive pr); [|done].
  apply home_process; [done| |intros c0; by apply (home_thunks w HA p pr)]. cbn. intros c promise execute Hin. apply (home_events w HA p pr c promise execute Hp).
  destruct inject; [by apply elem_of_cons in Hin as [?|?]|]. apply elem_of_app in Hin as [?|Hin]; [done|]. by apply list_elem_of_singleton in Hin.
Qed.

Lemma exec_home a w w' : at_home w -> respects w a -> exec a w = Some w' -> at_home w'.
Proof.
  intros HA Hr. destruct a as [|p c|ctx d|name v|name v|p name|k|p inject|p]; cbn [exec respects] in *.
  - intros [= <-]. by apply spawn_home.
  - intros [= <-]. by apply dispatch_home.
  - intros [= <-]. by apply invoke_home.
  - intros [= <-]. apply (dispatch_home true (length (processes w)) (Fn name (Value v)) (spawn None w)); [by apply spawn_home|done].
  - intros [= <-]. apply (terminate_home (length (processes w)) true (spawn (Some (Fn name (Value v), length (futures w))) (new_future Queued w))).
    apply spawn_home; [by apply (home_frame w)|]. by intros c n [= <- <-].
  - intros [= <-]. destruct HA as [A B C D]. split; cbn; [done|done| |done]. intros q c.
    rewrite elem_of_app, list_elem_of_singleton. intros [Hin|[= -> ->]]; [by apply C|done].
  - destruct (timers w !! k) as [[p c]|] eqn:Hk; [|done]. intros [= <-].
    apply (dispatch_home false p c (mkWorld (processes w) (futures w) (delete k (timers w)) (trace w))).
    + apply (home_frame w); try done. cbn. intros x Hx. eapply elem_of_submseteq; [exact Hx|apply sublist_submseteq, sublist_delete].
    + by eapply (home_timers w HA), list_elem_of_lookup_2.
  - intros [= <-]. by apply terminate_home.
  - by apply serve_home.
Qed.

Inductive reaches_home : world -> Prop :=
| reaches_home_init : reaches_home world_init
| reaches_home_step a w w' : reaches_home w -> respects w a -> exec a w = Some w' -> reaches_home w'.

(** C36: a function that is given to a process, by [dispatch], [defer], [async], [run] or [delay],
    is called in that process and nowhere else, also when the deferred function is called by
    another process, by a timer or by a thread that belongs to none: so it never runs at the
    same time as other functions of the process. *)
Theorem functions_run_at_home w : reaches_home w ->
  (forall name at_, (name, at_) ∈ trace w -> at_ = home name) /\
  (forall context p c, target context (convert (defer p c)) = target (Some p) c /\ target context (convert (defer_method p c)) = target (Some p) c) /\
  (forall context here executor c, target context (convert (defer_here here executor c)) = target (Some (default executor here)) c).
Proof.
  intros Hr. split_and!; [|done|done]. assert (HA : at_home w).
  { induction Hr as [|a w w' _ IH Hre He]; [|by apply (exec_home a w)]. split; cbn; [done|done|..]; intros ? ? Hin; by apply not_elem_of_nil in Hin. }
  intros name at_ Hin. symmetry. by apply (home_trace w HA).
Qed.
End Homes.

(** [async] calls its function once, in a process of its own that is gone after it, and the
    future has the value; nothing but the value and the trace is left of it. *)
Theorem async_runs_once name v w : exists w',
  serve (length (processes w)) (fst (async (Fn name (Value v)) w)) = Some w' /\
  trace w' = trace w ++ [(name, Some (length (processes w)))] /\
  futures w' = futures w ++ [Ready v] /\
  exists w'', serve (length (processes w)) w' = Some w'' /\ processes w'' = processes w ++ [mkProcess false [] None None] /\
    futures w'' = futures w' /\ trace w'' = trace w'.
Proof.
  assert (Hat : forall (l : list process) x, (l ++ [x]) !! length l = Some x) by (intros l x; by rewrite lookup_app_r, Nat.sub_diag by lia).
  assert (Hin : forall {A} (l : list A) x y, <[length l := y]> (l ++ [x]) = l ++ [y]) by (intros A l x y; by rewrite insert_app_r_alt, Nat.sub_diag by lia).
  unfold async, dispatch_event. cbn [is_void fst]. unfold deliver, new_future, spawn. cbn. rewrite Hat. cbn. unfold put_process. cbn. rewrite Hin.
  unfold serve at 1. cbn. rewrite Hat. cbn. unfold put_process, handle_event. cbn. rewrite Hin, Hat. unfold put_process. cbn. rewrite !Hin.
  unfold set_future. cbn. rewrite Hin. eexists. split; [done|]. cbn. split_and!; [done|done|].
  unfold serve. cbn. rewrite Hat. cbn. unfold put_process, handle_event. cbn. rewrite Hin. unfold cleanup. cbn. rewrite Hat. cbn.
  unfold put_process. cbn. rewrite Hin. by eexists.
Qed.

(** Concrete runs of dispatched and deferred functions. *)

Local Open Scope nat_scope.

Fixpoint play (l : list action) (w : world) : option world :=
  match l with [] => Some w | a :: l => match exec a w with Some w => play l w | None => None end end.
Definition after (l : list action) : world := default world_init (play l world_init).
Lemma play_reaches_world l w w' : reaches w -> play l w = Some w' -> reaches w'.
Proof.
  revert w. induction l as [|a l IH]; intros w Hr; cbn; [by intros [= <-]|]. destruct (exec a w) as [w1|] eqn:He; [|done].
  apply IH. by eapply reaches_step.
Qed.

(** Two processes; a call that waits in the first, a function deferred to it that the second
    calls, a method whose result is a future, and [async]. *)
Definition example : list action :=
  [Spawn; Spawn; Dispatch 0 (Fn 10 (Value 7)); Invoke (Some 1) (defer 0 (Fn 11 Void)); Dispatch 1 (Fn 12 (Pends 0)); Serve 1;
   Async 13 4; Serve 2; Serve 2; Serve 0; Delay 0 14].
Example example_futures : futures (after example) = [Ready 7; Associated 0; Ready 4].
Proof. reflexivity. Qed.

Lemma example_reached : reaches (after example).
Proof. apply (play_reaches_world example world_init (after example)); [apply reaches_init|vm_compute; reflexivity]. Qed.


Definition homes (name : nat) : option nat := match name with 10 | 11 | 14 => Some 0 | 12 => Some 1 | 13 => Some 2 | _ => None end.
Fixpoint all_respect (l : list action) (w : world) : Prop :=
  match l with [] => True | a :: l => respects homes w a /\ match exec a w with Some w => all_respect l w | None => True end end.
Lemma play_reaches_home l w w' : reaches_home homes w -> all_respect l w -> play l w = Some w' -> reaches_home homes w'.
Proof.
  revert w. induction l as [|a l IH]; intros w Hr; cbn; [by intros _ [= <-]|]. intros [Ha Hl].
  destruct (exec a w) as [w1|] eqn:He; [|done]. apply IH; [by eapply reaches_home_step|done].
Qed.
Lemma functions_run_at_home_witness :
  trace (after example) <> [] /\ (forall name at_, (name, at_) ∈ trace (after example) -> at_ = homes name).
Proof.
  split; [vm_compute; discriminate|]. refine (proj1 (functions_run_at_home homes (after example) _)).
  apply (play_reaches_home example world_init (after example)); [apply reaches_home_init| |vm_compute; reflexivity].
  vm_compute. repeat split; reflexivity.
Defined.

(** A call that waits when its process is terminated is abandoned; a function deferred to it
    and called later too. *)
Example terminated_process_abandons :
  futures (after [Spawn; Dispatch 0 (Fn 1 (Value 2)); Terminate 0 true; Serve 0; Invoke None (defer 0 (Fn 3 (Value 4)))]) = [Abandoned; Abandoned].
Proof. reflexivity. Qed.

(** [run] calls its function when the process ends. *)
Example run_runs : futures (after [Run 1 5; Serve 0]) = [Ready 5] /\ trace (after [Run 1 5; Serve 0]) = [(1, Some 0)].
Proof. done. Qed.
