(* ===== verification/HttpClient.v ===== *)
(** The helpers of the HTTP client ([http.cpp]): [connect], [createRequest], [request], [get],
    [post], [requestDelete] and their streaming variants.  They turn a URL, or the name of a
    process, into a request that is sent on a connection of its own.

    [getIP] is [net::getIP(domain, AF_INET)]; [ssl] says whether the library was built with TLS.
    What the connection does with the request is the component of HTTP connections. *)

From Stdlib Require Import Ascii String.
From S2P Require Import Prelude HttpCodec HttpText Decoders Digits Pid.

Local Open Scope string_scope.
Local Open Scope nat_scope.

Section Client.
Context `{Stout} `{IpAddresses}.
Context (getIP : string -> Try string) (ssl : bool).

(** ** Connections *)

Inductive Scheme := HTTP | HTTPS.

(** What [connect(address, scheme, peer_hostname)] is called with. *)
Record connection := mkConnection { to_ip : string; to_port : nat; to_scheme : Scheme; peer_hostname : option string }.

(** The address of a URL, and then [connect(url)]. *)
Definition url_ip (u : URL) : Try string :=
  match HttpText.ip u, domain u with
  | None, None => Error "Expected URL.ip or URL.domain to be set"
  | Some i, _ => Some_ i
  | None, Some d =>
      match getIP d with
      | Some_ i => Some_ i
      | Error m => Error ("Failed to determine IP of domain '" +:+ d +:+ "': " +:+ m)
      end
  end.
Definition connect (u : URL) : Try connection :=
  match url_ip u with
  | Error m => Error m
  | Some_ i =>
      match HttpText.port u with
      | None => Error "Expecting url.port to be set"
      | Some p =>
          if bool_decide (scheme u = None) || bool_decide (scheme u = Some "http") then Some_ (mkConnection i p HTTP (domain u))
          else if bool_decide (scheme u = Some "https") then
            (if ssl then Some_ (mkConnection i p HTTPS (domain u)) else Error "'https' scheme requires SSL enabled")
          else Error "Unsupported URL scheme"
      end
  end.

(** ** Requests *)

(** A request that was handed to a connection. *)
Record sending := mkSending { on : connection; sent_request : Request; streamed : bool }.

(** [request(request, streamedResponse)]. *)
Definition request (r : Request) (streamedResponse : bool) : checked (Try sending) :=
  if keepAlive r then Abort "CHECK(!request.keepAlive)"
  else Returns (match connect (url r) with Error m => Error m | Some_ c => Some_ (mkSending c r streamedResponse) end).

(** [createRequest(url, method, headers, body, contentType)]. *)
Definition createRequest (u : URL) (method : string) (headers : option Headers) (body contentType : option string) : Request :=
  let h := default ∅ headers in
  let h := match contentType with Some c => header_set "Content-Type" c h | None => h end in
  mkRequest method u h false BODY (default "" body) None.

(** [URL(scheme, net::IP(upid.address.ip), upid.address.port, upid.id)] and the path that is
    joined to it. *)
Definition pid_url (s : string) (p : UPID) (path : option string) : URL :=
  let base := Pid.id p in
  mkURL (Some s) None (Some (IP_text (Pid.ip (Pid.address p)))) (Some (Z.to_nat (Pid.port (Pid.address p))))
    (match path with Some path => base +:+ "/" +:+ path | None => base end) ∅ None.
Definition with_query (q : gmap string string) (u : URL) : URL :=
  mkURL (scheme u) (domain u) (HttpText.ip u) (HttpText.port u) (url_path u) q (fragment u).

(** [createRequest(upid, method, enableSSL, path, headers, body, contentType)]. *)
Definition createRequest_pid (p : UPID) (method : string) (enableSSL : bool) (path : option string) (headers : option Headers)
    (body contentType : option string) : Request :=
  createRequest (pid_url (if enableSSL then "https" else "http") p path) method headers body contentType.

(** [get(url, headers)] and [streaming::get(url, headers)]; the headers replace the empty ones. *)
Definition get (streaming : bool) (u : URL) (headers : option Headers) : checked (Try sending) :=
  let r := mkRequest "GET" u ∅ false BODY "" None in
  let r := match headers with Some h => set_req_headers h r | None => r end in
  request r streaming.

(** [get(upid, path, query, headers, scheme)]. *)
Definition get_pid (streaming : bool) (p : UPID) (path query : option string) (headers : option Headers) (s : option string)
    : checked (Try sending) :=
  let u := pid_url (default "http" s) p path in
  match query with
  | None => get streaming u headers
  | Some q =>
      match query_decode (remove_prefix q "?") with
      | Error m => Returns (Error ("Failed to decode HTTP query string: " +:+ m))
      | Some_ q => get streaming (with_query q u) headers
      end
  end.

(** [post(url, headers, body, contentType)]. *)
Definition post (streaming : bool) (u : URL) (headers : option Headers) (body contentType : option string) : checked (Try sending) :=
  if bool_decide (body = None) && bool_decide (contentType <> None)
  then Returns (Error "Attempted to do a POST with a Content-Type but no body")
  else
    let r := mkRequest "POST" u ∅ false BODY "" None in
    let r := match headers with Some h => set_req_headers h r | None => r end in
    let r := match body with Some b => set_req_body b r | None => r end in
    let r := match contentType with Some c => set_req_headers (header_set "Content-Type" c (req_headers r)) r | None => r end in
    request r streaming.
Definition post_pid (streaming : bool) (p : UPID) (path : option string) (headers : option Headers) (body contentType s : option string)
    : checked (Try sending) :=
  post streaming (pid_url (default "http" s) p path) headers body contentType.

(** [requestDelete(url, headers)]. *)
Definition requestDelete (u : URL) (headers : option Headers) : checked (Try sending) :=
  let r := mkRequest "DELETE" u ∅ false BODY "" None in
  let r := match headers with Some h => set_req_headers h r | None => r end in
  request r false.
Definition requestDelete_pid (p : UPID) (path : option string) (headers : option Headers) (s : option string) : checked (Try sending) :=
  requestDelete (pid_url (default "http" s) p path) headers.

End Client.

(** Properties of the helpers of the HTTP client. *)

From S2P Require Import HttpTextSpec TlsConfig.

Local Open Scope string_scope.
Local Open Scope nat_scope.

Section Helpers.
Context `{Stout} `{IpAddresses}.
Context (getIP : string -> Try string) (ssl : bool).

(** A request on a connection to its URL. *)
Definition attempt (streaming : bool) (r : Request) : Try sending :=
  match connect getIP ssl (url r) with Error m => Error m | Some_ c => Some_ (mkSending c r streaming) end.

(** The header of the content type: the one that was given wins. *)
Lemma content_type u m h b c :
  header_get "Content-Type" (req_headers (createRequest u m h b c)) =
  match c with Some c => Some c | None => header_get "Content-Type" (default ∅ h) end.
Proof. destruct c as [c|]; [|done]. apply header_get_set. Qed.

(** Every helper sends the request that [createRequest] builds of its arguments, on a
    connection to its URL; the only other outcomes are the failures of [connect], of an
    undecodable query, and of a POST with a content type but no body.  The [CHECK] of [request]
    never fails, and the streaming helpers send the same requests. *)
Theorem helpers_send_created_requests streaming u p path query headers body ct s :
  let pid := pid_url (default "http" s) p path in
  let posted u := if bool_decide (body = None) && bool_decide (ct <> None)
                  then Error "Attempted to do a POST with a Content-Type but no body"
                  else attempt streaming (createRequest u "POST" headers body ct) in
  get getIP ssl streaming u headers = Returns (attempt streaming (createRequest u "GET" headers None None)) /\
  get_pid getIP ssl streaming p path query headers s =
    Returns (match query with
             | None => attempt streaming (createRequest pid "GET" headers None None)
             | Some q =>
                 match query_decode (remove_prefix q "?") with
                 | Error m => Error ("Failed to decode HTTP query string: " +:+ m)
                 | Some_ q => attempt streaming (createRequest (with_query q pid) "GET" headers None None)
                 end
             end) /\
  post getIP ssl streaming u headers body ct = Returns (posted u) /\
  post_pid getIP ssl streaming p path headers body ct s = Returns (posted pid) /\
  requestDelete getIP ssl u headers = Returns (attempt false (createRequest u "DELETE" headers None None)) /\
  requestDelete_pid getIP ssl p path headers s = Returns (attempt false (createRequest pid "DELETE" headers None None)).
Proof.
  assert (Hget : forall st u, get getIP ssl st u headers = Returns (attempt st (createRequest u "GET" headers None None))) by (by destruct headers).
  assert (Hpost : forall u, post getIP ssl streaming u headers body ct =
    Returns (if bool_decide (body = None) && bool_decide (ct <> None) then Error "Attempted to do a POST with a Content-Type but no body"
             else attempt streaming (createRequest u "POST" headers body ct))).
  { intros v. unfold post. destruct (_ && _); [done|]. by destruct headers, body, ct. }
  assert (Hdel : forall u, requestDelete getIP ssl u headers = Returns (attempt false (createRequest u "DELETE" headers None None))) by (by destruct headers).
  cbn zeta. split_and!; [apply Hget| |apply Hpost|apply Hpost|apply Hdel|apply Hdel].
  unfold get_pid. destruct query as [q|]; [|apply Hget]. destruct (query_decode _); [apply Hget|done].
Qed.

(** A URL that was parsed has a scheme, a domain and a port, and no address. *)
Lemma parsed_shape text u : URL_parse text = Returns (Some_ u) ->
  exists s d p, scheme u = Some s /\ domain u = Some d /\ HttpText.ip u = None /\ HttpText.port u = Some p.
Proof.
  assert (Ha : forall s h path, parse_authority s h path = Returns (Some_ u) ->
    exists s d p, scheme u = Some s /\ domain u = Some d /\ HttpText.ip u = None /\ HttpText.port u = Some p).
  { intros s h path. unfold parse_authority. destruct (String.eqb h ""); [done|]. destruct (tokenize h ":") as [|t0 [|t1 [|t2 ts]]]; try done;
      destruct (String.eqb t0 ""); try done.
    - destruct (defaultPort s) as [p|]; [|done]. intros [= <-]. by exists s, t0, p.
    - destruct (numify_uint16 t1) as [p|m]; [|done]. intros [= <-]. by exists s, t0, p. }
  unfold URL_parse. destruct (index 0 "://" text) as [n|]; [|done]. destruct (index 0 "/" (substr (n + 3) text)) as [[|k]|]; [done|apply Ha|apply Ha].
Qed.

(** A URL that was parsed from text can be connected to: it fails only when the domain is not
    resolved, the scheme is neither http nor https, or the library has no TLS; the connection
    goes to the address of the domain and the port, and the domain is the name to verify. *)
Theorem parsed_url_connects text u : URL_parse text = Returns (Some_ u) ->
  exists s d p, scheme u = Some s /\ domain u = Some d /\ HttpText.port u = Some p /\
  connect getIP ssl u =
    match getIP d with
    | Error m => Error ("Failed to determine IP of domain '" +:+ d +:+ "': " +:+ m)
    | Some_ i =>
        if decide (s = "http") then Some_ (mkConnection i p HTTP (Some d))
        else if decide (s = "https") then
          (if ssl then Some_ (mkConnection i p HTTPS (Some d)) else Error "'https' scheme requires SSL enabled")
        else Error "Unsupported URL scheme"
    end.
Proof.
  intros Hp. destruct (parsed_shape text u Hp) as (s & d & p & Hs & Hd & Hi & Hpo). exists s, d, p. split_and!; try done.
  unfold connect, url_ip. rewrite Hs, Hd, Hi, Hpo. destruct (getIP d) as [i|m]; [|done]. rewrite bool_decide_eq_false_2 by done. cbn [orb].
  destruct (decide (s = "http")) as [->|H1]; [by rewrite bool_decide_eq_true_2|]. rewrite bool_decide_eq_false_2 by congruence.
  destruct (decide (s = "https")) as [->|H2]; [by rewrite bool_decide_eq_true_2|]. by rewrite bool_decide_eq_false_2 by congruence.
Qed.

(** A request to the name of a process over https never has a hostname to verify, also
    when the name of the process has one: with the hostname validation scheme [openssl] and without
    the verification of addresses the configuration of its socket always fails. *)
Theorem https_to_process_unverifiable p path f host_ok ip_ok address :
  ssl = true -> hostname_validation_scheme f = "openssl" -> verify_cert f = true -> verify_ipadd f = false ->
  exists c, connect getIP ssl (pid_url "https" p path) = Some_ c /\ to_scheme c = HTTPS /\ peer_hostname c = None /\
  configure_socket host_ok ip_ok f CLIENT address (peer_hostname c) =
    Error "No DNS name given and IP address verification is  disabled. I cannot work like this :(".
Proof.
  intros -> Hs Hv Hi. eexists. split; [done|]. split_and!; [done|done|]. unfold configure_socket. cbn [peer_hostname].
  rewrite decide_True by done. by rewrite Hv, Hi.
Qed.

End Helpers.

(** Concrete requests of the HTTP client. *)

From S2P Require Import HttpTextWitness.

Local Open Scope string_scope.
Local Open Scope nat_scope.

#[local] Existing Instance HttpTextWitness.stout.
#[local] Existing Instance Pid.some_addresses.

Definition dns (d : string) : Try string := if decide (d = "example.org") then Some_ "192.0.2.1" else Error "unknown host".
Definition parsed : URL := mkURL (Some "https") (Some "example.org") None (Some 443) "/x" ∅ None.

Lemma parsed_url_connects_witness : exists s d p, scheme parsed = Some s /\ domain parsed = Some d /\ HttpText.port parsed = Some p /\
  connect dns true parsed =
    match dns d with
    | Error m => Error ("Failed to determine IP of domain '" +:+ d +:+ "': " +:+ m)
    | Some_ i =>
        if decide (s = "http") then Some_ (mkConnection i p HTTP (Some d))
        else if decide (s = "https") then
          (if true then Some_ (mkConnection i p HTTPS (Some d)) else Error "'https' scheme requires SSL enabled")
        else Error "Unsupported URL scheme"
    end.
Proof. apply (parsed_url_connects dns true "https://example.org/x" parsed). vm_compute. reflexivity. Defined.
Example parsed_connection : connect dns true parsed = Some_ (mkConnection "192.0.2.1" 443 HTTPS (Some "example.org")).
Proof. reflexivity. Qed.

(** A name that was read with a hostname, and flags that verify hostnames with OpenSSL. *)
Definition strict : Flags :=
  mkFlags true false None None true false false 4 None None "" "auto" "openssl" false false false true false.
Lemma https_to_process_unverifiable_witness :
  exists c, connect dns true (pid_url "https" (UPID_of_string resolver "master@localhost:5050") (Some "state")) = Some_ c /\
  to_scheme c = HTTPS /\ peer_hostname c = None /\
  configure_socket true true strict CLIENT (INET (V4 2130706433)) (peer_hostname c) =
    Error "No DNS name given and IP address verification is  disabled. I cannot work like this :(".
Proof.
  apply (https_to_process_unverifiable dns true (UPID_of_string resolver "master@localhost:5050") (Some "state") strict true true (INET (V4 2130706433)));
    reflexivity.
Defined.

(** A POST without a body and with a content type fails, although [createRequest] builds it. *)
Example post_without_body :
  post dns true false parsed None None (Some "text/plain") = Returns (Error "Attempted to do a POST with a Content-Type but no body") /\
  header_get "content-type" (req_headers (createRequest parsed "POST" None None (Some "text/plain"))) = Some "text/plain".
Proof. split; vm_compute; reflexivity. Qed.
