(* ===== verification/Initialize.v ===== *)
(** [process::initialize()] and [process::finalize()] ([process.cpp]): how any number of threads
    bring the library up, what it consists of, and how it is taken down.

    A step of a thread is an atomic load, the compare-and-swap, or one instruction of the
    initialization.  What the environment answers (flags, sockets, names) is a parameter. *)

From Stdlib Require Import String.
From S2P Require Import Prelude Digits Pid.

Local Open Scope string_scope.
Local Open Scope Z_scope.
Local Open Scope list_scope.

Section Initialize.
Context `{IpAddresses}.

(** ** Flags *)

(** [internal::Flags], those that concern the address, and whether memory is profiled. *)
Record flags := mkFlags {
  flag_ip : option IP;
  advertise_ip : option IP;
  flag_port : option Z;
  advertise_port : option Z;
  memory_profiling : bool;
}.
Definition USHRT_MAX : Z := 2 ^ 16 - 1.

(** The validation that [load] makes of each flag. *)
Definition validate (f : flags) : option string :=
  if match flag_ip f with Some i => negb (isV4 i) | None => false end
  then Some "Currently we allow only IPv4 address to be specified with the `--ip` flag"
  else if match flag_port f with Some p => (p <? 0) || (USHRT_MAX <? p) | None => false end then Some "LIBPROCESS_PORT is not a valid port"
  else if match advertise_port f with Some p => (p <=? 0) || (USHRT_MAX <? p) | None => false end
  then Some "LIBPROCESS_ADVERTISE_PORT is not a valid port"
  else None.

(** The environment. *)
Record environment := mkEnvironment {
  env_flags : flags;
  create_socket : option string;         (* an error of [Socket::create] or [setsockopt] *)
  bind : Address -> Try Address;
  hostname : Try string;                 (* [gethostname] *)
  getIP : string -> Try IP;
  listen : option string;
}.
Context (env : environment).

(** ** The address *)

(** What is bound: the flags, or any address and port. *)
Definition requested_address (f : flags) : Address := mkAddress (default ANY (flag_ip f)) (default 0 (flag_port f)).

(** What is told to others: the flags, or what was bound, with the address of the host in place
    of any address. *)
Definition advertised (f : flags) (bound : Address) : Address :=
  mkAddress (default (ip bound) (advertise_ip f)) (default (port bound) (advertise_port f)).
Definition resolve_any (a : Address) : Try Address :=
  if decide (ip a = ANY) then
    match hostname env with
    | Error m => Error ("Failed to initialize, gethostname: " +:+ m)
    | Some_ h =>
        match getIP env h with
        | Some_ i => Some_ (mkAddress i (port a))
        | Error m => Error ("Failed to obtain the IP address for '" +:+ h +:+ "'; the DNS service may not be able to resolve it: " +:+ m)
        end
    end
  else Some_ a.

(** ** What the library consists of *)

Inductive resource :=
| ProcessManager | SocketManager | EventLoop | Workers | ClockTimers | LoadedFlags | ServerSocket | LocalAddress | Listening | Accepting
| Help | Metrics | Logging | Profiler | MemoryProfiler | System | AuthenticatorManager | Reaper | MimeTypes | ProcessesRoute.
#[global] Instance resource_eq_dec : EqDecision resource.
Proof. solve_decision. Defined.

(** An instruction of the initialization: a resource, or the store to [initialize_complete]. *)
Inductive instruction := Provide (r : resource) | Complete.

#[global] Instance instruction_eq_dec : EqDecision instruction.
Proof. solve_decision. Defined.

(** [initialize], from the first line behind the compare-and-swap. *)
Definition initialization : list instruction :=
  map Provide [ProcessManager; SocketManager; EventLoop; Workers; ClockTimers; LoadedFlags; ServerSocket; LocalAddress; Listening] ++
  [Complete] ++
  map Provide ([Accepting; Help; Metrics; Logging; Profiler] ++ (if memory_profiling (env_flags env) then [MemoryProfiler] else []) ++
               [System; AuthenticatorManager; Reaper; MimeTypes; ProcessesRoute]).

(** What must be there before an instruction.  The global processes: the graph in a comment of
    [initialize] ([help] for [route], [metrics] for [metrics::add], and all others after these;
    the authenticator manager needs neither), and for all of them [spawn], which gives the
    process to the process manager, and [ProcessBase], whose pid has the local address.  The rest
    is what the code itself uses: [init_threads] is a method of the process manager and starts
    the thread of the event loop; the timers of the clock are ticks of the event loop, and
    [timedout] uses the process manager; the address comes from the flags and from [bind] on the
    socket, which then listens and accepts; [on_accept] uses the socket manager. *)
Definition needs (r : resource) : list resource :=
  match r with
  | Workers | ClockTimers => [ProcessManager; EventLoop]
  | LocalAddress => [ServerSocket; LoadedFlags]
  | Listening => [ServerSocket; LocalAddress]
  | Accepting => [Listening; SocketManager; EventLoop]
  | Help => [ProcessManager; Workers; LocalAddress]
  | Metrics | Logging | Profiler | MemoryProfiler | ProcessesRoute => [ProcessManager; Workers; LocalAddress; Help]
  | System => [ProcessManager; Workers; LocalAddress; Help; Metrics]
  | Reaper => [ProcessManager; Workers; LocalAddress; Help; Metrics]
  | AuthenticatorManager => [ProcessManager; Workers; LocalAddress]
  | _ => []
  end.

(** What calls [initialize] itself: [accept] and [spawn]. *)
Definition calls_initialize (r : resource) : bool :=
  match r with Accepting | Help | Metrics | Logging | Profiler | MemoryProfiler | System | AuthenticatorManager | Reaper | ProcessesRoute => true | _ => false end.

(** ** Threads *)

Inductive thread_pc := Outside | LoadStarted | LoadComplete | CompareExchange | Spin | Initializing (l : list instruction) | Returned (first : bool).

Record library := mkLibrary {
  initialize_started : bool;
  initialize_complete : bool;
  have : list resource;
  bound_address : option Address;        (* [__address__] *)
  threads : list thread_pc;
}.
Definition library_init (n : nat) : library := mkLibrary false false [] None (replicate n Outside).

(** Why the environment lets an instruction fail: the process exits. *)
Definition failure (r : resource) : option string :=
  match r with
  | LoadedFlags => validate (env_flags env)
  | ServerSocket => create_socket env
  | LocalAddress =>
      match bind env (requested_address (env_flags env)) with
      | Error m => Some m
      | Some_ b => match resolve_any (advertised (env_flags env) b) with Error m => Some m | Some_ _ => None end
      end
  | Listening => listen env
  | _ => None
  end.
Definition local_address : option Address :=
  match bind env (requested_address (env_flags env)) with
  | Error _ => None
  | Some_ b => match resolve_any (advertised (env_flags env) b) with Error _ => None | Some_ a => Some a end
  end.

Definition set_pc (t : nat) (p : thread_pc) (s : library) : library :=
  mkLibrary (initialize_started s) (initialize_complete s) (have s) (bound_address s) (<[t := p]> (threads s)).

(** An instruction.  A call of [initialize] that the thread makes before it has stored
    [initialize_complete] would wait for itself. *)
Definition provide_resource (r : resource) (s : library) : checked library :=
  if negb (forallb (fun n => bool_decide (n ∈ have s)) (needs r)) then Abort "a prerequisite is missing"
  else if calls_initialize r && negb (initialize_complete s) then Abort "initialize waits for itself"
  else match failure r with
       | Some m => Abort m
       | None =>
           Returns (mkLibrary (initialize_started s) (initialize_complete s) (have s ++ [r])
             (match r with LocalAddress => local_address | _ => bound_address s end) (threads s))
       end.

(** A step of the thread [t]; [None] when it cannot go on. *)
Definition step (t : nat) (s : library) : option (checked library) :=
  match threads s !! t with
  | None => None
  | Some Outside => Some (Returns (set_pc t LoadStarted s))
  | Some LoadStarted => Some (Returns (set_pc t (if initialize_started s then LoadComplete else CompareExchange) s))
  | Some LoadComplete => Some (Returns (set_pc t (if initialize_complete s then Returned false else CompareExchange) s))
  | Some CompareExchange =>
      Some (Returns (if initialize_started s then set_pc t Spin s
        else set_pc t (Initializing initialization) (mkLibrary true (initialize_complete s) (have s) (bound_address s) (threads s))))
  | Some Spin => if initialize_complete s then Some (Returns (set_pc t (Returned false) s)) else None
  | Some (Initializing (Provide r :: l)) =>
      Some (match provide_resource r s with Returns s => Returns (set_pc t (Initializing l) s) | Abort m => Abort m end)
  | Some (Initializing (Complete :: l)) =>
      Some (Returns (set_pc t (Initializing l) (mkLibrary (initialize_started s) true (have s) (bound_address s) (threads s))))
  | Some (Initializing []) => Some (Returns (set_pc t (Returned true) s))
  | Some (Returned _) => Some (Returns (set_pc t Outside s))
  end.

(** ** finalize *)

(** [finalize]: what it takes down, in order; the mime types stay. *)
Definition finalization : list resource :=
  [ProcessesRoute; Accepting; Listening; ServerSocket; Help; Metrics; Logging; Profiler; MemoryProfiler; System; Reaper; EventLoop; Workers;
   ClockTimers; AuthenticatorManager; SocketManager; ProcessManager; LocalAddress; LoadedFlags].
Definition finalize (s : library) : library :=
  mkLibrary (initialize_started s) (initialize_complete s) (foldl (fun h r => filter (fun x => x <> r) h) (have s) finalization) None (threads s).

(** [reinitialize] resets the two flags between [finalize] and [initialize]. *)
Definition reset (s : library) : library := mkLibrary false false (have (finalize s)) None (threads s).

End Initialize.

(** Properties of the initialization of the library. *)

Local Open Scope nat_scope.
Local Open Scope list_scope.

Section Spec.
Context `{IpAddresses} (env : environment) (n : nat).

(** The states that [n] threads reach, and what their calls have returned. *)
Inductive reaches : library -> list bool -> Prop :=
| reaches_init : reaches (library_init n) []
| reaches_step t s s' rs :
    reaches s rs -> step env t s = Some (Returns s') ->
    reaches s' (match threads s' !! t with Some (Returned b) => rs ++ [b] | _ => rs end).

(** ** The order of the instructions *)

Definition provided (l : list instruction) : list resource := l ≫= (fun i => match i with Provide r => [r] | Complete => [] end).
Definition completes (l : list instruction) : bool := existsb (fun i => match i with Complete => true | _ => false end) l.

(** Everything that an instruction needs is there when its turn comes. *)
Fixpoint ordered (l : list instruction) (h : list resource) (c : bool) : bool :=
  match l with
  | [] => true
  | Complete :: l => ordered l h true
  | Provide r :: l => forallb (fun x => bool_decide (x ∈ h)) (needs r) && (negb (calls_initialize r) || c) && ordered l (h ++ [r]) c
  end.
Lemma initialization_ordered : ordered (initialization env) [] false = true.
Proof. unfold initialization. by destruct (memory_profiling (env_flags env)); vm_compute. Qed.
Lemma ordered_app l1 l2 h c : ordered (l1 ++ l2) h c = ordered l1 h c && ordered l2 (h ++ provided l1) (c || completes l1).
Proof.
  revert h c. induction l1 as [|[r|] l1 IH]; intros h c; cbn.
  - by rewrite app_nil_r, orb_false_r.
  - rewrite IH. cbn. by rewrite <- !andb_assoc, <- app_assoc.
  - rewrite IH. cbn. by rewrite orb_true_r.
Qed.

Lemma provided_app l1 l2 : provided (l1 ++ l2) = provided l1 ++ provided l2.
Proof. apply bind_app. Qed.
Lemma completes_app l1 l2 : completes (l1 ++ l2) = completes l1 || completes l2.
Proof. apply existsb_app. Qed.

(** What is there when [initialize_complete] is stored.  The accept loop, the global processes
    and the authenticator manager come after it. *)
Definition core : list resource :=
  [ProcessManager; SocketManager; EventLoop; Workers; ClockTimers; LoadedFlags; ServerSocket; LocalAddress; Listening].
Lemma complete_after_core done rest : initialization env = done ++ rest -> completes done = true -> exists l, provided done = core ++ l.
Proof.
  unfold initialization. intros Hs Hc. change (map Provide _ ++ [Complete] ++ ?l) with (map Provide core ++ [Complete] ++ l) in Hs.
  generalize dependent (map Provide ([Accepting; Help; Metrics; Logging; Profiler] ++ (if memory_profiling (env_flags env) then [MemoryProfiler] else [])
    ++ [System; AuthenticatorManager; Reaper; MimeTypes; ProcessesRoute])). intros tail Hs.
  assert (Hlen : exists d, done = map Provide core ++ Complete :: d).
  { do 9 (destruct done as [|? done]; [done|]; cbn in Hs; injection Hs as <- Hs; cbn in Hc). destruct done as [|? done]; [done|].
    injection Hs as <- Hs. by exists done. }
  destruct Hlen as [d ->]. exists (provided d). by rewrite provided_app.
Qed.

(** ** The invariant *)

Definition initializing (p : thread_pc) : bool := match p with Initializing _ => true | _ => false end.

Record inv (s : library) (rs : list bool) : Prop := {
  inv_flags : initialize_started s = false -> initialize_complete s = false /\ have s = [] /\ rs = [] /\
    forall t p, threads s !! t = Some p -> initializing p = false;
  inv_split : exists done rest, initialization env = done ++ rest /\ have s = provided done /\ initialize_complete s = completes done /\
    bound_address s = (if decide (LocalAddress ∈ provided done) then local_address env else None) /\
    (forall t l, threads s !! t = Some (Initializing l) -> l = rest /\ true ∉ rs /\ forall t' l', threads s !! t' = Some (Initializing l') -> t' = t) /\
    (true ∈ rs -> rest = []) /\ (initialize_started s = true -> rest <> [] -> exists t, threads s !! t = Some (Initializing rest));
  inv_returned : forall t b, threads s !! t = Some (Returned b) -> b ∈ rs;
  inv_false : false ∈ rs -> initialize_complete s = true;
  inv_once : length (filter (fun b => b = true) rs) <= 1;
}.

Lemma set_pc_lookup t p s t' q : threads (set_pc t p s) !! t' = Some q -> (t' = t /\ q = p) \/ (t' <> t /\ threads s !! t' = Some q).
Proof. cbn. intros [(<- & <- & _)|[Hne Hq]]%list_lookup_insert_Some; [by left|right; split; [congruence|done]]. Qed.

(** A thread that does not initialize goes on, and perhaps returns. *)
Lemma set_pc_inv t p q s rs rs' : inv s rs -> threads s !! t = Some q -> initializing q = false -> initializing p = false ->
  (forall b, p = Returned b -> b = false /\ initialize_complete s = true) ->
  rs' = match p with Returned b => rs ++ [b] | _ => rs end -> inv (set_pc t p s) rs'.
Proof.
  intros [Hf Hsp Hr Hfa Ho] Hq Hqi Hpi Hret Hrs.
  assert (Hin : forall b, b ∈ rs' -> b ∈ rs \/ (b = false /\ initialize_complete s = true)).
  { intros b Hb. subst rs'. destruct p; auto. apply elem_of_app in Hb as [Hb|Hb%list_elem_of_singleton]; [auto|subst; right; by apply Hret]. }
  assert (Hsub : forall b, b ∈ rs -> b ∈ rs') by (intros b Hb; subst rs'; destruct p; auto; apply elem_of_app; by left).
  assert (Htrue : true ∈ rs' -> true ∈ rs) by (intros [?|[? _]]%Hin; done).
  split.
  - cbn. intros Hst. destruct (Hf Hst) as (Hc & Hh & Hrs0 & Hall). split_and!; try done.
    + subst rs'. destruct p; try done. destruct (Hret _ eq_refl) as [_ Hx]. congruence.
    + intros t' p' [[_ ->]|[_ Hp]]%set_pc_lookup; [done|by apply (Hall t')].
  - destruct Hsp as (done & rest & Hd & Hh & Hc & Hb & Hone & Htr & Hex). exists done, rest. split_and!; try done.
    + intros t' l [[_ Heq]|[Hne Hl]]%set_pc_lookup; [subst p; done|]. destruct (Hone t' l Hl) as (Hlr & Hnt & Hu). split_and!; [done|auto|].
      intros t2 l2 [[_ Heq]|[_ Hl2]]%set_pc_lookup; [subst p; done|by apply (Hu t2 l2)].
    + auto.
    + intros Hst Hne. destruct (Hex Hst Hne) as [t' Ht']. exists t'. cbn. rewrite list_lookup_insert_ne; [done|].
      intros ->. rewrite Hq in Ht'. injection Ht' as ->. done.
  - intros t' b [[_ Hp]|[_ Hp]]%set_pc_lookup; [|by eapply Hsub, Hr]. subst p rs'. apply elem_of_app. right. by apply list_elem_of_singleton.
  - cbn. intros [Hx|[_ Hx]]%Hin; auto.
  - subst rs'. destruct p as [| | | | |l|b]; try done. destruct (Hret b eq_refl) as [-> _]. rewrite filter_app, filter_cons_False by done. by rewrite filter_nil, app_nil_r.
Qed.

(** The thread that initializes executes an instruction. *)
Lemma instruction_inv t i l s h c a rs : inv s rs -> threads s !! t = Some (Initializing (i :: l)) ->
  h = have s ++ provided [i] -> c = initialize_complete s || completes [i] ->
  a = (if decide (i = Provide LocalAddress) then local_address env else bound_address s) ->
  inv (set_pc t (Initializing l) (mkLibrary (initialize_started s) c h a (threads s))) rs.
Proof.
  intros [Hf Hsp Hr Hfa Ho] Ht -> -> ->.
  assert (Hst : initialize_started s = true).
  { destruct (initialize_started s) eqn:Hs; [done|]. destruct (Hf eq_refl) as (_ & _ & _ & Hall). by specialize (Hall _ _ Ht). }
  destruct Hsp as (done & rest & Hd & Hh & Hc & Hb & Hone & Htr & Hex). destruct (Hone t (i :: l) Ht) as (<- & Hnt & Hu). split.
  - cbn. congruence.
  - exists (done ++ [i]), l. cbn. rewrite provided_app, completes_app. split_and!.
    + by rewrite <- app_assoc.
    + by rewrite Hh.
    + by rewrite Hc.
    + rewrite Hb. destruct (decide (LocalAddress ∈ provided done ++ provided [i])) as [Hin|Hin].
      * destruct (decide (i = Provide LocalAddress)) as [->|Hne]; [done|]. rewrite decide_True; [done|].
        apply elem_of_app in Hin as [?|Hin]; [done|]. destruct i as [r|]; cbn in Hin; [|by apply not_elem_of_nil in Hin].
        apply list_elem_of_singleton in Hin as <-. done.
      * rewrite decide_False; [rewrite decide_False; [done|]|].
        -- intros Hd'. apply Hin, elem_of_app. by left.
        -- intros ->. apply Hin, elem_of_app. right. cbn. by apply list_elem_of_singleton.
    + intros t' l' [(<- & Heq & _)|[Hne Hl]]%list_lookup_insert_Some; [injection Heq as <-|exfalso; apply Hne; by rewrite (Hu t' l')].
      split_and!; try done. intros t2 l2 [(<- & _ & _)|[_ Hl2]]%list_lookup_insert_Some; [done|by apply (Hu t2 l2)].
    + intros Hin. by destruct Hnt.
    + intros _ _. exists t. apply list_lookup_insert_eq. by apply lookup_lt_Some in Ht.
  - intros t' b [[_ ?]|[_ Hp]]%set_pc_lookup; [done|by apply (Hr t')].
  - cbn. intros Hx. by rewrite (Hfa Hx).
  - done.
Qed.

(** A thread wins the compare-and-swap. *)
Lemma wins_inv t s rs : inv s rs -> threads s !! t = Some CompareExchange -> initialize_started s = false ->
  inv (set_pc t (Initializing (initialization env)) (mkLibrary true (initialize_complete s) (have s) (bound_address s) (threads s))) rs.
Proof.
  intros [Hf Hsp Hr Hfa Ho] Ht Hst. destruct (Hf Hst) as (Hc & Hh & -> & Hall). split; cbn; try done.
  - exists [], (initialization env). rewrite Hc, Hh. cbn. destruct Hsp as (done & rest & Hd & Hh' & _ & Hb & _). split_and!; try done.
    + rewrite Hb, <- Hh', Hh. done.
    + intros t' l [(<- & Heq & _)|[Hne Hl]]%list_lookup_insert_Some; [injection Heq as <-|by specialize (Hall _ _ Hl)].
      split_and!; [done|by apply not_elem_of_nil|]. intros t2 l2 [(<- & _ & _)|[_ Hl2]]%list_lookup_insert_Some; [done|by specialize (Hall _ _ Hl2)].
    + intros Hin. by apply not_elem_of_nil in Hin.
    + intros _ _. exists t. apply list_lookup_insert_eq. by apply lookup_lt_Some in Ht.
  - intros t' b [(_ & ? & _)|[_ Hp]]%list_lookup_insert_Some; [done|]. by apply (Hr t') in Hp.
Qed.

Lemma no_true rs : true ∉ rs -> filter (fun b => b = true) rs = [].
Proof.
  induction rs as [|[|] rs IH]; intros Hn; [done|destruct Hn; by left|]. rewrite filter_cons_False by done. apply IH. intros Hin. apply Hn. by right.
Qed.

(** The thread that initializes returns. *)
Lemma finished_inv t s rs : inv s rs -> threads s !! t = Some (Initializing []) -> inv (set_pc t (Returned true) s) (rs ++ [true]).
Proof.
  intros [Hf Hsp Hr Hfa Ho] Ht. destruct Hsp as (done & rest & Hd & Hh & Hc & Hb & Hone & Htr & Hex).
  destruct (Hone t [] Ht) as (<- & Hnt & Hu). split.
  - cbn. intros Hs. destruct (Hf Hs) as (_ & _ & _ & Hall). by specialize (Hall _ _ Ht).
  - exists done, []. split_and!; try done. intros t' l [[_ ?]|[Hne Hl]]%set_pc_lookup; [done|]. by destruct Hne, (Hu t' l).
  - intros t' b [[_ [= ->]]|[_ Hp]]%set_pc_lookup; apply elem_of_app; [right; by apply list_elem_of_singleton|left; by apply (Hr t')].
  - cbn. intros [Hx|Hx%list_elem_of_singleton]%elem_of_app; [by apply Hfa|done].
  - rewrite filter_app, length_app. replace (filter (fun b => b = true) rs) with (@nil bool); [done|]. symmetry.
    by apply no_true.
Qed.

(** A step keeps the invariant; it fails only where the environment lets it fail. *)
Lemma step_inv t s rs r : inv s rs -> step env t s = Some r ->
  match r with
  | Returns s' => inv s' (match threads s' !! t with Some (Returned b) => rs ++ [b] | _ => rs end)
  | Abort m => exists x, failure env x = Some m
  end.
Proof.
  intros HI. unfold step. destruct (threads s !! t) as [p|] eqn:Ht; [|done]. pose proof (lookup_lt_Some _ _ _ Ht) as Hlt.
  assert (Hat : forall q s, threads s !! t <> None -> threads (set_pc t q s) !! t = Some q).
  { intros q s0 Hn. cbn. apply list_lookup_insert_eq. apply lookup_lt_is_Some_1. by apply not_eq_None_Some. }
  assert (Hsome : threads s !! t <> None) by (by rewrite Ht).
  assert (Hplain : forall q, initializing p = false -> initializing q = false -> (forall b, q = Returned b -> b = false /\ initialize_complete s = true) ->
    inv (set_pc t q s) (match threads (set_pc t q s) !! t with Some (Returned b) => rs ++ [b] | _ => rs end)).
  { intros q Hp Hq Hb. eapply set_pc_inv; [exact HI|exact Ht|done|done|done|]. by rewrite Hat. }
  destruct p as [| | | | |[|[x|] l]|b].
  - intros [= <-]. by apply Hplain.
  - intros [= <-]. destruct (initialize_started s); by apply Hplain.
  - intros [= <-]. destruct (initialize_complete s) eqn:Hc; apply Hplain; try done. by intros b [= <-].
  - destruct (initialize_started s) eqn:Hst; intros [= <-]; [by apply Hplain|]. rewrite Hat by done. by apply wins_inv.
  - destruct (initialize_complete s) eqn:Hc; [|done]. intros [= <-]. apply Hplain; try done. by intros b [= <-].
  - intros [= <-]. rewrite Hat by done. by apply finished_inv.
  - intros [= <-]. destruct (provide_resource env x s) as [s'|m] eqn:Hp.
    + unfold provide_resource in Hp. destruct (negb _); [done|]. destruct (_ && _); [done|]. destruct (failure env x); [done|]. injection Hp as <-.
      rewrite Hat by done. eapply instruction_inv; [done|done|done|cbn; by rewrite orb_false_r|]. cbn. by destruct x.
    + pose proof (inv_split _ _ HI) as (done & rest & Hd & Hh & Hc & _ & Hone & _). destruct (Hone t _ Ht) as (<- & _).
      pose proof initialization_ordered as Hor. rewrite Hd, ordered_app in Hor. apply andb_true_iff in Hor as [_ Hor].
      cbn [ordered] in Hor. apply andb_true_iff in Hor as [[Hn Hci]%andb_true_iff _]. cbn [app orb] in Hn, Hci. rewrite <- Hh in Hn. rewrite <- Hc in Hci.
      unfold provide_resource in Hp. rewrite Hn in Hp. cbn [negb] in Hp. exists x.
      destruct (calls_initialize x), (initialize_complete s); try done; cbn in Hp; destruct (failure env x); congruence.
  - intros [= <-]. rewrite Hat by done. eapply instruction_inv; [done|done|cbn; by rewrite app_nil_r|cbn; by rewrite orb_true_r|done].
  - intros [= <-]. by apply Hplain.
Qed.

Lemma inv_initial : inv (library_init n) [].
Proof.
  assert (Hout : forall t p, threads (library_init n) !! t = Some p -> p = Outside) by (intros t p Hp; cbn in Hp; by apply lookup_replicate in Hp as [-> _]).
  split; cbn; try done.
  - intros _. split_and!; try done. by intros t p ->%Hout.
  - exists [], (initialization env). split_and!; try done; [by intros t l ?%Hout|]. intros Hin. by apply not_elem_of_nil in Hin.
  - by intros t b ?%Hout.
  - intros Hin. by apply not_elem_of_nil in Hin.
  - cbn. lia.
Qed.
Lemma reaches_inv_library s rs : reaches s rs -> inv s rs.
Proof. induction 1 as [|t s s' rs _ IH Hs]; [apply inv_initial|]. apply (step_inv t s rs _ IH Hs). Qed.

(** C40: however the calls of [initialize] by any number of threads interleave, at most one of
    them returns true, and at most one thread initializes at a time.  A call that has returned
    finds a beginning of the whole that has at least the [core]: the process and the socket
    manager, the event loop, the workers, the clock, and the server socket that listens on an
    address; the one that returned true, everything.  (A call that returned false may find
    neither the global processes nor the authenticator manager, which are created after
    [initialize_complete] is stored: [no_authenticator_manager].)  No instruction of the
    initialization comes before what it needs or waits for itself: the process exits only where
    the environment fails.  The runs are those of [initialize] alone, before any call of
    [finalize]; after it, [initialize] returns at once and nothing is there
    ([finalized_not_initialized]). *)
Theorem initialized_once s rs : reaches s rs ->
  length (filter (fun b => b = true) rs) <= 1 /\
  (forall t l t' l', threads s !! t = Some (Initializing l) -> threads s !! t' = Some (Initializing l') -> t = t') /\
  (rs <> [] -> (exists l l', have s = core ++ l /\ provided (initialization env) = have s ++ l') /\ bound_address s = local_address env) /\
  (true ∈ rs -> have s = provided (initialization env)) /\
  (forall t m, step env t s = Some (Abort m) -> exists r, failure env r = Some m).
Proof.
  intros Hr. apply reaches_inv_library in Hr as HI. pose proof (inv_split _ _ HI) as (done & rest & Hd & Hh & Hc & Hb & Hone & Htr & _).
  assert (Hall : true ∈ rs -> rest = [] /\ initialize_complete s = true).
  { intros Hin. pose proof (Htr Hin) as ->. split; [done|]. rewrite app_nil_r in Hd. rewrite Hc, <- Hd. unfold initialization.
    by rewrite !completes_app, orb_true_r. }
  split_and!; [by apply (inv_once _ _ HI)| | | |].
  - intros t l t' l' Ht Ht'. destruct (Hone t' l' Ht') as (_ & _ & Hu). by apply (Hu t l).
  - intros Hne. assert (Hcc : initialize_complete s = true).
    { destruct rs as [|[|] rs']; [done|apply Hall; by left|apply (inv_false _ _ HI); by left]. }
    rewrite Hc in Hcc. destruct (complete_after_core done rest Hd Hcc) as [l Hl]. rewrite Hh, Hl. split; [exists l, (provided rest); split; [done|]; by rewrite Hd, provided_app, Hl|].
    rewrite Hb, Hl, decide_True; [done|]. apply elem_of_app. left. unfold core. set_solver.
  - intros Hin. destruct (Hall Hin) as [-> _]. rewrite app_nil_r in Hd. by rewrite Hh, Hd.
  - intros t m Hs. by apply (step_inv t s rs _ HI Hs).
Qed.

(** Threads that wait wait for one that can go on. *)
Lemma started_has_initializer s rs : reaches s rs -> initialize_complete s = false -> initialize_started s = true ->
  exists t i l, threads s !! t = Some (Initializing (i :: l)).
Proof.
  intros Hr Hc Hst. apply reaches_inv_library in Hr as HI. pose proof (inv_split _ _ HI) as (done & rest & Hd & _ & Hcd & _ & _ & _ & Hex).
  destruct rest as [|i l]; [|destruct (Hex Hst ltac:(done)) as [t Ht]; by exists t, i, l]. exfalso. rewrite app_nil_r in Hd.
  rewrite Hcd, <- Hd in Hc. unfold initialization in Hc. by rewrite !completes_app, orb_true_r in Hc.
Qed.

(** ** The address *)

(** The address that others are told is not any address, unless the host resolves to it. *)
Lemma local_address_exact a : local_address env = Some a -> exists b,
  bind env (requested_address (env_flags env)) = Some_ b /\
  port a = default (port b) (advertise_port (env_flags env)) /\
  let i := default (ip b) (advertise_ip (env_flags env)) in
  if decide (i = ANY) then exists h, hostname env = Some_ h /\ getIP env h = Some_ (ip a) else ip a = i.
Proof.
  unfold local_address. destruct (bind env _) as [b|m]; [|done]. intros Hr. exists b. split; [done|]. unfold resolve_any, advertised in Hr.
  cbn in *. destruct (decide (default (ip b) (advertise_ip (env_flags env)) = ANY)) as [|]; [|by injection Hr as <-].
  destruct (hostname env) as [h|m]; [|done]. destruct (getIP env h) as [i|m] eqn:Hi; [|done]. injection Hr as <-. split; [done|by exists h].
Qed.

End Spec.

(** Concrete initializations. *)

Local Open Scope string_scope.
Local Open Scope Z_scope.
Local Open Scope list_scope.

#[local] Existing Instance Pid.some_addresses.

(** No flags; any port is bound, and the host is known. *)
Definition host : environment :=
  mkEnvironment (mkFlags None None None None false) None (fun a => Some_ (mkAddress (ip a) (if decide (port a = 0) then 5050 else port a)))
    (Some_ "localhost") resolver None.

Fixpoint play (l : list nat) (s : library) (rs : list bool) : option (library * list bool) :=
  match l with
  | [] => Some (s, rs)
  | t :: l =>
      match step host t s with
      | Some (Returns s) => play l s (match threads s !! t with Some (Returned b) => rs ++ [b] | _ => rs end)
      | _ => None
      end
  end.
Lemma play_reaches_library n l s rs s' rs' : reaches host n s rs -> play l s rs = Some (s', rs') -> reaches host n s' rs'.
Proof.
  revert s rs. induction l as [|t l IH]; intros s rs Hr; cbn; [by intros [= <- <-]|]. destruct (step host t s) as [[s1|m]|] eqn:Hs; try done.
  apply IH. by eapply reaches_step.
Qed.
Definition after (l : list nat) : library * list bool := default (library_init 2, []) (play l (library_init 2) []).

(** The first thread initializes up to the store of [initialize_complete] and the accept loop,
    the second waits and returns. *)
Definition in_the_middle : list nat := replicate 4 0%nat ++ replicate 4 1%nat ++ replicate 10 0%nat ++ [1%nat].
Lemma in_the_middle_reached : reaches host 2 (after in_the_middle).1 (after in_the_middle).2.
Proof. apply (play_reaches_library 2 in_the_middle (library_init 2) []); [apply reaches_init|vm_compute; reflexivity]. Qed.

Lemma initialized_once_witness :
  (exists l l', have (after in_the_middle).1 = core ++ l /\ provided (initialization host) = have (after in_the_middle).1 ++ l') /\
  bound_address (after in_the_middle).1 = local_address host.
Proof.
  destruct (initialized_once host 2 (after in_the_middle).1 (after in_the_middle).2 in_the_middle_reached) as (_ & _ & H & _).
  apply H. vm_compute. discriminate.
Defined.

(** A call has returned and connections are accepted, and there is no authenticator manager
    yet: a request to an endpoint with a realm, or a call of [setAuthenticator], would use a null
    pointer. *)
Example no_authenticator_manager :
  (after in_the_middle).2 = [false] /\ Accepting ∈ have (after in_the_middle).1 /\ AuthenticatorManager ∉ have (after in_the_middle).1.
Proof.
  split; [vm_compute; reflexivity|]. split; [apply (bool_decide_unpack _)|apply (bool_decide_unpack _)]; vm_compute; exact I.
Qed.

(** The whole initialization, and the address. *)
Definition whole : list nat := replicate 25 0%nat.
Example whole_initialization :
  (after whole).2 = [true] /\ have (after whole).1 = provided (initialization host) /\
  bound_address (after whole).1 = Some (mkAddress (Loopback : IP) 5050).
Proof. vm_compute. done. Qed.

(** [finalize] leaves the mime types only, and the library can be initialized again. *)
Example finalize_leaves : have (finalize (after whole).1) = [MimeTypes].
Proof. vm_compute. reflexivity. Qed.

(** After [finalize] alone, [initialize] returns at once and nothing is there. *)
Example finalized_not_initialized :
  match play (replicate 4 0%nat) (finalize (after whole).1) [] with
  | Some (s, rs) => rs = [false] /\ have s = [MimeTypes]
  | None => False
  end.
Proof. vm_compute. split; reflexivity. Qed.
